(* ===== verification/_CoqProject ===== *)
-Q . S2P
Prelude.v
Hash.v
Text.v
Rounding.v
Scan.v
Ordered.v
Value.v
Json.v
Toml.v
TomlRoundtrip.v
Xml.v
Yaml.v
Utf8Out.v
Traits.v
Convert.v
Derive.v
Attrs.v
ErrorDerive.v
Streaming.v
Registry.v
Types.v
Auth.v
Clients.v
Lifecycle.v
Manager.v
Ws.v
Sse.v
HttpCore.v
HttpServer.v
HttpClient.v
Turbo.v
Messaging.v
Genai.v
Providers.v
Router.v
Schema.v
Config.v
Health.v
Vectorstore.v
Metrics.v
Cli.v
Obs.v
Log.v
Delivery.v
Overlay.v
Rest.v
Upgrade.v
Transfer.v
Fs.v
Root.v
Middleware.v
