(* ===== verification/Prelude.v ===== *)
(** * Ferroly: a verification development

    Ferroly is a Rust toolkit for network services: an in-house HTTP/1.1 client and server, WebSockets, codecs with
    derive macros, authentication, resilience helpers, a lifecycle manager, messaging, configuration, observability
    and a generative-AI layer, each a module of the crate [ferroly] ([crates/ferroly/src]); the derives are the crate
    [ferroly-derive].  This library translates the modules into executable definitions and proves the properties that
    make them correct.

    ** Files and what they model

    Shared:
    - [Prelude]: Rust's [Result] with its [?] operator ([let?]), fuelled computations ([let!], where [None] is
      running out of fuel), bytes, machine-width integers, big-endian encodings, the byte-string functions of
      [str] the sources use, tactics and hints.
    - [Text] ([codec/fmt.rs] and the parts of the standard library the codecs lean on): UTF-8 validation and
      lossy decoding, trimming, integer parsing and printing, binary64 parsing and shortest printing over the
      standard library's [spec_float].  [Rounding]: order facts of binary64 arithmetic.
    - [Scan]: the loop of a scanning parser, trimmed text, lines.  [Ordered]: [Ord], stable sorting and [BTreeMap].
    - [Hash] ([hash/mod.rs]): the streaming SHA-256 and SHA-1 states, HMAC-SHA256, [Digest].

    The codecs:
    - [Value] ([codec/value.rs], [error.rs]): the dynamic value, its accessors, errors, the [Encoder] interface;
      [Convert]: the conversions into it and boxed values.
    - [Json] ([codec/json.rs]): the parser (a state of input and position, with the depth counter), the writer,
      pretty printing and the streaming sequence decoder; [Streaming] makes both an [Encoder] and a [Decoder].
    - [Toml] and [TomlRoundtrip] ([codec/toml.rs]), [Xml] ([codec/xml.rs]), [Yaml] ([codec/yaml.rs]): encoders and
      parsers of the other formats.  [Utf8Out]: the four encoders write UTF-8.
    - [Traits] ([codec/traits.rs]): [Encode] and [Decode] as type classes, one instance per impl, with their laws.
      [Derive] ([ferroly-derive/src/ser.rs], [de.rs]): the code the derives emit; [Attrs] ([attrs.rs], [case.rs]):
      the wire names they compute; [ErrorDerive] ([error.rs]): the expansion of [FerrolyError].
    - [Registry] ([codec/registry.rs]): dispatch by content type.  [Types]: the Rust types built from the impls and
      the derives as a closed universe [Ty], with its denotation [sem] into the types of [Traits], [Convert] and
      [Derive], and the laws of the type classes for all of them by induction, so that what is said of a type
      rests on the decoders themselves.  [Schema] ([codec/schema.rs]): JSON-Schema
      validation.

    HTTP and what is built on it:
    - [HttpCore] ([http/core.rs], [http/io.rs]): methods, status codes, header maps, URIs, the head readers with
      their limits, the request writer.
    - [HttpServer] ([http/server.rs]): request bodies, response writing, [handle_one] and [serve_conn]; Module
      [Accept] is the accept loop with its semaphore and the graceful drain, as a step relation.
    - [HttpClient] ([http/message.rs], [http/pool.rs], [http/client.rs]): response bodies, the pool of idle
      connections, [exchange] and [send].  [Transfer] ([http/transport.rs], [http/download.rs]): PEM and TLS
      configuration, connecting, resumable downloads.
    - [Sse] ([http/sse.rs]): the event writer and the incremental decoder.
    - [Ws] ([ws/frame.rs], [conn.rs], [rand.rs], [handshake.rs]): the frame codec, the buffered reader over
      arbitrarily cut reads, the read and write loops; [Upgrade] ([ws/client.rs], [ws/server.rs]): the handshake and
      the server's connection task.
    - [Turbo] ([turbo/mod.rs]): route patterns and matching, request dispatch with authenticator, filters and
      middlewares, parameters, query strings and content negotiation; it is a handler of [HttpServer].
      [Middleware]: the rate limiter, the metrics, log and trace layers, typed bodies.
    - [Rest] ([rest/]): the client over the exchange of [HttpClient], the server as a component.

    Services:
    - [Auth] ([auth/mod.rs]): base64 and HS256 web tokens, on [Hash] and [Json].
    - [Clients] ([clients/breaker.rs], [clients/retry.rs]): the circuit breaker as a state machine driven by
      interleaved callers, and the retry loop with its backoff.
    - [Lifecycle] ([lifecycle/manager.rs], [state.rs], [component.rs], [error.rs]): the component registry, the
      topological sort, starting and stopping, the bounded shutdown; [Manager]: start timeouts and the life of a
      process.  [Health] ([lifecycle/health.rs], [errutils.rs]).
    - [Messaging] ([messaging/mod.rs]): the local provider, every task a step of one relation; [Delivery]: typed
      messages, fallible handlers, the log observer.
    - [Config] ([config.rs]), [Cli] ([cli/mod.rs]), [Fs] ([fsutils.rs], [vfs/mod.rs]), [Vectorstore]
      ([vectorstore/mod.rs]).
    - [Metrics] ([metrics/mod.rs]), [Obs] ([obs/mod.rs], [obs/otlp.rs]), [Log] ([log.rs]).
    - [Genai] ([genai/]: messages, templates, prompts), [Providers] ([genai/providers/], [clients/auth.rs]),
      [Router] ([genai/router/]), [Overlay]: its configuration file, builders and decision log.
    - [Root] ([lib.rs]): the aggregated error.

    Each file has the definitions of its component first (a Module named after it, with the source's names),
    then reference definitions and lemmas, then the properties with a witness each where they have hypotheses.
    Names that are Rust methods keep their name; loops of an [async fn] are separate fixpoints named after it.
    Components meet in type classes: [Encoder], [Decoder], [Encode] and [Decode] with their laws, [Codec] for what a
    format promises to the registry, [Os] for what the operating system answers to the file system.

    ** How state and effects are rendered

    Structs are records and methods return the new record.  A mutex-protected object is its contents; callers
    that interleave are explicit sequences of events (the breaker, the accept loop, the log writer) or steps of a
    relation (messaging, the accept loop, the lock-free histogram), each step atomic.  Clocks, timers, the
    environment, the file system, hash-map iteration order, Unicode case tables, random bytes, rustls and the number
    of bytes a socket read returns are arguments, oracles or classes the theorems quantify over.  A socket is the
    bytes the peer sends before it closes and the bytes written to it.  Handlers, components, connectors, model
    providers and operations passed as closures are arguments; nothing is assumed of them unless a theorem says so.
    A panic is a result of its own where the code can panic on an input ([Toml.Stop], [Xml.Stop],
    [Registry.Failure]).

    Assumptions that are part of a model: in [Router], time passes only in the calls of a provider and in backoff;
    the rate limiter's clock reads below 2^53 seconds; a directory tree does not change while it is walked; the
    format literals of an error name only what their pattern binds.  In the two round trips stated for any type
    with the traits (configuration files, typed messages) the laws of the type and the UTF-8 of the text are
    hypotheses; [Types] and [Utf8Out] prove them for the universe.

    ** Fuel

    Fixpoints whose recursion is not structural take fuel and return [None] when it runs out.  The entry points
    choose it from the input: one more than the length of the bytes still to read (every iteration of a
    parser, the head, chunk and body readers, the connection loop and the SSE decoder consumes at least one
    byte), the number of nodes for the graph algorithms, the number of attempts left for retry.  For each entry
    point a lemma or property shows that it returns.  Nesting is bounded by the depth limit of the codecs (128).

    ** What the theorems show

    - Refinement of standards and specifications: streaming hashes and HMAC equal the one-shot definitions of FIPS
      180-4 and RFC 2104 for every way of feeding the input; pipelined requests are served one by one; dispatch
      follows the routing rules; the rate limiter is a bucket per key; a REST call reaches the handler it names;
      the breakers of the router are those of [Clients].
    - Round trips: values of every type of the universe [Ty] that a format can hold ([wf]) through every content type, JSON, TOML, YAML and XML
      trees, base64, signed tokens, WebSocket messages, SSE events, HTTP requests and responses, typed messages,
      command lines, configuration files, PEM blocks, URIs and integers come back as they were written, across any
      cut of the byte stream where they travel in one.  What a format changes of a tree is a normal form of its own
      ([toml_norm], [xml_norm], [yaml_norm]), and what it cannot hold is excluded by a boolean predicate whose
      conditions the theorem's comment lists.
    - Equivalence: streaming and tree decoding agree; the derives agree on the wire names; conversion is encoding.
    - Safety: a token is accepted only with the right tag and times; an open breaker rejects until its timeout;
      the HTTP server hands on only bounded, unambiguously framed requests; headers cannot carry line breaks;
      components start after their dependencies (from any state that sequences of operations reach, none of them
      overlapping or abandoned) and stop after their dependents; later configuration layers win; no message above the limit is
      delivered; no handler runs for a request the authenticator or a filter refused; a histogram's readings are
      those of some order of the observations.
    - Invariants: parser depth, breaker counters, acyclic registries, permits of the accept loop, conservation of
      messages, spans that form traces.
    - Errors: the source and the conversions of derived errors; what a failing handler, request, provider, start or file operation leads to, branch by branch.
    - Termination and liveness: every reader, parser and loop ends on every input; a bounded shutdown settles every
      component; a WebSocket session, its connection broken or not, ends with its handler and its writer.
    - Findings: where the code does something its documentation or intent denies, an [Example] shows it.

    ** Not modelled

    The runtime facade [rt/mod.rs] and the module declarations of the crate root are re-exports.  The sockets,
    rustls, tokio's tasks and the quoting of procedural macros are external: what they are asked and what follows
    from their answers is modelled, not what they do.  Failing writes to a socket end the operation that made them and are
    represented only where the code goes on (the WebSocket writer, [Upgrade.write_fault]).  Memory limits and the standard library's hasher are not represented. *)

From Stdlib Require Export ZArith Lia Strings.Byte.
From Stdlib Require Import String.
From stdpp Require Export base numbers strings list gmap countable sorting.

#[export] Set Default Goal Selector "!".

(** ** Rust's [Result] *)

Inductive Result (T E : Type) : Type :=
| Ok (v : T)
| Err (e : E).
Arguments Ok {T E} v.
Arguments Err {T E} e.

Definition rbind {T U E} (r : Result T E) (k : T -> Result U E) : Result U E :=
  match r with
  | Ok v => k v
  | Err e => Err e
  end.

Definition map_err {T E F} (f : E -> F) (r : Result T E) : Result T F :=
  match r with
  | Ok v => Ok v
  | Err e => Err (f e)
  end.

Definition ok_or {T E} (o : option T) (e : E) : Result T E :=
  match o with
  | Some v => Ok v
  | None => Err e
  end.

Definition is_ok {T E} (r : Result T E) : bool :=
  match r with Ok _ => true | Err _ => false end.

Declare Scope ferroly_scope.
Delimit Scope ferroly_scope with ferroly.
Open Scope ferroly_scope.

(** [let? x := e in k] is Rust's [let x = e?; k]. *)
Notation "'let?' x := e 'in' k" := (rbind e (fun x => k))
  (at level 10, x pattern, e at level 100, k at level 200)
  : ferroly_scope.

(** Fuelled computations: [None] is running out of fuel, which each component
    rules out for its entry points. *)
Definition fbind {T U E} (r : option (Result T E)) (k : T -> option (Result U E))
  : option (Result U E) :=
  match r with
  | None => None
  | Some (Ok v) => k v
  | Some (Err e) => Some (Err e)
  end.

Notation "'let!' x := e 'in' k" := (fbind e (fun x => k))
  (at level 10, x pattern, e at level 100, k at level 200)
  : ferroly_scope.

(** [b!"text"] is the UTF-8 byte sequence of a string literal.  Rust's
    [String], [&str], [Vec<u8>] and [&[u8]] are all modelled by [list byte]. *)
Notation "'b!' s" := (list_byte_of_string s%string)
  (at level 1, s at level 0, only parsing) : ferroly_scope.

Abbreviation bytes := (list byte).

(** ** Bytes and machine integers *)

Open Scope Z_scope.

(** The value of a [u8]. *)
Definition b2z (b : byte) : Z := Z.of_N (Byte.to_N b).

(** [z as u8]: truncation to eight bits. *)
Definition z2b (z : Z) : byte :=
  match Byte.of_N (Z.to_N (z mod 256)) with
  | Some b => b
  | None => x00
  end.

Definition u16_max : Z := 65535.
Definition u32_max : Z := 4294967295.
Definition u64_max : Z := 18446744073709551615.
Definition i64_max : Z := 9223372036854775807.
Definition i64_min : Z := -9223372036854775808.

Definition wrap32 (z : Z) : Z := z mod 4294967296.
Definition wrap64 (z : Z) : Z := z mod 18446744073709551616.

(** [u8] exclusive or. *)
Definition bxor (a b : byte) : byte := z2b (Z.lxor (b2z a) (b2z b)).

(** [x.to_be_bytes()] for an [n]-byte unsigned integer. *)
Fixpoint to_be_bytes (n : nat) (z : Z) : bytes :=
  match n with
  | O => []
  | S n' => z2b (z / 256 ^ Z.of_nat n') :: to_be_bytes n' z
  end.

(** [uN::from_be_bytes]. *)
Definition from_be_bytes (bs : bytes) : Z :=
  fold_left (fun acc b => acc * 256 + b2z b) bs 0.

#[export] Instance byte_eq_dec_inst : EqDecision byte := Byte.byte_eq_dec.

#[export] Instance byte_inhabited : Inhabited byte := populate x00.

#[export] Instance byte_countable : Countable byte :=
  inj_countable Byte.to_N Byte.of_N Byte.of_to_N.

(** ** Slices *)

(** [slice.chunks(n)]: consecutive pieces of [n] elements, the last one
    possibly shorter; the fuel is the length, enough because every piece
    consumes at least one element. *)
Fixpoint chunks_aux {A} (fuel n : nat) (l : list A) : list (list A) :=
  match fuel, l with
  | S f, _ :: _ => take n l :: chunks_aux f n (drop n l)
  | _, _ => []
  end.

Definition chunks {A} (n : nat) (l : list A) : list (list A) :=
  chunks_aux (length l) n l.

(** [bytes.starts_with(p)]. *)
Fixpoint starts_with (l p : bytes) : bool :=
  match p, l with
  | [], _ => true
  | y :: p', x :: l' => bool_decide (x = y) && starts_with l' p'
  | _ :: _, [] => false
  end.

(** [s.strip_prefix(p)]. *)
Definition strip_prefix (l p : bytes) : option bytes :=
  if starts_with l p then Some (drop (length p) l) else None.

(** [s.ends_with(p)]. *)
Definition ends_with (l p : bytes) : bool := starts_with (rev l) (rev p).

(** [s.split(c)] for an ASCII separator: always at least one piece. *)
Fixpoint split_on (c : byte) (l : bytes) : list bytes :=
  match l with
  | [] => [[]]
  | x :: l' =>
      if bool_decide (x = c) then [] :: split_on c l'
      else match split_on c l' with
           | w :: ws => (x :: w) :: ws
           | [] => [[x]]
           end
  end.

(** [s.split_once(c)] for an ASCII separator. *)
Fixpoint split_once (c : byte) (l : bytes) : option (bytes * bytes) :=
  match l with
  | [] => None
  | x :: l' =>
      if bool_decide (x = c) then Some ([], l')
      else match split_once c l' with
           | Some (p, q) => Some (x :: p, q)
           | None => None
           end
  end.

(** [parts.join(sep)]. *)
Fixpoint join (sep : bytes) (ws : list bytes) : bytes :=
  match ws with
  | [] => []
  | [w] => w
  | w :: ws' => w ++ sep ++ join sep ws'
  end.

(** [u8::to_ascii_lowercase] and its lift to strings. *)
Definition ascii_lower (b : byte) : byte :=
  if (65 <=? b2z b) && (b2z b <=? 90) then z2b (b2z b + 32) else b.

Definition to_ascii_lowercase (s : bytes) : bytes := map ascii_lower s.

Definition eq_ignore_ascii_case (a b : bytes) : bool :=
  bool_decide (to_ascii_lowercase a = to_ascii_lowercase b).

(** ** Tactics *)

(** Case analysis on the outermost conditional or match of the goal. *)
Ltac split_if :=
  match goal with
  | |- context [if bool_decide ?P then _ else _] => case_bool_decide
  | |- context [if decide ?P then _ else _] => case_decide
  | |- context [if ?c then _ else _] => destruct c eqn:?
  end.

(** The same on a hypothesis. *)
Ltac split_if_in H :=
  match type of H with
  | context [if bool_decide ?P then _ else _] => case_bool_decide
  | context [if decide ?P then _ else _] => case_decide
  | context [if ?c then _ else _] => destruct c eqn:?
  end.

(** Turn boolean comparisons of hypotheses into propositions. *)
Ltac zbool :=
  repeat match goal with
  | H : (_ <? _) = true |- _ => apply Z.ltb_lt in H
  | H : (_ <? _) = false |- _ => apply Z.ltb_ge in H
  | H : (_ <=? _) = true |- _ => apply Z.leb_le in H
  | H : (_ <=? _) = false |- _ => apply Z.leb_gt in H
  | H : (_ =? _) = true |- _ => apply Z.eqb_eq in H
  | H : (_ =? _) = false |- _ => apply Z.eqb_neq in H
  | H : (_ && _) = true |- _ => apply andb_true_iff in H as [? ?]
  | H : (_ || _) = false |- _ => apply orb_false_iff in H as [? ?]
  end.

Create HintDb ferroly.

(** ** Shared lemmas *)

Lemma b2z_range b : 0 <= b2z b < 256.
Proof.
  unfold b2z. pose proof (Byte.to_N_bounded b). lia.
Qed.
#[export] Hint Resolve b2z_range : ferroly.

Lemma z2b_b2z b : z2b (b2z b) = b.
Proof.
  unfold z2b. rewrite Z.mod_small by apply b2z_range.
  unfold b2z. rewrite N2Z.id, Byte.of_to_N. reflexivity.
Qed.

Lemma b2z_z2b_mod z : b2z (z2b z) = z mod 256.
Proof.
  unfold z2b. pose proof (Z.mod_pos_bound z 256 eq_refl).
  destruct (Byte.of_N _) as [b|] eqn:E.
  - apply Byte.to_of_N in E. unfold b2z. rewrite E. lia.
  - apply Byte.of_N_None_iff in E. lia.
Qed.

Lemma b2z_z2b z : 0 <= z < 256 -> b2z (z2b z) = z.
Proof. intros. rewrite b2z_z2b_mod. by apply Z.mod_small. Qed.

Lemma b2z_inj a b : b2z a = b2z b -> a = b.
Proof. intros H. rewrite <- (z2b_b2z a), <- (z2b_b2z b). by rewrite H. Qed.

#[export] Instance b2z_Inj : Inj (=) (=) b2z := b2z_inj.

Lemma length_to_be_bytes n z : length (to_be_bytes n z) = n.
Proof. induction n; simpl; auto. Qed.

Lemma from_be_bytes_app l1 l2 :
  from_be_bytes (l1 ++ l2) = from_be_bytes l1 * 256 ^ Z.of_nat (length l2) + from_be_bytes l2.
Proof.
  unfold from_be_bytes. rewrite fold_left_app.
  generalize (fold_left (fun acc b => acc * 256 + b2z b) l1 0) as a.
  induction l2 as [|b l2 IH] using rev_ind; intros a.
  - simpl. lia.
  - rewrite !fold_left_app, IH, length_app. simpl.
    rewrite Nat2Z.inj_add, Z.pow_add_r by lia. change (256 ^ Z.of_nat 1) with 256. ring.
Qed.

Lemma from_be_bytes_range l : 0 <= from_be_bytes l < 256 ^ Z.of_nat (length l).
Proof.
  induction l as [|b l IH] using rev_ind; [cbv; split; congruence|].
  rewrite from_be_bytes_app, length_app, Nat2Z.inj_add, Z.pow_add_r by lia.
  pose proof (b2z_range b). change (from_be_bytes [b]) with (b2z b).
  change (256 ^ Z.of_nat (length [b])) with 256. lia.
Qed.

Lemma from_be_bytes_cons b l :
  from_be_bytes (b :: l) = b2z b * 256 ^ Z.of_nat (length l) + from_be_bytes l.
Proof.
  change (b :: l) with ([b] ++ l). rewrite from_be_bytes_app. reflexivity.
Qed.

Lemma from_to_be_bytes n z :
  from_be_bytes (to_be_bytes n z) = z mod 256 ^ Z.of_nat n.
Proof.
  induction n as [|n IH].
  - simpl. by rewrite Z.mod_1_r.
  - cbn [to_be_bytes]. rewrite from_be_bytes_cons, length_to_be_bytes, IH, b2z_z2b_mod.
    rewrite Nat2Z.inj_succ, Z.pow_succ_r by lia.
    rewrite (Z.mul_comm 256), Z.rem_mul_r by lia. lia.
Qed.

Lemma to_be_bytes_high n z q : to_be_bytes n (q * 256 ^ Z.of_nat n + z) = to_be_bytes n z.
Proof.
  revert q. induction n as [|n IH]; intros q; [done|].
  cbn [to_be_bytes]. rewrite Nat2Z.inj_succ, Z.pow_succ_r by lia. f_equal.
  - apply b2z_inj. rewrite !b2z_z2b_mod.
    replace (q * (256 * 256 ^ Z.of_nat n) + z)
      with ((q * 256) * 256 ^ Z.of_nat n + z) by lia.
    rewrite Z.div_add_l by lia. rewrite Z.add_comm. apply Z_mod_plus_full.
  - rewrite Z.mul_assoc. apply IH.
Qed.

Lemma to_from_be_bytes l : to_be_bytes (length l) (from_be_bytes l) = l.
Proof.
  induction l as [|b l IH]; [done|].
  cbn [length to_be_bytes]. rewrite from_be_bytes_cons.
  pose proof (from_be_bytes_range l) as Hr. f_equal.
  - rewrite Z.div_add_l by lia. rewrite Z.div_small by lia.
    rewrite Z.add_0_r. apply z2b_b2z.
  - by rewrite to_be_bytes_high.
Qed.

Lemma to_be_bytes_mod n z : to_be_bytes n (z mod 256 ^ Z.of_nat n) = to_be_bytes n z.
Proof.
  rewrite (Z.div_mod z (256 ^ Z.of_nat n)) at 2 by lia.
  by rewrite (Z.mul_comm (256 ^ _)), to_be_bytes_high.
Qed.

Lemma bxor_b2z a b : b2z (bxor a b) = Z.lxor (b2z a) (b2z b).
Proof.
  unfold bxor. apply b2z_z2b.
  pose proof (b2z_range a). pose proof (b2z_range b). split.
  - apply Z.lxor_nonneg. lia.
  - destruct (Z.eq_dec (Z.lxor (b2z a) (b2z b)) 0) as [->|]; [lia|].
    change 256 with (2 ^ 8). apply Z.log2_lt_pow2; [|].
    { pose proof (proj2 (Z.lxor_nonneg (b2z a) (b2z b))). lia. }
    eapply Z.le_lt_trans; [apply Z.log2_lxor; lia|].
    apply Z.max_lub_lt.
    + destruct (Z.eq_dec (b2z a) 0) as [->|]; [done|]. apply Z.log2_lt_pow2; lia.
    + destruct (Z.eq_dec (b2z b) 0) as [->|]; [done|]. apply Z.log2_lt_pow2; lia.
Qed.

Lemma bxor_involutive a k : bxor (bxor a k) k = a.
Proof.
  apply b2z_inj. rewrite !bxor_b2z, Z.lxor_assoc, Z.lxor_nilpotent. apply Z.lxor_0_r.
Qed.

Lemma bxor_zero_iff a b : bxor a b = x00 <-> a = b.
Proof.
  split.
  - intros H. apply b2z_inj. apply Z.lxor_eq. rewrite <- bxor_b2z, H. reflexivity.
  - intros ->. apply b2z_inj. rewrite bxor_b2z. apply Z.lxor_nilpotent.
Qed.

(** *** Chunks *)

Lemma chunks_aux_enough {A} n f1 f2 (l : list A) :
  (0 < n)%nat -> (length l <= f1)%nat -> (length l <= f2)%nat ->
  chunks_aux f1 n l = chunks_aux f2 n l.
Proof.
  intros Hn. revert f2 l. induction f1 as [|f1 IH]; intros f2 l H1 H2.
  - destruct l; [|simpl in H1; lia]. by destruct f2.
  - destruct l as [|x l]; [by destruct f2|]. destruct f2; [simpl in H2; lia|].
    cbn [chunks_aux]. f_equal. apply IH; rewrite length_drop; simpl in *; lia.
Qed.

Lemma chunks_cons {A} n (l : list A) :
  (0 < n)%nat -> l <> [] -> chunks n l = take n l :: chunks n (drop n l).
Proof.
  intros Hn Hl. unfold chunks. destruct l as [|x l]; [done|].
  cbn [length chunks_aux]. f_equal.
  apply chunks_aux_enough; [done|rewrite length_drop; simpl; lia|lia].
Qed.

Lemma chunks_nil {A} n : chunks n ([] : list A) = [].
Proof. reflexivity. Qed.

Lemma chunks_app {A} n (l1 l2 : list A) :
  (0 < n)%nat -> length l1 = n -> chunks n (l1 ++ l2) = l1 :: chunks n l2.
Proof.
  intros Hn Hl. rewrite chunks_cons; [|done|destruct l1; simpl in *; [lia|done]].
  rewrite take_app_length', drop_app_length' by done. done.
Qed.

Lemma chunks_app_mul {A} n (l1 l2 : list A) :
  (0 < n)%nat -> (length l1 mod n = 0)%nat -> chunks n (l1 ++ l2) = chunks n l1 ++ chunks n l2.
Proof.
  intros Hn. induction l1 as [l1 IH]
    using (well_founded_ind (Wf_nat.well_founded_ltof _ length)). intros Hm.
  destruct l1 as [|x l1]; [done|].
  assert (n <= length (x :: l1))%nat as Hle.
  { destruct (Nat.le_gt_cases n (length (x :: l1))) as [|Hlt]; [done|].
    rewrite Nat.mod_small in Hm by done. done. }
  rewrite <- (take_drop n (x :: l1)), <- app_assoc.
  assert (length (take n (x :: l1)) = n) as Hl by (rewrite length_take; lia).
  rewrite (chunks_app n (take n (x :: l1)) (drop n (x :: l1) ++ l2)) by done.
  rewrite (chunks_app n (take n (x :: l1)) (drop n (x :: l1))) by done.
  cbn [app]. f_equal. apply IH.
  - unfold Wf_nat.ltof. rewrite length_drop. simpl. lia.
  - rewrite length_drop.
    replace (length (x :: l1)) with ((length (x :: l1) - n) + 1 * n)%nat in Hm by lia.
    rewrite Nat.Div0.mod_add in Hm. done.
Qed.

Lemma chunks_one {A} n (l : list A) : (0 < n)%nat -> length l = n -> chunks n l = [l].
Proof. intros Hn Hl. rewrite <- (app_nil_r l) at 1. by rewrite chunks_app. Qed.

Lemma concat_chunks {A} n (l : list A) : (0 < n)%nat -> concat (chunks n l) = l.
Proof.
  intros Hn. induction l as [l IH] using (well_founded_ind (Wf_nat.well_founded_ltof _ length)).
  destruct l as [|x l]; [done|]. rewrite chunks_cons by done. cbn [concat].
  rewrite IH; [apply take_drop|]. unfold Wf_nat.ltof. rewrite length_drop. simpl. lia.
Qed.

(** *** Prefixes and separators *)

Lemma starts_with_spec l p : starts_with l p = true <-> exists r, l = p ++ r.
Proof.
  revert l. induction p as [|y p IH]; intros l; simpl.
  - destruct l; naive_solver.
  - destruct l as [|x l]; simpl; [naive_solver|].
    rewrite andb_true_iff, bool_decide_eq_true, IH. split.
    + intros [-> [r ->]]. eauto.
    + intros [r Hr]. simplify_eq. eauto.
Qed.

Lemma starts_with_app p r : starts_with (p ++ r) p = true.
Proof. apply starts_with_spec. eauto. Qed.

Lemma strip_prefix_app p r : strip_prefix (p ++ r) p = Some r.
Proof.
  unfold strip_prefix. rewrite starts_with_app. f_equal. apply drop_app_length.
Qed.

Lemma strip_prefix_Some l p r : strip_prefix l p = Some r -> l = p ++ r.
Proof.
  unfold strip_prefix. destruct (starts_with l p) eqn:E; [|done].
  apply starts_with_spec in E as [r' ->]. rewrite drop_app_length. intros [= ->]. done.
Qed.

Lemma split_on_nonempty c l : split_on c l <> [].
Proof.
  destruct l as [|x l]; simpl; [done|]. split_if; [done|]. by destruct (split_on c l).
Qed.

Lemma split_on_app c w l : c ∉ w -> split_on c (w ++ c :: l) = w :: split_on c l.
Proof.
  intros Hw. induction w as [|x w IH]; simpl.
  - by rewrite bool_decide_true.
  - rewrite bool_decide_false by set_solver. rewrite IH by set_solver. done.
Qed.

Lemma split_on_none c w : c ∉ w -> split_on c w = [w].
Proof.
  intros Hw. induction w as [|x w IH]; simpl; [done|].
  rewrite bool_decide_false by set_solver. rewrite IH by set_solver. done.
Qed.

(** [split] then [join] is the identity, and every piece avoids the separator. *)
Lemma join_split_on c l : join [c] (split_on c l) = l.
Proof.
  induction l as [|x l IH]; simpl; [done|]. split_if.
  - subst. destruct (split_on c l) as [|w ws] eqn:E; [by destruct (split_on_nonempty c l)|].
    simpl in *. by rewrite IH.
  - destruct (split_on c l) as [|w ws] eqn:E; [by destruct (split_on_nonempty c l)|].
    destruct ws; simpl in *; by rewrite IH.
Qed.

Lemma split_on_avoids c l : Forall (fun w => c ∉ w) (split_on c l).
Proof.
  induction l as [|x l IH]; simpl; [constructor; [set_solver|constructor]|].
  split_if; [constructor; [set_solver|done]|].
  destruct (split_on c l) as [|w ws]; [constructor; [set_solver|constructor]|].
  inv IH. constructor; [set_solver|done].
Qed.

Lemma split_once_app c w l : c ∉ w -> split_once c (w ++ c :: l) = Some (w, l).
Proof.
  intros Hw. induction w as [|x w IH]; simpl.
  - by rewrite bool_decide_true.
  - rewrite bool_decide_false by set_solver. rewrite IH by set_solver. done.
Qed.

Lemma split_once_none c w : c ∉ w -> split_once c w = None.
Proof.
  intros Hw. induction w as [|x w IH]; simpl; [done|].
  rewrite bool_decide_false by set_solver. rewrite IH by set_solver. done.
Qed.

Lemma split_once_Some c l p q : split_once c l = Some (p, q) -> l = p ++ c :: q /\ c ∉ p.
Proof.
  revert p q. induction l as [|x l IH]; intros p q; simpl; [done|]. split_if.
  - intros [= <- <-]. subst. split; [done|set_solver].
  - destruct (split_once c l) as [[p' q']|]; [|done]. intros [= <- <-].
    destruct (IH p' q') as [-> ?]; [done|]. split; [done|set_solver].
Qed.

(** *** Filters *)

Lemma filter_sublist {A} (f : A -> bool) (l : list A) : sublist (List.filter f l) l.
Proof. induction l as [|x l IH]; [done|]. cbn [List.filter]. destruct (f x); by constructor. Qed.

Lemma filter_ext_elem {A} (P Q : A -> Prop) `{!forall x, Decision (P x), !forall x, Decision (Q x)} (l : list A) :
  (forall x, x ∈ l -> P x <-> Q x) -> filter P l = filter Q l.
Proof.
  induction l as [|x l IH]; intros Hiff; [done|]. rewrite !filter_cons, IH by set_solver.
  destruct (Hiff x) as [H1 H2]; [set_solver|]. repeat case_decide; naive_solver.
Qed.

(** *** In-place index loops *)

(** [for i in 0..n { p[i] = f(i, p[i]) }] maps the first [n] elements. *)
Lemma foldl_insert_imap {A} `{Inhabited A} (f : nat -> A -> A) (l : list A) n :
  (n <= length l)%nat ->
  foldl (fun p i => <[i := f i (p !!! i)]> p) l (seq 0 n) = imap f (take n l) ++ drop n l.
Proof.
  induction n as [|n IH]; intros Hn; [done|].
  rewrite seq_S, foldl_app, IH by lia. cbn [foldl Nat.add].
  destruct (lookup_lt_is_Some_2 l n) as [x Hx]; [lia|].
  rewrite (take_S_r _ _ x) by done. rewrite imap_app.
  rewrite (drop_S _ x n) by done.
  assert (length (imap f (take n l)) = n) as Hlen by (rewrite length_imap, length_take; lia).
  rewrite lookup_total_app_r, insert_app_r_alt by lia.
  rewrite Hlen, Nat.sub_diag. simpl. rewrite <- app_assoc. simpl.
  rewrite length_take, Nat.min_l, Nat.add_0_r by lia. done.
Qed.
