(* ===== verification/Hash.v ===== *)
(** * Streaming hashes ([crates/ferroly/src/hash/mod.rs])

    The incremental SHA-256, SHA-1 and HMAC-SHA256 of [ferroly::hash], with
    their 64-byte block buffer, against the one-shot definitions of FIPS 180-4
    and RFC 2104.  Words are [Z] with the wrap-around of [u32] written out;
    arrays are lists updated by index.  The block-buffering code of [Sha256]
    and [Sha1] is the same up to the compression function, so it is stated
    once, over an arbitrary compression function, and instantiated twice. *)

From S2P Require Import Prelude.

Open Scope Z_scope.

(** ** Digest *)

Module Digest.

Definition HEX : bytes := b!"0123456789abcdef".

(** [Digest::to_hex] *)
Definition to_hex (d : bytes) : bytes :=
  foldl (fun s b => s ++ [HEX !!! Z.to_nat (Z.shiftr (b2z b) 4)]
                      ++ [HEX !!! Z.to_nat (Z.land (b2z b) 15)]) [] d.

(** [Digest::ct_eq]: [N] is the (common) digest size. *)
Definition ct_eq (N : nat) (a b : bytes) : bool :=
  let diff := foldl (fun diff i => Z.lor diff (b2z (bxor (a !!! i) (b !!! i)))) 0 (seq 0 N) in
  diff =? 0.

End Digest.

(** ** 32-bit word operations *)

Definition rotate_right (x n : Z) : Z :=
  Z.lor (Z.shiftr x n) (wrap32 (Z.shiftl x (32 - n))).
Definition rotate_left (x n : Z) : Z :=
  Z.lor (wrap32 (Z.shiftl x n)) (Z.shiftr x (32 - n)).
(** [!x] on [u32] *)
Definition not32 (x : Z) : Z := u32_max - x.
Definition wadd (x y : Z) : Z := wrap32 (x + y).

(** ** Block buffering, shared by [Sha256] and [Sha1] *)

Definition BLOCK : nat := 64.

Record Hasher := mkHasher {
  h_h : list Z;        (** chaining words *)
  h_buf : bytes;       (** [[u8; BLOCK]] *)
  h_buf_len : nat;
  h_total : Z;         (** [u64] byte count *)
}.

(** [buf[off .. off + src.len()].copy_from_slice(src)] *)
Definition copy_at {A} (buf : list A) (off : nat) (src : list A) : list A :=
  take off buf ++ src ++ drop (off + length src) buf.

(** [buf[from..].fill(0)] *)
Definition fill_from (buf : bytes) (from : nat) : bytes :=
  take from buf ++ replicate (length buf - from) x00.

Section Buffering.
Context (compress : list Z -> bytes -> list Z).

(** [while data.len() >= BLOCK { ... }]: every turn consumes a block, so the
    length of the data is enough fuel. *)
Fixpoint absorb_blocks (fuel : nat) (h : list Z) (data : bytes) : list Z * bytes :=
  match fuel with
  | O => (h, data)
  | S f =>
      if (BLOCK <=? length data)%nat
      then absorb_blocks f (compress h (take BLOCK data)) (drop BLOCK data)
      else (h, data)
  end.

Definition hasher_update (s : Hasher) (data : bytes) : Hasher :=
  let total := wrap64 (h_total s + Z.of_nat (length data)) in
  let '(h, buf, buf_len, data) :=
    if (0 <? h_buf_len s)%nat then
      let need := (BLOCK - h_buf_len s)%nat in
      let tk := Nat.min need (length data) in
      let buf := copy_at (h_buf s) (h_buf_len s) (take tk data) in
      let buf_len := (h_buf_len s + tk)%nat in
      let data := drop tk data in
      if (buf_len =? BLOCK)%nat
      then (compress (h_h s) buf, buf, 0%nat, data)
      else (h_h s, buf, buf_len, data)
    else (h_h s, h_buf s, h_buf_len s, data) in
  let '(h, data) := absorb_blocks (length data) h data in
  if bool_decide (data = []) then mkHasher h buf buf_len total
  else mkHasher h (copy_at buf 0 data) (length data) total.

Definition hasher_finalize (s : Hasher) : bytes :=
  let bit_len := wrap64 (h_total s * 8) in
  let i := h_buf_len s in
  let buf := <[i := x80]> (h_buf s) in
  let '(h, buf) :=
    if (BLOCK - 8 <? i + 1)%nat
    then (compress (h_h s) (fill_from buf (i + 1)), replicate BLOCK x00)
    else (h_h s, fill_from buf (i + 1)) in
  let buf := copy_at buf (BLOCK - 8) (to_be_bytes 8 bit_len) in
  let h := compress h buf in
  concat (map (to_be_bytes 4) h).

(** *** The reference definition: Merkle-Damgard with FIPS 180-4 padding *)

(** One bit, zeros up to 56 modulo 64, the 64-bit length in bits. *)
Definition md_pad (msg : bytes) : bytes :=
  let n := length msg in
  msg ++ [x80] ++ replicate ((119 - n mod 64) mod 64) x00
      ++ to_be_bytes 8 (8 * Z.of_nat n).

Definition md_hash (h0 : list Z) (msg : bytes) : bytes :=
  concat (map (to_be_bytes 4) (foldl compress h0 (chunks BLOCK (md_pad msg)))).

(** *** The buffer invariant: [s] has absorbed exactly [msg]. *)

Definition absorbed (h0 : list Z) (s : Hasher) (msg : bytes) : Prop :=
  exists full tail,
    msg = full ++ tail /\
    (length full mod 64 = 0)%nat /\
    length tail = h_buf_len s /\
    (h_buf_len s < BLOCK)%nat /\
    length (h_buf s) = BLOCK /\
    take (h_buf_len s) (h_buf s) = tail /\
    h_h s = foldl compress h0 (chunks BLOCK full) /\
    h_total s = wrap64 (Z.of_nat (length msg)).

End Buffering.

(** ** SHA-256 *)

Module Sha256.

Definition SHA256_K : list Z := [
  0x428A2F98; 0x71374491; 0xB5C0FBCF; 0xE9B5DBA5; 0x3956C25B; 0x59F111F1; 0x923F82A4; 0xAB1C5ED5;
  0xD807AA98; 0x12835B01; 0x243185BE; 0x550C7DC3; 0x72BE5D74; 0x80DEB1FE; 0x9BDC06A7; 0xC19BF174;
  0xE49B69C1; 0xEFBE4786; 0x0FC19DC6; 0x240CA1CC; 0x2DE92C6F; 0x4A7484AA; 0x5CB0A9DC; 0x76F988DA;
  0x983E5152; 0xA831C66D; 0xB00327C8; 0xBF597FC7; 0xC6E00BF3; 0xD5A79147; 0x06CA6351; 0x14292967;
  0x27B70A85; 0x2E1B2138; 0x4D2C6DFC; 0x53380D13; 0x650A7354; 0x766A0ABB; 0x81C2C92E; 0x92722C85;
  0xA2BFE8A1; 0xA81A664B; 0xC24B8B70; 0xC76C51A3; 0xD192E819; 0xD6990624; 0xF40E3585; 0x106AA070;
  0x19A4C116; 0x1E376C08; 0x2748774C; 0x34B0BCB5; 0x391C0CB3; 0x4ED8AA4A; 0x5B9CCA4F; 0x682E6FF3;
  0x748F82EE; 0x78A5636F; 0x84C87814; 0x8CC70208; 0x90BEFFFA; 0xA4506CEB; 0xBEF9A3F7; 0xC67178F2].

Definition SHA256_H0 : list Z := [
  0x6A09E667; 0xBB67AE85; 0x3C6EF372; 0xA54FF53A; 0x510E527F; 0x9B05688C; 0x1F83D9AB; 0x5BE0CD19].

(** The message schedule [w] of [sha256_compress]. *)
Definition sha256_w0 (block : bytes) : list Z :=
  foldl (fun w i =>
    let o := (i * 4)%nat in
    <[i := from_be_bytes [block !!! o; block !!! (o + 1)%nat;
                          block !!! (o + 2)%nat; block !!! (o + 3)%nat]]> w)
    (replicate 64 0) (seq 0 16).

Definition sha256_w (block : bytes) : list Z :=
  foldl (fun w i =>
    let w15 := w !!! (i - 15)%nat in
    let w2 := w !!! (i - 2)%nat in
    let s0 := Z.lxor (Z.lxor (rotate_right w15 7) (rotate_right w15 18)) (Z.shiftr w15 3) in
    let s1 := Z.lxor (Z.lxor (rotate_right w2 17) (rotate_right w2 19)) (Z.shiftr w2 10) in
    <[i := wadd (wadd (wadd (w !!! (i - 16)%nat) s0) (w !!! (i - 7)%nat)) s1]> w)
    (sha256_w0 block) (seq 16 48).

(** One of the 64 rounds of [sha256_compress], on [a .. hh]. *)
Definition sha256_round (w : list Z) (st : Z * Z * Z * Z * Z * Z * Z * Z) (i : nat) :=
  let '(a, b, c, d, e, f, g, hh) := st in
  let s1 := Z.lxor (Z.lxor (rotate_right e 6) (rotate_right e 11)) (rotate_right e 25) in
  let ch := Z.lxor (Z.land e f) (Z.land (not32 e) g) in
  let t1 := wadd (wadd (wadd (wadd hh s1) ch) (SHA256_K !!! i)) (w !!! i) in
  let s0 := Z.lxor (Z.lxor (rotate_right a 2) (rotate_right a 13)) (rotate_right a 22) in
  let maj := Z.lxor (Z.lxor (Z.land a b) (Z.land a c)) (Z.land b c) in
  let t2 := wadd s0 maj in
  (wadd t1 t2, a, b, c, wadd d t1, e, f, g).

Definition sha256_compress (h : list Z) (block : bytes) : list Z :=
  let w := sha256_w block in
  let st := (h !!! 0%nat, h !!! 1%nat, h !!! 2%nat, h !!! 3%nat,
             h !!! 4%nat, h !!! 5%nat, h !!! 6%nat, h !!! 7%nat) in
  let '(a, b, c, d, e, f, g, hh) := foldl (sha256_round w) st (seq 0 64) in
  zip_with wadd h [a; b; c; d; e; f; g; hh].

Definition new : Hasher := mkHasher SHA256_H0 (replicate BLOCK x00) 0 0.
Definition update : Hasher -> bytes -> Hasher := hasher_update sha256_compress.
Definition finalize : Hasher -> bytes := hasher_finalize sha256_compress.

(** [hash::sha256] *)
Definition sha256 (data : bytes) : bytes := finalize (update new data).

End Sha256.

(** ** HMAC-SHA256 *)

Module Hmac.

Record HmacSha256 := mkHmac { inner : Hasher; o_key : bytes }.

(** [HmacSha256::new]: [k], then the two key pads. *)
Definition key_block (key : bytes) : bytes :=
  let k := replicate BLOCK x00 in
  if (BLOCK <? length key)%nat
  then copy_at k 0 (Sha256.sha256 key)
  else copy_at k 0 key.

Definition xor_pad (pad : byte) (k : bytes) : bytes :=
  foldl (fun p i => <[i := bxor (p !!! i) (k !!! i)]> p) (replicate BLOCK pad) (seq 0 BLOCK).

Definition new (key : bytes) : HmacSha256 :=
  let k := key_block key in
  let i_key := xor_pad x36 k in
  let o_key := xor_pad x5c k in
  mkHmac (Sha256.update Sha256.new i_key) o_key.

Definition update (m : HmacSha256) (data : bytes) : HmacSha256 :=
  mkHmac (Sha256.update (inner m) data) (o_key m).

Definition finalize (m : HmacSha256) : bytes :=
  let inner := Sha256.finalize (inner m) in
  let outer := Sha256.update (Sha256.update Sha256.new (o_key m)) inner in
  Sha256.finalize outer.

(** [hash::hmac_sha256] *)
Definition hmac_sha256 (key msg : bytes) : bytes := finalize (update (new key) msg).

End Hmac.

(** ** SHA-1 *)

Module Sha1.

Definition SHA1_H0 : list Z := [0x67452301; 0xEFCDAB89; 0x98BADCFE; 0x10325476; 0xC3D2E1F0].

Definition sha1_w0 (block : bytes) : list Z :=
  foldl (fun w i =>
    let o := (i * 4)%nat in
    <[i := from_be_bytes [block !!! o; block !!! (o + 1)%nat;
                          block !!! (o + 2)%nat; block !!! (o + 3)%nat]]> w)
    (replicate 80 0) (seq 0 16).

Definition sha1_w (block : bytes) : list Z :=
  foldl (fun w i =>
    <[i := rotate_left (Z.lxor (Z.lxor (Z.lxor (w !!! (i - 3)%nat) (w !!! (i - 8)%nat))
                                       (w !!! (i - 14)%nat)) (w !!! (i - 16)%nat)) 1]> w)
    (sha1_w0 block) (seq 16 64).

Definition sha1_round (st : Z * Z * Z * Z * Z) (iw : nat * Z) :=
  let '(i, word) := iw in
  let '(a, b, c, d, e) := st in
  let '(f, k) :=
    if (i <=? 19)%nat then (Z.lor (Z.land b c) (Z.land (not32 b) d), 0x5A827999)
    else if (i <=? 39)%nat then (Z.lxor (Z.lxor b c) d, 0x6ED9EBA1)
    else if (i <=? 59)%nat
         then (Z.lor (Z.lor (Z.land b c) (Z.land b d)) (Z.land c d), 0x8F1BBCDC)
    else (Z.lxor (Z.lxor b c) d, 0xCA62C1D6) in
  let t := wadd (wadd (wadd (wadd (rotate_left a 5) f) e) k) word in
  (t, a, rotate_left b 30, c, d).

Definition sha1_compress (h : list Z) (block : bytes) : list Z :=
  let w := sha1_w block in
  let st := (h !!! 0%nat, h !!! 1%nat, h !!! 2%nat, h !!! 3%nat, h !!! 4%nat) in
  let '(a, b, c, d, e) := foldl sha1_round st (imap pair w) in
  zip_with wadd h [a; b; c; d; e].

Definition new : Hasher := mkHasher SHA1_H0 (replicate BLOCK x00) 0 0.
Definition update : Hasher -> bytes -> Hasher := hasher_update sha1_compress.
Definition finalize : Hasher -> bytes := hasher_finalize sha1_compress.

(** [hash::sha1] *)
Definition sha1 (data : bytes) : bytes := finalize (update new data).

End Sha1.

(** ** Reference definitions *)

(** RFC 2104: [H((K0 xor opad) || H((K0 xor ipad) || text))]. *)
Definition rfc2104_hmac (H : bytes -> bytes) (key text : bytes) : bytes :=
  let key := if (64 <? length key)%nat then H key else key in
  let K0 := key ++ replicate (64 - length key) x00 in
  H (map (bxor x5c) K0 ++ H (map (bxor x36) K0 ++ text)).

Definition sha256_spec : bytes -> bytes :=
  md_hash Sha256.sha256_compress Sha256.SHA256_H0.
Definition sha1_spec : bytes -> bytes :=
  md_hash Sha1.sha1_compress Sha1.SHA1_H0.

(** Inverse of a lower-case hex digit. *)
Definition unhex (c : byte) : Z :=
  if b2z c <=? 57 then b2z c - 48 else b2z c - 87.

Fixpoint from_hex (s : bytes) : bytes :=
  match s with
  | c1 :: c2 :: s' => z2b (unhex c1 * 16 + unhex c2) :: from_hex s'
  | _ => []
  end.

(** ** The buffer invariant is established and preserved *)

Section BufferingFacts.
Context (compress : list Z -> bytes -> list Z).

Lemma length_copy_at {A} (buf : list A) off src :
  (off + length src <= length buf)%nat -> length (copy_at buf off src) = length buf.
Proof.
  intros. unfold copy_at. rewrite !length_app, length_take, length_drop. lia.
Qed.

Lemma absorb_blocks_spec fuel h data :
  (length data <= fuel)%nat ->
  exists full rest,
    absorb_blocks compress fuel h data = (foldl compress h (chunks BLOCK full), rest) /\
    data = full ++ rest /\ (length full mod 64 = 0)%nat /\ (length rest < BLOCK)%nat.
Proof.
  revert h data. induction fuel as [|fuel IH]; intros h data Hf.
  - exists [], data. destruct data; [|simpl in Hf; lia]. split_and!; try done. unfold BLOCK. simpl. lia.
  - cbn [absorb_blocks]. destruct (Nat.leb_spec BLOCK (length data)) as [Hle|Hlt].
    + destruct (IH (compress h (take BLOCK data)) (drop BLOCK data))
        as (full & rest & -> & Hd & Hm & Hr).
      { rewrite length_drop. unfold BLOCK in *. lia. }
      exists (take BLOCK data ++ full), rest.
      assert (length (take BLOCK data) = BLOCK) as Ht by (rewrite length_take; lia).
      rewrite chunks_app by (unfold BLOCK in *; lia).
      split_and!; [done| |by rewrite length_app, Ht, <- Nat.Div0.add_mod_idemp_r, Hm|done].
      rewrite <- app_assoc, <- Hd. symmetry. apply take_drop.
    + exists [], data. by split_and!.
Qed.

(** The part of [update] after the buffer has been topped up. *)
Lemma absorbed_tail h0 full data buf total :
  (length full mod 64 = 0)%nat -> length buf = BLOCK ->
  total = wrap64 (Z.of_nat (length (full ++ data))) ->
  absorbed compress h0
    (let '(h, d) := absorb_blocks compress (length data)
                      (foldl compress h0 (chunks BLOCK full)) data in
     if bool_decide (d = []) then mkHasher h buf 0 total
     else mkHasher h (copy_at buf 0 d) (length d) total)
    (full ++ data).
Proof.
  intros Hm Hb Ht.
  destruct (absorb_blocks_spec (length data) (foldl compress h0 (chunks BLOCK full)) data)
    as (f & r & -> & -> & Hf & Hr); [done|].
  exists (full ++ f), r.
  assert (length (full ++ f) mod 64 = 0)%nat
    by (rewrite length_app, Nat.Div0.add_mod, Hm, Hf; done).
  rewrite chunks_app_mul, foldl_app by (done || (unfold BLOCK; lia)).
  case_bool_decide as E; simpl.
  - subst r. rewrite !app_nil_r in *. split_and!; auto with lia.
  - rewrite length_copy_at by lia. split_and!; auto.
    + by rewrite app_assoc.
    + unfold copy_at. simpl. by rewrite take_app_length.
Qed.

Lemma absorbed_update h0 s msg data :
  absorbed compress h0 s msg ->
  absorbed compress h0 (hasher_update compress s data) (msg ++ data).
Proof.
  intros (full & tail & -> & Hm & Hl & Hlt & Hb & Htk & Hh & Htot).
  unfold hasher_update. destruct s as [h buf bl tot]; cbn [h_h h_buf h_buf_len h_total] in *.
  subst h.
  assert (wrap64 (tot + Z.of_nat (length data)) =
          wrap64 (Z.of_nat (length ((full ++ tail) ++ data)))) as Ew.
  { rewrite (length_app (full ++ tail)). subst tot. unfold wrap64.
    rewrite Zplus_mod_idemp_l, Nat2Z.inj_add. done. }
  rewrite Ew. destruct (Nat.ltb_spec 0 bl) as [Hpos|Hz].
  2: { assert (bl = 0)%nat as -> by lia. destruct tail; [|done].
       rewrite app_nil_r. apply absorbed_tail; rewrite ?app_nil_r; auto. }
  set (tk := Nat.min (BLOCK - bl) (length data)).
  assert (copy_at buf bl (take tk data) = tail ++ take tk data ++ drop (bl + tk) buf) as Ec.
  { unfold copy_at. rewrite Htk, length_take. do 3 f_equal. lia. }
  destruct (Nat.eqb_spec (bl + tk) BLOCK) as [E|E].
  - assert (copy_at buf bl (take tk data) = tail ++ take tk data) as Ec2.
    { rewrite Ec, drop_ge, app_nil_r by lia. done. }
    assert (length (tail ++ take tk data) = BLOCK) as Hlb
      by (rewrite length_app, length_take; lia).
    replace ((full ++ tail) ++ data)
      with ((full ++ (tail ++ take tk data)) ++ drop tk data)
      by (rewrite <- !app_assoc, take_drop; done).
    rewrite Ec2.
    replace (compress (foldl compress h0 (chunks BLOCK full)) (tail ++ take tk data))
      with (foldl compress h0 (chunks BLOCK (full ++ (tail ++ take tk data)))).
    2: { rewrite chunks_app_mul, foldl_app by (done || (unfold BLOCK; lia)).
         rewrite (chunks_one BLOCK (tail ++ _)) by (done || (unfold BLOCK; lia)). done. }
    apply absorbed_tail; [|done|done].
    rewrite length_app, Hlb, <- Nat.Div0.add_mod_idemp_l, Hm. done.
  - assert (tk = length data) as Etk by (unfold BLOCK in *; lia).
    rewrite drop_ge by lia. cbn [length absorb_blocks].
    rewrite bool_decide_true by done.
    exists full, (tail ++ data).
    cbn [h_h h_buf h_buf_len h_total]. rewrite length_copy_at by (rewrite length_take; lia).
    split_and!; auto.
    + by rewrite app_assoc.
    + rewrite length_app. lia.
    + lia.
    + rewrite Ec, app_assoc, Etk, (take_ge data) by lia.
      rewrite take_app_length'; [done|]. rewrite length_app. lia.
Qed.

Lemma md_pad_split full tail :
  (length full mod 64 = 0)%nat -> (length tail < 64)%nat ->
  md_pad (full ++ tail) =
  full ++ tail ++ [x80] ++ replicate ((119 - length tail) mod 64) x00
       ++ to_be_bytes 8 (8 * Z.of_nat (length (full ++ tail))).
Proof.
  intros Hm Ht. unfold md_pad.
  assert (length (full ++ tail) mod 64 = length tail)%nat as ->.
  { rewrite length_app, Nat.Div0.add_mod, Hm, Nat.add_0_l, Nat.Div0.mod_mod.
    by rewrite Nat.mod_small. }
  by rewrite <- !app_assoc.
Qed.

Lemma absorbed_finalize h0 s msg :
  absorbed compress h0 s msg -> hasher_finalize compress s = md_hash compress h0 msg.
Proof.
  intros (full & tail & -> & Hm & Hl & Hlt & Hb & Htk & Hh & Htot).
  unfold hasher_finalize, md_hash. destruct s as [h buf bl tot].
  cbn [h_h h_buf h_buf_len h_total] in *. subst h.
  rewrite md_pad_split by (unfold BLOCK in *; lia).
  assert (to_be_bytes 8 (wrap64 (tot * 8)) =
          to_be_bytes 8 (8 * Z.of_nat (length (full ++ tail)))) as El.
  { subst tot. unfold wrap64. rewrite Zmult_mod_idemp_l, (Z.mul_comm _ 8).
    change 18446744073709551616 with (256 ^ Z.of_nat 8). apply to_be_bytes_mod. }
  rewrite El. set (len8 := to_be_bytes 8 _).
  assert (length len8 = 8)%nat as Hlen8 by apply length_to_be_bytes.
  assert (fill_from (<[bl:=x80]> buf) (bl + 1) =
          tail ++ [x80] ++ replicate (63 - bl) x00) as Ef.
  { unfold fill_from. rewrite length_insert, Hb.
    rewrite Nat.add_1_r, (take_S_r _ bl x80) by (apply list_lookup_insert_eq; lia).
    rewrite take_insert_ge, Htk, <- app_assoc by lia. done. }
  rewrite Ef. rewrite chunks_app_mul, foldl_app by (done || (unfold BLOCK; lia)).
  unfold BLOCK in *.
  destruct (Nat.ltb_spec (64 - 8) (bl + 1)) as [Hbig|Hsmall].
  - rewrite Nat.mod_small by lia.
    replace (119 - length tail)%nat with ((63 - bl) + 56)%nat by lia.
    rewrite replicate_add.
    replace (tail ++ [x80] ++ (replicate (63 - bl) x00 ++ replicate 56 x00) ++ len8)
      with ((tail ++ [x80] ++ replicate (63 - bl) x00) ++ (replicate 56 x00 ++ len8))
      by (rewrite <- !app_assoc; done).
    rewrite (chunks_app 64 (tail ++ _)); [|lia|].
    2: { rewrite !length_app, length_replicate. simpl. lia. }
    rewrite (chunks_one 64 (replicate 56 x00 ++ len8)); [|lia|].
    2: { rewrite length_app, length_replicate. lia. }
    reflexivity.
  - replace ((119 - length tail) mod 64)%nat with (55 - bl)%nat.
    2: { replace (119 - length tail)%nat with ((55 - bl) + 1 * 64)%nat by lia.
         rewrite Nat.Div0.mod_add, Nat.mod_small; lia. }
    assert (copy_at (tail ++ [x80] ++ replicate (63 - bl) x00) (64 - 8) len8 =
            tail ++ [x80] ++ replicate (55 - bl) x00 ++ len8) as ->.
    { unfold copy_at. rewrite Hlen8. replace (63 - bl)%nat with ((55 - bl) + 8)%nat by lia.
      rewrite replicate_add, !app_assoc.
      rewrite take_app_length', drop_ge, app_nil_r; [done| |];
        rewrite !length_app, !length_replicate; simpl; lia. }
    rewrite (chunks_one 64 (tail ++ _)); [done|lia|].
    rewrite !length_app, length_replicate; simpl; lia.
Qed.

End BufferingFacts.

Lemma absorbed_new compress h0 :
  absorbed compress h0 (mkHasher h0 (replicate BLOCK x00) 0 0) [].
Proof. exists [], []. split_and!; try done. unfold BLOCK. simpl. lia. Qed.

Lemma absorbed_updates compress h0 s msg pieces :
  absorbed compress h0 s msg ->
  absorbed compress h0 (foldl (hasher_update compress) s pieces) (msg ++ concat pieces).
Proof.
  revert s msg. induction pieces as [|p ps IH]; intros s msg Hs; simpl.
  - by rewrite app_nil_r.
  - rewrite app_assoc. by apply IH, absorbed_update.
Qed.
#[export] Hint Resolve absorbed_new absorbed_update absorbed_updates absorbed_finalize : ferroly.

Lemma sha256_one_shot data : Sha256.sha256 data = sha256_spec data.
Proof.
  apply absorbed_finalize. change data with ([] ++ data) at 2. eauto with ferroly.
Qed.

(** ** HMAC *)

Lemma length_copy_at_0 {A} (buf src : list A) :
  (length src <= length buf)%nat -> copy_at buf 0 src = src ++ drop (length src) buf.
Proof. done. Qed.

Lemma length_md_hash compress h0 msg n :
  (forall h b, length h = n -> length (compress h b) = n) -> length h0 = n ->
  length (md_hash compress h0 msg) = (4 * n)%nat.
Proof.
  intros Hc H0. unfold md_hash.
  assert (length (foldl compress h0 (chunks BLOCK (md_pad msg))) = n) as <-.
  { generalize (chunks BLOCK (md_pad msg)) as bs. intros bs. revert h0 H0.
    induction bs; simpl; auto. }
  generalize (foldl compress h0 (chunks BLOCK (md_pad msg))) as ws. intros ws.
  induction ws; simpl in *; [done|]. rewrite ?length_app, ?length_to_be_bytes in *. lia.
Qed.

Lemma length_sha256_compress h b : length h = 8%nat -> length (Sha256.sha256_compress h b) = 8%nat.
Proof.
  intros Hh. unfold Sha256.sha256_compress.
  destruct (foldl _ _ _) as [[[[[[[? ?] ?] ?] ?] ?] ?] ?].
  rewrite length_zip_with. simpl. lia.
Qed.

Lemma length_sha1_compress h b : length h = 5%nat -> length (Sha1.sha1_compress h b) = 5%nat.
Proof.
  intros Hh. unfold Sha1.sha1_compress. destruct (foldl _ _ _) as [[[[? ?] ?] ?] ?].
  rewrite length_zip_with. simpl. lia.
Qed.

Lemma length_sha256_spec data : length (sha256_spec data) = 32%nat.
Proof. apply (length_md_hash _ _ _ 8); [apply length_sha256_compress|done]. Qed.

Lemma key_block_spec key :
  Hmac.key_block key =
  (let key := if (64 <? length key)%nat then sha256_spec key else key in
   key ++ replicate (64 - length key) x00).
Proof.
  unfold Hmac.key_block, BLOCK. destruct (Nat.ltb_spec 64 (length key)) as [H|H].
  - rewrite sha256_one_shot, length_copy_at_0 by (rewrite length_sha256_spec, length_replicate; lia).
    by rewrite drop_replicate.
  - rewrite length_copy_at_0 by (rewrite length_replicate; lia). by rewrite drop_replicate.
Qed.

Lemma length_key_block key : length (Hmac.key_block key) = 64%nat.
Proof.
  rewrite key_block_spec. cbv zeta. rewrite length_app, length_replicate.
  destruct (Nat.ltb_spec 64 (length key)); [rewrite length_sha256_spec|]; lia.
Qed.

Lemma xor_pad_spec pad k : length k = BLOCK -> Hmac.xor_pad pad k = map (bxor pad) k.
Proof.
  intros Hk. unfold Hmac.xor_pad.
  rewrite (foldl_insert_imap (fun i p => bxor p (k !!! i))) by (rewrite length_replicate; lia).
  rewrite take_ge, drop_ge, app_nil_r by (rewrite length_replicate; lia).
  apply list_eq. intros i. rewrite list_lookup_imap, list_lookup_fmap.
  destruct (decide (i < BLOCK)%nat) as [Hi|Hi].
  - rewrite lookup_replicate_2 by done. simpl.
    destruct (lookup_lt_is_Some_2 k i) as [x Hx]; [lia|].
    by rewrite (list_lookup_total_correct _ _ _ Hx), Hx.
  - rewrite !lookup_ge_None_2 by (rewrite ?length_replicate; lia). done.
Qed.

(** ** Digest helpers *)

Lemma to_hex_cons b d :
  Digest.to_hex (b :: d) =
  [Digest.HEX !!! Z.to_nat (Z.shiftr (b2z b) 4); Digest.HEX !!! Z.to_nat (Z.land (b2z b) 15)]
  ++ Digest.to_hex d.
Proof.
  unfold Digest.to_hex. set (f := fun s b => _).
  assert (forall l s, foldl f s l = s ++ foldl f [] l) as E; [|apply (E d (f [] b))].
  induction l as [|x l IH]; intros s; simpl; [by rewrite app_nil_r|].
  rewrite IH, (IH (f [] x)). unfold f. by rewrite <- !app_assoc.
Qed.

Lemma from_to_hex d : from_hex (Digest.to_hex d) = d.
Proof.
  induction d as [|b d IH]; [done|]. rewrite to_hex_cons. cbn [app from_hex]. rewrite IH.
  f_equal. clear. destruct b; reflexivity.
Qed.

Lemma foldl_lor_zero (f : nat -> Z) l acc :
  0 <= acc -> (forall i, 0 <= f i) ->
  foldl (fun d i => Z.lor d (f i)) acc l = 0 <-> acc = 0 /\ Forall (fun i => f i = 0) l.
Proof.
  intros Ha Hf. revert acc Ha. induction l as [|i l IH]; intros acc Ha; simpl.
  - split; [by intros ->|by intros [-> _]].
  - rewrite IH by (apply Z.lor_nonneg; split; auto). rewrite Z.lor_eq_0_iff, Forall_cons. tauto.
Qed.

(** ** Properties *)

(** C25 Feeding a message to the streaming [Sha256] or [Sha1] in any pieces and
    finalizing gives the FIPS 180-4 digest of the concatenation: the buffered
    implementation computes the padded, block-wise Merkle-Damgard hash. *)
Theorem streaming_hash_correct (pieces : list bytes) :
  Sha256.finalize (foldl Sha256.update Sha256.new pieces) = sha256_spec (concat pieces) /\
  Sha1.finalize (foldl Sha1.update Sha1.new pieces) = sha1_spec (concat pieces).
Proof.
  split; apply absorbed_finalize;
    apply (absorbed_updates _ _ _ []); apply absorbed_new.
Qed.

(** C34 [HmacSha256], fed the text in any pieces, computes the MAC of RFC 2104 over
    SHA-256, for keys shorter and longer than a block; tags are 32 bytes. *)
Theorem hmac_correct (key : bytes) (pieces : list bytes) :
  Hmac.finalize (foldl Hmac.update (Hmac.new key) pieces)
    = rfc2104_hmac sha256_spec key (concat pieces) /\
  length (Hmac.finalize (foldl Hmac.update (Hmac.new key) pieces)) = 32%nat.
Proof.
  assert (forall m, foldl Hmac.update m pieces
          = Hmac.mkHmac (foldl Sha256.update (Hmac.inner m) pieces) (Hmac.o_key m)) as E.
  { induction pieces as [|p ps IH]; intros [i o]; simpl; [done|]. by rewrite IH. }
  rewrite E. unfold Hmac.finalize, Hmac.new. cbn [Hmac.inner Hmac.o_key].
  rewrite !xor_pad_spec by apply length_key_block.
  assert (Sha256.finalize (foldl Sha256.update
            (Sha256.update Sha256.new (map (bxor x36) (Hmac.key_block key))) pieces)
          = sha256_spec (map (bxor x36) (Hmac.key_block key) ++ concat pieces)) as ->.
  { apply absorbed_finalize. apply absorbed_updates. apply (absorbed_update _ _ _ []), absorbed_new. }
  set (i := sha256_spec _).
  assert (Sha256.finalize (Sha256.update
            (Sha256.update Sha256.new (map (bxor x5c) (Hmac.key_block key))) i)
          = sha256_spec (map (bxor x5c) (Hmac.key_block key) ++ i)) as ->.
  { apply absorbed_finalize, absorbed_update, (absorbed_update _ _ _ []), absorbed_new. }
  split; [|apply length_sha256_spec].
  subst i. by rewrite key_block_spec.
Qed.

(** [Digest::to_hex] is a faithful printing: it has two characters per byte and
    decoding it gives the digest back; [Digest::ct_eq] decides equality of digests
    of the same size. *)
Theorem digest_helpers_correct (a b : bytes) :
  length (Digest.to_hex a) = (2 * length a)%nat /\
  from_hex (Digest.to_hex a) = a /\
  (length a = length b -> (Digest.ct_eq (length a) a b = true <-> a = b)).
Proof.
  split_and!.
  - induction a as [|x a IH]; [done|]. rewrite to_hex_cons, length_app, IH. simpl. lia.
  - apply from_to_hex.
  - intros Hl. unfold Digest.ct_eq. cbv zeta. rewrite Z.eqb_eq, foldl_lor_zero;
      [|lia|intros; apply b2z_range].
    rewrite Forall_seq. split.
    + intros [_ H]. apply list_eq_same_length with (n := length a); [done|done|].
      intros i x y Hi Hx Hy. specialize (H i ltac:(lia)).
      rewrite (list_lookup_total_correct _ _ _ Hx), (list_lookup_total_correct _ _ _ Hy) in H.
      apply bxor_zero_iff, b2z_inj. done.
    + intros ->. split; [done|]. intros i _.
      rewrite (proj2 (bxor_zero_iff _ _)); done.
Qed.

(** The published vectors: FIPS 180-4 "abc", RFC 4231 case 2. *)
Example sha_known_vectors :
  Digest.to_hex (Sha256.sha256 (b!"abc"))
    = b!"ba7816bf8f01cfea414140de5dae2223b00361a396177a9cb410ff61f20015ad" /\
  Digest.to_hex (Sha1.sha1 (b!"abc")) = b!"a9993e364706816aba3e25717850c26c9cd0d89d" /\
  Digest.to_hex (Hmac.hmac_sha256 (b!"Jefe") (b!"what do ya want for nothing?"))
    = b!"5bdcc146bf60754e6a042426089575c75a003f089d2739839dec58b964ec3843".
Proof. vm_compute. done. Qed.

Lemma digest_helpers_witness :
  Digest.ct_eq 3 (b!"abc") (b!"abc") = true /\
  (Digest.ct_eq 3 (b!"abc") (b!"abd") = true <-> b!"abc" = b!"abd").
Proof.
  split; [reflexivity|].
  destruct (digest_helpers_correct (b!"abc") (b!"abd")) as (_ & _ & H).
  apply H. reflexivity.
Defined.
