(* ===== verification/Text.v ===== *)
(** * Text and numbers of the Rust standard library, as Ferroly uses them

    [str] operations on UTF-8 byte sequences (validation, lossy decoding,
    Unicode trimming, [char] encoding), integer printing and parsing
    ([codec/fmt.rs] and [FromStr]), and IEEE 754 binary64 values with decimal
    parsing and printing.  Binary64 (and binary32) is [SpecFloat.spec_float] at
    precision 53 and maximal exponent 1024. *)

From Stdlib Require Import SpecFloat.
From stdpp Require pretty.
From S2P Require Import Prelude.

Open Scope Z_scope.

(** ** UTF-8 *)

Module Utf8.

(** [char] values are Unicode scalar values. *)
Definition is_scalar (c : Z) : bool :=
  ((0 <=? c) && (c <? 0xD800)) || ((0xE000 <=? c) && (c <=? 0x10FFFF)).

(** [char::from_u32] *)
Definition char_from_u32 (c : Z) : option Z := if is_scalar c then Some c else None.

(** [char::encode_utf8] / [String::push] *)
Definition encode_char (c : Z) : bytes :=
  if c <? 0x80 then [z2b c]
  else if c <? 0x800 then [z2b (0xC0 + c / 64); z2b (0x80 + c mod 64)]
  else if c <? 0x10000 then
    [z2b (0xE0 + c / 4096); z2b (0x80 + c / 64 mod 64); z2b (0x80 + c mod 64)]
  else [z2b (0xF0 + c / 262144); z2b (0x80 + c / 4096 mod 64);
        z2b (0x80 + c / 64 mod 64); z2b (0x80 + c mod 64)].

(** Whether [b] lies in an inclusive range. *)
Definition in_range (b : byte) (lo hi : Z) : bool := (lo <=? b2z b) && (b2z b <=? hi).

(** The expected range of the second byte after a lead byte, and the number of
    bytes of the sequence (Unicode, Table 3-7). *)
Definition lead_info (b : byte) : option (nat * Z * Z) :=
  if in_range b 0xC2 0xDF then Some (2%nat, 0x80, 0xBF)
  else if in_range b 0xE0 0xE0 then Some (3%nat, 0xA0, 0xBF)
  else if in_range b 0xE1 0xEC then Some (3%nat, 0x80, 0xBF)
  else if in_range b 0xED 0xED then Some (3%nat, 0x80, 0x9F)
  else if in_range b 0xEE 0xEF then Some (3%nat, 0x80, 0xBF)
  else if in_range b 0xF0 0xF0 then Some (4%nat, 0x90, 0xBF)
  else if in_range b 0xF1 0xF3 then Some (4%nat, 0x80, 0xBF)
  else if in_range b 0xF4 0xF4 then Some (4%nat, 0x80, 0x8F)
  else None.

(** The first sequence of a non-empty input: [inl n], a valid sequence of [n]
    bytes, or [inr n], an invalid maximal subpart of [n] bytes. *)
Definition next_seq (b : byte) (rest : bytes) : nat + nat :=
  if b2z b <? 0x80 then inl 1%nat
  else match lead_info b with
  | None => inr 1%nat
  | Some (n, lo, hi) =>
      match rest with
      | b1 :: rest1 =>
          if negb (in_range b1 lo hi) then inr 1%nat
          else if (n =? 2)%nat then inl 2%nat
          else match rest1 with
          | b2 :: rest2 =>
              if negb (in_range b2 0x80 0xBF) then inr 2%nat
              else if (n =? 3)%nat then inl 3%nat
              else match rest2 with
              | b3 :: _ => if in_range b3 0x80 0xBF then inl 4%nat else inr 3%nat
              | [] => inr 3%nat
              end
          | [] => inr 2%nat
          end
      | [] => inr 1%nat
      end
  end.

(** Sequences of a byte string, each with its validity; the length is enough
    fuel because every sequence has at least one byte. *)
Fixpoint sequences (fuel : nat) (s : bytes) : list (bool * bytes) :=
  match fuel, s with
  | S f, b :: rest =>
      match next_seq b rest with
      | inl n => (true, take n s) :: sequences f (drop n s)
      | inr n => (false, take n s) :: sequences f (drop n s)
      end
  | _, _ => []
  end.

Definition seqs (s : bytes) : list (bool * bytes) := sequences (length s) s.

(** [std::str::from_utf8(..).is_ok()] *)
Definition is_utf8 (s : bytes) : bool := forallb fst (seqs s).

(** [String::from_utf8_lossy]: every invalid subpart becomes U+FFFD. *)
Definition from_utf8_lossy (s : bytes) : bytes :=
  concat (map (fun '(ok, q) => if (ok : bool) then q else [xef; xbf; xbd]) (seqs s)).

(** [Display] of the [Utf8Error] for the first invalid subpart [q] at byte [idx];
    [last] says that nothing follows it. *)
Definition error_display (show : Z -> bytes) (idx : nat) (q : bytes) (last : bool) : bytes :=
  let incomplete := last && (match q with b :: _ => bool_decide (lead_info b <> None) | [] => false end) in
  if incomplete then b!"incomplete utf-8 byte sequence from index " ++ show (Z.of_nat idx)
  else b!"invalid utf-8 sequence of " ++ show (Z.of_nat (length q))
       ++ b!" bytes from index " ++ show (Z.of_nat idx).

Fixpoint first_error (show : Z -> bytes) (idx : nat) (qs : list (bool * bytes)) : option bytes :=
  match qs with
  | [] => None
  | (true, q) :: qs' => first_error show (idx + length q) qs'
  | (false, q) :: qs' => Some (error_display show idx q (bool_decide (qs' = [])))
  end.

(** [s.chars().count()] on a valid string. *)
Definition char_count (s : bytes) : nat := length (seqs s).

(** [b as char] for a [u8], pushed to a string: Latin-1. *)
Definition byte_as_char (b : byte) : bytes := encode_char (b2z b).

End Utf8.

(** ** Trimming *)

(** The encodings of the characters with the Unicode property White_Space. *)
Definition whitespace : list bytes :=
  map Utf8.encode_char
    [9; 10; 11; 12; 13; 32; 0x85; 0xA0; 0x1680; 0x2000; 0x2001; 0x2002; 0x2003; 0x2004;
     0x2005; 0x2006; 0x2007; 0x2008; 0x2009; 0x200A; 0x2028; 0x2029; 0x202F; 0x205F; 0x3000].

Definition strip_any (pats : list bytes) (s : bytes) : option bytes :=
  head (omap (strip_prefix s) pats).

Fixpoint trim_with (fuel : nat) (pats : list bytes) (s : bytes) : bytes :=
  match fuel with
  | O => s
  | S f => match strip_any pats s with
           | Some s' => trim_with f pats s'
           | None => s
           end
  end.

Definition trim_start (s : bytes) : bytes := trim_with (length s) whitespace s.
Definition trim_end (s : bytes) : bytes :=
  rev (trim_with (length s) (map (@rev byte) whitespace) (rev s)).
(** [str::trim] *)
Definition trim (s : bytes) : bytes := trim_end (trim_start s).

(** ** Integers *)

(** [char::to_digit(radix)] *)
Definition to_digit (radix : Z) (b : byte) : option Z :=
  let c := b2z b in
  let d :=
    if (48 <=? c) && (c <=? 57) then c - 48
    else if (97 <=? c) && (c <=? 122) then c - 87
    else if (65 <=? c) && (c <=? 90) then c - 55
    else 255 in
  if d <? radix then Some d else None.

(** Digit accumulation with the overflow check of [from_str_radix]. *)
Fixpoint parse_digits (radix max acc : Z) (s : bytes) : option Z :=
  match s with
  | [] => Some acc
  | b :: s' =>
      d ← to_digit radix b;
      let acc := acc * radix + d in
      if max <? acc then None else parse_digits radix max acc s'
  end.

(** [uN::from_str_radix]: an optional [+], then at least one digit. *)
Definition parse_uint (radix max : Z) (s : bytes) : option Z :=
  match s with
  | [] => None
  | c :: ds =>
      if bool_decide (c = x2b) then
        if bool_decide (ds = []) then None else parse_digits radix max 0 ds
      else parse_digits radix max 0 s
  end.

(** [str::parse::<u64>] and [str::parse::<i64>] *)
Definition parse_u64 (s : bytes) : option Z := parse_uint 10 u64_max s.

Definition parse_i64 (s : bytes) : option Z :=
  match s with
  | [] => None
  | c :: ds =>
      if bool_decide (c = x2d) then
        if bool_decide (ds = []) then None
        else Z.opp <$> parse_digits 10 (- i64_min) 0 ds
      else parse_uint 10 i64_max s
  end.

(** [fmt::write_u64]: the digits are written from the end of a 20-byte buffer;
    [buf] holds what has been written.  [None] stands for running past the
    start of the buffer. *)
Fixpoint itoa (room : nat) (n : Z) (buf : bytes) : option bytes :=
  match room with
  | O => None
  | S room =>
      let buf := z2b (48 + n mod 10) :: buf in
      let n := n / 10 in
      if n =? 0 then Some buf else itoa room n buf
  end.

Definition write_u64 (out : bytes) (u : Z) : bytes := out ++ default [] (itoa 20 u []).

(** [fmt::write_i64]; [i.unsigned_abs()] is [|i|] as a [u64]. *)
Definition write_i64 (out : bytes) (i : Z) : bytes :=
  let out := if i <? 0 then out ++ [x2d] else out in
  write_u64 out (Z.abs i).

(** [n.to_string()] for unsigned integers of any size (a number has at most
    as many decimal as binary digits). *)
Definition show_uint (n : Z) : bytes := default [] (itoa (S (Z.to_nat (Z.log2 n))) n []).

(** [std::str::from_utf8], the error as its [Display] text. *)
Definition from_utf8 (s : bytes) : Result bytes bytes :=
  match Utf8.first_error show_uint 0 (Utf8.seqs s) with
  | None => Ok s
  | Some m => Err m
  end.

(** ** Binary64 *)

Module F64.

Definition t := spec_float.
Definition prec : Z := 53.
Definition emax : Z := 1024.

Definition is_finite (f : t) : bool :=
  match f with S754_zero _ | S754_finite _ _ _ => true | _ => false end.
Definition is_nan (f : t) : bool := match f with S754_nan => true | _ => false end.

Definition add : t -> t -> t := SFadd prec emax.
Definition sub : t -> t -> t := SFsub prec emax.
Definition mul : t -> t -> t := SFmul prec emax.
Definition div : t -> t -> t := SFdiv prec emax.
Definition opp : t -> t := SFopp.
Definition ltb : t -> t -> bool := SFltb.
Definition leb : t -> t -> bool := SFleb.
Definition eqb : t -> t -> bool := SFeqb.
(** [a.partial_cmp(&b)] *)
Definition partial_cmp (a b : t) : option comparison := SFcompare a b.

(** [i as f64] *)
Definition of_Z (z : Z) : t := binary_normalize prec emax z 0 false.

(** The correctly rounded value of [(-1)^neg * m * 10^e]. *)
Definition of_decimal (neg : bool) (m e : Z) : t :=
  match m with
  | Zpos p =>
      if 0 <=? e then binary_normalize prec emax (if neg then - (m * 10 ^ e) else m * 10 ^ e) 0 neg
      else SFdiv prec emax (S754_finite neg p 0) (S754_finite false (Z.to_pos (10 ^ (- e))) 0)
  | _ => S754_zero neg
  end.

Definition is_digit (b : byte) : bool := (48 <=? b2z b) && (b2z b <=? 57).

(** Longest prefix of decimal digits. *)
Fixpoint span_digits (s : bytes) : bytes * bytes :=
  match s with
  | [] => ([], [])
  | b :: s' => if is_digit b then let '(d, r) := span_digits s' in (b :: d, r) else ([], s)
  end.

Definition digits_val (ds : bytes) : Z :=
  fold_left (fun acc b => acc * 10 + (b2z b - 48)) ds 0.

(** An optional sign. *)
Definition split_sign (s : bytes) : bool * bytes :=
  match s with
  | b :: r => if bool_decide (b = x2d) then (true, r)
              else if bool_decide (b = x2b) then (false, r) else (false, s)
  | [] => (false, s)
  end.

(** [str::parse::<f64>] *)
Definition parse (s : bytes) : option t :=
  let '(neg, body) := split_sign s in
  let '(ip, r) := span_digits body in
  let '(fp, r) := match r with
                  | b :: r' => if bool_decide (b = x2e) then span_digits r' else ([], r)
                  | [] => ([], r)
                  end in
  if bool_decide (ip ++ fp = []) then
    let w := to_ascii_lowercase body in
    if bool_decide (w = b!"inf") || bool_decide (w = b!"infinity") then Some (S754_infinity neg)
    else if bool_decide (w = b!"nan") then Some S754_nan
    else None
  else
    let m := digits_val (ip ++ fp) in
    let fl := Z.of_nat (length fp) in
    match r with
    | [] => Some (of_decimal neg m (- fl))
    | b :: r' =>
        if bool_decide (b = x65) || bool_decide (b = x45) then
          let '(eneg, er) := split_sign r' in
          let '(ed, er') := span_digits er in
          if bool_decide (ed = []) || negb (bool_decide (er' = [])) then None
          else let e := digits_val ed in
               Some (of_decimal neg m ((if eneg then - e else e) - fl))
        else None
    end.

(** *** Printing: the shortest decimal that parses back *)

(** [num / den < 10^k] *)
Definition below_pow10 (num den k : Z) : bool :=
  if 0 <=? k then num <? den * 10 ^ k else num * 10 ^ (- k) <? den.

(** The [k] with [10^(k-1) <= num/den < 10^k], searched around an estimate. *)
Definition dec_exponent (num den : Z) : Z :=
  let k0 := (Z.log2 num - Z.log2 den) * 30103 / 100000 in
  default (k0 + 2) (head (List.filter (below_pow10 num den) [k0 - 1; k0; k0 + 1; k0 + 2])).

(** The decimals [d * 10^x] of [n] digits next to the value, nearest first. *)
Definition neighbours (num den k n : Z) : list (Z * Z) :=
  let x := k - n in
  let N := if 0 <=? x then num else num * 10 ^ (- x) in
  let D := if 0 <=? x then den * 10 ^ x else den in
  let lo := N / D in
  let hi := lo + 1 in
  let norm d := if d =? 10 ^ n then (1, k) else (d, x) in
  match Z.compare (2 * (N mod D)) D with
  | Lt => [norm lo; norm hi]
  | Gt => [norm hi; norm lo]
  | Eq => if Z.even lo then [norm lo; norm hi] else [norm hi; norm lo]
  end.

#[global] Instance spec_float_eq_dec : EqDecision spec_float.
Proof. solve_decision. Defined.

Definition shortest (m : positive) (e : Z) : Z * Z :=
  let num := if 0 <=? e then Zpos m * 2 ^ e else Zpos m in
  let den := if 0 <=? e then 1 else 2 ^ (- e) in
  let k := dec_exponent num den in
  let cands := flat_map (neighbours num den k) (map Z.of_nat (seq 1 17)) in
  default (default (0, 0) (head (neighbours num den k 17)))
    (head (List.filter (fun '(d, x) => bool_decide (of_decimal false d x = S754_finite false m e))
             cands)).

(** Positional notation of [d * 10^x], without exponent. *)
Definition positional (d x : Z) : bytes :=
  let ds := show_uint d in
  let point := Z.of_nat (length ds) + x in
  if 0 <=? x then ds ++ replicate (Z.to_nat x) x30
  else if point <=? 0 then [x30; x2e] ++ replicate (Z.to_nat (- point)) x30 ++ ds
  else take (Z.to_nat point) ds ++ [x2e] ++ drop (Z.to_nat point) ds.

(** [format!("{f}")] *)
Definition display (f : t) : bytes :=
  match f with
  | S754_nan => b!"NaN"
  | S754_infinity neg => if neg then b!"-inf" else b!"inf"
  | S754_zero neg => if neg then b!"-0" else b!"0"
  | S754_finite neg m e =>
      let '(d, x) := shortest m e in
      (if neg then [x2d] else []) ++ positional d x
  end.

(** [num / den] rounded to an integer, ties to even. *)
Definition round_even (num den : Z) : Z :=
  let q := num / den in
  match Z.compare (2 * (num mod den)) den with
  | Lt => q
  | Gt => q + 1
  | Eq => if Z.even q then q else q + 1
  end.

(** [format!("{f:.n$}")]: the exact value rounded to [n] decimals. *)
Definition display_prec (n : nat) (f : t) : bytes :=
  let body neg q :=
    let ds := show_uint q in
    let ds := replicate (S n - length ds) x30 ++ ds in
    let k := (length ds - n)%nat in
    (if neg : bool then [x2d] else []) ++ take k ds ++ (if (n =? 0)%nat then [] else [x2e] ++ drop k ds) in
  match f with
  | S754_nan => b!"NaN"
  | S754_infinity neg => if neg then b!"-inf" else b!"inf"
  | S754_zero neg => body neg 0
  | S754_finite neg m e =>
      let N := Zpos m * 10 ^ Z.of_nat n in
      body neg (if 0 <=? e then N * 2 ^ e else round_even N (2 ^ (- e)))
  end.

End F64.

(** ** Binary32 *)

Module F32.

Definition t := spec_float.
Definition prec : Z := 24.
Definition emax : Z := 128.

Definition is_nan (f : t) : bool := match f with S754_nan => true | _ => false end.
Definition zero : t := S754_zero false.

Definition add : t -> t -> t := SFadd prec emax.
Definition sub : t -> t -> t := SFsub prec emax.
Definition mul : t -> t -> t := SFmul prec emax.
Definition div : t -> t -> t := SFdiv prec emax.
Definition opp : t -> t := SFopp.
Definition sqrt : t -> t := SFsqrt prec emax.
Definition eqb : t -> t -> bool := SFeqb.
Definition partial_cmp (a b : t) : option comparison := SFcompare a b.

(** The value rounded to a format, ties to even. *)
Definition round_to (prec emax : Z) (f : spec_float) : spec_float :=
  match f with
  | S754_finite neg m e => binary_normalize prec emax (if neg then Zneg m else Zpos m) e neg
  | _ => f
  end.

(** [f as f32] for an [f64], [f as f64] for an [f32]. *)
Definition of_f64 (f : F64.t) : t := round_to prec emax f.
Definition to_f64 (f : t) : F64.t := round_to F64.prec F64.emax f.

End F32.

(** [fmt::write_f64] *)
Definition write_f64 (out : bytes) (f : F64.t) : bytes :=
  if F64.is_finite f then out ++ F64.display f else out ++ b!"null".

(** [fmt::write_json_f64] *)
Definition write_json_f64 (out : bytes) (f : F64.t) : bytes :=
  if negb (F64.is_finite f) then out ++ b!"null"
  else
    let start := length out in
    let out := out ++ F64.display f in
    if negb (existsb (fun b => bool_decide (b ∈ [x2e; x65; x45; x6e; x69])) (drop start out))
    then out ++ b!".0" else out.

(** ** Well-formed UTF-8 *)

Lemma next_seq_valid b rest n :
  Utf8.next_seq b rest = inl n ->
  (n = 1%nat /\ b2z b < 128) \/
  ((2 <= n <= S (length rest))%nat /\ Forall (fun c => 128 <= b2z c) (b :: take (n - 1) rest)).
Proof.
  unfold Utf8.next_seq, Utf8.in_range. destruct (b2z b <? 128) eqn:Eb.
  { intros [= <-]. zbool. by left. }
  zbool. intros H. right.
  destruct (Utf8.lead_info b) as [[[k lo] hi]|] eqn:El; [|done].
  assert (128 <= lo) as Hlo.
  { revert El. unfold Utf8.lead_info. repeat (destruct (Utf8.in_range b _ _); [intros; simplify_eq; lia|]).
    done. }
  destruct rest as [|b1 [|b2 [|b3 rest]]]; try done;
    repeat (split_if_in H; try done); simplify_eq; zbool;
    rewrite ?negb_false_iff in *; zbool;
    (split; [cbn [length]; lia|]); repeat constructor; lia.
Qed.

Lemma next_seq_app b rest n t :
  Utf8.next_seq b rest = inl n -> Utf8.next_seq b (rest ++ t) = inl n.
Proof.
  unfold Utf8.next_seq. destruct (b2z b <? 128); [done|].
  destruct (Utf8.lead_info b) as [[[k lo] hi]|]; [|done].
  destruct rest as [|b1 [|b2 [|b3 rest]]]; cbn [app]; repeat split_if; done.
Qed.

Lemma next_seq_take b rest n :
  Utf8.next_seq b rest = inl n -> Utf8.next_seq b (take (n - 1) rest) = inl n.
Proof.
  unfold Utf8.next_seq. destruct (b2z b <? 128); [done|].
  destruct (Utf8.lead_info b) as [[[k lo] hi]|]; [|done].
  destruct rest as [|b1 [|b2 [|b3 rest]]]; intros H; repeat (split_if_in H; try done);
    simplify_eq; cbn [take Nat.sub];
    repeat match goal with H : ?c = ?v |- context [if ?c then _ else _] => rewrite H end; done.
Qed.

Lemma next_seq_pos b s :
  (0 < match Utf8.next_seq b s with inl n => n | inr n => n end)%nat.
Proof.
  unfold Utf8.next_seq. destruct (b2z b <? 128); [lia|].
  destruct (Utf8.lead_info b) as [[[k lo] hi]|]; [|lia].
  destruct s as [|b1 [|b2 [|b3 s]]]; repeat split_if; lia.
Qed.

Lemma sequences_enough f1 f2 s :
  (length s <= f1)%nat -> (length s <= f2)%nat -> Utf8.sequences f1 s = Utf8.sequences f2 s.
Proof.
  revert f2 s. induction f1 as [|f1 IH]; intros f2 s H1 H2.
  - destruct s; [|simpl in H1; lia]. by destruct f2.
  - destruct s as [|b s]; [by destruct f2|]. destruct f2; [simpl in H2; lia|].
    cbn [Utf8.sequences]. cbn [length] in *.
    pose proof (next_seq_pos b s) as Hpos.
    destruct (Utf8.next_seq b s) as [n|n] eqn:E; f_equal; apply IH;
      rewrite length_drop; cbn [length]; lia.
Qed.

Lemma is_utf8_cons b s n :
  Utf8.next_seq b s = inl n -> Utf8.is_utf8 (b :: s) = Utf8.is_utf8 (drop n (b :: s)).
Proof.
  intros H. unfold Utf8.is_utf8, Utf8.seqs. cbn [length Utf8.sequences]. rewrite H.
  cbn [forallb fst andb]. f_equal. apply sequences_enough; [|done].
  pose proof (next_seq_pos b s) as Hpos. rewrite H in Hpos. rewrite length_drop. cbn [length]. lia.
Qed.

Lemma is_utf8_next b s :
  Utf8.is_utf8 (b :: s) = true -> exists n, Utf8.next_seq b s = inl n.
Proof.
  unfold Utf8.is_utf8, Utf8.seqs. cbn [length Utf8.sequences].
  destruct (Utf8.next_seq b s); [eauto|done].
Qed.

(** Valid UTF-8 as a sequence of ASCII bytes and of multi-byte sequences. *)
Lemma utf8_ind (P : bytes -> Prop) :
  P [] ->
  (forall b s, b2z b < 128 -> Utf8.is_utf8 s = true -> P s -> P (b :: s)) ->
  (forall q s, (forall t, Utf8.is_utf8 t = true -> Utf8.is_utf8 (q ++ t) = true) ->
     Forall (fun c => 128 <= b2z c) q -> Utf8.is_utf8 s = true -> P s -> P (q ++ s)) ->
  forall s, Utf8.is_utf8 s = true -> P s.
Proof.
  intros Hnil Hascii Hmulti s. remember (length s) as k eqn:Ek.
  revert s Ek. induction k as [k IH] using (well_founded_ind Wf_nat.lt_wf).
  intros [|b s] -> Hs; [done|]. destruct (is_utf8_next b s Hs) as [n Hn].
  rewrite (is_utf8_cons b s n Hn) in Hs.
  destruct (next_seq_valid b s n Hn) as [[-> Hb]|[Hlen Hhi]].
  - apply Hascii; [done|done|]. eapply IH; [|reflexivity|done]. simpl. lia.
  - destruct n as [|n]; [lia|]. rewrite Nat.sub_succ, Nat.sub_0_r in Hhi. cbn [drop] in Hs.
    rewrite <- (take_drop n s). change (b :: take n s ++ drop n s) with ((b :: take n s) ++ drop n s).
    apply Hmulti; [|done|done|].
    + intros t Ht. cbn [app]. rewrite (is_utf8_cons b (take n s ++ t) (S n)).
      * cbn [drop]. by rewrite drop_app_length' by (rewrite length_take; lia).
      * apply next_seq_app. apply next_seq_take in Hn. by rewrite Nat.sub_succ, Nat.sub_0_r in Hn.
    + eapply IH; [|reflexivity|done]. rewrite length_drop. simpl. lia.
Qed.

Lemma is_utf8_ascii_cons b s : b2z b < 128 -> Utf8.is_utf8 (b :: s) = Utf8.is_utf8 s.
Proof.
  intros Hb. rewrite (is_utf8_cons b s 1); [done|]. unfold Utf8.next_seq.
  by rewrite (proj2 (Z.ltb_lt _ _)).
Qed.

Lemma is_utf8_ascii_app q s :
  Forall (fun c => b2z c < 128) q -> Utf8.is_utf8 (q ++ s) = Utf8.is_utf8 s.
Proof.
  induction 1 as [|b q Hb _ IH]; [done|]. cbn [app]. by rewrite is_utf8_ascii_cons.
Qed.

Lemma is_utf8_app a b :
  Utf8.is_utf8 a = true -> Utf8.is_utf8 b = true -> Utf8.is_utf8 (a ++ b) = true.
Proof.
  intros Ha Hb. revert a Ha. apply utf8_ind; [done| |].
  - intros c s Hc _ IH. cbn [app]. by rewrite is_utf8_ascii_cons.
  - intros q s Hq _ _ IH. rewrite <- app_assoc. by apply Hq.
Qed.

Lemma is_utf8_ascii q : Forall (fun c => b2z c < 128) q -> Utf8.is_utf8 q = true.
Proof. intros H. rewrite <- (app_nil_r q). by rewrite is_utf8_ascii_app. Qed.

(** Valid UTF-8 survives the lossy conversion. *)
Lemma seqs_concat s : concat (map snd (Utf8.seqs s)) = s.
Proof.
  unfold Utf8.seqs. assert (forall f s, (length s <= f)%nat -> concat (map snd (Utf8.sequences f s)) = s) as H;
    [|by apply H].
  clear s. induction f as [|f IH]; intros s Hs; [by destruct s; [|simpl in Hs; lia]|].
  destruct s as [|b s]; [done|]. cbn [Utf8.sequences]. pose proof (next_seq_pos b s).
  destruct (Utf8.next_seq b s); cbn [map concat snd];
    (rewrite IH; [apply take_drop|rewrite length_drop; cbn [length] in *; lia]).
Qed.

Lemma lossy_valid s : Utf8.is_utf8 s = true -> Utf8.from_utf8_lossy s = s.
Proof.
  intros H. unfold Utf8.from_utf8_lossy. rewrite <- (seqs_concat s) at 2. f_equal.
  unfold Utf8.is_utf8 in H. rewrite forallb_forall in H. apply map_ext_in.
  intros [ok q] Hq. specialize (H _ Hq). simpl in H. by rewrite H.
Qed.

Lemma from_utf8_ok s : Utf8.is_utf8 s = true -> from_utf8 s = Ok s.
Proof.
  unfold from_utf8, Utf8.is_utf8. intros H.
  assert (forall k, Utf8.first_error show_uint k (Utf8.seqs s) = None) as ->; [|done].
  induction (Utf8.seqs s) as [|[[] q] qs IH]; [done| |done]. intros k. simpl in *. by apply IH.
Qed.

(** Cutting valid UTF-8 at an ASCII separator leaves valid pieces. *)
Lemma split_on_utf8 c s :
  b2z c < 128 -> Utf8.is_utf8 s = true -> Forall (fun w => Utf8.is_utf8 w = true) (split_on c s).
Proof.
  intros Hc. revert s. apply utf8_ind; [by repeat constructor| |].
  - intros b s Hb Hs IH. cbn [split_on]. case_bool_decide; [by constructor|].
    destruct (split_on c s) as [|w ws]; inv IH; [by repeat constructor; rewrite is_utf8_ascii_cons|].
    constructor; [by rewrite is_utf8_ascii_cons|done].
  - intros q s Hq Hhi Hs IH.
    assert (exists w ws, split_on c s = w :: ws /\ split_on c (q ++ s) = (q ++ w) :: ws) as (w & ws & E & ->).
    { clear Hq IH. induction Hhi as [|x q Hx _ IHq]; cbn [app].
      - pose proof (split_on_nonempty c s). destruct (split_on c s) as [|w ws]; [done|]. by exists w, ws.
      - destruct IHq as (w & ws & E & E'). exists w, ws. split; [done|]. cbn [split_on].
        rewrite bool_decide_false by (intros ->; lia). by rewrite E'. }
    rewrite E in IH. inv IH. constructor; [by apply Hq|done].
Qed.

(** ** Integer printing and parsing *)

Definition dec_val (acc : Z) (ds : bytes) : Z :=
  fold_left (fun acc b => acc * 10 + (b2z b - 48)) ds acc.

Lemma dec_val_app acc l1 l2 : dec_val acc (l1 ++ l2) = dec_val (dec_val acc l1) l2.
Proof. apply fold_left_app. Qed.

Lemma is_digit_range b : F64.is_digit b = true <-> 48 <= b2z b <= 57.
Proof. unfold F64.is_digit. rewrite andb_true_iff, !Z.leb_le. lia. Qed.

Lemma digit_byte d : 0 <= d < 10 -> b2z (z2b (48 + d)) = 48 + d.
Proof. intros. apply b2z_z2b. lia. Qed.

Lemma dec_val_ge acc ds :
  0 <= acc -> Forall (fun b => F64.is_digit b = true) ds -> acc <= dec_val acc ds.
Proof.
  intros Ha H. revert acc Ha. induction H as [|b ds Hb _ IH]; intros acc Ha; simpl; [lia|].
  apply is_digit_range in Hb. etransitivity; [|apply IH; lia]. lia.
Qed.

(** [itoa] writes the decimal digits of [n] when the buffer has room for them. *)
Lemma itoa_spec room n buf :
  0 <= n < 10 ^ Z.of_nat room ->
  (0 < room)%nat ->
  exists ds, itoa room n buf = Some (ds ++ buf) /\ ds <> [] /\
    Forall (fun b => F64.is_digit b = true) ds /\ dec_val 0 ds = n.
Proof.
  revert n buf. induction room as [|room IH]; intros n buf Hn Hr; [lia|].
  cbn [itoa]. rewrite Nat2Z.inj_succ, Z.pow_succ_r in Hn by lia.
  pose proof (Z.mod_pos_bound n 10 ltac:(lia)) as Hm.
  pose proof (Z.div_mod n 10 ltac:(lia)) as Hdm.
  set (c := z2b (48 + n mod 10)).
  assert (F64.is_digit c = true) as Hc by (apply is_digit_range; unfold c; rewrite digit_byte; lia).
  destruct (Z.eqb_spec (n / 10) 0) as [E|E].
  - exists [c]. split_and!; [done|done|by constructor|].
    simpl. unfold c. rewrite digit_byte by lia. lia.
  - assert (0 <= n / 10 < 10 ^ Z.of_nat room) as Hq.
    { split; [apply Z.div_pos; lia|apply Z.div_lt_upper_bound; lia]. }
    assert (0 < room)%nat as Hr'.
    { destruct room; [|lia]. simpl in Hq. lia. }
    destruct (IH (n / 10) (c :: buf) Hq Hr') as (ds & -> & Hne & Hd & Hv).
    exists (ds ++ [c]). split_and!.
    + by rewrite <- app_assoc.
    + by destruct ds.
    + apply Forall_app. split; [done|by constructor].
    + rewrite dec_val_app, Hv. simpl. unfold c. rewrite digit_byte by lia. lia.
Qed.

Lemma to_digit_10 b : F64.is_digit b = true -> to_digit 10 b = Some (b2z b - 48).
Proof.
  intros Hb. apply is_digit_range in Hb. unfold to_digit. cbv zeta.
  rewrite (proj2 (Z.leb_le 48 (b2z b))), (proj2 (Z.leb_le (b2z b) 57)) by lia. simpl.
  by rewrite (proj2 (Z.ltb_lt _ _)) by lia.
Qed.

Lemma parse_digits_val max acc ds :
  Forall (fun b => F64.is_digit b = true) ds -> 0 <= acc <= max ->
  parse_digits 10 max acc ds = if dec_val acc ds <=? max then Some (dec_val acc ds) else None.
Proof.
  intros H. revert acc. induction H as [|b ds Hb Hds IH]; intros acc Ha; cbn [parse_digits].
  - simpl. by rewrite (proj2 (Z.leb_le acc max)) by lia.
  - rewrite to_digit_10 by done. cbn [mbind option_bind].
    pose proof Hb as Hr. apply is_digit_range in Hr.
    change (dec_val acc (b :: ds)) with (dec_val (acc * 10 + (b2z b - 48)) ds).
    destruct (Z.ltb_spec max (acc * 10 + (b2z b - 48))) as [Hlt|Hge].
    + pose proof (dec_val_ge (acc * 10 + (b2z b - 48)) ds ltac:(lia) Hds).
      by rewrite (proj2 (Z.leb_gt _ _)) by lia.
    + apply IH. lia.
Qed.

Lemma digit_not_sign b : F64.is_digit b = true -> b <> x2b /\ b <> x2d.
Proof. intros H. split; intros ->; discriminate. Qed.

(** Digits parse as an unsigned integer when they fit. *)
Lemma parse_uint_digits max ds :
  ds <> [] -> 0 <= max -> Forall (fun b => F64.is_digit b = true) ds ->
  parse_uint 10 max ds = if dec_val 0 ds <=? max then Some (dec_val 0 ds) else None.
Proof.
  intros Hne Hm H. destruct ds as [|b ds]; [done|]. unfold parse_uint.
  inv H. rewrite bool_decide_false by (apply digit_not_sign; done).
  apply parse_digits_val; [by constructor|lia].
Qed.

Lemma write_u64_digits out u :
  0 <= u <= u64_max ->
  exists ds, write_u64 out u = out ++ ds /\ ds <> [] /\
    Forall (fun b => F64.is_digit b = true) ds /\ dec_val 0 ds = u.
Proof.
  intros Hu. unfold write_u64.
  destruct (itoa_spec 20 u []) as (ds & -> & Hne & Hd & Hv);
    [unfold u64_max in Hu; simpl; lia|lia|].
  exists ds. by rewrite app_nil_r.
Qed.

Lemma show_uint_digits n :
  0 <= n -> show_uint n <> [] /\ Forall (fun b => F64.is_digit b = true) (show_uint n)
            /\ dec_val 0 (show_uint n) = n.
Proof.
  intros Hn. unfold show_uint.
  destruct (itoa_spec (S (Z.to_nat (Z.log2 n))) n []) as (ds & -> & Hne & Hd & Hv); [|lia|].
  - split; [done|]. pose proof (Z.log2_nonneg n).
    rewrite Nat2Z.inj_succ, Z2Nat.id by done.
    destruct (Z.eq_dec n 0) as [->|]; [simpl; lia|].
    eapply Z.lt_le_trans; [apply (Z.log2_spec n); lia|].
    apply Z.pow_le_mono_l. lia.
  - simpl. by rewrite app_nil_r.
Qed.

(** ** The shape of a printed float *)

Definition dec_char (b : byte) : bool := F64.is_digit b || bool_decide (b = x2e).

Lemma digits_dec_char ds :
  Forall (fun b => F64.is_digit b = true) ds -> Forall (fun b => dec_char b = true) ds.
Proof. intros H. eapply Forall_impl; [exact H|]. intros b Hb. unfold dec_char. by rewrite Hb. Qed.

Lemma zeros_digits n : Forall (fun b => F64.is_digit b = true) (replicate n x30).
Proof. by apply Forall_replicate. Qed.
#[export] Hint Resolve digits_dec_char zeros_digits : ferroly.

Lemma positional_shape d x :
  0 <= d ->
  exists c r, F64.positional d x = c :: r /\ F64.is_digit c = true /\
              Forall (fun b => dec_char b = true) r.
Proof.
  intros Hd. destruct (show_uint_digits d Hd) as (Hne & Hds & _).
  unfold F64.positional. cbv zeta. destruct (show_uint d) as [|c ds]; [done|].
  inv Hds. destruct (0 <=? x) eqn:Ex; [|destruct (_ <=? 0) eqn:Ep].
  - exists c, (ds ++ replicate (Z.to_nat x) x30). split_and!; [done|done|].
    apply Forall_app. eauto with ferroly.
  - exists x30, (x2e :: replicate (Z.to_nat (- (Z.of_nat (length (c :: ds)) + x))) x30 ++ c :: ds).
    split_and!; [done|done|]. constructor; [done|]. apply Forall_app. split; eauto with ferroly.
  - zbool. destruct (Z.to_nat (Z.of_nat (length (c :: ds)) + x)) as [|n] eqn:En; [lia|].
    exists c, (take n ds ++ [x2e] ++ drop n ds). split_and!; [done|done|].
    rewrite !Forall_app. split_and!;
      [apply digits_dec_char, Forall_take; done|by constructor|
       apply digits_dec_char, Forall_drop; done].
Qed.

Lemma head_list_filter {A} (P : A -> Prop) (f : A -> bool) l d :
  P d -> Forall P l -> P (default d (head (List.filter f l))).
Proof.
  intros Hd H. induction H as [|x l Hx _ IH]; simpl; [done|]. by destruct (f x).
Qed.

Lemma neighbours_nonneg num den k n :
  0 < num -> 0 < den -> Forall (fun q => 0 <= q.1) (F64.neighbours num den k n).
Proof.
  intros Hn Hd. unfold F64.neighbours. cbv zeta.
  set (N := if 0 <=? k - n then num else _). set (D := if 0 <=? k - n then _ else den).
  assert (0 <= N / D).
  { apply Z.div_pos.
    - subst N. destruct (0 <=? k - n) eqn:E; zbool; [lia|].
      pose proof (Z.pow_pos_nonneg 10 (- (k - n)) ltac:(lia) ltac:(lia)). lia.
    - subst D. destruct (0 <=? k - n) eqn:E; zbool; [|lia].
      pose proof (Z.pow_pos_nonneg 10 (k - n) ltac:(lia) ltac:(lia)). lia. }
  destruct (2 * (N mod D) ?= D); [destruct (Z.even (N / D))| |];
    repeat constructor; destruct (_ =? _); simpl; lia.
Qed.

Lemma shortest_nonneg m e : 0 <= (F64.shortest m e).1.
Proof.
  unfold F64.shortest. cbv zeta.
  set (num := if 0 <=? e then _ else Zpos m). set (den := if 0 <=? e then 1 else _).
  assert (0 < num /\ 0 < den) as [Hn Hd].
  { subst num den. destruct (0 <=? e) eqn:E; zbool; split; try lia;
      apply Z.pow_pos_nonneg; lia. }
  apply (head_list_filter (fun q => 0 <= q.1)).
  - pose proof (neighbours_nonneg num den (F64.dec_exponent num den) 17 Hn Hd) as H.
    destruct (F64.neighbours _ _ _ _); simpl; [lia|]. by inv H.
  - induction (map Z.of_nat (seq 1 17)) as [|n ns IH]; simpl; [constructor|].
    apply Forall_app. split; [by apply neighbours_nonneg|done].
Qed.

(** A finite float prints as an optional minus sign, a digit, then digits and
    points; the JSON form always has a point. *)
Lemma display_shape f :
  F64.is_finite f = true ->
  exists (neg : bool) c r, F64.display f = (if neg then [x2d] else []) ++ c :: r /\
    F64.is_digit c = true /\ Forall (fun b => dec_char b = true) r.
Proof.
  intros Hf. destruct f as [neg| | |neg m e]; try done.
  - exists neg, x30, []. by destruct neg.
  - simpl. pose proof (shortest_nonneg m e) as Hd. destruct (F64.shortest m e) as [d x].
    destruct (positional_shape d x Hd) as (c & r & -> & ? & ?). by exists neg, c, r.
Qed.

Lemma json_float_shape f :
  F64.is_finite f = true ->
  exists (neg : bool) c r, write_json_f64 [] f = (if neg then [x2d] else []) ++ c :: r /\
    F64.is_digit c = true /\ Forall (fun b => dec_char b = true) r /\ x2e ∈ r.
Proof.
  intros Hf. unfold write_json_f64. rewrite Hf. cbn [negb app length drop].
  destruct (display_shape f Hf) as (neg & c & r & -> & Hc & Hr).
  exists neg, c. destruct (existsb _ _) eqn:E; simpl.
  - exists r. split_and!; [done|done|done|].
    apply existsb_exists in E as (b & Hb & E). apply bool_decide_eq_true in E.
    apply list_elem_of_In, elem_of_app in Hb as [Hb|Hb].
    { destruct neg; set_solver. }
    apply elem_of_cons in Hb as [->|Hb].
    { repeat (apply elem_of_cons in E as [->|E]; [done|]). set_solver. }
    rewrite Forall_forall in Hr. pose proof (Hr b Hb) as H. unfold dec_char in H.
    repeat (apply elem_of_cons in E as [->|E]; [done|]). set_solver.
  - exists (r ++ b!".0"). split_and!; [by rewrite <- app_assoc|done| |].
    + apply Forall_app. split; [done|]. by repeat constructor.
    + apply elem_of_app. right. apply elem_of_cons. by left.
Qed.

Lemma parse_u64_write_u64 u : 0 <= u <= u64_max -> parse_u64 (write_u64 [] u) = Some u.
Proof.
  intros Hu. destruct (write_u64_digits [] u Hu) as (ds & -> & Hne & Hd & Hv).
  cbn [app]. unfold parse_u64. rewrite parse_uint_digits by (done || (unfold u64_max; lia)).
  by rewrite Hv, (proj2 (Z.leb_le _ _)) by lia.
Qed.

(** Reading an unsigned number as an [i64] succeeds exactly when it fits. *)
Lemma parse_i64_write_u64 u :
  0 <= u <= u64_max -> parse_i64 (write_u64 [] u) = if u <=? i64_max then Some u else None.
Proof.
  intros Hu. destruct (write_u64_digits [] u Hu) as (ds & -> & Hne & Hd & Hv).
  cbn [app]. unfold parse_i64. destruct ds as [|b ds]; [done|].
  rewrite bool_decide_false by (inv Hd; apply digit_not_sign; done).
  rewrite parse_uint_digits by (done || (unfold i64_max; lia)). by rewrite Hv.
Qed.

Lemma parse_i64_write_i64 i : i64_min <= i <= i64_max -> parse_i64 (write_i64 [] i) = Some i.
Proof.
  intros Hi. unfold write_i64. unfold i64_min, i64_max in Hi.
  destruct (Z.ltb_spec i 0) as [Hneg|Hpos].
  - cbn [app]. destruct (write_u64_digits [x2d] (Z.abs i)) as (ds & -> & Hne & Hd & Hv);
      [unfold u64_max; lia|].
    cbn [app parse_i64]. rewrite bool_decide_true, bool_decide_false by done.
    rewrite parse_digits_val by (done || (unfold i64_min; lia)).
    rewrite Hv, (proj2 (Z.leb_le _ _)) by (unfold i64_min; lia). simpl. f_equal. lia.
  - rewrite parse_i64_write_u64 by (unfold u64_max; lia).
    rewrite (proj2 (Z.leb_le _ _)) by (unfold i64_max; lia). f_equal. lia.
Qed.

(** A number in decimal digits, as stdpp prints it: what [write_u64] and [write_i64] write. *)
Definition decimal (i : Z) : bytes := String.list_byte_of_string (pretty.pretty i).

Lemma digit_char m : 0 <= m < 10 -> Ascii.byte_of_ascii (pretty.pretty_N_char (Z.to_N m)) = z2b (48 + m).
Proof.
  intros H. assert (m = 0 \/ m = 1 \/ m = 2 \/ m = 3 \/ m = 4 \/ m = 5 \/ m = 6 \/ m = 7 \/ m = 8 \/ m = 9) as Hm by lia.
  repeat (destruct Hm as [->|Hm]; [done|]). by subst.
Qed.

Lemma itoa_pretty room : forall n s, 0 < n < 10 ^ Z.of_nat room ->
  itoa room n (String.list_byte_of_string s) = Some (String.list_byte_of_string (pretty.pretty_N_go (Z.to_N n) s)).
Proof.
  induction room as [|room IH]; intros n s Hn; [cbn in Hn; lia|].
  rewrite Nat2Z.inj_succ, Z.pow_succ_r in Hn by lia. pose proof (Z.mod_pos_bound n 10 ltac:(lia)) as Hm.
  cbn [itoa]. rewrite pretty.pretty_N_go_step by lia.
  change 10%N with (Z.to_N 10). rewrite <- Z2N.inj_div, <- Z2N.inj_mod by lia.
  rewrite <- digit_char by done.
  change (?c :: String.list_byte_of_string s) with
    (String.list_byte_of_string (String (pretty.pretty_N_char (Z.to_N (n mod 10))) s)).
  destruct (Z.eqb_spec (n / 10) 0) as [->|E]; [by rewrite pretty.pretty_N_go_0|].
  apply IH. pose proof (Z.div_pos n 10 ltac:(lia) ltac:(lia)). split; [lia|apply Z.div_lt_upper_bound; lia].
Qed.

Lemma write_u64_decimal u : 0 <= u <= u64_max -> write_u64 [] u = decimal u.
Proof.
  intros Hu. unfold u64_max in Hu. destruct (decide (u = 0)) as [->|Hne]; [done|].
  unfold write_u64. pose proof (itoa_pretty 20 u EmptyString ltac:(lia) : itoa 20 u [] = _) as ->.
  destruct u as [|p|p]; [done| |lia]. done.
Qed.

Lemma write_i64_decimal i : i64_min <= i <= i64_max -> write_i64 [] i = decimal i.
Proof.
  intros Hi. unfold i64_min, i64_max in Hi. unfold write_i64. destruct (Z.ltb_spec i 0) as [H|H].
  - assert (write_u64 [x2d] (Z.abs i) = [x2d] ++ write_u64 [] (Z.abs i)) as E by done.
    cbn [app]. rewrite E, write_u64_decimal by (unfold u64_max; lia). by destruct i.
  - rewrite Z.abs_eq by lia. apply write_u64_decimal. unfold u64_max. lia.
Qed.

(** [fmt::write_u64] and [fmt::write_i64] never run past their 20-byte buffer and
    [str::parse] reads back exactly the number that was written, for every [u64]
    and every [i64]. *)
Theorem integer_print_parse (u i : Z) :
  0 <= u <= u64_max -> i64_min <= i <= i64_max ->
  itoa 20 u [] <> None /\
  parse_u64 (write_u64 [] u) = Some u /\ parse_i64 (write_i64 [] i) = Some i.
Proof.
  intros Hu Hi. split_and!.
  - destruct (itoa_spec 20 u []) as (ds & -> & _); [unfold u64_max in Hu; simpl; lia|lia|done].
  - by apply parse_u64_write_u64.
  - by apply parse_i64_write_i64.
Qed.

Lemma integer_print_parse_witness :
  parse_u64 (write_u64 [] u64_max) = Some u64_max /\
  parse_i64 (write_i64 [] i64_min) = Some i64_min.
Proof.
  destruct (integer_print_parse u64_max i64_min) as (_ & H1 & H2);
    [unfold u64_max; lia|unfold i64_min, i64_max; lia|].
  by split.
Defined.
