(* ===== verification/Rounding.v ===== *)
(** * Rounding of binary64 arithmetic

    The order-theoretic facts about [f64] that clock and rate computations rely on.  A non-negative finite float is
    a whole number of units of 2^-1074 ([units]); each arithmetic operation rounds the exact rational result to the
    nearest representable float, ties to even ([rounded]), and rounding is monotone.  Hence addition,
    multiplication, division and [Duration::as_secs_f64] are monotone. *)

From S2P Require Import Prelude Text.
From Stdlib Require Import SpecFloat.

Open Scope Z_scope.

Module Rounding.

Notation prec := F64.prec.
Notation emax := F64.emax.

Definition fx (d : Z) : Z := fexp prec emax d.

Lemma fx_max d : fx d = Z.max (d - 53) (-1074).
Proof. reflexivity. Qed.

(** ** Binary digits *)

Lemma digits_pos p : 2 ^ (Zpos (digits2_pos p) - 1) <= Zpos p < 2 ^ Zpos (digits2_pos p).
Proof.
  induction p as [p IH|p IH|]; cbn [digits2_pos]; [| |lia]; rewrite Pos2Z.inj_succ;
    (replace (Z.succ (Z.pos (digits2_pos p)) - 1) with (Z.succ (Z.pos (digits2_pos p) - 1)) by lia);
    rewrite !Z.pow_succ_r by lia; lia.
Qed.

Lemma digits_bounds m : 1 <= m -> 0 < Zdigits2 m /\ 2 ^ (Zdigits2 m - 1) <= m < 2 ^ Zdigits2 m.
Proof. destruct m as [|p|p]; intros Hm; [lia| |lia]. split; [cbn; lia|apply digits_pos]. Qed.

Lemma digits_le m k : 0 <= m -> 0 <= k -> m < 2 ^ k -> Zdigits2 m <= k.
Proof.
  intros Hm Hk H. destruct (decide (m = 0)) as [->|Hz]; [cbn; lia|].
  destruct (digits_bounds m) as [? [? _]]; [lia|]. assert (Zdigits2 m - 1 < k); [|lia].
  apply (Z.pow_lt_mono_r_iff 2); lia.
Qed.

Lemma digits_ge m k : 0 <= k -> 2 ^ k <= m -> k < Zdigits2 m.
Proof.
  intros Hk H. assert (0 < 2 ^ k) by (apply Z.pow_pos_nonneg; lia). destruct (digits_bounds m) as [? [_ ?]]; [lia|].
  apply (Z.pow_lt_mono_r_iff 2); lia.
Qed.

Lemma digits_mono m m' : 1 <= m <= m' -> Zdigits2 m <= Zdigits2 m'.
Proof.
  intros H. destruct (digits_bounds m) as [? [? _]]; [lia|].
  pose proof (digits_ge m' (Zdigits2 m - 1) ltac:(lia) ltac:(lia)). lia.
Qed.

Lemma digits_scale a b k : 0 < b -> 0 <= k -> 1 <= a / b -> Zdigits2 (a * 2 ^ k / b) = Zdigits2 (a / b) + k.
Proof.
  intros Hb Hk Ha. destruct (digits_bounds (a / b) Ha) as [Hd [Hl Hu]]. set (d := Zdigits2 (a / b)) in *.
  assert (0 < 2 ^ k) by (apply Z.pow_pos_nonneg; lia).
  assert (2 ^ (d + k - 1) <= a * 2 ^ k / b < 2 ^ (d + k)) as [H1 H2].
  { replace (d + k - 1) with ((d - 1) + k) by lia. rewrite !Z.pow_add_r by lia. split.
    - apply Z.div_le_lower_bound; [done|]. rewrite Z.mul_assoc. apply Z.mul_le_mono_nonneg_r; [lia|].
      etrans; [by apply Z.mul_le_mono_nonneg_l; [lia|]|]. by apply Z.mul_div_le.
    - apply Z.div_lt_upper_bound; [done|]. rewrite Z.mul_assoc. apply Z.mul_lt_mono_pos_r; [done|].
      pose proof (Z.mul_succ_div_gt a b Hb). nia. }
  pose proof (digits_ge (a * 2 ^ k / b) (d + k - 1) ltac:(lia) H1). assert (Zdigits2 (a * 2 ^ k / b) <= d + k); [|lia].
  apply digits_le; [|lia|done]. assert (0 < 2 ^ (d + k - 1)) by (apply Z.pow_pos_nonneg; lia). lia.
Qed.

(** Case analysis on the integer comparisons of the goal. *)
Ltac zcases :=
  zbool;
  repeat match goal with
  | |- context [?x <=? ?y] => destruct (Z.leb_spec x y)
  | |- context [?x =? ?y] => destruct (Z.eqb_spec x y)
  end; try reflexivity; lia.

(** ** The shift register of the rounding algorithm *)

(** The register holding [a / D]: the quotient, the half bit and the sticky bit. *)
Definition register (a D : Z) : shr_record :=
  Build_shr_record (a / D) (D <=? 2 * (a mod D)) (negb (a mod D =? 0) && negb (2 * (a mod D) =? D)).

Lemma shr_1_register a D : 0 <= a -> 0 < D -> shr_1 (register a D) = register a (D * 2).
Proof.
  intros Ha HD. pose proof (Z.mod_pos_bound a D HD) as Hm. pose proof (Z.div_pos a D Ha HD) as Hq.
  assert (a / (D * 2) = a / D / 2) as E1 by (by rewrite Z.div_div by lia).
  assert (a mod (D * 2) = a mod D + D * ((a / D) mod 2)) as E2 by (by rewrite Z.rem_mul_r by lia).
  assert ((D <=? 2 * (a mod D)) || (negb (a mod D =? 0) && negb (2 * (a mod D) =? D)) = negb (a mod D =? 0)) as Es.
  { zcases. }
  unfold register, shr_1. rewrite Es, E1, E2. set (q := a / D) in *. set (r := a mod D) in *. clearbody q r.
  assert (forall q' o, q = 2 * q' + (if o : bool then 1 else 0) ->
    Build_shr_record q' o (negb (r =? 0))
    = Build_shr_record (q / 2) (D * 2 <=? 2 * (r + D * (q mod 2)))
        (negb (r + D * (q mod 2) =? 0) && negb (2 * (r + D * (q mod 2)) =? D * 2))) as HB.
  { intros q' o Hqo. assert (q / 2 = q' /\ q mod 2 = if o then 1 else 0) as [-> ->].
    { split; [symmetry; apply (Z.div_unique_pos q 2 q' (if o then 1 else 0)); destruct o; lia|].
      symmetry. apply (Z.mod_unique_pos q 2 q' (if o then 1 else 0)); destruct o; lia. }
    f_equal; destruct o; zcases. }
  destruct q as [|[p|p|]|p]; [apply (HB 0 false)|apply (HB (Zpos p) true)|apply (HB (Zpos p) false)|apply (HB 0 true)|]; lia.
Qed.

Lemma iter_pos_succ {A} (f : A -> A) p x : iter_pos f (Pos.succ p) x = f (iter_pos f p x).
Proof.
  assert (forall p x, iter_pos f p (f x) = f (iter_pos f p x)) as Hc.
  { clear p x. induction p as [p IH|p IH|]; intros x; cbn [iter_pos]; rewrite ?IH; done. }
  revert x. induction p as [p IH|p IH|]; intros x.
  - change (iter_pos f (Pos.succ p) (iter_pos f (Pos.succ p) x) = f (iter_pos f p (iter_pos f p (f x)))). by rewrite !IH, !Hc.
  - change (iter_pos f p (iter_pos f p (f x)) = f (iter_pos f p (iter_pos f p x))). by rewrite !Hc.
  - done.
Qed.

Lemma shr_register a D e n : 0 <= a -> 0 < D -> 0 <= n -> shr (register a D) e n = (register a (D * 2 ^ n), e + n).
Proof.
  intros Ha HD Hn. destruct n as [|p|p]; [| |lia]; cbn [shr].
  - by rewrite Z.pow_0_r, Z.mul_1_r, Z.add_0_r.
  - f_equal. clear Hn. induction p as [|p IH] using Pos.peano_ind.
    + cbn [iter_pos]. rewrite shr_1_register by done. done.
    + rewrite iter_pos_succ, IH, shr_1_register, Pos2Z.inj_succ, Z.pow_succ_r by (lia || nia). f_equal. lia.
Qed.

Lemma register_exact a : register a 1 = shr_record_of_loc a loc_Exact.
Proof. unfold register. rewrite Z.mod_1_r, Z.div_1_r. done. Qed.

Lemma register_division a b : 0 < b -> shr_record_of_loc (a / b) (new_location b (a mod b)) = register a b.
Proof.
  intros Hb. pose proof (Z.mod_pos_bound a b Hb) as Hm.
  unfold register, new_location, new_location_even, new_location_odd. set (r := a mod b) in *. clearbody r.
  destruct (Z.even b) eqn:Ee.
  - destruct (r =? 0) eqn:Er; cbn [shr_record_of_loc].
    + f_equal; zcases.
    + destruct (2 * r ?= b) eqn:Ec; cbn [shr_record_of_loc]; [apply Z.compare_eq in Ec|rewrite Z.compare_lt_iff in Ec|
        rewrite Z.compare_gt_iff in Ec]; f_equal; zcases.
  - assert (b <> 2 * r) as Ho by (intros ->; rewrite Z.even_mul in Ee; done).
    destruct (r =? 0) eqn:Er; cbn [shr_record_of_loc].
    + f_equal; zcases.
    + destruct (2 * r + 1 ?= b) eqn:Ec; cbn [shr_record_of_loc]; [apply Z.compare_eq in Ec|rewrite Z.compare_lt_iff in Ec|
        rewrite Z.compare_gt_iff in Ec]; f_equal; zcases.
Qed.

(** ** Rounding to the nearest, ties to even *)

Definition nearest (a D : Z) : Z :=
  match 2 * (a mod D) ?= D with
  | Lt => a / D
  | Eq => if Z.even (a / D) then a / D else a / D + 1
  | Gt => a / D + 1
  end.

Lemma round_register a D : 0 < D -> round_nearest_even (shr_m (register a D)) (loc_of_shr_record (register a D)) = nearest a D.
Proof.
  intros HD. pose proof (Z.mod_pos_bound a D HD). unfold register, nearest. cbn [shr_m].
  destruct (2 * (a mod D) ?= D) eqn:Ec; [apply Z.compare_eq in Ec|rewrite Z.compare_lt_iff in Ec|rewrite Z.compare_gt_iff in Ec].
  - rewrite (proj2 (Z.leb_le D (2 * (a mod D)))), (proj2 (Z.eqb_eq (2 * (a mod D)) D)), andb_false_r by lia. done.
  - rewrite (proj2 (Z.leb_gt D (2 * (a mod D)))) by lia. by destruct (negb _ && negb _).
  - rewrite (proj2 (Z.leb_le D (2 * (a mod D)))), (proj2 (Z.eqb_neq (a mod D) 0)), (proj2 (Z.eqb_neq (2 * (a mod D)) D)) by lia. done.
Qed.

Lemma nearest_bounds a D : 0 < D -> a / D <= nearest a D <= a / D + 1.
Proof. intros HD. unfold nearest. repeat case_match; lia. Qed.

Lemma nearest_mono a a' D : 0 < D -> a <= a' -> nearest a D <= nearest a' D.
Proof.
  intros HD Ha. pose proof (nearest_bounds a D HD). pose proof (nearest_bounds a' D HD).
  pose proof (Z.div_le_mono a a' D HD Ha). destruct (decide (a / D = a' / D)) as [E|]; [|lia].
  assert (a mod D <= a' mod D) as Hm by (rewrite !Z.mod_eq by lia; rewrite E; lia).
  unfold nearest. rewrite E. destruct (2 * (a mod D) ?= D) eqn:E1, (2 * (a' mod D) ?= D) eqn:E2; repeat case_match; try lia;
    rewrite ?Z.compare_eq_iff, ?Z.compare_lt_iff, ?Z.compare_gt_iff in *; lia.
Qed.

Lemma nearest_scale a D c : 0 < c -> 0 < D -> nearest (a * c) (D * c) = nearest a D.
Proof.
  intros Hc HD. unfold nearest. rewrite Z.div_mul_cancel_r, Z.mul_mod_distr_r by lia.
  replace (2 * (a mod D * c)) with (2 * (a mod D) * c) by lia. by rewrite <- Zmult_compare_compat_r by lia.
Qed.

Lemma nearest_exact q D : 0 < D -> nearest (q * D) D = q.
Proof.
  intros HD. unfold nearest. rewrite Z.mod_mul, Z.div_mul by lia.
  destruct (2 * 0 ?= D) eqn:E; [apply Z.compare_eq in E; lia|done|rewrite Z.compare_gt_iff in E; lia].
Qed.


(** The exponent of the last place kept of [a / b * 2^e], and the rounded significand at that place. *)
Definition place (a b e : Z) : Z := fx (Zdigits2 (a / b) + e).
Definition significand (a b e : Z) : Z := nearest a (b * 2 ^ (place a b e - e)).

(** A significand at a place: at most 2^53, and full precision above the lowest place. *)
Record on_grid (q E : Z) : Prop := {
  grid_range : 0 <= q <= 2 ^ 53;
  grid_place : -1074 <= E;
  grid_full : E = -1074 \/ 2 ^ 52 <= q;
}.

(** The float [q * 2^E]. *)
Definition pack (q E : Z) : F64.t :=
  match q with
  | Zpos m =>
      let '(m, E) := if q =? 2 ^ 53 then (Z.to_pos (2 ^ 52), E + 1) else (m, E) in
      if E <=? emax - prec then S754_finite false m E else S754_infinity false
  | _ => S754_zero false
  end.

Lemma place_le a b e k : 0 <= a -> 0 < b -> a / b < 2 ^ k -> 0 <= k -> place a b e <= Z.max (k + e - 53) (-1074).
Proof.
  intros Ha Hb H Hk. unfold place. rewrite fx_max. pose proof (Z.div_pos a b Ha Hb).
  pose proof (digits_le (a / b) k). lia.
Qed.

Lemma significand_grid a b e : 0 < b -> 1 <= a / b -> e <= place a b e -> on_grid (significand a b e) (place a b e).
Proof.
  intros Hb Ha He. destruct (digits_bounds (a / b) Ha) as (Hd & Hl & Hu). set (n := place a b e - e).
  assert (0 < 2 ^ n) as Hn by (apply Z.pow_pos_nonneg; unfold n; lia).
  pose proof (nearest_bounds a (b * 2 ^ n) ltac:(nia)) as Hq. fold n in Hq. unfold significand. fold n.
  rewrite <- Z.div_div in Hq by lia. assert (0 <= a / b / 2 ^ n) by (apply Z.div_pos; lia).
  assert (a / b / 2 ^ n < 2 ^ 53) as Hlt.
  { apply Z.div_lt_upper_bound; [lia|]. rewrite <- Z.pow_add_r by lia. eapply Z.lt_le_trans; [exact Hu|].
    apply Z.pow_le_mono_r; [lia|]. unfold n, place. rewrite fx_max. lia. }
  split; [lia|unfold place; rewrite fx_max; lia|].
  destruct (decide (place a b e = -1074)) as [|Hp]; [by left|right].
  assert (2 ^ 52 <= a / b / 2 ^ n); [|lia]. apply Z.div_le_lower_bound; [lia|]. rewrite <- Z.pow_add_r by lia.
  etrans; [|exact Hl]. apply Z.pow_le_mono_r; [lia|]. unfold n, place in *. rewrite fx_max in *. lia.
Qed.

(** What the rounding algorithm computes from the register of [a / b] at exponent [e]. *)
Lemma binary_round_aux_spec a b e l :
  0 < b -> 1 <= a / b -> e <= place a b e -> shr_record_of_loc (a / b) l = register a b ->
  binary_round_aux prec emax false (a / b) e l = pack (significand a b e) (place a b e).
Proof.
  intros Hb Ha He Hl. assert (0 <= a) by (pose proof (Z.mul_div_le a b Hb); nia).
  destruct (significand_grid a b e Hb Ha He) as [Hr Hp Hf].
  unfold binary_round_aux, shr_fexp. rewrite Hl. change (fexp prec emax (Zdigits2 (a / b) + e)) with (place a b e).
  rewrite shr_register by lia. assert (0 < 2 ^ (place a b e - e)) by (apply Z.pow_pos_nonneg; lia).
  rewrite round_register by nia. fold (significand a b e). replace (e + (place a b e - e)) with (place a b e) by lia.
  set (q := significand a b e) in *. set (E := place a b e) in *. clearbody q E.
  rewrite <- register_exact. change (fexp prec emax (Zdigits2 q + E)) with (fx (Zdigits2 q + E)). rewrite fx_max.
  destruct q as [|m|m]; [| |lia].
  - destruct Hf as [->|]; [|lia]. done.
  - unfold pack. destruct (Z.eqb_spec (Z.pos m) (2 ^ 53)) as [Em|Em].
    + rewrite Em. change (Zdigits2 (2 ^ 53)) with 54. replace (Z.max (54 + E - 53) (-1074) - E) with 1 by lia.
      rewrite shr_register by lia. reflexivity.
    + assert (Zdigits2 (Z.pos m) <= 53) by (apply digits_le; lia).
      assert (Z.max (Zdigits2 (Z.pos m) + E - 53) (-1074) - E <= 0) as Hle by lia.
      assert (shr (register (Z.pos m) 1) E (Z.max (Zdigits2 (Z.pos m) + E - 53) (-1074) - E) = (register (Z.pos m) 1, E)) as ->.
      { destruct (Z.max _ _ - E); [done|lia|done]. }
      unfold register. rewrite Z.div_1_r. done.
Qed.

(** ** Units *)

(** Non-negative canonical floats, infinity included. *)
Definition nonneg (f : F64.t) : Prop :=
  match f with
  | S754_zero s | S754_infinity s => s = false
  | S754_finite s m e => s = false /\ on_grid (Zpos m) e /\ Zpos m < 2 ^ 53 /\ e <= emax - prec
  | S754_nan => False
  end.

(** The value of a finite float, in units of 2^-1074. *)
Definition units (f : F64.t) : Z := match f with S754_finite _ m e => Zpos m * 2 ^ (e + 1074) | _ => 0 end.

Definition grid_value (q E : Z) : Z := q * 2 ^ (E + 1074).

Lemma pack_nonneg q E : on_grid q E -> nonneg (pack q E).
Proof.
  intros [Hr Hp Hf]. unfold pack. destruct q as [|m|m]; [done| |lia].
  destruct (Z.eqb_spec (Zpos m) (2 ^ 53)); case_match; try done; zbool; split_and!; try done; try lia.
  all: split; lia.
Qed.

Lemma pack_units q E : on_grid q E -> F64.is_finite (pack q E) = true -> units (pack q E) = grid_value q E.
Proof.
  intros [Hr Hp Hf]. unfold pack. destruct q as [|m|m]; [done| |lia].
  destruct (Z.eqb_spec (Zpos m) (2 ^ 53)) as [Em|]; case_match; try done. intros _. unfold units, grid_value. rewrite Em.
  replace (E + 1 + 1074) with (Z.succ (E + 1074)) by lia. rewrite Z.pow_succ_r by lia. lia.
Qed.


Lemma pow2_pos n : 0 <= n -> 0 < 2 ^ n.
Proof. intros. by apply Z.pow_pos_nonneg. Qed.

Lemma grid_below q E E' : on_grid q E -> q < 2 ^ 53 -> E < E' -> grid_value q E < 2 ^ (E' + 1126).
Proof.
  intros [Hr Hp Hf] Hq HE. unfold grid_value. pose proof (pow2_pos (E + 1074) ltac:(lia)).
  eapply Z.lt_le_trans; [apply Z.mul_lt_mono_pos_r; [done|exact Hq]|]. rewrite <- Z.pow_add_r by lia.
  apply Z.pow_le_mono_r; lia.
Qed.

Lemma grid_above q E : on_grid q E -> -1074 < E -> 2 ^ (E + 1126) <= grid_value q E.
Proof.
  intros [Hr Hp Hf] HE. unfold grid_value. replace (E + 1126) with (52 + (E + 1074)) by lia. rewrite Z.pow_add_r by lia.
  apply Z.mul_le_mono_nonneg_r; [|lia]. pose proof (pow2_pos (E + 1074)). lia.
Qed.

Lemma grid_value_le q E q' E' : on_grid q E -> q < 2 ^ 53 -> on_grid q' E' -> E < E' -> grid_value q E < grid_value q' E'.
Proof.
  intros H Hq H' HE. pose proof (grid_below _ _ _ H Hq HE). pose proof (grid_above _ _ H'). destruct H. lia.
Qed.

Lemma leb_units f g :
  nonneg f -> nonneg g -> F64.is_finite f = true -> F64.is_finite g = true -> F64.leb f g = (units f <=? units g).
Proof.
  assert (forall m e, on_grid (Zpos m) e -> 0 < Zpos m * 2 ^ (e + 1074)) as Hpos.
  { intros m e [_ Hp _]. pose proof (pow2_pos (e + 1074) ltac:(lia)). lia. }
  destruct f as [s|s| |s m e], g as [s'|s'| |s' m' e']; intros Hf Hg; try done; intros _ _;
    unfold F64.leb, SFleb, SFcompare, units.
  - destruct Hg as (-> & Hg & _). rewrite (proj2 (Z.leb_le _ _)); [done|]. by apply Z.lt_le_incl, Hpos.
  - destruct Hf as (-> & Hf & _). rewrite (proj2 (Z.leb_gt _ _)); [done|]. by apply Hpos.
  - destruct Hf as (-> & Hf & Hm & _), Hg as (-> & Hg & Hm' & _).
    destruct (Z.compare_spec e e') as [->|Hlt|Hgt].
    + pose proof (pow2_pos (e' + 1074)). destruct Hf. change (Pos.compare_cont Eq m m') with (Pos.compare m m').
      destruct (Pos.compare_spec m m'); zcases || (destruct (Z.leb_spec (Z.pos m * 2 ^ (e' + 1074)) (Z.pos m' * 2 ^ (e' + 1074))); nia).
    + pose proof (grid_value_le _ _ _ _ Hf Hm Hg Hlt). unfold grid_value in *. rewrite (proj2 (Z.leb_le _ _)); lia.
    + pose proof (grid_value_le _ _ _ _ Hg Hm' Hf Hgt). unfold grid_value in *. rewrite (proj2 (Z.leb_gt _ _)); lia.
Qed.

Lemma pack_finite q E : on_grid q E -> F64.is_finite (pack q E) = (grid_value q E <? 2 ^ 2098).
Proof.
  intros H. pose proof H as [Hr Hp Hf]. unfold pack. destruct q as [|m|m]; [done| |lia].
  assert (forall q' E', on_grid q' E' -> q' < 2 ^ 53 -> (E' <=? emax - prec) = (grid_value q' E' <? 2 ^ 2098)) as HB.
  { clear. intros q E H Hq. change (emax - prec) with 971. destruct (Z.leb_spec E 971) as [HE|HE]; symmetry.
    - apply Z.ltb_lt, (grid_below q E 972); (done || lia).
    - apply Z.ltb_ge. etrans; [|apply grid_above; [done|lia]]. apply Z.pow_le_mono_r; lia. }
  destruct (Z.eqb_spec (Zpos m) (2 ^ 53)) as [Em|Em].
  - specialize (HB (2 ^ 52) (E + 1)). rewrite Em. unfold grid_value in *.
    replace (2 ^ 53 * 2 ^ (E + 1074)) with (2 ^ 52 * 2 ^ (E + 1 + 1074))
      by (replace (E + 1 + 1074) with (Z.succ (E + 1074)) by lia; rewrite Z.pow_succ_r by lia; lia).
    rewrite <- HB by (done || (split; lia)). by destruct (E + 1 <=? _).
  - rewrite <- HB by (done || lia). by destruct (E <=? _).
Qed.

Lemma nonneg_infinite f : nonneg f -> F64.is_finite f = false -> f = S754_infinity false.
Proof. by destruct f as [| [] | |]. Qed.

Lemma leb_infinity f : nonneg f -> F64.leb f (S754_infinity false) = true.
Proof. by destruct f as [| [] | |]. Qed.

Lemma pack_le q E q' E' :
  on_grid q E -> on_grid q' E' -> grid_value q E <= grid_value q' E' -> F64.leb (pack q E) (pack q' E') = true.
Proof.
  intros H H' Hle. pose proof (pack_nonneg q E H) as Hn. pose proof (pack_nonneg q' E' H') as Hn'.
  destruct (F64.is_finite (pack q' E')) eqn:F'.
  - assert (F64.is_finite (pack q E) = true) as F by (rewrite pack_finite in * by done; zbool; apply Z.ltb_lt; lia).
    rewrite leb_units, !pack_units by done. by apply Z.leb_le.
  - rewrite (nonneg_infinite _ Hn' F'). by apply leb_infinity.
Qed.

(** ** The rounded value of a rational, monotone *)

Lemma place_scale a b e k : 0 < b -> 0 <= k -> 1 <= a / b -> place (a * 2 ^ k) b (e - k) = place a b e.
Proof. intros Hb Hk Ha. unfold place. rewrite digits_scale by done. f_equal. lia. Qed.

Lemma significand_scale a b e k :
  0 < b -> 0 <= k -> 1 <= a / b -> e <= place a b e -> significand (a * 2 ^ k) b (e - k) = significand a b e.
Proof.
  intros Hb Hk Ha He. unfold significand. rewrite place_scale by done.
  replace (place a b e - (e - k)) with (place a b e - e + k) by lia. rewrite Z.pow_add_r, Z.mul_assoc by lia.
  apply nearest_scale; [by apply pow2_pos|]. pose proof (pow2_pos (place a b e - e)). nia.
Qed.

Lemma place_common a b e c : 0 < b -> 0 < c -> place (a * c) (b * c) e = place a b e.
Proof. intros Hb Hc. unfold place. by rewrite Z.div_mul_cancel_r by lia. Qed.

Lemma significand_common a b e c : 0 < b -> 0 < c -> e <= place a b e -> significand (a * c) (b * c) e = significand a b e.
Proof.
  intros Hb Hc He. unfold significand. rewrite place_common by done. pose proof (pow2_pos (place a b e - e)).
  replace (b * c * 2 ^ (place a b e - e)) with (b * 2 ^ (place a b e - e) * c) by lia. apply nearest_scale; nia.
Qed.

Lemma place_low a b e : e <= -1074 -> e <= place a b e.
Proof. intros. unfold place. rewrite fx_max. lia. Qed.

Lemma round_mono a a' b e :
  0 < b -> 1 <= a / b -> a <= a' -> e <= -1074 ->
  grid_value (significand a b e) (place a b e) <= grid_value (significand a' b e) (place a' b e).
Proof.
  intros Hb Ha Haa He. pose proof (Z.div_le_mono a a' b Hb Haa) as Hq.
  pose proof (place_low a b e He). pose proof (place_low a' b e He).
  assert (place a b e <= place a' b e) as Hpl.
  { unfold place. rewrite !fx_max. pose proof (digits_mono (a / b) (a' / b)). lia. }
  pose proof (significand_grid a b e Hb Ha ltac:(lia)) as G. pose proof (significand_grid a' b e Hb ltac:(lia) ltac:(lia)) as G'.
  destruct (decide (place a b e = place a' b e)) as [E|].
  - unfold grid_value, significand. rewrite E. pose proof (pow2_pos (place a' b e - e)). destruct G'.
    apply Z.mul_le_mono_nonneg_r; [pose proof (pow2_pos (place a' b e + 1074)); lia|]. apply nearest_mono; nia.
  - destruct G as [Gr Gp _]. etrans; [|apply grid_above; [done|lia]]. unfold grid_value.
    etrans; [apply Z.mul_le_mono_nonneg_r; [pose proof (pow2_pos (place a b e + 1074)); lia|apply Gr]|].
    rewrite <- Z.pow_add_r by lia. apply Z.pow_le_mono_r; lia.
Qed.


(** [a / b] units rounded to a float. *)
Definition rounded (a b : Z) : F64.t :=
  if a <=? 0 then S754_zero false
  else let k := Zdigits2 b in
       pack (significand (a * 2 ^ k) b (-1074 - k)) (place (a * 2 ^ k) b (-1074 - k)).

Lemma scaled_quotient a b : 0 < a -> 0 < b -> 0 < Zdigits2 b /\ 1 <= a * 2 ^ Zdigits2 b / b.
Proof.
  intros Ha Hb. destruct (digits_bounds b) as (Hd & _ & Hu); [lia|]. split; [done|].
  apply Z.div_le_lower_bound; nia.
Qed.

(** Any representation of the same rational rounds to the same float. *)
Lemma pack_rounded a b a1 b1 e1 :
  0 < a -> 0 < b -> 0 < b1 -> 1 <= a1 / b1 -> e1 <= place a1 b1 e1 ->
  a * b1 * 2 ^ Z.max 0 (-1074 - e1) = a1 * b * 2 ^ Z.max 0 (e1 + 1074) ->
  pack (significand a1 b1 e1) (place a1 b1 e1) = rounded a b.
Proof.
  intros Ha Hb Hb1 Hq1 He1 Heq. unfold rounded. rewrite (proj2 (Z.leb_gt _ _)) by done.
  destruct (scaled_quotient a b Ha Hb) as [Hk Hq]. set (k := Zdigits2 b) in *.
  set (e := Z.min e1 (-1074 - k)).
  rewrite <- (significand_scale a1 b1 e1 (e1 - e)), <- (place_scale a1 b1 e1 (e1 - e)) by (done || lia).
  rewrite <- (significand_scale (a * 2 ^ k) b (-1074 - k) (-1074 - k - e)),
    <- (place_scale (a * 2 ^ k) b (-1074 - k) (-1074 - k - e)) by (done || lia || (apply place_low; lia)).
  replace (e1 - (e1 - e)) with e by lia. replace (-1074 - k - (-1074 - k - e)) with e by lia.
  rewrite <- Z.mul_assoc, <- Z.pow_add_r by lia. replace (k + (-1074 - k - e)) with (-1074 - e) by lia.
  assert (e <= -1074) as He by lia. pose proof (place_low) as Hlow.
  rewrite <- (significand_common (a1 * 2 ^ (e1 - e)) b1 e b), <- (place_common (a1 * 2 ^ (e1 - e)) b1 e b) by auto.
  rewrite <- (significand_common (a * 2 ^ (-1074 - e)) b e b1), <- (place_common (a * 2 ^ (-1074 - e)) b e b1) by auto.
  rewrite (Z.mul_comm b1 b).
  assert (a1 * 2 ^ (e1 - e) * b = a * 2 ^ (-1074 - e) * b1) as ->; [|done].
  pose proof (pow2_pos (Z.max 0 (-1074 - e1)) ltac:(lia)) as P1. apply (Z.mul_reg_r _ _ (2 ^ Z.max 0 (-1074 - e1))); [lia|].
  transitivity (a1 * b * (2 ^ (e1 - e) * 2 ^ Z.max 0 (-1074 - e1))); [lia|].
  transitivity (a * b1 * 2 ^ Z.max 0 (-1074 - e1) * 2 ^ (-1074 - e)); [|lia]. rewrite Heq, <- Z.pow_add_r by lia.
  rewrite <- !Z.mul_assoc, <- !Z.pow_add_r by lia. do 3 f_equal. lia.
Qed.

Lemma rounded_grid a b : 0 < a -> 0 < b -> exists q E, on_grid q E /\ rounded a b = pack q E.
Proof.
  intros Ha Hb. unfold rounded. rewrite (proj2 (Z.leb_gt _ _)) by done. destruct (scaled_quotient a b Ha Hb) as [Hk Hq].
  do 2 eexists. split; [|done]. apply significand_grid; [done|done|apply place_low; lia].
Qed.

Lemma rounded_nonneg a b : 0 < b -> nonneg (rounded a b).
Proof.
  intros Hb. destruct (Z.leb_spec a 0) as [Ha|Ha].
  - unfold rounded. by rewrite (proj2 (Z.leb_le _ _)).
  - destruct (rounded_grid a b Ha Hb) as (q & E & G & ->). by apply pack_nonneg.
Qed.

Lemma leb_zero f : nonneg f -> F64.leb (S754_zero false) f = true.
Proof. destruct f as [|[]| |]; try done. by intros (-> & _). Qed.

Lemma rounded_mono a b a' b' : 0 < b -> 0 < b' -> a * b' <= a' * b -> F64.leb (rounded a b) (rounded a' b') = true.
Proof.
  intros Hb Hb' Hle. destruct (Z.leb_spec a 0) as [Ha|Ha].
  - unfold rounded at 1. rewrite (proj2 (Z.leb_le a 0)) by done. by apply leb_zero, rounded_nonneg.
  - assert (0 < a') as Ha' by nia. destruct (scaled_quotient (a * b') (b * b')) as [Hk Hq]; [nia|nia|].
    destruct (scaled_quotient (a' * b) (b * b')) as [_ Hq']; [nia|nia|]. set (k := Zdigits2 (b * b')) in *.
    assert (0 < b * b') as Hbb by nia. pose proof (place_low) as Hlow.
    rewrite <- (pack_rounded a b (a * b' * 2 ^ k) (b * b') (-1074 - k));
      [|done|done|done|done|apply Hlow; lia|].
    + rewrite <- (pack_rounded a' b' (a' * b * 2 ^ k) (b * b') (-1074 - k)); [|done|done|done|done|apply Hlow; lia|].
      * apply pack_le; [apply significand_grid; [done|done|apply Hlow; lia]..|].
        apply round_mono; [done|done| |lia]. apply Z.mul_le_mono_nonneg_r; [|done]. pose proof (pow2_pos k). lia.
      * rewrite Z.max_r, Z.max_l, Z.pow_0_r by lia. replace (-1074 - (-1074 - k)) with k by lia. lia.
    + rewrite Z.max_r, Z.max_l, Z.pow_0_r by lia. replace (-1074 - (-1074 - k)) with k by lia. lia.
Qed.

(** A float is its own rounding. *)
Lemma rounded_units f : nonneg f -> F64.is_finite f = true -> rounded (units f) 1 = f.
Proof.
  destruct f as [s|s| |s m e]; try done; [by intros ->|]. intros (-> & G & Hm & He) _. pose proof G as [Gr Gp Gf].
  pose proof (pow2_pos (e + 1074) ltac:(lia)). unfold units.
  assert (place (Zpos m) 1 e = e) as Hp.
  { unfold place. rewrite Z.div_1_r, fx_max. pose proof (digits_le (Zpos m) 53 ltac:(lia) ltac:(lia) Hm).
    destruct Gf as [->|Gf]; [lia|]. pose proof (digits_ge (Zpos m) 52 ltac:(lia) Gf). lia. }
  rewrite <- (pack_rounded _ _ (Zpos m) 1 e); [|lia|lia|lia|rewrite Z.div_1_r; lia|lia|].
  - unfold significand. rewrite Hp, Z.sub_diag, Z.pow_0_r, Z.mul_1_l. rewrite <- (Z.mul_1_r (Zpos m)) at 1.
    rewrite nearest_exact by lia. unfold pack. rewrite (proj2 (Z.eqb_neq _ _)) by lia. by rewrite (proj2 (Z.leb_le _ _)).
  - rewrite Z.max_l, Z.max_r by lia. lia.
Qed.


(** ** The operations round the exact result *)

Lemma finite_cases f : nonneg f -> F64.is_finite f = true ->
  (f = S754_zero false /\ units f = 0) \/
  exists m e, f = S754_finite false m e /\ units f = Zpos m * 2 ^ (e + 1074) /\ 0 < units f /\ on_grid (Zpos m) e /\
    Zpos m < 2 ^ 53 /\ e <= emax - prec.
Proof.
  destruct f as [s|s| |s m e]; try done; [intros ->; by left|]. intros (-> & G & Hm & He) _. right. exists m, e.
  pose proof (pow2_pos (e + 1074)). destruct G. split_and!; try done. cbn [units]. nia.
Qed.

Lemma units_pos f : nonneg f -> 0 <= units f.
Proof. destruct f; cbn [units]; try lia. Qed.

Lemma mul_units f g :
  nonneg f -> nonneg g -> F64.is_finite f = true -> F64.is_finite g = true ->
  F64.mul f g = rounded (units f * units g) (2 ^ 1074).
Proof.
  intros Hf Hg Ff Fg. destruct (finite_cases f Hf Ff) as [[-> ->]|(m & e & -> & Eu & Pu & G & Hm & He)].
  { by destruct (finite_cases g Hg Fg) as [[-> _]|(m' & e' & -> & _)]. }
  destruct (finite_cases g Hg Fg) as [[-> ->]|(m' & e' & -> & Eu' & Pu' & G' & Hm' & He')].
  { rewrite Z.mul_0_r. done. }
  unfold F64.mul, SFmul. cbn [xorb]. rewrite <- (Z.div_1_r (Zpos (m * m'))). rewrite Eu, Eu' in *.
  assert (e + e' <= place (Zpos (m * m')) 1 (e + e')) as Hp.
  { unfold place. rewrite Z.div_1_r, fx_max, Pos2Z.inj_mul. destruct G as [_ _ Gf], G' as [_ _ Gf'].
    assert (e = -1074 /\ e' = -1074 \/ 2 ^ 52 <= Zpos m * Zpos m') as [[-> ->]|H52]; [|lia|].
    - destruct Gf, Gf'; [by left|right; nia..].
    - pose proof (digits_ge _ 52 ltac:(lia) H52). lia. }
  rewrite binary_round_aux_spec; [|lia|rewrite Z.div_1_r; lia|done|by rewrite register_exact, Z.div_1_r].
  apply pack_rounded; [nia|lia|lia|rewrite Z.div_1_r; lia|done|]. destruct G, G'.
  rewrite Z.mul_1_r, Pos2Z.inj_mul.
  transitivity (Zpos m * Zpos m' * (2 ^ (e + 1074) * 2 ^ (e' + 1074) * 2 ^ Z.max 0 (-1074 - (e + e')))); [lia|].
  rewrite <- (Z.mul_assoc _ (2 ^ 1074)), <- !Z.pow_add_r by lia. do 2 f_equal. lia.
Qed.

Lemma shl_align_value m e e' : e' <= e -> Zpos (fst (shl_align m e e')) = Zpos m * 2 ^ (e - e') /\ snd (shl_align m e e') = e'.
Proof.
  intros He. unfold shl_align. destruct (e' - e) as [|d|d] eqn:Ed; cbn [fst snd].
  - replace (e - e') with 0 by lia. lia.
  - lia.
  - replace (e - e') with (Zpos d) by lia. split; [|done]. clear. induction d as [|d IH] using Pos.peano_ind.
    + cbn. lia.
    + rewrite Pos.iter_succ, Pos2Z.inj_succ, Z.pow_succ_r by lia. rewrite Pos2Z.inj_xO, IH. lia.
Qed.

Lemma binary_round_units m e : -1074 <= e -> binary_round prec emax false m e = rounded (Zpos m * 2 ^ (e + 1074)) 1.
Proof.
  intros He. unfold binary_round. set (E := fexp prec emax (Z.pos (digits2_pos m) + e)).
  assert (exists mz ez, shl_align m e E = (mz, ez) /\ -1074 <= ez /\ ez <= place (Zpos mz) 1 ez /\
    Zpos mz * 2 ^ (ez + 1074) = Zpos m * 2 ^ (e + 1074)) as (mz & ez & -> & Hez & Hpl & Hv).
  { pose proof (fx_max (Z.pos (digits2_pos m) + e)) as HE. change (fx _) with E in HE. destruct (decide (E <= e)) as [Hle|Hgt].
    - destruct (shl_align_value m e E Hle) as [Hv He']. destruct (shl_align m e E) as [mz ez]. cbn [fst snd] in *. subst ez.
      exists mz, E. split_and!; [done|lia| |].
      + unfold place. rewrite Z.div_1_r, Hv. rewrite <- (Z.div_1_r (_ * _)), digits_scale by (rewrite ?Z.div_1_r; lia).
        rewrite Z.div_1_r. cbn [Zdigits2]. replace (Z.pos (digits2_pos m) + (e - E) + E) with (Z.pos (digits2_pos m) + e) by lia.
        done.
      + rewrite Hv, <- Z.mul_assoc, <- Z.pow_add_r by lia. do 2 f_equal. lia.
    - exists m, e. split_and!; [|done| |done].
      + unfold shl_align. destruct (E - e) eqn:Ed; [done|done|lia].
      + unfold place. rewrite Z.div_1_r. change (fx _) with E. lia. }
  pose proof (pow2_pos (e + 1074) ltac:(lia)). rewrite <- (Z.div_1_r (Zpos mz)).
  rewrite binary_round_aux_spec; [|lia|rewrite Z.div_1_r; lia|done|by rewrite register_exact, Z.div_1_r].
  apply pack_rounded; [lia|lia|lia|rewrite Z.div_1_r; lia|done|]. rewrite Z.max_l, Z.max_r by lia. lia.
Qed.

Lemma normalize_units z e :
  -1074 <= e -> 0 <= z -> binary_normalize prec emax z e false = rounded (z * 2 ^ (e + 1074)) 1.
Proof. intros He Hz. destruct z as [|m|m]; [done|by apply binary_round_units|lia]. Qed.

Lemma align_units m e ez : ez <= e -> -1074 <= ez -> Zpos (fst (shl_align m e ez)) * 2 ^ (ez + 1074) = Zpos m * 2 ^ (e + 1074).
Proof.
  intros H1 H2. destruct (shl_align_value m e ez H1) as [-> _]. rewrite <- Z.mul_assoc, <- Z.pow_add_r by lia.
  do 2 f_equal. lia.
Qed.

Lemma add_units f g :
  nonneg f -> nonneg g -> F64.is_finite f = true -> F64.is_finite g = true -> F64.add f g = rounded (units f + units g) 1.
Proof.
  intros Hf Hg Ff Fg. destruct (finite_cases f Hf Ff) as [[-> ->]|(m & e & -> & Eu & Pu & G & Hm & He)].
  { rewrite Z.add_0_l, rounded_units by done. by destruct (finite_cases g Hg Fg) as [[-> _]|(m' & e' & -> & _)]. }
  destruct (finite_cases g Hg Fg) as [[-> ->]|(m' & e' & -> & Eu' & Pu' & G' & Hm' & He')].
  { rewrite Z.add_0_r, rounded_units by done. done. }
  unfold F64.add, SFadd. cbn [cond_Zopp]. destruct G as [_ Hp _], G' as [_ Hp' _].
  rewrite normalize_units by lia. by rewrite Z.mul_add_distr_r, !align_units, Eu, Eu' by lia.
Qed.

Lemma sub_units f g :
  nonneg f -> nonneg g -> F64.is_finite f = true -> F64.is_finite g = true -> units g <= units f ->
  F64.sub f g = rounded (units f - units g) 1.
Proof.
  intros Hf Hg Ff Fg Hle. destruct (finite_cases g Hg Fg) as [[-> ->]|(m' & e' & -> & Eu' & Pu' & G' & Hm' & He')].
  { rewrite Z.sub_0_r, rounded_units by done. by destruct (finite_cases f Hf Ff) as [[-> _]|(m & e & -> & _)]. }
  destruct (finite_cases f Hf Ff) as [[-> E0]|(m & e & -> & Eu & Pu & G & Hm & He)]; [rewrite E0 in Hle; lia|].
  unfold F64.sub, SFsub. cbn [cond_Zopp]. destruct G as [_ Hp _], G' as [_ Hp' _]. set (ez := Z.min e e').
  pose proof (align_units m e ez ltac:(lia) ltac:(lia)) as A. pose proof (align_units m' e' ez ltac:(lia) ltac:(lia)) as A'.
  pose proof (pow2_pos (ez + 1074) ltac:(lia)). rewrite normalize_units; [|lia|nia].
  by rewrite Z.mul_sub_distr_r, A, A', Eu, Eu'.
Qed.

Lemma of_Z_units n : 0 <= n -> F64.of_Z n = rounded (n * 2 ^ 1074) 1.
Proof. intros Hn. unfold F64.of_Z. by rewrite normalize_units by lia. Qed.


(** Division, for quotients that are not tiny. *)
Lemma div_units f g :
  nonneg f -> nonneg g -> F64.is_finite f = true -> F64.is_finite g = true -> 0 < units f -> 0 < units g ->
  units g <= units f * 2 ^ 1000 -> F64.div f g = rounded (units f * 2 ^ 1074) (units g).
Proof.
  intros Hf Hg Ff Fg Pf Pg Hle. destruct (finite_cases f Hf Ff) as [[-> E0]|(m & e & -> & Eu & Pu & G & Hm & He)]; [rewrite E0 in Pf; lia|].
  destruct (finite_cases g Hg Fg) as [[-> E0]|(m' & e' & -> & Eu' & Pu' & G' & Hm' & He')]; [rewrite E0 in Pg; lia|].
  rewrite Eu, Eu' in *. destruct G as [_ Hp _], G' as [_ Hp' _].
  destruct (digits_bounds (Zpos m)) as (Hd & Hl & Hu); [lia|]. destruct (digits_bounds (Zpos m')) as (Hd' & Hl' & Hu'); [lia|].
  pose proof (digits_le (Zpos m) 53 ltac:(lia) ltac:(lia) Hm) as Hd53.
  unfold F64.div, SFdiv, SFdiv_core_binary. set (d := Zdigits2 (Zpos m)) in *. set (d' := Zdigits2 (Zpos m')) in *.
  assert (-1001 < d + e - (d' + e')) as HD.
  { assert (d' - 1 + (e' + 1074) < d + (e + 1074) + 1000); [|lia]. apply (Z.pow_lt_mono_r_iff 2); [lia|lia|].
    pose proof (pow2_pos (e + 1074) ltac:(lia)). pose proof (pow2_pos (e' + 1074) ltac:(lia)).
    rewrite (Z.pow_add_r 2 (d' - 1)), (Z.pow_add_r 2 (d + (e + 1074))), (Z.pow_add_r 2 d) by lia.
    apply (Z.le_lt_trans _ (Zpos m' * 2 ^ (e' + 1074))); [apply Z.mul_le_mono_nonneg_r; lia|].
    eapply Z.le_lt_trans; [exact Hle|]. apply Z.mul_lt_mono_pos_r; [lia|]. apply Z.mul_lt_mono_pos_r; lia. }
  change (fexp prec emax (d + e - (d' + e'))) with (fx (d + e - (d' + e'))). rewrite fx_max.
  rewrite Z.max_l, Z.min_l by lia. set (E := d + e - (d' + e') - 53). replace (e - e' - E) with (d' - d + 53) by lia.
  assert (0 < d' - d + 53) as Hs by lia.
  assert (match d' - d + 53 with 0 => Z.pos m | Z.pos _ => Z.shiftl (Z.pos m) (d' - d + 53) | Z.neg _ => 0 end
          = Z.pos m * 2 ^ (d' - d + 53)) as ->.
  { rewrite <- Z.shiftl_mul_pow2 by lia. destruct (d' - d + 53); done || lia. }
  set (a := Zpos m * 2 ^ (d' - d + 53)).
  assert (2 ^ 52 <= a / Zpos m') as Hq.
  { apply Z.div_le_lower_bound; [lia|]. transitivity (2 ^ d' * 2 ^ 52); [apply Z.mul_le_mono_nonneg_r; lia|].
    unfold a. transitivity (2 ^ (d - 1) * 2 ^ (d' - d + 53)); [|apply Z.mul_le_mono_nonneg_r; [|lia]; pose proof (pow2_pos (d' - d + 53)); lia].
    rewrite <- !Z.pow_add_r by lia. apply Z.pow_le_mono_r; lia. }
  assert (Z.div_eucl a (Zpos m') = (a / Zpos m', a mod Zpos m')) as -> by (unfold Z.div, Z.modulo; by destruct (Z.div_eucl _ _)).
  cbn [xorb]. pose proof (digits_ge _ 52 ltac:(lia) Hq).
  assert (E <= place a (Zpos m') E) as HE by (unfold place; rewrite fx_max; lia).
  rewrite binary_round_aux_spec by (done || lia || by apply register_division).
  apply pack_rounded; [lia|done|lia|lia|done|]. rewrite Z.max_l, Z.max_r, Z.pow_0_r by lia. unfold a.
  transitivity (Zpos m * Zpos m' * (2 ^ (e + 1074) * 2 ^ 1074)); [lia|].
  transitivity (Zpos m * Zpos m' * (2 ^ (d' - d + 53) * (2 ^ (e' + 1074) * 2 ^ (E + 1074)))); [|lia].
  rewrite <- !Z.pow_add_r by lia. do 2 f_equal. lia.
Qed.

(** Representable values are kept. *)
Lemma rounded_exact q t :
  0 <= q < 2 ^ 53 -> 0 <= t -> q * 2 ^ t < 2 ^ 2098 ->
  F64.is_finite (rounded (q * 2 ^ t) 1) = true /\ units (rounded (q * 2 ^ t) 1) = q * 2 ^ t.
Proof.
  intros Hq Ht Hlt. destruct (decide (q = 0)) as [->|Hq0]; [done|]. pose proof (pow2_pos t Ht). set (u := q * 2 ^ t) in *.
  assert (1 <= u) by (unfold u; nia). assert (place u 1 (-1074) <= t - 1074) as Hp.
  { assert (u / 1 < 2 ^ (53 + t)) as Hu.
    { rewrite Z.div_1_r, Z.pow_add_r by lia. unfold u. apply Z.mul_lt_mono_pos_r; lia. }
    pose proof (place_le u 1 (-1074) (53 + t) ltac:(lia) ltac:(lia) Hu ltac:(lia)). lia. }
  pose proof (place_low u 1 (-1074) ltac:(lia)) as Hlow. set (n := place u 1 (-1074) - -1074).
  pose proof (pow2_pos n ltac:(lia)). assert (significand u 1 (-1074) = q * 2 ^ (t - n)) as Hs.
  { unfold significand. fold n. rewrite Z.mul_1_l. replace u with (q * 2 ^ (t - n) * 2 ^ n); [by apply nearest_exact|].
    unfold u. rewrite <- Z.mul_assoc, <- Z.pow_add_r by lia. do 2 f_equal. lia. }
  rewrite <- (pack_rounded u 1 u 1 (-1074)) by (done || (rewrite ?Z.div_1_r; lia)).
  pose proof (significand_grid u 1 (-1074) ltac:(lia) ltac:(rewrite Z.div_1_r; lia) Hlow) as G.
  assert (grid_value (significand u 1 (-1074)) (place u 1 (-1074)) = u) as Hv.
  { rewrite Hs. unfold grid_value. replace (place u 1 (-1074) + 1074) with n by lia. rewrite <- Z.mul_assoc, <- Z.pow_add_r by lia.
    unfold u. do 2 f_equal. lia. }
  assert (F64.is_finite (pack (significand u 1 (-1074)) (place u 1 (-1074))) = true) as F.
  { rewrite pack_finite, Hv by done. by apply Z.ltb_lt. }
  split; [done|]. by rewrite pack_units, Hv.
Qed.

Lemma of_Z_exact n : 0 <= n < 2 ^ 53 -> nonneg (F64.of_Z n) /\ F64.is_finite (F64.of_Z n) = true /\ units (F64.of_Z n) = n * 2 ^ 1074.
Proof.
  intros Hn. rewrite of_Z_units by lia. split; [by apply rounded_nonneg|]. apply rounded_exact; [done|lia|].
  change (2 ^ 2098) with (2 ^ (1024 + 1074)). rewrite Z.pow_add_r by lia. apply Z.mul_lt_mono_pos_r; [lia|].
  eapply Z.lt_le_trans; [apply Hn|]. apply Z.pow_le_mono_r; lia.
Qed.

(** ** Monotone operations *)

Lemma leb_refl f : nonneg f -> F64.leb f f = true.
Proof.
  intros Hf. destruct (F64.is_finite f) eqn:F; [|by rewrite (nonneg_infinite f)]. rewrite leb_units by done. apply Z.leb_refl.
Qed.

Lemma leb_trans f g h : nonneg f -> nonneg g -> nonneg h -> F64.leb f g = true -> F64.leb g h = true -> F64.leb f h = true.
Proof.
  intros Hf Hg Hh H1 H2. destruct (F64.is_finite h) eqn:F; [|rewrite (nonneg_infinite h) by done; by apply leb_infinity].
  assert (F64.is_finite g = true) as Fg.
  { destruct (F64.is_finite g) eqn:E; [done|]. rewrite (nonneg_infinite g) in H2 by done. destruct h; done. }
  assert (F64.is_finite f = true) as Ff.
  { destruct (F64.is_finite f) eqn:E; [done|]. rewrite (nonneg_infinite f) in H1 by done. destruct g; done. }
  rewrite leb_units in * by done. zbool. apply Z.leb_le. lia.
Qed.

Lemma leb_finite f g : nonneg f -> nonneg g -> F64.is_finite g = true -> F64.leb f g = true -> F64.is_finite f = true.
Proof.
  intros Hf Hg Fg H. destruct (F64.is_finite f) eqn:E; [done|]. rewrite (nonneg_infinite f) in H by done. destruct g; done.
Qed.

Lemma leb_antisym f g : nonneg f -> nonneg g -> F64.leb f g = true -> F64.leb g f = true -> f = g.
Proof.
  intros Hf Hg H1 H2. destruct (F64.is_finite g) eqn:Fg.
  - pose proof (leb_finite f g Hf Hg Fg H1) as Ff. rewrite leb_units in H1, H2 by done. zbool.
    rewrite <- (rounded_units f), <- (rounded_units g) by done. f_equal. lia.
  - pose proof (nonneg_infinite g Hg Fg) as ->. by destruct f as [|[]| |].
Qed.

Lemma ltb_leb f g : nonneg f -> nonneg g -> F64.ltb f g = negb (F64.leb g f).
Proof.
  destruct f as [[]|[]| |[] m e], g as [[]|[]| |[] m' e']; try done; intros Hf Hg; unfold F64.ltb, F64.leb, SFltb, SFleb, SFcompare;
    try (by destruct Hf); try (by destruct Hg).
  rewrite (Z.compare_antisym e e'). change (Pos.compare_cont Eq ?a ?b) with (Pos.compare a b).
  rewrite (Pos.compare_antisym m m'). by destruct (e ?= e'), (m ?= m')%positive.
Qed.

Lemma leb_total f g : nonneg f -> nonneg g -> F64.leb f g = false -> F64.leb g f = true.
Proof.
  intros Hf Hg H. pose proof (ltb_leb g f Hg Hf) as Hl. rewrite H in Hl. unfold F64.ltb, F64.leb, SFltb, SFleb in *.
  by destruct (SFcompare g f) as [[]|].
Qed.

Lemma add_nonneg f g : nonneg f -> nonneg g -> nonneg (F64.add f g).
Proof.
  intros Hf Hg. destruct (F64.is_finite f) eqn:F, (F64.is_finite g) eqn:F'.
  - rewrite add_units by done. by apply rounded_nonneg.
  - rewrite (nonneg_infinite g) by done. destruct f as [|[]| |]; done.
  - rewrite (nonneg_infinite f) by done. destruct g as [|[]| |]; done.
  - by rewrite (nonneg_infinite f), (nonneg_infinite g).
Qed.

Lemma add_mono f g g' :
  nonneg f -> nonneg g -> nonneg g' -> F64.is_finite f = true -> F64.leb g g' = true ->
  F64.leb (F64.add f g) (F64.add f g') = true.
Proof.
  intros Hf Hg Hg' F H. destruct (F64.is_finite g') eqn:Fg'.
  - pose proof (leb_finite g g' Hg Hg' Fg' H) as Fg. rewrite leb_units in H by done. zbool.
    rewrite !add_units by done. apply rounded_mono; lia.
  - rewrite (nonneg_infinite g') by done. assert (F64.add f (S754_infinity false) = S754_infinity false) as ->.
    { destruct f as [| | |]; done. }
    by apply leb_infinity, add_nonneg.
Qed.

Lemma mul_nonneg f g : nonneg f -> nonneg g -> F64.is_finite f = true -> F64.is_finite g = true -> nonneg (F64.mul f g).
Proof. intros. rewrite mul_units by done. by apply rounded_nonneg. Qed.

Lemma mul_mono f f' g :
  nonneg f -> nonneg f' -> nonneg g -> F64.is_finite f' = true -> F64.is_finite g = true -> F64.leb f f' = true ->
  F64.leb (F64.mul f g) (F64.mul f' g) = true.
Proof.
  intros Hf Hf' Hg F' G H. pose proof (leb_finite f f' Hf Hf' F' H) as F. rewrite leb_units in H by done. zbool.
  rewrite !mul_units by done. apply rounded_mono; [lia..|]. pose proof (units_pos g Hg). nia.
Qed.

(** ** [Duration::as_secs_f64] *)

Definition as_secs_f64 (ns : Z) : F64.t :=
  F64.add (F64.of_Z (ns / 10 ^ 9)) (F64.div (F64.of_Z (ns mod 10 ^ 9)) (F64.of_Z (10 ^ 9))).

Lemma fraction_units n :
  0 <= n < 10 ^ 9 -> F64.div (F64.of_Z n) (F64.of_Z (10 ^ 9)) = rounded (n * 2 ^ 1074 * 2 ^ 1074) (10 ^ 9 * 2 ^ 1074).
Proof.
  intros Hn. destruct (decide (n = 0)) as [->|Hn0]; [reflexivity|].
  destruct (of_Z_exact n) as (N1 & F1 & U1); [lia|]. destruct (of_Z_exact (10 ^ 9)) as (N2 & F2 & U2); [lia|].
  rewrite (div_units _ _ N1 N2 F1 F2); [by rewrite U1, U2|..]; rewrite ?U1, ?U2; pose proof (pow2_pos 1074 ltac:(lia));
    pose proof (pow2_pos 1000 ltac:(lia)); generalize dependent (2 ^ 1074); intros; [nia..|].
  assert (10 ^ 9 <= 2 ^ 1000) by (transitivity (2 ^ 30); [lia|apply Z.pow_le_mono_r; lia]). nia.
Qed.

Lemma fraction_facts n (f := F64.div (F64.of_Z n) (F64.of_Z (10 ^ 9))) :
  0 <= n < 10 ^ 9 -> nonneg f /\ F64.leb f (F64.of_Z 1) = true.
Proof.
  intros Hn. unfold f. rewrite fraction_units by done. split; [by apply rounded_nonneg|]. rewrite of_Z_units by lia.
  apply rounded_mono; [lia..|]. pose proof (pow2_pos 1074 ltac:(lia)) as HK. generalize dependent (2 ^ 1074). intros. nia.
Qed.

Lemma fraction_mono n n' :
  0 <= n <= n' -> n' < 10 ^ 9 ->
  F64.leb (F64.div (F64.of_Z n) (F64.of_Z (10 ^ 9))) (F64.div (F64.of_Z n') (F64.of_Z (10 ^ 9))) = true.
Proof.
  intros Hn Hn'. rewrite !fraction_units by lia. pose proof (pow2_pos 1074 ltac:(lia)) as HK.
  apply rounded_mono; [lia..|]. generalize dependent (2 ^ 1074). intros k Hk. do 3 (apply Z.mul_le_mono_nonneg_r; [nia|]). lia.
Qed.

(** The clock readings considered: below 2^53 seconds. *)
Definition max_nanos : Z := 2 ^ 53 * 10 ^ 9.

Lemma as_secs_nonneg ns : 0 <= ns < max_nanos -> nonneg (as_secs_f64 ns) /\ F64.is_finite (as_secs_f64 ns) = true.
Proof.
  unfold max_nanos. intros Hn. unfold as_secs_f64. pose proof (Z.mod_pos_bound ns (10 ^ 9) ltac:(lia)) as Hm.
  assert (0 <= ns / 10 ^ 9 < 2 ^ 53) as Hs by (split; [apply Z.div_pos|apply Z.div_lt_upper_bound]; lia).
  destruct (of_Z_exact (ns / 10 ^ 9) Hs) as (N1 & F1 & U1). destruct (fraction_facts (ns mod 10 ^ 9) Hm) as [N2 L2].
  split; [by apply add_nonneg|]. destruct (of_Z_exact 1 ltac:(lia)) as (N3 & F3 & U3).
  eapply leb_finite; [by apply add_nonneg| | |by eapply add_mono; [| |exact N3| |]]; [by apply add_nonneg|].
  rewrite add_units, U1, U3, <- Z.mul_add_distr_r by done. set (s := ns / 10 ^ 9) in *. clearbody s.
  destruct (decide (s + 1 = 2 ^ 53)) as [->|]; [reflexivity|]. rewrite <- of_Z_units by lia. apply of_Z_exact. lia.
Qed.

Lemma as_secs_mono ns ns' : 0 <= ns <= ns' -> ns' < max_nanos -> F64.leb (as_secs_f64 ns) (as_secs_f64 ns') = true.
Proof.
  unfold max_nanos. intros Hn Hn'. unfold as_secs_f64.
  pose proof (Z.mod_pos_bound ns (10 ^ 9) ltac:(lia)) as Hm. pose proof (Z.mod_pos_bound ns' (10 ^ 9) ltac:(lia)) as Hm'.
  pose proof (Z.div_mod ns (10 ^ 9) ltac:(lia)) as D. pose proof (Z.div_mod ns' (10 ^ 9) ltac:(lia)) as D'.
  assert (0 <= ns / 10 ^ 9 <= ns' / 10 ^ 9) as [Hs1 Hs2] by (split; [apply Z.div_pos|apply Z.div_le_mono]; lia).
  assert (ns' / 10 ^ 9 < 2 ^ 53) as Hs3 by (apply Z.div_lt_upper_bound; lia).
  destruct (of_Z_exact (ns / 10 ^ 9) ltac:(lia)) as (N & F & U). destruct (of_Z_exact (ns' / 10 ^ 9) ltac:(lia)) as (N' & F' & U').
  destruct (fraction_facts (ns mod 10 ^ 9) Hm) as [Nf Lf]. destruct (fraction_facts (ns' mod 10 ^ 9) Hm') as [Nf' Lf'].
  destruct (decide (ns / 10 ^ 9 = ns' / 10 ^ 9)) as [E|Hne].
  - rewrite <- E in *. apply add_mono; try done. apply fraction_mono; lia.
  - destruct (of_Z_exact 1 ltac:(lia)) as (N1 & F1 & U1).
    apply (leb_trans _ (F64.add (F64.of_Z (ns / 10 ^ 9)) (F64.of_Z 1))); [by apply add_nonneg..|by apply add_mono|].
    apply (leb_trans _ (F64.add (F64.of_Z (ns' / 10 ^ 9)) (S754_zero false))); [by apply add_nonneg..| |by apply add_mono; [..|apply leb_zero]].
    rewrite !add_units by done. rewrite U, U', U1. apply rounded_mono; [lia..|]. cbn [units].
    pose proof (pow2_pos 1074 ltac:(lia)). generalize dependent (2 ^ 1074). intros. nia.
Qed.

End Rounding.
