(* ===== verification/Scan.v ===== *)
(** * Scanning text: trimming and loops

    What the text formats share: when [str::trim] leaves a text alone, and [loop], the model of Rust's
    [loop { .. break .. }] over a parser state, with the lemma that lets a proof unfold one iteration when
    every iteration that continues consumes input. *)

From S2P Require Import Prelude Text.

Open Scope Z_scope.

(** ** Trimming *)

(** An ASCII byte that is not white space ends a trim. *)
Definition solid (c : byte) : bool :=
  (b2z c <? 128) && negb (bool_decide (c ∈ [x09; x0a; x0b; x0c; x0d; x20])).

Definition ascii_ws (c : byte) : bool := bool_decide (c ∈ [x09; x0a; x0b; x0c; x0d; x20]).

Lemma strip_ws_solid c s : solid c = true -> strip_any whitespace (c :: s) = None.
Proof. intros H. destruct c; (discriminate H || reflexivity). Qed.

Lemma strip_rev_ws_solid c s : solid c = true -> strip_any (map (@rev byte) whitespace) (c :: s) = None.
Proof. intros H. destruct c; (discriminate H || reflexivity). Qed.

Lemma strip_ws_ascii c s : ascii_ws c = true -> strip_any whitespace (c :: s) = Some s.
Proof. intros H. destruct c; (discriminate H || (destruct s; reflexivity)). Qed.

Lemma strip_rev_ws_ascii c s : ascii_ws c = true -> strip_any (map (@rev byte) whitespace) (c :: s) = Some s.
Proof. intros H. destruct c; (discriminate H || (destruct s; reflexivity)). Qed.

Lemma trim_start_ws c s : ascii_ws c = true -> trim_start (c :: s) = trim_start s.
Proof. intros H. unfold trim_start. cbn [length trim_with]. by rewrite strip_ws_ascii. Qed.

Lemma trim_start_solid c s : solid c = true -> trim_start (c :: s) = c :: s.
Proof. intros H. unfold trim_start. cbn [length trim_with]. by rewrite strip_ws_solid. Qed.

Lemma trim_end_ws c s : ascii_ws c = true -> trim_end (s ++ [c]) = trim_end s.
Proof.
  intros H. unfold trim_end. rewrite length_app, Nat.add_1_r, rev_app_distr. cbn [rev app trim_with].
  by rewrite strip_rev_ws_ascii.
Qed.

Lemma trim_end_solid c s : solid c = true -> trim_end (s ++ [c]) = s ++ [c].
Proof.
  intros H. unfold trim_end. rewrite length_app, Nat.add_1_r, rev_app_distr. cbn [rev app trim_with].
  rewrite strip_rev_ws_solid by done. simpl. by rewrite rev_involutive.
Qed.

(** Texts that start and end with solid characters, such as numbers, are not trimmed. *)
Lemma trim_solid s : Forall (fun c => solid c = true) s -> trim_end s = s /\ trim s = s.
Proof.
  intros H. assert (trim_end s = s) as He.
  { destruct s as [|c s] using rev_ind; [done|]. apply Forall_app in H as [_ H]. inv H. by apply trim_end_solid. }
  split; [done|]. unfold trim. destruct s as [|c s]; [done|]. inv H. by rewrite trim_start_solid.
Qed.

Lemma digit_solid c : F64.is_digit c = true -> solid c = true.
Proof. intros H. destruct c; (discriminate H || reflexivity). Qed.

Lemma trim_number ds : Forall (fun c => F64.is_digit c = true) ds -> trim ds = ds.
Proof. intros H. apply trim_solid. eapply Forall_impl; [exact H|]. exact digit_solid. Qed.

(** *** Writers *)

(** A fold of writers that append writes the concatenation of what they append. *)
Lemma foldl_texts {A} (write : bytes -> A -> bytes) (txt : A -> bytes) l :
  Forall (fun x => forall out, write out x = out ++ txt x) l ->
  forall out, foldl write out l = out ++ flat_map txt l.
Proof.
  induction 1 as [|x l Hx _ IH]; intros out; cbn [foldl flat_map]; [by rewrite app_nil_r|].
  by rewrite Hx, IH, app_assoc.
Qed.

(** *** Texts that trimming leaves alone *)

Definition head_solid (s : bytes) : Prop := s <> [] /\ strip_any whitespace s = None.
Definition tail_solid (s : bytes) : Prop := s <> [] /\ strip_any (map (@rev byte) whitespace) (rev s) = None.

Lemma strip_any_None pats s : strip_any pats s = None <-> Forall (fun p => starts_with s p = false) pats.
Proof.
  unfold strip_any, strip_prefix. induction pats as [|p pats IH]; cbn [omap list_omap head]; [done|].
  rewrite Forall_cons, <- IH. destruct (starts_with s p); naive_solver.
Qed.

Lemma strip_any_length pats s s' : Forall (fun p => p <> []) pats -> strip_any pats s = Some s' -> (length s' < length s)%nat.
Proof.
  unfold strip_any. induction 1 as [|p pats Hp _ IH]; cbn [omap list_omap head]; [done|].
  destruct (strip_prefix s p) as [r|] eqn:E; [|done]. intros [= <-]. apply strip_prefix_Some in E as ->.
  rewrite length_app. destruct p; [done|]. simpl. lia.
Qed.

Lemma trim_with_length pats f s : Forall (fun p => p <> []) pats -> (length (trim_with f pats s) <= length s)%nat.
Proof.
  intros Hp. revert s. induction f as [|f IH]; intros s; cbn [trim_with]; [done|].
  destruct (strip_any pats s) as [s'|] eqn:E; [|done]. apply strip_any_length in E; [|done]. specialize (IH s'). lia.
Qed.

Lemma whitespace_nonempty : Forall (fun p => p <> []) whitespace /\ Forall (fun p => p <> []) (map (@rev byte) whitespace).
Proof. split; vm_compute; repeat constructor; done. Qed.

Lemma trim_start_head s : head_solid s -> trim_start s = s.
Proof. intros [Hn H]. unfold trim_start. destruct s as [|b s]; [done|]. cbn [length trim_with]. by rewrite H. Qed.

Lemma trim_end_tail s : tail_solid s -> trim_end s = s.
Proof.
  intros [Hn H]. unfold trim_end. destruct (length s) as [|n] eqn:El; [by destruct s|]. cbn [trim_with]. rewrite H.
  apply rev_involutive.
Qed.

Lemma trim_both s : head_solid s -> tail_solid s -> trim s = s.
Proof. intros H1 H2. unfold trim. rewrite trim_start_head by done. by apply trim_end_tail. Qed.

(** A text that is its own trim is solid at both ends. *)
Lemma trimmed_solid s : s <> [] -> trim s = s -> head_solid s /\ tail_solid s.
Proof.
  intros Hn Ht. destruct whitespace_nonempty as [Hw Hr].
  assert (length (trim_end (trim_start s)) <= length (trim_start s))%nat as H1.
  { unfold trim_end. rewrite length_rev. etransitivity; [by apply trim_with_length|]. by rewrite length_rev. }
  assert (head_solid s) as Hh.
  { split; [done|]. destruct (strip_any whitespace s) as [s'|] eqn:E; [|done]. exfalso.
    assert (length (trim_start s) < length s)%nat; [|unfold trim in Ht; rewrite Ht in H1; lia].
    unfold trim_start. destruct (length s) as [|n] eqn:El; [by destruct s|]. cbn [trim_with]. rewrite E.
    apply strip_any_length in E; [|done]. pose proof (trim_with_length whitespace n s' Hw). lia. }
  split; [done|]. split; [done|]. destruct (strip_any _ (rev s)) as [s'|] eqn:E; [|done]. exfalso.
  unfold trim in Ht. rewrite (trim_start_head s Hh) in Ht.
  assert (length (trim_end s) < length s)%nat; [|rewrite Ht in *; lia].
  unfold trim_end. rewrite length_rev. destruct (length s) as [|n] eqn:El; [by destruct s|]. cbn [trim_with]. rewrite E.
  apply strip_any_length in E; [|done]. rewrite length_rev in E. pose proof (trim_with_length _ n s' Hr). lia.
Qed.

(** Proper pieces of the encoding of a white-space character are not UTF-8. *)
Lemma whitespace_pieces : Forall (fun p => forall a b, p = a ++ b -> a <> [] -> b <> [] ->
  Utf8.is_utf8 a = false /\ Utf8.is_utf8 b = false) whitespace.
Proof.
  assert (forallb (fun p => forallb (fun n => negb (Utf8.is_utf8 (take n p)) && negb (Utf8.is_utf8 (drop n p)))
    (seq 1 (length p - 1))) whitespace = true) as H by (vm_compute; reflexivity).
  rewrite forallb_forall in H. apply List.Forall_forall in H.
  eapply Forall_impl; [exact H|]. intros p Hp a b -> Ha Hb. rewrite forallb_forall in Hp.
  specialize (Hp (length a)). rewrite take_app_length, drop_app_length in Hp.
  rewrite length_app in Hp. assert (In (length a) (seq 1 (length a + length b - 1))) as Hin.
  { apply in_seq. destruct a; [done|]. destruct b; [done|]. simpl. lia. }
  apply Hp, andb_true_iff in Hin as [H1 H2]. apply negb_true_iff in H1. by apply negb_true_iff in H2.
Qed.

Lemma head_solid_app s t : Utf8.is_utf8 s = true -> head_solid s -> head_solid (s ++ t).
Proof.
  intros Hu [Hn H]. split; [by destruct s|]. apply strip_any_None in H. apply strip_any_None.
  pose proof whitespace_pieces as Hw. rewrite Forall_forall in *. intros p Hp. specialize (H p Hp). specialize (Hw p Hp).
  apply not_true_iff_false. intros E. apply starts_with_spec in E as (r & E).
  apply app_eq_app in E as (l & [[-> ->]|[-> ->]]).
  - by rewrite starts_with_app in H.
  - destruct l as [|c l]; [rewrite !app_nil_r in *; pose proof (starts_with_app s []) as Hs; rewrite app_nil_r in Hs; congruence|].
    destruct (Hw s (c :: l)) as [Hs _]; try done. congruence.
Qed.

Lemma tail_solid_app s t : Utf8.is_utf8 s = true -> tail_solid s -> tail_solid (t ++ s).
Proof.
  intros Hu [Hn H]. split; [by destruct t|]. apply strip_any_None in H. apply strip_any_None.
  pose proof whitespace_pieces as Hw. apply Forall_map in H. apply Forall_map.
  rewrite Forall_forall in *. intros p Hp. specialize (H p Hp). specialize (Hw p Hp). cbn in H |- *.
  apply not_true_iff_false. intros E. apply starts_with_spec in E as (r & E). rewrite rev_app_distr in E.
  apply (f_equal (@rev byte)) in E. rewrite !rev_app_distr, !rev_involutive in E.
  apply app_eq_app in E as (l & [[E1 E2]|[E1 E2]]).
  - destruct l as [|c l].
    + cbn [app] in E2. subst p. pose proof (starts_with_app (rev s) []) as Hs. rewrite app_nil_r in Hs. congruence.
    + subst p. destruct (Hw (c :: l) s) as [_ Hs]; try done. congruence.
  - subst s. rewrite rev_app_distr in H. by rewrite starts_with_app in H.
Qed.

Lemma solid_ends c : solid c = true -> (forall s, head_solid (c :: s)) /\ (forall s, tail_solid (s ++ [c])).
Proof.
  intros H. split; intros s; (split; [by destruct s|]).
  - by apply strip_ws_solid.
  - rewrite rev_app_distr. cbn [rev app]. by apply strip_rev_ws_solid.
Qed.

(** ** Lines *)

(** [str::lines] *)
Definition str_lines (s : bytes) : list bytes :=
  let ls := split_on x0a s in
  let ls := if bool_decide (List.last ls [] = []) then removelast ls else ls in
  map (fun l => match rev l with c :: r => if bool_decide (c = x0d) then rev r else l | [] => l end) ls.

Lemma str_lines_lines ls :
  Forall (fun l => x0a ∉ l /\ last l <> Some x0d) ls -> str_lines (flat_map (fun l => l ++ [x0a]) ls) = ls.
Proof.
  intros H. unfold str_lines.
  assert (split_on x0a (flat_map (fun l => l ++ [x0a]) ls) = ls ++ [[]]) as ->.
  { induction H as [|l ls [Hl _] _ IH]; [done|]. cbn [flat_map app]. rewrite <- app_assoc. cbn [app].
    by rewrite split_on_app, IH. }
  rewrite List.last_last, bool_decide_true, removelast_last by done.
  rewrite <- (map_id ls) at 2. apply map_ext_in. intros l Hl. rewrite Forall_forall in H.
  destruct (H l) as [_ Hr]; [by apply list_elem_of_In|].
  destruct l as [|c l] using rev_ind; [done|]. rewrite rev_app_distr. cbn [rev app].
  rewrite last_snoc in Hr. by rewrite bool_decide_false by congruence.
Qed.

(** ** Loops *)

Section Loop.
Context {S A E : Type} (body : S -> option (Result (S + A) E)).

(** One iteration of the body continues with a new state ([inl]) or breaks with the result ([inr]); errors
    leave the loop as [?] does.  [None] is running out of fuel. *)
Fixpoint loop (fuel : nat) (s : S) : option (Result A E) :=
  match fuel with
  | O => None
  | Datatypes.S fuel =>
      let! r := body s in
      match r with
      | inl s' => loop fuel s'
      | inr a => Some (Ok a)
      end
  end.

(** The fuel given by a measure that every continuing iteration decreases. *)
Definition run_loop (size : S -> nat) (s : S) : option (Result A E) := loop (Datatypes.S (size s)) s.

(** A loop invariant gives a property of the result. *)
Lemma loop_invariant (I : S -> Prop) (Q : A -> Prop) :
  (forall s s', I s -> body s = Some (Ok (inl s')) -> I s') ->
  (forall s a, I s -> body s = Some (Ok (inr a)) -> Q a) ->
  forall f s a, I s -> loop f s = Some (Ok a) -> Q a.
Proof.
  intros Hc Hb f. induction f as [|f IH]; intros s a Hs; cbn [loop]; [done|].
  destruct (body s) as [[[s'|a']|e]|] eqn:E1; try done; cbn [fbind].
  - eauto.
  - intros [= ->]. eauto.
Qed.

Context (size : S -> nat)
  (Hdec : forall s s', body s = Some (Ok (inl s')) -> (size s' < size s)%nat).

Lemma loop_enough f1 : forall f2 s,
  (size s < f1)%nat -> (size s < f2)%nat -> loop f1 s = loop f2 s.
Proof.
  induction f1 as [|f1 IH]; intros f2 s H1 H2; [lia|]. destruct f2 as [|f2]; [lia|]. cbn [loop].
  destruct (body s) as [[[s'|a]|e]|] eqn:E1; try done. cbn [fbind].
  apply Hdec in E1. apply IH; lia.
Qed.

Lemma run_loop_eq s :
  run_loop size s =
  let! r := body s in
  match r with
  | inl s' => run_loop size s'
  | inr a => Some (Ok a)
  end.
Proof.
  unfold run_loop at 1. cbn [loop].
  destruct (body s) as [[[s'|a]|e]|] eqn:E1; try done. cbn [fbind].
  apply Hdec in E1. apply loop_enough; lia.
Qed.

(** Induction on the iterations of a loop that terminates. *)
Lemma run_loop_ind (P : S -> option (Result A E) -> Prop) :
  (forall s e, body s = Some (Err e) -> P s (Some (Err e))) ->
  (forall s, body s = None -> P s None) ->
  (forall s a, body s = Some (Ok (inr a)) -> P s (Some (Ok a))) ->
  (forall s s' r, body s = Some (Ok (inl s')) -> P s' r -> P s r) ->
  forall s, P s (run_loop size s).
Proof.
  intros He Hn Hb Hc s. remember (size s) as n eqn:En. revert s En.
  induction n as [n IH] using lt_wf_ind; intros s ->. rewrite run_loop_eq.
  destruct (body s) as [[[s'|a]|e]|] eqn:E1; cbn [fbind]; auto.
  eapply Hc; [done|]. eapply IH; [by apply Hdec|done].
Qed.

End Loop.
