(* ===== verification/Ordered.v ===== *)
(** * Ordered data of the standard library: [Ord], [sort_by], [BTreeMap]

    What the components use of [std]: lexicographic comparison of strings,
    vectors and pairs ([Ord::cmp]), the stable [slice::sort_by], and
    [BTreeMap] as the association list its iterator yields, kept in strictly
    increasing key order. *)

From Stdlib Require Import SpecFloat.
From S2P Require Import Prelude Text.

Open Scope Z_scope.

(** ** [Ord] *)

Class OrdCmp (A : Type) := cmp : A -> A -> comparison.

(** What [Ord] documents: a total order whose [Equal] is equality. *)
Class OrdLaws (A : Type) `{OrdCmp A} : Prop := {
  cmp_eq : forall x y : A, cmp x y = Eq <-> x = y;
  cmp_opp : forall x y : A, cmp y x = CompOpp (cmp x y);
  cmp_lt_trans : forall x y z : A, cmp x y = Lt -> cmp y z = Lt -> cmp x z = Lt;
}.

(** [Ordering::then_with] *)
Definition then_with (c d : comparison) : comparison :=
  match c with Eq => d | _ => c end.

#[export] Instance byte_cmp : OrdCmp byte := fun a b => b2z a ?= b2z b.

#[export] Instance pair_cmp {A B} `{OrdCmp A, OrdCmp B} : OrdCmp (A * B) :=
  fun p q => then_with (cmp p.1 q.1) (cmp p.2 q.2).

Fixpoint list_cmp_aux {A} (c : A -> A -> comparison) (l k : list A) : comparison :=
  match l, k with
  | [], [] => Eq
  | [], _ :: _ => Lt
  | _ :: _, [] => Gt
  | x :: l', y :: k' => then_with (c x y) (list_cmp_aux c l' k')
  end.

#[export] Instance list_cmp {A} `{OrdCmp A} : OrdCmp (list A) := list_cmp_aux cmp.

#[export] Instance byte_ord : OrdLaws byte.
Proof.
  split; unfold cmp, byte_cmp; intros.
  - rewrite Z.compare_eq_iff. split; [apply b2z_inj|by intros ->].
  - apply Z.compare_antisym.
  - rewrite Z.compare_lt_iff in *. lia.
Qed.

Lemma cmp_refl {A} `{OrdLaws A} (x : A) : cmp x x = Eq.
Proof. by apply cmp_eq. Qed.

Lemma cmp_gt_lt {A} `{OrdLaws A} (x y : A) : cmp x y = Gt <-> cmp y x = Lt.
Proof. rewrite (cmp_opp x y). destruct (cmp x y); simpl; naive_solver. Qed.

Lemma cmp_pair {A B} `{OrdCmp A, OrdCmp B} (a a' : A) (b b' : B) :
  cmp (a, b) (a', b') = then_with (cmp a a') (cmp b b').
Proof. reflexivity. Qed.

#[export] Instance pair_ord {A B} `{OrdLaws A, OrdLaws B} : OrdLaws (A * B).
Proof.
  split.
  - intros [a b] [a' b']. rewrite cmp_pair. unfold then_with.
    pose proof (cmp_eq a a') as Ha. pose proof (cmp_eq b b') as Hb.
    destruct (cmp a a'); [destruct (cmp b b')|..]; naive_solver.
  - intros [a b] [a' b']. rewrite !cmp_pair, (cmp_opp a a'), (cmp_opp b b'). by destruct (cmp a a').
  - intros [a b] [a' b'] [a'' b'']. rewrite !cmp_pair. unfold then_with.
    destruct (cmp a a') eqn:E1, (cmp a' a'') eqn:E2; intros E3 E4; try done.
    + apply cmp_eq in E1 as ->, E2 as ->. rewrite cmp_refl. by eapply cmp_lt_trans.
    + apply cmp_eq in E1 as ->. by rewrite E2.
    + apply cmp_eq in E2 as <-. by rewrite E1.
    + by rewrite (cmp_lt_trans _ _ _ E1 E2).
Qed.

#[export] Instance list_ord {A} `{OrdLaws A} : OrdLaws (list A).
Proof.
  split; unfold cmp, list_cmp.
  - induction x as [|x l IH]; intros [|y k]; simpl; try naive_solver.
    unfold then_with. pose proof (cmp_eq x y) as E. specialize (IH k).
    destruct (cmp x y); naive_solver.
  - induction x as [|x l IH]; intros [|y k]; simpl; try done.
    rewrite (cmp_opp x y), IH. by destruct (cmp x y).
  - induction x as [|x l IH]; intros [|y k] [|z m]; simpl; try done.
    unfold then_with. destruct (cmp x y) eqn:E1, (cmp y z) eqn:E2; intros E3 E4; try done.
    + apply cmp_eq in E1 as ->, E2 as ->. rewrite cmp_refl. by eapply IH.
    + apply cmp_eq in E1 as ->. by rewrite E2.
    + apply cmp_eq in E2 as <-. by rewrite E1.
    + by rewrite (cmp_lt_trans _ _ _ E1 E2).
Qed.

#[export] Instance Z_cmp : OrdCmp Z := Z.compare.

#[export] Instance Z_ord : OrdLaws Z.
Proof.
  split; unfold cmp, Z_cmp; intros.
  - apply Z.compare_eq_iff.
  - apply Z.compare_antisym.
  - rewrite Z.compare_lt_iff in *. lia.
Qed.

(** ** Floating-point numbers other than NaN *)

(** [partial_cmp] orders them by sign, exponent and mantissa. *)
Definition float_key (f : spec_float) : Z * (Z * Z) :=
  match f with
  | S754_infinity neg => if neg then (-2, (0, 0)) else (2, (0, 0))
  | S754_finite neg m e => if neg then (-1, (- e, Zneg m)) else (1, (e, Zpos m))
  | S754_zero _ | S754_nan => (0, (0, 0))
  end.

Lemma float_cmp_key f g :
  F64.is_nan f = false -> F64.is_nan g = false -> SFcompare f g = Some (cmp (float_key f) (float_key g)).
Proof.
  intros Hf Hg. destruct f as [[]|[]| |[] m e], g as [[]|[]| |[] m' e']; try discriminate; try reflexivity;
    cbn [SFcompare float_key]; rewrite !cmp_pair; unfold cmp, Z_cmp, then_with; simpl;
    rewrite ?Z.compare_opp; destruct (e ?= e') eqn:E; rewrite ?(Z.compare_antisym e e'), ?E; simpl; try done.
Qed.

Lemma cmp_le_trans {A} `{OrdLaws A} (x y z : A) : cmp x y <> Gt -> cmp y z <> Gt -> cmp x z <> Gt.
Proof.
  intros Hxy Hyz. destruct (cmp x y) eqn:E1; [|destruct (cmp y z) eqn:E2|done].
  - by apply cmp_eq in E1 as ->.
  - apply cmp_eq in E2 as <-. by rewrite E1.
  - by rewrite (cmp_lt_trans _ _ _ E1 E2).
  - done.
Qed.

(** ** [slice::sort_by] *)

Section SortBy.
Context {A : Type} (c : A -> A -> comparison).

(** [x] goes before the first element it does not exceed: equal elements keep
    their order. *)
Fixpoint insert_by (x : A) (l : list A) : list A :=
  match l with
  | [] => [x]
  | y :: l' => match c x y with Gt => y :: insert_by x l' | _ => x :: l end
  end.

Definition sort_by (l : list A) : list A := foldr insert_by [] l.

Definition le_by (x y : A) : Prop := c x y <> Gt.

Lemma insert_by_perm x l : insert_by x l ≡ₚ x :: l.
Proof.
  induction l as [|y l IH]; simpl; [done|]. destruct (c x y); try done.
  rewrite IH. constructor.
Qed.

Lemma sort_by_perm l : sort_by l ≡ₚ l.
Proof. induction l as [|x l IH]; simpl; [done|]. by rewrite insert_by_perm, IH. Qed.

(** The laws of the comparator, on the elements it is used on. *)
Context (P : A -> Prop)
  (c_opp : forall x y, P x -> P y -> c y x = CompOpp (c x y))
  (c_trans : forall x y z, P x -> P y -> P z -> le_by x y -> le_by y z -> le_by x z).

Lemma insert_by_sorted x l :
  P x -> Forall P l -> StronglySorted le_by l -> StronglySorted le_by (insert_by x l).
Proof.
  intros Hx Hl. induction 1 as [|y l Hs IH Hy]; simpl; [by repeat constructor|].
  apply Forall_cons in Hl as [Hpy Hl]. destruct (c x y) eqn:E.
  1,2: constructor; [by constructor|]; constructor; [unfold le_by; congruence|].
  1,2: apply Forall_forall; intros z Hz; rewrite Forall_forall in Hy, Hl;
    apply (c_trans x y z); auto; unfold le_by; congruence.
  constructor; [by apply IH|]. rewrite insert_by_perm. constructor; [|done].
  unfold le_by. rewrite c_opp by done. by rewrite E.
Qed.

Lemma sort_by_sorted l : Forall P l -> StronglySorted le_by (sort_by l).
Proof.
  induction 1 as [|x l Hx Hl IH]; simpl; [constructor|].
  apply insert_by_sorted; [done| |done]. by rewrite sort_by_perm.
Qed.

(** Where [Equal] means equal, the result depends on the multiset alone. *)
Lemma sort_by_unique l k :
  Forall P l -> (forall x y, x ∈ l -> y ∈ l -> c x y = Eq -> x = y) -> l ≡ₚ k -> sort_by l = sort_by k.
Proof.
  intros Hl Heq Hlk. apply (StronglySorted_unique_strong le_by).
  - intros x y Hx Hy Hxy Hyx. rewrite sort_by_perm in Hx. rewrite sort_by_perm, <- Hlk in Hy.
    apply Heq; [done|done|]. unfold le_by in *. rewrite Forall_forall in Hl.
    rewrite (c_opp x y) in Hyx by auto. by destruct (c x y).
  - by apply sort_by_sorted.
  - apply sort_by_sorted. by rewrite <- Hlk.
  - by rewrite !sort_by_perm.
Qed.

End SortBy.

(** ** [BTreeMap] *)

Module BTreeMap.

Section Map.
Context {K V : Type} `{OrdCmp K}.

Definition Map := list (K * V).

Definition empty : Map := [].

Fixpoint get (k : K) (m : Map) : option V :=
  match m with
  | [] => None
  | (k', v) :: m' => match cmp k k' with Eq => Some v | _ => get k m' end
  end.

(** Inserts in key order; an existing key keeps its place and takes the value. *)
Fixpoint insert (k : K) (v : V) (m : Map) : Map :=
  match m with
  | [] => [(k, v)]
  | (k', v') :: m' =>
      match cmp k k' with
      | Lt => (k, v) :: m
      | Eq => (k', v) :: m'
      | Gt => (k', v') :: insert k v m'
      end
  end.

Fixpoint remove (k : K) (m : Map) : Map :=
  match m with
  | [] => []
  | (k', v') :: m' => match cmp k k' with Eq => m' | _ => (k', v') :: remove k m' end
  end.

(** Updates the value behind [m.get_mut(k)], when there is one. *)
Fixpoint update (f : V -> V) (k : K) (m : Map) : Map :=
  match m with
  | [] => []
  | (k', v') :: m' => match cmp k k' with Eq => (k', f v') :: m' | _ => (k', v') :: update f k m' end
  end.

Definition values (m : Map) : list V := map snd m.

(** The keys are strictly increasing. *)
Definition wf (m : Map) : Prop := StronglySorted (fun x y => cmp x y = Lt) (map fst m).

Context `{!OrdLaws K}.

Lemma cmp_case (P : comparison -> Prop) (x y : K) :
  (x = y -> P Eq) -> (cmp x y = Lt -> P Lt) -> (cmp x y = Gt -> P Gt) -> P (cmp x y).
Proof. intros. destruct (cmp x y) eqn:E; [|auto|auto]. apply cmp_eq in E. auto. Qed.

Lemma get_None k m : Forall (fun x => cmp k x = Lt) (map fst m) -> get k m = None.
Proof.
  induction m as [|[k' v'] m IH]; [done|]. cbn [map fst get]. rewrite Forall_cons.
  intros [-> Hm]. auto.
Qed.

Lemma insert_keys k v m x : x ∈ map fst (insert k v m) <-> x = k \/ x ∈ map fst m.
Proof.
  induction m as [|[k' v'] m IH]; cbn [insert map fst]; [set_solver|].
  destruct (cmp k k') eqn:E; cbn [map fst]; [apply cmp_eq in E as ->| |]; set_solver.
Qed.

Lemma insert_wf k v m : wf m -> wf (insert k v m).
Proof.
  unfold wf. induction m as [|[k' v'] m IH]; cbn [insert map fst]; [by repeat constructor|].
  intros Hs. apply StronglySorted_inv in Hs as [Hs Hm].
  destruct (cmp k k') eqn:E; cbn [map fst]; constructor; auto.
  - by constructor.
  - constructor; [done|]. eapply Forall_impl; [exact Hm|]. simpl. intros x Hx. by eapply cmp_lt_trans.
  - apply Forall_forall. intros x Hx%insert_keys. apply cmp_gt_lt in E.
    rewrite Forall_forall in Hm. destruct Hx as [->|]; auto.
Qed.

Lemma remove_keys k m x : x ∈ map fst (remove k m) -> x ∈ map fst m.
Proof.
  induction m as [|[k' v'] m IH]; cbn [remove map fst]; [done|].
  destruct (cmp k k'); cbn [map fst]; set_solver.
Qed.

Lemma remove_wf k m : wf m -> wf (remove k m).
Proof.
  unfold wf. induction m as [|[k' v'] m IH]; cbn [remove map fst]; [done|].
  intros Hs. apply StronglySorted_inv in Hs as [Hs Hm].
  destruct (cmp k k'); cbn [map fst]; [done|..]; (constructor; [auto|]);
    apply Forall_forall; intros x Hx%remove_keys; rewrite Forall_forall in Hm; auto.
Qed.

Lemma update_keys f k m : map fst (update f k m) = map fst m.
Proof.
  induction m as [|[k' v'] m IH]; cbn [update map fst]; [done|].
  destruct (cmp k k'); cbn [map fst]; congruence.
Qed.

Lemma update_wf f k m : wf m -> wf (update f k m).
Proof. unfold wf. by rewrite update_keys. Qed.

Lemma get_insert k k' v m : wf m -> get k (insert k' v m) = match cmp k k' with Eq => Some v | _ => get k m end.
Proof.
  unfold wf. induction m as [|[x v'] m IH]; cbn [insert map fst get]; [done|].
  intros Hs. apply StronglySorted_inv in Hs as [Hs Hm]. specialize (IH Hs).
  destruct (cmp k' x) eqn:E; cbn [get].
  - apply cmp_eq in E as ->. by destruct (cmp k x).
  - done.
  - rewrite IH. destruct (cmp k x) eqn:Ex; [|done|done]. apply cmp_eq in Ex as ->.
    apply cmp_gt_lt in E. by rewrite E.
Qed.

Lemma get_remove k k' m : wf m -> get k (remove k' m) = match cmp k k' with Eq => None | _ => get k m end.
Proof.
  unfold wf. induction m as [|[x v'] m IH]; cbn [remove map fst get]; [by destruct (cmp k k')|].
  intros Hs. apply StronglySorted_inv in Hs as [Hs Hm]. specialize (IH Hs).
  destruct (cmp k' x) eqn:E; cbn [get].
  - apply cmp_eq in E as ->. apply (cmp_case (fun c => get k m = match c with Eq => None | _ => _ end)).
    + intros ->. by apply get_None.
    + by intros ->.
    + by intros ->.
  - rewrite IH. destruct (cmp k x) eqn:Ex; [|done|done]. apply cmp_eq in Ex as ->.
    by rewrite cmp_opp, E.
  - rewrite IH. destruct (cmp k x) eqn:Ex; [|done|done]. apply cmp_eq in Ex as ->.
    by rewrite cmp_opp, E.
Qed.

Lemma get_update f k k' m : get k (update f k' m) = match cmp k k' with Eq => f <$> get k m | _ => get k m end.
Proof.
  induction m as [|[x v'] m IH]; cbn [update get]; [by destruct (cmp k k')|].
  destruct (cmp k' x) eqn:E; cbn [get].
  - apply cmp_eq in E as ->. by destruct (cmp k x).
  - rewrite IH. destruct (cmp k x) eqn:Ex; [|done|done]. apply cmp_eq in Ex as ->. by rewrite cmp_opp, E.
  - rewrite IH. destruct (cmp k x) eqn:Ex; [|done|done]. apply cmp_eq in Ex as ->. by rewrite cmp_opp, E.
Qed.

Lemma get_elem k v m : wf m -> get k m = Some v <-> (k, v) ∈ m.
Proof.
  unfold wf. induction m as [|[x v'] m IH]; cbn [map fst get]; [set_solver|].
  intros Hs. apply StronglySorted_inv in Hs as [Hs Hm]. rewrite elem_of_cons, <- IH by done.
  apply (cmp_case (fun c => match c with Eq => Some v' | _ => get k m end = Some v <-> _)).
  - intros ->. rewrite get_None by done. naive_solver.
  - intros E. split; [auto|]. intros [?|?]; [|done]. simplify_eq. by rewrite cmp_refl in E.
  - intros E. split; [auto|]. intros [?|?]; [|done]. simplify_eq. by rewrite cmp_refl in E.
Qed.

End Map.

Arguments Map : clear implicits.

End BTreeMap.
