(* ===== verification/Value.v ===== *)
(** * The data model of [ferroly::codec] ([codec/value.rs], [codec/error.rs],
    [codec/traits.rs])

    [Value], the format-agnostic tree every codec reads and writes, its
    accessors, the codec error type, and the [Encoder] interface through which
    a value is streamed to an output format ([emit_value]). *)

From S2P Require Import Prelude Text.

Open Scope Z_scope.

(** ** Value *)

Module Value.

Inductive Value : Type :=
| Null
| Bool (b : bool)
| Int (i : Z)                       (** [i64] *)
| UInt (u : Z)                      (** [u64] *)
| Float (f : F64.t)
| Str (s : bytes)
| Bytes (b : bytes)
| Array (a : list Value)
| Object (o : list (bytes * Value)).

Definition as_object (v : Value) : option (list (bytes * Value)) :=
  match v with Object o => Some o | _ => None end.
Definition as_array (v : Value) : option (list Value) :=
  match v with Array a => Some a | _ => None end.
Definition as_str (v : Value) : option bytes :=
  match v with Str s => Some s | _ => None end.
Definition as_bool (v : Value) : option bool :=
  match v with Bool b => Some b | _ => None end.
Definition as_i64 (v : Value) : option Z :=
  match v with
  | Int i => Some i
  | UInt u => if u <=? i64_max then Some u else None
  | _ => None
  end.
Definition as_u64 (v : Value) : option Z :=
  match v with
  | UInt u => Some u
  | Int i => if 0 <=? i then Some i else None
  | _ => None
  end.
Definition as_f64 (v : Value) : option F64.t :=
  match v with
  | Float f => Some f
  | Int i => Some (F64.of_Z i)
  | UInt u => Some (F64.of_Z u)
  | _ => None
  end.
Definition is_null (v : Value) : bool := match v with Null => true | _ => false end.

(** [value::find]: the last entry with the key. *)
Definition find (obj : list (bytes * Value)) (key : bytes) : option Value :=
  snd <$> List.find (fun kv => bool_decide (kv.1 = key)) (rev obj).

Definition get (v : Value) (key : bytes) : option Value :=
  o ← as_object v; find o key.
Definition get_index (v : Value) (i : nat) : option Value :=
  a ← as_array v; a !! i.

(** Nesting depth of containers; byte strings are written as arrays. *)
Fixpoint depth (v : Value) : nat :=
  match v with
  | Array a => S (foldr (fun x n => Nat.max (depth x) n) 0%nat a)
  | Object o => S (foldr (fun kv n => Nat.max (depth (snd kv)) n) 0%nat o)
  | Bytes _ => 1%nat
  | _ => 0%nat
  end.

End Value.

Abbreviation Value := Value.Value.

(** The strings of a value are valid UTF-8, as Rust's [String] guarantees. *)
Fixpoint utf8_strings (v : Value) : bool :=
  match v with
  | Value.Str s => Utf8.is_utf8 s
  | Value.Array a => forallb utf8_strings a
  | Value.Object o => forallb (fun kx => Utf8.is_utf8 (fst kx) && utf8_strings (snd kx)) o
  | _ => true
  end.

(** ** Errors *)

Inductive CodecError : Type :=
| UnsupportedContentType (ct : bytes)
| Parse (m : bytes)
| Expected (what : bytes)
| MissingField (n : bytes)
| UnknownVariant (n : bytes)
| OutOfRange (ty : bytes)
| Message (m : bytes).

(** [impl Display for CodecError] *)
Definition codec_error_display (e : CodecError) : bytes :=
  match e with
  | UnsupportedContentType ct => b!"no codec registered for content type: " ++ ct
  | Parse m => b!"parse error: " ++ m
  | Expected w => b!"expected " ++ w
  | MissingField n => b!"missing field: " ++ n
  | UnknownVariant n => b!"unknown variant: " ++ n
  | OutOfRange t => b!"value out of range for " ++ t
  | Message m => m
  end.

(** ** Encoder: the output side of a codec

    [seq_entry] and [map_entry] receive the child's own [encode_to]. *)
Class Encoder (E : Type) := {
  encode_null : E -> E;
  encode_bool : bool -> E -> E;
  encode_i64 : Z -> E -> E;
  encode_u64 : Z -> E -> E;
  encode_f64 : F64.t -> E -> E;
  encode_str : bytes -> E -> E;
  encode_bytes : bytes -> E -> E;
  begin_seq : nat -> E -> E;
  seq_entry : (E -> E) -> E -> E;
  end_seq : E -> E;
  begin_map : nat -> E -> E;
  map_entry : bytes -> (E -> E) -> E -> E;
  end_map : E -> E;
}.

(** [traits::emit_value] *)
Fixpoint emit_value {E} `{Encoder E} (value : Value) (e : E) : E :=
  match value with
  | Value.Null => encode_null e
  | Value.Bool b => encode_bool b e
  | Value.Int i => encode_i64 i e
  | Value.UInt u => encode_u64 u e
  | Value.Float f => encode_f64 f e
  | Value.Str s => encode_str s e
  | Value.Bytes b => encode_bytes b e
  | Value.Array a =>
      end_seq (foldl (fun e x => seq_entry (emit_value x) e) (begin_seq (length a) e) a)
  | Value.Object o =>
      end_map (foldl (fun e kx => map_entry (fst kx) (emit_value (snd kx)) e)
                 (begin_map (length o) e) o)
  end.

(** ** Induction over values *)

Section ValueInd.
Context (P : Value -> Prop)
  (HNull : P Value.Null) (HBool : forall b, P (Value.Bool b))
  (HInt : forall i, P (Value.Int i)) (HUInt : forall u, P (Value.UInt u))
  (HFloat : forall f, P (Value.Float f)) (HStr : forall s, P (Value.Str s))
  (HBytes : forall b, P (Value.Bytes b))
  (HArray : forall a, Forall P a -> P (Value.Array a))
  (HObject : forall o, Forall (fun kv => P (snd kv)) o -> P (Value.Object o)).

Fixpoint value_ind' (v : Value) : P v :=
  match v with
  | Value.Null => HNull
  | Value.Bool b => HBool b
  | Value.Int i => HInt i
  | Value.UInt u => HUInt u
  | Value.Float f => HFloat f
  | Value.Str s => HStr s
  | Value.Bytes b => HBytes b
  | Value.Array a => HArray a
      ((fix go (l : list Value) : Forall P l :=
          match l with
          | [] => Forall_nil_2 P
          | x :: l' => Forall_cons_2 P x l' (value_ind' x) (go l')
          end) a)
  | Value.Object o => HObject o
      ((fix go (l : list (bytes * Value)) : Forall (fun kv => P (snd kv)) l :=
          match l with
          | [] => Forall_nil_2 _
          | kx :: l' => Forall_cons_2 (fun kv => P (snd kv)) kx l' (value_ind' (snd kx)) (go l')
          end) o)
  end.
End ValueInd.

(** ** Lookup is last-wins *)

Lemma find_app a b k : Value.find (a ++ b) k = match Value.find b k with Some v => Some v | None => Value.find a k end.
Proof.
  unfold Value.find. rewrite rev_app_distr. induction (rev b) as [|x l IH]; [done|]. cbn [app List.find].
  by destruct (bool_decide (x.1 = k)).
Qed.

Lemma find_none o k : k ∉ map fst o -> Value.find o k = None.
Proof.
  induction o as [|[k' v] o IH] using rev_ind; [done|]. rewrite map_app, not_elem_of_app, find_app.
  intros [Ho Hk]. unfold Value.find at 1. simpl. rewrite bool_decide_false by set_solver. simpl. by apply IH.
Qed.

(** With unique keys the first entry with the key is the last. *)
Lemma find_cons k' v o k :
  k' ∉ map fst o -> Value.find ((k', v) :: o) k = if bool_decide (k' = k) then Some v else Value.find o k.
Proof.
  intros Hk. rewrite (find_app [(k', v)] o). unfold Value.find at 2. simpl. case_bool_decide as E.
  - subst. by rewrite find_none.
  - by destruct (Value.find o k).
Qed.

Lemma find_elem o k v : Value.find o k = Some v -> (k, v) ∈ o.
Proof.
  unfold Value.find. destruct (List.find _ (rev o)) as [[k' v']|] eqn:E; [|done]. simpl. intros [= ->].
  apply find_some in E as [Hin Hk]. apply bool_decide_eq_true in Hk. simpl in Hk. subst.
  by apply list_elem_of_In, in_rev.
Qed.

Lemma find_app_last obj key v : Value.find (obj ++ [(key, v)]) key = Some v.
Proof.
  unfold Value.find. rewrite rev_app_distr. simpl. by rewrite bool_decide_true.
Qed.

Lemma find_app_other obj key key' v :
  key <> key' -> Value.find (obj ++ [(key', v)]) key = Value.find obj key.
Proof.
  intros Hne. unfold Value.find. rewrite rev_app_distr. simpl.
  rewrite bool_decide_false by congruence. done.
Qed.

(** On an object with duplicate keys, [Value::get] is the last-wins map built by
    inserting the entries in order, which is how a struct decoder resolves them. *)
Theorem get_last_wins (obj : list (bytes * Value)) (key : bytes) :
  Value.get (Value.Object obj) key =
  (foldl (fun (m : gmap bytes Value) kv => <[kv.1 := kv.2]> m) ∅ obj) !! key.
Proof.
  unfold Value.get. cbn [Value.as_object mbind option_bind].
  induction obj as [|[k v] obj IH] using rev_ind; [done|].
  rewrite foldl_app. cbn [foldl fst snd]. destruct (decide (k = key)) as [->|Hne].
  - by rewrite find_app_last, lookup_insert_eq.
  - by rewrite find_app_other, lookup_insert_ne.
Qed.

Lemma depth_array_elem a x : x ∈ a -> (Value.depth x < Value.depth (Value.Array a))%nat.
Proof.
  intros Hx. simpl. induction a as [|y a IH]; [set_solver|].
  apply elem_of_cons in Hx as [->|Hx]; simpl; [lia|]. specialize (IH Hx). lia.
Qed.

Lemma depth_object_elem o kx : kx ∈ o -> (Value.depth (snd kx) < Value.depth (Value.Object o))%nat.
Proof.
  intros Hx. simpl. induction o as [|y o IH]; [set_solver|].
  apply elem_of_cons in Hx as [->|Hx]; simpl; [lia|]. specialize (IH Hx). lia.
Qed.
