(* ===== verification/Json.v ===== *)
(** * The JSON codec ([codec/json.rs])

    The streaming encoder [JsonEncoder] (an [Encoder] instance) and the
    byte-level recursive-descent [Parser] with its depth limit.  The parser
    state [(input, bytes, pos)] is represented by the unread suffix
    [&bytes[pos..]]; a span [&input[a..b]] is the difference of two suffixes
    ([slice]).  Recursive functions carry fuel; [parse_value_total] shows that
    the fuel given by the entry points is always enough. *)

From S2P Require Import Prelude Text Value.

Open Scope Z_scope.

(** ** Encoder *)

Record JsonEncoder := mkEnc { out : bytes; first : list bool }.

Definition enc_new : JsonEncoder := mkEnc [] [].

(** The stack [first] has its top at the head of the list. *)
Definition push_out (s : bytes) (e : JsonEncoder) : JsonEncoder := mkEnc (out e ++ s) (first e).

(** [JsonEncoder::sep] *)
Definition sep (e : JsonEncoder) : JsonEncoder :=
  match first e with
  | true :: st => mkEnc (out e) (false :: st)
  | false :: _ => push_out [x2c] e
  | [] => e
  end.

(** The span between two suffixes of the same input. *)
Definition slice (start cur : bytes) : bytes := take (length start - length cur) start.

Definition hex_digit (d : Z) : byte := if d <? 10 then z2b (48 + d) else z2b (87 + d).

(** The escape of a byte in [write_string], [None] when it is copied. *)
Definition escape (b : byte) : option bytes :=
  if bool_decide (b = x22) then Some [x5c; x22]
  else if bool_decide (b = x5c) then Some [x5c; x5c]
  else if bool_decide (b = x0a) then Some [x5c; x6e]
  else if bool_decide (b = x0d) then Some [x5c; x72]
  else if bool_decide (b = x09) then Some [x5c; x74]
  else if bool_decide (b = x08) then Some [x5c; x62]
  else if bool_decide (b = x0c) then Some [x5c; x66]
  else if b2z b <? 0x20 then
    Some [x5c; x75; x30; x30; hex_digit (b2z b / 16); hex_digit (b2z b mod 16)]
  else None.

(** The loop of [write_string]: [start] is the suffix where the current clean
    run begins, [cur] the suffix at the current index. *)
Fixpoint write_string_loop (o start cur : bytes) : bytes :=
  match cur with
  | [] => o ++ start
  | b :: rest =>
      match escape b with
      | Some esc => write_string_loop (o ++ slice start cur ++ esc) rest rest
      | None => write_string_loop o start rest
      end
  end.

Definition write_string (o s : bytes) : bytes :=
  write_string_loop (o ++ [x22]) s s ++ [x22].

(** [JsonEncoder::encode_bytes] *)
Definition write_bytes (o v : bytes) : bytes :=
  let o := o ++ [x5b] in
  let o := foldl (fun o ib =>
             let o := if (0 <? fst ib)%nat then o ++ [x2c] else o in
             write_u64 o (b2z (snd ib))) o (imap pair v) in
  o ++ [x5d].

#[export] Instance json_encoder : Encoder JsonEncoder := {|
  encode_null e := push_out (b!"null") e;
  encode_bool v e := push_out (if v : bool then b!"true" else b!"false") e;
  encode_i64 v e := mkEnc (write_i64 (out e) v) (first e);
  encode_u64 v e := mkEnc (write_u64 (out e) v) (first e);
  encode_f64 v e := mkEnc (write_json_f64 (out e) v) (first e);
  encode_str v e := mkEnc (write_string (out e) v) (first e);
  encode_bytes v e := mkEnc (write_bytes (out e) v) (first e);
  begin_seq _ e := mkEnc (out e ++ [x5b]) (true :: first e);
  seq_entry v e := v (sep e);
  end_seq e := mkEnc (out e ++ [x5d]) (tail (first e));
  begin_map _ e := mkEnc (out e ++ [x7b]) (true :: first e);
  map_entry k v e :=
    let e := sep e in
    let e := mkEnc (write_string (out e) k) (first e) in
    v (push_out [x3a] e);
  end_map e := mkEnc (out e ++ [x7d]) (tail (first e));
|}.

(** [json::to_string] *)
Definition to_string (v : Value) : bytes := out (emit_value v enc_new).

(** ** Parser *)

Definition MAX_DEPTH : nat := 128.

Record Parser := mkP { rest : bytes; depth : nat }.

Definition new (input : bytes) : Parser := mkP input 0.

Definition perr {A} (m : bytes) : Result A CodecError := Err (Parse m).

Definition enter (p : Parser) : Result Parser CodecError :=
  let d := S (depth p) in
  if (MAX_DEPTH <? d)%nat then perr (b!"nesting too deep") else Ok (mkP (rest p) d).

Definition leave (p : Parser) : Parser := mkP (rest p) (depth p - 1).

Definition peek (p : Parser) : option byte := head (rest p).

Definition bump (p : Parser) : option byte * Parser :=
  match rest p with
  | b :: r => (Some b, mkP r (depth p))
  | [] => (None, p)
  end.

(** [self.pos += 1] after a successful [peek]. *)
Definition advance (p : Parser) : Parser := mkP (tail (rest p)) (depth p).

Definition is_ws (b : byte) : bool :=
  bool_decide (b = x20) || bool_decide (b = x09) || bool_decide (b = x0a) || bool_decide (b = x0d).

Fixpoint skip_ws_bytes (s : bytes) : bytes :=
  match s with
  | b :: r => if is_ws b then skip_ws_bytes r else s
  | [] => []
  end.

Definition skip_ws (p : Parser) : Parser := mkP (skip_ws_bytes (rest p)) (depth p).

Definition expect (b : byte) (p : Parser) : Result Parser CodecError :=
  let '(x, p') := bump p in
  if bool_decide (x = Some b) then Ok p'
  else perr (b!"expected '" ++ Utf8.byte_as_char b ++ b!"'").

(** [read_hex4]: [n] remaining digits. *)
Fixpoint read_hex (n : nat) (v : Z) (p : Parser) : Result (Z * Parser) CodecError :=
  match n with
  | O => Ok (v, p)
  | S n' =>
      let '(b, p) := bump p in
      let? b := ok_or b (Parse (b!"short unicode escape")) in
      let? d := ok_or (to_digit 16 b) (Parse (b!"invalid hex digit")) in
      read_hex n' (v * 16 + d) p
  end.

Definition read_hex4 (p : Parser) : Result (Z * Parser) CodecError := read_hex 4 0 p.

(** [parse_unicode_escape]: a [char], as its code point. *)
Definition parse_unicode_escape (p : Parser) : Result (Z * Parser) CodecError :=
  let? (high, p) := read_hex4 p in
  if (0xD800 <=? high) && (high <=? 0xDBFF) then
    let '(c1, p) := bump p in
    if negb (bool_decide (c1 = Some x5c)) then perr (b!"expected low surrogate")
    else
      let '(c2, p) := bump p in
      if negb (bool_decide (c2 = Some x75)) then perr (b!"expected low surrogate")
      else
        let? (low, p) := read_hex4 p in
        if negb ((0xDC00 <=? low) && (low <=? 0xDFFF)) then perr (b!"invalid low surrogate")
        else
          let c := 0x10000 + Z.shiftl (high - 0xD800) 10 + (low - 0xDC00) in
          let? c := ok_or (Utf8.char_from_u32 c) (Parse (b!"invalid surrogate pair")) in
          Ok (c, p)
  else
    let? c := ok_or (Utf8.char_from_u32 high) (Parse (b!"invalid unicode escape")) in
    Ok (c, p).

(** The character of a one-letter escape. *)
Definition simple_escape (c : byte) : option byte :=
  if bool_decide (c = x22) then Some x22
  else if bool_decide (c = x5c) then Some x5c
  else if bool_decide (c = x2f) then Some x2f
  else if bool_decide (c = x6e) then Some x0a
  else if bool_decide (c = x74) then Some x09
  else if bool_decide (c = x72) then Some x0d
  else if bool_decide (c = x62) then Some x08
  else if bool_decide (c = x66) then Some x0c
  else None.

(** [parse_string_escaped]: [s] is what has been decoded, [run] the suffix
    where the current clean run begins. *)
Fixpoint parse_string_escaped (fuel : nat) (s run : bytes) (p : Parser)
  : option (Result (bytes * Parser) CodecError) :=
  match fuel with
  | O => None
  | S f =>
      match peek p with
      | None => Some (perr (b!"unterminated string"))
      | Some c =>
          if bool_decide (c = x22) then Some (Ok (s ++ slice run (rest p), advance p))
          else if bool_decide (c = x5c) then
            let s := s ++ slice run (rest p) in
            let '(e, p) := bump (advance p) in
            match e with
            | None => Some (perr (b!"invalid escape sequence"))
            | Some e =>
                match simple_escape e with
                | Some x => parse_string_escaped f (s ++ [x]) (rest p) p
                | None =>
                    if bool_decide (e = x75) then
                      let! (c, p) := Some (parse_unicode_escape p) in
                      parse_string_escaped f (s ++ Utf8.encode_char c) (rest p) p
                    else Some (perr (b!"invalid escape sequence"))
                end
            end
          else parse_string_escaped f s run (advance p)
      end
  end.

(** The scanning loop of [parse_string] from [start]. *)
Fixpoint string_scan (start cur : bytes) (d : nat) : option (Result (bytes * Parser) CodecError) :=
  match cur with
  | [] => Some (perr (b!"unterminated string"))
  | c :: r =>
      if bool_decide (c = x22) then Some (Ok (slice start cur, mkP r d))
      else if bool_decide (c = x5c) then
        parse_string_escaped (S (length cur)) [] start (mkP cur d)
      else string_scan start r d
  end.

Definition parse_string (p : Parser) : option (Result (bytes * Parser) CodecError) :=
  let! p := Some (expect x22 p) in
  string_scan (rest p) (rest p) (depth p).

(** [take_literal] *)
Definition take_literal (lit : bytes) (p : Parser) : bool * Parser :=
  if starts_with (rest p) lit then (true, mkP (drop (length lit) (rest p)) (depth p))
  else (false, p).

Definition parse_bool (p : Parser) : Result (Value * Parser) CodecError :=
  let '(t, p1) := take_literal (b!"true") p in
  if t then Ok (Value.Bool true, p1)
  else
    let '(t, p2) := take_literal (b!"false") p in
    if t then Ok (Value.Bool false, p2) else perr (b!"invalid literal").

Definition parse_null (p : Parser) : Result (Value * Parser) CodecError :=
  let '(t, p1) := take_literal (b!"null") p in
  if t then Ok (Value.Null, p1) else perr (b!"invalid literal").

Definition is_float_char (b : byte) : bool :=
  bool_decide (b = x2e) || bool_decide (b = x65) || bool_decide (b = x45)
  || bool_decide (b = x2b) || bool_decide (b = x2d).

(** The scanning loop of [parse_number]. *)
Fixpoint number_scan (is_float : bool) (s : bytes) : bool * bytes :=
  match s with
  | b :: r =>
      if F64.is_digit b then number_scan is_float r
      else if is_float_char b then number_scan true r
      else (is_float, s)
  | [] => (is_float, [])
  end.

Definition parse_number (p : Parser) : Result (Value * Parser) CodecError :=
  let start := rest p in
  let p0 := if bool_decide (peek p = Some x2d) then advance p else p in
  let '(is_float, r) := number_scan false (rest p0) in
  let p1 := mkP r (depth p) in
  let text := slice start r in
  let as_float :=
    let? f := ok_or (F64.parse text) (Parse (b!"invalid number: " ++ text)) in
    Ok (Value.Float f, p1) in
  if is_float then as_float
  else match parse_i64 text with
       | Some i => Ok (Value.Int i, p1)
       | None => match parse_u64 text with
                 | Some u => Ok (Value.UInt u, p1)
                 | None => as_float
                 end
       end.

Fixpoint parse_value (fuel : nat) (p : Parser) {struct fuel}
  : option (Result (Value * Parser) CodecError) :=
  match fuel with
  | O => None
  | S f =>
      let p := skip_ws p in
      match peek p with
      | None => Some (perr (b!"unexpected end of input"))
      | Some b =>
          if bool_decide (b = x7b) then
            let! p := Some (enter p) in
            let! (v, p) := parse_object f p in
            Some (Ok (v, leave p))
          else if bool_decide (b = x5b) then
            let! p := Some (enter p) in
            let! (v, p) := parse_array f p in
            Some (Ok (v, leave p))
          else if bool_decide (b = x22) then
            let! (s, p) := parse_string p in Some (Ok (Value.Str s, p))
          else if bool_decide (b = x74) || bool_decide (b = x66) then Some (parse_bool p)
          else if bool_decide (b = x6e) then Some (parse_null p)
          else if bool_decide (b = x2d) || F64.is_digit b then Some (parse_number p)
          else Some (perr (b!"unexpected character '" ++ Utf8.byte_as_char b ++ b!"'"))
      end
  end
with parse_object (fuel : nat) (p : Parser) {struct fuel}
  : option (Result (Value * Parser) CodecError) :=
  match fuel with
  | O => None
  | S f =>
      let! p := Some (expect x7b p) in
      let p := skip_ws p in
      if bool_decide (peek p = Some x7d) then Some (Ok (Value.Object [], advance p))
      else object_loop f [] p
  end
with object_loop (fuel : nat) (entries : list (bytes * Value)) (p : Parser) {struct fuel}
  : option (Result (Value * Parser) CodecError) :=
  match fuel with
  | O => None
  | S f =>
      let p := skip_ws p in
      let! (key, p) := parse_string p in
      let p := skip_ws p in
      let! p := Some (expect x3a p) in
      let! (value, p) := parse_value f p in
      let entries := entries ++ [(key, value)] in
      let p := skip_ws p in
      let '(c, p) := bump p in
      if bool_decide (c = Some x2c) then object_loop f entries p
      else if bool_decide (c = Some x7d) then Some (Ok (Value.Object entries, p))
      else Some (perr (b!"expected ',' or '}' in object"))
  end
with parse_array (fuel : nat) (p : Parser) {struct fuel}
  : option (Result (Value * Parser) CodecError) :=
  match fuel with
  | O => None
  | S f =>
      let! p := Some (expect x5b p) in
      let p := skip_ws p in
      if bool_decide (peek p = Some x5d) then Some (Ok (Value.Array [], advance p))
      else array_loop f [] p
  end
with array_loop (fuel : nat) (items : list Value) (p : Parser) {struct fuel}
  : option (Result (Value * Parser) CodecError) :=
  match fuel with
  | O => None
  | S f =>
      let! (value, p) := parse_value f p in
      let items := items ++ [value] in
      let p := skip_ws p in
      let '(c, p) := bump p in
      if bool_decide (c = Some x2c) then array_loop f items p
      else if bool_decide (c = Some x5d) then Some (Ok (Value.Array items, p))
      else Some (perr (b!"expected ',' or ']' in array"))
  end.

(** Fuel for a value in [n] bytes of input: three calls per byte. *)
Definition value_fuel (n : nat) : nat := 3 * n + 1.

(** [json::from_str] *)
Definition from_str_fuel (input : bytes) : option (Result Value CodecError) :=
  let p := skip_ws (new input) in
  let! (v, p) := parse_value (value_fuel (length input)) p in
  let p := skip_ws p in
  if bool_decide (rest p = []) then Some (Ok v)
  else Some (perr (b!"trailing characters after JSON value")).

Definition from_str (input : bytes) : Result Value CodecError :=
  match from_str_fuel input with
  | Some r => r
  | None => Err (Message (b!"out of fuel"))
  end.

(** [json::from_slice] *)
Definition from_slice (input : bytes) : Result Value CodecError :=
  let? s := map_err Parse (from_utf8 input) in
  from_str s.

(** ** The parser as a streaming [Decoder]

    The closures given to [read_seq] and [read_map] mutate captured state: they
    are state-passing functions over an accumulator. *)

Definition decode_value (fuel : nat) (p : Parser) : option (Result (Value * Parser) CodecError) :=
  parse_value fuel (skip_ws p).

Definition decode_string (p : Parser) : option (Result (bytes * Parser) CodecError) :=
  let p := skip_ws p in
  if negb (bool_decide (peek p = Some x22)) then Some (Err (Expected (b!"string")))
  else parse_string p.

Definition peek_null (p : Parser) : bool * Parser :=
  let p := skip_ws p in (starts_with (rest p) (b!"null"), p).

Definition decode_null (p : Parser) : Result Parser CodecError :=
  let '(t, p) := take_literal (b!"null") (skip_ws p) in
  if t then Ok p else Err (Expected (b!"null")).

Definition skip_value (fuel : nat) (p : Parser) : option (Result Parser CodecError) :=
  let! (_, p) := parse_value fuel (skip_ws p) in Some (Ok p).

Section Streaming.
Context {S : Type}.

Fixpoint seq_loop (fuel : nat) (f : S -> Parser -> option (Result (S * Parser) CodecError))
  (s : S) (p : Parser) : option (Result (S * Parser) CodecError) :=
  match fuel with
  | O => None
  | Datatypes.S fuel =>
      let! (s, p) := f s p in
      let p := skip_ws p in
      let '(c, p) := bump p in
      if bool_decide (c = Some x2c) then seq_loop fuel f s p
      else if bool_decide (c = Some x5d) then Some (Ok (s, leave p))
      else Some (perr (b!"expected ',' or ']' in array"))
  end.

Definition read_seq (f : S -> Parser -> option (Result (S * Parser) CodecError))
  (s : S) (p : Parser) : option (Result (S * Parser) CodecError) :=
  let p := skip_ws p in
  let! p := Some (expect x5b p) in
  let! p := Some (enter p) in
  let p := skip_ws p in
  if bool_decide (peek p = Some x5d) then Some (Ok (s, leave (advance p)))
  else seq_loop (Datatypes.S (length (rest p))) f s p.

Fixpoint map_loop (fuel : nat) (f : S -> bytes -> Parser -> option (Result (S * Parser) CodecError))
  (s : S) (p : Parser) : option (Result (S * Parser) CodecError) :=
  match fuel with
  | O => None
  | Datatypes.S fuel =>
      let p := skip_ws p in
      if negb (bool_decide (peek p = Some x22)) then Some (perr (b!"expected object key"))
      else
        let p := advance p in
        let! (key, p) := string_scan (rest p) (rest p) (depth p) in
        let p := skip_ws p in
        let! p := Some (expect x3a p) in
        let! (s, p) := f s key p in
        let p := skip_ws p in
        let '(c, p) := bump p in
        if bool_decide (c = Some x2c) then map_loop fuel f s p
        else if bool_decide (c = Some x7d) then Some (Ok (s, leave p))
        else Some (perr (b!"expected ',' or '}' in object"))
  end.

Definition read_map (f : S -> bytes -> Parser -> option (Result (S * Parser) CodecError))
  (s : S) (p : Parser) : option (Result (S * Parser) CodecError) :=
  let p := skip_ws p in
  let! p := Some (expect x7b p) in
  let! p := Some (enter p) in
  let p := skip_ws p in
  if bool_decide (peek p = Some x7d) then Some (Ok (s, leave (advance p)))
  else map_loop (Datatypes.S (length (rest p))) f s p.

(** [json::decode] for a type with the given [decode_from]. *)
Definition decode (decode_from : Parser -> option (Result (S * Parser) CodecError))
  (input : bytes) : option (Result S CodecError) :=
  let! (v, p) := decode_from (new input) in
  let p := skip_ws p in
  if bool_decide (rest p = []) then Some (Ok v)
  else Some (perr (b!"trailing characters after JSON value")).

End Streaming.

(** [<Vec<Value> as Decode>::decode_from]: [out.push(Value::decode_from(d)?)]. *)
Definition vec_value_decode_from (p : Parser) : option (Result (list Value * Parser) CodecError) :=
  read_seq (fun out p =>
    let! (v, p) := decode_value (value_fuel (length (rest p))) p in
    Some (Ok (out ++ [v], p))) [] p.

(** ** Reference definitions *)

Definition esc (s : bytes) : bytes := flat_map (fun b => default [b] (escape b)) s.

Definition quote (s : bytes) : bytes := [x22] ++ esc s ++ [x22].

(** Compact JSON text of a value. *)
Fixpoint render (v : Value) : bytes :=
  match v with
  | Value.Null => b!"null"
  | Value.Bool b => if b then b!"true" else b!"false"
  | Value.Int i => write_i64 [] i
  | Value.UInt u => write_u64 [] u
  | Value.Float f => write_json_f64 [] f
  | Value.Str s => quote s
  | Value.Bytes b => [x5b] ++ join [x2c] (map (fun x => write_u64 [] (b2z x)) b) ++ [x5d]
  | Value.Array a => [x5b] ++ join [x2c] (map render a) ++ [x5d]
  | Value.Object o =>
      [x7b] ++ join [x2c] (map (fun kx => quote (fst kx) ++ [x3a] ++ render (snd kx)) o) ++ [x7d]
  end.

(** What a value is after a trip through JSON: byte strings become arrays of
    integers, unsigned integers that fit become signed, non-finite floats null. *)
Fixpoint norm (v : Value) : Value :=
  match v with
  | Value.UInt u => if u <=? i64_max then Value.Int u else Value.UInt u
  | Value.Float f => if F64.is_finite f then Value.Float f else Value.Null
  | Value.Bytes b => Value.Array (map (fun x => Value.Int (b2z x)) b)
  | Value.Array a => Value.Array (map norm a)
  | Value.Object o => Value.Object (map (fun kx => (fst kx, norm (snd kx))) o)
  | _ => v
  end.

(** The machine-integer ranges hold, and every finite float prints to a decimal
    that parses back to it (what [Display] for [f64] documents). *)
Fixpoint encodable (v : Value) : bool :=
  match v with
  | Value.Int i => (i64_min <=? i) && (i <=? i64_max)
  | Value.UInt u => (0 <=? u) && (u <=? u64_max)
  | Value.Float f =>
      negb (F64.is_finite f) || bool_decide (F64.parse (write_json_f64 [] f) = Some f)
  | Value.Array a => forallb encodable a
  | Value.Object o => forallb (fun kx => encodable (snd kx)) o
  | _ => true
  end.

(** ** The encoder writes the reference text *)

Lemma slice_app a b : slice (a ++ b) b = a.
Proof.
  unfold slice. rewrite length_app. replace (_ + _ - _)%nat with (length a) by lia.
  apply take_app_length.
Qed.

Lemma slice_nil a : slice a [] = a.
Proof. rewrite <- (app_nil_r a) at 1. apply slice_app. Qed.

Lemma write_string_loop_spec cur : forall o run,
  (forall b, b ∈ run -> escape b = None) ->
  write_string_loop o (run ++ cur) cur = o ++ run ++ esc cur.
Proof.
  induction cur as [|b cur IH]; intros o run Hrun; cbn [write_string_loop]; [done|].
  destruct (escape b) as [e|] eqn:E.
  - rewrite slice_app. pose proof (IH (o ++ run ++ e) [] ltac:(set_solver)) as H.
    cbn [app] in H. rewrite H.
    unfold esc. cbn [flat_map]. rewrite E. simpl. by rewrite <- !app_assoc.
  - rewrite cons_middle, app_assoc. rewrite IH by set_solver.
    unfold esc. cbn [flat_map]. rewrite E. simpl. by rewrite <- !app_assoc.
Qed.

Lemma write_string_spec o s : write_string o s = o ++ quote s.
Proof.
  unfold write_string, quote.
  pose proof (write_string_loop_spec s (o ++ [x22]) [] ltac:(set_solver)) as H.
  cbn [app] in H. rewrite H.
  simpl. by rewrite <- !app_assoc.
Qed.

Lemma write_u64_app o u : write_u64 o u = o ++ write_u64 [] u.
Proof. done. Qed.

Lemma write_i64_app o i : write_i64 o i = o ++ write_i64 [] i.
Proof.
  unfold write_i64. cbv zeta. destruct (i <? 0); [|done].
  rewrite write_u64_app, (write_u64_app ([] ++ _)). by rewrite <- !app_assoc.
Qed.

Lemma write_json_f64_app o f : write_json_f64 o f = o ++ write_json_f64 [] f.
Proof.
  unfold write_json_f64. destruct (negb _); [done|]. cbn [length app].
  rewrite drop_app_length, drop_0. destruct (negb _); [by rewrite <- app_assoc|done].
Qed.

(** Joining in a left fold with a separator before every element but the first. *)
Lemma join_snoc sep ws w :
  join sep (ws ++ [w]) = (if decide (ws = []) then [] else join sep ws ++ sep) ++ w.
Proof.
  induction ws as [|a ws IH]; [done|]. cbn [app]. rewrite decide_False by done.
  destruct ws as [|b ws]; [by rewrite <- app_assoc|].
  change (join sep (a :: (b :: ws) ++ [w])) with (a ++ sep ++ join sep ((b :: ws) ++ [w])).
  rewrite IH. rewrite decide_False by done.
  change (join sep (a :: b :: ws)) with (a ++ sep ++ join sep (b :: ws)).
  by rewrite <- !app_assoc.
Qed.

Lemma write_bytes_spec o v : write_bytes o v = o ++ render (Value.Bytes v).
Proof.
  unfold write_bytes. cbv zeta. cbn [render]. rewrite !app_assoc. f_equal.
  induction v as [|b v IH] using rev_ind; [cbn; by rewrite app_nil_r|].
  rewrite imap_app, foldl_app, IH, map_app. cbn [foldl imap fst snd map Nat.add].
  rewrite Nat.add_0_r, join_snoc.
  destruct v as [|c v]; cbn [length map].
  - cbn [Nat.ltb Nat.leb]. rewrite decide_True by done. cbn [join app].
    by rewrite app_nil_r, write_u64_app.
  - cbn [Nat.ltb Nat.leb]. rewrite decide_False by done.
    rewrite write_u64_app, <- !app_assoc. done.
Qed.

(** One entry of a container: [sep] puts a comma unless it is the first. *)
Definition entry_sep (fst_ : bool) : bytes := if fst_ then [] else [x2c].

Lemma sep_spec o (f : bool) st : sep (mkEnc o (f :: st)) = mkEnc (o ++ entry_sep f) (false :: st).
Proof. destruct f; simpl; [by rewrite app_nil_r|done]. Qed.

(** A fold of entries through [sep] writes the joined texts. *)
Lemma fold_entries {A} (step : JsonEncoder -> A -> JsonEncoder) (txt : A -> bytes) l :
  Forall (fun x => forall o f st,
    step (mkEnc o (f :: st)) x = mkEnc (o ++ entry_sep f ++ txt x) (false :: st)) l ->
  forall o st,
  foldl step (mkEnc o (true :: st)) l =
  mkEnc (o ++ join [x2c] (map txt l)) (bool_decide (l = []) :: st).
Proof.
  induction l as [|x l IH] using rev_ind; intros H o st.
  - simpl. by rewrite app_nil_r.
  - apply Forall_app in H as [H Hx]. inv Hx. rewrite foldl_app, IH by done. cbn [foldl].
    rewrite H2, map_app. cbn [map]. rewrite join_snoc, (bool_decide_false (l ++ [x] = [])) by
      (by destruct l). f_equal.
    destruct l; [simpl; by rewrite app_nil_r|]. cbn [map]. rewrite bool_decide_false, decide_False by done.
    cbn [entry_sep]. by rewrite <- !app_assoc.
Qed.

Lemma emit_value_spec v : forall o st,
  emit_value v (mkEnc o st) = mkEnc (o ++ render v) st.
Proof.
  induction v as [|b|i|u|f|s|b|a IH|ob IH] using value_ind'; intros o st; simpl.
  - done.
  - by destruct b.
  - by rewrite write_i64_app.
  - done.
  - by rewrite write_json_f64_app.
  - by rewrite write_string_spec.
  - by rewrite write_bytes_spec.
  - rewrite (fold_entries _ render).
    + simpl. f_equal. by rewrite <- !app_assoc.
    + eapply Forall_impl; [exact IH|]. intros x Hx o' f st'. cbv beta.
      rewrite sep_spec, Hx. by rewrite <- !app_assoc.
  - rewrite (fold_entries _ (fun kx => quote (fst kx) ++ [x3a] ++ render (snd kx))).
    + simpl. f_equal. by rewrite <- !app_assoc.
    + eapply Forall_impl; [exact IH|]. intros x Hx o' f st'. cbv beta zeta.
      rewrite sep_spec, write_string_spec. cbn [out first]. unfold push_out. cbn [out first].
      rewrite Hx. by rewrite <- !app_assoc.
Qed.

Lemma to_string_render v : to_string v = render v.
Proof. unfold to_string, enc_new. by rewrite emit_value_spec. Qed.

(** ** The parser always returns, consumes input and keeps its depth *)

(** A fuelled parse that has an outcome; on success the value satisfies [Q], at
    least [k] of the [n] bytes are consumed and the depth is [d]. *)
Definition consumes {A} (Q : A -> Prop) (k n d : nat)
  (r : option (Result (A * Parser) CodecError)) : Prop :=
  match r with
  | None => False
  | Some (Err _) => True
  | Some (Ok (a, p')) => Q a /\ (length (rest p') + k <= n)%nat /\ depth p' = d
  end.

Lemma consumes_bind {A B} (Q : A -> Prop) (R : B -> Prop) k k' n n' d d' r g :
  consumes Q k n d r ->
  (forall a p', Q a -> (length (rest p') + k <= n)%nat -> depth p' = d ->
     consumes R k' n' d' (g (a, p'))) ->
  consumes R k' n' d' (fbind r g).
Proof.
  intros H Hg. destruct r as [[[a p']|]|]; simpl in *; [|done|done]. naive_solver.
Qed.

Lemma consumes_weaken {A} (Q : A -> Prop) k k' n n' d r :
  consumes Q k n d r -> (k' + n <= k + n')%nat -> consumes Q k' n' d r.
Proof.
  intros H Hk. destruct r as [[[a p']|]|]; simpl in *; [|done|done].
  destruct H as (? & ? & ?). split_and!; [done|lia|done].
Qed.

Lemma skip_ws_bytes_suffix s : exists w, s = w ++ skip_ws_bytes s.
Proof.
  induction s as [|b s [w IH]]; simpl; [by exists []|].
  destruct (is_ws b); [|by exists []]. exists (b :: w). simpl. by rewrite <- IH.
Qed.

Lemma skip_ws_length p : (length (rest (skip_ws p)) <= length (rest p))%nat.
Proof.
  simpl. destruct (skip_ws_bytes_suffix (rest p)) as [w Hw].
  rewrite Hw at 2. rewrite length_app. lia.
Qed.

Lemma bump_spec p c p' :
  bump p = (c, p') -> depth p' = depth p /\
  ((c = None /\ p' = p) \/ exists b, c = Some b /\ (length (rest p') + 1 = length (rest p))%nat).
Proof.
  unfold bump. destruct (rest p) as [|b r] eqn:E; intros [= <- <-]; [eauto|].
  split; [done|]. right. exists b. split; [done|]. simpl. lia.
Qed.

Lemma expect_spec b p p' :
  expect b p = Ok p' -> (length (rest p') + 1 = length (rest p))%nat /\ depth p' = depth p.
Proof.
  unfold expect. destruct (bump p) as [x p1] eqn:E. case_bool_decide as Hx; [|done].
  intros [= <-]. apply bump_spec in E as [Hd [[-> _]|(c & -> & Hl)]]; [done|]. by split.
Qed.

Lemma read_hex_consumes n : forall v p v' p',
  read_hex n v p = Ok (v', p') ->
  (length (rest p') + n = length (rest p))%nat /\ depth p' = depth p.
Proof.
  induction n as [|n IH]; intros v p v' p' H; simpl in H.
  { simplify_eq. split; [lia|done]. }
  destruct (bump p) as [[b|] p1] eqn:E; [|done].
  apply bump_spec in E as [Hd [[? _]|(c & Hc & Hl)]]; [done|]. simpl in H.
  destruct (to_digit 16 b); [|done]. apply IH in H as [H1 H2]. split; [lia|congruence].
Qed.

Lemma parse_unicode_escape_consumes p c p' :
  parse_unicode_escape p = Ok (c, p') ->
  (length (rest p') <= length (rest p))%nat /\ depth p' = depth p.
Proof.
  unfold parse_unicode_escape.
  destruct (read_hex4 p) as [[high p1]|] eqn:E1; [|done]. cbn [rbind].
  apply read_hex_consumes in E1 as [L1 D1]. destruct (_ && _).
  - destruct (bump p1) as [c1 p2] eqn:B1. destruct (negb _); [done|].
    destruct (bump p2) as [c2 p3] eqn:B2. destruct (negb _); [done|].
    destruct (read_hex4 p3) as [[low p4]|] eqn:E2; [|done]. cbn [rbind].
    apply read_hex_consumes in E2 as [L2 D2]. destruct (negb _); [done|].
    destruct (Utf8.char_from_u32 _); [|done]. intros [= <- <-].
    apply bump_spec in B1 as [D3 B1]. apply bump_spec in B2 as [D4 B2].
    split; [naive_solver lia|congruence].
  - destruct (Utf8.char_from_u32 _); [|done]. intros [= <- <-]. split; [lia|done].
Qed.

Lemma parse_string_escaped_total f : forall s run p,
  (length (rest p) < f)%nat ->
  consumes (fun _ => True) 1 (length (rest p)) (depth p) (parse_string_escaped f s run p).
Proof.
  induction f as [|f IH]; intros s run p Hf; [lia|]. cbn [parse_string_escaped].
  unfold peek. destruct p as [[|c r] d]; [done|]. cbn [rest head depth length] in *.
  case_bool_decide as Hq; [simpl; split_and!; [done|lia|done]|].
  case_bool_decide as Hb.
  - unfold advance. cbn [rest tail depth]. destruct r as [|e r]; [done|]. cbn [bump rest length depth] in *.
    destruct (simple_escape e) as [x|].
    + eapply consumes_weaken; [apply IH; simpl; lia|simpl; lia].
    + case_bool_decide; [|done].
      destruct (parse_unicode_escape (mkP r d)) as [[ch p2]|] eqn:E; [|done].
      apply parse_unicode_escape_consumes in E as [L D]. cbn [fbind rest depth] in *. subst d.
      eapply consumes_weaken; [apply IH; lia|lia].
  - eapply consumes_weaken; [apply IH; simpl; lia|simpl; lia].
Qed.

Lemma string_scan_total start cur d :
  consumes (fun _ => True) 1 (length cur) d (string_scan start cur d).
Proof.
  induction cur as [|c r IH]; [done|]. cbn [string_scan].
  case_bool_decide; [simpl; split_and!; [done|lia|done]|].
  case_bool_decide; [|eapply consumes_weaken; [exact IH|simpl; lia]].
  apply (parse_string_escaped_total (S (length (c :: r))) [] start (mkP (c :: r) d)). simpl. lia.
Qed.

Lemma parse_string_total p :
  consumes (fun _ => True) 2 (length (rest p)) (depth p) (parse_string p).
Proof.
  unfold parse_string. destruct (expect x22 p) as [p1|] eqn:E; [|done].
  apply expect_spec in E as [L D]. cbn [fbind]. rewrite <- D.
  eapply consumes_weaken; [apply string_scan_total|lia].
Qed.

Lemma take_literal_consumes lit p p' :
  take_literal lit p = (true, p') ->
  (length (rest p') + length lit = length (rest p))%nat /\ depth p' = depth p.
Proof.
  unfold take_literal. destruct (starts_with _ _) eqn:E; [|done]. intros [= <-].
  apply starts_with_spec in E as [r ->]. simpl. rewrite drop_app_length, length_app.
  split; [lia|done].
Qed.

Lemma number_scan_length s : forall fl, (length (number_scan fl s).2 <= length s)%nat.
Proof.
  induction s as [|b s IH]; intros fl; simpl; [lia|].
  destruct (F64.is_digit b); [etransitivity; [apply IH|lia]|].
  destruct (is_float_char b); [etransitivity; [apply IH|lia]|simpl; lia].
Qed.

Lemma parse_number_consumes p v p' b r :
  rest p = b :: r -> b = x2d \/ F64.is_digit b = true ->
  parse_number p = Ok (v, p') ->
  Value.depth v = 0%nat /\ (length (rest p') + 1 <= length (rest p))%nat /\ depth p' = depth p.
Proof.
  intros Hr Hb H. destruct p as [s d]. cbn [rest] in Hr. subst s. cbn [rest depth] in *.
  unfold parse_number in H. cbn [rest depth peek head] in H.
  assert (exists fl r', number_scan false (rest (if bool_decide (Some b = Some x2d)
            then advance (mkP (b :: r) d) else mkP (b :: r) d)) = (fl, r') /\
            (length r' <= length r)%nat) as (fl & r' & E & L).
  { case_bool_decide as Hs; simpl.
    - pose proof (number_scan_length r false). destruct (number_scan false r). eauto.
    - destruct Hb as [->|Hb]; [done|]. rewrite Hb.
      pose proof (number_scan_length r false). destruct (number_scan false r). eauto. }
  rewrite E in H. revert H.
  destruct fl; [|destruct (parse_i64 _); [|destruct (parse_u64 _)]].
  - destruct (F64.parse _); [|done]. intros [= <- <-]. simpl. split_and!; [done|lia|done].
  - intros [= <- <-]. simpl. split_and!; [done|lia|done].
  - intros [= <- <-]. simpl. split_and!; [done|lia|done].
  - destruct (F64.parse _); [|done]. intros [= <- <-]. simpl. split_and!; [done|lia|done].
Qed.

(** Values nested within what the depth limit leaves below depth [d]. *)
Definition within (d : nat) (v : Value) : Prop := (Value.depth v + d <= MAX_DEPTH)%nat.

Lemma within_array d items :
  Forall (within d) items -> (1 <= d <= MAX_DEPTH)%nat -> within (d - 1) (Value.Array items).
Proof.
  intros H Hd. unfold within. simpl. induction H as [|x l Hx _ IH]; simpl; [lia|].
  unfold within in Hx. lia.
Qed.

Lemma within_object d entries :
  Forall (fun kx => within d (snd kx)) entries -> (1 <= d <= MAX_DEPTH)%nat ->
  within (d - 1) (Value.Object entries).
Proof.
  intros H Hd. unfold within. simpl. induction H as [|x l Hx _ IH]; simpl; [lia|].
  unfold within in Hx. lia.
Qed.

(** What each of the mutually recursive functions guarantees with fuel [f]. *)
Definition value_ok (f : nat) : Prop := forall p,
  (value_fuel (length (rest p)) <= f)%nat -> (depth p <= MAX_DEPTH)%nat ->
  consumes (within (depth p)) 1 (length (rest p)) (depth p) (parse_value f p).

Definition container_ok (parse : nat -> Parser -> option (Result (Value * Parser) CodecError))
  (f : nat) : Prop := forall p,
  (1 <= length (rest p))%nat -> (3 * length (rest p) <= f)%nat -> (1 <= depth p <= MAX_DEPTH)%nat ->
  consumes (within (depth p - 1)) 1 (length (rest p)) (depth p) (parse f p).

Definition loop_ok {A} (ok : nat -> list A -> Prop)
  (loop : nat -> list A -> Parser -> option (Result (Value * Parser) CodecError))
  (f : nat) : Prop := forall acc p,
  (3 * length (rest p) + 2 <= f)%nat -> (1 <= depth p <= MAX_DEPTH)%nat -> ok (depth p) acc ->
  consumes (within (depth p - 1)) 1 (length (rest p)) (depth p) (loop f acc p).

Definition items_ok (d : nat) (l : list Value) : Prop := Forall (within d) l.
Definition entries_ok (d : nat) (l : list (bytes * Value)) : Prop :=
  Forall (fun kx => within d (snd kx)) l.

Lemma enter_spec p p' :
  enter p = Ok p' -> rest p' = rest p /\ depth p' = S (depth p) /\ (depth p' <= MAX_DEPTH)%nat.
Proof.
  unfold enter. destruct (_ <? _)%nat eqn:E; [done|]. intros [= <-].
  apply Nat.ltb_ge in E. done.
Qed.

Lemma object_loop_ok f :
  value_ok f -> loop_ok entries_ok object_loop f -> loop_ok entries_ok object_loop (S f).
Proof.
  intros HV HL acc p Hf Hd Hacc. cbn [object_loop].
  pose proof (skip_ws_length p) as W0.
  eapply consumes_bind; [apply parse_string_total|]. intros key p1 _ L1 D1.
  pose proof (skip_ws_length p1) as W1.
  destruct (expect x3a (skip_ws p1)) as [p2|] eqn:E; [|done]. apply expect_spec in E as [L2 D2].
  cbn [fbind]. cbn [skip_ws depth] in D1, D2.
  eapply consumes_bind; [apply HV; unfold value_fuel; rewrite ?D2, ?D1; lia|].
  intros v p3 Hv L3 D3. pose proof (skip_ws_length p3) as W3.
  destruct (bump (skip_ws p3)) as [c p4] eqn:B. apply bump_spec in B as [D4 B].
  cbn [skip_ws depth] in D4. assert (depth p4 = depth p) as D by congruence.
  assert (entries_ok (depth p) (acc ++ [(key, v)])) as Hacc'.
  { apply Forall_app. split; [done|]. constructor; [|done]. simpl. by rewrite <- D1, <- D2. }
  case_bool_decide as Hc; [|case_bool_decide as Hc'; [|done]].
  - rewrite <- D in *. eapply consumes_weaken; [apply HL; [naive_solver lia|done|done]|].
    naive_solver lia.
  - simpl. split_and!; [|naive_solver lia|done]. by apply within_object.
Qed.

Lemma array_loop_ok f :
  value_ok f -> loop_ok items_ok array_loop f -> loop_ok items_ok array_loop (S f).
Proof.
  intros HV HL acc p Hf Hd Hacc. cbn [array_loop].
  eapply consumes_bind; [apply HV; unfold value_fuel; lia|].
  intros v p3 Hv L3 D3. pose proof (skip_ws_length p3) as W3.
  destruct (bump (skip_ws p3)) as [c p4] eqn:B. apply bump_spec in B as [D4 B].
  cbn [skip_ws depth] in D4. assert (depth p4 = depth p) as D by congruence.
  assert (items_ok (depth p) (acc ++ [v])) as Hacc'.
  { apply Forall_app. split; [done|]. by constructor. }
  case_bool_decide as Hc; [|case_bool_decide as Hc'; [|done]].
  - rewrite <- D in *. eapply consumes_weaken; [apply HL; [naive_solver lia|done|done]|].
    naive_solver lia.
  - simpl. split_and!; [|naive_solver lia|done]. by apply within_array.
Qed.

Lemma object_ok f : loop_ok entries_ok object_loop f -> container_ok parse_object (S f).
Proof.
  intros HL p H1 Hf Hd. cbn [parse_object].
  destruct (expect x7b p) as [p1|] eqn:E; [|done]. apply expect_spec in E as [L1 D1].
  cbn [fbind]. pose proof (skip_ws_length p1) as W1. case_bool_decide as Hc.
  - simpl. split_and!; [unfold within; simpl; lia| |done].
    unfold peek in Hc. simpl in *. destruct (skip_ws_bytes (rest p1)); simpl in *; [done|lia].
  - rewrite <- D1 in *. eapply consumes_weaken.
    + apply (HL [] (skip_ws p1)); [lia|done|]. constructor.
    + lia.
Qed.

Lemma array_ok f : loop_ok items_ok array_loop f -> container_ok parse_array (S f).
Proof.
  intros HL p H1 Hf Hd. cbn [parse_array].
  destruct (expect x5b p) as [p1|] eqn:E; [|done]. apply expect_spec in E as [L1 D1].
  cbn [fbind]. pose proof (skip_ws_length p1) as W1. case_bool_decide as Hc.
  - simpl. split_and!; [unfold within; simpl; lia| |done].
    unfold peek in Hc. simpl in *. destruct (skip_ws_bytes (rest p1)); simpl in *; [done|lia].
  - rewrite <- D1 in *. eapply consumes_weaken.
    + apply (HL [] (skip_ws p1)); [lia|done|]. constructor.
    + lia.
Qed.

(** A container parse between [enter] and [leave]. *)
Lemma nested_ok parse f p :
  container_ok parse f -> (1 <= length (rest p))%nat -> (3 * length (rest p) <= f)%nat ->
  consumes (within (depth p)) 1 (length (rest p)) (depth p)
    (let! p := Some (enter p) in let! (v, p) := parse f p in Some (Ok (v, leave p))).
Proof.
  intros HC H1 Hf. destruct (enter p) as [p1|] eqn:E; [|done].
  apply enter_spec in E as (R & D & M). cbn [fbind].
  eapply consumes_bind; [apply HC; rewrite ?R, ?D in *; lia|].
  intros v p2 Hv L D2. simpl. rewrite D in *. split_and!; [|rewrite <- R; lia|lia].
  by replace (S (depth p) - 1)%nat with (depth p) in Hv by lia.
Qed.

Lemma scalar_ok p (r : Result (Value * Parser) CodecError) :
  (depth p <= MAX_DEPTH)%nat ->
  (forall v p', r = Ok (v, p') -> Value.depth v = 0%nat /\
     (length (rest p') + 1 <= length (rest p))%nat /\ depth p' = depth p) ->
  consumes (within (depth p)) 1 (length (rest p)) (depth p) (Some r).
Proof.
  intros Hd H. destruct r as [[v p']|]; [|done]. destruct (H v p') as (? & ? & ?); [done|].
  simpl. split_and!; [unfold within; lia|done|done].
Qed.

Lemma parse_bool_ok p v p' :
  parse_bool p = Ok (v, p') -> Value.depth v = 0%nat /\
  (length (rest p') + 1 <= length (rest p))%nat /\ depth p' = depth p.
Proof.
  unfold parse_bool. destruct (take_literal (b!"true") p) as [[] p1] eqn:E1.
  - intros [= <- <-]. apply take_literal_consumes in E1 as [L D]. cbn in L.
    split_and!; [done|lia|done].
  - destruct (take_literal (b!"false") p) as [[] p2] eqn:E2; [|done]. intros [= <- <-].
    apply take_literal_consumes in E2 as [L D]. cbn in L. split_and!; [done|lia|done].
Qed.

Lemma parse_null_ok p v p' :
  parse_null p = Ok (v, p') -> Value.depth v = 0%nat /\
  (length (rest p') + 1 <= length (rest p))%nat /\ depth p' = depth p.
Proof.
  unfold parse_null. destruct (take_literal (b!"null") p) as [[] p1] eqn:E1; [|done].
  intros [= <- <-]. apply take_literal_consumes in E1 as [L D]. cbn in L.
  split_and!; [done|lia|done].
Qed.

Lemma parse_value_ok f :
  container_ok parse_object f -> container_ok parse_array f -> value_ok (S f).
Proof.
  intros HO HA p0 Hf Hd. cbn [parse_value].
  pose proof (skip_ws_length p0) as W. unfold value_fuel in Hf.
  set (p := skip_ws p0) in *. change (depth p0) with (depth p) in *.
  destruct (peek p) as [b|] eqn:Hp; [|done].
  assert (exists r, rest p = b :: r) as [r Hr].
  { unfold peek in Hp. destruct (rest p); simplify_eq/=. eauto. }
  assert (1 <= length (rest p))%nat by (rewrite Hr; simpl; lia).
  eapply (consumes_weaken _ 1 _ (length (rest p))); [|lia].
  case_bool_decide; [apply nested_ok; [done|done|lia]|].
  case_bool_decide; [apply nested_ok; [done|done|lia]|].
  case_bool_decide.
  { eapply consumes_bind; [apply parse_string_total|]. intros s p1 _ L D. red.
    split_and!; [unfold within; cbn [Value.depth]; lia|lia|done]. }
  destruct (_ || _); [apply scalar_ok; [done|apply parse_bool_ok]|].
  case_bool_decide; [apply scalar_ok; [done|apply parse_null_ok]|].
  destruct (bool_decide (b = x2d) || F64.is_digit b) eqn:En; [|done].
  apply scalar_ok; [done|]. intros v p' Hn. eapply parse_number_consumes; [exact Hr| |exact Hn].
  apply orb_true_iff in En as [En|En]; [apply bool_decide_eq_true in En; by left|by right].
Qed.

Lemma parse_total f :
  value_ok f /\ container_ok parse_object f /\ loop_ok entries_ok object_loop f /\
  container_ok parse_array f /\ loop_ok items_ok array_loop f.
Proof.
  induction f as [|f (HV & HO & HOL & HA & HAL)].
  - split_and!; red; unfold value_fuel; intros; lia.
  - split_and!.
    + by apply parse_value_ok.
    + by apply object_ok.
    + by apply object_loop_ok.
    + by apply array_ok.
    + by apply array_loop_ok.
Qed.

(** C4 [json::from_str] returns on every input: the recursion never needs more than
    three nested calls per input byte, and a value it accepts nests containers at
    most [MAX_DEPTH] deep, so the recursion depth of the parser is bounded by the
    limit whatever the input. *)
Theorem from_str_total_and_depth_bounded (input : bytes) :
  from_str_fuel input <> None /\
  (forall v, from_str input = Ok v -> (Value.depth v <= MAX_DEPTH)%nat).
Proof.
  unfold from_str, from_str_fuel. destruct (parse_total (value_fuel (length input))) as (HV & _).
  pose proof (skip_ws_length (new input)) as W. cbn [new rest] in W.
  specialize (HV (skip_ws (new input)) ltac:(unfold value_fuel; lia) ltac:(cbn; lia)).
  destruct (parse_value _ _) as [[[v p]|]|]; cbn [fbind]; [|done|done].
  destruct HV as (Hw & _ & _). unfold within in Hw. cbn [new skip_ws depth] in Hw.
  case_bool_decide; [|done]. split; [done|]. intros v' [= <-]. lia.
Qed.

(** ** Round trip *)

(** Every escape the encoder writes is one the parser reads back as the byte. *)
Lemma escape_cases b e :
  escape b = Some e ->
  (exists c, e = [x5c; c] /\ simple_escape c = Some b) \/
  (exists h1 h2, e = [x5c; x75; x30; x30; h1; h2] /\ Utf8.encode_char (b2z b) = [b] /\
     forall r d, parse_unicode_escape (mkP (x30 :: x30 :: h1 :: h2 :: r) d) = Ok (b2z b, mkP r d)).
Proof.
  destruct b; intros H; cbv in H; try discriminate H; injection H as <-;
    first [ left; eexists; split; [reflexivity|reflexivity]
          | right; do 2 eexists; split; [reflexivity|]; split; reflexivity ].
Qed.

Lemma escape_none b : escape b = None -> b <> x22 /\ b <> x5c.
Proof. intros H. split; intros ->; discriminate H. Qed.

Lemma esc_cons b s :
  esc (b :: s) = match escape b with Some e => e | None => [b] end ++ esc s.
Proof. unfold esc. cbn [flat_map]. by destruct (escape b). Qed.

Lemma parse_string_escaped_rt cur : forall f s run r d,
  (forall b, b ∈ run -> escape b = None) ->
  (length (esc cur ++ x22 :: r) < f)%nat ->
  parse_string_escaped f s (run ++ esc cur ++ x22 :: r) (mkP (esc cur ++ x22 :: r) d) =
  Some (Ok (s ++ run ++ cur, mkP r d)).
Proof.
  induction cur as [|b cur IH]; intros f s run r d Hrun Hf; (destruct f as [|f]; [lia|]).
  - cbn [esc flat_map app parse_string_escaped peek rest head].
    rewrite bool_decide_true by done. rewrite slice_app, app_nil_r. done.
  - rewrite esc_cons in *. destruct (escape b) as [e|] eqn:E.
    + rewrite <- app_assoc, !length_app in *.
      destruct (escape_cases b e E) as [(c & -> & Hc)|(h1 & h2 & -> & Hch & Hu)];
        cbn [app parse_string_escaped peek rest head length] in *;
        rewrite slice_app; cbn [advance rest tail depth bump];
        (rewrite bool_decide_false by done); (rewrite bool_decide_true by done).
      * rewrite Hc. cbn [rest].
        pose proof (IH f ((s ++ run) ++ [b]) [] r d ltac:(set_solver)) as H. cbn [app] in H.
        rewrite H by (rewrite length_app; simpl; lia). by rewrite <- !app_assoc.
      * change (simple_escape x75) with (@None byte). cbv iota.
        rewrite bool_decide_true by done. rewrite Hu. cbn [fbind rest]. rewrite Hch.
        pose proof (IH f ((s ++ run) ++ [b]) [] r d ltac:(set_solver)) as H. cbn [app] in H.
        rewrite H by (rewrite length_app; simpl; lia). by rewrite <- !app_assoc.
    + destruct (escape_none b E) as [H1 H2].
      cbn [app parse_string_escaped peek rest head advance tail depth] in *.
      rewrite bool_decide_false by done. rewrite bool_decide_false by done.
      rewrite (cons_middle b run), (app_assoc run [b]). 
 unfold advance. cbn [rest tail depth].
      rewrite IH; [by rewrite <- app_assoc|set_solver|].
      simpl in *. lia.
Qed.

Lemma string_scan_rt cur : forall run r d,
  (forall b, b ∈ run -> escape b = None) ->
  string_scan (run ++ esc cur ++ x22 :: r) (esc cur ++ x22 :: r) d = Some (Ok (run ++ cur, mkP r d)).
Proof.
  induction cur as [|b cur IH]; intros run r d Hrun.
  - cbn [esc flat_map app string_scan]. rewrite bool_decide_true by done.
    by rewrite slice_app, app_nil_r.
  - destruct (escape b) as [e|] eqn:E.
    + pose proof (parse_string_escaped_rt (b :: cur) (S (length (esc (b :: cur) ++ x22 :: r)))
        [] run r d Hrun ltac:(lia)) as H.
      rewrite esc_cons, E in *.
      destruct (escape_cases b e E) as [(c & -> & _)|(h1 & h2 & -> & _)];
        cbn [app string_scan] in *; (rewrite bool_decide_false by done);
        (rewrite bool_decide_true by done); exact H.
    + destruct (escape_none b E) as [H1 H2]. rewrite esc_cons, E. cbn [app string_scan].
      rewrite bool_decide_false by done. rewrite bool_decide_false by done.
      rewrite (cons_middle b run), (app_assoc run [b]). rewrite IH; [by rewrite <- app_assoc|set_solver].
Qed.

Lemma parse_string_rt s r d : parse_string (mkP (quote s ++ r) d) = Some (Ok (s, mkP r d)).
Proof.
  unfold quote. rewrite <- !app_assoc. unfold parse_string, expect.
  cbn [app bump rest depth]. rewrite bool_decide_true by done. cbn [fbind rest depth].
  apply (string_scan_rt s [] r d). set_solver.
Qed.

(** What may follow a number: nothing that extends the scan. *)
Definition num_end (r : bytes) : Prop :=
  match r with
  | [] => True
  | b :: _ => F64.is_digit b = false /\ is_float_char b = false
  end.

Lemma number_scan_digits ds : forall fl r,
  Forall (fun b => F64.is_digit b = true) ds -> num_end r -> number_scan fl (ds ++ r) = (fl, r).
Proof.
  induction ds as [|b ds IH]; intros fl r H Hr; cbn [app number_scan].
  - destruct r as [|c r]; [done|]. destruct Hr as [H1 H2]. simpl. by rewrite H1, H2.
  - inv H. rewrite H2. by apply IH.
Qed.

Lemma number_scan_dec t : forall fl r,
  Forall (fun b => dec_char b = true) t -> num_end r ->
  number_scan fl (t ++ r) = (fl || bool_decide (x2e ∈ t), r).
Proof.
  induction t as [|b t IH]; intros fl r H Hr; cbn [app].
  - rewrite bool_decide_false by set_solver. rewrite orb_false_r.
    by apply (number_scan_digits [] fl r).
  - inv H. cbn [number_scan]. unfold dec_char in H2. destruct (F64.is_digit b) eqn:Eb.
    + rewrite IH by done. do 2 f_equal. apply bool_decide_ext. split; [set_solver|].
      intros [<-|]%elem_of_cons; [done|done].
    + apply bool_decide_eq_true in H2 as ->.
      change (is_float_char x2e) with true. cbv iota.
      rewrite IH by done. by rewrite (bool_decide_true (x2e ∈ x2e :: t)), orb_true_r by set_solver.
Qed.

(** The common part of reading a number back. *)
Lemma parse_number_rt (neg : bool) c t r d fl :
  F64.is_digit c = true -> number_scan false (t ++ r) = (fl, r) ->
  let text := (if neg then [x2d] else []) ++ c :: t in
  parse_number (mkP (text ++ r) d) =
  let as_float :=
    let? f := ok_or (F64.parse text) (Parse (b!"invalid number: " ++ text)) in
    Ok (Value.Float f, mkP r d) in
  if fl then as_float
  else match parse_i64 text with
       | Some i => Ok (Value.Int i, mkP r d)
       | None => match parse_u64 text with
                 | Some u => Ok (Value.UInt u, mkP r d)
                 | None => as_float
                 end
       end.
Proof.
  intros Hc Hscan text. unfold parse_number. cbn [rest depth].
  assert (number_scan false (rest (if bool_decide (peek (mkP (text ++ r) d) = Some x2d)
    then advance (mkP (text ++ r) d) else mkP (text ++ r) d)) = (fl, r)) as ->.
  { subst text. destruct neg; cbn [app peek rest head advance tail].
    - rewrite bool_decide_true by done. unfold advance. cbn [rest tail number_scan]. by rewrite Hc.
    - rewrite bool_decide_false by (intros [= ->]; done). cbn [rest number_scan]. by rewrite Hc. }
  rewrite slice_app. done.
Qed.

Lemma skip_ws_id b r d : is_ws b = false -> skip_ws (mkP (b :: r) d) = mkP (b :: r) d.
Proof. intros H. unfold skip_ws. cbn [rest depth skip_ws_bytes]. by rewrite H. Qed.

Lemma skip_ws_quote s r d : skip_ws (mkP (quote s ++ r) d) = mkP (quote s ++ r) d.
Proof. by apply skip_ws_id. Qed.

Lemma digit_neq b c : F64.is_digit b = true -> F64.is_digit c = false -> b <> c.
Proof. congruence. Qed.

Lemma digit_not_ws b : F64.is_digit b = true -> is_ws b = false.
Proof. intros H. unfold is_ws. by rewrite !bool_decide_false by (by apply digit_neq). Qed.

(** A value that starts like a number is read by [parse_number]. *)
Lemma parse_value_number f (neg : bool) c t r d :
  F64.is_digit c = true ->
  let s := (if neg then [x2d] else []) ++ c :: t in
  parse_value (S f) (mkP (s ++ r) d) = Some (parse_number (mkP (s ++ r) d)).
Proof.
  intros Hc s. subst s. destruct neg; cbn [app parse_value].
  - rewrite skip_ws_id by done. reflexivity.
  - rewrite skip_ws_id by (by apply digit_not_ws). unfold peek. cbn [rest head].
    rewrite !(bool_decide_false (c = _)) by (by apply digit_neq). by rewrite Hc.
Qed.

Lemma take_literal_rt lit r d : take_literal lit (mkP (lit ++ r) d) = (true, mkP r d).
Proof.
  unfold take_literal. cbn [rest depth]. by rewrite starts_with_app, drop_app_length.
Qed.

Lemma parse_value_null f r d :
  parse_value (S f) (mkP (b!"null" ++ r) d) = Some (Ok (Value.Null, mkP r d)).
Proof.
  transitivity (Some (parse_null (mkP (b!"null" ++ r) d))); [done|].
  unfold parse_null. by rewrite take_literal_rt.
Qed.

Lemma parse_value_bool f (b : bool) r d :
  parse_value (S f) (mkP ((if b then b!"true" else b!"false") ++ r) d) =
  Some (Ok (Value.Bool b, mkP r d)).
Proof.
  transitivity (Some (parse_bool (mkP ((if b then b!"true" else b!"false") ++ r) d)));
    [by destruct b|].
  unfold parse_bool. destruct b; [by rewrite take_literal_rt|].
  rewrite (take_literal_rt (b!"false")). done.
Qed.

(** The parse of [render v], whatever follows. *)
Definition reads (v w : Value) : Prop := forall f r d,
  (value_fuel (length (render v ++ r)) <= f)%nat -> num_end r ->
  (Value.depth v + d <= MAX_DEPTH)%nat ->
  parse_value f (mkP (render v ++ r) d) = Some (Ok (w, mkP r d)).

(** The first byte of a rendered value. *)
Definition starts_ok (s : bytes) : Prop :=
  exists c t, s = c :: t /\ is_ws c = false /\ c <> x5d /\ c <> x7d.

Lemma starts_ok_number (neg : bool) c t :
  F64.is_digit c = true -> starts_ok ((if neg then [x2d] else []) ++ c :: t).
Proof.
  intros Hc. destruct neg; [by exists x2d, (c :: t)|].
  exists c, t. split_and!; [done|by apply digit_not_ws|by apply digit_neq|by apply digit_neq].
Qed.

Lemma write_i64_shape i :
  i64_min <= i <= i64_max ->
  exists (neg : bool) c t, write_i64 [] i = (if neg then [x2d] else []) ++ c :: t /\
    F64.is_digit c = true /\ Forall (fun b => F64.is_digit b = true) t.
Proof.
  intros Hi. unfold write_i64. rewrite write_u64_app. unfold i64_min, i64_max in Hi.
  destruct (write_u64_digits [] (Z.abs i)) as (ds & -> & Hne & Hd & _); [unfold u64_max; lia|].
  destruct ds as [|c t]; [done|]. inv Hd. exists (i <? 0), c, t. by destruct (i <? 0).
Qed.

Lemma write_u64_shape u :
  0 <= u <= u64_max ->
  exists c t, write_u64 [] u = c :: t /\
    F64.is_digit c = true /\ Forall (fun b => F64.is_digit b = true) t.
Proof.
  intros Hu. destruct (write_u64_digits [] u Hu) as (ds & -> & Hne & Hd & _).
  destruct ds as [|c t]; [done|]. inv Hd. by exists c, t.
Qed.

Lemma value_fuel_S n f : (value_fuel n <= f)%nat -> exists f', f = S f' /\ (3 * n <= f')%nat.
Proof. unfold value_fuel. intros H. exists (f - 1)%nat. lia. Qed.

Lemma reads_int i : i64_min <= i <= i64_max -> reads (Value.Int i) (Value.Int i).
Proof.
  intros Hi f r d Hf Hr _. apply value_fuel_S in Hf as (f' & -> & _). cbn [render].
  pose proof (parse_i64_write_i64 i Hi) as Hp.
  destruct (write_i64_shape i Hi) as (neg & c & t & E & Hc & Ht). rewrite E in *.
  rewrite parse_value_number by done.
  rewrite (parse_number_rt neg c t r d false) by (done || by apply number_scan_digits).
  cbv zeta. by rewrite Hp.
Qed.

Lemma reads_uint u :
  0 <= u <= u64_max -> reads (Value.UInt u) (norm (Value.UInt u)).
Proof.
  intros Hu f r d Hf Hr _. apply value_fuel_S in Hf as (f' & -> & _). cbn [render norm].
  pose proof (parse_u64_write_u64 u Hu) as Hp. pose proof (parse_i64_write_u64 u Hu) as Hi.
  destruct (write_u64_shape u Hu) as (c & t & E & Hc & Ht). rewrite E in *.
  pose proof (parse_value_number f' false c t r d Hc) as H0. cbn [app] in H0 |- *. rewrite H0.
  pose proof (parse_number_rt false c t r d false Hc (number_scan_digits t false r Ht Hr)) as H.
  cbn [app] in H. rewrite H, Hi. destruct (u <=? i64_max); [done|]. by rewrite Hp.
Qed.

Lemma reads_float x : encodable (Value.Float x) = true -> reads (Value.Float x) (norm (Value.Float x)).
Proof.
  intros He f r d Hf Hr _. apply value_fuel_S in Hf as (f' & -> & _). cbn [render norm encodable] in *.
  destruct (F64.is_finite x) eqn:Ef; cbn [negb orb] in He.
  - apply bool_decide_eq_true in He.
    destruct (json_float_shape x Ef) as (neg & c & t & E & Hc & Ht & Hdot). rewrite E in *.
    rewrite parse_value_number by done.
    rewrite (parse_number_rt neg c t r d true Hc).
    + cbv zeta. rewrite He. done.
    + rewrite number_scan_dec by done. by rewrite bool_decide_true.
  - unfold write_json_f64. rewrite Ef. cbn [negb app].
    by apply (parse_value_null f').
Qed.

Lemma render_starts v : encodable v = true -> starts_ok (render v).
Proof.
  destruct v as [|b|i|u|x|s|b|a|o]; intros He; cbn [render encodable] in *;
    try (by eexists _, _; split_and!; [reflexivity|..]).
  - destruct b; by eexists _, _; split_and!; [reflexivity|..].
  - zbool. destruct (write_i64_shape i) as (neg & c & t & -> & Hc & _); [lia|].
    by apply starts_ok_number.
  - zbool. destruct (write_u64_shape u) as (c & t & -> & Hc & _); [lia|].
    by apply (starts_ok_number false).
  - destruct (F64.is_finite x) eqn:Ef.
    + destruct (json_float_shape x Ef) as (neg & c & t & -> & Hc & _). by apply starts_ok_number.
    + unfold write_json_f64. rewrite Ef. by eexists _, _; split_and!; [reflexivity|..].
Qed.

Lemma join_cons sep w ws : ws <> [] -> join sep (w :: ws) = w ++ sep ++ join sep ws.
Proof. by destruct ws. Qed.

(** Elements that read back, nested within what is left of the depth limit. *)
Definition elem_ok {A} (val : A -> Value) (d : nat) (x : A) : Prop :=
  reads (val x) (norm (val x)) /\ starts_ok (render (val x)) /\ (Value.depth (val x) + d <= MAX_DEPTH)%nat.

(** Length arithmetic on concatenations. *)
Ltac lens :=
  unfold value_fuel, id in *;
  repeat progress (rewrite ?length_app in *; cbn [length] in * ); lia.

Lemma array_loop_rt a : forall f acc r d,
  a <> [] -> Forall (elem_ok id d) a ->
  (3 * length (join [x2c] (map render a) ++ x5d :: r) + 2 <= f)%nat ->
  array_loop f acc (mkP (join [x2c] (map render a) ++ x5d :: r) d) =
  Some (Ok (Value.Array (acc ++ map norm a), mkP r d)).
Proof.
  induction a as [|v a IH]; intros f acc r d Ha H Hf; [done|].
  inv H. destruct H2 as (Hv & _ & Hd). destruct f as [|f]; [lia|]. cbn [array_loop map] in *.
  destruct a as [|v' a].
  - cbn [map join] in *. rewrite Hv; [|lens|done|done].
    cbn [fbind]. rewrite skip_ws_id by done. cbn [bump rest].
    rewrite bool_decide_false by done. by rewrite bool_decide_true.
  - rewrite join_cons in * by done. rewrite <- !app_assoc in *. cbn [app] in *.
   
    rewrite Hv; [|lens|done|done].
    cbn [fbind]. rewrite skip_ws_id by done. cbn [bump rest depth].
    rewrite bool_decide_true by done.
    rewrite IH; [by rewrite <- app_assoc|done|done|]. lens.
Qed.

Lemma object_loop_rt o : forall f acc r d,
  o <> [] -> Forall (elem_ok snd d) o ->
  let txt := join [x2c] (map (fun kx => quote (fst kx) ++ [x3a] ++ render (snd kx)) o) ++ x7d :: r in
  (3 * length txt + 2 <= f)%nat ->
  object_loop f acc (mkP txt d) =
  Some (Ok (Value.Object (acc ++ map (fun kx => (fst kx, norm (snd kx))) o), mkP r d)).
Proof.
  induction o as [|[k v] o IH]; intros f acc r d Ho H txt Hf; [done|]. subst txt.
  inv H. destruct H2 as (Hv & Hs & Hd). destruct f as [|f]; [lia|]. cbn [object_loop map fst snd] in *.
  destruct o as [|kx o].
  - cbn [map join] in *. rewrite <- !app_assoc in *.
    rewrite skip_ws_quote, parse_string_rt. cbn [fbind app] in *. rewrite skip_ws_id by done.
    unfold expect. cbn [bump rest depth]. rewrite bool_decide_true by done. cbn [fbind].
    rewrite Hv; [|lens|done|done].
    cbn [fbind]. rewrite skip_ws_id by done. cbn [bump rest].
    rewrite bool_decide_false by done. by rewrite bool_decide_true.
  - rewrite join_cons in * by done. rewrite <- !app_assoc in *.
    rewrite skip_ws_quote, parse_string_rt. cbn [fbind app] in *. rewrite skip_ws_id by done.
    unfold expect. cbn [bump rest depth]. rewrite bool_decide_true by done. cbn [fbind].
    rewrite Hv; [|lens|done|done].
    cbn [fbind]. rewrite skip_ws_id by done. cbn [bump rest depth].
    rewrite bool_decide_true by done.
    rewrite IH; [by rewrite <- app_assoc|done|done|]. lens.
Qed.

(** The dispatch of [parse_value] on an opening bracket. *)
Lemma parse_value_open (obj : bool) f t d :
  (S d <= MAX_DEPTH)%nat ->
  let s := (if obj then x7b else x5b) :: t in
  parse_value (S f) (mkP s d) =
  let! (v, p) := (if obj then parse_object else parse_array) f (mkP s (S d)) in
  Some (Ok (v, leave p)).
Proof.
  intros Hd s. subst s. cbn [parse_value].
  assert (enter (mkP ((if obj then x7b else x5b) :: t) d) = Ok (mkP ((if obj then x7b else x5b) :: t) (S d))) as E.
  { unfold enter. cbn [depth rest]. by rewrite (proj2 (Nat.ltb_ge _ _)). }
  rewrite skip_ws_id by (by destruct obj). cbn [peek rest head].
  destruct obj; [by rewrite bool_decide_true, E by done|].
  rewrite bool_decide_false by done. by rewrite bool_decide_true, E by done.
Qed.

Lemma reads_array v a :
  render v = [x5b] ++ join [x2c] (map render a) ++ [x5d] ->
  (forall d, (Value.depth v + d <= MAX_DEPTH)%nat ->
     (S d <= MAX_DEPTH)%nat /\ Forall (elem_ok id (S d)) a) ->
  reads v (Value.Array (map norm a)).
Proof.
  intros Hren Hok f r d Hf Hr Hd. destruct (Hok d Hd) as [HD Ha].
  apply value_fuel_S in Hf as (f' & -> & Hf). rewrite Hren, <- !app_assoc in *. cbn [app length] in *.
  rewrite (parse_value_open false) by done. destruct f' as [|f']; [lia|]. cbn [parse_array].
  unfold expect. cbn [bump rest depth]. rewrite bool_decide_true by done. cbn [fbind].
  destruct a as [|x a].
  - cbn [map join app]. rewrite skip_ws_id by done. cbn [peek rest head].
    rewrite bool_decide_true by done. cbn [fbind]. unfold leave, advance. cbn [rest depth tail].
    by rewrite Nat.sub_succ, Nat.sub_0_r.
  - assert (starts_ok (join [x2c] (map render (x :: a)) ++ x5d :: r)) as (c & t & E & Hws & Hc & _).
    { inv Ha. destruct H1 as (_ & (c & t & E & ?) & _). cbn [map]. unfold id in E.
      destruct a; [cbn [map join]|rewrite join_cons by done]; rewrite E; repeat eexists; naive_solver. }
    rewrite E, skip_ws_id by done. cbn [peek rest head]. rewrite bool_decide_false by congruence.
    rewrite <- E in *. rewrite array_loop_rt; [|done|done|lia]. cbn [fbind].
    unfold leave. cbn [rest depth]. by rewrite Nat.sub_succ, Nat.sub_0_r.
Qed.

Lemma reads_object o :
  (forall d, (Value.depth (Value.Object o) + d <= MAX_DEPTH)%nat ->
     (S d <= MAX_DEPTH)%nat /\ Forall (elem_ok snd (S d)) o) ->
  reads (Value.Object o) (norm (Value.Object o)).
Proof.
  intros Hok f r d Hf Hr Hd. destruct (Hok d Hd) as [HD Ha].
  apply value_fuel_S in Hf as (f' & -> & Hf). cbn [render norm] in *.
  rewrite <- !app_assoc in *. cbn [app length] in *.
  rewrite (parse_value_open true) by done. destruct f' as [|f']; [lia|]. cbn [parse_object].
  unfold expect. cbn [bump rest depth]. rewrite bool_decide_true by done. cbn [fbind].
  destruct o as [|[k x] o].
  - cbn [map join app]. rewrite skip_ws_id by done. cbn [peek rest head].
    rewrite bool_decide_true by done. cbn [fbind]. unfold leave, advance. cbn [rest depth tail].
    by rewrite Nat.sub_succ, Nat.sub_0_r.
  - set (txt := join _ _ ++ _) in *. assert (exists t, txt = x22 :: t) as [t E].
    { subst txt. cbn [map]. destruct o; [cbn [map join]|rewrite join_cons by done]; by eexists. }
    rewrite E, skip_ws_id by done. cbn [peek rest head]. rewrite bool_decide_false by done.
    rewrite <- E in *. subst txt. rewrite object_loop_rt; [|done|done|cbn [app length] in *; lia]. cbn [fbind].
    unfold leave. cbn [rest depth]. by rewrite Nat.sub_succ, Nat.sub_0_r.
Qed.

Lemma elem_ok_int b d : (d <= MAX_DEPTH)%nat -> elem_ok id d (Value.Int (b2z b)).
Proof.
  intros Hd. pose proof (b2z_range b). unfold elem_ok, id. split_and!.
  - apply reads_int. unfold i64_min, i64_max. lia.
  - apply render_starts. cbn [encodable]. unfold i64_min, i64_max.
    apply andb_true_iff. rewrite !Z.leb_le. lia.
  - cbn [Value.depth]. lia.
Qed.

Lemma render_bytes b :
  render (Value.Bytes b) = [x5b] ++ join [x2c] (map render (map (fun x => Value.Int (b2z x)) b)) ++ [x5d].
Proof.
  cbn [render]. rewrite map_map. do 3 f_equal. apply map_ext. intros x. cbn [render].
  unfold write_i64. pose proof (b2z_range x). rewrite (proj2 (Z.ltb_ge _ _)) by lia.
  cbv zeta. by rewrite Z.abs_eq by lia.
Qed.

Lemma reads_norm v : encodable v = true -> reads v (norm v).
Proof.
  induction v as [|b|i|u|x|s|b|a IH|o IH] using value_ind'; intros He.
  - intros f r d Hf _ _. apply value_fuel_S in Hf as (f' & -> & _). apply parse_value_null.
  - intros f r d Hf _ _. apply value_fuel_S in Hf as (f' & -> & _). apply parse_value_bool.
  - cbn [encodable] in He. zbool. apply reads_int. lia.
  - cbn [encodable] in He. zbool. apply reads_uint. lia.
  - by apply reads_float.
  - intros f r d Hf _ _. apply value_fuel_S in Hf as (f' & -> & _). cbn [render norm].
    cbn [parse_value]. rewrite skip_ws_quote. change (peek (mkP (quote s ++ r) d)) with (Some x22).
    cbv iota beta.
    rewrite !bool_decide_false by done. rewrite bool_decide_true by done.
    by rewrite parse_string_rt.
  - cbn [norm]. replace (map (fun x => Value.Int (b2z x)) b)
      with (map norm (map (fun x => Value.Int (b2z x)) b)) by (rewrite map_map; done).
    apply reads_array; [apply render_bytes|]. intros d Hd. cbn [Value.depth] in Hd. split; [lia|].
    apply Forall_map, Forall_true. intros x. apply elem_ok_int. lia.
  - apply reads_array; [done|]. intros d Hd.
    split; [cbn [Value.depth] in Hd; lia|].
    apply Forall_forall. intros x Hx. rewrite Forall_forall in IH. cbn [encodable] in He.
    rewrite forallb_forall in He. pose proof (depth_array_elem a x Hx).
    apply list_elem_of_In in Hx as Hx'. split_and!; [by apply IH, He|by apply render_starts, He|unfold id; lia].
  - apply reads_object. intros d Hd. split; [cbn [Value.depth] in Hd; lia|].
    apply Forall_forall. intros x Hx. rewrite Forall_forall in IH. cbn [encodable] in He.
    rewrite forallb_forall in He. pose proof (depth_object_elem o x Hx).
    apply list_elem_of_In in Hx as Hx'. split_and!; [by apply IH, He|by apply render_starts, He|lia].
Qed.

Lemma from_str_to_string v :
  encodable v = true -> (Value.depth v <= MAX_DEPTH)%nat -> from_str (to_string v) = Ok (norm v).
Proof.
  intros He Hd. unfold from_str, from_str_fuel, new. rewrite to_string_render.
  destruct (render_starts v He) as (c & t & E & Hws & _).
  pose proof (reads_norm v He (value_fuel (length (render v))) [] 0%nat) as H.
  rewrite app_nil_r in H. specialize (H ltac:(lia) I ltac:(lia)).
  rewrite E at 2. rewrite skip_ws_id by done. rewrite <- E, H. done.
Qed.

(** C1 JSON round trip: for every value within the machine-integer ranges and the depth
    limit whose floats print faithfully, parsing the encoder's output gives the
    value back, up to the documented normalisation (bytes as arrays, unsigned
    integers that fit as signed, non-finite floats as null). *)
Theorem json_roundtrip (v : Value) :
  encodable v = true -> (Value.depth v <= MAX_DEPTH)%nat ->
  from_str (to_string v) = Ok (norm v).
Proof. apply from_str_to_string. Qed.

Lemma json_roundtrip_witness :
  from_str (to_string (Value.Object [(b!"a", Value.Array [Value.UInt 7; Value.Str [x22; x01];
    Value.Bytes [x00; xff]; Value.Float (F64.of_Z 3); Value.Int i64_min])])) =
  Ok (norm (Value.Object [(b!"a", Value.Array [Value.UInt 7; Value.Str [x22; x01];
    Value.Bytes [x00; xff]; Value.Float (F64.of_Z 3); Value.Int i64_min])])).
Proof.
  apply (json_roundtrip (Value.Object [(b!"a", Value.Array [Value.UInt 7; Value.Str [x22; x01];
    Value.Bytes [x00; xff]; Value.Float (F64.of_Z 3); Value.Int i64_min])]));
    [vm_compute; reflexivity|vm_compute; lia].
Defined.

(** ** The streaming decoder agrees with the tree parser *)

(** More fuel does not change an outcome. *)
Definition refines {A} (r r' : option A) : Prop := forall x, r = Some x -> r' = Some x.

Lemma refines_bind {A B} (r r' : option (Result A CodecError)) (g g' : A -> option (Result B CodecError)) :
  refines r r' -> (forall a, refines (g a) (g' a)) -> refines (fbind r g) (fbind r' g').
Proof.
  intros H Hg x Hx. destruct r as [[a|e]|]; cbn [fbind] in Hx; [| |done].
  - rewrite (H (Ok a)) by done. by apply Hg.
  - rewrite (H (Err e)) by done. done.
Qed.

Lemma refines_refl {A} (r : option A) : refines r r.
Proof. by intros x. Qed.

Lemma fuel_mono f :
  (forall p, refines (parse_value f p) (parse_value (S f) p)) /\
  (forall p, refines (parse_object f p) (parse_object (S f) p)) /\
  (forall acc p, refines (object_loop f acc p) (object_loop (S f) acc p)) /\
  (forall p, refines (parse_array f p) (parse_array (S f) p)) /\
  (forall acc p, refines (array_loop f acc p) (array_loop (S f) acc p)).
Proof.
  induction f as [|f (HV & HO & HOL & HA & HAL)]; [by split_and!|].
  split_and!.
  - intros p. cbn [parse_value]. destruct (peek _); [|apply refines_refl].
    repeat (case_bool_decide; [apply refines_bind; [apply refines_refl|];
      intros; apply refines_bind; [first [apply HO|apply HA]|intros []; apply refines_refl]|]).
    apply refines_refl.
  - intros p. cbn [parse_object]. apply refines_bind; [apply refines_refl|]. intros p1.
    case_bool_decide; [apply refines_refl|apply HOL].
  - intros acc p. cbn [object_loop]. apply refines_bind; [apply refines_refl|]. intros [k p1].
    apply refines_bind; [apply refines_refl|]. intros p2.
    apply refines_bind; [apply HV|]. intros [v p3]. destruct (bump _).
    case_bool_decide; [apply HOL|apply refines_refl].
  - intros p. cbn [parse_array]. apply refines_bind; [apply refines_refl|]. intros p1.
    case_bool_decide; [apply refines_refl|apply HAL].
  - intros acc p. cbn [array_loop]. apply refines_bind; [apply HV|]. intros [v p3].
    destruct (bump _). case_bool_decide; [apply HAL|apply refines_refl].
Qed.

Lemma fuel_mono_le f f' p : (f <= f')%nat -> refines (parse_value f p) (parse_value f' p).
Proof.
  induction 1 as [|f' _ IH]; [apply refines_refl|]. intros x Hx.
  by apply (fuel_mono f'), IH.
Qed.

Lemma skip_ws_idem p : skip_ws (skip_ws p) = skip_ws p.
Proof.
  unfold skip_ws. cbn [rest depth]. f_equal. induction (rest p) as [|b r IH]; [done|].
  cbn [skip_ws_bytes]. destruct (is_ws b) eqn:E; [done|]. cbn [skip_ws_bytes]. by rewrite E.
Qed.

(** [decode_value] with its own fuel is [parse_value] with any sufficient fuel. *)
Lemma decode_value_eq f p :
  (value_fuel (length (rest p)) <= f)%nat -> (depth p <= MAX_DEPTH)%nat ->
  decode_value (value_fuel (length (rest p))) p = parse_value f p.
Proof.
  intros Hf Hd. unfold decode_value.
  assert (forall g, parse_value g (skip_ws p) = parse_value g p) as ->.
  { intros g. destruct g; [done|]. cbn [parse_value]. by rewrite skip_ws_idem. }
  destruct (parse_total (value_fuel (length (rest p)))) as (HV & _).
  specialize (HV p ltac:(lia) Hd).
  destruct (parse_value (value_fuel _) p) as [r|] eqn:E; [|done].
  by rewrite (fuel_mono_le _ f p Hf r E).
Qed.

Lemma seq_loop_array_loop n : forall f acc p,
  (length (rest p) < n)%nat -> (3 * length (rest p) + 2 <= f)%nat -> (depth p <= MAX_DEPTH)%nat ->
  (let! (l, p) := seq_loop n (fun out p =>
     let! (v, p) := decode_value (value_fuel (length (rest p))) p in Some (Ok (out ++ [v], p))) acc p in
   Some (Ok (Value.Array l, p))) =
  (let! (v, p) := array_loop f acc p in Some (Ok (v, leave p))).
Proof.
  induction n as [|n IH]; intros f acc p Hn Hf Hd; [lia|]. destruct f as [|f]; [lia|].
  cbn [seq_loop array_loop]. rewrite (decode_value_eq f) by (done || (unfold value_fuel; lia)).
  destruct (parse_total f) as (HV & _). specialize (HV p ltac:(unfold value_fuel; lia) Hd).
  destruct (parse_value f p) as [[[v p1]|]|]; [|done|done]. destruct HV as (_ & L1 & D1).
  cbn [fbind]. pose proof (skip_ws_length p1) as W.
  destruct (bump (skip_ws p1)) as [c p2] eqn:B. apply bump_spec in B as [D2 B].
  cbn [skip_ws depth] in D2. case_bool_decide as Hc; [|by case_bool_decide].
  apply IH; [naive_solver lia|naive_solver lia|lia].
Qed.

Lemma object_loop_object f : forall acc p v p',
  object_loop f acc p = Some (Ok (v, p')) -> exists o, v = Value.Object o.
Proof.
  induction f as [|f IH]; intros acc p v p' H; [done|]. cbn [object_loop] in H.
  destruct (parse_string _) as [[[k p1]|]|]; [|done|done]. cbn [fbind] in H.
  destruct (expect _ _) as [p2|]; [|done]. cbn [fbind] in H.
  destruct (parse_value f p2) as [[[x p3]|]|]; [|done|done]. cbn [fbind] in H.
  destruct (bump _) as [c p4]. case_bool_decide; [by eapply IH|].
  case_bool_decide; [|done]. simplify_eq. eauto.
Qed.

Lemma array_loop_array f : forall acc p v p',
  array_loop f acc p = Some (Ok (v, p')) -> exists l, v = Value.Array l.
Proof.
  induction f as [|f IH]; intros acc p v p' H; [done|]. cbn [array_loop] in H.
  destruct (parse_value f p) as [[[x p3]|]|]; [|done|done]. cbn [fbind] in H.
  destruct (bump _) as [c p4]. case_bool_decide; [by eapply IH|].
  case_bool_decide; [|done]. simplify_eq. eauto.
Qed.

(** The text a value was read from starts like the value. *)
Definition starts_like (v : Value) (p : Parser) : Prop :=
  match v with
  | Value.Null => starts_with (rest p) (b!"null") = true
  | Value.Str _ => peek p = Some x22
  | Value.Array _ => peek p = Some x5b
  | Value.Object _ => peek p = Some x7b
  | Value.Bytes _ => False
  | _ => True
  end.

Lemma parse_value_starts f p v p' : parse_value f p = Some (Ok (v, p')) -> starts_like v (skip_ws p).
Proof.
  destruct f as [|f]; [done|]. cbn [parse_value]. destruct (peek _) as [b|] eqn:Ep; [|done].
  case_bool_decide; [|case_bool_decide].
  { destruct (enter _) as [p1|]; [|done]. cbn [fbind].
    destruct f as [|f]; [done|]. cbn [parse_object].
    destruct (expect _ _) as [p2|]; [|done]. cbn [fbind]. case_bool_decide; [intros [= <- <-]; by subst|].
    destruct (object_loop _ _ _) as [[[w p3]|]|] eqn:E; [|done|done].
    apply object_loop_object in E as [o ->]. intros [= <- <-]. by subst. }
  { destruct (enter _) as [p1|]; [|done]. cbn [fbind].
    destruct f as [|f]; [done|]. cbn [parse_array].
    destruct (expect _ _) as [p2|]; [|done]. cbn [fbind]. case_bool_decide; [intros [= <- <-]; by subst|].
    destruct (array_loop _ _ _) as [[[w p3]|]|] eqn:E; [|done|done].
    apply array_loop_array in E as [o ->]. intros [= <- <-]. by subst. }
  case_bool_decide; [destruct (parse_string _) as [[[]|]|]; [|done|done]; intros [= <- <-]; by subst|].
  destruct (_ || _); [unfold parse_bool; repeat destruct (take_literal _ _) as [[] ?]; intros; by simplify_eq|].
  case_bool_decide.
  { unfold parse_null, take_literal. destruct (starts_with _ _) eqn:E; [|done]. by intros [= <- <-]. }
  destruct (_ || _); [|done]. unfold parse_number. destruct (number_scan _ _) as [[] r].
  - destruct (F64.parse _); [|done]. by intros [= <- <-].
  - destruct (parse_i64 _); [by intros [= <- <-]|]. destruct (parse_u64 _); [by intros [= <- <-]|].
    destruct (F64.parse _); [|done]. by intros [= <- <-].
Qed.

(** On text that starts with a bracket the two parsers do the same. *)
Lemma read_seq_parse_value f p r d :
  skip_ws p = mkP (x5b :: r) d -> (d <= MAX_DEPTH)%nat -> (value_fuel (length (rest (skip_ws p))) <= f)%nat ->
  parse_value f p = (let! (l, p) := vec_value_decode_from p in Some (Ok (Value.Array l, p))).
Proof.
  intros Hp Hd Hf. rewrite Hp in Hf. apply value_fuel_S in Hf as (f' & -> & Hf).
  unfold vec_value_decode_from, read_seq. rewrite Hp. cbn [length rest] in Hf.
  cbn [parse_value]. rewrite Hp. change (peek (mkP (x5b :: r) d)) with (Some x5b). cbv iota beta.
  rewrite bool_decide_false, bool_decide_true by done.
  unfold expect, enter. cbn [bump rest depth]. rewrite bool_decide_true by done. cbn [fbind depth rest].
  destruct (MAX_DEPTH <? S d)%nat eqn:Ed; [done|]. apply Nat.ltb_ge in Ed. cbn [fbind].
  destruct f' as [|f']; [lia|]. cbn [parse_array]. unfold expect. cbn [bump rest depth].
  rewrite bool_decide_true by done. cbn [fbind].
  set (p2 := skip_ws (mkP r (S d))). pose proof (skip_ws_length (mkP r (S d))) as W. fold p2 in W.
  cbn [rest] in W.
  case_bool_decide; [done|].
  rewrite (seq_loop_array_loop (S (length (rest p2))) f') by
    (lia || (subst p2; cbn [depth skip_ws]; lia)). done.
Qed.

(** The streaming decoder of a sequence ([read_seq] driving [Value::decode_from], as
    [Vec<Value>] does) accepts exactly the inputs [json::from_str] parses to an
    array, and yields the same elements. *)
Theorem streaming_decode_agrees (input : bytes) (l : list Value) :
  decode vec_value_decode_from input = Some (Ok l) <-> from_str input = Ok (Value.Array l).
Proof.
  unfold decode, from_str, from_str_fuel.
  pose proof (skip_ws_length (new input)) as W. change (rest (new input)) with input in W.
  assert (vec_value_decode_from (new input) = vec_value_decode_from (skip_ws (new input))) as ->.
  { unfold vec_value_decode_from, read_seq. by rewrite skip_ws_idem. }
  destruct (decide (peek (skip_ws (new input)) = Some x5b)) as [Hb|Hb].
  - assert (exists r, skip_ws (new input) = mkP (x5b :: r) 0) as [r Hr].
    { unfold peek in Hb. destruct (skip_ws (new input)) as [[|b r] d] eqn:E; [done|].
      cbn in Hb. simplify_eq. exists r. unfold skip_ws in E. by simplify_eq. }
    rewrite (read_seq_parse_value _ _ r 0) by (rewrite ?skip_ws_idem; unfold value_fuel, MAX_DEPTH; done || lia).
    destruct (vec_value_decode_from _) as [[[l' p]|]|]; cbn [fbind]; [|naive_solver..].
    case_bool_decide; [|naive_solver]. split; intros; by simplify_eq.
  - split.
    + unfold vec_value_decode_from, read_seq. rewrite skip_ws_idem. unfold expect.
      destruct (bump _) as [c p] eqn:B. rewrite bool_decide_false; [done|].
      unfold bump, peek in *. destruct (rest (skip_ws (new input))); naive_solver.
    + destruct (parse_value _ _) as [[[v p]|]|] eqn:E; cbn [fbind]; [|naive_solver..].
      case_bool_decide; [|done]. intros [= ->]. apply parse_value_starts in E.
      rewrite skip_ws_idem in E. done.
Qed.

(** ** The encoder writes valid UTF-8 *)

Lemma escape_ascii b e : escape b = Some e -> Forall (fun c => b2z c < 128) e.
Proof.
  destruct b; intros H; cbv in H; try discriminate H; injection H as <-;
    repeat (constructor; [reflexivity|]); constructor.
Qed.

Lemma escape_high b : 128 <= b2z b -> escape b = None.
Proof. intros H. destruct b; try reflexivity; exfalso; apply H; reflexivity. Qed.

Lemma quote_utf8 s : Utf8.is_utf8 s = true -> Utf8.is_utf8 (quote s) = true.
Proof.
  intros Hs. unfold quote. cbn [app]. rewrite is_utf8_ascii_cons by done.
  apply is_utf8_app; [|done]. revert s Hs. apply utf8_ind; [done| |].
  - intros b s Hb _ IH. rewrite esc_cons. destruct (escape b) as [e|] eqn:E.
    + rewrite is_utf8_ascii_app; [done|by eapply escape_ascii].
    + cbn [app]. by rewrite is_utf8_ascii_cons.
  - intros q s Hq Hhi _ IH. replace (esc (q ++ s)) with (q ++ esc s); [by apply Hq|].
    clear Hq. induction Hhi as [|c q Hc _ IHq]; [done|].
    cbn [app]. by rewrite esc_cons, escape_high, IHq by done.
Qed.

Lemma join_utf8 ws :
  Forall (fun w => Utf8.is_utf8 w = true) ws -> Utf8.is_utf8 (join [x2c] ws) = true.
Proof.
  induction 1 as [|w ws Hw Hws IH]; [done|]. destruct ws; [done|].
  rewrite join_cons by done. apply is_utf8_app; [done|]. cbn [app].
  by rewrite is_utf8_ascii_cons.
Qed.

Lemma bracket_utf8 b e s :
  b2z b < 128 -> b2z e < 128 -> Utf8.is_utf8 s = true -> Utf8.is_utf8 ([b] ++ s ++ [e]) = true.
Proof.
  intros Hb He Hs. cbn [app]. rewrite is_utf8_ascii_cons by done.
  apply is_utf8_app; [done|]. by rewrite is_utf8_ascii_cons.
Qed.

Lemma digits_ascii t : Forall (fun b => dec_char b = true) t -> Forall (fun c => b2z c < 128) t.
Proof.
  intros H. eapply Forall_impl; [exact H|]. intros c Hc. unfold dec_char in Hc.
  apply orb_true_iff in Hc as [Hc|Hc]; [apply is_digit_range in Hc; lia|].
  by apply bool_decide_eq_true in Hc as ->.
Qed.

Lemma number_utf8 (neg : bool) c t :
  F64.is_digit c = true -> Forall (fun b => dec_char b = true) t ->
  Utf8.is_utf8 ((if neg then [x2d] else []) ++ c :: t) = true.
Proof.
  intros Hc Ht. apply is_utf8_ascii. apply Forall_app. split; [by destruct neg; repeat constructor|].
  apply digits_ascii. constructor; [unfold dec_char; by rewrite Hc|done].
Qed.

Lemma int_utf8 i : encodable (Value.Int i) = true -> Utf8.is_utf8 (write_i64 [] i) = true.
Proof.
  cbn [encodable]. intros He. zbool. destruct (write_i64_shape i) as (neg & c & t & -> & Hc & Ht); [lia|].
  apply number_utf8; eauto with ferroly.
Qed.

Lemma render_utf8 v :
  encodable v = true -> utf8_strings v = true -> Utf8.is_utf8 (render v) = true.
Proof.
  induction v as [|b|i|u|x|s|b|a IH|o IH] using value_ind'; intros He Hu.
  - done.
  - by destruct b.
  - by apply int_utf8.
  - cbn [encodable] in He. zbool. cbn [render].
    destruct (write_u64_shape u) as (c & t & -> & Hc & Ht); [lia|].
    apply (number_utf8 false); eauto with ferroly.
  - cbn [render]. destruct (F64.is_finite x) eqn:Ef.
    + destruct (json_float_shape x Ef) as (neg & c & t & -> & Hc & Ht & _). by apply number_utf8.
    + unfold write_json_f64. by rewrite Ef.
  - by apply quote_utf8.
  - rewrite render_bytes. apply bracket_utf8; [done|done|]. apply join_utf8, Forall_map, Forall_map.
    apply Forall_true. intros c. apply int_utf8. cbn [encodable]. pose proof (b2z_range c).
    unfold i64_min, i64_max. apply andb_true_iff. rewrite !Z.leb_le. lia.
  - cbn [render encodable utf8_strings] in *. apply bracket_utf8; [done|done|].
    apply join_utf8, Forall_map. rewrite forallb_forall in He, Hu. rewrite Forall_forall in IH |- *.
    intros x Hx. apply list_elem_of_In in Hx as Hx'. cbn. apply IH; [done|by apply He|by apply Hu].
  - cbn [render encodable utf8_strings] in *. apply bracket_utf8; [done|done|].
    apply join_utf8, Forall_map. rewrite forallb_forall in He, Hu. rewrite Forall_forall in IH |- *.
    intros x Hx. apply list_elem_of_In in Hx as Hx'. specialize (Hu x Hx').
    apply andb_true_iff in Hu as [Hk Hv]. cbn beta. apply is_utf8_app; [by apply quote_utf8|].
    cbn [app]. rewrite is_utf8_ascii_cons by done. apply IH; [done|by apply (He x)|done].
Qed.

Lemma from_slice_to_string v :
  encodable v = true -> utf8_strings v = true -> (Value.depth v <= MAX_DEPTH)%nat ->
  from_slice (to_string v) = Ok (norm v).
Proof.
  intros He Hu Hd. unfold from_slice. rewrite from_utf8_ok.
  - by apply from_str_to_string.
  - rewrite to_string_render. by apply render_utf8.
Qed.

(** ** The output is one line *)

Lemma escape_no_newline b e : escape b = Some e -> x0a ∉ e.
Proof. intros H. destruct b; vm_compute in H; simplify_eq; apply (bool_decide_unpack _); vm_compute; done. Qed.

Lemma quote_no_newline s : x0a ∉ quote s.
Proof.
  unfold quote, esc. rewrite !elem_of_app, !list_elem_of_singleton.
  intros [H|[H|H]]; [done| |done]. apply list_elem_of_In, in_flat_map in H as (b & _ & Hb).
  apply list_elem_of_In in Hb. destruct (escape b) eqn:E; simpl in Hb; [by eapply escape_no_newline|].
  apply list_elem_of_singleton in Hb as <-. done.
Qed.

Lemma number_no_newline (neg : bool) c t :
  F64.is_digit c = true -> Forall (fun b => dec_char b = true) t -> x0a ∉ (if neg then [x2d] else []) ++ c :: t.
Proof.
  intros Hc Ht. rewrite not_elem_of_app, not_elem_of_cons. split; [by destruct neg; set_solver|].
  split; [by intros <-|]. rewrite Forall_forall in Ht. intros H. by specialize (Ht _ H).
Qed.

Lemma join_no_newline ws : Forall (fun w => x0a ∉ w) ws -> x0a ∉ join [x2c] ws.
Proof.
  induction 1 as [|w ws Hw Hws IH]; [by apply not_elem_of_nil|]. destruct ws as [|w' ws]; [done|].
  change (join [x2c] (w :: w' :: ws)) with (w ++ [x2c] ++ join [x2c] (w' :: ws)). rewrite !not_elem_of_app. by repeat split; [|set_solver|].
Qed.

Lemma bracket_no_newline a b s : a <> x0a -> b <> x0a -> x0a ∉ s -> x0a ∉ [a] ++ s ++ [b].
Proof. intros Ha Hb Hs. rewrite !not_elem_of_app. repeat split; [|done|]; rewrite list_elem_of_singleton; congruence. Qed.

Lemma int_no_newline i : encodable (Value.Int i) = true -> x0a ∉ write_i64 [] i.
Proof.
  cbn [encodable]. intros He. zbool. destruct (write_i64_shape i) as (neg & c & t & -> & Hc & Ht); [lia|].
  apply number_no_newline; eauto with ferroly.
Qed.

Lemma render_no_newline v : encodable v = true -> x0a ∉ render v.
Proof.
  induction v as [|b|i|u|x|s|b|a IH|o IH] using value_ind'; intros He.
  - apply (bool_decide_unpack _). by vm_compute.
  - destruct b; apply (bool_decide_unpack _); by vm_compute.
  - by apply int_no_newline.
  - cbn [encodable] in He. zbool. cbn [render]. destruct (write_u64_shape u) as (c & t & -> & Hc & Ht); [lia|].
    apply (number_no_newline false); eauto with ferroly.
  - cbn [render]. destruct (F64.is_finite x) eqn:Ef.
    + destruct (json_float_shape x Ef) as (neg & c & t & -> & Hc & Ht & _). by apply number_no_newline.
    + unfold write_json_f64. rewrite Ef. apply (bool_decide_unpack _). by vm_compute.
  - apply quote_no_newline.
  - rewrite render_bytes. apply bracket_no_newline; [done|done|]. apply join_no_newline, Forall_map, Forall_map.
    apply Forall_true. intros c. apply int_no_newline. cbn [encodable]. pose proof (b2z_range c).
    unfold i64_min, i64_max. apply andb_true_iff. rewrite !Z.leb_le. lia.
  - cbn [render encodable] in *. apply bracket_no_newline; [done|done|]. apply join_no_newline, Forall_map.
    rewrite forallb_forall in He. rewrite Forall_forall in IH |- *.
    intros x Hx. apply list_elem_of_In in Hx as Hx'. cbn. apply IH; [done|by apply He].
  - cbn [render encodable] in *. apply bracket_no_newline; [done|done|]. apply join_no_newline, Forall_map.
    rewrite forallb_forall in He. rewrite Forall_forall in IH |- *.
    intros x Hx. apply list_elem_of_In in Hx as Hx'. cbn beta. rewrite !not_elem_of_app. split; [apply quote_no_newline|].
    split; [apply (bool_decide_unpack _); by vm_compute|]. apply IH; [done|by apply (He x)].
Qed.
