(* ===== verification/Toml.v ===== *)
(** * The TOML codec ([codec/toml.rs])

    The encoder ([write_table], [write_inline]) and the parser that scans the
    document by byte position.  The parser state is the position, which error
    messages show, and the unread suffix [&b[pos..]]; a span [&src[a..b]] is the
    difference of two suffixes ([slice]).  References into the document under
    construction ([resolve], [get_or_create]) are update functions: they take
    what the caller does with the table they refer to.

    [parse_hex] cuts [src] at a byte offset without checking that it is a
    character boundary, so parsing can panic: results are a [Stop] on failure. *)

From Stdlib Require Import SpecFloat.
From S2P Require Import Prelude Text Scan Value Json.

Open Scope Z_scope.

Module Toml.

Abbreviation Table := (list (bytes * Value)).

(** ** Encoder *)

(** [{:X}] of a digit. *)
Definition hex_upper (d : Z) : byte := if d <? 10 then z2b (48 + d) else z2b (55 + d).

(** The escape of a byte in [write_basic_string], [None] when it is copied. *)
Definition escape (b : byte) : option bytes :=
  if bool_decide (b = x22) then Some [x5c; x22]
  else if bool_decide (b = x5c) then Some [x5c; x5c]
  else if bool_decide (b = x0a) then Some [x5c; x6e]
  else if bool_decide (b = x0d) then Some [x5c; x72]
  else if bool_decide (b = x09) then Some [x5c; x74]
  else if bool_decide (b = x08) then Some [x5c; x62]
  else if bool_decide (b = x0c) then Some [x5c; x66]
  else if b2z b <? 0x20 then
    Some [x5c; x75; x30; x30; hex_upper (b2z b / 16); hex_upper (b2z b mod 16)]
  else None.

(** The loop of [write_basic_string]: [start] is the suffix where the current
    clean run begins, [cur] the suffix at the current index. *)
Fixpoint write_basic_loop (out start cur : bytes) : bytes :=
  match cur with
  | [] => out ++ start
  | b :: rest =>
      match escape b with
      | Some esc => write_basic_loop (out ++ slice start cur ++ esc) rest rest
      | None => write_basic_loop out start rest
      end
  end.

Definition write_basic_string (out s : bytes) : bytes :=
  write_basic_loop (out ++ [x22]) s s ++ [x22].

Definition is_alphanumeric (b : byte) : bool :=
  F64.is_digit b || ((65 <=? b2z b) && (b2z b <=? 90)) || ((97 <=? b2z b) && (b2z b <=? 122)).

Definition bare_key_char (b : byte) : bool :=
  is_alphanumeric b || bool_decide (b = x5f) || bool_decide (b = x2d).

Definition key_repr (k : bytes) : bytes :=
  if negb (bool_decide (k = [])) && forallb bare_key_char k then k
  else write_basic_string [] k.

Definition write_key (out k : bytes) : bytes := out ++ key_repr k.

Definition header_join (prefix k : bytes) : bytes :=
  let key := key_repr k in
  if bool_decide (prefix = []) then key else prefix ++ [x2e] ++ key.

Definition write_float (out : bytes) (f : F64.t) : bytes :=
  if F64.is_nan f then out ++ b!"nan"
  else if negb (F64.is_finite f) then
    if F64.ltb f (S754_zero false) then out ++ b!"-inf" else out ++ b!"inf"
  else
    let start := length out in
    let out := out ++ F64.display f in
    if negb (existsb (fun b => bool_decide (b ∈ [x2e; x65; x45])) (drop start out))
    then out ++ b!".0" else out.

Definition is_empty {A} (l : list A) : bool := match l with [] => true | _ :: _ => false end.

Definition is_object (v : Value) : bool := match v with Value.Object _ => true | _ => false end.

(** A non-empty array whose every element is a table. *)
Definition is_array_of_tables (a : list Value) : bool := negb (is_empty a) && forallb is_object a.

Definition is_null : Value -> bool := Value.is_null.

Definition is_section (v : Value) : bool :=
  match v with
  | Value.Object o => negb (is_empty o)
  | Value.Array a => is_array_of_tables a
  | _ => false
  end.

(** The separator before every element but the first ([i > 0], [!first]). *)
Definition comma (i : nat) (out : bytes) : bytes := if (0 <? i)%nat then out ++ b!", " else out.

Fixpoint write_inline (v : Value) (out : bytes) : bytes :=
  match v with
  | Value.Null => out ++ [x22; x22]
  | Value.Bool b => out ++ (if b then b!"true" else b!"false")
  | Value.Int i => write_i64 out i
  | Value.UInt u => write_u64 out u
  | Value.Float f => write_float out f
  | Value.Str s => write_basic_string out s
  | Value.Bytes b =>
      (foldl (fun st x => (S (fst st), write_u64 (comma (fst st) (snd st)) (b2z x)))
         (0%nat, out ++ [x5b]) b).2 ++ [x5d]
  | Value.Array a =>
      (foldl (fun st e => (S (fst st), write_inline e (comma (fst st) (snd st))))
         (0%nat, out ++ [x5b]) a).2 ++ [x5d]
  | Value.Object o =>
      if forallb (fun kv => is_null (snd kv)) o then out ++ b!"{}"
      else
        (foldl (fun st kv =>
           if is_null (snd kv) then st
           else (S (fst st),
                 write_inline (snd kv) (write_key (comma (fst st) (snd st)) (fst kv) ++ b!" = ")))
           (0%nat, out ++ b!"{ ") o).2 ++ b!" }"
  end.

(** [write_table] on the entries of an object. *)
Fixpoint write_section (v : Value) (prefix out : bytes) : bytes :=
  match v with
  | Value.Object entries =>
      let out :=
        foldl (fun out kv =>
          if is_null (snd kv) || is_section (snd kv) then out
          else write_inline (snd kv) (write_key out (fst kv) ++ b!" = ") ++ [x0a]) out entries in
      foldl (fun out kv =>
        match snd kv with
        | Value.Object (_ :: _) =>
            let header := header_join prefix (fst kv) in
            write_section (snd kv) header (out ++ [x0a; x5b] ++ header ++ [x5d; x0a])
        | Value.Array a =>
            if is_array_of_tables a then
              let header := header_join prefix (fst kv) in
              foldl (fun out item =>
                match item with
                | Value.Object _ =>
                    write_section item header (out ++ [x0a; x5b; x5b] ++ header ++ [x5d; x5d; x0a])
                | _ => out
                end) out a
            else out
        | _ => out
        end) out entries
  | _ => out
  end.

Definition write_table (out : bytes) (entries : Table) (prefix : bytes) : bytes :=
  write_section (Value.Object entries) prefix out.

(** [toml::encode], on the [Value] the argument encodes to. *)
Definition encode (v : Value) : bytes :=
  match v with
  | Value.Object entries => write_table [] entries []
  | other => write_inline other (b!"value = ") ++ [x0a]
  end.

(** ** Parser *)

Definition MAX_DEPTH : nat := 128.

(** How a parse fails: an error value, or a panic. *)
Inductive Stop :=
| Error (e : CodecError)
| Panic.

Record Parser := mkP { pos : nat; rest : bytes }.

Definition new (src : bytes) : Parser := mkP 0 src.

Definition perr {A} (m : bytes) : option (Result A Stop) := Some (Err (Error (Parse m))).
Definition lift {A} (r : Result A CodecError) : option (Result A Stop) := Some (map_err Error r).
Definition show_nat (n : nat) : bytes := show_uint (Z.of_nat n).

Definition peek (p : Parser) : option byte := head (rest p).

(** [self.pos += n] *)
Definition advance (n : nat) (p : Parser) : Parser := mkP (pos p + n) (drop n (rest p)).

(** [while matches!(self.peek(), Some(c) if f(c)) { self.pos += 1 }] *)
Fixpoint scan (f : byte -> bool) (n : nat) (s : bytes) : Parser :=
  match s with
  | b :: r => if f b then scan f (S n) r else mkP n s
  | [] => mkP n []
  end.
Definition scan_while (f : byte -> bool) (p : Parser) : Parser := scan f (pos p) (rest p).

Definition inline_ws (b : byte) : bool := bool_decide (b ∈ [x20; x09; x0d]).

Definition skip_inline_ws (p : Parser) : Parser := scan_while inline_ws p.

(** The two loops of [skip_ws_nl_comments]: [comment] when inside the inner one. *)
Fixpoint skip_wnc (comment : bool) (n : nat) (s : bytes) : Parser :=
  match s with
  | [] => mkP n []
  | b :: r =>
      if comment && negb (bool_decide (b = x0a)) then skip_wnc true (S n) r
      else if bool_decide (b ∈ [x20; x09; x0d; x0a]) then skip_wnc false (S n) r
      else if bool_decide (b = x23) then skip_wnc true (S n) r
      else mkP n s
  end.
Definition skip_ws_nl_comments (p : Parser) : Parser := skip_wnc false (pos p) (rest p).

Definition not_newline (b : byte) : bool := negb (bool_decide (b = x0a)).

Definition expect (c : byte) (p : Parser) : option (Result Parser Stop) :=
  let p := skip_inline_ws p in
  if bool_decide (peek p = Some c) then Some (Ok (advance 1 p))
  else perr (b!"expected '" ++ Utf8.byte_as_char c ++ b!"' at byte " ++ show_nat (pos p)).

Definition finish_line (p : Parser) : option (Result Parser Stop) :=
  let p := skip_inline_ws p in
  let p := if bool_decide (peek p = Some x23) then scan_while not_newline p else p in
  match peek p with
  | None => Some (Ok p)
  | Some c =>
      if bool_decide (c = x0a) then Some (Ok (advance 1 p))
      else perr (b!"unexpected trailing input '" ++ Utf8.byte_as_char c ++ b!"' at byte "
                 ++ show_nat (pos p))
  end.

(** A UTF-8 continuation byte: the offset before it is not a character boundary. *)
Definition is_continuation (b : byte) : bool := (0x80 <=? b2z b) && (b2z b <? 0xC0).
Definition is_char_boundary (s : bytes) : bool :=
  match s with b :: _ => negb (is_continuation b) | [] => true end.

(** [parse_hex]: a [char], as its code point. *)
Definition parse_hex (n : nat) (p : Parser) : option (Result (Z * Parser) Stop) :=
  if (length (rest p) <? n)%nat then perr (b!"truncated unicode escape")
  else if negb (is_char_boundary (drop n (rest p))) then Some (Err Panic)
  else
    let hex := take n (rest p) in
    let p := advance n p in
    match parse_uint 16 u32_max hex with
    | None => perr (b!"invalid unicode escape")
    | Some code =>
        match Utf8.char_from_u32 code with
        | None => perr (b!"invalid unicode scalar")
        | Some ch => Some (Ok (ch, p))
        end
    end.

(** The character of a one-letter escape. *)
Definition simple_escape (c : byte) : option Z :=
  if bool_decide (c = x22) then Some 0x22
  else if bool_decide (c = x5c) then Some 0x5c
  else if bool_decide (c = x62) then Some 0x08
  else if bool_decide (c = x74) then Some 0x09
  else if bool_decide (c = x6e) then Some 0x0a
  else if bool_decide (c = x66) then Some 0x0c
  else if bool_decide (c = x72) then Some 0x0d
  else None.

Definition parse_escape (out : bytes) (p : Parser) : option (Result (bytes * Parser) Stop) :=
  match peek p with
  | None => perr (b!"unterminated escape")
  | Some c =>
      let p := advance 1 p in
      let! (ch, p) :=
        match simple_escape c with
        | Some ch => Some (Ok (ch, p))
        | None =>
            if bool_decide (c = x75) then parse_hex 4 p
            else if bool_decide (c = x55) then parse_hex 8 p
            else perr (b!"invalid escape '\" ++ Utf8.byte_as_char c ++ b!"'")
        end in
      Some (Ok (out ++ Utf8.encode_char ch, p))
  end.

(** One iteration of [parse_basic_string]: the run up to the next quote,
    backslash or newline. *)
Definition basic_run (b : byte) : bool := negb (bool_decide (b ∈ [x22; x5c; x0a])).

Definition basic_body (st : bytes * Parser)
  : option (Result ((bytes * Parser) + (bytes * Parser)) Stop) :=
  let '(out, p) := st in
  let p' := scan_while basic_run p in
  let out := out ++ slice (rest p) (rest p') in
  match peek p' with
  | Some c =>
      if bool_decide (c = x22) then Some (Ok (inr (out, advance 1 p')))
      else if bool_decide (c = x5c) then
        let! st := parse_escape out (advance 1 p') in Some (Ok (inl st))
      else perr (b!"unterminated string")
  | None => perr (b!"unterminated string")
  end.

(** The unread length of a loop state. *)
Definition unread {X} (st : X * Parser) : nat := length (rest (snd st)).

Definition parse_basic_string (p : Parser) : option (Result (bytes * Parser) Stop) :=
  run_loop basic_body unread ([], advance 1 p).

Definition parse_literal_string (p : Parser) : option (Result (bytes * Parser) Stop) :=
  let start := advance 1 p in
  let p := scan_while (fun b => negb (bool_decide (b ∈ [x27; x0a]))) start in
  if bool_decide (peek p = Some x27) then Some (Ok (slice (rest start) (rest p), advance 1 p))
  else perr (b!"unterminated literal string").

Definition parse_key_segment (p : Parser) : option (Result (bytes * Parser) Stop) :=
  if bool_decide (peek p = Some x22) then parse_basic_string p
  else if bool_decide (peek p = Some x27) then parse_literal_string p
  else
    let p' := scan_while bare_key_char p in
    if bool_decide (pos p' = pos p) then perr (b!"expected key at byte " ++ show_nat (pos p))
    else Some (Ok (slice (rest p) (rest p'), p')).

Definition key_path_body (st : list bytes * Parser)
  : option (Result ((list bytes * Parser) + (list bytes * Parser)) Stop) :=
  let '(path, p) := st in
  let! (seg, p) := parse_key_segment (skip_inline_ws p) in
  let path := path ++ [seg] in
  let p := skip_inline_ws p in
  if bool_decide (peek p = Some x2e) then Some (Ok (inl (path, advance 1 p)))
  else Some (Ok (inr (path, p))).

Definition parse_key_path (p : Parser) : option (Result (list bytes * Parser) Stop) :=
  run_loop key_path_body unread ([], p).

(** [i64::from_str_radix] *)
Definition i64_from_str_radix (radix : Z) (s : bytes) : option Z :=
  match s with
  | [] => None
  | c :: ds =>
      if bool_decide (c = x2d) then
        if bool_decide (ds = []) then None
        else Z.opp <$> parse_digits radix (- i64_min) 0 ds
      else parse_uint radix i64_max s
  end.

(** [s.replace('_', "")] *)
Definition strip_underscores (s : bytes) : bytes :=
  List.filter (fun b => negb (bool_decide (b = x5f))) s.

Definition radix_int (tok : bytes) : option Value :=
  '(rest, radix) ←
    match strip_prefix tok (b!"0x") with
    | Some r => Some (r, 16)
    | None =>
        match strip_prefix tok (b!"0o") with
        | Some r => Some (r, 8)
        | None => r ← strip_prefix tok (b!"0b"); Some (r, 2)
        end
    end;
  let digits := strip_underscores rest in
  match i64_from_str_radix radix digits with
  | Some i => Some (Value.Int i)
  | None => Value.UInt <$> parse_uint radix u64_max digits
  end.

Definition has_float_char (s : bytes) : bool :=
  existsb (fun b => bool_decide (b ∈ [x2e; x65; x45])) s.

Definition atom_number (tok : bytes) : Value :=
  match radix_int tok with
  | Some v => v
  | None =>
      let cleaned := strip_underscores tok in
      let float := has_float_char cleaned in
      let fallback :=
        match F64.parse cleaned with
        | Some f => if float then Value.Float f else Value.Str tok
        | None => Value.Str tok
        end in
      if negb float then
        match parse_i64 cleaned with
        | Some i => Value.Int i
        | None =>
            match parse_u64 cleaned with
            | Some u => Value.UInt u
            | None => fallback
            end
        end
      else fallback
  end.

Definition atom (tok : bytes) : Value :=
  if bool_decide (tok = b!"true") then Value.Bool true
  else if bool_decide (tok = b!"false") then Value.Bool false
  else if bool_decide (tok ∈ [b!"inf"; b!"+inf"]) then Value.Float (S754_infinity false)
  else if bool_decide (tok = b!"-inf") then Value.Float (S754_infinity true)
  else if bool_decide (tok ∈ [b!"nan"; b!"+nan"; b!"-nan"]) then Value.Float S754_nan
  else atom_number tok.

Definition atom_char (b : byte) : bool :=
  negb (bool_decide (b ∈ [x20; x09; x0d; x0a; x2c; x5d; x7d; x23])).

Definition parse_atom (p : Parser) : option (Result (Value * Parser) Stop) :=
  let p' := scan_while atom_char p in
  let tok := trim (slice (rest p) (rest p')) in
  if bool_decide (tok = []) then perr (b!"expected a value at byte " ++ show_nat (pos p))
  else Some (Ok (atom tok, p')).

(** ** Document tree *)

(** [cur.iter().position(|(k, _)| k == seg)] *)
Fixpoint position (seg : bytes) (cur : Table) : option nat :=
  match cur with
  | [] => None
  | (k, _) :: cur => if bool_decide (k = seg) then Some 0%nat else S <$> position seg cur
  end.

(** Running [k] on the table a value refers to. *)
Definition descend (seg : bytes) (k : Table -> Result Table CodecError) (v : Value)
  : Result Value CodecError :=
  let not_table := Err (Parse ([x27] ++ seg ++ b!"' is not a table")) in
  match v with
  | Value.Object o => let? o := k o in Ok (Value.Object o)
  | Value.Array a =>
      match last a with
      | Some (Value.Object o) =>
          let? o := k o in Ok (Value.Array (take (length a - 1) a ++ [Value.Object o]))
      | _ => not_table
      end
  | _ => not_table
  end.

(** Running [f] on the value at an index. *)
Definition with_value (cur : Table) (idx : nat) (f : Value -> Result Value CodecError)
  : Result Table CodecError :=
  match cur !! idx with
  | Some (k, v) => let? v := f v in Ok (<[idx := (k, v)]> cur)
  | None => Ok cur
  end.

Fixpoint resolve (cur : Table) (path : list bytes) (k : Table -> Result Table CodecError)
  : Result Table CodecError :=
  match path with
  | [] => k cur
  | seg :: path =>
      match position seg cur with
      | None => Err (Parse (b!"no such table '" ++ seg ++ [x27]))
      | Some idx => with_value cur idx (descend seg (fun t => resolve t path k))
      end
  end.

Fixpoint get_or_create (cur : Table) (path : list bytes) (k : Table -> Result Table CodecError)
  : Result Table CodecError :=
  match path with
  | [] => k cur
  | seg :: path =>
      let '(cur, idx) :=
        match position seg cur with
        | Some i => (cur, i)
        | None => let cur := cur ++ [(seg, Value.Object [])] in (cur, (length cur - 1)%nat)
        end in
      with_value cur idx (descend seg (fun t => get_or_create t path k))
  end.

(** [slice::split_last] *)
Definition split_last {A} (l : list A) : option (A * list A) :=
  match last l with
  | Some x => Some (x, take (length l - 1) l)
  | None => None
  end.

Definition append_array_table (root : Table) (path : list bytes) : Result Table CodecError :=
  match split_last path with
  | None => Err (Parse (b!"empty table header"))
  | Some (last, parents) =>
      get_or_create root parents (fun base =>
        let? (base, idx) :=
          match position last base with
          | Some i =>
              match base !! i with
              | Some (_, Value.Array _) => Ok (base, i)
              | _ => Err (Parse ([x27] ++ last ++ b!"' is not an array of tables"))
              end
          | None =>
              let base := base ++ [(last, Value.Array [])] in Ok (base, (length base - 1)%nat)
          end in
        with_value base idx (fun v =>
          match v with
          | Value.Array a => Ok (Value.Array (a ++ [Value.Object []]))
          | v => Ok v
          end))
  end.

Definition set_nested (base : Table) (keypath : list bytes) (val : Value)
  : Result Table CodecError :=
  match split_last keypath with
  | None => Err (Parse (b!"empty key"))
  | Some (last, parents) =>
      get_or_create base parents (fun tbl =>
        if existsb (fun kv => bool_decide (fst kv = last)) tbl then
          Err (Parse (b!"duplicate key '" ++ last ++ [x27]))
        else Ok (tbl ++ [(last, val)]))
  end.

(** ** Values and documents *)

(** One iteration of the loop of [parse_array], given the parser of an element. *)
Definition array_body (element : Parser -> option (Result (Value * Parser) Stop))
  (st : list Value * Parser)
  : option (Result ((list Value * Parser) + (Value * Parser)) Stop) :=
  let '(items, p) := st in
  let p := skip_ws_nl_comments p in
  if bool_decide (peek p = Some x5d) then Some (Ok (inr (Value.Array items, advance 1 p)))
  else
    let! (v, p) := element p in
    let items := items ++ [v] in
    let p := skip_ws_nl_comments p in
    if bool_decide (peek p = Some x2c) then Some (Ok (inl (items, advance 1 p)))
    else if bool_decide (peek p = Some x5d) then Some (Ok (inr (Value.Array items, advance 1 p)))
    else perr (b!"expected ',' or ']' in array").

(** One iteration of the loop of [parse_inline_table]. *)
Definition table_body (element : Parser -> option (Result (Value * Parser) Stop))
  (st : Table * Parser)
  : option (Result ((Table * Parser) + (Value * Parser)) Stop) :=
  let '(entries, p) := st in
  let p := skip_ws_nl_comments p in
  let! (keypath, p) := parse_key_path p in
  let! p := expect x3d p in
  let p := skip_inline_ws p in
  let! (v, p) := element p in
  let! entries := lift (set_nested entries keypath v) in
  let p := skip_ws_nl_comments p in
  if bool_decide (peek p = Some x2c) then Some (Ok (inl (entries, advance 1 p)))
  else if bool_decide (peek p = Some x7d) then Some (Ok (inr (Value.Object entries, advance 1 p)))
  else perr (b!"expected ',' or '}' in inline table").

(** [parse_value], [parse_array] and [parse_inline_table]; the depth limit
    bounds the recursion. *)
Fixpoint parse_value_fuel (fuel depth : nat) (p : Parser) : option (Result (Value * Parser) Stop) :=
  if (MAX_DEPTH <? depth)%nat then perr (b!"nesting too deep")
  else
    match fuel with
    | O => None
    | S fuel =>
        let p := skip_inline_ws p in
        match peek p with
        | None => perr (b!"expected a value")
        | Some b =>
            if bool_decide (b = x22) then
              if starts_with (rest p) [x22; x22; x22] then
                perr (b!"multi-line strings are not supported")
              else let! (s, p) := parse_basic_string p in Some (Ok (Value.Str s, p))
            else if bool_decide (b = x27) then
              if starts_with (rest p) [x27; x27; x27] then
                perr (b!"multi-line strings are not supported")
              else let! (s, p) := parse_literal_string p in Some (Ok (Value.Str s, p))
            else if bool_decide (b = x5b) then
              run_loop (array_body (parse_value_fuel fuel (S depth))) unread ([], advance 1 p)
            else if bool_decide (b = x7b) then
              let p := skip_ws_nl_comments (advance 1 p) in
              if bool_decide (peek p = Some x7d) then Some (Ok (Value.Object [], advance 1 p))
              else run_loop (table_body (parse_value_fuel fuel (S depth))) unread ([], p)
            else parse_atom p
        end
    end.

Definition parse_value (depth : nat) (p : Parser) : option (Result (Value * Parser) Stop) :=
  parse_value_fuel (S MAX_DEPTH - depth) depth p.

(** One statement of a document: a table header, an array-of-tables header or a
    key/value pair. *)
Definition statement (root : Table) (current : list bytes) (p : Parser)
  : option (Result (Table * list bytes * Parser) Stop) :=
  if bool_decide (peek p = Some x5b) then
    let! (root, current, p) :=
      if bool_decide (peek (advance 1 p) = Some x5b) then
        let! (path, p) := parse_key_path (advance 2 p) in
        let! p := expect x5d p in
        let! p := expect x5d p in
        let! root := lift (append_array_table root path) in
        Some (Ok (root, path, p))
      else
        let! (path, p) := parse_key_path (advance 1 p) in
        let! p := expect x5d p in
        let! root := lift (get_or_create root path (fun t => Ok t)) in
        Some (Ok (root, path, p)) in
    let! p := finish_line p in
    Some (Ok (root, current, p))
  else
    let! (keypath, p) := parse_key_path p in
    let p := skip_inline_ws p in
    let! p := expect x3d p in
    let p := skip_inline_ws p in
    let! (v, p) := parse_value 0 p in
    let! root := lift (resolve root current (fun base => set_nested base keypath v)) in
    let! p := finish_line p in
    Some (Ok (root, current, p)).

Definition parse_body (st : Table * list bytes * Parser)
  : option (Result ((Table * list bytes * Parser) + Value) Stop) :=
  let '(root, current, p) := st in
  let p := skip_ws_nl_comments p in
  match peek p with
  | None => Some (Ok (inr (Value.Object root)))
  | Some _ => let! st := statement root current p in Some (Ok (inl st))
  end.

(** [Parser::parse] and [toml::from_str]; [None] is running out of fuel, which
    [toml_from_str_total] rules out. *)
Definition from_str (input : bytes) : option (Result Value Stop) :=
  run_loop parse_body unread ([], [], new input).

(** ** Every step of the parser consumes input *)

(** A computation that returns, leaving at least [k] of [n] bytes read. *)
Definition consumes {A} (view : A -> Parser) (k n : nat) (r : option (Result A Stop)) : Prop :=
  match r with
  | None => False
  | Some (Ok a) => (length (rest (view a)) + k <= n)%nat
  | Some (Err _) => True
  end.

(** The parser in the outcome of a loop body. *)
Definition outcome {X Y} (r : (X * Parser) + (Y * Parser)) : Parser :=
  match r with inl st => snd st | inr st => snd st end.

Lemma toml_consumes_bind {A B} (view : A -> Parser) (view' : B -> Parser) k k' n r g :
  consumes view k n r ->
  (forall a, (length (rest (view a)) + k <= n)%nat -> consumes view' k' n (g a)) ->
  consumes view' k' n (fbind r g).
Proof. destruct r as [[a|e]|]; simpl; auto. Qed.

Lemma toml_consumes_weaken {A} (view : A -> Parser) k n k' n' r :
  consumes view k n r -> (n + k' <= n' + k)%nat -> consumes view k' n' r.
Proof. destruct r as [[a|e]|]; simpl; auto; lia. Qed.

Lemma consumes_loop {X Y} (body : X * Parser -> option (Result ((X * Parser) + (Y * Parser)) Stop)) st :
  (forall st, consumes outcome 1 (unread st) (body st)) ->
  consumes snd 1 (unread st) (run_loop body unread st).
Proof.
  intros Hb. apply (run_loop_ind body unread).
  - intros s s' E. specialize (Hb s). rewrite E in Hb. simpl in Hb. unfold unread in *. lia.
  - done.
  - intros s E. specialize (Hb s). by rewrite E in Hb.
  - intros s a E. specialize (Hb s). by rewrite E in Hb.
  - intros s s' r E. specialize (Hb s). rewrite E in Hb. simpl in Hb. unfold unread in *.
    intros H. eapply toml_consumes_weaken; [exact H|]. lia.
Qed.

Lemma loop_decreases {X Y} (body : X * Parser -> option (Result ((X * Parser) + (Y * Parser)) Stop)) :
  (forall st, consumes outcome 1 (unread st) (body st)) ->
  forall s s', body s = Some (Ok (inl s')) -> (unread s' < unread s)%nat.
Proof.
  intros Hb s s' E. specialize (Hb s). rewrite E in Hb. simpl in Hb. unfold unread in *. lia.
Qed.

Lemma toml_scan_spec f s : forall n, exists w,
  s = w ++ rest (scan f n s) /\ pos (scan f n s) = (n + length w)%nat /\
  Forall (fun b => f b = true) w /\
  match rest (scan f n s) with b :: _ => f b = false | [] => True end.
Proof.
  induction s as [|b s IH]; intros n; cbn [scan].
  { exists []. simpl. split_and!; auto with lia. }
  destruct (f b) eqn:E.
  - destruct (IH (S n)) as (w & H1 & H2 & H3 & H4). exists (b :: w). cbn [app length].
    split_and!; [congruence|lia|by constructor|done].
  - exists []. simpl. split_and!; auto with lia.
Qed.

Lemma scan_while_length f p : (length (rest (scan_while f p)) <= length (rest p))%nat.
Proof.
  unfold scan_while. destruct (toml_scan_spec f (rest p) (pos p)) as (w & H & _).
  rewrite H at 2. rewrite length_app. lia.
Qed.

Lemma skip_inline_ws_length p : (length (rest (skip_inline_ws p)) <= length (rest p))%nat.
Proof. apply scan_while_length. Qed.

Lemma skip_wnc_length s : forall c n, (length (rest (skip_wnc c n s)) <= length s)%nat.
Proof.
  induction s as [|b s IH]; intros c n; cbn [skip_wnc]; [done|].
  pose proof (IH true (S n)). pose proof (IH false (S n)). repeat split_if; cbn [length rest] in *; lia.
Qed.

Lemma skip_ws_nl_comments_length p : (length (rest (skip_ws_nl_comments p)) <= length (rest p))%nat.
Proof. apply skip_wnc_length. Qed.

Lemma advance_length n p : length (rest (advance n p)) = (length (rest p) - n)%nat.
Proof. apply length_drop. Qed.

Lemma peek_length c p : peek p = Some c -> (1 <= length (rest p))%nat.
Proof. unfold peek. destruct (rest p); simpl; [done|lia]. Qed.

(** Length facts of the parser states in sight, for [lia]. *)
Ltac pose_new L :=
  let T := type of L in
  lazymatch goal with
  | H : T |- _ => fail
  | _ => pose proof L
  end.

Ltac length_fact t :=
  lazymatch t with
  | skip_inline_ws ?p => pose_new (skip_inline_ws_length p)
  | skip_ws_nl_comments ?p => pose_new (skip_ws_nl_comments_length p)
  | scan_while ?f ?p => pose_new (scan_while_length f p)
  | advance ?n ?p => pose_new (advance_length n p)
  end.

Ltac parser_lengths :=
  unfold unread, id in *; cbn [fst snd outcome] in *;
  repeat match goal with
  | H : peek _ = Some _ |- _ => pose_new (peek_length _ _ H)
  | |- context [rest ?t] => length_fact t
  | H : context [rest ?t] |- _ => length_fact t
  end; lia.

Lemma expect_consumes c p : consumes id 1 (length (rest p)) (expect c p).
Proof.
  unfold expect. case_bool_decide as E; [|done]. cbn [consumes]. parser_lengths.
Qed.

Lemma parse_hex_consumes n p : consumes snd 0 (length (rest p)) (parse_hex n p).
Proof.
  unfold parse_hex. repeat split_if; try done. destruct (parse_uint _ _ _); [|done].
  destruct (Utf8.char_from_u32 _); [|done]. simpl. rewrite length_drop. lia.
Qed.

Lemma parse_escape_consumes out p : consumes snd 1 (length (rest p)) (parse_escape out p).
Proof.
  unfold parse_escape. destruct (peek p) as [c|] eqn:E; [|done].
  eapply (toml_consumes_bind snd snd 1).
  - destruct (simple_escape c); [cbn [consumes]; parser_lengths|].
    repeat split_if; try done; (eapply toml_consumes_weaken; [apply parse_hex_consumes|]); parser_lengths.
  - intros [ch p'] H. simpl in *. done.
Qed.

Lemma basic_body_consumes st : consumes outcome 1 (unread st) (basic_body st).
Proof.
  destruct st as [out p]. unfold basic_body. destruct (peek _) as [c|] eqn:E; [|done].
  repeat split_if; try done.
  - cbn [consumes]. parser_lengths.
  - eapply (toml_consumes_bind snd outcome 1).
    + eapply toml_consumes_weaken; [apply parse_escape_consumes|]. parser_lengths.
    + intros st0 Hst. exact Hst.
Qed.

Lemma parse_basic_string_consumes p : consumes snd 1 (length (rest p)) (parse_basic_string p).
Proof.
  eapply toml_consumes_weaken; [apply consumes_loop, basic_body_consumes|]. parser_lengths.
Qed.

Lemma parse_literal_string_consumes p : consumes snd 1 (length (rest p)) (parse_literal_string p).
Proof. unfold parse_literal_string. case_bool_decide as E; [|done]. cbn [consumes]. parser_lengths. Qed.

Lemma parse_key_segment_consumes p : consumes snd 1 (length (rest p)) (parse_key_segment p).
Proof.
  unfold parse_key_segment. repeat split_if;
    auto using parse_basic_string_consumes, parse_literal_string_consumes; [done|].
  simpl. unfold scan_while in *. destruct (toml_scan_spec bare_key_char (rest p) (pos p)) as (w & Hw & Hp & _).
  rewrite Hw at 2. rewrite length_app. lia.
Qed.

Lemma key_path_body_consumes st : consumes outcome 1 (unread st) (key_path_body st).
Proof.
  destruct st as [path p]. unfold key_path_body. eapply (toml_consumes_bind snd outcome 1).
  - eapply toml_consumes_weaken; [apply parse_key_segment_consumes|]. parser_lengths.
  - intros [seg p'] H. split_if; cbn [consumes]; parser_lengths.
Qed.

Lemma parse_key_path_consumes p : consumes snd 1 (length (rest p)) (parse_key_path p).
Proof. apply (consumes_loop key_path_body ([], p)), key_path_body_consumes. Qed.

Lemma parse_atom_consumes p : consumes snd 1 (length (rest p)) (parse_atom p).
Proof.
  unfold parse_atom, scan_while.
  destruct (toml_scan_spec atom_char (rest p) (pos p)) as (w & H & _).
  set (q := scan atom_char (pos p) (rest p)) in *. clearbody q. rewrite H, slice_app.
  case_bool_decide as E; [done|]. cbn [consumes snd]. rewrite length_app.
  destruct w; [by destruct E|]. simpl. lia.
Qed.

Lemma array_body_consumes element st :
  (forall p, consumes snd 1 (length (rest p)) (element p)) ->
  consumes outcome 1 (unread st) (array_body element st).
Proof.
  intros He. destruct st as [items p]. unfold array_body. split_if; [cbn [consumes]; parser_lengths|].
  eapply (toml_consumes_bind snd outcome 1).
  - eapply toml_consumes_weaken; [apply He|]. parser_lengths.
  - intros [v p'] Hv. repeat split_if; cbn [consumes]; try done; parser_lengths.
Qed.

Lemma table_body_consumes element st :
  (forall p, consumes snd 1 (length (rest p)) (element p)) ->
  consumes outcome 1 (unread st) (table_body element st).
Proof.
  intros He. destruct st as [entries p]. unfold table_body. eapply (toml_consumes_bind snd outcome 1).
  { eapply toml_consumes_weaken; [apply parse_key_path_consumes|]. parser_lengths. }
  intros [kp p1] H1. eapply (toml_consumes_bind id outcome 1).
  { eapply toml_consumes_weaken; [apply expect_consumes|]. parser_lengths. }
  intros p2 H2. eapply (toml_consumes_bind snd outcome 1).
  { eapply toml_consumes_weaken; [apply He|]. parser_lengths. }
  intros [v p3] H3. destruct (set_nested _ _ _); [|done]. cbn [lift map_err fbind].
  repeat split_if; cbn [consumes]; try done; parser_lengths.
Qed.

Lemma parse_value_fuel_consumes fuel : forall depth p,
  (MAX_DEPTH < fuel + depth)%nat -> consumes snd 1 (length (rest p)) (parse_value_fuel fuel depth p).
Proof.
  induction fuel as [|fuel IH]; intros depth p Hf; cbn [parse_value_fuel];
    (destruct (MAX_DEPTH <? depth)%nat eqn:Ed; [done|]); [apply Nat.ltb_ge in Ed; lia|].
  destruct (peek _) as [b|] eqn:Eb; [|done].
  repeat (split_if; [|]); try done.
  - eapply (toml_consumes_bind snd snd 1); [|by intros [] ?].
    eapply toml_consumes_weaken; [apply parse_basic_string_consumes|]. parser_lengths.
  - eapply (toml_consumes_bind snd snd 1); [|by intros [] ?].
    eapply toml_consumes_weaken; [apply parse_literal_string_consumes|]. parser_lengths.
  - eapply toml_consumes_weaken; [apply consumes_loop|].
    + intros st. apply array_body_consumes. intros q. apply IH. lia.
    + parser_lengths.
  - cbn [consumes]. parser_lengths.
  - eapply toml_consumes_weaken; [apply consumes_loop|].
    + intros st. apply table_body_consumes. intros q. apply IH. lia.
    + parser_lengths.
  - eapply toml_consumes_weaken; [apply parse_atom_consumes|]. parser_lengths.
Qed.

Lemma parse_value_consumes depth p : consumes snd 1 (length (rest p)) (parse_value depth p).
Proof. apply parse_value_fuel_consumes. unfold MAX_DEPTH. lia. Qed.

Lemma finish_line_consumes p : consumes id 0 (length (rest p)) (finish_line p).
Proof.
  unfold finish_line. set (q := skip_inline_ws p).
  set (q' := if bool_decide (peek q = Some x23) then scan_while not_newline q else q).
  assert (length (rest q') <= length (rest p))%nat as Hq by (subst q q'; split_if; parser_lengths).
  cbv zeta. destruct (peek q') eqn:E; [split_if; [|done]|]; cbn [consumes]; parser_lengths.
Qed.

Lemma header_consumes root p :
  peek p = Some x5b ->
  consumes snd 1 (length (rest p))
    (if bool_decide (peek (advance 1 p) = Some x5b) then
       let! (path, p) := parse_key_path (advance 2 p) in
       let! p := expect x5d p in
       let! p := expect x5d p in
       let! root := lift (append_array_table root path) in
       Some (Ok (root, path, p))
     else
       let! (path, p) := parse_key_path (advance 1 p) in
       let! p := expect x5d p in
       let! root := lift (get_or_create root path (fun t => Ok t)) in
       Some (Ok (root, path, p))).
Proof.
  intros Hp. split_if.
  - eapply (toml_consumes_bind snd snd 1).
    { eapply toml_consumes_weaken; [apply parse_key_path_consumes|]. parser_lengths. }
    intros [kp p1] H1. eapply (toml_consumes_bind id snd 1).
    { eapply toml_consumes_weaken; [apply expect_consumes|]. parser_lengths. }
    intros p2 H2. eapply (toml_consumes_bind id snd 1).
    { eapply toml_consumes_weaken; [apply expect_consumes|]. parser_lengths. }
    intros p3 H3. destruct (append_array_table _ _); [|done]. cbn [lift map_err fbind consumes]. parser_lengths.
  - eapply (toml_consumes_bind snd snd 1).
    { eapply toml_consumes_weaken; [apply parse_key_path_consumes|]. parser_lengths. }
    intros [kp p1] H1. eapply (toml_consumes_bind id snd 1).
    { eapply toml_consumes_weaken; [apply expect_consumes|]. parser_lengths. }
    intros p2 H2. destruct (get_or_create _ _ _); [|done]. cbn [lift map_err fbind consumes]. parser_lengths.
Qed.

Lemma statement_consumes root current p : consumes snd 1 (length (rest p)) (statement root current p).
Proof.
  unfold statement. split_if.
  - eapply (toml_consumes_bind snd snd 1); [by apply header_consumes|].
    intros [[root' cur'] p1] H1. eapply (toml_consumes_bind id snd 1).
    { eapply toml_consumes_weaken; [apply finish_line_consumes|]. parser_lengths. }
    intros p2 H2. done.
  - eapply (toml_consumes_bind snd snd 1); [apply parse_key_path_consumes|].
    intros [kp p1] H1. eapply (toml_consumes_bind id snd 1).
    { eapply toml_consumes_weaken; [apply expect_consumes|]. parser_lengths. }
    intros p2 H2. eapply (toml_consumes_bind snd snd 1).
    { eapply toml_consumes_weaken; [apply parse_value_consumes|]. parser_lengths. }
    intros [v p3] H3. destruct (resolve _ _ _); [|done]. cbn [lift map_err fbind].
    eapply (toml_consumes_bind id snd 1).
    { eapply toml_consumes_weaken; [apply finish_line_consumes|]. parser_lengths. }
    intros p4 H4. done.
Qed.

Lemma parse_body_decreases st st' :
  parse_body st = Some (Ok (inl st')) -> (unread st' < unread st)%nat.
Proof.
  destruct st as [[root current] p]. unfold parse_body. destruct (peek _) as [b|] eqn:E; [|done].
  pose proof (statement_consumes root current (skip_ws_nl_comments p)) as H.
  destruct (statement _ _ _) as [[st''|]|]; [|done..]. cbn [fbind]. intros [= ->]. simpl in H.
  parser_lengths.
Qed.

Lemma parse_body_returns st : parse_body st <> None.
Proof.
  destruct st as [[root current] p]. unfold parse_body. destruct (peek _) as [b|] eqn:E; [|done].
  pose proof (statement_consumes root current (skip_ws_nl_comments p)) as H.
  by destruct (statement _ _ _) as [[st''|]|].
Qed.

(** The parser returns on every document. *)
Theorem toml_from_str_total (input : bytes) : exists r, from_str input = Some r.
Proof.
  unfold from_str. apply (run_loop_ind parse_body unread parse_body_decreases (fun _ r => exists x, r = Some x)).
  - eauto.
  - intros s E. by apply parse_body_returns in E.
  - eauto.
  - done.
Qed.

(** ** Parsed documents have unique keys *)

Fixpoint unique_keys (v : Value) : bool :=
  match v with
  | Value.Array a => forallb unique_keys a
  | Value.Object o => bool_decide (NoDup (map fst o)) && forallb (fun kv => unique_keys (snd kv)) o
  | _ => true
  end.

Definition table_ok (t : Table) : Prop :=
  NoDup (map fst t) /\ Forall (fun kv => unique_keys (snd kv) = true) t.

Lemma toml_unique_object o : unique_keys (Value.Object o) = true <-> table_ok o.
Proof.
  cbn [unique_keys]. unfold table_ok. rewrite andb_true_iff, bool_decide_eq_true, forallb_forall, Forall_forall.
  by setoid_rewrite list_elem_of_In.
Qed.

Lemma unique_array a : unique_keys (Value.Array a) = true <-> Forall (fun v => unique_keys v = true) a.
Proof. cbn [unique_keys]. rewrite forallb_forall, Forall_forall. by setoid_rewrite list_elem_of_In. Qed.

(** An update of a table that keeps its keys unique. *)
Definition keeps {X} (ok : X -> Prop) (f : X -> Result X CodecError) : Prop :=
  forall x x', ok x -> f x = Ok x' -> ok x'.

Lemma rbind_Ok {X Y E} (r : Result X E) (g : X -> Result Y E) y :
  rbind r g = Ok y -> exists x, r = Ok x /\ g x = Ok y.
Proof. destruct r; [by eexists|done]. Qed.

Lemma with_value_keeps cur idx f :
  keeps (fun v => unique_keys v = true) f -> table_ok cur ->
  forall cur', with_value cur idx f = Ok cur' -> table_ok cur'.
Proof.
  intros Hf [Hn Hv] cur'. unfold with_value. destruct (cur !! idx) as [[k v]|] eqn:E; [|by intros [= <-]].
  intros (v' & Ev & [= <-])%rbind_Ok. split.
  - rewrite list_fmap_insert. simpl. rewrite list_insert_id; [done|]. by rewrite list_lookup_fmap, E.
  - apply Forall_insert; [done|]. simpl. eapply Hf; [|exact Ev].
    eapply Forall_lookup_1 in Hv; [|exact E]. done.
Qed.

Lemma last_take_app {X} (l : list X) x : last l = Some x -> l = take (length l - 1) l ++ [x].
Proof.
  intros H. destruct l as [|y l] using rev_ind; [done|]. rewrite last_snoc in H. inv H.
  rewrite length_app. cbn [length]. rewrite Nat.add_sub, take_app_length. done.
Qed.

Lemma descend_keeps seg k : keeps table_ok k -> keeps (fun v => unique_keys v = true) (descend seg k).
Proof.
  intros Hk v v' Hv. unfold descend. destruct v as [| | | | | | |a|o]; try done.
  - destruct (last a) as [[| | | | | | | |o]|] eqn:El; try done.
    apply last_take_app in El. intros (o' & Eo & [= <-])%rbind_Ok.
    apply unique_array. apply unique_array in Hv. rewrite El in Hv.
    apply Forall_app in Hv as [H1 H2]. inv H2. apply Forall_app. split; [done|].
    constructor; [|done]. apply toml_unique_object. eapply Hk; [|exact Eo]. by apply toml_unique_object.
  - intros (o' & Eo & [= <-])%rbind_Ok. apply toml_unique_object. eapply Hk; [|exact Eo]. by apply toml_unique_object.
Qed.

Lemma position_None seg cur : position seg cur = None -> seg ∉ map fst cur.
Proof.
  induction cur as [|[k v] cur IH]; cbn [position map fst]; [set_solver|].
  case_bool_decide; [done|]. destruct (position seg cur); [done|]. set_solver.
Qed.

Lemma position_Some seg cur i : position seg cur = Some i -> exists v, cur !! i = Some (seg, v).
Proof.
  revert i. induction cur as [|[k v] cur IH]; intros i; cbn [position]; [done|].
  case_bool_decide; [intros [= <-]; subst; by eexists|].
  destruct (position seg cur) as [j|]; [|done]. intros [= <-]. by apply IH.
Qed.

Lemma table_ok_snoc t k v :
  table_ok t -> k ∉ map fst t -> unique_keys v = true -> table_ok (t ++ [(k, v)]).
Proof.
  intros [Hn Hv] Hk Hu. split.
  - rewrite map_app. apply NoDup_app. split_and!; [done|set_solver|apply NoDup_singleton].
  - apply Forall_app. split; [done|]. by constructor.
Qed.

Lemma resolve_keeps path : forall k, keeps table_ok k -> keeps table_ok (fun t => resolve t path k).
Proof.
  induction path as [|seg path IH]; intros k Hk t t' Ht; cbn [resolve]; [by apply Hk|].
  destruct (position seg t) as [i|]; [|done]. apply with_value_keeps; [|done].
  apply descend_keeps. by apply IH.
Qed.

Lemma get_or_create_keeps path : forall k, keeps table_ok k -> keeps table_ok (fun t => get_or_create t path k).
Proof.
  induction path as [|seg path IH]; intros k Hk t t' Ht; cbn [get_or_create]; [by apply Hk|].
  destruct (position seg t) as [i|] eqn:E; (apply with_value_keeps; [by apply descend_keeps, IH|]).
  - done.
  - apply table_ok_snoc; [done|by apply position_None|done].
Qed.

Lemma set_nested_keeps kp v : unique_keys v = true -> keeps table_ok (fun t => set_nested t kp v).
Proof.
  intros Hv t t' Ht. unfold set_nested. destruct (split_last kp) as [[k ps]|]; [|done].
  apply get_or_create_keeps; [|done]. intros u u' Hu. destruct (existsb _ u) eqn:E; [done|].
  intros [= <-]. apply table_ok_snoc; [done| |done]. intros (kv & Ek & Hin)%list_elem_of_fmap.
  apply not_true_iff_false in E. apply E, existsb_exists. exists kv.
  split; [by apply list_elem_of_In|]. by apply bool_decide_eq_true.
Qed.

Lemma append_array_table_keeps path : keeps table_ok (fun t => append_array_table t path).
Proof.
  intros t t' Ht. unfold append_array_table. destruct (split_last path) as [[k ps]|]; [|done].
  apply get_or_create_keeps; [|done]. intros u u' Hu. intros ([base idx] & E & H)%rbind_Ok.
  assert (table_ok base) as Hb.
  { destruct (position k u) as [i|] eqn:Ep.
    - destruct (u !! i) as [[? []]|]; try done. by inv E.
    - inv E. apply table_ok_snoc; [done|by apply position_None|done]. }
  eapply with_value_keeps; [|exact Hb|exact H]. intros v v' Hv Ev.
  destruct v; inv Ev; try done. apply unique_array. apply unique_array in Hv.
  apply Forall_app. split; [done|]. by constructor.
Qed.

Lemma fbind_Ok {X Y E} (r : option (Result X E)) (g : X -> option (Result Y E)) y :
  fbind r g = Some (Ok y) -> exists x, r = Some (Ok x) /\ g x = Some (Ok y).
Proof. destruct r as [[x|]|]; [by eexists|done..]. Qed.

Lemma lift_Ok {X} (r : Result X CodecError) x : lift r = Some (Ok x) -> r = Ok x.
Proof. destruct r; [by intros [= ->]|done]. Qed.

(** A parser of values with unique keys. *)
Definition yields_unique (f : Parser -> option (Result (Value * Parser) Stop)) : Prop :=
  forall p v p', f p = Some (Ok (v, p')) -> unique_keys v = true.

Lemma array_loop_unique element fuel p :
  yields_unique element -> forall v p', loop (array_body element) fuel ([], p) = Some (Ok (v, p')) -> unique_keys v = true.
Proof.
  intros He v p'. apply (loop_invariant (array_body element)
    (fun st => Forall (fun v => unique_keys v = true) (fst st)) (fun r => unique_keys (fst r) = true));
    [| |constructor]; intros [items q].
  - intros [items' q'] Hi. unfold array_body. case_bool_decide as Ec; [done|].
    intros ([w q2] & Hw & H)%fbind_Ok. apply He in Hw. repeat split_if_in H; inv H.
    apply Forall_app. split; [done|]. by constructor.
  - intros [a q'] Hi. unfold array_body. case_bool_decide as Ec; [intros [= <- _]; by apply unique_array|].
    intros ([w q2] & Hw & H)%fbind_Ok. apply He in Hw. repeat split_if_in H; inv H.
    apply unique_array, Forall_app. split; [done|]. by constructor.
Qed.

Lemma table_loop_unique element fuel p :
  yields_unique element -> forall v p', loop (table_body element) fuel ([], p) = Some (Ok (v, p')) -> unique_keys v = true.
Proof.
  intros He v p'. apply (loop_invariant (table_body element)
    (fun st => table_ok (fst st)) (fun r => unique_keys (fst r) = true));
    [| |split; constructor]; intros [entries q] [x q'] Ht H; unfold table_body in H;
    apply fbind_Ok in H as ([kp p1] & _ & H);
    apply fbind_Ok in H as (p2 & _ & H); apply fbind_Ok in H as ([w p3] & Hw & H);
    apply fbind_Ok in H as (t & Hs%lift_Ok & H); apply He in Hw;
    repeat split_if_in H; inv H; cbn [fst].
  - by eapply set_nested_keeps.
  - apply toml_unique_object. by eapply set_nested_keeps.
Qed.

Lemma atom_unique tok : unique_keys (atom tok) = true.
Proof.
  unfold atom. repeat (split_if; [done|]). unfold atom_number. destruct (radix_int tok) as [v|] eqn:E.
  - unfold radix_int in E. apply bind_Some in E as ([r radix] & _ & E).
    destruct (i64_from_str_radix _ _); [by inv E|].
    destruct (parse_uint _ _ _); by inv E.
  - cbv zeta. repeat (case_match; try done).
Qed.

Lemma parse_value_fuel_unique fuel : forall depth, yields_unique (parse_value_fuel fuel depth).
Proof.
  induction fuel as [|fuel IH]; intros depth p v p'; cbn [parse_value_fuel];
    (destruct (MAX_DEPTH <? depth)%nat; [done|]); [done|].
  destruct (peek _) as [b|]; [|done]. repeat (split_if; [|]); try done.
  - intros ([s q] & _ & [= <- _])%fbind_Ok. done.
  - intros ([s q] & _ & [= <- _])%fbind_Ok. done.
  - by apply array_loop_unique.
  - by intros [= <- _].
  - by apply table_loop_unique.
  - unfold parse_atom. case_bool_decide; [done|]. intros [= <- _].
    apply atom_unique.
Qed.

Lemma statement_keeps root current p st :
  table_ok root -> statement root current p = Some (Ok st) -> table_ok (fst (fst st)).
Proof.
  intros Hr. unfold statement. case_bool_decide as Ec.
  - intros ([[root' cur'] p1] & H1 & (p2 & _ & [= <-])%fbind_Ok)%fbind_Ok. cbn [fst].
    split_if_in H1; apply fbind_Ok in H1 as ([path q] & _ & H1); apply fbind_Ok in H1 as (q2 & _ & H1).
    + apply fbind_Ok in H1 as (q3 & _ & H1). apply fbind_Ok in H1 as (r & Er%lift_Ok & [= <- _ _]).
      by eapply append_array_table_keeps.
    + apply fbind_Ok in H1 as (r & Er%lift_Ok & [= <- _ _]).
      eapply get_or_create_keeps; [|exact Hr|exact Er]. by intros x x' Hx [= <-].
  - intros ([kp p1] & _ & H)%fbind_Ok. apply fbind_Ok in H as (p2 & _ & H).
    apply fbind_Ok in H as ([v p3] & Hv%parse_value_fuel_unique & H).
    apply fbind_Ok in H as (r & Er%lift_Ok & H). apply fbind_Ok in H as (p4 & _ & [= <-]). cbn [fst].
    eapply (resolve_keeps current (fun base => set_nested base kp v)); [|exact Hr|exact Er].
    by apply set_nested_keeps.
Qed.

(** Every table of a parsed document, inline tables included, has unique keys:
    a duplicate definition is an error however it is written (a dotted key, a
    table header, an inline table). *)
Theorem parsed_keys_unique (input : bytes) (v : Value) :
  from_str input = Some (Ok v) -> unique_keys v = true.
Proof.
  apply (loop_invariant parse_body (fun st => table_ok (fst (fst st))) (fun v => unique_keys v = true));
    [| |split; constructor]; intros [[root current] p]; unfold parse_body; destruct (peek _).
  - intros st' Ht (st & Hst & [= <-])%fbind_Ok. by eapply statement_keeps.
  - done.
  - intros st' Ht (st & Hst & [=])%fbind_Ok.
  - intros v' Ht [= <-]. by apply toml_unique_object.
Qed.

Lemma parsed_keys_unique_witness : unique_keys (Value.Object [(b!"a", Value.Object [(b!"b", Value.Int 1)])]) = true.
Proof.
  apply (parsed_keys_unique (b!"a.b = 1")). vm_compute. reflexivity.
Defined.

(** A [\u] escape cut short by a multi-byte character makes the parser panic:
    the slice ends inside the character. *)
Example short_escape_panics :
  from_str (b!"a = " ++ [x22] ++ b!"\u000" ++ [xc3; xa9; x22]) = Some (Err Panic).
Proof. vm_compute. reflexivity. Qed.

(** The digits of an escape may start with a plus sign. *)
Example signed_escape_accepted :
  from_str (b!"a = " ++ [x22] ++ b!"\u+041" ++ [x22]) = Some (Ok (Value.Object [(b!"a", Value.Str (b!"A"))])).
Proof. vm_compute. reflexivity. Qed.

End Toml.
