(* ===== verification/TomlRoundtrip.v ===== *)
(** * TOML documents read back ([codec/toml.rs])

    The round trip of the TOML codec: the reference text of a value ([render]) and of a document ([doc_text]),
    that the encoder writes it, and that the parser reads it back as the normal form of the value
    ([toml_roundtrip]).  The document under construction is described by the open tables on the path to the
    current one ([Frame]). *)

From Stdlib Require Import SpecFloat.
From S2P Require Import Prelude Text Scan Value Json Toml.

Open Scope Z_scope.

Module TomlRoundtrip.
Import Toml.

(** ** The text the encoder writes *)

Definition esc (s : bytes) : bytes := flat_map (fun b => default [b] (escape b)) s.
Definition quote (s : bytes) : bytes := [x22] ++ esc s ++ [x22].

(** Entries that are not null. *)
Definition present (o : Table) : Table := List.filter (fun kv => negb (is_null (snd kv))) o.

(** The inline text of a value. *)
Fixpoint render (v : Value) : bytes :=
  match v with
  | Value.Null => [x22; x22]
  | Value.Bool b => if b then b!"true" else b!"false"
  | Value.Int i => write_i64 [] i
  | Value.UInt u => write_u64 [] u
  | Value.Float f => write_float [] f
  | Value.Str s => quote s
  | Value.Bytes b => [x5b] ++ join (b!", ") (map (fun x => write_u64 [] (b2z x)) b) ++ [x5d]
  | Value.Array a => [x5b] ++ join (b!", ") (map render a) ++ [x5d]
  | Value.Object o =>
      let entries :=
        flat_map (fun kv => if is_null (snd kv) then []
                            else [key_repr (fst kv) ++ b!" = " ++ render (snd kv)]) o in
      if is_empty entries then b!"{}" else b!"{ " ++ join (b!", ") entries ++ b!" }"
  end.

Definition header (path : list bytes) : bytes := join [x2e] (map key_repr path).

(** The text of a table at a path: its own entries, then its sections. *)
Definition line (kv : bytes * Value) : bytes := key_repr (fst kv) ++ b!" = " ++ render (snd kv) ++ [x0a].

Fixpoint doc_text (v : Value) (path : list bytes) : bytes :=
  match v with
  | Value.Object o =>
      flat_map (fun kv => if is_null (snd kv) || is_section (snd kv) then [] else line kv) o ++
      flat_map (fun kv =>
        let path := path ++ [fst kv] in
        match snd kv with
        | Value.Object (_ :: _) => [x0a; x5b] ++ header path ++ [x5d; x0a] ++ doc_text (snd kv) path
        | Value.Array a =>
            if is_array_of_tables a then
              flat_map (fun item =>
                [x0a; x5b; x5b] ++ header path ++ [x5d; x5d; x0a] ++ doc_text item path) a
            else []
        | _ => []
        end) o
  | _ => []
  end.

Lemma write_basic_loop_spec cur : forall o run,
  write_basic_loop o (run ++ cur) cur = o ++ run ++ esc cur.
Proof.
  induction cur as [|b cur IH]; intros o run; cbn [write_basic_loop]; [done|].
  unfold esc. cbn [flat_map]. fold (esc cur). destruct (escape b) as [e|] eqn:E; cbn [default from_option id].
  - rewrite slice_app. pose proof (IH (o ++ run ++ e) []) as H. cbn [app] in H. rewrite H.
    by rewrite <- !app_assoc.
  - rewrite cons_middle, app_assoc, IH. by rewrite <- !app_assoc.
Qed.

Lemma write_basic_string_spec o s : write_basic_string o s = o ++ quote s.
Proof.
  unfold write_basic_string, quote. pose proof (write_basic_loop_spec s (o ++ [x22]) []) as H.
  cbn [app] in H. rewrite H. simpl. by rewrite <- !app_assoc.
Qed.

Lemma write_float_app o f : write_float o f = o ++ write_float [] f.
Proof.
  unfold write_float. destruct (F64.is_nan f); [done|]. destruct (negb (F64.is_finite f)); [by split_if|].
  cbn [length app].
  rewrite drop_app_length, drop_0. destruct (negb _); [by rewrite <- app_assoc|done].
Qed.

(** A left fold that puts a comma before every element but the first. *)
Lemma fold_comma {A} (write : A -> bytes -> bytes) (txt : A -> bytes) l :
  Forall (fun x => forall out, write x out = out ++ txt x) l ->
  forall i out, foldl (fun st x => (S (fst st), write x (comma (fst st) (snd st)))) (i, out) l =
    ((i + length l)%nat,
     (if (0 <? i)%nat && negb (is_empty l) then out ++ b!", " else out) ++ join (b!", ") (map txt l)).
Proof.
  induction 1 as [|x l Hx Hl IH]; intros i out.
  - cbn [foldl length is_empty negb map join]. by rewrite andb_false_r, app_nil_r, Nat.add_0_r.
  - cbn [foldl fst snd is_empty negb map length]. rewrite Hx, IH, andb_true_r.
    f_equal; [lia|]. unfold comma. cbn [Nat.ltb Nat.leb andb].
    destruct l as [|y l]; cbn [is_empty negb].
    + cbn [map join]. rewrite app_nil_r. done.
    + cbn [map join]. by rewrite <- !app_assoc.
Qed.

Lemma foldl_skip {A B} (f : B -> A -> B) (skip : A -> bool) l : forall b,
  foldl (fun b x => if skip x then b else f b x) b l = foldl f b (List.filter (fun x => negb (skip x)) l).
Proof.
  induction l as [|x l IH]; intros b; [done|]. cbn [foldl List.filter]. rewrite IH. by destruct (skip x).
Qed.

Lemma flat_map_filter {A B} (f : A -> B) (skip : A -> bool) l :
  flat_map (fun x => if skip x then [] else [f x]) l = map f (List.filter (fun x => negb (skip x)) l).
Proof. induction l as [|x l IH]; [done|]. cbn [flat_map List.filter]. rewrite IH. by destruct (skip x). Qed.

Lemma Forall_present (P : bytes * Value -> Prop) o : Forall P o -> Forall P (present o).
Proof.
  rewrite !Forall_forall. intros H x. rewrite list_elem_of_In. unfold present. rewrite filter_In.
  intros [Hx _]. apply H. by apply list_elem_of_In.
Qed.

Lemma all_null_present o : forallb (fun kv => is_null (snd kv)) o = is_empty (present o).
Proof.
  induction o as [|kv o IH]; [done|]. cbn [forallb present List.filter]. fold (present o).
  destruct (is_null (snd kv)); [by rewrite IH|done].
Qed.

Lemma render_object o :
  render (Value.Object o) =
  if is_empty (present o) then b!"{}"
  else b!"{ " ++ join (b!", ") (map (fun kv => key_repr (fst kv) ++ b!" = " ++ render (snd kv)) (present o)) ++ b!" }".
Proof.
  cbn [render]. cbv zeta. rewrite (flat_map_filter (fun kv => key_repr (fst kv) ++ b!" = " ++ render (snd kv))).
  fold (present o). by destruct (present o).
Qed.

Lemma write_inline_spec v : forall out, write_inline v out = out ++ render v.
Proof.
  induction v as [|b|i|u|f|s|b|a IH|o IH] using value_ind'; intros out.
  - done.
  - done.
  - apply write_i64_app.
  - apply write_u64_app.
  - apply write_float_app.
  - apply write_basic_string_spec.
  - cbn [write_inline render]. rewrite (fold_comma (fun x out => write_u64 out (b2z x)) (fun x => write_u64 [] (b2z x))).
    + cbn [snd Nat.ltb Nat.leb andb]. by rewrite <- !app_assoc.
    + apply Forall_true. intros x o. apply write_u64_app.
  - cbn [write_inline render]. rewrite (fold_comma write_inline render) by done.
    cbn [snd Nat.ltb Nat.leb andb]. by rewrite <- !app_assoc.
  - rewrite render_object. cbn [write_inline]. rewrite all_null_present.
    destruct (is_empty (present o)) eqn:E; [done|].
    rewrite (foldl_skip (fun st kv => (S (fst st),
      write_inline (snd kv) (write_key (comma (fst st) (snd st)) (fst kv) ++ b!" = ")))).
    fold (present o).
    rewrite (fold_comma (fun kv out => write_inline (snd kv) (write_key out (fst kv) ++ b!" = "))
      (fun kv => key_repr (fst kv) ++ b!" = " ++ render (snd kv))).
    + cbn [snd Nat.ltb Nat.leb andb]. by rewrite <- !app_assoc.
    + apply Forall_present. eapply Forall_impl; [exact IH|]. intros kv Hkv o'. rewrite Hkv.
      unfold write_key. by rewrite <- !app_assoc.
Qed.

Lemma key_repr_nonempty k : key_repr k <> [].
Proof.
  unfold key_repr. rewrite write_basic_string_spec. case_bool_decide; cbn [negb andb].
  - done.
  - by destruct (forallb _ _).
Qed.

Lemma header_snoc path k : header (path ++ [k]) = header_join (header path) k.
Proof.
  unfold header, header_join. rewrite map_app. cbn [map]. rewrite join_snoc.
  destruct path as [|p path]; [done|]. rewrite decide_False by done.
  rewrite bool_decide_false; [by rewrite <- app_assoc|].
  cbn [map]. destruct path; cbn [map join]; pose proof (key_repr_nonempty p); by destruct (key_repr p).
Qed.

(** Induction on tables: the elements of an array entry are in reach. *)
Definition below (P : Value -> Prop) (v : Value) : Prop :=
  P v /\ match v with Value.Array a => Forall P a | _ => True end.

Lemma table_ind (P : Value -> Prop) :
  (forall v, is_object v = false -> P v) ->
  (forall o, Forall (fun kv => below P (snd kv)) o -> P (Value.Object o)) ->
  forall v, P v.
Proof.
  intros Hv Ho v. cut (below P v); [by intros []|].
  induction v as [| | | | | | |a IH|o IH] using value_ind'; (split; [|try done]); auto.
  eapply Forall_impl; [exact IH|]. by intros x [].
Qed.

Lemma array_of_tables_Forall a : is_array_of_tables a = true -> Forall (fun v => is_object v = true) a.
Proof.
  intros [_ H]%andb_true_iff. rewrite forallb_forall in H. apply Forall_forall. intros x Hx.
  by apply H, list_elem_of_In.
Qed.

Lemma write_section_spec v : forall path out,
  write_section v (header path) out = out ++ doc_text v path.
Proof.
  induction v as [v Hv|o IH] using table_ind; intros path out.
  { destruct v; try done; cbn [write_section doc_text]; by rewrite app_nil_r. }
  cbn [write_section doc_text].
  rewrite (foldl_texts
    (fun out kv => if is_null (snd kv) || is_section (snd kv) then out
                   else write_inline (snd kv) (write_key out (fst kv) ++ b!" = ") ++ [x0a])
    (fun kv => if is_null (snd kv) || is_section (snd kv) then [] else line kv)).
  2:{ apply Forall_true. intros kv out'. split_if; [by rewrite app_nil_r|].
      rewrite write_inline_spec. unfold write_key, line. by rewrite <- !app_assoc. }
  rewrite app_assoc. apply foldl_texts. eapply Forall_impl; [exact IH|].
  intros [k v] [Hv Ha] out'. cbn [fst snd] in *.
  destruct v as [| | | | | | |a|[|kv o']]; try by rewrite app_nil_r.
  - destruct (is_array_of_tables a) eqn:Ea; [|by rewrite app_nil_r]. rewrite <- header_snoc.
    apply (foldl_texts _ (fun item => [x0a; x5b; x5b] ++ header (path ++ [k]) ++ [x5d; x5d; x0a] ++ doc_text item (path ++ [k]))).
    apply array_of_tables_Forall in Ea. eapply Forall_impl; [exact (proj2 (Forall_and _ _) (conj Ea Ha))|].
    intros item [Ho Hi] out2. destruct item; try done. rewrite Hi. by rewrite <- !app_assoc.
  - rewrite <- header_snoc. rewrite Hv. by rewrite <- !app_assoc.
Qed.

Lemma encode_table o : encode (Value.Object o) = doc_text (Value.Object o) [].
Proof. apply (write_section_spec (Value.Object o) [] []). Qed.

(** ** Reading tokens back *)

(** [f] reads [v] and stops before [r], whatever the position. *)
Definition reads_to {A} (f : Parser -> option (Result (A * Parser) Stop)) (s : bytes) (v : A) (r : bytes) : Prop :=
  forall n, exists n', f (mkP n s) = Some (Ok (v, mkP n' r)).

(** The head of what follows does not belong to the token. *)
Definition stops (f : byte -> bool) (r : bytes) : Prop :=
  match r with b :: _ => f b = false | [] => True end.

Lemma scan_app f w : forall r n,
  Forall (fun b => f b = true) w -> stops f r -> scan f n (w ++ r) = mkP (n + length w) r.
Proof.
  induction w as [|b w IH]; intros r n Hw Hr; cbn [app length].
  - rewrite Nat.add_0_r. destruct r as [|b r]; [done|]. cbn [scan]. simpl in Hr. by rewrite Hr.
  - inv Hw. cbn [scan]. rewrite H1, IH by done. f_equal. lia.
Qed.

Lemma scan_while_app f w r n :
  Forall (fun b => f b = true) w -> stops f r ->
  scan_while f (mkP n (w ++ r)) = mkP (n + length w) r.
Proof. apply scan_app. Qed.

Lemma skip_inline_app w r n :
  Forall (fun b => inline_ws b = true) w -> stops inline_ws r ->
  skip_inline_ws (mkP n (w ++ r)) = mkP (n + length w) r.
Proof. apply scan_app. Qed.

Lemma skip_inline_none r n : stops inline_ws r -> skip_inline_ws (mkP n r) = mkP n r.
Proof.
  intros H. pose proof (skip_inline_app [] r n ltac:(constructor) H) as E. cbn [app length] in E.
  by rewrite Nat.add_0_r in E.
Qed.

Lemma advance_1 n c r : advance 1 (mkP n (c :: r)) = mkP (n + 1) r.
Proof. done. Qed.

(** No continuation byte follows a control byte. *)
Fixpoint splits_ok (s : bytes) : Prop :=
  match s with
  | b :: s' => (b2z b < 32 -> is_char_boundary s' = true) /\ splits_ok s'
  | [] => True
  end.

Lemma utf8_boundary s : Utf8.is_utf8 s = true -> is_char_boundary s = true.
Proof.
  destruct s as [|b s]; [done|]. intros [n Hn]%is_utf8_next. cbn [is_char_boundary].
  revert Hn. destruct b; (discriminate 1 || reflexivity).
Qed.

Lemma utf8_splits s : Utf8.is_utf8 s = true -> splits_ok s.
Proof.
  revert s. apply utf8_ind; [done| |].
  - intros b s Hb Hs IH. split; [|done]. intros _. by apply utf8_boundary.
  - intros q s _ Hq _ IH. induction Hq as [|c q Hc _ IHq]; [done|]. split; [lia|done].
Qed.

Lemma hex4_reads out n a b c d r code :
  is_char_boundary r = true -> parse_uint 16 u32_max [a; b; c; d] = Some code -> Utf8.is_scalar code = true ->
  parse_escape out (mkP n ([x75; a; b; c; d] ++ r)) = Some (Ok (out ++ Utf8.encode_char code, mkP (n + 1 + 4) r)).
Proof.
  intros Hr Hp Hs. unfold parse_escape, advance. cbn [peek rest head app drop pos].
  change (simple_escape x75) with (@None Z). cbv iota beta. rewrite bool_decide_true by done.
  unfold parse_hex, advance. cbn [rest drop length pos take Nat.ltb Nat.leb].
  rewrite drop_0, take_0, Hr, Hp. cbn [negb]. unfold Utf8.char_from_u32. by rewrite Hs.
Qed.

Lemma escape_reads b e :
  escape b = Some e -> exists e', e = x5c :: e' /\
  forall out n r, (b2z b < 32 -> is_char_boundary r = true) ->
    exists n', parse_escape out (mkP n (e' ++ r)) = Some (Ok (out ++ [b], mkP n' r)).
Proof.
  intros E. destruct b; try discriminate E; injection E as <-; eexists; (split; [reflexivity|]);
    intros out n r Hr; (eexists; reflexivity) || (specialize (Hr eq_refl); eexists; erewrite hex4_reads by (exact Hr || reflexivity); reflexivity).
Qed.

Lemma escape_none_run b : escape b = None -> basic_run b = true.
Proof. by destruct b. Qed.

Lemma escape_boundary s r : splits_ok s -> is_char_boundary s = true ->
  is_char_boundary (esc s ++ x22 :: r) = true.
Proof.
  destruct s as [|b s]; [done|]. intros _ Hb. unfold esc. cbn [flat_map]. destruct (escape b) as [e|] eqn:E.
  - by destruct (escape_reads b e E) as (e' & -> & _).
  - done.
Qed.

(** A text is a clean run and then nothing, or an escaped byte. *)
Lemma esc_run s :
  exists run, Forall (fun b => escape b = None) run /\
    (s = run \/ exists b e s', s = run ++ b :: s' /\ escape b = Some e).
Proof.
  induction s as [|b s IH]; [by exists []; auto|]. destruct (escape b) as [e|] eqn:E.
  - exists []. split; [constructor|]. right. by exists b, e, s.
  - destruct IH as (run & Hr & [->|(b' & e & s' & -> & E')]); exists (b :: run).
    + split; [by constructor|]. by left.
    + split; [by constructor|]. right. by exists b', e, s'.
Qed.

Lemma esc_app a b : esc (a ++ b) = esc a ++ esc b.
Proof. apply flat_map_app. Qed.

Lemma esc_clean run : Forall (fun b => escape b = None) run -> esc run = run.
Proof. induction 1 as [|b run Hb _ IH]; [done|]. unfold esc in *. cbn [flat_map]. by rewrite Hb, IH. Qed.

Lemma splits_ok_app a b : splits_ok (a ++ b) -> splits_ok b.
Proof. induction a as [|x a IH]; [done|]. intros [_ H]. by apply IH. Qed.

Lemma basic_body_run run out c r n :
  Forall (fun b => escape b = None) run -> basic_run c = false ->
  basic_body (out, mkP n (run ++ c :: r)) =
  let p' := mkP (n + length run) (c :: r) in
  let out := out ++ run in
  if bool_decide (c = x22) then Some (Ok (inr (out, advance 1 p')))
  else if bool_decide (c = x5c) then
    let! st := parse_escape out (advance 1 p') in Some (Ok (inl st))
  else perr (b!"unterminated string").
Proof.
  intros Hr Hc. unfold basic_body. rewrite scan_while_app.
  - cbn [rest]. by rewrite slice_app.
  - eapply Forall_impl; [exact Hr|]. apply escape_none_run.
  - done.
Qed.

Lemma basic_loop_reads k : forall s out r n,
  (length s < k)%nat -> splits_ok s ->
  exists n', run_loop basic_body unread (out, mkP n (esc s ++ x22 :: r)) =
             Some (Ok (out ++ s, mkP n' r)).
Proof.
  induction k as [|k IH]; intros s out r n Hk Hs; [lia|].
  rewrite (run_loop_eq basic_body unread) by (apply loop_decreases, basic_body_consumes).
  destruct (esc_run s) as (run & Hr & [->|(b & e & s' & -> & E)]).
  - rewrite esc_clean by done. rewrite basic_body_run by done. cbv zeta.
    rewrite bool_decide_true by done. cbn [fbind]. by eexists.
  - destruct (escape_reads b e E) as (e' & -> & Hesc). apply splits_ok_app in Hs as [Hb Hs].
    rewrite esc_app, (esc_clean run) by done. change (esc (b :: s')) with (default [b] (escape b) ++ esc s').
    rewrite E. cbn [default from_option id]. rewrite <- !app_assoc. cbn [app].
    rewrite basic_body_run by done. cbv zeta. rewrite bool_decide_false by done. rewrite bool_decide_true by done.
    rewrite advance_1.
    destruct (Hesc (out ++ run) (n + length run + 1)%nat (esc s' ++ x22 :: r)) as [n1 ->].
    { intros Hlt. apply escape_boundary; auto. }
    cbn [fbind]. destruct (IH s' ((out ++ run) ++ [b]) r n1) as [n2 ->].
    + rewrite length_app in Hk. cbn [length] in Hk. lia.
    + done.
    + exists n2. by rewrite <- !app_assoc.
Qed.

Lemma basic_string_reads s r : Utf8.is_utf8 s = true -> reads_to parse_basic_string (quote s ++ r) s r.
Proof.
  intros Hs n. unfold quote. rewrite <- !app_assoc. unfold parse_basic_string. cbn [app]. rewrite advance_1.
  apply (basic_loop_reads (S (length s))); [lia|]. by apply utf8_splits.
Qed.

(** What may follow a key: spaces, then a byte that ends the path. *)
Definition key_follow (r r' : bytes) : Prop :=
  exists w, r = w ++ r' /\ Forall (fun b => inline_ws b = true) w /\
    match r' with c :: _ => inline_ws c = false /\ bare_key_char c = false /\ c <> x2e | [] => True end.

Lemma bare_not_quote b : bare_key_char b = true -> b <> x22 /\ b <> x27 /\ inline_ws b = false.
Proof. by destruct b. Qed.

Lemma inline_ws_stops_bare b : inline_ws b = true -> bare_key_char b = false.
Proof. by destruct b. Qed.

Lemma key_repr_head k : exists c t, key_repr k = c :: t /\ inline_ws c = false /\
  (c = x22 \/ bare_key_char c = true).
Proof.
  unfold key_repr. rewrite write_basic_string_spec. destruct k as [|c t]; [by exists x22, [x22]; auto|].
  rewrite bool_decide_false by done. cbn [negb andb]. destruct (forallb _ _) eqn:E.
  - cbn [forallb] in E. apply andb_true_iff in E as [E _]. exists c, t.
    pose proof (bare_not_quote c E). naive_solver.
  - eexists x22, _. split; [reflexivity|]. auto.
Qed.

Lemma key_segment_reads k r :
  Utf8.is_utf8 k = true -> stops bare_key_char r -> reads_to parse_key_segment (key_repr k ++ r) k r.
Proof.
  intros Hk Hr n. unfold parse_key_segment, key_repr. rewrite write_basic_string_spec. cbn [app].
  destruct (negb (bool_decide (k = [])) && forallb bare_key_char k) eqn:E.
  - apply andb_true_iff in E as [E1 E2]. destruct k as [|c k]; [done|]. clear E1.
    assert (Forall (fun b => bare_key_char b = true) (c :: k)) as Hf.
    { apply Forall_forall. rewrite forallb_forall in E2. intros x Hx. by apply E2, list_elem_of_In. }
    inversion Hf as [|? ? Hc _]; subst. destruct (bare_not_quote c Hc) as (H1 & H2 & _).
    cbn [peek rest head app]. rewrite !bool_decide_false by congruence.
    change (c :: k ++ r) with ((c :: k) ++ r). rewrite scan_while_app by done.
    cbn [pos rest]. rewrite bool_decide_false by (simpl; lia). rewrite slice_app. by eexists.
  - cbn [peek rest head quote app]. rewrite bool_decide_true by done. by apply basic_string_reads.
Qed.

Lemma key_path_reads path : forall r r' pre,
  path <> [] -> Forall (fun k => Utf8.is_utf8 k = true) path -> key_follow r r' ->
  forall n, exists n', run_loop key_path_body unread (pre, mkP n (header path ++ r)) = Some (Ok (pre ++ path, mkP n' r')).
Proof.
  induction path as [|k path IH]; intros r r' pre Hne Hp Hr n; [done|]. inv Hp.
  rewrite (run_loop_eq key_path_body unread) by (apply loop_decreases, key_path_body_consumes).
  unfold header. cbn [map]. destruct (key_repr_head k) as (c & t & Ek & Hc & _).
  cbn [key_path_body]. destruct path as [|k' path].
  - cbn [map join]. rewrite skip_inline_none by (by rewrite Ek).
    destruct Hr as (w & -> & Hw & Hr').
    destruct (key_segment_reads k (w ++ r') H1) with (n := n) as [n1 ->].
    { destruct w as [|b w]; [destruct r' as [|b r']; [done|]; by destruct Hr' as (_ & ? & _)|].
      inv Hw. by apply inline_ws_stops_bare. }
    cbn [fbind]. rewrite skip_inline_app; [|done|by destruct r'; [|destruct Hr']].
    rewrite bool_decide_false; [cbn [fbind]; by eexists|].
    destruct r' as [|b r']; [done|]. destruct Hr' as (_ & _ & Hdot). cbn [peek rest head]. congruence.
  - rewrite join_cons by done. rewrite <- !app_assoc. rewrite skip_inline_none by (by rewrite Ek).
    destruct (key_segment_reads k ([x2e] ++ join [x2e] (map key_repr (k' :: path)) ++ r) H1 eq_refl n) as [n1 ->].
    cbn [fbind app]. rewrite skip_inline_none by done. cbn [peek rest head].
    rewrite bool_decide_true by done. cbn [fbind]. rewrite advance_1.
    destruct (IH r r' (pre ++ [k]) ltac:(done) H2 Hr (n1 + 1)%nat) as [n2 Hn2].
    unfold header in Hn2. rewrite Hn2. exists n2. by rewrite <- app_assoc.
Qed.

(** ** Reading inline values back *)

(** What a value is after a trip through an inline position: null is the empty
    string (in an array) or dropped (in a table), byte strings are arrays of
    integers, unsigned integers that fit are signed. *)
Fixpoint inline_norm (v : Value) : Value :=
  match v with
  | Value.Null => Value.Str []
  | Value.UInt u => if u <=? i64_max then Value.Int u else Value.UInt u
  | Value.Bytes b => Value.Array (map (fun x => Value.Int (b2z x)) b)
  | Value.Array a => Value.Array (map inline_norm a)
  | Value.Object o =>
      Value.Object (flat_map (fun kv => if is_null (snd kv) then [] else [(fst kv, inline_norm (snd kv))]) o)
  | v => v
  end.

(** Machine ranges hold, floats print faithfully, strings are UTF-8 and the
    keys of a table that are written are distinct. *)
Fixpoint inline_ok (v : Value) : bool :=
  match v with
  | Value.Int i => (i64_min <=? i) && (i <=? i64_max)
  | Value.UInt u => (0 <=? u) && (u <=? u64_max)
  | Value.Float f => negb (F64.is_finite f) || bool_decide (F64.parse (write_float [] f) = Some f)
  | Value.Str s => Utf8.is_utf8 s
  | Value.Array a => forallb inline_ok a
  | Value.Object o =>
      bool_decide (NoDup (map fst (present o))) &&
      forallb (fun kv => is_null (snd kv) || (Utf8.is_utf8 (fst kv) && inline_ok (snd kv))) o
  | _ => true
  end.

Lemma float_shape f :
  F64.is_finite f = true ->
  exists (neg : bool) c r, write_float [] f = (if neg then [x2d] else []) ++ c :: r /\
    F64.is_digit c = true /\ Forall (fun b => dec_char b = true) r /\ x2e ∈ r.
Proof.
  intros Hf. assert (write_float [] f = write_json_f64 [] f) as ->; [|by apply json_float_shape].
  unfold write_float, write_json_f64. rewrite Hf.
  replace (F64.is_nan f) with false by (by destruct f). cbn [negb length app]. rewrite drop_0.
  destruct (display_shape f Hf) as (neg & c & r & -> & Hc & Hr).
  assert (Forall (fun b => dec_char b || bool_decide (b = x2d) = true) ((if neg then [x2d] else []) ++ c :: r)) as H.
  { apply Forall_app. split; [by destruct neg; repeat constructor|]. constructor.
    - unfold dec_char. by rewrite Hc.
    - eapply Forall_impl; [exact Hr|]. intros b Hb. by rewrite Hb. }
  match goal with |- (if negb ?x then _ else _) = (if negb ?y then _ else _) => assert (x = y) as ->; [|done] end.
  induction H as [|b l Hb _ IH]; [done|]. cbn [existsb]. f_equal; [|done]. by destruct b.
Qed.

(** The text of a number: an optional sign, a digit, digits and points. *)
Definition number_text (neg : bool) (c : byte) (t : bytes) : bytes := (if neg then [x2d] else []) ++ c :: t.

Lemma number_text_chars (P : byte -> Prop) neg c t :
  F64.is_digit c = true -> Forall (fun b => dec_char b = true) t ->
  (forall b, dec_char b = true -> P b) -> P x2d -> Forall P (number_text neg c t).
Proof.
  intros Hc Ht HP Hm. unfold number_text. apply Forall_app. split; [destruct neg; repeat constructor; done|].
  constructor; [apply HP; unfold dec_char; by rewrite Hc|]. eapply Forall_impl; [exact Ht|]. done.
Qed.

Lemma strip_underscores_id s : Forall (fun b => b <> x5f) s -> strip_underscores s = s.
Proof.
  induction 1 as [|b s Hb _ IH]; [done|]. unfold strip_underscores in *. cbn [List.filter].
  rewrite bool_decide_false by done. cbn [negb]. by rewrite IH.
Qed.

Lemma radix_int_number neg c t :
  F64.is_digit c = true -> Forall (fun b => dec_char b = true) t -> radix_int (number_text neg c t) = None.
Proof.
  intros Hc Ht. unfold number_text. destruct neg; cbn [app].
  - done.
  - unfold radix_int, strip_prefix. cbn [String.list_byte_of_string starts_with].
    destruct t as [|d t]; [by destruct c|]. inv Ht. by destruct d; try discriminate; destruct c.
Qed.

Lemma atom_number_text neg c t :
  F64.is_digit c = true -> Forall (fun b => dec_char b = true) t ->
  atom (number_text neg c t) =
  let tok := number_text neg c t in
  let fallback :=
    match F64.parse tok with
    | Some f => if has_float_char tok then Value.Float f else Value.Str tok
    | None => Value.Str tok
    end in
  if negb (has_float_char tok) then
    match parse_i64 tok with
    | Some i => Value.Int i
    | None => match parse_u64 tok with Some u => Value.UInt u | None => fallback end
    end
  else fallback.
Proof.
  intros Hc Ht. transitivity (atom_number (number_text neg c t)).
  - assert (existsb F64.is_digit (number_text neg c t) = true) as Hdig.
    { unfold number_text. rewrite existsb_app. cbn [existsb]. rewrite Hc. apply orb_true_r. }
    assert (forall w, existsb F64.is_digit w = false -> number_text neg c t <> w) as Hw by congruence.
    unfold atom. rewrite !bool_decide_false; [done| | | | |];
      rewrite ?elem_of_cons, ?elem_of_nil; intros E; decompose [or] E; (done || by eapply Hw; [|eassumption]).
  - unfold atom_number. rewrite radix_int_number by done. rewrite strip_underscores_id; [done|].
    apply number_text_chars; [done|done| |done]. by intros [].
Qed.

Lemma parse_atom_reads tok r :
  tok <> [] -> Forall (fun b => atom_char b = true /\ solid b = true) tok -> stops atom_char r ->
  reads_to parse_atom (tok ++ r) (atom tok) r.
Proof.
  intros Hne Ht Hr n. apply Forall_and in Ht as [Ha Hs]. unfold parse_atom. rewrite scan_while_app by done.
  cbn [rest]. rewrite slice_app. destruct (trim_solid tok Hs) as [_ ->].
  rewrite bool_decide_false by done. by eexists.
Qed.

(** The first byte of an inline value, as the dispatch of [parse_value] sees it. *)
Definition opens (c : byte) : bool :=
  negb (inline_ws c) && negb (bool_decide (c ∈ [x0a; x23; x2c; x5d; x7d])).

(** A value that reads back at every depth that leaves room for it. *)
Definition reads (v w : Value) : Prop := forall d r,
  (Value.depth v + d <= MAX_DEPTH)%nat -> stops atom_char r -> reads_to (parse_value d) (render v ++ r) w r.

Lemma parse_value_atom d tok r c t :
  (d <= MAX_DEPTH)%nat -> tok = c :: t -> c ∉ [x22; x27; x5b; x7b] ->
  Forall (fun b => atom_char b = true /\ solid b = true) tok -> stops atom_char r ->
  reads_to (parse_value d) (tok ++ r) (atom tok) r.
Proof.
  intros Hd -> Hc Ht Hr n. unfold parse_value. replace (S MAX_DEPTH - d)%nat with (S (MAX_DEPTH - d)) by lia.
  cbn [parse_value_fuel]. rewrite (proj2 (Nat.ltb_ge _ _)) by lia.
  assert (inline_ws c = false) as Hws by (inv Ht; destruct H1; by destruct c).
  rewrite skip_inline_none by done. cbn [app peek rest head].
  rewrite !bool_decide_false by set_solver. change (c :: t ++ r) with ((c :: t) ++ r).
  by apply parse_atom_reads.
Qed.

Lemma dec_char_atom b : dec_char b = true -> atom_char b = true /\ solid b = true.
Proof. by destruct b. Qed.

Lemma toml_parse_value_number d neg c t r :
  (d <= MAX_DEPTH)%nat -> F64.is_digit c = true -> Forall (fun b => dec_char b = true) t -> stops atom_char r ->
  reads_to (parse_value d) (number_text neg c t ++ r) (atom (number_text neg c t)) r.
Proof.
  intros Hd Hc Ht Hr. destruct neg.
  - apply (parse_value_atom d _ r x2d (c :: t)); [done|done|by vm_compute; set_solver| |done].
    by apply number_text_chars; auto using dec_char_atom.
  - apply (parse_value_atom d _ r c t); [done|done| | |done].
    + intros H. by destruct c; try discriminate; vm_compute in H; set_solver.
    + by apply number_text_chars; auto using dec_char_atom.
Qed.

Lemma no_float_char neg c t :
  F64.is_digit c = true -> Forall (fun b => F64.is_digit b = true) t -> has_float_char (number_text neg c t) = false.
Proof.
  intros Hc Ht. apply not_true_iff_false. unfold has_float_char. intros (b & Hb & E)%existsb_exists.
  apply bool_decide_eq_true in E. apply list_elem_of_In in Hb. unfold number_text in Hb.
  assert (F64.is_digit b = true \/ b = x2d) as [H| ->].
  - apply elem_of_app in Hb as [Hb|Hb]; [destruct neg; set_solver|]. left.
    apply elem_of_cons in Hb as [->|Hb]; [done|]. rewrite Forall_forall in Ht. auto.
  - destruct b; try discriminate; vm_compute in E; set_solver.
  - vm_compute in E; set_solver.
Qed.

Lemma toml_reads_int i : i64_min <= i <= i64_max -> reads (Value.Int i) (Value.Int i).
Proof.
  intros Hi d r Hd Hr. cbn [render Value.depth] in *. pose proof (parse_i64_write_i64 i Hi) as Hp.
  destruct (write_i64_shape i Hi) as (neg & c & t & E & Hc & Ht).
  change (write_i64 [] i = number_text neg c t) in E. rewrite E in *.
  pose proof (atom_number_text neg c t Hc (digits_dec_char t Ht)) as Ha. cbv zeta in Ha.
  rewrite no_float_char, Hp in Ha by done. cbn [negb] in Ha. rewrite <- Ha.
  apply toml_parse_value_number; auto with ferroly lia.
Qed.

Lemma toml_reads_uint u : 0 <= u <= u64_max -> reads (Value.UInt u) (inline_norm (Value.UInt u)).
Proof.
  intros Hu d r Hd Hr. cbn [render Value.depth inline_norm] in *.
  pose proof (parse_u64_write_u64 u Hu) as Hp. pose proof (parse_i64_write_u64 u Hu) as Hi.
  destruct (write_u64_shape u Hu) as (c & t & E & Hc & Ht).
  change (write_u64 [] u = number_text false c t) in E. rewrite E in *.
  pose proof (atom_number_text false c t Hc (digits_dec_char t Ht)) as Ha. cbv zeta in Ha.
  rewrite no_float_char, Hp, Hi in Ha by done. cbn [negb] in Ha.
  replace (if u <=? i64_max then Value.Int u else Value.UInt u) with (atom (number_text false c t))
    by (rewrite Ha; by destruct (u <=? i64_max)).
  apply toml_parse_value_number; auto with ferroly lia.
Qed.

Lemma reads_word d w c t r :
  (d <= MAX_DEPTH)%nat -> w = c :: t -> c ∉ [x22; x27; x5b; x7b] ->
  forallb (fun b => atom_char b && solid b) w = true -> stops atom_char r ->
  reads_to (parse_value d) (w ++ r) (atom w) r.
Proof.
  intros Hd Hw Hc Hf Hr. apply (parse_value_atom d w r c t); auto.
  apply Forall_forall. intros b Hb. rewrite forallb_forall in Hf.
  apply andb_true_iff, Hf. by apply list_elem_of_In.
Qed.

Lemma toml_reads_float f : inline_ok (Value.Float f) = true -> reads (Value.Float f) (Value.Float f).
Proof.
  intros Hf d r Hd Hr. cbn [render Value.depth inline_ok] in *.
  destruct (F64.is_finite f) eqn:Ef; cbn [negb orb] in Hf.
  - apply bool_decide_eq_true in Hf. destruct (float_shape f Ef) as (neg & c & t & E & Hc & Ht & Hdot).
    change (write_float [] f = number_text neg c t) in E. rewrite E in *.
    pose proof (atom_number_text neg c t Hc Ht) as Ha. cbv zeta in Ha.
    assert (has_float_char (number_text neg c t) = true) as Hfc.
    { apply existsb_exists. exists x2e. split; [|done]. apply list_elem_of_In. unfold number_text.
      apply elem_of_app. right. by apply elem_of_cons; right. }
    rewrite Hfc, Hf in Ha. cbn [negb] in Ha. rewrite <- Ha. apply toml_parse_value_number; auto with lia.
  - destruct f as [s|s| |s m e]; try done.
    + destruct s.
      * apply (reads_word d (b!"-inf") x2d (b!"inf") r); try done; vm_compute; set_solver.
      * apply (reads_word d (b!"inf") x69 (b!"nf") r); try done; vm_compute; set_solver.
    + apply (reads_word d (b!"nan") x6e (b!"an") r); try done; vm_compute; set_solver.
Qed.

Lemma reads_bool b : reads (Value.Bool b) (Value.Bool b).
Proof.
  intros d r Hd Hr. cbn [render Value.depth] in *. destruct b.
  - apply (reads_word d (b!"true") x74 (b!"rue") r); try done; vm_compute; set_solver.
  - apply (reads_word d (b!"false") x66 (b!"alse") r); try done; vm_compute; set_solver.
Qed.

Lemma quote_not_multiline s r : stops atom_char r -> starts_with (quote s ++ r) [x22; x22; x22] = false.
Proof.
  intros Hr. unfold quote. destruct s as [|b s].
  - destruct r as [|c r]; [done|]. by destruct c.
  - rewrite <- !app_assoc. unfold esc. cbn [flat_map app starts_with]. fold (esc s).
    destruct (escape b) as [e|] eqn:E.
    + by destruct (escape_reads b e E) as (e' & -> & _).
    + cbn [default from_option app starts_with]. rewrite (bool_decide_false (b = x22)); [done|]. by intros ->.
Qed.

Lemma parse_value_quote d s r :
  (d <= MAX_DEPTH)%nat -> Utf8.is_utf8 s = true -> stops atom_char r ->
  reads_to (parse_value d) (quote s ++ r) (Value.Str s) r.
Proof.
  intros Hd Hs Hr n. unfold parse_value. replace (S MAX_DEPTH - d)%nat with (S (MAX_DEPTH - d)) by lia.
  cbn [parse_value_fuel]. rewrite (proj2 (Nat.ltb_ge _ _)) by lia. rewrite skip_inline_none by done.
  cbn [peek rest head quote app]. rewrite bool_decide_true by done.
  change (x22 :: (esc s ++ [x22]) ++ r) with (quote s ++ r). rewrite quote_not_multiline by done.
  destruct (basic_string_reads s r Hs n) as [n' ->]. cbn [fbind]. by eexists.
Qed.

(** *** Containers *)

Lemma skip_wnc_app w c r : forall n,
  Forall (fun b => b ∈ [x20; x09; x0d; x0a]) w -> c ∉ [x20; x09; x0d; x0a; x23] ->
  skip_ws_nl_comments (mkP n (w ++ c :: r)) = mkP (n + length w) (c :: r).
Proof.
  unfold skip_ws_nl_comments. cbn [pos rest]. induction w as [|b w IH]; intros n Hw Hc; cbn [app length skip_wnc andb].
  - rewrite !bool_decide_false by set_solver. by rewrite Nat.add_0_r.
  - inv Hw. rewrite bool_decide_true by done. rewrite IH by done. f_equal. lia.
Qed.

Lemma skip_wnc_none c r n :
  c ∉ [x20; x09; x0d; x0a; x23] -> skip_ws_nl_comments (mkP n (c :: r)) = mkP n (c :: r).
Proof.
  intros H. pose proof (skip_wnc_app [] c r n ltac:(constructor) H) as E. cbn [app length] in E.
  by rewrite Nat.add_0_r in E.
Qed.

Lemma spaces_ok w : w = [] \/ w = [x20] -> Forall (fun b => b ∈ [x20; x09; x0d; x0a]) w.
Proof. intros [->| ->]; repeat constructor. Qed.

Lemma opens_solid c : opens c = true -> c ∉ [x20; x09; x0d; x0a; x23] /\ c <> x5d /\ c <> x7d /\ inline_ws c = false.
Proof. intros H. split_and!; [intros Hc|intros ->|intros ->|]; try done; destruct c; try done; vm_compute in Hc; set_solver. Qed.

Definition starts (s : bytes) : Prop := exists c t, s = c :: t /\ opens c = true.

Lemma digit_opens c : F64.is_digit c = true -> opens c = true.
Proof. by destruct c. Qed.

Lemma number_starts neg c t : F64.is_digit c = true -> starts (number_text neg c t).
Proof. intros Hc. destruct neg; [by exists x2d, (c :: t)|]. exists c, t. by auto using digit_opens. Qed.

Lemma toml_render_starts v : inline_ok v = true -> starts (render v).
Proof.
  destruct v as [|b|i|u|f|s|b|a|o]; intros He; try (by eexists _, _; split; [reflexivity|]).
  - destruct b; by eexists _, _; split; [reflexivity|].
  - cbn [inline_ok] in He. zbool. destruct (write_i64_shape i) as (neg & c & t & E & Hc & _); [lia|].
    cbn [render]. rewrite E. by apply (number_starts neg).
  - cbn [inline_ok] in He. zbool. destruct (write_u64_shape u) as (c & t & E & Hc & _); [lia|].
    cbn [render]. rewrite E. by apply (number_starts false).
  - destruct (F64.is_finite f) eqn:Ef.
    + destruct (float_shape f Ef) as (neg & c & t & E & Hc & _). cbn [render]. rewrite E. by apply (number_starts neg).
    + destruct f as [s|s| |]; try done; [destruct s|]; by eexists _, _; split; [reflexivity|].
  - rewrite render_object. destruct (is_empty _); by eexists _, _; split; [reflexivity|].
Qed.

(** An element that reads back where [el] reads it. *)
Definition elem_reads (el : Parser -> option (Result (Value * Parser) Stop)) (v : Value) : Prop :=
  starts (render v) /\ forall r, stops atom_char r -> reads_to el (render v ++ r) (inline_norm v) r.

Lemma array_loop_reads el a :
  (forall p, consumes snd 1 (length (rest p)) (el p)) ->
  a <> [] -> Forall (elem_reads el) a -> forall acc w r n, w = [] \/ w = [x20] ->
  exists n', run_loop (array_body el) unread (acc, mkP n (w ++ join (b!", ") (map render a) ++ x5d :: r)) =
    Some (Ok (Value.Array (acc ++ map inline_norm a), mkP n' r)).
Proof.
  intros Hel. induction a as [|v a IH]; intros Hne Ha acc w r n Hw; [done|].
  inversion Ha as [|? ? [(c & t & Ec & Hc) Hv] Ha']; subst.
  rewrite (run_loop_eq (array_body el) unread) by (apply loop_decreases; intros; by apply array_body_consumes).
  destruct (opens_solid c Hc) as (Hc1 & Hc2 & _ & _).
  cbn [array_body map]. destruct a as [|v' a].
  - cbn [map join]. rewrite Ec. cbn [app]. rewrite skip_wnc_app by auto using spaces_ok.
    cbn [peek rest head]. rewrite bool_decide_false by congruence.
    change (c :: t ++ x5d :: r) with ((c :: t) ++ x5d :: r). rewrite <- Ec.
    destruct (Hv (x5d :: r) eq_refl (n + length w)%nat) as [n1 ->]. cbn [fbind].
    rewrite skip_wnc_none by (vm_compute; set_solver). cbn [peek rest head app].
    rewrite bool_decide_false by done. rewrite bool_decide_true by done. cbn [fbind]. by eexists.
  - rewrite join_cons by done. rewrite <- !app_assoc. set (tl := join _ _) in *. rewrite Ec. cbn [app].
    rewrite skip_wnc_app by auto using spaces_ok.
    cbn [peek rest head]. rewrite bool_decide_false by congruence.
    change (c :: t ++ ?z) with ((c :: t) ++ z). rewrite <- Ec.
    destruct (Hv (x2c :: x20 :: tl ++ x5d :: r) eq_refl (n + length w)%nat) as [n1 E1].
    change (b!", " ++ tl ++ x5d :: r) with (x2c :: x20 :: tl ++ x5d :: r).
    rewrite E1. cbn [fbind].
    rewrite skip_wnc_none by (vm_compute; set_solver). cbn [peek rest head app].
    rewrite bool_decide_true by done. cbn [fbind]. rewrite advance_1.
    destruct (IH ltac:(done) Ha' (acc ++ [inline_norm v]) [x20] r (n1 + 1)%nat) as [n2 E2]; [by right|].
    cbn [app] in E2. rewrite E2. exists n2. by rewrite <- app_assoc.
Qed.

Lemma set_nested_one t k v : k ∉ map fst t -> set_nested t [k] v = Ok (t ++ [(k, v)]).
Proof.
  intros Hk. unfold set_nested. cbn [split_last last length take Nat.sub get_or_create].
  destruct (existsb _ t) eqn:E; [|done]. exfalso. apply Hk. apply existsb_exists in E as (kv & Hin & E).
  apply bool_decide_eq_true in E as <-. apply list_elem_of_fmap. exists kv. split; [done|]. by apply list_elem_of_In.
Qed.

Definition entry_text (kv : bytes * Value) : bytes := key_repr (fst kv) ++ b!" = " ++ render (snd kv).

Lemma key_follow_eq s : key_follow (b!" = " ++ s) (x3d :: x20 :: s).
Proof. exists [x20]. split; [done|]. split; [by constructor|done]. Qed.

Lemma one_key_reads k r r' n :
  Utf8.is_utf8 k = true -> key_follow r r' ->
  exists n', parse_key_path (mkP n (key_repr k ++ r)) = Some (Ok ([k], mkP n' r')).
Proof.
  intros Hk Hr. apply (key_path_reads [k] r r' []); [done| |done]. by repeat constructor.
Qed.

(** One entry of an inline table, up to the separator. *)
Lemma table_body_reads el k v entries w s r c n :
  Utf8.is_utf8 k = true -> k ∉ map fst entries -> elem_reads el v ->
  (w = [] \/ w = [x20]) -> (s = [] \/ s = [x20]) -> (c = x2c \/ c = x7d) ->
  exists n1, table_body el (entries, mkP n (w ++ entry_text (k, v) ++ s ++ c :: r)) =
    let p := mkP n1 (c :: r) in
    let entries := entries ++ [(k, inline_norm v)] in
    if bool_decide (peek p = Some x2c) then Some (Ok (inl (entries, advance 1 p)))
    else if bool_decide (peek p = Some x7d) then Some (Ok (inr (Value.Object entries, advance 1 p)))
    else perr (b!"expected ',' or '}' in inline table").
Proof.
  intros Hk Hfresh [(c0 & t0 & Ec & Hc0) Hv] Hw Hs Hc.
  destruct (key_repr_head k) as (ck & tk & Ek & Hck & Hck').
  assert (ck ∉ [x20; x09; x0d; x0a; x23]) as Hck2.
  { destruct Hck' as [->|Hb]; [vm_compute; set_solver|]. intros H. by destruct ck; vm_compute in H; try set_solver. }
  unfold table_body, entry_text. cbn [fst snd]. rewrite <- !app_assoc. rewrite Ek. cbn [app].
  rewrite skip_wnc_app by auto using spaces_ok. change (ck :: tk ++ ?z) with ((ck :: tk) ++ z). rewrite <- Ek.
  edestruct (one_key_reads k _ _ (n + length w)%nat Hk (key_follow_eq (render v ++ s ++ c :: r))) as [n1 E1].
  rewrite E1. cbn [fbind]. unfold expect. rewrite skip_inline_none by done. cbn [peek rest head].
  rewrite bool_decide_true by done. cbn [fbind]. rewrite advance_1.
  change (x20 :: render v ++ ?z) with ([x20] ++ render v ++ z). rewrite skip_inline_app.
  2:{ by repeat constructor. }
  2:{ rewrite Ec. cbn [app stops]. by destruct (opens_solid c0 Hc0) as (_ & _ & _ & ?). }
  destruct (Hv (s ++ c :: r)) with (n := (n1 + 1 + length [x20])%nat) as [n2 E2].
  { destruct Hs as [->| ->]; [|done]. by destruct Hc as [->| ->]. }
  rewrite E2. cbn [fbind]. rewrite set_nested_one by done. cbn [lift map_err fbind].
  rewrite skip_wnc_app; [|by apply spaces_ok|by destruct Hc as [->| ->]; vm_compute; set_solver].
  by eexists.
Qed.

Lemma table_loop_reads el o :
  (forall p, consumes snd 1 (length (rest p)) (el p)) ->
  o <> [] -> Forall (fun kv => Utf8.is_utf8 (fst kv) = true /\ elem_reads el (snd kv)) o ->
  forall entries w r n, w = [] \/ w = [x20] -> NoDup (map fst entries ++ map fst o) ->
  exists n', run_loop (table_body el) unread (entries, mkP n (w ++ join (b!", ") (map entry_text o) ++ [x20] ++ x7d :: r)) =
    Some (Ok (Value.Object (entries ++ map (fun kv => (fst kv, inline_norm (snd kv))) o), mkP n' r)).
Proof.
  intros Hel. induction o as [|[k v] o IH]; intros Hne Ho entries w r n Hw Hnd; [done|].
  inversion Ho as [|? ? [Hk Hv] Ho']; subst. cbn [fst snd] in *.
  rewrite (run_loop_eq (table_body el) unread) by (apply loop_decreases; intros; by apply table_body_consumes).
  assert (k ∉ map fst entries) as Hfresh.
  { apply NoDup_app in Hnd as (_ & H & _). intros Hin. apply (H k Hin). cbn [map fst]. by left. }
  destruct o as [|kv' o].
  - cbn [map join].
    destruct (table_body_reads el k v entries w [x20] r x7d n) as [n1 ->]; auto.
    cbv zeta. cbn [peek rest head]. rewrite bool_decide_false by done. rewrite bool_decide_true by done.
    cbn [fbind]. by eexists.
  - cbn [map]. rewrite join_cons by done. set (tl := join _ _) in *. rewrite <- !app_assoc.
    destruct (table_body_reads el k v entries w [] (x20 :: tl ++ [x20] ++ x7d :: r) x2c n) as [n1 E1]; auto.
    change (b!", " ++ ?z) with (x2c :: x20 :: z). cbn [app] in E1 |- *. rewrite E1. cbv zeta. cbn [peek rest head]. rewrite bool_decide_true by done.
    cbn [fbind]. rewrite advance_1.
    destruct (IH ltac:(done) Ho' (entries ++ [(k, inline_norm v)]) [x20] r (n1 + 1)%nat) as [n2 E2]; [by right| |].
    + rewrite map_app, <- app_assoc. done.
    + cbn [app] in E2. fold tl in E2. rewrite E2. exists n2. by rewrite <- app_assoc.
Qed.

(** The dispatch of [parse_value] on an opening bracket. *)
Lemma parse_value_array d t n :
  (d <= MAX_DEPTH)%nat ->
  parse_value d (mkP n (x5b :: t)) = run_loop (array_body (parse_value (S d))) unread ([], mkP (n + 1) t).
Proof.
  intros Hd. unfold parse_value at 1. replace (S MAX_DEPTH - d)%nat with (S (MAX_DEPTH - d)) by lia.
  cbn [parse_value_fuel]. rewrite (proj2 (Nat.ltb_ge _ _)) by lia. by rewrite skip_inline_none.
Qed.

Lemma parse_value_table d t n :
  (d <= MAX_DEPTH)%nat ->
  parse_value d (mkP n (x7b :: t)) =
  let p := skip_ws_nl_comments (mkP (n + 1) t) in
  if bool_decide (peek p = Some x7d) then Some (Ok (Value.Object [], advance 1 p))
  else run_loop (table_body (parse_value (S d))) unread ([], p).
Proof.
  intros Hd. unfold parse_value at 1. replace (S MAX_DEPTH - d)%nat with (S (MAX_DEPTH - d)) by lia.
  cbn [parse_value_fuel]. rewrite (proj2 (Nat.ltb_ge _ _)) by lia. by rewrite skip_inline_none.
Qed.

Lemma inline_norm_object o :
  inline_norm (Value.Object o) = Value.Object (map (fun kv => (fst kv, inline_norm (snd kv))) (present o)).
Proof. cbn [inline_norm]. by rewrite (flat_map_filter (fun kv => (fst kv, inline_norm (snd kv)))). Qed.

Lemma toml_reads_array v a :
  render v = [x5b] ++ join (b!", ") (map render a) ++ [x5d] ->
  (forall d, (Value.depth v + d <= MAX_DEPTH)%nat ->
     (d <= MAX_DEPTH)%nat /\ Forall (elem_reads (parse_value (S d))) a) ->
  reads v (Value.Array (map inline_norm a)).
Proof.
  intros Hren Hok d r Hd Hr n. destruct (Hok d Hd) as [HD Ha]. rewrite Hren, <- !app_assoc. cbn [app].
  rewrite parse_value_array by done. destruct a as [|x a].
  - cbn [map join app].
    rewrite (run_loop_eq (array_body (parse_value (S d))) unread)
      by (apply loop_decreases; intros; apply array_body_consumes; intros; apply parse_value_consumes).
    cbn [array_body]. rewrite skip_wnc_none by (vm_compute; set_solver). cbn [peek rest head].
    rewrite bool_decide_true by done. cbn [fbind]. by eexists.
  - apply (array_loop_reads (parse_value (S d)) (x :: a)) with (acc := []) (w := []); auto.
    intros; apply parse_value_consumes.
Qed.

Lemma key_head_not_special k c t :
  key_repr k = c :: t -> c ∉ [x20; x09; x0d; x0a; x23] /\ c <> x5b /\ c <> x7d.
Proof.
  destruct (key_repr_head k) as (c' & t' & -> & _ & H). intros [= -> ->].
  destruct H as [->|H]; [vm_compute; set_solver|].
  split_and!; [intros Hc|intros ->|intros ->]; try done. by destruct c; vm_compute in Hc; try set_solver.
Qed.

Lemma toml_reads_object o :
  (forall d, (Value.depth (Value.Object o) + d <= MAX_DEPTH)%nat ->
     (d <= MAX_DEPTH)%nat /\
     Forall (fun kv => Utf8.is_utf8 (fst kv) = true /\ elem_reads (parse_value (S d)) (snd kv)) (present o)) ->
  NoDup (map fst (present o)) ->
  reads (Value.Object o) (inline_norm (Value.Object o)).
Proof.
  intros Hok Hnd d r Hd Hr n. destruct (Hok d Hd) as [HD Ho].
  rewrite render_object, inline_norm_object. fold entry_text.
  destruct (present o) as [|[k v] o'] eqn:Ep; cbn [is_empty].
  - change (b!"{}" ++ r) with (x7b :: x7d :: r). rewrite parse_value_table by done. cbv zeta.
    rewrite skip_wnc_none by (vm_compute; set_solver). cbn [peek rest head]. rewrite bool_decide_true by done. by eexists.
  - rewrite <- !app_assoc.
    change (b!"{ " ++ ?z) with (x7b :: [x20] ++ z). change (b!" }" ++ r) with ([x20] ++ x7d :: r).
    rewrite parse_value_table by done. cbv zeta.
    set (txt := join _ _ ++ _). assert (exists c t, txt = c :: t /\ c ∉ [x20; x09; x0d; x0a; x23] /\ c <> x7d)
      as (c & t & Et & Hc1 & Hc2).
    { subst txt. destruct (key_repr_head k) as (c & t & Ek & _). destruct (key_head_not_special k c t Ek) as (H1 & _ & H2).
      cbn [map]. destruct o'; [cbn [map join]|rewrite join_cons by done];
        change (entry_text (k, v)) with (key_repr k ++ b!" = " ++ render v); rewrite Ek; by repeat eexists. }
    rewrite Et, (skip_wnc_app [x20]) by (done || by apply (spaces_ok [x20]); right).
    cbn [peek rest head]. rewrite bool_decide_false by congruence. rewrite <- Et. subst txt.
    apply (table_loop_reads (parse_value (S d)) ((k, v) :: o')) with (entries := []) (w := []); auto.
    intros; apply parse_value_consumes.
Qed.

Lemma toml_render_bytes b :
  render (Value.Bytes b) = [x5b] ++ join (b!", ") (map render (map (fun x => Value.Int (b2z x)) b)) ++ [x5d].
Proof.
  cbn [render]. rewrite map_map. do 3 f_equal. apply map_ext. intros x. cbn [render].
  unfold write_i64. pose proof (b2z_range x). rewrite (proj2 (Z.ltb_ge _ _)) by lia.
  cbv zeta. by rewrite Z.abs_eq by lia.
Qed.

Lemma present_elem kv o : kv ∈ present o -> kv ∈ o /\ is_null (snd kv) = false.
Proof. rewrite !list_elem_of_In. unfold present. rewrite filter_In. intros [? ?%negb_true_iff]. done. Qed.

Lemma toml_reads_norm v : inline_ok v = true -> reads v (inline_norm v).
Proof.
  induction v as [|b|i|u|f|s|b|a IH|o IH] using value_ind'; intros He.
  - intros d r Hd Hr. apply (parse_value_quote d [] r); done.
  - apply reads_bool.
  - cbn [inline_ok] in He. zbool. apply toml_reads_int. lia.
  - cbn [inline_ok] in He. zbool. apply toml_reads_uint. lia.
  - by apply toml_reads_float.
  - intros d r Hd Hr. apply parse_value_quote; done.
  - cbn [inline_norm]. replace (map (fun x => Value.Int (b2z x)) b)
      with (map inline_norm (map (fun x => Value.Int (b2z x)) b)) by (rewrite map_map; done).
    apply toml_reads_array; [apply toml_render_bytes|]. intros d Hd. cbn [Value.depth] in Hd. split; [lia|].
    apply Forall_map, Forall_true. intros x. pose proof (b2z_range x).
    assert (i64_min <= b2z x <= i64_max) as Hx by (unfold i64_min, i64_max; lia).
    split; [apply toml_render_starts; cbn [inline_ok]; apply andb_true_iff; rewrite !Z.leb_le; lia|].
    intros r Hr. apply (toml_reads_int _ Hx); [simpl; lia|done].
  - apply toml_reads_array; [done|]. intros d Hd. split; [cbn [Value.depth] in Hd; lia|].
    apply Forall_forall. intros x Hx. rewrite Forall_forall in IH. cbn [inline_ok] in He.
    rewrite forallb_forall in He. pose proof (depth_array_elem a x Hx).
    apply list_elem_of_In in Hx as Hx'. split; [by apply toml_render_starts, He|].
    intros r Hr. apply IH; auto. lia.
  - cbn [inline_ok] in He. apply andb_true_iff in He as [Hn He]. apply bool_decide_eq_true in Hn.
    apply toml_reads_object; [|done]. intros d Hd. split; [cbn [Value.depth] in Hd; lia|].
    apply Forall_forall. intros kv [Hkv Hnull]%present_elem. rewrite Forall_forall in IH. rewrite forallb_forall in He.
    apply list_elem_of_In in Hkv as Hkv'. specialize (He kv Hkv'). rewrite Hnull in He. cbn [orb] in He.
    apply andb_true_iff in He as [Hk Hv]. pose proof (depth_object_elem o kv Hkv).
    split; [done|]. split; [by apply toml_render_starts|]. intros r Hr. apply IH; auto. lia.
Qed.

(** ** Reading documents back *)

(** An open table: the finished entries of its parent, its key, and the
    finished elements before it when it is in an array of tables. *)
Record Frame := mkF { before : Table; key : bytes; items : option (list Value) }.

Definition wrap (f : Frame) (t : Table) : Value :=
  match items f with
  | None => Value.Object t
  | Some l => Value.Array (l ++ [Value.Object t])
  end.

(** The document with [t] as the innermost open table, the outermost frame first. *)
Definition plug (fs : list Frame) (t : Table) : Table :=
  foldr (fun f t => before f ++ [(key f, wrap f t)]) t fs.

Definition path (fs : list Frame) : list bytes := map key fs.

Definition fresh (f : Frame) : Prop := key f ∉ map fst (before f).

Lemma position_snoc seg t v : seg ∉ map fst t -> position seg (t ++ [(seg, v)]) = Some (length t).
Proof.
  induction t as [|[k w] t IH]; cbn [app position map fst length].
  - by rewrite bool_decide_true.
  - intros H. rewrite bool_decide_false by set_solver. rewrite IH by set_solver. done.
Qed.

Lemma with_value_snoc t k v f : with_value (t ++ [(k, v)]) (length t) f = let? v := f v in Ok (t ++ [(k, v)]).
Proof.
  unfold with_value. rewrite list_lookup_middle by done. destruct (f v); [|done]. cbn [rbind].
  by rewrite insert_app_r_alt, Nat.sub_diag by lia.
Qed.

Lemma descend_wrap seg k f t : descend seg k (wrap f t) = let? t := k t in Ok (wrap f t).
Proof.
  unfold descend, wrap. destruct (items f) as [l|]; [|done]. rewrite last_snoc, length_app. cbn [length].
  by rewrite Nat.add_sub, take_app_length.
Qed.

Lemma rbind_assoc {X Y W E} (r : Result X E) (g : X -> Result Y E) (h : Y -> Result W E) :
  rbind (rbind r g) h = rbind r (fun x => rbind (g x) h).
Proof. by destruct r. Qed.

Lemma resolve_plug fs t k :
  Forall fresh fs -> resolve (plug fs t) (path fs) k = let? t := k t in Ok (plug fs t).
Proof.
  induction 1 as [|f fs Hf _ IH]; cbn [plug path map foldr resolve]; [by destruct (k t)|].
  fold (plug fs t). fold (path fs). rewrite position_snoc by done.
  rewrite with_value_snoc, descend_wrap, IH, !rbind_assoc. done.
Qed.

Lemma get_or_create_plug fs t ps k :
  Forall fresh fs ->
  get_or_create (plug fs t) (path fs ++ ps) k = let? t := get_or_create t ps k in Ok (plug fs t).
Proof.
  induction 1 as [|f fs Hf _ IH]; cbn [plug path map foldr get_or_create app];
    [by destruct (get_or_create t ps k)|].
  fold (plug fs t). fold (path fs). rewrite position_snoc by done.
  rewrite with_value_snoc, descend_wrap, IH, !rbind_assoc. done.
Qed.

Lemma get_or_create_new fs t k :
  Forall fresh fs -> k ∉ map fst t ->
  get_or_create (plug fs t) (path fs ++ [k]) (fun t => Ok t) = Ok (plug (fs ++ [mkF t k None]) []).
Proof.
  intros Hfs Hk. rewrite get_or_create_plug by done. cbn [get_or_create].
  destruct (position k t) as [i|] eqn:E.
  { apply position_Some in E as (v & E). destruct Hk. apply list_elem_of_lookup_2 in E.
    apply list_elem_of_fmap. by exists (k, v). }
  rewrite length_app. cbn [length]. rewrite Nat.add_sub, with_value_snoc. cbn [descend rbind].
  unfold plug. by rewrite foldr_app.
Qed.

Lemma append_array_plug fs t k l :
  Forall fresh fs -> k ∉ map fst t ->
  append_array_table (plug fs (if is_empty l then t else t ++ [(k, Value.Array l)])) (path fs ++ [k]) =
  Ok (plug (fs ++ [mkF t k (Some l)]) []).
Proof.
  intros Hfs Hk. unfold append_array_table, split_last. rewrite last_snoc, length_app. cbn [length].
  rewrite Nat.add_sub, take_app_length. rewrite <- (app_nil_r (path fs)).
  rewrite get_or_create_plug by done. cbn [get_or_create].
  unfold plug. rewrite foldr_app. cbn [foldr before key wrap items]. fold (plug fs).
  destruct l as [|x l]; cbn [is_empty].
  - destruct (position k t) as [i|] eqn:E.
    { apply position_Some in E as (v & E). destruct Hk. apply list_elem_of_lookup_2 in E.
      apply list_elem_of_fmap. by exists (k, v). }
    cbn [rbind]. rewrite length_app. cbn [length]. by rewrite Nat.add_sub, with_value_snoc.
  - rewrite position_snoc, list_lookup_middle by done. cbn [rbind]. by rewrite with_value_snoc.
Qed.

(** The parser on the rest of a document. *)
Definition run (root : Table) (current : list bytes) (p : Parser) : option (Result Value Stop) :=
  run_loop parse_body unread (root, current, p).

Lemma run_step root current p root' current' p' :
  parse_body (root, current, p) = Some (Ok (inl (root', current', p'))) ->
  run root current p = run root' current' p'.
Proof.
  intros H. unfold run. rewrite (run_loop_eq parse_body unread parse_body_decreases), H. done.
Qed.

Lemma finish_line_newline n r : finish_line (mkP n (x0a :: r)) = Some (Ok (mkP (n + 1) r)).
Proof. unfold finish_line. rewrite skip_inline_none by done. done. Qed.

Lemma key_follow_bracket r : key_follow (x5d :: r) (x5d :: r).
Proof. exists []. split; [done|]. by split; [constructor|]. Qed.

Lemma expect_here c n r : inline_ws c = false -> expect c (mkP n (c :: r)) = Some (Ok (mkP (n + 1) r)).
Proof. intros H. unfold expect. rewrite skip_inline_none by done. cbn [peek rest head]. by rewrite bool_decide_true. Qed.

Lemma line_step root current root' k v r n :
  Utf8.is_utf8 k = true -> elem_reads (parse_value 0) v ->
  resolve root current (fun base => set_nested base [k] (inline_norm v)) = Ok root' ->
  exists n', run root current (mkP n (line (k, v) ++ r)) = run root' current (mkP n' r).
Proof.
  intros Hk [(c0 & t0 & Ec & Hc0) Hv] Hres.
  destruct (key_repr_head k) as (ck & tk & Ek & Hck & _). destruct (key_head_not_special k ck tk Ek) as (H1 & H2 & _).
  destruct (one_key_reads k _ _ n Hk (key_follow_eq (render v ++ [x0a] ++ r))) as [n1 E1].
  destruct (Hv ([x0a] ++ r) eq_refl (n1 + 1 + length [x20])%nat) as [n2 E2].
  exists (n2 + 1)%nat. apply run_step. unfold line. cbn [fst snd]. rewrite <- !app_assoc.
  unfold parse_body. rewrite Ek in E1 |- *. cbn [app] in E1 |- *. rewrite skip_wnc_none by done. cbn [peek rest head].
  unfold statement. cbn [peek rest head]. rewrite bool_decide_false by congruence.
  rewrite E1. cbn [fbind]. rewrite skip_inline_none by done. rewrite expect_here by done. cbn [fbind].
  change (x20 :: render v ++ ?z) with ([x20] ++ render v ++ z). rewrite skip_inline_app.
  2:{ by repeat constructor. }
  2:{ rewrite Ec. cbn [app stops]. by destruct (opens_solid c0 Hc0) as (_ & _ & _ & ?). }
  cbn [app] in E2. rewrite E2. cbn [fbind]. rewrite Hres. cbn [lift map_err fbind].
  by rewrite finish_line_newline.
Qed.

Lemma header_head ks : ks <> [] -> exists c t, header ks = c :: t /\ inline_ws c = false /\ c <> x5b.
Proof.
  intros Hne. destruct ks as [|k ks]; [done|]. destruct (key_repr_head k) as (c & t & Ek & Hc & _).
  destruct (key_head_not_special k c t Ek) as (_ & H & _).
  unfold header. cbn [map]. destruct ks; [cbn [map join]|cbn [map]; rewrite join_cons by done]; rewrite Ek; by repeat eexists.
Qed.

Lemma key_path_header ks r n :
  ks <> [] -> Forall (fun k => Utf8.is_utf8 k = true) ks ->
  exists n', parse_key_path (mkP n (header ks ++ x5d :: r)) = Some (Ok (ks, mkP n' (x5d :: r))).
Proof. intros Hne Hk. apply (key_path_reads ks _ _ []); [done|done|apply key_follow_bracket]. Qed.

Lemma header_step root current root' ks r n :
  ks <> [] -> Forall (fun k => Utf8.is_utf8 k = true) ks ->
  get_or_create root ks (fun t => Ok t) = Ok root' ->
  exists n', run root current (mkP n ([x0a; x5b] ++ header ks ++ [x5d; x0a] ++ r)) = run root' ks (mkP n' r).
Proof.
  intros Hne Hk Hres. destruct (header_head ks Hne) as (c & t & Eh & Hc1 & Hc2).
  destruct (key_path_header ks (x0a :: r) (n + 1 + 1)%nat Hne Hk) as [n1 E1].
  exists (n1 + 1 + 1)%nat. apply run_step. unfold parse_body. cbn [app].
  change (x0a :: x5b :: ?z) with ([x0a] ++ x5b :: z).
  rewrite skip_wnc_app by (repeat constructor || (vm_compute; set_solver)). cbn [length peek rest head].
  unfold statement. cbn [peek rest head]. rewrite bool_decide_true by done. rewrite advance_1.
  rewrite (bool_decide_false (peek _ = _)); [|rewrite Eh; cbn [peek rest head app]; congruence].
  rewrite E1. cbn [fbind]. rewrite expect_here by done. cbn [fbind]. rewrite Hres. cbn [lift map_err fbind].
  by rewrite finish_line_newline.
Qed.

Lemma array_header_step root current root' ks r n :
  ks <> [] -> Forall (fun k => Utf8.is_utf8 k = true) ks ->
  append_array_table root ks = Ok root' ->
  exists n', run root current (mkP n ([x0a; x5b; x5b] ++ header ks ++ [x5d; x5d; x0a] ++ r)) = run root' ks (mkP n' r).
Proof.
  intros Hne Hk Hres.
  destruct (key_path_header ks (x5d :: x0a :: r) (n + 1 + 2)%nat Hne Hk) as [n1 E1].
  exists (n1 + 1 + 1 + 1)%nat. apply run_step. unfold parse_body. cbn [app].
  change (x0a :: x5b :: ?z) with ([x0a] ++ x5b :: z).
  rewrite skip_wnc_app by (repeat constructor || (vm_compute; set_solver)). cbn [length peek rest head].
  unfold statement. cbn [peek rest head]. rewrite bool_decide_true by done. rewrite advance_1. cbn [peek rest head].
  rewrite bool_decide_true by done.
  change (advance 2 (mkP (n + 1) (x5b :: x5b :: ?z))) with (mkP (n + 1 + 2) z).
  rewrite E1. cbn [fbind]. rewrite !expect_here by done. cbn [fbind]. rewrite expect_here by done. cbn [fbind].
  rewrite Hres. cbn [lift map_err fbind].
  by rewrite finish_line_newline.
Qed.

(** The entries written inline and those written as sections. *)
Definition inlines (o : Table) : Table := List.filter (fun kv => negb (is_null (snd kv) || is_section (snd kv))) o.
Definition sections (o : Table) : Table := List.filter (fun kv => is_section (snd kv)) o.

(** What a table is after a trip through a document: nulls are dropped and
    sections come after the other entries, each group in its order. *)
Fixpoint doc_norm (v : Value) : Value :=
  match v with
  | Value.Object o =>
      Value.Object
        (flat_map (fun kv => if is_null (snd kv) || is_section (snd kv) then []
                             else [(fst kv, inline_norm (snd kv))]) o ++
         flat_map (fun kv => if negb (is_section (snd kv)) then [] else [(fst kv, doc_norm (snd kv))]) o)
  | Value.Array a => Value.Array (map doc_norm a)
  | v => v
  end.

(** Every table has distinct UTF-8 keys among its entries that are written, and
    inline values are well formed and within the nesting limit. *)
Fixpoint doc_ok (v : Value) : bool :=
  match v with
  | Value.Object o =>
      bool_decide (NoDup (map fst (present o))) &&
      forallb (fun kv =>
        is_null (snd kv) ||
        (Utf8.is_utf8 (fst kv) &&
         if is_section (snd kv) then doc_ok (snd kv)
         else inline_ok (snd kv) && (Value.depth (snd kv) <=? MAX_DEPTH)%nat)) o
  | Value.Array a => forallb doc_ok a
  | _ => true
  end.

Definition toml_norm (v : Value) : Value :=
  match v with
  | Value.Object _ => doc_norm v
  | v => Value.Object [(b!"value", inline_norm v)]
  end.

Definition toml_ok (v : Value) : bool :=
  match v with
  | Value.Object _ => doc_ok v
  | v => inline_ok v && (Value.depth v <=? MAX_DEPTH)%nat
  end.

Definition section_text (ks : list bytes) (kv : bytes * Value) : bytes :=
  let ks := ks ++ [fst kv] in
  match snd kv with
  | Value.Array a =>
      flat_map (fun item => [x0a; x5b; x5b] ++ header ks ++ [x5d; x5d; x0a] ++ doc_text item ks) a
  | v => [x0a; x5b] ++ header ks ++ [x5d; x0a] ++ doc_text v ks
  end.

Lemma flat_map_skip {A B} (f : A -> list B) (skip : A -> bool) l :
  flat_map (fun x => if skip x then [] else f x) l = flat_map f (List.filter (fun x => negb (skip x)) l).
Proof. induction l as [|x l IH]; [done|]. cbn [flat_map List.filter]. rewrite IH. by destruct (skip x). Qed.

Lemma doc_text_object o ks :
  doc_text (Value.Object o) ks = flat_map line (inlines o) ++ flat_map (section_text ks) (sections o).
Proof.
  cbn [doc_text]. rewrite (flat_map_skip line). f_equal. unfold sections.
  induction o as [|[k v] o IH]; [done|]. cbn [flat_map List.filter fst snd]. rewrite IH.
  destruct v as [| | | | | | |a|[|kv o']]; cbn [is_section is_empty negb]; try done.
  destruct (is_array_of_tables a); done.
Qed.

Lemma negb_section_filter o : List.filter (fun kv : bytes * Value => negb (negb (is_section (snd kv)))) o = sections o.
Proof. unfold sections. apply List.filter_ext. intros kv. apply negb_involutive. Qed.

Lemma doc_norm_object o :
  doc_norm (Value.Object o) =
  Value.Object (map (fun kv => (fst kv, inline_norm (snd kv))) (inlines o) ++
                map (fun kv => (fst kv, doc_norm (snd kv))) (sections o)).
Proof.
  cbn [doc_norm]. rewrite (flat_map_filter (fun kv => (fst kv, inline_norm (snd kv)))).
  rewrite (flat_map_filter (fun kv => (fst kv, doc_norm (snd kv)))). by rewrite negb_section_filter.
Qed.

Lemma present_split o : Permutation (present o) (inlines o ++ sections o).
Proof.
  induction o as [|[k v] o IH]; [done|]. unfold present, inlines, sections in *. cbn [List.filter snd].
  destruct (is_null v) eqn:En; cbn [negb orb].
  - destruct v; try done.
  - destruct (is_section v); cbn [negb].
    + rewrite <- Permutation_middle. by constructor.
    + cbn [app]. by constructor.
Qed.

Lemma elem_reads_ok v :
  inline_ok v = true -> (Value.depth v <= MAX_DEPTH)%nat -> elem_reads (parse_value 0) v.
Proof. intros Hv Hd. split; [by apply toml_render_starts|]. intros r Hr. apply toml_reads_norm; [done|lia|done]. Qed.

Definition inline_entry_ok (kv : bytes * Value) : Prop :=
  Utf8.is_utf8 (fst kv) = true /\ inline_ok (snd kv) = true /\ (Value.depth (snd kv) <= MAX_DEPTH)%nat.

Lemma lines_read l : forall fs t r n,
  Forall fresh fs -> Forall inline_entry_ok l -> NoDup (map fst t ++ map fst l) ->
  exists n', run (plug fs t) (path fs) (mkP n (flat_map line l ++ r)) =
             run (plug fs (t ++ map (fun kv => (fst kv, inline_norm (snd kv))) l)) (path fs) (mkP n' r).
Proof.
  induction l as [|[k v] l IH]; intros fs t r n Hfs Hl Hn; cbn [flat_map map].
  { rewrite app_nil_r. by exists n. }
  inversion Hl as [|? ? (Hk & Hv & Hd) Hl']; subst. cbn [fst snd] in *.
  assert (k ∉ map fst t) as Hfresh.
  { apply NoDup_app in Hn as (_ & H & _). intros Hin. apply (H k Hin). cbn [map fst]. by left. }
  rewrite <- app_assoc.
  destruct (line_step (plug fs t) (path fs) (plug fs (t ++ [(k, inline_norm v)])) k v (flat_map line l ++ r) n Hk)
    as [n1 ->]; [by apply elem_reads_ok| |].
  { rewrite resolve_plug by done. by rewrite set_nested_one. }
  destruct (IH fs (t ++ [(k, inline_norm v)]) r n1 Hfs Hl') as [n2 ->].
  - by rewrite map_app, <- app_assoc.
  - exists n2. by rewrite <- app_assoc.
Qed.

Definition entries (v : Value) : Table := match v with Value.Object o => o | _ => [] end.

(** A table reads back in its open frame, whatever follows it. *)
Definition section_reads (v : Value) : Prop := forall fs r n,
  is_object v = true -> doc_ok v = true ->
  Forall fresh fs -> Forall (fun k => Utf8.is_utf8 k = true) (path fs) ->
  exists n' cur, run (plug fs []) (path fs) (mkP n (doc_text v (path fs) ++ r)) =
                 run (plug fs (entries (doc_norm v))) cur (mkP n' r).

Lemma plug_snoc fs f t : plug (fs ++ [f]) t = plug fs (before f ++ [(key f, wrap f t)]).
Proof. unfold plug. by rewrite foldr_app. Qed.

Lemma path_snoc fs f : path (fs ++ [f]) = path fs ++ [key f].
Proof. unfold path. by rewrite map_app. Qed.

Lemma doc_norm_is_object v : is_object v = true -> doc_norm v = Value.Object (entries (doc_norm v)).
Proof. by destruct v. Qed.

(** The array of tables under construction, absent while it is empty. *)
Definition with_items (t : Table) (k : bytes) (l : list Value) : Table :=
  if is_empty l then t else t ++ [(k, Value.Array l)].

Lemma with_items_snoc t k l x : with_items t k (l ++ [x]) = t ++ [(k, Value.Array (l ++ [x]))].
Proof. unfold with_items. by destruct l. Qed.

Lemma items_read a : forall fs t k l cur r n,
  Forall section_reads a -> Forall (fun v => is_object v = true /\ doc_ok v = true) a ->
  Forall fresh fs -> k ∉ map fst t ->
  Forall (fun k => Utf8.is_utf8 k = true) (path fs) -> Utf8.is_utf8 k = true ->
  exists n' cur',
    run (plug fs (with_items t k l)) cur
      (mkP n (flat_map (fun item => [x0a; x5b; x5b] ++ header (path fs ++ [k]) ++ [x5d; x5d; x0a]
                                    ++ doc_text item (path fs ++ [k])) a ++ r)) =
    run (plug fs (with_items t k (l ++ map doc_norm a))) cur' (mkP n' r).
Proof.
  induction a as [|v a IH]; intros fs t k l cur r n Ha Hok Hfs Hk Hp Hu; cbn [flat_map map].
  { rewrite app_nil_r. by eexists _, _. }
  inversion Ha as [|? ? Hv Ha']; subst. inversion Hok as [|? ? [Ho Hd] Hok']; subst. rewrite <- !app_assoc.
  set (f := mkF t k (Some l)).
  edestruct (array_header_step (plug fs (with_items t k l)) cur (plug (fs ++ [f]) []) (path fs ++ [k])) as [n1 E1].
  { by destruct (path fs). }
  { apply Forall_app. by repeat constructor. }
  { by apply append_array_plug. }
  rewrite E1. change k with (key f). rewrite <- path_snoc.
  edestruct (Hv (fs ++ [f])) as (n2 & cur2 & E2); [done|done| | |].
  { apply Forall_app. by repeat constructor. }
  { rewrite path_snoc. apply Forall_app. by repeat constructor. }
  rewrite E2, plug_snoc. cbn [before key wrap items f]. rewrite <- doc_norm_is_object by done.
  rewrite <- with_items_snoc, path_snoc. cbn [key f].
  destruct (IH fs t k (l ++ [doc_norm v]) cur2 r n2) as (n3 & cur3 & E3); auto.
  rewrite E3. exists n3, cur3. by rewrite <- app_assoc.
Qed.

Definition section_entry_ok (kv : bytes * Value) : Prop :=
  Utf8.is_utf8 (fst kv) = true /\ is_section (snd kv) = true /\ doc_ok (snd kv) = true.

Lemma sections_read l : forall fs t cur r n,
  Forall (fun kv => below section_reads (snd kv)) l -> Forall section_entry_ok l ->
  Forall fresh fs -> Forall (fun k => Utf8.is_utf8 k = true) (path fs) -> NoDup (map fst t ++ map fst l) ->
  exists n' cur', run (plug fs t) cur (mkP n (flat_map (section_text (path fs)) l ++ r)) =
    run (plug fs (t ++ map (fun kv => (fst kv, doc_norm (snd kv))) l)) cur' (mkP n' r).
Proof.
  induction l as [|[k v] l IH]; intros fs t cur r n Hr Hok Hfs Hp Hn; cbn [flat_map map].
  { rewrite app_nil_r. by eexists _, _. }
  inversion Hr as [|? ? [Hv Ha] Hr']; subst. inversion Hok as [|? ? (Hk & Hs & Hd) Hok']; subst. cbn [fst snd] in *.
  assert (k ∉ map fst t) as Hfresh.
  { apply NoDup_app in Hn as (_ & H & _). intros Hin. apply (H k Hin). cbn [map fst]. by left. }
  rewrite <- app_assoc.
  assert (exists n1 cur1, run (plug fs t) cur (mkP n (section_text (path fs) (k, v) ++ flat_map (section_text (path fs)) l ++ r)) =
    run (plug fs (t ++ [(k, doc_norm v)])) cur1 (mkP n1 (flat_map (section_text (path fs)) l ++ r))) as (n1 & cur1 & ->).
  - unfold section_text at 1. cbn [fst snd]. destruct v as [| | | | | | |a|o]; try done.
    + cbn [is_section] in Hs. pose proof (array_of_tables_Forall a Hs) as Hobj.
      destruct (items_read a fs t k [] cur (flat_map (section_text (path fs)) l ++ r) n) as (n1 & cur1 & E1); auto.
      { cbn [doc_ok] in Hd. rewrite forallb_forall in Hd. rewrite Forall_forall in Hobj. apply Forall_forall.
        intros x Hx. split; [by apply Hobj|]. by apply Hd, list_elem_of_In. }
      unfold with_items at 1 in E1. cbn [is_empty] in E1. rewrite E1. exists n1, cur1.
      cbn [doc_norm app]. unfold with_items. destruct a; [done|]. done.
    + rewrite <- !app_assoc. set (f := mkF t k None).
      edestruct (header_step (plug fs t) cur (plug (fs ++ [f]) []) (path fs ++ [k])) as [n1 E1].
      { by destruct (path fs). }
      { apply Forall_app. by repeat constructor. }
      { by apply get_or_create_new. }
      rewrite E1. change k with (key f). rewrite <- path_snoc.
      edestruct (Hv (fs ++ [f])) as (n2 & cur2 & E2); [done|done| | |].
      { apply Forall_app. by repeat constructor. }
      { rewrite path_snoc. apply Forall_app. by repeat constructor. }
      rewrite E2, plug_snoc. cbn [before key wrap items f]. rewrite <- doc_norm_is_object by done.
      by eexists _, _.
  - destruct (IH fs (t ++ [(k, doc_norm v)]) cur1 r n1) as (n2 & cur2 & ->); auto.
    + by rewrite map_app, <- app_assoc.
    + exists n2, cur2. by rewrite <- app_assoc.
Qed.

Lemma doc_ok_entries o :
  doc_ok (Value.Object o) = true ->
  NoDup (map fst (inlines o) ++ map fst (sections o)) /\
  Forall inline_entry_ok (inlines o) /\ Forall section_entry_ok (sections o).
Proof.
  cbn [doc_ok]. intros [Hn He]%andb_true_iff. apply bool_decide_eq_true in Hn. rewrite forallb_forall in He.
  split_and!.
  - rewrite <- map_app. by rewrite <- (present_split o).
  - apply Forall_forall. intros kv Hkv. apply list_elem_of_In, filter_In in Hkv as [Hin Hf].
    apply negb_true_iff, orb_false_iff in Hf as [H1 H2]. specialize (He kv Hin). rewrite H1, H2 in He.
    cbn [orb] in He. apply andb_true_iff in He as [Hk [Hi Hd]%andb_true_iff]. apply Nat.leb_le in Hd. done.
  - apply Forall_forall. intros kv Hkv. apply list_elem_of_In, filter_In in Hkv as [Hin Hf].
    specialize (He kv Hin). assert (is_null (snd kv) = false) as H1 by (by destruct (snd kv)).
    rewrite H1, Hf in He. cbn [orb] in He. apply andb_true_iff in He as [Hk Hd]. done.
Qed.

Lemma all_sections_read v : section_reads v.
Proof.
  induction v as [v Hv|o IH] using table_ind; intros fs r n Ho Hd Hfs Hp; [congruence|].
  destruct (doc_ok_entries o Hd) as (Hn & Hi & Hs). rewrite doc_text_object, doc_norm_object, <- app_assoc. cbn [entries].
  destruct (lines_read (inlines o) fs [] (flat_map (section_text (path fs)) (sections o) ++ r) n) as [n1 ->]; auto.
  { cbn [map app]. by apply NoDup_app in Hn as [? _]. }
  cbn [app]. apply sections_read; auto.
  - rewrite Forall_forall in IH. apply Forall_forall. intros kv Hkv.
    apply list_elem_of_In, filter_In in Hkv as [Hin _]. by apply IH, list_elem_of_In.
  - rewrite map_map. cbn [fst]. done.
Qed.

(** The round trip on documents, on [Value]s. *)
Lemma from_str_encode v : toml_ok v = true -> from_str (encode v) = Some (Ok (toml_norm v)).
Proof.
  intros Hok. change (from_str (encode v)) with (run [] [] (new (encode v))).
  assert (forall root cur n, run root cur (mkP n []) = Some (Ok (Value.Object root))) as Hend.
  { intros root cur n. unfold run. by rewrite (run_loop_eq parse_body unread parse_body_decreases). }
  assert (toml_ok v = true -> is_object v = false -> exists n',
    run [] [] (mkP 0 (line (b!"value", v) ++ [])) = run [(b!"value", inline_norm v)] [] (mkP n' [])) as Hscalar.
  { intros H Ho. apply line_step; [done| |done]. destruct v; try done; apply andb_true_iff in H as [H1 H2];
      apply Nat.leb_le in H2; by apply elem_reads_ok. }
  destruct (is_object v) eqn:Eo.
  - destruct v as [| | | | | | | |o]; try done. rewrite encode_table. cbn [toml_norm].
    destruct (all_sections_read (Value.Object o) [] [] 0%nat Eo Hok) as (n' & cur & E); [constructor..|].
    rewrite app_nil_r in E. unfold path in E. cbn [map] in E. unfold new.
    change (plug [] []) with (@nil (bytes * Value)) in E. rewrite E, Hend.
    change (plug [] ?z) with z. by rewrite <- doc_norm_is_object.
  - assert (encode v = line (b!"value", v) ++ []) as ->.
    { destruct v; try done; unfold encode; rewrite write_inline_spec; by rewrite app_nil_r. }
    destruct (Hscalar Hok eq_refl) as [n' E]. unfold new. rewrite E, Hend. by destruct v.
Qed.

(** C13 TOML round trip: every value whose tables have distinct UTF-8 keys, whose numbers are in range (floats
    printing faithfully) and whose inline values nest at most [MAX_DEPTH] deep is encoded to a document that the
    parser reads back as the value, up to the documented normalisation: nulls are dropped (empty strings in
    arrays), sections follow the other entries of their table, byte strings are arrays, a value that is not a
    table is the entry [value]. *)
Theorem toml_roundtrip (v : Value) :
  toml_ok v = true -> from_str (encode v) = Some (Ok (toml_norm v)).
Proof. apply from_str_encode. Qed.

Definition sample : Value :=
  Value.Object
    [(b!"db", Value.Object [(b!"a key", Value.UInt 7); (b!"gone", Value.Null);
                            (b!"pool", Value.Object [(b!"x", Value.Array [])])]);
     (b!"servers", Value.Array [Value.Object [(b!"host", Value.Str [x22; x01; xc3; xa9])]; Value.Object [];
                                Value.Object [(b!"tls", Value.Object [(b!"on", Value.Bool true)])]]);
     (b!"mixed", Value.Array [Value.Null; Value.Object [(b!"f", Value.Float (F64.of_Z 3))]; Value.Bytes [x00; xff]])].

Lemma toml_roundtrip_witness : toml_ok sample = true /\ from_str (encode sample) = Some (Ok (toml_norm sample)).
Proof. split; [vm_compute; reflexivity|]. apply (toml_roundtrip sample). vm_compute. reflexivity. Defined.

End TomlRoundtrip.
