(* ===== verification/Xml.v ===== *)
(** * The XML codec ([codec/xml.rs])

    The encoder and the byte-scanning parser.  The parser state is the unread suffix of the input; a span
    [&input[a..b]] is the difference of two suffixes ([slice]).  Skipping an unterminated comment or declaration
    moves the position past the end of the input ([None]): inside an element that is reported as the end of the
    input, before the root element the next comparison panics.

    [Node] is the document between values and text: [xml_roundtrip] is proved through it. *)

From Stdlib Require Import SpecFloat.
From S2P Require Import Prelude Text Scan Value Json.

Open Scope Z_scope.

Module Xml.

(** ** Encoder *)

(** The escape of a byte in [escape_text], [None] when it is copied. *)
Definition escape (b : byte) : option bytes :=
  if bool_decide (b = x3c) then Some (b!"&lt;")
  else if bool_decide (b = x3e) then Some (b!"&gt;")
  else if bool_decide (b = x26) then Some (b!"&amp;")
  else None.

(** The loop of [escape_text]: [start] is the suffix where the current clean run
    begins, [cur] the suffix at the current index. *)
Fixpoint escape_loop (out start cur : bytes) : bytes :=
  match cur with
  | [] => out ++ start
  | b :: rest =>
      match escape b with
      | Some esc => escape_loop (out ++ slice start cur ++ esc) rest rest
      | None => escape_loop out start rest
      end
  end.

Definition escape_text (out s : bytes) : bytes := escape_loop out s s.

Definition write_scalar (out : bytes) (v : Value) : bytes :=
  match v with
  | Value.Null => out
  | Value.Bool b => out ++ (if b then b!"true" else b!"false")
  | Value.Int i => write_i64 out i
  | Value.UInt u => write_u64 out u
  | Value.Float f => write_f64 out f
  | Value.Str s => escape_text out s
  | Value.Bytes b =>
      (foldl (fun st x =>
         (S (fst st), write_u64 (if (0 <? fst st)%nat then snd st ++ [x20] else snd st) (b2z x)))
         (0%nat, out) b).2
  | Value.Array _ | Value.Object _ => out
  end.

Definition open_tag (tag : bytes) : bytes := [x3c] ++ tag ++ [x3e].
Definition close_tag (tag : bytes) : bytes := b!"</" ++ tag ++ [x3e].

(** [write_element]; [write_children] on an object is its own fold. *)
Fixpoint write_element (v : Value) (tag out : bytes) : bytes :=
  match v with
  | Value.Array [] => out ++ [x3c] ++ tag ++ b!"></" ++ tag ++ [x3e]
  | Value.Array a => foldl (fun out v => write_element v tag out) out a
  | Value.Object o =>
      foldl (fun out kv => write_element (snd kv) (fst kv) out) (out ++ open_tag tag) o ++ close_tag tag
  | Value.Null => out ++ [x3c] ++ tag ++ b!"></" ++ tag ++ [x3e]
  | scalar => write_scalar (out ++ open_tag tag) scalar ++ close_tag tag
  end.

Definition write_children (out item_tag : bytes) (v : Value) : bytes :=
  match v with
  | Value.Object o => foldl (fun out kv => write_element (snd kv) (fst kv) out) out o
  | Value.Array a => foldl (fun out v => write_element v item_tag out) out a
  | other => write_scalar out other
  end.

(** [xml::encode], on the [Value] the argument encodes to. *)
Definition encode (v : Value) : bytes := write_children (b!"<root>") (b!"item") v ++ b!"</root>".

(** ** Parser *)

Definition MAX_DEPTH : nat := 128.

(** How a parse fails: an error value, or a panic. *)
Inductive Stop :=
| Error (e : CodecError)
| Panic.

Definition perr {A} (m : bytes) : option (Result A Stop) := Some (Err (Error (Parse m))).

Definition is_ws (b : byte) : bool := bool_decide (b ∈ [x20; x09; x0a; x0d]).

(** [while matches!(self.peek(), Some(b) if f(b)) { self.pos += 1 }] *)
Fixpoint skip_while (f : byte -> bool) (s : bytes) : bytes :=
  match s with
  | b :: r => if f b then skip_while f r else s
  | [] => []
  end.

Definition skip_ws (s : bytes) : bytes := skip_while is_ws s.

(** Advancing to the pattern and past it; [None] when the input ends first. *)
Fixpoint skip_past (pat s : bytes) : option bytes :=
  if starts_with s pat then Some (drop (length pat) s)
  else match s with
       | [] => None
       | _ :: r => skip_past pat r
       end.

Definition skip_comment (s : bytes) : option bytes := skip_past (b!"-->") (drop 4 s).

(** One iteration of [skip_prolog]. *)
Definition prolog_body (s : bytes) : option (Result (bytes + bytes) Stop) :=
  let s := skip_ws s in
  let continue o := match o with Some s => Some (Ok (inl s)) | None => Some (Err Panic) end in
  if starts_with s (b!"<?") then continue (skip_past (b!"?>") s)
  else if starts_with s (b!"<!--") then continue (skip_comment s)
  else Some (Ok (inr s)).

Definition skip_prolog (s : bytes) : option (Result bytes Stop) := run_loop prolog_body length s.

Definition name_char (b : byte) : bool :=
  F64.is_digit b || ((65 <=? b2z b) && (b2z b <=? 90)) || ((97 <=? b2z b) && (b2z b <=? 122))
  || bool_decide (b ∈ [x5f; x2d; x2e; x3a]) || (0x80 <=? b2z b).

Definition read_name (s : bytes) : option (Result (bytes * bytes) Stop) :=
  let r := skip_while name_char s in
  if bool_decide (length r = length s) then perr (b!"expected element name")
  else Some (Ok (slice s r, r)).

(** The loop that skips attributes up to [>] or [/>]. *)
Fixpoint skip_attributes (s : bytes) : bytes :=
  match s with
  | [] => []
  | b :: r =>
      if bool_decide (b = x3e) || (bool_decide (b = x2f) && bool_decide (head r = Some x3e)) then s
      else skip_attributes r
  end.

(** [read_entity]: a [char], as its code point. *)
Definition entity_char (ent : bytes) : Result Z CodecError :=
  let char_ref n := ok_or (c ← n; Utf8.char_from_u32 c) (Parse (b!"bad char reference")) in
  if bool_decide (ent = b!"lt") then Ok 0x3c
  else if bool_decide (ent = b!"gt") then Ok 0x3e
  else if bool_decide (ent = b!"amp") then Ok 0x26
  else if bool_decide (ent = b!"quot") then Ok 0x22
  else if bool_decide (ent = b!"apos") then Ok 0x27
  else if starts_with ent (b!"#x") || starts_with ent (b!"#X") then
    char_ref (parse_uint 16 u32_max (drop 2 ent))
  else if starts_with ent (b!"#") then char_ref (parse_uint 10 u32_max (drop 1 ent))
  else Err (Parse (b!"unknown entity &" ++ ent ++ b!";")).

Definition read_entity (s : bytes) : option (Result (Z * bytes) Stop) :=
  let r := skip_while (fun b => negb (bool_decide (b = x3b))) s in
  let ent := slice s r in
  let r := if bool_decide (head r = Some x3b) then drop 1 r else r in
  match entity_char ent with
  | Ok c => Some (Ok (c, r))
  | Err e => Some (Err (Error e))
  end.

Abbreviation Children := (list (bytes * Value)).

Fixpoint push_child (children : Children) (tag : bytes) (value : Value) : Children :=
  match children with
  | [] => [(tag, value)]
  | (k, existing) :: rest =>
      if bool_decide (k = tag) then
        (k, match existing with
            | Value.Array a => Value.Array (a ++ [value])
            | prev => Value.Array [prev; value]
            end) :: rest
      else (k, existing) :: push_child rest tag value
  end.

(** The value of an element whose content has been read. *)
Definition content_value (children : Children) (text : bytes) : Value :=
  match children with
  | [] =>
      let trimmed := trim text in
      if bool_decide (trimmed = []) then Value.Null else Value.Str trimmed
  | _ => Value.Object children
  end.

(** The state of the loop of [parse_content]: children, text, the suffix where
    the current clean run begins, and the unread suffix. *)
Record Content := mkC { children : Children; text : bytes; run : bytes; rest : bytes }.

(** One iteration, given the parser of a child element (which checks the depth). *)
Definition content_body (child : bytes -> option (Result ((bytes * Value) * bytes) Stop)) (tag : bytes) (c : Content)
  : option (Result (Content + (Value * bytes)) Stop) :=
  match rest c with
  | [] => perr (b!"unexpected end of input")
  | b :: r =>
      if bool_decide (b = x3c) then
        let text := text c ++ slice (run c) (rest c) in
        if starts_with (rest c) (b!"<!--") then
          match skip_comment (rest c) with
          | Some s => Some (Ok (inl (mkC (children c) text s s)))
          | None => perr (b!"unexpected end of input")
          end
        else if starts_with (rest c) (b!"</") then
          let! (close, s) := read_name (drop 2 (rest c)) in
          let s := skip_ws s in
          if negb (bool_decide (head s = Some x3e)) then perr (b!"malformed close tag")
          else if negb (bool_decide (close = tag)) then
            perr (b!"mismatched tags: <" ++ tag ++ b!"> vs </" ++ close ++ b!">")
          else Some (Ok (inr (content_value (children c) text, drop 1 s)))
        else
          let! (child_tag, child_val, s) := child (rest c) in
          Some (Ok (inl (mkC (push_child (children c) child_tag child_val) text s s)))
      else if bool_decide (b = x26) then
        let text := text c ++ slice (run c) (rest c) in
        let! (ch, s) := read_entity r in
        Some (Ok (inl (mkC (children c) (text ++ Utf8.encode_char ch) s s)))
      else Some (Ok (inl (mkC (children c) (text c) (run c) r)))
  end.

(** [parse_element] and [parse_content] at [self.depth = depth]; the depth limit
    bounds the recursion. *)
Fixpoint element_fuel (fuel depth : nat) (s : bytes) : option (Result ((bytes * Value) * bytes) Stop) :=
  let s := skip_ws s in
  if negb (bool_decide (head s = Some x3c)) then perr (b!"expected '<' to start element")
  else
    let! (tag, s) := read_name (drop 1 s) in
    let s := skip_attributes s in
    if starts_with s (b!"/>") then Some (Ok ((tag, Value.Null), drop 2 s))
    else if negb (bool_decide (head s = Some x3e)) then perr (b!"malformed start tag")
    else
      let s := drop 1 s in
      let child s :=
        if (MAX_DEPTH <? S depth)%nat then perr (b!"nesting too deep")
        else match fuel with
             | O => None
             | S fuel => element_fuel fuel (S depth) s
             end in
      let! (value, s) := run_loop (content_body child tag) (fun c => length (rest c)) (mkC [] [] s s) in
      Some (Ok ((tag, value), s)).

Definition parse_element (depth : nat) (s : bytes) : option (Result ((bytes * Value) * bytes) Stop) :=
  element_fuel (MAX_DEPTH - depth) depth s.

(** [xml::from_str]; [None] is running out of fuel, which [xml_from_str_total] rules out. *)
Definition from_str (input : bytes) : option (Result Value Stop) :=
  let! s := skip_prolog input in
  let! (_, value, _) := parse_element 0 s in
  Some (Ok value).

(** ** Every step of the parser consumes input *)

Lemma skip_while_spec f s : exists w,
  s = w ++ skip_while f s /\ Forall (fun b => f b = true) w /\
  match skip_while f s with b :: _ => f b = false | [] => True end.
Proof.
  induction s as [|b s (w & H1 & H2 & H3)]; cbn [skip_while]; [by exists []|].
  destruct (f b) eqn:E.
  - exists (b :: w). cbn [app]. split_and!; [congruence|by constructor|done].
  - by exists [].
Qed.

Lemma skip_while_length f s : (length (skip_while f s) <= length s)%nat.
Proof. destruct (skip_while_spec f s) as (w & H & _). rewrite H at 2. rewrite length_app. lia. Qed.

Lemma skip_past_length pat s r : skip_past pat s = Some r -> (length r + length pat <= length s)%nat.
Proof.
  revert r. induction s as [|b s IH]; intros r; cbn [skip_past];
    (destruct (starts_with _ pat) eqn:E; [apply starts_with_spec in E as (t & ->); intros [= <-];
       rewrite drop_app_length, length_app; lia|]); [done|].
  intros H. apply IH in H. cbn [length]. lia.
Qed.

Lemma skip_attributes_length s : (length (skip_attributes s) <= length s)%nat.
Proof. induction s as [|b s IH]; cbn [skip_attributes]; [done|]. split_if; cbn [length]; lia. Qed.

Lemma skip_comment_length s r : s <> [] -> skip_comment s = Some r -> (length r < length s)%nat.
Proof.
  unfold skip_comment. intros Hs H. apply skip_past_length in H. rewrite length_drop in H. cbn [length] in H.
  change (length (b!"-->")) with 3%nat in H. lia.
Qed.

Lemma prolog_decreases s s' : prolog_body s = Some (Ok (inl s')) -> (length s' < length s)%nat.
Proof.
  unfold prolog_body. pose proof (skip_while_length is_ws s) as Hw. fold (skip_ws s) in Hw. cbv zeta.
  destruct (starts_with (skip_ws s) (b!"<?")) eqn:E1; [|destruct (starts_with (skip_ws s) (b!"<!--")) eqn:E2; [|done]].
  - destruct (skip_past _ _) eqn:E; [|done]. intros [= <-]. apply skip_past_length in E.
    change (length (b!"?>")) with 2%nat in E. lia.
  - destruct (skip_comment _) eqn:E; [|done]. intros [= <-]. apply skip_comment_length in E; [lia|].
    by destruct (skip_ws s).
Qed.

(** A computation that returns, leaving at least [k] of [n] bytes read. *)
Definition consumes {A} (view : A -> bytes) (k n : nat) (r : option (Result A Stop)) : Prop :=
  match r with
  | None => False
  | Some (Ok a) => (length (view a) + k <= n)%nat
  | Some (Err _) => True
  end.

Lemma read_name_consumes s : consumes snd 1 (length s) (read_name s).
Proof.
  unfold read_name. case_bool_decide as E; [done|]. pose proof (skip_while_length name_char s).
  cbn [consumes snd]. lia.
Qed.

Lemma read_entity_consumes s : consumes snd 0 (length s) (read_entity s).
Proof.
  unfold read_entity. destruct (entity_char _); [|done]. cbn [consumes snd].
  pose proof (skip_while_length (fun b => negb (bool_decide (b = x3b))) s).
  split_if; rewrite ?length_drop; lia.
Qed.

Definition content_rest (r : Content + (Value * bytes)) : bytes :=
  match r with inl c => rest c | inr st => snd st end.

Lemma content_body_consumes child tag c :
  (forall s, consumes snd 1 (length s) (child s)) ->
  consumes content_rest 1 (length (rest c)) (content_body child tag c).
Proof.
  intros Hc. unfold content_body. destruct (rest c) as [|b r] eqn:Er; [done|].
  repeat (split_if; [|]).
  - destruct (skip_comment _) eqn:E; [|done]. apply skip_comment_length in E; [|done]. cbn [consumes content_rest rest]. lia.
  - pose proof (read_name_consumes (drop 2 (b :: r))) as Hn.
    destruct (read_name _) as [[[close s]|e]|]; try done. cbn [consumes fbind snd] in *.
    pose proof (skip_while_length is_ws s) as Hw. fold (skip_ws s) in Hw. rewrite length_drop in Hn.
    repeat split_if; try done. cbn [consumes content_rest snd]. rewrite length_drop. lia.
  - specialize (Hc (b :: r)). destruct (child _) as [[[[t v] s]|e]|]; try done.
  - pose proof (read_entity_consumes r) as Hn. destruct (read_entity r) as [[[ch s]|e]|]; try done.
    cbn [consumes fbind snd content_rest rest length] in *. lia.
  - cbn [consumes content_rest rest length]. lia.
Qed.

Lemma content_decreases child tag :
  (forall s, consumes snd 1 (length s) (child s)) ->
  forall c c', content_body child tag c = Some (Ok (inl c')) -> (length (rest c') < length (rest c))%nat.
Proof.
  intros Hc c c' E. pose proof (content_body_consumes child tag c Hc) as H. rewrite E in H.
  cbn [consumes content_rest] in H. lia.
Qed.

Lemma content_loop_consumes child tag c :
  (forall s, consumes snd 1 (length s) (child s)) ->
  consumes snd 1 (length (rest c)) (run_loop (content_body child tag) (fun c => length (rest c)) c).
Proof.
  intros Hc. apply (run_loop_ind (content_body child tag) (fun c => length (rest c)) (content_decreases child tag Hc)
    (fun c r => consumes snd 1 (length (rest c)) r)).
  - done.
  - intros c' E. pose proof (content_body_consumes child tag c' Hc) as H. by rewrite E in H.
  - intros c' a E. pose proof (content_body_consumes child tag c' Hc) as H. by rewrite E in H.
  - intros c' c'' r E. apply content_decreases in E; [|done]. destruct r as [[[v s]|e]|]; try done. cbn [consumes snd]. lia.
Qed.

Lemma element_fuel_consumes fuel : forall depth s,
  (MAX_DEPTH <= fuel + depth)%nat -> consumes snd 1 (length s) (element_fuel fuel depth s).
Proof.
  induction fuel as [|fuel IH]; intros depth s Hf; cbn [element_fuel];
    pose proof (skip_while_length is_ws s) as Hw; fold (skip_ws s) in Hw;
    (case_bool_decide as Eh; [|done]); cbn [negb];
    pose proof (read_name_consumes (drop 1 (skip_ws s))) as Hn;
    (destruct (read_name _) as [[[tag s1]|e]|]; try done); cbn [consumes fbind snd] in *;
    rewrite length_drop in Hn; pose proof (skip_attributes_length s1) as Ha;
    (destruct (starts_with (skip_attributes s1) (b!"/>")); [cbn [consumes snd]; rewrite length_drop; lia|]);
    (destruct (negb _); [done|]).
  all: match goal with |- consumes _ _ _ (fbind (run_loop (content_body ?c _) _ ?st) _) =>
         pose proof (content_loop_consumes c tag st) as Hl end.
  all: cbn [rest] in Hl; rewrite length_drop in Hl;
    (destruct (run_loop _ _ _) as [[[v s2]|e]|]; cbn [consumes fbind snd] in *; try done).
  - assert (length s2 + 1 <= length (skip_attributes s1) - 1)%nat; [|lia]. apply Hl. intros s'.
    rewrite (proj2 (Nat.ltb_lt _ _)) by lia. done.
  - apply Hl. intros s'. rewrite (proj2 (Nat.ltb_lt _ _)) by lia. done.
  - assert (length s2 + 1 <= length (skip_attributes s1) - 1)%nat; [|lia]. apply Hl. intros s'.
    split_if; [done|]. apply IH. lia.
  - apply Hl. intros s'. split_if; [done|]. apply IH. lia.
Qed.

Lemma parse_element_consumes depth s : consumes snd 1 (length s) (parse_element depth s).
Proof. apply element_fuel_consumes. lia. Qed.

(** The parser returns on every document. *)
Theorem xml_from_str_total (input : bytes) : exists r, from_str input = Some r.
Proof.
  unfold from_str. assert (exists r, skip_prolog input = Some r) as [[s|e] ->]; [|cbn [fbind]|by eexists].
  - apply (run_loop_ind prolog_body length prolog_decreases (fun _ r => exists x, r = Some x)); eauto.
    intros s. unfold prolog_body. cbv zeta.
    destruct (starts_with _ _); [destruct (skip_past _ _); done|].
    destruct (starts_with _ _); [destruct (skip_comment _); done|done].
  - pose proof (parse_element_consumes 0 s) as H. destruct (parse_element 0 s) as [[[[t v] r]|e]|]; [by eexists..|done].
Qed.

(** An unterminated declaration (or comment) before the root element makes the
    parser panic: the position is moved past the end of the input. *)
Example unterminated_prolog_panics :
  from_str (b!"<?xml") = Some (Err Panic) /\ from_str (b!"<!-- x") = Some (Err Panic).
Proof. vm_compute. done. Qed.

(** ** Documents *)

(** An element: text, or child elements in document order. *)
Inductive Node :=
| Leaf (t : bytes)
| Elem (cs : list (bytes * Node)).

Section NodeInd.
Context (P : Node -> Prop) (HLeaf : forall t, P (Leaf t)) (HElem : forall cs, Forall (fun c => P (snd c)) cs -> P (Elem cs)).

Fixpoint node_ind' (n : Node) : P n :=
  match n with
  | Leaf t => HLeaf t
  | Elem cs => HElem cs
      ((fix go (l : list (bytes * Node)) : Forall (fun c => P (snd c)) l :=
          match l with
          | [] => Forall_nil_2 _
          | c :: l' => Forall_cons_2 (fun c => P (snd c)) c l' (node_ind' (snd c)) (go l')
          end) cs)
  end.
End NodeInd.

Definition esc (s : bytes) : bytes := flat_map (fun b => default [b] (escape b)) s.

(** The text of the content of an element. *)
Fixpoint print (n : Node) : bytes :=
  match n with
  | Leaf t => esc t
  | Elem cs => flat_map (fun c => open_tag (fst c) ++ print (snd c) ++ close_tag (fst c)) cs
  end.

Definition print_element (c : bytes * Node) : bytes := open_tag (fst c) ++ print (snd c) ++ close_tag (fst c).

(** The text of a scalar, before escaping. *)
Definition scalar_text (v : Value) : bytes :=
  match v with Value.Str s => s | v => write_scalar [] v end.

(** The elements of a field: one per item of a (nested) array. *)
Fixpoint nodes (v : Value) : list Node :=
  match v with
  | Value.Array [] => [Leaf []]
  | Value.Array a => flat_map nodes a
  | Value.Object o => [Elem (flat_map (fun kv => map (pair (fst kv)) (nodes (snd kv))) o)]
  | v => [Leaf (scalar_text v)]
  end.

Definition root_node (v : Value) : Node :=
  match v with
  | Value.Object o => Elem (flat_map (fun kv => map (pair (fst kv)) (nodes (snd kv))) o)
  | Value.Array a => Elem (flat_map (fun v => map (pair (b!"item")) (nodes v)) a)
  | v => Leaf (scalar_text v)
  end.

(** Numbers in range. *)
Fixpoint in_range (v : Value) : bool :=
  match v with
  | Value.Int i => (i64_min <=? i) && (i <=? i64_max)
  | Value.UInt u => (0 <=? u) && (u <=? u64_max)
  | Value.Array a => forallb in_range a
  | Value.Object o => forallb (fun kv => in_range (snd kv)) o
  | _ => true
  end.

(** ** The encoder writes the document *)

Lemma escape_loop_spec cur : forall o run, escape_loop o (run ++ cur) cur = o ++ run ++ esc cur.
Proof.
  induction cur as [|b cur IH]; intros o run; cbn [escape_loop]; [done|].
  unfold esc. cbn [flat_map]. fold (esc cur). destruct (escape b) as [e|] eqn:E; cbn [default from_option id].
  - rewrite slice_app. pose proof (IH (o ++ run ++ e) []) as H. cbn [app] in H. rewrite H. by rewrite <- !app_assoc.
  - rewrite cons_middle, app_assoc, IH. by rewrite <- !app_assoc.
Qed.

Lemma xml_esc_clean t : Forall (fun b => escape b = None) t -> esc t = t.
Proof. induction 1 as [|b t Hb _ IH]; [done|]. unfold esc in *. cbn [flat_map]. by rewrite Hb, IH. Qed.

Definition plain_char (b : byte) : Prop := escape b = None.

Lemma digits_plain t : Forall (fun b => F64.is_digit b = true) t -> Forall plain_char t.
Proof. intros H. eapply Forall_impl; [exact H|]. by intros []. Qed.

Lemma write_u64_plain u : 0 <= u <= u64_max -> Forall plain_char (write_u64 [] u).
Proof.
  intros Hu. destruct (write_u64_shape u Hu) as (c & t & -> & Hc & Ht).
  apply (digits_plain (c :: t)). by constructor.
Qed.

Lemma bytes_fold b : forall i out, Forall plain_char out ->
  let step := fun (st : nat * bytes) x =>
    (S (fst st), write_u64 (if (0 <? fst st)%nat then snd st ++ [x20] else snd st) (b2z x)) in
  Forall plain_char (foldl step (i, out) b).2 /\
  forall pre, (foldl step (i, pre ++ out) b).2 = pre ++ (foldl step (i, out) b).2.
Proof.
  induction b as [|x b IH]; intros i out Hout step; [done|]. subst step. cbn [foldl fst snd].
  pose proof (b2z_range x) as Hx.
  destruct (IH (S i) (write_u64 (if (0 <? i)%nat then out ++ [x20] else out) (b2z x))) as [H1 H2].
  { rewrite write_u64_app. apply Forall_app. split; [|apply write_u64_plain; unfold u64_max; lia].
    destruct (0 <? i)%nat; [|done]. apply Forall_app. by repeat constructor. }
  split; [done|]. intros pre. rewrite <- H2. do 3 f_equal.
  unfold write_u64. destruct (0 <? i)%nat; by rewrite <- !app_assoc.
Qed.

Lemma write_f64_plain f : Forall plain_char (write_f64 [] f).
Proof.
  unfold write_f64. destruct (F64.is_finite f) eqn:E; [|by repeat constructor].
  destruct (display_shape f E) as (neg & c & t & -> & Hc & Ht). cbn [app].
  apply Forall_app. split; [destruct neg; by repeat constructor|]. constructor; [by destruct c|].
  eapply Forall_impl; [exact Ht|]. by intros [].
Qed.

(** A scalar is written as its escaped text. *)
Lemma write_scalar_spec v out : in_range v = true -> write_scalar out v = out ++ esc (scalar_text v).
Proof.
  intros Hr. assert (match v with Value.Str s => True | v => Forall plain_char (write_scalar [] v) /\
    write_scalar out v = out ++ write_scalar [] v end) as H.
  { destruct v as [|b|i|u|f|s|b|a|o]; cbn [write_scalar in_range] in *; zbool; try done.
    - split; [constructor|]. by rewrite app_nil_r.
    - split; [destruct b; by repeat constructor|done].
    - split; [|apply write_i64_app]. destruct (write_i64_shape i) as (neg & c & t & -> & Hc & Ht); [done|].
      apply Forall_app. split; [destruct neg; by repeat constructor|]. apply (digits_plain (c :: t)). by constructor.
    - split; [by apply write_u64_plain|apply write_u64_app].
    - split; [apply write_f64_plain|]. unfold write_f64. by destruct (F64.is_finite f).
    - destruct (bytes_fold b 0 [] ltac:(constructor)) as [H1 H2]. split; [done|].
      rewrite <- (app_nil_r out) at 1. apply H2.
    - split; [constructor|]. by rewrite app_nil_r.
    - split; [constructor|]. by rewrite app_nil_r. }
  destruct v as [|b|i|u|f|s|b|a|o]; cbn [scalar_text]; try (destruct H as [H1 H2]; by rewrite (xml_esc_clean _ H1)).
  cbn [write_scalar]. apply (escape_loop_spec s out []).
Qed.

Lemma flat_map_map {A B C} (f : B -> list C) (g : A -> B) l : flat_map f (map g l) = flat_map (fun x => f (g x)) l.
Proof. induction l as [|x l IH]; [done|]. cbn [map flat_map]. by rewrite IH. Qed.

Lemma flat_map_flat_map {A B C} (f : B -> list C) (g : A -> list B) l :
  flat_map f (flat_map g l) = flat_map (fun x => flat_map f (g x)) l.
Proof. induction l as [|x l IH]; [done|]. cbn [flat_map]. by rewrite flat_map_app, IH. Qed.

Lemma scalar_element tag v out :
  in_range v = true ->
  write_scalar (out ++ open_tag tag) v ++ close_tag tag = out ++ print_element (tag, Leaf (scalar_text v)) ++ [].
Proof.
  intros Hr. rewrite write_scalar_spec by done. unfold print_element. cbn [fst snd print].
  by rewrite app_nil_r, <- !app_assoc.
Qed.

Definition elements (tag : bytes) (v : Value) : bytes := flat_map print_element (map (pair tag) (nodes v)).

Lemma empty_element tag out :
  out ++ [x3c] ++ tag ++ b!"></" ++ tag ++ [x3e] = out ++ flat_map print_element [(tag, Leaf [])].
Proof. unfold print_element, open_tag, close_tag. cbn. by rewrite app_nil_r, <- !app_assoc. Qed.

Lemma write_element_spec v : in_range v = true -> forall tag out, write_element v tag out = out ++ elements tag v.
Proof.
  induction v as [|b|i|u|f|s|b|a IH|o IH] using value_ind'; intros Hr tag out.
  - apply empty_element.
  - by apply (scalar_element tag (Value.Bool b)).
  - by apply (scalar_element tag (Value.Int i)).
  - by apply (scalar_element tag (Value.UInt u)).
  - by apply (scalar_element tag (Value.Float f)).
  - by apply (scalar_element tag (Value.Str s)).
  - by apply (scalar_element tag (Value.Bytes b)).
  - destruct a as [|x a].
    { apply empty_element. }
    change (write_element (Value.Array (x :: a)) tag out) with (foldl (fun out v => write_element v tag out) out (x :: a)).
    change (elements tag (Value.Array (x :: a))) with (flat_map print_element (map (pair tag) (flat_map nodes (x :: a)))).
    cbn [in_range] in Hr. rewrite forallb_forall in Hr.
    rewrite (foldl_texts _ (elements tag)).
    + f_equal. unfold elements. rewrite flat_map_map, flat_map_flat_map. apply flat_map_ext.
      intros v. by rewrite flat_map_map.
    + rewrite Forall_forall in IH |- *. intros v Hv out'. apply IH; [done|]. by apply Hr, list_elem_of_In.
  - cbn [write_element]. cbn [in_range] in Hr. rewrite forallb_forall in Hr.
    rewrite (foldl_texts _ (fun kv => elements (fst kv) (snd kv))).
    + unfold elements, print_element. cbn [nodes map flat_map fst snd print].
      rewrite app_nil_r, <- !app_assoc. do 3 f_equal. by rewrite flat_map_flat_map.
    + rewrite Forall_forall in IH |- *. intros kv Hkv out'. apply IH; [done|]. by apply Hr, list_elem_of_In.
Qed.

Lemma encode_print v : in_range v = true -> encode v = print_element (b!"root", root_node v).
Proof.
  intros Hr. unfold encode, print_element. cbn [fst snd].
  assert (forall (a : list Value) out, forallb in_range a = true ->
    foldl (fun out v => write_element v (b!"item") out) out a =
    out ++ flat_map print_element (flat_map (fun v => map (pair (b!"item")) (nodes v)) a)) as Ha.
  { intros a out H. rewrite forallb_forall in H. rewrite (foldl_texts _ (elements (b!"item"))).
    - by rewrite flat_map_flat_map.
    - apply Forall_forall. intros v' Hv out'. apply write_element_spec. by apply H, list_elem_of_In. }
  destruct v as [|b|i|u|f|s|b|a|o]; cbn [write_children root_node print];
    try (rewrite write_scalar_spec by done; by rewrite <- app_assoc).
  - rewrite Ha by done. by rewrite <- app_assoc.
  - cbn [in_range] in Hr. rewrite forallb_forall in Hr. rewrite (foldl_texts _ (fun kv => elements (fst kv) (snd kv))).
    + rewrite flat_map_flat_map. by rewrite <- app_assoc.
    + apply Forall_forall. intros kv Hkv out'. apply write_element_spec. by apply Hr, list_elem_of_In.
Qed.

(** ** The parser reads documents back *)

Fixpoint node_value (n : Node) : Value :=
  match n with
  | Leaf t => content_value [] t
  | Elem cs => content_value (foldl (fun ch c => push_child ch (fst c) (node_value (snd c))) [] cs) []
  end.

(** Levels of elements below an element. *)
Fixpoint node_depth (n : Node) : nat :=
  match n with
  | Leaf _ => 0
  | Elem cs => foldr (fun c m => Nat.max (S (node_depth (snd c))) m) 0%nat cs
  end.

(** A name: letters, digits, [_], [-], [.], [:] and bytes outside ASCII, at least one. *)
Definition name_ok (k : bytes) : bool :=
  negb (bool_decide (k = [])) &&
  forallb (fun b => bool_decide (b ∈ b!"abcdefghijklmnopqrstuvwxyzABCDEFGHIJKLMNOPQRSTUVWXYZ0123456789_-.:")
                    || (0x80 <=? b2z b)) k.

Fixpoint names_ok (n : Node) : bool :=
  match n with
  | Leaf _ => true
  | Elem cs => forallb (fun c => name_ok (fst c) && names_ok (snd c)) cs
  end.

Lemma skip_while_app f w r :
  Forall (fun b => f b = true) w -> match r with b :: _ => f b = false | [] => True end -> skip_while f (w ++ r) = r.
Proof.
  induction 1 as [|b w Hb _ IH]; intros Hr; cbn [app].
  - destruct r as [|b r]; [done|]. cbn [skip_while]. by rewrite Hr.
  - cbn [skip_while]. rewrite Hb. by apply IH.
Qed.

Lemma xml_skip_ws_none b r : is_ws b = false -> skip_ws (b :: r) = b :: r.
Proof. intros H. unfold skip_ws. cbn [skip_while]. by rewrite H. Qed.

Lemma name_ok_spec k : name_ok k = true -> exists c t, k = c :: t /\ Forall (fun b => name_char b = true) k.
Proof.
  unfold name_ok. destruct k as [|c t]; [done|]. rewrite bool_decide_false by done. cbn [negb andb]. intros H.
  exists c, t. split; [done|]. apply Forall_forall. rewrite forallb_forall in H. intros b Hb.
  apply list_elem_of_In, H in Hb. by destruct b.
Qed.

Lemma read_name_app k b r : name_ok k = true -> name_char b = false -> read_name (k ++ b :: r) = Some (Ok (k, b :: r)).
Proof.
  intros Hk Hb. destruct (name_ok_spec k Hk) as (c & t & -> & Hf). unfold read_name.
  rewrite skip_while_app by done. rewrite bool_decide_false by (rewrite length_app; cbn [length]; lia).
  by rewrite slice_app.
Qed.

Section ContentReads.
Context (child : bytes -> option (Result ((bytes * Value) * bytes) Stop)) (tag : bytes)
  (Hchild : forall s, consumes snd 1 (length s) (child s)).

(** The loop of [parse_content] with [w] in the current clean run. *)
Definition content (ch : Children) (text w p : bytes) : option (Result (Value * bytes) Stop) :=
  run_loop (content_body child tag) (fun c => length (rest c)) (mkC ch text (w ++ p) p).

Lemma content_eq ch text w p :
  content ch text w p =
  let! r := content_body child tag (mkC ch text (w ++ p) p) in
  match r with
  | inl c => run_loop (content_body child tag) (fun c => length (rest c)) c
  | inr a => Some (Ok a)
  end.
Proof. apply (run_loop_eq (content_body child tag) (fun c => length (rest c))). by apply content_decreases. Qed.

Lemma content_plain ch text w b p :
  escape b = None -> content ch text w (b :: p) = content ch text (w ++ [b]) p.
Proof.
  intros Hb. rewrite content_eq. unfold content_body. cbn [rest].
  rewrite bool_decide_false by (by intros ->). rewrite bool_decide_false by (by intros ->).
  cbn [fbind children Xml.text run]. unfold content. by rewrite <- app_assoc.
Qed.

Lemma content_entity ch text w e c p :
  Forall (fun b => negb (bool_decide (b = x3b)) = true) e -> entity_char e = Ok c ->
  content ch text w ([x26] ++ e ++ x3b :: p) = content ch (text ++ w ++ Utf8.encode_char c) [] p.
Proof.
  intros He Hc. rewrite content_eq. unfold content_body. cbn [rest app].
  rewrite bool_decide_false by done. rewrite bool_decide_true by done.
  unfold read_entity. rewrite skip_while_app by done. rewrite slice_app, Hc. cbn [head].
  rewrite bool_decide_true by done. cbn [fbind children Xml.text run]. rewrite slice_app.
  unfold content. cbn [app drop]. by rewrite drop_0, <- !app_assoc.
Qed.

Lemma content_text t : forall ch text w p, exists text' w',
  content ch text w (esc t ++ p) = content ch text' w' p /\ text' ++ w' = text ++ w ++ t.
Proof.
  induction t as [|b t IH]; intros ch text w p.
  { exists text, w. by rewrite app_nil_r. }
  change (esc (b :: t)) with (default [b] (escape b) ++ esc t). destruct (escape b) as [e|] eqn:E; cbn [default from_option id].
  - assert (exists c e', e = [x26] ++ e' ++ [x3b] /\ Forall (fun b => negb (bool_decide (b = x3b)) = true) e' /\
      entity_char e' = Ok c /\ Utf8.encode_char c = [b]) as (c & e' & -> & He & Hc & Hb).
    { destruct b; try discriminate E; injection E as <-;
        [exists 0x26, (b!"amp")|exists 0x3c, (b!"lt")|exists 0x3e, (b!"gt")];
        (split; [reflexivity|]); (split; [by repeat constructor|]); split; reflexivity. }
    rewrite <- !app_assoc. pose proof (content_entity ch text w e' c (esc t ++ p) He Hc) as Hent.
    cbn [app] in Hent |- *. rewrite Hent, Hb.
    destruct (IH ch (text ++ w ++ [b]) [] p) as (text' & w' & E1 & E2). exists text', w'. split; [done|].
    rewrite E2. cbn [app]. by rewrite <- !app_assoc.
  - cbn [app]. rewrite content_plain by done.
    destruct (IH ch text (w ++ [b]) p) as (text' & w' & E1 & E2). exists text', w'. split; [done|].
    rewrite E2. by rewrite <- !app_assoc.
Qed.

Lemma content_close ch text w r :
  name_ok tag = true -> content ch text w (close_tag tag ++ r) = Some (Ok (content_value ch (text ++ w), r)).
Proof.
  intros Ht. rewrite content_eq. unfold content_body, close_tag. cbn [rest]. rewrite <- !app_assoc.
  change (b!"</" ++ ?z) with (x3c :: x2f :: z). cbn [app]. rewrite bool_decide_true by done.
  change (starts_with (x3c :: x2f :: ?z) (b!"<!--")) with false.
  pose proof (starts_with_app (b!"</") (tag ++ x3e :: r)) as Hs.
  change (starts_with (x3c :: x2f :: tag ++ x3e :: r) (b!"</") = true) in Hs. rewrite Hs. cbn [drop]. rewrite drop_0.
  rewrite read_name_app by done. cbn [fbind]. rewrite xml_skip_ws_none by done.
  cbn [head]. rewrite bool_decide_true by done. rewrite bool_decide_true by done. cbn [negb fbind Xml.text run children].
  rewrite slice_app. done.
Qed.

Lemma content_child ch text w c v r :
  name_ok (fst c) = true -> child (print_element c ++ r) = Some (Ok ((fst c, v), r)) ->
  content ch text w (print_element c ++ r) = content (push_child ch (fst c) v) (text ++ w) [] r.
Proof.
  intros Hn Hc. rewrite content_eq. unfold content_body. cbn [rest].
  destruct (name_ok_spec _ Hn) as (a & t & Ek & Hf). rewrite Ek in Hf. inversion Hf as [|? ? Ha _]; subst.
  assert (exists z, print_element c ++ r = x3c :: a :: z) as [z Ez].
  { unfold print_element, open_tag. rewrite Ek. cbn [app]. by eexists. }
  rewrite Ez in *. rewrite bool_decide_true by done.
  assert (starts_with (x3c :: a :: z) (b!"<!--") = false /\ starts_with (x3c :: a :: z) (b!"</") = false) as [-> ->]
    by (by destruct a).
  rewrite Hc. cbn [fbind Xml.text run children]. rewrite slice_app. done.
Qed.

Lemma content_children cs : forall ch text w r,
  Forall (fun c => name_ok (fst c) = true /\ forall r, child (print_element c ++ r) = Some (Ok ((fst c, node_value (snd c)), r))) cs ->
  exists text' w', content ch text w (flat_map print_element cs ++ r) =
    content (foldl (fun ch c => push_child ch (fst c) (node_value (snd c))) ch cs) text' w' r /\ text' ++ w' = text ++ w.
Proof.
  induction cs as [|c cs IH]; intros ch text w r H; cbn [flat_map foldl]; [by exists text, w|].
  inversion H as [|? ? [Hn Hc] H']; subst. rewrite <- app_assoc.
  rewrite (content_child ch text w c (node_value (snd c))) by done.
  destruct (IH (push_child ch (fst c) (node_value (snd c))) (text ++ w) [] r H') as (text' & w' & E1 & E2).
  exists text', w'. split; [done|]. by rewrite E2, app_nil_r.
Qed.

End ContentReads.

Lemma node_depth_child cs c : c ∈ cs -> (S (node_depth (snd c)) <= node_depth (Elem cs))%nat.
Proof.
  cbn [node_depth]. induction cs as [|c' cs IH]; [set_solver|].
  intros [->|H]%elem_of_cons; cbn [foldr]; [lia|]. specialize (IH H). lia.
Qed.

Definition element_reads (n : Node) : Prop := forall tag d r,
  name_ok tag = true -> (node_depth n + d <= MAX_DEPTH)%nat ->
  parse_element d (print_element (tag, n) ++ r) = Some (Ok ((tag, node_value n), r)).

Lemma parse_element_open d tag s r :
  name_ok tag = true ->
  exists child, (forall s, consumes snd 1 (length s) (child s)) /\
    (forall s, (S d <= MAX_DEPTH)%nat -> child s = parse_element (S d) s) /\
    parse_element d (open_tag tag ++ s ++ r) =
    let! (value, s) := content child tag [] [] [] (s ++ r) in Some (Ok ((tag, value), s)).
Proof.
  intros Ht.
  exists (fun s => if (MAX_DEPTH <? S d)%nat then perr (b!"nesting too deep")
                   else match (MAX_DEPTH - d)%nat with O => None | S fuel => element_fuel fuel (S d) s end).
  split; [|split].
  - intros s'. destruct (MAX_DEPTH <? S d)%nat eqn:E; [done|]. apply Nat.ltb_ge in E.
    destruct (MAX_DEPTH - d)%nat as [|fuel] eqn:Ef; [lia|]. apply element_fuel_consumes. lia.
  - intros s' Hd. rewrite (proj2 (Nat.ltb_ge _ _)) by lia. unfold parse_element.
    by replace (MAX_DEPTH - d)%nat with (S (MAX_DEPTH - S d)) by lia.
  - unfold parse_element, open_tag. rewrite <- !app_assoc. cbn [app].
    assert (forall f, element_fuel f d (x3c :: tag ++ x3e :: s ++ r) =
      let! (value, s) := run_loop (content_body (fun s =>
        if (MAX_DEPTH <? S d)%nat then perr (b!"nesting too deep")
        else match f with O => None | S fuel => element_fuel fuel (S d) s end) tag)
        (fun c => length (rest c)) (mkC [] [] (s ++ r) (s ++ r)) in
      Some (Ok ((tag, value), s))) as Hf; [|apply Hf].
    intros f. destruct f; cbn [element_fuel]; rewrite xml_skip_ws_none by done; cbn [head];
      (rewrite bool_decide_true by done); cbn [negb drop]; rewrite drop_0, read_name_app by done; cbn [fbind skip_attributes];
      (rewrite bool_decide_true by done); cbn [orb]; change (starts_with (x3e :: ?z) (b!"/>")) with false; cbv iota;
      cbn [head]; (rewrite bool_decide_true by done); cbn [negb drop]; by rewrite drop_0.
Qed.

Lemma all_elements_read n : names_ok n = true -> element_reads n.
Proof.
  induction n as [t|cs IH] using node_ind'; intros Hn tag d r Ht Hd;
    unfold print_element; cbn [fst snd]; rewrite <- app_assoc, <- app_assoc;
    (edestruct (parse_element_open d tag) as (child & Hc1 & Hc2 & ->); [done|]); cbn [print].
  - destruct (content_text child tag Hc1 t [] [] [] (close_tag tag ++ r)) as (text' & w' & -> & E).
    rewrite content_close by done. cbn [fbind]. rewrite E. done.
  - cbn [names_ok] in Hn. rewrite forallb_forall in Hn.
    destruct (content_children child tag Hc1 cs [] [] [] (close_tag tag ++ r)) as (text' & w' & E1 & E2).
    { rewrite Forall_forall in IH |- *. intros c Hc. apply list_elem_of_In in Hc as Hc'.
      specialize (Hn c Hc'). apply andb_true_iff in Hn as [Hk Hs]. pose proof (node_depth_child cs c Hc).
      split; [done|]. intros r'. rewrite Hc2 by lia. destruct c as [k n]. apply (IH (k, n)); try done. cbn [snd] in *. lia. }
    unfold print_element in E1. rewrite E1, content_close by done. cbn [fbind]. by rewrite E2.
Qed.

(** ** The round trip on values *)

(** The text a scalar stands for: nothing for null, numbers in decimal, a float as
    [Display] prints it (one that is not finite as [null]), a string itself, the bytes of a byte string as numbers
    separated by spaces.  What is read back of a text is the text without surrounding white space, or null. *)
Definition spelling (v : Value) : bytes :=
  match v with
  | Value.Bool true => b!"true"
  | Value.Bool false => b!"false"
  | Value.Int i | Value.UInt i => decimal i
  | Value.Float f => if F64.is_finite f then F64.display f else b!"null"
  | Value.Str s => s
  | Value.Bytes b => join [x20] (map (fun x => decimal (b2z x)) b)
  | _ => []
  end.

Definition text_value (t : bytes) : Value :=
  match trim t with
  | [] => Value.Null
  | s => Value.Str s
  end.

(** A field with one element is that element, with several the array of them. *)
Definition collapse (l : list Value) : Value := match l with [x] => x | l => Value.Array l end.

(** The elements of a field after a trip through XML: nested arrays are
    flattened, an empty array is an empty element, scalars are trimmed text. *)
Fixpoint values (v : Value) : list Value :=
  match v with
  | Value.Array [] => [Value.Null]
  | Value.Array a => flat_map values a
  | Value.Object [] => [Value.Null]
  | Value.Object o => [Value.Object (map (fun kv => (fst kv, collapse (values (snd kv)))) o)]
  | v => [text_value (spelling v)]
  end.

(** What a value is after a trip through XML. *)
Definition xml_norm (v : Value) : Value :=
  match v with
  | Value.Array [] => Value.Null
  | Value.Array a => Value.Object [(b!"item", collapse (flat_map values a))]
  | v => collapse (values v)
  end.

(** Keys are element names, distinct in each object. *)
Fixpoint keys_ok (v : Value) : bool :=
  match v with
  | Value.Array a => forallb keys_ok a
  | Value.Object o =>
      bool_decide (NoDup (map fst o)) && forallb (fun kv => name_ok (fst kv) && keys_ok (snd kv)) o
  | _ => true
  end.

Lemma bytes_spelling b : forall i out,
  (foldl (fun st x => (S (fst st), write_u64 (if (0 <? fst st)%nat then snd st ++ [x20] else snd st) (b2z x))) (i, out) b).2 =
  out ++ (match i, b with S _, _ :: _ => [x20] | _, _ => [] end) ++ join [x20] (map (fun x => decimal (b2z x)) b).
Proof.
  induction b as [|x b IH]; intros i out; [by destruct i; rewrite !app_nil_r|]. pose proof (b2z_range x) as Hx.
  cbn [foldl fst snd]. rewrite IH, write_u64_app, write_u64_decimal by (unfold u64_max; lia).
  destruct i as [|i], b as [|y b]; cbn [Nat.ltb Nat.leb map join app]; by rewrite <- ?app_assoc, ?app_nil_r.
Qed.

Lemma scalar_text_spelling v : in_range v = true -> scalar_text v = spelling v.
Proof.
  destruct v as [|[]|i|u|f|s|b|a|o]; cbn [in_range]; intros Hr; zbool; try done; cbn [scalar_text write_scalar spelling].
  - by apply write_i64_decimal.
  - by apply write_u64_decimal.
  - by rewrite bytes_spelling.
Qed.

Lemma content_value_text t : content_value [] t = text_value t.
Proof. unfold content_value, text_value. by destruct (trim t). Qed.

Definition not_array (v : Value) : Prop := match v with Value.Array _ => False | _ => True end.

Lemma push_child_fresh ch k v : k ∉ map fst ch -> push_child ch k v = ch ++ [(k, v)].
Proof.
  induction ch as [|[k' w] ch IH]; cbn [push_child map fst]; [done|]. intros H.
  rewrite bool_decide_false by set_solver. cbn [app]. rewrite IH by set_solver. done.
Qed.

Lemma push_child_again ch k w v :
  k ∉ map fst ch ->
  push_child (ch ++ [(k, w)]) k v =
  ch ++ [(k, match w with Value.Array a => Value.Array (a ++ [v]) | prev => Value.Array [prev; v] end)].
Proof.
  induction ch as [|[k' w'] ch IH]; cbn [app push_child map fst]; intros H; [by rewrite bool_decide_true|].
  rewrite bool_decide_false by set_solver. rewrite IH by set_solver. done.
Qed.

Lemma push_more l : forall ch k xs, k ∉ map fst ch -> xs <> [] -> Forall not_array xs -> Forall not_array l ->
  foldl (fun ch v => push_child ch k v) (ch ++ [(k, collapse xs)]) l = ch ++ [(k, collapse (xs ++ l))].
Proof.
  induction l as [|x l IH]; intros ch k xs Hk Hne Hd Hl; cbn [foldl]; [by rewrite app_nil_r|].
  inversion Hl as [|? ? Hx Hl']; subst. rewrite push_child_again by done.
  assert (match collapse xs with Value.Array a => Value.Array (a ++ [x]) | _ => Value.Array [collapse xs; x] end =
    collapse (xs ++ [x])) as ->.
  { destruct xs as [|y [|z xs]]; [done| |done]. inversion Hd as [|? ? Hy _]; subst. by destruct y. }
  rewrite IH; [by rewrite <- app_assoc|done|by destruct xs|apply Forall_app; by repeat constructor|done].
Qed.

Lemma push_field vs ch k :
  k ∉ map fst ch -> vs <> [] -> Forall not_array vs ->
  foldl (fun ch v => push_child ch k v) ch vs = ch ++ [(k, collapse vs)].
Proof.
  intros Hk Hne Hv. destruct vs as [|x vs]; [done|]. inversion Hv; subst. cbn [foldl].
  rewrite push_child_fresh by done. apply (push_more vs ch k [x]); try done. by repeat constructor.
Qed.

(** A value is the elements [nodes] gives it, and none of them is an array. *)
Definition represented (v : Value) : Prop :=
  map node_value (nodes v) = values v /\ values v <> [] /\ Forall not_array (values v).

Lemma push_fields o : forall ch,
  Forall (fun kv => represented (snd kv)) o -> NoDup (map fst ch ++ map fst o) ->
  foldl (fun ch c => push_child ch (fst c) (node_value (snd c))) ch
    (flat_map (fun kv => map (pair (fst kv)) (nodes (snd kv))) o) =
  ch ++ map (fun kv => (fst kv, collapse (values (snd kv)))) o.
Proof.
  induction o as [|[k v] o IH]; intros ch Ho Hn; cbn [flat_map map]; [by rewrite app_nil_r|].
  inversion Ho as [|? ? (Hv1 & Hv2 & Hv3) Ho']; subst. cbn [fst snd] in *. rewrite foldl_app.
  assert (k ∉ map fst ch) as Hk.
  { apply NoDup_app in Hn as (_ & H & _). intros Hin. apply (H k Hin). cbn [map fst]. by left. }
  assert (forall ns ch', foldl (fun ch c => push_child ch (fst c) (node_value (snd c))) ch' (map (pair k) ns) =
    foldl (fun ch v => push_child ch k v) ch' (map node_value ns)) as Hpush.
  { induction ns as [|n ns IHn]; intros ch'; [done|]. cbn [map foldl fst snd]. apply IHn. }
  rewrite Hpush, Hv1, push_field by done. rewrite IH; [by rewrite <- app_assoc|done|]. by rewrite map_app, <- app_assoc.
Qed.

Lemma text_value_not_array t : not_array (text_value t).
Proof. unfold text_value. by destruct (trim t). Qed.

Lemma represented_leaf v : values v = [text_value (spelling v)] -> nodes v = [Leaf (scalar_text v)] ->
  in_range v = true -> represented v.
Proof.
  intros Hv Hn Hr. unfold represented. rewrite Hv, Hn. cbn [map node_value].
  rewrite content_value_text, scalar_text_spelling by done. split_and!; [done|done|].
  repeat constructor. apply text_value_not_array.
Qed.

Lemma represented_all v : in_range v = true -> keys_ok v = true -> represented v.
Proof.
  induction v as [|b|i|u|f|s|b|a IH|o IH] using value_ind'; intros Hr Hk; try by apply represented_leaf.
  - destruct a as [|x a]; [split_and!; [done|done|by repeat constructor]|]. set (l := x :: a) in *.
    assert (Forall represented l) as Hl.
    { cbn [keys_ok in_range] in Hk, Hr. rewrite forallb_forall in Hk, Hr. rewrite Forall_forall in IH |- *. intros v Hv.
      apply list_elem_of_In in Hv as Hv'. by apply IH; [|apply Hr|apply Hk]. }
    change (nodes (Value.Array l)) with (flat_map nodes l). change (values (Value.Array l)) with (flat_map values l).
    unfold represented. change (nodes (Value.Array l)) with (flat_map nodes l).
    change (values (Value.Array l)) with (flat_map values l). split_and!.
    + clear IH Hk Hr. induction Hl as [|v l' (H1 & _) _ IHl]; [done|]. cbn [flat_map]. by rewrite map_app, H1, IHl.
    + inversion Hl as [|? ? (_ & H & _) _]; subst l. cbn [flat_map]. by destruct (values x).
    + clear IH Hk Hr. induction Hl as [|v l' (_ & _ & H) _ IHl]; [done|]. cbn [flat_map]. by apply Forall_app.
  - cbn [keys_ok in_range] in Hk, Hr. apply andb_true_iff in Hk as [Hn Hk]. apply bool_decide_eq_true in Hn.
    rewrite forallb_forall in Hk, Hr. unfold represented. cbn [nodes map node_value]. rewrite (push_fields o []); [|..|done].
    + destruct o as [|kv o]; split_and!; try done; by repeat constructor.
    + rewrite Forall_forall in IH |- *. intros kv Hkv. apply list_elem_of_In in Hkv as Hin. specialize (Hk kv Hin).
      apply IH; [done|by apply Hr|]. by apply andb_true_iff in Hk as [_ ?].
Qed.

Lemma nodes_ok v : keys_ok v = true -> Forall (fun n => names_ok n = true /\ (node_depth n <= Value.depth v)%nat) (nodes v).
Proof.
  induction v as [|b|i|u|f|s|b|a IH|o IH] using value_ind'; intros Hk; try (constructor; [|constructor]; by split; cbn; lia).
  - destruct a as [|x a]; [constructor; [|constructor]; by split; cbn; lia|]. set (l := x :: a) in *.
    change (nodes (Value.Array l)) with (flat_map nodes l). cbn [keys_ok] in Hk. rewrite forallb_forall in Hk.
    apply Forall_forall. intros n Hin. apply list_elem_of_In, in_flat_map in Hin as (v & Hv & Hin).
    apply list_elem_of_In in Hv as Hv'. rewrite Forall_forall in IH. specialize (IH v Hv' (Hk v Hv)).
    rewrite Forall_forall in IH. apply list_elem_of_In in Hin. destruct (IH n Hin). pose proof (depth_array_elem l v Hv').
    split; [done|lia].
  - cbn [keys_ok] in Hk. apply andb_true_iff in Hk as [_ Hk]. rewrite forallb_forall in Hk. rewrite Forall_forall in IH.
    assert (forall c, c ∈ flat_map (fun kv => map (pair (fst kv)) (nodes (snd kv))) o ->
      name_ok (fst c) = true /\ names_ok (snd c) = true /\ (S (node_depth (snd c)) <= Value.depth (Value.Object o))%nat) as H.
    { intros c Hc. apply list_elem_of_In, in_flat_map in Hc as (kv & Hkv & Hc). apply in_map_iff in Hc as (n & <- & Hn).
      apply list_elem_of_In in Hkv as Hkv'. specialize (Hk kv Hkv). apply andb_true_iff in Hk as [Hk1 Hk2].
      specialize (IH kv Hkv' Hk2). rewrite Forall_forall in IH. apply list_elem_of_In in Hn. destruct (IH n Hn).
      pose proof (depth_object_elem o kv Hkv'). cbn [fst snd]. split_and!; [done|done|lia]. }
    cbn [nodes]. constructor; [|constructor]. split.
    + cbn [names_ok]. apply forallb_forall. intros c Hc. apply list_elem_of_In in Hc. destruct (H c Hc) as (-> & -> & _). done.
    + cbn [node_depth]. revert H. generalize (flat_map (fun kv => map (pair (fst kv)) (nodes (snd kv))) o) as cs.
      induction cs as [|c cs IHc]; intros H; cbn [foldr]; [lia|].
      destruct (H c) as (_ & _ & H1); [by left|]. specialize (IHc ltac:(intros; apply H; by right)). lia.
Qed.

Lemma flat_map_pair (k : bytes) l : flat_map (fun v => map (pair k) (nodes v)) l = map (pair k) (flat_map nodes l).
Proof. induction l as [|y l IH]; [done|]. cbn [flat_map]. by rewrite map_app, IH. Qed.

(** The document of a top-level array is that of an object with its items. *)
Lemma root_node_field a :
  a <> [] -> nodes (Value.Object [(b!"item", Value.Array a)]) = [root_node (Value.Array a)].
Proof.
  intros Ha. destruct a as [|x a]; [done|]. unfold root_node. rewrite flat_map_pair.
  change (nodes (Value.Object [(b!"item", Value.Array (x :: a))])) with
    [Elem (map (pair (b!"item")) (flat_map nodes (x :: a)) ++ [])]. by rewrite app_nil_r.
Qed.

Lemma root_represented v :
  in_range v = true -> keys_ok v = true -> (Value.depth v <= MAX_DEPTH)%nat ->
  node_value (root_node v) = xml_norm v /\ names_ok (root_node v) = true /\ (node_depth (root_node v) <= MAX_DEPTH)%nat.
Proof.
  intros Hr. assert (forall w n, in_range w = true -> keys_ok w = true -> nodes w = [n] ->
    node_value n = collapse (values w) /\ names_ok n = true /\ (node_depth n <= Value.depth w)%nat) as Hone.
  { intros w n Hrw Hk En. destruct (represented_all w Hrw Hk) as (H1 & _). pose proof (nodes_ok w Hk) as H2. rewrite En in *.
    inversion H2 as [|? ? [Hn Hdn] _]; subst. by rewrite <- H1. }
  intros Hk Hd. destruct v as [|b|i|u|f|s|b|a|o];
    try (edestruct Hone as (? & ? & ?); [exact Hr|exact Hk|reflexivity|]; split_and!; [done|done|etransitivity; done]).
  destruct a as [|x a]; [split_and!; [done|done|cbn; lia]|].
  destruct (Hone (Value.Object [(b!"item", Value.Array (x :: a))]) (root_node (Value.Array (x :: a)))) as (H1 & H2 & H3).
  { cbn [in_range map fst snd forallb] in *. by rewrite Hr. }
  { cbn [keys_ok map fst snd forallb] in *. by rewrite Hk. }
  { by apply root_node_field. }
  split_and!; [exact H1|done|].
  assert (Forall (fun n => (S (node_depth n) <= MAX_DEPTH)%nat) (flat_map nodes (x :: a))) as H.
  { apply Forall_forall. intros n Hin. apply list_elem_of_In, in_flat_map in Hin as (v & Hv & Hin).
    apply list_elem_of_In in Hv as Hv'. pose proof (depth_array_elem (x :: a) v Hv').
    cbn [keys_ok] in Hk. rewrite forallb_forall in Hk. pose proof (nodes_ok v (Hk v Hv)) as Hn. rewrite Forall_forall in Hn.
    apply list_elem_of_In in Hin. destruct (Hn n Hin). lia. }
  unfold root_node. rewrite flat_map_pair. cbn [node_depth]. clear -H.
  induction H as [|n ns Hn _ IH]; cbn [map foldr snd]; lia.
Qed.

Lemma from_str_encode_xml v :
  in_range v = true -> keys_ok v = true -> (Value.depth v <= MAX_DEPTH)%nat ->
  from_str (encode v) = Some (Ok (xml_norm v)).
Proof.
  intros Hr Hk Hd. destruct (root_represented v Hr Hk Hd) as (H1 & H2 & H3). unfold from_str. rewrite encode_print by done.
  assert (skip_prolog (print_element (b!"root", root_node v)) = Some (Ok (print_element (b!"root", root_node v)))) as ->.
  { unfold skip_prolog. by rewrite (run_loop_eq prolog_body length prolog_decreases). }
  cbn [fbind]. pose proof (all_elements_read (root_node v) H2 (b!"root") 0%nat [] eq_refl) as H.
  rewrite app_nil_r in H. rewrite H by lia. cbn [fbind]. by rewrite H1.
Qed.

(** C39 XML round trip: a value whose integers are in the range of their 64-bit types, which nests at most
    [MAX_DEPTH] = 128 deep, and whose keys are element names (at least one byte; letters, digits, [_], [-], [.], [:]
    and bytes outside ASCII) and distinct in each object, is encoded to a document that the parser reads back as
    [xml_norm] of the value, the documented conventions: a scalar is read as the string of its text without
    surrounding white space ([true], [false], the decimal digits of an integer, the [Display] text of a finite float,
    [null] for one that is not finite, the bytes of a byte string as decimal numbers separated by spaces), or as null
    when nothing is left; an empty array, object or string is null; nested arrays are flattened; an array of one
    element is read as that element; a top-level array becomes an object with the one field [item]. *)
Theorem xml_roundtrip (v : Value) :
  in_range v = true -> keys_ok v = true -> (Value.depth v <= MAX_DEPTH)%nat ->
  from_str (encode v) = Some (Ok (xml_norm v)).
Proof. apply from_str_encode_xml. Qed.

Definition sample : Value :=
  Value.Object
    [(b!"name", Value.Str (b!"a<b & c ")); (b!"tags", Value.Array [Value.Int 1; Value.Array [Value.Null; Value.Bool true]]);
     (b!"one", Value.Array [Value.Object [(b!"x", Value.UInt 7)]]); (b!"none", Value.Array [])].

Lemma xml_roundtrip_witness :
  from_str (encode sample) =
  Some (Ok (Value.Object
    [(b!"name", Value.Str (b!"a<b & c")); (b!"tags", Value.Array [Value.Str (b!"1"); Value.Null; Value.Str (b!"true")]);
     (b!"one", Value.Object [(b!"x", Value.Str (b!"7"))]); (b!"none", Value.Null)])).
Proof.
  change (Some (Ok (Value.Object
    [(b!"name", Value.Str (b!"a<b & c")); (b!"tags", Value.Array [Value.Str (b!"1"); Value.Null; Value.Str (b!"true")]);
     (b!"one", Value.Object [(b!"x", Value.Str (b!"7"))]); (b!"none", Value.Null)]))) with
    (Some (Ok (xml_norm sample)) : option (Result Value Stop)).
  apply (xml_roundtrip sample); [vm_compute; reflexivity|vm_compute; reflexivity|].
  vm_compute. repeat constructor.
Defined.

End Xml.
