(* ===== verification/Yaml.v ===== *)
(** * The YAML codec ([codec/yaml.rs])

    The block-style encoder and the line-based parser.  The parser's [lines] and [idx] are represented by the lines
    from [idx] on, each an indentation and its content; [parse_block] is given its first line, which its callers
    have checked to exist.  [Line] lists are also the text between values and bytes in [yaml_roundtrip]. *)

From Stdlib Require Import SpecFloat.
From S2P Require Import Prelude Text Scan Value Json.

Open Scope Z_scope.

Module Yaml.

(** ** Encoder *)

(** [write_quoted]: the escape of a byte, [None] when it is copied. *)
Definition escape (b : byte) : option bytes :=
  if bool_decide (b = x22) then Some [x5c; x22]
  else if bool_decide (b = x5c) then Some [x5c; x5c]
  else if bool_decide (b = x0a) then Some [x5c; x6e]
  else None.

Fixpoint write_quoted_loop (out start cur : bytes) : bytes :=
  match cur with
  | [] => out ++ start
  | b :: rest =>
      match escape b with
      | Some esc => write_quoted_loop (out ++ slice start cur ++ esc) rest rest
      | None => write_quoted_loop out start rest
      end
  end.

Definition write_quoted (out s : bytes) : bytes := write_quoted_loop (out ++ [x22]) s s ++ [x22].

Definition needs_quote (s : bytes) : bool :=
  bool_decide (s = []) || negb (bool_decide (s = trim s))
  || existsb (fun b => bool_decide (b ∈ [x3a; x23; x0a; x22; x27])) s
  || match head s with
     | Some b => bool_decide (b ∈ [x2d; x3f; x5b; x5d; x7b; x7d; x26; x2a; x21; x7c; x3e; x25; x40; x60])
     | None => false
     end
  || bool_decide (s ∈ [b!"null"; b!"~"; b!"true"; b!"false"])
  || bool_decide (is_Some (parse_i64 s)) || bool_decide (is_Some (F64.parse s)).

Definition write_key (out k : bytes) : bytes := if needs_quote k then write_quoted out k else out ++ k.

Definition write_scalar (out : bytes) (v : Value) : bytes :=
  match v with
  | Value.Null => out ++ b!"null"
  | Value.Bool b => out ++ (if b then b!"true" else b!"false")
  | Value.Int i => write_i64 out i
  | Value.UInt u => write_u64 out u
  | Value.Float f => write_f64 out f
  | Value.Str s => if needs_quote s then write_quoted out s else out ++ s
  | Value.Bytes b =>
      let inner :=
        (foldl (fun st x =>
           (S (fst st), write_u64 (if (0 <? fst st)%nat then snd st ++ [x2c] else snd st) (b2z x)))
           (0%nat, []) b).2 in
      write_quoted out inner
  | Value.Array _ | Value.Object _ => out ++ b!"null"
  end.

Definition pad (out : bytes) (indent : nat) : bytes := out ++ replicate indent x20.

(** [write_block] and [write_after_marker]. *)
Fixpoint write_block (v : Value) (indent : nat) (out : bytes) : bytes :=
  let write_after_marker (v : Value) (out : bytes) :=
    match v with
    | Value.Object (_ :: _) => write_block v (indent + 2) (out ++ [x0a])
    | Value.Array (_ :: _) => write_block v (indent + 2) (out ++ [x0a])
    | Value.Object [] => out ++ b!" {}" ++ [x0a]
    | Value.Array [] => out ++ b!" []" ++ [x0a]
    | scalar => write_scalar (out ++ [x20]) scalar ++ [x0a]
    end in
  match v with
  | Value.Object ((_ :: _) as o) =>
      foldl (fun out kv => write_after_marker (snd kv) (write_key (pad out indent) (fst kv) ++ [x3a])) out o
  | Value.Array ((_ :: _) as a) =>
      foldl (fun out v => write_after_marker v (pad out indent ++ [x2d])) out a
  | other => write_scalar (pad out indent) other ++ [x0a]
  end.

(** [yaml::encode], on the [Value] the argument encodes to. *)
Definition encode (v : Value) : bytes := write_block v 0 [].

(** ** Parser *)

Definition Line : Type := nat * bytes.

(** Significant lines with their indentation. *)
Definition preprocess (input : bytes) : list Line :=
  omap (fun raw =>
    let content := trim_start raw in
    if bool_decide (content = []) || starts_with content (b!"#") || bool_decide (content = b!"---") then None
    else Some ((length raw - length content)%nat, trim_end content)) (str_lines input).

Definition MAX_DEPTH : nat := 128.

(** The loop of [unquote] over the characters of a double-quoted text; a
    multi-byte character has no byte below 0x80, so bytes stand for characters. *)
Fixpoint unescape (s : bytes) : bytes :=
  match s with
  | [] => []
  | c :: s =>
      if bool_decide (c = x5c) then
        match s with
        | [] => []
        | e :: s =>
            (if bool_decide (e = x6e) then x0a else if bool_decide (e = x74) then x09 else e) :: unescape s
        end
      else c :: unescape s
  end.

(** [t.len() >= 2 && t.starts_with(q) && t.ends_with(q)] *)
Definition quoted_by (q : byte) (t : bytes) : bool :=
  (2 <=? length t)%nat && bool_decide (head t = Some q) && bool_decide (last t = Some q).

(** [t[1..t.len() - 1]] *)
Definition inner (t : bytes) : bytes := take (length t - 2) (drop 1 t).

Definition unquote (s : bytes) : bytes :=
  let t := trim s in
  if quoted_by x22 t then unescape (inner t)
  else if quoted_by x27 t then inner t
  else t.

(** The scan of [mapping_key]: the text before the first [:] that a space or the
    end follows, and the text after it. *)
Fixpoint split_key (s : bytes) : option (bytes * bytes) :=
  match s with
  | [] => None
  | b :: r =>
      if bool_decide (b = x3a) && match r with [] => true | c :: _ => bool_decide (c = x20) end then Some ([], r)
      else match split_key r with
           | Some (k, rest) => Some (b :: k, rest)
           | None => None
           end
  end.

Definition mapping_key (s : bytes) : option (bytes * bytes) :=
  match split_key s with
  | Some (k, rest) => Some (unquote (trim k), trim rest)
  | None => None
  end.

Definition parse_scalar (s : bytes) : Value :=
  let t := trim s in
  if quoted_by x22 t || quoted_by x27 t then Value.Str (unquote t)
  else if bool_decide (t ∈ [[]; b!"null"; b!"~"]) then Value.Null
  else if bool_decide (t = b!"[]") then Value.Array []
  else if bool_decide (t = b!"{}") then Value.Object []
  else if bool_decide (t = b!"true") then Value.Bool true
  else if bool_decide (t = b!"false") then Value.Bool false
  else match parse_i64 t with
       | Some i => Value.Int i
       | None =>
           match parse_u64 t with
           | Some u => Value.UInt u
           | None =>
               match F64.parse t with
               | Some f => Value.Float f
               | None => Value.Str t
               end
           end
       end.

Definition perr {A} (m : bytes) : option (Result A CodecError) := Some (Err (Parse m)).

Abbreviation Block := (Line -> list Line -> nat -> option (Result (Value * list Line) CodecError)).

(** The value after a marker that ends its line: the block below it, if the next
    line is indented more. *)
Definition child_block (block : Block) (indent : nat) (lines : list Line)
  : option (Result (Value * list Line) CodecError) :=
  match lines with
  | (ind, content) :: rest =>
      if (indent <? ind)%nat then block (ind, content) rest ind else Some (Ok (Value.Null, lines))
  | [] => Some (Ok (Value.Null, []))
  end.

(** One iteration of the loop of [parse_mapping]. *)
Definition mapping_body (block : Block) (indent : nat) (st : list (bytes * Value) * list Line)
  : option (Result ((list (bytes * Value) * list Line) + (Value * list Line)) CodecError) :=
  let '(entries, lines) := st in
  match lines with
  | [] => Some (Ok (inr (Value.Object entries, [])))
  | (ind, content) :: rest =>
      if (ind <? indent)%nat || starts_with content (b!"-") then Some (Ok (inr (Value.Object entries, lines)))
      else if (indent <? ind)%nat then perr (b!"unexpected indentation in mapping")
      else
        match mapping_key content with
        | None => perr (b!"expected 'key: value', got: " ++ content)
        | Some (key, after) =>
            if bool_decide (after = []) then
              let! (v, rest) := child_block block indent rest in
              Some (Ok (inl (entries ++ [(key, v)], rest)))
            else Some (Ok (inl (entries ++ [(key, parse_scalar after)], rest)))
        end
  end.

(** One iteration of the loop of [parse_sequence]. *)
Definition sequence_body (block : Block) (indent : nat) (st : list Value * list Line)
  : option (Result ((list Value * list Line) + (Value * list Line)) CodecError) :=
  let '(items, lines) := st in
  match lines with
  | [] => Some (Ok (inr (Value.Array items, [])))
  | (ind, content) :: rest =>
      if (ind <? indent)%nat || negb (starts_with content (b!"-")) then Some (Ok (inr (Value.Array items, lines)))
      else if (indent <? ind)%nat then perr (b!"unexpected indentation in sequence")
      else
        let after := trim_start (drop 1 content) in
        if bool_decide (after = []) then
          let! (v, rest) := child_block block indent rest in
          Some (Ok (inl (items ++ [v], rest)))
        else
          match mapping_key after with
          | Some (key, rest') => Some (Ok (inl (items ++ [Value.Object [(key, parse_scalar rest')]], rest)))
          | None => Some (Ok (inl (items ++ [parse_scalar after], rest)))
          end
  end.

Definition lines_left {X} (st : X * list Line) : nat := length (snd st).

(** [parse_block], [parse_mapping] and [parse_sequence]; the depth limit bounds
    the recursion. *)
Fixpoint block_fuel (fuel depth : nat) (first : Line) (rest : list Line) (indent : nat)
  : option (Result (Value * list Line) CodecError) :=
  if (MAX_DEPTH <? depth)%nat then perr (b!"nesting too deep")
  else
    match fuel with
    | O => None
    | S fuel =>
        let block := block_fuel fuel (S depth) in
        let content := snd first in
        if starts_with content (b!"-") then
          run_loop (sequence_body block indent) lines_left ([], first :: rest)
        else if bool_decide (is_Some (mapping_key content)) then
          run_loop (mapping_body block indent) lines_left ([], first :: rest)
        else Some (Ok (parse_scalar content, rest))
    end.

Definition parse_block (depth : nat) : Block := block_fuel (S MAX_DEPTH - depth) depth.

(** [yaml::from_str]; [None] is running out of fuel, which [yaml_from_str_total]
    rules out. *)
Definition from_str (input : bytes) : option (Result Value CodecError) :=
  match preprocess input with
  | [] => Some (Ok Value.Null)
  | first :: rest =>
      let! (v, _) := parse_block 0 first rest (fst first) in Some (Ok v)
  end.

(** ** Every step of the parser consumes lines *)

(** A computation that returns, with at most [n] lines left. *)
Definition leaves {A} (view : A -> list Line) (n : nat) (r : option (Result A CodecError)) : Prop :=
  match r with
  | None => False
  | Some (Ok a) => (length (view a) <= n)%nat
  | Some (Err _) => True
  end.

Definition outcome {X Y} (r : (X * list Line) + (Y * list Line)) : list Line :=
  match r with inl st => snd st | inr st => snd st end.

(** A block reader that returns and consumes the first line of the block. *)
Definition shrinks (block : Block) : Prop := forall first rest, leaves snd (length rest) (block first rest (fst first)).

Lemma child_block_leaves block indent lines :
  shrinks block -> leaves snd (length lines) (child_block block indent lines).
Proof.
  intros Hb. destruct lines as [|[ind content] rest]; [simpl; lia|]. cbn [child_block]. split_if; [|simpl; lia].
  specialize (Hb (ind, content) rest). cbn [fst] in Hb. destruct (block _ _ _) as [[[v l]|e]|]; try done. cbn [leaves snd length] in *. lia.
Qed.

Lemma mapping_body_leaves block indent st :
  shrinks block ->
  match mapping_body block indent st with
  | None => False
  | Some (Ok (inl st')) => (lines_left st' < lines_left st)%nat
  | Some (Ok (inr (_, l))) => (length l <= lines_left st)%nat
  | Some (Err _) => True
  end.
Proof.
  intros Hb. destruct st as [entries lines]. unfold mapping_body, lines_left, perr. cbn [snd].
  destruct lines as [|[ind content] rest]; [done|].
  destruct ((ind <? indent)%nat || _) eqn:E1; [done|]. destruct (indent <? ind)%nat eqn:E2; [done|].
  destruct (mapping_key content) as [[key after]|]; [|done]. split_if; [|cbn [snd length]; lia].
  pose proof (child_block_leaves block indent rest Hb) as Hcb.
  destruct (child_block _ _ _) as [[[v l]|e]|]; try done. cbn [leaves fbind snd length] in *. lia.
Qed.

Lemma sequence_body_leaves block indent st :
  shrinks block ->
  match sequence_body block indent st with
  | None => False
  | Some (Ok (inl st')) => (lines_left st' < lines_left st)%nat
  | Some (Ok (inr (_, l))) => (length l <= lines_left st)%nat
  | Some (Err _) => True
  end.
Proof.
  intros Hb. destruct st as [items lines]. unfold sequence_body, lines_left, perr. cbn [snd].
  destruct lines as [|[ind content] rest]; [done|].
  destruct ((ind <? indent)%nat || _) eqn:E1; [done|]. destruct (indent <? ind)%nat eqn:E2; [done|]. cbv zeta. split_if.
  - pose proof (child_block_leaves block indent rest Hb) as H'.
    destruct (child_block _ _ _) as [[[v l]|e]|]; try done. cbn [leaves fbind snd length] in *. lia.
  - destruct (mapping_key _) as [[key after]|]; cbn [snd length]; lia.
Qed.

Lemma mapping_decreases block indent : shrinks block -> forall s s',
  mapping_body block indent s = Some (Ok (inl s')) -> (lines_left s' < lines_left s)%nat.
Proof. intros Hb s s' E. pose proof (mapping_body_leaves block indent s Hb) as H. by rewrite E in H. Qed.

Lemma sequence_decreases block indent : shrinks block -> forall s s',
  sequence_body block indent s = Some (Ok (inl s')) -> (lines_left s' < lines_left s)%nat.
Proof. intros Hb s s' E. pose proof (sequence_body_leaves block indent s Hb) as H. by rewrite E in H. Qed.

(** A loop over lines returns; it consumes a line when its first iteration does. *)
Lemma line_loop_leaves {X} (body : X * list Line -> option (Result ((X * list Line) + (Value * list Line)) CodecError)) s :
  (forall st, match body st with
   | None => False
   | Some (Ok (inl st')) => (lines_left st' < lines_left st)%nat
   | Some (Ok (inr (_, l))) => (length l <= lines_left st)%nat
   | Some (Err _) => True
   end) ->
  leaves snd (lines_left s) (run_loop body lines_left s).
Proof.
  intros Hb. apply (run_loop_ind body lines_left).
  - intros st st' E. specialize (Hb st). by rewrite E in Hb.
  - done.
  - intros st E. specialize (Hb st). by rewrite E in Hb.
  - intros st [v l] E. specialize (Hb st). by rewrite E in Hb.
  - intros st st' r E. specialize (Hb st). rewrite E in Hb. destruct r as [[[v l]|e]|]; try done. cbn [leaves snd]. lia.
Qed.

(** The first iteration of a block's loop consumes its first line, so the block
    leaves no more than the lines after it. *)
Lemma first_line_consumed {X} (body : X * list Line -> option (Result ((X * list Line) + (Value * list Line)) CodecError)) x l rest :
  (forall st, match body st with
   | None => False
   | Some (Ok (inl st')) => (lines_left st' < lines_left st)%nat
   | Some (Ok (inr (_, l))) => (length l <= lines_left st)%nat
   | Some (Err _) => True
   end) ->
  (forall a, body (x, l :: rest) <> Some (Ok (inr a))) ->
  leaves snd (length rest) (run_loop body lines_left (x, l :: rest)).
Proof.
  intros Hb Hn. assert (forall s s', body s = Some (Ok (inl s')) -> (lines_left s' < lines_left s)%nat) as Hd.
  { intros s s' E. specialize (Hb s). by rewrite E in Hb. }
  rewrite (run_loop_eq body lines_left Hd). pose proof (Hb (x, l :: rest)) as H.
  destruct (body (x, l :: rest)) as [[[st'|a]|e]|] eqn:E; cbn [fbind]; try done; [|by destruct (Hn a)].
  pose proof (line_loop_leaves body st' Hb) as H'. unfold lines_left in H. cbn [snd length] in H.
  destruct (run_loop body lines_left st') as [[[v l']|e]|]; try done. cbn [leaves snd] in *. unfold lines_left in *. lia.
Qed.

Lemma block_fuel_leaves fuel : forall depth first rest,
  (MAX_DEPTH < fuel + depth)%nat -> leaves snd (length rest) (block_fuel fuel depth first rest (fst first)).
Proof.
  induction fuel as [|fuel IH]; intros depth [ind content] rest Hf; cbn [block_fuel];
    (destruct (MAX_DEPTH <? depth)%nat eqn:Ed; [done|]); [apply Nat.ltb_ge in Ed; lia|]. cbn [fst snd].
  assert (shrinks (block_fuel fuel (S depth))) as Hb by (intros f r; apply IH; lia).
  destruct (starts_with content (b!"-")) eqn:Es; [|case_bool_decide as Ek; [|simpl; lia]].
  - apply first_line_consumed; [intros st; by apply sequence_body_leaves|]. intros a. unfold sequence_body.
    rewrite (proj2 (Nat.ltb_ge _ _)) by lia. rewrite Es. cbn [orb negb]. cbv zeta. split_if.
    + by destruct (child_block _ _ _) as [[[]|]|].
    + by destruct (mapping_key _) as [[]|].
  - apply first_line_consumed; [intros st; by apply mapping_body_leaves|]. intros a. unfold mapping_body.
    rewrite (proj2 (Nat.ltb_ge _ _)) by lia. rewrite Es. cbn [orb].
    destruct (mapping_key content) as [[key after]|]; [|done]. split_if; [|done].
    by destruct (child_block _ _ _) as [[[]|]|].
Qed.

(** The parser returns on every document. *)
Theorem yaml_from_str_total (input : bytes) : exists r, from_str input = Some r.
Proof.
  unfold from_str. destruct (preprocess input) as [|first rest]; [by eexists|].
  pose proof (block_fuel_leaves (S MAX_DEPTH) 0 first rest ltac:(lia)) as H.
  change (block_fuel (S MAX_DEPTH) 0) with (parse_block 0) in H.
  destruct (parse_block 0 first rest (fst first)) as [[[v l]|e]|]; [by eexists..|done].
Qed.

(** Three values that do not survive the trip: a negative number at the top is
    read as a sequence, a string with [: ] in a sequence as a mapping, and a key
    with [: ] is split there, quotes or not. *)
Example negative_number_becomes_sequence :
  from_str (encode (Value.Int (-5))) = Some (Ok (Value.Array [Value.Int 5])).
Proof. vm_compute. reflexivity. Qed.

Example quoted_item_becomes_mapping :
  from_str (encode (Value.Array [Value.Str (b!"a: b")])) =
  Some (Ok (Value.Array [Value.Object [([x22] ++ b!"a", Value.Str (b!"b" ++ [x22]))]])).
Proof. vm_compute. reflexivity. Qed.

Example quoted_key_is_split :
  from_str (encode (Value.Object [(b!"a: b", Value.Int 1)])) =
  Some (Ok (Value.Object [([x22] ++ b!"a", Value.Str (b!"b" ++ [x22] ++ b!": 1"))])).
Proof. vm_compute. reflexivity. Qed.

(** ** The lines the encoder writes *)

Definition esc (s : bytes) : bytes := flat_map (fun b => default [b] (escape b)) s.
Definition quote (s : bytes) : bytes := [x22] ++ esc s ++ [x22].

(** A string as a key or a scalar. *)
Definition repr (s : bytes) : bytes := if needs_quote s then quote s else s.

(** The text of a value that is written on its marker's line. *)
Definition scalar_repr (v : Value) : bytes :=
  match v with
  | Value.Object [] => b!"{}"
  | Value.Array [] => b!"[]"
  | v => write_scalar [] v
  end.

Definition is_block (v : Value) : bool :=
  match v with Value.Object (_ :: _) | Value.Array (_ :: _) => true | _ => false end.

Fixpoint block_lines (v : Value) (indent : nat) : list Line :=
  let after (marker : bytes) (v : Value) : list Line :=
    match v with
    | Value.Object (_ :: _) | Value.Array (_ :: _) => (indent, marker) :: block_lines v (indent + 2)
    | v => [(indent, marker ++ [x20] ++ scalar_repr v)]
    end in
  match v with
  | Value.Object ((_ :: _) as o) => flat_map (fun kv => after (repr (fst kv) ++ [x3a]) (snd kv)) o
  | Value.Array ((_ :: _) as a) => flat_map (fun v => after [x2d] v) a
  | v => [(indent, write_scalar [] v)]
  end.

(** The lines of an entry after its marker. *)
Definition marked (indent : nat) (marker : bytes) (v : Value) : list Line :=
  if is_block v then (indent, marker) :: block_lines v (indent + 2) else [(indent, marker ++ [x20] ++ scalar_repr v)].

Definition line_text (l : Line) : bytes := replicate (fst l) x20 ++ snd l ++ [x0a].

Lemma block_lines_object kv o indent :
  block_lines (Value.Object (kv :: o)) indent =
  flat_map (fun kv => marked indent (repr (fst kv) ++ [x3a]) (snd kv)) (kv :: o).
Proof.
  cbn [block_lines]. apply flat_map_ext. intros [k v]. unfold marked. by destruct v as [| | | | | | |[|]|[|]].
Qed.

Lemma block_lines_array x a indent :
  block_lines (Value.Array (x :: a)) indent = flat_map (fun v => marked indent [x2d] v) (x :: a).
Proof.
  cbn [block_lines]. apply flat_map_ext. intros v. unfold marked. by destruct v as [| | | | | | |[|]|[|]].
Qed.

Lemma write_quoted_loop_spec cur : forall o run, write_quoted_loop o (run ++ cur) cur = o ++ run ++ esc cur.
Proof.
  induction cur as [|b cur IH]; intros o run; cbn [write_quoted_loop]; [done|].
  unfold esc. cbn [flat_map]. fold (esc cur). destruct (escape b) as [e|] eqn:E; cbn [default from_option id].
  - rewrite slice_app. pose proof (IH (o ++ run ++ e) []) as H. cbn [app] in H. rewrite H. by rewrite <- !app_assoc.
  - rewrite cons_middle, app_assoc, IH. by rewrite <- !app_assoc.
Qed.

Lemma write_quoted_spec o s : write_quoted o s = o ++ quote s.
Proof.
  unfold write_quoted, quote. pose proof (write_quoted_loop_spec s (o ++ [x22]) []) as H.
  cbn [app] in H. rewrite H. simpl. by rewrite <- !app_assoc.
Qed.

Lemma write_key_spec o k : write_key o k = o ++ repr k.
Proof. unfold write_key, repr. destruct (needs_quote k); [apply write_quoted_spec|done]. Qed.

Lemma yaml_write_scalar_app o v : write_scalar o v = o ++ write_scalar [] v.
Proof.
  destruct v; cbn [write_scalar]; try done.
  - apply write_i64_app.
  - unfold write_f64. by destruct (F64.is_finite f).
  - destruct (needs_quote s); [by rewrite !write_quoted_spec|done].
  - by rewrite !write_quoted_spec.
Qed.

(** The lines of an entry, in one of its forms. *)
Definition write_after_marker (indent : nat) (v : Value) (out : bytes) : bytes :=
  if is_block v then write_block v (indent + 2) (out ++ [x0a]) else out ++ [x20] ++ scalar_repr v ++ [x0a].

Lemma write_after_marker_eq indent v out :
  match v with
  | Value.Object (_ :: _) => write_block v (indent + 2) (out ++ [x0a])
  | Value.Array (_ :: _) => write_block v (indent + 2) (out ++ [x0a])
  | Value.Object [] => out ++ b!" {}" ++ [x0a]
  | Value.Array [] => out ++ b!" []" ++ [x0a]
  | scalar => write_scalar (out ++ [x20]) scalar ++ [x0a]
  end = write_after_marker indent v out.
Proof.
  unfold write_after_marker. destruct v as [| | | | | | |[|]|[|]]; cbn [is_block scalar_repr]; try done;
    rewrite yaml_write_scalar_app, <- !app_assoc; done.
Qed.

Lemma yaml_foldl_texts {A} (write : bytes -> A -> bytes) (txt : A -> bytes) l :
  Forall (fun x => forall out, write out x = out ++ txt x) l ->
  forall out, foldl write out l = out ++ flat_map txt l.
Proof.
  induction 1 as [|x l Hx _ IH]; intros out; cbn [foldl flat_map]; [by rewrite app_nil_r|].
  by rewrite Hx, IH, app_assoc.
Qed.

Lemma marked_spec indent v out marker :
  (forall out, write_block v (indent + 2) out = out ++ flat_map line_text (block_lines v (indent + 2))) ->
  write_after_marker indent v (pad out indent ++ marker) = out ++ flat_map line_text (marked indent marker v).
Proof.
  intros Hv. unfold write_after_marker, marked, pad. destruct (is_block v).
  - rewrite Hv. unfold line_text at 2. cbn [flat_map fst snd]. by rewrite <- !app_assoc.
  - cbn [flat_map]. unfold line_text. cbn [fst snd]. by rewrite app_nil_r, <- !app_assoc.
Qed.

Lemma flat_map_flat_map' {A B C} (f : B -> list C) (g : A -> list B) l :
  flat_map f (flat_map g l) = flat_map (fun x => flat_map f (g x)) l.
Proof. induction l as [|x l IH]; [done|]. cbn [flat_map]. by rewrite flat_map_app, IH. Qed.

Lemma write_block_spec v : forall indent out,
  write_block v indent out = out ++ flat_map line_text (block_lines v indent).
Proof.
  assert (forall v indent out, write_scalar (pad out indent) v ++ [x0a] =
    out ++ flat_map line_text [(indent, write_scalar [] v)]) as Hs.
  { intros v' indent out. rewrite yaml_write_scalar_app. unfold pad, line_text. cbn [flat_map fst snd].
    by rewrite app_nil_r, <- !app_assoc. }
  induction v as [|b|i|u|f|s|b|a IH|o IH] using value_ind'; intros indent out; try apply Hs.
  - destruct a as [|x a]; [apply Hs|]. rewrite block_lines_array, flat_map_flat_map'. cbn [write_block].
    apply yaml_foldl_texts. eapply Forall_impl; [exact IH|]. intros v Hv out'.
    transitivity (write_after_marker indent v (pad out' indent ++ [x2d])); [apply write_after_marker_eq|].
    by apply marked_spec.
  - destruct o as [|kv o]; [apply Hs|]. rewrite block_lines_object, flat_map_flat_map'. cbn [write_block].
    apply yaml_foldl_texts. eapply Forall_impl; [exact IH|]. intros [k v] Hv out'. cbn [fst snd].
    transitivity (write_after_marker indent v (pad out' indent ++ repr k ++ [x3a])); [|by apply marked_spec].
    assert (pad out' indent ++ repr k ++ [x3a] = write_key (pad out' indent) k ++ [x3a]) as ->.
    { rewrite write_key_spec. by rewrite <- app_assoc. }
    apply write_after_marker_eq.
Qed.

(** ** Keys and scalars read back *)

(** [: ] occurs in the text. *)
Fixpoint colon_space (s : bytes) : bool :=
  match s with
  | [] => false
  | b :: r => (bool_decide (b = x3a) && bool_decide (head r = Some x20)) || colon_space r
  end.

(** A text that lines can begin and end with. *)
Record tidy (s : bytes) : Prop := mkTidy {
  tidy_head : forall t, head_solid (s ++ t);
  tidy_tail : forall t, tail_solid (t ++ s);
  tidy_line : x0a ∉ s;
  tidy_comment : head s <> Some x23 }.

Lemma tidy_nonempty s : tidy s -> s <> [].
Proof. intros H. destruct (tidy_head s H []) as [Hn _]. by rewrite app_nil_r in Hn. Qed.

Lemma tidy_trim s : tidy s -> trim s = s.
Proof.
  intros H. pose proof (tidy_head s H []) as H1. pose proof (tidy_tail s H []) as H2. rewrite app_nil_r in H1. cbn [app] in H2.
  by apply trim_both.
Qed.

Lemma needs_quote_false s :
  needs_quote s = false ->
  s <> [] /\ trim s = s /\ Forall (fun b => b ∉ [x3a; x23; x0a; x22; x27]) s /\
  head s <> Some x2d /\ head s <> Some x5b /\ head s <> Some x7b /\
  s ∉ [b!"null"; b!"~"; b!"true"; b!"false"] /\ parse_i64 s = None /\ F64.parse s = None.
Proof.
  unfold needs_quote. rewrite !orb_false_iff. intros [[[[[[H1 H2] H3] H4] H5] H6] H7].
  apply bool_decide_eq_false in H1. apply negb_false_iff, bool_decide_eq_true in H2.
  apply bool_decide_eq_false in H5. apply bool_decide_eq_false in H6. apply bool_decide_eq_false in H7.
  apply eq_None_not_Some in H6. apply eq_None_not_Some in H7.
  split; [done|]. split; [done|]. split.
  { apply Forall_forall. intros b Hb Hin. apply not_true_iff_false in H3. apply H3, existsb_exists.
    exists b. split; [by apply list_elem_of_In|]. by apply bool_decide_eq_true. }
  destruct s as [|c s]; [done|]. cbn [head] in *. apply bool_decide_eq_false in H4.
  split_and!; [intros [= ->]; apply H4; apply (bool_decide_unpack _); vm_compute; exact I..|done|done|done].
Qed.

Lemma quote_tidy s : tidy (quote s).
Proof.
  destruct (solid_ends x22 eq_refl) as [Hh Ht]. unfold quote. split.
  - intros t. apply Hh.
  - intros t. rewrite !app_assoc. apply Ht.
  - intros Hin. apply elem_of_cons in Hin as [Hin|Hin]; [done|].
    apply elem_of_app in Hin as [Hin|Hin]; [|set_solver].
    unfold esc in Hin. apply list_elem_of_In, in_flat_map in Hin as (b & _ & Hb). apply list_elem_of_In in Hb.
    revert Hb. clear. destruct b; vm_compute; set_solver.
  - done.
Qed.

Lemma plain_tidy s : Utf8.is_utf8 s = true -> needs_quote s = false -> tidy s.
Proof.
  intros Hu Hq. destruct (needs_quote_false s Hq) as (Hn & Ht & Hc & _).
  destruct (trimmed_solid s Hn Ht) as [H1 H2]. split.
  - intros t. by apply head_solid_app.
  - intros t. by apply tail_solid_app.
  - intros Hin. rewrite Forall_forall in Hc. specialize (Hc _ Hin). apply Hc. apply (bool_decide_unpack _). vm_compute. exact I.
  - intros Hh. destruct s as [|c s]; [done|]. cbn [head] in Hh. injection Hh as ->. inv Hc. apply H3. apply (bool_decide_unpack _). vm_compute. exact I.
Qed.

Lemma repr_tidy s : Utf8.is_utf8 s = true -> tidy (repr s).
Proof. intros Hu. unfold repr. destruct (needs_quote s) eqn:E; [apply quote_tidy|by apply plain_tidy]. Qed.

Lemma unescape_esc s : unescape (esc s) = s.
Proof.
  induction s as [|b s IH]; [done|]. change (esc (b :: s)) with (default [b] (escape b) ++ esc s).
  destruct (escape b) as [e|] eqn:E; cbn [default from_option id].
  - destruct b; try discriminate E; injection E as <-; cbn [app unescape]; rewrite !bool_decide_true by done;
      rewrite ?bool_decide_false by done; by rewrite IH.
  - cbn [app unescape]. rewrite bool_decide_false by (by intros ->). by rewrite IH.
Qed.

Lemma quoted_by_quote s : quoted_by x22 (quote s) = true.
Proof.
  unfold quoted_by, quote. rewrite !length_app. cbn [length]. rewrite (proj2 (Nat.leb_le _ _)) by lia.
  rewrite app_assoc, last_snoc. by rewrite !bool_decide_true by done.
Qed.

Lemma inner_quote s : inner (quote s) = esc s.
Proof.
  unfold inner, quote. cbn [app drop length]. rewrite drop_0, length_app. cbn [length].
  replace (S (length (esc s) + 1) - 2)%nat with (length (esc s)) by lia. apply take_app_length.
Qed.

Lemma plain_not_quoted q s : q = x22 \/ q = x27 -> Forall (fun b => b ∉ [x3a; x23; x0a; x22; x27]) s -> quoted_by q s = false.
Proof.
  intros Hq Hs. unfold quoted_by. destruct s as [|c s]; [done|]. inv Hs. cbn [head].
  rewrite (bool_decide_false (Some c = Some q)); [by rewrite andb_false_r|].
  intros [= ->]. apply H1. destruct Hq as [->| ->]; vm_compute; set_solver.
Qed.

Lemma unquote_repr s : Utf8.is_utf8 s = true -> unquote (repr s) = s.
Proof.
  intros Hu. unfold unquote. rewrite (tidy_trim _ (repr_tidy s Hu)). unfold repr. destruct (needs_quote s) eqn:E.
  - rewrite quoted_by_quote, inner_quote. apply unescape_esc.
  - destruct (needs_quote_false s E) as (_ & _ & Hc & _). by rewrite !plain_not_quoted by auto.
Qed.

Lemma colon_space_app s r : colon_space s = false -> r = [] \/ head r = Some x20 -> split_key (s ++ x3a :: r) = Some (s, r).
Proof.
  intros Hs Hr. induction s as [|b s IH]; cbn [app split_key].
  - rewrite bool_decide_true by done. destruct r as [|c r]; [done|]. destruct Hr as [|[= ->]]; [done|].
    by rewrite bool_decide_true.
  - cbn [colon_space] in Hs. apply orb_false_iff in Hs as [H1 H2].
    replace (bool_decide (b = x3a) && match s ++ x3a :: r with [] => true | c :: _ => bool_decide (c = x20) end) with false.
    { by rewrite IH. }
    symmetry. destruct s as [|c s]; cbn [app head] in *; [by rewrite andb_comm|].
    destruct (bool_decide (b = x3a)); [|done]. cbn [andb] in *. apply bool_decide_eq_false in H1.
    apply bool_decide_eq_false. congruence.
Qed.

Lemma colon_space_none s : colon_space s = false -> last s <> Some x3a -> split_key s = None.
Proof.
  intros Hs Hl. induction s as [|b s IH]; [done|]. cbn [split_key]. cbn [colon_space] in Hs.
  apply orb_false_iff in Hs as [H1 H2].
  replace (bool_decide (b = x3a) && match s with [] => true | c :: _ => bool_decide (c = x20) end) with false.
  { rewrite IH; [done|done|]. destruct s; [done|]. by rewrite last_cons_cons in Hl. }
  symmetry. destruct s as [|c s]; cbn [head] in *.
  - rewrite bool_decide_false; [done|]. intros ->. by apply Hl.
  - destruct (bool_decide (b = x3a)); [|done]. cbn [andb] in *. apply bool_decide_eq_false in H1.
    apply bool_decide_eq_false. congruence.
Qed.

Lemma no_colon s : Forall (fun b => b <> x3a) s -> colon_space s = false /\ last s <> Some x3a.
Proof.
  induction 1 as [|b s Hb Hs [IH1 IH2]]; [done|]. cbn [colon_space]. rewrite bool_decide_false by done. cbn [andb orb].
  split; [done|]. destruct s; [simpl; congruence|by rewrite last_cons_cons].
Qed.

Lemma colon_space_quote s : colon_space s = false -> colon_space (quote s) = false /\ last (quote s) <> Some x3a.
Proof.
  intros Hs. unfold quote. split; [|rewrite app_assoc, last_snoc; done]. cbn [app colon_space].
  rewrite bool_decide_false by done. cbn [andb orb]. induction s as [|b s IH]; [done|].
  cbn [colon_space] in Hs. apply orb_false_iff in Hs as [H1 H2]. specialize (IH H2).
  change (esc (b :: s)) with (default [b] (escape b) ++ esc s). destruct (escape b) as [e|] eqn:E; cbn [default from_option id].
  - destruct b; try discriminate E; injection E as <-; cbn [app colon_space]; by rewrite !bool_decide_false by done.
  - cbn [app colon_space]. rewrite IH, orb_false_r. destruct (bool_decide (b = x3a)); [|done]. cbn [andb] in *.
    apply bool_decide_eq_false in H1. apply bool_decide_eq_false. destruct s as [|c s]; [done|].
    change (esc (c :: s)) with (default [c] (escape c) ++ esc s). destruct (escape c) as [e'|] eqn:E'; cbn [default from_option id].
    + by destruct c; try discriminate E'; injection E' as <-.
    + done.
Qed.

Lemma repr_colon s : colon_space s = false -> colon_space (repr s) = false.
Proof. intros H. unfold repr. destruct (needs_quote s); [by apply colon_space_quote|done]. Qed.

(** A key, its colon and what follows on the line. *)
Lemma mapping_key_repr k r :
  Utf8.is_utf8 k = true -> colon_space k = false -> r = [] \/ head r = Some x20 ->
  mapping_key (repr k ++ x3a :: r) = Some (k, trim r).
Proof.
  intros Hu Hc Hr. unfold mapping_key. rewrite colon_space_app; [|by apply repr_colon|done].
  by rewrite (tidy_trim _ (repr_tidy k Hu)), unquote_repr.
Qed.

Lemma mapping_key_none t : colon_space t = false -> last t <> Some x3a -> mapping_key t = None.
Proof. intros H1 H2. unfold mapping_key. by rewrite colon_space_none. Qed.

(** What a scalar is after a trip through YAML: unsigned integers that fit are
    signed, a float that prints as an integer is that integer, a non-finite float
    is null, a byte string the string of its numbers. *)
Definition scalar_norm (v : Value) : Value :=
  match v with
  | Value.UInt u => if u <=? i64_max then Value.Int u else Value.UInt u
  | Value.Float f =>
      if F64.is_finite f then
        match parse_i64 (F64.display f) with
        | Some i => Value.Int i
        | None => match parse_u64 (F64.display f) with Some u => Value.UInt u | None => Value.Float f end
        end
      else Value.Null
  | Value.Bytes b => Value.Str (join [x2c] (map (fun x => decimal (b2z x)) b))
  | v => v
  end.

Definition scalar_ok (v : Value) : bool :=
  match v with
  | Value.Int i => (i64_min <=? i) && (i <=? i64_max)
  | Value.UInt u => (0 <=? u) && (u <=? u64_max)
  | Value.Float f => negb (F64.is_finite f) || bool_decide (F64.parse (F64.display f) = Some f)
  | Value.Str s => Utf8.is_utf8 s
  | _ => true
  end.

(** Texts made of solid characters, without quotes, colons or comments. *)
Definition word_char (b : byte) : bool := solid b && negb (bool_decide (b ∈ [x3a; x23; x0a; x22; x27])).

Lemma word_facts s :
  s <> [] -> forallb word_char s = true ->
  tidy s /\ Forall (fun b => b ∉ [x3a; x23; x0a; x22; x27]) s /\ colon_space s = false /\ last s <> Some x3a.
Proof.
  intros Hn Hs. rewrite forallb_forall in Hs.
  assert (forall b, b ∈ s -> solid b = true /\ b ∉ [x3a; x23; x0a; x22; x27]) as H.
  { intros b Hb. apply list_elem_of_In in Hb. apply Hs in Hb. apply andb_true_iff in Hb as [H1 H2].
    split; [done|]. by apply negb_true_iff, bool_decide_eq_false in H2. }
  assert (Forall (fun b => b ∉ [x3a; x23; x0a; x22; x27]) s) as Hc by (apply Forall_forall; intros b Hb; by apply H).
  split; [|split; [done|apply no_colon; apply Forall_forall; intros b Hb ->; destruct (H _ Hb) as [_ Hx]; apply Hx; vm_compute; set_solver]].
  split.
  - intros t. destruct s as [|c s]; [done|]. destruct (H c) as [Hc' _]; [by left|]. by apply solid_ends.
  - intros t. destruct s as [|c s] using rev_ind; [done|]. destruct (H c) as [Hc' _]; [set_solver|].
    rewrite app_assoc. by apply solid_ends.
  - intros Hin. destruct (H _ Hin) as [_ Hx]. apply Hx. vm_compute. set_solver.
  - intros Hh. destruct s as [|c s]; [done|]. injection Hh as ->. destruct (H x23) as [_ Hx]; [by left|]. apply Hx. vm_compute. set_solver.
Qed.

(** The text of a number: an optional sign, a digit, digits and points. *)
Lemma number_facts neg c t :
  F64.is_digit c = true -> Forall (fun b => dec_char b = true) t ->
  let s := (if neg : bool then [x2d] else []) ++ c :: t in
  s <> [] /\ forallb word_char s = true /\ existsb F64.is_digit s = true.
Proof.
  intros Hc Ht s. subst s. split; [by destruct neg|]. split.
  - rewrite forallb_app. cbn [forallb]. apply andb_true_iff. split; [by destruct neg|]. apply andb_true_iff. split; [by destruct c|].
    apply forallb_forall. intros b Hb. rewrite Forall_forall in Ht. apply list_elem_of_In in Hb. specialize (Ht b Hb). by destruct b.
  - rewrite existsb_app. cbn [existsb]. rewrite Hc. apply orb_true_r.
Qed.

Lemma parse_scalar_plain s :
  tidy s -> Forall (fun b => b ∉ [x3a; x23; x0a; x22; x27]) s ->
  s ∉ [[]; b!"null"; b!"~"; b!"[]"; b!"{}"; b!"true"; b!"false"] ->
  parse_scalar s =
  match parse_i64 s with
  | Some i => Value.Int i
  | None => match parse_u64 s with
            | Some u => Value.UInt u
            | None => match F64.parse s with Some f => Value.Float f | None => Value.Str s end
            end
  end.
Proof.
  intros Ht Hc Hw. unfold parse_scalar. rewrite (tidy_trim s Ht). rewrite !plain_not_quoted by auto. cbn [orb].
  rewrite !elem_of_cons in Hw. rewrite !bool_decide_false; [done|..]; rewrite ?elem_of_cons; naive_solver.
Qed.

Lemma parse_scalar_number neg c t :
  F64.is_digit c = true -> Forall (fun b => dec_char b = true) t ->
  let s := (if neg : bool then [x2d] else []) ++ c :: t in
  parse_scalar s =
  match parse_i64 s with
  | Some i => Value.Int i
  | None => match parse_u64 s with
            | Some u => Value.UInt u
            | None => match F64.parse s with Some f => Value.Float f | None => Value.Str s end
            end
  end.
Proof.
  intros Hc Ht s. destruct (number_facts neg c t Hc Ht) as (H1 & H2 & H3). fold s in H1, H2, H3.
  destruct (word_facts s H1 H2) as (Hti & Hch & _). apply parse_scalar_plain; [done|done|].
  rewrite !elem_of_cons, elem_of_nil. intros Hin. decompose [or] Hin; try done; subst s;
    match goal with E : _ = _ |- _ => rewrite E in H3; done end.
Qed.

Lemma parse_digits_all radix max ds : forall acc v,
  radix <= 10 -> parse_digits radix max acc ds = Some v -> Forall (fun b => F64.is_digit b = true) ds.
Proof.
  induction ds as [|b ds IH]; intros acc v Hr; cbn [parse_digits]; [constructor|].
  intros (d & Hd & H)%bind_Some. cbn in H. destruct (max <? _); [done|]. constructor; [|by eapply IH].
  unfold to_digit in Hd. unfold F64.is_digit.
  destruct ((48 <=? b2z b) && (b2z b <=? 57)) eqn:E; [done|]. exfalso. revert Hd.
  destruct ((97 <=? b2z b) && (b2z b <=? 122)) eqn:E2; [|destruct ((65 <=? b2z b) && (b2z b <=? 90)) eqn:E3];
    zbool; (destruct (_ <? radix) eqn:E4; [|done]); zbool; lia.
Qed.

Lemma span_digits_all ds : Forall (fun b => F64.is_digit b = true) ds -> F64.span_digits ds = (ds, []).
Proof. induction 1 as [|b ds Hb _ IH]; [done|]. cbn [F64.span_digits]. by rewrite Hb, IH. Qed.

(** An unsigned integer is also read as a float. *)
Lemma parse_u64_f64 s : F64.parse s = None -> parse_u64 s = None.
Proof.
  intros Hf. destruct (parse_u64 s) as [u|] eqn:E; [|done]. exfalso. unfold parse_u64, parse_uint in E.
  destruct s as [|c ds]; [done|]. unfold F64.parse in Hf. revert E. case_bool_decide as Ec.
  - subst c. case_bool_decide as Ed; [done|]. intros H%parse_digits_all; [|lia].
    change (F64.split_sign (x2b :: ds)) with (false, ds) in Hf. cbv iota beta in Hf.
    rewrite span_digits_all in Hf by done. cbn [app] in Hf. rewrite app_nil_r, bool_decide_false in Hf by done. done.
  - intros H%parse_digits_all; [|lia]. inversion H as [|? ? Hc Hds]; subst.
    assert (F64.split_sign (c :: ds) = (false, c :: ds)) as Hs.
    { unfold F64.split_sign. rewrite bool_decide_false by (by intros ->). by rewrite bool_decide_false. }
    rewrite Hs, span_digits_all in Hf by done. cbn [app] in Hf. rewrite app_nil_r, bool_decide_false in Hf by done. done.
Qed.

(** The string of a byte string. *)
Lemma bytes_text b : forall i out,
  (foldl (fun (st : nat * bytes) x =>
     (S (fst st), write_u64 (if (0 <? fst st)%nat then snd st ++ [x2c] else snd st) (b2z x))) (i, out) b).2 =
  (if (0 <? i)%nat && negb (bool_decide (b = [])) then out ++ [x2c] else out)
  ++ join [x2c] (map (fun x => decimal (b2z x)) b).
Proof.
  induction b as [|x b IH]; intros i out; cbn [foldl fst snd].
  - rewrite bool_decide_true by done. cbn [negb]. rewrite andb_false_r. by rewrite app_nil_r.
  - rewrite IH. rewrite (bool_decide_false (x :: b = [])) by done. cbn [negb Nat.ltb Nat.leb andb]. rewrite andb_true_r.
    cbn [map]. rewrite write_u64_app, write_u64_decimal by (pose proof (b2z_range x); unfold u64_max; lia). destruct b as [|y b].
    + rewrite bool_decide_true by done. cbn [negb map join]. by rewrite app_nil_r.
    + rewrite bool_decide_false by done. cbn [negb]. rewrite join_cons by done. by rewrite <- !app_assoc.
Qed.

Lemma parse_scalar_quote s : parse_scalar (quote s) = Value.Str s.
Proof.
  unfold parse_scalar. rewrite (tidy_trim _ (quote_tidy s)), quoted_by_quote. cbn [orb]. f_equal.
  unfold unquote. rewrite (tidy_trim _ (quote_tidy s)), quoted_by_quote, inner_quote. apply unescape_esc.
Qed.

Lemma parse_scalar_repr s : Utf8.is_utf8 s = true -> parse_scalar (repr s) = Value.Str s.
Proof.
  intros Hu. unfold repr. destruct (needs_quote s) eqn:E; [apply parse_scalar_quote|].
  destruct (needs_quote_false s E) as (Hn & Ht & Hc & _ & Hb & Ho & Hw & Hi & Hf).
  rewrite parse_scalar_plain; [|by apply plain_tidy|done|].
  - by rewrite Hi, parse_u64_f64, Hf.
  - intros Hin. repeat (apply elem_of_cons in Hin as [->|Hin]; [first [by apply Hb|by apply Ho|apply Hw; rewrite !elem_of_cons; tauto|done]|]).
    by apply elem_of_nil in Hin.
Qed.

(** Scalars that could be taken for a mapping in an item position. *)
Definition item_ok (v : Value) : bool := match v with Value.Str s => negb (colon_space s) | _ => true end.

Lemma scalar_repr_facts v :
  is_block v = false -> scalar_ok v = true ->
  tidy (scalar_repr v) /\ parse_scalar (scalar_repr v) = scalar_norm v /\
  (item_ok v = true -> colon_space (scalar_repr v) = false /\ last (scalar_repr v) <> Some x3a).
Proof.
  assert (forall s w, s <> [] -> forallb word_char s = true -> parse_scalar s = w ->
    tidy s /\ parse_scalar s = w /\ (item_ok v = true -> colon_space s = false /\ last s <> Some x3a)) as Hword.
  { intros s w H1 H2 H3. destruct (word_facts s H1 H2) as (? & _ & ? & ?). auto. }
  intros Hb Ho. destruct v as [|b|i|u|f|s|b|[|x a]|[|x o]]; try done; cbn [scalar_repr write_scalar scalar_norm scalar_ok] in *.
  - by apply Hword.
  - destruct b; by apply Hword.
  - zbool. pose proof (parse_i64_write_i64 i ltac:(lia)) as Hp.
    destruct (write_i64_shape i) as (neg & c & t & E & Hc & Ht); [lia|]. rewrite E in *.
    destruct (number_facts neg c t Hc (digits_dec_char t Ht)) as (H1 & H2 & _). apply Hword; [done|done|].
    rewrite parse_scalar_number by auto with ferroly. by rewrite Hp.
  - zbool. pose proof (parse_u64_write_u64 u ltac:(lia)) as Hp. pose proof (parse_i64_write_u64 u ltac:(lia)) as Hi.
    destruct (write_u64_shape u) as (c & t & E & Hc & Ht); [lia|]. rewrite E in *.
    destruct (number_facts false c t Hc (digits_dec_char t Ht)) as (H1 & H2 & _). apply Hword; [done|done|].
    pose proof (parse_scalar_number false c t Hc (digits_dec_char t Ht)) as Hs. cbn [app] in Hs. rewrite Hs, Hi, Hp.
    by destruct (u <=? i64_max).
  - unfold write_f64. destruct (F64.is_finite f) eqn:Ef; [|by apply Hword]. cbn [negb orb app] in *.
    apply bool_decide_eq_true in Ho. destruct (display_shape f Ef) as (neg & c & t & E & Hc & Ht). rewrite E in *.
    destruct (number_facts neg c t Hc Ht) as (H1 & H2 & _). apply Hword; [done|done|].
    rewrite parse_scalar_number by done. by rewrite Ho.
  - change (if needs_quote s then write_quoted [] s else [] ++ s) with (write_key [] s). rewrite write_key_spec. cbn [app].
    split; [by apply repr_tidy|]. split; [by apply parse_scalar_repr|]. cbn [item_ok]. intros Hc%negb_true_iff.
    split; [by apply repr_colon|]. unfold repr. destruct (needs_quote s) eqn:E; [by apply colon_space_quote|].
    destruct (needs_quote_false s E) as (_ & _ & Hch & _). apply no_colon. eapply Forall_impl; [exact Hch|].
    intros b Hb' ->. apply Hb'. vm_compute. set_solver.
  - rewrite bytes_text. cbn [Nat.ltb Nat.leb andb app]. rewrite write_quoted_spec. cbn [app].
    split; [apply quote_tidy|]. split; [apply parse_scalar_quote|]. intros _. apply colon_space_quote.
    apply no_colon. clear Hword Hb Ho. induction b as [|x b IH]; [constructor|]. cbn [map].
    pose proof (b2z_range x). destruct (write_u64_shape (b2z x)) as (c & t & E & Hc & Ht); [unfold u64_max; lia|].
    assert (Forall (fun b => b <> x3a) (write_u64 [] (b2z x))) as Hx.
    { rewrite E. constructor; [by intros ->|]. eapply Forall_impl; [exact Ht|]. intros y Hy ->. done. }
    rewrite write_u64_decimal in Hx by (unfold u64_max; lia). destruct b as [|y b]; [done|]. rewrite join_cons by done. apply Forall_app. split; [done|]. apply Forall_app. split; [by repeat constructor|exact IH].
  - by apply Hword.
  - by apply Hword.
Qed.

(** ** Blocks read back *)

Fixpoint block_norm (v : Value) : Value :=
  match v with
  | Value.Array a => Value.Array (map block_norm a)
  | Value.Object o => Value.Object (map (fun kv => (fst kv, block_norm (snd kv))) o)
  | v => scalar_norm v
  end.

(** Keys are UTF-8 without [: ], and so are the strings in a sequence. *)
Fixpoint block_ok (v : Value) : bool :=
  match v with
  | Value.Array a => forallb (fun v => item_ok v && block_ok v) a
  | Value.Object o =>
      forallb (fun kv => Utf8.is_utf8 (fst kv) && negb (colon_space (fst kv)) && block_ok (snd kv)) o
  | v => scalar_ok v
  end.

Lemma block_norm_scalar v : is_block v = false -> block_norm v = scalar_norm v.
Proof. by destruct v as [| | | | | | |[|]|[|]]. Qed.

Lemma block_ok_scalar v : is_block v = false -> block_ok v = true -> scalar_ok v = true.
Proof. by destruct v as [| | | | | | |[|]|[|]]. Qed.

(** What follows a block is indented less. *)
Definition follow (after : list Line) (indent : nat) : Prop :=
  match after with [] => True | (ind, _) :: _ => (ind < indent)%nat end.

Definition block_reads (v : Value) : Prop := forall d indent after,
  is_block v = true -> block_ok v = true -> (Value.depth v + d <= MAX_DEPTH)%nat -> follow after indent ->
  exists first rest, block_lines v indent = first :: rest /\ fst first = indent /\
    parse_block d first (rest ++ after) indent = Some (Ok (block_norm v, after)).

Lemma parse_block_eq d first rest indent :
  (d <= MAX_DEPTH)%nat ->
  parse_block d first rest indent =
  if starts_with (snd first) (b!"-") then
    run_loop (sequence_body (parse_block (S d)) indent) lines_left ([], first :: rest)
  else if bool_decide (is_Some (mapping_key (snd first))) then
    run_loop (mapping_body (parse_block (S d)) indent) lines_left ([], first :: rest)
  else Some (Ok (parse_scalar (snd first), rest)).
Proof.
  intros Hd. unfold parse_block at 1. replace (S MAX_DEPTH - d)%nat with (S (MAX_DEPTH - d)) by lia.
  cbn [block_fuel]. by rewrite (proj2 (Nat.ltb_ge _ _)) by lia.
Qed.

Lemma parse_block_shrinks d : shrinks (parse_block d).
Proof. intros first rest. apply block_fuel_leaves. lia. Qed.

Lemma child_reads v d indent after :
  block_reads v -> is_block v = true -> block_ok v = true -> (Value.depth v + d <= MAX_DEPTH)%nat ->
  follow after (indent + 2) ->
  child_block (parse_block d) indent (block_lines v (indent + 2) ++ after) = Some (Ok (block_norm v, after)).
Proof.
  intros Hv Hb Hok Hd Hf. destruct (Hv d (indent + 2)%nat after Hb Hok Hd Hf) as ([ind c] & rest & -> & Hi & E).
  cbn [fst] in Hi. subst ind. cbn [app child_block]. by rewrite (proj2 (Nat.ltb_lt _ _)) by lia.
Qed.

Lemma trim_space t : tidy t -> trim (x20 :: t) = t /\ trim_start (x20 :: t) = t.
Proof.
  intros Ht. pose proof (tidy_head t Ht []) as H. rewrite app_nil_r in H. split.
  - unfold trim. rewrite trim_start_ws by done. apply (tidy_trim t Ht).
  - rewrite trim_start_ws by done. by apply trim_start_head.
Qed.

Lemma repr_not_dash k r : starts_with (repr k ++ r) (b!"-") = false.
Proof.
  unfold repr. destruct (needs_quote k) eqn:E; [done|]. destruct (needs_quote_false k E) as (Hn & _ & _ & Hd & _).
  destruct k as [|c k]; [done|]. cbn [app head] in *. change (b!"-") with [x2d]. cbn [starts_with].
  rewrite bool_decide_false; [done|]. congruence.
Qed.

Lemma follow_marked {A} (f : A -> list Line) (l : list A) after indent :
  (forall x, exists c rest, f x = (indent, c) :: rest) -> follow after indent -> follow (flat_map f l ++ after) (indent + 2).
Proof.
  intros Hf Ha. destruct l as [|x l]; cbn [flat_map app].
  - destruct after as [|[ind c] after]; [done|]. cbn [follow] in *. lia.
  - destruct (Hf x) as (c & rest & ->). cbn [app follow]. lia.
Qed.

Lemma marked_head indent marker v : exists c rest, marked indent marker v = (indent, c) :: rest.
Proof. unfold marked. destruct (is_block v); by eexists _, _. Qed.

Lemma mapping_stops d indent entries after :
  follow after indent ->
  run_loop (mapping_body (parse_block d) indent) lines_left (entries, after) = Some (Ok (Value.Object entries, after)).
Proof.
  intros Hf. rewrite (run_loop_eq (mapping_body (parse_block d) indent) lines_left) by (apply mapping_decreases, parse_block_shrinks).
  destruct after as [|[ind c] after]; [done|]. cbn [follow] in Hf. cbn [mapping_body].
  by rewrite (proj2 (Nat.ltb_lt _ _)).
Qed.

Lemma sequence_stops d indent items after :
  follow after indent ->
  run_loop (sequence_body (parse_block d) indent) lines_left (items, after) = Some (Ok (Value.Array items, after)).
Proof.
  intros Hf. rewrite (run_loop_eq (sequence_body (parse_block d) indent) lines_left) by (apply sequence_decreases, parse_block_shrinks).
  destruct after as [|[ind c] after]; [done|]. cbn [follow] in Hf. cbn [sequence_body].
  by rewrite (proj2 (Nat.ltb_lt _ _)).
Qed.

Definition entry_ok (d : nat) (kv : bytes * Value) : Prop :=
  Utf8.is_utf8 (fst kv) = true /\ colon_space (fst kv) = false /\ block_ok (snd kv) = true /\
  block_reads (snd kv) /\ (Value.depth (snd kv) + d <= MAX_DEPTH)%nat.

(** One entry of a mapping, whatever follows it. *)
Lemma mapping_step d indent entries k v after :
  entry_ok d (k, v) -> follow after (indent + 2) ->
  mapping_body (parse_block d) indent (entries, marked indent (repr k ++ [x3a]) v ++ after) =
  Some (Ok (inl (entries ++ [(k, block_norm v)], after))).
Proof.
  intros (Hk & Hc & Hok & Hv & Hd) Hf. cbn [fst snd] in *. unfold marked. destruct (is_block v) eqn:Eb; cbn [app mapping_body].
  - rewrite (proj2 (Nat.ltb_ge _ _)) by lia. rewrite repr_not_dash. cbn [orb].
    rewrite (mapping_key_repr k []) by auto. rewrite bool_decide_true by done.
    rewrite child_reads by done. done.
  - destruct (scalar_repr_facts v Eb (block_ok_scalar v Eb Hok)) as (Ht & Hp & _).
    rewrite (proj2 (Nat.ltb_ge _ _)) by lia. rewrite <- app_assoc, repr_not_dash. cbn [orb app].
    rewrite (mapping_key_repr k (x20 :: scalar_repr v)) by auto. destruct (trim_space _ Ht) as [-> _].
    rewrite bool_decide_false by (by apply tidy_nonempty). by rewrite Hp, block_norm_scalar.
Qed.

Lemma mapping_reads d indent o : forall entries after,
  Forall (entry_ok d) o -> follow after indent ->
  run_loop (mapping_body (parse_block d) indent) lines_left
    (entries, flat_map (fun kv => marked indent (repr (fst kv) ++ [x3a]) (snd kv)) o ++ after) =
  Some (Ok (Value.Object (entries ++ map (fun kv => (fst kv, block_norm (snd kv))) o), after)).
Proof.
  induction o as [|[k v] o IH]; intros entries after Ho Hf; cbn [flat_map map app].
  { rewrite app_nil_r. by apply mapping_stops. }
  inversion Ho as [|? ? Hkv Ho']; subst. rewrite <- app_assoc.
  rewrite (run_loop_eq (mapping_body (parse_block d) indent) lines_left) by (apply mapping_decreases, parse_block_shrinks).
  cbn [fst snd]. rewrite mapping_step; [|done|by apply follow_marked; [intros; apply marked_head|]].
  cbn [fbind]. rewrite IH by done. by rewrite <- app_assoc.
Qed.

Definition item_reads_ok (d : nat) (v : Value) : Prop :=
  item_ok v = true /\ block_ok v = true /\ block_reads v /\ (Value.depth v + d <= MAX_DEPTH)%nat.

Lemma sequence_step d indent items v after :
  item_reads_ok d v -> follow after (indent + 2) ->
  sequence_body (parse_block d) indent (items, marked indent [x2d] v ++ after) =
  Some (Ok (inl (items ++ [block_norm v], after))).
Proof.
  intros (Hi & Hok & Hv & Hd) Hf. unfold marked. destruct (is_block v) eqn:Eb; cbn [app sequence_body].
  - rewrite (proj2 (Nat.ltb_ge _ _)) by lia. change (starts_with [x2d] (b!"-")) with true. cbn [negb orb].
    change (trim_start (drop 1 [x2d])) with (@nil byte). cbv zeta. rewrite bool_decide_true by done.
    rewrite child_reads by done. done.
  - destruct (scalar_repr_facts v Eb (block_ok_scalar v Eb Hok)) as (Ht & Hp & Hm). destruct (Hm Hi) as [Hm1 Hm2].
    rewrite (proj2 (Nat.ltb_ge _ _)) by lia.
    assert (starts_with (x2d :: x20 :: scalar_repr v) (b!"-") = true) as -> by (apply (starts_with_app [x2d])).
    cbn [negb orb drop]. cbv zeta. destruct (trim_space _ Ht) as [_ ->].
    rewrite bool_decide_false by (by apply tidy_nonempty). rewrite mapping_key_none by done.
    by rewrite Hp, block_norm_scalar.
Qed.

Lemma sequence_reads d indent a : forall items after,
  Forall (item_reads_ok d) a -> follow after indent ->
  run_loop (sequence_body (parse_block d) indent) lines_left
    (items, flat_map (fun v => marked indent [x2d] v) a ++ after) =
  Some (Ok (Value.Array (items ++ map block_norm a), after)).
Proof.
  induction a as [|v a IH]; intros items after Ha Hf; cbn [flat_map map app].
  { rewrite app_nil_r. by apply sequence_stops. }
  inversion Ha as [|? ? Hv Ha']; subst. rewrite <- app_assoc.
  rewrite (run_loop_eq (sequence_body (parse_block d) indent) lines_left) by (apply sequence_decreases, parse_block_shrinks).
  rewrite sequence_step; [|done|by apply follow_marked; [intros; apply marked_head|]].
  cbn [fbind]. rewrite IH by done. by rewrite <- app_assoc.
Qed.

Lemma marked_content indent marker v :
  exists r rest, marked indent marker v = (indent, marker ++ r) :: rest /\ (r = [] \/ head r = Some x20).
Proof.
  unfold marked. destruct (is_block v); [exists [], (block_lines v (indent + 2)); rewrite app_nil_r; auto|].
  exists ([x20] ++ scalar_repr v), []. auto.
Qed.

Lemma all_blocks_read v : block_reads v.
Proof.
  induction v as [| | | | | | |a IH|o IH] using value_ind'; intros d indent after Hb Hok Hd Hf; try done.
  - destruct a as [|x a]; [done|]. rewrite block_lines_array. cbn [flat_map].
    destruct (marked_content indent [x2d] x) as (r & rest & E & _). rewrite E. cbn [app].
    exists (indent, [x2d] ++ r), (rest ++ flat_map (marked indent [x2d]) a). split; [done|]. split; [done|].
    rewrite parse_block_eq by (cbn [Value.depth] in Hd; lia). cbn [snd].
    assert (starts_with ([x2d] ++ r) (b!"-") = true) as -> by (apply (starts_with_app [x2d])).
    etransitivity; [|apply (sequence_reads (S d) indent (x :: a) [] after); [|done]].
    + cbn [flat_map]. rewrite E. cbn [app]. rewrite <- ?app_assoc. done.
    + cbn [block_ok] in Hok. rewrite forallb_forall in Hok. rewrite Forall_forall in IH |- *. intros v Hv.
      apply list_elem_of_In in Hv as Hv'. specialize (Hok v Hv'). apply andb_true_iff in Hok as [H1 H2].
      pose proof (depth_array_elem (x :: a) v Hv). split_and!; auto. lia.
  - destruct o as [|[k v] o]; [done|]. rewrite block_lines_object. cbn [flat_map fst snd].
    destruct (marked_content indent (repr k ++ [x3a]) v) as (r & rest & E & Hr). rewrite E. cbn [app].
    exists (indent, (repr k ++ [x3a]) ++ r),
      (rest ++ flat_map (fun kv => marked indent (repr (fst kv) ++ [x3a]) (snd kv)) o). split; [done|]. split; [done|].
    cbn [block_ok] in Hok. rewrite forallb_forall in Hok.
    assert (Forall (entry_ok (S d)) ((k, v) :: o)) as Hall.
    { rewrite Forall_forall in IH |- *. intros kv Hkv. apply list_elem_of_In in Hkv as Hkv'.
      specialize (Hok kv Hkv'). apply andb_true_iff in Hok as [[H1 H2%negb_true_iff]%andb_true_iff H3].
      pose proof (depth_object_elem ((k, v) :: o) kv Hkv). split_and!; auto. lia. }
    rewrite parse_block_eq by (cbn [Value.depth] in Hd; lia). cbn [snd]. rewrite <- app_assoc, repr_not_dash. cbn [app].
    inversion Hall as [|? ? (Hk & Hc & _) _]; subst. cbn [fst] in *.
    rewrite mapping_key_repr by done. rewrite bool_decide_true by done.
    etransitivity; [|exact (mapping_reads (S d) indent ((k, v) :: o) [] after Hall Hf)].
    cbn [flat_map fst snd]. rewrite E. cbn [app]. rewrite <- !app_assoc. done.
Qed.

(** ** The round trip *)

Record line_ok (l : Line) : Prop := mkLineOk {
  line_head : head_solid (snd l);
  line_tail : tail_solid (snd l);
  line_newline : x0a ∉ snd l;
  line_comment : head (snd l) <> Some x23;
  line_marker : snd l <> b!"---" }.

Lemma trim_start_spaces n c : head_solid c -> trim_start (replicate n x20 ++ c) = c.
Proof.
  intros Hc. induction n as [|n IH]; cbn [replicate app]; [by apply trim_start_head|]. by rewrite trim_start_ws.
Qed.

Lemma preprocess_lines ls : Forall line_ok ls -> preprocess (flat_map line_text ls) = ls.
Proof.
  intros H. unfold preprocess.
  assert (flat_map line_text ls = flat_map (fun l => l ++ [x0a]) (map (fun l => replicate (fst l) x20 ++ snd l) ls)) as ->.
  { clear H. induction ls as [|l ls IH]; [done|]. cbn [flat_map map]. unfold line_text at 1. by rewrite IH, <- !app_assoc. }
  rewrite str_lines_lines.
  - induction H as [|[i c] ls Hl _ IH]; [done|]. cbn [map omap list_omap fst snd]. destruct Hl as [H1 H2 H3 H4 H5]. cbn [snd] in *.
    rewrite trim_start_spaces by done. destruct H1 as [Hn H1]. rewrite bool_decide_false by done.
    assert (starts_with c (b!"#") = false) as ->.
    { destruct c as [|b c]; [done|]. change (b!"#") with [x23]. cbn [starts_with head] in *.
      by rewrite bool_decide_false by congruence. }
    rewrite bool_decide_false by done. cbn [orb]. rewrite trim_end_tail by done.
    rewrite length_app, length_replicate. replace (i + length c - length c)%nat with i by lia. by rewrite IH.
  - rewrite Forall_map. eapply Forall_impl; [exact H|]. intros [i c] Hl. destruct Hl as [H1 [Hn H2] H3 H4 H5]. cbn [fst snd] in *.
    split.
    + rewrite not_elem_of_app. split; [|done]. intros Hin. apply elem_of_replicate in Hin as [Hin _]. done.
    + destruct c as [|b c] using rev_ind; [done|]. rewrite app_assoc, last_snoc. intros [= ->].
      rewrite rev_app_distr in H2. cbn [rev app] in H2. by rewrite strip_rev_ws_ascii in H2.
Qed.

Lemma marked_lines_ok indent marker v :
  (forall t, head_solid (marker ++ t)) -> tail_solid marker -> x0a ∉ marker -> head marker <> Some x23 -> marker <> [] ->
  (forall t, marker <> t ++ [x2d] \/ marker = [x2d]) ->
  (is_block v = true -> Forall line_ok (block_lines v (indent + 2))) -> (is_block v = false -> tidy (scalar_repr v)) ->
  Forall line_ok (marked indent marker v).
Proof.
  intros Hh Ht Hl Hc Hne Hd Hb Hs. unfold marked. destruct (is_block v).
  - constructor; [|by apply Hb]. split; cbn [snd]; auto.
    + specialize (Hh []). by rewrite app_nil_r in Hh.
    + intros ->. destruct (Hd (b!"--")) as [H|H]; done.
  - specialize (Hs eq_refl). constructor; [|constructor]. split; cbn [snd]; auto.
    + rewrite app_assoc. by apply tidy_tail.
    + pose proof (tidy_line _ Hs). set_solver.
    + by destruct marker.
    + intros E. destruct marker as [|c [|c2 [|c3 m]]]; try done; cbn [app] in E; try discriminate E.
      injection E as -> -> -> E. destruct m; discriminate E.
Qed.

Lemma block_lines_ok v : forall indent, is_block v = true -> block_ok v = true -> Forall line_ok (block_lines v indent).
Proof.
  assert (forall v, block_ok v = true -> is_block v = false -> tidy (scalar_repr v)) as Hs.
  { intros v' Hok Hb. by apply scalar_repr_facts, block_ok_scalar. }
  induction v as [| | | | | | |a IH|o IH] using value_ind'; intros indent Hb Hok; try done.
  - destruct a as [|x a]; [done|]. rewrite block_lines_array. set (l := x :: a) in *. cbn [block_ok] in Hok. rewrite forallb_forall in Hok.
    apply Forall_forall. intros ln Hin. apply list_elem_of_In, in_flat_map in Hin as (v & Hv & Hin). apply list_elem_of_In in Hin.
    revert ln Hin. apply Forall_forall. specialize (Hok v Hv). apply andb_true_iff in Hok as [_ Hok].
    apply list_elem_of_In in Hv. rewrite Forall_forall in IH.
    destruct (solid_ends x2d eq_refl) as [H1 H2]. apply marked_lines_ok; auto.
    + apply (H2 []).
    + set_solver.
  - destruct o as [|kv o]; [done|]. rewrite block_lines_object. set (l := kv :: o) in *. cbn [block_ok] in Hok. rewrite forallb_forall in Hok.
    apply Forall_forall. intros ln Hin. apply list_elem_of_In, in_flat_map in Hin as ([k v] & Hv & Hin). apply list_elem_of_In in Hin.
    revert ln Hin. apply Forall_forall. specialize (Hok (k, v) Hv). cbn [fst snd] in *.
    apply andb_true_iff in Hok as [[Hk _]%andb_true_iff Hok]. apply list_elem_of_In in Hv. rewrite Forall_forall in IH.
    pose proof (repr_tidy k Hk) as Ht. destruct (solid_ends x3a eq_refl) as [_ H2]. apply marked_lines_ok; auto.
    + intros t. rewrite <- app_assoc. by apply tidy_head.
    + pose proof (tidy_line _ Ht). set_solver.
    + pose proof (tidy_comment _ Ht). pose proof (tidy_nonempty _ Ht). by destruct (repr k).
    + by destruct (repr k).
    + intros t. left. intros E. apply (f_equal last) in E. by rewrite !last_snoc in E.
    + intros Hbv. by apply (IH (k, v)).
Qed.

(** What a value is after a trip through YAML: an empty container at the top is
    null. *)
Definition yaml_norm (v : Value) : Value :=
  match v with
  | Value.Array [] | Value.Object [] => Value.Null
  | v => block_norm v
  end.

(** A value at the top that is not a block, that is, one written on a single line: no number that prints with a
    minus sign, no string with [: ]. *)
Definition line_scalar_ok (v : Value) : bool :=
  match v with
  | Value.Int i => 0 <=? i
  | Value.Float f => negb (F64.is_finite f && starts_with (F64.display f) (b!"-"))
  | Value.Str s => negb (colon_space s)
  | _ => true
  end.

Definition yaml_ok (v : Value) : bool := block_ok v && (is_block v || line_scalar_ok v).

Lemma line_scalar_no_dash v :
  block_ok v = true -> is_block v = false -> line_scalar_ok v = true ->
  item_ok v = true /\ starts_with (write_scalar [] v) (b!"-") = false.
Proof.
  intros Ho Hb Ht. split; [by destruct v|]. apply block_ok_scalar in Ho; [|done].
  destruct v as [|b|i|u|f|s|b|a|o]; try done; cbn [line_scalar_ok scalar_ok write_scalar] in *; zbool.
  - by destruct b.
  - destruct (write_i64_shape i) as (neg & c & t & E & Hc & _); [lia|].
    unfold write_i64 in *. rewrite (proj2 (Z.ltb_ge i 0)) in * by lia. destruct (write_u64_shape (Z.abs i)) as (d & t' & -> & Hd & _); [unfold u64_max, i64_max in *; lia|].
    by destruct d.
  - destruct (write_u64_shape u) as (d & t' & -> & Hd & _); [lia|]. by destruct d.
  - unfold write_f64. destruct (F64.is_finite f); [|done]. cbn [andb] in Ht. by apply negb_true_iff in Ht.
  - destruct (needs_quote s) eqn:E; [by rewrite write_quoted_spec|]. cbn [app].
    unfold needs_quote in E. apply orb_false_iff in E as [[[[[_ _]%orb_false_iff E]%orb_false_iff _]%orb_false_iff _]%orb_false_iff _].
    destruct s as [|c s]; [done|]. cbn [head] in E. by destruct c.
  - by rewrite write_quoted_spec.
Qed.

Lemma from_str_lines first rest v :
  Forall line_ok (first :: rest) -> parse_block 0 first (rest ++ []) (fst first) = Some (Ok (v, [])) ->
  from_str (flat_map line_text (first :: rest)) = Some (Ok v).
Proof. intros Hl Hp. unfold from_str. rewrite preprocess_lines by done. rewrite app_nil_r in Hp. by rewrite Hp. Qed.

Lemma top_scalar_reads v w :
  tidy (write_scalar [] v) -> starts_with (write_scalar [] v) (b!"-") = false ->
  mapping_key (write_scalar [] v) = None -> parse_scalar (write_scalar [] v) = w ->
  from_str (flat_map line_text [(0%nat, write_scalar [] v)]) = Some (Ok w).
Proof.
  intros Ht Hd Hm Hp. apply from_str_lines.
  - constructor; [|constructor]. pose proof (tidy_head _ Ht []) as H1. rewrite app_nil_r in H1.
    pose proof (tidy_tail _ Ht []) as H2. cbn [app] in H2. split; cbn [snd]; try done.
    + by apply tidy_line.
    + by apply tidy_comment.
    + intros E. by rewrite E in Hd.
  - rewrite parse_block_eq by (unfold MAX_DEPTH; lia). cbn [snd fst]. rewrite Hd, Hm, bool_decide_false by (intros [? ?]; done).
    by rewrite Hp.
Qed.

Lemma from_str_encode_yaml v :
  yaml_ok v = true -> (Value.depth v <= MAX_DEPTH)%nat -> from_str (encode v) = Some (Ok (yaml_norm v)).
Proof.
  unfold yaml_ok. intros [Hok Ht]%andb_true_iff Hd. unfold encode. rewrite write_block_spec. cbn [app].
  destruct (is_block v) eqn:Eb.
  - destruct (all_blocks_read v 0%nat 0%nat [] Eb Hok ltac:(lia) I) as (first & rest & E & Hi & Hp).
    pose proof (block_lines_ok v 0 Eb Hok) as Hl. rewrite E in *. rewrite <- Hi in Hp at 2.
    rewrite (from_str_lines first rest (block_norm v)) by done. by destruct v as [| | | | | | |[|]|[|]].
  - cbn [orb] in Ht. destruct (line_scalar_no_dash v Hok Eb Ht) as [Hi Hdash].
    assert (block_lines v 0 = [(0%nat, write_scalar [] v)]) as -> by (by destruct v as [| | | | | | |[|]|[|]]).
    destruct (scalar_repr_facts v Eb (block_ok_scalar v Eb Hok)) as (H1 & H2 & H3). destruct (H3 Hi) as [H4 H5].
    assert (match v with Value.Array [] | Value.Object [] => True | _ => scalar_repr v = write_scalar [] v /\ scalar_norm v = yaml_norm v end) as Hv
      by (destruct v as [| | | | | | |[|]|[|]]; first [exact I|discriminate Eb|split; reflexivity|done]).
    destruct v as [| | | | | | |[|]|[|]]; try discriminate Eb; try reflexivity;
      (destruct Hv as [Hv1 Hv2]; rewrite Hv1 in *; apply top_scalar_reads; auto using mapping_key_none; by rewrite H2).
Qed.


Definition sample : Value :=
  Value.Object
    [(b!"name", Value.Str (b!"- a: 'b' # c")); (b!"true", Value.Str (b!"12")); (b!"list", Value.Array
       [Value.Int (-1); Value.Array [Value.Null; Value.Float (F64.of_Z 3)];
        Value.Object [(b!"k", Value.Object []); (b!"b", Value.Bytes [x01; xff])]]);
     ([xc3; xa9], Value.UInt 18446744073709551615)].


End Yaml.
