(* ===== verification/Utf8Out.v ===== *)
(** * The encoders write UTF-8 ([codec/fmt.rs], [json.rs], [toml.rs], [xml.rs], [yaml.rs])

    The encoders build a [String], which the model writes as bytes: of a value whose strings and keys are [String]s,
    every format writes a document that is valid UTF-8, whatever the value's numbers and shape. *)

From Stdlib Require Import SpecFloat.
From S2P Require Import Prelude Text Scan Value Json Toml TomlRoundtrip Xml Yaml.

Open Scope Z_scope.

Module Utf8Out.

Abbreviation utf8 s := (Utf8.is_utf8 s = true).

Lemma foldl_keeps {A B} (P : B -> Prop) (f : B -> A -> B) l :
  Forall (fun x => forall b, P b -> P (f b x)) l -> forall b, P b -> P (foldl f b l).
Proof. induction 1 as [|x l Hx _ IH]; intros b Hb; [done|]. cbn [foldl]. apply IH. by apply Hx. Qed.

Lemma app3_utf8 a b c : utf8 a -> utf8 b -> utf8 c -> utf8 (a ++ b ++ c).
Proof. intros Ha Hb Hc. apply is_utf8_app; [done|]. by apply is_utf8_app. Qed.

#[local] Hint Resolve is_utf8_app : utf8.
#[local] Hint Extern 1 (Utf8.is_utf8 _ = true) => reflexivity : utf8.
#[local] Hint Extern 2 (Utf8.is_utf8 (_ :: _) = true) => rewrite is_utf8_ascii_cons by done : utf8.

(** ** Scalars *)

Lemma itoa_ascii room : forall n buf r,
  Forall (fun c => b2z c < 128) buf -> itoa room n buf = Some r -> Forall (fun c => b2z c < 128) r.
Proof.
  induction room as [|room IH]; intros n buf r Hb; [done|]. cbn [itoa]. pose proof (Z.mod_pos_bound n 10 ltac:(lia)) as Hm.
  assert (Forall (fun c => b2z c < 128) (z2b (48 + n mod 10) :: buf)) as Hc.
  { constructor; [|done]. rewrite b2z_z2b by lia. lia. }
  destruct (n / 10 =? 0); [by intros [= <-]|]. by apply IH.
Qed.

Lemma write_u64_utf8 out u : utf8 out -> utf8 (write_u64 out u).
Proof.
  intros Ho. unfold write_u64. destruct (itoa 20 u []) as [r|] eqn:E; cbn [default from_option id]; [|by rewrite app_nil_r].
  apply is_utf8_app; [done|]. apply is_utf8_ascii. by eapply itoa_ascii.
Qed.

Lemma write_i64_utf8 out i : utf8 out -> utf8 (write_i64 out i).
Proof. intros Ho. unfold write_i64. apply write_u64_utf8. destruct (i <? 0); [|done]. by apply is_utf8_app. Qed.

Lemma display_utf8 f : F64.is_finite f = true -> utf8 (F64.display f).
Proof. intros Hf. destruct (display_shape f Hf) as (neg & c & t & -> & Hc & Ht). by apply Json.number_utf8. Qed.

Lemma write_f64_utf8 out f : utf8 out -> utf8 (write_f64 out f).
Proof.
  intros Ho. unfold write_f64. destruct (F64.is_finite f) eqn:E; apply is_utf8_app; try done. by apply display_utf8.
Qed.

Lemma escaped_utf8 (escape : byte -> option bytes) s :
  (forall b e, escape b = Some e -> Forall (fun c => b2z c < 128) e) -> (forall b, 128 <= b2z b -> escape b = None) ->
  utf8 s -> utf8 (flat_map (fun b => default [b] (escape b)) s).
Proof.
  intros Ha Hh Hs. revert s Hs. apply utf8_ind; [done| |].
  - intros b s Hb _ IH. cbn [flat_map]. destruct (escape b) as [e|] eqn:E; cbn [default from_option id].
    + rewrite is_utf8_ascii_app; [done|by eapply Ha].
    + cbn [app]. by rewrite is_utf8_ascii_cons.
  - intros q s Hq Hhi _ IH. rewrite flat_map_app. replace (flat_map _ q) with q; [by apply Hq|].
    clear Hq. induction Hhi as [|c q Hc _ IHq]; [done|]. cbn [flat_map]. by rewrite Hh, <- IHq.
Qed.

Ltac escapes := let b := fresh "b" in intros b; destruct b; intros ?; cbv; intros [= <-]; repeat constructor.

Lemma xml_escape_utf8 out s : utf8 out -> utf8 s -> utf8 (Xml.escape_text out s).
Proof.
  intros Ho Hs. unfold Xml.escape_text. pose proof (Xml.escape_loop_spec s out []) as E. cbn [app] in E. rewrite E.
  apply is_utf8_app; [done|]. apply escaped_utf8; [escapes| |done]. intros b Hb. by destruct b.
Qed.

Lemma toml_string_utf8 out s : utf8 out -> utf8 s -> utf8 (Toml.write_basic_string out s).
Proof.
  intros Ho Hs. rewrite TomlRoundtrip.write_basic_string_spec. unfold TomlRoundtrip.quote.
  repeat apply is_utf8_app; try done. apply escaped_utf8; [escapes| |done]. intros b Hb. by destruct b.
Qed.

Lemma yaml_quoted_utf8 out s : utf8 out -> utf8 s -> utf8 (Yaml.write_quoted out s).
Proof.
  intros Ho Hs. rewrite Yaml.write_quoted_spec. unfold Yaml.quote.
  repeat apply is_utf8_app; try done. apply escaped_utf8; [escapes| |done]. intros b Hb. by destruct b.
Qed.

(** ** XML *)

Lemma xml_scalar_utf8 v out : utf8_strings v = true -> utf8 out -> utf8 (Xml.write_scalar out v).
Proof.
  intros Hv Ho. destruct v as [|b|i|u|f|s|b|a|o]; cbn [Xml.write_scalar]; try done.
  - apply is_utf8_app; [done|]. by destruct b.
  - by apply write_i64_utf8.
  - by apply write_u64_utf8.
  - by apply write_f64_utf8.
  - by apply xml_escape_utf8.
  - apply (foldl_keeps (fun st => utf8 st.2)); [|done]. apply Forall_true. intros x st Hst. cbn [snd].
    apply write_u64_utf8. destruct (0 <? _)%nat; [|done]. by apply is_utf8_app.
Qed.

Lemma object_strings o : utf8_strings (Value.Object o) = true -> Forall (fun kv => utf8 (fst kv) /\ utf8_strings (snd kv) = true) o.
Proof.
  cbn [utf8_strings]. rewrite forallb_forall, Forall_forall. intros H kv Hkv. apply andb_true_iff. by apply H, list_elem_of_In.
Qed.

Lemma array_strings a : utf8_strings (Value.Array a) = true -> Forall (fun v => utf8_strings v = true) a.
Proof. cbn [utf8_strings]. rewrite forallb_forall, Forall_forall. intros H v Hv. by apply H, list_elem_of_In. Qed.

Lemma xml_element_utf8 v : utf8_strings v = true -> forall tag out, utf8 tag -> utf8 out -> utf8 (Xml.write_element v tag out).
Proof.
  induction v as [|b|i|u|f|s|b|a IH|o IH] using value_ind'; intros Hv tag out Ht Ho;
    try (apply (is_utf8_app (Xml.write_scalar (out ++ Xml.open_tag tag) _) (Xml.close_tag tag));
         [apply xml_scalar_utf8; [done|]|]; unfold Xml.open_tag, Xml.close_tag; by auto 8 with utf8).
  - cbn [Xml.write_element]. by auto 10 with utf8.
  - destruct a as [|x a]; [cbn [Xml.write_element]; by auto 10 with utf8|].
    change (Xml.write_element (Value.Array (x :: a)) tag out) with (foldl (fun out v => Xml.write_element v tag out) out (x :: a)).
    apply foldl_keeps; [|done]. apply array_strings in Hv. rewrite Forall_forall in IH, Hv |- *. intros v Hin b Hb. by apply IH; [|apply Hv|..].
  - cbn [Xml.write_element]. unfold Xml.open_tag, Xml.close_tag. apply is_utf8_app; [|by auto 8 with utf8].
    apply foldl_keeps; [|by auto 8 with utf8]. apply object_strings in Hv. rewrite Forall_forall in IH, Hv |- *.
    intros kv Hin b Hb. destruct (Hv kv Hin). by apply IH.
Qed.

Lemma xml_utf8 v : utf8_strings v = true -> utf8 (Xml.encode v).
Proof.
  intros Hv. unfold Xml.encode. apply is_utf8_app; [|done]. destruct v as [|b|i|u|f|s|b|a|o]; try by apply xml_scalar_utf8.
  - cbn [Xml.write_children]. apply foldl_keeps; [|done]. apply array_strings in Hv. eapply Forall_impl; [exact Hv|].
    intros v H b Hb. by apply xml_element_utf8.
  - cbn [Xml.write_children]. apply foldl_keeps; [|done]. apply object_strings in Hv. eapply Forall_impl; [exact Hv|].
    intros kv [H1 H2] b Hb. by apply xml_element_utf8.
Qed.

(** ** YAML *)

Lemma yaml_scalar_utf8 v out : utf8_strings v = true -> utf8 out -> utf8 (Yaml.write_scalar out v).
Proof.
  intros Hv Ho. destruct v as [|b|i|u|f|s|b|a|o]; cbn [Yaml.write_scalar]; try by apply is_utf8_app.
  - apply is_utf8_app; [done|]. by destruct b.
  - by apply write_i64_utf8.
  - by apply write_u64_utf8.
  - by apply write_f64_utf8.
  - destruct (Yaml.needs_quote s); [by apply yaml_quoted_utf8|by apply is_utf8_app].
  - apply yaml_quoted_utf8; [done|]. apply (foldl_keeps (fun st => utf8 st.2)); [|done]. apply Forall_true. intros x st Hst.
    cbn [snd]. apply write_u64_utf8. destruct (0 <? _)%nat; [|done]. by apply is_utf8_app.
Qed.

Lemma pad_utf8 out n : utf8 out -> utf8 (Yaml.pad out n).
Proof. intros Ho. apply is_utf8_app; [done|]. apply is_utf8_ascii, Forall_replicate. reflexivity. Qed.

Lemma yaml_block_utf8 v : utf8_strings v = true -> forall indent out, utf8 out -> utf8 (Yaml.write_block v indent out).
Proof.
  assert (forall v, utf8_strings v = true -> (forall indent out, utf8 out -> utf8 (Yaml.write_block v indent out)) ->
    forall indent out, utf8 out -> utf8 (Yaml.write_after_marker indent v out)) as Hafter.
  { clear v. intros v Hv IH indent out Ho. unfold Yaml.write_after_marker. destruct (Yaml.is_block v); [by apply IH, is_utf8_app|].
    apply is_utf8_app; [done|]. apply is_utf8_app; [done|]. apply is_utf8_app; [|done].
    destruct v as [| | | | | | |[|]|[|]]; cbn [Yaml.scalar_repr]; try done; by apply yaml_scalar_utf8. }
  induction v as [|b|i|u|f|s|b|a IH|o IH] using value_ind'; intros Hv indent out Ho;
    try (apply is_utf8_app; [|done]; apply yaml_scalar_utf8; [done|by apply pad_utf8]).
  - destruct a as [|x a]; [apply is_utf8_app; [|done]; apply yaml_scalar_utf8; [done|by apply pad_utf8]|].
    cbn [Yaml.write_block]. apply array_strings in Hv. apply foldl_keeps; [|done].
    rewrite Forall_forall in IH, Hv |- *. intros v Hin b Hb.
    match goal with |- utf8 ?e => change e with (match v with
      | Value.Object (_ :: _) => Yaml.write_block v (indent + 2) ((Yaml.pad b indent ++ [x2d]) ++ [x0a])
      | Value.Array (_ :: _) => Yaml.write_block v (indent + 2) ((Yaml.pad b indent ++ [x2d]) ++ [x0a])
      | Value.Object [] => (Yaml.pad b indent ++ [x2d]) ++ b!" {}" ++ [x0a]
      | Value.Array [] => (Yaml.pad b indent ++ [x2d]) ++ b!" []" ++ [x0a]
      | scalar => Yaml.write_scalar ((Yaml.pad b indent ++ [x2d]) ++ [x20]) scalar ++ [x0a]
      end) end.
    rewrite Yaml.write_after_marker_eq. apply Hafter; [by apply Hv|by apply IH; [|apply Hv]|].
    apply is_utf8_app; [by apply pad_utf8|done].
  - destruct o as [|kv o]; [apply is_utf8_app; [|done]; apply yaml_scalar_utf8; [done|by apply pad_utf8]|].
    cbn [Yaml.write_block]. apply object_strings in Hv. apply foldl_keeps; [|done].
    rewrite Forall_forall in IH, Hv |- *. intros [k v] Hin b Hb. destruct (Hv _ Hin) as [Hk Hs]. cbn [fst snd] in *.
    rewrite Yaml.write_after_marker_eq. apply Hafter; [done|by apply (IH (k, v) Hin)|].
    apply is_utf8_app; [|done]. rewrite Yaml.write_key_spec. apply is_utf8_app; [by apply pad_utf8|].
    unfold Yaml.repr. destruct (Yaml.needs_quote k); [|done]. pose proof (yaml_quoted_utf8 [] k eq_refl Hk) as H.
    by rewrite Yaml.write_quoted_spec in H.
Qed.

(** ** TOML *)

Lemma key_repr_utf8 k : utf8 k -> utf8 (Toml.key_repr k).
Proof. intros Hk. unfold Toml.key_repr. destruct (_ && _); [done|]. by apply toml_string_utf8. Qed.

Lemma toml_float_utf8 out f : utf8 out -> utf8 (Toml.write_float out f).
Proof.
  intros Ho. unfold Toml.write_float. destruct (F64.is_nan f); [by apply is_utf8_app|].
  destruct (F64.is_finite f) eqn:E; cbn [negb]; [|destruct (F64.ltb f _); by apply is_utf8_app].
  assert (utf8 (out ++ F64.display f)) as H by (apply is_utf8_app; [done|by apply display_utf8]).
  destruct (negb _); [by apply is_utf8_app|done].
Qed.

Lemma comma_utf8 i out : utf8 out -> utf8 (Toml.comma i out).
Proof. intros Ho. unfold Toml.comma. destruct (0 <? i)%nat; [by apply is_utf8_app|done]. Qed.

Lemma toml_inline_utf8 v : utf8_strings v = true -> forall out, utf8 out -> utf8 (Toml.write_inline v out).
Proof.
  induction v as [|b|i|u|f|s|b|a IH|o IH] using value_ind'; intros Hv out Ho; cbn [Toml.write_inline]; try by apply is_utf8_app.
  - apply is_utf8_app; [done|]. by destruct b.
  - by apply write_i64_utf8.
  - by apply write_u64_utf8.
  - by apply toml_float_utf8.
  - by apply toml_string_utf8.
  - apply is_utf8_app; [|done]. apply (foldl_keeps (fun st => utf8 st.2)); [|by apply is_utf8_app].
    apply Forall_true. intros x st Hst. cbn [snd]. by apply write_u64_utf8, comma_utf8.
  - apply is_utf8_app; [|done]. apply (foldl_keeps (fun st => utf8 st.2)); [|by apply is_utf8_app].
    apply array_strings in Hv. rewrite Forall_forall in IH, Hv |- *. intros v Hin st Hst. cbn [snd].
    apply IH; [done|by apply Hv|by apply comma_utf8].
  - destruct (forallb _ o); [by apply is_utf8_app|]. apply is_utf8_app; [|done].
    apply (foldl_keeps (fun st => utf8 st.2)); [|by apply is_utf8_app].
    apply object_strings in Hv. rewrite Forall_forall in IH, Hv |- *. intros kv Hin st Hst. destruct (Hv kv Hin).
    destruct (Toml.is_null _); [done|]. cbn [snd]. apply IH; [done..|]. unfold Toml.write_key.
    apply is_utf8_app; [|done]. apply is_utf8_app; [by apply comma_utf8|by apply key_repr_utf8].
Qed.

Definition section_utf8 (v : Value) : Prop :=
  utf8_strings v = true -> forall prefix out, utf8 prefix -> utf8 out -> utf8 (Toml.write_section v prefix out).

Lemma toml_section_utf8 v :
  section_utf8 v /\ match v with Value.Array a => Forall section_utf8 a | _ => True end.
Proof.
  induction v as [|b|i|u|f|s|b|a IH|o IH] using value_ind'; (split; [intros Hv prefix out Hp Ho; try done|try done]).
  { eapply Forall_impl; [exact IH|]. by intros v [H _]. }
  assert (forall k, utf8 k -> utf8 (Toml.header_join prefix k)) as Hj.
  { intros k Hk. unfold Toml.header_join. pose proof (key_repr_utf8 k Hk). case_bool_decide; [done|].
    apply is_utf8_app; [done|]. by apply (is_utf8_app [x2e]). }
  apply object_strings in Hv as Hs. rewrite Forall_forall in IH, Hs. cbn [Toml.write_section].
  apply foldl_keeps; [|apply foldl_keeps; [|done]]; apply Forall_forall; intros kv Hin b Hb; destruct (Hs kv Hin) as [Hk Hkv].
  - destruct (IH kv Hin) as [H1 H2]. specialize (Hj _ Hk).
    assert (forall x y, utf8 x -> utf8 y -> utf8 (b ++ x ++ Toml.header_join prefix (fst kv) ++ y)) as Hh.
    { intros x y Hx Hy. apply is_utf8_app; [done|]. by apply app3_utf8. }
    destruct (snd kv) as [| | | | | | |a|[|e o']] eqn:E; try done.
    + destruct (Toml.is_array_of_tables a); [|done]. apply foldl_keeps; [|done]. apply array_strings in Hkv.
      rewrite Forall_forall in H2, Hkv |- *. intros v Hv' b' Hb'. destruct v as [| | | | | | | |o'] eqn:Ev; try done.
      apply H2; [done|by apply Hkv|done|]. apply is_utf8_app; [done|]. by apply app3_utf8.
    + apply H1; [done|done|]. by apply (Hh [x0a; x5b] [x5d; x0a]).
  - destruct (_ || _); [done|]. apply is_utf8_app; [|done]. apply toml_inline_utf8; [done|].
    unfold Toml.write_key. apply is_utf8_app; [|done]. apply is_utf8_app; [done|by apply key_repr_utf8].
Qed.

Lemma toml_utf8 v : utf8_strings v = true -> utf8 (Toml.encode v).
Proof.
  intros Hv. unfold Toml.encode. destruct v as [| | | | | | | |o]; try (apply is_utf8_app; [|done]; by apply toml_inline_utf8).
  by apply toml_section_utf8.
Qed.

Lemma yaml_utf8 v : utf8_strings v = true -> utf8 (Yaml.encode v).
Proof. intros Hv. by apply yaml_block_utf8. Qed.

End Utf8Out.
