(* ===== verification/Traits.v ===== *)
(** * The [Encode] and [Decode] traits ([codec/traits.rs])

    The two traits as classes, with both faces of each: a value goes to a
    [Value] tree ([encode]) or straight to an [Encoder] ([encode_to]), and
    comes from a tree ([decode]) or straight from a [Decoder] ([decode_from]).
    One instance per implementation of the source.  Types of Rust that share a
    carrier here are told apart by an index ([Signed I8], [Unsigned Usize],
    [Float F32T]); [valid] is what the Rust type guarantees of its values.

    The laws are classes too, so that a type built from others inherits them:
    [Streams] (both encoders write the same), [WellTyped] (what is decoded is a
    value of the type) and [Lossless] (a value is decoded from any image of its
    tree that a format may give back). *)

From Stdlib Require Import SpecFloat.
From S2P Require Import Prelude Text Scan Value.

Open Scope Z_scope.

Module Traits.

(** ** The traits *)

Class Encode (T : Type) := {
  encode : T -> Value;
  encode_to : forall {E} `{Encoder E}, T -> E -> E;
}.

(** The default [encode_to]. *)
Definition default_encode_to {T E} `{Encoder E} (enc : T -> Value) (x : T) (e : E) : E := emit_value (enc x) e.

(** A source of values.  The closures of [read_seq] and [read_map] mutate what they
    capture: they are functions over an accumulator [S]. *)
Class Decoder (D : Type) := {
  decode_value : D -> option (Result (Value * D) CodecError);
  decode_string : D -> option (Result (bytes * D) CodecError);
  peek_null : D -> bool * D;
  decode_null : D -> Result D CodecError;
  read_seq : forall {S}, (S -> D -> option (Result (S * D) CodecError)) -> S -> D -> option (Result (S * D) CodecError);
  read_map : forall {S}, (S -> bytes -> D -> option (Result (S * D) CodecError)) -> S -> D ->
    option (Result (S * D) CodecError);
  skip_value : D -> option (Result D CodecError);
}.

Class Decode (T : Type) := {
  decode : Value -> Result T CodecError;
  decode_from : forall {D} `{Decoder D}, D -> option (Result (T * D) CodecError);
}.

(** The default [decode_from]. *)
Definition default_decode_from {T D} `{Decoder D} (dec : Value -> Result T CodecError) (d : D)
  : option (Result (T * D) CodecError) :=
  let! (v, d) := decode_value d in
  let! x := Some (dec v) in
  Some (Ok (x, d)).

(** [iter().map(f).collect::<Result<Vec<_>, _>>()] *)
Fixpoint traverse {A B E} (f : A -> Result B E) (l : list A) : Result (list B) E :=
  match l with
  | [] => Ok []
  | x :: l => let? y := f x in let? ys := traverse f l in Ok (y :: ys)
  end.

(** What the Rust type guarantees of its values. *)
Class Valid (T : Type) := valid : T -> Prop.

(** ** Primitives *)

#[export] Instance bool_encode : Encode bool := {
  encode := Value.Bool;
  encode_to := fun E _ b e => encode_bool b e;
}.

Definition decode_bool (value : Value) : Result bool CodecError :=
  match value with
  | Value.Bool b => Ok b
  | Value.Str s =>
      let t := trim s in
      if bool_decide (t = b!"true") then Ok true
      else if bool_decide (t = b!"false") then Ok false
      else Err (Expected (b!"bool"))
  | _ => Err (Expected (b!"bool"))
  end.

#[export] Instance bool_decode : Decode bool := {
  decode := decode_bool;
  decode_from := fun D _ => default_decode_from decode_bool;
}.
#[export] Instance bool_valid : Valid bool := fun _ => True.

(** [f as i64] and [f as u64]: towards zero, saturating, NaN to zero. *)
Definition float_as_int (lo hi : Z) (f : F64.t) : Z :=
  match f with
  | S754_nan => 0
  | S754_zero _ => 0
  | S754_infinity neg => if neg then lo else hi
  | S754_finite neg m e =>
      let n := if 0 <=? e then Z.pos m * 2 ^ e else Z.pos m / 2 ^ (- e) in
      Z.max lo (Z.min hi (if neg then - n else n))
  end.

Inductive SignedTy := I8 | I16 | I32 | I64 | Isize.
Inductive UnsignedTy := U8 | U16 | U32 | U64 | Usize.

(** [stringify!($t)] *)
Definition signed_name (t : SignedTy) : bytes :=
  match t with I8 => b!"i8" | I16 => b!"i16" | I32 => b!"i32" | I64 => b!"i64" | Isize => b!"isize" end.
Definition unsigned_name (t : UnsignedTy) : bytes :=
  match t with U8 => b!"u8" | U16 => b!"u16" | U32 => b!"u32" | U64 => b!"u64" | Usize => b!"usize" end.

(** Widths in bits, on a 64-bit target. *)
Definition signed_bits (t : SignedTy) : Z := match t with I8 => 8 | I16 => 16 | I32 => 32 | I64 | Isize => 64 end.
Definition unsigned_bits (t : UnsignedTy) : Z := match t with U8 => 8 | U16 => 16 | U32 => 32 | U64 | Usize => 64 end.

Definition signed_fits (t : SignedTy) (z : Z) : bool :=
  (- 2 ^ (signed_bits t - 1) <=? z) && (z <? 2 ^ (signed_bits t - 1)).
Definition unsigned_fits (t : UnsignedTy) (z : Z) : bool := (0 <=? z) && (z <? 2 ^ unsigned_bits t).

Record Signed (t : SignedTy) := mkSigned { signed : Z }.
Record Unsigned (t : UnsignedTy) := mkUnsigned { unsigned : Z }.
Arguments mkSigned {t}. Arguments signed {t}.
Arguments mkUnsigned {t}. Arguments unsigned {t}.

#[export] Instance signed_valid t : Valid (Signed t) := fun x => signed_fits t (signed x) = true.
#[export] Instance unsigned_valid t : Valid (Unsigned t) := fun x => unsigned_fits t (unsigned x) = true.

#[export] Instance signed_encode t : Encode (Signed t) := {
  encode := fun x => Value.Int (signed x);
  encode_to := fun E _ x e => encode_i64 (signed x) e;
}.

Definition decode_signed (t : SignedTy) (value : Value) : Result (Signed t) CodecError :=
  let? n := match value with
    | Value.Int i => Ok i
    | Value.UInt u => if u <=? i64_max then Ok u else Err (OutOfRange (signed_name t))
    | Value.Float f => Ok (float_as_int i64_min i64_max f)
    | Value.Str s => ok_or (parse_i64 (trim s)) (Expected (b!"integer"))
    | _ => Err (Expected (b!"integer"))
    end in
  if signed_fits t n then Ok (mkSigned n) else Err (OutOfRange (signed_name t)).

#[export] Instance signed_decode t : Decode (Signed t) := {
  decode := decode_signed t;
  decode_from := fun D _ => default_decode_from (decode_signed t);
}.

#[export] Instance unsigned_encode t : Encode (Unsigned t) := {
  encode := fun x => Value.UInt (unsigned x);
  encode_to := fun E _ x e => encode_u64 (unsigned x) e;
}.

Definition decode_unsigned (t : UnsignedTy) (value : Value) : Result (Unsigned t) CodecError :=
  let mismatch := Err (Expected (b!"unsigned integer")) in
  let? n := match value with
    | Value.UInt u => Ok u
    | Value.Int i => if 0 <=? i then Ok i else mismatch
    | Value.Float f => if F64.leb (S754_zero false) f then Ok (float_as_int 0 u64_max f) else mismatch
    | Value.Str s => ok_or (parse_u64 (trim s)) (Expected (b!"unsigned integer"))
    | _ => mismatch
    end in
  if unsigned_fits t n then Ok (mkUnsigned n) else Err (OutOfRange (unsigned_name t)).

#[export] Instance unsigned_decode t : Decode (Unsigned t) := {
  decode := decode_unsigned t;
  decode_from := fun D _ => default_decode_from (decode_unsigned t);
}.

Inductive FloatTy := F32T | F64T.
Record Float (t : FloatTy) := mkFloat { float : spec_float }.
Arguments mkFloat {t}. Arguments float {t}.

(** [x as f64] and, from a binary64 or an integer, [x as $t]. *)
Definition widen (t : FloatTy) (f : spec_float) : F64.t := match t with F32T => F32.to_f64 f | F64T => f end.
Definition narrow (t : FloatTy) (f : F64.t) : spec_float := match t with F32T => F32.of_f64 f | F64T => f end.
Definition of_int (t : FloatTy) (z : Z) : spec_float :=
  match t with F32T => binary_normalize F32.prec F32.emax z 0 false | F64T => F64.of_Z z end.

(** A value of the type is what rounding to the type gives. *)
#[export] Instance float_valid t : Valid (Float t) := fun x => narrow t (widen t (float x)) = float x.

#[export] Instance float_encode t : Encode (Float t) := {
  encode := fun x => Value.Float (widen t (float x));
  encode_to := fun E _ x e => encode_f64 (widen t (float x)) e;
}.

Definition decode_float (t : FloatTy) (value : Value) : Result (Float t) CodecError :=
  match value with
  | Value.Float f => Ok (mkFloat (narrow t f))
  | Value.Int i => Ok (mkFloat (of_int t i))
  | Value.UInt u => Ok (mkFloat (of_int t u))
  | Value.Str s =>
      match F64.parse (trim s) with
      | Some v => Ok (mkFloat (narrow t v))
      | None => Err (Expected (b!"number"))
      end
  | _ => Err (Expected (b!"number"))
  end.

#[export] Instance float_decode t : Decode (Float t) := {
  decode := decode_float t;
  decode_from := fun D _ => default_decode_from (decode_float t);
}.

(** [String]; [str] and [&str] are encoded alike. *)
#[export] Instance string_encode : Encode bytes := {
  encode := Value.Str;
  encode_to := fun E _ s e => encode_str s e;
}.

Definition decode_str (value : Value) : Result bytes CodecError :=
  ok_or (Value.as_str value) (Expected (b!"string")).

#[export] Instance string_decode : Decode bytes := {
  decode := decode_str;
  decode_from := fun D _ d => decode_string d;
}.
#[export] Instance string_valid : Valid bytes := fun s => Utf8.is_utf8 s = true.

(** [char]: a string of one scalar value. *)
Record Char := mkChar { scalar : Z }.

#[export] Instance char_encode : Encode Char := {
  encode := fun c => Value.Str (Utf8.encode_char (scalar c));
  encode_to := fun E _ c e => encode_str (Utf8.encode_char (scalar c)) e;
}.

(** The scalar value of one UTF-8 sequence, the [next] of [Chars]. *)
Definition sequence_scalar (q : bytes) : Z :=
  match q with
  | [a] => b2z a
  | [a; b] => (b2z a - 0xC0) * 64 + (b2z b - 0x80)
  | [a; b; c] => (b2z a - 0xE0) * 4096 + (b2z b - 0x80) * 64 + (b2z c - 0x80)
  | [a; b; c; d] => (b2z a - 0xF0) * 262144 + (b2z b - 0x80) * 4096 + (b2z c - 0x80) * 64 + (b2z d - 0x80)
  | _ => 0
  end.

Definition decode_char (value : Value) : Result Char CodecError :=
  let one := s ← Value.as_str value;
    match Utf8.seqs s with
    | [(_, q)] => Some (mkChar (sequence_scalar q))
    | _ => None
    end in
  ok_or one (Expected (b!"single-character string")).

#[export] Instance char_decode : Decode Char := {
  decode := decode_char;
  decode_from := fun D _ => default_decode_from decode_char;
}.
#[export] Instance char_valid : Valid Char := fun c => Utf8.is_scalar (scalar c) = true.

(** ** Containers *)

Section Containers.
Context {T : Type} `{Encode T, Decode T, Valid T}.

#[export] Instance option_encode : Encode (option T) := {
  encode := fun o => match o with Some v => encode v | None => Value.Null end;
  encode_to := fun E _ o e => match o with Some v => encode_to v e | None => encode_null e end;
}.

Definition decode_option (value : Value) : Result (option T) CodecError :=
  match value with
  | Value.Null => Ok None
  | other => let? v := decode other in Ok (Some v)
  end.

Definition option_decode_from {D} `{Decoder D} (d : D) : option (Result (option T * D) CodecError) :=
  let '(null, d) := peek_null d in
  if null then
    let! d := Some (decode_null d) in Some (Ok (None, d))
  else
    let! (v, d) := decode_from d in Some (Ok (Some v, d)).

#[export] Instance option_decode : Decode (option T) := {
  decode := decode_option;
  decode_from := fun D _ => option_decode_from;
}.
#[export] Instance option_valid : Valid (option T) := fun o => match o with Some v => valid v | None => True end.

#[export] Instance vec_encode : Encode (list T) := {
  encode := fun l => Value.Array (map encode l);
  encode_to := fun E _ l e =>
    end_seq (foldl (fun e v => seq_entry (encode_to v) e) (begin_seq (length l) e) l);
}.

Definition decode_vec (value : Value) : Result (list T) CodecError :=
  match value with
  | Value.Null => Ok []
  | Value.Array a => traverse decode a
  | other => let? v := decode other in Ok [v]
  end.

Definition vec_decode_from {D} `{Decoder D} (d : D) : option (Result (list T * D) CodecError) :=
  read_seq (fun out d =>
    let! (v, d) := decode_from d in
    Some (Ok (out ++ [v], d))) [] d.

#[export] Instance vec_decode : Decode (list T) := {
  decode := decode_vec;
  decode_from := fun D _ => vec_decode_from;
}.
#[export] Instance vec_valid : Valid (list T) := Forall valid.

End Containers.

(** [HashMap<String, V>] is a finite map with some order of iteration. *)
Class HashOrder := {
  hash_iter : forall {V}, gmap bytes V -> list (bytes * V);
  hash_iter_perm : forall {V} (m : gmap bytes V), hash_iter m ≡ₚ map_to_list m;
}.

Section HashMap.
Context {O : HashOrder} {V : Type} `{Encode V, Decode V, Valid V}.

#[export] Instance map_encode : Encode (gmap bytes V) := {
  encode := fun m => Value.Object (map (fun kv => (fst kv, encode (snd kv))) (hash_iter m));
  encode_to := fun E _ m e =>
    end_map (foldl (fun e kv => map_entry (fst kv) (encode_to (snd kv)) e) (begin_map (size m) e) (hash_iter m));
}.

(** Collecting into a map inserts the entries in order. *)
Definition collect_map (l : list (bytes * V)) : gmap bytes V := foldl (fun m kv => <[fst kv := snd kv]> m) ∅ l.

Definition decode_map (value : Value) : Result (gmap bytes V) CodecError :=
  let? obj := ok_or (Value.as_object value) (Expected (b!"object")) in
  let? l := traverse (fun kv => let? v := decode (snd kv) in Ok (fst kv, v)) obj in
  Ok (collect_map l).

Definition map_decode_from {D} `{Decoder D} (d : D) : option (Result (gmap bytes V * D) CodecError) :=
  read_map (fun (out : gmap bytes V) key d =>
    let! (v, d) := decode_from d in
    Some (Ok (<[key := v]> out, d))) ∅ d.

#[export] Instance map_decode : Decode (gmap bytes V) := {
  decode := decode_map;
  decode_from := fun D _ => map_decode_from;
}.
#[export] Instance map_valid : Valid (gmap bytes V) := fun m => map_Forall (fun k v => Utf8.is_utf8 k = true /\ valid v) m.

End HashMap.

#[export] Instance unit_encode : Encode () := {
  encode := fun _ => Value.Null;
  encode_to := fun E _ _ e => encode_null e;
}.
#[export] Instance unit_decode : Decode () := {
  decode := fun _ => Ok tt;
  decode_from := fun D _ => default_decode_from (fun _ => Ok tt);
}.
#[export] Instance unit_valid : Valid () := fun _ => True.

#[export] Instance value_encode : Encode Value := {
  encode := fun v => v;
  encode_to := fun E _ v e => emit_value v e;
}.
#[export] Instance value_decode : Decode Value := {
  decode := Ok;
  decode_from := fun D _ => default_decode_from Ok;
}.

(** ** Both encoders write the same

    An output format may not look at the length of a map: a derived [encode_to]
    announces every field, and leaves out those that are skipped. *)
Class EncoderLaws (E : Type) `{Encoder E} := {
  #[global] seq_entry_proper :: Proper (pointwise_relation E (=) ==> (=) ==> (=)) (@seq_entry E _);
  #[global] map_entry_proper :: Proper ((=) ==> pointwise_relation E (=) ==> (=) ==> (=)) (@map_entry E _);
  begin_map_length : forall n m (e : E), begin_map n e = begin_map m e;
}.

Class Streams (T : Type) `{Encode T} :=
  encode_to_emits : forall {E} `{EncoderLaws E} (x : T) (e : E), encode_to x e = emit_value (encode x) e.

#[export] Instance bool_streams : Streams bool.
Proof. by intros E ? ? x e. Qed.
#[export] Instance signed_streams t : Streams (Signed t).
Proof. by intros E ? ? x e. Qed.
#[export] Instance unsigned_streams t : Streams (Unsigned t).
Proof. by intros E ? ? x e. Qed.
#[export] Instance float_streams t : Streams (Float t).
Proof. by intros E ? ? x e. Qed.
#[export] Instance string_streams : Streams bytes.
Proof. by intros E ? ? x e. Qed.
#[export] Instance char_streams : Streams Char.
Proof. by intros E ? ? x e. Qed.
#[export] Instance unit_streams : Streams ().
Proof. by intros E ? ? x e. Qed.
#[export] Instance value_streams : Streams Value.
Proof. by intros E ? ? x e. Qed.

#[export] Instance option_streams {T} `{Encode T, !Streams T} : Streams (option T).
Proof. intros E ? ? [x|] e; [apply (encode_to_emits (T := T))|done]. Qed.

(** Entries written by the children's own [encode_to] are those of the trees. *)
Lemma entries_streams {T} `{Encode T, !Streams T} {E} `{EncoderLaws E} (l : list (bytes * T)) : forall e,
  foldl (fun e kv => map_entry (fst kv) (encode_to (snd kv)) e) e l =
  foldl (fun e kv => map_entry (fst kv) (emit_value (snd kv)) e) e (map (fun kv => (fst kv, encode (snd kv))) l).
Proof.
  induction l as [|[k x] l IH]; intros e; [done|]. cbn [foldl map fst snd]. rewrite IH. f_equal.
  apply map_entry_proper; [done| |done]. intros e'. apply encode_to_emits.
Qed.

#[export] Instance vec_streams {T} `{Encode T, !Streams T} : Streams (list T).
Proof.
  intros E ? ? l e. cbn [encode_to encode vec_encode emit_value]. rewrite length_map. f_equal.
  generalize (begin_seq (length l) e) as e0. induction l as [|x l IH]; intros e0; [done|]. cbn [foldl map].
  rewrite IH. f_equal. apply seq_entry_proper; [|done]. intros e'. apply encode_to_emits.
Qed.

#[export] Instance map_streams `{HashOrder} {V} `{Encode V, !Streams V} : Streams (gmap bytes V).
Proof.
  intros E ? ? m e. cbn [encode_to encode map_encode emit_value]. f_equal.
  rewrite entries_streams. f_equal. apply begin_map_length.
Qed.

(** ** What is decoded is a value of the type *)

Class WellTyped (T : Type) `{Decode T, Valid T} :=
  decode_valid : forall v (x : T), decode v = Ok x -> utf8_strings v = true -> valid x.

Lemma traverse_Ok {A B E} (f : A -> Result B E) l ys : traverse f l = Ok ys <-> Forall2 (fun x y => f x = Ok y) l ys.
Proof.
  split.
  - revert ys. induction l as [|x l IH]; intros ys; cbn [traverse]; [intros [= <-]; constructor|].
    destruct (f x) as [y|] eqn:Ef; [|done]. cbn [rbind]. destruct (traverse f l) as [zs|]; [|done]. cbn [rbind].
    intros [= <-]. constructor; [done|by apply IH].
  - induction 1 as [|x y l ys Hf _ IH]; [done|]. cbn [traverse]. by rewrite Hf, IH.
Qed.

#[export] Instance bool_well_typed : WellTyped bool.
Proof. by intros v x. Qed.
#[export] Instance unit_well_typed : WellTyped ().
Proof. by intros v x. Qed.
#[export] Instance f64_well_typed : WellTyped (Float F64T).
Proof. by intros v x. Qed.

#[export] Instance signed_well_typed t : WellTyped (Signed t).
Proof.
  intros v x. cbn [decode signed_decode]. unfold decode_signed. destruct (match v with Value.Null => _ | _ => _ end); [|done].
  cbn [rbind]. destruct (signed_fits t v0) eqn:E; [|done]. by intros [= <-].
Qed.

#[export] Instance unsigned_well_typed t : WellTyped (Unsigned t).
Proof.
  intros v x. cbn [decode unsigned_decode]. unfold decode_unsigned. destruct (match v with Value.Null => _ | _ => _ end); [|done].
  cbn [rbind]. destruct (unsigned_fits t v0) eqn:E; [|done]. by intros [= <-].
Qed.

#[export] Instance string_well_typed : WellTyped bytes.
Proof. intros v x. destruct v; try done. cbn. by intros [= ->]. Qed.

(** The scalar value of a well-formed sequence. *)
Lemma next_seq_scalar b s n :
  Utf8.next_seq b s = inl n -> Utf8.is_scalar (sequence_scalar (take n (b :: s))) = true.
Proof.
  unfold Utf8.next_seq, Utf8.lead_info, Utf8.in_range, Utf8.is_scalar. intros H. pose proof (b2z_range b).
  rewrite orb_true_iff, !andb_true_iff, !Z.leb_le, !Z.ltb_lt.
  destruct (b2z b <? 128) eqn:Eb; [injection H as <-; cbn [take]; rewrite take_0; cbn [sequence_scalar]; zbool; lia|].
  destruct s as [|b1 [|b2 [|b3 s]]];
    repeat (split_if_in H; try done); simplify_eq; rewrite ?negb_false_iff in *; zbool; cbn [take]; rewrite ?take_0; cbn [sequence_scalar]; lia.
Qed.

#[export] Instance char_well_typed : WellTyped Char.
Proof.
  intros v x. destruct v as [| | | | |s| | |]; try done. cbn [decode char_decode utf8_strings]. unfold decode_char. cbn [Value.as_str mbind option_bind].
  destruct s as [|b s]; [done|]. intros Hd Hu. destruct (is_utf8_next b s Hu) as [n Hn]. revert Hd.
  unfold Utf8.seqs. cbn [length Utf8.sequences]. rewrite Hn. destruct (Utf8.sequences _ _); [|done].
  intros [= <-]. by eapply next_seq_scalar.
Qed.

#[export] Instance option_well_typed {T} `{Decode T, Valid T, !WellTyped T} : WellTyped (option T).
Proof.
  intros v x. cbn [decode option_decode]. intros Hd Hu. destruct x as [x|]; [|done]. cbn [valid option_valid].
  assert (decode v = Ok x) as E.
  { destruct v; [done|..]; cbn [decode_option] in Hd; destruct (decode _); try done; by simplify_eq/=. }
  by eapply decode_valid.
Qed.

#[export] Instance vec_well_typed {T} `{Decode T, Valid T, !WellTyped T} : WellTyped (list T).
Proof.
  intros v l. cbn [decode vec_decode]. intros Hd Hu. change (Forall valid l).
  assert (forall v, utf8_strings v = true -> (let? x := decode v in Ok [x]) = Ok l -> Forall valid l) as Hone.
  { intros v' Hv' E. destruct (decode v') as [x|] eqn:Ex; [|done]. cbn [rbind] in E. simplify_eq.
    constructor; [by eapply decode_valid|constructor]. }
  destruct v; try (by eapply Hone); cbn [decode_vec] in Hd; [simplify_eq; constructor|].
  clear Hone. apply traverse_Ok in Hd. cbn [utf8_strings] in Hu. induction Hd as [|x y a l Hf _ IH]; [constructor|].
  cbn [forallb] in Hu. apply andb_true_iff in Hu as [Hx Ha]. constructor; [by eapply decode_valid|by apply IH].
Qed.

Lemma collect_map_snoc {V} (l : list (bytes * V)) k v : collect_map (l ++ [(k, v)]) = <[k := v]> (collect_map l).
Proof. unfold collect_map. by rewrite foldl_app. Qed.

Lemma collect_map_lookup {V} (l : list (bytes * V)) k v :
  NoDup (map fst l) -> collect_map l !! k = Some v <-> (k, v) ∈ l.
Proof.
  induction l as [|[k' v'] l IH] using rev_ind; intros Hn; [set_solver|]. rewrite collect_map_snoc.
  rewrite map_app in Hn. apply NoDup_app in Hn as (Hn & Hd & _). rewrite elem_of_app, list_elem_of_singleton.
  destruct (decide (k' = k)) as [->|Hne].
  - rewrite lookup_insert_eq. split; [intros [= ->]; by right|]. intros [Hl|[= ->]]; [|done].
    exfalso. apply (Hd k); [|set_solver]. apply list_elem_of_fmap. by exists (k, v).
  - rewrite lookup_insert_ne, IH by done. naive_solver.
Qed.

#[export] Instance map_well_typed {V} `{Decode V, Valid V, !WellTyped V} : WellTyped (gmap bytes V).
Proof.
  intros v m. cbn [decode map_decode]. unfold decode_map. destruct v as [| | | | | | | |o]; try done. cbn [Value.as_object ok_or rbind].
  intros Hd Hu. destruct (traverse _ o) as [l|] eqn:El; [|done]. cbn [rbind] in Hd. simplify_eq.
  apply traverse_Ok in El. cbn [utf8_strings] in Hu. rewrite forallb_forall in Hu.
  assert (Forall (fun kv => Utf8.is_utf8 (fst kv) = true /\ valid (snd kv)) l) as Hl.
  { apply Forall_forall. intros kv [i Hi]%list_elem_of_lookup. destruct (Forall2_lookup_r _ _ _ _ _ El Hi) as ([k v] & Hv & E).
    cbn [fst snd] in E. destruct (decode v) as [x|] eqn:Ex; [|done]. cbn [rbind] in E. simplify_eq.
    apply list_elem_of_lookup_2, list_elem_of_In in Hv. specialize (Hu _ Hv). cbn [fst snd] in *.
    apply andb_true_iff in Hu as [Hk Hx]. split; [done|by eapply decode_valid]. }
  clear El Hu. induction l as [|[k v] l IH] using rev_ind; [apply map_Forall_empty|]. rewrite collect_map_snoc.
  apply Forall_app in Hl as [Hl Hv]. apply map_Forall_insert_2; [by inversion Hv|by apply IH].
Qed.

(** ** What a format may give back for a tree

    [image loose v w]: the decoders take [w] for [v].  Integers may come back with
    the other sign tag, numbers and booleans as their text, null entries of an
    object may be gone and the others reordered.  A [loose] format, one without
    array syntax, gives an empty array as null and an array of one item as that
    item. *)
Definition is_array (v : Value) : bool := match v with Value.Array _ => true | _ => false end.

Inductive image (loose : bool) : Value -> Value -> Prop :=
| image_null : image loose Value.Null Value.Null
| image_bool b : image loose (Value.Bool b) (Value.Bool b)
| image_bool_text (b : bool) s :
    trim s = (if b then b!"true" else b!"false") -> image loose (Value.Bool b) (Value.Str s)
| image_int i : image loose (Value.Int i) (Value.Int i)
| image_int_text i s : parse_i64 (trim s) = Some i -> image loose (Value.Int i) (Value.Str s)
| image_uint u : image loose (Value.UInt u) (Value.UInt u)
| image_uint_int u : 0 <= u -> image loose (Value.UInt u) (Value.Int u)
| image_uint_text u s : parse_u64 (trim s) = Some u -> image loose (Value.UInt u) (Value.Str s)
| image_float f : image loose (Value.Float f) (Value.Float f)
| image_float_int f i : (forall t, of_int t i = narrow t f) -> image loose (Value.Float f) (Value.Int i)
| image_float_uint f u : (forall t, of_int t u = narrow t f) -> image loose (Value.Float f) (Value.UInt u)
| image_float_text f s : F64.parse (trim s) = Some f -> image loose (Value.Float f) (Value.Str s)
| image_str s : image loose (Value.Str s) (Value.Str s)
| image_array a b : Forall2 (image loose) a b -> image loose (Value.Array a) (Value.Array b)
| image_empty : loose = true -> image loose (Value.Array []) Value.Null
| image_single v w :
    loose = true -> image loose v w -> is_array w = false -> w <> Value.Null -> image loose (Value.Array [v]) w
| image_object o o' :
    NoDup (map fst o') ->
    (forall k, k ∈ map fst o' -> k ∈ map fst o) ->
    (forall k v w, (k, v) ∈ o -> (k, w) ∈ o' -> image loose v w) ->
    (forall k v, (k, v) ∈ o -> k ∉ map fst o' -> v = Value.Null) ->
    image loose (Value.Object o) (Value.Object o').

(** A value is decoded from every image of its tree, and [Present] types have no
    null image. *)
Class Lossless (loose : bool) (T : Type) `{Encode T, Decode T, Valid T} :=
  decode_image : forall (x : T) w, valid x -> image loose (encode x) w -> decode w = Ok x.

Class Present (loose : bool) (T : Type) `{Encode T, Valid T} :=
  image_present : forall (x : T) w, valid x -> image loose (encode x) w -> w <> Value.Null.

(** The tree of a present value is not null itself. *)
Lemma present_not_null {loose T} `{Encode T, Valid T, !Present loose T} (x : T) : valid x -> encode x <> Value.Null.
Proof. intros Hv E. apply (image_present (loose := loose) x Value.Null); [done| |done]. rewrite E. constructor. Qed.

(** A scalar value is encoded as one sequence, which gives it back. *)
Lemma encode_char_seq c : Utf8.is_scalar c = true ->
  Utf8.seqs (Utf8.encode_char c) = [(true, Utf8.encode_char c)] /\ sequence_scalar (Utf8.encode_char c) = c.
Proof.
  unfold Utf8.is_scalar, Utf8.encode_char, Utf8.seqs. intros Hc.
  assert (forall b, Utf8.in_range b = fun lo hi => (lo <=? b2z b) && (b2z b <=? hi)) as Hr by done.
  destruct (c <? 128) eqn:E1; [|destruct (c <? 2048) eqn:E2; [|destruct (c <? 65536) eqn:E3]];
    cbn [length Utf8.sequences take drop sequence_scalar]; unfold Utf8.next_seq, Utf8.lead_info; rewrite ?Hr; cbv beta;
    rewrite !b2z_z2b by (Z.to_euclidean_division_equations; lia); (split; [|Z.to_euclidean_division_equations; lia]);
    repeat (first [split_if|done]; try (exfalso; Z.to_euclidean_division_equations; lia)).
Qed.

Section Laws.
Context {loose : bool}.

#[export] Instance bool_lossless : Lossless loose bool.
Proof.
  intros b w _ Hi. inversion Hi as [|?|? ? Hs| | | | | | | | | | | | | |]; subst; [done|]. cbn [decode bool_decode decode_bool].
  rewrite Hs. by destruct b.
Qed.
#[export] Instance bool_present : Present loose bool.
Proof. intros b w _ Hi. by inversion Hi. Qed.

#[export] Instance signed_lossless t : Lossless loose (Signed t).
Proof.
  intros [i] w Hv Hi. unfold valid, signed_valid in Hv. cbn [signed] in Hv.
  inversion Hi as [| | | |? ? Hs| | | | | | | | | | | |]; subst; cbn [decode signed_decode]; unfold decode_signed;
    rewrite ?Hs; cbn [ok_or rbind]; by rewrite Hv.
Qed.
#[export] Instance signed_present t : Present loose (Signed t).
Proof. intros x w _ Hi. by inversion Hi. Qed.

#[export] Instance unsigned_lossless t : Lossless loose (Unsigned t).
Proof.
  intros [u] w Hv Hi. unfold valid, unsigned_valid in Hv. cbn [unsigned] in Hv.
  inversion Hi as [| | | | | |? Hu|? ? Hs| | | | | | | | |]; subst; cbn [decode unsigned_decode]; unfold decode_unsigned;
    rewrite ?Hs, ?(proj2 (Z.leb_le _ _) Hu); cbn [ok_or rbind]; by rewrite Hv.
Qed.
#[export] Instance unsigned_present t : Present loose (Unsigned t).
Proof. intros x w _ Hi. by inversion Hi. Qed.

#[export] Instance float_lossless t : Lossless loose (Float t).
Proof.
  intros [f] w Hv Hi. unfold valid, float_valid in Hv. cbn [float] in Hv.
  inversion Hi as [| | | | | | | | |? ? Hn|? ? Hn|? ? Hs| | | | |]; subst; cbn [decode float_decode]; unfold decode_float;
    rewrite ?Hs, ?Hn; by rewrite Hv.
Qed.
#[export] Instance float_present t : Present loose (Float t).
Proof. intros x w _ Hi. by inversion Hi. Qed.

#[export] Instance string_lossless : Lossless loose bytes.
Proof. intros s w _ Hi. by inversion Hi. Qed.
#[export] Instance string_present : Present loose bytes.
Proof. intros x w _ Hi. by inversion Hi. Qed.

#[export] Instance char_lossless : Lossless loose Char.
Proof.
  intros [c] w Hv Hi. unfold valid, char_valid in Hv. cbn [scalar] in Hv. destruct (encode_char_seq c Hv) as [H1 H2].
  inversion Hi; subst. cbn [decode char_decode]. unfold decode_char. cbn [Value.as_str mbind option_bind]. cbn [scalar]. by rewrite H1, H2.
Qed.
#[export] Instance char_present : Present loose Char.
Proof. intros x w _ Hi. by inversion Hi. Qed.

#[export] Instance unit_lossless : Lossless loose ().
Proof. by intros [] w _ Hi. Qed.

#[export] Instance option_lossless {T} `{Encode T, Decode T, Valid T, !Lossless loose T, !Present loose T} :
  Lossless loose (option T).
Proof.
  intros [x|] w Hv Hi; cbn [encode option_encode] in Hi; [|by inversion Hi].
  pose proof (image_present x w Hv Hi) as Hw. pose proof (decode_image x w Hv Hi) as Hd.
  cbn [decode option_decode]. destruct w; [done|..]; cbn [decode_option]; by rewrite Hd.
Qed.

#[export] Instance vec_lossless {T} `{Encode T, Decode T, Valid T, !Lossless loose T} : Lossless loose (list T).
Proof.
  intros l w Hv Hi. change (Forall valid l) in Hv. cbn [encode vec_encode] in Hi. cbn [decode vec_decode].
  inversion Hi as [| | | | | | | | | | | | |a b Hab| |v w' _ Hx Ha Hn|]; subst.
  - cbn [decode_vec]. apply traverse_Ok. clear Hi. revert b Hab. induction Hv as [|x l Hx Hl IH]; intros b Hab.
    { inversion Hab. constructor. }
    inversion Hab; subst. constructor; [by apply decode_image|by apply IH].
  - by destruct l.
  - destruct l as [|x [|]]; try done. simplify_eq/=. inversion Hv; subst.
    destruct w; try done; cbn [decode_vec]; by rewrite (decode_image x).
Qed.

#[export] Instance map_lossless `{HashOrder} {V} `{Encode V, Decode V, Valid V, !Lossless loose V, !Present false V} :
  Lossless loose (gmap bytes V).
Proof.
  intros m w Hv Hi. cbn [encode map_encode] in Hi. cbn [decode map_decode].
  inversion Hi as [| | | | | | | | | | | | | | | |o o' Hn Hk Hw Hm]; subst. unfold decode_map. cbn [Value.as_object ok_or rbind].
  assert (forall k v, (k, v) ∈ hash_iter m <-> m !! k = Some v) as Hit.
  { intros k v. rewrite hash_iter_perm. by rewrite elem_of_map_to_list. }
  assert (forall k v, m !! k = Some v ->
    (k, encode v) ∈ map (fun kv : bytes * V => (fst kv, encode (snd kv))) (hash_iter m)) as Hin.
  { intros k v E. apply list_elem_of_fmap. exists (k, v). split; [done|by apply Hit]. }
  assert (exists l, Forall2 (fun kw kv => (let? v := decode (snd kw) in Ok (fst kw, v)) = Ok kv) o' l /\
                    map fst l = map fst o' /\ forall k v, (k, v) ∈ l -> m !! k = Some v) as (l & Hl & Hf & Hlm).
  { clear Hi Hn Hm. induction o' as [|[k w] o' IH]; [exists []; split_and!; [constructor|done|set_solver]|].
    destruct IH as (l & I1 & I2 & I3). { set_solver. } { set_solver. }
    assert (exists v, m !! k = Some v) as [v E].
    { assert (k ∈ map fst (map (fun kv : bytes * V => (fst kv, encode (snd kv))) (hash_iter m))) as Hkin by (apply Hk; set_solver).
      rewrite map_map in Hkin. apply list_elem_of_fmap in Hkin as ([k' v] & -> & Hkv). exists v. by apply Hit. }
    exists ((k, v) :: l). split_and!.
    - constructor; [|done]. cbn [fst snd]. rewrite (decode_image v w); [done|by apply (Hv k)|]. apply (Hw k); [by apply Hin|set_solver].
    - cbn [map fst]. by rewrite I2.
    - intros k' v' [[= -> ->]|Hl]%elem_of_cons; [done|by apply I3]. }
  rewrite (proj2 (traverse_Ok _ _ _) Hl). cbn [rbind]. f_equal. apply map_eq. intros k.
  apply option_eq. intros v. rewrite collect_map_lookup by (by rewrite Hf). split; [apply Hlm|].
  intros E. destruct (decide (k ∈ map fst l)) as [Hkl|Hkl].
  - apply list_elem_of_fmap in Hkl as ([k' v'] & -> & Hkv). cbn [fst] in *. rewrite (Hlm k' v' Hkv) in E. by simplify_eq.
  - exfalso. apply (present_not_null (loose := false) v); [by apply (Hv k)|]. apply (Hm k); [by apply Hin|by rewrite <- Hf].
Qed.
#[export] Instance map_present `{HashOrder} {V} `{Encode V, Valid V} : Present loose (gmap bytes V).
Proof. intros x w _ Hi. by inversion Hi. Qed.

End Laws.

#[export] Instance vec_present {T} `{Encode T, Valid T} : Present false (list T).
Proof. intros l w _ Hi. by inversion Hi. Qed.

End Traits.
