(* ===== verification/Convert.v ===== *)
(** * Conversions into [Value] ([codec/value.rs]: the [From] impls)

    [value.into()] for the types the library converts, as a class with one instance per [From] impl, and boxed
    values.  [Converts] states that a conversion gives the tree the type's [Encode] gives, so that what [Decode]
    promises of encoded values holds of converted ones. *)

From S2P Require Import Prelude Text Value Traits.
Import Traits.

Open Scope Z_scope.

Module Convert.

(** ** The conversions *)

Class IntoValue (T : Type) := into : T -> Value.

(** [v as i64] and [v as u64] on machine integers: the low 64 bits, read with and without a sign. *)
Definition as_u64 (z : Z) : Z := wrap64 z.
Definition as_i64 (z : Z) : Z := let u := wrap64 z in if u <=? i64_max then u else u - 18446744073709551616.

#[export] Instance signed_into t : IntoValue (Signed t) := fun v => Value.Int (as_i64 (signed v)).
#[export] Instance unsigned_into t : IntoValue (Unsigned t) := fun v => Value.UInt (as_u64 (unsigned v)).
#[export] Instance f32_into : IntoValue (Float F32T) := fun v => Value.Float (F32.to_f64 (float v)).
#[export] Instance f64_into : IntoValue (Float F64T) := fun v => Value.Float (float v).
#[export] Instance bool_into : IntoValue bool := Value.Bool.
(** [String] and [&str] *)
#[export] Instance string_into : IntoValue bytes := Value.Str.
#[export] Instance vec_into : IntoValue (list Value) := Value.Array.
#[export] Instance option_into {T} `{IntoValue T} : IntoValue (option T) :=
  fun v => match v with Some x => into x | None => Value.Null end.
(** [Value] itself: [From] is reflexive. *)
#[export] Instance value_into : IntoValue Value := fun v => v.

(** ** [Box<T>]: both traits go through the pointer *)

Record Box (T : Type) := mkBox { unbox : T }.
Arguments mkBox {T}. Arguments unbox {T}.

#[export] Instance box_encode {T} `{Encode T} : Encode (Box T) := {
  encode := fun b => encode (unbox b);
  encode_to := fun E _ b e => encode_to (unbox b) e;
}.

Definition box_decode_from {T} `{Decode T} {D} `{Decoder D} (d : D) : option (Result (Box T * D) CodecError) :=
  let! (v, d) := decode_from d in
  Some (Ok (mkBox v, d)).

#[export] Instance box_decode {T} `{Decode T} : Decode (Box T) := {
  decode := fun value => let? v := decode value in Ok (mkBox v);
  decode_from := fun D _ => box_decode_from;
}.
#[export] Instance box_valid {T} `{Valid T} : Valid (Box T) := fun b => valid (unbox b).

(** ** Conversion is encoding *)

Class Converts (T : Type) `{IntoValue T, Encode T, Valid T} :=
  into_encode : forall x : T, valid x -> into x = encode x.

Lemma as_i64_fits t z : signed_fits t z = true -> as_i64 z = z.
Proof.
  unfold signed_fits, as_i64, wrap64, i64_max. intros H.
  assert (- 9223372036854775808 <= z < 9223372036854775808) as Hz by (destruct t; cbn in H; lia).
  destruct (Z.leb_spec (z mod 18446744073709551616) 9223372036854775807); Z.to_euclidean_division_equations; lia.
Qed.

Lemma as_u64_fits t z : unsigned_fits t z = true -> as_u64 z = z.
Proof.
  unfold unsigned_fits, as_u64, wrap64. intros H. apply Z.mod_small. destruct t; cbn in H; lia.
Qed.

#[export] Instance signed_converts t : Converts (Signed t).
Proof. intros x Hx. unfold into, signed_into. cbn [encode signed_encode]. by rewrite (as_i64_fits t) by exact Hx. Qed.
#[export] Instance unsigned_converts t : Converts (Unsigned t).
Proof. intros x Hx. unfold into, unsigned_into. cbn [encode unsigned_encode]. by rewrite (as_u64_fits t) by exact Hx. Qed.
#[export] Instance f32_converts : Converts (Float F32T).
Proof. by intros x _. Qed.
#[export] Instance f64_converts : Converts (Float F64T).
Proof. by intros x _. Qed.
#[export] Instance bool_converts : Converts bool.
Proof. by intros x _. Qed.
#[export] Instance string_converts : Converts bytes.
Proof. by intros x _. Qed.
#[export] Instance option_converts {T} `{Converts T} : Converts (option T).
Proof. intros [x|] Hx; [by apply (into_encode x)|done]. Qed.

(** A vector of values. *)
Lemma vec_into_encode (l : list Value) : into l = encode l.
Proof. unfold into, vec_into. cbn [encode vec_encode]. f_equal. symmetry. apply map_id. Qed.

#[export] Instance box_streams {T} `{Encode T, !Streams T} : Streams (Box T).
Proof. intros E ? ? [x] e. cbn [encode encode_to box_encode unbox]. apply encode_to_emits. Qed.
#[export] Instance box_well_typed {T} `{Decode T, Valid T, !WellTyped T} : WellTyped (Box T).
Proof.
  intros v [x]. cbn [decode box_decode]. destruct (decode v) as [y|] eqn:E; [|done]. intros [= ->] Hu. unfold valid, box_valid. cbn [unbox]. by apply (decode_valid v).
Qed.
#[export] Instance box_lossless {loose T} `{Encode T, Decode T, Valid T, !Lossless loose T} : Lossless loose (Box T).
Proof. intros [x] w Hv Hi. cbn [decode box_decode]. by rewrite (decode_image (loose := loose) x w Hv Hi). Qed.
#[export] Instance box_present {loose T} `{Encode T, Valid T, !Present loose T} : Present loose (Box T).
Proof. intros [x] w Hv Hi. apply (image_present (T := T) (loose := loose) x w Hv Hi). Qed.

(** A tree without objects is an image of itself. *)
Fixpoint plain (v : Value) : bool :=
  match v with
  | Value.Array a => forallb plain a
  | Value.Object _ | Value.Bytes _ => false
  | _ => true
  end.

Lemma plain_image loose v : plain v = true -> image loose v v.
Proof.
  induction v as [| | | | | | |a IH|] using value_ind'; intros Hp; try done; try constructor.
  cbn [plain] in Hp. rewrite forallb_forall in Hp. apply Forall_Forall2_diag.
  rewrite Forall_forall in IH |- *. intros x Hx. apply IH; [done|]. by apply Hp, list_elem_of_In.
Qed.

(** Converted values decode as themselves. *)
Lemma decode_into {T} `{Converts T, !Decode T, !Lossless false T} (x : T) :
  valid x -> plain (into x) = true -> decode (into x) = Ok x.
Proof.
  intros Hx Hp. apply (decode_image (loose := false)); [done|]. rewrite <- into_encode by done. by apply plain_image.
Qed.

(** Converting is encoding: [Value::from] of a machine integer of any width, a float, a boolean, a string, an
    optional one of these or a vector of values is the tree their [Encode] gives, the casts to 64 bits keeping the
    number; and [Decode] takes a converted scalar back to the value, in a box as well. *)
Theorem conversions_encode {T} `{Converts T, !Decode T, !Lossless false T} (x : T) (l : list Value) :
  valid x -> plain (into x) = true ->
  into x = encode x /\ into l = encode l /\ decode (into x) = Ok x /\ decode (into x) = Ok (mkBox x).
Proof.
  intros Hx Hp. pose proof (decode_into x Hx Hp) as Hd. split_and!; [by apply into_encode|apply vec_into_encode|done|].
  cbn [decode box_decode]. by rewrite Hd.
Qed.

Lemma conversions_encode_witness :
  decode (into (mkSigned (t := I8) (-128))) = Ok (mkSigned (t := I8) (-128)) /\
  decode (into (Some (mkUnsigned (t := Usize) 18446744073709551615))) = Ok (Some (mkUnsigned (t := Usize) 18446744073709551615)).
Proof.
  split; [apply (conversions_encode (mkSigned (t := I8) (-128)) [])|
          apply (conversions_encode (Some (mkUnsigned (t := Usize) 18446744073709551615)) [])]; reflexivity.
Defined.

End Convert.
