(* ===== verification/Derive.v ===== *)
(** * The code that [#[derive(Encode, Decode)]] writes ([ferroly-derive/src/ser.rs], [de.rs])

    A derived implementation is determined by the plan the macro computes: per
    field its wire key, its type, whether the type is spelled [Option<_>] and
    whether it carries [skip_none]; per unit variant its wire key.  [Struct]
    and [Enum] are the types with such a plan and their instances are the code
    the macro emits for it: entries pushed in the order of the fields, and one
    slot per field filled in a single pass over the entries. *)

From S2P Require Import Prelude Text Scan Value Traits.
Import Traits.

Open Scope Z_scope.

Module Derive.

(** ** Structs with named fields *)

Inductive Field : Type :=
| Plain (key : bytes) (T : Type) (enc : Encode T) (dec : Decode T) (val : Valid T)
| Optional (key : bytes) (skip_none : bool) (U : Type) (enc : Encode U) (dec : Decode U) (val : Valid U).

Definition key (f : Field) : bytes := match f with Plain k _ _ _ _ | Optional k _ _ _ _ _ => k end.

Definition fty (f : Field) : Type := match f with Plain _ T _ _ _ => T | Optional _ _ U _ _ _ => option U end.

#[export] Instance field_encode f : Encode (fty f) :=
  match f with Plain _ _ enc _ _ => enc | Optional _ _ _ enc _ _ => option_encode end.
#[export] Instance field_decode f : Decode (fty f) :=
  match f with Plain _ _ _ dec _ => dec | Optional _ _ _ _ dec _ => option_decode end.
#[export] Instance field_valid f : Valid (fty f) :=
  match f with Plain _ _ _ _ val => val | Optional _ _ _ _ _ val => option_valid end.

Fixpoint Struct (fs : list Field) : Type :=
  match fs with [] => unit | f :: fs => (fty f * Struct fs)%type end.

(** [__fields.push(..)], or nothing for a skipped [None]. *)
Definition push_field (f : Field) : fty f -> list (bytes * Value) :=
  match f return fty f -> list (bytes * Value) with
  | Plain k _ _ _ _ => fun x => [(k, encode x)]
  | Optional k skip_none _ _ _ _ => fun x =>
      if skip_none then match x with Some v => [(k, encode v)] | None => [] end
      else [(k, encode x)]
  end.

Fixpoint push_fields (fs : list Field) : Struct fs -> list (bytes * Value) :=
  match fs return Struct fs -> list (bytes * Value) with
  | [] => fun _ => []
  | f :: fs => fun s => push_field f (fst s) ++ push_fields fs (snd s)
  end.

Section Entries.
Context {E : Type} `{Encoder E}.

Definition stream_field (f : Field) : fty f -> E -> E :=
  match f return fty f -> E -> E with
  | Plain k _ _ _ _ => fun x e => map_entry k (encode_to x) e
  | Optional k skip_none _ _ _ _ => fun x e =>
      if skip_none then match x with Some v => map_entry k (encode_to v) e | None => e end
      else map_entry k (encode_to x) e
  end.

Fixpoint stream_fields (fs : list Field) : Struct fs -> E -> E :=
  match fs return Struct fs -> E -> E with
  | [] => fun _ e => e
  | f :: fs => fun s e => stream_fields fs (snd s) (stream_field f (fst s) e)
  end.
End Entries.

#[export] Instance struct_encode fs : Encode (Struct fs) := {
  encode := fun s => Value.Object (push_fields fs s);
  encode_to := fun E _ s e => end_map (stream_fields fs s (begin_map (length fs) e));
}.

(** One [Option<FieldTy>] slot per field. *)
Fixpoint Slots (fs : list Field) : Type :=
  match fs with [] => unit | f :: fs => (option (fty f) * Slots fs)%type end.

Fixpoint no_slots (fs : list Field) : Slots fs :=
  match fs return Slots fs with [] => tt | f :: fs => (None, no_slots fs) end.

(** The arms of the [match] on a key: the first field with the key takes the value. *)
Fixpoint value_arms (fs : list Field) (k : bytes) (v : Value) : Slots fs -> Result (Slots fs) CodecError :=
  match fs return Slots fs -> Result (Slots fs) CodecError with
  | [] => fun s => Ok s
  | f :: fs => fun s =>
      if bool_decide (key f = k) then let? x := decode v in Ok (Some x, snd s)
      else let? r := value_arms fs k v (snd s) in Ok (fst s, r)
  end.

Fixpoint from_arms {D} `{Decoder D} (fs : list Field) (k : bytes) (d : D)
  : Slots fs -> option (Result (Slots fs * D) CodecError) :=
  match fs return Slots fs -> option (Result (Slots fs * D) CodecError) with
  | [] => fun s => let! d := skip_value d in Some (Ok (s, d))
  | f :: fs => fun s =>
      if bool_decide (key f = k) then let! (x, d) := decode_from d in Some (Ok ((Some x, snd s), d))
      else let! (r, d) := from_arms fs k d (snd s) in Some (Ok ((fst s, r), d))
  end.

Fixpoint scan (fs : list Field) (obj : list (bytes * Value)) (s : Slots fs) : Result (Slots fs) CodecError :=
  match obj with
  | [] => Ok s
  | (k, v) :: obj => let? s := value_arms fs k v s in scan fs obj s
  end.

(** [slot.flatten()] for an [Option], otherwise the slot is required. *)
Definition build_field (f : Field) : option (fty f) -> Result (fty f) CodecError :=
  match f return option (fty f) -> Result (fty f) CodecError with
  | Plain k _ _ _ _ => fun slot => ok_or slot (MissingField k)
  | Optional _ _ _ _ _ _ => fun slot => Ok (default None slot)
  end.

Fixpoint build (fs : list Field) : Slots fs -> Result (Struct fs) CodecError :=
  match fs return Slots fs -> Result (Struct fs) CodecError with
  | [] => fun _ => Ok tt
  | f :: fs => fun s => let? x := build_field f (fst s) in let? r := build fs (snd s) in Ok (x, r)
  end.

Definition decode_struct (fs : list Field) (value : Value) : Result (Struct fs) CodecError :=
  let? obj := ok_or (Value.as_object value) (Expected (b!"object")) in
  let? s := scan fs obj (no_slots fs) in
  build fs s.

Definition struct_decode_from (fs : list Field) {D} `{Decoder D} (d : D) : option (Result (Struct fs * D) CodecError) :=
  let! (s, d) := read_map (fun s k d => from_arms fs k d s) (no_slots fs) d in
  let! x := Some (build fs s) in
  Some (Ok (x, d)).

#[export] Instance struct_decode fs : Decode (Struct fs) := {
  decode := decode_struct fs;
  decode_from := fun D _ => struct_decode_from fs;
}.

Fixpoint struct_ok (fs : list Field) : Struct fs -> Prop :=
  match fs return Struct fs -> Prop with
  | [] => fun _ => True
  | f :: fs => fun s => valid (fst s) /\ struct_ok fs (snd s)
  end.
#[export] Instance struct_valid fs : Valid (Struct fs) := struct_ok fs.

(** ** Enums of unit variants *)

Record Enum (keys : list bytes) := mkEnum { variant : nat }.
Arguments mkEnum {keys}. Arguments variant {keys}.

Definition variant_key {keys} (x : Enum keys) : bytes := default [] (keys !! variant x).

#[export] Instance enum_encode keys : Encode (Enum keys) := {
  encode := fun x => Value.Str (variant_key x);
  encode_to := fun E _ x e => encode_str (variant_key x) e;
}.

(** The arms of the [match] on the string. *)
Definition variant_arms (keys : list bytes) (s : bytes) : Result (Enum keys) CodecError :=
  match list_find (fun k => k = s) keys with
  | Some (i, _) => Ok (mkEnum i)
  | None => Err (UnknownVariant s)
  end.

Definition decode_enum (keys : list bytes) (value : Value) : Result (Enum keys) CodecError :=
  let? s := ok_or (Value.as_str value) (Expected (b!"string")) in
  variant_arms keys s.

Definition enum_decode_from (keys : list bytes) {D} `{Decoder D} (d : D) : option (Result (Enum keys * D) CodecError) :=
  let! (s, d) := decode_string d in
  let! x := Some (variant_arms keys s) in
  Some (Ok (x, d)).

#[export] Instance enum_decode keys : Decode (Enum keys) := {
  decode := decode_enum keys;
  decode_from := fun D _ => enum_decode_from keys;
}.
#[export] Instance enum_valid keys : Valid (Enum keys) := fun x => (variant x < length keys)%nat.

(** ** Both encoders write the same *)

Definition field_streams (f : Field) : Prop :=
  match f with Plain _ T _ _ _ => Streams T | Optional _ _ U _ _ _ => Streams U end.

#[export] Instance enum_streams keys : Streams (Enum keys).
Proof. by intros E ? ? x e. Qed.

Definition write_entry {E} `{Encoder E} (e : E) (kv : bytes * Value) : E := map_entry (fst kv) (emit_value (snd kv)) e.

Lemma stream_field_emits {E} `{EncoderLaws E} f (x : fty f) (e : E) :
  field_streams f -> stream_field f x e = foldl write_entry e (push_field f x).
Proof.
  assert (forall T (enc : Encode T) k (x : T), Streams T ->
    map_entry k (encode_to x) e = foldl write_entry e [(k, encode x)]) as Hone.
  { intros T enc k y Hs. cbn [foldl]. unfold write_entry. cbn [fst snd]. apply map_entry_proper; [done| |done].
    intros e'. apply encode_to_emits. }
  destruct f as [k T enc dec val|k [] U enc dec val]; cbn [field_streams stream_field push_field]; intros Hs.
  - by apply Hone.
  - destruct x as [v|]; [by apply Hone|done].
  - apply Hone. by apply option_streams.
Qed.

Class FieldsStream (fs : list Field) := fields_stream : Forall field_streams fs.

#[export] Instance struct_streams fs `{!FieldsStream fs} : Streams (Struct fs).
Proof.
  intros E ? ? s e. cbn [encode_to encode struct_encode emit_value]. f_equal.
  rewrite (begin_map_length (length (push_fields fs s)) (length fs)).
  assert (forall e, stream_fields fs s e = foldl write_entry e (push_fields fs s)) as Hgen; [|apply Hgen].
  clear e. pose proof fields_stream as Hs. clear FieldsStream0. induction Hs as [|f fs Hf _ IH]; intros e; [done|].
  cbn [stream_fields push_fields]. by rewrite foldl_app, <- stream_field_emits, IH.
Qed.

(** ** What is decoded is a value of the type *)

Definition field_well_typed (f : Field) : Prop :=
  match f with Plain _ T _ _ _ => WellTyped T | Optional _ _ U _ _ _ => WellTyped U end.

Class FieldsWellTyped (fs : list Field) := fields_well_typed : Forall field_well_typed fs.

Fixpoint slots_ok (fs : list Field) : Slots fs -> Prop :=
  match fs return Slots fs -> Prop with
  | [] => fun _ => True
  | f :: fs => fun s => (forall x, fst s = Some x -> valid x) /\ slots_ok fs (snd s)
  end.

Lemma no_slots_ok fs : slots_ok fs (no_slots fs).
Proof. induction fs; [done|]. by split. Qed.

Lemma field_decode_valid f v (x : fty f) : field_well_typed f -> decode v = Ok x -> utf8_strings v = true -> valid x.
Proof.
  destruct f as [k T enc dec val|k sk U enc dec val]; cbn [field_well_typed]; intros Hf Hd Hu.
  - by eapply decode_valid.
  - by apply (option_well_typed (T := U) v x).
Qed.

Lemma value_arms_ok fs k v s s' :
  Forall field_well_typed fs -> utf8_strings v = true -> slots_ok fs s -> value_arms fs k v s = Ok s' -> slots_ok fs s'.
Proof.
  intros Hf Hu. induction Hf as [|f fs Hf _ IH]; cbn [value_arms]; [by intros _ [= <-]|].
  destruct s as [s0 s]. cbn [slots_ok fst snd]. intros [H0 Hs]. case_bool_decide.
  - destruct (decode v) as [x|] eqn:Ex; [|done]. cbn [rbind]. intros [= <-]. split; [|done].
    cbn [fst]. intros y [= <-]. by eapply field_decode_valid.
  - destruct (value_arms fs k v s) as [r|] eqn:Er; [|done]. cbn [rbind]. intros [= <-]. split; [done|]. by eapply IH.
Qed.

Lemma scan_ok fs obj : forall s s',
  Forall field_well_typed fs -> utf8_strings (Value.Object obj) = true -> slots_ok fs s ->
  scan fs obj s = Ok s' -> slots_ok fs s'.
Proof.
  induction obj as [|[k v] obj IH]; intros s s' Hf Hu Hs; cbn [scan]; [by intros [= <-]|].
  cbn [utf8_strings forallb fst snd] in Hu. apply andb_true_iff in Hu as [[_ Hv]%andb_true_iff Ho].
  destruct (value_arms fs k v s) as [s1|] eqn:E; [|done]. cbn [rbind]. apply IH; [done|done|]. by eapply value_arms_ok.
Qed.

Lemma build_ok fs s x : slots_ok fs s -> build fs s = Ok x -> struct_ok fs x.
Proof.
  induction fs as [|f fs IH]; [done|]. destruct s as [s0 s]. cbn [slots_ok build struct_ok fst snd]. intros [H0 Hs].
  destruct (build_field f s0) as [y|] eqn:Ey; [|done]. cbn [rbind].
  destruct (build fs s) as [r|] eqn:Er; [|done]. cbn [rbind]. intros [= <-]. split; [|by eapply IH]. cbn [fst].
  destruct f as [k T enc dec val|k sk U enc dec val]; cbn [build_field] in Ey; destruct s0 as [z|]; simplify_eq/=; auto.
  done.
Qed.

#[export] Instance struct_well_typed fs `{!FieldsWellTyped fs} : WellTyped (Struct fs).
Proof.
  intros v x. cbn [decode struct_decode]. unfold decode_struct. destruct v as [| | | | | | | |obj]; try done.
  cbn [Value.as_object ok_or rbind]. intros Hd Hu. destruct (scan fs obj (no_slots fs)) as [s|] eqn:Es; [|done].
  cbn [rbind] in Hd. eapply build_ok; [|done]. eapply scan_ok; [exact fields_well_typed|done|apply no_slots_ok|done].
Qed.

#[export] Instance enum_well_typed keys : WellTyped (Enum keys).
Proof.
  intros v x. cbn [decode enum_decode]. unfold decode_enum, variant_arms. destruct v; try done. cbn [Value.as_str ok_or rbind].
  destruct (list_find _ keys) as [[i k]|] eqn:E; [|done]. intros [= <-] _. apply list_find_Some in E as (E & _ & _).
  by apply lookup_lt_Some in E.
Qed.

(** ** Images are decoded *)

Definition field_lossless (loose : bool) (f : Field) : Prop :=
  match f with
  | Plain _ T _ _ _ => Lossless loose T /\ Present false T
  | Optional _ _ U _ _ _ => Lossless loose U /\ Present loose U
  end.

Class FieldsLossless (loose : bool) (fs : list Field) := {
  keys_distinct : NoDup (map key fs);
  fields_lossless : Forall (field_lossless loose) fs;
}.

Class DistinctKeys (keys : list bytes) := distinct_keys : NoDup keys.

#[export] Instance enum_lossless loose keys `{Hn : !DistinctKeys keys} : Lossless loose (Enum keys).
Proof.
  intros [i] w Hv Hi. unfold valid, enum_valid in Hv. cbn [variant] in Hv. inversion Hi; subst. cbn [decode enum_decode].
  unfold decode_enum, variant_arms, variant_key. cbn [Value.as_str ok_or rbind variant].
  destruct (keys !! i) as [k|] eqn:Ek; [|apply lookup_ge_None in Ek; lia]. cbn [default].
  destruct (list_find _ keys) as [[j y]|] eqn:E.
  - apply list_find_Some in E as (Ej & -> & _). by rewrite (NoDup_lookup keys j i k Hn Ej Ek).
  - apply list_find_None in E. rewrite Forall_lookup in E. by destruct (E i k Ek).
Qed.
#[export] Instance enum_present loose keys : Present loose (Enum keys).
Proof. intros x w _ Hi. by inversion Hi. Qed.

(** The slots after the entries with the keys [ks] of a struct were seen. *)
Fixpoint slots_for (fs : list Field) (ks : list bytes) : Struct fs -> Slots fs :=
  match fs return Struct fs -> Slots fs with
  | [] => fun _ => tt
  | f :: fs => fun s => (if decide (key f ∈ ks) then Some (fst s) else None, slots_for fs ks (snd s))
  end.

(** The value [v] decodes to the field with key [k], if there is one. *)
Fixpoint decodes_at (fs : list Field) (k : bytes) (v : Value) : Struct fs -> Prop :=
  match fs return Struct fs -> Prop with
  | [] => fun _ => True
  | f :: fs => fun s => (key f = k -> decode v = Ok (fst s)) /\ decodes_at fs k v (snd s)
  end.

(** The value [v] is an image of the field with key [k], if there is one. *)
Fixpoint image_at (loose : bool) (fs : list Field) (k : bytes) (v : Value) : Struct fs -> Prop :=
  match fs return Struct fs -> Prop with
  | [] => fun _ => True
  | f :: fs => fun s => (key f = k -> image loose (encode (fst s)) v) /\ image_at loose fs k v (snd s)
  end.

Lemma slots_for_fresh fs k ks s : k ∉ map key fs -> slots_for fs (k :: ks) s = slots_for fs ks s.
Proof.
  induction fs as [|f fs IH]; [done|]. cbn [map slots_for]. intros Hk. rewrite IH by set_solver. f_equal.
  repeat case_decide; set_solver.
Qed.

Lemma value_arms_slots fs k v ks s :
  NoDup (map key fs) -> decodes_at fs k v s -> value_arms fs k v (slots_for fs ks s) = Ok (slots_for fs (k :: ks) s).
Proof.
  induction fs as [|f fs IH]; [done|]. cbn [map slots_for value_arms decodes_at fst snd]. intros [Hk Hn]%NoDup_cons [Hd Hs].
  case_bool_decide as E.
  - rewrite (Hd E). cbn [rbind]. subst. rewrite decide_True by set_solver. by rewrite slots_for_fresh.
  - rewrite IH by done. cbn [rbind]. do 2 f_equal. repeat case_decide; set_solver.
Qed.

Lemma scan_slots fs s obj : forall ks,
  NoDup (map key fs) -> (forall k v, (k, v) ∈ obj -> decodes_at fs k v s) ->
  exists ks', scan fs obj (slots_for fs ks s) = Ok (slots_for fs ks' s) /\ forall k, k ∈ ks' <-> k ∈ ks \/ k ∈ map fst obj.
Proof.
  induction obj as [|[k v] obj IH]; intros ks Hn Hd; cbn [scan]; [exists ks; set_solver|].
  rewrite value_arms_slots by (done || (apply Hd; set_solver)). cbn [rbind].
  destruct (IH (k :: ks) Hn) as (ks' & E & Hks); [set_solver|]. exists ks'. split; [done|]. intros k'. rewrite Hks. set_solver.
Qed.

Lemma slots_for_nil fs s : slots_for fs [] s = no_slots fs.
Proof. induction fs as [|f fs IH]; [done|]. cbn [slots_for no_slots]. by rewrite IH, decide_False by set_solver. Qed.

(** A field not seen is an [Option] that is [None]. *)
Definition absent_ok (f : Field) : fty f -> Prop :=
  match f return fty f -> Prop with Plain _ _ _ _ _ => fun _ => False | Optional _ _ _ _ _ _ => fun x => x = None end.

Fixpoint complete (fs : list Field) (ks : list bytes) : Struct fs -> Prop :=
  match fs return Struct fs -> Prop with
  | [] => fun _ => True
  | f :: fs => fun s => (key f ∉ ks -> absent_ok f (fst s)) /\ complete fs ks (snd s)
  end.

Lemma complete_proper fs ks ks' s : (forall k, k ∈ ks' <-> k ∈ ks) -> complete fs ks s -> complete fs ks' s.
Proof.
  intros Heq. induction fs as [|f fs IH]; [done|]. intros [H1 H2]. split; [|by apply IH]. intros Hin. apply H1. by rewrite <- Heq.
Qed.

Lemma build_slots fs ks s : complete fs ks s -> build fs (slots_for fs ks s) = Ok s.
Proof.
  induction fs as [|f fs IH]; [by destruct s|]. destruct s as [x s]. cbn [complete build slots_for fst snd]. intros [Hx Hs].
  rewrite IH by done. assert (build_field f (if decide (key f ∈ ks) then Some x else None) = Ok x) as ->; [|done].
  case_decide as Hk; [by destruct f|]. specialize (Hx Hk). by destruct f; cbn [absent_ok] in Hx; subst.
Qed.

Lemma push_field_spec f x : (push_field f x = [] /\ absent_ok f x) \/ push_field f x = [(key f, encode x)].
Proof. destruct f as [k T enc dec val|k [] U enc dec val]; [by right| |by right]. destruct x; [by right|by left]. Qed.

Lemma field_image loose f (x : fty f) w : field_lossless loose f -> valid x -> image loose (encode x) w -> decode w = Ok x.
Proof.
  destruct f as [k T enc dec val|k sk U enc dec val]; cbn [field_lossless]; intros [Hl Hp] Hv Hi.
  - by apply (decode_image (loose := loose)).
  - by apply (option_lossless (T := U) x w).
Qed.

Lemma field_null loose f (x : fty f) : field_lossless loose f -> valid x -> encode x = Value.Null -> absent_ok f x.
Proof.
  destruct f as [k T enc dec val|k sk U enc dec val]; cbn [field_lossless]; intros [_ Hp] Hv He.
  - by apply (present_not_null (loose := false) x).
  - destruct x as [x|]; [|done]. exfalso. by apply (present_not_null (loose := loose) x).
Qed.

Lemma image_at_decodes loose fs k v x :
  Forall (field_lossless loose) fs -> struct_ok fs x -> image_at loose fs k v x -> decodes_at fs k v x.
Proof.
  intros Hf. induction Hf as [|f fs Hf _ IH]; [done|]. cbn [struct_ok image_at decodes_at]. intros [Hx Hs] [Hi Hr].
  split; [|by apply IH]. intros E. by apply (field_image loose); [..|apply Hi].
Qed.

(** Every entry of an image is an image of its field, and the fields without one
    are [None]. *)
Lemma image_fields loose o' fs x :
  NoDup (map key fs) -> Forall (field_lossless loose) fs -> struct_ok fs x ->
  (forall k, k ∈ map fst o' -> k ∈ map key fs -> k ∈ map fst (push_fields fs x)) ->
  (forall k v w, (k, v) ∈ push_fields fs x -> (k, w) ∈ o' -> image loose v w) ->
  (forall k v, (k, v) ∈ push_fields fs x -> k ∉ map fst o' -> v = Value.Null) ->
  (forall k w, (k, w) ∈ o' -> image_at loose fs k w x) /\ complete fs (map fst o') x.
Proof.
  intros Hn Hf. induction Hf as [|f fs Hf _ IH]; [done|]. destruct x as [x s]. cbn [struct_ok push_fields map fst snd] in *.
  intros [Hx Hs] H1 H2 H3. apply NoDup_cons in Hn as [Hk Hn]. rewrite map_app in H1.
  assert (forall k v, (k, v) ∈ push_field f x -> k = key f) as Hpf.
  { intros k v. destruct (push_field_spec f x) as [[-> _]| ->]; [set_solver|].
    rewrite list_elem_of_singleton. by intros [= -> ->]. }
  destruct (IH s Hn Hs) as [Hd Hc].
  - intros k Ho Hin. specialize (H1 k Ho ltac:(set_solver)). apply elem_of_app in H1 as [H1|H1]; [|done].
    apply list_elem_of_fmap in H1 as ([k' v] & -> & Hv). apply Hpf in Hv as ->. by destruct Hk.
  - intros k v w Hv. apply H2, elem_of_app. by right.
  - intros k v Hv. apply H3, elem_of_app. by right.
  - split.
    + intros k w Hw. split; [|by apply Hd]. intros <-. cbn [fst].
      assert (key f ∈ map fst o') as Hko by (apply list_elem_of_fmap; by exists (key f, w)).
      destruct (push_field_spec f x) as [[E _]|E]; rewrite E in *.
      * exfalso. specialize (H1 (key f) Hko ltac:(set_solver)). cbn [map app] in H1.
        assert (forall fs s, map fst (push_fields fs s) ⊆ map key fs) as Hsub.
        { clear. induction fs as [|f fs IH]; intros s; [done|]. cbn [push_fields map]. rewrite map_app.
          specialize (IH (snd s)). destruct (push_field_spec f (fst s)) as [[-> _]| ->]; cbn [map app fst]; set_solver. }
        by apply Hk, (Hsub fs s).
      * apply (H2 (key f)); [set_solver|done].
    + split; [|done]. cbn [fst]. intros Hko. destruct (push_field_spec f x) as [[_ E]|E]; [done|].
      apply (field_null loose); [done|done|]. apply (H3 (key f)); [|done]. rewrite E. set_solver.
Qed.

#[export] Instance struct_lossless loose fs `{!FieldsLossless loose fs} : Lossless loose (Struct fs).
Proof.
  intros x w Hv Hi. cbn [encode struct_encode] in Hi. cbn [decode struct_decode].
  inversion Hi as [| | | | | | | | | | | | | | | |o o' Hn Hk Hw Hm]; subst.
  destruct (image_fields loose o' fs x keys_distinct fields_lossless Hv) as [Hd Hc]; [auto|done|done|].
  unfold decode_struct. cbn [Value.as_object ok_or rbind]. rewrite <- (slots_for_nil fs x).
  destruct (scan_slots fs x o' [] keys_distinct) as (ks & -> & Hks).
  { intros k v Hin. eapply image_at_decodes; [exact fields_lossless|done|by apply Hd]. }
  cbn [rbind]. apply build_slots.
  eapply complete_proper; [|exact Hc]. intros k. rewrite Hks. set_solver.
Qed.
#[export] Instance struct_present loose fs : Present loose (Struct fs).
Proof. intros x w _ Hi. by inversion Hi. Qed.

(** ** What a derived [decode] refuses *)

(** The keys of the slots not filled yet. *)
Fixpoint unfilled (fs : list Field) : Slots fs -> list bytes :=
  match fs return Slots fs -> list bytes with
  | [] => fun _ => []
  | f :: fs => fun s => (if fst s then [] else [key f]) ++ unfilled fs (snd s)
  end.

Lemma unfilled_keys fs s : unfilled fs s ⊆ map key fs.
Proof.
  induction fs as [|f fs IH]; [done|]. cbn [unfilled map]. specialize (IH (snd s)). destruct (fst s); cbn [app]; set_solver.
Qed.

Lemma value_arms_unfilled fs k v s s' :
  NoDup (map key fs) -> value_arms fs k v s = Ok s' -> forall k', k' ∈ unfilled fs s' -> k' ∈ unfilled fs s /\ k' <> k.
Proof.
  induction fs as [|f fs IH]; [set_solver|]. destruct s as [s0 s]. cbn [map value_arms unfilled fst snd]. intros [Hk Hn]%NoDup_cons.
  case_bool_decide as E.
  - destruct (decode v) as [x|]; cbn [rbind]; [|done]. intros [= <-] k'. cbn [fst snd app]. intros Hin.
    pose proof (unfilled_keys fs s k' Hin) as Hkey. split; [set_solver|]. intros ->. by subst.
  - destruct (value_arms fs k v s) as [r|] eqn:Er; cbn [rbind]; [|done]. intros [= <-] k'. cbn [fst snd].
    intros [Hin|Hin]%elem_of_app.
    + split; [set_solver|]. destruct s0; [set_solver|]. apply list_elem_of_singleton in Hin as ->. done.
    + destruct (IH s r Hn Er k' Hin). split; [set_solver|done].
Qed.

Lemma scan_unfilled fs o : forall s s',
  NoDup (map key fs) -> scan fs o s = Ok s' -> forall k, k ∈ unfilled fs s' -> k ∈ unfilled fs s /\ k ∉ map fst o.
Proof.
  induction o as [|[k v] o IH]; intros s s' Hn; cbn [scan map]; [intros [= <-]; set_solver|].
  destruct (value_arms fs k v s) as [s1|] eqn:E; cbn [rbind]; [|done]. intros Hs k' Hk'.
  destruct (IH s1 s' Hn Hs k' Hk') as [H1 H2]. destruct (value_arms_unfilled fs k v s s1 Hn E k' H1). set_solver.
Qed.

Lemma value_arms_error fs k v s e :
  value_arms fs k v s = Err e -> exists f, f ∈ fs /\ key f = k /\ decode (T := fty f) v = Err e.
Proof.
  induction fs as [|f fs IH]; [done|]. cbn [value_arms]. case_bool_decide as E.
  - destruct (decode v) as [x|e'] eqn:Ed; cbn [rbind]; [done|]. intros [= <-]. exists f. split_and!; [set_solver|done|done].
  - destruct (value_arms fs k v _) as [r|e'] eqn:Er; cbn [rbind]; [done|]. intros [= <-].
    destruct (IH _ Er) as (g & Hg & Hk & Hd). exists g. split_and!; [set_solver|done|done].
Qed.

Lemma scan_error fs o : forall s e,
  scan fs o s = Err e -> exists f v, f ∈ fs /\ (key f, v) ∈ o /\ decode (T := fty f) v = Err e.
Proof.
  induction o as [|[k v] o IH]; intros s e; cbn [scan]; [done|].
  destruct (value_arms fs k v s) as [s1|e'] eqn:E; cbn [rbind].
  - intros (f & w & H1 & H2 & H3)%IH. exists f, w. split_and!; [done|set_solver|done].
  - intros [= <-]. apply value_arms_error in E as (f & Hf & <- & Hd). exists f, v. split_and!; [done|set_solver|done].
Qed.

Definition required (f : Field) : bool := match f with Plain _ _ _ _ _ => true | Optional _ _ _ _ _ _ => false end.

Lemma build_error fs s e :
  build fs s = Err e -> exists f, f ∈ fs /\ required f = true /\ key f ∈ unfilled fs s /\ e = MissingField (key f).
Proof.
  induction fs as [|f fs IH]; [done|]. destruct s as [s0 s]. cbn [build unfilled fst snd].
  destruct (build_field f s0) as [x|e'] eqn:Eb; cbn [rbind].
  - destruct (build fs s) as [r|e'] eqn:Er; cbn [rbind]; [done|]. intros [= <-].
    destruct (IH s Er) as (g & Hg & H1 & H2 & H3). exists g. split_and!; [set_solver|done|set_solver|done].
  - intros [= <-]. exists f. destruct f as [k T enc dec val|]; [|done]. destruct s0; [done|]. cbn [build_field ok_or] in Eb.
    injection Eb as <-. split_and!; [set_solver|done|set_solver|done].
Qed.

(** A derived [decode] of an object fails for one of two reasons only: the entry of one of its fields does not
    decode, and then its error is passed on, or a field that is not an [Option] has no entry, and then the error
    names its wire key.  Entries with keys of no field, and absent optional fields, are never an error. *)
Theorem derived_decode_errors (fs : list Field) (o : list (bytes * Value)) (e : CodecError) :
  NoDup (map key fs) -> decode (T := Struct fs) (Value.Object o) = Err e ->
  (exists f v, f ∈ fs /\ (key f, v) ∈ o /\ decode (T := fty f) v = Err e) \/
  (exists f, f ∈ fs /\ required f = true /\ key f ∉ map fst o /\ e = MissingField (key f)).
Proof.
  intros Hn. cbn [decode struct_decode]. unfold decode_struct. cbn [Value.as_object ok_or rbind].
  destruct (scan fs o (no_slots fs)) as [s|e'] eqn:Es; cbn [rbind].
  - intros (f & Hf & Hr & Hk & ->)%build_error. right. exists f. split_and!; [done|done| |done].
    by apply (scan_unfilled fs o _ s Hn Es).
  - intros [= <-]. left. by apply (scan_error fs o (no_slots fs) e').
Qed.

(** What a derived [decode] returns is a value of the struct: every integer field is in the range of its type,
    every character field a scalar value, every enum field one of its variants, in nested structs, vectors, maps and
    options too, whatever the input tree. *)
Theorem derived_decode_well_typed (fs : list Field) `{!FieldsWellTyped fs} (v : Value) (x : Struct fs) :
  decode v = Ok x -> utf8_strings v = true -> valid x.
Proof. apply struct_well_typed. exact fields_well_typed. Qed.

(** *** A sample struct *)

Definition point_fields : list Field :=
  [Plain (b!"x") (Signed I8) _ _ _; Optional (b!"label") true Char _ _ _; Plain (b!"tags") (list (Unsigned U8)) _ _ _].

(** A law of a struct is the law of each of its fields. *)
Ltac by_fields :=
  repeat (apply Forall_cons_2; [try split; cbn; typeclasses eauto|]); apply Forall_nil_2.

#[export] Instance point_well_typed : FieldsWellTyped point_fields.
Proof. by_fields. Qed.

Lemma derived_decode_errors_witness :
  (exists f v, f ∈ point_fields /\ (key f, v) ∈ [(b!"x", Value.Int 7); (b!"y", Value.Null)] /\
     decode (T := fty f) v = Err (MissingField (b!"tags"))) \/
  (exists f, f ∈ point_fields /\ required f = true /\ key f ∉ map fst [(b!"x", Value.Int 7); (b!"y", Value.Null)] /\
     MissingField (b!"tags") = MissingField (key f)).
Proof.
  apply (derived_decode_errors point_fields [(b!"x", Value.Int 7); (b!"y", Value.Null)]).
  - apply (bool_decide_eq_true_1 (NoDup (map key point_fields))). vm_compute. reflexivity.
  - vm_compute. reflexivity.
Defined.

Lemma derived_decode_well_typed_witness :
  valid (T := Struct point_fields) (mkSigned (-128), (Some (mkChar 233), ([mkUnsigned 255], tt))).
Proof.
  apply (derived_decode_well_typed point_fields (Value.Object
    [(b!"tags", Value.UInt 255); (b!"x", Value.Str (b!" -128 ")); (b!"label", Value.Str [xc3; xa9])])).
  - vm_compute. reflexivity.
  - vm_compute. reflexivity.
Defined.

End Derive.
