(* ===== verification/Attrs.v ===== *)
(** * What the [Encode] and [Decode] derives compute from a type ([ferroly-derive/src/attrs.rs], [case.rs], [ser.rs], [de.rs])

    The attributes of a type and of its members as syn presents them, the [rename_all] conversions, and the plans of wire
    keys that both expansions compute from them.  A plan determines the generated code, which is [Derive].  The Unicode
    case tables are a class with the laws of ASCII characters. *)

From S2P Require Import Prelude Text Scan Value Traits Derive Json.
Import Traits Derive.

Open Scope Z_scope.

Module Attrs.

(** ** Attributes *)

Definition SynError : Type := bytes.

(** One item of [#[ferroly(..)]] as syn hands it to the closure of [parse_nested_meta]: its path when it is one identifier,
    what [value()?.parse::<LitStr>()] answers, and the error of the parser when the closure leaves a value unread. *)
Record Meta := mkMeta { meta_path : option bytes; value_str : Result bytes SynError; unread : option SynError }.

(** An attribute: its path when it is one identifier, its items and the syntax error behind them if any, and what
    [parse_args] answers for an identifier and for a string literal. *)
Record Attribute := mkAttribute {
  path : option bytes;
  items : list Meta;
  items_end : option SynError;
  args_ident : option bytes;
  args_lit : option bytes;
}.

Definition is_ident (p : option bytes) (name : bytes) : bool := bool_decide (p = Some name).

Section Nested.
Context {S : Type} (f : S -> Meta -> Result (S * bool) SynError).

(** [parse_nested_meta]: the closure says whether it read the value of the item. *)
Fixpoint nested_loop (ms : list Meta) (fin : option SynError) (s : S) : Result S SynError :=
  match ms with
  | [] => match fin with Some e => Err e | None => Ok s end
  | m :: ms =>
      let? (s, read) := f s m in
      match (if read : bool then None else unread m) with
      | Some e => Err e
      | None => nested_loop ms fin s
      end
  end.

(** The loop over the attributes named [ferroly]. *)
Fixpoint ferroly_loop (attrs : list Attribute) (s : S) : Result S SynError :=
  match attrs with
  | [] => Ok s
  | a :: attrs =>
      if is_ident (path a) (b!"ferroly") then let? s := nested_loop (items a) (items_end a) s in ferroly_loop attrs s
      else ferroly_loop attrs s
  end.
End Nested.

(** [ContainerAttrs] is its one field. *)
Definition ContainerAttrs : Type := option bytes.

Definition container_meta (c : ContainerAttrs) (m : Meta) : Result (ContainerAttrs * bool) SynError :=
  if is_ident (meta_path m) (b!"rename_all") then let? s := value_str m in Ok (Some s, true)
  else Err (b!"unknown ferroly container attribute").

Definition container_attrs (attrs : list Attribute) : Result ContainerAttrs SynError := ferroly_loop container_meta attrs None.

Record MemberAttrs := mkMember { rename : option bytes; skip_none : bool }.

Definition member_meta (m : MemberAttrs) (meta : Meta) : Result (MemberAttrs * bool) SynError :=
  if is_ident (meta_path meta) (b!"rename") then let? s := value_str meta in Ok (mkMember (Some s) (skip_none m), true)
  else if is_ident (meta_path meta) (b!"skip_none") then Ok (mkMember (rename m) true, false)
  else Err (b!"unknown ferroly field/variant attribute").

Definition member_attrs (attrs : list Attribute) : Result MemberAttrs SynError := ferroly_loop member_meta attrs (mkMember None false).

(** ** Case conversions *)

(** The tables of the standard library: of a character (its UTF-8 form), and of a string, whose lower case looks at the
    context of a final sigma. *)
Class Unicode := {
  is_uppercase : bytes -> bool;
  char_lower : bytes -> bytes;
  char_upper : bytes -> bytes;
  str_lower : bytes -> bytes;
  str_upper : bytes -> bytes;
}.

Definition ascii_upper (b : byte) : byte := if (97 <=? b2z b) && (b2z b <=? 122) then z2b (b2z b - 32) else b.
Definition upper_letter (b : byte) : bool := (65 <=? b2z b) && (b2z b <=? 90).
Definition lower_letter (b : byte) : bool := (97 <=? b2z b) && (b2z b <=? 122).

Definition is_ascii (b : byte) : Prop := b2z b < 128.

(** What they are on ASCII. *)
Class UnicodeLaws `(Unicode) : Prop := {
  is_uppercase_ascii c : is_ascii c -> is_uppercase [c] = upper_letter c;
  char_lower_ascii c : is_ascii c -> char_lower [c] = [ascii_lower c];
  char_upper_ascii c : is_ascii c -> char_upper [c] = [ascii_upper c];
  str_lower_ascii s : Forall is_ascii s -> str_lower s = map ascii_lower s;
  str_upper_ascii s : Forall is_ascii s -> str_upper s = map ascii_upper s;
}.

Definition chars (s : bytes) : list bytes := map snd (Utf8.seqs s).

Section Case.
Context `{Unicode}.

(** The loop of [to_snake] from index [i] on. *)
Fixpoint snake_loop (first : bool) (cs : list bytes) : bytes :=
  match cs with
  | [] => []
  | c :: cs =>
      (if is_uppercase c then (if first then [] else [x5f]) ++ char_lower c else c) ++ snake_loop false cs
  end.
Definition to_snake (s : bytes) : bytes := snake_loop true (chars s).

(** The loop of [to_camel] over the parts. *)
Fixpoint camel_loop (upper : bool) (parts : list bytes) : bytes :=
  match parts with
  | [] => []
  | part :: parts =>
      match chars part with
      | [] => camel_loop upper parts
      | c :: rest => (if upper then char_upper c else char_lower c) ++ concat rest ++ camel_loop true parts
      end
  end.
Definition to_camel (s : bytes) (pascal : bool) : bytes := camel_loop pascal (split_on x5f s).

Definition dashes (s : bytes) : bytes := map (fun c => if bool_decide (c = x5f) then x2d else c) s.

Definition apply_rename_all (name : bytes) (rule : option bytes) : bytes :=
  match rule with
  | Some r =>
      if bool_decide (r = b!"lowercase") then str_lower name
      else if bool_decide (r = b!"UPPERCASE") then str_upper name
      else if bool_decide (r = b!"snake_case") then to_snake name
      else if bool_decide (r = b!"SCREAMING_SNAKE_CASE") then str_upper (to_snake name)
      else if bool_decide (r = b!"kebab-case") then dashes (to_snake name)
      else if bool_decide (r = b!"camelCase") then to_camel name false
      else if bool_decide (r = b!"PascalCase") then to_camel name true
      else name
  | None => name
  end.

(** ** The plans *)

(** The type of a field as written, with its instances: an [Option] of a type, or another spelling. *)
Inductive FieldType :=
| OptionOf (U : Type) (enc : Encode U) (dec : Decode U) (val : Valid U)
| OtherType (T : Type) (enc : Encode T) (dec : Decode T) (val : Valid T).

Definition is_option (ty : FieldType) : bool := match ty with OptionOf _ _ _ _ => true | _ => false end.

Record FieldDef := mkField { f_ident : bytes; f_attrs : list Attribute; f_type : FieldType }.

(** Structs with named fields, other structs, enums (of a variant: its name, its attributes and whether it is a unit
    variant), unions. *)
Inductive Data :=
| NamedStruct (fields : list FieldDef)
| OtherStruct
| EnumOf (variants : list (bytes * list Attribute * bool))
| Union.

Record DeriveInput := mkInput { di_attrs : list Attribute; di_data : Data }.

(** The wire key of a member: its [rename], otherwise its converted name. *)
Definition wire_key (cattrs : ContainerAttrs) (id : bytes) (ma : MemberAttrs) : bytes :=
  default (apply_rename_all id cattrs) (rename ma).

Definition ser_field (cattrs : ContainerAttrs) (f : FieldDef) : Result (bytes * bytes * bool) SynError :=
  let? ma := member_attrs (f_attrs f) in
  Ok (f_ident f, wire_key cattrs (f_ident f) ma, skip_none ma).

Definition variant_plan (msg : bytes) (cattrs : ContainerAttrs) (v : bytes * list Attribute * bool) : Result (bytes * bytes) SynError :=
  let '(id, attrs, unit) := v in
  if unit then let? ma := member_attrs attrs in Ok (id, wire_key cattrs id ma)
  else Err msg.

Inductive SerPlan := SerStruct (plan : list (bytes * bytes * bool)) | SerEnum (variants : list (bytes * bytes)).

(** [ser::expand], up to the code it quotes for the plan. *)
Definition ser_expand (input : DeriveInput) : Result SerPlan SynError :=
  let? cattrs := container_attrs (di_attrs input) in
  match di_data input with
  | NamedStruct fields => let? plan := traverse (ser_field cattrs) fields in Ok (SerStruct plan)
  | OtherStruct => Err (b!"Encode supports only structs with named fields")
  | EnumOf vs => let? vs := traverse (variant_plan (b!"Encode enums support only unit variants") cattrs) vs in Ok (SerEnum vs)
  | Union => Err (b!"Encode cannot be derived for unions")
  end.

(** The identifier [format_ident!] makes of [__slot_{}]: the prefix of a raw identifier is left out. *)
Definition slot_ident (id : bytes) : bytes := b!"__slot_" ++ default id (strip_prefix id (b!"r#")).

Definition de_field (cattrs : ContainerAttrs) (f : FieldDef) : Result (bytes * bytes * FieldType * bytes * bool) SynError :=
  let? ma := member_attrs (f_attrs f) in
  Ok (f_ident f, wire_key cattrs (f_ident f) ma, f_type f, slot_ident (f_ident f), is_option (f_type f)).

Inductive DePlan := DeStruct (plan : list (bytes * bytes * FieldType * bytes * bool)) | DeEnum (variants : list (bytes * bytes)).

(** [de::expand], up to the code it quotes for the plan. *)
Definition de_expand (input : DeriveInput) : Result DePlan SynError :=
  let? cattrs := container_attrs (di_attrs input) in
  match di_data input with
  | NamedStruct fields => let? plan := traverse (de_field cattrs) fields in Ok (DeStruct plan)
  | OtherStruct => Err (b!"Decode supports only structs with named fields")
  | EnumOf vs => let? vs := traverse (variant_plan (b!"Decode enums support only unit variants") cattrs) vs in Ok (DeEnum vs)
  | Union => Err (b!"Decode cannot be derived for unions")
  end.
End Case.

(** A field of the generated code: [if let Some(..)] is only typed on an [Option]. *)
Definition member (s : bytes * bytes * bool) (d : bytes * bytes * FieldType * bytes * bool) : option Field :=
  let '(_, key, skip) := s in
  match d with
  | (_, _, OptionOf U enc dec val, _, _) => Some (Optional key skip U enc dec val)
  | (_, _, OtherType T enc dec val, _, _) => if skip then None else Some (Plain key T enc dec val)
  end.

(** The fields of the code both plans generate. *)
Fixpoint members (sp : list (bytes * bytes * bool)) (dp : list (bytes * bytes * FieldType * bytes * bool)) : option (list Field) :=
  match sp, dp with
  | [], [] => Some []
  | s :: sp, d :: dp => f ← member s d; fs ← members sp dp; Some (f :: fs)
  | _, _ => None
  end.
End Attrs.
Import Attrs.

(** ** ASCII names *)

Lemma seqs_ascii s : Forall is_ascii s -> Utf8.seqs s = map (fun c => (true, [c])) s.
Proof.
  induction 1 as [|c s Hc Hs IH]; [done|]. unfold Utf8.seqs in *. cbn [length Utf8.sequences]. unfold Utf8.next_seq.
  rewrite (proj2 (Z.ltb_lt _ _)) by exact Hc. cbv iota. cbn [map]. f_equal. exact IH.
Qed.

Lemma chars_ascii s : Forall is_ascii s -> chars s = map (fun c => [c]) s.
Proof. intros H. unfold chars. rewrite seqs_ascii, map_map by done. done. Qed.

(** A word: a lower-case letter, then lower-case letters and digits. *)
Definition word_char (b : byte) : bool := lower_letter b || F64.is_digit b.
Definition is_word (w : bytes) : Prop := match w with c :: r => lower_letter c = true /\ Forall (fun b => word_char b = true) r | [] => False end.
Definition capital (w : bytes) : bytes := match w with c :: r => ascii_upper c :: r | [] => [] end.

(** A byte of one class is none of the others. *)
Ltac letters := unfold word_char, lower_letter, upper_letter, F64.is_digit, is_ascii, ascii_upper, ascii_lower in *; zbool.

Lemma word_char_range b : word_char b = true -> 97 <= b2z b <= 122 \/ 48 <= b2z b <= 57.
Proof. unfold word_char, lower_letter, F64.is_digit. rewrite orb_true_iff, !andb_true_iff. intros [[]|[]]; zbool; lia. Qed.

Lemma word_char_ascii b : word_char b = true -> is_ascii b.
Proof. intros H%word_char_range. unfold is_ascii. lia. Qed.

Lemma word_char_not_upper b : word_char b = true -> upper_letter b = false.
Proof. intros H%word_char_range. unfold upper_letter. apply andb_false_iff. rewrite !Z.leb_gt. lia. Qed.

Lemma lower_word_char b : lower_letter b = true -> word_char b = true.
Proof. intros H. unfold word_char. by rewrite H. Qed.

Lemma word_chars w : is_word w -> Forall (fun b => word_char b = true) w.
Proof. destruct w as [|c r]; [done|]. intros [Hc Hr]. constructor; [by apply lower_word_char|done]. Qed.

Lemma word_char_no_score w : Forall (fun b => word_char b = true) w -> x5f ∉ w.
Proof. intros H Hin. rewrite Forall_forall in H. by specialize (H _ Hin). Qed.

Lemma upper_of_lower b : lower_letter b = true -> b2z (ascii_upper b) = b2z b - 32.
Proof.
  intros H. unfold lower_letter in H. apply andb_true_iff in H as H'. destruct H' as [H1 H2]. zbool. unfold ascii_upper.
  fold (lower_letter b). unfold lower_letter. rewrite (proj2 (Z.leb_le _ _)), (proj2 (Z.leb_le _ _)) by lia. cbn [andb]. apply b2z_z2b. lia.
Qed.

Lemma upper_lower b : lower_letter b = true -> upper_letter (ascii_upper b) = true /\ ascii_lower (ascii_upper b) = b /\ is_ascii (ascii_upper b).
Proof.
  intros H. pose proof (upper_of_lower b H) as E. unfold lower_letter in H. zbool. unfold is_ascii, upper_letter, ascii_lower. rewrite E.
  rewrite (proj2 (Z.leb_le 65 _)), (proj2 (Z.leb_le _ 90)) by lia. split; [done|]. split; [|lia]. cbn [andb]. apply b2z_inj. rewrite b2z_z2b; lia.
Qed.

Lemma lower_upper b : upper_letter b = true -> exists c, lower_letter c = true /\ ascii_upper c = b /\ ascii_lower b = c.
Proof.
  intros H. unfold upper_letter in H. zbool. exists (z2b (b2z b + 32)). assert (lower_letter (z2b (b2z b + 32)) = true) as Hl.
  { unfold lower_letter. rewrite b2z_z2b by lia. apply andb_true_iff. rewrite !Z.leb_le. lia. }
  split; [done|]. split; [apply b2z_inj; rewrite upper_of_lower by done; rewrite b2z_z2b; lia|].
  unfold ascii_lower. by rewrite (proj2 (Z.leb_le _ _)), (proj2 (Z.leb_le _ _)) by lia.
Qed.

Lemma lower_word_char_id b : word_char b = true -> ascii_lower b = b.
Proof. intros H%word_char_range. unfold ascii_lower. destruct (Z.leb_spec 65 (b2z b)), (Z.leb_spec (b2z b) 90); cbn [andb]; try done; lia. Qed.

Definition snake_form (ws : list bytes) : bytes := join [x5f] ws.
Definition pascal_form (ws : list bytes) : bytes := concat (map capital ws).
Definition camel_form (ws : list bytes) : bytes := match ws with w :: ws => w ++ pascal_form ws | [] => [] end.

Lemma words_ascii ws : Forall is_word ws -> Forall is_ascii (snake_form ws) /\ Forall is_ascii (pascal_form ws).
Proof.
  induction 1 as [|w ws Hw Hws [IH1 IH2]]; [done|]. assert (Forall is_ascii w) as Ha by (eapply Forall_impl; [by apply word_chars|apply word_char_ascii]).
  split.
  - unfold snake_form. destruct ws as [|w' ws]; [done|]. rewrite join_cons by done. rewrite !Forall_app. by repeat constructor.
  - unfold pascal_form. cbn [map concat]. apply Forall_app. split; [|done]. destruct w as [|c r]; [done|]. destruct Hw as [Hc _].
    apply Forall_cons in Ha as [_ Ha]. constructor; [|done]. by apply upper_lower.
Qed.

(** ** The conversions on words *)

Section Conversions.
Context `{UnicodeLaws}.

Lemma snake_loop_word first w cs : Forall (fun b => word_char b = true) w ->
  snake_loop first (map (fun c => [c]) w ++ cs) = w ++ snake_loop (bool_decide (w = []) && first) cs.
Proof.
  intros Hw. revert first. induction Hw as [|c w Hc _ IH]; intros first; [done|]. cbn [map app snake_loop].
  rewrite is_uppercase_ascii by by apply word_char_ascii. rewrite word_char_not_upper, IH by done. cbn [app]. by rewrite andb_false_r.
Qed.

Lemma snake_loop_pascal ws : Forall is_word ws ->
  snake_loop false (map (fun c => [c]) (pascal_form ws)) = concat (map (app [x5f]) ws).
Proof.
  induction 1 as [|w ws Hw _ IH]; [done|]. destruct w as [|c r]; [done|]. destruct Hw as [Hc Hr]. unfold pascal_form in *.
  cbn [map concat capital app snake_loop]. destruct (upper_lower c Hc) as (Hu & Hl & Ha).
  rewrite is_uppercase_ascii, Hu, char_lower_ascii, Hl by done. rewrite map_app, snake_loop_word by done. by rewrite andb_false_r, IH.
Qed.

Lemma snake_form_alt w ws : snake_form (w :: ws) = w ++ concat (map (app [x5f]) ws).
Proof.
  revert w. induction ws as [|w' ws IH]; intros w; [cbn; by rewrite app_nil_r|].
  unfold snake_form in *. rewrite join_cons by done. by rewrite IH.
Qed.

Lemma to_snake_camel_form ws : Forall is_word ws -> to_snake (camel_form ws) = snake_form ws.
Proof.
  intros Hws. destruct ws as [|w ws]; [done|]. apply Forall_cons in Hws as [Hw Hws]. cbn [camel_form]. unfold to_snake.
  pose proof (words_ascii ws Hws) as [_ Ha]. rewrite chars_ascii, map_app, snake_loop_word.
  - destruct w as [|c r]; [done|]. rewrite bool_decide_false by done. cbn [andb]. by rewrite snake_loop_pascal, snake_form_alt.
  - by apply word_chars.
  - apply Forall_app. split; [|done]. eapply Forall_impl; [by apply word_chars|apply word_char_ascii].
Qed.

Lemma to_snake_pascal_form ws : Forall is_word ws -> to_snake (pascal_form ws) = snake_form ws.
Proof.
  intros Hws. pose proof (words_ascii ws Hws) as [_ Ha]. unfold to_snake. rewrite chars_ascii by done.
  destruct Hws as [|w ws Hw Hws]; [done|]. destruct w as [|c r]; [done|]. destruct Hw as [Hc Hr]. unfold pascal_form in *.
  cbn [map concat capital app snake_loop] in *. destruct (upper_lower c Hc) as (Hu & Hl & Hca).
  rewrite is_uppercase_ascii, Hu, char_lower_ascii, Hl by done. rewrite map_app, snake_loop_word by done. rewrite andb_false_r.
  rewrite snake_form_alt. cbn [app]. do 2 f_equal. by apply snake_loop_pascal.
Qed.

Lemma to_snake_snake_form ws : Forall is_word ws -> to_snake (snake_form ws) = snake_form ws.
Proof.
  intros Hws. unfold to_snake. rewrite chars_ascii by by apply words_ascii. generalize true. induction Hws as [|w ws Hw Hws IH]; intros b; [done|].
  rewrite snake_form_alt, map_app, snake_loop_word by by apply word_chars. f_equal. destruct ws as [|w' ws]; [done|]. cbn [map concat app].
  cbn [snake_loop]. rewrite is_uppercase_ascii by done. change (upper_letter x5f) with false. cbn [app]. f_equal.
  rewrite <- snake_form_alt. apply IH.
Qed.

Lemma camel_loop_part upper c r ps : lower_letter c = true -> Forall (fun b => word_char b = true) r ->
  camel_loop upper ((c :: r) :: ps) = ((if upper then ascii_upper c else c) :: r) ++ camel_loop true ps.
Proof.
  intros Hc Hr. assert (is_ascii c) as Ha by by apply word_char_ascii, lower_word_char. cbn [camel_loop].
  rewrite chars_ascii by (constructor; [done|eapply Forall_impl; [exact Hr|apply word_char_ascii]]). cbn [map].
  rewrite char_upper_ascii, char_lower_ascii by done. rewrite lower_word_char_id by by apply lower_word_char.
  assert (concat (map (fun c => [c]) r) = r) as -> by (clear; by induction r; cbn; congruence).
  by destruct upper.
Qed.

Lemma camel_loop_words ws : Forall is_word ws -> camel_loop true ws = pascal_form ws.
Proof.
  induction 1 as [|[|c r] ws Hw _ IH]; [done..|]. destruct Hw as [Hc Hr]. rewrite camel_loop_part by done. unfold pascal_form. cbn [map concat capital].
  by rewrite IH.
Qed.

Lemma split_snake_form ws : ws <> [] -> Forall is_word ws -> split_on x5f (snake_form ws) = ws.
Proof.
  intros Hne Hws. induction Hws as [|w ws Hw Hws IH]; [done|]. rewrite snake_form_alt. destruct ws as [|w' ws].
  - cbn [map concat]. rewrite app_nil_r. apply split_on_none, word_char_no_score. by apply word_chars.
  - cbn [map concat app]. rewrite split_on_app by by apply word_char_no_score, word_chars. f_equal. rewrite <- snake_form_alt. by apply IH.
Qed.

Lemma to_camel_snake_form p ws : ws <> [] -> Forall is_word ws ->
  to_camel (snake_form ws) p = if p then pascal_form ws else camel_form ws.
Proof.
  intros Hne Hws. unfold to_camel. rewrite split_snake_form by done. destruct p; [by apply camel_loop_words|].
  destruct Hws as [|[|c r] ws Hw Hws]; [done..|]. destruct Hw as [Hc Hr]. rewrite camel_loop_part by done. cbn [camel_form]. by rewrite camel_loop_words.
Qed.

Lemma pascal_no_score ws : Forall is_word ws -> x5f ∉ pascal_form ws.
Proof.
  intros Hws Hin. unfold pascal_form in Hin. apply list_elem_of_In, in_concat in Hin as (q & (w & <- & Hw%list_elem_of_In)%in_map_iff & Hq%list_elem_of_In).
  rewrite Forall_forall in Hws. specialize (Hws w Hw). destruct w as [|c r]; [done|]. destruct Hws as [Hc Hr]. cbn [capital] in Hq.
  apply elem_of_cons in Hq as [Hq|Hq]; [|by apply word_char_no_score in Hr].
  destruct (upper_lower c Hc) as [Hu _]. by rewrite <- Hq in Hu.
Qed.

Lemma to_camel_pascal_form p ws : ws <> [] -> Forall is_word ws ->
  to_camel (pascal_form ws) p = if p then pascal_form ws else camel_form ws.
Proof.
  intros Hne Hws. unfold to_camel. rewrite split_on_none by by apply pascal_no_score. pose proof (words_ascii ws Hws) as [_ Ha].
  destruct Hws as [|[|c r] ws Hw Hws]; [done..|]. destruct Hw as [Hc Hr]. cbn [camel_loop]. rewrite chars_ascii by done.
  unfold pascal_form in *. cbn [map concat capital app camel_form]. destruct (upper_lower c Hc) as (Hu & Hl & Hca).
  rewrite char_upper_ascii, char_lower_ascii, Hl by done. rewrite app_nil_r.
  assert (forall s : bytes, concat (map (fun c => [c]) s) = s) as -> by (induction s; cbn; congruence).
  assert (ascii_upper (ascii_upper c) = ascii_upper c) as ->.
  { unfold ascii_upper at 1. unfold upper_letter in Hu. zbool. destruct (Z.leb_spec 97 (b2z (ascii_upper c))); [lia|done]. }
  by destruct p.
Qed.
End Conversions.

Section Rules.
Context `{UnicodeLaws}.

Lemma snake_chars ws b : Forall is_word ws -> b ∈ snake_form ws -> b = x5f \/ word_char b = true.
Proof.
  intros Hws. induction Hws as [|w ws Hw _ IH]; [by intros ?%elem_of_nil|]. rewrite snake_form_alt, elem_of_app. intros [Hb|Hb].
  - right. apply word_chars in Hw. rewrite Forall_forall in Hw. by apply Hw.
  - destruct ws as [|w' ws]; [by apply elem_of_nil in Hb|]. cbn [map concat app] in Hb. apply elem_of_cons in Hb as [->|Hb]; [by left|].
    rewrite <- snake_form_alt in Hb. by apply IH.
Qed.

(** A function that is the identity on the characters of snake case is the identity on such names. *)
Lemma snake_map (f : byte -> byte) ws : Forall is_word ws -> f x5f = x5f -> (forall b, word_char b = true -> f b = b) ->
  map f (snake_form ws) = snake_form ws.
Proof.
  intros Hws Hf Hw. rewrite <- (map_id (snake_form ws)) at 2. apply map_ext_in. intros b Hb%list_elem_of_In.
  destruct (snake_chars ws b Hws Hb) as [->|Hb']; auto.
Qed.

Lemma snake_upper ws : Forall is_word ws -> map ascii_lower (map ascii_upper (snake_form ws)) = snake_form ws.
Proof.
  intros Hws. rewrite map_map. apply snake_map; [done..|]. intros b Hb. destruct (lower_letter b) eqn:Hl; [by apply upper_lower|].
  assert (ascii_upper b = b) as ->; [|by apply lower_word_char_id]. unfold ascii_upper. unfold lower_letter in Hl. by rewrite Hl.
Qed.

Lemma dashes_join ws : Forall is_word ws -> dashes (snake_form ws) = join [x2d] ws.
Proof.
  intros Hws. unfold dashes, snake_form. induction Hws as [|w ws Hw _ IH]; [done|].
  assert (map (fun c => if bool_decide (c = x5f) then x2d else c) w = w) as Hm.
  { rewrite <- (map_id w) at 2. apply map_ext_in. intros b Hb%list_elem_of_In. rewrite bool_decide_false; [done|]. intros ->.
    by apply (word_char_no_score w); [apply word_chars|]. }
  destruct ws as [|w' ws]; [done|]. rewrite !join_cons by done. rewrite !map_app, IH, Hm. done.
Qed.

Lemma map_str_upper ws : Forall is_word ws -> str_upper (snake_form ws) = map ascii_upper (snake_form ws).
Proof. intros Hws. by apply str_upper_ascii, words_ascii. Qed.

(** The spellings a Rust identifier has by convention, and the rules that keep what distinguishes them. *)
Inductive Style := Snake | Pascal.
Definition form (st : Style) (ws : list bytes) : bytes := match st with Snake => snake_form ws | Pascal => pascal_form ws end.
Definition conventional (st : Style) (name : bytes) : Prop := exists ws, ws <> [] /\ Forall is_word ws /\ name = form st ws.
Definition keeps_words (st : Style) (rule : option bytes) : Prop :=
  match st with Snake => True | Pascal => rule <> Some (b!"lowercase") /\ rule <> Some (b!"UPPERCASE") end.

Lemma to_snake_form st ws : Forall is_word ws -> to_snake (form st ws) = snake_form ws.
Proof. destruct st; [apply to_snake_snake_form|apply to_snake_pascal_form]. Qed.

Lemma to_camel_form st p ws : ws <> [] -> Forall is_word ws -> to_camel (form st ws) p = if p then pascal_form ws else camel_form ws.
Proof. destruct st; [apply to_camel_snake_form|apply to_camel_pascal_form]. Qed.

Lemma snake_form_inj ws ws' : ws <> [] -> ws' <> [] -> Forall is_word ws -> Forall is_word ws' -> snake_form ws = snake_form ws' -> ws = ws'.
Proof. intros Hn Hn' Hw Hw' E. by rewrite <- (split_snake_form ws), E, split_snake_form. Qed.

Lemma form_inj st ws ws' : ws <> [] -> ws' <> [] -> Forall is_word ws -> Forall is_word ws' -> form st ws = form st ws' -> ws = ws'.
Proof. intros Hn Hn' Hw Hw' E. apply snake_form_inj; [done..|]. by rewrite <- (to_snake_form st ws), E, to_snake_form. Qed.

Lemma upper_form_inj ws ws' : Forall is_word ws -> Forall is_word ws' -> str_upper (snake_form ws) = str_upper (snake_form ws') -> snake_form ws = snake_form ws'.
Proof.
  intros Hw Hw' E. rewrite !map_str_upper in E by done. apply (f_equal (map ascii_lower)) in E. by rewrite !snake_upper in E.
Qed.

Lemma snake_lower ws : Forall is_word ws -> str_lower (snake_form ws) = snake_form ws.
Proof. intros Hw. rewrite str_lower_ascii by by apply words_ascii. apply snake_map; [done..|apply lower_word_char_id]. Qed.

Lemma dashes_inj ws ws' : Forall is_word ws -> Forall is_word ws' -> dashes (snake_form ws) = dashes (snake_form ws') -> snake_form ws = snake_form ws'.
Proof.
  assert (forall ws, Forall is_word ws -> map (fun c => if bool_decide (c = x2d) then x5f else c) (dashes (snake_form ws)) = snake_form ws) as Hu.
  { intros ws0 Hw0. unfold dashes. rewrite map_map. apply snake_map; [done..|]. intros b Hb.
    rewrite (bool_decide_false (b = x5f)) by (intros ->; done). by rewrite bool_decide_false by (intros ->; done). }
  intros Hw Hw' E. rewrite <- (Hu ws), E by done. by apply Hu.
Qed.

Lemma apply_rename_inj st rule x y : keeps_words st rule -> conventional st x -> conventional st y ->
  apply_rename_all x rule = apply_rename_all y rule -> x = y.
Proof.
  intros Hr (ws & Hn & Hw & ->) (ws' & Hn' & Hw' & ->) E. assert (snake_form ws = snake_form ws') as Hs.
  { destruct rule as [r|]; [|f_equal; by eapply form_inj]. unfold apply_rename_all in E.
    case_bool_decide as H1; [subst r; destruct st; [|by destruct Hr]; cbn [form] in E; by rewrite !snake_lower in E|].
    case_bool_decide as H2; [subst r; destruct st; [|by destruct Hr]; by apply upper_form_inj|].
    case_bool_decide; [by rewrite !to_snake_form in E|].
    case_bool_decide; [rewrite !to_snake_form in E by done; by apply upper_form_inj|].
    case_bool_decide; [rewrite !to_snake_form in E by done; by apply dashes_inj|].
    case_bool_decide; [rewrite !to_camel_form in E by done; apply (f_equal to_snake) in E; by rewrite !to_snake_camel_form in E|].
    case_bool_decide; [rewrite !to_camel_form in E by done; apply (f_equal to_snake) in E; by rewrite !to_snake_pascal_form in E|].
    f_equal. by eapply form_inj. }
  by rewrite (snake_form_inj ws ws').
Qed.
End Rules.

(** ** The plans of the two derives *)

Definition ser_keys (p : SerPlan) : list bytes :=
  match p with SerStruct plan => map (fun m => snd (fst m)) plan | SerEnum vs => map snd vs end.
Definition de_key (m : bytes * bytes * FieldType * bytes * bool) : bytes := let '(_, key, _, _, _) := m in key.
Definition de_keys (p : DePlan) : list bytes := match p with DeStruct plan => map de_key plan | DeEnum vs => map snd vs end.

(** The members of a type with their attributes. *)
Definition data_members (d : Data) : list (bytes * list Attribute) :=
  match d with
  | NamedStruct fields => map (fun f => (f_ident f, f_attrs f)) fields
  | EnumOf vs => map fst vs
  | _ => []
  end.

(** Two computations that fail together and otherwise give the same. *)
Definition agree {A} (r r' : Result A SynError) : Prop :=
  match r, r' with Ok x, Ok y => x = y | Err _, Err _ => True | _, _ => False end.

Lemma traverse_agree {A B} (f g : A -> Result B SynError) l : (forall x, agree (f x) (g x)) -> agree (traverse f l) (traverse g l).
Proof.
  intros Hfg. induction l as [|x l IH]; cbn [traverse]; [done|]. specialize (Hfg x). destruct (f x), (g x); cbn [rbind] in *; try done. subst.
  destruct (traverse f l), (traverse g l); cbn in *; try done. by subst.
Qed.

Section Plans.
Context `{Unicode}.

Definition member_key (cattrs : ContainerAttrs) (m : bytes * list Attribute) : Result bytes SynError :=
  let? ma := member_attrs (snd m) in Ok (wire_key cattrs (fst m) ma).

(** Both plans are a walk over the members that computes their wire keys. *)
Lemma ser_fields_keys c fields :
  (let? plan := traverse (ser_field c) fields in Ok (map (fun m => snd (fst m)) plan)) =
  traverse (member_key c) (map (fun f => (f_ident f, f_attrs f)) fields).
Proof.
  induction fields as [|f fields IH]; [done|]. cbn [map traverse]. rewrite <- IH. unfold ser_field at 1, member_key at 1. cbn [fst snd].
  destruct (member_attrs (f_attrs f)) as [ma|e]; cbn [rbind]; [|done]. by destruct (traverse _ fields).
Qed.

Lemma de_fields_keys c fields :
  (let? plan := traverse (de_field c) fields in Ok (map de_key plan)) =
  traverse (member_key c) (map (fun f => (f_ident f, f_attrs f)) fields).
Proof.
  induction fields as [|f fields IH]; [done|]. cbn [map traverse]. rewrite <- IH. unfold de_field at 1, member_key at 1. cbn [fst snd].
  destruct (member_attrs (f_attrs f)) as [ma|e]; cbn [rbind]; [|done]. by destruct (traverse _ fields).
Qed.

Lemma variants_keys msg c vs :
  match traverse (variant_plan msg c) vs with
  | Ok plan => traverse (member_key c) (map fst vs) = Ok (map snd plan)
  | Err _ => Exists (fun v => snd v = false) vs \/ exists e, traverse (member_key c) (map fst vs) = Err e
  end.
Proof.
  induction vs as [|[[id attrs] unit] vs IH]; cbn [map traverse fst]; [done|]. unfold variant_plan at 1, member_key at 1 3. cbn [fst snd].
  destruct unit; [|left; by constructor]. destruct (member_attrs attrs) as [ma|e]; cbn [rbind]; [|right; by eexists].
  destruct (traverse (variant_plan msg c) vs) as [plan|e]; cbn [rbind map]; [by rewrite IH|].
  destruct IH as [Hx|[e' ->]]; [left; by constructor|right; by eexists].
Qed.

Lemma variants_agree msg msg' c vs : agree (traverse (variant_plan msg c) vs) (traverse (variant_plan msg' c) vs).
Proof. apply traverse_agree. intros [[id attrs] []]; cbn; [|done]. by destruct (member_attrs attrs). Qed.

(** The fields of the generated code carry the keys of the plans. *)
Lemma members_keys sp : forall dp fs, members sp dp = Some fs -> map key fs = map (fun m => snd (fst m)) sp.
Proof.
  induction sp as [|[[id k] skip] sp IH]; intros [|d dp] fs; cbn [members]; [by intros [= <-]|done..|].
  destruct (member _ d) as [f|] eqn:Ef; [|done]. cbn [mbind option_bind]. destruct (members sp dp) as [fs'|] eqn:Es; [|done].
  cbn [mbind option_bind]. intros [= <-]. cbn [map fst snd]. rewrite (IH dp fs' Es). f_equal.
  destruct d as [[[[id' k'] [U enc dec val|T enc dec val]] sl] o]; cbn [member] in Ef; [by injection Ef as <-|].
  destruct skip; [done|by injection Ef as <-].
Qed.

(** The wire keys an accepted derive plans are those of the members, in order. *)
Lemma ser_expand_keys input p : ser_expand input = Ok p ->
  exists c, container_attrs (di_attrs input) = Ok c /\ traverse (member_key c) (data_members (di_data input)) = Ok (ser_keys p).
Proof.
  unfold ser_expand. destruct (container_attrs _) as [c|]; cbn [rbind]; [|done]. intros Hp. exists c. split; [done|].
  destruct (di_data input) as [fields| |vs|]; cbn [data_members]; try done.
  - pose proof (ser_fields_keys c fields) as H1. destruct (traverse _ fields) as [plan|]; cbn [rbind] in Hp; [|done]. injection Hp as <-.
    by rewrite <- H1.
  - pose proof (variants_keys (b!"Encode enums support only unit variants") c vs) as H1. destruct (traverse (variant_plan _ c) vs); cbn [rbind] in Hp; [|done].
    by injection Hp as <-.
Qed.

Lemma traverse_keys c ms : forall ks, traverse (member_key c) ms = Ok ks ->
  Forall (fun m => forall ma, member_attrs (snd m) = Ok ma -> rename ma = None) ms -> ks = map (fun m => apply_rename_all (fst m) c) ms.
Proof.
  induction ms as [|[id attrs] ms IH]; intros ks; cbn [traverse]; [by intros [= <-]|]. unfold member_key at 1. cbn [fst snd].
  destruct (member_attrs attrs) as [ma|e] eqn:Em; cbn [rbind]; [|done]. destruct (traverse _ ms) as [ks'|]; cbn [rbind]; [|done].
  intros [= <-] [Hm Hms]%Forall_cons. cbn [map fst]. rewrite (IH ks' eq_refl Hms). f_equal. unfold wire_key. by rewrite (Hm ma Em).
Qed.
End Plans.

(** C24 The two derives agree: they accept the same types, with the same wire keys for every field or variant, and the code
    they generate for a struct is about fields with those keys. *)
Theorem derives_agree `{Unicode} (input : DeriveInput) :
  match ser_expand input, de_expand input with
  | Ok p, Ok q =>
      ser_keys p = de_keys q /\
      forall sp dp fs, p = SerStruct sp -> q = DeStruct dp -> members sp dp = Some fs -> map key fs = ser_keys p
  | Err _, Err _ => True
  | _, _ => False
  end.
Proof.
  unfold ser_expand, de_expand. destruct (container_attrs _) as [c|]; cbn [rbind]; [|done].
  destruct (di_data input) as [fields| |vs|]; try done.
  - pose proof (ser_fields_keys c fields) as H1. pose proof (de_fields_keys c fields) as H2.
    rewrite <- H1 in H2. destruct (traverse (ser_field c) fields), (traverse (de_field c) fields); cbn [rbind] in *; try done.
    split; [cbn; congruence|]. intros sp dp fs [= <-] [= <-]. apply members_keys.
  - pose proof (variants_agree (b!"Encode enums support only unit variants") (b!"Decode enums support only unit variants") c vs) as H1.
    destruct (traverse _ vs), (traverse _ vs); cbn in H1 |- *; try done. subst. by split.
Qed.

(** What the [rename_all] rules do: a name made of words, in snake case or in Pascal case, becomes the same words in the
    case the rule names. *)
Theorem rename_all_spec `{UnicodeLaws} (st : Style) (ws : list bytes) :
  ws <> [] -> Forall is_word ws ->
  let name := form st ws in
  apply_rename_all name (Some (b!"snake_case")) = join [x5f] ws /\
  apply_rename_all name (Some (b!"SCREAMING_SNAKE_CASE")) = map ascii_upper (join [x5f] ws) /\
  apply_rename_all name (Some (b!"kebab-case")) = join [x2d] ws /\
  apply_rename_all name (Some (b!"camelCase")) = camel_form ws /\
  apply_rename_all name (Some (b!"PascalCase")) = concat (map capital ws) /\
  (st = Snake -> apply_rename_all name (Some (b!"lowercase")) = name).
Proof.
  intros Hn Hw name. unfold apply_rename_all. subst name. rewrite to_snake_form, !to_camel_form by done.
  repeat split; [by apply map_str_upper|by apply dashes_join|]. intros ->. by apply snake_lower.
Qed.

(** No two members share a wire key: when the names of the members are distinct, follow one naming convention and carry
    no [rename], whatever the rule of the container is, unless it forgets the case that separates words in Pascal case. *)
Theorem wire_keys_distinct `{UnicodeLaws} (st : Style) (input : DeriveInput) (p : SerPlan) :
  ser_expand input = Ok p ->
  (forall c, container_attrs (di_attrs input) = Ok c -> keeps_words st c) ->
  Forall (conventional st) (map fst (data_members (di_data input))) -> NoDup (map fst (data_members (di_data input))) ->
  Forall (fun m => forall ma, member_attrs (snd m) = Ok ma -> rename ma = None) (data_members (di_data input)) ->
  NoDup (ser_keys p).
Proof.
  intros (c & Hc & Hk)%ser_expand_keys Hkeep Hconv Hnd Hnr. rewrite (traverse_keys c _ _ Hk Hnr). specialize (Hkeep c Hc). clear Hc Hk Hnr.
  induction (data_members (di_data input)) as [|m ms IH]; [constructor|]. cbn [map] in *.
  apply Forall_cons in Hconv as [Hm Hms]. apply NoDup_cons in Hnd as [Hin Hnd]. apply NoDup_cons. split; [|by apply IH].
  intros (m' & E & Hm'%list_elem_of_In)%list_elem_of_In%in_map_iff. apply Hin.
  replace (fst m) with (fst m'); [by apply list_elem_of_fmap_2|]. eapply apply_rename_inj; [done| |done|done].
  rewrite Forall_forall in Hms. apply Hms. by apply list_elem_of_fmap_2.
Qed.

(** ** Instances *)

(** Tables that know ASCII only. *)
#[export] Instance ascii_tables : Unicode := {
  is_uppercase := fun c => match c with [b] => upper_letter b | _ => false end;
  char_lower := map ascii_lower;
  char_upper := map ascii_upper;
  str_lower := map ascii_lower;
  str_upper := map ascii_upper;
}.

#[export] Instance ascii_tables_laws : UnicodeLaws ascii_tables.
Proof. by split. Qed.

Definition rename_all_attr (rule : bytes) : Attribute :=
  mkAttribute (Some (b!"ferroly")) [mkMeta (Some (b!"rename_all")) (Ok rule) None] None None None.
Definition skip_none_attr : Attribute :=
  mkAttribute (Some (b!"ferroly")) [mkMeta (Some (b!"skip_none")) (Err (b!"expected `=`")) None] None None None.

Definition text_field (id : bytes) (attrs : list Attribute) (opt : bool) : FieldDef :=
  mkField id attrs (if opt then OptionOf bytes string_encode string_decode string_valid else OtherType bytes string_encode string_decode string_valid).

Definition sample_input (rule : bytes) : DeriveInput :=
  mkInput [rename_all_attr rule] (NamedStruct [text_field (b!"max_conns") [] false; text_field (b!"name2") [skip_none_attr] true]).

Lemma rename_all_spec_witness :
  [b!"http"; b!"port2"] <> [] /\ Forall is_word [b!"http"; b!"port2"] /\
  apply_rename_all (b!"HttpPort2") (Some (b!"kebab-case")) = b!"http-port2".
Proof.
  assert (Forall is_word [b!"http"; b!"port2"]) as Hw by (repeat constructor).
  split; [done|]. split; [done|]. by destruct (rename_all_spec Pascal [b!"http"; b!"port2"] ltac:(done) Hw) as (_ & _ & E & _).
Defined.

Lemma wire_keys_distinct_witness :
  ser_expand (sample_input (b!"camelCase")) = Ok (SerStruct [(b!"max_conns", b!"maxConns", false); (b!"name2", b!"name2", true)]) /\
  NoDup [b!"maxConns"; b!"name2"].
Proof.
  split; [by vm_compute|].
  apply (wire_keys_distinct Snake (sample_input (b!"camelCase"))
    (SerStruct [(b!"max_conns", b!"maxConns", false); (b!"name2", b!"name2", true)])); [by vm_compute|done| | |].
  - constructor; [|constructor; [|done]]; [exists [b!"max"; b!"conns"]|exists [b!"name2"]]; (split; [done|]; split; [repeat constructor|by vm_compute]).
  - apply NoDup_cons; split; [set_solver|apply NoDup_singleton].
  - constructor; [|constructor; [|done]]; intros ma Hma; vm_compute in Hma; by injection Hma as <-.
Defined.

(** A raw identifier keeps its prefix on the wire. *)
Example raw_identifier_key :
  ser_keys <$> (match ser_expand (mkInput [] (NamedStruct [text_field (b!"r#type") [] false])) with Ok p => Some p | Err _ => None end)
  = Some [b!"r#type"].
Proof. vm_compute. reflexivity. Qed.

(** A misspelled rule is accepted and does nothing. *)
Example unknown_rule_ignored :
  ser_keys <$> (match ser_expand (sample_input (b!"camelcase")) with Ok p => Some p | Err _ => None end) = Some [b!"max_conns"; b!"name2"].
Proof. vm_compute. reflexivity. Qed.

(** Two fields may be given one wire key. *)
Example colliding_keys_accepted :
  let fields := [text_field (b!"a_b") [] false; text_field (b!"a__b") [] false] in
  ser_keys <$> (match ser_expand (mkInput [rename_all_attr (b!"camelCase")] (NamedStruct fields)) with Ok p => Some p | Err _ => None end)
  = Some [b!"aB"; b!"aB"].
Proof. vm_compute. reflexivity. Qed.
