(* ===== verification/ErrorDerive.v ===== *)
(** * The code that [#[derive(FerrolyError)]] writes ([ferroly-derive/src/error.rs])

    The rewriting of positional placeholders, the arms of [Display], [source] and the [From] impls that the macro emits for
    an enum or a struct, and what they do on a value.  Format strings have the grammar of [std::fmt]; a literal may name the
    fields its pattern binds and nothing else in scope.  The theorems say that the generated code is the behaviour the
    attributes ask for. *)

From S2P Require Import Prelude Text Scan Value Attrs.
Import Attrs.

Open Scope Z_scope.

Module ErrorDerive.

(** ** Attributes *)

Inductive ErrorDisplay := Transparent | Format (lit : bytes).

Fixpoint error_display (attrs : list Attribute) : option ErrorDisplay :=
  match attrs with
  | [] => None
  | a :: attrs =>
      if is_ident (path a) (b!"error") then
        if bool_decide (args_ident a = Some (b!"transparent")) then Some Transparent
        else match args_lit a with Some lit => Some (Format lit) | None => error_display attrs end
      else error_display attrs
  end.

Definition has_from (attrs : list Attribute) : bool := existsb (fun a => is_ident (path a) (b!"from")) attrs.
Definition is_source (attrs : list Attribute) : bool :=
  existsb (fun a => is_ident (path a) (b!"source") || is_ident (path a) (b!"from")) attrs.

(** The fields of a variant or struct: their attributes, their types as written and, where they have them, their names. *)
Inductive Fields :=
| UnitFields
| Unnamed (fs : list (list Attribute * bytes))
| Named (fs : list (bytes * list Attribute)).

Record Variant := mkVariant { v_ident : bytes; v_attrs : list Attribute; v_fields : Fields }.

(** ** Positional placeholders *)

(** The loop of [transform_positional]: each turn takes at least one character, so the length of the text is enough fuel. *)
Fixpoint transform_loop (fuel : nat) (cs : bytes) (out : bytes) : bytes :=
  match fuel, cs with
  | S fuel, c :: cs =>
      if bool_decide (c = x7b) && bool_decide (head cs = Some x7b) then transform_loop fuel (tail cs) (out ++ [x7b; x7b])
      else if bool_decide (c = x7d) && bool_decide (head cs = Some x7d) then transform_loop fuel (tail cs) (out ++ [x7d; x7d])
      else if bool_decide (c = x7b) then
        let '(digits, cs) := F64.span_digits cs in
        transform_loop fuel cs (out ++ [x7b] ++ if bool_decide (digits = []) then [] else b!"__" ++ digits)
      else transform_loop fuel cs (out ++ [c])
  | _, _ => out
  end.
Definition transform_positional (s : bytes) : bytes := transform_loop (length s) s [].

(** ** The generated code *)

(** An arm of [fmt]: forward to a field, or write a literal over the names that the pattern binds. *)
Inductive Body := Forward (i : nat) | Write (lit : bytes) (binds : list bytes).

Record Code := mkCode {
  display_arms : list (bytes * Body);
  source_arms : list (bytes * nat);
  from_impls : list (bytes * bytes);
}.

Definition binds_of (n : nat) : list bytes := map (fun i => b!"__" ++ show_uint (Z.of_nat i)) (seq 0 n).

Definition source_index {A} (attrs : A -> list Attribute) (fs : list A) : option nat :=
  fst <$> list_find (fun f => is_source (attrs f) = true) fs.

Definition emit_transparent (v : Variant) (code : Code) : Result Code SynError :=
  match v_fields v with
  | Unnamed [f] =>
      Ok (mkCode (display_arms code ++ [(v_ident v, Forward 0)]) (source_arms code ++ [(v_ident v, 0%nat)])
            (from_impls code ++ if has_from (fst f) then [(snd f, v_ident v)] else []))
  | Named [f] =>
      Ok (mkCode (display_arms code ++ [(v_ident v, Forward 0)]) (source_arms code ++ [(v_ident v, 0%nat)]) (from_impls code))
  | _ => Err (b!"#[error(transparent)] requires exactly one field")
  end.

Definition source_arm (v : Variant) (i : option nat) : list (bytes * nat) :=
  match i with Some i => [(v_ident v, i)] | None => [] end.

Definition emit_format (v : Variant) (lit : bytes) (code : Code) : Code :=
  match v_fields v with
  | UnitFields => mkCode (display_arms code ++ [(v_ident v, Write lit [])]) (source_arms code) (from_impls code)
  | Unnamed fs =>
      mkCode (display_arms code ++ [(v_ident v, Write (transform_positional lit) (binds_of (length fs)))])
        (source_arms code ++ source_arm v (source_index fst fs))
        (from_impls code ++ match fs with [f] => if has_from (fst f) then [(snd f, v_ident v)] else [] | _ => [] end)
  | Named fs =>
      mkCode (display_arms code ++ [(v_ident v, Write lit (map fst fs))]) (source_arms code ++ source_arm v (source_index snd fs))
        (from_impls code)
  end.

Definition quoted_dots : bytes := [x22] ++ b!"..." ++ [x22].

Definition emit (code : Code) (v : Variant) : Result Code SynError :=
  let? spec := ok_or (error_display (v_attrs v)) (b!"each variant needs #[error(" ++ quoted_dots ++ b!")] or #[error(transparent)]") in
  match spec with Transparent => emit_transparent v code | Format lit => Ok (emit_format v lit code) end.

Fixpoint emit_all (code : Code) (vs : list Variant) : Result Code SynError :=
  match vs with [] => Ok code | v :: vs => let? code := emit code v in emit_all code vs end.

(** [expand_enum] *)
Definition expand_enum (vs : list Variant) : Result Code SynError := emit_all (mkCode [] [] []) vs.

(** [expand_struct]: the body of [fmt] and the field that is the source. *)
Definition expand_struct (attrs : list Attribute) (fields : Fields) : Result (Body * option nat) SynError :=
  let? spec := ok_or (error_display attrs) (b!"struct needs #[error(" ++ quoted_dots ++ b!")] or #[error(transparent)]") in
  match spec with
  | Transparent =>
      match fields with
      | Unnamed [_] | Named [_] => Ok (Forward 0, Some 0%nat)
      | _ => Err (b!"#[error(transparent)] requires exactly one field")
      end
  | Format lit =>
      match fields with
      | UnitFields => Ok (Write lit [], None)
      | Named fs => Ok (Write lit (map fst fs), source_index snd fs)
      | Unnamed fs => Ok (Write (transform_positional lit) (binds_of (length fs)), source_index fst fs)
      end
  end.

(** ** Format strings *)

(** A piece of a format string: a character, or a placeholder with its argument and its specification. *)
Inductive Piece := Lit (c : byte) | Arg (name spec : bytes).

Definition name_char (b : byte) : bool :=
  word_char b || upper_letter b || bool_decide (b = x5f) || (128 <=? b2z b).

Fixpoint span_name (s : bytes) : bytes * bytes :=
  match s with
  | c :: s' => if name_char c then let '(n, r) := span_name s' in (c :: n, r) else ([], s)
  | [] => ([], [])
  end.

(** A position or an identifier, or nothing for the next argument. *)
Definition name_ok (name : bytes) : bool :=
  match name with c :: _ => negb (F64.is_digit c) || forallb F64.is_digit name | [] => true end.
Definition spec_ok (spec : bytes) : bool := match spec with c :: _ => bool_decide (c ∈ [x3a; x20]) | [] => true end.

Definition parse_arg (body : bytes) : option Piece :=
  let '(name, spec) := span_name body in
  if bool_decide (x7b ∉ body) && name_ok name && spec_ok spec then Some (Arg name spec) else None.

Fixpoint parse_loop (fuel : nat) (s : bytes) : option (list Piece) :=
  match s with
  | [] => Some []
  | c :: s =>
      match fuel with
      | O => None
      | S fuel =>
          if bool_decide (c = x7b) then
            if bool_decide (head s = Some x7b) then cons (Lit x7b) <$> parse_loop fuel (tail s)
            else '(body, rest) ← split_once x7d s; a ← parse_arg body; cons a <$> parse_loop fuel rest
          else if bool_decide (c = x7d) then
            if bool_decide (head s = Some x7d) then cons (Lit x7d) <$> parse_loop fuel (tail s) else None
          else cons (Lit c) <$> parse_loop fuel s
      end
  end.
Definition parse_format (s : bytes) : option (list Piece) := parse_loop (length s) s.

(** ** Running the code *)

Definition arm {A} (l : list (bytes * A)) (vid : bytes) : option A :=
  (fun p => snd (snd p)) <$> list_find (fun p => fst p = vid) l.

Section Run.
(** The values of fields, with their display under a format specification. *)
Context {V : Type} (show : bytes -> V -> bytes).

(** [write!(f, lit)] where [binds] are in scope with the values [vals]; nothing where it does not compile. *)
Definition piece (binds : list bytes) (vals : list V) (p : Piece) : option bytes :=
  match p with
  | Lit c => Some [c]
  | Arg name spec =>
      i ← fst <$> list_find (fun b => b = name) binds;
      v ← vals !! i;
      Some (show spec v)
  end.
Definition write (binds : list bytes) (vals : list V) (lit : bytes) : option bytes :=
  ps ← parse_format lit; @concat byte <$> mapM (piece binds vals) ps.

Definition run_body (b : Body) (vals : list V) : option bytes :=
  match b with
  | Forward i => show [] <$> vals !! i
  | Write lit binds => write binds vals lit
  end.

(** The generated [fmt] and [source]. *)
Definition fmt (code : Code) (vid : bytes) (vals : list V) : option bytes := b ← arm (display_arms code) vid; run_body b vals.
Definition source (code : Code) (vid : bytes) (vals : list V) : option V := i ← arm (source_arms code) vid; vals !! i.
End Run.
End ErrorDerive.
Import ErrorDerive.

(** ** The rewriting on format strings *)

Lemma span_digits_app s : let '(d, r) := F64.span_digits s in
  s = d ++ r /\ Forall (fun c => F64.is_digit c = true) d /\ match r with c :: _ => F64.is_digit c = false | [] => True end.
Proof.
  induction s as [|c s IH]; cbn [F64.span_digits]; [done|]. destruct (F64.is_digit c) eqn:E; [|done].
  destruct (F64.span_digits s) as [d r]. destruct IH as (-> & Hd & Hr). split; [done|]. split; [by constructor|done].
Qed.

Lemma span_digits_length s : (length (snd (F64.span_digits s)) <= length s)%nat.
Proof.
  pose proof (span_digits_app s) as H. destruct (F64.span_digits s) as [d r]. destruct H as [-> _]. rewrite length_app. cbn. lia.
Qed.

(** One turn of the loop. *)
Lemma transform_turn f c cs out : transform_loop (S f) (c :: cs) out =
  if bool_decide (c = x7b) && bool_decide (head cs = Some x7b) then transform_loop f (tail cs) (out ++ [x7b; x7b])
  else if bool_decide (c = x7d) && bool_decide (head cs = Some x7d) then transform_loop f (tail cs) (out ++ [x7d; x7d])
  else if bool_decide (c = x7b) then
    let '(digits, cs) := F64.span_digits cs in
    transform_loop f cs (out ++ [x7b] ++ if bool_decide (digits = []) then [] else b!"__" ++ digits)
  else transform_loop f cs (out ++ [c]).
Proof. done. Qed.

Lemma transform_loop_enough f1 : forall f2 cs out, (length cs <= f1)%nat -> (length cs <= f2)%nat ->
  transform_loop f1 cs out = transform_loop f2 cs out.
Proof.
  induction f1 as [|f1 IH]; intros [|f2] [|c cs] out H1 H2; try done; cbn [length] in *; try lia. cbn [transform_loop].
  assert (length (tail cs) <= length cs)%nat by (destruct cs; cbn; lia). pose proof (span_digits_length cs) as Hd.
  destruct (_ && _); [apply IH; lia|]. destruct (_ && _); [apply IH; lia|]. case_bool_decide; [|apply IH; lia].
  destruct (F64.span_digits cs) as [d r]. cbn [snd] in Hd. apply IH; lia.
Qed.

Lemma transform_loop_out f : forall cs out, transform_loop f cs out = out ++ transform_loop f cs [].
Proof.
  assert (forall f, (forall cs out, transform_loop f cs out = out ++ transform_loop f cs []) ->
    forall cs out x, transform_loop f cs (out ++ x) = out ++ transform_loop f cs ([] ++ x)) as Hstep.
  { intros g IH cs out x. rewrite IH, (IH cs ([] ++ x)). by rewrite <- app_assoc. }
  induction f as [|f IH]; intros [|c cs] out; cbn [transform_loop]; try by rewrite app_nil_r.
  destruct (_ && _); [by apply Hstep|]. destruct (_ && _); [by apply Hstep|]. case_bool_decide; [|by apply Hstep].
  destruct (F64.span_digits cs) as [d r]. by apply Hstep.
Qed.

Lemma transform_step f cs out : (length cs <= f)%nat -> transform_loop f cs out = out ++ transform_positional cs.
Proof. intros H. rewrite transform_loop_out. f_equal. by apply transform_loop_enough. Qed.

(** Other characters than an opening brace are kept, whether or not a closing brace is doubled. *)
Lemma transform_keep c cs : c <> x7b -> transform_positional (c :: cs) = c :: transform_positional cs.
Proof.
  revert c. remember (length cs) as n eqn:En. revert cs En. induction n as [n IH] using lt_wf_ind. intros cs En c Hc.
  unfold transform_positional at 1. cbn [length]. rewrite transform_turn, (bool_decide_false (c = x7b)) by done. cbn [andb].
  destruct (bool_decide (c = x7d) && _) eqn:E; [|by rewrite transform_step].
  apply andb_true_iff in E as [->%bool_decide_eq_true Hh%bool_decide_eq_true]. destruct cs as [|c' cs]; [done|]. injection Hh as ->. cbn [tail].
  rewrite transform_step by (cbn; lia).
  rewrite (IH (length cs)); [done|subst n; cbn; lia|done|done].
Qed.

Lemma transform_keeps w cs : x7b ∉ w -> transform_positional (w ++ cs) = w ++ transform_positional cs.
Proof.
  induction w as [|c w IH]; [done|]. rewrite not_elem_of_cons. intros [Hc Hw]. cbn [app]. rewrite transform_keep by congruence. by rewrite IH.
Qed.

Lemma transform_double cs : transform_positional (x7b :: x7b :: cs) = x7b :: x7b :: transform_positional cs.
Proof. unfold transform_positional at 1. cbn [length]. rewrite transform_turn. cbn [head tail]. rewrite !bool_decide_true by done. cbn [andb]. by rewrite transform_step by lia. Qed.

Definition rename_digits (body : bytes) : bytes :=
  let '(d, r) := F64.span_digits body in (if bool_decide (d = []) then [] else b!"__" ++ d) ++ r.

Lemma span_digits_body body c cs : F64.is_digit c = false ->
  F64.span_digits (body ++ c :: cs) = (fst (F64.span_digits body), snd (F64.span_digits body) ++ c :: cs).
Proof.
  intros Hc. induction body as [|b body IH]; cbn [app F64.span_digits]; [by rewrite Hc|]. destruct (F64.is_digit b); [|done].
  rewrite IH. by destruct (F64.span_digits body).
Qed.

Lemma transform_placeholder body cs : x7b ∉ body -> transform_positional (x7b :: body ++ x7d :: cs) = x7b :: rename_digits body ++ x7d :: transform_positional cs.
Proof.
  intros Hb. unfold transform_positional at 1. cbn [length]. rewrite transform_turn, (bool_decide_true (x7b = x7b)) by done.
  rewrite (bool_decide_false (head _ = Some x7b)).
  2: { destruct body as [|b body]; [done|]. cbn. intros [= ->]. apply Hb. left. }
  rewrite (bool_decide_false (x7b = x7d)) by done. cbn [andb]. rewrite span_digits_body by done. unfold rename_digits.
  pose proof (span_digits_app body) as H. destruct (F64.span_digits body) as [d r]. destruct H as (-> & _ & _). cbn [fst snd].
  rewrite transform_step by (rewrite !length_app; lia). rewrite transform_keeps by set_solver. rewrite transform_keep by done.
  cbn [app]. by rewrite <- !app_assoc.
Qed.

(** A placeholder after the rewriting: a position names the pattern's variable. *)
Definition rename_piece (p : Piece) : Piece :=
  match p with
  | Arg (c :: n) spec => if F64.is_digit c then Arg (b!"__" ++ c :: n) spec else p
  | _ => p
  end.

Lemma span_name_app s : let '(n, r) := span_name s in
  s = n ++ r /\ Forall (fun c => name_char c = true) n /\ match r with c :: _ => name_char c = false | [] => True end.
Proof.
  induction s as [|c s IH]; cbn [span_name]; [done|]. destruct (name_char c) eqn:E; [|done].
  destruct (span_name s) as [n r]. destruct IH as (-> & Hn & Hr). split; [done|]. split; [by constructor|done].
Qed.

Lemma span_name_exact n r : Forall (fun c => name_char c = true) n -> match r with c :: _ => name_char c = false | [] => True end ->
  span_name (n ++ r) = (n, r).
Proof.
  induction 1 as [|c n Hc _ IH]; intros Hr; cbn [app span_name].
  - destruct r as [|c r]; [done|]. cbn [span_name]. by rewrite Hr.
  - by rewrite Hc, IH.
Qed.

Lemma digit_name_char c : F64.is_digit c = true -> name_char c = true.
Proof. intros H. unfold name_char, word_char. rewrite H. by rewrite orb_true_r. Qed.

Lemma parse_renamed body a : parse_arg body = Some a -> parse_arg (rename_digits body) = Some (rename_piece a) /\ x7d ∉ b!"__" /\ x7b ∉ body.
Proof.
  unfold parse_arg at 1. pose proof (span_name_app body) as Hs. destruct (span_name body) as [n r]. destruct Hs as (-> & Hn & Hr).
  destruct (bool_decide _ && _ && _) eqn:E; [|done]. intros [= <-]. apply andb_true_iff in E as [[Hb%bool_decide_eq_true Ho]%andb_true_iff Hsp].
  split; [|split; [by vm_compute; set_solver|done]]. unfold rename_digits. destruct n as [|c n].
  - cbn [app rename_piece]. assert (fst (F64.span_digits r) = []) as Hd.
    { destruct r as [|c r]; [done|]. cbn [F64.span_digits]. destruct (F64.is_digit c) eqn:E; [|done]. by apply digit_name_char in E; congruence. }
    pose proof (span_digits_app r) as H. destruct (F64.span_digits r) as [d r']. cbn [fst] in Hd. subst d. destruct H as (E & _ & _). cbn [app] in E. subst r'.
    rewrite bool_decide_true by done. cbn [app]. unfold parse_arg. assert (span_name r = ([], r)) as -> by (by apply (span_name_exact [] r)).
    rewrite bool_decide_true by done. by rewrite Hsp.
  - cbn [rename_piece]. destruct (F64.is_digit c) eqn:Ec.
    + cbn [name_ok] in Ho. rewrite Ec in Ho. cbn [negb orb] in Ho.
      assert (F64.span_digits ((c :: n) ++ r) = (c :: n, r)) as ->.
      { clear -Ho Hr. revert Ho. generalize (c :: n). intros l. induction l as [|x l IH]; cbn [app forallb F64.span_digits].
        - intros _. destruct r as [|y r]; [done|]. cbn [F64.span_digits]. destruct (F64.is_digit y) eqn:E; [|done]. apply digit_name_char in E. congruence.
        - intros [-> Hl]%andb_true_iff. by rewrite IH. }
      rewrite bool_decide_false by done. unfold parse_arg. rewrite <- app_assoc, (app_assoc (b!"__")). rewrite span_name_exact; [|apply Forall_app; split; [by repeat constructor|done]|done].
      rewrite bool_decide_true by (cbn [app] in *; set_solver). by rewrite Hsp.
    + cbn [app F64.span_digits]. rewrite Ec, bool_decide_true by done. cbn [app]. unfold parse_arg. rewrite app_comm_cons, span_name_exact by done.
      rewrite bool_decide_true by done. by rewrite Ho, Hsp.
Qed.

Lemma parse_turn f c s : parse_loop (S f) (c :: s) =
  if bool_decide (c = x7b) then
    if bool_decide (head s = Some x7b) then cons (Lit x7b) <$> parse_loop f (tail s)
    else '(body, rest) ← split_once x7d s; a ← parse_arg body; cons a <$> parse_loop f rest
  else if bool_decide (c = x7d) then
    if bool_decide (head s = Some x7d) then cons (Lit x7d) <$> parse_loop f (tail s) else None
  else cons (Lit c) <$> parse_loop f s.
Proof. done. Qed.

Lemma parse_loop_enough f1 : forall f2 s, (length s <= f1)%nat -> (length s <= f2)%nat -> parse_loop f1 s = parse_loop f2 s.
Proof.
  induction f1 as [|f1 IH]; intros [|f2] [|c s] H1 H2; try done; cbn [length] in *; try lia. rewrite !parse_turn.
  assert (length (tail s) <= length s)%nat by (destruct s; cbn; lia). rewrite (IH f2 (tail s)), (IH f2 s) by lia.
  destruct (split_once x7d s) as [[body rest]|] eqn:E; [|done]. apply split_once_Some in E as [-> _]. rewrite length_app in *. cbn [length] in *.
  cbn [mbind option_bind]. rewrite (IH f2 rest) by lia. done.
Qed.

Lemma parse_step f s : (length s <= f)%nat -> parse_loop f s = parse_format s.
Proof. intros H. by apply parse_loop_enough. Qed.

(** The four ways a non-empty literal is read. *)
Lemma parse_cons c s : parse_format (c :: s) =
  if bool_decide (c = x7b) then
    if bool_decide (head s = Some x7b) then cons (Lit x7b) <$> parse_format (tail s)
    else '(body, rest) ← split_once x7d s; a ← parse_arg body; cons a <$> parse_format rest
  else if bool_decide (c = x7d) then
    if bool_decide (head s = Some x7d) then cons (Lit x7d) <$> parse_format (tail s) else None
  else cons (Lit c) <$> parse_format s.
Proof.
  unfold parse_format at 1. cbn [length]. rewrite parse_turn. rewrite (parse_step _ (tail s)) by (destruct s; cbn; lia).
  rewrite (parse_step _ s) by lia. destruct (split_once x7d s) as [[body rest]|] eqn:E; [|done]. apply split_once_Some in E as [-> _].
  cbn [mbind option_bind]. rewrite (parse_step _ rest); [done|]. rewrite length_app. cbn. lia.
Qed.

Lemma rename_digits_avoids c body : c ∉ body -> c <> x5f -> c ∉ rename_digits body.
Proof.
  intros Hb Hc. unfold rename_digits. pose proof (span_digits_app body) as H. destruct (F64.span_digits body) as [d r]. destruct H as (-> & _).
  case_bool_decide; cbn [app]; [set_solver|]. change (b!"__") with [x5f; x5f]. set_solver.
Qed.

(** Whatever a literal means, its rewriting means the same with the positions as names. *)
Lemma transform_parse s : forall ps, parse_format s = Some ps -> parse_format (transform_positional s) = Some (map rename_piece ps).
Proof.
  remember (length s) as n eqn:En. revert s En. induction n as [n IH] using lt_wf_ind. intros [|c s] En ps; [by intros [= <-]|].
  rewrite parse_cons. case_bool_decide as Hc; [subst c; case_bool_decide as Hh|].
  - destruct s as [|c s]; [done|]. injection Hh as ->. cbn [tail]. destruct (parse_format s) as [qs|] eqn:E; [|done]. cbn [fmap option_fmap option_map].
    intros [= <-]. rewrite transform_double, parse_cons. cbn [head tail]. rewrite !bool_decide_true by done.
    by rewrite (IH (length s) ltac:(subst; cbn; lia) s eq_refl qs E).
  - destruct (split_once x7d s) as [[body rest]|] eqn:E; [|done]. apply split_once_Some in E as [-> Hb]. cbn [mbind option_bind].
    destruct (parse_arg body) as [a|] eqn:Ea; [|done]. cbn [mbind option_bind]. destruct (parse_format rest) as [qs|] eqn:Er; [|done].
    cbn [fmap option_fmap option_map]. intros [= <-]. destruct (parse_renamed body a Ea) as (Ha & _ & Hnb).
    rewrite transform_placeholder, parse_cons, bool_decide_true by done. rewrite bool_decide_false.
    2: { pose proof (rename_digits_avoids x7b body Hnb ltac:(done)) as Hn. destruct (rename_digits body) as [|x l]; [done|].
         cbn. intros [= ->]. apply Hn. left. }
    rewrite split_once_app by (by apply rename_digits_avoids). cbn [mbind option_bind]. rewrite Ha. cbn [mbind option_bind].
    rewrite (IH (length rest)) with (s := rest) (ps := qs); [done|subst; cbn; rewrite length_app; cbn; lia|done|done].
  - rewrite transform_keep, parse_cons, (bool_decide_false (c = x7b)) by done. case_bool_decide as Hd.
    + case_bool_decide as Hh; [|done]. destruct s as [|c' s]; [done|]. injection Hh as ->. cbn [tail].
      destruct (parse_format s) as [qs|] eqn:E; [|done]. cbn [fmap option_fmap option_map]. intros [= <-].
      rewrite transform_keep by done. cbn [head tail]. rewrite bool_decide_true by done.
      by rewrite (IH (length s) ltac:(subst; cbn; lia) s eq_refl qs E).
    + destruct (parse_format s) as [qs|] eqn:E; [|done]. cbn [fmap option_fmap option_map]. intros [= <-].
      rewrite (IH (length s) ltac:(subst; cbn; lia) s eq_refl qs E). cbn. by subst.
Qed.

(** ** What the attributes ask for *)

Section Reference.
Context {V : Type} (show : bytes -> V -> bytes).

(** The field a placeholder means: of a tuple by its position, of named fields by its name. *)
Definition field_of (fs : Fields) (name : bytes) : option nat :=
  match fs with
  | UnitFields => None
  | Unnamed fs => fst <$> list_find (fun i => show_uint (Z.of_nat i) = name) (seq 0 (length fs))
  | Named fs => fst <$> list_find (fun n => n = name) (map fst fs)
  end.

Definition piece_spec (fs : Fields) (vals : list V) (p : Piece) : option bytes :=
  match p with
  | Lit c => Some [c]
  | Arg name spec => i ← field_of fs name; v ← vals !! i; Some (show spec v)
  end.

Definition display_spec (v : Variant) (vals : list V) : option bytes :=
  match error_display (v_attrs v) with
  | Some Transparent => show [] <$> vals !! 0%nat
  | Some (Format lit) => ps ← parse_format lit; @concat byte <$> mapM (piece_spec (v_fields v) vals) ps
  | None => None
  end.

(** The cause of a variant with a format string: the first field marked [#[source]] or [#[from]]. *)
Definition source_spec (v : Variant) (vals : list V) : option V :=
  i ← match v_fields v with UnitFields => None | Unnamed fs => source_index fst fs | Named fs => source_index snd fs end;
  vals !! i.
End Reference.

Definition transparent (v : Variant) : bool :=
  match error_display (v_attrs v) with Some Transparent => true | _ => false end.

(** The types a variant is built from by [From]: of the only field of a tuple, when it is marked. *)
Definition from_spec (v : Variant) : list (bytes * bytes) :=
  match v_fields v with Unnamed [f] => if has_from (fst f) then [(snd f, v_ident v)] else [] | _ => [] end.

(** [#[from]] marks no field but the only one of a tuple. *)
Definition from_on_tuple (v : Variant) : bool :=
  match v_fields v with
  | UnitFields | Unnamed [_] => true
  | Unnamed fs => forallb (fun f => negb (has_from (fst f))) fs
  | Named fs => forallb (fun f => negb (has_from (snd f))) fs
  end.

(** A literal [std::fmt] reads, whose names do not begin with the two underscores of the pattern variables, and which
    addresses tuple fields by position and named fields by name. *)
Definition plain_piece (tuple : bool) (p : Piece) : bool :=
  match p with
  | Arg (c :: n) _ => if tuple then F64.is_digit c || negb (starts_with (c :: n) (b!"__")) else true
  | Arg [] _ => true
  | Lit _ => true
  end.
Definition readable (v : Variant) : Prop :=
  match error_display (v_attrs v) with
  | Some (Format lit) => exists ps, parse_format lit = Some ps /\ forallb (plain_piece (match v_fields v with Unnamed _ => true | _ => false end)) ps = true
  | _ => True
  end.

(** ** The emitted arms *)

(** The arms of one variant. *)
Definition arms_of (v : Variant) : Result Code SynError := emit (mkCode [] [] []) v.

Definition code_app (a b : Code) : Code :=
  mkCode (display_arms a ++ display_arms b) (source_arms a ++ source_arms b) (from_impls a ++ from_impls b).

Lemma emit_app code v : emit code v = let? a := arms_of v in Ok (code_app code a).
Proof.
  unfold arms_of, emit. destruct (error_display _) as [[|lit]|]; cbn [ok_or rbind]; [| |done].
  - unfold emit_transparent, code_app. destruct (v_fields v) as [|[|f [|]]|[|f [|]]]; cbn; rewrite ?app_nil_r; try done.
  - unfold emit_format, code_app. destruct (v_fields v); cbn; by rewrite ?app_nil_r.
Qed.

Lemma code_app_assoc a b c : code_app a (code_app b c) = code_app (code_app a b) c.
Proof. unfold code_app. cbn. by rewrite !app_assoc. Qed.

Lemma emit_all_app vs : forall code, emit_all code vs = let? a := emit_all (mkCode [] [] []) vs in Ok (code_app code a).
Proof.
  induction vs as [|v vs IH]; intros code; cbn [emit_all].
  - cbn. unfold code_app. cbn. rewrite !app_nil_r. by destruct code.
  - rewrite (emit_app code). fold (arms_of v). destruct (arms_of v) as [a|]; cbn [rbind]; [|done].
    rewrite IH, (IH a). destruct (emit_all _ vs) as [b|]; cbn [rbind]; [|done]. by rewrite code_app_assoc.
Qed.

(** The code of an enum is the arms of its variants, one after another. *)
Lemma expand_cons v vs code : expand_enum (v :: vs) = Ok code ->
  exists a b, arms_of v = Ok a /\ expand_enum vs = Ok b /\ code = code_app a b.
Proof.
  unfold expand_enum. cbn [emit_all]. fold (arms_of v). destruct (arms_of v) as [a|]; cbn [rbind]; [|done].
  rewrite emit_all_app. destruct (emit_all _ vs) as [b|]; cbn [rbind]; [|done]. intros [= <-]. by exists a, b.
Qed.

Definition own_arms (vid : bytes) (c : Code) : Prop :=
  Forall (fun p => fst p = vid) (display_arms c) /\ Forall (fun p => fst p = vid) (source_arms c) /\ Forall (fun p => snd p = vid) (from_impls c).

Lemma arms_own v a : arms_of v = Ok a -> own_arms (v_ident v) a.
Proof.
  unfold arms_of, emit, own_arms. destruct (error_display _) as [[|lit]|]; cbn [ok_or rbind]; [| |done].
  - unfold emit_transparent. destruct (v_fields v) as [|[|[at0 ty] [|]]|[|[id at0] [|]]]; try done; intros [= <-]; cbn [display_arms source_arms from_impls app fst snd];
      (split; [by repeat constructor|]; split; [by repeat constructor|]); [destruct (has_from at0); by repeat constructor|done].
  - intros [= <-]. unfold emit_format, source_arm. destruct (v_fields v) as [|fs|fs]; cbn [display_arms source_arms from_impls app];
      (split; [by repeat constructor|]); [done|split; [destruct (source_index _ fs); cbn; by repeat constructor|]..]; [|done].
    destruct fs as [|[at0 ty] [|]]; cbn [fst snd]; [by constructor| |by constructor]. destruct (has_from at0); by repeat constructor.
Qed.

(** ** Finding the arms of a variant *)

Lemma arm_app {A} (l l' : list (bytes * A)) vid : arm (l ++ l') vid = match arm l vid with Some x => Some x | None => arm l' vid end.
Proof.
  unfold arm. induction l as [|p l IH]; cbn [app list_find].
  - done.
  - case_decide; [done|]. destruct (list_find _ (l ++ l')) as [[] |], (list_find _ l) as [[] |], (list_find _ l') as [[] |]; cbn in *; congruence.
Qed.

Lemma arm_absent {A} (l : list (bytes * A)) vid : Forall (fun p => fst p <> vid) l -> arm l vid = None.
Proof. unfold arm. induction 1 as [|p l Hp _ IH]; cbn [list_find]; [done|]. rewrite decide_False by done. by destruct (list_find _ l). Qed.

(** The keys of the arms of other variants. *)
Definition foreign (vid : bytes) (c : Code) : Prop :=
  Forall (fun p => fst p <> vid) (display_arms c) /\ Forall (fun p => fst p <> vid) (source_arms c) /\ Forall (fun p => snd p <> vid) (from_impls c).

Lemma own_foreign vid vid' c : vid' <> vid -> own_arms vid' c -> foreign vid c.
Proof. intros Hne (H1 & H2 & H3). split; [|split]; (eapply Forall_impl; [eassumption|]); intros p Hp; congruence. Qed.

Lemma foreign_app vid a b : foreign vid a -> foreign vid b -> foreign vid (code_app a b).
Proof. intros (? & ? & ?) (? & ? & ?). by repeat split; apply Forall_app. Qed.

Lemma expand_foreign vid vs : forall code, expand_enum vs = Ok code -> vid ∉ map v_ident vs -> foreign vid code.
Proof.
  induction vs as [|v vs IH]; intros code; [intros [= <-] _; by repeat split|]. intros (a & b & Ha & Hb & ->)%expand_cons. cbn [map].
  rewrite not_elem_of_cons. intros [Hv Hvs]. apply foreign_app; [|by apply IH]. eapply own_foreign; [|by apply arms_own]. congruence.
Qed.

(** What the generated code does on a variant is decided by the arms of that variant. *)
Lemma variant_arms vs v : forall code, NoDup (map v_ident vs) -> expand_enum vs = Ok code -> v ∈ vs ->
  exists a, arms_of v = Ok a /\ arm (display_arms code) (v_ident v) = arm (display_arms a) (v_ident v) /\
    arm (source_arms code) (v_ident v) = arm (source_arms a) (v_ident v) /\
    filter (fun p => snd p = v_ident v) (from_impls code) = from_impls a.
Proof.
  assert (forall l : list (bytes * bytes), Forall (fun p => snd p <> v_ident v) l -> filter (fun p => snd p = v_ident v) l = []) as Hnone.
  { induction 1 as [|p l Hp _ IH]; [done|]. by rewrite filter_cons_False. }
  induction vs as [|v' vs IH]; intros code; [by intros _ _ ?%elem_of_nil|]. cbn [map]. intros [Hin Hnd]%NoDup_cons (a & b & Ha & Hb & ->)%expand_cons Hv.
  apply elem_of_cons in Hv as [->|Hv].
  - exists a. destruct (expand_foreign (v_ident v') vs b Hb Hin) as (H1 & H2 & H3). pose proof (arms_own v' a Ha) as (_ & _ & H4). split; [done|].
    unfold code_app. cbn [display_arms source_arms from_impls]. rewrite !arm_app, !(arm_absent _ _ H1), !(arm_absent _ _ H2), filter_app, (Hnone _ H3), app_nil_r.
    split; [by destruct (arm _ _)|]. split; [by destruct (arm _ _)|]. clear -H4. induction H4 as [|p l Hp _ IH]; [done|]. by rewrite filter_cons_True, IH.
  - assert (v_ident v' <> v_ident v) as Hne by (intros E; apply Hin; rewrite E; by apply list_elem_of_fmap_2).
    destruct (IH b Hnd Hb Hv) as (a' & Ha' & H1 & H2 & H3). exists a'. split; [done|].
    destruct (own_foreign (v_ident v) (v_ident v') a Hne (arms_own v' a Ha)) as (F1 & F2 & F3). unfold code_app. cbn [display_arms source_arms from_impls].
    by rewrite !arm_app, (arm_absent _ _ F1), (arm_absent _ _ F2), filter_app, (Hnone _ F3).
Qed.

(** ** Writing a literal *)

Section Writing.
Context {V : Type} (show : bytes -> V -> bytes).

Lemma mapM_renamed (f g : Piece -> option bytes) (r : Piece -> Piece) (P : Piece -> bool) ps :
  (forall p, P p = true -> f (r p) = g p) -> forallb P ps = true -> mapM f (map r ps) = mapM g ps.
Proof.
  intros H. induction ps as [|p ps IH]; [done|]. cbn [forallb]. rewrite andb_true_iff. intros [Hp Hps]. cbn [map].
  change (mapM f (r p :: map r ps)) with (y ← f (r p); ys ← mapM f (map r ps); Some (y :: ys)).
  change (mapM g (p :: ps)) with (y ← g p; ys ← mapM g ps; Some (y :: ys)). by rewrite H, IH.
Qed.

Lemma find_bind n d : fst <$> list_find (fun b => b = b!"__" ++ d) (binds_of n) = fst <$> list_find (fun i => show_uint (Z.of_nat i) = d) (seq 0 n).
Proof.
  unfold binds_of. generalize (seq 0 n). intros l. induction l as [|i l IH]; [done|]. cbn [map list_find].
  destruct (decide (show_uint (Z.of_nat i) = d)) as [E|E].
  - by rewrite !decide_True by (by rewrite ?E).
  - rewrite decide_False by (intros [= H]; by apply E). destruct (list_find _ (map _ l)) as [[]|], (list_find _ l) as [[]|]; cbn in *; congruence.
Qed.

Lemma find_bind_none n name : starts_with name (b!"__") = false -> list_find (fun b => b = name) (binds_of n) = None.
Proof.
  intros Hn. unfold binds_of. generalize (seq 0 n). intros l. induction l as [|i l IH]; [done|]. cbn [map list_find].
  rewrite decide_False; [by rewrite IH|]. intros <-. by rewrite starts_with_app in Hn.
Qed.

Lemma find_position_none n name : (forall i, show_uint (Z.of_nat i) <> name) -> list_find (fun i => show_uint (Z.of_nat i) = name) (seq 0 n) = None.
Proof.
  intros Hn. generalize (seq 0 n). intros l. induction l as [|i l IH]; [done|]. cbn [list_find]. rewrite decide_False by apply Hn. by rewrite IH.
Qed.

(** A tuple placeholder finds the variable of its position. *)
Lemma tuple_piece fs vals p : plain_piece true p = true ->
  piece show (binds_of (length fs)) vals (rename_piece p) = piece_spec show (Unnamed fs) vals p.
Proof.
  assert (forall i, exists c r, show_uint (Z.of_nat i) = c :: r /\ F64.is_digit c = true) as Hshow.
  { intros i. destruct (show_uint_digits (Z.of_nat i)) as (Hne & Hd & _); [lia|]. destruct (show_uint (Z.of_nat i)) as [|c r]; [done|].
    apply Forall_cons in Hd as [Hd _]. by exists c, r. }
  destruct p as [c|[|c n] spec]; cbn [plain_piece rename_piece]; [done|intros _|intros Hp].
  - cbn [piece piece_spec field_of]. rewrite find_bind_none, find_position_none; [done| |done].
    intros i. destruct (Hshow i) as (? & ? & -> & _). done.
  - destruct (F64.is_digit c) eqn:Ed; cbn [orb] in Hp.
    + cbn [piece piece_spec field_of]. by rewrite find_bind.
    + cbn [piece piece_spec field_of]. apply negb_true_iff in Hp. rewrite find_bind_none, find_position_none; [done| |done].
      intros i. destruct (Hshow i) as (c' & ? & -> & Hd). intros [= -> _]. congruence.
Qed.

(** The body of [fmt] displays what the attribute and the fields say. *)
Lemma body_display fields lit ps vals :
  parse_format lit = Some ps -> forallb (plain_piece (match fields with Unnamed _ => true | _ => false end)) ps = true ->
  run_body show (match fields with
                 | UnitFields => Write lit []
                 | Unnamed fs => Write (transform_positional lit) (binds_of (length fs))
                 | Named fs => Write lit (map fst fs)
                 end) vals = ps ← parse_format lit; @concat byte <$> mapM (piece_spec show fields vals) ps.
Proof.
  intros Hp Hps. destruct fields as [|fs|fs]; cbn [run_body]; unfold write.
  - done.
  - rewrite (transform_parse lit ps Hp), Hp. cbn [mbind option_bind]. f_equal. apply (mapM_renamed _ _ _ (plain_piece true)); [|done].
    intros p. apply tuple_piece.
  - rewrite Hp. done.
Qed.
End Writing.

(** The behaviour of the code on one variant. *)
Lemma error_code {V} (show : bytes -> V -> bytes) (vs : list Variant) (code : Code) (v : Variant) (vals : list V) :
  NoDup (map v_ident vs) -> expand_enum vs = Ok code -> v ∈ vs -> readable v ->
  fmt show code (v_ident v) vals = display_spec show v vals /\
  source code (v_ident v) vals = (if transparent v then vals !! 0%nat else source_spec v vals) /\
  filter (fun p => snd p = v_ident v) (from_impls code) = from_spec v.
Proof.
  intros Hnd Hex Hv Hr. destruct (variant_arms vs v code Hnd Hex Hv) as (a & Ha & H1 & H2 & ->). unfold fmt, source. rewrite H1, H2. clear -Ha Hr.
  unfold arms_of, emit in Ha. unfold display_spec, transparent, source_spec, from_spec, readable in *. destruct (error_display _) as [[|lit]|]; cbn [ok_or rbind] in Ha; [| |done].
  - unfold emit_transparent in Ha. destruct (v_fields v) as [|[|[at0 ty] [|]]|[|[id at0] [|]]]; try done; injection Ha as <-;
      unfold arm; cbn [display_arms source_arms from_impls app list_find fst snd]; by rewrite !decide_True.
  - injection Ha as <-. destruct Hr as (ps & Hp & Hps). pose proof (body_display show (v_fields v) lit ps vals Hp Hps) as Hb. rewrite <- Hb.
    unfold emit_format, source_arm. destruct (v_fields v) as [|fs|fs]; unfold arm; cbn [display_arms source_arms from_impls app list_find fst snd];
      rewrite decide_True by done; (split; [done|]); [done|..].
    + split; [|done]. destruct (source_index _ fs); cbn [list_find fst]; [by rewrite decide_True|done].
    + split; [|done]. destruct (source_index _ fs); cbn [list_find fst]; [by rewrite decide_True|done].
Qed.


(** The same for a struct. *)
Theorem derived_struct_error {V} (show : bytes -> V -> bytes) (attrs : list Attribute) (fields : Fields) (b : Body) (src : option nat) (vals : list V) :
  expand_struct attrs fields = Ok (b, src) -> readable (mkVariant [] attrs fields) ->
  run_body show b vals = display_spec show (mkVariant [] attrs fields) vals /\
  (transparent (mkVariant [] attrs fields) = false -> (i ← src; vals !! i) = source_spec (mkVariant [] attrs fields) vals).
Proof.
  unfold expand_struct, readable, display_spec, transparent, source_spec. cbn [v_attrs v_fields].
  destruct (error_display attrs) as [[|lit]|]; cbn [ok_or rbind]; [|intros Hex (ps & Hp & Hps)|done].
  - destruct fields as [|[|? [|]]|[|? [|]]]; try done; by intros [= <- <-] _.
  - rewrite <- (body_display show fields lit ps vals Hp Hps). destruct fields; by injection Hex as <- <-.
Qed.

(** ** An error type of the crate *)

Definition format_attr (lit : bytes) : Attribute := mkAttribute (Some (b!"error")) [] None None (Some lit).
Definition transparent_attr : Attribute := mkAttribute (Some (b!"error")) [] None (Some (b!"transparent")) None.
Definition word_attr (w : bytes) : Attribute := mkAttribute (Some w) [] None None None.

(** Three variants of [VfsError] and one that wraps another error. *)
Definition sample_error : list Variant := [
  mkVariant (b!"NotFound") [format_attr (b!"not found: {0}")] (Unnamed [([], b!"String")]);
  mkVariant (b!"Io") [format_attr (b!"io error at {path}: {source}")] (Named [(b!"path", []); (b!"source", [word_attr (b!"source")])]);
  mkVariant (b!"Wrapped") [transparent_attr] (Unnamed [([word_attr (b!"from")], b!"HttpError")])
].
Definition sample_code : Code := match expand_enum sample_error with Ok c => c | Err _ => mkCode [] [] [] end.
Definition plain_show (spec v : bytes) : bytes := v.


Lemma derived_struct_error_witness :
  run_body plain_show (Write (b!"bad {__0} at {__1}") (binds_of 2)) [b!"key"; b!"line 3"] = Some (b!"bad key at line 3").
Proof.
  destruct (derived_struct_error plain_show [format_attr (b!"bad {0} at {1}")] (Unnamed [([], b!"String"); ([], b!"String")])
    (Write (b!"bad {__0} at {__1}") (binds_of 2)) None [b!"key"; b!"line 3"]) as [H _].
  - by vm_compute.
  - eexists. split; [vm_compute; reflexivity|by vm_compute].
  - etransitivity; [exact H|by vm_compute].
Defined.

(** A marked field with a name, or next to another field, gets no [From] impl. *)
Example from_on_named_field_ignored :
  let v := mkVariant (b!"Io") [format_attr (b!"io: {source}")] (Named [(b!"source", [word_attr (b!"from")])]) in
  from_impls <$> (match expand_enum [v] with Ok c => Some c | Err _ => None end) = Some [].
Proof. vm_compute. reflexivity. Qed.

(** The source of a transparent variant is the wrapped error itself, whose message is also the variant's own. *)
Example transparent_source_repeats :
  fmt plain_show sample_code (b!"Wrapped") [b!"timed out"] = Some (b!"timed out") /\
  source sample_code (b!"Wrapped") [b!"timed out"] = Some (b!"timed out").
Proof. by vm_compute. Qed.

(** An implicit position is accepted by the macro, and its code does not compile. *)
Example implicit_position_not_written :
  let v := mkVariant (b!"Bad") [format_attr (b!"bad: {}")] (Unnamed [([], b!"String")]) in
  (fun c => fmt plain_show c (b!"Bad") [b!"x"]) <$> (match expand_enum [v] with Ok c => Some c | Err _ => None end) = Some None.
Proof. vm_compute. reflexivity. Qed.
