(* ===== verification/Streaming.v ===== *)
(** * Streaming JSON ([codec/json.rs]: [encode], [decode], the [Encoder] and [Decoder] impls)

    The JSON writer and parser as an [Encoder] and a [Decoder], and the entry
    points for typed values.  [JsonDecode] states of a type what its
    [decode_from] promises on the JSON parser: it is sound for the tree parser
    followed by [decode], and it reads every image of an encoded value. *)

From S2P Require Import Prelude Text Scan Value Json Traits Derive.
Import Json Traits.

Open Scope Z_scope.

Module Streaming.

(** ** The parser as a [Decoder] *)

#[export] Instance json_decoder : Decoder Parser := {
  decode_value := fun p => Json.decode_value (value_fuel (length (rest p))) p;
  decode_string := Json.decode_string;
  peek_null := Json.peek_null;
  decode_null := Json.decode_null;
  read_seq := fun S => Json.read_seq;
  read_map := fun S => Json.read_map;
  skip_value := fun p => Json.skip_value (value_fuel (length (rest p))) p;
}.

(** [json::encode], [json::encode_to_vec] *)
Definition encode_json {T} `{Encode T} (x : T) : bytes := out (encode_to x enc_new).

(** [json::decode] and [json::decode_from_slice] *)
Definition decode_json {T} `{Decode T} (input : bytes) : option (Result T CodecError) :=
  Json.decode decode_from input.

Definition decode_json_slice {T} `{Decode T} (input : bytes) : option (Result T CodecError) :=
  let! s := Some (map_err Parse (from_utf8 input)) in
  decode_json s.

(** ** The writer *)

#[export] Instance json_encoder_laws : EncoderLaws JsonEncoder.
Proof.
  split.
  - intros f g Hfg e ? <-. apply Hfg.
  - intros k ? <- f g Hfg e ? <-. apply Hfg.
  - done.
Qed.

Lemma encode_json_tree {T} `{Encode T, !Streams T} (x : T) : encode_json x = Json.to_string (encode x).
Proof. unfold encode_json, Json.to_string. by rewrite encode_to_emits. Qed.

(** ** The parser, one value at a time *)

(** [p] reads the value [v] and leaves [p']. *)
Definition reads_value (p : Parser) (v : Value) (p' : Parser) : Prop := decode_value p = Some (Ok (v, p')).

Lemma reads_value_parse p v p' f :
  (depth p <= MAX_DEPTH)%nat -> (value_fuel (length (rest p)) <= f)%nat ->
  reads_value p v p' <-> parse_value f p = Some (Ok (v, p')).
Proof. intros Hd Hf. unfold reads_value. cbn [decode_value json_decoder]. by rewrite (decode_value_eq f). Qed.

Lemma reads_value_consumes p v p' :
  (depth p <= MAX_DEPTH)%nat -> reads_value p v p' -> (length (rest p') < length (rest p))%nat /\ depth p' = depth p.
Proof.
  intros Hd H. rewrite (reads_value_parse p v p' (value_fuel (length (rest p)))) in H by done.
  destruct (parse_total (value_fuel (length (rest p)))) as (HV & _). specialize (HV p ltac:(done) Hd). rewrite H in HV.
  destruct HV as (_ & ? & ?). split; [lia|done].
Qed.

Lemma reads_value_starts p v p' : reads_value p v p' -> starts_like v (skip_ws p).
Proof. intros H. apply parse_value_starts in H. by rewrite skip_ws_idem in H. Qed.

Lemma parse_skip_ws f p : parse_value f (skip_ws p) = parse_value f p.
Proof. destruct f; [done|]. cbn [parse_value]. by rewrite skip_ws_idem. Qed.

Lemma reads_value_skip_ws p v p' :
  (depth p <= MAX_DEPTH)%nat -> reads_value (skip_ws p) v p' <-> reads_value p v p'.
Proof.
  intros Hd. pose proof (skip_ws_length p) as W.
  rewrite (reads_value_parse (skip_ws p) _ _ (value_fuel (length (rest p)))) by (done || (unfold value_fuel; lia)).
  rewrite parse_skip_ws. by rewrite (reads_value_parse p _ _ (value_fuel (length (rest p)))).
Qed.

Lemma reads_null p p' :
  (depth p <= MAX_DEPTH)%nat -> reads_value p Value.Null p' <-> take_literal (b!"null") (skip_ws p) = (true, p').
Proof.
  intros Hd. split.
  - intros H. pose proof (reads_value_starts _ _ _ H) as Hs. cbn [starts_like] in Hs.
    apply starts_with_spec in Hs as [r Hr].
    rewrite (reads_value_parse p _ p' (value_fuel (length (rest p)))) in H by done. unfold value_fuel in H.
    rewrite Nat.add_1_r in H. cbn [parse_value] in H. unfold peek in H. rewrite Hr in H. cbn [head app] in H.
    change (b!"null") with [x6e; x75; x6c; x6c] in *. cbn [app head] in H.
    repeat (rewrite bool_decide_false in H by done). cbn [orb] in H. rewrite bool_decide_true in H by done.
    unfold parse_null in H. destruct (take_literal _ _) as [[] q]; by simplify_eq/=.
  - intros H. apply (reads_value_parse p _ p' (value_fuel (length (rest p)))); [done|done|].
    unfold value_fuel. rewrite Nat.add_1_r. cbn [parse_value]. unfold take_literal in H.
    destruct (starts_with _ _) eqn:E; [|done]. apply starts_with_spec in E as E'. destruct E' as [r Hr].
    unfold peek. rewrite Hr. change (b!"null") with [x6e; x75; x6c; x6c] in *. cbn [app head].
    repeat (rewrite bool_decide_false by done). cbn [orb]. rewrite bool_decide_true by done.
    unfold parse_null, take_literal. change (b!"null") with [x6e; x75; x6c; x6c]. rewrite E. by simplify_eq.
Qed.

Lemma reads_string p s p' :
  (depth p <= MAX_DEPTH)%nat -> reads_value p (Value.Str s) p' <-> Json.decode_string p = Some (Ok (s, p')).
Proof.
  intros Hd. unfold Json.decode_string.
  rewrite (reads_value_parse _ _ _ (value_fuel (length (rest p)))) by done.
  destruct (decide (peek (skip_ws p) = Some x22)) as [Hp|Hp].
  - rewrite bool_decide_true by done. cbn [negb]. unfold value_fuel. rewrite Nat.add_1_r. cbn [parse_value]. rewrite Hp.
    rewrite !bool_decide_false, bool_decide_true by done.
    destruct (parse_string _) as [[[s' q]|]|]; cbn [fbind]; split; intros; by simplify_eq.
  - rewrite bool_decide_false by done. cbn [negb]. split; [|done]. intros H. by apply parse_value_starts in H.
Qed.

Lemma expect_miss b p : peek p <> Some b -> exists e, expect b p = Err e.
Proof.
  intros Hp. unfold expect. destruct (bump p) as [c q] eqn:B. rewrite bool_decide_false; [by eexists|]. intros ->.
  apply Hp. unfold bump, peek in *. by destruct (rest p); simplify_eq/=.
Qed.

Lemma peek_cons p b : peek p = Some b -> exists r, p = mkP (b :: r) (depth p).
Proof. destruct p as [[|c r] d]; [done|]. cbn. intros [= ->]. by exists r. Qed.

Lemma stream_reads_array p l p' :
  (depth p <= MAX_DEPTH)%nat -> reads_value p (Value.Array l) p' <-> vec_value_decode_from p = Some (Ok (l, p')).
Proof.
  intros Hd. pose proof (skip_ws_length p) as W. destruct (decide (peek (skip_ws p) = Some x5b)) as [Hp|Hp].
  - destruct (peek_cons _ _ Hp) as [r Hr].
    rewrite (reads_value_parse p _ _ (value_fuel (length (rest p)))) by done.
    rewrite (read_seq_parse_value _ p r (depth p)) by (done || (unfold value_fuel; lia)).
    destruct (vec_value_decode_from p) as [[[l' q]|]|]; cbn [fbind]; split; intros; by simplify_eq.
  - split; [intros H; by apply reads_value_starts in H|]. unfold vec_value_decode_from, Json.read_seq.
    by destruct (expect_miss _ _ Hp) as [e ->].
Qed.

(** Reading an object entry by entry. *)
Definition push_entry (out : list (bytes * Value)) (k : bytes) (p : Parser)
  : option (Result (list (bytes * Value) * Parser) CodecError) :=
  let! (v, p) := decode_value p in Some (Ok (out ++ [(k, v)], p)).

Lemma map_loop_object_loop n : forall f acc p o p',
  (length (rest p) < n)%nat -> (3 * length (rest p) + 2 <= f)%nat -> (depth p <= MAX_DEPTH)%nat ->
  map_loop n push_entry acc p = Some (Ok (o, p')) <->
  (let! (v, p) := object_loop f acc p in Some (Ok (v, leave p))) = Some (Ok (Value.Object o, p')).
Proof.
  induction n as [|n IH]; intros f acc p o p' Hn Hf Hd; [lia|]. destruct f as [|f]; [lia|].
  cbn [map_loop object_loop]. pose proof (skip_ws_length p) as W0. pose proof (parse_string_total (skip_ws p)) as HS. revert HS.
  destruct (decide (peek (skip_ws p) = Some x22)) as [Hp|Hp].
  2: { intros _. rewrite bool_decide_false by done. cbn [negb]. split; [done|]. unfold parse_string.
       by destruct (expect_miss _ _ Hp) as [e ->]. }
  rewrite bool_decide_true by done. cbn [negb]. destruct (peek_cons _ _ Hp) as [r Hr].
  assert (parse_string (skip_ws p) =
    string_scan (rest (advance (skip_ws p))) (rest (advance (skip_ws p))) (depth (advance (skip_ws p)))) as ->.
  { unfold parse_string, expect. rewrite Hr. cbn [bump rest depth]. by rewrite bool_decide_true by done. }
  destruct (string_scan _ _ _) as [[[k p1]|]|]; cbn [fbind consumes]; [|done..]. intros (_ & L1 & D1).
  pose proof (skip_ws_length p1) as W1. destruct (expect x3a (skip_ws p1)) as [p2|] eqn:E; cbn [fbind]; [|done].
  apply expect_spec in E as [L2 D2]. cbn [skip_ws depth] in D1, D2.
  assert (depth p2 <= MAX_DEPTH)%nat as Hd2 by lia. unfold push_entry at 1. cbn [decode_value json_decoder].
  rewrite (decode_value_eq f) by (done || (unfold value_fuel; lia)).
  destruct (parse_total f) as (HV & _). specialize (HV p2 ltac:(unfold value_fuel; lia) Hd2).
  destruct (parse_value f p2) as [[[v p3]|]|]; cbn [fbind]; [|done..]. destruct HV as (_ & L3 & D3).
  pose proof (skip_ws_length p3) as W3. destruct (bump (skip_ws p3)) as [c p4] eqn:B. apply bump_spec in B as [D4 B].
  cbn [skip_ws depth] in D4. case_bool_decide as Hc.
  - apply IH; [naive_solver lia|naive_solver lia|lia].
  - case_bool_decide; cbn [fbind]; [|done]. split; intros; by simplify_eq.
Qed.

Lemma stream_reads_object p o p' :
  (depth p <= MAX_DEPTH)%nat -> reads_value p (Value.Object o) p' <-> Json.read_map push_entry [] p = Some (Ok (o, p')).
Proof.
  intros Hd. pose proof (skip_ws_length p) as W. unfold Json.read_map. destruct (decide (peek (skip_ws p) = Some x7b)) as [Hp|Hp].
  - destruct (peek_cons _ _ Hp) as [r Hr]. rewrite (reads_value_parse p _ _ (value_fuel (length (rest p)))) by done.
    rewrite Hr in W. cbn [rest length] in W. destruct (value_fuel_S (length (rest p)) _ (le_n _)) as (f & -> & Hf).
    cbn [parse_value]. rewrite Hp, bool_decide_true by done. unfold expect, enter. rewrite Hr. cbn [bump rest depth skip_ws].
    rewrite bool_decide_true by done. cbn [fbind depth rest].
    destruct (MAX_DEPTH <? S (depth p))%nat eqn:Ed; cbn [fbind]; [done|]. apply Nat.ltb_ge in Ed.
    destruct f as [|f]; [lia|]. cbn [parse_object]. unfold expect. cbn [bump rest depth].
    rewrite bool_decide_true by done. cbn [fbind].
    set (p2 := mkP (skip_ws_bytes r) (S (depth p))). pose proof (skip_ws_length (mkP r (S (depth p)))) as W2. cbn [rest skip_ws] in W2.
    change (skip_ws (mkP r (S (depth p)))) with p2.
    case_bool_decide; cbn [fbind]; [split; intros; by simplify_eq|].
    rewrite (map_loop_object_loop _ f) by (subst p2; cbn [rest depth]; lia). done.
  - split; [intros H; by apply reads_value_starts in H|].
    by destruct (expect_miss _ _ Hp) as [e ->].
Qed.

(** ** Any consumer of the elements follows the tree parser *)

(** The consumer goes from [s] to [s'] over the elements [l]. *)
Fixpoint chain {S A} (R : S -> A -> S -> Prop) (s : S) (l : list A) (s' : S) : Prop :=
  match l with
  | [] => s = s'
  | a :: l => exists s1, R s a s1 /\ chain R s1 l s'
  end.

Definition push_item (out : list Value) (p : Parser) : option (Result (list Value * Parser) CodecError) :=
  let! (v, p) := decode_value p in Some (Ok (out ++ [v], p)).

(** The loops of [read_seq] and [read_map], after the element was consumed. *)
Lemma bump_less p c p' : bump (skip_ws p) = (c, p') -> depth p' = depth p.
Proof. intros B. by apply bump_spec in B as [-> _]. Qed.

Lemma seq_loop_grows n : forall acc p l p', seq_loop n push_item acc p = Some (Ok (l, p')) -> exists l', l = acc ++ l'.
Proof.
  induction n as [|n IH]; intros acc p l p'; [done|]. cbn [seq_loop]. unfold push_item at 1.
  destruct (decode_value p) as [[[v p1]|]|]; cbn [fbind]; [|done..]. destruct (bump _) as [c p2]. case_bool_decide.
  - intros [l' ->]%IH. rewrite <- app_assoc. by eexists.
  - case_bool_decide; [|done]. intros [= <- _]. by eexists.
Qed.

Section Consumers.
Context {S : Type}.

Context (f : S -> Parser -> option (Result (S * Parser) CodecError)) (R : S -> Value -> S -> Prop).

Lemma seq_loop_sound n : forall s p s' p' acc,
  (forall s p s1 p1, (depth p <= MAX_DEPTH)%nat -> f s p = Some (Ok (s1, p1)) -> exists v, reads_value p v p1 /\ R s v s1) ->
  (depth p <= MAX_DEPTH)%nat -> seq_loop n f s p = Some (Ok (s', p')) ->
  exists l, seq_loop n push_item acc p = Some (Ok (acc ++ l, p')) /\ chain R s l s'.
Proof.
  intros s p s' p' acc Hf. revert s p acc. induction n as [|n IH]; intros s p acc Hd; [done|]. cbn [seq_loop].
  destruct (f s p) as [[[s1 p1]|]|] eqn:E; cbn [fbind]; [|done..]. destruct (Hf s p s1 p1 Hd E) as (v & Hv & HR).
  pose proof (reads_value_consumes _ _ _ Hd Hv) as [_ D1]. unfold push_item at 1. rewrite Hv. cbn [fbind].
  destruct (bump _) as [c p2] eqn:B. apply bump_less in B. case_bool_decide.
  - intros Hl. destruct (IH s1 p2 (acc ++ [v])) as (l & E1 & E2); [lia|done|]. exists (v :: l).
    rewrite <- app_assoc in E1. split; [done|]. by exists s1.
  - case_bool_decide; [|done]. intros [= <- <-]. exists [v]. split; [done|]. by exists s1.
Qed.

Lemma seq_loop_complete n : forall s p s' p' acc l,
  (forall s v s1 p p1, (depth p <= MAX_DEPTH)%nat -> reads_value p v p1 -> R s v s1 -> f s p = Some (Ok (s1, p1))) ->
  (depth p <= MAX_DEPTH)%nat -> seq_loop n push_item acc p = Some (Ok (acc ++ l, p')) -> chain R s l s' ->
  seq_loop n f s p = Some (Ok (s', p')).
Proof.
  intros s p s' p' acc l Hf. revert s p acc l.
  induction n as [|n IH]; intros s p acc l Hd; [done|]. cbn [seq_loop]. unfold push_item at 1.
  destruct (decode_value p) as [[[v p1]|]|] eqn:Hv; cbn [fbind]; [|done..].
  pose proof (reads_value_consumes _ _ _ Hd Hv) as [_ D1].
  destruct (bump _) as [c p2] eqn:B. apply bump_less in B as B'. case_bool_decide.
  - intros Hl Hc. destruct (seq_loop_grows _ _ _ _ _ Hl) as [l' El]. rewrite <- app_assoc in El. apply app_inv_head in El as ->.
    destruct Hc as (s1 & HR & Hc). rewrite (Hf s v s1 p p1) by done. cbn [fbind]. rewrite B, bool_decide_true by done.
    apply (IH s1 p2 (acc ++ [v]) l'); [lia| |done]. by rewrite <- app_assoc.
  - case_bool_decide; [|done]. intros H1. injection H1 as El <-. apply app_inv_head in El as <-. intros (s1 & HR & <-).
    rewrite (Hf s v s1 p p1) by done. cbn [fbind]. rewrite B, bool_decide_false, bool_decide_true by done. done.
Qed.

End Consumers.

Lemma map_loop_grows n : forall acc p l p', map_loop n push_entry acc p = Some (Ok (l, p')) -> exists l', l = acc ++ l'.
Proof.
  induction n as [|n IH]; intros acc p l p'; [done|]. cbn [map_loop]. case_bool_decide; cbn [negb]; [|done].
  destruct (string_scan _ _ _) as [[[k p1]|]|]; cbn [fbind]; [|done..]. destruct (expect _ _) as [p2|]; cbn [fbind]; [|done].
  unfold push_entry at 1. destruct (decode_value p2) as [[[v p3]|]|]; cbn [fbind]; [|done..]. destruct (bump _) as [c p4].
  case_bool_decide.
  - intros [l' ->]%IH. rewrite <- app_assoc. by eexists.
  - case_bool_decide; [|done]. intros [= <- _]. by eexists.
Qed.

Section MapConsumers.
Context {S : Type}.
Context (f : S -> bytes -> Parser -> option (Result (S * Parser) CodecError)) (R : S -> bytes * Value -> S -> Prop).

Lemma key_depth p q k p1 p2 :
  string_scan (rest p) (rest p) (depth p) = Some (Ok (k, p1)) -> expect q (skip_ws p1) = Ok p2 -> depth p2 = depth p.
Proof.
  intros E1 E2. pose proof (string_scan_total (rest p) (rest p) (depth p)) as T. rewrite E1 in T. destruct T as (_ & _ & D).
  apply expect_spec in E2 as [_ ->]. done.
Qed.

Lemma map_loop_sound n : forall s p s' p' acc,
  (forall s k p s1 p1, (depth p <= MAX_DEPTH)%nat -> f s k p = Some (Ok (s1, p1)) ->
     exists v, reads_value p v p1 /\ R s (k, v) s1) ->
  (depth p <= MAX_DEPTH)%nat -> map_loop n f s p = Some (Ok (s', p')) ->
  exists l, map_loop n push_entry acc p = Some (Ok (acc ++ l, p')) /\ chain R s l s'.
Proof.
  intros s p s' p' acc Hf. revert s p acc. induction n as [|n IH]; intros s p acc Hd; [done|]. cbn [map_loop].
  case_bool_decide as Hq; cbn [negb]; [|done].
  destruct (string_scan _ _ _) as [[[k p1]|]|] eqn:Ek; cbn [fbind]; [|done..].
  destruct (expect _ _) as [p2|] eqn:Ex; cbn [fbind]; [|done].
  pose proof (key_depth (advance (skip_ws p)) _ _ _ _ Ek Ex) as D2. cbn [advance skip_ws depth] in D2.
  destruct (f s k p2) as [[[s1 p3]|]|] eqn:E; cbn [fbind]; [|done..].
  destruct (Hf s k p2 s1 p3 ltac:(lia) E) as (v & Hv & HR).
  pose proof (reads_value_consumes p2 v p3 ltac:(lia) Hv) as [_ D3]. unfold push_entry at 1. rewrite Hv. cbn [fbind].
  destruct (bump _) as [c p4] eqn:B. apply bump_less in B. case_bool_decide.
  - intros Hl. destruct (IH s1 p4 (acc ++ [(k, v)])) as (l & E1 & E2); [lia|done|]. exists ((k, v) :: l).
    rewrite <- app_assoc in E1. split; [done|]. by exists s1.
  - case_bool_decide; [|done]. intros [= <- <-]. exists [(k, v)]. split; [done|]. by exists s1.
Qed.

Lemma map_loop_complete n : forall s p s' p' acc l,
  (forall s k v s1 p p1, (depth p <= MAX_DEPTH)%nat -> reads_value p v p1 -> R s (k, v) s1 -> f s k p = Some (Ok (s1, p1))) ->
  (depth p <= MAX_DEPTH)%nat -> map_loop n push_entry acc p = Some (Ok (acc ++ l, p')) -> chain R s l s' ->
  map_loop n f s p = Some (Ok (s', p')).
Proof.
  intros s p s' p' acc l Hf. revert s p acc l.
  induction n as [|n IH]; intros s p acc l Hd; [done|]. cbn [map_loop]. case_bool_decide as Hq; cbn [negb]; [|done].
  destruct (string_scan _ _ _) as [[[k p1]|]|] eqn:Ek; cbn [fbind]; [|done..].
  destruct (expect _ _) as [p2|] eqn:Ex; cbn [fbind]; [|done].
  pose proof (key_depth (advance (skip_ws p)) _ _ _ _ Ek Ex) as D2. cbn [advance skip_ws depth] in D2. unfold push_entry at 1.
  destruct (decode_value p2) as [[[v p3]|]|] eqn:Hv; cbn [fbind]; [|done..].
  pose proof (reads_value_consumes p2 v p3 ltac:(lia) Hv) as [_ D3].
  destruct (bump _) as [c p4] eqn:B. apply bump_less in B as B'. case_bool_decide.
  - intros Hl Hc. destruct (map_loop_grows _ _ _ _ _ Hl) as [l' El]. rewrite <- app_assoc in El. apply app_inv_head in El as ->.
    destruct Hc as (s1 & HR & Hc). rewrite (Hf s k v s1 p2 p3) by (done || lia). cbn [fbind]. rewrite B, bool_decide_true by done.
    apply (IH s1 p4 (acc ++ [(k, v)]) l'); [lia| |done]. by rewrite <- app_assoc.
  - case_bool_decide; [|done]. intros H1. injection H1 as El <-. apply app_inv_head in El as <-. intros (s1 & HR & <-).
    rewrite (Hf s k v s1 p2 p3) by (done || lia). cbn [fbind]. rewrite B, bool_decide_false, bool_decide_true by done. done.
Qed.

End MapConsumers.

(** The same of the whole array or object. *)
Lemma read_seq_sound {S} f (R : S -> Value -> S -> Prop) s p s' p' :
  (forall s p s1 p1, (depth p <= MAX_DEPTH)%nat -> f s p = Some (Ok (s1, p1)) -> exists v, reads_value p v p1 /\ R s v s1) ->
  (depth p <= MAX_DEPTH)%nat -> Json.read_seq f s p = Some (Ok (s', p')) ->
  exists l, reads_value p (Value.Array l) p' /\ chain R s l s'.
Proof.
  intros Hf Hd H. cut (exists l, vec_value_decode_from p = Some (Ok (l, p')) /\ chain R s l s').
  { intros (l & H1 & H2). exists l. split; [by apply stream_reads_array|done]. }
  revert H. unfold vec_value_decode_from, Json.read_seq. destruct (expect _ _) as [p1|]; cbn [fbind]; [|done].
  destruct (enter p1) as [p2|] eqn:E; cbn [fbind]; [|done]. apply enter_spec in E as (_ & _ & D). case_bool_decide.
  - intros [= <- <-]. by exists [].
  - intros Hl. destruct (seq_loop_sound f R _ s (skip_ws p2) s' p' [] Hf D Hl) as (l & E & Hc). by exists l.
Qed.

Lemma read_seq_complete {S} f (R : S -> Value -> S -> Prop) s p s' p' l :
  (forall s v s1 p p1, (depth p <= MAX_DEPTH)%nat -> reads_value p v p1 -> R s v s1 -> f s p = Some (Ok (s1, p1))) ->
  (depth p <= MAX_DEPTH)%nat -> reads_value p (Value.Array l) p' -> chain R s l s' ->
  Json.read_seq f s p = Some (Ok (s', p')).
Proof.
  intros Hf Hd H%stream_reads_array Hc; [|done]. revert H. unfold vec_value_decode_from, Json.read_seq.
  destruct (expect _ _) as [p1|]; cbn [fbind]; [|done].
  destruct (enter p1) as [p2|] eqn:E; cbn [fbind]; [|done]. apply enter_spec in E as (_ & _ & D). case_bool_decide.
  - intros [= <- <-]. by rewrite Hc.
  - intros Hl. by apply (seq_loop_complete f R _ s _ s' p' [] l).
Qed.

Lemma read_map_sound {S} f (R : S -> bytes * Value -> S -> Prop) s p s' p' :
  (forall s k p s1 p1, (depth p <= MAX_DEPTH)%nat -> f s k p = Some (Ok (s1, p1)) ->
     exists v, reads_value p v p1 /\ R s (k, v) s1) ->
  (depth p <= MAX_DEPTH)%nat -> Json.read_map f s p = Some (Ok (s', p')) ->
  exists o, reads_value p (Value.Object o) p' /\ chain R s o s'.
Proof.
  intros Hf Hd H. cut (exists o, Json.read_map push_entry [] p = Some (Ok (o, p')) /\ chain R s o s').
  { intros (l & H1 & H2). exists l. split; [by apply stream_reads_object|done]. }
  revert H. unfold Json.read_map. destruct (expect _ _) as [p1|]; cbn [fbind]; [|done].
  destruct (enter p1) as [p2|] eqn:E; cbn [fbind]; [|done]. apply enter_spec in E as (_ & _ & D). case_bool_decide.
  - intros [= <- <-]. by exists [].
  - intros Hl. destruct (map_loop_sound f R _ s (skip_ws p2) s' p' [] Hf D Hl) as (l & E & Hc). by exists l.
Qed.

Lemma read_map_complete {S} f (R : S -> bytes * Value -> S -> Prop) s p s' p' o :
  (forall s k v s1 p p1, (depth p <= MAX_DEPTH)%nat -> reads_value p v p1 -> R s (k, v) s1 -> f s k p = Some (Ok (s1, p1))) ->
  (depth p <= MAX_DEPTH)%nat -> reads_value p (Value.Object o) p' -> chain R s o s' ->
  Json.read_map f s p = Some (Ok (s', p')).
Proof.
  intros Hf Hd H%stream_reads_object Hc; [|done]. revert H. unfold Json.read_map.
  destruct (expect _ _) as [p1|]; cbn [fbind]; [|done].
  destruct (enter p1) as [p2|] eqn:E; cbn [fbind]; [|done]. apply enter_spec in E as (_ & _ & D). case_bool_decide.
  - intros [= <- <-]. by rewrite Hc.
  - intros Hl. by apply (map_loop_complete f R _ s _ s' p' [] o).
Qed.

(** ** What [decode_from] promises on the JSON parser *)

Class JsonSound (T : Type) `{Decode T} :=
  json_sound : forall p (x : T) p', (depth p <= MAX_DEPTH)%nat -> decode_from p = Some (Ok (x, p')) ->
    exists v, reads_value p v p' /\ decode v = Ok x.

Class JsonComplete (T : Type) `{Encode T, Decode T, Valid T} :=
  json_complete : forall p v p' (x : T), (depth p <= MAX_DEPTH)%nat -> valid x -> image false (encode x) v ->
    reads_value p v p' -> decode_from p = Some (Ok (x, p')).

(** Types with the default [decode_from]. *)
Lemma default_sound {T} (dec : Value -> Result T CodecError) p (x : T) p' :
  default_decode_from dec p = Some (Ok (x, p')) -> exists v, reads_value p v p' /\ dec v = Ok x.
Proof.
  unfold default_decode_from. destruct (decode_value p) as [[[v q]|]|] eqn:E; cbn [fbind]; [|done..].
  destruct (dec v) as [y|] eqn:Ed; cbn [fbind]; [|done]. intros [= <- <-]. by exists v.
Qed.

Lemma default_complete {T} `{Encode T, Decode T, Valid T, !Lossless false T} p v p' (x : T) :
  valid x -> image false (encode x) v -> reads_value p v p' -> default_decode_from decode p = Some (Ok (x, p')).
Proof.
  intros Hx Hi Hr. unfold default_decode_from. rewrite Hr. cbn [fbind]. by rewrite (decode_image (loose := false) x v).
Qed.

#[export] Instance bool_json_sound : JsonSound bool.
Proof. intros p x p' _. apply default_sound. Qed.
#[export] Instance bool_json_complete : JsonComplete bool.
Proof. intros p v p' x _. exact (default_complete p v p' x). Qed.
#[export] Instance signed_json_sound t : JsonSound (Signed t).
Proof. intros p x p' _. apply default_sound. Qed.
#[export] Instance signed_json_complete t : JsonComplete (Signed t).
Proof. intros p v p' x _. exact (default_complete p v p' x). Qed.
#[export] Instance unsigned_json_sound t : JsonSound (Unsigned t).
Proof. intros p x p' _. apply default_sound. Qed.
#[export] Instance unsigned_json_complete t : JsonComplete (Unsigned t).
Proof. intros p v p' x _. exact (default_complete p v p' x). Qed.
#[export] Instance float_json_sound t : JsonSound (Float t).
Proof. intros p x p' _. apply default_sound. Qed.
#[export] Instance float_json_complete t : JsonComplete (Float t).
Proof. intros p v p' x _. exact (default_complete p v p' x). Qed.
#[export] Instance char_json_sound : JsonSound Char.
Proof. intros p x p' _. apply default_sound. Qed.
#[export] Instance char_json_complete : JsonComplete Char.
Proof. intros p v p' x _. exact (default_complete p v p' x). Qed.
#[export] Instance unit_json_sound : JsonSound ().
Proof. intros p x p' _. apply default_sound. Qed.
#[export] Instance unit_json_complete : JsonComplete ().
Proof. intros p v p' x _. exact (default_complete p v p' x). Qed.
#[export] Instance value_json_sound : JsonSound Value.
Proof. intros p x p' _. apply default_sound. Qed.

#[export] Instance string_json_sound : JsonSound bytes.
Proof. intros p x p' Hd H. exists (Value.Str x). split; [by apply reads_string|done]. Qed.
#[export] Instance string_json_complete : JsonComplete bytes.
Proof. intros p v p' x Hd _ Hi H. inversion Hi; subst. by apply reads_string. Qed.

#[export] Instance option_json_sound {T} `{Decode T, !JsonSound T} : JsonSound (option T).
Proof.
  intros p x p' Hd. cbn [decode_from option_decode]. unfold option_decode_from. cbn [peek_null decode_null json_decoder].
  unfold Json.peek_null. destruct (starts_with _ _) eqn:E.
  - unfold Json.decode_null. rewrite skip_ws_idem. destruct (take_literal _ _) as [[] q] eqn:Et; cbn [fbind]; [|done].
    intros [= <- <-]. exists Value.Null. split; [by apply reads_null|done].
  - destruct (decode_from (skip_ws p)) as [[[y q]|]|] eqn:Ey; cbn [fbind]; [|done..]. intros [= <- <-].
    destruct (json_sound (skip_ws p) y q Hd Ey) as (v & Hr & Hv). rewrite reads_value_skip_ws in Hr by done. exists v. split; [done|].
    apply reads_value_starts in Hr. cbn [decode option_decode]. destruct v; cbn [decode_option]; [unfold starts_like in Hr; congruence|..]; by rewrite Hv.
Qed.

#[export] Instance option_json_complete {T} `{Encode T, Decode T, Valid T, !Present false T, !JsonComplete T} : JsonComplete (option T).
Proof.
  intros p v p' x Hd Hx Hi Hr. cbn [decode_from option_decode]. unfold option_decode_from. cbn [peek_null decode_null json_decoder].
  unfold Json.peek_null, Json.decode_null. destruct x as [x|]; cbn [encode option_encode] in Hi.
  - destruct (starts_with _ _) eqn:E.
    + exfalso. apply (image_present (loose := false) x v Hx Hi).
      assert (exists q, take_literal (b!"null") (skip_ws p) = (true, q)) as [q Et] by (unfold take_literal; rewrite E; by eexists).
      apply reads_null in Et; [|done]. unfold reads_value in *. by simplify_eq.
    + rewrite (json_complete (skip_ws p) v p' x Hd Hx Hi); [done|]. by apply reads_value_skip_ws.
  - inversion Hi; subst. pose proof (reads_value_starts _ _ _ Hr) as Hs. cbn [starts_like] in Hs. rewrite Hs, skip_ws_idem.
    apply reads_null in Hr; [|done]. by rewrite Hr.
Qed.

(** A vector grows by one decoded item at a time. *)
Lemma chain_vec {T} (P : Value -> T -> Prop) l : forall out out',
  chain (fun out v out' => exists y, P v y /\ out' = out ++ [y]) out l out' <-> exists ys, Forall2 P l ys /\ out' = out ++ ys.
Proof.
  induction l as [|v l IH]; intros out out'; cbn [chain].
  - split; [intros <-; exists []; by rewrite app_nil_r|]. intros (ys & H & ->). inversion H. by rewrite app_nil_r.
  - split.
    + intros (s1 & (y & Hy & ->) & Hc). apply IH in Hc as (ys & Hf & ->). exists (y :: ys). rewrite <- app_assoc. by split; [constructor|].
    + intros (ys & H & ->). inversion H as [|? y ? ys' Hy Hf]; subst. exists (out ++ [y]). split; [by exists y|].
      apply IH. exists ys'. by rewrite <- app_assoc.
Qed.

#[export] Instance vec_json_sound {T} `{Decode T, !JsonSound T} : JsonSound (list T).
Proof.
  intros p x p' Hd Hr.
  destruct (fun Hf => read_seq_sound _ (fun out v out' => exists y, decode v = Ok y /\ out' = out ++ [y]) [] p x p' Hf Hd Hr)
    as (l & Hl & (ys & Hf & ->)%chain_vec).
  2: { exists (Value.Array l). split; [done|]. by apply traverse_Ok. }
  intros s q s1 q1 Hq. destruct (decode_from q) as [[[y q2]|]|] eqn:E; cbn [fbind]; [|done..]. intros [= <- <-].
  destruct (json_sound q y q2 Hq E) as (v & H1 & H2). exists v. split; [done|]. by exists y.
Qed.

#[export] Instance vec_json_complete {T} `{Encode T, Decode T, Valid T, !JsonComplete T} : JsonComplete (list T).
Proof.
  intros p v p' x Hd Hx Hi Hr. change (Forall valid x) in Hx. cbn [encode vec_encode] in Hi.
  inversion Hi as [| | | | | | | | | | | | |a b Hab| | |]; subst; [|done..].
  apply (read_seq_complete _ (fun out v out' => exists y : T, (valid y /\ image false (encode y) v) /\ out' = out ++ [y]) [] p x p' b).
  - intros s v s1 q q1 Hq Hv (y & [Hy1 Hy2] & ->). by rewrite (json_complete q v q1 y).
  - done.
  - done.
  - apply chain_vec. exists x. split; [|done]. clear -Hab Hx. revert b Hab.
    induction Hx as [|y l Hy _ IH]; intros b Hab; inversion Hab; subst; constructor; auto.
Qed.

(** A map takes one decoded entry at a time. *)
Lemma chain_map {V} (P : Value -> V -> Prop) l : forall (m m' : gmap bytes V),
  chain (fun m kv m' => exists y, P (snd kv) y /\ m' = <[fst kv := y]> m) m l m' <->
  exists ys, Forall2 (fun kv ky => P (snd kv) (snd ky) /\ fst ky = fst kv) l ys /\ m' = foldl (fun m kv => <[fst kv := snd kv]> m) m ys.
Proof.
  induction l as [|[k v] l IH]; intros m m'; cbn [chain fst snd].
  - split; [intros <-; by exists []|]. intros (ys & H & ->). by inversion H.
  - split.
    + intros (s1 & (y & Hy & ->) & Hc). apply IH in Hc as (ys & Hf & ->). exists ((k, y) :: ys). by split; [constructor|].
    + intros (ys & H & ->). inversion H as [|? [k' y] ? ys' [Hy Hk] Hf]; subst. cbn [fst snd] in *. subst.
      exists (<[k := y]> m). split; [by exists y|]. apply IH. by exists ys'.
Qed.

#[export] Instance map_json_sound {V} `{Decode V, !JsonSound V} : JsonSound (gmap bytes V).
Proof.
  intros p x p' Hd Hr.
  destruct (fun Hf => read_map_sound _ (fun (m : gmap bytes V) kv m' => exists y, decode (snd kv) = Ok y /\ m' = <[fst kv := y]> m)
    ∅ p x p' Hf Hd Hr) as (o & Ho & Hc).
  2: { apply (chain_map (fun v (y : V) => decode v = Ok y)) in Hc as (ys & Hf & ->). exists (Value.Object o). split; [done|]. cbn [decode map_decode]. unfold decode_map. cbn [Value.as_object ok_or rbind].
    rewrite (proj2 (traverse_Ok _ o ys)); [done|]. eapply Forall2_impl; [exact Hf|]. intros [k v] [k' y] [H1 H2].
    cbn [fst snd] in *. subst. by rewrite H1. }
  intros s k q s1 q1 Hq. destruct (decode_from q) as [[[y q2]|]|] eqn:E; cbn [fbind]; [|done..]. intros [= <- <-].
  destruct (json_sound q y q2 Hq E) as (v & H1 & H2). exists v. split; [done|]. by exists y.
Qed.

#[export] Instance map_json_complete `{HashOrder} {V} `{Encode V, Decode V, Valid V, !Lossless false V, !Present false V, !JsonComplete V} :
  JsonComplete (gmap bytes V).
Proof.
  intros p v p' m Hd Hm Hi Hr. pose proof (decode_image (loose := false) m v Hm Hi) as Hdec.
  cbn [encode map_encode] in Hi. inversion Hi as [| | | | | | | | | | | | | | | |o o' Hn Hk Hw Hnull]; subst.
  apply (read_map_complete _ (fun (m : gmap bytes V) kv m' =>
    exists y, (valid y /\ image false (encode y) (snd kv)) /\ m' = <[fst kv := y]> m) ∅ p m p' o').
  { intros s k v s1 q q1 Hq Hv (y & [Hy1 Hy2] & ->). by rewrite (json_complete q v q1 y). }
  1-2: done.
  apply (chain_map (fun v (y : V) => valid y /\ image false (encode y) v)).
  revert Hdec. cbn [decode map_decode]. unfold decode_map. cbn [Value.as_object ok_or rbind].
  destruct (traverse _ o') as [ys|] eqn:E; cbn [rbind]; [|done]. intros [= <-]. exists ys. split; [|done].
  apply traverse_Ok in E. apply Forall2_same_length_lookup in E as [Hlen E]. apply Forall2_same_length_lookup. split; [done|].
  intros i [k w] [k' y] Hi1 Hi2. specialize (E i _ _ Hi1 Hi2). cbn [fst snd] in E |- *.
  assert (exists x : V, valid x /\ image false (encode x) w) as (x & Hx & Hxi).
  { apply list_elem_of_lookup_2 in Hi1. assert (k ∈ map fst o') as Hk' by (apply list_elem_of_fmap; by exists (k, w)).
    apply Hk in Hk'. rewrite map_map in Hk'. apply list_elem_of_fmap in Hk' as ([k0 x] & -> & Hin). exists x.
    rewrite hash_iter_perm, elem_of_map_to_list in Hin. split; [by apply (Hm k0)|]. apply (Hw k0); [|done].
    apply list_elem_of_fmap. exists (k0, x). split; [done|]. by rewrite hash_iter_perm, elem_of_map_to_list. }
  rewrite (decode_image (loose := false) x w Hx Hxi) in E. cbn [rbind] in E. by simplify_eq.
Qed.

(** ** Derived types *)

Import Derive.

#[export] Instance enum_json_sound keys : JsonSound (Enum keys).
Proof.
  intros p x p' Hd. cbn [decode_from enum_decode]. unfold enum_decode_from. cbn [decode_string json_decoder].
  destruct (Json.decode_string p) as [[[s q]|]|] eqn:E; cbn [fbind]; [|done..].
  destruct (variant_arms keys s) as [y|] eqn:Ey; cbn [fbind]; [|done]. intros [= <- <-].
  exists (Value.Str s). split; [by apply reads_string|done].
Qed.

#[export] Instance enum_json_complete keys `{!DistinctKeys keys} : JsonComplete (Enum keys).
Proof.
  intros p v p' x Hd Hx Hi Hr. pose proof (enum_lossless false keys x v Hx Hi) as Hdec. inversion Hi; subst.
  cbn [decode_from enum_decode]. unfold enum_decode_from. cbn [decode_string json_decoder].
  apply reads_string in Hr; [|done]. rewrite Hr. cbn [fbind]. cbn [decode enum_decode] in Hdec. unfold decode_enum in Hdec.
  cbn [Value.as_str ok_or rbind] in Hdec. by rewrite Hdec.
Qed.

Definition field_json_sound (f : Field) : Prop :=
  match f with Plain _ T _ _ _ => JsonSound T | Optional _ _ U _ _ _ => JsonSound U end.
Definition field_json_complete (f : Field) : Prop :=
  match f with Plain _ T _ _ _ => JsonComplete T | Optional _ _ U _ _ _ => JsonComplete U end.

Class FieldsJsonSound (fs : list Field) := fields_json_sound : Forall field_json_sound fs.
Class FieldsJsonComplete (fs : list Field) := fields_json_complete : Forall field_json_complete fs.

Lemma field_sound f : field_json_sound f -> JsonSound (fty f).
Proof. destruct f as [k T enc dec val|k sk U enc dec val]; cbn [field_json_sound]; intros Hf; [exact Hf|exact option_json_sound]. Qed.

Lemma field_complete f : field_json_complete f -> field_lossless false f -> JsonComplete (fty f).
Proof.
  destruct f as [k T enc dec val|k sk U enc dec val]; cbn [field_json_complete field_lossless]; intros Hf [_ Hp]; [exact Hf|].
  exact option_json_complete.
Qed.

Lemma from_arms_sound fs k p s s1 p1 :
  Forall field_json_sound fs -> (depth p <= MAX_DEPTH)%nat -> from_arms fs k p s = Some (Ok (s1, p1)) ->
  exists v, reads_value p v p1 /\ value_arms fs k v s = Ok s1.
Proof.
  intros Hf Hd. induction Hf as [|f fs Hf _ IH]; cbn [from_arms value_arms].
  - cbn [skip_value json_decoder]. unfold Json.skip_value. destruct (parse_value _ _) as [[[v q]|]|] eqn:E; cbn [fbind]; [|done..].
    intros [= <- <-]. by exists v.
  - case_bool_decide.
    + destruct (decode_from p) as [[[x q]|]|] eqn:E; cbn [fbind]; [|done..]. intros [= <- <-].
      destruct (field_sound f Hf p x q Hd E) as (v & Hv & Hx). exists v. split; [done|]. by rewrite Hx.
    + destruct (from_arms fs k p s.2) as [[[r q]|]|] eqn:E; cbn [fbind]; [|done..]. intros [= <- <-].
      destruct (IH s.2 r E) as (v & Hv & Hr). exists v. split; [done|]. by rewrite Hr.
Qed.

Lemma from_arms_complete fs k v p p1 ks x :
  Forall field_json_complete fs -> Forall (field_lossless false) fs -> NoDup (map key fs) -> struct_ok fs x ->
  (depth p <= MAX_DEPTH)%nat -> reads_value p v p1 -> image_at false fs k v x ->
  from_arms fs k p (slots_for fs ks x) = Some (Ok (slots_for fs (k :: ks) x, p1)).
Proof.
  intros Hf Hl Hn Hx Hd Hr. induction Hf as [|f fs Hf _ IH]; cbn [from_arms].
  - intros _. cbn [skip_value json_decoder]. unfold Json.skip_value. unfold reads_value in Hr. cbn [decode_value json_decoder] in Hr.
    unfold Json.decode_value in Hr. rewrite Hr. cbn [fbind]. done.
  - inversion Hl as [|? ? Hl1 Hl2]; subst. destruct Hx as [Hx Hs]. cbn [map] in Hn. apply NoDup_cons in Hn as [Hk Hn].
    intros [Hi Hir]. cbn [slots_for fst snd]. case_bool_decide as E.
    + rewrite (field_complete f Hf Hl1 p v p1 (fst x) Hd Hx (Hi E) Hr). cbn [fbind]. subst. rewrite decide_True by set_solver.
      by rewrite slots_for_fresh.
    + rewrite (IH (snd x) Hl2 Hn Hs Hir). cbn [fbind]. do 4 f_equal. repeat case_decide; set_solver.
Qed.

Lemma chain_scan fs o : forall s s', chain (fun s kv s' => value_arms fs (fst kv) (snd kv) s = Ok s') s o s' -> scan fs o s = Ok s'.
Proof.
  induction o as [|[k v] o IH]; intros s s'; cbn [chain scan]; [by intros ->|]. cbn [fst snd]. intros (s1 & -> & Hc). cbn [rbind]. by apply IH.
Qed.

#[export] Instance struct_json_sound fs `{!FieldsJsonSound fs} : JsonSound (Struct fs).
Proof.
  intros p x p' Hd. cbn [decode_from struct_decode]. unfold struct_decode_from. cbn [read_map json_decoder].
  destruct (Json.read_map _ _ p) as [[[s q]|]|] eqn:E; cbn [fbind]; [|done..].
  destruct (build fs s) as [y|] eqn:Eb; cbn [fbind]; [|done]. intros [= <- <-].
  destruct (fun Hf => read_map_sound _ (fun s kv s' => value_arms fs (fst kv) (snd kv) s = Ok s') _ p s q Hf Hd E) as (o & Ho & Hc).
  { intros s0 k p0 s1 p1 Hd0 H0. by apply (from_arms_sound fs k p0 s0 s1 p1); [exact fields_json_sound|..]. }
  exists (Value.Object o). split; [done|]. cbn [decode struct_decode]. unfold decode_struct. cbn [Value.as_object ok_or rbind].
  by rewrite (chain_scan fs o _ _ Hc).
Qed.

#[export] Instance struct_json_complete fs `{!FieldsLossless false fs, !FieldsJsonComplete fs} : JsonComplete (Struct fs).
Proof.
  intros p v p' x Hd Hx Hi Hr. cbn [encode struct_encode] in Hi.
  inversion Hi as [| | | | | | | | | | | | | | | |o o' Hn Hk Hw Hnull]; subst.
  destruct (image_fields false o' fs x keys_distinct fields_lossless Hx) as [Hat Hc]; [auto|done|done|].
  cbn [decode_from struct_decode]. unfold struct_decode_from. cbn [read_map json_decoder].
  assert (forall l ks, (forall k w, (k, w) ∈ l -> image_at false fs k w x) ->
    chain (fun s kv s' => exists ks, s = slots_for fs ks x /\ s' = slots_for fs (fst kv :: ks) x /\
      image_at false fs (fst kv) (snd kv) x) (slots_for fs ks x) l (slots_for fs (rev (map fst l) ++ ks) x)) as Hchain.
  { intros l. induction l as [|[k w] l IH]; intros ks Hl; [done|]. cbn [chain map rev fst]. exists (slots_for fs (k :: ks) x). split.
    - exists ks. split_and!; [done|done|]. apply Hl. set_solver.
    - rewrite <- app_assoc. apply (IH (k :: ks)). set_solver. }
  specialize (Hchain o' [] Hat). rewrite slots_for_nil in Hchain.
  rewrite (fun Hf => read_map_complete _ _ _ p _ p' o' Hf Hd Hr Hchain).
  - cbn [fbind]. rewrite build_slots; [done|]. eapply complete_proper; [|exact Hc]. intros k. by rewrite app_nil_r, !list_elem_of_In, <- in_rev.
  - intros s k w s1 q q1 Hq Hv (ks & -> & -> & Hia). cbn [fst snd] in *.
    apply (from_arms_complete fs k w); [exact fields_json_complete|exact fields_lossless|exact keys_distinct|done..].
Qed.

End Streaming.
