(* ===== verification/Registry.v ===== *)
(** * Content-type dispatch over the formats ([codec/registry.rs])

    [Format], the resolution of a content type, and [encode] / [decode] for any
    type with the traits.  JSON goes through the streaming path, the other
    formats through the [Value] tree.  [Codec] is what a tree format promises:
    a tree that [ok] accepts comes back as [norm] says; the formats' round
    trips are its instances, and [faithful] are the trees whose norm the
    decoders take for the tree itself. *)

From Stdlib Require Import SpecFloat.
From S2P Require Import Prelude Text Scan Value Json Toml TomlRoundtrip Xml Yaml Traits Derive Streaming.
Import Traits Derive Streaming.

Open Scope Z_scope.

Module Registry.

Inductive Format := Json | Xml | Yaml | Toml.

#[export] Instance format_eq_dec : EqDecision Format.
Proof. solve_decision. Defined.

(** [Format::from_content_type] *)
Definition from_content_type (content_type : bytes) : option Format :=
  let ct := to_ascii_lowercase (trim (default content_type (head (split_on x3b content_type)))) in
  if bool_decide (ct ∈ [b!"application/json"; b!"text/json"]) then Some Json
  else if bool_decide (ct ∈ [b!"application/xml"; b!"text/xml"]) then Some Xml
  else if bool_decide (ct ∈ [b!"application/yaml"; b!"text/yaml"; b!"application/x-yaml"; b!"text/x-yaml";
                             b!"application/yml"; b!"text/yml"]) then Some Yaml
  else if bool_decide (ct ∈ [b!"application/toml"; b!"text/toml"; b!"application/x-toml"]) then Some Toml
  else if ends_with ct (b!"+json") then Some Json
  else if ends_with ct (b!"+xml") then Some Xml
  else if ends_with ct (b!"+yaml") then Some Yaml
  else if ends_with ct (b!"+toml") then Some Toml
  else None.

Definition resolve (content_type : bytes) : Result Format CodecError :=
  ok_or (from_content_type content_type) (UnsupportedContentType content_type).

(** A decoder returns an error, or a parser panics on a slice out of bounds. *)
Inductive Failure := Failed (e : CodecError) | Panicked.

Definition of_toml_stop (s : Toml.Stop) : Failure :=
  match s with Toml.Error e => Failed e | Toml.Panic => Panicked end.
Definition of_xml_stop (s : Xml.Stop) : Failure :=
  match s with Xml.Error e => Failed e | Xml.Panic => Panicked end.

(** [from_str] of each format. *)
Definition from_str (f : Format) (input : bytes) : option (Result Value Failure) :=
  match f with
  | Json => map_err Failed <$> Json.from_str_fuel input
  | Xml => map_err of_xml_stop <$> Xml.from_str input
  | Yaml => map_err Failed <$> Yaml.from_str input
  | Toml => map_err of_toml_stop <$> Toml.from_str input
  end.

Section Dispatch.
Context {T : Type}.

(** [registry::encode] *)
Definition encode `{Encode T} (content_type : bytes) (value : T) : Result bytes CodecError :=
  let? f := resolve content_type in
  match f with
  | Json => Ok (encode_json value)
  | Xml => Ok (Xml.encode (Traits.encode value))
  | Yaml => Ok (Yaml.encode (Traits.encode value))
  | Toml => Ok (Toml.encode (Traits.encode value))
  end.

(** [decode_from_slice] of the tree formats: [T::decode(&from_str(input)?)]. *)
Definition decode_tree `{Decode T} (f : Format) (input : bytes) : option (Result T Failure) :=
  let! s := Some (map_err (fun e => Failed (Parse e)) (from_utf8 input)) in
  let! v := from_str f s in
  Some (map_err Failed (Traits.decode v)).

(** [registry::decode] *)
Definition decode `{Decode T} (content_type : bytes) (input : bytes) : option (Result T Failure) :=
  let! f := Some (map_err Failed (resolve content_type)) in
  match f with
  | Json => map_err Failed <$> decode_json_slice input
  | f => decode_tree f input
  end.
End Dispatch.

(** ** What a format promises of a tree *)

Class Codec (f : Format) := {
  write : Value -> bytes;
  ok : Value -> bool;
  norm : Value -> Value;
  read_back : forall v, ok v = true -> from_str f (write v) = Some (Ok (norm v));
}.

#[export] Program Instance json_codec : Codec Json := {
  write := Json.to_string;
  ok := fun v => Json.encodable v && (Value.depth v <=? Json.MAX_DEPTH)%nat;
  norm := Json.norm;
}.
Next Obligation.
  intros v [He Hd%Nat.leb_le]%andb_true_iff. cbn [from_str]. pose proof (Json.from_str_to_string v He Hd) as H.
  unfold Json.from_str in H. destruct (Json.from_str_fuel _) as [r|]; [by subst|done].
Qed.

#[export] Program Instance toml_codec : Codec Toml := {
  write := Toml.encode;
  ok := TomlRoundtrip.toml_ok;
  norm := TomlRoundtrip.toml_norm;
}.
Next Obligation. intros v H. cbn [from_str]. by rewrite TomlRoundtrip.from_str_encode. Qed.

#[export] Program Instance yaml_codec : Codec Yaml := {
  write := Yaml.encode;
  ok := fun v => Yaml.yaml_ok v && (Value.depth v <=? Yaml.MAX_DEPTH)%nat;
  norm := Yaml.yaml_norm;
}.
Next Obligation.
  intros v [H Hd%Nat.leb_le]%andb_true_iff. cbn [from_str]. by rewrite Yaml.from_str_encode_yaml.
Qed.

#[export] Program Instance xml_codec : Codec Xml := {
  write := Xml.encode;
  ok := fun v => Xml.in_range v && Xml.keys_ok v && (Value.depth v <=? Xml.MAX_DEPTH)%nat;
  norm := Xml.xml_norm;
}.
Next Obligation.
  intros v [[Hr Hk]%andb_true_iff Hd%Nat.leb_le]%andb_true_iff. cbn [from_str]. by rewrite Xml.from_str_encode_xml.
Qed.

(** ** Trees a format gives back as an image *)

Lemma image_object_intro loose o o' :
  NoDup (map fst o) -> NoDup (map fst o') ->
  (forall k w, (k, w) ∈ o' -> exists v, (k, v) ∈ o /\ image loose v w) ->
  (forall k v, (k, v) ∈ o -> v = Value.Null \/ k ∈ map fst o') ->
  image loose (Value.Object o) (Value.Object o').
Proof.
  intros Hn Hn' Hw Hm.
  assert (forall k v v', (k, v) ∈ o -> (k, v') ∈ o -> v = v') as Huniq.
  { clear -Hn. induction o as [|[k0 v0] o IH]; [set_solver|]. cbn [map fst] in Hn. apply NoDup_cons in Hn as [Hk Hn].
    assert (forall v, (k0, v) ∉ o) as Hno by (intros v Hv; apply Hk, list_elem_of_fmap; by exists (k0, v)).
    intros k v v' [[= -> ->]|H1]%elem_of_cons [H2|H2]%elem_of_cons; simplify_eq; [done|by destruct (Hno v')|by destruct (Hno v)|eauto]. }
  apply image_object; [done|..].
  - intros k [[k' w] [-> Hin]]%list_elem_of_fmap. destruct (Hw _ _ Hin) as (v & Hv & _). apply list_elem_of_fmap. by exists (k', v).
  - intros k v w Hv Hin. destruct (Hw _ _ Hin) as (v' & Hv' & Hi). by rewrite (Huniq k v v').
  - intros k v Hv Hk. by destruct (Hm _ _ Hv).
Qed.

Lemma image_object_map loose (g : Value -> Value) o :
  NoDup (map fst o) -> (forall kv, kv ∈ o -> image loose (snd kv) (g (snd kv))) ->
  image loose (Value.Object o) (Value.Object (map (fun kv => (fst kv, g (snd kv))) o)).
Proof.
  intros Hn Hg. assert (map fst (map (fun kv : bytes * Value => (fst kv, g (snd kv))) o) = map fst o) as Hm by (by rewrite map_map).
  apply image_object_intro; [done|by rewrite Hm|..].
  - intros k w ([k' v] & [= -> ->] & Hin)%list_elem_of_fmap. exists v. split; [done|]. by apply (Hg (k', v)).
  - intros k v Hv. right. rewrite Hm. apply list_elem_of_fmap. by exists (k, v).
Qed.

Lemma image_array_map loose (g : Value -> Value) a :
  (forall v, v ∈ a -> image loose v (g v)) -> image loose (Value.Array a) (Value.Array (map g a)).
Proof. intros Hg. apply image_array. induction a as [|v a IH]; constructor; [apply Hg; set_solver|apply IH; set_solver]. Qed.

Lemma image_uint_norm loose u :
  (0 <=? u) = true -> image loose (Value.UInt u) (if u <=? i64_max then Value.Int u else Value.UInt u).
Proof. intros Hu. destruct (u <=? i64_max); constructor. lia. Qed.

(** JSON: finite floats, no byte strings, distinct keys. *)
Fixpoint json_faithful (v : Value) : bool :=
  match v with
  | Value.UInt u => 0 <=? u
  | Value.Float f => F64.is_finite f
  | Value.Bytes _ => false
  | Value.Array a => forallb json_faithful a
  | Value.Object o => bool_decide (NoDup (map fst o)) && forallb (fun kv => json_faithful (snd kv)) o
  | _ => true
  end.

Lemma forallb_elem {A} (f : A -> bool) l x : forallb f l = true -> x ∈ l -> f x = true.
Proof. intros H Hx. rewrite forallb_forall in H. by apply H, list_elem_of_In. Qed.

(** The containers of a format that keeps every item and every entry. *)
Lemma array_images (P : Value -> bool) loose g a :
  Forall (fun v => P v = true -> image loose v (g v)) a -> forallb P a = true ->
  image loose (Value.Array a) (Value.Array (map g a)).
Proof.
  intros IH H. rewrite Forall_forall in IH. apply image_array_map. intros v Hv. apply IH; [done|]. by eapply forallb_elem.
Qed.

Lemma object_images (P : bytes * Value -> bool) loose g o :
  Forall (fun kv => P kv = true -> image loose (snd kv) (g (snd kv))) o ->
  bool_decide (NoDup (map fst o)) && forallb P o = true ->
  image loose (Value.Object o) (Value.Object (map (fun kv => (fst kv, g (snd kv))) o)).
Proof.
  intros IH [Hn%bool_decide_eq_true H]%andb_true_iff. rewrite Forall_forall in IH. apply image_object_map; [done|].
  intros kv Hkv. apply IH; [done|]. by eapply forallb_elem.
Qed.

Lemma json_image v : json_faithful v = true -> image false v (Json.norm v).
Proof.
  induction v as [|b|i|u|f|s|b|a IH|o IH] using value_ind'; cbn [json_faithful Json.norm]; intros H; try done; try (solve [constructor]).
  - by apply image_uint_norm.
  - rewrite H. constructor.
  - by apply (array_images json_faithful).
  - by apply (object_images (fun kv => json_faithful (snd kv))).
Qed.

(** YAML: as JSON, and a float that prints as an integer is that integer. *)
Definition float_is_int (f : F64.t) (z : Z) : bool :=
  bool_decide (of_int F64T z = narrow F64T f) && bool_decide (of_int F32T z = narrow F32T f).

Lemma float_is_int_spec f z : float_is_int f z = true -> forall t, of_int t z = narrow t f.
Proof. intros [H1%bool_decide_eq_true H2%bool_decide_eq_true]%andb_true_iff []; done. Qed.

Definition yaml_float (f : F64.t) : bool :=
  F64.is_finite f &&
  match parse_i64 (F64.display f) with
  | Some i => float_is_int f i
  | None => match parse_u64 (F64.display f) with Some u => float_is_int f u | None => true end
  end.

Fixpoint yaml_faithful (v : Value) : bool :=
  match v with
  | Value.UInt u => 0 <=? u
  | Value.Float f => yaml_float f
  | Value.Bytes _ => false
  | Value.Array a => forallb yaml_faithful a
  | Value.Object o => bool_decide (NoDup (map fst o)) && forallb (fun kv => yaml_faithful (snd kv)) o
  | _ => true
  end.

Lemma yaml_image v : yaml_faithful v = true -> image false v (Yaml.block_norm v).
Proof.
  induction v as [|b|i|u|f|s|b|a IH|o IH] using value_ind'; cbn [yaml_faithful Yaml.block_norm Yaml.scalar_norm]; intros H;
    try done; try (solve [constructor]).
  - by apply image_uint_norm.
  - unfold yaml_float in H. apply andb_true_iff in H as [-> H]. destruct (parse_i64 _) as [i|]; [constructor; by apply float_is_int_spec|].
    destruct (parse_u64 _) as [u|]; [constructor; by apply float_is_int_spec|constructor].
  - by apply (array_images yaml_faithful).
  - by apply (object_images (fun kv => yaml_faithful (snd kv))).
Qed.

(** TOML: no null in an array, no byte strings, distinct keys. *)
Fixpoint toml_faithful (v : Value) : bool :=
  match v with
  | Value.UInt u => 0 <=? u
  | Value.Bytes _ => false
  | Value.Array a => forallb (fun v => negb (Value.is_null v) && toml_faithful v) a
  | Value.Object o => bool_decide (NoDup (map fst o)) && forallb (fun kv => toml_faithful (snd kv)) o
  | _ => true
  end.

(** Entries that are null are gone, the others are images in some order. *)
Lemma image_kept loose (g : bytes * Value -> Value) o o' :
  NoDup (map fst o) -> o' ≡ₚ map (fun kv => (fst kv, g kv)) (TomlRoundtrip.present o) ->
  (forall kv, kv ∈ o -> Value.is_null (snd kv) = false -> image loose (snd kv) (g kv)) ->
  image loose (Value.Object o) (Value.Object o').
Proof.
  intros Hn Hp Hg. unfold TomlRoundtrip.present in Hp. apply image_object_intro; [done| |..].
  - rewrite Hp, map_map. cbn [fst]. clear -Hn. induction o as [|kv o IH]; [constructor|]. cbn [map] in Hn.
    apply NoDup_cons in Hn as [Hk Hn]. cbn [List.filter]. destruct (negb _); [|by apply IH]. cbn [map]. constructor; [|by apply IH].
    intros ([k v] & E & Hin)%list_elem_of_fmap. apply list_elem_of_In, filter_In in Hin as [Hin _]. apply Hk. rewrite E.
    apply list_elem_of_fmap. exists (k, v). split; [done|]. by apply list_elem_of_In.
  - intros k w Hin. rewrite Hp in Hin. apply list_elem_of_fmap in Hin as ([k' v] & [= -> ->] & Hin).
    apply list_elem_of_In, filter_In in Hin as [Hin Hnn%negb_true_iff]. apply list_elem_of_In in Hin.
    exists v. split; [done|]. by apply (Hg (k', v)).
  - intros k v Hin. destruct (Value.is_null v) eqn:Ev; [left; by destruct v|]. right. rewrite Hp, map_map. apply list_elem_of_fmap.
    exists (k, v). split; [done|]. apply list_elem_of_In, filter_In. split; [by apply list_elem_of_In|]. cbn [snd].
    unfold Toml.is_null. by rewrite Ev.
Qed.

Lemma toml_entries o :
  toml_faithful (Value.Object o) = true -> NoDup (map fst o) /\ forall kv, kv ∈ o -> toml_faithful (snd kv) = true.
Proof.
  cbn [toml_faithful]. intros [Hn%bool_decide_eq_true H]%andb_true_iff. split; [done|].
  intros kv Hkv. by apply (forallb_elem (fun kv => toml_faithful (snd kv)) o).
Qed.

Lemma toml_inline_image v :
  toml_faithful v = true -> Value.is_null v = false -> image false v (TomlRoundtrip.inline_norm v).
Proof.
  induction v as [|b|i|u|f|s|b|a IH|o IH] using value_ind'; intros H Hnn; try done; try (solve [constructor]).
  - by apply image_uint_norm.
  - apply (array_images (fun v => negb (Value.is_null v) && toml_faithful v)); [|done]. eapply Forall_impl; [exact IH|].
    intros v Hv [H1%negb_true_iff H2]%andb_true_iff. by apply Hv.
  - destruct (toml_entries o H) as [Hn He]. cbn [TomlRoundtrip.inline_norm].
    rewrite (TomlRoundtrip.flat_map_filter (fun kv => (fst kv, TomlRoundtrip.inline_norm (snd kv)))).
    apply (image_kept _ (fun kv => TomlRoundtrip.inline_norm (snd kv))); [done|done|].
    rewrite Forall_forall in IH. intros kv Hkv Hnull. by apply IH; [|apply He|].
Qed.

Lemma toml_doc_image v :
  toml_faithful v = true -> Toml.is_object v = true \/ Toml.is_section v = true -> image false v (TomlRoundtrip.doc_norm v).
Proof.
  induction v as [|b|i|u|f|s|b|a IH|o IH] using value_ind'; intros H Ho; try (by destruct Ho).
  - destruct Ho as [?|Ho]; [done|]. cbn [Toml.is_section] in Ho. apply andb_true_iff in Ho as [_ Ho].
    cbn [TomlRoundtrip.doc_norm]. apply (array_images (fun v => Toml.is_object v && (negb (Value.is_null v) && toml_faithful v))).
    + eapply Forall_impl; [exact IH|]. intros v Hv [H1 [_ H2]%andb_true_iff]%andb_true_iff. apply Hv; [done|by left].
    + apply forallb_forall. intros v Hv. rewrite forallb_forall in Ho. cbn [toml_faithful] in H. rewrite forallb_forall in H.
      by rewrite (Ho v Hv), (H v Hv).
  - destruct (toml_entries o H) as [Hn He]. rewrite TomlRoundtrip.doc_norm_object.
    apply (image_kept _ (fun kv => if Toml.is_section (snd kv) then TomlRoundtrip.doc_norm (snd kv) else TomlRoundtrip.inline_norm (snd kv)));
      [done| |].
    + rewrite TomlRoundtrip.present_split, map_app. unfold TomlRoundtrip.inlines, TomlRoundtrip.sections. apply Permutation_refl'.
      f_equal; apply map_ext_in; intros kv [_ Hf]%filter_In.
      * apply negb_true_iff, orb_false_iff in Hf as [_ ->]. done.
      * by rewrite Hf.
    + rewrite Forall_forall in IH. intros kv Hkv Hnull. destruct (Toml.is_section (snd kv)) eqn:Es.
      * apply IH; [done|by apply He|by right].
      * apply toml_inline_image; [by apply He|done].
Qed.

(** XML: scalars whose trimmed text is not empty and gives them back, no array
    directly in an array, no array of one null, no empty object. *)
Fixpoint xml_faithful (v : Value) : bool :=
  match v with
  | Value.Null | Value.Bool _ => true
  | Value.Int i => (i64_min <=? i) && (i <=? i64_max)
  | Value.UInt u => (0 <=? u) && (u <=? u64_max)
  | Value.Float f => F64.is_finite f && bool_decide (F64.parse (F64.display f) = Some f)
  | Value.Str s => negb (bool_decide (s = [])) && bool_decide (trim s = s)
  | Value.Bytes _ => false
  | Value.Array a =>
      forallb (fun v => negb (is_array v) && xml_faithful v) a &&
      match a with [v] => negb (Value.is_null v) | _ => true end
  | Value.Object o =>
      negb (bool_decide (o = [])) && (bool_decide (NoDup (map fst o)) && forallb (fun kv => xml_faithful (snd kv)) o)
  end.

(** Printed numbers are not trimmed. *)
Lemma number_trim (neg : bool) c t :
  F64.is_digit c = true -> Forall (fun b => dec_char b = true) t -> let s := (if neg then [x2d] else []) ++ c :: t in trim s = s /\ s <> [].
Proof.
  intros Hc Ht s. split; [|subst s; by destruct neg]. apply trim_solid. subst s. apply Forall_app. split; [by destruct neg; repeat constructor|].
  constructor; [by apply digit_solid|]. eapply Forall_impl; [exact Ht|]. intros b Hb. by destruct b.
Qed.

Lemma text_trimmed s : trim s = s -> s <> [] -> Xml.text_value s = Value.Str s.
Proof. intros Ht Hs. unfold Xml.text_value. rewrite Ht. by destruct s. Qed.

(** What is not an array is one element, an image of it. *)
Definition xml_element (v : Value) : Prop :=
  exists w, Xml.values v = [w] /\ image true v w /\ is_array w = false /\ (w = Value.Null -> v = Value.Null).

Lemma xml_text_element v s :
  Xml.values v = [Xml.text_value s] -> trim s = s -> s <> [] -> image true v (Value.Str s) -> xml_element v.
Proof. intros Hv Ht Hs Hi. exists (Value.Str s). by rewrite Hv, text_trimmed. Qed.

Lemma xml_scalar v :
  match v with Value.Array _ | Value.Object _ => False | _ => True end -> xml_faithful v = true -> xml_element v.
Proof.
  destruct v as [|b|i|u|f|s|b|a|o]; try done; intros _ H; cbn [xml_faithful] in H.
  - exists Value.Null. split_and!; [done|constructor|done|done].
  - apply (xml_text_element _ (if b then b!"true" else b!"false")); [done|by destruct b..|constructor; by destruct b].
  - zbool. pose proof (parse_i64_write_i64 i ltac:(lia)) as Hp. destruct (Json.write_i64_shape i) as (neg & c & t & E & Hc & Ht); [lia|].
    destruct (number_trim neg c t Hc (digits_dec_char t Ht)) as [H1 H2]. rewrite <- E in H1, H2.
    apply (xml_text_element _ (write_i64 [] i)); [by rewrite write_i64_decimal by lia|done|done|]. constructor. by rewrite H1.
  - zbool. pose proof (parse_u64_write_u64 u ltac:(lia)) as Hp. destruct (Json.write_u64_shape u) as (c & t & E & Hc & Ht); [lia|].
    destruct (number_trim false c t Hc (digits_dec_char t Ht)) as [H1 H2]. cbn [app] in H1, H2. rewrite <- E in H1, H2.
    apply (xml_text_element _ (write_u64 [] u)); [by rewrite write_u64_decimal by lia|done|done|]. constructor. by rewrite H1.
  - apply andb_true_iff in H as [Hf Hp%bool_decide_eq_true]. destruct (display_shape f Hf) as (neg & c & t & E & Hc & Ht).
    destruct (number_trim neg c t Hc Ht) as [H1 H2]. rewrite <- E in H1, H2.
    apply (xml_text_element _ (F64.display f)); [|done|done|constructor; by rewrite H1].
    cbn [Xml.values Xml.spelling]. by rewrite Hf.
  - apply andb_true_iff in H as [Hs%negb_true_iff%bool_decide_eq_false Ht%bool_decide_eq_true].
    apply (xml_text_element _ s); [done|done|done|constructor].
Qed.

(** The items of an array, none of them an array, are its elements in order. *)
Lemma xml_items a : Forall xml_element a -> exists ws, flat_map Xml.values a = ws /\ Forall2 (image true) a ws /\
  (forall v w, a = [v] -> ws = [w] -> is_array w = false /\ (w = Value.Null -> v = Value.Null)).
Proof.
  induction 1 as [|v a (w & Hv & Hi & Ha & Hn) _ (ws & E & Hf & _)]; [exists []; split_and!; [done|constructor|done]|].
  exists (w :: ws). cbn [flat_map]. rewrite Hv, E. split_and!; [done|by constructor|]. by intros v' w' [= <- ->] [= <- ->].
Qed.

Lemma xml_array a :
  Forall xml_element a -> match a with [v] => negb (Value.is_null v) | _ => true end = true ->
  image true (Value.Array a) (Xml.collapse (Xml.values (Value.Array a))).
Proof.
  intros Ha Hn. destruct a as [|v a]; [by apply image_empty|]. set (l := v :: a) in *.
  change (Xml.values (Value.Array l)) with (flat_map Xml.values l).
  destruct (xml_items l Ha) as (ws & -> & Hf & H1). destruct ws as [|w [|w' ws]]; [by inversion Hf| |by apply image_array].
  assert (a = []) as -> by (apply Forall2_length in Hf; by destruct a).
  destruct (H1 v w eq_refl eq_refl) as [Hw Hnull]. cbn [Xml.collapse]. inversion Hf; subst. apply image_single; try done.
  intros ->. by rewrite (Hnull eq_refl) in Hn.
Qed.

Lemma xml_image v :
  xml_faithful v = true -> image true v (Xml.collapse (Xml.values v)) /\ (is_array v = false -> xml_element v).
Proof.
  assert (forall v, xml_element v -> image true v (Xml.collapse (Xml.values v)) /\ (is_array v = false -> xml_element v)) as Hone.
  { intros v' Hv. split; [|done]. destruct Hv as (w & -> & Hi & _). done. }
  induction v as [|b|i|u|f|s|b|a IH|o IH] using value_ind'; intros H; try (by apply Hone, xml_scalar).
  - split; [|done]. cbn [xml_faithful] in H. apply andb_true_iff in H as [H Hn]. apply xml_array; [|done].
    rewrite Forall_forall in IH |- *. intros v Hv. pose proof (forallb_elem _ _ _ H Hv) as [H1%negb_true_iff H2]%andb_true_iff.
    by apply IH.
  - apply Hone. cbn [xml_faithful] in H. apply andb_true_iff in H as [Ho%negb_true_iff%bool_decide_eq_false H].
    exists (Value.Object (map (fun kv => (fst kv, Xml.collapse (Xml.values (snd kv)))) o)). split_and!; [by destruct o| |done|done].
    apply (object_images (fun kv => xml_faithful (snd kv)) true (fun v => Xml.collapse (Xml.values v))); [|done].
    eapply Forall_impl; [exact IH|]. intros kv Hkv Hx. by apply Hkv.
Qed.

(** ** The dispatch round trip *)

(** XML has no array syntax. *)
Definition loose (f : Format) : bool := match f with Xml => true | _ => false end.

(** The trees that the format gives back as an image of themselves. *)
Definition faithful (f : Format) (v : Value) : bool :=
  match f with
  | Json => ok (f := Json) v && json_faithful v
  | Xml => ok (f := Xml) v && xml_faithful v && negb (is_array v)
  | Yaml => ok (f := Yaml) v && yaml_faithful v && Yaml.is_block v
  | Toml => ok (f := Toml) v && toml_faithful v && Toml.is_object v
  end.

Definition codec_of (f : Format) : Codec f :=
  match f with Json => json_codec | Xml => xml_codec | Yaml => yaml_codec | Toml => toml_codec end.

Lemma faithful_ok f v : faithful f v = true -> ok (Codec := codec_of f) v = true.
Proof. destruct f; cbn [faithful codec_of]; intros H; apply andb_true_iff in H as [H _]; try done; by apply andb_true_iff in H as [H _]. Qed.

Lemma faithful_read f v :
  faithful f v = true ->
  exists w, from_str f (write (Codec := codec_of f) v) = Some (Ok w) /\ image (loose f) v w.
Proof.
  intros H. destruct f; cbn [faithful codec_of] in *.
  - apply andb_true_iff in H as [Hok H]. exists (norm (Codec := json_codec) v). split; [by apply (read_back (Codec := json_codec))|]. by apply json_image.
  - apply andb_true_iff in H as [[Hok H]%andb_true_iff Ha%negb_true_iff]. exists (norm (Codec := xml_codec) v). split; [by apply (read_back (Codec := xml_codec))|].
    destruct (xml_image v H) as [Hi _]. by destruct v.
  - apply andb_true_iff in H as [[Hok H]%andb_true_iff Ha]. exists (norm (Codec := yaml_codec) v). split; [by apply (read_back (Codec := yaml_codec))|].
    pose proof (yaml_image v H) as Hi. by destruct v as [| | | | | | |[|]|[|]].
  - apply andb_true_iff in H as [[Hok H]%andb_true_iff Ha]. exists (norm (Codec := toml_codec) v). split; [by apply (read_back (Codec := toml_codec))|].
    assert (image false v (TomlRoundtrip.doc_norm v)) as Hi by (apply toml_doc_image; [done|by left]). by destruct v.
Qed.

Lemma encode_writes {T} `{Encode T, !Streams T} f ct (x : T) :
  from_content_type ct = Some f -> encode ct x = Ok (write (Codec := codec_of f) (Traits.encode x)).
Proof. intros Hf. unfold encode, resolve. rewrite Hf. cbn [ok_or rbind]. destruct f; cbn [codec_of write]; [by rewrite <- encode_json_tree|done..]. Qed.

(** A document the tree parser reads as an image of a value is streamed to it. *)
Lemma decode_json_image {T} `{Encode T, Decode T, Valid T, !JsonComplete T} input w (x : T) :
  Json.from_str_fuel input = Some (Ok w) -> valid x -> image false (Traits.encode x) w -> decode_json input = Some (Ok x).
Proof.
  unfold Json.from_str_fuel. intros Hw Hx Hi. pose proof (Json.skip_ws_length (Json.new input)) as W.
  destruct (Json.parse_value _ _) as [[[v p]|]|] eqn:E; cbn [fbind] in Hw; [|done..].
  case_bool_decide as Hr; [|done]. injection Hw as ->. rewrite parse_skip_ws in E.
  apply (reads_value_parse (Json.new input)) in E; [|cbn [Json.depth Json.new]; lia|done].
  unfold decode_json, Json.decode. rewrite (json_complete (Json.new input) w p x) by (done || (cbn [Json.depth Json.new]; lia)).
  cbn [fbind]. by rewrite bool_decide_true.
Qed.

Lemma decode_encode {T} `{Encode T, Decode T, Valid T, !Streams T, !JsonComplete T} (f : Format)
  `{!Lossless (loose f) T} (ct : bytes) (x : T) (b : bytes) :
  from_content_type ct = Some f -> valid x -> faithful f (Traits.encode x) = true ->
  encode ct x = Ok b -> Utf8.is_utf8 b = true -> decode ct b = Some (Ok x).
Proof.
  intros Hf Hx Hok Hb Hu. rewrite (encode_writes f) in Hb by done. injection Hb as <-.
  destruct (faithful_read f _ Hok) as (w & Hw & Hi). pose proof (from_utf8_ok _ Hu) as Eu.
  unfold decode, resolve. rewrite Hf. cbn [ok_or map_err fbind].
  destruct f; [|unfold decode_tree; rewrite Eu; cbn [map_err fbind]; rewrite Hw; cbn [fbind];
    by rewrite (decode_image (loose := loose _) x w Hx Hi)..].
  unfold decode_json_slice. rewrite Eu. cbn [map_err fbind]. cbn [from_str] in Hw.
  destruct (Json.from_str_fuel _) as [[w'|]|] eqn:E; try done. injection Hw as ->.
  by rewrite (decode_json_image _ w x E Hx Hi).
Qed.

(** A derived struct with a vector, an optional field and a nested enum. *)
Definition sample_fields : list Field :=
  [Plain (b!"name") bytes _ _ _; Plain (b!"port") (Unsigned U16) _ _ _;
   Plain (b!"tags") (list bytes) _ _ _; Optional (b!"note") true bytes _ _ _;
   Plain (b!"level") (Enum [b!"low"; b!"high"]) _ _ _].

Definition sample : Struct sample_fields :=
  (b!"svc", (mkUnsigned 8080, ([b!"a"], (None, (mkEnum 1, tt))))).

#[export] Instance level_distinct : DistinctKeys [b!"low"; b!"high"].
Proof. by apply (bool_decide_eq_true_1 (NoDup [b!"low"; b!"high"])). Qed.

#[export] Instance sample_lossless l : FieldsLossless l sample_fields.
Proof. split; [by apply (bool_decide_eq_true_1 (NoDup (map key sample_fields)))|]. by_fields. Qed.
#[export] Instance sample_streams : FieldsStream sample_fields.
Proof. by_fields. Qed.
#[export] Instance sample_json_complete : FieldsJsonComplete sample_fields.
Proof. by_fields. Qed.
#[export] Instance sample_json_sound : FieldsJsonSound sample_fields.
Proof. by_fields. Qed.

Definition sample_yaml : bytes := default [] (match encode (b!"text/yaml") sample with Ok b => Some b | Err _ => None end).
Definition sample_xml : bytes := default [] (match encode (b!"Text/XML; charset=utf-8") sample with Ok b => Some b | Err _ => None end).
Definition sample_json : bytes := default [] (match encode (b!"application/vnd.api+json") sample with Ok b => Some b | Err _ => None end).

(** What the parser streams a value out of, the tree parser reads a tree of. *)
Lemma decode_json_tree {T} `{Decode T, !JsonSound T} (input : bytes) (x : T) :
  decode_json input = Some (Ok x) -> exists v, Json.from_str input = Ok v /\ Traits.decode v = Ok x.
Proof.
  unfold decode_json, Json.decode. destruct (decode_from (Json.new input)) as [[[y p]|]|] eqn:E; cbn [fbind]; [|done..].
  case_bool_decide as Hr; [|done]. intros [= <-].
  destruct (json_sound (Json.new input) y p ltac:(cbn; lia) E) as (v & Hv & Hd). exists v. split; [|done].
  unfold Json.from_str, Json.from_str_fuel. rewrite parse_skip_ws.
  rewrite (reads_value_parse (Json.new input) v p (Json.value_fuel (length input))) in Hv by (done || (cbn; lia)).
  rewrite Hv. cbn [fbind]. by rewrite bool_decide_true.
Qed.

(** ** Content types *)

Definition not_letter (b : byte) : bool := negb ((65 <=? b2z b) && (b2z b <=? 90)) && negb ((97 <=? b2z b) && (b2z b <=? 122)).

Lemma lower_not_letter x y : not_letter y = true -> ascii_lower x = y <-> x = y.
Proof.
  unfold not_letter, ascii_lower. intros Hy. pose proof (b2z_range x). split.
  - destruct ((65 <=? b2z x) && (b2z x <=? 90)) eqn:E; [|done]. intros Hxy. rewrite <- Hxy in Hy. rewrite b2z_z2b in Hy by lia. lia.
  - intros ->. destruct ((65 <=? b2z y) && (b2z y <=? 90)) eqn:E; [|done]. lia.
Qed.

Lemma starts_with_lower p s :
  Forall (fun y => not_letter y = true) p -> starts_with (to_ascii_lowercase s) p = starts_with s p.
Proof.
  intros Hp. revert s. induction Hp as [|y p Hy _ IH]; intros [|x s]; try done. cbn [to_ascii_lowercase map starts_with].
  rewrite (bool_decide_ext _ _ (lower_not_letter x y Hy)). f_equal. apply IH.
Qed.

Lemma strip_any_lower pats s :
  Forall (Forall (fun y => not_letter y = true)) pats ->
  strip_any pats (to_ascii_lowercase s) = to_ascii_lowercase <$> strip_any pats s.
Proof.
  intros Hp. unfold strip_any, strip_prefix. induction Hp as [|p pats Hp _ IH]; [done|]. cbn [omap list_omap].
  rewrite starts_with_lower by done. destruct (starts_with s p); [|done]. cbn [head fmap option_fmap option_map].
  unfold to_ascii_lowercase. by rewrite skipn_map.
Qed.

Lemma trim_with_lower pats f : forall s,
  Forall (Forall (fun y => not_letter y = true)) pats ->
  trim_with f pats (to_ascii_lowercase s) = to_ascii_lowercase (trim_with f pats s).
Proof.
  induction f as [|f IH]; intros s Hp; [done|]. cbn [trim_with]. rewrite strip_any_lower by done.
  destruct (strip_any pats s) as [s'|]; cbn [fmap option_fmap option_map]; [by apply IH|done].
Qed.

Lemma whitespace_not_letters :
  Forall (Forall (fun y => not_letter y = true)) whitespace /\
  Forall (Forall (fun y => not_letter y = true)) (map (@rev byte) whitespace).
Proof. split; vm_compute; repeat constructor. Qed.

Lemma trim_lower s : trim (to_ascii_lowercase s) = to_ascii_lowercase (trim s).
Proof.
  destruct whitespace_not_letters as [H1 H2].
  assert (forall s, trim_start (to_ascii_lowercase s) = to_ascii_lowercase (trim_start s)) as Hs.
  { intros t. unfold trim_start. unfold to_ascii_lowercase at 1. rewrite length_map. by apply trim_with_lower. }
  unfold trim. rewrite Hs. generalize (trim_start s) as t. intros t. unfold trim_end, to_ascii_lowercase.
  rewrite length_map, <- map_rev. change (map ascii_lower (rev t)) with (to_ascii_lowercase (rev t)).
  rewrite trim_with_lower by done. apply (eq_sym (map_rev _ _)).
Qed.

Lemma lower_idem s : to_ascii_lowercase (to_ascii_lowercase s) = to_ascii_lowercase s.
Proof.
  unfold to_ascii_lowercase. rewrite map_map. apply map_ext. intros b. unfold ascii_lower at 1 3. pose proof (b2z_range b).
  destruct ((65 <=? b2z b) && (b2z b <=? 90)) eqn:E.
  - unfold ascii_lower. rewrite E, b2z_z2b by lia. by replace ((65 <=? b2z b + 32) && (b2z b + 32 <=? 90)) with false by lia.
  - unfold ascii_lower. by rewrite !E.
Qed.

Lemma head_split s : x3b ∉ s -> head (split_on x3b s) = Some s.
Proof. intros H. by rewrite split_on_none. Qed.

(** The content type decides the format by its media type alone: parameters and the case of its letters do not
    matter; a content type of no known format is refused by [encode] and [decode] alike, with the error that names
    it, whatever the type, the value or the input. *)
Theorem content_type_dispatch (s params : bytes) :
  x3b ∉ s ->
  from_content_type (s ++ x3b :: params) = from_content_type s /\
  from_content_type (to_ascii_lowercase s) = from_content_type s /\
  (from_content_type s = None ->
   (forall T (enc : Encode T) (x : T), encode s x = Err (UnsupportedContentType s)) /\
   (forall T (dec : Decode T) input, @decode T dec s input = Some (Err (Failed (UnsupportedContentType s))))).
Proof.
  intros Hs. assert (x3b ∉ to_ascii_lowercase s) as Hl.
  { intros (b & E & Hb)%list_elem_of_fmap. symmetry in E. apply lower_not_letter in E as ->; done. }
  split_and!.
  - unfold from_content_type. by rewrite split_on_app, head_split.
  - unfold from_content_type. rewrite !head_split by done. cbn [default from_option id]. by rewrite trim_lower, lower_idem.
  - intros Hn. unfold encode, decode, resolve. by rewrite Hn.
Qed.

Lemma content_type_dispatch_witness :
  (forall T (dec : Decode T) input, @decode T dec (b!"application/octet-stream") input =
     Some (Err (Failed (UnsupportedContentType (b!"application/octet-stream"))))) /\
  from_content_type (b!"Text/XML; charset=utf-8") = Some Xml.
Proof.
  split.
  - apply (content_type_dispatch (b!"application/octet-stream") []); [|vm_compute; reflexivity].
    apply (bool_decide_eq_true_1 (x3b ∉ b!"application/octet-stream")). vm_compute. reflexivity.
  - change (b!"Text/XML; charset=utf-8") with (b!"Text/XML" ++ x3b :: b!" charset=utf-8").
    rewrite (proj1 (content_type_dispatch (b!"Text/XML") (b!" charset=utf-8")
      ltac:(apply (bool_decide_eq_true_1 (x3b ∉ b!"Text/XML")); vm_compute; reflexivity))). vm_compute. reflexivity.
Defined.

End Registry.
