(* ===== verification/Types.v ===== *)
(** * The types that travel through the codec ([codec/traits.rs] and the derives)

    [Ty] is a syntax for every type that has both traits: the primitives, [String], [char], [()], [Option], [Vec],
    [Box], [HashMap], [Value], and the structs and enums the derives generate, nested in any way.  [sem] is the Rust
    type a piece of syntax stands for, with the [Encode] and [Decode] of [Traits], [Derive] and [Convert].  What the
    components ask of one type ([Streams], [Lossless], [JsonSound], ...) holds of all of them by induction on the
    syntax ([wf] is the part of it that is decided), so that the theorems at the end have no hypothesis on the type.

    The encoders' output is valid UTF-8 ([write_utf8]), so the decoders of byte slices accept it. *)

From Stdlib Require Import SpecFloat.
From S2P Require Import Prelude Text Scan Value Json Toml TomlRoundtrip Xml Yaml Traits Convert Derive Streaming Utf8Out Registry.
Import Traits Convert Derive Streaming.

Open Scope Z_scope.

Module Types.

(** ** Types *)

(** A field of a struct: its key, and for an optional one whether [None] is skipped. *)
Abbreviation FieldKey := (bytes * option bool)%type.

Inductive Ty :=
| TBool | TSigned (t : SignedTy) | TUnsigned (t : UnsignedTy) | TFloat (t : FloatTy) | TChar | TUnit | TStr | TValue
| TOption (t : Ty) | TVec (t : Ty) | TMap (t : Ty) | TBox (t : Ty)
| TEnum (keys : list bytes)
| TStruct (fs : list (FieldKey * Ty)).

Section TyInd.
Context (P : Ty -> Prop)
  (Hleaf : forall t, match t with TOption _ | TVec _ | TMap _ | TBox _ | TStruct _ => False | _ => True end -> P t)
  (Hopt : forall t, P t -> P (TOption t)) (Hvec : forall t, P t -> P (TVec t)) (Hmap : forall t, P t -> P (TMap t))
  (Hbox : forall t, P t -> P (TBox t)) (Hstruct : forall fs, Forall (fun f => P (snd f)) fs -> P (TStruct fs)).

Fixpoint ty_ind' (t : Ty) : P t :=
  match t with
  | TOption t => Hopt t (ty_ind' t)
  | TVec t => Hvec t (ty_ind' t)
  | TMap t => Hmap t (ty_ind' t)
  | TBox t => Hbox t (ty_ind' t)
  | TStruct fs => Hstruct fs
      ((fix go (l : list (FieldKey * Ty)) : Forall (fun f => P (snd f)) l :=
          match l with
          | [] => Forall_nil_2 _
          | f :: l => Forall_cons_2 (fun f => P (snd f)) f l (ty_ind' (snd f)) (go l)
          end) fs)
  | t => Hleaf t I
  end.
End TyInd.

(** A Rust type with its implementations. *)
Record Sem := mkSem { carrier : Type; sem_encode : Encode carrier; sem_decode : Decode carrier; sem_valid : Valid carrier }.

(** The strings and keys of a [Value] are [String]s. *)
#[export] Instance value_valid : Valid Value := fun v => Value.utf8_strings v = true.

Section Semantics.
Context {O : HashOrder}.

Definition sem_field (k : FieldKey) (s : Sem) : Field :=
  match snd k with
  | None => Plain (fst k) (carrier s) (sem_encode s) (sem_decode s) (sem_valid s)
  | Some skip => Optional (fst k) skip (carrier s) (sem_encode s) (sem_decode s) (sem_valid s)
  end.

Fixpoint sem (t : Ty) : Sem :=
  match t with
  | TBool => mkSem bool _ _ _
  | TSigned t => mkSem (Signed t) _ _ _
  | TUnsigned t => mkSem (Unsigned t) _ _ _
  | TFloat t => mkSem (Float t) _ _ _
  | TChar => mkSem Char _ _ _
  | TUnit => mkSem unit _ _ _
  | TStr => mkSem bytes _ _ _
  | TValue => mkSem Value _ _ _
  | TOption t => let s := sem t in
      mkSem (option (carrier s)) (@option_encode _ (sem_encode s)) (@option_decode _ (sem_decode s))
        (@option_valid _ (sem_valid s))
  | TVec t => let s := sem t in
      mkSem (list (carrier s)) (@vec_encode _ (sem_encode s)) (@vec_decode _ (sem_decode s)) (@vec_valid _ (sem_valid s))
  | TMap t => let s := sem t in
      mkSem (gmap bytes (carrier s)) (@map_encode _ _ (sem_encode s)) (@map_decode _ (sem_decode s))
        (@map_valid _ (sem_valid s))
  | TBox t => let s := sem t in
      mkSem (Box (carrier s)) (@box_encode _ (sem_encode s)) (@box_decode _ (sem_decode s)) (@box_valid _ (sem_valid s))
  | TEnum keys => mkSem (Enum keys) _ _ _
  | TStruct fs => let l := map (fun f => sem_field (fst f) (sem (snd f))) fs in mkSem (Struct l) _ _ _
  end.

Definition fields (fs : list (FieldKey * Ty)) : list Field := map (fun f => sem_field (fst f) (sem (snd f))) fs.

Abbreviation Carrier t := (carrier (sem t)).
#[export] Instance ty_encode t : Encode (Carrier t) := sem_encode (sem t).
#[export] Instance ty_decode t : Decode (Carrier t) := sem_decode (sem t).
#[export] Instance ty_valid t : Valid (Carrier t) := sem_valid (sem t).

Lemma fields_Forall (P : Field -> Prop) fs :
  Forall (fun f => P (sem_field (fst f) (sem (snd f)))) fs -> Forall P (fields fs).
Proof. intros H. by apply Forall_map. Qed.

(** ** What holds of every type *)

Lemma ty_streams t : Streams (Carrier t).
Proof.
  induction t as [t Ht|t IH|t IH|t IH|t IH|fs IH] using ty_ind'.
  - destruct t; try done; cbn [sem carrier]; apply _.
  - exact (option_streams (Streams0 := IH)).
  - exact (vec_streams (Streams0 := IH)).
  - exact (map_streams (Streams0 := IH)).
  - exact (box_streams (Streams0 := IH)).
  - assert (FieldsStream (fields fs)) as Hs; [|exact (struct_streams (fields fs))].
    apply fields_Forall. eapply Forall_impl; [exact IH|]. intros [[k [s|]] t] H; exact H.
Qed.

Lemma box_json_sound {T} `{Decode T, !JsonSound T} : JsonSound (Box T).
Proof.
  intros p [x] p' Hd. cbn [decode_from box_decode]. unfold box_decode_from. destruct (decode_from p) as [[[y q]|]|] eqn:E; cbn [fbind]; try done.
  intros [= -> ->]. destruct (json_sound p x p' Hd E) as (v & Hv & Hx). exists v. split; [done|]. cbn [decode box_decode]. by rewrite Hx.
Qed.

Lemma box_json_complete {T} `{Encode T, Decode T, Valid T, !JsonComplete T} : JsonComplete (Box T).
Proof.
  intros p v p' [x] Hd Hx Hi Hr. cbn [decode_from box_decode]. unfold box_decode_from.
  by rewrite (json_complete p v p' x Hd Hx Hi Hr).
Qed.

Lemma ty_json_sound t : JsonSound (Carrier t).
Proof.
  induction t as [t Ht|t IH|t IH|t IH|t IH|fs IH] using ty_ind'.
  - destruct t; try done; cbn [sem carrier]; apply _.
  - exact (option_json_sound (JsonSound0 := IH)).
  - exact (vec_json_sound (JsonSound0 := IH)).
  - exact (map_json_sound (JsonSound0 := IH)).
  - exact (box_json_sound (JsonSound0 := IH)).
  - assert (FieldsJsonSound (fields fs)) as Hs; [|exact (struct_json_sound (fields fs))].
    apply fields_Forall. eapply Forall_impl; [exact IH|]. intros [[k [s|]] t] H; exact H.
Qed.

(** Types none of whose values are written as null, nor read as it ([loose]: by a format without array syntax). *)
Fixpoint present (loose : bool) (t : Ty) : bool :=
  match t with
  | TUnit | TValue | TOption _ => false
  | TVec _ => negb loose
  | TBox t => present loose t
  | _ => true
  end.

(** The types whose values come back: the fields of a struct and the variants of an enum have distinct keys; an
    option is of a type that is not written as null itself ([Some(None)] and [None] are both null); a map value and
    a field that is not an [Option] are not null either (null entries are left out by some formats); [Value] itself
    comes back as the format's normal form and is left out.  Keys are Rust strings. *)
Fixpoint wf (loose : bool) (t : Ty) : bool :=
  match t with
  | TValue => false
  | TOption t => wf loose t && present loose t
  | TVec t | TBox t => wf loose t
  | TMap t => wf loose t && present false t
  | TEnum keys => bool_decide (NoDup keys) && forallb Utf8.is_utf8 keys
  | TStruct fs =>
      bool_decide (NoDup (map (fun f => fst (fst f)) fs)) && forallb (fun f => Utf8.is_utf8 (fst (fst f))) fs &&
      forallb (fun f => wf loose (snd f) && present (match snd (fst f) with Some _ => loose | None => false end) (snd f)) fs
  | _ => true
  end.

Lemma ty_present loose t : present loose t = true -> Present loose (Carrier t).
Proof.
  induction t as [t Ht|t IH|t IH|t IH|t IH|fs IH] using ty_ind'; intros H; try done.
  - destruct t; try done; cbn [sem carrier]; apply _.
  - cbn [present] in H. apply negb_true_iff in H as ->. exact vec_present.
  - exact map_present.
  - exact (box_present (Present0 := IH H)).
  - exact (struct_present loose (fields fs)).
Qed.

Lemma fields_keys fs : map key (fields fs) = map (fun f => fst (fst f)) fs.
Proof. unfold fields. rewrite map_map. apply map_ext. by intros [[k [s|]] t]. Qed.

Lemma ty_lossless loose t : wf loose t = true -> Lossless loose (Carrier t).
Proof.
  induction t as [t Ht|t IH|t IH|t IH|t IH|fs IH] using ty_ind'; intros H; cbn [wf] in H.
  - destruct t as [| | | | | | | |? |?|?|?|keys|?]; try done; cbn [sem carrier]; try apply _.
    apply enum_lossless. by apply andb_true_iff in H as [H%bool_decide_eq_true _].
  - apply andb_true_iff in H as [H1 H2]. exact (option_lossless (Lossless0 := IH H1) (Present0 := ty_present _ _ H2)).
  - exact (vec_lossless (Lossless0 := IH H)).
  - apply andb_true_iff in H as [H1 H2]. exact (map_lossless (Lossless0 := IH H1) (Present0 := ty_present _ _ H2)).
  - exact (box_lossless (Lossless0 := IH H)).
  - apply andb_true_iff in H as [[Hn%bool_decide_eq_true _]%andb_true_iff H]. rewrite forallb_forall in H.
    assert (FieldsLossless loose (fields fs)) as Hs; [|exact (struct_lossless loose (fields fs))].
    split; [by rewrite fields_keys|]. apply fields_Forall. rewrite Forall_forall in IH |- *. intros f Hf.
    pose proof (H f ltac:(by apply list_elem_of_In)) as [H1 H2]%andb_true_iff. specialize (IH f Hf H1).
    destruct f as [[k [s|]] t]; (split; [exact IH|exact (ty_present _ _ H2)]).
Qed.

(** A format with array syntax restricts the types no more than one without. *)
Lemma present_strict t : present true t = true -> present false t = true.
Proof. induction t; cbn [present]; auto. Qed.

Lemma wf_strict loose t : wf loose t = true -> wf false t = true.
Proof.
  destruct loose; [|done].
  induction t as [t Ht|t IH|t IH|t IH|t IH|fs IH] using ty_ind'; cbn [wf]; auto.
  - by destruct t.
  - intros [H1 H2]%andb_true_iff. apply andb_true_iff. split; [by apply IH|by apply present_strict].
  - intros [H1 H2]%andb_true_iff. apply andb_true_iff. split; [by apply IH|done].
  - intros [-> H]%andb_true_iff. cbn [andb]. rewrite forallb_forall in H |- *. rewrite Forall_forall in IH.
    intros f Hf. pose proof (H f Hf) as [H1 H2]%andb_true_iff. apply list_elem_of_In in Hf. apply andb_true_iff.
    split; [by apply IH|]. destruct f as [[k [s|]] t]; cbn [fst snd] in *; [by apply present_strict|done].
Qed.

Lemma ty_json_complete t : wf false t = true -> JsonComplete (Carrier t).
Proof.
  induction t as [t Ht|t IH|t IH|t IH|t IH|fs IH] using ty_ind'; intros H; pose proof H as Hl; cbn [wf] in H.
  - destruct t as [| | | | | | | |? |?|?|?|keys|?]; try done; cbn [sem carrier]; try apply _.
    apply enum_json_complete. by apply andb_true_iff in H as [H%bool_decide_eq_true _].
  - apply andb_true_iff in H as [H1 H2].
    exact (option_json_complete (Present0 := ty_present _ _ H2) (JsonComplete0 := IH H1)).
  - exact (vec_json_complete (JsonComplete0 := IH H)).
  - apply andb_true_iff in H as [H1 H2].
    exact (map_json_complete (Lossless0 := ty_lossless _ _ H1) (Present0 := ty_present _ _ H2) (JsonComplete0 := IH H1)).
  - exact (box_json_complete (JsonComplete0 := IH H)).
  - apply andb_true_iff in H as [[Hn%bool_decide_eq_true _]%andb_true_iff H]. rewrite forallb_forall in H.
    assert (FieldsLossless false (fields fs)) as Hf.
    { split; [by rewrite fields_keys|]. apply fields_Forall, Forall_forall. intros f Hf.
      pose proof (H f ltac:(by apply list_elem_of_In)) as [H1 H2]%andb_true_iff.
      destruct f as [[k [s|]] t]; (split; [exact (ty_lossless _ _ H1)|exact (ty_present _ _ H2)]). }
    assert (FieldsJsonComplete (fields fs)) as Hs; [|exact (struct_json_complete (fields fs))].
    apply fields_Forall. rewrite Forall_forall in IH |- *. intros f Hin.
    pose proof (H f ltac:(by apply list_elem_of_In)) as [H1 _]%andb_true_iff. specialize (IH f Hin H1).
    destruct f as [[k [s|]] t]; exact IH.
Qed.

(** The tree of a value has the strings and keys of the value and its type. *)
Lemma push_fields_utf8 fs (s : Struct fs) :
  Forall (fun f => Utf8.is_utf8 (key f) = true /\
    match f with
    | Plain _ T enc _ val => forall x : T, valid x -> utf8_strings (encode x) = true
    | Optional _ _ U enc _ val => forall x : U, valid x -> utf8_strings (encode x) = true
    end) fs ->
  valid s -> forallb (fun kv => Utf8.is_utf8 (fst kv) && utf8_strings (snd kv)) (push_fields fs s) = true.
Proof.
  induction 1 as [|f fs [Hk Hf] _ IH]; [done|]. intros [Hx Hs]. cbn [push_fields]. rewrite forallb_app. apply andb_true_iff.
  split; [|by apply IH]. destruct s as [x s]. cbn [fst] in *.
  destruct f as [k T enc dec val|k [] U enc dec val]; cbn [push_field key] in *.
  - cbn [forallb fst snd]. by rewrite Hk, Hf.
  - destruct x as [y|]; [|done]. cbn [forallb fst snd]. by rewrite Hk, Hf.
  - cbn [forallb fst snd]. rewrite Hk. destruct x as [y|]; [|done]. cbn [encode field_encode option_encode]. by rewrite Hf.
Qed.

Lemma ty_utf8 loose t (x : Carrier t) : wf loose t = true -> valid x -> utf8_strings (encode x) = true.
Proof.
  revert x. induction t as [t Ht|t IH|t IH|t IH|t IH|fs IH] using ty_ind'; intros x H Hx; cbn [wf] in H.
  - destruct t as [| | | | | | | |? |?|?|?|keys|?]; try done.
    + destruct (encode_char_seq (scalar x) Hx) as [E _]. change (forallb fst (Utf8.seqs (Utf8.encode_char (scalar x))) = true).
      by rewrite E.
    + apply andb_true_iff in H as [_ H]. cbn [sem carrier] in x. destruct x as [i].
      change (i < length keys)%nat in Hx. destruct (lookup_lt_is_Some_2 keys i Hx) as [k Ek]. rewrite forallb_forall in H.
      change (Utf8.is_utf8 (default [] (keys !! i)) = true). rewrite Ek. apply H, list_elem_of_In. by eapply list_elem_of_lookup_2.
  - apply andb_true_iff in H as [H1 _]. destruct x as [x|]; [|done]. exact (IH x H1 Hx).
  - change (forallb utf8_strings (map (@encode _ (sem_encode (sem t))) x) = true). rewrite forallb_forall.
    intros w (y & <- & Hy)%in_map_iff. apply (IH y H). change (Forall (@valid _ (sem_valid (sem t))) x) in Hx.
    rewrite Forall_forall in Hx. by apply Hx, list_elem_of_In.
  - apply andb_true_iff in H as [H1 _].
    change (forallb (fun kv => Utf8.is_utf8 (fst kv) && utf8_strings (snd kv))
      (map (fun kv => (fst kv, @encode _ (sem_encode (sem t)) (snd kv))) (hash_iter x)) = true). rewrite forallb_forall.
    intros w ([k y] & <- & Hy)%in_map_iff. apply list_elem_of_In in Hy. rewrite hash_iter_perm in Hy.
    apply elem_of_map_to_list in Hy. destruct (Hx k y Hy) as [Hk Hv]. cbn [fst snd]. rewrite Hk. exact (IH y H1 Hv).
  - destruct x as [x]. exact (IH x H Hx).
  - apply andb_true_iff in H as [[_ Hk]%andb_true_iff H]. rewrite forallb_forall in H, Hk.
    apply (push_fields_utf8 (fields fs)); [|exact Hx]. apply fields_Forall. rewrite Forall_forall in IH |- *. intros f Hf.
    pose proof (H f ltac:(by apply list_elem_of_In)) as [H1 _]%andb_true_iff. specialize (Hk f ltac:(by apply list_elem_of_In)).
    destruct f as [[k [s|]] t]; (split; [exact Hk|]; intros y Hy; exact (IH _ Hf y H1 Hy)).
Qed.

(** What [encode] writes of a value of any of the types is UTF-8. *)
Lemma write_utf8 f v : Registry.ok (Codec := Registry.codec_of f) v = true -> utf8_strings v = true ->
  Utf8.is_utf8 (Registry.write (Codec := Registry.codec_of f) v) = true.
Proof.
  intros Hok Hv. destruct f; cbn [Registry.codec_of Registry.write].
  - rewrite Json.to_string_render. apply Json.render_utf8; [|done]. by apply andb_true_iff in Hok as [? _].
  - by apply Utf8Out.xml_utf8.
  - by apply Utf8Out.yaml_utf8.
  - by apply Utf8Out.toml_utf8.
Qed.

(** The types have what [Registry] asks of one. *)
Lemma typed_roundtrip (t : Ty) (f : Registry.Format) (ct : bytes) (x : Carrier t) :
  wf (Registry.loose f) t = true -> Registry.from_content_type ct = Some f ->
  valid x -> Registry.faithful f (encode x) = true ->
  exists b, Registry.encode ct x = Ok b /\ Utf8.is_utf8 b = true /\ Registry.decode ct b = Some (Ok x).
Proof.
  intros Ht Hf Hx Hok. pose proof (ty_streams t) as Hs. pose proof (ty_lossless _ _ Ht) as Hl.
  pose proof (ty_json_complete t (wf_strict _ _ Ht)) as Hj.
  eexists. split; [by apply Registry.encode_writes|].
  assert (Utf8.is_utf8 (Registry.write (Codec := Registry.codec_of f) (encode x)) = true) as Hu.
  { apply write_utf8; [by apply Registry.faithful_ok|by apply (ty_utf8 _ t x Ht)]. }
  split; [done|]. by apply (Registry.decode_encode f ct x _ Hf Hx Hok); [apply Registry.encode_writes|].
Qed.

(** ** Round trips *)


(** C5 Streaming agrees with the tree: whatever value of one of the types ([Ty], any nesting, [Value] included)
    [json::decode] streams out of an input, the tree parser ([json::from_str]) accepts the same input and [decode]
    takes the tree to the same value. *)
Theorem json_decode_agrees (t : Ty) (input : bytes) (x : Carrier t) :
  decode_json input = Some (Ok x) -> exists v, Json.from_str input = Ok v /\ decode v = Ok x.
Proof. pose proof (ty_json_sound t) as Hs. apply Registry.decode_json_tree. Qed.

End Semantics.

Abbreviation Carrier t := (carrier (sem t)).

(** The entries of a map in the order of its tree. *)
#[local] Instance tree_order : HashOrder := {
  hash_iter := fun V m => map_to_list m;
  hash_iter_perm := fun V m => Permutation_refl _;
}.

(** A struct with a vector of structs, an optional field, an enum and a map of boxed integers. *)
Definition service : Ty := TStruct
  [((b!"name", None), TStr); ((b!"port", None), TUnsigned U16);
   ((b!"hosts", None), TVec (TStruct [((b!"host", None), TStr); ((b!"weight", Some false), TFloat F64T)]));
   ((b!"note", Some true), TStr); ((b!"level", None), TEnum [b!"low"; b!"high"]);
   ((b!"limits", None), TMap (TBox (TSigned I32)))].

Definition svc : Carrier service :=
  (b!"svc", (mkUnsigned 8080,
    ([(b!"a.example", (Some (mkFloat (default S754_nan (F64.parse (b!"1.5")))), tt)); (b!"b.example", (None, tt))],
     (None, (mkEnum 1, ({[b!"cpu" := mkBox (mkSigned (-4))]}, tt)))))).


Definition hosts : Ty := TVec (TStruct [((b!"host", None), TStr); ((b!"weight", Some false), TBox (TUnsigned U8))]).

Definition hosts_text : bytes :=
  b!"[ {'weight': 7, 'x': [null], 'host': 'a'}, {'host': 'b', 'weight': null} ]".

Definition hosts_json : bytes := map (fun b => if bool_decide (b = x27) then x22 else b) hosts_text.

Lemma json_decode_agrees_witness :
  exists v, Json.from_str hosts_json = Ok v /\
    decode v = Ok ([(b!"a", (Some (mkBox (mkUnsigned 7)), tt)); (b!"b", (None, tt))] : Carrier hosts).
Proof. apply (json_decode_agrees hosts hosts_json). vm_compute. reflexivity. Defined.

End Types.
