(* ===== verification/Auth.v ===== *)
(** * Authentication: base64 and HS256 JSON web tokens ([auth/mod.rs],
    [clients/auth.rs], [ws/handshake.rs])

    The two base64 encoders and the URL-safe decoder, and minting and verifying
    a token.  The current time is an argument of the verifier. *)

From S2P Require Import Prelude Hash Text Value Json.

Open Scope Z_scope.

(** ** Base64 *)

Module Base64.

Definition B64URL : bytes :=
  b!"ABCDEFGHIJKLMNOPQRSTUVWXYZabcdefghijklmnopqrstuvwxyz0123456789-_".

Definition CHARS : bytes :=
  b!"ABCDEFGHIJKLMNOPQRSTUVWXYZabcdefghijklmnopqrstuvwxyz0123456789+/".

(** The 24-bit word of a chunk of up to three bytes, missing ones zero. *)
Definition word24 (chunk : bytes) : Z :=
  let b0 := b2z (chunk !!! 0%nat) in
  let b1 := b2z (default x00 (chunk !! 1%nat)) in
  let b2 := b2z (default x00 (chunk !! 2%nat)) in
  Z.lor (Z.lor (Z.shiftl b0 16) (Z.shiftl b1 8)) b2.

Definition digit (alphabet : bytes) (n : Z) : byte := alphabet !!! Z.to_nat (Z.land n 63).

(** [b64url_encode] *)
Definition b64url_step (out chunk : bytes) : bytes :=
  let n := word24 chunk in
  let out := out ++ [digit B64URL (Z.shiftr n 18)] in
  let out := out ++ [digit B64URL (Z.shiftr n 12)] in
  let out := if (1 <? length chunk)%nat then out ++ [digit B64URL (Z.shiftr n 6)] else out in
  if (2 <? length chunk)%nat then out ++ [digit B64URL n] else out.

Definition b64url_encode (input : bytes) : bytes := foldl b64url_step [] (chunks 3 input).

(** [ws::handshake::base64_encode], and [base64] of [clients/auth.rs]: the same
    code over the standard alphabet, with padding. *)
Definition base64_step (out chunk : bytes) : bytes :=
  let n := word24 chunk in
  let out := out ++ [digit CHARS (Z.shiftr n 18)] in
  let out := out ++ [digit CHARS (Z.shiftr n 12)] in
  let out := out ++ [if (1 <? length chunk)%nat then digit CHARS (Z.shiftr n 6) else x3d] in
  out ++ [if (2 <? length chunk)%nat then digit CHARS n else x3d].

Definition base64_encode (input : bytes) : bytes := foldl base64_step [] (chunks 3 input).

(** The inner function [val] of [b64url_decode]. *)
Definition val (c : byte) : option Z :=
  let z := b2z c in
  if (65 <=? z) && (z <=? 90) then Some (z - 65)
  else if (97 <=? z) && (z <=? 122) then Some (z - 97 + 26)
  else if (48 <=? z) && (z <=? 57) then Some (z - 48 + 52)
  else if z =? 45 then Some 62
  else if z =? 95 then Some 63
  else None.

Fixpoint word_of (n : Z) (chunk : bytes) : option Z :=
  match chunk with
  | [] => Some n
  | c :: chunk' => v ← val c; word_of (Z.lor (wrap32 (Z.shiftl n 6)) v) chunk'
  end.

Definition decode_chunk (chunk : bytes) : option bytes :=
  n ← word_of 0 chunk;
  let n := wrap32 (Z.shiftl n (6 * (4 - Z.of_nat (length chunk)))) in
  match length chunk with
  | 4%nat => Some [z2b (Z.shiftr n 16); z2b (Z.shiftr n 8); z2b n]
  | 3%nat => Some [z2b (Z.shiftr n 16); z2b (Z.shiftr n 8)]
  | 2%nat => Some [z2b (Z.shiftr n 16)]
  | _ => None
  end.

Fixpoint decode_chunks (out : bytes) (cs : list bytes) : option bytes :=
  match cs with
  | [] => Some out
  | c :: cs' => d ← decode_chunk c; decode_chunks (out ++ d) cs'
  end.

(** [b64url_decode] *)
Definition b64url_decode (input : bytes) : option bytes :=
  let bs := List.filter (fun b => negb (bool_decide (b = x3d))) input in
  decode_chunks [] (chunks 4 bs).

End Base64.

(** ** JSON web tokens *)

Module Jwt.
Import Base64.

Inductive JwtError := Malformed | UnsupportedAlg | InvalidSignature | Expired | NotYetValid.

#[export] Instance JwtError_eq_dec : EqDecision JwtError.
Proof. solve_decision. Defined.

Definition JWT_HEADER : bytes :=
  [x7b; x22] ++ b!"alg" ++ [x22; x3a; x22] ++ b!"HS256" ++ [x22; x2c; x22] ++ b!"typ"
  ++ [x22; x3a; x22] ++ b!"JWT" ++ [x22; x7d].

(** [auth::encode_hs256] *)
Definition encode_hs256 (claims : Value) (secret : bytes) : bytes :=
  let header := b64url_encode JWT_HEADER in
  let payload := b64url_encode (to_string claims) in
  let signing_input := header ++ [x2e] ++ payload in
  let sig := Hmac.hmac_sha256 secret signing_input in
  signing_input ++ [x2e] ++ b64url_encode sig.

(** [numeric_claim] *)
Definition numeric_claim (claims : Value) (key : bytes) : option (Result F64.t unit) :=
  match Value.get claims key with
  | None => None
  | Some (Value.Int i) => Some (Ok (F64.of_Z i))
  | Some (Value.UInt u) => Some (Ok (F64.of_Z u))
  | Some (Value.Float f) => Some (Ok f)
  | Some _ => Some (Err tt)
  end.

(** [constant_time_eq] *)
Definition constant_time_eq (a b : bytes) : bool :=
  if negb (length a =? length b)%nat then false
  else foldl (fun diff xy => Z.lor diff (b2z (bxor (fst xy) (snd xy)))) 0 (zip a b) =? 0.

(** The time checks at the end of [decode_hs256]; [now] is [now_unix() as f64]. *)
Definition check_times (now : F64.t) (claims : Value) : Result Value JwtError :=
  let? _ := match numeric_claim claims (b!"exp") with
            | Some (Ok exp) => if F64.leb exp now then Err Expired else Ok tt
            | Some (Err _) => Err Malformed
            | None => Ok tt
            end in
  let? _ := match numeric_claim claims (b!"nbf") with
            | Some (Ok nbf) => if F64.ltb now nbf then Err NotYetValid else Ok tt
            | Some (Err _) => Err Malformed
            | None => Ok tt
            end in
  Ok claims.

(** [auth::decode_hs256] at time [now_unix]. *)
Definition decode_hs256 (now_unix : Z) (token secret : bytes) : Result Value JwtError :=
  match split_on x2e token with
  | [h; p; s] =>
      let? hb := ok_or (b64url_decode h) Malformed in
      let? header := map_err (fun _ => Malformed) (from_slice hb) in
      if negb (bool_decide ((v ← Value.get header (b!"alg"); Value.as_str v) = Some (b!"HS256")))
      then Err UnsupportedAlg
      else
        let signing_input := h ++ [x2e] ++ p in
        let expected := Hmac.hmac_sha256 secret signing_input in
        let? actual := ok_or (b64url_decode s) Malformed in
        if negb (constant_time_eq expected actual) then Err InvalidSignature
        else
          let? pb := ok_or (b64url_decode p) Malformed in
          let? claims := map_err (fun _ => Malformed) (from_slice pb) in
          check_times (F64.of_Z now_unix) claims
  | _ => Err Malformed
  end.

End Jwt.

Import Base64 Jwt.

(** ** Base64 round trip *)

Lemma lor_shiftl_add x v k : 0 <= k -> 0 <= v < 2 ^ k -> Z.lor (Z.shiftl x k) v = x * 2 ^ k + v.
Proof.
  intros Hk Hv. rewrite <- Z.lxor_lor, <- Z.add_nocarry_lxor; [by rewrite Z.shiftl_mul_pow2|..].
  all: apply Z.bits_inj'; intros i Hi; rewrite Z.land_spec, Z.bits_0, Z.shiftl_spec by done;
    (destruct (Z.lt_ge_cases i k); [by rewrite Z.testbit_neg_r by lia|]);
    rewrite (Z.testbit_eqb v) by done; rewrite Z.div_small; [by rewrite andb_comm|];
    (split; [lia|]); eapply Z.lt_le_trans; [apply Hv|]; apply Z.pow_le_mono_r; lia.
Qed.

Lemma word24_val a b c :
  Z.lor (Z.lor (Z.shiftl (b2z a) 16) (Z.shiftl (b2z b) 8)) (b2z c) =
  b2z a * 65536 + b2z b * 256 + b2z c.
Proof.
  pose proof (b2z_range a). pose proof (b2z_range b). pose proof (b2z_range c).
  rewrite (lor_shiftl_add (b2z a) (Z.shiftl (b2z b) 8) 16);
    [|lia|rewrite Z.shiftl_mul_pow2 by lia; lia].
  rewrite Z.shiftl_mul_pow2 by lia.
  replace (b2z a * 2 ^ 16 + b2z b * 2 ^ 8) with (Z.shiftl (b2z a * 256 + b2z b) 8)
    by (rewrite Z.shiftl_mul_pow2; lia).
  rewrite lor_shiftl_add by lia. lia.
Qed.

(** The decoding table inverts the alphabet. *)
Lemma val_digit n : val (digit B64URL n) = Some (n mod 64).
Proof.
  unfold digit. change 63 with (Z.ones 6). rewrite Z.land_ones by lia. change (2 ^ 6) with 64.
  pose proof (Z.mod_pos_bound n 64 ltac:(lia)) as H. set (i := n mod 64) in *. clearbody i.
  assert (forallb (fun k => bool_decide (val (B64URL !!! k) = Some (Z.of_nat k))) (seq 0 64) = true)
    as Hall by (vm_compute; reflexivity).
  rewrite forallb_forall in Hall. specialize (Hall (Z.to_nat i)).
  rewrite in_seq, bool_decide_eq_true in Hall. rewrite Hall by lia. f_equal. lia.
Qed.

Lemma digit_not_pad n : digit B64URL n <> x3d.
Proof. intros E. pose proof (val_digit n) as H. by rewrite E in H. Qed.

(** One chunk of the encoder. *)
Definition enc_chunk (chunk : bytes) : bytes :=
  let n := word24 chunk in
  [digit B64URL (Z.shiftr n 18); digit B64URL (Z.shiftr n 12)]
  ++ (if (1 <? length chunk)%nat then [digit B64URL (Z.shiftr n 6)] else [])
  ++ (if (2 <? length chunk)%nat then [digit B64URL n] else []).

Lemma b64url_encode_concat input : b64url_encode input = concat (map enc_chunk (chunks 3 input)).
Proof.
  unfold b64url_encode.
  assert (forall cs out, foldl b64url_step out cs = out ++ concat (map enc_chunk cs)) as ->;
    [|done].
  induction cs as [|c cs IH]; intros out; [by rewrite app_nil_r|]. cbn [foldl map concat].
  rewrite IH. unfold b64url_step, enc_chunk. cbv zeta.
  destruct (1 <? length c)%nat, (2 <? length c)%nat; by rewrite <- !app_assoc.
Qed.

Lemma word_of_digit n m cs :
  0 <= n < 2 ^ 26 -> word_of n (digit B64URL m :: cs) = word_of (n * 64 + m mod 64) cs.
Proof.
  intros Hn. cbn [word_of]. rewrite val_digit. cbn [mbind option_bind].
  unfold wrap32. rewrite Z.shiftl_mul_pow2, Z.mod_small by lia.
  rewrite <- Z.shiftl_mul_pow2 by lia. rewrite lor_shiftl_add; [done|lia|].
  apply Z.mod_pos_bound. lia.
Qed.

Lemma word_of_next x cs :
  0 <= x < 2 ^ 32 -> word_of (x / 64) (digit B64URL x :: cs) = word_of x cs.
Proof.
  intros Hx. rewrite word_of_digit.
  - f_equal. pose proof (Z.div_mod x 64). lia.
  - split; [apply Z.div_pos; lia|apply Z.div_lt_upper_bound; lia].
Qed.

(** The sextets of a 24-bit word put it together again. *)
Lemma word_of_sextets n cs :
  0 <= n < 2 ^ 24 ->
  word_of 0 (digit B64URL (Z.shiftr n 18) :: digit B64URL (Z.shiftr n 12) :: cs) =
    word_of (n / 4096) cs /\
  word_of (n / 4096) (digit B64URL (Z.shiftr n 6) :: cs) = word_of (n / 64) cs /\
  word_of (n / 64) (digit B64URL n :: cs) = word_of n cs.
Proof.
  intros Hn. rewrite !Z.shiftr_div_pow2 by lia.
  assert (forall k, 0 < k -> 0 <= n / k < 2 ^ 32) as Hr.
  { intros k Hk. split; [apply Z.div_pos; lia|]. apply Z.div_lt_upper_bound; lia. }
  split_and!.
  - replace 0 with (n / 2 ^ 18 / 64) by (rewrite Z.div_div, Z.div_small by lia; done).
    rewrite word_of_next by (apply Hr; lia).
    replace (n / 2 ^ 18) with (n / 2 ^ 12 / 64) by (rewrite Z.div_div by lia; done).
    apply word_of_next, Hr. lia.
  - replace (n / 4096) with (n / 2 ^ 6 / 64) by (rewrite Z.div_div by lia; done).
    apply word_of_next, Hr. lia.
  - apply word_of_next. lia.
Qed.

Lemma z2b_eq x y : b2z y = x mod 256 -> z2b x = y.
Proof. intros H. apply b2z_inj. rewrite b2z_z2b_mod. lia. Qed.

(** The bytes of a 24-bit word whose low bits are zero. *)
Lemma bytes_of_word a b d :
  let n := b2z a * 65536 + b2z b * 256 + b2z d in
  z2b (Z.shiftr n 16) = a /\ z2b (Z.shiftr n 8) = b /\ z2b n = d.
Proof.
  intros n. pose proof (b2z_range a). pose proof (b2z_range b). pose proof (b2z_range d).
  rewrite !Z.shiftr_div_pow2 by lia. subst n.
  change (2 ^ 16) with 65536. change (2 ^ 8) with 256.
  split_and!; apply z2b_eq; Z.to_euclidean_division_equations; lia.
Qed.

Lemma decode_enc_chunk c :
  (1 <= length c <= 3)%nat -> decode_chunk (enc_chunk c) = Some c.
Proof.
  intros Hc. unfold enc_chunk.
  assert (exists a b d, word24 c = b2z a * 65536 + b2z b * 256 + b2z d /\
    match c with [x] => a = x /\ b = x00 /\ d = x00 | [x; y] => a = x /\ b = y /\ d = x00
            | [x; y; z] => a = x /\ b = y /\ d = z | _ => False end) as (a & b & d & -> & Hcd).
  { destruct c as [|c0 [|c1 [|c2 [|]]]]; simpl in Hc; try lia.
    - exists c0, x00, x00. split; [exact (word24_val c0 x00 x00)|done].
    - exists c0, c1, x00. split; [exact (word24_val c0 c1 x00)|done].
    - exists c0, c1, c2. split; [exact (word24_val c0 c1 c2)|done]. }
  pose proof (b2z_range a). pose proof (b2z_range b). pose proof (b2z_range d).
  pose proof (bytes_of_word a b d) as (B0 & B1 & B2).
  set (n := b2z a * 65536 + b2z b * 256 + b2z d) in *.
  assert (0 <= n < 2 ^ 24) as Hn by (subst n; lia).
  assert (forall k m, 0 <= k -> n = m * 2 ^ k -> wrap32 (Z.shiftl m k) = n) as Hw.
  { intros k m Hk Hm. unfold wrap32. rewrite Z.shiftl_mul_pow2 by done. rewrite Z.mod_small; lia. }
  destruct (word_of_sextets n [digit B64URL (Z.shiftr n 6); digit B64URL n] Hn) as (W2 & _ & _).
  destruct c as [|c0 [|c1 [|c2 [|]]]]; simpl in Hc; try lia; destruct Hcd as (-> & -> & ->);
    cbn [length Nat.ltb Nat.leb app]; unfold decode_chunk; cbn [length].
  - destruct (word_of_sextets n [] Hn) as (-> & _ & _). cbn [word_of mbind option_bind].
    rewrite Hw; [by rewrite B0|lia|]. subst n. change (b2z x00) with 0. simpl Z.of_nat.
    change (2 ^ (6 * (4 - 2))) with 4096. rewrite <- (Z.div_unique_exact _ 4096 (b2z c0 * 16)); lia.
  - destruct (word_of_sextets n [digit B64URL (Z.shiftr n 6)] Hn) as (-> & _ & _).
    destruct (word_of_sextets n [] Hn) as (_ & -> & _). cbn [word_of mbind option_bind].
    rewrite Hw; [by rewrite B0, B1|lia|]. subst n. change (b2z x00) with 0. simpl Z.of_nat.
    change (2 ^ (6 * (4 - 3))) with 64.
    rewrite <- (Z.div_unique_exact _ 64 (b2z c0 * 1024 + b2z c1 * 4)); lia.
  - rewrite W2. destruct (word_of_sextets n [digit B64URL n] Hn) as (_ & -> & _).
    destruct (word_of_sextets n [] Hn) as (_ & _ & ->). cbn [word_of mbind option_bind].
    rewrite Hw; [by rewrite B0, B1, B2|lia|]. simpl Z.of_nat.
    change (2 ^ (6 * (4 - 4))) with 1. lia.
Qed.

Lemma enc_chunk_length c :
  (1 <= length c <= 3)%nat -> length (enc_chunk c) = S (length c).
Proof. intros Hc. by destruct c as [|c0 [|c1 [|c2 [|]]]]; simpl in Hc; try lia. Qed.

Lemma enc_chunk_no_pad c : Forall (fun b => b <> x3d) (enc_chunk c).
Proof.
  unfold enc_chunk. cbv zeta. rewrite !Forall_app.
  split_and!; [|destruct (_ <? _)%nat|destruct (_ <? _)%nat];
    repeat constructor; apply digit_not_pad.
Qed.

Lemma decode_chunks_encoded input : forall out,
  decode_chunks out (chunks 4 (concat (map enc_chunk (chunks 3 input)))) = Some (out ++ input).
Proof.
  induction input as [input IH] using (well_founded_ind (Wf_nat.well_founded_ltof _ length)).
  intros out. destruct input as [|b input]; [by rewrite app_nil_r|].
  rewrite (chunks_cons 3 (b :: input)) by (lia || done). cbn [map concat].
  set (l := b :: input) in *. assert (1 <= length (take 3 l) <= 3)%nat as Hl
    by (rewrite length_take; subst l; cbn [length]; lia).
  pose proof (decode_enc_chunk _ Hl) as Hd. pose proof (enc_chunk_length _ Hl) as HL.
  destruct (decide (length l < 3)%nat) as [Hs|Hs].
  - rewrite drop_ge by lia. rewrite chunks_nil. cbn [map concat]. rewrite app_nil_r.
    rewrite take_ge in * by lia. rewrite chunks_cons by (lia || (destruct (enc_chunk l); done)).
    rewrite take_ge, drop_ge by lia. cbn [decode_chunks]. by rewrite Hd.
  - rewrite chunks_app; [|lia|rewrite HL, length_take; lia]. cbn [decode_chunks].
    rewrite Hd. cbn [mbind option_bind].
    rewrite IH; [|unfold Wf_nat.ltof; rewrite length_drop; subst l; simpl; lia].
    by rewrite <- app_assoc, take_drop.
Qed.

Lemma filter_all {A} (f : A -> bool) l : Forall (fun x => f x = true) l -> List.filter f l = l.
Proof. induction 1 as [|x l Hx _ IH]; simpl; [done|]. by rewrite Hx, IH. Qed.

Lemma encoded_no_pad input : Forall (fun b => b <> x3d) (b64url_encode input).
Proof.
  rewrite b64url_encode_concat. induction (chunks 3 input) as [|c cs IH]; [constructor|].
  cbn [map concat]. apply Forall_app. split; [apply enc_chunk_no_pad|done].
Qed.

Lemma b64url_decode_encode input : b64url_decode (b64url_encode input) = Some input.
Proof.
  unfold b64url_decode. rewrite filter_all.
  - rewrite b64url_encode_concat. apply (decode_chunks_encoded input []).
  - eapply Forall_impl; [apply encoded_no_pad|]. intros b Hb. by rewrite bool_decide_false.
Qed.

(** The standard alphabet with [+] and [/] in place of [-] and [_]. *)
Definition to_url (b : byte) : byte :=
  if bool_decide (b = x2b) then x2d else if bool_decide (b = x2f) then x5f else b.

Lemma to_url_digit n : to_url (digit CHARS n) = digit B64URL n.
Proof.
  unfold digit. change 63 with (Z.ones 6). rewrite Z.land_ones by lia. change (2 ^ 6) with 64.
  pose proof (Z.mod_pos_bound n 64 ltac:(lia)) as H. set (i := n mod 64) in *. clearbody i.
  assert (forallb (fun k => bool_decide (to_url (CHARS !!! k) = B64URL !!! k)) (seq 0 64) = true)
    as Hall by (vm_compute; reflexivity).
  rewrite forallb_forall in Hall. specialize (Hall (Z.to_nat i)).
  rewrite in_seq, bool_decide_eq_true in Hall. apply Hall. lia.
Qed.

Lemma base64_encode_chunks cs out :
  Forall (fun c => 1 <= length c <= 3)%nat cs ->
  let enc := foldl base64_step out cs in
  length enc = (length out + 4 * length cs)%nat /\
  List.filter (fun b => negb (bool_decide (b = x3d))) (map to_url enc) =
  List.filter (fun b => negb (bool_decide (b = x3d))) (map to_url out) ++ concat (map enc_chunk cs).
Proof.
  intros H. revert out. induction H as [|c cs Hc _ IH]; intros out; cbn [foldl].
  - rewrite app_nil_r. simpl. split; [lia|done].
  - destruct (IH (base64_step out c)) as [HL HF]. cbv zeta. rewrite HL, HF. unfold base64_step. split.
    + rewrite !length_app. simpl. lia.
    + cbn [map concat]. rewrite app_assoc. f_equal.
      assert (forall m, negb (bool_decide (digit B64URL m = x3d)) = true) as Hnp
        by (intros m; by rewrite bool_decide_false by apply digit_not_pad).
      rewrite !map_app, !List.filter_app, <- !app_assoc. f_equal.
      unfold enc_chunk. destruct c as [|c0 [|c1 [|c2 [|]]]]; simpl in Hc; try lia;
        cbn [length Nat.ltb Nat.leb map app List.filter]; rewrite ?to_url_digit, ?Hnp; done.
Qed.

Lemma chunks_sizes {A} n (l : list A) : (0 < n)%nat -> Forall (fun c => 1 <= length c <= n)%nat (chunks n l).
Proof.
  intros Hn. induction l as [l IH] using (well_founded_ind (Wf_nat.well_founded_ltof _ length)).
  destruct l as [|x l]; [constructor|]. rewrite chunks_cons by done. constructor.
  - rewrite length_take. cbn [length]. lia.
  - apply IH. unfold Wf_nat.ltof. rewrite length_drop. cbn [length]. lia.
Qed.

Lemma length_chunks3 {A} (l : list A) : length (chunks 3 l) = ((length l + 2) / 3)%nat.
Proof.
  induction l as [l IH] using (well_founded_ind (Wf_nat.well_founded_ltof _ length)).
  destruct l as [|x l]; [done|]. rewrite chunks_cons by (lia || done). cbn [length].
  rewrite IH by (unfold Wf_nat.ltof; rewrite length_drop; cbn [length]; lia).
  rewrite length_drop. cbn [length]. destruct l as [|y [|z l]]; [done|done|].
  cbn [length]. replace (S (S (S (length l))) - 3 + 2)%nat with (length l + 2)%nat by lia.
  replace (S (S (S (length l))) + 2)%nat with (length l + 2 + 1 * 3)%nat by lia.
  rewrite Nat.div_add by lia. lia.
Qed.

(** Base64: decoding the URL-safe encoding gives the input back for every input, the
    standard encoder (HTTP Basic credentials, the WebSocket accept key) writes the
    same digits over its own alphabet, and its output is padded to a multiple of
    four characters. *)
Theorem base64_roundtrip (input : bytes) :
  b64url_decode (b64url_encode input) = Some input /\
  b64url_decode (map to_url (base64_encode input)) = Some input /\
  length (base64_encode input) = (4 * ((length input + 2) / 3))%nat.
Proof.
  pose proof (base64_encode_chunks (chunks 3 input) [] (chunks_sizes 3 input ltac:(lia))) as [HL HF].
  split_and!; [apply b64url_decode_encode| |].
  - unfold b64url_decode, base64_encode. rewrite HF. apply (decode_chunks_encoded input []).
  - unfold base64_encode. rewrite HL, length_chunks3. done.
Qed.

(** ** Tokens *)

#[local] Opaque Hmac.hmac_sha256 from_slice b64url_decode b64url_encode.

Lemma encoded_no_dot input : x2e ∉ b64url_encode input.
Proof.
  rewrite b64url_encode_concat. induction (chunks 3 input) as [|c cs IH]; [set_solver|].
  cbn [map concat]. rewrite elem_of_app. intros [H|H]; [|done].
  assert (forall m, x2e <> digit B64URL m) as Hm.
  { intros m E. pose proof (val_digit m) as V. by rewrite <- E in V. }
  unfold enc_chunk in H. cbv zeta in H. rewrite !elem_of_app in H.
  repeat (destruct (_ <? _)%nat in H); set_solver.
Qed.

Lemma constant_time_eq_spec a b : constant_time_eq a b = true <-> a = b.
Proof.
  unfold constant_time_eq. destruct (Nat.eqb_spec (length a) (length b)) as [Hl|Hl]; cbn [negb];
    [|split; [done|intros ->; done]].
  rewrite Z.eqb_eq. assert (forall l (d : Z), 0 <= d ->
    foldl (fun diff xy => Z.lor diff (b2z (bxor (fst xy) (snd xy)))) d l = 0 <->
    d = 0 /\ Forall (fun xy : byte * byte => fst xy = snd xy) l) as Hfold.
  { induction l as [|[x y] l IH]; intros d Hd; cbn [foldl fst snd]; [naive_solver|].
    pose proof (b2z_range (bxor x y)). rewrite IH by (apply Z.lor_nonneg; lia).
    rewrite Z.lor_eq_0_iff, Forall_cons. cbn [fst snd].
    rewrite <- (bxor_zero_iff x y). assert (b2z (bxor x y) = 0 <-> bxor x y = x00) as ->.
    { change 0 with (b2z x00). split; [apply b2z_inj|congruence]. }
    naive_solver. }
  rewrite Hfold by lia. split.
  - intros [_ H]. revert b Hl H. induction a as [|x a IH]; intros [|y b] Hl H; try done.
    inv H. simpl in *. f_equal; [done|apply IH; [lia|done]].
  - intros ->. split; [done|]. clear Hl Hfold. induction b as [|x b IH]; simpl; by constructor.
Qed.

Lemma header_accepted :
  b64url_decode (b64url_encode JWT_HEADER) = Some JWT_HEADER /\
  exists header, from_slice JWT_HEADER = Ok header /\
    (v ← Value.get header (b!"alg"); Value.as_str v) = Some (b!"HS256").
Proof.
  split; [apply b64url_decode_encode|]. eexists. split; vm_compute; reflexivity.
Qed.

Lemma check_times_ok now claims c :
  check_times now claims = Ok c ->
  c = claims /\
  (forall v, Value.get claims (b!"exp") = Some v -> exists e, Value.as_f64 v = Some e /\ F64.leb e now = false) /\
  (forall v, Value.get claims (b!"nbf") = Some v -> exists e, Value.as_f64 v = Some e /\ F64.ltb now e = false).
Proof.
  unfold check_times, numeric_claim. intros H.
  destruct (Value.get claims (b!"exp")) as [[| |i|i|x| | | |]|];
    try done; try (destruct (F64.leb _ now) eqn:E1; [done|]); cbn [rbind] in H;
    destruct (Value.get claims (b!"nbf")) as [[| |j|j|y| | | |]|];
    try done; try (destruct (F64.ltb now _) eqn:E2; [done|]); cbn [rbind] in H;
    simplify_eq; (split_and!; [done|..]); intros v [= <-]; simpl; eauto.
Qed.

(** Minting then verifying: a token minted for a claims value that JSON can carry
    passes every structural and signature check, so verification under the same
    secret returns the claims subject only to their own [exp]/[nbf] times. *)
Theorem jwt_roundtrip (claims : Value) (secret : bytes) (now_unix : Z) :
  encodable claims = true -> utf8_strings claims = true ->
  (Value.depth claims <= MAX_DEPTH)%nat ->
  decode_hs256 now_unix (encode_hs256 claims secret) secret =
  check_times (F64.of_Z now_unix) (norm claims).
Proof.
  intros He Hu Hd. unfold decode_hs256, encode_hs256.
  set (sig := Hmac.hmac_sha256 _ _). rewrite <- !app_assoc. cbn [app].
  rewrite split_on_app by apply encoded_no_dot. rewrite split_on_app by apply encoded_no_dot.
  rewrite split_on_none by apply encoded_no_dot.
  destruct header_accepted as [-> (header & Hh & Ha)]. cbn [ok_or rbind]. rewrite Hh.
  cbn [map_err rbind]. rewrite bool_decide_true by done. cbn [negb].
  rewrite b64url_decode_encode. cbn [ok_or rbind].
  rewrite (proj2 (constant_time_eq_spec _ _)) by reflexivity. cbn [negb].
  rewrite b64url_decode_encode. cbn [ok_or rbind]. by rewrite from_slice_to_string.
Qed.

Lemma jwt_roundtrip_witness :
  decode_hs256 1000 (encode_hs256 (Value.Object [(b!"exp", Value.Int 2000)]) (b!"k")) (b!"k") =
  check_times (F64.of_Z 1000) (norm (Value.Object [(b!"exp", Value.Int 2000)])) /\
  check_times (F64.of_Z 1000) (norm (Value.Object [(b!"exp", Value.Int 2000)])) =
  Ok (Value.Object [(b!"exp", Value.Int 2000)]).
Proof.
  split; [|vm_compute; reflexivity].
  apply (jwt_roundtrip (Value.Object [(b!"exp", Value.Int 2000)]) (b!"k") 1000);
    [reflexivity|reflexivity|vm_compute; lia].
Defined.

(** C3 What acceptance means: a token verifies only if it has exactly three parts, its
    header names HS256, its third part is the base64 of the HMAC-SHA256 tag of the
    first two under the secret, its claims are the JSON of the second part, and
    [exp]/[nbf], when present, are numbers with [now < exp] and [nbf <= now].  No
    token without the right tag is accepted, whatever its claims. *)
Theorem jwt_accept_sound (now_unix : Z) (token secret : bytes) (claims : Value) :
  decode_hs256 now_unix token secret = Ok claims ->
  exists h p s,
    token = h ++ [x2e] ++ p ++ [x2e] ++ s /\ x2e ∉ s /\
    (exists hb header, b64url_decode h = Some hb /\ from_slice hb = Ok header /\
       Value.get header (b!"alg") = Some (Value.Str (b!"HS256"))) /\
    b64url_decode s = Some (Hmac.hmac_sha256 secret (h ++ [x2e] ++ p)) /\
    (exists pb, b64url_decode p = Some pb /\ from_slice pb = Ok claims) /\
    (forall v, Value.get claims (b!"exp") = Some v ->
       exists e, Value.as_f64 v = Some e /\ F64.leb e (F64.of_Z now_unix) = false) /\
    (forall v, Value.get claims (b!"nbf") = Some v ->
       exists e, Value.as_f64 v = Some e /\ F64.ltb (F64.of_Z now_unix) e = false).
Proof.
  unfold decode_hs256. intros H. pose proof (join_split_on x2e token) as Hj.
  pose proof (split_on_avoids x2e token) as Hav.
  destruct (split_on x2e token) as [|h [|p [|s [|]]]]; try done. cbn [join] in Hj.
  exists h, p, s. split; [done|]. split; [by rewrite !Forall_cons in Hav; naive_solver|].
  destruct (b64url_decode h) as [hb|]; [|done]. cbn [ok_or rbind] in H.
  destruct (from_slice hb) as [header|] eqn:Eh; [|done]. cbn [map_err rbind] in H.
  case_bool_decide as Halg; [|done]. cbn [negb] in H.
  destruct (b64url_decode s) as [actual|]; [|done]. cbn [ok_or rbind] in H.
  destruct (constant_time_eq _ _) eqn:Ect; [|done]. cbn [negb] in H.
  apply constant_time_eq_spec in Ect as <-.
  destruct (b64url_decode p) as [pb|]; [|done]. cbn [ok_or rbind] in H.
  destruct (from_slice pb) as [c|] eqn:Ec; [|done]. cbn [map_err rbind] in H.
  apply check_times_ok in H as (-> & He & Hn).
  split_and!; [|done|by exists pb|done|done].
  exists hb, header. split_and!; [done|done|].
  destruct (Value.get header (b!"alg")) as [[]|]; simplify_eq/=. done.
Qed.

Lemma jwt_accept_sound_witness :
  exists h p s,
    encode_hs256 (Value.Object [(b!"sub", Value.Str (b!"u1"))]) (b!"k") = h ++ [x2e] ++ p ++ [x2e] ++ s /\
    b64url_decode s = Some (Hmac.hmac_sha256 (b!"k") (h ++ [x2e] ++ p)).
Proof.
  destruct (jwt_accept_sound 5 (encode_hs256 (Value.Object [(b!"sub", Value.Str (b!"u1"))]) (b!"k"))
    (b!"k") (Value.Object [(b!"sub", Value.Str (b!"u1"))])) as (h & p & s & E & _ & _ & S & _).
  - vm_compute. reflexivity.
  - exists h, p, s. split; [exact E|exact S].
Defined.
