(* ===== verification/Clients.v ===== *)
(** * Client resilience: circuit breaker and retry ([clients/breaker.rs],
    [clients/retry.rs])

    The breaker keeps its state behind a mutex, so every operation is one atomic
    step; concurrent callers are an arbitrary sequence of [can_execute] and
    [on_execution] events.  Instants and durations are nanoseconds in [Z]; the
    clock reading of an operation is an argument of the step. *)

From S2P Require Import Prelude.

Open Scope Z_scope.

(** ** Circuit breaker *)

Module Breaker.

Inductive CircuitState := Closed | Open | HalfOpen.

#[export] Instance CircuitState_eq_dec : EqDecision CircuitState.
Proof. solve_decision. Defined.

Record CircuitBreakerConfig := mkConfig {
  failure_threshold : Z;   (** [u32] *)
  success_threshold : Z;
  max_half_open : Z;
  timeout : Z;
}.

Definition default_config : CircuitBreakerConfig := mkConfig 5 2 1 30000000000.

Record State := mkState {
  circuit : CircuitState;
  failures : Z;
  successes : Z;
  half_open_in_flight : Z;
  opened_at : option Z;
}.

Definition new : State := mkState Closed 0 0 0 None.

(** [CircuitBreaker::trip] at instant [now]. *)
Definition trip (now : Z) (s : State) : State := mkState Open 0 0 0 (Some now).

(** [t.elapsed()] saturates at zero. *)
Definition elapsed (now t : Z) : Z := Z.max 0 (now - t).

(** [CircuitBreaker::can_execute]: whether the call is admitted, and the new state. *)
Definition can_execute (cfg : CircuitBreakerConfig) (now : Z) (s : State) : bool * State :=
  match circuit s with
  | Closed => (true, s)
  | Open =>
      let el := default 0 (elapsed now <$> opened_at s) in
      if timeout cfg <=? el then
        (true, mkState HalfOpen (failures s) 0 1 (opened_at s))
      else (false, s)
  | HalfOpen =>
      if half_open_in_flight s <? max_half_open cfg then
        (true, mkState HalfOpen (failures s) (successes s) (half_open_in_flight s + 1) (opened_at s))
      else (false, s)
  end.

(** [CircuitBreaker::on_execution] *)
Definition on_execution (cfg : CircuitBreakerConfig) (now : Z) (success : bool) (s : State) : State :=
  match circuit s with
  | Closed =>
      if success then mkState Closed 0 (successes s) (half_open_in_flight s) (opened_at s)
      else
        let f := failures s + 1 in
        let s := mkState Closed f (successes s) (half_open_in_flight s) (opened_at s) in
        if failure_threshold cfg <=? f then trip now s else s
  | HalfOpen =>
      let inflight := Z.max 0 (half_open_in_flight s - 1) in
      let s := mkState HalfOpen (failures s) (successes s) inflight (opened_at s) in
      if success then
        let k := successes s + 1 in
        if success_threshold cfg <=? k then mkState Closed 0 0 inflight None
        else mkState HalfOpen (failures s) k inflight (opened_at s)
      else trip now s
  | Open =>
      if success then s
      else mkState Open (failures s) (successes s) (half_open_in_flight s) (Some now)
  end.

(** One operation of some caller, with the instant it happens at. *)
Inductive Event :=
| CanExecute (now : Z)
| OnExecution (now : Z) (success : bool).

(** The state after an event, with the answer of [can_execute]. *)
Definition step (cfg : CircuitBreakerConfig) (s : State) (e : Event) : State * option bool :=
  match e with
  | CanExecute now => let '(ok, s') := can_execute cfg now s in (s', Some ok)
  | OnExecution now success => (on_execution cfg now success s, None)
  end.

Fixpoint run (cfg : CircuitBreakerConfig) (s : State) (es : list Event) : State * list (option bool) :=
  match es with
  | [] => (s, [])
  | e :: es' =>
      let '(s1, a) := step cfg s e in
      let '(s2, l) := run cfg s1 es' in
      (s2, a :: l)
  end.

(** States reachable from a new breaker. *)
Inductive reachable (cfg : CircuitBreakerConfig) : State -> Prop :=
| reach_new : reachable cfg new
| reach_step s e : reachable cfg s -> reachable cfg (fst (step cfg s e)).

(** The counters stay below their thresholds in the state that uses them, and
    an instant is recorded exactly when the breaker is not closed. *)
Definition inv (cfg : CircuitBreakerConfig) (s : State) : Prop :=
  0 <= half_open_in_flight s <= Z.max 1 (max_half_open cfg) /\
  match circuit s with
  | Closed => 0 <= failures s < Z.max 1 (failure_threshold cfg) /\ successes s = 0 /\ opened_at s = None
  | Open => failures s = 0 /\ successes s = 0 /\ half_open_in_flight s = 0 /\ opened_at s <> None
  | HalfOpen => failures s = 0 /\ 0 <= successes s < Z.max 1 (success_threshold cfg) /\ opened_at s <> None
  end.

End Breaker.

(** ** Retry *)

Module Retry.

Definition duration_max : Z := 18446744073709551615 * 1000000000 + 999999999.

Record RetryPolicy := mkPolicy {
  max_retries : Z;     (** [u32] *)
  wait : Z;
  exponential : bool;
  max_backoff : option Z;
}.

Definition default_policy : RetryPolicy := mkPolicy 3 200000000 true (Some 10000000000).

Definition fixed (max_retries wait : Z) : RetryPolicy := mkPolicy max_retries wait false None.

(** [2u32.saturating_pow(attempt)] *)
Definition saturating_pow2 (attempt : Z) : Z := if 32 <=? attempt then u32_max else 2 ^ attempt.

(** [RetryPolicy::backoff_for] *)
Definition backoff_for (p : RetryPolicy) (attempt : Z) : Z :=
  if negb (exponential p) then wait p
  else
    let factor := saturating_pow2 attempt in
    let scaled := Z.min duration_max (wait p * factor) in
    match max_backoff p with
    | Some cap => if cap <? scaled then cap else scaled
    | None => scaled
    end.

Section Retry.
Context {T E : Type}.

(** [retry]: [op n] is the outcome of the [n]-th call of the operation.  The
    result comes with the number of calls made and the delays slept. *)
Fixpoint retry_loop (fuel : nat) (p : RetryPolicy) (retry_if : E -> bool) (op : nat -> Result T E)
  (attempt : nat) (sleeps : list Z) : option (Result T E * nat * list Z) :=
  match fuel with
  | O => None
  | S fuel' =>
      match op attempt with
      | Ok v => Some (Ok v, S attempt, sleeps)
      | Err e =>
          if (max_retries p <=? Z.of_nat attempt) || negb (retry_if e) then
            Some (Err e, S attempt, sleeps)
          else retry_loop fuel' p retry_if op (S attempt)
                 (sleeps ++ [backoff_for p (Z.of_nat attempt)])
      end
  end.

Definition retry (p : RetryPolicy) (retry_if : E -> bool) (op : nat -> Result T E)
  : option (Result T E * nat * list Z) :=
  retry_loop (S (Z.to_nat (max_retries p))) p retry_if op 0 [].

(** An outcome after which no further call is made. *)
Definition final (retry_if : E -> bool) (r : Result T E) : bool :=
  match r with
  | Ok _ => true
  | Err e => negb (retry_if e)
  end.

End Retry.
End Retry.

(** ** Breaker: invariant *)

Import Breaker.

Lemma inv_new cfg : inv cfg new.
Proof. unfold inv. cbn [new circuit failures successes half_open_in_flight opened_at]. split_and!; (done || lia). Qed.

Lemma inv_can_execute cfg now s : inv cfg s -> inv cfg (snd (can_execute cfg now s)).
Proof.
  unfold inv, can_execute. intros [Hf H].
  destruct (circuit s) eqn:E; simpl; [by rewrite E| |].
  - destruct (_ <=? _); simpl; [|by rewrite E]. split_and!; naive_solver lia.
  - destruct (_ <? _) eqn:El; simpl; [|by rewrite E]. zbool. split_and!; naive_solver lia.
Qed.

Lemma inv_on_execution cfg now ok s : inv cfg s -> inv cfg (on_execution cfg now ok s).
Proof.
  unfold inv, on_execution, trip. intros [Hf H].
  destruct (circuit s) eqn:E, ok; simpl; try (rewrite E; naive_solver);
    try destruct (_ <=? _) eqn:El; simpl; zbool; split_and!; naive_solver lia.
Qed.

Lemma reachable_inv cfg s : reachable cfg s -> inv cfg s.
Proof.
  induction 1 as [|s [now|now ok] _ IH]; [apply inv_new| |].
  - simpl. pose proof (inv_can_execute cfg now s IH) as H. by destruct (can_execute _ _ _).
  - by apply inv_on_execution.
Qed.

(** Breaker invariant over every interleaving of callers: the in-flight probe count
    never exceeds [max_half_open] (or the single probe that opens the half-open
    state), the failure and success counters stay below their thresholds, hence no
    [u32] counter overflows, and the opening instant is kept exactly while the
    breaker is not closed. *)
Theorem breaker_invariant (cfg : CircuitBreakerConfig) (s : State) :
  0 <= failure_threshold cfg <= u32_max -> 0 <= success_threshold cfg <= u32_max ->
  0 <= max_half_open cfg <= u32_max -> reachable cfg s ->
  inv cfg s /\ failures s + 1 <= u32_max /\ successes s + 1 <= u32_max /\
  (half_open_in_flight s < max_half_open cfg -> half_open_in_flight s + 1 <= u32_max) /\
  (circuit s = Closed <-> opened_at s = None).
Proof.
  intros H1 H2 H3 Hr. pose proof (reachable_inv cfg s Hr) as Hi. split; [done|].
  destruct Hi as [Hf Hi]. unfold u32_max in *. destruct (circuit s); split_and!; naive_solver lia.
Qed.

Lemma breaker_invariant_witness :
  inv default_config (fst (run default_config new [CanExecute 0; OnExecution 1 false])).
Proof.
  apply (breaker_invariant default_config (fst (run default_config new [CanExecute 0; OnExecution 1 false])));
    try (unfold u32_max; simpl; lia).
  change (reachable default_config
    (fst (step default_config (fst (step default_config new (CanExecute 0))) (OnExecution 1 false)))).
  apply reach_step, reach_step, reach_new.
Defined.

Lemma run_app cfg s e1 e2 :
  run cfg s (e1 ++ e2) =
  let '(s1, l1) := run cfg s e1 in let '(s2, l2) := run cfg s1 e2 in (s2, l1 ++ l2).
Proof.
  revert s. induction e1 as [|e e1 IH]; intros s; cbn [app run]; [by destruct (run cfg s e2)|].
  destruct (step cfg s e) as [s1 a]. rewrite IH. destruct (run cfg s1 e1) as [s2 l2].
  by destruct (run cfg s2 e2) as [s3 l3].
Qed.

(** ** Breaker: admission while open *)

Definition at_ (e : Event) : Z := match e with CanExecute t => t | OnExecution t _ => t end.

(** C6 Fail-fast: once open at instant [t0], the breaker stays open and rejects every
    [can_execute] that happens before [t0 + timeout], whatever reports arrive in
    between; failing reports only push the instant later. *)
Theorem open_rejects_until_timeout (cfg : CircuitBreakerConfig) (s : State) (t0 : Z) (es : list Event) :
  circuit s = Open -> opened_at s = Some t0 -> 0 < timeout cfg ->
  Forall (fun e => t0 <= at_ e < t0 + timeout cfg) es ->
  circuit (fst (run cfg s es)) = Open /\
  Forall (fun a => a <> Some true) (snd (run cfg s es)).
Proof.
  intros Ho Ht Hto Hes.
  assert (exists t1, opened_at s = Some t1 /\ t0 <= t1) as (t1 & Ht1 & Hle) by eauto with lia.
  clear Ht. revert s t1 Ho Ht1 Hle. induction Hes as [|e es He _ IH]; intros s t1 Ho Ht1 Hle.
  { simpl. auto. }
  cbn [run]. destruct e as [now|now ok]; simpl in He; cbn [step].
  - unfold can_execute. rewrite Ho, Ht1. cbn [fmap option_fmap option_map default].
    unfold elapsed, id. destruct (Z.leb_spec (timeout cfg) (Z.max 0 (now - t1))); [lia|].
    destruct (IH s t1) as [H1 H2]; [done|done|done|].
    destruct (run cfg s es) as [s2 l]. simpl in *. split; [done|]. by constructor.
  - unfold on_execution. rewrite Ho. destruct ok.
    + destruct (IH s t1) as [H1 H2]; [done|done|done|].
      destruct (run cfg s es) as [s2 l]. simpl in *. split; [done|]. by constructor.
    + edestruct (IH (mkState Open (failures s) (successes s) (half_open_in_flight s) (Some now)) now)
        as [H1 H2]; [done|done|lia|].
      destruct (run cfg _ es) as [s2 l]. simpl in *. split; [done|]. by constructor.
Qed.

Lemma open_rejects_until_timeout_witness :
  Forall (fun a => a <> Some true)
    (snd (run default_config (trip 5 new) [CanExecute 6; OnExecution 7 false; CanExecute 8])).
Proof.
  apply (open_rejects_until_timeout default_config (trip 5 new) 5
    [CanExecute 6; OnExecution 7 false; CanExecute 8]); [done|done|done|].
  repeat constructor; simpl; lia.
Defined.

(** ** Breaker: tripping *)

Definition report (cfg : CircuitBreakerConfig) (s : State) (r : Z * bool) : State :=
  on_execution cfg (fst r) (snd r) s.

(** A run of [n] consecutive failures somewhere in a list of outcomes. *)
Definition failure_run (n : nat) (l : list bool) : Prop :=
  exists a b, l = a ++ replicate n false ++ b.

(** The number of failures at the end of a list. *)
Fixpoint trailing (l : list bool) : nat :=
  match l with
  | [] => 0
  | x :: l' => if forallb negb l' then (if x then length l' else S (length l')) else trailing l'
  end.

Lemma trailing_snoc l x : trailing (l ++ [x]) = if x then 0%nat else S (trailing l).
Proof.
  induction l as [|y l IH]; simpl; [by destruct x|].
  rewrite forallb_app, IH. simpl. destruct x; simpl; [by rewrite andb_false_r|].
  rewrite andb_true_r, length_app. simpl. destruct (forallb negb l), y; simpl; lia.
Qed.

Lemma trailing_spec n l : (n <= trailing l)%nat <-> exists a, l = a ++ replicate n false.
Proof.
  revert n. induction l as [|x l IH] using rev_ind; intros n.
  - simpl. split; [|intros [a H]; destruct a, n; simpl in *; (done || lia)].
    intros Hn. exists []. by replace n with 0%nat by lia.
  - rewrite trailing_snoc. destruct n as [|n].
    { split; [|lia]. intros _. exists (l ++ [x]). by rewrite app_nil_r. }
    rewrite replicate_S_end. destruct x.
    + split; [lia|]. intros [a H]. rewrite app_assoc in H. apply app_inj_2 in H as [_ H]; done.
    + rewrite <- Nat.succ_le_mono, IH. split; intros [a H].
      * exists a. by rewrite H, <- app_assoc.
      * exists a. rewrite app_assoc in H. by apply app_inj_2 in H as [-> _].
Qed.

Lemma failure_run_snoc n l x :
  (0 < n)%nat -> failure_run n (l ++ [x]) <-> failure_run n l \/ (n <= trailing (l ++ [x]))%nat.
Proof.
  intros Hn. rewrite trailing_spec. split.
  - intros (a & b & H). destruct b as [|y b _] using rev_ind.
    + right. exists a. by rewrite H, app_nil_r.
    + left. exists a, b. rewrite !app_assoc in H. apply app_inj_2 in H as [-> _]; [|done].
      by rewrite app_assoc.
  - intros [(a & b & ->)|[a Ha]].
    + exists a, (b ++ [x]). by rewrite <- !app_assoc.
    + exists a, []. by rewrite app_nil_r.
Qed.

Lemma closed_tracks_failures cfg rs :
  1 <= failure_threshold cfg ->
  let s := foldl (report cfg) new rs in
  let l := map snd rs in
  (circuit s = Closed /\ failures s = Z.of_nat (trailing l) /\ failures s < failure_threshold cfg /\
     ~ failure_run (Z.to_nat (failure_threshold cfg)) l) \/
  (circuit s = Open /\ failure_run (Z.to_nat (failure_threshold cfg)) l).
Proof.
  intros Ht. cbv zeta. induction rs as [|[t ok] rs IH] using rev_ind.
  { left. split_and!; [done|done|cbn; lia|]. intros (a & b & H). destruct a; simpl in H; [|done].
    destruct (Z.to_nat (failure_threshold cfg)) eqn:E; [lia|done]. }
  rewrite foldl_app, map_app. cbn [foldl map fst snd]. unfold report at 1 3 5 7. cbn [fst snd].
  destruct IH as [(Hc & Hf & Hlt & Hno)|(Ho & Hrun)]; unfold on_execution.
  - rewrite Hc. rewrite failure_run_snoc, trailing_snoc by lia. destruct ok; cbn [circuit failures].
    + left. split_and!; [done|done|lia|]. intros [?|?]; [done|lia].
    + destruct (Z.leb_spec (failure_threshold cfg) (failures (foldl (report cfg) new rs) + 1)).
      * right. split; [done|]. right. lia.
      * left. cbn [circuit failures]. split_and!; [done|lia|lia|]. intros [?|?]; [done|lia].
  - rewrite Ho. right. rewrite failure_run_snoc by lia. split; [|by left]. by destruct ok.
Qed.

(** C18 Tripping: a new breaker with threshold [n >= 1] is open after a sequence of
    reports exactly when the sequence contains [n] consecutive failures; a success
    in between starts the count again. *)
Theorem breaker_trips_iff (cfg : CircuitBreakerConfig) (rs : list (Z * bool)) :
  1 <= failure_threshold cfg ->
  (circuit (foldl (report cfg) new rs) = Open <->
   failure_run (Z.to_nat (failure_threshold cfg)) (map snd rs)).
Proof.
  intros Ht. destruct (closed_tracks_failures cfg rs Ht) as [(Hc & _ & _ & Hno)|(Ho & Hrun)].
  - rewrite Hc. naive_solver.
  - naive_solver.
Qed.

Lemma breaker_trips_iff_witness :
  circuit (foldl (report (mkConfig 2 1 1 10)) new [(1, false); (2, true); (3, false); (4, false)]) = Open.
Proof.
  apply (breaker_trips_iff (mkConfig 2 1 1 10) [(1, false); (2, true); (3, false); (4, false)]);
    [simpl; lia|]. exists [false; true], []. reflexivity.
Defined.

(** ** Breaker: recovery *)

Definition probe (t : Z) : list Event := [CanExecute t; OnExecution t true].

(** [k] successful probes in a row, from a half-open breaker with no call in flight. *)
Lemma probes_close cfg ts : forall s,
  circuit s = HalfOpen -> half_open_in_flight s = 0 -> 1 <= max_half_open cfg -> ts <> [] ->
  successes s + Z.of_nat (length ts) = success_threshold cfg ->
  let r := run cfg s (flat_map probe ts) in
  circuit (fst r) = Closed /\ snd r = flat_map (fun _ => [Some true; None]) ts.
Proof.
  induction ts as [|t ts IH]; intros s Hc Hi Hm Hne Hs; [done|]. cbv zeta.
  cbn [flat_map probe app run step]. unfold can_execute. rewrite Hc, Hi.
  rewrite (proj2 (Z.ltb_lt 0 (max_half_open cfg))) by lia.
  unfold on_execution. cbn [circuit successes half_open_in_flight failures opened_at].
  destruct ts as [|t' ts].
  - simpl in Hs. rewrite (proj2 (Z.leb_le _ _)) by lia. done.
  - cbn [length] in Hs. rewrite (proj2 (Z.leb_gt _ _)) by lia.
    edestruct (IH (mkState HalfOpen (failures s) (successes s + 1) (Z.max 0 (0 + 1 - 1)) (opened_at s)))
      as [H1 H2]; [done|done|done|done|cbn [successes length]; lia|].
    destruct (run cfg _ (flat_map probe (t' :: ts))) as [s2 l]. simpl in *. by subst.
Qed.

(** Recovery: after the cooldown of an open breaker has passed, [success_threshold]
    probes that each succeed before the next one starts are all admitted and leave
    the breaker closed. *)
Theorem breaker_recovers (cfg : CircuitBreakerConfig) (t0 : Z) (ts : list Z) :
  0 <= timeout cfg -> 1 <= max_half_open cfg -> 1 <= success_threshold cfg ->
  Z.of_nat (length ts) = success_threshold cfg ->
  Forall (fun t => t0 + timeout cfg <= t) ts ->
  let r := run cfg (trip t0 new) (flat_map probe ts) in
  circuit (fst r) = Closed /\ snd r = flat_map (fun _ => [Some true; None]) ts.
Proof.
  intros H0 Hm Hs Hl Hts. cbv zeta. destruct ts as [|t ts]; [simpl in Hl; lia|]. inv Hts.
  cbn [flat_map probe app run step]. unfold can_execute.
  cbn [trip circuit opened_at fmap option_fmap option_map default]. unfold elapsed, id.
  rewrite (proj2 (Z.leb_le _ _)) by lia. unfold on_execution.
  cbn [trip circuit successes half_open_in_flight failures opened_at].
  destruct ts as [|t' ts].
  - simpl in Hl. rewrite (proj2 (Z.leb_le _ _)) by lia. done.
  - cbn [length] in Hl. rewrite (proj2 (Z.leb_gt _ _)) by lia.
    edestruct (probes_close cfg (t' :: ts) (mkState HalfOpen 0 (0 + 1) (Z.max 0 (1 - 1)) (Some t0)))
      as [E1 E2]; [done|done|done|done|cbn [successes length]; lia|].
    destruct (run cfg _ (flat_map probe (t' :: ts))) as [s2 l]. simpl in *. by subst.
Qed.

Lemma breaker_recovers_witness :
  circuit (fst (run default_config (trip 0 new) (flat_map probe [30000000000; 30000000001]))) = Closed.
Proof.
  apply (breaker_recovers default_config 0 [30000000000; 30000000001]);
    [simpl; lia|simpl; lia|simpl; lia|reflexivity|repeat constructor; simpl; lia].
Defined.

(** A report of a call admitted while the breaker was still closed is counted as
    the outcome of a half-open probe: it releases a probe slot, so two trial calls
    run at the same time although [max_half_open] is one. *)
Example stray_report_releases_probe_slot :
  let cfg := mkConfig 1 2 1 10 in
  let events := [CanExecute 0; CanExecute 0; OnExecution 1 false; CanExecute 11;
                 OnExecution 12 true; CanExecute 13] in
  snd (run cfg new events) = [Some true; Some true; None; Some true; None; Some true] /\
  circuit (fst (run cfg new events)) = HalfOpen.
Proof. split; reflexivity. Qed.

(** ** Retry *)

Section RetryProofs.
Import Retry.
Context {T E : Type} (p : RetryPolicy) (retry_if : E -> bool) (op : nat -> Result T E).

(** The first call whose outcome is final, or the last one the policy allows. *)
Definition stops_at (k : nat) : Prop :=
  (forall i, (i < k)%nat -> final retry_if (op i) = false) /\
  (Z.of_nat k <= max_retries p) /\
  (final retry_if (op k) = true \/ max_retries p = Z.of_nat k).

Lemma retry_loop_spec fuel attempt sleeps :
  0 <= max_retries p -> Z.of_nat attempt <= max_retries p ->
  (Z.to_nat (max_retries p) - attempt < fuel)%nat ->
  (forall i, (i < attempt)%nat -> final retry_if (op i) = false) ->
  exists k, (attempt <= k)%nat /\ stops_at k /\
    retry_loop fuel p retry_if op attempt sleeps =
    Some (op k, S k, sleeps ++ map (fun i => backoff_for p (Z.of_nat i)) (seq attempt (k - attempt))).
Proof.
  intros Hm. revert attempt sleeps. induction fuel as [|fuel IH]; intros a sl Ha Hf Hpre; [lia|].
  cbn [retry_loop]. destruct (op a) as [v|e] eqn:Eo.
  - exists a. split_and!; [lia| |rewrite Eo, Nat.sub_diag; simpl; by rewrite app_nil_r].
    split_and!; [done|done|left; by rewrite Eo].
  - destruct (Z.leb_spec (max_retries p) (Z.of_nat a)) as [Hle|Hgt]; cbn [orb].
    { exists a. split_and!; [lia| |rewrite Eo, Nat.sub_diag; simpl; by rewrite app_nil_r].
      split_and!; [done|done|right; lia]. }
    destruct (retry_if e) eqn:Er; cbn [negb].
    + destruct (IH (S a) (sl ++ [backoff_for p (Z.of_nat a)])) as (k & Hk & Hs & ->); [lia|lia| |].
      { intros i Hi. destruct (decide (i = a)) as [->|]; [|apply Hpre; lia].
        rewrite Eo. simpl. by rewrite Er. }
      exists k. split_and!; [lia|done|]. rewrite <- app_assoc.
      replace (k - a)%nat with (S (k - S a)) by lia. done.
    + exists a. split_and!; [lia| |rewrite Eo, Nat.sub_diag; simpl; by rewrite app_nil_r].
      split_and!; [done|done|left; rewrite Eo; simpl; by rewrite Er].
Qed.

End RetryProofs.

Import Retry.

(** C20 [retry] terminates; it returns the outcome of the first call that succeeds or
    fails with a non-retryable error, or of call [max_retries] (counting from zero)
    if all before failed retryably; it makes no call after that one, hence at most
    [max_retries + 1], and sleeps the policy's backoff before each retry. *)
Theorem retry_correct {T E} (p : RetryPolicy) (retry_if : E -> bool) (op : nat -> Result T E) :
  0 <= max_retries p ->
  exists k, stops_at p retry_if op k /\
    retry p retry_if op =
    Some (op k, S k, map (fun i => backoff_for p (Z.of_nat i)) (seq 0 k)).
Proof.
  intros Hm. destruct (retry_loop_spec p retry_if op (S (Z.to_nat (max_retries p))) 0 [])
    as (k & _ & Hs & Hr); [done|simpl; lia|lia|lia|].
  exists k. split; [done|]. unfold retry. rewrite Hr, Nat.sub_0_r. done.
Qed.

Lemma retry_correct_witness :
  exists k, retry (fixed 2 7) (fun _ : unit => true)
    (fun n => if (n <? 2)%nat then Err tt else Ok 42%nat) =
  Some (Ok 42%nat, 3%nat, map (fun i => backoff_for (fixed 2 7) (Z.of_nat i)) (seq 0 k)).
Proof.
  destruct (retry_correct (fixed 2 7) (fun _ : unit => true)
    (fun n => if (n <? 2)%nat then Err tt else Ok 42%nat)) as (k & _ & Hk); [simpl; lia|].
  exists k. transitivity (retry (fixed 2 7) (fun _ : unit => true)
    (fun n => if (n <? 2)%nat then Err tt else Ok 42%nat)); [done|].
  rewrite Hk. assert (retry (fixed 2 7) (fun _ : unit => true)
    (fun n => if (n <? 2)%nat then Err tt else Ok 42%nat) = Some (Ok 42%nat, 3%nat, [7; 7])) as E
    by reflexivity.
  rewrite E in Hk. congruence.
Defined.

Lemma saturating_pow2_mono a b : 0 <= a <= b -> 1 <= saturating_pow2 a <= saturating_pow2 b.
Proof.
  intros H. unfold saturating_pow2, u32_max.
  assert (forall x, 0 <= x < 32 -> 1 <= 2 ^ x <= 4294967295) as Hx.
  { intros x Hx. pose proof (Z.pow_pos_nonneg 2 x ltac:(lia) ltac:(lia)).
    pose proof (Z.pow_le_mono_r 2 x 31 ltac:(lia) ltac:(lia)). change (2 ^ 31) with 2147483648 in *. lia. }
  destruct (Z.leb_spec 32 a), (Z.leb_spec 32 b); [lia|lia|apply Hx; lia|].
  split; [apply Hx; lia|]. apply Z.pow_le_mono_r; lia.
Qed.

(** Backoff: delays are representable and never decrease from one retry to the next,
    never exceed the cap, and are exactly [wait * 2^attempt] while neither the cap,
    the 32-bit factor nor the duration range is reached. *)
Theorem backoff_bounds (p : RetryPolicy) (a b : Z) :
  0 <= wait p <= duration_max -> 0 <= a <= b ->
  match max_backoff p with Some c => 0 <= c <= duration_max | None => True end ->
  0 <= backoff_for p a <= backoff_for p b /\ backoff_for p b <= duration_max /\
  (exponential p = true -> forall c, max_backoff p = Some c -> backoff_for p a <= c) /\
  (exponential p = true -> a < 32 -> wait p * 2 ^ a <= duration_max ->
   (forall c, max_backoff p = Some c -> wait p * 2 ^ a <= c) -> backoff_for p a = wait p * 2 ^ a).
Proof.
  intros Hw Hab Hc. pose proof (saturating_pow2_mono a b Hab) as Hp.
  unfold backoff_for. destruct (exponential p); cbn [negb]; [|split_and!; (lia || done)].
  assert (0 <= Z.min duration_max (wait p * saturating_pow2 a)
          <= Z.min duration_max (wait p * saturating_pow2 b)) as Hs.
  { unfold duration_max in *. pose proof (Z.mul_nonneg_nonneg (wait p) (saturating_pow2 a)).
    pose proof (Z.mul_le_mono_nonneg_l (saturating_pow2 a) (saturating_pow2 b) (wait p)). lia. }
  cbv zeta. split; [|split; [|split]].
  - destruct (max_backoff p) as [c|]; [|lia].
    destruct (Z.ltb_spec c (Z.min duration_max (wait p * saturating_pow2 a)));
    destruct (Z.ltb_spec c (Z.min duration_max (wait p * saturating_pow2 b))); lia.
  - destruct (max_backoff p) as [c|]; [|lia].
    destruct (Z.ltb_spec c (Z.min duration_max (wait p * saturating_pow2 b))); lia.
  - intros _ c Hcap. rewrite Hcap. destruct (Z.ltb_spec c (Z.min duration_max (wait p * saturating_pow2 a))); lia.
  - intros _ Ha Hd Hcap. unfold saturating_pow2. destruct (Z.leb_spec 32 a); [lia|].
    rewrite Z.min_r by done. destruct (max_backoff p) as [c|]; [|done].
    destruct (Z.ltb_spec c (wait p * 2 ^ a)); [|done]. specialize (Hcap c eq_refl). lia.
Qed.

Lemma backoff_bounds_witness :
  backoff_for default_policy 1 = 400000000 /\ backoff_for default_policy 40 <= 10000000000.
Proof.
  destruct (backoff_bounds default_policy 1 40) as (_ & _ & _ & H4);
    [unfold duration_max; simpl; lia|lia|unfold duration_max; simpl; lia|].
  destruct (backoff_bounds default_policy 40 40) as (_ & _ & H3 & _);
    [unfold duration_max; simpl; lia|lia|unfold duration_max; simpl; lia|].
  split; [apply H4; [done|lia|by vm_compute|intros c [= <-]; by vm_compute]|].
  apply H3; done.
Defined.
