(* ===== verification/Lifecycle.v ===== *)
(** * Component lifecycle ([lifecycle/manager.rs], [lifecycle/state.rs])

    The manager's registry, the dependency graph with Kahn's algorithm, the two
    closures, and starting and stopping in dependency order.  A [HashMap] is a
    [gmap] and a [HashSet] a [gset]; where the code iterates over a hash map the
    iteration order is an argument ([entries]) and the theorems hold for every
    order.  A component's own [start] and [stop] are user code: their outcomes are
    arguments, and a [stop] that never finishes is [None]. *)

From S2P Require Import Prelude.

Open Scope Z_scope.

Module Lifecycle.

Inductive ComponentState := Unknown | Error | Stopped | Stopping | Running | Starting.

#[export] Instance ComponentState_eq_dec : EqDecision ComponentState.
Proof. solve_decision. Defined.

Inductive LifecycleError :=
| ComponentNotFound (id : bytes)
| ComponentAlreadyStarted (id : bytes)
| CyclicDependency (what : bytes)
| Timeout (id : bytes)
| ComponentFailure (id : bytes) (source : bytes).

Record Inner := mkInner {
  components : gset bytes;
  deps : gmap bytes (gset bytes);
  watchers : gmap bytes ComponentState;
}.

Definition new : Inner := mkInner ∅ ∅ ∅.

(** ** Kahn's algorithm *)

(** [str] comparison: lexicographic on bytes. *)
Fixpoint str_leb (a b : bytes) : bool :=
  match a, b with
  | [], _ => true
  | _ :: _, [] => false
  | x :: a', y :: b' =>
      if b2z x <? b2z y then true else if b2z y <? b2z x then false else str_leb a' b'
  end.

Definition str_le (a b : bytes) : Prop := str_leb a b = true.
#[export] Instance str_le_dec : RelDecision str_le.
Proof. intros a b. unfold str_le. apply _. Defined.

Definition sort_unstable (l : list bytes) : list bytes := merge_sort str_le l.

Abbreviation Entries := (list (bytes * list bytes)).
Abbreviation Degrees := (gmap bytes nat).
Abbreviation Dependents := (gmap bytes (list bytes)).

(** [map.entry(k).or_insert(v)] *)
Definition or_insert {A} (k : bytes) (v : A) (m : gmap bytes A) : gmap bytes A :=
  match m !! k with Some _ => m | None => <[k := v]> m end.

(** The body of the inner loop over [id_deps]. *)
Definition add_edge (id : bytes) (st : Degrees * Dependents) (d : bytes) : Degrees * Dependents :=
  let '(deg, dpt) := st in
  let deg := or_insert id 0%nat deg in
  let deg := <[id := S (default 0%nat (deg !! id))]> deg in
  let dpt := or_insert d [] dpt in
  let dpt := <[d := default [] (dpt !! d) ++ [id]]> dpt in
  (or_insert d 0%nat deg, dpt).

Definition add_node (st : Degrees * Dependents) (e : bytes * list bytes) : Degrees * Dependents :=
  let '(deg, dpt) := st in
  foldl (add_edge (fst e)) (or_insert (fst e) 0%nat deg, dpt) (snd e).

Definition build (entries : Entries) : Degrees * Dependents := foldl add_node (∅, ∅) entries.

(** One dependent of the popped node; [None] is a panic: a missing entry
    ([unwrap]) or a degree below zero. *)
Definition relax (st : option (Degrees * list bytes)) (m : bytes) : option (Degrees * list bytes) :=
  '(deg, ready) ← st;
  e ← deg !! m;
  match e with
  | O => None
  | S e' =>
      let deg := <[m := e']> deg in
      Some (deg, if (e' =? 0)%nat then ready ++ [m] else ready)
  end.

(** The main loop; [None] is running out of fuel or a panic. *)
Fixpoint kahn (fuel : nat) (dpt : Dependents) (queue : list bytes) (deg : Degrees) (order : list bytes)
  : option (Degrees * list bytes) :=
  match fuel with
  | O => None
  | S f =>
      match queue with
      | [] => Some (deg, order)
      | n :: queue =>
          let order := order ++ [n] in
          match dpt !! n with
          | None => kahn f dpt queue deg order
          | Some deps_of =>
              '(deg, ready) ← foldl relax (Some (deg, [])) deps_of;
              kahn f dpt (queue ++ sort_unstable ready) deg order
          end
      end
  end.

(** [topo_order] over the iteration order [entries] of the map; the loop pops at
    most one entry per node. *)
Definition topo_order_in (entries : Entries) : option (Result (list bytes) LifecycleError) :=
  let '(deg, dpt) := build entries in
  let seed := map fst (List.filter (fun nd => (snd nd =? 0)%nat) (map_to_list deg)) in
  let queue := sort_unstable seed in
  '(deg', order) ← kahn (S (size deg)) dpt queue deg [];
  if negb (length order =? size deg')%nat then
    let unresolved := map fst (List.filter (fun nd => (0 <? snd nd)%nat) (map_to_list deg')) in
    Some (Err (CyclicDependency (join (b!", ") unresolved)))
  else Some (Ok order).

Definition entries_of (m : gmap bytes (gset bytes)) : Entries := map_to_list (elements <$> m).

Definition topo_order (m : gmap bytes (gset bytes)) : option (Result (list bytes) LifecycleError) :=
  topo_order_in (entries_of m).

(** ** Closures *)

(** [dependency_closure] and [dependent_closure] share their worklist; [next n]
    is what they push for [n]. *)
Fixpoint closure (fuel : nat) (next : bytes -> list bytes) (seen : gset bytes) (stack : list bytes)
  : option (gset bytes) :=
  match fuel with
  | O => None
  | S f =>
      match rev stack with
      | [] => Some seen
      | n :: rest =>
          let stack := rev rest in
          if decide (n ∈ seen) then closure f next seen stack
          else closure f next ({[n]} ∪ seen) (stack ++ next n)
      end
  end.

Definition deps_next (m : gmap bytes (gset bytes)) (n : bytes) : list bytes :=
  match m !! n with Some ds => elements ds | None => [] end.

Definition dependents_next (m : gmap bytes (gset bytes)) (n : bytes) : list bytes :=
  map fst (List.filter (fun e : bytes * gset bytes => bool_decide (n ∈ snd e)) (map_to_list m)).

(** Fuel: every node is expanded at most once, so there are at most as many pops as
    pushes in all, and the last, empty one. *)
Definition node_list (m : gmap bytes (gset bytes)) : list bytes :=
  elements (dom m ∪ ⋃ map snd (map_to_list m)).

Definition closure_fuel (next : bytes -> list bytes) (m : gmap bytes (gset bytes)) : nat :=
  2 + sum_list_with (fun n => length (next n)) (node_list m).

Definition dependency_closure (m : gmap bytes (gset bytes)) (id : bytes) : option (gset bytes) :=
  closure (closure_fuel (deps_next m) m) (deps_next m) ∅ [id].

Definition dependent_closure (m : gmap bytes (gset bytes)) (id : bytes) : option (gset bytes) :=
  closure (closure_fuel (dependents_next m) m) (dependents_next m) ∅ [id].

(** ** Registry operations *)

Definition register (id : bytes) (s : Inner) : Inner :=
  mkInner ({[id]} ∪ components s) (or_insert id ∅ (deps s)) (<[id := Unknown]> (watchers s)).

Definition unregister (id : bytes) (s : Inner) : Inner :=
  mkInner (components s ∖ {[id]})
    ((fun set => set ∖ {[id]}) <$> delete id (deps s)) (delete id (watchers s)).

(** [add_dependency]; [None] would be a panic or lack of fuel inside [topo_order]. *)
Definition add_dependency (id depends_on : bytes) (s : Inner)
  : option (Result unit LifecycleError * Inner) :=
  if negb (bool_decide (id ∈ components s)) then Some (Err (ComponentNotFound id), s)
  else if negb (bool_decide (depends_on ∈ components s)) then
    Some (Err (ComponentNotFound depends_on), s)
  else
    let d := <[id := {[depends_on]} ∪ default ∅ (deps s !! id)]> (deps s) in
    r ← topo_order d;
    match r with
    | Err _ =>
        let d := alter (fun set => set ∖ {[depends_on]}) id d in
        Some (Err (CyclicDependency (id ++ b!" -> " ++ depends_on)),
              mkInner (components s) d (watchers s))
    | Ok _ => Some (Ok tt, mkInner (components s) d (watchers s))
    end.

Definition get_state (id : bytes) (s : Inner) : option ComponentState := watchers s !! id.

(** [transition] *)
Definition transition (id : bytes) (new_ : ComponentState) (s : Inner) : Inner :=
  mkInner (components s) (deps s) (alter (fun _ => new_) id (watchers s)).

(** ** Starting and stopping

    Every call of a component's [start] or [stop] is logged, with the manager
    state at that moment. *)

Inductive Call := CallStart (id : bytes) | CallStop (id : bytes).

Section Sweep.
Context (start_result : bytes -> Result unit LifecycleError)
        (stop_result : bytes -> option (Result unit LifecycleError)).

Definition Log := list (Call * Inner).

Definition start_one (id : bytes) (s : Inner) (log : Log) : Result unit LifecycleError * Inner * Log :=
  if negb (bool_decide (id ∈ components s)) then (Err (ComponentNotFound id), s, log)
  else
    let won := match watchers s !! id with
               | Some Running | Some Starting | None => false
               | Some _ => true
               end in
    if negb won then (Ok tt, s, log)
    else
      let s := transition id Starting s in
      let log := log ++ [(CallStart id, s)] in
      match start_result id with
      | Ok _ => (Ok tt, transition id Running s, log)
      | Err e => (Err e, transition id Error s, log)
      end.

(** [None] in the result: the component's [stop] never finishes. *)
Definition stop_one (id : bytes) (s : Inner) (log : Log)
  : option (Result unit LifecycleError) * Inner * Log :=
  if negb (bool_decide (id ∈ components s)) then (Some (Err (ComponentNotFound id)), s, log)
  else
    let state := default Unknown (watchers s !! id) in
    if bool_decide (state = Stopped) || bool_decide (state = Unknown) then (Some (Ok tt), s, log)
    else
      let s := transition id Stopping s in
      let log := log ++ [(CallStop id, s)] in
      match stop_result id with
      | None => (None, s, log)
      | Some (Ok _) => (Some (Ok tt), transition id Stopped s, log)
      | Some (Err e) => (Some (Err e), transition id Error s, log)
      end.

(** [for id in order { self.start_one(&id).await?; }] *)
Fixpoint start_each (order : list bytes) (s : Inner) (log : Log)
  : Result unit LifecycleError * Inner * Log :=
  match order with
  | [] => (Ok tt, s, log)
  | id :: order' =>
      let '(r, s, log) := start_one id s log in
      match r with
      | Ok _ => start_each order' s log
      | Err e => (Err e, s, log)
      end
  end.

Fixpoint stop_each (order : list bytes) (s : Inner) (log : Log)
  : option (Result unit LifecycleError) * Inner * Log :=
  match order with
  | [] => (Some (Ok tt), s, log)
  | id :: order' =>
      let '(r, s, log) := stop_one id s log in
      match r with
      | Some (Ok _) => stop_each order' s log
      | _ => (r, s, log)
      end
  end.

Definition start_all (s : Inner) : option (Result unit LifecycleError * Inner * Log) :=
  r ← topo_order (deps s);
  match r with
  | Err e => Some (Err e, s, [])
  | Ok order => Some (start_each order s [])
  end.

Definition start_order_for (id : bytes) (s : Inner) : option (Result (list bytes) LifecycleError) :=
  c ← dependency_closure (deps s) id;
  full ← topo_order (deps s);
  match full with
  | Err e => Some (Err e)
  | Ok full => Some (Ok (List.filter (fun n => bool_decide (n ∈ c)) full))
  end.

Definition start (id : bytes) (s : Inner) : option (Result unit LifecycleError * Inner * Log) :=
  match get_state id s with
  | None => Some (Err (ComponentNotFound id), s, [])
  | Some Running => Some (Err (ComponentAlreadyStarted id), s, [])
  | Some _ =>
      r ← start_order_for id s;
      match r with
      | Err e => Some (Err e, s, [])
      | Ok order => Some (start_each order s [])
      end
  end.

Definition stop_order_for (id : bytes) (s : Inner) : option (Result (list bytes) LifecycleError) :=
  c ← dependent_closure (deps s) id;
  full ← topo_order (deps s);
  match full with
  | Err e => Some (Err e)
  | Ok full => Some (Ok (List.filter (fun n => bool_decide (n ∈ c)) full))
  end.

Definition stop (id : bytes) (s : Inner)
  : option (option (Result unit LifecycleError) * Inner * Log) :=
  match get_state id s with
  | None => Some (Some (Err (ComponentNotFound id)), s, [])
  | Some _ =>
      r ← stop_order_for id s;
      match r with
      | Err e => Some (Some (Err e), s, [])
      | Ok order => Some (stop_each (rev order) s [])
      end
  end.

Definition stop_all (s : Inner) : option (option (Result unit LifecycleError) * Inner * Log) :=
  r ← topo_order (deps s);
  match r with
  | Err e => Some (Some (Err e), s, [])
  | Ok order => Some (stop_each (rev order) s [])
  end.

(** The sweep of [stop_all_with_timeout]: a [stop] that does not finish within
    the bound is dropped where it was, and the component is marked [Error]. *)
Fixpoint stop_sweep (order : list bytes) (first_err : option LifecycleError) (s : Inner) (log : Log)
  : Result unit LifecycleError * Inner * Log :=
  match order with
  | [] => (match first_err with Some e => Err e | None => Ok tt end, s, log)
  | id :: order' =>
      let '(r, s, log) := stop_one id s log in
      let r := default (Err (Timeout id)) r in
      match r with
      | Ok _ => stop_sweep order' first_err s log
      | Err e =>
          stop_sweep order' (Some (default e first_err)) (transition id Error s) log
      end
  end.

Definition stop_all_with_timeout (s : Inner) : option (Result unit LifecycleError * Inner * Log) :=
  r ← topo_order (deps s);
  match r with
  | Err e => Some (Err e, s, [])
  | Ok order => Some (stop_sweep (rev order) None s [])
  end.

End Sweep.
End Lifecycle.

Import Lifecycle.

(** ** Kahn's algorithm: the graph it builds *)

(** [n] depends on [d]. *)
Definition edge (m : gmap bytes (gset bytes)) (n d : bytes) : Prop :=
  exists s, m !! n = Some s /\ d ∈ s.

Definition is_node (m : gmap bytes (gset bytes)) (n : bytes) : Prop :=
  n ∈ dom m \/ exists k, edge m k n.

Definition acyclic (m : gmap bytes (gset bytes)) : Prop := forall n, ~ tc (edge m) n n.

(** Every node once, after everything it depends on. *)
Definition topological (m : gmap bytes (gset bytes)) (l : list bytes) : Prop :=
  NoDup l /\ (forall n, n ∈ l <-> is_node m n) /\
  (forall l1 n l2 d, l = l1 ++ n :: l2 -> edge m n d -> d ∈ l1).

(** An iteration order of the map and of its sets. *)
Definition enumerates (entries : Entries) (m : gmap bytes (gset bytes)) : Prop :=
  NoDup (map fst entries) /\
  (forall n l, (n, l) ∈ entries -> NoDup l) /\
  (forall n d, edge m n d <-> exists l, (n, l) ∈ entries /\ d ∈ l) /\
  (forall n, n ∈ dom m <-> n ∈ map fst entries).

(** The steps of the building loops, and the edges and nodes they mention. *)
Inductive Op := Node (n : bytes) | Edge (n d : bytes).

Definition op_step (st : Degrees * Dependents) (o : Op) : Degrees * Dependents :=
  match o with
  | Node n => (or_insert n 0%nat (fst st), snd st)
  | Edge n d => add_edge n st d
  end.

Definition ops_of (entries : Entries) : list Op :=
  flat_map (fun e => Node (fst e) :: map (Edge (fst e)) (snd e)) entries.

Definition op_edge (o : Op) : option (bytes * bytes) :=
  match o with Node _ => None | Edge n d => Some (n, d) end.

Definition op_nodes (o : Op) : list bytes :=
  match o with Node n => [n] | Edge n d => [n; d] end.

Lemma foldl_add_edge id ds st :
  foldl (add_edge id) st ds = foldl op_step st (map (Edge id) ds).
Proof. revert st. induction ds as [|d ds IH]; intros st; simpl; [done|]. apply IH. Qed.

Lemma build_ops entries : build entries = foldl op_step (∅, ∅) (ops_of entries).
Proof.
  unfold build. generalize (∅ : Degrees, ∅ : Dependents) as st.
  induction entries as [|[id ds] es IH]; intros st; simpl; [done|].
  rewrite foldl_app. unfold add_node. destruct st as [deg dpt]. cbn [fst snd].
  rewrite IH, foldl_add_edge. done.
Qed.

Definition edges_at (n : bytes) (E : list (bytes * bytes)) : list (bytes * bytes) :=
  filter (fun e => fst e = n) E.

Lemma or_insert_lookup {A} k (v : A) m n :
  or_insert k v m !! n = if decide (n = k) then Some (default v (m !! k)) else m !! n.
Proof.
  unfold or_insert. destruct (m !! k) eqn:E; case_decide; subst; simpl.
  - done.
  - done.
  - by rewrite lookup_insert_eq.
  - by rewrite lookup_insert_ne.
Qed.

(** What the maps hold after a sequence of steps. *)
Definition degrees_ok (ops : list Op) (deg : Degrees) : Prop := forall n,
  deg !! n = if decide (n ∈ flat_map op_nodes ops)
             then Some (length (edges_at n (omap op_edge ops))) else None.

Definition dependents_ok (ops : list Op) (dpt : Dependents) : Prop := forall d,
  default [] (dpt !! d) = map fst (filter (fun e => snd e = d) (omap op_edge ops)).

Lemma edges_at_nil n ops :
  n ∉ flat_map op_nodes ops -> edges_at n (omap op_edge ops) = [].
Proof.
  induction ops as [|o ops IH]; [done|]. cbn [flat_map omap list_omap]. rewrite elem_of_app.
  intros H. destruct o as [k|k d]; cbn [op_edge op_nodes] in *; [naive_solver|].
  unfold edges_at. rewrite filter_cons_False; [naive_solver|]. simpl. set_solver.
Qed.

Lemma build_spec ops :
  degrees_ok ops (fst (foldl op_step (∅, ∅) ops)) /\
  dependents_ok ops (snd (foldl op_step (∅, ∅) ops)).
Proof.
  induction ops as [|o ops [IHd IHp]] using rev_ind; [split; intros n; done|].
  rewrite foldl_app. cbn [foldl]. set (st := foldl op_step (∅, ∅) ops) in *.
  destruct st as [deg dpt]. cbn [fst snd] in *. split.
  - intros n. rewrite flat_map_app, omap_app. unfold edges_at. rewrite filter_app, length_app.
    fold (edges_at n (omap op_edge ops)). destruct o as [k|k d]; cbn [op_step add_edge fst snd].
    + rewrite or_insert_lookup. cbn [omap list_omap op_edge flat_map op_nodes app].
      rewrite filter_nil. cbn [length]. rewrite Nat.add_0_r, !IHd.
      destruct (decide (n = k)) as [->|Hne].
      * rewrite (decide_True (P := k ∈ _ ++ _)) by set_solver. case_decide; simpl; [done|].
        by rewrite edges_at_nil.
      * destruct (decide (n ∈ flat_map op_nodes ops)); [by rewrite decide_True by set_solver|].
        by rewrite decide_False by set_solver.
    + rewrite or_insert_lookup. cbn [omap list_omap op_edge flat_map op_nodes app].
      assert (forall j, <[k := S (default 0%nat (or_insert k 0%nat deg !! k))]> (or_insert k 0%nat deg) !! j
        = if decide (j = k) then Some (S (length (edges_at k (omap op_edge ops)))) else deg !! j) as Hins.
      { intros j. destruct (decide (j = k)) as [->|Hj].
        - rewrite lookup_insert_eq, or_insert_lookup, decide_True by done. simpl. rewrite IHd.
          case_decide; simpl; [done|]. by rewrite edges_at_nil.
        - by rewrite lookup_insert_ne, or_insert_lookup, decide_False by done. }
      rewrite !Hins. destruct (decide (n = k)) as [->|Hnk].
      * rewrite filter_cons_True, filter_nil by done. cbn [length].
        rewrite (decide_True (P := k ∈ _ ++ _)) by set_solver. rewrite Nat.add_1_r.
        destruct (decide (k = d)) as [->|]; [|done]. by rewrite decide_True.
      * rewrite filter_cons_False, filter_nil by done. cbn [length]. rewrite Nat.add_0_r.
        destruct (decide (n = d)) as [->|Hnd].
        -- rewrite (decide_True (P := d ∈ _ ++ _)) by set_solver. rewrite decide_False by done.
           rewrite IHd. case_decide; simpl; [done|]. by rewrite edges_at_nil.
        -- rewrite IHd. destruct (decide (n ∈ flat_map op_nodes ops));
             [by rewrite decide_True by set_solver|by rewrite decide_False by set_solver].
  - intros d'. rewrite omap_app, filter_app, map_app, <- IHp.
    destruct o as [k|k d]; cbn [op_step add_edge fst snd omap list_omap op_edge].
    + rewrite filter_nil. by rewrite app_nil_r.
    + destruct (decide (d' = d)) as [->|Hne].
      * rewrite lookup_insert_eq, or_insert_lookup, decide_True by done. simpl.
        rewrite filter_cons_True by done. done.
      * rewrite lookup_insert_ne, or_insert_lookup, decide_False by done.
        rewrite filter_cons_False by (simpl; congruence). by rewrite app_nil_r.
Qed.

(** ** Kahn's algorithm: the loop *)

Section Kahn.
Context (E : list (bytes * bytes)) (N : gset bytes) (dpt : Dependents).
Context (E_nodup : NoDup E)
        (E_nodes : forall n d, (n, d) ∈ E -> n ∈ N /\ d ∈ N)
        (dpt_ok : forall d, default [] (dpt !! d) = map fst (filter (fun e => snd e = d) E)).

(** The dependencies of [n] that are not in [order] yet. *)
Definition pending (order : list bytes) (n : bytes) : nat :=
  length (filter (fun e => fst e = n /\ snd e ∉ order) E).

Lemma pending_zero order n : pending order n = 0%nat <-> forall d, (n, d) ∈ E -> d ∈ order.
Proof using E.
  clear N dpt E_nodup E_nodes dpt_ok. unfold pending. rewrite length_zero_iff_nil. split.
  - intros H d Hd. destruct (decide (d ∈ order)) as [|Hn]; [done|].
    assert ((n, d) ∈ filter (fun e => fst e = n /\ snd e ∉ order) E) as Hin
      by (apply list_elem_of_filter; done).
    rewrite H in Hin. set_solver.
  - intros H. apply elem_of_nil_inv. intros [m d] [[Hm Hd] Hin]%list_elem_of_filter.
    simpl in *. subst. by apply Hd, H.
Qed.

Lemma pending_snoc order n m :
  n ∉ order ->
  pending order m = (pending (order ++ [n]) m + if decide ((m, n) ∈ E) then 1 else 0)%nat.
Proof.
  intros Hn. unfold pending. clear E_nodes dpt_ok. induction E as [|[a b] l IH]; [done|].
  inv E_nodup. rewrite !filter_cons. simpl. specialize (IH H2).
  destruct (decide (a = m /\ b ∉ order)) as [[-> Hb]|Hno].
  - destruct (decide (b = n)) as [->|Hbn].
    + rewrite (decide_False (P := m = m /\ n ∉ order ++ [n])) by set_solver.
      rewrite (decide_True (P := (m, n) ∈ (m, n) :: l)) by set_solver.
      rewrite (decide_False (P := (m, n) ∈ l)) in IH by done. simpl. lia.
    + rewrite (decide_True (P := m = m /\ b ∉ order ++ [n])) by set_solver. simpl. rewrite IH.
      destruct (decide ((m, n) ∈ l)); [rewrite decide_True by set_solver|
        rewrite decide_False by set_solver]; done.
  - rewrite (decide_False (P := a = m /\ b ∉ order ++ [n])) by set_solver. rewrite IH.
    destruct (decide ((m, n) ∈ l)); [by rewrite decide_True by set_solver|].
    rewrite decide_False; [done|]. intros [Heq|]%elem_of_cons; [|done]. simplify_eq. naive_solver.
Qed.

Lemma relax_none ms : foldl relax None ms = None.
Proof. by induction ms. Qed.

(** One round of decrements over distinct nodes of positive degree. *)
Lemma relax_spec ms : forall deg ready,
  NoDup ms -> (forall m, m ∈ ms -> exists k, deg !! m = Some (S k)) ->
  exists deg', foldl relax (Some (deg, ready)) ms =
    Some (deg', ready ++ filter (fun m => deg !! m = Some 1%nat) ms) /\
    forall n, deg' !! n = if decide (n ∈ ms) then pred <$> deg !! n else deg !! n.
Proof.
  induction ms as [|m ms IH]; intros deg ready Hnd Hpos.
  { exists deg. cbn. rewrite app_nil_r. split; [done|]. intros n. by rewrite decide_False by set_solver. }
  inv Hnd. destruct (Hpos m) as [k Hk]; [set_solver|].
  cbn [foldl]. unfold relax at 2. cbn [mbind option_bind]. rewrite Hk. cbn [mbind option_bind].
  destruct (IH (<[m := k]> deg) (if (k =? 0)%nat then ready ++ [m] else ready)) as (deg' & Hf & Hd).
  { done. }
  { intros x Hx. rewrite lookup_insert_ne by (intros ->; done). apply Hpos. set_solver. }
  exists deg'. split.
  - rewrite Hf. do 2 f_equal. rewrite filter_cons.
    assert (filter (fun x => <[m:=k]> deg !! x = Some 1%nat) ms = filter (fun x => deg !! x = Some 1%nat) ms) as ->.
    { apply filter_ext_elem. intros x Hx. rewrite lookup_insert_ne by (intros ->; done). done. }
    destruct k as [|k]; simpl.
    + rewrite decide_True by done. by rewrite <- app_assoc.
    + rewrite decide_False by (rewrite Hk; congruence). done.
  - intros n. rewrite Hd. destruct (decide (n = m)) as [->|Hne].
    + rewrite decide_False by done. rewrite (decide_True (P := m ∈ m :: ms)) by set_solver.
      by rewrite lookup_insert_eq, Hk.
    + rewrite lookup_insert_ne by done. destruct (decide (n ∈ ms)).
      * by rewrite decide_True by set_solver.
      * by rewrite decide_False by set_solver.
Qed.

Record kahn_inv (order queue : list bytes) (deg : Degrees) : Prop := {
  ki_deg : forall n, deg !! n = if decide (n ∈ N) then Some (pending order n) else None;
  ki_nodup : NoDup (order ++ queue);
  ki_zero : forall n, n ∈ order ++ queue <-> n ∈ N /\ pending order n = 0%nat;
  ki_topo : forall l1 n l2 d, order = l1 ++ n :: l2 -> (n, d) ∈ E -> d ∈ l1;
}.

Lemma topo_snoc order n :
  (forall l1 k l2 d, order = l1 ++ k :: l2 -> (k, d) ∈ E -> d ∈ l1) ->
  pending order n = 0%nat ->
  forall l1 k l2 d, order ++ [n] = l1 ++ k :: l2 -> (k, d) ∈ E -> d ∈ l1.
Proof using E.
  clear N dpt E_nodup E_nodes dpt_ok. intros Ht Hp l1 k l2 d Heq Hd. destruct l2 as [|x l2 _] using rev_ind.
  - apply app_inj_2 in Heq as [-> [= ->]]; [|done]. by eapply pending_zero.
  - change (k :: l2 ++ [x]) with ((k :: l2) ++ [x]) in Heq. rewrite app_assoc in Heq.
    apply app_inj_2 in Heq as [-> _]; [|done]. by eapply Ht.
Qed.

Lemma dependents_nodup d : NoDup (map fst (filter (fun e => snd e = d) E)).
Proof.
  clear E_nodes dpt_ok. induction E as [|[a b] l IH]; [constructor|]. inv E_nodup.
  rewrite filter_cons. case_decide as Hb; simpl in *; [|by apply IH]. subst.
  constructor; [|by apply IH]. intros ([x y] & Hx & Hin)%list_elem_of_fmap.
  apply list_elem_of_filter in Hin as [Hy Hin]. simpl in *. by subst.
Qed.

Lemma elem_of_dependents m d : m ∈ map fst (filter (fun e => snd e = d) E) <-> (m, d) ∈ E.
Proof.
  rewrite list_elem_of_fmap. split.
  - intros ([x y] & -> & [Hy Hin]%list_elem_of_filter). simpl in *. by subst.
  - intros H. exists (m, d). split; [done|]. by apply list_elem_of_filter.
Qed.

Lemma sort_perm l : sort_unstable l ≡ₚ l.
Proof. apply merge_sort_Permutation. Qed.

(** One iteration keeps the invariant. *)
Lemma kahn_step order n queue deg :
  kahn_inv order (n :: queue) deg ->
  exists deg' ready,
    match dpt !! n with
    | None => deg' = deg /\ ready = []
    | Some deps_of => foldl relax (Some (deg, [])) deps_of = Some (deg', ready)
    end /\ kahn_inv (order ++ [n]) (queue ++ sort_unstable ready) deg'.
Proof.
  intros [Hdeg Hnd Hz Ht].
  assert (n ∈ N /\ pending order n = 0%nat) as [HnN Hn0] by (apply Hz; set_solver).
  assert (n ∉ order /\ n ∉ queue) as [Hno Hnq].
  { apply NoDup_app in Hnd as (_ & Hd & Hq). inv Hq. split; [intros H; by eapply Hd; [exact H|left]|done]. }
  set (ms := map fst (filter (fun e => snd e = n) E)).
  assert (forall m, m ∈ ms <-> (m, n) ∈ E) as Hms by (intros m; apply elem_of_dependents).
  assert (forall m, m ∈ ms -> exists k, deg !! m = Some (S k)) as Hpos.
  { intros m Hm%Hms. destruct (E_nodes _ _ Hm) as [HmN _].
    rewrite Hdeg, decide_True by done. rewrite (pending_snoc order n m) by done.
    rewrite decide_True by done. rewrite Nat.add_1_r. eauto. }
  destruct (relax_spec ms deg [] (dependents_nodup n) Hpos) as (deg' & Hf & Hd').
  set (ready := filter (fun m => deg !! m = Some 1%nat) ms) in *.
  exists deg', ready. split.
  { pose proof (dpt_ok n) as Hdp. fold ms in Hdp. destruct (dpt !! n) as [ds|]; simpl in Hdp.
    - by rewrite Hdp, Hf.
    - rewrite <- Hdp in *. subst ready. simpl in Hf. by simplify_eq. }
  assert (forall m, m ∈ ready <-> (m, n) ∈ E /\ pending order m = 1%nat) as Hready.
  { intros m. subst ready. rewrite list_elem_of_filter, Hms. split.
    - intros [H Hin]. split; [done|]. rewrite Hdeg in H. case_decide; by simplify_eq.
    - intros [Hin H]. split; [|done]. destruct (E_nodes _ _ Hin). by rewrite Hdeg, decide_True, H. }
  constructor.
  - intros m. rewrite Hd', Hdeg. destruct (decide (m ∈ N)) as [HmN|].
    + rewrite (pending_snoc order n m) by done. destruct (decide (m ∈ ms)) as [Hm|Hm].
      * apply Hms in Hm. rewrite decide_True by done. simpl. f_equal. lia.
      * rewrite Hms in Hm. rewrite decide_False by done. f_equal. lia.
    + by destruct (decide (m ∈ ms)).
  - rewrite sort_perm. rewrite <- app_assoc. cbn [app].
    assert (NoDup ((order ++ n :: queue) ++ ready)) as Hall; [|by rewrite <- app_assoc in Hall].
    apply NoDup_app. split_and!; [done| |apply NoDup_filter, dependents_nodup].
    intros m Hm Hr. apply Hz in Hm as [_ Hm]. apply Hready in Hr as [_ Hr]. lia.
  - intros m. rewrite sort_perm, <- app_assoc. cbn [app].
    rewrite cons_middle, !app_assoc, elem_of_app. rewrite <- !app_assoc. cbn [app].
    rewrite Hz, Hready. destruct (decide (m ∈ N)) as [HmN|HmN].
    + rewrite (pending_snoc order n m) by done. destruct (decide ((m, n) ∈ E)); naive_solver lia.
    + split; [|naive_solver]. intros [[? _]|[Hin _]]; [done|]. by destruct (E_nodes _ _ Hin).
  - apply topo_snoc; done.
Qed.

Lemma kahn_total fuel : forall order queue deg,
  kahn_inv order queue deg -> (size N - length order < fuel)%nat ->
  exists deg' order', kahn fuel dpt queue deg order = Some (deg', order') /\ kahn_inv order' [] deg'.
Proof.
  induction fuel as [|fuel IH]; intros order queue deg Hinv Hf; [lia|]. cbn [kahn].
  destruct queue as [|n queue]; [by eexists _, _|].
  assert (length (order ++ n :: queue) <= size N)%nat as Hlen.
  { destruct Hinv as [_ Hnd Hz _]. rewrite <- (size_list_to_set (C := gset bytes)) by done.
    apply subseteq_size. intros x Hx%elem_of_list_to_set. by apply Hz. }
  rewrite length_app in Hlen. cbn [length] in Hlen.
  destruct (kahn_step order n queue deg Hinv) as (deg' & ready & Hm & Hinv').
  destruct (dpt !! n) as [ds|].
  - rewrite Hm. cbn [mbind option_bind]. apply IH; [done|]. rewrite length_app. simpl. lia.
  - destruct Hm as [-> ->]. rewrite app_nil_r in Hinv'. apply IH; [done|].
    rewrite length_app. simpl. lia.
Qed.

End Kahn.

(** ** Kahn's algorithm: correctness *)

Lemma elem_of_edges entries n d :
  (n, d) ∈ omap op_edge (ops_of entries) <-> exists l, (n, l) ∈ entries /\ d ∈ l.
Proof.
  induction entries as [|[k ds] es IH]; [split; [set_solver|intros (l & Hl & _); set_solver]|].
  unfold ops_of. cbn [flat_map fst snd]. fold (ops_of es).
  rewrite omap_app, elem_of_app, IH. cbn [omap list_omap op_edge].
  assert ((n, d) ∈ omap op_edge (map (Edge k) ds) <-> n = k /\ d ∈ ds) as ->.
  { rewrite list_elem_of_omap. split.
    - intros (o & Ho & Heq). apply list_elem_of_fmap in Ho as (d' & -> & Hd'). simpl in Heq. by simplify_eq.
    - intros [-> Hd]. exists (Edge k d). split; [|done]. by apply list_elem_of_fmap_2. }
  split.
  - intros [[-> Hd]|(l & Hl & Hd)]; [exists ds|exists l]; (split; [set_solver|done]).
  - intros (l & [Heq|Hl]%elem_of_cons & Hd); [left; by simplify_eq|right; eauto].
Qed.

Lemma edges_nodup entries :
  NoDup (map fst entries) -> (forall n l, (n, l) ∈ entries -> NoDup l) ->
  NoDup (omap op_edge (ops_of entries)).
Proof.
  induction entries as [|[k ds] es IH]; intros Hk Hds; [constructor|]. cbn [map fst] in Hk. inv Hk.
  unfold ops_of. cbn [flat_map fst snd]. fold (ops_of es). rewrite omap_app. cbn [omap list_omap op_edge].
  assert (omap op_edge (map (Edge k) ds) = map (pair k) ds) as ->.
  { clear. induction ds as [|d ds IH]; [done|]. cbn [map omap list_omap op_edge]. f_equal. exact IH. }
  apply NoDup_app. split_and!.
  - apply (NoDup_fmap_2 (pair k)). apply (Hds k). set_solver.
  - intros [n d] Hin1 Hin. apply list_elem_of_fmap in Hin1 as (d' & Heq & _). simplify_eq.
    apply elem_of_edges in Hin as (l & Hl & _). apply H1.
    apply list_elem_of_fmap. by exists (k, l).
  - apply IH; [done|]. intros n l Hl. apply (Hds n). set_solver.
Qed.

Lemma elem_of_op_nodes entries n :
  n ∈ flat_map op_nodes (ops_of entries) <->
  n ∈ map fst entries \/ exists k, (k, n) ∈ omap op_edge (ops_of entries).
Proof.
  induction entries as [|[k ds] es IH]; [split; [set_solver|intros [H|[k H]]; set_solver]|].
  unfold ops_of. cbn [flat_map fst snd map]. fold (ops_of es).
  rewrite omap_app, flat_map_app, elem_of_app, IH. cbn [omap list_omap op_edge flat_map op_nodes app].
  assert (n ∈ k :: flat_map op_nodes (map (Edge k) ds) <-> n = k \/ n ∈ ds) as ->.
  { rewrite elem_of_cons. clear. induction ds as [|d ds IHd]; cbn [map flat_map op_nodes app].
    - rewrite !elem_of_nil. naive_solver.
    - rewrite !elem_of_cons. naive_solver. }
  assert (forall a, (a, n) ∈ omap op_edge (map (Edge k) ds) <-> a = k /\ n ∈ ds) as Ha.
  { intros a. clear. induction ds as [|d ds IH]; cbn [map omap list_omap op_edge].
    - rewrite !elem_of_nil. naive_solver.
    - rewrite !elem_of_cons, IH. naive_solver. }
  setoid_rewrite elem_of_app. setoid_rewrite Ha. rewrite elem_of_cons. naive_solver.
Qed.

Lemma elem_of_list_filter' {A} (f : A -> bool) l x : x ∈ List.filter f l <-> x ∈ l /\ f x = true.
Proof. rewrite !list_elem_of_In. apply filter_In. Qed.

Lemma seed_spec (deg : Degrees) n :
  n ∈ map fst (List.filter (fun nd => (snd nd =? 0)%nat) (map_to_list deg)) <-> deg !! n = Some 0%nat.
Proof.
  rewrite list_elem_of_fmap. split.
  - intros ([k v] & -> & Hin). apply elem_of_list_filter' in Hin as [Hin Hv].
    apply Nat.eqb_eq in Hv. simpl in *. subst. by apply elem_of_map_to_list.
  - intros H. exists (n, 0%nat). split; [done|]. apply elem_of_list_filter'.
    split; [by apply elem_of_map_to_list|done].
Qed.

Lemma seed_nodup (deg : Degrees) f : NoDup (map fst (List.filter f (map_to_list deg))).
Proof.
  pose proof (NoDup_fst_map_to_list deg) as H. induction (map_to_list deg) as [|x l IH]; [constructor|].
  cbn [fmap list_fmap] in H. inv H. cbn [List.filter]. destruct (f x); [|by apply IH].
  cbn [map]. constructor; [|by apply IH]. intros Hin. apply H2.
  apply list_elem_of_fmap in Hin as (y & -> & Hy). apply elem_of_list_filter' in Hy as [Hy _].
  by apply list_elem_of_fmap_2.
Qed.

(** The result of the loop: an order that is complete when the graph is acyclic. *)
Lemma topo_loop entries m :
  enumerates entries m ->
  let '(deg, dpt) := build entries in
  exists deg' order,
    kahn (S (size deg)) dpt (sort_unstable (map fst (List.filter (fun nd => (snd nd =? 0)%nat) (map_to_list deg)))) deg []
      = Some (deg', order) /\
    NoDup order /\ (forall n, n ∈ order -> is_node m n) /\
    (forall n, is_node m n -> (forall d, edge m n d -> d ∈ order) -> n ∈ order) /\
    (forall l1 n l2 d, order = l1 ++ n :: l2 -> edge m n d -> d ∈ l1) /\
    (length order = size deg' <-> forall n, is_node m n -> n ∈ order).
Proof.
  intros (Hk & Hds & Hedge & Hdom). rewrite build_ops.
  destruct (build_spec (ops_of entries)) as [Hdeg Hdpt].
  destruct (foldl op_step (∅, ∅) (ops_of entries)) as [deg dpt]. cbn [fst snd] in *.
  set (E := omap op_edge (ops_of entries)) in *. set (L := flat_map op_nodes (ops_of entries)) in *.
  set (N := list_to_set L : gset bytes).
  assert (forall n d, (n, d) ∈ E <-> edge m n d) as HE by (intros; by rewrite Hedge, <- elem_of_edges).
  assert (forall n, n ∈ N <-> is_node m n) as HN.
  { intros n. unfold N. rewrite elem_of_list_to_set. unfold L. rewrite elem_of_op_nodes. unfold is_node.
    rewrite Hdom. fold E. setoid_rewrite HE. done. }
  assert (NoDup E) as HEn by (by apply edges_nodup).
  assert (forall n d, (n, d) ∈ E -> n ∈ N /\ d ∈ N) as HEN.
  { intros n d Hnd%HE. rewrite !HN. split; [|right; eauto]. left. destruct Hnd as (s & Hs & _).
    by apply elem_of_dom. }
  assert (forall n, deg !! n = if decide (n ∈ N) then Some (pending E [] n) else None) as Hdeg0.
  { intros n. rewrite Hdeg. fold L E. unfold N. destruct (decide (n ∈ L)).
    - rewrite decide_True by (by apply elem_of_list_to_set). f_equal. unfold edges_at, pending.
      f_equal. apply list_filter_iff. set_solver.
    - by rewrite decide_False by (by rewrite elem_of_list_to_set). }
  assert (forall d o, (forall n, d !! n = if decide (n ∈ N) then Some (pending E o n) else None) ->
    size (d : Degrees) = size N) as Hsize.
  { intros d o Hd. rewrite <- size_dom. f_equal. apply set_eq. intros n.
    rewrite elem_of_dom, Hd. case_decide; [naive_solver|]. split; [intros [? ?]|]; done. }
  destruct (kahn_total E N dpt HEn HEN Hdpt (S (size deg)) [] (sort_unstable
    (map fst (List.filter (fun nd => (snd nd =? 0)%nat) (map_to_list deg)))) deg) as (deg' & order & Hrun & Hinv).
  { constructor; [done| | |].
    - cbn [app]. rewrite sort_perm. apply seed_nodup.
    - intros n. cbn [app]. rewrite sort_perm, seed_spec, Hdeg0. case_decide; naive_solver.
    - intros l1 n l2 d H. by destruct l1. }
  { rewrite (Hsize deg []) by done. simpl. lia. }
  exists deg', order. destruct Hinv as [Hd' Hnd Hz Ht].
  rewrite app_nil_r in Hnd. setoid_rewrite app_nil_r in Hz.
  split; [done|]. split; [done|].
  split; [intros n Hn; by apply HN, (Hz n)|].
  split.
  { intros n Hn Hall. apply Hz. split; [by apply HN|].
    apply pending_zero. intros d Hd%HE. by apply Hall. }
  split; [intros l1 n l2 d Heq Hd; eapply Ht; [exact Heq|by apply HE]|].
  rewrite (Hsize deg' order Hd'), <- (size_list_to_set (C := gset bytes)) by done.
  assert (list_to_set order ⊆ N) as Hsub.
  { intros n Hn%elem_of_list_to_set. by apply (Hz n). }
  split.
  - intros Hsz n Hn%HN. assert ((list_to_set order : gset bytes) = N) as Heq.
    { apply set_eq. apply set_subseteq_size_equiv; [done|lia]. }
    rewrite <- Heq in Hn. by apply elem_of_list_to_set in Hn.
  - intros Hall. f_equal. apply set_eq. intros n. rewrite elem_of_list_to_set. split.
    + intros Hn. apply Hsub. by apply elem_of_list_to_set.
    + intros Hn%HN. by apply Hall.
Qed.

Lemma topological_acyclic m l : topological m l -> acyclic m.
Proof.
  intros (Hnd & Hnodes & Ht).
  assert (forall n d, tc (edge m) n d -> forall l1 l2, l = l1 ++ n :: l2 -> d ∈ l1) as Hb.
  { induction 1 as [n d Hd|n y d Hy _ IH]; intros l1 l2 Hl; [by eapply Ht; [exact Hl|exact Hd]|].
    assert (y ∈ l1) as Hy1 by (by eapply Ht; [exact Hl|exact Hy]). apply list_elem_of_split in Hy1 as (l3 & l4 & ->).
    assert (d ∈ l3); [|set_solver]. apply (IH l3 (l4 ++ n :: l2)). by rewrite Hl, <- app_assoc. }
  intros n Hn. assert (n ∈ l) as Hin.
  { apply Hnodes. left.
    assert (exists d, edge m n d) as (d & s & Hs & _) by (inv Hn; eauto). by apply elem_of_dom. }
  apply list_elem_of_split in Hin as (l1 & l2 & Hl). pose proof (Hb n n Hn l1 l2 Hl) as Hin1.
  rewrite Hl in Hnd. apply NoDup_app in Hnd as (_ & Hdis & _). by apply (Hdis n Hin1); left.
Qed.

(** The nodes of a graph, as a list. *)
Lemma nodes_listed entries m :
  enumerates entries m -> exists L : list bytes, forall n, is_node m n -> n ∈ L.
Proof.
  intros (_ & _ & Hedge & Hdom). exists (flat_map op_nodes (ops_of entries)).
  intros n [Hn|[k Hk]]; apply elem_of_op_nodes; [left; by apply Hdom|].
  right. exists k. by apply elem_of_edges, Hedge.
Qed.

Lemma topo_order_in_spec entries m :
  enumerates entries m ->
  (exists l, topo_order_in entries = Some (Ok l) /\ topological m l /\ acyclic m) \/
  (exists e, topo_order_in entries = Some (Err e) /\ ~ acyclic m).
Proof.
  intros Hen. pose proof (topo_loop entries m Hen) as H. unfold topo_order_in.
  destruct (build entries) as [deg dpt].
  destruct H as (deg' & order & -> & Hnd & Hsub & Hclosed & Ht & Hlen). cbn [mbind option_bind].
  destruct (Nat.eqb_spec (length order) (size deg')) as [Heq|Hne]; cbn [negb].
  - left. exists order. split; [done|].
    assert (topological m order) as Htopo.
    { split; [done|]. split; [|done]. intros n. split; [apply Hsub|]. by apply Hlen. }
    split; [done|]. by eapply topological_acyclic.
  - right. eexists. split; [done|]. intros Hac. apply Hne, Hlen.
    destruct (nodes_listed entries m Hen) as [L HL].
    assert (forall n, sn (edge m) n) as Hsn.
    { intros n. apply tc_finite_sn; [intros x; apply Hac|]. exists L. intros d Hd. apply HL.
      right. induction Hd as [x y Hxy|x y z Hxy _ IH]; eauto. }
    intros n. induction (Hsn n) as [n _ IH]. intros Hn. apply Hclosed; [done|].
    intros d Hd. apply IH; [done|]. right. eauto.
Qed.

Lemma enumerates_entries_of m : enumerates (entries_of m) m.
Proof.
  unfold entries_of. split_and!.
  - apply NoDup_fst_map_to_list.
  - intros n l Hl. apply elem_of_map_to_list in Hl. rewrite lookup_fmap in Hl.
    destruct (m !! n) eqn:E; simplify_eq/=. apply NoDup_elements.
  - intros n d. split.
    + intros (s & Hs & Hd). exists (elements s). split; [|by apply elem_of_elements].
      apply elem_of_map_to_list. by rewrite lookup_fmap, Hs.
    + intros (l & Hl & Hd). apply elem_of_map_to_list in Hl. rewrite lookup_fmap in Hl.
      destruct (m !! n) as [s|] eqn:E; simplify_eq/=. exists s. split; [done|]. by apply elem_of_elements.
  - intros n. rewrite elem_of_dom. split.
    + intros [s Hs]. apply list_elem_of_fmap. exists (n, elements s). split; [done|].
      apply elem_of_map_to_list. by rewrite lookup_fmap, Hs.
    + intros ([k l] & -> & Hl)%list_elem_of_fmap. apply elem_of_map_to_list in Hl.
      rewrite lookup_fmap in Hl. simpl. destruct (m !! k) eqn:E; [eauto|done].
Qed.

(** C8 Dependency ordering: whatever order the hash map iterates in, [topo_order]
    terminates without panicking (no missing degree entry, no degree below zero);
    it fails exactly on graphs with a cycle, and otherwise returns every node
    once, each after all of its dependencies. *)
Theorem topo_order_correct (entries : Entries) (m : gmap bytes (gset bytes)) :
  enumerates entries m ->
  (exists l, topo_order_in entries = Some (Ok l) /\ topological m l /\ acyclic m) \/
  (exists e, topo_order_in entries = Some (Err e) /\ ~ acyclic m).
Proof. apply topo_order_in_spec. Qed.

Lemma topo_order_correct_witness :
  let m : gmap bytes (gset bytes) := {[ b!"b" := {[ b!"a" ]}; b!"a" := ∅ ]} in
  (exists l, topo_order_in (entries_of m) = Some (Ok l) /\ topological m l /\ acyclic m) \/
  (exists e, topo_order_in (entries_of m) = Some (Err e) /\ ~ acyclic m).
Proof. intros m. apply (topo_order_correct (entries_of m) m). apply enumerates_entries_of. Defined.

(** ** The registry invariant *)

Record wf (s : Inner) : Prop := {
  wf_acyclic : acyclic (deps s);
  wf_deps : dom (deps s) = components s;
  wf_watchers : dom (watchers s) = components s;
  wf_edges : forall n d, edge (deps s) n d -> d ∈ components s;
}.

(** One operation of the manager; starting and stopping change states only. *)
Inductive mstep : Inner -> Inner -> Prop :=
| ms_register id s : mstep s (register id s)
| ms_unregister id s : mstep s (unregister id s)
| ms_add id d s r s' : add_dependency id d s = Some (r, s') -> mstep s s'
| ms_transition id st s : mstep s (transition id st s).

Lemma acyclic_mono m m' : (forall n d, edge m' n d -> edge m n d) -> acyclic m -> acyclic m'.
Proof.
  intros Hsub Hac n Hn. apply (Hac n). revert Hn. generalize n at 2 4. revert n.
  induction 1 as [x y Hxy|x y z Hxy _ IH]; [by apply tc_once, Hsub|].
  eapply tc_l; [by apply Hsub|done].
Qed.

Lemma topo_order_spec m :
  (exists l, topo_order m = Some (Ok l) /\ topological m l /\ acyclic m) \/
  (exists e, topo_order m = Some (Err e) /\ ~ acyclic m).
Proof. apply topo_order_in_spec, enumerates_entries_of. Qed.

Lemma topo_order_acyclic m :
  acyclic m -> exists l, topo_order m = Some (Ok l) /\ topological m l.
Proof. intros H. destruct (topo_order_spec m) as [(l & ? & ? & _)|(e & _ & ?)]; [eauto|done]. Qed.

Lemma edge_insert m id s n d :
  edge (<[id := s]> m) n d <-> if decide (n = id) then d ∈ s else edge m n d.
Proof.
  unfold edge. case_decide as E; subst.
  - rewrite lookup_insert_eq. naive_solver.
  - by rewrite lookup_insert_ne.
Qed.

Lemma edge_or_insert m id n d : edge (or_insert id ∅ m) n d <-> edge m n d.
Proof.
  unfold edge. rewrite or_insert_lookup. case_decide; [subst|done].
  destruct (m !! id); simpl; split; intros (x & Hx & Hd); simplify_eq; set_solver.
Qed.

Lemma dom_or_insert {A} (id : bytes) (v : A) (m : gmap bytes A) : (dom (or_insert id v m) : gset bytes) = {[id]} ∪ dom m.
Proof.
  apply set_eq. intros n. rewrite elem_of_dom, or_insert_lookup, elem_of_union, elem_of_singleton, elem_of_dom.
  case_decide; naive_solver.
Qed.

Lemma edge_unregister m id n d :
  edge ((fun set => set ∖ {[id]}) <$> delete id m) n d <-> edge m n d /\ n <> id /\ d <> id.
Proof.
  unfold edge. rewrite lookup_fmap. destruct (decide (n = id)) as [->|Hne].
  - rewrite lookup_delete_eq. naive_solver.
  - rewrite lookup_delete_ne by done. destruct (m !! n); simpl; [|naive_solver].
    split; [intros (x & Hx & Hd)|intros ((x & Hx & Hd) & _ & Hn)]; simplify_eq; [|eexists; split; [done|]]; set_solver.
Qed.

(** The whole behaviour of [add_dependency] on a well-formed registry. *)
Lemma add_dependency_spec id d s :
  wf s ->
  let g := <[id := {[d]} ∪ default ∅ (deps s !! id)]> (deps s) in
  (id ∉ components s /\ add_dependency id d s = Some (Err (ComponentNotFound id), s)) \/
  (id ∈ components s /\ d ∉ components s /\ add_dependency id d s = Some (Err (ComponentNotFound d), s)) \/
  (id ∈ components s /\ d ∈ components s /\ acyclic g /\
     add_dependency id d s = Some (Ok tt, mkInner (components s) g (watchers s))) \/
  (id ∈ components s /\ d ∈ components s /\ ~ acyclic g /\
     add_dependency id d s = Some (Err (CyclicDependency (id ++ b!" -> " ++ d)), s)).
Proof.
  intros Hwf g. unfold add_dependency. fold g.
  case_bool_decide as Hid; cbn [negb]; [|by left].
  case_bool_decide as Hd; cbn [negb]; [|by right; left].
  right; right. destruct (topo_order_spec g) as [(l & -> & _ & Hac)|(e & -> & Hnac)]; cbn [mbind option_bind].
  - left. done.
  - right. split_and!; [done|done|done|]. do 2 f_equal. destruct s as [cs ds ws]. cbn in *. f_equal.
    assert (exists x, ds !! id = Some x) as [x Hx].
    { apply elem_of_dom. destruct Hwf as [_ Hdom _ _]. cbn in *. by rewrite Hdom. }
    subst g. rewrite Hx in *. simpl in *. rewrite alter_insert_eq.
    replace (({[d]} ∪ x) ∖ {[d]}) with x; [by apply insert_id|].
    assert (d ∉ x) as Hdx; [|set_solver]. intros Hin. apply Hnac. eapply acyclic_mono; [|apply Hwf].
    intros n k. rewrite edge_insert. case_decide; [subst|done]. intros Hk. exists x. split; [done|set_solver].
Qed.

Lemma wf_new : wf new.
Proof.
  constructor; cbn.
  - intros n Hn. inv Hn; [|]; destruct H as (? & ? & _); set_solver.
  - set_solver.
  - set_solver.
  - intros n d (s & Hs & _). set_solver.
Qed.

Lemma wf_step s s' : mstep s s' -> wf s -> wf s'.
Proof.
  intros [id s0|id s0|id d s0 r s1 Hadd|id st s0] Hwf; destruct Hwf as [Hac Hd Hw He] eqn:Ewf.
  - constructor; cbn.
    + eapply acyclic_mono; [|exact Hac]. intros n d. by rewrite edge_or_insert.
    + by rewrite dom_or_insert, Hd.
    + rewrite dom_insert_L. set_solver.
    + intros n d. rewrite edge_or_insert. intros H%He. set_solver.
  - constructor; cbn.
    + eapply acyclic_mono; [|exact Hac]. intros n d. rewrite edge_unregister. naive_solver.
    + rewrite dom_fmap_L, dom_delete_L. set_solver.
    + rewrite dom_delete_L. set_solver.
    + intros n d. rewrite edge_unregister. intros (H%He & _ & ?). set_solver.
  - destruct (add_dependency_spec id d s0) as [[_ H]|[(_ & _ & H)|[(Hid & Hdc & Hg & H)|(_ & _ & _ & H)]]];
      [done|rewrite H in Hadd; simplify_eq; done..| |rewrite H in Hadd; simplify_eq; done].
    rewrite H in Hadd. simplify_eq. constructor; cbn [components deps watchers]; [done| |done|].
    + rewrite dom_insert_L. set_solver.
    + intros n k. rewrite edge_insert. case_decide as Hn; [subst|apply He].
      rewrite elem_of_union, elem_of_singleton. intros [->|Hk]; [done|].
      destruct (deps s0 !! id) as [x|] eqn:Ex; [|set_solver]. apply (He id). exists x. done.
  - constructor; cbn; [done|done| |done]. by rewrite dom_alter_L.
Qed.

Lemma reachable_wf s : rtc mstep new s -> wf s.
Proof.
  assert (forall a, rtc mstep a s -> wf a -> wf s) as H.
  { induction 1 as [|a b c Hab _ IH]; [done|]. intros Ha. apply IH. by eapply wf_step. }
  intros Hr. eapply H; [exact Hr|apply wf_new].
Qed.

(** C16 Registry invariant: after any sequence of registrations, removals, dependency
    declarations and state changes the dependency graph is acyclic and closed over
    the registered components, so ordering never fails; and declaring a dependency
    between registered components succeeds exactly when the graph stays acyclic,
    and changes nothing when it does not. *)
Theorem registry_acyclic (s : Inner) (id d : bytes) :
  rtc mstep new s -> id ∈ components s -> d ∈ components s ->
  let g := <[id := {[d]} ∪ default ∅ (deps s !! id)]> (deps s) in
  wf s /\ (exists order, topo_order (deps s) = Some (Ok order) /\ topological (deps s) order) /\
  exists r s', add_dependency id d s = Some (r, s') /\
    (r = Ok tt /\ acyclic g /\ s' = mkInner (components s) g (watchers s) \/
     r = Err (CyclicDependency (id ++ b!" -> " ++ d)) /\ ~ acyclic g /\ s' = s).
Proof.
  intros Hr Hid Hd g. pose proof (reachable_wf s Hr) as Hwf. split; [done|].
  split; [apply topo_order_acyclic, Hwf|].
  destruct (add_dependency_spec id d s Hwf) as [[? H]|[(_ & ? & H)|[(_ & _ & Hg & H)|(_ & _ & Hg & H)]]];
    [done|done|..]; rewrite H; do 2 eexists; (split; [done|]); [left|right]; done.
Qed.

Lemma registry_acyclic_witness :
  exists r s', add_dependency (b!"a") (b!"b") (register (b!"b") (register (b!"a") new)) = Some (r, s').
Proof.
  destruct (registry_acyclic (register (b!"b") (register (b!"a") new)) (b!"a") (b!"b"))
    as (_ & _ & r & s' & H & _).
  - eapply rtc_l; [apply ms_register|]. eapply rtc_l; [apply ms_register|apply rtc_refl].
  - vm_compute. set_solver.
  - vm_compute. set_solver.
  - exists r, s'. exact H.
Defined.

(** ** Closures *)

Section Closure.
Context (next : bytes -> list bytes) (U : list bytes).
Context (U_nodup : NoDup U) (next_U : forall n, n ∉ U -> next n = []).

Definition weight (seen : gset bytes) : nat :=
  sum_list_with (fun n => if decide (n ∈ seen) then 0%nat else length (next n)) U.

Lemma weight_insert n seen :
  n ∉ seen -> weight seen = (weight ({[n]} ∪ seen) + length (next n))%nat.
Proof using U_nodup next_U.
  intros Hn. destruct (decide (n ∈ U)) as [Hin|Hout].
  - unfold weight. clear next_U. induction U as [|x l IH]; [set_solver|]. inv U_nodup. cbn [sum_list_with].
    apply elem_of_cons in Hin as [->|Hin].
    + rewrite decide_False by done. rewrite (decide_True (P := x ∈ {[x]} ∪ seen)) by set_solver.
      enough (sum_list_with (fun n => if decide (n ∈ seen) then 0%nat else length (next n)) l =
        sum_list_with (fun n => if decide (n ∈ {[x]} ∪ seen) then 0%nat else length (next n)) l) by lia.
      clear IH H2. induction l as [|y l IH]; [done|]. cbn [sum_list_with].
      rewrite IH by set_solver. f_equal. destruct (decide (y ∈ seen)); [by rewrite decide_True by set_solver|].
      by rewrite decide_False by set_solver.
    + assert (x <> n) by (intros ->; done). rewrite (IH H2 Hin).
      destruct (decide (x ∈ seen)); [rewrite decide_True by set_solver|rewrite decide_False by set_solver]; lia.
  - rewrite (next_U n Hout). simpl. rewrite Nat.add_0_r. unfold weight.
    clear U_nodup next_U. induction U as [|x l IH]; [done|]. cbn [sum_list_with].
    rewrite IH by set_solver. f_equal. destruct (decide (x ∈ seen)); [by rewrite decide_True by set_solver|].
    by rewrite decide_False by set_solver.
Qed.

Lemma closure_spec fuel : forall seen stack,
  (weight seen + length stack < fuel)%nat ->
  (forall x y, x ∈ seen -> y ∈ next x -> y ∈ seen \/ y ∈ stack) ->
  exists S, closure fuel next seen stack = Some S /\ seen ⊆ S /\ (forall x, x ∈ stack -> x ∈ S) /\
    (forall x y, x ∈ S -> y ∈ next x -> y ∈ S) /\
    (forall x, x ∈ S -> x ∈ seen \/ exists y, y ∈ stack /\ rtc (fun a b => b ∈ next a) y x).
Proof using U_nodup next_U.
  induction fuel as [|fuel IH]; intros seen stack Hf Hinv; [lia|]. cbn [closure].
  destruct stack as [|n stack _] using rev_ind.
  { exists seen. split_and!; [done|done|set_solver| |auto]. intros x y Hx Hy.
    destruct (Hinv x y Hx Hy); [done|set_solver]. }
  rewrite rev_app_distr. cbn [rev app]. rewrite rev_involutive. rewrite length_app in Hf. simpl in Hf.
  destruct (decide (n ∈ seen)) as [Hn|Hn].
  - destruct (IH seen stack) as (S & HS & Hs & Hst & Hcl & Hmin); [lia| |].
    { intros x y Hx Hy. destruct (Hinv x y Hx Hy); [auto|]. set_solver. }
    exists S. split_and!; [done|done| |done|].
    + intros x [Hx|Hx%list_elem_of_singleton]%elem_of_app; [auto|subst; auto].
    + intros x Hx. destruct (Hmin x Hx) as [|(y & Hy & Hr)]; [auto|]. right. exists y. set_solver.
  - destruct (IH ({[n]} ∪ seen) (stack ++ next n)) as (S & HS & Hs & Hst & Hcl & Hmin).
    { rewrite length_app. rewrite (weight_insert n seen Hn) in Hf. lia. }
    { intros x y [->%elem_of_singleton|Hx]%elem_of_union Hy; [set_solver|].
      destruct (Hinv x y Hx Hy) as [Hy1|Hy1]; [set_solver|].
      apply elem_of_app in Hy1 as [Hy1| ->%list_elem_of_singleton]; set_solver. }
    exists S. split_and!; [done|set_solver| |done|].
    + intros x [Hx| ->%list_elem_of_singleton]%elem_of_app; [apply Hst; set_solver|set_solver].
    + intros x Hx. destruct (Hmin x Hx) as [Hx1|(y & Hy & Hr)].
      1: apply elem_of_union in Hx1 as [->%elem_of_singleton|Hx1].
      3: apply elem_of_app in Hy as [Hy|Hy].
      * right. exists n. split; [set_solver|apply rtc_refl].
      * by left.
      * right. exists y. split; [set_solver|done].
      * right. exists n. split; [set_solver|]. by eapply rtc_l.
Qed.

Lemma closure_reach fuel id :
  (weight ∅ + 1 < fuel)%nat ->
  exists S, closure fuel next ∅ [id] = Some S /\
    forall x, x ∈ S <-> rtc (fun a b => b ∈ next a) id x.
Proof using U_nodup next_U.
  intros Hf. destruct (closure_spec fuel ∅ [id]) as (S & HS & _ & Hst & Hcl & Hmin);
    [simpl; lia|set_solver|].
  exists S. split; [done|]. intros x. split.
  - intros Hx. destruct (Hmin x Hx) as [|(y & ->%list_elem_of_singleton & Hr)]; [set_solver|done].
  - assert (forall a, rtc (fun a b => b ∈ next a) a x -> a ∈ S -> x ∈ S) as H.
    { induction 1 as [|a b c Hab _ IH]; [done|]. intros Ha. apply IH. by eapply Hcl. }
    intros Hr. apply (H id Hr). apply Hst. set_solver.
Qed.

End Closure.

Lemma weight_empty next U : weight next U ∅ = sum_list_with (fun n => length (next n)) U.
Proof. induction U as [|x l IH]; [done|]. unfold weight in *. cbn [sum_list_with]. rewrite IH. done. Qed.

Lemma elem_of_node_list m n : n ∈ node_list m <-> is_node m n.
Proof.
  unfold node_list, is_node, edge. rewrite elem_of_elements, elem_of_union, elem_of_union_list.
  split; (intros [H|H]; [by left|right]).
  - destruct H as (X & HX & Hn). apply list_elem_of_fmap in HX as ([k s] & -> & Hk).
    apply elem_of_map_to_list in Hk. eauto.
  - destruct H as (k & s & Hs & Hn). exists s. split; [|done].
    apply list_elem_of_fmap. exists (k, s). split; [done|]. by apply elem_of_map_to_list.
Qed.

Lemma closure_of_next next m id :
  (forall n, next n <> [] -> is_node m n) ->
  exists S, closure (closure_fuel next m) next ∅ [id] = Some S /\
    forall x, x ∈ S <-> rtc (fun a b => b ∈ next a) id x.
Proof.
  intros Hn. apply (closure_reach next (node_list m)).
  - unfold node_list. apply NoDup_elements.
  - intros n Hout. rewrite elem_of_node_list in Hout.
    destruct (next n) eqn:E; [done|]. destruct Hout. apply Hn. by rewrite E.
  - rewrite weight_empty. unfold closure_fuel. lia.
Qed.

Lemma elem_of_deps_next m n d : d ∈ deps_next m n <-> edge m n d.
Proof.
  unfold deps_next, edge. destruct (m !! n) as [s|]; [rewrite elem_of_elements; naive_solver|].
  split; [set_solver|naive_solver].
Qed.

Lemma elem_of_dependents_next m n k : k ∈ dependents_next m n <-> edge m k n.
Proof.
  unfold dependents_next, edge. rewrite list_elem_of_fmap. split.
  - intros ([j s] & -> & Hin). apply elem_of_list_filter' in Hin as [Hj Hn].
    apply elem_of_map_to_list in Hj. apply bool_decide_eq_true in Hn. simpl in *. eauto.
  - intros (s & Hs & Hn). exists (k, s). split; [done|]. apply elem_of_list_filter'.
    split; [by apply elem_of_map_to_list|by apply bool_decide_eq_true].
Qed.

Lemma rtc_iff {A} (R R' : A -> A -> Prop) x y :
  (forall a b, R a b <-> R' a b) -> rtc R x y <-> rtc R' x y.
Proof.
  intros H. split; induction 1 as [|a b c Hab _ IH]; [apply rtc_refl| |apply rtc_refl|];
    (eapply rtc_l; [by apply H|done]).
Qed.

Lemma rtc_reverse {A} (R R' : A -> A -> Prop) x y :
  (forall a b, R a b <-> R' b a) -> rtc R x y <-> rtc R' y x.
Proof.
  intros H. split; induction 1 as [|a b c Hab _ IH]; [apply rtc_refl| |apply rtc_refl|];
    (eapply rtc_r; [done|by apply H]).
Qed.

Lemma dependency_closure_spec m id :
  exists S, dependency_closure m id = Some S /\ forall x, x ∈ S <-> rtc (edge m) id x.
Proof.
  destruct (closure_of_next (deps_next m) m id) as (S & HS & Hx).
  { intros n Hn. left. unfold deps_next in Hn. apply elem_of_dom. destruct (m !! n); [eauto|done]. }
  exists S. split; [done|]. intros x. rewrite Hx. apply rtc_iff. intros a b. apply elem_of_deps_next.
Qed.

Lemma dependent_closure_spec m id :
  exists S, dependent_closure m id = Some S /\ forall x, x ∈ S <-> rtc (edge m) x id.
Proof.
  destruct (closure_of_next (dependents_next m) m id) as (S & HS & Hx).
  { intros n Hn. destruct (dependents_next m n) as [|k l] eqn:E; [done|]. right. exists k.
    apply elem_of_dependents_next. rewrite E. set_solver. }
  exists S. split; [done|]. intros x. rewrite Hx. apply rtc_reverse.
  intros a b. apply elem_of_dependents_next.
Qed.

(** ** Starting and stopping in order *)

Lemma transition_lookup id st s n :
  watchers (transition id st s) !! n =
  if decide (n = id) then (fun _ => st) <$> watchers s !! n else watchers s !! n.
Proof.
  unfold transition. cbn [watchers]. case_decide; subst.
  - apply lookup_alter_eq.
  - by apply lookup_alter_ne.
Qed.

(** Every element of [l] comes after what [R] relates it to, given that [l0] has
    been handled before. *)
Definition after (R : bytes -> bytes -> Prop) (l0 l : list bytes) : Prop :=
  forall l1 n l2 d, l = l1 ++ n :: l2 -> R n d -> d ∈ l0 ++ l1.

Lemma after_tail R l0 n l : after R l0 (n :: l) -> after R (l0 ++ [n]) l.
Proof. intros H l1 k l2 d -> Hd. rewrite <- app_assoc. by apply (H (n :: l1) k l2 d). Qed.

Lemma after_head R l0 n l d : after R l0 (n :: l) -> R n d -> d ∈ l0.
Proof. intros H Hd. rewrite <- (app_nil_r l0). by apply (H [] n l d). Qed.

(** The components of a sweep are registered and distinct. *)
Definition sweepable (s : Inner) (l0 l : list bytes) : Prop :=
  NoDup (l0 ++ l) /\ forall n, n ∈ l -> n ∈ components s /\ is_Some (watchers s !! n).

Lemma sweepable_tail s l0 n l st :
  sweepable s l0 (n :: l) -> sweepable (transition n st s) (l0 ++ [n]) l.
Proof.
  intros [Hnd Hc]. split; [by rewrite <- app_assoc|]. intros k Hk.
  destruct (Hc k) as [H1 H2]; [set_solver|]. split; [done|].
  rewrite transition_lookup. case_decide; [by destruct H2 as [? ->]|done].
Qed.

Lemma sweepable_skip s l0 n l : sweepable s l0 (n :: l) -> sweepable s (l0 ++ [n]) l.
Proof. intros [Hnd Hc]. split; [by rewrite <- app_assoc|]. intros k Hk. apply Hc. set_solver. Qed.

Lemma sweepable_fresh s l0 n l : sweepable s l0 (n :: l) -> n ∉ l0 /\ n ∉ l.
Proof.
  intros [Hnd _]. apply NoDup_app in Hnd as (_ & Hd & Hl). inv Hl.
  split; [intros Hin; apply (Hd n Hin); set_solver|done].
Qed.

Section SweepProofs.
Context (start_result : bytes -> Result unit LifecycleError)
        (stop_result : bytes -> option (Result unit LifecycleError)).

Definition running (s : Inner) (x : bytes) : Prop := watchers s !! x = Some Running.
Definition halted (s : Inner) (x : bytes) : Prop :=
  watchers s !! x = Some Stopped \/ watchers s !! x = Some Unknown.

(** What a start sweep over [l] did: the calls in order, each with all
    dependencies running, and the outcome. *)
Definition started (m : gmap bytes (gset bytes)) (l : list bytes) (log : Log)
  (r : Result unit LifecycleError) (s' : Inner) : Prop :=
  (exists called, sublist called l /\ map fst log = map CallStart called) /\
  (forall n st, (CallStart n, st) ∈ log -> forall d, edge m n d -> running st d) /\
  (forall e, r = Err e -> exists n, n ∈ l /\ start_result n = Err e /\ watchers s' !! n = Some Error).

(** The state a component's own call leaves behind. *)
Lemma two_transitions n st1 st2 s w x :
  watchers s !! n = Some w ->
  watchers (transition n st2 (transition n st1 s)) !! x =
  if decide (x = n) then Some st2 else watchers s !! x.
Proof using Type.
  clear start_result stop_result.
  intros Hw. rewrite !transition_lookup. repeat case_decide; [|done]. subst. by rewrite Hw.
Qed.

Lemma start_one_cases n s log :
  n ∈ components s -> is_Some (watchers s !! n) -> watchers s !! n <> Some Starting ->
  (running s n /\ start_one start_result n s log = (Ok tt, s, log)) \/
  let s1 := transition n Starting s in
  start_one start_result n s log =
    (start_result n, match start_result n with Ok _ => transition n Running s1 | Err _ => transition n Error s1 end,
     log ++ [(CallStart n, s1)]).
Proof using start_result.
  clear stop_result.
  intros Hc [w Hw] Hq. unfold start_one, running. rewrite (bool_decide_true _ Hc), Hw. cbn [negb].
  destruct (decide (w = Running)) as [->|Hne]; [by left|right].
  destruct w; try done; cbn [negb]; by destruct (start_result n) as [[]|].
Qed.

Lemma stop_one_cases n s log :
  n ∈ components s -> is_Some (watchers s !! n) ->
  (halted s n /\ stop_one stop_result n s log = (Some (Ok tt), s, log)) \/
  ~ halted s n /\ let s1 := transition n Stopping s in
  stop_one stop_result n s log =
    (stop_result n,
     match stop_result n with
     | None => s1
     | Some (Ok _) => transition n Stopped s1
     | Some (Err _) => transition n Error s1
     end, log ++ [(CallStop n, s1)]).
Proof using stop_result.
  clear start_result.
  intros Hc [w Hw]. unfold stop_one, halted. rewrite (bool_decide_true _ Hc), Hw. cbn [negb default].
  change (id w) with w. destruct (decide (w = Stopped \/ w = Unknown)) as [Hh|Hh].
  - left. destruct Hh as [->| ->]; [rewrite bool_decide_true by done|
      rewrite orb_comm, bool_decide_true by done]; cbn [orb]; auto.
  - right. split; [naive_solver|]. rewrite !bool_decide_false by naive_solver. cbn [orb].
    by destruct (stop_result n) as [[[]|]|].
Qed.

(** After the call of [n] the rest of a sweep has the same preconditions. *)
Lemma sweep_advance n st1 st2 l0 l s :
  sweepable s l0 (n :: l) ->
  sweepable (transition n st2 (transition n st1 s)) (l0 ++ [n]) l /\
  (forall x, x ∈ l0 \/ x ∈ l -> watchers (transition n st2 (transition n st1 s)) !! x = watchers s !! x) /\
  watchers (transition n st2 (transition n st1 s)) !! n = Some st2.
Proof using Type.
  clear start_result stop_result.
  intros Hsw. destruct (sweepable_fresh _ _ _ _ Hsw) as [Hn0 Hnl].
  destruct (proj2 Hsw n) as [_ [w Hw]]; [set_solver|]. split_and!.
  - pose proof (sweepable_tail s l0 n l st2 Hsw) as [H1 H2]. split; [done|].
    intros k Hk. destruct (H2 k Hk) as [H3 H4]. split; [done|].
    rewrite (two_transitions _ _ _ _ w) by done. rewrite transition_lookup in H4.
    case_decide; [by eexists|done].
  - intros x Hx. rewrite (two_transitions _ _ _ _ w), decide_False by (done || naive_solver). done.
  - by rewrite (two_transitions _ _ _ _ w), decide_True.
Qed.

Lemma start_each_spec m l : forall l0 s log,
  sweepable s l0 l -> after (edge m) l0 l -> Forall (running s) l0 ->
  (forall x, x ∈ l -> watchers s !! x <> Some Starting) ->
  exists r s' log', start_each start_result l s log = (r, s', log ++ log') /\
    started m l log' r s' /\ (r = Ok tt -> Forall (running s') (l0 ++ l)).
Proof using start_result.
  clear stop_result.
  induction l as [|n l IH]; intros l0 s log Hsw Haf Hrun Hq; cbn [start_each].
  { exists (Ok tt), s, []. rewrite !app_nil_r. split_and!; [done| |done].
    split_and!; [by exists []|set_solver|done]. }
  destruct (sweepable_fresh _ _ _ _ Hsw) as [Hn0 Hnl].
  destruct (proj2 Hsw n) as [Hc Hw]; [set_solver|].
  destruct (start_one_cases n s log Hc Hw) as [[Hr ->]| ->]; [apply Hq; set_solver| |].
  - destruct (IH (l0 ++ [n]) s log) as (r & s' & log' & Hr' & ((called & Hsub & Hmap) & Hdep & Herr) & Hok).
    { by apply sweepable_skip. }
    { by apply after_tail. }
    { apply Forall_app. split; [done|by constructor]. }
    { intros x Hx. apply Hq. set_solver. }
    exists r, s', log'. split; [done|]. rewrite <- app_assoc in Hok. split; [|done].
    split_and!; [exists called; split; [by apply sublist_cons|done]|done|].
    intros e He. destruct (Herr e He) as (k & ? & ?). exists k. set_solver.
  - set (s1 := transition n Starting s).
    assert (forall d, edge m n d -> running s1 d) as Hd1.
    { intros d Hd. pose proof (after_head _ _ _ _ _ Haf Hd) as Hin. unfold running, s1.
      rewrite transition_lookup, decide_False by (intros ->; done).
      rewrite Forall_forall in Hrun. by apply Hrun. }
    destruct (start_result n) as [[]|e] eqn:Es.
    + destruct (sweep_advance n Starting Running l0 l s Hsw) as (Hsw' & Hsame & Hnew).
      destruct (IH (l0 ++ [n]) (transition n Running s1) (log ++ [(CallStart n, s1)]))
        as (r & s' & log' & Hr & ((called & Hsub & Hmap) & Hdep & Herr) & Hok).
      { done. }
      { by apply after_tail. }
      { rewrite Forall_forall in Hrun. apply Forall_forall. unfold running in *.
        intros x [Hx| ->%list_elem_of_singleton]%elem_of_app; [|done].
        unfold s1. rewrite Hsame by auto. by apply Hrun. }
      { intros x Hx. unfold s1. rewrite Hsame by auto. apply Hq. set_solver. }
      exists r, s', ((CallStart n, s1) :: log'). rewrite Hr, <- app_assoc.
      rewrite <- app_assoc in Hok. split; [done|]. split; [|done]. split_and!.
      * exists (n :: called). split; [by apply sublist_skip|]. cbn [map fst]. by rewrite Hmap.
      * intros k st [Heq|Hin]%elem_of_cons; [simplify_eq; done|by eapply Hdep].
      * intros e He. destruct (Herr e He) as (k & ? & ?). exists k. set_solver.
    + exists (Err e), (transition n Error s1), [(CallStart n, s1)]. split; [done|]. split; [|done].
      split_and!.
      * exists [n]. split; [|done]. apply sublist_skip, sublist_nil_l.
      * intros k st Hin%list_elem_of_singleton. by simplify_eq.
      * intros e' [= <-]. exists n. split_and!; [set_solver|done|]. by apply sweep_advance with (l0 := l0) (l := l).
Qed.

(** What a stop sweep did: the calls in order, each with every dependent halted. *)
Definition stopped (m : gmap bytes (gset bytes)) (l : list bytes) (log : Log) : Prop :=
  (exists called, sublist called l /\ map fst log = map CallStop called) /\
  (forall n st, (CallStop n, st) ∈ log -> forall k, edge m k n -> halted st k).

Lemma stop_each_spec m l : forall l0 s log,
  sweepable s l0 l -> after (flip (edge m)) l0 l -> Forall (halted s) l0 ->
  exists r s' log', stop_each stop_result l s log = (r, s', log ++ log') /\
    stopped m l log' /\ (r = Some (Ok tt) -> Forall (halted s') (l0 ++ l)) /\
    (r <> Some (Ok tt) -> exists n, n ∈ l /\ stop_result n = r).
Proof using stop_result.
  clear start_result.
  induction l as [|n l IH]; intros l0 s log Hsw Haf Hrun; cbn [stop_each].
  { exists (Some (Ok tt)), s, []. rewrite !app_nil_r. split_and!; [done| |done|done].
    split_and!; [by exists []|set_solver]. }
  destruct (sweepable_fresh _ _ _ _ Hsw) as [Hn0 Hnl].
  destruct (proj2 Hsw n) as [Hc Hw]; [set_solver|].
  destruct (stop_one_cases n s log Hc Hw) as [[Hr ->]|[_ ->]].
  - destruct (IH (l0 ++ [n]) s log) as (r & s' & log' & Hr' & ((called & Hsub & Hmap) & Hdep) & Hok & Herr).
    { by apply sweepable_skip. }
    { by apply after_tail. }
    { apply Forall_app. split; [done|by constructor]. }
    exists r, s', log'. split; [done|]. rewrite <- app_assoc in Hok. split_and!; [|done|].
    + split; [exists called; split; [by apply sublist_cons|done]|done].
    + intros He. destruct (Herr He) as (k & ? & ?). exists k. set_solver.
  - set (s1 := transition n Stopping s).
    assert (forall k, edge m k n -> halted s1 k) as Hd1.
    { intros k Hk. pose proof (after_head _ _ _ _ _ Haf Hk) as Hin. unfold halted, s1.
      rewrite transition_lookup, decide_False by (intros ->; done).
      rewrite Forall_forall in Hrun. by apply Hrun. }
    assert (stopped m (n :: l) [(CallStop n, s1)]) as Hone.
    { split; [exists [n]; split; [apply sublist_skip, sublist_nil_l|done]|].
      intros k st Hin%list_elem_of_singleton. by simplify_eq. }
    destruct (stop_result n) as [[[]|e]|] eqn:Es.
    + destruct (sweep_advance n Stopping Stopped l0 l s Hsw) as (Hsw' & Hsame & Hnew).
      destruct (IH (l0 ++ [n]) (transition n Stopped s1) (log ++ [(CallStop n, s1)]))
        as (r & s' & log' & Hr & ((called & Hsub & Hmap) & Hdep) & Hok & Herr).
      { done. }
      { by apply after_tail. }
      { rewrite Forall_forall in Hrun. apply Forall_forall. unfold halted in *.
        intros x [Hx| ->%list_elem_of_singleton]%elem_of_app; [|by left].
        unfold s1. rewrite Hsame by auto. by apply Hrun. }
      exists r, s', ((CallStop n, s1) :: log'). rewrite Hr, <- app_assoc.
      rewrite <- app_assoc in Hok. split; [done|]. split_and!; [|done|].
      * split; [exists (n :: called); split; [by apply sublist_skip|cbn [map fst]; by rewrite Hmap]|].
        intros k st [Heq|Hin]%elem_of_cons; [simplify_eq; done|by eapply Hdep].
      * intros He. destruct (Herr He) as (k & ? & ?). exists k. set_solver.
    + eexists _, _, _. split_and!; [done|done|done|]. intros _. exists n. set_solver.
    + eexists _, _, _. split_and!; [done|done|done|]. intros _. exists n. set_solver.
Qed.

End SweepProofs.

Lemma topological_sweepable s l : wf s -> topological (deps s) l -> sweepable s [] l.
Proof.
  intros Hwf (Hnd & Hn & _). split; [done|]. intros n Hin.
  assert (n ∈ components s) as Hc.
  { apply Hn in Hin as [Hin|[k Hk]]; [by rewrite <- (wf_deps s Hwf)|by eapply (wf_edges s Hwf)]. }
  split; [done|]. apply elem_of_dom. by rewrite (wf_watchers s Hwf).
Qed.

Lemma topological_after m l : topological m l -> after (edge m) [] l.
Proof. intros (_ & _ & Ht) l1 n l2 d Hl Hd. by apply (Ht l1 n l2). Qed.

Lemma topological_before m l : topological m l -> after (flip (edge m)) [] (rev l).
Proof.
  intros (Hnd & Hn & Ht) l1 n l2 k Hl Hk. unfold flip in Hk. cbn [app].
  apply (f_equal (@rev _)) in Hl. rewrite rev_involutive, rev_app_distr in Hl. cbn [rev] in Hl.
  rewrite <- app_assoc in Hl. cbn [app] in Hl.
  assert (k ∈ l) as Hkl by (apply Hn; left; destruct Hk as (x & Hx & _); by apply elem_of_dom).
  assert (k ∈ rev l1) as Hr; [|by rewrite list_elem_of_In, <- in_rev, <- list_elem_of_In in Hr].
  rewrite Hl in Hkl. apply elem_of_app in Hkl as [Hin|[->|?]%elem_of_cons]; [exfalso|exfalso|done].
  - apply list_elem_of_split in Hin as (a & b & Hab). rewrite Hab, <- app_assoc in Hl. cbn [app] in Hl.
    pose proof (Ht a k _ n Hl Hk) as Hna. rewrite Hl in Hnd.
    apply NoDup_app in Hnd as (_ & Hd & _). apply (Hd n Hna). set_solver.
  - pose proof (Ht (rev l2) n _ n Hl Hk) as Hna. rewrite Hl in Hnd.
    apply NoDup_app in Hnd as (_ & Hd & _). apply (Hd n Hna). set_solver.
Qed.

Lemma filter_split {A} (f : A -> bool) l l1 n l2 :
  List.filter f l = l1 ++ n :: l2 -> exists a b, l = a ++ n :: b /\ List.filter f a = l1.
Proof.
  revert l1. induction l as [|x l IH]; intros l1 H; simpl in H; [by destruct l1|].
  destruct (f x) eqn:E.
  - destruct l1 as [|y l1]; simplify_eq/=.
    + exists [], l. done.
    + destruct (IH l1) as (a & b & -> & <-); [done|]. exists (y :: a), b. simpl. by rewrite E.
  - destruct (IH l1 H) as (a & b & -> & <-). exists (x :: a), b. simpl. by rewrite E.
Qed.

(** A sub-sweep closed under [R] keeps the order. *)
Lemma after_filter R l (f : bytes -> bool) :
  after R [] l -> (forall n d, f n = true -> R n d -> f d = true) -> after R [] (List.filter f l).
Proof.
  intros Haf Hcl l1 n l2 d Hl Hd. assert (f n = true) as Hfn.
  { assert (n ∈ List.filter f l) as Hin by (rewrite Hl; set_solver).
    by apply elem_of_list_filter' in Hin as [_ ?]. }
  destruct (filter_split f l l1 n l2 Hl) as (a & b & -> & <-). cbn [app].
  apply elem_of_list_filter'. split; [|by eapply Hcl]. by apply (Haf a n b d).
Qed.

Lemma sweepable_filter s l (f : bytes -> bool) : sweepable s [] l -> sweepable s [] (List.filter f l).
Proof.
  intros [Hnd Hc]. split.
  - cbn [app] in *. clear Hc. induction Hnd as [|x l Hx _ IH]; simpl; [constructor|].
    destruct (f x); [|done]. constructor; [|done]. intros Hin.
    by apply elem_of_list_filter' in Hin as [? _].
  - intros n Hin. apply Hc. by apply elem_of_list_filter' in Hin as [? _].
Qed.

Lemma filter_rev {A} (f : A -> bool) l : List.filter f (rev l) = rev (List.filter f l).
Proof.
  induction l as [|x l IH]; [done|]. simpl. rewrite List.filter_app, IH. simpl.
  destruct (f x); simpl; [done|by rewrite app_nil_r].
Qed.

(** ** One caller's operations *)

(** The manager's operations, each of them run to its end before the next begins, with whatever the components' own
    [start] and [stop] answer; [stop_all_with_timeout] ends also when a component's [stop] does not. *)
Inductive operation : Inner -> Inner -> Prop :=
| op_register id s : operation s (register id s)
| op_unregister id s : operation s (unregister id s)
| op_add_dependency id d s r s' : add_dependency id d s = Some (r, s') -> operation s s'
| op_start f id s r s' log : start f id s = Some (r, s', log) -> operation s s'
| op_start_all f s r s' log : start_all f s = Some (r, s', log) -> operation s s'
| op_stop g id s r s' log : stop g id s = Some (Some r, s', log) -> operation s s'
| op_stop_all g s r s' log : stop_all g s = Some (Some r, s', log) -> operation s s'
| op_shutdown g s r s' log : stop_all_with_timeout g s = Some (r, s', log) -> operation s s'.

(** No start is in progress. *)
Definition quiet (s : Inner) : Prop := forall x, watchers s !! x <> Some Starting.

(** What operations do: they are steps of the manager and leave no start in progress. *)
Definition settles (s s' : Inner) : Prop := rtc mstep s s' /\ (quiet s -> quiet s').

Lemma settles_refl s : settles s s.
Proof. by split; [apply rtc_refl|]. Qed.

Lemma settles_trans s1 s2 s3 : settles s1 s2 -> settles s2 s3 -> settles s1 s3.
Proof. intros [H1 H2] [H3 H4]. split; [by etransitivity|auto]. Qed.

Lemma settles_transition n st s : st <> Starting -> settles s (transition n st s).
Proof.
  intros Hst. split; [eapply rtc_once, ms_transition|]. intros Hq x. rewrite transition_lookup. case_decide; [|apply Hq].
  destruct (watchers s !! x); [|done]. cbn. congruence.
Qed.

Lemma settles_two n st1 st2 s : st2 <> Starting -> settles s (transition n st2 (transition n st1 s)).
Proof.
  intros Hst. split; [eapply rtc_l; [apply ms_transition|eapply rtc_once, ms_transition]|]. intros Hq x.
  rewrite !transition_lookup. case_decide; [|apply Hq]. destruct (watchers s !! x); [|done]. cbn. congruence.
Qed.

Lemma start_one_settles f n s log r s' log' : start_one f n s log = (r, s', log') -> settles s s'.
Proof.
  unfold start_one. destruct (negb (bool_decide (n ∈ components s))); [intros [= _ <- _]; apply settles_refl|].
  destruct (negb _); [intros [= _ <- _]; apply settles_refl|].
  destruct (f n); intros [= _ <- _]; by apply settles_two.
Qed.

Lemma stop_one_settles g n s log r s' log' : stop_one g n s log = (r, s', log') -> settles s s'.
Proof.
  unfold stop_one. destruct (negb _); [intros [= _ <- _]; apply settles_refl|].
  destruct (_ || _); [intros [= _ <- _]; apply settles_refl|].
  destruct (g n) as [[u|e]|]; intros [= _ <- _]; [by apply settles_two..|by apply settles_transition].
Qed.

Lemma start_each_settles f l : forall s log r s' log', start_each f l s log = (r, s', log') -> settles s s'.
Proof.
  induction l as [|n l IH]; intros s log r s' log'; cbn [start_each]; [intros [= _ <- _]; apply settles_refl|].
  destruct (start_one f n s log) as [[r1 s1] log1] eqn:E. apply start_one_settles in E.
  destruct r1; [intros H; by eapply settles_trans, IH|by intros [= _ <- _]].
Qed.

Lemma stop_each_settles g l : forall s log r s' log', stop_each g l s log = (r, s', log') -> settles s s'.
Proof.
  induction l as [|n l IH]; intros s log r s' log'; cbn [stop_each]; [intros [= _ <- _]; apply settles_refl|].
  destruct (stop_one g n s log) as [[r1 s1] log1] eqn:E. apply stop_one_settles in E.
  destruct r1 as [[u|e]|]; [intros H; by eapply settles_trans, IH|by intros [= _ <- _]..].
Qed.

Lemma stop_sweep_settles g l : forall fe s log r s' log', stop_sweep g l fe s log = (r, s', log') -> settles s s'.
Proof.
  induction l as [|n l IH]; intros fe s log r s' log'; cbn [stop_sweep]; [intros [= _ <- _]; apply settles_refl|].
  destruct (stop_one g n s log) as [[r1 s1] log1] eqn:E. apply stop_one_settles in E.
  destruct (default _ r1); intros H; [by eapply settles_trans, IH|].
  eapply settles_trans; [exact E|]. eapply settles_trans; [by apply (settles_transition n Error)|by eapply IH].
Qed.

Lemma operation_settles s s' : operation s s' -> settles s s'.
Proof.
  intros [id0 s0|id0 s0|id0 d s0 r s0' H|f id0 s0 r s0' log H|f s0 r s0' log H|g id0 s0 r s0' log H|g s0 r s0' log H|g s0 r s0' log H].
  - split; [apply rtc_once, ms_register|]. intros Hq x. cbn [watchers register].
    destruct (decide (x = id0)) as [->|]; [by rewrite lookup_insert_eq|by rewrite lookup_insert_ne].
  - split; [apply rtc_once, ms_unregister|]. intros Hq x. cbn [watchers unregister].
    destruct (decide (x = id0)) as [->|]; [by rewrite lookup_delete_eq|by rewrite lookup_delete_ne].
  - split; [by eapply rtc_once, ms_add|]. intros Hq. revert H. unfold add_dependency.
    destruct (negb _); [by intros [= _ <-]|]. destruct (negb _); [by intros [= _ <-]|].
    destruct (topo_order _) as [[?|?]|]; cbn [mbind option_bind]; try done; by intros [= _ <-].
  - revert H. unfold start. destruct (get_state id0 s0) as [st|]; [|intros [= _ <- _]; apply settles_refl].
    destruct st; try (intros [= _ <- _]; apply settles_refl);
      (destruct (start_order_for id0 s0) as [[o|e]|]; cbn [mbind option_bind]; try done;
       [intros [= H]; by eapply start_each_settles|intros [= _ <- _]; apply settles_refl]).
  - revert H. unfold start_all. destruct (topo_order _) as [[o|e]|]; cbn [mbind option_bind]; try done;
      [intros [= H]; by eapply start_each_settles|intros [= _ <- _]; apply settles_refl].
  - revert H. unfold stop. destruct (get_state id0 s0) as [st|]; [|intros [= _ <- _]; apply settles_refl].
    destruct (stop_order_for id0 s0) as [[o|e]|]; cbn [mbind option_bind]; try done;
      [intros [= H]; by eapply stop_each_settles|intros [= _ <- _]; apply settles_refl].
  - revert H. unfold stop_all. destruct (topo_order _) as [[o|e]|]; cbn [mbind option_bind]; try done;
      [intros [= H]; by eapply stop_each_settles|intros [= _ <- _]; apply settles_refl].
  - revert H. unfold stop_all_with_timeout. destruct (topo_order _) as [[o|e]|]; cbn [mbind option_bind]; try done;
      [intros [= H]; by eapply stop_sweep_settles|intros [= _ <- _]; apply settles_refl].
Qed.

Lemma operations_settle s s' : rtc operation s s' -> settles s s'.
Proof. induction 1 as [|s1 s2 s3 H _ IH]; [apply settles_refl|]. by eapply settles_trans; [apply operation_settles|]. Qed.

(** C11 Start order: in every registry that a caller's operations lead to, each run to its end before the next
    begins, [start_all] and, for a component that is not running, [start id] always produce a result; each
    component's [start] is called at most once, in an order in which, at the moment of the call, all its declared
    dependencies are already running; on success the component and everything it depends on runs ([start]) or
    everything runs ([start_all]); a failure is the error of a component now in state [Error], and nothing after it
    is called.  (Starts that overlap, or follow a start that was cut off by a timeout, are not covered: a component
    another start has left in [Starting] is not waited for, [concurrent_start_does_not_wait],
    [start_after_timeout_succeeds].) *)
Theorem start_respects_dependencies (start_result : bytes -> Result unit LifecycleError)
  (s : Inner) (id : bytes) :
  rtc operation new s -> id ∈ components s -> watchers s !! id <> Some Running ->
  (exists order r s' log, start_all start_result s = Some (r, s', log) /\
     topological (deps s) order /\ started start_result (deps s) order log r s' /\
     (r = Ok tt -> forall x, x ∈ components s -> running s' x)) /\
  (exists order r s' log, start start_result id s = Some (r, s', log) /\
     (forall x, x ∈ order <-> rtc (edge (deps s)) id x) /\
     started start_result (deps s) order log r s' /\
     (r = Ok tt -> forall x, rtc (edge (deps s)) id x -> running s' x)).
Proof.
  intros [Hr Hq]%operations_settle Hid Hnr. specialize (Hq ltac:(by intros x; unfold new; cbn [watchers]; rewrite lookup_empty)).
  pose proof (reachable_wf s Hr) as Hwf.
  destruct (topo_order_acyclic (deps s) (wf_acyclic s Hwf)) as (l & Hl & Htopo).
  pose proof (topological_sweepable s l Hwf Htopo) as Hsw.
  pose proof (topological_after _ _ Htopo) as Haf. split.
  - unfold start_all. rewrite Hl. cbn [mbind option_bind].
    destruct (start_each_spec start_result (deps s) l [] s []) as (r & s' & log & -> & Hst & Hok);
      [done|done|constructor|by intros; apply Hq|].
    exists l, r, s', log. split_and!; [done|done|done|]. intros Hrok x Hx.
    specialize (Hok Hrok). rewrite Forall_forall in Hok. apply Hok, Htopo. left. by rewrite (wf_deps s Hwf).
  - unfold start, get_state, start_order_for.
    assert (is_Some (watchers s !! id)) as [w Hw] by (apply elem_of_dom; by rewrite (wf_watchers s Hwf)).
    rewrite Hw in *. destruct (dependency_closure_spec (deps s) id) as (S & -> & HS).
    rewrite Hl. cbn [mbind option_bind]. set (f := fun n => bool_decide (n ∈ S)).
    assert (forall x, x ∈ List.filter f l <-> rtc (edge (deps s)) id x) as Hmem.
    { intros x. rewrite elem_of_list_filter'. unfold f. rewrite bool_decide_eq_true, HS. split; [by intros []|].
      intros Hx. split; [|done]. apply Htopo. inv Hx as [|? ? ? H1 H2]; [left; by rewrite (wf_deps s Hwf)|].
      apply rtc_inv_r in H2 as [->|(z & _ & Hz)]; right; eauto. }
    destruct (start_each_spec start_result (deps s) (List.filter f l) [] s [])
      as (r & s' & log & Hrun & Hst & Hok).
    { by apply sweepable_filter. }
    { apply after_filter; [done|]. intros n d Hn Hd. unfold f in *. rewrite bool_decide_eq_true, HS in *.
      by eapply rtc_r. }
    { constructor. }
    { by intros; apply Hq. }
    exists (List.filter f l), r, s', log. rewrite Hrun. split_and!; [by destruct w|done|done|].
    intros Hrok x Hx. specialize (Hok Hrok). rewrite Forall_forall in Hok. by apply Hok, Hmem.
Qed.

Definition demo : Inner :=
  default new (snd <$> add_dependency (b!"b") (b!"a") (register (b!"b") (register (b!"a") new))).

Lemma demo_reachable : rtc mstep new demo.
Proof.
  eapply rtc_l; [apply (ms_register (b!"a"))|]. eapply rtc_l; [apply (ms_register (b!"b"))|].
  eapply rtc_l; [|apply rtc_refl]. eapply (ms_add (b!"b") (b!"a") _ (Ok tt)). vm_compute. reflexivity.
Qed.

(** The dependency has been started before, and its dependent has failed to start. *)
Definition half_started : Inner :=
  let failing id := if bool_decide (id = b!"b") then Err (ComponentFailure (b!"b") (b!"no")) else Ok tt in
  match start_all failing demo with Some (_, s, _) => s | None => new end.

Lemma half_started_reachable : rtc operation new half_started.
Proof.
  eapply rtc_l; [apply (op_register (b!"a"))|]. eapply rtc_l; [apply (op_register (b!"b"))|].
  eapply rtc_l; [|eapply rtc_l; [|apply rtc_refl]].
  - apply (op_add_dependency (b!"b") (b!"a") _ (Ok tt) demo). vm_compute. reflexivity.
  - eapply (op_start_all (fun id => if bool_decide (id = b!"b") then Err (ComponentFailure (b!"b") (b!"no")) else Ok tt)). vm_compute. reflexivity.
Qed.

Lemma start_respects_dependencies_witness :
  exists r s' log, start (fun _ => Ok tt) (b!"b") half_started = Some (r, s', log) /\
    watchers half_started !! (b!"a") = Some Running /\
    (r = Ok tt -> forall x, rtc (edge (deps half_started)) (b!"b") x -> running s' x).
Proof.
  destruct (start_respects_dependencies (fun _ => Ok tt) half_started (b!"b")) as [_ (o & r & s' & log & H & _ & _ & Hok)].
  - apply half_started_reachable.
  - apply (bool_decide_unpack _). vm_compute. exact I.
  - vm_compute. discriminate.
  - exists r, s', log. split; [exact H|]. split; [vm_compute; reflexivity|exact Hok].
Defined.

(** C31 Stop order: in every reachable registry, [stop_all] and [stop id] call each
    component's [stop] at most once, and only when every component that depends on
    it has already halted; on success everything ([stop_all]), or [id] and all that
    transitively depends on it ([stop]), has halted.  A sweep that does not succeed
    reports the outcome of one component's own [stop]. *)
Theorem stop_respects_dependents (stop_result : bytes -> option (Result unit LifecycleError))
  (s : Inner) (id : bytes) :
  rtc mstep new s -> id ∈ components s ->
  (exists order r s' log, stop_all stop_result s = Some (r, s', log) /\
     topological (deps s) (rev order) /\ stopped (deps s) order log /\
     (r = Some (Ok tt) -> forall x, x ∈ components s -> halted s' x) /\
     (r <> Some (Ok tt) -> exists n, n ∈ order /\ stop_result n = r)) /\
  (exists order r s' log, stop stop_result id s = Some (r, s', log) /\
     (forall x, x ∈ order <-> rtc (edge (deps s)) x id) /\ stopped (deps s) order log /\
     (r = Some (Ok tt) -> forall x, rtc (edge (deps s)) x id -> halted s' x)).
Proof.
  intros Hr Hid. pose proof (reachable_wf s Hr) as Hwf.
  destruct (topo_order_acyclic (deps s) (wf_acyclic s Hwf)) as (l & Hl & Htopo).
  pose proof (topological_sweepable s l Hwf Htopo) as Hsw.
  assert (sweepable s [] (rev l)) as Hswr.
  { destruct Hsw as [H1 H2]. split; [cbn [app]; by rewrite <- (Permutation_rev l)|]. intros n Hn. apply H2.
    by rewrite list_elem_of_In, <- in_rev, <- list_elem_of_In in Hn. }
  pose proof (topological_before _ _ Htopo) as Haf. split.
  - unfold stop_all. rewrite Hl. cbn [mbind option_bind].
    destruct (stop_each_spec stop_result (deps s) (rev l) [] s []) as (r & s' & log & -> & Hst & Hok & Herr);
      [done|done|constructor|].
    exists (rev l), r, s', log. rewrite rev_involutive. split_and!; [done|done|done| |done]. intros Hrok x Hx.
    specialize (Hok Hrok). rewrite Forall_forall in Hok. apply Hok. cbn [app].
    rewrite list_elem_of_In, <- in_rev, <- list_elem_of_In. apply Htopo. left. by rewrite (wf_deps s Hwf).
  - unfold stop, get_state, stop_order_for.
    assert (is_Some (watchers s !! id)) as [w Hw] by (apply elem_of_dom; by rewrite (wf_watchers s Hwf)).
    rewrite Hw in *. destruct (dependent_closure_spec (deps s) id) as (S & -> & HS).
    rewrite Hl. cbn [mbind option_bind]. set (f := fun n => bool_decide (n ∈ S)).
    assert (forall x, x ∈ List.filter f (rev l) <-> rtc (edge (deps s)) x id) as Hmem.
    { intros x. rewrite elem_of_list_filter'. unfold f. rewrite bool_decide_eq_true, HS. split; [by intros []|].
      intros Hx. split; [|done]. rewrite list_elem_of_In, <- in_rev, <- list_elem_of_In. apply Htopo.
      left. inv Hx as [|? z ? Hz _]; [by rewrite (wf_deps s Hwf)|]. destruct Hz as (d & Hd & _). by apply elem_of_dom. }
    rewrite <- filter_rev.
    destruct (stop_each_spec stop_result (deps s) (List.filter f (rev l)) [] s [])
      as (r & s' & log & -> & Hst & Hok & _).
    { by apply sweepable_filter. }
    { apply after_filter; [done|]. intros n k Hn Hk. unfold f, flip in *.
      rewrite bool_decide_eq_true, HS in *. by eapply rtc_l. }
    { constructor. }
    exists (List.filter f (rev l)), r, s', log. split_and!; [done|done|done|].
    intros Hrok x Hx. specialize (Hok Hrok). rewrite Forall_forall in Hok. by apply Hok, Hmem.
Qed.

Lemma stop_respects_dependents_witness :
  exists r s' log, stop_all (fun _ => Some (Ok tt)) demo = Some (r, s', log) /\
    (r = Some (Ok tt) -> forall x, x ∈ components demo -> halted s' x).
Proof.
  destruct (stop_respects_dependents (fun _ => Some (Ok tt)) demo (b!"a"))
    as [(o & r & s' & log & H & _ & _ & Hok & _) _].
  - apply demo_reachable.
  - apply (bool_decide_unpack _). vm_compute. exact I.
  - exists r, s', log. split; [exact H|exact Hok].
Defined.

(** ** Bounded shutdown *)

Definition settled (s : Inner) (x : bytes) : Prop :=
  halted s x \/ watchers s !! x = Some Error.

Lemma stop_sweep_spec (stop_result : bytes -> option (Result unit LifecycleError)) l : forall l0 s log fe,
  sweepable s l0 l -> Forall (settled s) l0 ->
  exists r s' log', stop_sweep stop_result l fe s log = (r, s', log ++ log') /\
    Forall (settled s') (l0 ++ l) /\
    (forall n, n ∈ l -> ~ halted s n -> exists st, (CallStop n, st) ∈ log') /\
    (r = Ok tt <-> fe = None /\ forall n, n ∈ l -> ~ halted s n -> stop_result n = Some (Ok tt)).
Proof.
  induction l as [|n l IH]; intros l0 s log fe Hsw Hset; cbn [stop_sweep].
  { exists (match fe with Some e => Err e | None => Ok tt end), s, []. rewrite !app_nil_r.
    split_and!; [done|done|set_solver|]. destruct fe; split; try done; [by intros []|]. split; [done|set_solver]. }
  destruct (sweepable_fresh _ _ _ _ Hsw) as [Hn0 Hnl].
  destruct (proj2 Hsw n) as [Hc Hw]; [set_solver|].
  destruct (stop_one_cases stop_result n s log Hc Hw) as [[Hr ->]|[Hnh ->]]; cbn [default].
  - destruct (IH (l0 ++ [n]) s log fe) as (r & s' & log' & -> & Hset' & Hcall & Hok).
    { by apply sweepable_skip. }
    { apply Forall_app. split; [done|]. constructor; [by left|done]. }
    exists r, s', log'. rewrite <- app_assoc in Hset'. split_and!; [done|done| |].
    + intros k [->|Hk]%elem_of_cons; [done|by apply Hcall].
    + rewrite Hok. set_solver.
  - set (s1 := transition n Stopping s).
    assert (exists st2 fe', (fe' = None <-> fe = None /\ stop_result n = Some (Ok tt)) /\
      (st2 = Stopped \/ st2 = Error) /\ forall log0, stop_sweep stop_result l fe' (transition n st2 s1) log0 =
      match default (Err (Timeout n)) (stop_result n) with
      | Ok _ => stop_sweep stop_result l fe
          match stop_result n with None => s1 | Some (Ok _) => transition n Stopped s1 | Some (Err _) => transition n Error s1 end log0
      | Err e => stop_sweep stop_result l (Some (default e fe)) (transition n Error
          match stop_result n with None => s1 | Some (Ok _) => transition n Stopped s1 | Some (Err _) => transition n Error s1 end) log0
      end) as (st2 & fe' & Hfe & Hst2 & Heq).
    { destruct (stop_result n) as [[[]|e]|]; cbn [default].
      - exists Stopped, fe. naive_solver.
      - exists Error, (Some (default e fe)). split_and!; [naive_solver|auto|]. intros log0. f_equal.
        unfold transition. cbn. f_equal. rewrite !alter_alter_eq. reflexivity.
      - exists Error, (Some (default (Timeout n) fe)). split_and!; [naive_solver|auto|done]. }
    rewrite <- Heq. destruct (sweep_advance n Stopping st2 l0 l s Hsw) as (Hsw' & Hsame & Hnew).
    destruct (IH (l0 ++ [n]) (transition n st2 s1) (log ++ [(CallStop n, s1)]) fe')
      as (r & s' & log' & -> & Hset' & Hcall & Hok).
    { done. }
    { rewrite Forall_forall in Hset. apply Forall_forall. unfold settled, halted in *.
      intros x [Hx| ->%list_elem_of_singleton]%elem_of_app.
      - unfold s1. rewrite Hsame by auto. by apply Hset.
      - unfold s1. rewrite Hnew. naive_solver. }
    assert (forall k, k ∈ l -> halted (transition n st2 s1) k <-> halted s k) as Hh.
    { intros k Hk. unfold halted, s1. by rewrite Hsame by auto. }
    exists r, s', ((CallStop n, s1) :: log'). rewrite <- app_assoc in *. split_and!; [done|done| |].
    + intros k [->|Hk]%elem_of_cons Hnk; [exists s1; set_solver|].
      destruct (Hcall k Hk) as [st Hst]; [by rewrite Hh|]. exists st. set_solver.
    + rewrite Hok, Hfe. split.
      * intros [[-> Hn] Hall]. split; [done|]. intros k [->|Hk]%elem_of_cons Hnk; [done|].
        apply Hall; [done|]. by rewrite Hh.
      * intros [-> Hall]. split; [split; [done|apply Hall; [set_solver|done]]|].
        intros k Hk Hnk. apply Hall; [set_solver|]. by rewrite <- Hh.
Qed.

(** A bounded shutdown of a reachable registry. *)
Lemma shutdown_settles (stop_result : bytes -> option (Result unit LifecycleError)) (s : Inner) :
  rtc mstep new s ->
  exists r s' log, stop_all_with_timeout stop_result s = Some (r, s', log) /\
    (forall x, x ∈ components s -> settled s' x) /\
    (forall x, x ∈ components s -> ~ halted s x -> exists st, (CallStop x, st) ∈ log) /\
    (r = Ok tt <-> forall x, x ∈ components s -> ~ halted s x -> stop_result x = Some (Ok tt)).
Proof.
  intros Hr. pose proof (reachable_wf s Hr) as Hwf.
  destruct (topo_order_acyclic (deps s) (wf_acyclic s Hwf)) as (l & Hl & Htopo).
  destruct (topological_sweepable s l Hwf Htopo) as [H1 H2].
  assert (forall x, x ∈ rev l <-> x ∈ components s) as Hmem.
  { intros x. rewrite list_elem_of_In, <- in_rev, <- list_elem_of_In. split; [apply H2|].
    intros Hx. apply Htopo. left. by rewrite (wf_deps s Hwf). }
  unfold stop_all_with_timeout. rewrite Hl. cbn [mbind option_bind].
  destruct (stop_sweep_spec stop_result (rev l) [] s [] None) as (r & s' & log & -> & Hset & Hcall & Hok).
  { split; [cbn [app]; by rewrite <- (Permutation_rev l)|]. intros n Hn%Hmem. split; [done|].
    apply elem_of_dom. by rewrite (wf_watchers s Hwf). }
  { constructor. }
  exists r, s', log. cbn [app] in *. rewrite Forall_forall in Hset. setoid_rewrite Hmem in Hset.
  setoid_rewrite Hmem in Hcall. setoid_rewrite Hmem in Hok. split_and!; [done|done|done|].
  rewrite Hok. naive_solver.
Qed.

(** Bounded shutdown: [stop_all_with_timeout] always finishes, even when a component's
    [stop] hangs or fails; every component that was running, starting, stopping or
    in error has its [stop] called, none is left in between (each ends stopped,
    never started, or in state [Error]), and the call succeeds exactly when every
    [stop] it made succeeded in time. *)
Theorem bounded_shutdown_completes (stop_result : bytes -> option (Result unit LifecycleError)) (s : Inner) :
  rtc mstep new s ->
  exists r s' log, stop_all_with_timeout stop_result s = Some (r, s', log) /\
    (forall x, x ∈ components s -> settled s' x) /\
    (forall x, x ∈ components s -> ~ halted s x -> exists st, (CallStop x, st) ∈ log) /\
    (r = Ok tt <-> forall x, x ∈ components s -> ~ halted s x -> stop_result x = Some (Ok tt)).
Proof. apply shutdown_settles. Qed.

Lemma bounded_shutdown_completes_witness :
  exists r s' log, stop_all_with_timeout (fun _ => None) (transition (b!"b") Running demo) = Some (r, s', log) /\
    (forall x, x ∈ components demo -> settled s' x).
Proof.
  destruct (bounded_shutdown_completes (fun _ => None) (transition (b!"b") Running demo))
    as (r & s' & log & H & Hs & _).
  - eapply rtc_r; [apply demo_reachable|apply ms_transition].
  - exists r, s', log. split; [exact H|exact Hs].
Defined.

(** While another caller's start of a dependency is still in progress, a start of
    its dependent does not wait for it: the dependent's [start] is called with the
    dependency not yet running. *)
Example concurrent_start_does_not_wait :
  let s := transition (b!"a") Starting demo in
  exists s' log st, start (fun _ => Ok tt) (b!"b") s = Some (Ok tt, s', log) /\
    log = [(CallStart (b!"b"), st)] /\ watchers st !! (b!"a") = Some Starting.
Proof.
  intros s. assert (match start (fun _ => Ok tt) (b!"b") s with
    | Some (Ok _, s', [(CallStart n, st)]) => bool_decide (n = b!"b") && bool_decide (watchers st !! (b!"a") = Some Starting)
    | _ => false
    end = true) as H by (vm_compute; reflexivity).
  destruct (start _ _ s) as [[[[[]|] s'] [|[[n|n] st] [|]]]|]; try discriminate H.
  apply andb_true_iff in H as [->%bool_decide_eq_true Hw%bool_decide_eq_true]. by exists s', [(CallStart (b!"b"), st)], st.
Qed.
