(* ===== verification/Manager.v ===== *)
(** * The component manager over time ([lifecycle/manager.rs])

    What [Lifecycle] leaves out: the overall timeout of a start, waiting for the signal of the operating system, and the
    whole life of a process, from the start of its components over the wait to the bounded shutdown. *)

From S2P Require Import Prelude Lifecycle.
Import Lifecycle.

Module Manager.

(** [DEFAULT_STOP_TIMEOUT], in seconds. *)
Definition DEFAULT_STOP_TIMEOUT : Z := 30.

(** [ComponentManager::default] *)
Definition manager_default : Inner := new.

(** [list]: the registered components, in the order of the hash map. *)
Definition list_ids (s : Inner) : list bytes := elements (components s).

(** [watch]: a receiver sees the state of the component from now on, when there is one. *)
Definition watch (id : bytes) (s : Inner) : option ComponentState := watchers s !! id.

(** [with_timeout]: a future that has not finished in time is dropped where it is. *)
Definition with_timeout (id : bytes) (fut : option (Result unit LifecycleError)) : Result unit LifecycleError :=
  match fut with Some res => res | None => Err (Timeout id) end.

Section Timed.
(** What a component's [start] answers, or nothing when the overall timeout fires while it runs. *)
Context (start_result : bytes -> option (Result unit LifecycleError)).

(** [start_one] up to where it is dropped. *)
Definition start_one_t (id : bytes) (s : Inner) (log : Log) : option (Result unit LifecycleError) * Inner * Log :=
  if negb (bool_decide (id ∈ components s)) then (Some (Err (ComponentNotFound id)), s, log)
  else
    let won := match watchers s !! id with
               | Some Running | Some Starting | None => false
               | Some _ => true
               end in
    if negb won then (Some (Ok tt), s, log)
    else
      let s := transition id Starting s in
      let log := log ++ [(CallStart id, s)] in
      match start_result id with
      | None => (None, s, log)
      | Some (Ok _) => (Some (Ok tt), transition id Running s, log)
      | Some (Err e) => (Some (Err e), transition id Error s, log)
      end.

Fixpoint start_each_t (order : list bytes) (s : Inner) (log : Log) : option (Result unit LifecycleError) * Inner * Log :=
  match order with
  | [] => (Some (Ok tt), s, log)
  | id :: order' =>
      let '(r, s, log) := start_one_t id s log in
      match r with
      | Some (Ok _) => start_each_t order' s log
      | _ => (r, s, log)
      end
  end.

Definition start_all_t (s : Inner) : option (option (Result unit LifecycleError) * Inner * Log) :=
  r ← topo_order (deps s);
  match r with
  | Err e => Some (Some (Err e), s, [])
  | Ok order => Some (start_each_t order s [])
  end.

(** [start_all_with_timeout] *)
Definition start_all_with_timeout (s : Inner) : option (Result unit LifecycleError * Inner * Log) :=
  '(r, s, log) ← start_all_t s; Some (with_timeout (b!"<all>") r, s, log).
End Timed.

(** What happens while a process waits: the signal, or other callers change the registry. *)
Inductive Happening := Signal | Elsewhere (s : Inner).

(** [wait_for_signal]: the wait ends with the signal, and with nothing else. *)
Fixpoint wait_for_signal (evs : list Happening) (s : Inner) : option Inner :=
  match evs with
  | [] => None
  | Signal :: _ => Some s
  | Elsewhere s :: evs => wait_for_signal evs s
  end.

(** [start_and_wait]: nothing inside while it still waits. *)
Definition start_and_wait (start_result : bytes -> Result unit LifecycleError) (stop_result : bytes -> option (Result unit LifecycleError))
  (evs : list Happening) (s : Inner) : option (option (Result unit LifecycleError * Inner)) :=
  '(r, s, _) ← start_all start_result s;
  match r with
  | Err e => Some (Some (Err e, s))
  | Ok _ =>
      match wait_for_signal evs s with
      | None => Some None
      | Some s => '(r, s, _) ← stop_all_with_timeout stop_result s; Some (Some (r, s))
      end
  end.
End Manager.
Import Manager.

(** ** A start cut off by its timeout *)

Section TimedProofs.
Context (start_result : bytes -> option (Result unit LifecycleError)).

Lemma transition_other id st s x : x <> id -> watchers (transition id st s) !! x = watchers s !! x.
Proof. intros H. rewrite transition_lookup. by rewrite decide_False. Qed.

(** One component: the others keep their state. *)
Lemma start_one_t_other id s log r s' log' x : start_one_t start_result id s log = (r, s', log') -> x <> id ->
  watchers s' !! x = watchers s !! x.
Proof.
  intros H Hx. unfold start_one_t in H. destruct (negb _); [by injection H as <- <- <-|].
  destruct (negb _); [by injection H as <- <- <-|]. destruct (start_result id) as [[]|]; injection H as <- <- <-; by rewrite !transition_other.
Qed.

(** After a start that went through, the component runs, or another caller is starting it. *)
Lemma start_one_t_ok id s log u s' log' : is_Some (watchers s !! id) -> start_one_t start_result id s log = (Some (Ok u), s', log') ->
  watchers s' !! id = Some Running \/ (watchers s !! id = Some Starting /\ s' = s).
Proof.
  intros [w Hw] H. unfold start_one_t in H. destruct (negb (bool_decide _)); [done|]. rewrite Hw in H.
  assert (watchers (transition id Running (transition id Starting s)) !! id = Some Running) as Hrun.
  { rewrite !transition_lookup, !decide_True by done. by rewrite Hw. }
  destruct w; cbn [negb] in H; try (destruct (start_result id) as [[]|]; [injection H as _ <- _; by left|done|done]); injection H as _ <- _; auto.
Qed.

(** A component at which the timeout fires is left as starting. *)
Lemma start_one_t_cut id s log s' log' : start_one_t start_result id s log = (None, s', log') ->
  start_result id = None /\ watchers s' !! id = Some Starting.
Proof.
  unfold start_one_t. destruct (negb _); [done|]. destruct (watchers s !! id) as [w|] eqn:Hw; [|done].
  destruct w; cbn [negb]; try done; (destruct (start_result id) as [[]|]; [done|done|]); intros [= <- _]; split; try done; by rewrite transition_lookup, decide_True, Hw.
Qed.

Lemma start_each_t_cut order : forall s log s' log', NoDup order -> (forall x, x ∈ order -> is_Some (watchers s !! x)) ->
  start_each_t start_result order s log = (None, s', log') ->
  exists pre x post, order = pre ++ x :: post /\ start_result x = None /\ watchers s' !! x = Some Starting /\
    (forall y, y ∈ pre -> watchers s' !! y = Some Running \/ watchers s !! y = Some Starting) /\
    (forall y, y ∉ pre -> y <> x -> watchers s' !! y = watchers s !! y).
Proof.
  induction order as [|id order IH]; intros s log s' log' Hnd Hw; cbn [start_each_t]; [done|]. apply NoDup_cons in Hnd as [Hin Hnd].
  destruct (start_one_t start_result id s log) as [[[[u|e]|] s1] log1] eqn:E; [|done|].
  - intros Hr. assert (forall x, x ∈ order -> watchers s1 !! x = watchers s !! x) as Hsame.
    { intros x Hx. apply (start_one_t_other _ _ _ _ _ _ x E). by intros ->. }
    destruct (IH s1 log1 s' log' Hnd) as (pre & x & post & -> & Hx & Hs & Hpre & Hrest); [|done|].
    { intros x Hx. rewrite Hsame by done. apply Hw. by right. }
    exists (id :: pre), x, post. split; [done|]. split; [done|]. split; [done|]. split.
    + intros y [->|Hy]%elem_of_cons.
      * rewrite Hrest by set_solver. destruct (start_one_t_ok id s log u s1 log1) as [H|[H _]]; [apply Hw; by left|done|by left|by right].
      * destruct (Hpre y Hy) as [H|H]; [by left|]. right. rewrite <- (Hsame y); [done|set_solver].
    + intros y [Hy1 Hy2]%not_elem_of_cons Hyx. rewrite Hrest by done. by apply (start_one_t_other _ _ _ _ _ _ y E).
  - intros [= <- <-]. destruct (start_one_t_cut id s log s1 log1 E) as [H1 H2]. exists [], id, order.
    split; [done|]. split; [done|]. split; [done|]. split; [set_solver|]. intros y _ Hy. by apply (start_one_t_other _ _ _ _ _ _ y E).
Qed.
End TimedProofs.

(** A start that exceeds its timeout stops at one component, which stays in state [Starting]: the components before it in
    dependency order run (or another caller is starting them), and those after it are as they were. *)
Theorem start_timeout_stops_midway (start_result : bytes -> option (Result unit LifecycleError)) (s s' : Inner) (log : Log) :
  rtc mstep new s -> start_all_t start_result s = Some (None, s', log) ->
  start_all_with_timeout start_result s = Some (Err (Timeout (b!"<all>")), s', log) /\
  exists pre x post, topo_order (deps s) = Some (Ok (pre ++ x :: post)) /\ start_result x = None /\ watchers s' !! x = Some Starting /\
    (forall y, y ∈ pre -> watchers s' !! y = Some Running \/ watchers s !! y = Some Starting) /\
    (forall y, y ∉ pre -> y <> x -> watchers s' !! y = watchers s !! y).
Proof.
  intros Hr H. split; [unfold start_all_with_timeout; by rewrite H|]. pose proof (reachable_wf s Hr) as Hwf.
  destruct (topo_order_acyclic (deps s) (wf_acyclic s Hwf)) as (l & Hl & Hnd & Hnodes & _). unfold start_all_t in H. rewrite Hl in H. cbn [mbind option_bind] in H.
  injection H as H. destruct (start_each_t_cut start_result l s [] s' log Hnd) as (pre & x & post & -> & Hx); [|done|by exists pre, x, post].
  intros x Hx. apply elem_of_dom. rewrite (wf_watchers s Hwf), <- (wf_deps s Hwf). apply Hnodes in Hx as [Hx|[k Hk]]; [done|].
  rewrite (wf_deps s Hwf). by apply (wf_edges s Hwf k).
Qed.

(** The life of a process: once its components have started and the signal comes, in whatever reachable state other callers
    have left the registry, the shutdown completes, calls every component that is not halted to stop, and leaves none
    between states, however long a component hangs. *)
Theorem process_shuts_down (start_result : bytes -> Result unit LifecycleError) (stop_result : bytes -> option (Result unit LifecycleError))
  (evs : list Happening) (s s1 s2 : Inner) (log : Log) :
  rtc mstep new s -> start_all start_result s = Some (Ok tt, s1, log) -> wait_for_signal evs s1 = Some s2 -> rtc mstep new s2 ->
  exists r s3, start_and_wait start_result stop_result evs s = Some (Some (r, s3)) /\
    (forall x, x ∈ components s2 -> settled s3 x) /\
    (r = Ok tt <-> forall x, x ∈ components s2 -> ~ halted s2 x -> stop_result x = Some (Ok tt)).
Proof.
  intros _ Hs Hw H2. destruct (shutdown_settles stop_result s2 H2) as (r & s3 & log' & H3 & Hset & _ & Hok).
  exists r, s3. split; [|done]. unfold start_and_wait. rewrite Hs. cbn. rewrite Hw. by rewrite H3.
Qed.

Definition succeeded {A B} (o : option (Result unit LifecycleError * A * B)) : bool := match o with Some (Ok _, _, _) => true | _ => false end.
Definition cut {A B} (o : option (option (Result unit LifecycleError) * A * B)) : bool := match o with Some (None, _, _) => true | _ => false end.

Lemma process_shuts_down_witness :
  exists r s3, start_and_wait (fun _ => Ok tt) (fun _ => None) [Elsewhere (transition (b!"b") Running demo); Signal] demo = Some (Some (r, s3)) /\
    (forall x, x ∈ components demo -> settled s3 x).
Proof.
  assert (succeeded (start_all (fun _ => Ok tt) demo) = true) as Hok by by vm_compute.
  destruct (start_all (fun _ => Ok tt) demo) as [[[[[]|e] s1] log1]|] eqn:E; [|discriminate Hok..].
  assert (rtc mstep new (transition (b!"b") Running demo)) as Hr by (eapply rtc_r; [apply demo_reachable|apply ms_transition]).
  destruct (process_shuts_down (fun _ => Ok tt) (fun _ => None) _ demo s1 _ log1 demo_reachable E (eq_refl : wait_for_signal [Elsewhere (transition (b!"b") Running demo); Signal] s1 = Some _) Hr) as (r & s3 & H & Hs & _).
  exists r, s3. split; [exact H|exact Hs].
Defined.

Definition slow_b (id : bytes) : option (Result unit LifecycleError) := if bool_decide (id = b!"b") then None else Some (Ok tt).

Lemma start_timeout_stops_midway_witness :
  exists s' log, start_all_with_timeout slow_b demo = Some (Err (Timeout (b!"<all>")), s', log) /\
    exists x, slow_b x = None /\ watchers s' !! x = Some Starting.
Proof.
  assert (cut (start_all_t slow_b demo) = true) as Hcut by by vm_compute.
  destruct (start_all_t slow_b demo) as [[[[r1|] s'] log]|] eqn:E; [discriminate Hcut| |discriminate Hcut].
  destruct (start_timeout_stops_midway slow_b demo s' log demo_reachable E) as (H & _ & x & _ & _ & H1 & H2 & _).
  exists s', log. split; [exact H|]. exists x. split; [exact H1|exact H2].
Defined.

(** The component left behind is never started: the next start takes it for one that another caller starts, and succeeds. *)
Example start_after_timeout_succeeds :
  let r := start_all_with_timeout slow_b demo in
  match r with
  | Some (Err (Timeout _), s', _) =>
      succeeded (start_all (fun _ => Ok tt) s') = true /\
      match start_all (fun _ => Ok tt) s' with Some (_, s'', _) => bool_decide (watchers s'' !! (b!"b") = Some Starting) = true | None => False end
  | _ => False
  end.
Proof. vm_compute. by split. Qed.

(** A shutdown from elsewhere does not end the wait. *)
Example stop_elsewhere_keeps_waiting (s : Inner) (evs : list Inner) : wait_for_signal (map Elsewhere evs) s = None.
Proof. revert s. induction evs as [|s' evs IH]; intros s; [done|apply IH]. Qed.
