(* ===== verification/Ws.v ===== *)
(** * WebSocket framing ([ws/frame.rs], [ws/conn.rs], [ws/rand.rs],
    [ws/handshake.rs])

    Frame encoding and decoding, the buffered reader over a socket that delivers
    its bytes in arbitrary pieces, the read loop (reassembly, ping replies, size
    limits) and the write loop.  A socket's read half is the list of pieces its
    reads return; an empty list is end of file. *)

From S2P Require Import Prelude Hash Text Auth.

Open Scope Z_scope.

(** ** Pseudo-random masking keys *)

Module Rand.

(** [rand::next] from a seeded, non-zero state; [seed] is the value computed from
    the clock when the state is zero. *)
Definition next (seed x : Z) : Z * Z :=
  let x := if x =? 0 then seed else x in
  let x := Z.lxor x (Z.shiftr x 12) in
  let x := wrap64 (Z.lxor x (wrap64 (Z.shiftl x 25))) in
  let x := Z.lxor x (Z.shiftr x 27) in
  (wrap64 (x * 0x2545F4914F6CDD1D), x).

(** [u64::to_le_bytes] *)
Definition to_le_bytes (x : Z) : bytes := rev (to_be_bytes 8 x).

(** [rand::fill] for [n] bytes; each call of [next] gives eight. *)
Fixpoint fill (fuel : nat) (seed : Z) (n : nat) (x : Z) : bytes * Z :=
  match fuel with
  | O => ([], x)
  | S f =>
      match n with
      | O => ([], x)
      | _ =>
          let '(r, x) := next seed x in
          let bs := take n (to_le_bytes r) in
          let '(rest, x) := fill f seed (n - 8) x in
          (bs ++ rest, x)
      end
  end.

End Rand.

(** ** Frames *)

Module Ws.

Inductive Opcode := Continuation | Text | Binary | Close | Ping | Pong.

#[export] Instance Opcode_eq_dec : EqDecision Opcode.
Proof. solve_decision. Defined.

Definition from_bits (b : Z) : option Opcode :=
  if b =? 0 then Some Continuation
  else if b =? 1 then Some Text
  else if b =? 2 then Some Binary
  else if b =? 8 then Some Close
  else if b =? 9 then Some Ping
  else if b =? 10 then Some Pong
  else None.

Definition bits (o : Opcode) : Z :=
  match o with Continuation => 0 | Text => 1 | Binary => 2 | Close => 8 | Ping => 9 | Pong => 10 end.

Record Frame := mkFrame { fin : bool; opcode : Opcode; payload : bytes }.

(** [Frame::parse_header] *)
Definition parse_header (b0 b1 : byte) : option (bool * Opcode * bool * Z) :=
  let fin := negb (Z.land (b2z b0) 0x80 =? 0) in
  op ← from_bits (Z.land (b2z b0) 0x0f);
  let masked := negb (Z.land (b2z b1) 0x80 =? 0) in
  let len7 := Z.land (b2z b1) 0x7f in
  Some (fin, op, masked, len7).

(** [for (i, b) in payload.iter_mut().enumerate() { *b ^= key[i % 4]; }] *)
Definition apply_mask (payload key : bytes) : bytes :=
  imap (fun i b => bxor b (key !!! (i mod 4)%nat)) payload.

(** [frame::encode]; [key] is what [rand::fill] gives when the frame is masked. *)
Definition encode (fin : bool) (op : Opcode) (payload : bytes) (key : option bytes) : bytes :=
  let out := [z2b (Z.lor (if fin then 0x80 else 0) (bits op))] in
  let mask_bit := match key with Some _ => 0x80 | None => 0 end in
  let len := Z.of_nat (length payload) in
  let out :=
    if len <? 126 then out ++ [z2b (Z.lor mask_bit len)]
    else if len <=? u16_max then
      (out ++ [z2b (Z.lor mask_bit 126)]) ++ to_be_bytes 2 len
    else (out ++ [z2b (Z.lor mask_bit 127)]) ++ to_be_bytes 8 len in
  match key with
  | Some k => (out ++ k) ++ apply_mask payload k
  | None => out ++ payload
  end.

(** ** The reader *)

Inductive IoError := UnexpectedEof | InvalidData (m : bytes).

Definition READ_CHUNK : nat := 64 * 1024.

(** [self.inner.read(&mut tmp)] with room for [cap] bytes: the bytes read (none at
    end of file) and the rest of the socket. *)
Definition sock_read (cap : nat) (chunks : list bytes) : bytes * list bytes :=
  match chunks with
  | [] => ([], [])
  | c :: cs => if (length c <=? cap)%nat then (c, cs) else (take cap c, drop cap c :: cs)
  end.

Record Reader := mkReader {
  inner : list bytes;
  buf : bytes;
  pos : nat;
  max_frame_size : option nat;
}.

Definition new (inner : list bytes) (leftover : bytes) (max : option nat) : Reader :=
  mkReader inner leftover 0 max.

(** [Reader::read_exact]: every iteration adds at least one byte. *)
Fixpoint read_exact_loop (fuel n : nat) (out : bytes) (r : Reader)
  : option (Result (bytes * Reader) IoError) :=
  match fuel with
  | O => None
  | S f =>
      if negb (length out <? n)%nat then Some (Ok (out, r))
      else if (pos r <? length (buf r))%nat then
        let take_ := Nat.min (n - length out) (length (buf r) - pos r) in
        read_exact_loop f n (out ++ take take_ (drop (pos r) (buf r)))
          (mkReader (inner r) (buf r) (pos r + take_) (max_frame_size r))
      else
        let '(tmp, inner') := sock_read (Nat.min (n - length out) READ_CHUNK) (inner r) in
        if bool_decide (tmp = []) then Some (Err UnexpectedEof)
        else read_exact_loop f n (out ++ tmp) (mkReader inner' (buf r) (pos r) (max_frame_size r))
  end.

Definition read_exact (n : nat) (r : Reader) : option (Result (bytes * Reader) IoError) :=
  read_exact_loop (S n) n [] r.

(** The extended payload length of [Reader::read_frame]. *)
Definition read_len (len7 : Z) (r : Reader) : option (Result (Z * Reader) IoError) :=
  if len7 =? 126 then
    let! (b, r) := read_exact 2 r in Some (Ok (from_be_bytes b, r))
  else if len7 =? 127 then
    let! (b, r) := read_exact 8 r in
    let raw := from_be_bytes b in
    if i64_max <? raw then Some (Err (InvalidData (b!"frame length exceeds maximum")))
    else Some (Ok (raw, r))
  else Some (Ok (len7, r)).

(** [Reader::read_frame] on a 64-bit target, where [usize::try_from] of a [u64]
    cannot fail. *)
Definition read_frame (r : Reader) : option (Result (Frame * Reader) IoError) :=
  let! (hdr, r) := read_exact 2 r in
  match parse_header (hdr !!! 0%nat) (hdr !!! 1%nat) with
  | None => Some (Err (InvalidData (b!"bad opcode")))
  | Some (fin, op, masked, len7) =>
      let! (len, r) := read_len len7 r in
      if match max_frame_size r with Some max => Z.of_nat max <? len | None => false end
      then Some (Err (InvalidData (b!"frame exceeds max_frame_size")))
      else
        let! (key, r) :=
          (if masked : bool then
             let! (k, r) := read_exact 4 r in Some (Ok (Some k, r))
           else Some (Ok (None, r))) in
        let! (payload, r) := read_exact (Z.to_nat len) r in
        let payload := match key with Some k => apply_mask payload k | None => payload end in
        Some (Ok (mkFrame fin op payload, r))
  end.

(** ** The loops *)

Inductive Message := MText (s : bytes) | MBinary (b : bytes).

Inductive Outgoing := OMsg (m : Message) | OPong (p : bytes) | OClose.

(** What the read loop sends on its two channels. *)
Inductive Event := Deliver (m : Message) | Reply (o : Outgoing).

Definition exceeds (max : option nat) (len : nat) : bool :=
  match max with Some m => (m <? len)%nat | None => false end.

(** The message of [emit]. *)
Definition emit_msg (op : Opcode) (payload : bytes) : Message :=
  match op with
  | Text => MText (Utf8.from_utf8_lossy payload)
  | _ => MBinary payload
  end.

Section ReadLoop.
(** [max_message_size], and whether the receiver takes the [n]-th message. *)
Context (max : option nat) (send_ok : nat -> bool).

(** One iteration after [read_frame]: the new fragment and the events, and whether
    the loop goes on. *)
Definition on_frame (frag : option (Opcode * bytes)) (sent : nat) (f : Frame)
  : option (Opcode * bytes) * list Event * bool :=
  match opcode f with
  | Ping => (frag, [Reply (OPong (payload f))], true)
  | Pong => (frag, [], true)
  | Close => (frag, [Reply OClose], false)
  | Text | Binary =>
      if fin f then
        if exceeds max (length (payload f)) then (frag, [], false)
        else (frag, [Deliver (emit_msg (opcode f) (payload f))], send_ok sent)
      else (Some (opcode f, payload f), [], true)
  | Continuation =>
      match frag with
      | Some (op, b) =>
          let b := b ++ payload f in
          if exceeds max (length b) then (Some (op, b), [], false)
          else if fin f then (None, [Deliver (emit_msg op b)], send_ok sent)
          else (Some (op, b), [], true)
      | None => (None, [], true)
      end
  end.

Definition deliveries (es : list Event) : list Message :=
  omap (fun e => match e with Deliver m => Some m | _ => None end) es.

Fixpoint read_loop (fuel : nat) (r : Reader) (frag : option (Opcode * bytes)) (sent : nat)
  : option (list Event) :=
  match fuel with
  | O => None
  | S f =>
      fr ← read_frame r;
      match fr with
      | Err _ => Some []
      | Ok (frame, r) =>
          let '(frag, es, go) := on_frame frag sent frame in
          if go : bool then
            rest ← read_loop f r frag (sent + length (deliveries es));
            Some (es ++ rest)
          else Some es
      end
  end.

End ReadLoop.

(** [write_loop]: the bytes written for the queued messages, up to a [Close];
    [keys n] is the masking key of the [n]-th frame when [mask] is set. *)
Definition outgoing_frame (o : Outgoing) (key : option bytes) : bytes :=
  match o with
  | OMsg (MText t) => encode true Text t key
  | OMsg (MBinary b) => encode true Binary b key
  | OPong p => encode true Pong p key
  | OClose => encode true Close [] key
  end.

Fixpoint write_loop (mask : bool) (keys : nat -> bytes) (n : nat) (queue : list Outgoing) : bytes :=
  match queue with
  | [] => []
  | o :: queue' =>
      let out := outgoing_frame o (if mask then Some (keys n) else None) in
      match o with
      | OClose => out
      | _ => out ++ write_loop mask keys (S n) queue'
      end
  end.

(** ** Handshake *)

Definition WS_GUID : bytes := b!"258EAFA5-E914-47DA-95CA-C5AB0DC85B11".

(** [handshake::accept_key] *)
Definition accept_key (client_key : bytes) : bytes :=
  Base64.base64_encode (Sha1.sha1 (client_key ++ WS_GUID)).

End Ws.

Import Ws.

(** ** The reader sees one byte stream *)

(** The unread bytes of a reader. *)
Definition data (r : Reader) : bytes := drop (pos r) (buf r) ++ concat (inner r).

(** Reads return at least one byte until end of file. *)
Definition live (r : Reader) : Prop := Forall (fun c => c <> []) (inner r).

Lemma sock_read_spec cap cs tmp rest :
  (0 < cap)%nat -> Forall (fun c => c <> []) cs -> sock_read cap cs = (tmp, rest) ->
  concat cs = tmp ++ concat rest /\ (length tmp <= cap)%nat /\ (tmp = [] -> cs = []) /\
  Forall (fun c => c <> []) rest.
Proof.
  intros Hc Hl. destruct cs as [|c cs]; simpl; [intros [= <- <-]; split_and!; (done || simpl; lia)|].
  inv Hl. destruct (Nat.leb_spec (length c) cap); intros [= <- <-].
  - split_and!; [done|done|done|done].
  - cbn [concat]. rewrite app_assoc, take_drop, length_take. split_and!; [done|lia| |].
    + intros Ht. apply (f_equal length) in Ht. rewrite length_take in Ht. simpl in Ht. lia.
    + constructor; [|done]. intros Hd. apply (f_equal length) in Hd. rewrite length_drop in Hd.
      simpl in Hd. lia.
Qed.

Lemma read_exact_loop_spec n fuel : forall out r,
  live r -> (length out <= n)%nat -> (n - length out < fuel)%nat ->
  (exists r', (n <= length out + length (data r))%nat /\
     read_exact_loop fuel n out r = Some (Ok (out ++ take (n - length out) (data r), r')) /\
     data r' = drop (n - length out) (data r) /\ live r' /\ max_frame_size r' = max_frame_size r) \/
  ((length out + length (data r) < n)%nat /\ read_exact_loop fuel n out r = Some (Err UnexpectedEof)).
Proof.
  induction fuel as [|fuel IH]; intros out r Hlv Ho Hf; [lia|]. cbn [read_exact_loop].
  destruct (Nat.ltb_spec (length out) n) as [Hlt|Hge]; cbn [negb].
  2: { left. exists r. replace (n - length out)%nat with 0%nat by lia. rewrite take_0, drop_0, app_nil_r.
       split_and!; (done || lia). }
  destruct (Nat.ltb_spec (pos r) (length (buf r))) as [Hp|Hp].
  - set (k := Nat.min (n - length out) (length (buf r) - pos r)).
    set (piece := take k (drop (pos r) (buf r))).
    set (r1 := mkReader (inner r) (buf r) (pos r + k) (max_frame_size r)).
    assert (length piece = k) as Hk by (subst piece; rewrite length_take, length_drop; lia).
    assert (data r = piece ++ data r1) as Hd.
    { unfold data, r1, piece. cbn [pos buf inner]. rewrite <- drop_drop, app_assoc, take_drop. done. }
    destruct (IH (out ++ piece) r1) as [(r' & H1 & H2 & H3 & H4 & H5)|(H1 & H2)];
      [done|rewrite length_app; lia|
      rewrite length_app; lia|left|right].
    + exists r'. rewrite Hd. rewrite !length_app, Hk in *.
      rewrite take_app_ge, drop_app_ge by lia. rewrite Hk, <- app_assoc in *.
      replace (n - (length out + k))%nat with (n - length out - k)%nat in * by lia.
      split_and!; [lia|done|done|done|done].
    + rewrite Hd, !length_app in *. split; [lia|done].
  - destruct (sock_read _ (inner r)) as [tmp inner'] eqn:Es.
    assert (0 < READ_CHUNK)%nat as Hrc by (unfold READ_CHUNK; lia).
    destruct (sock_read_spec (Nat.min (n - length out) READ_CHUNK) (inner r) tmp inner' ltac:(lia) Hlv Es)
      as (Hc & Hlen & Hnil & Hlv').
    set (r1 := mkReader inner' (buf r) (pos r) (max_frame_size r)).
    assert (data r = tmp ++ data r1) as Hd.
    { unfold data, r1. cbn [pos buf inner]. rewrite drop_ge by lia. cbn [app]. done. }
    case_bool_decide as Ht.
    + right. split; [|done]. rewrite Hd. subst tmp. cbn [app]. unfold data, r1. cbn [pos buf inner].
      specialize (Hnil eq_refl). rewrite Hnil in Es. simpl in Es. simplify_eq.
      rewrite drop_ge by lia. simpl. lia.
    + assert (0 < length tmp)%nat as Hpos by (destruct tmp; [done|simpl; lia]).
      destruct (IH (out ++ tmp) r1) as [(r' & H1 & H2 & H3 & H4 & H5)|(H1 & H2)];
        [done|rewrite length_app; lia|rewrite length_app; lia|left|right].
      * exists r'. rewrite Hd. rewrite !length_app in *.
        rewrite take_app_ge, drop_app_ge by lia. rewrite <- app_assoc in *.
        replace (n - (length out + length tmp))%nat with (n - length out - length tmp)%nat in * by lia.
        split_and!; [lia|done|done|done|done].
      * rewrite Hd, !length_app in *. split; [lia|done].
Qed.

Lemma read_exact_spec n r :
  live r ->
  (exists r', (n <= length (data r))%nat /\ read_exact n r = Some (Ok (take n (data r), r')) /\
     data r' = drop n (data r) /\ live r' /\ max_frame_size r' = max_frame_size r) \/
  ((length (data r) < n)%nat /\ read_exact n r = Some (Err UnexpectedEof)).
Proof.
  intros Hl. destruct (read_exact_loop_spec n (S n) [] r Hl) as [(r' & H)|H];
    [simpl; lia|simpl; lia|left; exists r'|right]; cbn [length app Nat.add] in H; rewrite ?Nat.sub_0_r in H; exact H.
Qed.

Lemma read_exact_app n a b r :
  live r -> data r = a ++ b -> length a = n ->
  exists r', read_exact n r = Some (Ok (a, r')) /\ data r' = b /\ live r' /\
    max_frame_size r' = max_frame_size r.
Proof.
  intros Hl Hd Hn. destruct (read_exact_spec n r Hl) as [(r' & _ & H1 & H2 & H3 & H4)|[H _]].
  - exists r'. rewrite Hd in *. rewrite take_app_length' in H1 by done.
    rewrite drop_app_length' in H2 by done. done.
  - rewrite Hd, length_app in H. lia.
Qed.

(** ** Frame round trip *)

Lemma parse_header_encode (fin : bool) (op : Opcode) (masked : bool) len7 :
  0 <= len7 < 128 ->
  parse_header (z2b (Z.lor (if fin then 0x80 else 0) (bits op)))
               (z2b (Z.lor (if masked : bool then 0x80 else 0) len7)) = Some (fin, op, masked, len7).
Proof.
  intros Hl. unfold parse_header.
  assert (b2z (z2b (Z.lor (if masked : bool then 0x80 else 0) len7)) = (if masked then 0x80 else 0) + len7) as ->.
  { destruct masked.
    - change 0x80 with (Z.shiftl 1 7) at 1. rewrite lor_shiftl_add by lia. rewrite b2z_z2b; lia.
    - rewrite Z.lor_0_l, b2z_z2b; lia. }
  assert (Z.land ((if masked then 128 else 0) + len7) 127 = len7) as ->.
  { change 127 with (Z.ones 7). rewrite Z.land_ones by lia.
    destruct masked; [rewrite Z.add_comm; change 128 with (1 * 2 ^ 7) at 1; rewrite Z_mod_plus_full|];
      apply Z.mod_small; lia. }
  assert (negb (Z.land ((if masked then 128 else 0) + len7) 128 =? 0) = masked) as ->.
  { assert (Z.land ((if masked then 128 else 0) + len7) 128 = if masked then 128 else 0) as ->.
    { apply Z.bits_inj'. intros i Hi. rewrite Z.land_spec. change 128 with (2 ^ 7) at 2.
      rewrite Z.pow2_bits_eqb by lia. destruct (Z.eqb_spec 7 i) as [<-|Hne].
      - rewrite andb_true_r, Z.testbit_eqb by lia. change (2 ^ 7) with 128.
        destruct masked; [replace ((128 + len7) / 128) with 1 by (Z.to_euclidean_division_equations; lia)|
          rewrite Z.add_0_l, Z.div_small by lia]; done.
      - rewrite andb_false_r. destruct masked; [|by rewrite Z.bits_0].
        change 128 with (2 ^ 7). by rewrite Z.pow2_bits_false by lia. }
    by destruct masked. }
  destruct fin, op; reflexivity.
Qed.

Lemma apply_mask_involutive p k : apply_mask (apply_mask p k) k = p.
Proof.
  unfold apply_mask. apply list_eq. intros i.
  rewrite !list_lookup_imap. destruct (p !! i); simpl; [|done]. by rewrite bxor_involutive.
Qed.

Lemma length_apply_mask p k : length (apply_mask p k) = length p.
Proof. apply length_imap. Qed.

(** The bytes of a frame on the wire, with its masking key. *)
Definition wire (fk : Frame * option bytes) : bytes :=
  encode (fin (fst fk)) (opcode (fst fk)) (payload (fst fk)) (snd fk).

Definition key_ok (k : option bytes) : Prop := match k with Some k => length k = 4%nat | None => True end.

Definition fits (max : option nat) (f : Frame) : Prop :=
  Z.of_nat (length (payload f)) <= i64_max /\
  match max with Some m => (length (payload f) <= m)%nat | None => True end.

(** The header and extended length of a frame. *)
Definition len_field (len : Z) : Z * bytes :=
  if len <? 126 then (len, [])
  else if len <=? u16_max then (126, to_be_bytes 2 len)
  else (127, to_be_bytes 8 len).

Lemma wire_shape f k :
  let '(len7, ext) := len_field (Z.of_nat (length (payload f))) in
  wire (f, k) =
    [z2b (Z.lor (if fin f then 0x80 else 0) (bits (opcode f)));
     z2b (Z.lor (if bool_decide (k <> None) then 0x80 else 0) len7)]
    ++ ext ++ default [] k
    ++ match k with Some k => apply_mask (payload f) k | None => payload f end.
Proof.
  unfold wire, encode, len_field. cbn [fst snd].
  set (len := Z.of_nat (length (payload f))).
  destruct (len <? 126); [|destruct (len <=? u16_max)]; destruct k as [k|];
    first [rewrite bool_decide_true by done | rewrite bool_decide_false by naive_solver];
    cbn [default]; rewrite ?app_nil_r, <- ?app_assoc; done.
Qed.

Lemma read_len_ok len r rest :
  0 <= len <= i64_max -> live r -> data r = snd (len_field len) ++ rest ->
  0 <= fst (len_field len) < 128 /\
  exists r', read_len (fst (len_field len)) r = Some (Ok (len, r')) /\ data r' = rest /\ live r' /\
    max_frame_size r' = max_frame_size r.
Proof.
  intros Hlen Hlv Hd. unfold len_field in *. unfold i64_max in *.
  destruct (Z.ltb_spec len 126) as [H1|H1]; [|destruct (Z.leb_spec len u16_max) as [H2|H2]];
    cbn [fst snd] in *; (split; [lia|]); unfold read_len.
  - rewrite (proj2 (Z.eqb_neq len 126)), (proj2 (Z.eqb_neq len 127)) by lia. exists r. done.
  - rewrite Z.eqb_refl. destruct (read_exact_app 2 (to_be_bytes 2 len) rest r) as (r' & -> & ? & ? & ?);
      [done|done|apply length_to_be_bytes|]. cbn [fbind]. exists r'. split; [|done].
    rewrite from_to_be_bytes, Z.mod_small; [done|]. unfold u16_max in H2. simpl. lia.
  - change (127 =? 126) with false. rewrite Z.eqb_refl. cbv iota.
    destruct (read_exact_app 8 (to_be_bytes 8 len) rest r) as (r' & -> & ? & ? & ?);
      [done|done|apply length_to_be_bytes|]. cbn [fbind].
    rewrite from_to_be_bytes, Z.mod_small by (change (256 ^ Z.of_nat 8) with 18446744073709551616; lia).
    rewrite (proj2 (Z.ltb_ge _ _)) by (unfold i64_max; lia). by exists r'.
Qed.

Lemma read_frame_wire f k r rest :
  live r -> data r = wire (f, k) ++ rest -> key_ok k -> fits (max_frame_size r) f ->
  exists r', read_frame r = Some (Ok (f, r')) /\ data r' = rest /\ live r' /\
    max_frame_size r' = max_frame_size r.
Proof.
  intros Hlv Hd Hk [Hlen Hmax]. pose proof (wire_shape f k) as Hw.
  destruct (len_field (Z.of_nat (length (payload f)))) as [len7 ext] eqn:El.
  rewrite Hw, <- !app_assoc in Hd. unfold read_frame.
  destruct (read_exact_app 2 _ _ r Hlv Hd eq_refl) as (r1 & -> & D1 & L1 & M1). cbn [fbind].
  destruct (read_len_ok (Z.of_nat (length (payload f))) r1
    (default [] k ++ match k with Some k => apply_mask (payload f) k | None => payload f end ++ rest))
    as (Hr & r2 & H2 & D2 & L2 & M2); [lia|done|by rewrite El, D1|].
  rewrite El in H2, Hr. cbn [fst] in H2, Hr.
  change ([z2b (Z.lor (if fin f then 128 else 0) (bits (opcode f)));
     z2b (Z.lor (if bool_decide (k ≠ None) then 128 else 0) len7)] !!! 0%nat)
    with (z2b (Z.lor (if fin f then 128 else 0) (bits (opcode f)))).
  change ([z2b (Z.lor (if fin f then 128 else 0) (bits (opcode f)));
     z2b (Z.lor (if bool_decide (k ≠ None) then 128 else 0) len7)] !!! 1%nat)
    with (z2b (Z.lor (if bool_decide (k ≠ None) then 128 else 0) len7)).
  rewrite parse_header_encode by done. rewrite H2. cbn [fbind].
  assert (match max_frame_size r2 with Some max => Z.of_nat max <? Z.of_nat (length (payload f))
          | None => false end = false) as ->.
  { rewrite M2, M1. destruct (max_frame_size r); [apply Z.ltb_ge; lia|done]. }
  destruct k as [k|]; cbn [default] in *.
  - rewrite bool_decide_true by done. change (id k) with k in D2.
    destruct (read_exact_app 4 _ _ r2 L2 D2 Hk) as (r3 & -> & D3 & L3 & M3). cbn [fbind].
    destruct (read_exact_app (Z.to_nat (Z.of_nat (length (payload f)))) _ _ r3 L3 D3)
      as (r4 & -> & D4 & L4 & M4); [rewrite length_apply_mask; lia|]. cbn [fbind].
    exists r4. rewrite apply_mask_involutive. split_and!; [by destruct f|done|done|congruence].
  - rewrite bool_decide_false by naive_solver. cbn [fbind app] in *.
    destruct (read_exact_app (Z.to_nat (Z.of_nat (length (payload f)))) _ _ r2 L2 D2)
      as (r4 & -> & D4 & L4 & M4); [lia|]. cbn [fbind].
    exists r4. split_and!; [by destruct f|done|done|congruence].
Qed.

(** ** The read loop as a function of the frames *)

(** Reference: the events of a sequence of decoded frames, without a socket. *)
Fixpoint process (max : option nat) (frag : option (Opcode * bytes)) (fs : list Frame) : list Event :=
  match fs with
  | [] => []
  | f :: fs' =>
      let '(frag, es, go) := on_frame max (fun _ => true) frag 0 f in
      if go : bool then es ++ process max frag fs' else es
  end.

Lemma on_frame_alive max send_ok frag sent f :
  (forall n, send_ok n = true) ->
  on_frame max send_ok frag sent f = on_frame max (fun _ => true) frag 0 f.
Proof. intros H. unfold on_frame. by destruct (opcode f); rewrite ?H. Qed.

Lemma wire_length fk : (2 <= length (wire fk))%nat.
Proof.
  destruct fk as [f k]. pose proof (wire_shape f k) as H. destruct (len_field _) as [l e].
  rewrite H. rewrite length_app. simpl. lia.
Qed.

Lemma read_loop_process max send_ok fks : forall fuel r frag sent,
  (forall n, send_ok n = true) ->
  live r -> data r = concat (map wire fks) ->
  Forall (fun fk => key_ok (snd fk) /\ fits (max_frame_size r) (fst fk)) fks ->
  (length fks < fuel)%nat ->
  read_loop max send_ok fuel r frag sent = Some (process max frag (map fst fks)).
Proof.
  induction fks as [|[f k] fks IH]; intros fuel r frag sent Hs Hlv Hd Hok Hf;
    (destruct fuel as [|fuel]; [simpl in Hf; lia|]); cbn [read_loop].
  - unfold read_frame. destruct (read_exact_spec 2 r Hlv) as [(r' & Hn & _)|[_ ->]]; [|done].
    rewrite Hd in Hn. simpl in Hn. lia.
  - inv Hok. destruct H1 as [Hk Hfit]. cbn [map concat fst snd] in *.
    destruct (read_frame_wire f k r _ Hlv Hd Hk Hfit) as (r' & -> & Hd' & Hlv' & Hm).
    cbn [mbind option_bind]. rewrite on_frame_alive by done. cbn [process].
    destruct (on_frame max (fun _ => true) frag 0 f) as [[frag' es] []]; [|done].
    rewrite IH; [done|done|done|done|by rewrite Hm|simpl in Hf; lia].
Qed.

(** ** Sending and receiving *)

(** What the peer sees of a queue of outgoing messages. *)
Fixpoint received (queue : list Outgoing) : list Event :=
  match queue with
  | [] => []
  | OMsg m :: q => Deliver m :: received q
  | OPong _ :: q => received q
  | OClose :: _ => [Reply OClose]
  end.

Definition out_frame (o : Outgoing) : Frame :=
  match o with
  | OMsg (MText t) => mkFrame true Text t
  | OMsg (MBinary b) => mkFrame true Binary b
  | OPong p => mkFrame true Pong p
  | OClose => mkFrame true Close []
  end.

(** A message within the receiver's limits; text is valid UTF-8. *)
Definition sendable (max max_frame : option nat) (o : Outgoing) : Prop :=
  fits max_frame (out_frame o) /\
  match o with
  | OMsg (MText t) => exceeds max (length t) = false /\ Utf8.is_utf8 t = true
  | OMsg (MBinary b) => exceeds max (length b) = false
  | _ => True
  end.

Lemma write_loop_wire mask keys max maxf queue : forall n,
  (forall i, length (keys i) = 4%nat) -> Forall (sendable max maxf) queue ->
  exists fks, write_loop mask keys n queue = concat (map wire fks) /\
    Forall (fun fk => key_ok (snd fk) /\ fits maxf (fst fk)) fks /\
    forall frag, process max frag (map fst fks) = received queue.
Proof.
  induction queue as [|o queue IH]; intros n Hk Hs; [by exists []|]. inv Hs.
  destruct (IH (S n) Hk H2) as (fks & Hw & Hok & Hp). destruct H1 as [Hfit Hmsg].
  set (key := if mask then Some (keys n) else None).
  assert (key_ok key) as Hkey by (subst key; destruct mask; simpl; auto).
  assert (outgoing_frame o key = wire (out_frame o, key)) as Ho by (by destruct o as [[]| |]).
  destruct o as [[t|b]|p|]; cbn [write_loop received] in *; fold key; rewrite Ho, ?Hw;
    [exists ((mkFrame true Text t, key) :: fks)|exists ((mkFrame true Binary b, key) :: fks)
    |exists ((mkFrame true Pong p, key) :: fks)|exists [(mkFrame true Close [], key)]].
  - split_and!; [done|by constructor|]. destruct Hmsg as [Hx Hu]. intros frag.
    cbn [map fst process on_frame opcode fin payload]. rewrite Hx. cbn [app]. rewrite Hp.
    cbn [emit_msg]. by rewrite lossy_valid.
  - split_and!; [done|by constructor|]. intros frag.
    cbn [map fst process on_frame opcode fin payload]. rewrite Hmsg. cbn [app]. by rewrite Hp.
  - split_and!; [done|by constructor|]. intros frag. cbn [map fst process on_frame opcode app]. apply Hp.
  - split_and!; [cbn; by rewrite app_nil_r|by constructor|done].
Qed.

Lemma length_wires fks : (length fks <= length (concat (map wire fks)))%nat.
Proof.
  induction fks as [|fk fks IH]; [done|]. cbn [map concat length]. rewrite length_app.
  pose proof (wire_length fk). lia.
Qed.

(** C27 End to end: whatever a peer's write loop sends, masked or not and with any
    masking keys, and however the network cuts the bytes into reads, the read loop
    delivers exactly the queued messages in order, ignores pongs, and answers a
    close and stops. *)
Theorem ws_delivery (mask : bool) (keys : nat -> bytes) (queue : list Outgoing)
  (chunks : list bytes) (leftover : bytes) (max max_frame : option nat) (send_ok : nat -> bool) :
  (forall i, length (keys i) = 4%nat) -> (forall n, send_ok n = true) ->
  Forall (fun c => c <> []) chunks ->
  leftover ++ concat chunks = write_loop mask keys 0 queue ->
  Forall (sendable max max_frame) queue ->
  read_loop max send_ok (S (length (leftover ++ concat chunks))) (new chunks leftover max_frame) None 0 =
  Some (received queue).
Proof.
  intros Hk Hsend Hne Hbytes Hq.
  destruct (write_loop_wire mask keys max max_frame queue 0 Hk Hq) as (fks & Hw & Hok & Hp).
  rewrite (read_loop_process max send_ok fks); [by rewrite Hp|done|done| |done|].
  - unfold data, new. cbn [pos buf inner]. rewrite drop_0. congruence.
  - pose proof (length_wires fks). rewrite Hbytes, Hw. lia.
Qed.

Lemma ws_delivery_witness :
  read_loop (Some 10%nat) (fun _ => true) 10
    (new [[x02; x68]; [x69; x8a; x01; x70; x88]; [x00]] [x81] (Some 5%nat)) None 0 =
  Some [Deliver (MText (b!"hi")); Reply OClose].
Proof.
  apply (ws_delivery false (fun _ => [x00; x01; x02; x03]) [OMsg (MText (b!"hi")); OPong (b!"p"); OClose]
    [[x02; x68]; [x69; x8a; x01; x70; x88]; [x00]] [x81] (Some 10%nat) (Some 5%nat) (fun _ => true)).
  - done.
  - done.
  - by repeat constructor.
  - vm_compute. reflexivity.
  - repeat constructor; (vm_compute; (done || congruence || lia)).
Defined.

(** ** Arbitrary input *)

Lemma fbind_read_exact {B} n r (g : bytes * Reader -> option (Result (B * Reader) IoError)) :
  live r ->
  (forall b r', length b = n -> live r' -> (length (data r') + n = length (data r))%nat ->
     exists x, g (b, r') = Some x /\
       forall a r2, x = Ok (a, r2) -> live r2 /\ (length (data r2) <= length (data r'))%nat) ->
  exists x, fbind (read_exact n r) g = Some x /\
    forall a r2, x = Ok (a, r2) -> live r2 /\ (length (data r2) + n <= length (data r))%nat.
Proof.
  intros Hl Hg. destruct (read_exact_spec n r Hl) as [(r' & Hn & -> & Hd & Hl' & _)|[_ ->]]; cbn [fbind].
  - destruct (Hg (take n (data r)) r') as (x & Hx & Hok); [rewrite length_take; lia|done| |].
    { rewrite Hd, length_drop. lia. }
    exists x. split; [done|]. intros a r2 ->. destruct (Hok a r2 eq_refl) as [H1 H2].
    split; [done|]. rewrite Hd, length_drop in H2. lia.
  - eexists. split; [done|]. done.
Qed.

Lemma read_len_total len7 r :
  live r -> exists x, read_len len7 r = Some x /\
    forall a r2, x = Ok (a, r2) -> live r2 /\ (length (data r2) <= length (data r))%nat.
Proof.
  intros Hl. unfold read_len. destruct (len7 =? 126); [|destruct (len7 =? 127)].
  - destruct (fbind_read_exact 2 r (fun '(b, r) => Some (Ok (from_be_bytes b, r)))) as (x & Hx & Hok); [done| |].
    { intros b r' _ Hl' _. eexists. split; [done|]. intros a r2 [= <- <-]. done. }
    exists x. split; [done|]. intros a r2 ->. destruct (Hok a r2 eq_refl). split; [done|lia].
  - destruct (fbind_read_exact 8 r (fun '(b, r) => let raw := from_be_bytes b in
      if i64_max <? raw then Some (Err (InvalidData (b!"frame length exceeds maximum"))) else Some (Ok (raw, r))))
      as (x & Hx & Hok); [done| |].
    { intros b r' _ Hl' _. cbv zeta. destruct (_ <? _); eexists; (split; [done|]); [done|].
      intros a r2 [= <- <-]. done. }
    exists x. split; [done|]. intros a r2 ->. destruct (Hok a r2 eq_refl). split; [done|lia].
  - eexists. split; [done|]. intros a r2 [= <- <-]. done.
Qed.

(** Every frame read consumes at least its two header bytes. *)
Lemma read_frame_total r :
  live r -> exists x, read_frame r = Some x /\
    forall f r2, x = Ok (f, r2) -> live r2 /\ (length (data r2) + 2 <= length (data r))%nat.
Proof.
  intros Hl. unfold read_frame. apply fbind_read_exact; [done|]. intros hdr r1 _ Hl1 _.
  destruct (parse_header _ _) as [[[[fin op] masked] len7]|]; [|by eexists].
  destruct (read_len_total len7 r1 Hl1) as ([[len r2]|] & -> & H2); cbn [fbind]; [|by eexists].
  destruct (H2 len r2 eq_refl) as [Hl2 D2].
  destruct (match max_frame_size r2 with Some max => _ | None => false end); [by eexists|].
  assert (exists x, (if masked : bool then let! (k, r) := read_exact 4 r2 in Some (Ok (Some k, r))
                     else Some (Ok (None, r2))) = Some x /\
    forall a r3, x = Ok (a, r3) -> live r3 /\ (length (data r3) <= length (data r2))%nat)
    as ([[key r3]|] & -> & H3); cbn [fbind].
  { destruct masked; [|eexists; split; [done|]; intros a r3 [= <- <-]; done].
    destruct (fbind_read_exact 4 r2 (fun '(k, r) => Some (Ok (Some k, r)))) as (x & Hx & Hok); [done| |].
    - intros b r' _ Hl' _. eexists. split; [done|]. intros a r4 [= <- <-]. done.
    - exists x. split; [done|]. intros a r3 ->. destruct (Hok a r3 eq_refl). split; [done|lia]. }
  2: by eexists.
  destruct (H3 key r3 eq_refl) as [Hl3 D3].
  destruct (fbind_read_exact (Z.to_nat len) r3 (fun '(payload, r) =>
    let payload := match key with Some k => apply_mask payload k | None => payload end in
    Some (Ok (mkFrame fin op payload, r)))) as (x & Hx & Hok); [done| |].
  { intros b r' _ Hl' _. eexists. split; [done|]. intros a r4 [= <- <-]. done. }
  exists x. split; [done|]. intros f r4 ->. destruct (Hok f r4 eq_refl). split; [done|lia].
Qed.

(** A delivered message is within the limit; for text, before the lossy conversion. *)
Definition within_limit (max : option nat) (e : Event) : Prop :=
  match e with
  | Deliver (MBinary b) => exceeds max (length b) = false
  | Deliver (MText t) => exists p, t = Utf8.from_utf8_lossy p /\ exceeds max (length p) = false
  | Reply _ => True
  end.

Lemma emit_within max op p : exceeds max (length p) = false -> within_limit max (Deliver (emit_msg op p)).
Proof. intros H. destruct op; simpl; eauto. Qed.

Lemma on_frame_within max send_ok frag sent f :
  Forall (within_limit max) (on_frame max send_ok frag sent f).1.2.
Proof.
  unfold on_frame. destruct (opcode f).
  1: destruct frag as [[op b]|]; [|constructor]; cbv zeta;
     destruct (exceeds max (length (b ++ payload f))) eqn:E; [constructor|]; destruct (fin f);
     repeat constructor; by apply emit_within.
  1, 2: destruct (fin f); [|constructor]; destruct (exceeds max (length (payload f))) eqn:E;
     repeat constructor; by apply (emit_within max _ _ E).
  all: repeat constructor.
Qed.

(** C37 Hostile input: on any byte stream, cut in any way, with or without limits, the
    read loop terminates without running out of its fuel of one step per byte, and
    never delivers a message larger than [max_message_size] (a text message counted
    as received). *)
Theorem ws_read_loop_safe (chunks : list bytes) (leftover : bytes) (max max_frame : option nat)
  (send_ok : nat -> bool) :
  Forall (fun c => c <> []) chunks ->
  exists es, read_loop max send_ok (S (length (leftover ++ concat chunks)))
      (new chunks leftover max_frame) None 0 = Some es /\
    Forall (within_limit max) es.
Proof.
  intros Hne.
  assert (forall fuel r frag sent, live r -> (length (data r) < fuel)%nat ->
    exists es, read_loop max send_ok fuel r frag sent = Some es /\ Forall (within_limit max) es) as H.
  { induction fuel as [|fuel IH]; intros r frag sent Hl Hf; [lia|]. cbn [read_loop].
    destruct (read_frame_total r Hl) as (x & -> & Hx). cbn [mbind option_bind].
    destruct x as [[f r']|]; [|by exists []]. destruct (Hx f r' eq_refl) as [Hl' Hd].
    pose proof (on_frame_within max send_ok frag sent f) as Hw.
    destruct (on_frame max send_ok frag sent f) as [[frag' es] []]; [|by exists es].
    destruct (IH r' frag' (sent + length (deliveries es))%nat) as (es' & -> & Hes'); [done|lia|].
    exists (es ++ es'). split; [done|]. by apply Forall_app. }
  apply H; [done|]. unfold data, new. cbn [pos buf inner]. rewrite drop_0. lia.
Qed.

Lemma ws_read_loop_safe_witness :
  exists es, read_loop (Some 1%nat) (fun _ => true) 6 (new [[x81; x02; x61; x62]; [xff]] [] None) None 0 = Some es /\
    Forall (within_limit (Some 1%nat)) es.
Proof.
  apply (ws_read_loop_safe [[x81; x02; x61; x62]; [xff]] [] (Some 1%nat) None (fun _ => true)).
  by repeat constructor.
Defined.

(** ** Fragmentation *)

(** The frames of a fragmented message: the first with its opcode, then
    continuations, the last one final, with control frames in between. *)
Inductive piece := Data (p : bytes) | Control (ping : bool) (p : bytes).

Definition piece_frame (c : piece) : Frame :=
  match c with
  | Data p => mkFrame false Continuation p
  | Control ping p => mkFrame true (if ping then Ping else Pong) p
  end.

Definition piece_data (c : piece) : bytes := match c with Data p => p | Control _ _ => [] end.

Definition pong_reply (c : piece) : list Event :=
  match c with Control true p => [Reply (OPong p)] | _ => [] end.

(** Reassembly: a message sent in any number of fragments, with pings and pongs
    between them, is delivered once, as the concatenation of its fragments, after
    the pings have been answered in order, provided the whole fits the limit. *)
Theorem ws_reassembly (max : option nat) (op : Opcode) (p0 last : bytes) (pieces : list piece)
  (rest : list Frame) :
  op = Text \/ op = Binary ->
  exceeds max (length (p0 ++ concat (map piece_data pieces) ++ last)) = false ->
  process max None
    (mkFrame false op p0 :: map piece_frame pieces ++ mkFrame true Continuation last :: rest) =
  concat (map pong_reply pieces) ++
  Deliver (emit_msg op (p0 ++ concat (map piece_data pieces) ++ last)) :: process max None rest.
Proof.
  intros Hop Hmax.
  assert (forall (a b : bytes), (length a <= length b)%nat -> exceeds max (length b) = false ->
    exceeds max (length a) = false) as Hmono.
  { intros a b Hab. unfold exceeds. destruct max as [m|]; [|done]. rewrite !Nat.ltb_ge. lia. }
  assert (forall b, exceeds max (length (b ++ concat (map piece_data pieces) ++ last)) = false ->
    process max (Some (op, b)) (map piece_frame pieces ++ mkFrame true Continuation last :: rest) =
    concat (map pong_reply pieces) ++
    Deliver (emit_msg op (b ++ concat (map piece_data pieces) ++ last)) :: process max None rest) as H.
  { clear Hmax. induction pieces as [|c cs IH]; intros b Hb; cbn [map app concat] in *.
    - cbn [process on_frame opcode fin payload app]. by rewrite Hb.
    - destruct c as [p|ping p]; cbn [piece_data piece_frame pong_reply process on_frame opcode fin payload app] in *.
      + rewrite <- app_assoc in *. rewrite app_assoc in Hb. rewrite (Hmono (b ++ p) ((b ++ p) ++ concat (map piece_data cs) ++ last)
          ltac:(rewrite !length_app; lia) Hb). cbn [app]. rewrite IH by done. by rewrite <- app_assoc.
      + destruct ping; cbn [process on_frame opcode fin payload app]; by rewrite IH. }
  cbn [process]. destruct Hop as [-> | ->]; cbn [on_frame opcode fin payload app]; by apply H.
Qed.

Lemma ws_reassembly_witness :
  process (Some 4%nat) None [mkFrame false Text (b!"ab"); mkFrame true Ping (b!"x");
    mkFrame true Continuation (b!"cd")] = [Reply (OPong (b!"x")); Deliver (MText (b!"abcd"))].
Proof.
  apply (ws_reassembly (Some 4%nat) Text (b!"ab") (b!"cd") [Control true (b!"x")] []); [by left|reflexivity].
Defined.

(** The accept key of RFC 6455, section 1.3. *)
Example accept_key_rfc :
  accept_key (b!"dGhlIHNhbXBsZSBub25jZQ==") = b!"s3pPLMBiTxaQ9kYGzzhZRbK+xOo=".
Proof. vm_compute. reflexivity. Qed.

(** The generator fills exactly the requested number of bytes, so a masking key has
    the four bytes the theorems ask for. *)
Lemma fill_length fuel : forall seed n x,
  (n <= fuel)%nat -> length (fst (Rand.fill fuel seed n x)) = n.
Proof.
  induction fuel as [|f IH]; intros seed n x Hn; [simpl; lia|]. cbn [Rand.fill].
  destruct n as [|n]; [done|]. destruct (Rand.next seed x) as [r x'].
  specialize (IH seed (S n - 8)%nat x' ltac:(lia)).
  destruct (Rand.fill f seed (S n - 8) x') as [rest x'']. cbn [fst] in *.
  rewrite length_app, length_take, IH. unfold Rand.to_le_bytes. rewrite length_rev, length_to_be_bytes. lia.
Qed.
