(* ===== verification/Sse.v ===== *)
(** * Server-sent events ([http/sse.rs])

    The event writer [Event::to_frame] and the incremental decoder [SseDecoder]. *)

From S2P Require Import Prelude Text.

Open Scope Z_scope.

Module Sse.

Record Event := mkEvent {
  data : bytes;
  event : option bytes;
  id : option bytes;
  retry : option Z;         (** [u64] *)
  comment : option bytes;
}.

Definition default_event : Event := mkEvent [] None None None None.

Definition new (d : bytes) : Event := mkEvent d None None None None.

Definition keep_alive (text : bytes) : Event := mkEvent [] None None None (Some text).

(** Writing each line of a text with a prefix. *)
Definition push_lines (prefix : bytes) (out text : bytes) : bytes :=
  foldl (fun out line => ((out ++ prefix) ++ line) ++ [x0a]) out (split_on x0a text).

Definition is_none {A} (o : option A) : bool := match o with None => true | Some _ => false end.

(** [Event::to_frame] *)
Definition to_frame (e : Event) : bytes :=
  let out := [] in
  let out := match comment e with Some c => push_lines (b!": ") out c | None => out end in
  let out := match event e with Some v => ((out ++ b!"event: ") ++ v) ++ [x0a] | None => out end in
  let out := match id e with Some v => ((out ++ b!"id: ") ++ v) ++ [x0a] | None => out end in
  let out := match retry e with Some r => ((out ++ b!"retry: ") ++ show_uint r) ++ [x0a] | None => out end in
  let out :=
    if negb (bool_decide (data e = [])) || (is_none (comment e) && is_none (event e))
    then push_lines (b!"data: ") out (data e) else out in
  out ++ [x0a].

Record SseDecoder := mkDec { buf : bytes; cur : Event; dirty : bool }.

Definition dec_new : SseDecoder := mkDec [] default_event false.

Definition strip_space (v : bytes) : bytes := default v (strip_prefix v [x20]).

(** [SseDecoder::field], on the event under construction; it sets [dirty]. *)
Definition field (line : bytes) (e : Event) : Event :=
  match strip_prefix line [x3a] with
  | Some rest =>
      let c := default [] (comment e) in
      let c := if bool_decide (c = []) then c else c ++ [x0a] in
      mkEvent (data e) (event e) (id e) (retry e) (Some (c ++ strip_space rest))
  | None =>
      let '(name, value) := match split_once x3a line with
                            | Some (n, v) => (n, strip_space v)
                            | None => (line, [])
                            end in
      if bool_decide (name = b!"data") then
        mkEvent ((data e ++ value) ++ [x0a]) (event e) (id e) (retry e) (comment e)
      else if bool_decide (name = b!"event") then
        mkEvent (data e) (Some value) (id e) (retry e) (comment e)
      else if bool_decide (name = b!"id") then
        mkEvent (data e) (event e) (Some value) (retry e) (comment e)
      else if bool_decide (name = b!"retry") then
        match parse_u64 value with
        | Some ms => mkEvent (data e) (event e) (id e) (Some ms) (comment e)
        | None => e
        end
      else e
  end.

(** [v.pop()] when the last element is [b]. *)
Definition pop_if (b : byte) (v : bytes) : bytes :=
  match rev v with
  | x :: r => if bool_decide (x = b) then rev r else v
  | [] => v
  end.

(** One line without its newline: the event it completes, if any. *)
Definition line_step (line : bytes) (e : Event) (dirty : bool) : list Event * Event * bool :=
  let line := Utf8.from_utf8_lossy (pop_if x0d line) in
  if bool_decide (line = []) then
    if dirty then
      ([mkEvent (pop_if x0a (data e)) (event e) (id e) (retry e) (comment e)], default_event, false)
    else ([], e, false)
  else ([], field line e, true).

(** The loop of [push]: every iteration drains at least the newline. *)
Fixpoint push_loop (fuel : nat) (d : SseDecoder) (events : list Event) : option (SseDecoder * list Event) :=
  match fuel with
  | O => None
  | S f =>
      match split_once x0a (buf d) with
      | None => Some (d, events)
      | Some (line, rest) =>
          let '(es, e, dirty) := line_step line (cur d) (dirty d) in
          push_loop f (mkDec rest e dirty) (events ++ es)
      end
  end.

(** [SseDecoder::push] *)
Definition push (d : SseDecoder) (bs : bytes) : option (SseDecoder * list Event) :=
  let b := buf d ++ bs in
  push_loop (S (length b)) (mkDec b (cur d) (dirty d)) [].

(** Feeding chunks one after the other. *)
Fixpoint push_all (d : SseDecoder) (chunks : list bytes) : option (SseDecoder * list Event) :=
  match chunks with
  | [] => Some (d, [])
  | c :: cs =>
      '(d, es) ← push d c;
      '(d, es') ← push_all d cs;
      Some (d, es ++ es')
  end.

End Sse.

Import Sse.

(** ** The decoder as a function of the lines *)

(** Reference: the complete lines of a stream, and the unterminated rest. *)
Definition lines (s : bytes) : list bytes * bytes :=
  let ls := split_on x0a s in (removelast ls, List.last ls []).

Fixpoint run_lines (ls : list bytes) (e : Event) (dirty : bool) : Event * bool * list Event :=
  match ls with
  | [] => (e, dirty, [])
  | l :: ls' =>
      let '(es, e, dirty) := line_step l e dirty in
      let '(e, dirty, es') := run_lines ls' e dirty in
      (e, dirty, es ++ es')
  end.

Lemma run_lines_app l1 l2 e d :
  run_lines (l1 ++ l2) e d =
  let '(e1, d1, es1) := run_lines l1 e d in
  let '(e2, d2, es2) := run_lines l2 e1 d1 in (e2, d2, es1 ++ es2).
Proof.
  revert e d. induction l1 as [|l l1 IH]; intros e d; cbn [app run_lines].
  - by destruct (run_lines l2 e d) as [[? ?] ?].
  - destruct (line_step l e d) as [[es e1] d1]. rewrite IH.
    destruct (run_lines l1 e1 d1) as [[e2 d2] es2].
    destruct (run_lines l2 e2 d2) as [[e3 d3] es3]. by rewrite app_assoc.
Qed.

Lemma lines_cons w s : x0a ∉ w -> lines (w ++ x0a :: s) = (w :: fst (lines s), snd (lines s)).
Proof.
  intros Hw. unfold lines. rewrite split_on_app by done.
  pose proof (split_on_nonempty x0a s). destruct (split_on x0a s); [done|]. done.
Qed.

Lemma lines_none w : x0a ∉ w -> lines w = ([], w).
Proof. intros Hw. unfold lines. by rewrite split_on_none. Qed.

Lemma push_loop_spec fuel : forall b e d events,
  (length b < fuel)%nat ->
  push_loop fuel (mkDec b e d) events =
  let '(e', d', es) := run_lines (fst (lines b)) e d in
  Some (mkDec (snd (lines b)) e' d', events ++ es).
Proof.
  induction fuel as [|fuel IH]; intros b e d events Hf; [lia|]. cbn [push_loop buf cur dirty].
  destruct (split_once x0a b) as [[line rest]|] eqn:E.
  - apply split_once_Some in E as [-> Hl]. rewrite lines_cons by done. cbn [fst snd run_lines].
    destruct (line_step line e d) as [[es e1] d1]. rewrite IH by (rewrite length_app in Hf; simpl in Hf; lia).
    destruct (run_lines (fst (lines rest)) e1 d1) as [[e2 d2] es2]. by rewrite app_assoc.
  - assert (x0a ∉ b) as Hb.
    { intros Hin. apply list_elem_of_split_l in Hin as (l1 & l2 & -> & Hl1).
      by rewrite split_once_app in E. }
    rewrite lines_none by done. cbn [fst snd run_lines]. by rewrite app_nil_r.
Qed.

Lemma push_spec d bs :
  push d bs =
  let '(e', d', es) := run_lines (fst (lines (buf d ++ bs))) (cur d) (dirty d) in
  Some (mkDec (snd (lines (buf d ++ bs))) e' d', es).
Proof. unfold push. rewrite push_loop_spec by lia. by destruct (run_lines _ _ _) as [[? ?] ?]. Qed.

Lemma lines_app a b :
  lines (a ++ b) = (fst (lines a) ++ fst (lines (snd (lines a) ++ b)), snd (lines (snd (lines a) ++ b))).
Proof.
  induction a as [a IH] using (well_founded_ind (Wf_nat.well_founded_ltof _ length)).
  destruct (decide (x0a ∈ a)) as [Hin|Hout].
  - apply list_elem_of_split_l in Hin as (w & s & -> & Hw). rewrite <- app_assoc. cbn [app].
    rewrite !lines_cons by done. cbn [fst snd].
    rewrite IH by (unfold Wf_nat.ltof; rewrite length_app; simpl; lia). done.
  - rewrite (lines_none a) by done. cbn [fst snd app]. by destruct (lines (a ++ b)).
Qed.

(** The rest has no line end and is no longer than the text. *)
Lemma lines_rest_spec s : x0a ∉ snd (lines s) /\ (length (snd (lines s)) <= length s)%nat.
Proof.
  induction s as [s IH] using (well_founded_ind (Wf_nat.well_founded_ltof _ length)).
  destruct (decide (x0a ∈ s)) as [Hin|Hout].
  - apply list_elem_of_split_l in Hin as (w & r & -> & Hw). rewrite lines_cons by done. cbn [snd].
    destruct (IH r) as [H1 H2]; [unfold Wf_nat.ltof; rewrite length_app; simpl; lia|].
    split; [done|]. rewrite length_app. cbn [length]. lia.
  - by rewrite lines_none.
Qed.

Lemma push_all_spec chunks : forall d,
  snd (lines (buf d)) = buf d ->
  push_all d chunks = push d (concat chunks).
Proof.
  induction chunks as [|c cs IH]; intros d Hd; cbn [push_all concat].
  - rewrite push_spec, app_nil_r. rewrite (lines_none (buf d)).
    + cbn. by destruct d.
    + rewrite <- Hd. apply lines_rest_spec.
  - rewrite !push_spec. destruct (run_lines (fst (lines (buf d ++ c))) (cur d) (dirty d)) as [[e1 d1] es1] eqn:E1.
    cbn [mbind option_bind]. rewrite IH.
    2: { cbn [buf]. pose proof (lines_app (buf d ++ c) []) as H. rewrite !app_nil_r in H.
         apply (f_equal snd) in H. cbn [snd] in H. done. }
    rewrite push_spec. cbn [buf cur dirty]. rewrite (app_assoc (buf d) c), (lines_app (buf d ++ c)).
    cbn [fst snd]. rewrite run_lines_app, E1.
    destruct (run_lines (fst (lines (snd (lines (buf d ++ c)) ++ concat cs))) e1 d1) as [[e2 d2] es2]. done.
Qed.

(** ** What a frame's lines mean *)

Definition prefixed (prefix text : bytes) : list bytes := map (app prefix) (split_on x0a text).

Definition opt_line (prefix : bytes) (o : option bytes) : list bytes :=
  match o with Some v => [prefix ++ v] | None => [] end.

(** Reference: the lines of an event's frame, before the blank one. *)
Definition frame_lines (e : Event) : list bytes :=
  match comment e with Some c => prefixed (b!": ") c | None => [] end
  ++ opt_line (b!"event: ") (event e) ++ opt_line (b!"id: ") (id e)
  ++ opt_line (b!"retry: ") (show_uint <$> retry e)
  ++ (if negb (bool_decide (data e = [])) || (is_none (comment e) && is_none (event e))
      then prefixed (b!"data: ") (data e) else []).

Definition unlines (ls : list bytes) : bytes := concat (map (fun l => l ++ [x0a]) ls).

Lemma unlines_app l1 l2 : unlines (l1 ++ l2) = unlines l1 ++ unlines l2.
Proof. unfold unlines. by rewrite map_app, concat_app. Qed.

Lemma push_lines_spec p out t : push_lines p out t = out ++ unlines (prefixed p t).
Proof.
  unfold push_lines, prefixed. generalize (split_on x0a t) as ls. intros ls. revert out.
  induction ls as [|l ls IH]; intros out; [by rewrite app_nil_r|]. cbn [foldl map].
  rewrite IH. unfold unlines. cbn [map concat]. by rewrite <- !app_assoc.
Qed.

Lemma to_frame_lines e : to_frame e = unlines (frame_lines e ++ [[]]).
Proof.
  unfold to_frame, frame_lines. cbv zeta. rewrite !unlines_app.
  destruct (comment e), (event e), (id e), (retry e);
    (destruct (_ || _); [rewrite push_lines_spec|]); rewrite ?push_lines_spec;
    unfold unlines; cbn [opt_line fmap option_fmap option_map map concat app];
    rewrite ?app_nil_r, <- ?app_assoc; done.
Qed.

Lemma lines_unlines ls : Forall (fun l => x0a ∉ l) ls -> lines (unlines ls) = (ls, []).
Proof.
  induction 1 as [|l ls Hl _ IH]; [done|]. unfold unlines. cbn [map concat]. fold (unlines ls).
  rewrite <- app_assoc. cbn [app]. rewrite lines_cons by done. by rewrite IH.
Qed.

(** A line the decoder takes as it is. *)
Definition plain (l : bytes) : Prop := x0a ∉ l /\ x0d ∉ l /\ Utf8.is_utf8 l = true.

Lemma pop_if_absent b v : b ∉ v -> pop_if b v = v.
Proof.
  intros Hb. unfold pop_if. destruct (rev v) as [|x r] eqn:E; [done|].
  rewrite bool_decide_false; [done|]. intros ->. apply Hb.
  rewrite <- (rev_involutive v), E. simpl. set_solver.
Qed.

Lemma pop_if_snoc b v : pop_if b (v ++ [b]) = v.
Proof. unfold pop_if. rewrite rev_app_distr. simpl. rewrite bool_decide_true by done. apply rev_involutive. Qed.

Lemma line_step_plain l e d : plain l -> l <> [] -> line_step l e d = ([], field l e, true).
Proof.
  intros (_ & Hr & Hu) Hne. unfold line_step. rewrite pop_if_absent, lossy_valid by done.
  by rewrite bool_decide_false.
Qed.

Lemma run_plain ls : forall e d,
  Forall (fun l => plain l /\ l <> []) ls ->
  run_lines ls e d = (foldl (fun e l => field l e) e ls, match ls with [] => d | _ => true end, []).
Proof.
  induction ls as [|l ls IH]; intros e d H; [done|]. inv H. destruct H2 as [Hp Hne].
  cbn [run_lines foldl]. rewrite line_step_plain by done. rewrite IH by done. by destruct ls.
Qed.

(** A named field. *)
Lemma field_named name v e :
  x3a ∉ name -> name <> [] ->
  field (name ++ b!": " ++ v) e =
  if bool_decide (name = b!"data") then mkEvent ((data e ++ v) ++ [x0a]) (event e) (id e) (retry e) (comment e)
  else if bool_decide (name = b!"event") then mkEvent (data e) (Some v) (id e) (retry e) (comment e)
  else if bool_decide (name = b!"id") then mkEvent (data e) (event e) (Some v) (retry e) (comment e)
  else if bool_decide (name = b!"retry") then
    match parse_u64 v with
    | Some ms => mkEvent (data e) (event e) (id e) (Some ms) (comment e)
    | None => e
    end
  else e.
Proof.
  intros Hn Hne. unfold field.
  assert (strip_prefix (name ++ b!": " ++ v) [x3a] = None) as ->.
  { unfold strip_prefix. destruct name as [|x name]; [done|]. cbn [app starts_with].
    rewrite bool_decide_false by set_solver. done. }
  change (b!": " ++ v) with (x3a :: (x20 :: v)). rewrite split_once_app by done.
  unfold strip_space. change (x20 :: v) with ([x20] ++ v). by rewrite strip_prefix_app.
Qed.

Lemma field_comment l e :
  field (b!": " ++ l) e =
  let c := default [] (comment e) in
  let c := if bool_decide (c = []) then c else c ++ [x0a] in
  mkEvent (data e) (event e) (id e) (retry e) (Some (c ++ l)).
Proof.
  unfold field. change (b!": " ++ l) with ([x3a] ++ (x20 :: l)). rewrite strip_prefix_app.
  unfold strip_space. change (x20 :: l) with ([x20] ++ l). by rewrite strip_prefix_app.
Qed.

Lemma fold_data ls e :
  foldl (fun e l => field l e) e (map (app (b!"data: ")) ls) =
  mkEvent (data e ++ unlines ls) (event e) (id e) (retry e) (comment e).
Proof.
  revert e. induction ls as [|l ls IH]; intros e; cbn [map foldl].
  - unfold unlines. simpl. rewrite app_nil_r. by destruct e.
  - change (b!"data: " ++ l) with (b!"data" ++ b!": " ++ l).
    rewrite field_named by (done || (vm_compute; set_solver)). rewrite bool_decide_true by done.
    rewrite IH. unfold unlines. cbn [data event id retry comment map concat]. by rewrite <- !app_assoc.
Qed.

Lemma unlines_join ls : ls <> [] -> unlines ls = join [x0a] ls ++ [x0a].
Proof.
  induction ls as [|l ls IH]; intros H; [done|]. unfold unlines in *. cbn [map concat].
  destruct ls as [|l' ls]; [by rewrite app_nil_r|]. rewrite IH by done.
  change (join [x0a] (l :: l' :: ls)) with (l ++ [x0a] ++ join [x0a] (l' :: ls)). by rewrite <- !app_assoc.
Qed.

(** Comment lines accumulate with newlines once the comment is non-empty. *)
Lemma fold_comment_tail ls : forall e c,
  comment e = Some c -> c <> [] ->
  foldl (fun e l => field l e) e (map (app (b!": ")) ls) =
  mkEvent (data e) (event e) (id e) (retry e) (Some (c ++ concat (map (app [x0a]) ls))).
Proof.
  induction ls as [|l ls IH]; intros e c Hc Hne; cbn [map foldl concat].
  - rewrite app_nil_r, <- Hc. by destruct e.
  - rewrite field_comment, Hc. cbn [default]. change (Datatypes.id c) with c. rewrite bool_decide_false by done.
    rewrite (IH _ ((c ++ [x0a]) ++ l)); [|done|by destruct c]. cbn [data event id retry].
    by rewrite <- !app_assoc.
Qed.

Lemma join_alt w ws : join [x0a] (w :: ws) = w ++ concat (map (app [x0a]) ws).
Proof.
  revert w. induction ws as [|w' ws IH]; intros w; [by rewrite app_nil_r|].
  change (join [x0a] (w :: w' :: ws)) with (w ++ [x0a] ++ join [x0a] (w' :: ws)). rewrite IH. done.
Qed.

Lemma fold_comment c e :
  comment e = None -> head c <> Some x0a ->
  foldl (fun e l => field l e) e (prefixed (b!": ") c) =
  mkEvent (data e) (event e) (id e) (retry e) (Some c).
Proof.
  intros Hn Hh. unfold prefixed. pose proof (join_split_on x0a c) as Hj.
  destruct (split_on x0a c) as [|w ws] eqn:E; [by destruct (split_on_nonempty x0a c)|].
  cbn [map foldl]. rewrite field_comment, Hn. cbn [default]. change (Datatypes.id (@nil byte)) with (@nil byte).
  rewrite bool_decide_true by done. cbn [app]. destruct w as [|x w].
  - destruct ws as [|w' ws]; [simpl in *; by subst|]. rewrite join_alt in Hj. simpl in Hj. by subst.
  - rewrite (fold_comment_tail ws _ (x :: w)) by done. rewrite <- join_alt, Hj. done.
Qed.

(** ** The round trip *)

(** The events whose fields survive the wire format: one-line names, no carriage return, Rust strings, a
    comment without a leading empty line. *)
Definition one_line (o : option bytes) : Prop :=
  match o with Some v => plain v | None => True end.

Definition many_lines (v : bytes) : Prop := x0d ∉ v /\ Utf8.is_utf8 v = true.

Definition framable (e : Event) : Prop :=
  many_lines (data e) /\ one_line (event e) /\ one_line (id e)
  /\ match retry e with Some r => 0 <= r <= u64_max | None => True end
  /\ match comment e with Some c => many_lines c /\ head c <> Some x0a | None => True end.

Definition ascii_plain (p : bytes) : Prop :=
  p <> [] /\ Forall (fun c => b2z c < 128 /\ c <> x0a /\ c <> x0d) p.

Lemma plain_prefix p v : ascii_plain p -> plain v -> plain (p ++ v) /\ p ++ v <> [].
Proof.
  intros [Hne Hp] (Hn & Hr & Hu). rewrite Forall_forall in Hp. split; [|by destruct p].
  split_and!.
  - rewrite elem_of_app. intros [H|H]; [by destruct (Hp _ H) as (_ & ? & _)|done].
  - rewrite elem_of_app. intros [H|H]; [by destruct (Hp _ H) as (_ & _ & ?)|done].
  - rewrite is_utf8_ascii_app; [done|]. rewrite Forall_forall. intros c Hc. by destruct (Hp _ Hc).
Qed.

Lemma split_on_subset c s w : w ∈ split_on c s -> forall x, x ∈ w -> x ∈ s.
Proof.
  intros Hw x Hx. rewrite <- (join_split_on c s). revert Hw. generalize (split_on c s) as ws.
  induction ws as [|v ws IH]; intros Hw; [set_solver|].
  destruct ws as [|v' ws]; [simpl; set_solver|].
  change (join [c] (v :: v' :: ws)) with (v ++ [c] ++ join [c] (v' :: ws)). set_solver.
Qed.

Lemma prefixed_plain p t :
  ascii_plain p -> many_lines t -> Forall (fun l => plain l /\ l <> []) (prefixed p t).
Proof.
  intros Hp [Hr Hu]. unfold prefixed. rewrite Forall_forall. intros l Hl.
  apply list_elem_of_fmap in Hl as (w & -> & Hw). apply plain_prefix; [done|]. split_and!.
  - pose proof (split_on_avoids x0a t) as Ha. rewrite Forall_forall in Ha. by apply Ha.
  - intros H. apply Hr. by eapply split_on_subset.
  - pose proof (split_on_utf8 x0a t) as Ha. rewrite Forall_forall in Ha. apply Ha; [by vm_compute|done|done].
Qed.

Lemma opt_line_plain p o :
  ascii_plain p -> one_line o -> Forall (fun l => plain l /\ l <> []) (opt_line p o).
Proof. intros Hp Ho. destruct o; [constructor; [by apply plain_prefix|done]|done]. Qed.

Lemma show_uint_plain r : 0 <= r -> plain (show_uint r).
Proof.
  intros Hr. destruct (show_uint_digits r Hr) as (_ & Hd & _).
  assert (forall c, F64.is_digit c = true -> b2z c < 128 /\ c <> x0a /\ c <> x0d) as H.
  { intros c Hc. destruct c; try done; vm_compute in Hc; done. }
  rewrite Forall_forall in Hd. split_and!.
  - intros Hin. by destruct (H _ (Hd _ Hin)) as (_ & ? & _).
  - intros Hin. by destruct (H _ (Hd _ Hin)) as (_ & _ & ?).
  - apply is_utf8_ascii. rewrite Forall_forall. intros c Hc. by destruct (H _ (Hd _ Hc)).
Qed.

Ltac ascii_prefix := by (split; [done|repeat constructor; vm_compute; congruence]).

Lemma frame_lines_plain e : framable e -> Forall (fun l => plain l /\ l <> []) (frame_lines e).
Proof.
  intros (Hd & He & Hi & Hr & Hc). unfold frame_lines. rewrite !Forall_app. split_and!.
  - destruct (comment e); [|done]. apply prefixed_plain; [ascii_prefix|tauto].
  - apply opt_line_plain; [ascii_prefix|done].
  - apply opt_line_plain; [ascii_prefix|done].
  - apply opt_line_plain; [ascii_prefix|]. destruct (retry e); [|done]. apply show_uint_plain. lia.
  - destruct (_ || _); [|done]. apply prefixed_plain; [ascii_prefix|done].
Qed.

Lemma parse_u64_show r : 0 <= r <= u64_max -> parse_u64 (show_uint r) = Some r.
Proof.
  intros Hr. destruct (show_uint_digits r) as (Hne & Hd & Hv); [lia|].
  unfold parse_u64. rewrite parse_uint_digits by (done || (unfold u64_max in *; lia)).
  by rewrite Hv, (proj2 (Z.leb_le _ _)) by lia.
Qed.

Lemma frame_lines_fold e :
  framable e ->
  foldl (fun e l => field l e) default_event (frame_lines e) =
  mkEvent (if negb (bool_decide (data e = [])) || (is_none (comment e) && is_none (event e))
           then data e ++ [x0a] else [])
          (event e) (id e) (retry e) (comment e).
Proof.
  intros (_ & _ & _ & Hr & Hc). unfold frame_lines. rewrite !foldl_app.
  assert (foldl (fun e l => field l e) default_event
            match comment e with Some c => prefixed (b!": ") c | None => [] end
          = mkEvent [] None None None (comment e)) as ->.
  { destruct (comment e) as [c|]; [|done]. by rewrite fold_comment by (done || tauto). }
  assert (forall d c, foldl (fun e l => field l e) (mkEvent d None None None c)
            (opt_line (b!"event: ") (event e)) = mkEvent d (event e) None None c) as ->.
  { intros d c. destruct (event e) as [v|]; [|done]. cbn [opt_line foldl].
    change (b!"event: ") with (b!"event" ++ b!": "). rewrite <- app_assoc.
    by rewrite field_named by (done || (vm_compute; set_solver)). }
  assert (forall d x c, foldl (fun e l => field l e) (mkEvent d x None None c)
            (opt_line (b!"id: ") (id e)) = mkEvent d x (id e) None c) as ->.
  { intros d x c. destruct (id e) as [v|]; [|done]. cbn [opt_line foldl].
    change (b!"id: ") with (b!"id" ++ b!": "). rewrite <- app_assoc.
    by rewrite field_named by (done || (vm_compute; set_solver)). }
  assert (forall d x y c, foldl (fun e l => field l e) (mkEvent d x y None c)
            (opt_line (b!"retry: ") (show_uint <$> retry e)) = mkEvent d x y (retry e) c) as ->.
  { intros d x y c. destruct (retry e) as [r|]; [|done]. cbn [opt_line foldl fmap option_fmap option_map].
    change (b!"retry: ") with (b!"retry" ++ b!": "). rewrite <- app_assoc.
    rewrite field_named by (done || (vm_compute; set_solver)). cbn [bool_decide].
    by rewrite parse_u64_show. }
  destruct (_ || _); [|done]. unfold prefixed. rewrite fold_data. cbn [data event id retry comment app].
  rewrite unlines_join by apply split_on_nonempty. by rewrite join_split_on.
Qed.

(** A frame's lines give the event back and leave the decoder as it started. *)
Lemma run_frame e :
  framable e ->
  run_lines (frame_lines e ++ [[]]) default_event false = (default_event, false, [e]).
Proof.
  intros He. rewrite run_lines_app, (run_plain (frame_lines e)) by (by apply frame_lines_plain).
  rewrite frame_lines_fold by done.
  assert (match frame_lines e with [] => false | _ => true end = true) as ->.
  { unfold frame_lines. destruct (comment e) as [c|]; unfold prefixed.
    - pose proof (split_on_nonempty x0a c). by destruct (split_on x0a c).
    - destruct (event e); [done|]. cbn [is_none andb orb]. rewrite orb_true_r.
      pose proof (split_on_nonempty x0a (data e)).
      destruct (opt_line _ (id e)), (opt_line _ (show_uint <$> retry e)), (split_on x0a (data e)); done. }
  cbn [run_lines]. unfold line_step. cbn [data event id retry comment app].
  rewrite bool_decide_true by done. cbn [app]. repeat f_equal.
  destruct e as [d ev i r c]. cbn [data event id retry comment]. f_equal.
  case_bool_decide as Hd; cbn [negb orb].
  - destruct (_ && _); [by rewrite pop_if_snoc|by subst].
  - apply pop_if_snoc.
Qed.

Lemma run_frames es :
  Forall framable es ->
  run_lines (concat (map (fun e => frame_lines e ++ [[]]) es)) default_event false = (default_event, false, es).
Proof.
  induction 1 as [|e es He _ IH]; [done|]. cbn [map concat]. rewrite run_lines_app, run_frame by done.
  by rewrite IH.
Qed.

Lemma frames_unlines es :
  concat (map to_frame es) = unlines (concat (map (fun e => frame_lines e ++ [[]]) es)).
Proof.
  induction es as [|e es IH]; [done|]. cbn [map concat]. by rewrite unlines_app, <- to_frame_lines, IH.
Qed.

Lemma frames_decode es chunks :
  Forall framable es -> concat chunks = concat (map to_frame es) ->
  push_all dec_new chunks = Some (dec_new, es).
Proof.
  intros Hes Hc. rewrite push_all_spec by done. rewrite push_spec, Hc. cbn [buf dec_new app cur dirty].
  rewrite frames_unlines, lines_unlines.
  - cbn [fst snd]. by rewrite run_frames.
  - apply Forall_concat, Forall_map. eapply Forall_impl; [exact Hes|]. intros e He. cbn beta.
    apply Forall_app. split; [|by repeat constructor; set_solver].
    eapply Forall_impl; [by apply frame_lines_plain|]. by intros l [(Hl & _) _].
Qed.

(** ** Properties *)

(** The decoder's output does not depend on how the network splits the stream: feeding chunks one after
    another gives the same events and leaves the same state as feeding their concatenation at once, whatever
    the bytes are (malformed lines and invalid UTF-8 included). *)
Theorem sse_chunking_irrelevant (d : SseDecoder) (chunks : list bytes) :
  x0a ∉ buf d -> push_all d chunks = push d (concat chunks).
Proof. intros Hb. apply push_all_spec. by rewrite lines_none. Qed.

Lemma sse_chunking_irrelevant_witness :
  push_all dec_new [b!"data: hel"; b!"lo"; [x0a]; [x0a]] = push dec_new (b!"data: hello" ++ [x0a; x0a]).
Proof. apply (sse_chunking_irrelevant dec_new [b!"data: hel"; b!"lo"; [x0a]; [x0a]]). set_solver. Defined.

(** Round trip of server-sent events: the frames [to_frame] writes for any sequence of events, cut into
    chunks anywhere, decode to exactly those events in order, and the decoder is left in its initial state
    (nothing buffered, no event under construction). The fields must fit the format: the event name and id on
    one line, no carriage return, a comment that does not start with an empty line. *)
Theorem sse_roundtrip (es : list Event) (chunks : list bytes) :
  Forall framable es -> concat chunks = concat (map to_frame es) ->
  push_all dec_new chunks = Some (dec_new, es).
Proof. apply frames_decode. Qed.

Lemma sse_roundtrip_witness :
  let e1 := mkEvent (b!"a" ++ [x0a] ++ b!"b") (Some (b!"msg")) (Some (b!"7")) (Some 3000) None in
  let e2 := keep_alive (b!"ping") in
  push_all dec_new [take 9 (to_frame e1 ++ to_frame e2); drop 9 (to_frame e1 ++ to_frame e2)]
  = Some (dec_new, [e1; e2]).
Proof.
  intros e1 e2. apply (sse_roundtrip [e1; e2]).
  - repeat constructor; vm_compute; (done || set_solver || congruence).
  - by vm_compute.
Defined.

(** A comment whose first line is empty loses that line: the decoder only writes the separating newline once
    the comment is non-empty. *)
Example comment_leading_newline_lost :
  push dec_new (to_frame (keep_alive ([x0a] ++ b!"x"))) = Some (dec_new, [keep_alive (b!"x")]).
Proof. vm_compute. reflexivity. Qed.
