(* ===== verification/HttpCore.v ===== *)
(** * HTTP: messages and wire format ([http/core.rs], [http/io.rs], [http/error.rs])

    Methods, status codes, header maps and URIs, the request and response heads as the server and the client
    read them, and the request writer.  A reader is the list of the bytes the peer still sends before it
    closes; a transport failure other than the close is not distinguished from it. *)

From S2P Require Import Prelude Text Scan.

Open Scope Z_scope.

Module HttpCore.

Definition CRLF : bytes := [x0d; x0a].

(** ** [http/error.rs] *)

Inductive IoKind := UnexpectedEof | InvalidData.

Inductive HttpError :=
| InvalidUrl (msg : bytes)
| Io (kind : IoKind)
| Tls (msg : bytes)
| Protocol (msg : bytes)
| Timeout.

(** ** [http/core.rs] *)

Inductive Method :=
| Get | Post | Put | Delete | Patch | Head | Options | Trace | Connect
| Other (s : bytes).

Definition as_str (m : Method) : bytes :=
  match m with
  | Get => b!"GET"
  | Post => b!"POST"
  | Put => b!"PUT"
  | Delete => b!"DELETE"
  | Patch => b!"PATCH"
  | Head => b!"HEAD"
  | Options => b!"OPTIONS"
  | Trace => b!"TRACE"
  | Connect => b!"CONNECT"
  | Other s => s
  end.

Definition parse_method (s : bytes) : Method :=
  if bool_decide (s = b!"GET") then Get
  else if bool_decide (s = b!"POST") then Post
  else if bool_decide (s = b!"PUT") then Put
  else if bool_decide (s = b!"DELETE") then Delete
  else if bool_decide (s = b!"PATCH") then Patch
  else if bool_decide (s = b!"HEAD") then Head
  else if bool_decide (s = b!"OPTIONS") then Options
  else if bool_decide (s = b!"TRACE") then Trace
  else if bool_decide (s = b!"CONNECT") then Connect
  else Other s.

(** [StatusCode(pub u16)] *)
Definition StatusCode := Z.

Definition OK : StatusCode := 200.
Definition BAD_REQUEST : StatusCode := 400.
Definition PAYLOAD_TOO_LARGE : StatusCode := 413.

Definition is_success (s : StatusCode) : bool := (200 <=? s) && (s <? 300).

Definition reason (s : StatusCode) : bytes :=
  match s with
  | 200 => b!"OK"
  | 201 => b!"Created"
  | 202 => b!"Accepted"
  | 204 => b!"No Content"
  | 301 => b!"Moved Permanently"
  | 302 => b!"Found"
  | 304 => b!"Not Modified"
  | 400 => b!"Bad Request"
  | 401 => b!"Unauthorized"
  | 403 => b!"Forbidden"
  | 404 => b!"Not Found"
  | 405 => b!"Method Not Allowed"
  | 409 => b!"Conflict"
  | 413 => b!"Payload Too Large"
  | 422 => b!"Unprocessable Entity"
  | 429 => b!"Too Many Requests"
  | 500 => b!"Internal Server Error"
  | 502 => b!"Bad Gateway"
  | 503 => b!"Service Unavailable"
  | _ => b!""
  end.

(** [HeaderMap]: the entries in insertion order. *)
Definition HeaderMap := list (bytes * bytes).

Definition strip_crlf (s : bytes) : bytes :=
  if existsb (fun c => bool_decide (c = x0d) || bool_decide (c = x0a)) s
  then List.filter (fun c => negb (bool_decide (c = x0d)) && negb (bool_decide (c = x0a))) s
  else s.

Definition set (h : HeaderMap) (name value : bytes) : HeaderMap :=
  let name := strip_crlf name in
  List.filter (fun e => negb (eq_ignore_ascii_case e.1 name)) h ++ [(name, strip_crlf value)].

Definition append (h : HeaderMap) (name value : bytes) : HeaderMap :=
  h ++ [(strip_crlf name, strip_crlf value)].

Definition get (h : HeaderMap) (name : bytes) : option bytes :=
  snd <$> List.find (fun e => eq_ignore_ascii_case e.1 name) h.

Definition contains (h : HeaderMap) (name : bytes) : bool :=
  existsb (fun e => eq_ignore_ascii_case e.1 name) h.

Definition content_length (h : HeaderMap) : option Z :=
  v ← get h (b!"content-length"); parse_u64 (trim v).

(** The loop of [content_length_checked]. *)
Fixpoint content_length_loop (h : HeaderMap) (seen : option Z) : Result (option Z) HttpError :=
  match h with
  | [] => Ok seen
  | (k, v) :: h =>
      if eq_ignore_ascii_case k (b!"content-length") then
        let? n := ok_or (parse_u64 (trim v)) (Protocol (b!"invalid Content-Length")) in
        match seen with
        | Some prev =>
            if negb (prev =? n) then Err (Protocol (b!"conflicting Content-Length values"))
            else content_length_loop h (Some n)
        | None => content_length_loop h (Some n)
        end
      else content_length_loop h seen
  end.

Definition content_length_checked (h : HeaderMap) : Result (option Z) HttpError := content_length_loop h None.

(** [s.contains(pat)] *)
Fixpoint contains_str (s pat : bytes) : bool :=
  starts_with s pat || match s with [] => false | _ :: s' => contains_str s' pat end.

Definition is_chunked (h : HeaderMap) : bool :=
  match get h (b!"transfer-encoding") with
  | Some v => contains_str (to_ascii_lowercase v) (b!"chunked")
  | None => false
  end.

Record Uri := mkUri {
  scheme : bytes;
  host : bytes;
  port : Z;                 (** [u16] *)
  path : bytes;
  query : option bytes;
}.

Definition split_target (target : bytes) : bytes * option bytes :=
  let '(path, query) := match split_once x3f target with
                        | Some (p, q) => (p, Some q)
                        | None => (target, None)
                        end in
  (if bool_decide (path = []) then b!"/" else path, query).

(** [s.split_once(pat)] for a string pattern. *)
Fixpoint split_once_str (pat s : bytes) : option (bytes * bytes) :=
  match strip_prefix s pat with
  | Some r => Some ([], r)
  | None =>
      match s with
      | [] => None
      | c :: s' => match split_once_str pat s' with
                   | Some (a, b) => Some (c :: a, b)
                   | None => None
                   end
      end
  end.

(** [s.rsplit_once(c)] for an ASCII separator. *)
Definition rsplit_once (c : byte) (s : bytes) : option (bytes * bytes) :=
  match split_once c (rev s) with
  | Some (b, a) => Some (rev a, rev b)
  | None => None
  end.

(** [rest.find(['/', '?'])] cut there: the authority and the remainder. *)
Fixpoint split_authority (s : bytes) : bytes * bytes :=
  match s with
  | [] => ([], [])
  | c :: s' =>
      if bool_decide (c = x2f) || bool_decide (c = x3f) then ([], s)
      else let '(a, r) := split_authority s' in (c :: a, r)
  end.

Definition default_port (scheme : bytes) : option Z :=
  if bool_decide (scheme = b!"http") || bool_decide (scheme = b!"ws") then Some 80
  else if bool_decide (scheme = b!"https") || bool_decide (scheme = b!"wss") then Some 443
  else None.

(** [Uri::parse] *)
Definition parse_uri (url : bytes) : Result Uri HttpError :=
  let? (scheme, rest) := ok_or (split_once_str (b!"://") url) (InvalidUrl url) in
  let scheme := to_ascii_lowercase scheme in
  let? dport := ok_or (default_port scheme) (InvalidUrl (b!"unsupported scheme: " ++ scheme)) in
  let '(authority, remainder) := split_authority rest in
  let? (host, port) :=
    match rsplit_once x3a authority with
    | Some (h, p) =>
        let? port := ok_or (parse_uint 10 u16_max p) (InvalidUrl url) in Ok (h, port)
    | None => Ok (authority, dport)
    end in
  if bool_decide (host = []) then Err (InvalidUrl url)
  else
    let '(path, query) := split_target remainder in
    Ok (mkUri scheme host port path query).

Definition is_tls (u : Uri) : bool := bool_decide (scheme u = b!"https") || bool_decide (scheme u = b!"wss").

Definition authority (u : Uri) : bytes :=
  let default := if is_tls u then 443 else 80 in
  if port u =? default then host u else host u ++ b!":" ++ show_uint (port u).

Definition request_target (u : Uri) : bytes :=
  match query u with
  | Some q => path u ++ b!"?" ++ q
  | None => path u
  end.

(** [Request] ([http/message.rs]) *)
Record Request := mkRequest {
  method : Method;
  uri : Uri;
  headers : HeaderMap;
  body : bytes;
}.

(** ** [http/io.rs] *)

Definition MAX_LINE_BYTES : Z := 16 * 1024.
Definition MAX_HEADERS : Z := 128.
Definition MAX_HEADER_TOTAL_BYTES : Z := 64 * 1024.

Definition len (s : bytes) : Z := Z.of_nat (length s).

(** The loop of [read_line_capped]: the line's bytes and what is left to read. *)
Fixpoint read_line_loop (cap : Z) (inp buf : bytes) : Result (bytes * bytes) HttpError :=
  match inp with
  | [] => Ok (buf, [])
  | byte :: inp =>
      let buf := buf ++ [byte] in
      if cap <? len buf then Err (Protocol (b!"request or header line too long"))
      else if bool_decide (byte = x0a) then Ok (buf, inp)
      else read_line_loop cap inp buf
  end.

(** [read_line_capped]: the text, the number of bytes read, the rest. *)
Definition read_line_capped (cap : Z) (inp : bytes) : Result (bytes * Z * bytes) HttpError :=
  let? (buf, rest) := read_line_loop cap inp [] in
  Ok (Utf8.from_utf8_lossy buf, len buf, rest).

(** [line.trim_end_matches(['\r', '\n'])] *)
Fixpoint drop_crlf (s : bytes) : bytes :=
  match s with
  | c :: s' => if bool_decide (c = x0d) || bool_decide (c = x0a) then drop_crlf s' else s
  | [] => []
  end.

Definition trim_end_crlf (s : bytes) : bytes := rev (drop_crlf (rev s)).

(** The loop of [read_headers]; every iteration that goes on has read at least one byte. *)
Fixpoint read_headers_loop (fuel : nat) (inp : bytes) (headers : HeaderMap) (total count : Z)
  : option (Result (HeaderMap * bytes) HttpError) :=
  match fuel with
  | O => None
  | S f =>
      let! (line, n, inp) := Some (read_line_capped MAX_LINE_BYTES inp) in
      if n =? 0 then Some (Ok (headers, inp))
      else
        let total := total + n in
        if MAX_HEADER_TOTAL_BYTES <? total then Some (Err (Protocol (b!"header block too large")))
        else
          let trimmed := trim_end_crlf line in
          if bool_decide (trimmed = []) then Some (Ok (headers, inp))
          else
            let count := count + 1 in
            if MAX_HEADERS <? count then Some (Err (Protocol (b!"too many headers")))
            else
              let headers := match split_once x3a trimmed with
                             | Some (k, v) => append headers (trim k) (trim v)
                             | None => headers
                             end in
              read_headers_loop f inp headers total count
  end.

Definition read_headers (inp : bytes) : option (Result (HeaderMap * bytes) HttpError) :=
  read_headers_loop (S (length inp)) inp [] 0 0.

(** [s.splitn(n, c)] for an ASCII separator. *)
Fixpoint splitn (n : nat) (c : byte) (s : bytes) : list bytes :=
  match n with
  | O => []
  | S O => [s]
  | S m => match split_once c s with
           | Some (a, b) => a :: splitn m c b
           | None => [s]
           end
  end.

Definition read_response_head (inp : bytes) : option (Result (StatusCode * HeaderMap * bytes) HttpError) :=
  let! (status_line, n, inp) := Some (read_line_capped MAX_LINE_BYTES inp) in
  if n =? 0 then Some (Err (Protocol (b!"empty response")))
  else
    let parts := splitn 3 x20 (trim_end status_line) in
    let! code := Some (ok_or (c ← parts !! 1%nat; parse_uint 10 u16_max c)
                             (Protocol (b!"bad status line: " ++ trim status_line))) in
    let! (headers, inp) := read_headers inp in
    Some (Ok (code, headers, inp)).

Definition read_request_head (inp : bytes) : option (Result (Method * bytes * HeaderMap * bytes) HttpError) :=
  let! (request_line, n, inp) := Some (read_line_capped MAX_LINE_BYTES inp) in
  if n =? 0 then Some (Err (Protocol (b!"empty request")))
  else
    let parts := split_on x20 (trim_end request_line) in
    let! method := Some (ok_or (parse_method <$> parts !! 0%nat) (Protocol (b!"no method"))) in
    let! target := Some (ok_or (parts !! 1%nat) (Protocol (b!"no target"))) in
    let! (headers, inp) := read_headers inp in
    Some (Ok (method, target, headers, inp)).

Definition header_line (e : bytes * bytes) : bytes := e.1 ++ b!": " ++ e.2 ++ CRLF.

(** [write_request]: the bytes it puts on the wire. *)
Definition write_request (req : Request) : bytes :=
  let head := as_str (method req) ++ b!" " ++ request_target (uri req) ++ b!" HTTP/1.1" ++ CRLF in
  let head := if negb (contains (headers req) (b!"host"))
              then head ++ b!"Host: " ++ authority (uri req) ++ CRLF else head in
  let head := foldl (fun head e => head ++ header_line e) head (headers req) in
  let head := if negb (bool_decide (body req = [])) && negb (contains (headers req) (b!"content-length"))
              then head ++ b!"Content-Length: " ++ show_uint (len (body req)) ++ CRLF else head in
  let head := head ++ CRLF in
  if negb (bool_decide (body req = [])) then head ++ body req else head.

(** [Framing] ([http/message.rs]) and [response_framing] *)
Inductive Framing := Length (n : Z) | Chunked | Eof | Done.

Definition response_framing (status : StatusCode) (h : HeaderMap) : Framing :=
  if (status =? 204) || (status =? 304) || ((100 <=? status) && (status <? 200)) then Done
  else if is_chunked h then Chunked
  else match content_length h with
       | Some n => Length n
       | None => Eof
       end.

End HttpCore.

Import HttpCore.

(** ** Header maps as multimaps over lower-case names *)

(** Reference: the values stored under a name, in order. *)
Definition values (h : HeaderMap) (name : bytes) : list bytes :=
  map snd (List.filter (fun e => eq_ignore_ascii_case e.1 name) h).

Definition clean (s : bytes) : Prop := x0d ∉ s /\ x0a ∉ s.

Definition clean_map (h : HeaderMap) : Prop := Forall (fun e => clean e.1 /\ clean e.2) h.

Lemma strip_crlf_clean s : clean (strip_crlf s).
Proof.
  unfold strip_crlf, clean. destruct (existsb _ s) eqn:E.
  - split; rewrite list_elem_of_In, filter_In; intros [_ H];
      repeat case_bool_decide; done.
  - split; intros Hin; rewrite <- not_true_iff_false, existsb_exists in E; apply E;
      eexists; (split; [by apply list_elem_of_In|]); by repeat case_bool_decide.
Qed.

Lemma strip_crlf_id s : clean s -> strip_crlf s = s.
Proof.
  intros [Hr Hn]. unfold strip_crlf. destruct (existsb _ s) eqn:E; [|done].
  apply existsb_exists in E as (c & Hc & H). apply list_elem_of_In in Hc.
  apply orb_true_iff in H as [H|H]; apply bool_decide_eq_true in H; by subst.
Qed.

Lemma eq_ic_spec a b : eq_ignore_ascii_case a b = true <-> to_ascii_lowercase a = to_ascii_lowercase b.
Proof. unfold eq_ignore_ascii_case. by rewrite bool_decide_eq_true. Qed.

Lemma eq_ic_sym a b : eq_ignore_ascii_case a b = eq_ignore_ascii_case b a.
Proof. unfold eq_ignore_ascii_case. by apply bool_decide_ext. Qed.

Lemma eq_ic_trans a b c : eq_ignore_ascii_case a b = true -> eq_ignore_ascii_case a c = eq_ignore_ascii_case b c.
Proof. rewrite eq_ic_spec. intros H. unfold eq_ignore_ascii_case. by rewrite H. Qed.

Lemma get_values h name : get h name = head (values h name).
Proof.
  unfold get, values. induction h as [|e h IH]; [done|]. cbn [List.find List.filter].
  destruct (eq_ignore_ascii_case e.1 name); [done|exact IH].
Qed.

Lemma contains_values h name : contains h name = match values h name with [] => false | _ => true end.
Proof.
  unfold contains, values. induction h as [|e h IH]; [done|]. cbn [existsb List.filter].
  destruct (eq_ignore_ascii_case e.1 name); [done|exact IH].
Qed.

Lemma values_app h1 h2 name : values (h1 ++ h2) name = values h1 name ++ values h2 name.
Proof. unfold values. by rewrite List.filter_app, map_app. Qed.

Lemma values_one k v name : values [(k, v)] name = if eq_ignore_ascii_case k name then [v] else [].
Proof. unfold values. cbn [List.filter fst]. by destruct (eq_ignore_ascii_case k name). Qed.

Lemma values_retain h k name :
  values (List.filter (fun e => negb (eq_ignore_ascii_case e.1 k)) h) name =
  if eq_ignore_ascii_case k name then [] else values h name.
Proof.
  unfold values. induction h as [|e h IH]; [by destruct (eq_ignore_ascii_case k name)|]. cbn [List.filter].
  destruct (eq_ignore_ascii_case e.1 k) eqn:E; cbn [negb].
  - rewrite IH, (eq_ic_trans _ _ name E). by destruct (eq_ignore_ascii_case k name).
  - cbn [List.filter]. destruct (eq_ignore_ascii_case e.1 name) eqn:E'; cbn [map]; rewrite IH; [|done].
    destruct (eq_ignore_ascii_case k name) eqn:E''; [|done].
    rewrite eq_ic_sym in E''. rewrite (eq_ic_trans _ _ k E'), E'' in E. done.
Qed.

Lemma values_set h k v name :
  values (set h k v) name =
  if eq_ignore_ascii_case (strip_crlf k) name then [strip_crlf v] else values h name.
Proof.
  unfold set. rewrite values_app, values_retain, values_one.
  destruct (eq_ignore_ascii_case (strip_crlf k) name); [done|by rewrite app_nil_r].
Qed.

Lemma values_append h k v name :
  values (append h k v) name =
  values h name ++ (if eq_ignore_ascii_case (strip_crlf k) name then [strip_crlf v] else []).
Proof. unfold append. by rewrite values_app, values_one. Qed.

Lemma clean_append h k v : clean_map h -> clean_map (append h k v).
Proof.
  intros H. apply Forall_app. split; [done|].
  constructor; [|done]. split; apply strip_crlf_clean.
Qed.

Lemma clean_set h k v : clean_map h -> clean_map (set h k v).
Proof.
  intros H. unfold set. apply Forall_app. split.
  - unfold clean_map in H. rewrite !Forall_forall in *. intros e He. apply H.
    apply list_elem_of_In, filter_In in He as [He _]. by apply list_elem_of_In.
  - constructor; [|done]. split; apply strip_crlf_clean.
Qed.

(** [content_length_checked] accepts exactly the unanimous values. *)
Definition agreed (vs : list bytes) (n : Z) : Prop := Forall (fun v => parse_u64 (trim v) = Some n) vs.

Lemma content_length_loop_spec h : forall seen,
  match content_length_loop h seen with
  | Ok None => seen = None /\ values h (b!"content-length") = []
  | Ok (Some n) => (seen = Some n \/ seen = None /\ values h (b!"content-length") <> [])
                   /\ agreed (values h (b!"content-length")) n
  | Err _ => values h (b!"content-length") <> []
             /\ forall n, (seen = Some n \/ seen = None) -> ~ agreed (values h (b!"content-length")) n
  end.
Proof.
  induction h as [|[k v] h IH]; intros seen; cbn [content_length_loop].
  - destruct seen; [|done]. split; [by left|constructor].
  - change ((k, v) :: h) with ([(k, v)] ++ h). rewrite values_app, values_one.
    destruct (eq_ignore_ascii_case k (b!"content-length")); [|apply IH].
    destruct (parse_u64 (trim v)) as [n|] eqn:En; cbn [ok_or rbind app].
    2: { split; [done|]. intros n _ H. by inv H. }
    destruct seen as [prev|].
    + destruct (prev =? n) eqn:Ep; cbn [negb].
      * apply Z.eqb_eq in Ep as ->. specialize (IH (Some n)).
        destruct (content_length_loop h (Some n)) as [[m|]|].
        -- destruct IH as [[[= ->]|[]] IH]; [|done]. split; [by left|]. by constructor.
        -- by destruct IH.
        -- split; [done|]. intros m Hm Ha. inv Ha. by apply (proj2 IH n); [left|].
      * apply Z.eqb_neq in Ep. split; [done|]. intros m [[= ->]|] Ha; [|done]. by inv Ha.
    + specialize (IH (Some n)). destruct (content_length_loop h (Some n)) as [[m|]|].
      * destruct IH as [[[= ->]|[]] IH]; [|done]. split; [by right|]. by constructor.
      * by destruct IH.
      * split; [done|]. intros m _ Ha. inv Ha. by apply (proj2 IH n); [left|].
Qed.

(** ** Line ends *)

Lemma trim_end_crlf_tail s : trim_end (s ++ CRLF) = trim_end s.
Proof. change CRLF with ([x0d] ++ [x0a]). rewrite app_assoc, !trim_end_ws; done. Qed.

(** A byte below 0x80 that is not a carriage return or newline. *)
Lemma trim_end_crlf_line s : clean s -> trim_end_crlf (s ++ CRLF) = s.
Proof.
  intros [Hr Hn]. unfold trim_end_crlf, CRLF. rewrite rev_app_distr. cbn [rev app drop_crlf].
  assert (forall t, x0d ∉ t -> x0a ∉ t -> drop_crlf t = t) as Hd.
  { intros [|c t] H1 H2; [done|]. cbn [drop_crlf].
    rewrite !bool_decide_false; [done| |]; intros ->; set_solver. }
  simpl. rewrite Hd, rev_involutive; [done| |]; rewrite list_elem_of_In, <- in_rev, <- list_elem_of_In; done.
Qed.

(** ** Reading lines *)

Lemma len_app a b : len (a ++ b) = len a + len b.
Proof. unfold len. rewrite length_app. lia. Qed.

Lemma len_nonneg s : 0 <= len s.
Proof. unfold len. lia. Qed.

Lemma read_line_loop_line cap w rest : forall buf,
  x0a ∉ w -> len buf + len w + 1 <= cap ->
  read_line_loop cap (w ++ x0a :: rest) buf = Ok (buf ++ w ++ [x0a], rest).
Proof.
  induction w as [|c w IH]; intros buf Hw Hl; cbn [app read_line_loop].
  - rewrite (proj2 (Z.ltb_ge _ _)) by (rewrite len_app; unfold len in *; simpl in *; lia).
    by rewrite bool_decide_true.
  - rewrite (proj2 (Z.ltb_ge _ _)) by (rewrite len_app; unfold len in *; simpl in *; lia).
    rewrite bool_decide_false by set_solver.
    rewrite IH; [by rewrite <- app_assoc|set_solver|]. rewrite len_app. unfold len in *. simpl in *. lia.
Qed.

Lemma read_line_capped_line cap w rest :
  x0a ∉ w -> len w + 1 <= cap -> Utf8.is_utf8 w = true ->
  read_line_capped cap (w ++ x0a :: rest) = Ok (w ++ [x0a], len w + 1, rest).
Proof.
  intros Hw Hl Hu. unfold read_line_capped. rewrite read_line_loop_line by (done || (unfold len at 1; simpl; lia)).
  cbn [rbind app]. rewrite lossy_valid by (by apply is_utf8_app). by rewrite len_app.
Qed.

(** ** Reading what was written *)

(** A header that survives the wire: the name without a colon, no surrounding white space. *)
Definition header_ok (e : bytes * bytes) : Prop :=
  clean e.1 /\ clean e.2 /\ x3a ∉ e.1 /\ trim e.1 = e.1 /\ trim e.2 = e.2
  /\ Utf8.is_utf8 e.1 = true /\ Utf8.is_utf8 e.2 = true /\ len (header_line e) <= MAX_LINE_BYTES.

(** A header block within the limits. *)
Definition headers_ok (hs : HeaderMap) : Prop :=
  Forall header_ok hs /\ Z.of_nat (length hs) <= MAX_HEADERS
  /\ len (concat (map header_line hs)) + 2 <= MAX_HEADER_TOTAL_BYTES.

Lemma utf8_colon v : Utf8.is_utf8 v = true -> Utf8.is_utf8 (b!": " ++ v) = true.
Proof. intros H. rewrite is_utf8_ascii_app; [done|]. repeat constructor. Qed.

Lemma utf8_cr v : Utf8.is_utf8 v = true -> Utf8.is_utf8 (v ++ [x0d]) = true.
Proof. intros H. by apply is_utf8_app. Qed.

Lemma read_header_line cap e rest :
  header_ok e -> len (header_line e) <= cap ->
  read_line_capped cap (header_line e ++ rest) = Ok (header_line e, len (header_line e), rest).
Proof.
  intros ((_ & Hk) & (_ & Hv) & _ & _ & _ & Uk & Uv & _) Hl. destruct e as [k v]. cbn [fst snd] in *.
  assert (header_line (k, v) = (k ++ b!": " ++ v ++ [x0d]) ++ [x0a]) as E.
  { unfold header_line, CRLF. cbn [fst snd]. by rewrite <- !app_assoc. }
  rewrite E in *. rewrite len_app in *. change (len [x0a]) with 1 in *.
  rewrite <- (app_assoc _ [x0a] rest). cbn [app]. rewrite read_line_capped_line; [done| |lia|].
  - assert (x0a ∉ b!": ") by (vm_compute; set_solver). set_solver.
  - apply is_utf8_app; [done|]. rewrite app_assoc. apply utf8_cr. by apply utf8_colon.
Qed.

Lemma header_line_parts e :
  header_ok e ->
  split_once x3a (trim_end_crlf (header_line e)) = Some (e.1, x20 :: e.2) /\ trim_end_crlf (header_line e) <> [].
Proof.
  intros (Hk & Hv & Hc & _). destruct e as [k v]. cbn [fst snd] in *.
  assert (trim_end_crlf (header_line (k, v)) = k ++ x3a :: x20 :: v) as ->.
  { unfold header_line. cbn [fst snd]. rewrite !app_assoc, trim_end_crlf_line, <- app_assoc; [done|].
    destruct Hk, Hv. unfold clean. assert (x0d ∉ b!": ") by (vm_compute; set_solver).
    assert (x0a ∉ b!": ") by (vm_compute; set_solver). set_solver. }
  split; [by apply split_once_app|by destruct k].
Qed.

Lemma len_header_line_pos e : 0 < len (header_line e).
Proof. unfold header_line. rewrite !len_app. unfold CRLF, len. simpl. lia. Qed.

Lemma read_headers_lines hs rest : forall fuel acc total count,
  Forall header_ok hs -> (length hs < fuel)%nat ->
  count + Z.of_nat (length hs) <= MAX_HEADERS ->
  total + len (concat (map header_line hs)) + 2 <= MAX_HEADER_TOTAL_BYTES ->
  read_headers_loop fuel (concat (map header_line hs) ++ CRLF ++ rest) acc total count = Some (Ok (acc ++ hs, rest)).
Proof.
  induction hs as [|e hs IH]; intros [|fuel] acc total count Hok Hf Hc Ht; [simpl in Hf; lia| |simpl in Hf; lia|];
    cbn [read_headers_loop map concat length] in *.
  - change ([] ++ CRLF ++ rest) with ([x0d] ++ x0a :: rest).
    rewrite read_line_capped_line by (done || (vm_compute; (done || set_solver))). cbn [fbind].
    change (len [x0d] + 1 =? 0) with false. cbv iota.
    rewrite (proj2 (Z.ltb_ge _ _)) by (change (len [x0d] + 1) with 2; unfold len in *; simpl in *; lia).
    rewrite bool_decide_true by done. by rewrite app_nil_r.
  - inv Hok. rewrite len_app in Ht. pose proof (len_header_line_pos e). pose proof (len_nonneg (concat (map header_line hs))).
    assert (len (header_line e) <= MAX_LINE_BYTES) by (by destruct H1 as (_ & _ & _ & _ & _ & _ & _ & ?)).
    rewrite <- (app_assoc (header_line e)), read_header_line by done. cbn [fbind].
    rewrite (proj2 (Z.eqb_neq _ 0)) by lia. cbv zeta. rewrite (proj2 (Z.ltb_ge _ _)) by lia.
    destruct (header_line_parts e H1) as [Hs Hne]. rewrite bool_decide_false by done.
    rewrite (proj2 (Z.ltb_ge _ _)) by lia. rewrite Hs. rewrite IH by (done || lia).
    destruct H1 as (Hk & Hv & _ & Tk & Tv & _). unfold append. rewrite Tk.
    replace (trim (x20 :: e.2)) with (e.2) by (unfold trim; by rewrite trim_start_ws).
    rewrite !strip_crlf_id by done. rewrite <- app_assoc. by destruct e.
Qed.

Lemma read_headers_written hs rest :
  headers_ok hs -> read_headers (concat (map header_line hs) ++ CRLF ++ rest) = Some (Ok (hs, rest)).
Proof.
  intros (Hok & Hc & Ht). unfold read_headers. rewrite read_headers_lines; [done|done| |lia|lia].
  rewrite !length_app. assert (length hs <= length (concat (map header_line hs)))%nat; [|lia].
  clear. induction hs as [|e hs IH]; [done|]. cbn [map concat]. rewrite length_app.
  pose proof (len_header_line_pos e). unfold len in *. simpl. lia.
Qed.

(** The headers [write_request] puts on the wire. *)
Definition wire_headers (req : Request) : HeaderMap :=
  (if contains (headers req) (b!"host") then [] else [(b!"Host", authority (uri req))])
  ++ headers req
  ++ (if bool_decide (body req = []) || contains (headers req) (b!"content-length") then []
      else [(b!"Content-Length", show_uint (len (body req)))]).

Lemma foldl_header_lines hs : forall acc,
  foldl (fun head e => head ++ header_line e) acc hs = acc ++ concat (map header_line hs).
Proof.
  induction hs as [|e hs IH]; intros acc; cbn [foldl map concat]; [by rewrite app_nil_r|].
  by rewrite IH, <- app_assoc.
Qed.

Lemma write_request_wire req :
  write_request req =
  (as_str (method req) ++ b!" " ++ request_target (uri req) ++ b!" HTTP/1.1" ++ CRLF)
  ++ concat (map header_line (wire_headers req)) ++ CRLF ++ body req.
Proof.
  unfold write_request, wire_headers. cbv zeta. rewrite foldl_header_lines, !map_app, !concat_app.
  assert (header_line (b!"Host", authority (uri req)) = b!"Host: " ++ authority (uri req) ++ CRLF) as Eh by done.
  assert (header_line (b!"Content-Length", show_uint (len (body req)))
          = b!"Content-Length: " ++ show_uint (len (body req)) ++ CRLF) as Ec by done.
  destruct (contains (headers req) (b!"host")), (contains (headers req) (b!"content-length"));
    case_bool_decide as Hb; cbn [negb andb orb map concat]; rewrite ?Eh, ?Ec, ?Hb, ?app_nil_r;
    by rewrite <- ?app_assoc.
Qed.

(** A request line the server can take apart again. *)
Definition token_ok (s : bytes) : Prop := x20 ∉ s /\ x0a ∉ s /\ Utf8.is_utf8 s = true.

Definition request_ok (req : Request) : Prop :=
  token_ok (as_str (method req)) /\ parse_method (as_str (method req)) = method req
  /\ token_ok (request_target (uri req))
  /\ len (as_str (method req)) + len (request_target (uri req)) + 12 <= MAX_LINE_BYTES
  /\ headers_ok (wire_headers req).

Lemma start_line_read a b t rest :
  token_ok a -> token_ok b -> x0a ∉ t -> Utf8.is_utf8 t = true ->
  len a + len b + len t + 4 <= MAX_LINE_BYTES ->
  read_line_capped MAX_LINE_BYTES ((a ++ b!" " ++ b ++ b!" " ++ t ++ CRLF) ++ rest)
  = Ok ((a ++ b!" " ++ b ++ b!" " ++ t) ++ CRLF, len a + len b + len t + 4, rest).
Proof.
  intros (_ & Ha & Ua) (_ & Hb & Ub) Ht Ut Hl.
  replace ((a ++ b!" " ++ b ++ b!" " ++ t ++ CRLF) ++ rest)
    with ((a ++ b!" " ++ b ++ b!" " ++ t ++ [x0d]) ++ x0a :: rest)
    by (unfold CRLF; rewrite <- !app_assoc; done).
  rewrite read_line_capped_line.
  - replace (len (a ++ b!" " ++ b ++ b!" " ++ t ++ [x0d]) + 1) with (len a + len b + len t + 4)
      by (rewrite !len_app; unfold len; simpl; lia).
    unfold CRLF. by rewrite <- !app_assoc.
  - assert (x0a ∉ b!" ") by (vm_compute; set_solver). set_solver.
  - rewrite !len_app. unfold len in *. simpl. lia.
  - repeat (apply is_utf8_app; [done|]). done.
Qed.

Lemma read_request_written req rest :
  request_ok req ->
  read_request_head (write_request req ++ rest)
  = Some (Ok (method req, request_target (uri req), wire_headers req, body req ++ rest)).
Proof.
  intros (Hm & Hp & Ht & Hl & Hh). rewrite write_request_wire. unfold read_request_head.
  rewrite <- app_assoc. change (b!" HTTP/1.1" ++ CRLF) with (b!" " ++ b!"HTTP/1.1" ++ CRLF).
  rewrite start_line_read by (done || (vm_compute; (done || set_solver)) || (change (len (b!"HTTP/1.1")) with 8; lia)).
  cbn [fbind]. pose proof (len_nonneg (as_str (method req))). pose proof (len_nonneg (request_target (uri req))).
  rewrite (proj2 (Z.eqb_neq _ 0)) by (change (len (b!"HTTP/1.1")) with 8; lia).
  rewrite trim_end_crlf_tail.
  change (b!" " ++ b!"HTTP/1.1") with ((b!" " ++ b!"HTTP/1.") ++ [x31]). rewrite !app_assoc, trim_end_solid by done.
  rewrite <- !app_assoc. destruct Hm as (Hm & _ & _), Ht as (Ht & _ & _).
  change (b!" " ++ request_target (uri req) ++ b!" " ++ b!"HTTP/1." ++ [x31])
    with (x20 :: (request_target (uri req) ++ x20 :: b!"HTTP/1.1")).
  rewrite !split_on_app by done. cbn [lookup list_lookup fmap option_fmap option_map ok_or fbind].
  rewrite read_headers_written by done. cbn [fbind]. by rewrite Hp.
Qed.

(** *** Response heads *)

Definition status_line (s : StatusCode) : bytes := b!"HTTP/1.1 " ++ show_uint s ++ b!" " ++ reason s ++ CRLF.

Lemma reason_shape s :
  reason s = [] \/ exists r c, reason s = r ++ [c] /\ solid c = true /\ Forall (fun c => b2z c < 128) (r ++ [c])
                               /\ x0a ∉ r ++ [c] /\ len (r ++ [c]) <= 32.
Proof.
  assert (forall b, (exists c, last b = Some c /\ solid c = true) -> forallb (fun c => b2z c <? 128) b = true ->
            bool_decide (x0a ∈ b) = false -> (len b <=? 32) = true ->
            exists r c, b = r ++ [c] /\ solid c = true /\ Forall (fun c => b2z c < 128) (r ++ [c])
                               /\ x0a ∉ r ++ [c] /\ len (r ++ [c]) <= 32) as H.
  { intros b (c & Hc & Hs) Ha Hn Hl. apply last_Some in Hc as [r ->]. exists r, c. split_and!; try done.
    - rewrite forallb_forall in Ha. apply Forall_forall. intros x Hx. apply Z.ltb_lt, Ha. by apply list_elem_of_In.
    - by apply bool_decide_eq_false in Hn.
    - lia. }
  unfold reason.
  repeat match goal with
         | |- context [match ?x with _ => _ end] => destruct x; try (by left)
         end; right; apply H; (reflexivity || (eexists; split; reflexivity)).
Qed.

Lemma itoa_length room : forall n buf r, itoa room n buf = Some r -> (length r <= room + length buf)%nat.
Proof.
  induction room as [|room IH]; intros n buf r H; [done|]. cbn [itoa] in H. cbv zeta in H.
  split_if_in H; [injection H as <-; simpl; lia|]. apply IH in H. simpl in H. lia.
Qed.

Lemma show_uint_len n : 0 <= n <= u64_max -> len (show_uint n) <= 64.
Proof.
  intros Hn. unfold show_uint. destruct (itoa _ n []) as [r|] eqn:E; [|unfold len; simpl; lia].
  apply itoa_length in E. cbn [default]. change (Datatypes.id r) with r.
  assert (Z.log2 n <= 63) by (apply (Z.log2_le_mono n u64_max); lia).
  unfold len. simpl in E. lia.
Qed.

Lemma digit_ascii c : F64.is_digit c = true -> b2z c < 128 /\ c <> x20 /\ c <> x0a /\ c <> x0d /\ c <> x3a.
Proof. intros H. destruct c; try discriminate H; vm_compute; repeat split; congruence. Qed.

Lemma show_uint_token n : 0 <= n -> token_ok (show_uint n) /\ clean (show_uint n).
Proof.
  intros Hn. destruct (show_uint_digits n Hn) as (_ & Hd & _).
  assert (forall c, ~ F64.is_digit c = true -> c ∉ show_uint n) as Hx.
  { intros c Hc Hin. rewrite Forall_forall in Hd. by apply Hc, Hd. }
  split; [split_and!|split]; try (apply Hx; by vm_compute).
  apply is_utf8_ascii. eapply Forall_impl; [exact Hd|]. intros c Hc. by apply digit_ascii in Hc as [? _].
Qed.

Lemma parse_show_uint max n : 0 <= n <= max -> parse_uint 10 max (show_uint n) = Some n.
Proof.
  intros Hn. destruct (show_uint_digits n) as (Hne & Hd & Hv); [lia|].
  rewrite parse_uint_digits by (done || lia). by rewrite Hv, (proj2 (Z.leb_le _ _)) by lia.
Qed.

Lemma trim_status_line s :
  0 <= s -> exists t, trim_end (b!"HTTP/1.1" ++ b!" " ++ show_uint s ++ b!" " ++ reason s)
                      = b!"HTTP/1.1" ++ x20 :: show_uint s ++ t /\ (t = [] \/ exists u, t = x20 :: u).
Proof.
  intros Hs. destruct (show_uint_digits s Hs) as (Hne & Hd & _).
  destruct (reason_shape s) as [->|(r & c & -> & Hc & _)].
  - exists []. split; [|by left]. destruct (exists_last Hne) as (ds & d & Ed). rewrite Ed in *.
    apply Forall_app in Hd as [_ Hd]. inv Hd. rewrite !app_nil_r.
    change (b!" ") with [x20]. rewrite !app_assoc, trim_end_ws by done.
    rewrite trim_end_solid by (by apply digit_solid). by rewrite <- !app_assoc.
  - exists (x20 :: r ++ [c]). split; [|by eauto]. rewrite !app_assoc, trim_end_solid by done. by rewrite <- !app_assoc.
Qed.

Lemma read_response_written s hs rest :
  0 <= s <= u16_max -> headers_ok hs ->
  read_response_head (status_line s ++ concat (map header_line hs) ++ CRLF ++ rest) = Some (Ok (s, hs, rest)).
Proof.
  intros Hs Hh. unfold read_response_head, status_line.
  change (b!"HTTP/1.1 " ++ show_uint s ++ b!" " ++ reason s ++ CRLF)
    with (b!"HTTP/1.1" ++ b!" " ++ show_uint s ++ b!" " ++ reason s ++ CRLF).
  destruct (show_uint_token s) as [Ht _]; [lia|].
  assert (len (show_uint s) <= 64) by (apply show_uint_len; unfold u16_max, u64_max in *; lia).
  pose proof (len_nonneg (show_uint s)). pose proof (len_nonneg (reason s)).
  assert (x0a ∉ reason s /\ Utf8.is_utf8 (reason s) = true /\ len (reason s) <= 32) as (Hn & Hu & Hl).
  { destruct (reason_shape s) as [->|(r & c & -> & _ & Ha & ? & ?)].
    - split_and!; [set_solver|done|by vm_compute].
    - split_and!; [done|by apply is_utf8_ascii|done]. }
  rewrite start_line_read; try done.
  2: { vm_compute. split_and!; [set_solver|set_solver|done]. }
  2: { change (len (b!"HTTP/1.1")) with 8. unfold MAX_LINE_BYTES. lia. }
  cbn [fbind]. rewrite (proj2 (Z.eqb_neq _ 0)) by (change (len (b!"HTTP/1.1")) with 8; lia).
  rewrite trim_end_crlf_tail. destruct (trim_status_line s) as (t & -> & Ht'); [lia|].
  cbn [splitn]. rewrite split_once_app by (vm_compute; set_solver).
  assert (exists l, match split_once x20 (show_uint s ++ t) with
                    | Some (a, b) => [a; b]
                    | None => [show_uint s ++ t] end = show_uint s :: l) as [l ->].
  { destruct Ht as (Ht & _). destruct Ht' as [->|[u ->]].
    - rewrite app_nil_r, split_once_none by done. by eexists.
    - rewrite split_once_app by done. by eexists. }
  cbn [lookup list_lookup mbind option_bind]. rewrite parse_show_uint by done. cbn [ok_or fbind].
  by rewrite read_headers_written.
Qed.

(** ** Arbitrary input *)

Lemma read_line_loop_any cap inp : forall buf b rest,
  read_line_loop cap inp buf = Ok (b, rest) -> exists c, b = buf ++ c /\ inp = c ++ rest.
Proof.
  induction inp as [|x inp IH]; intros buf b rest H; cbn [read_line_loop] in H.
  - injection H as <- <-. exists []. by rewrite app_nil_r.
  - cbv zeta in H. destruct (cap <? _); [done|]. case_bool_decide.
    + injection H as <- <-. by exists [x].
    + apply IH in H as (c & -> & ->). exists (x :: c). by rewrite <- app_assoc.
Qed.

Lemma read_line_capped_any cap inp line n rest :
  read_line_capped cap inp = Ok (line, n, rest) -> exists c, inp = c ++ rest /\ n = len c.
Proof.
  unfold read_line_capped. destruct (read_line_loop cap inp []) as [[b r]|] eqn:E; cbn [rbind]; [|done].
  apply read_line_loop_any in E as (c & -> & ->). intros [= _ <- <-]. by exists c.
Qed.

(** On any input the header reader returns, with a clean map of at most [MAX_HEADERS] entries. *)
Lemma read_headers_loop_any fuel : forall inp hs total count,
  (length inp < fuel)%nat -> clean_map hs -> Z.of_nat (length hs) <= count <= MAX_HEADERS ->
  exists r, read_headers_loop fuel inp hs total count = Some r
            /\ forall hs' rest, r = Ok (hs', rest) ->
               clean_map hs' /\ Z.of_nat (length hs') <= MAX_HEADERS /\ (length rest <= length inp)%nat.
Proof.
  induction fuel as [|fuel IH]; intros inp hs total count Hf Hcl Hcnt; [lia|]. cbn [read_headers_loop].
  destruct (read_line_capped MAX_LINE_BYTES inp) as [[[line n] rest]|e] eqn:E; cbn [fbind].
  2: { eexists. split; [done|]. done. }
  apply read_line_capped_any in E as (c & -> & ->). rewrite length_app in *.
  destruct (len c =? 0) eqn:Heqb; [eexists; split; [done|]; intros ? ? [= <- <-]; split_and!; (done || lia)|].
  cbv zeta. destruct (_ <? total + _); [by eexists|].
  case_bool_decide; [eexists; split; [done|]; intros ? ? [= <- <-]; split_and!; (done || lia)|].
  destruct (MAX_HEADERS <? count + 1) eqn:Hm; [by eexists|].
  apply Z.eqb_neq in Heqb. unfold len in Heqb.
  edestruct (IH rest) as (r & -> & Hr); cycle 3.
  - exists r. split; [done|]. intros hs' rest' Ho. destruct (Hr _ _ Ho) as (? & ? & ?). split_and!; (done || lia).
  - lia.
  - destruct (split_once x3a (trim_end_crlf line)) as [[k v]|]; [by apply clean_append|done].
  - destruct (split_once x3a (trim_end_crlf line)) as [[k v]|]; unfold append; rewrite ?length_app; simpl; lia.
Qed.

Lemma read_headers_any inp :
  exists r, read_headers inp = Some r
            /\ forall hs rest, r = Ok (hs, rest) ->
               clean_map hs /\ Z.of_nat (length hs) <= MAX_HEADERS /\ (length rest <= length inp)%nat.
Proof. apply read_headers_loop_any; [lia|constructor|unfold MAX_HEADERS; simpl; lia]. Qed.

Lemma read_request_head_any inp :
  exists r, read_request_head inp = Some r
            /\ forall m t hs rest, r = Ok (m, t, hs, rest) ->
               clean_map hs /\ Z.of_nat (length hs) <= MAX_HEADERS /\ (length rest < length inp)%nat.
Proof.
  unfold read_request_head.
  destruct (read_line_capped MAX_LINE_BYTES inp) as [[[line n] rest]|e] eqn:E; cbn [fbind].
  2: { eexists. split; [done|]. done. }
  apply read_line_capped_any in E as (c & -> & ->). rewrite length_app.
  destruct (len c =? 0) eqn:Ec; [eexists; split; [done|]; done|]. apply Z.eqb_neq in Ec. unfold len in Ec.
  destruct (_ <$> _); cbn [ok_or fbind]; [|eexists; split; [done|]; done].
  destruct (_ !! 1%nat); cbn [ok_or fbind]; [|eexists; split; [done|]; done].
  destruct (read_headers_any rest) as (r & -> & Hr). destruct r as [[hs rest']|e]; cbn [fbind].
  - eexists. split; [done|]. intros ? ? ? ? [= _ _ <- <-]. destruct (Hr _ _ eq_refl) as (? & ? & ?).
    split_and!; (done || lia).
  - eexists. split; [done|]. done.
Qed.

(** ** URIs *)

(** The text of a URI. *)
Definition url (u : Uri) : bytes := scheme u ++ b!"://" ++ authority u ++ request_target u.

Definition uri_wf (u : Uri) : Prop :=
  default_port (scheme u) <> None /\ host u <> [] /\ 0 <= port u <= u16_max
  /\ (exists p, path u = x2f :: p) /\ x3f ∉ path u /\ x2f ∉ host u /\ x3f ∉ host u.

Lemma split_once_str_app pat w r :
  (forall c, head pat = Some c -> c ∉ w) -> pat <> [] -> split_once_str pat (w ++ pat ++ r) = Some (w, r).
Proof.
  intros Hw Hp. destruct pat as [|c pat]; [done|]. specialize (Hw c eq_refl). clear Hp.
  induction w as [|x w IH]; cbn [app].
  - cbn [split_once_str]. change (c :: pat ++ r) with ((c :: pat) ++ r). by rewrite strip_prefix_app.
  - cbn [split_once_str]. assert (strip_prefix (x :: w ++ c :: pat ++ r) (c :: pat) = None) as ->.
    { unfold strip_prefix. cbn [starts_with]. rewrite bool_decide_false by set_solver. done. }
    change (w ++ c :: pat ++ r) with (w ++ (c :: pat) ++ r). by rewrite IH by set_solver.
Qed.

Lemma rsplit_once_app c w v : c ∉ v -> rsplit_once c (w ++ c :: v) = Some (w, v).
Proof.
  intros Hv. unfold rsplit_once. rewrite rev_app_distr. cbn [rev]. rewrite <- app_assoc. cbn [app].
  rewrite split_once_app by (by rewrite list_elem_of_In, <- in_rev, <- list_elem_of_In).
  by rewrite !rev_involutive.
Qed.

Lemma rsplit_once_none c w : c ∉ w -> rsplit_once c w = None.
Proof.
  intros Hw. unfold rsplit_once.
  by rewrite split_once_none by (by rewrite list_elem_of_In, <- in_rev, <- list_elem_of_In).
Qed.

Lemma rsplit_once_Some c s w v : rsplit_once c s = Some (w, v) -> s = w ++ c :: v.
Proof.
  unfold rsplit_once. destruct (split_once c (rev s)) as [[b a]|] eqn:E; [|done]. intros [= <- <-].
  apply split_once_Some in E as [E _]. rewrite <- (rev_involutive s), E, rev_app_distr. cbn [rev].
  by rewrite <- app_assoc.
Qed.

Definition boundary (r : bytes) : Prop := match r with [] => True | c :: _ => c = x2f \/ c = x3f end.

Lemma split_authority_app a r :
  x2f ∉ a -> x3f ∉ a -> boundary r -> split_authority (a ++ r) = (a, r).
Proof.
  intros H1 H2 Hr. induction a as [|c a IH]; cbn [app].
  - destruct r as [|c r]; [done|]. cbn [split_authority].
    by destruct Hr as [-> | ->].
  - cbn [split_authority]. rewrite !bool_decide_false by set_solver. cbn [orb]. by rewrite IH by set_solver.
Qed.

Lemma split_authority_spec s a r :
  split_authority s = (a, r) -> s = a ++ r /\ x2f ∉ a /\ x3f ∉ a /\ boundary r.
Proof.
  revert a r. induction s as [|c s IH]; intros a r H; cbn [split_authority] in H.
  - injection H as <- <-. split_and!; (done || set_solver).
  - destruct (bool_decide (c = x2f)) eqn:E1; [|destruct (bool_decide (c = x3f)) eqn:E2]; cbn [orb] in H.
    + injection H as <- <-. apply bool_decide_eq_true in E1. split_and!; (done || set_solver || by left).
    + injection H as <- <-. apply bool_decide_eq_true in E2. split_and!; (done || set_solver || by right).
    + destruct (split_authority s) as [a' r']. injection H as <- <-.
      apply bool_decide_eq_false in E1, E2. destruct (IH _ _ eq_refl) as (-> & ? & ? & ?).
      split_and!; (done || set_solver).
Qed.

Lemma split_target_print p q :
  p <> [] -> x3f ∉ p -> split_target (match q with Some q => p ++ b!"?" ++ q | None => p end) = (p, q).
Proof.
  intros Hp Hq. unfold split_target. destruct q as [q|].
  - change (b!"?" ++ q) with (x3f :: q). rewrite split_once_app by done. by rewrite bool_decide_false.
  - rewrite split_once_none by done. by rewrite bool_decide_false.
Qed.

Lemma split_target_boundary r p q :
  boundary r -> split_target r = (p, q) -> (exists p', p = x2f :: p') /\ x3f ∉ p.
Proof.
  intros Hr H. unfold split_target in H. destruct (split_once x3f r) as [[a b]|] eqn:E.
  - apply split_once_Some in E as [-> Ha]. case_bool_decide; injection H as <- <-.
    + split; [by eexists|vm_compute; set_solver].
    + split; [|done]. destruct a as [|c a]; [done|]. destruct Hr as [-> | ->]; [by eexists|set_solver].
  - assert (x3f ∉ r) as Hn.
    { intros Hin. apply list_elem_of_split_l in Hin as (l1 & l2 & -> & Hl). by rewrite split_once_app in E. }
    case_bool_decide; injection H as <- <-.
    + split; [by eexists|vm_compute; set_solver].
    + split; [|done]. destruct r as [|c r]; [done|]. destruct Hr as [-> | ->]; [by eexists|set_solver].
Qed.

Lemma default_port_scheme s p :
  default_port s = Some p ->
  to_ascii_lowercase s = s /\ x3a ∉ s
  /\ p = (if bool_decide (s = b!"https") || bool_decide (s = b!"wss") then 443 else 80).
Proof.
  unfold default_port. intros H.
  destruct (bool_decide (s = b!"http")) eqn:E1; [apply bool_decide_eq_true in E1 as ->|].
  { injection H as <-. split_and!; [done|vm_compute; set_solver|done]. }
  destruct (bool_decide (s = b!"ws")) eqn:E2; [apply bool_decide_eq_true in E2 as ->|].
  { injection H as <-. split_and!; [done|vm_compute; set_solver|done]. }
  destruct (bool_decide (s = b!"https")) eqn:E3; [apply bool_decide_eq_true in E3 as ->|].
  { injection H as <-. split_and!; [done|vm_compute; set_solver|done]. }
  destruct (bool_decide (s = b!"wss")) eqn:E4; [apply bool_decide_eq_true in E4 as ->|done].
  injection H as <-. split_and!; [done|vm_compute; set_solver|done].
Qed.

Lemma parse_url u : uri_wf u -> x3a ∉ host u -> parse_uri (url u) = Ok u.
Proof.
  intros (Hs & Hh & Hp & (p & Epath) & Hq & H1 & H2) Hc. unfold parse_uri, url.
  destruct (default_port (scheme u)) as [dp|] eqn:Ed; [|done]. destruct (default_port_scheme _ _ Ed) as (El & Ec & Edp).
  rewrite split_once_str_app by (done || (intros c [= <-]; done)). cbn [ok_or rbind]. rewrite El, Ed. cbn [ok_or rbind].
  assert (boundary (request_target u)) as Hb.
  { unfold request_target. rewrite Epath. destruct (query u); by left. }
  assert (x2f ∉ authority u /\ x3f ∉ authority u) as [Ha1 Ha2].
  { unfold authority. cbv zeta. destruct (port u =? _); [done|].
    assert (forall c, ~ F64.is_digit c = true -> c ∉ show_uint (port u)) as Hx.
    { intros c Hc' Hin. destruct (show_uint_digits (port u)) as (_ & Hd & _); [lia|].
      rewrite Forall_forall in Hd. by apply Hc', Hd. }
    split; rewrite !not_elem_of_app; (split_and!; [done|vm_compute; set_solver|apply Hx; by vm_compute]). }
  rewrite split_authority_app by done.
  assert (match rsplit_once x3a (authority u) with
          | Some (h, p) => let? port := ok_or (parse_uint 10 u16_max p)
              (InvalidUrl (scheme u ++ b!"://" ++ authority u ++ request_target u)) in Ok (h, port)
          | None => Ok (authority u, dp)
          end = Ok (host u, port u)) as ->.
  { unfold authority. cbv zeta. fold (is_tls u) in Edp. rewrite <- Edp. destruct (port u =? dp) eqn:Ep.
    - rewrite rsplit_once_none by done. apply Z.eqb_eq in Ep. by rewrite Ep.
    - change (b!":" ++ show_uint (port u)) with (x3a :: show_uint (port u)).
      rewrite rsplit_once_app.
      + by rewrite parse_show_uint.
      + intros Hin. destruct (show_uint_digits (port u)) as (_ & Hd & _); [lia|].
        rewrite Forall_forall in Hd. by specialize (Hd _ Hin). }
  cbn [rbind]. rewrite bool_decide_false by done. unfold request_target.
  rewrite split_target_print by (done || by rewrite Epath). by destruct u.
Qed.

Lemma to_digit_range r c d : to_digit r c = Some d -> 0 <= d < r.
Proof.
  unfold to_digit. pose proof (b2z_range c). intros Hd. cbv zeta in Hd.
  destruct (_ <? r) eqn:E in Hd; [|done]. injection Hd as <-. apply Z.ltb_lt in E. split; [|done].
  repeat match goal with |- context [if ?b then _ else _] => destruct b eqn:? end; zbool; lia.
Qed.

Lemma parse_digits_range r max s : forall acc n,
  0 <= acc <= max -> 0 <= r -> parse_digits r max acc s = Some n -> 0 <= n <= max.
Proof.
  induction s as [|c s IH]; intros acc n Ha Hr H; cbn [parse_digits] in H; [by injection H as <-|].
  destruct (to_digit r c) as [d|] eqn:Ed; cbn [mbind option_bind] in H; [|done]. cbv zeta in H.
  destruct (max <? acc * r + d) eqn:E; [done|]. apply IH in H; [done| |done].
  apply to_digit_range in Ed. apply Z.ltb_ge in E. nia.
Qed.

Lemma parse_uint_range r max s n : 0 <= max -> 0 <= r -> parse_uint r max s = Some n -> 0 <= n <= max.
Proof.
  intros Hm Hr H. unfold parse_uint in H. destruct s as [|c s]; [done|].
  repeat (case_bool_decide; [|]); try done; by eapply parse_digits_range in H.
Qed.

Lemma parse_uri_wf s u : parse_uri s = Ok u -> uri_wf u.
Proof.
  unfold parse_uri. destruct (split_once_str _ s) as [[sc rest]|]; [|done]. cbn [ok_or rbind].
  destruct (default_port (to_ascii_lowercase sc)) as [dp|] eqn:Ed; [|done]. cbn [ok_or rbind].
  destruct (split_authority rest) as [a r] eqn:Ea. apply split_authority_spec in Ea as (-> & H1 & H2 & Hb).
  assert (0 <= dp <= u16_max) as Hdp.
  { apply default_port_scheme in Ed as (_ & _ & ->). destruct (_ || _); unfold u16_max; lia. }
  destruct (match rsplit_once x3a a with Some _ => _ | None => _ end) as [[h p]|e] eqn:Eh; cbn [rbind]; [|done].
  case_bool_decide as Hne; [done|]. destruct (split_target r) as [pa q] eqn:Et. intros [= <-].
  destruct (split_target_boundary _ _ _ Hb Et) as [Hp Hq].
  assert (x2f ∉ h /\ x3f ∉ h /\ 0 <= p <= u16_max) as (? & ? & ?).
  { destruct (rsplit_once x3a a) as [[h' ps]|] eqn:Er.
    - apply rsplit_once_Some in Er as ->. destruct (parse_uint 10 u16_max ps) as [n|] eqn:En; [|done].
      injection Eh as <- <-. split_and!; [set_solver|set_solver| |]; by apply parse_uint_range in En; unfold u16_max in *; lia.
    - injection Eh as <- <-. done. }
  unfold uri_wf. cbn [scheme host port path query]. rewrite Ed. split_and!; (done || lia).
Qed.

(** ** Properties *)

(** The header operations as a history. *)
Inductive HeaderOp := SetOp (name value : bytes) | AppendOp (name value : bytes).

Definition run_header_op (h : HeaderMap) (o : HeaderOp) : HeaderMap :=
  match o with SetOp n v => set h n v | AppendOp n v => append h n v end.

(** Reference: a header map is a function from case-insensitive names to lists of values. *)
Definition spec_header_op (f : bytes -> list bytes) (o : HeaderOp) : bytes -> list bytes :=
  fun name =>
    match o with
    | SetOp n v => if eq_ignore_ascii_case (strip_crlf n) name then [strip_crlf v] else f name
    | AppendOp n v => f name ++ (if eq_ignore_ascii_case (strip_crlf n) name then [strip_crlf v] else [])
    end.

(** Header maps implement a case-insensitive multimap and cannot carry line breaks: after any sequence of
    [set] and [append], no stored name or value contains CR or LF (so no header can inject another line or
    split the message), [get] returns the first and [contains] the presence of the values the reference
    multimap has under that name, where [set] replaces all of a name's values and [append] adds one, and the
    answers do not depend on the case the name is asked in. *)
Theorem header_map_refines (ops : list HeaderOp) (name name' : bytes) :
  let h := foldl run_header_op [] ops in
  let m := foldl spec_header_op (fun _ => []) ops in
  Forall (fun e => clean e.1 /\ clean e.2) h
  /\ get h name = head (m name)
  /\ contains h name = negb (bool_decide (m name = []))
  /\ (eq_ignore_ascii_case name name' = true -> get h name = get h name').
Proof.
  assert (forall h f, clean_map h -> (forall n, values h n = f n) ->
            clean_map (foldl run_header_op h ops)
            /\ forall n, values (foldl run_header_op h ops) n = foldl spec_header_op f ops n) as H.
  { induction ops as [|o ops IH]; intros h f Hc Hv; [done|]. cbn [foldl]. apply IH.
    - destruct o; [by apply clean_set|by apply clean_append].
    - intros n. destruct o; cbn [run_header_op spec_header_op];
        [rewrite values_set|rewrite values_append]; by rewrite Hv. }
  intros h m. destruct (H [] (fun _ => [])) as [Hc Hv]; [constructor|done|].
  fold h in Hc, Hv. fold m in Hv. split_and!; [done| | |].
  - by rewrite get_values, Hv.
  - rewrite contains_values, Hv. by destruct (m name).
  - intros He. rewrite !get_values. f_equal. unfold values. f_equal. apply List.filter_ext. intros e.
    rewrite !(eq_ic_sym e.1). by apply eq_ic_trans.
Qed.

Lemma header_map_refines_witness :
  let h := foldl run_header_op [] [AppendOp (b!"a") (b!"1"); SetOp (b!"A") (b!"2" ++ CRLF ++ b!"x: y")] in
  get h (b!"a") = Some (b!"2x: y").
Proof.
  intros h.
  destruct (header_map_refines [AppendOp (b!"a") (b!"1"); SetOp (b!"A") (b!"2" ++ CRLF ++ b!"x: y")]
              (b!"A") (b!"a")) as (_ & H & _ & Hc).
  fold h in H, Hc. rewrite <- Hc, H; reflexivity.
Defined.

(** [content_length_checked] decides framing without ambiguity: it answers a length exactly when the map
    has Content-Length entries and all of them parse to that number, [None] exactly when there is none, and an
    error exactly when some entry does not parse or two of them differ. *)
Theorem content_length_unambiguous (h : HeaderMap) :
  let vs := values h (b!"content-length") in
  match content_length_checked h with
  | Ok None => vs = []
  | Ok (Some n) => vs <> [] /\ Forall (fun v => parse_u64 (trim v) = Some n) vs
  | Err _ => ~ exists n, Forall (fun v => parse_u64 (trim v) = Some n) vs
  end.
Proof.
  intros vs. unfold content_length_checked. pose proof (content_length_loop_spec h None) as H.
  destruct (content_length_loop h None) as [[n|]|e].
  - by destruct H as [[|[_ ?]] ?].
  - by destruct H.
  - intros [n Hn]. apply (proj2 H n); [by right|done].
Qed.

(** [Uri::parse] only returns well-formed URIs (a supported scheme, a non-empty host, a 16-bit port, a path
    that begins with a slash and holds no query), and for hosts without a colon printing such a URI and parsing
    it again gives the same URI: default ports may be dropped from the text and empty paths become "/". *)
Theorem uri_parse_print (s : bytes) (u : Uri) :
  parse_uri s = Ok u ->
  uri_wf u /\ (x3a ∉ host u -> parse_uri (scheme u ++ b!"://" ++ authority u ++ request_target u) = Ok u).
Proof. intros H. apply parse_uri_wf in H. split; [done|]. intros Hc. by apply parse_url. Qed.

Lemma uri_parse_print_witness :
  parse_uri (b!"HTTP://host:80?x=1") = Ok (mkUri (b!"http") (b!"host") 80 (b!"/") (Some (b!"x=1")))
  /\ parse_uri (b!"http://host/?x=1") = Ok (mkUri (b!"http") (b!"host") 80 (b!"/") (Some (b!"x=1"))).
Proof.
  assert (parse_uri (b!"HTTP://host:80?x=1") = Ok (mkUri (b!"http") (b!"host") 80 (b!"/") (Some (b!"x=1")))) as H
    by (vm_compute; reflexivity).
  split; [exact H|]. destruct (uri_parse_print _ _ H) as [_ Hp]. apply Hp. vm_compute. set_solver.
Defined.
