(* ===== verification/HttpServer.v ===== *)
(** * The HTTP/1.1 server ([http/server.rs])

    Request bodies, response writing and the connection loop.  A connection is the bytes the peer sends and the
    bytes written to it; timers and the shutdown signal are what an environment decides at each iteration; the
    handler is a state transformer. *)

From S2P Require Import Prelude Text Scan HttpCore Sse.

Open Scope Z_scope.
Import HttpCore.

Module HttpServer.

(** [ServerConfig]; durations in milliseconds. *)
Record ServerConfig := mkConfig {
  max_body_bytes : Z;
  max_connections : Z;
  head_timeout : Z;
  body_timeout : Z;
  drain_timeout : Z;
  max_keep_alive_requests : Z;
}.

Definition default_config : ServerConfig := mkConfig (8 * 1024 * 1024) 1024 30000 60000 30000 1000.

(** [HttpResponse]: a streamed body is the list of chunks its channel yields before it closes. *)
Record HttpResponse := mkResponse {
  status : StatusCode;
  rheaders : HeaderMap;
  rbody : bytes;
  stream : option (list bytes);
}.

Definition new (s : StatusCode) : HttpResponse := mkResponse s [] [] None.
Definition stream_response (s : StatusCode) (chunks : list bytes) : HttpResponse := mkResponse s [] [] (Some chunks).

Definition with_header (r : HttpResponse) (name value : bytes) : HttpResponse :=
  mkResponse (status r) (set (rheaders r) name value) (rbody r) (stream r).
Definition with_body (r : HttpResponse) (b : bytes) : HttpResponse :=
  mkResponse (status r) (rheaders r) b (stream r).

(** [HttpResponse::event_stream], [::sse] and [::text] *)
Definition event_stream (events : list bytes) : HttpResponse :=
  with_header (with_header (stream_response OK (map (fun e => b!"data: " ++ e ++ [x0a; x0a]) events))
    (b!"content-type") (b!"text/event-stream")) (b!"cache-control") (b!"no-cache").

Definition sse (events : list Sse.Event) : HttpResponse :=
  with_header (with_header (stream_response OK (map Sse.to_frame events))
    (b!"content-type") (b!"text/event-stream")) (b!"cache-control") (b!"no-cache").

Definition text (s : StatusCode) (t : bytes) : HttpResponse :=
  with_body (with_header (new s) (b!"Content-Type") (b!"text/plain; charset=utf-8")) t.

Definition expects_continue (h : HeaderMap) : bool :=
  match get h (b!"expect") with
  | Some v => eq_ignore_ascii_case (trim v) (b!"100-continue")
  | None => false
  end.

Definition wants_keep_alive (h : HeaderMap) : bool :=
  match get h (b!"connection") with
  | Some v => negb (existsb (fun t => bool_decide (trim t = b!"close")) (split_on x2c (to_ascii_lowercase v)))
  | None => true
  end.

(** [AsyncBufReadExt::read_line] and [AsyncReadExt::read_exact] on what the peer sends. *)
Definition read_line (inp : bytes) : Result (bytes * bytes) HttpError :=
  let '(line, rest) := match split_once x0a inp with
                       | Some (l, rest) => (l ++ [x0a], rest)
                       | None => (inp, [])
                       end in
  if Utf8.is_utf8 line then Ok (line, rest) else Err (Io InvalidData).

Definition read_exact (n : Z) (inp : bytes) : Result (bytes * bytes) HttpError :=
  if len inp <? n then Err (Io UnexpectedEof) else Ok (take (Z.to_nat n) inp, drop (Z.to_nat n) inp).

(** The trailer lines after the last chunk. *)
Fixpoint read_trailers (fuel : nat) (inp : bytes) : option (Result bytes HttpError) :=
  match fuel with
  | O => None
  | S f =>
      let! (l, rest) := Some (read_line inp) in
      if (len l =? 0) || bool_decide (trim l = []) then Some (Ok rest) else read_trailers f rest
  end.

(** [size_line.trim().split(';').next().unwrap_or("").trim()] *)
Definition chunk_size_str (line : bytes) : bytes := trim (default [] (head (split_on x3b (trim line)))).

(** [read_chunked_body]; the sum saturates at [usize::MAX]. *)
Fixpoint read_chunked_loop (fuel : nat) (max : Z) (inp body : bytes)
  : option (Result (option bytes * bytes) HttpError) :=
  match fuel with
  | O => None
  | S f =>
      let! (size_line, inp) := Some (read_line inp) in
      if len size_line =? 0 then Some (Err (Protocol (b!"unexpected EOF in chunked body")))
      else
        let size_str := chunk_size_str size_line in
        let! size := Some (ok_or (parse_uint 16 u64_max size_str)
                                 (Protocol (b!"bad chunk size: " ++ size_str))) in
        if size =? 0 then
          let! inp := read_trailers (S (length inp)) inp in
          Some (Ok (Some body, inp))
        else if max <? Z.min u64_max (len body + size) then Some (Ok (None, inp))
        else
          let! (buf, inp) := Some (read_exact size inp) in
          let! (_, inp) := Some (read_exact 2 inp) in
          read_chunked_loop f max inp (body ++ buf)
  end.

Definition read_chunked_body (max : Z) (inp : bytes) : option (Result (option bytes * bytes) HttpError) :=
  read_chunked_loop (S (length inp)) max inp [].

(** [format!("{:X}", n)] *)
Fixpoint hex_upper (room : nat) (n : Z) (buf : bytes) : option bytes :=
  match room with
  | O => None
  | S room =>
      let d := n mod 16 in
      let buf := z2b (if d <? 10 then 48 + d else 55 + d) :: buf in
      let n := n / 16 in
      if n =? 0 then Some buf else hex_upper room n buf
  end.

Definition show_hex (n : Z) : bytes := default [] (hex_upper (S (Z.to_nat (Z.log2 n))) n []).

(** One chunk as the response writer frames it; empty chunks are skipped. *)
Definition frame_chunk (chunk : bytes) : bytes :=
  if bool_decide (chunk = []) then [] else show_hex (len chunk) ++ CRLF ++ chunk ++ CRLF.

(** [write_response]: the bytes it puts on the wire. *)
Definition write_response (resp : HttpResponse) (method : Method) (keep_alive : bool) : bytes :=
  let no_content := (status resp =? 204) || (status resp =? 304) in
  let bodyless := match method with Head => true | _ => no_content end in
  let streaming := match stream resp with Some _ => negb bodyless | None => false end in
  let head := b!"HTTP/1.1 " ++ show_uint (status resp) ++ b!" " ++ reason (status resp) ++ CRLF in
  let head := foldl (fun head e => head ++ header_line e) head (rheaders resp) in
  let head :=
    if streaming then
      if negb (contains (rheaders resp) (b!"transfer-encoding"))
      then head ++ b!"Transfer-Encoding: chunked" ++ CRLF else head
    else if negb (contains (rheaders resp) (b!"content-length")) && negb no_content
    then head ++ b!"Content-Length: " ++ show_uint (len (rbody resp)) ++ CRLF else head in
  let head :=
    if negb (contains (rheaders resp) (b!"connection")) then
      head ++ (if keep_alive then b!"Connection: keep-alive" ++ CRLF else b!"Connection: close" ++ CRLF)
    else head in
  let head := head ++ CRLF in
  head ++
  (if bodyless then []
   else match stream resp with
        | Some chunks => foldl (fun out chunk => out ++ frame_chunk chunk) [] chunks ++ b!"0" ++ CRLF ++ CRLF
        | None => rbody resp
        end).

(** What the peer sends and what has been written to it. *)
Record Conn := mkConn { inp : bytes; out : bytes }.

Definition write (c : Conn) (b : bytes) : Conn := mkConn (inp c) (out c ++ b).

(** What the timers and the shutdown signal do in one iteration of [serve_conn]. *)
Inductive HeadEvent := HeadArrives | HeadTimesOut | DrainSignalled.

Record Tick := mkTick {
  drained : bool;             (** [*drain.borrow()] at the top of the loop *)
  head_event : HeadEvent;     (** which arm of the [select!] wins *)
  body_in_time : bool;        (** the body arrives before [body_timeout] *)
}.

Section Serve.
Context {S : Type}.

(** [HttpHandler::handle] *)
Variable handle : S -> Request -> S * HttpResponse.

(** What one call leaves behind: result, connection, handler state, requests handled. *)
Definition Outcome (T : Type) : Type := Result T HttpError * Conn * S * list Request.

(** The request body, [None] when it exceeds the cap. *)
Definition read_body (cfg : ServerConfig) (in_time chunked : bool) (content_length : option Z) (inp : bytes)
  : option (Result (option bytes * bytes) HttpError) :=
  if chunked then
    if in_time then read_chunked_body (max_body_bytes cfg) inp else Some (Err Timeout)
  else
    match content_length with
    | Some n =>
        if max_body_bytes cfg <? n then Some (Ok (None, inp))
        else if in_time then
          Some (let? (buf, inp) := read_exact n inp in Ok (Some buf, inp))
        else Some (Err Timeout)
    | None => Some (Ok (Some [], inp))
    end.

(** [handle_one] *)
Definition handle_one (cfg : ServerConfig) (in_time : bool) (head : Method * bytes * HeaderMap) (served : Z)
    (c : Conn) (s : S) : option (Outcome bool) :=
  let '(method, target, headers) := head in
  let req_keep_alive := wants_keep_alive headers in
  let chunked := is_chunked headers in
  match content_length_checked headers with
  | Err _ =>
      let resp := text BAD_REQUEST (b!"invalid Content-Length") in
      Some (Ok false, write c (write_response resp method false), s, [])
  | Ok content_length =>
      if chunked && bool_decide (content_length <> None) then
        let resp := text BAD_REQUEST (b!"conflicting Content-Length and Transfer-Encoding") in
        Some (Ok false, write c (write_response resp method false), s, [])
      else
        let has_body := chunked || (0 <? default 0 content_length) in
        let c := if has_body && expects_continue headers
                 then write c (b!"HTTP/1.1 100 Continue" ++ CRLF ++ CRLF) else c in
        match read_body cfg in_time chunked content_length (inp c) with
        | None => None
        | Some (Err e) => Some (Err e, c, s, [])
        | Some (Ok (None, rest)) =>
            let resp := text PAYLOAD_TOO_LARGE (b!"payload too large") in
            Some (Ok false, write (mkConn rest (out c)) (write_response resp method false), s, [])
        | Some (Ok (Some body, rest)) =>
            let '(path, query) := split_target target in
            let host := default [] (get headers (b!"host")) in
            let req := mkRequest method (mkUri [] host 0 path query) headers body in
            let '(s, resp) := handle s req in
            let keep := req_keep_alive && (served <? max_keep_alive_requests cfg) in
            Some (Ok req_keep_alive, write (mkConn rest (out c)) (write_response resp method keep), s, [req])
        end
  end.

(** [serve_conn]: the loop, from the number of requests served so far. *)
Fixpoint serve_loop (fuel : nat) (cfg : ServerConfig) (env : nat -> Tick) (i : nat) (served : Z) (c : Conn) (s : S)
  : option (Outcome unit) :=
  match fuel with
  | O => None
  | Datatypes.S f =>
      let tick := env i in
      if drained tick then Some (Ok (), c, s, [])
      else
        match head_event tick with
        | HeadTimesOut | DrainSignalled => Some (Ok (), c, s, [])
        | HeadArrives =>
            match read_request_head (inp c) with
            | None => None
            | Some (Err _) => Some (Ok (), c, s, [])
            | Some (Ok (method, target, headers, rest)) =>
                let served := served + 1 in
                match handle_one cfg (body_in_time tick) (method, target, headers) served (mkConn rest (out c)) s with
                | None => None
                | Some (Err e, c, s, reqs) => Some (Err e, c, s, reqs)
                | Some (Ok keep, c, s, reqs) =>
                    let keep_alive := if keep then served <? max_keep_alive_requests cfg else false in
                    if negb keep_alive then Some (Ok (), c, s, reqs)
                    else
                      match serve_loop f cfg env (Datatypes.S i) served c s with
                      | None => None
                      | Some (r, c, s, reqs') => Some (r, c, s, reqs ++ reqs')
                      end
                end
            end
        end
  end.

Definition serve_conn (cfg : ServerConfig) (env : nat -> Tick) (input : bytes) (s : S) : option (Outcome unit) :=
  serve_loop (Datatypes.S (length input)) cfg env 0 0 (mkConn input []) s.

End Serve.

End HttpServer.

(** ** [serve_inner] and [accept_loop] *)

Module Accept.
Import HttpServer.

(** The accept loop holds a permit between [acquire_owned] and the spawned connection task, which keeps it. *)
Inductive Phase := Acquiring | Accepting.

(** How [serve_inner] stands: accepting, waiting for the permits after the shutdown signal, returned (with
    whether the drain completed). *)
Inductive Mode := Running (p : Phase) | Draining | Returned (complete : bool).

Record State := mkState {
  available : Z;      (** permits left in the semaphore *)
  live : Z;           (** connection tasks that hold a permit *)
  mode : Mode;
}.

(** [config.max_connections.max(1)] *)
Definition max_conns (cfg : ServerConfig) : Z := Z.max 1 (max_connections cfg).

Definition init (cfg : ServerConfig) : State := mkState (max_conns cfg) 0 (Running Acquiring).

(** [max_conns as u32], the permits the drain waits for. *)
Definition drain_permits (cfg : ServerConfig) : Z := wrap32 (max_conns cfg).

Inductive step (cfg : ServerConfig) : State -> State -> Prop :=
| acquire a l :
    0 < a -> step cfg (mkState a l (Running Acquiring)) (mkState (a - 1) l (Running Accepting))
| accept_failed a l :
    step cfg (mkState a l (Running Accepting)) (mkState (a + 1) l (Running Acquiring))
| accept_ok a l :
    step cfg (mkState a l (Running Accepting)) (mkState a (l + 1) (Running Acquiring))
| conn_finished a l m :
    0 < l -> step cfg (mkState a l m) (mkState (a + 1) (l - 1) m)
| shutdown_acquiring a l :
    step cfg (mkState a l (Running Acquiring)) (mkState a l Draining)
| shutdown_accepting a l :          (** the dropped loop gives its permit back *)
    step cfg (mkState a l (Running Accepting)) (mkState (a + 1) l Draining)
| drain_complete a l :
    drain_permits cfg <= a ->
    step cfg (mkState a l Draining) (mkState (a - drain_permits cfg) l (Returned true))
| drain_timed_out a l :
    step cfg (mkState a l Draining) (mkState a l (Returned false)).

(** Permits held outside the semaphore and the connection tasks. *)
Definition held (cfg : ServerConfig) (m : Mode) : Z :=
  match m with
  | Running Accepting => 1
  | Returned true => drain_permits cfg
  | _ => 0
  end.

Definition accounted (cfg : ServerConfig) (s : State) : Prop :=
  0 <= available s /\ 0 <= live s /\ available s + live s + held cfg (mode s) = max_conns cfg.

Lemma step_accounted cfg s s' : accounted cfg s -> step cfg s s' -> accounted cfg s'.
Proof.
  intros (Ha & Hl & Hs) H. inv H; unfold accounted; cbn [available live mode held] in *; lia.
Qed.

Lemma reachable_accounted cfg s : rtc (step cfg) (init cfg) s -> accounted cfg s.
Proof.
  assert (accounted cfg (init cfg)) as Hi.
  { unfold accounted, init, max_conns. cbn [available live mode held]. lia. }
  intros H. revert Hi. induction H as [|s1 s2 s3 Hs _ IH]; [done|]. intros Hi. apply IH. by eapply step_accounted.
Qed.

End Accept.

Import HttpServer.

(** ** Readers on arbitrary input *)

Lemma read_line_any inp l rest : read_line inp = Ok (l, rest) -> inp = l ++ rest.
Proof.
  unfold read_line. destruct (split_once x0a inp) as [[a b]|] eqn:E.
  - apply split_once_Some in E as [-> _]. destruct (Utf8.is_utf8 _); [|done]. intros [= <- <-].
    by rewrite <- app_assoc.
  - destruct (Utf8.is_utf8 _); [|done]. intros [= <- <-]. by rewrite app_nil_r.
Qed.

Lemma read_exact_any n inp b rest : 0 <= n -> read_exact n inp = Ok (b, rest) -> inp = b ++ rest /\ len b = n.
Proof.
  intros Hn. unfold read_exact. destruct (len inp <? n) eqn:E; [done|]. apply Z.ltb_ge in E. intros [= <- <-].
  rewrite take_drop. split; [done|]. unfold len in *. rewrite length_take. lia.
Qed.

Lemma read_exact_prefix n b rest : len b = n -> read_exact n (b ++ rest) = Ok (b, rest).
Proof.
  intros <-. unfold read_exact, len. rewrite length_app, (proj2 (Z.ltb_ge _ _)) by lia.
  rewrite Nat2Z.id, take_app_length, drop_app_length. done.
Qed.

Lemma read_trailers_total fuel : forall inp,
  (length inp < fuel)%nat ->
  exists r, read_trailers fuel inp = Some r /\ forall rest, r = Ok rest -> (length rest <= length inp)%nat.
Proof.
  induction fuel as [|fuel IH]; intros inp Hf; [lia|]. cbn [read_trailers].
  destruct (read_line inp) as [[l rest]|e] eqn:E; cbn [fbind]; [|by eexists].
  apply read_line_any in E as ->. rewrite length_app in *.
  destruct (_ || _) eqn:El.
  - eexists. split; [done|]. intros ? [= <-]. lia.
  - apply orb_false_iff in El as [El _]. apply Z.eqb_neq in El. unfold len in El.
    destruct (IH rest) as (r & -> & Hr); [lia|]. eexists. split; [done|]. intros r' Hr'. specialize (Hr _ Hr'). lia.
Qed.

(** Chunked bodies: the reader returns on every input and never hands out more than the cap. *)
Lemma read_chunked_total max fuel : forall inp body,
  0 <= max < u64_max -> (length inp < fuel)%nat -> len body <= max ->
  exists r, read_chunked_loop fuel max inp body = Some r
            /\ forall ob rest, r = Ok (ob, rest) ->
               (length rest <= length inp)%nat /\ (forall b, ob = Some b -> len b <= max).
Proof.
  induction fuel as [|fuel IH]; intros inp body Hm Hf Hb; [lia|]. cbn [read_chunked_loop].
  destruct (read_line inp) as [[l rest]|e] eqn:E; cbn [fbind]; [|by eexists].
  apply read_line_any in E as ->. rewrite length_app in *.
  destruct (len l =? 0) eqn:El; [by eexists|]. apply Z.eqb_neq in El. unfold len in El. cbv zeta.
  destruct (parse_uint 16 u64_max (chunk_size_str l)) as [size|] eqn:Es; cbn [ok_or fbind]; [|by eexists].
  apply parse_uint_range in Es; [|unfold u64_max; lia|lia].
  destruct (size =? 0).
  { destruct (read_trailers_total (S (length rest)) rest) as (r & -> & Hr); [lia|].
    destruct r as [rest'|e]; cbn [fbind]; [|by eexists]. eexists. split; [done|].
    intros ? ? [= <- <-]. specialize (Hr _ eq_refl). split; [lia|]. intros ? [= <-]. done. }
  destruct (max <? _) eqn:Eg.
  { eexists. split; [done|]. intros ? ? [= <- <-]. split; [lia|done]. }
  destruct (read_exact size rest) as [[buf rest']|e] eqn:Ee; cbn [fbind]; [|by eexists].
  apply read_exact_any in Ee as [-> Hl]; [|lia].
  destruct (read_exact 2 rest') as [[cr rest2]|e] eqn:Ee; cbn [fbind]; [|by eexists].
  apply read_exact_any in Ee as [-> _]; [|lia]. rewrite !length_app in *.
  destruct (IH rest2 (body ++ buf)) as (r & -> & Hr); [done|lia| |].
  - rewrite len_app, Hl. apply Z.ltb_ge in Eg. lia.
  - eexists. split; [done|]. intros ob r' Ho. destruct (Hr _ _ Ho) as [? ?]. split; [lia|done].
Qed.

(** ** The connection loop on arbitrary input *)

(** A Transfer-Encoding value that says chunked, in any case and with other codings around it. *)
Definition says_chunked (v : bytes) : Prop := exists a b, to_ascii_lowercase v = a ++ b!"chunked" ++ b.

(** What the server promises of every request it hands to the handler, by the values of its header fields. *)
Definition admissible (cfg : ServerConfig) (r : Request) : Prop :=
  let lengths := values (headers r) (b!"content-length") in
  let encodings := values (headers r) (b!"transfer-encoding") in
  len (body r) <= max_body_bytes cfg
  /\ clean_map (headers r) /\ Z.of_nat (length (headers r)) <= MAX_HEADERS
  /\ (lengths = [] \/ exists n, agreed lengths n)
  /\ (forall v, head encodings = Some v -> says_chunked v -> lengths = [])
  /\ (Forall (fun v => ~ says_chunked v) encodings ->
      lengths = [] /\ body r = [] \/ lengths <> [] /\ agreed lengths (len (body r))).

Lemma contains_str_spec s pat : contains_str s pat = true <-> exists a b, s = a ++ pat ++ b.
Proof.
  split.
  - induction s as [|c s IH]; cbn [contains_str]; intros [H|H]%orb_true_iff.
    + apply starts_with_spec in H as [t H]. by exists [], t.
    + done.
    + apply starts_with_spec in H as [t H]. by exists [], t.
    + destruct (IH H) as (a & b & ->). by exists (c :: a), b.
  - intros (a & b & ->). induction a as [|c a IH]; cbn [app contains_str].
    + pose proof (starts_with_app pat b) as E. destruct (pat ++ b); cbn [contains_str]; by rewrite E.
    + by rewrite IH, orb_true_r.
Qed.

Lemma is_chunked_spec h :
  is_chunked h = true <-> exists v, head (values h (b!"transfer-encoding")) = Some v /\ says_chunked v.
Proof.
  unfold is_chunked. rewrite get_values. destruct (head _) as [v|]; [rewrite contains_str_spec|by split; [|intros (v & ? & _)]].
  split; [intros H; by exists v|]. by intros (w & [= ->] & H).
Qed.

(** The checks of [handle_one], on the values. *)
Lemma checked_admissible cfg r cl :
  len (body r) <= max_body_bytes cfg -> clean_map (headers r) -> Z.of_nat (length (headers r)) <= MAX_HEADERS ->
  content_length_checked (headers r) = Ok cl ->
  (if is_chunked (headers r) then cl = None else len (body r) = default 0 cl) -> admissible cfg r.
Proof.
  intros H1 H2 H3 Hcl Hb. unfold admissible. cbv zeta. pose proof (content_length_loop_spec (headers r) None) as Hs.
  unfold content_length_checked in Hcl. rewrite Hcl in Hs. pose proof (is_chunked_spec (headers r)) as Hc.
  split_and!; [done..| | |].
  - destruct cl as [n|]; [right; exists n; by destruct Hs|left; by destruct Hs].
  - intros v Hv Hsays. rewrite (proj2 Hc ltac:(by exists v)) in Hb. subst cl. by destruct Hs.
  - intros Hn. destruct (is_chunked (headers r)).
    { destruct (proj1 Hc eq_refl) as (v & Hv & Hsays). destruct (values _ (b!"transfer-encoding")) as [|w l]; [done|].
      injection Hv as ->. by apply Forall_cons in Hn as [Hn _]. }
    destruct cl as [n|]; cbn [default] in Hb.
    + right. destruct Hs as [[|[_ Hne]] Ha]; [done|]. split; [done|]. by rewrite Hb.
    + left. destruct Hs as [_ Hs]. split; [done|]. unfold len in Hb. by destruct (body r).
Qed.

Definition after {S} (handle : S -> Request -> S * HttpResponse) (s : S) (reqs : list Request) : S :=
  foldl (fun s r => (handle s r).1) s reqs.

Lemma content_length_range h n :
  content_length_checked h = Ok (Some n) -> 0 <= n <= u64_max.
Proof.
  intros H. pose proof (content_length_loop_spec h None) as Hs. unfold content_length_checked in H.
  rewrite H in Hs. destruct Hs as [[|[_ Hne]] Ha]; [done|].
  destruct (values h (b!"content-length")) as [|v vs]; [done|]. inv Ha.
  eapply parse_uint_range; [| |eassumption]; unfold u64_max; lia.
Qed.

Lemma read_body_total cfg in_time h cl inp :
  0 <= max_body_bytes cfg < u64_max -> content_length_checked h = Ok cl ->
  exists r, read_body cfg in_time (is_chunked h) cl inp = Some r
            /\ forall ob rest, r = Ok (ob, rest) ->
               (length rest <= length inp)%nat
               /\ forall b, ob = Some b ->
                  len b <= max_body_bytes cfg /\ (if is_chunked h then True else len b = default 0 cl).
Proof.
  intros Hm Hcl. unfold read_body. destruct (is_chunked h).
  - destruct in_time; [|by eexists]. unfold read_chunked_body.
    destruct (read_chunked_total (max_body_bytes cfg) (S (length inp)) inp []) as (r & -> & Hr);
      [done|lia|unfold len; simpl; lia|].
    exists r. split; [done|]. intros ob rest Ho. destruct (Hr _ _ Ho). split; [done|]. auto.
  - destruct cl as [n|].
    + apply content_length_range in Hcl. destruct (_ <? n) eqn:E.
      { eexists. split; [done|]. intros ? ? [= <- <-]. done. }
      apply Z.ltb_ge in E. destruct in_time; [|by eexists]. eexists. split; [done|].
      destruct (read_exact n inp) as [[b rest]|e] eqn:Er; cbn [rbind]; [|done].
      apply read_exact_any in Er as [-> Hl]; [|lia]. intros ? ? [= <- <-]. rewrite length_app.
      split; [lia|]. intros ? [= <-]. cbn [default]. split; [lia|done].
    + eexists. split; [done|]. intros ? ? [= <- <-]. split; [done|]. intros ? [= <-].
      split; [unfold len; simpl; lia|done].
Qed.

Lemma handle_one_any {S} (handle : S -> Request -> S * HttpResponse) cfg in_time m t h served c s :
  0 <= max_body_bytes cfg < u64_max -> clean_map h -> Z.of_nat (length h) <= MAX_HEADERS ->
  exists r c' s' reqs, handle_one handle cfg in_time (m, t, h) served c s = Some (r, c', s', reqs)
    /\ (length (inp c') <= length (inp c))%nat
    /\ Forall (admissible cfg) reqs /\ (length reqs <= 1)%nat /\ s' = after handle s reqs.
Proof.
  intros Hm Hc Hn. unfold handle_one. destruct (content_length_checked h) as [cl|e] eqn:Ecl.
  2: { do 4 eexists. split; [done|]. split_and!; (done || simpl; lia || constructor). }
  destruct (is_chunked h && bool_decide (cl <> None)) eqn:Eg.
  { do 4 eexists. split; [done|]. split_and!; (done || simpl; lia || constructor). }
  cbv zeta. set (c1 := if _ && _ then write c _ else c).
  assert (inp c1 = inp c) as Hi by (unfold c1; clear; by destruct (_ && expects_continue h)).
  destruct (read_body_total cfg in_time h cl (inp c1) Hm Ecl) as (r & -> & Hr).
  destruct r as [[[b|] rest]|e].
  - destruct (Hr _ _ eq_refl) as [Hlen Hb]. destruct (Hb _ eq_refl) as [Hmax Hcl]. rewrite Hi in Hlen.
    destruct (split_target t) as [pa q].
    set (req := mkRequest m _ h b). destruct (handle s req) as [s' resp] eqn:Eh.
    do 4 eexists. split; [done|]. split_and!; [done| |simpl; lia|].
    + constructor; [|constructor]. apply (checked_admissible cfg req cl); try done. unfold req. cbn [body headers].
      destruct (is_chunked h); [|done]. cbn [andb] in Eg.
      apply bool_decide_eq_false in Eg. by destruct cl; [destruct Eg|].
    + unfold after. cbn [foldl]. by rewrite Eh.
  - destruct (Hr _ _ eq_refl) as [Hlen _]. rewrite Hi in Hlen.
    do 4 eexists. split; [done|]. split_and!; (done || simpl; lia || constructor).
  - do 4 eexists. split; [done|]. split_and!; (simpl; rewrite ?Hi; done || lia || constructor).
Qed.

Lemma serve_loop_any {S} (handle : S -> Request -> S * HttpResponse) cfg env fuel : forall i served c s,
  0 <= max_body_bytes cfg < u64_max -> (length (inp c) < fuel)%nat ->
  exists r c' s' reqs, serve_loop handle fuel cfg env i served c s = Some (r, c', s', reqs)
    /\ Forall (admissible cfg) reqs /\ Z.of_nat (length reqs) <= Z.max 1 (max_keep_alive_requests cfg - served)
    /\ s' = after handle s reqs.
Proof.
  induction fuel as [|fuel IH]; intros i served c s Hm Hf; [lia|]. cbn [serve_loop].
  assert (exists r c' s' reqs, Some (Ok (E := HttpError) (), c, s, []) = Some (r, c', s', reqs)
    /\ Forall (admissible cfg) reqs /\ Z.of_nat (length reqs) <= Z.max 1 (max_keep_alive_requests cfg - served)
    /\ s' = after handle s reqs) as Hstop.
  { do 4 eexists. split; [done|]. split_and!; [constructor|simpl; lia|done]. }
  destruct (drained (env i)); [done|]. destruct (head_event (env i)); [|done|done].
  destruct (read_request_head_any (inp c)) as (r & -> & Hr). destruct r as [[[[m t] h] rest]|e]; [|done].
  destruct (Hr _ _ _ _ eq_refl) as (Hc & Hn & Hl).
  destruct (handle_one_any handle cfg (body_in_time (env i)) m t h (served + 1) (mkConn rest (out c)) s)
    as (r & c1 & s1 & reqs & -> & Hi & Ha & Hle & ->); [done..|]. cbn [inp] in Hi.
  destruct r as [keep|e].
  2: { do 4 eexists. split; [done|]. split_and!; (done || lia). }
  destruct (negb (if keep then _ else false)) eqn:Ek.
  { do 4 eexists. split; [done|]. split_and!; (done || lia). }
  apply negb_false_iff in Ek. destruct keep; [|done]. apply Z.ltb_lt in Ek.
  destruct (IH (Datatypes.S i) (served + 1) c1 (after handle s reqs)) as (r & c2 & s2 & reqs' & -> & Ha' & Hle' & ->);
    [done|lia|].
  do 4 eexists. split; [done|]. split_and!.
  - by apply Forall_app.
  - rewrite length_app. lia.
  - unfold after. by rewrite foldl_app.
Qed.

(** ** Well-formed requests, one after another *)

(** What the handler sees of a request the client wrote. *)
Definition server_view (req : Request) : Request :=
  mkRequest (method req)
    (mkUri [] (default [] (get (wire_headers req) (b!"host"))) 0 (path (uri req)) (query (uri req)))
    (wire_headers req) (body req).

(** Requests within the limits whose own headers do not contradict their body. *)
Definition sendable (cfg : ServerConfig) (req : Request) : Prop :=
  request_ok req /\ path (uri req) <> [] /\ x3f ∉ path (uri req)
  /\ is_chunked (headers req) = false
  /\ (content_length_checked (headers req) = Ok None
      \/ content_length_checked (headers req) = Ok (Some (len (body req))))
  /\ len (body req) <= max_body_bytes cfg.

Lemma content_length_loop_app h1 h2 : forall seen,
  content_length_loop (h1 ++ h2) seen = let? s := content_length_loop h1 seen in content_length_loop h2 s.
Proof.
  induction h1 as [|[k v] h1 IH]; intros seen; cbn [app content_length_loop]; [done|].
  destruct (eq_ignore_ascii_case k _); [|apply IH].
  destruct (parse_u64 (trim v)) as [n|]; cbn [ok_or rbind]; [|done].
  destruct seen as [p|]; [destruct (negb (p =? n)); [done|]|]; apply IH.
Qed.

Lemma content_length_written n seen :
  0 <= n <= u64_max -> seen = None ->
  content_length_loop [(b!"Content-Length", show_uint n)] seen = Ok (Some n).
Proof.
  intros Hn ->. cbn [content_length_loop].
  change (eq_ignore_ascii_case (b!"Content-Length") (b!"content-length")) with true. cbv iota.
  destruct (show_uint_digits n) as (_ & Hd & _); [lia|]. rewrite trim_number by done.
  unfold parse_u64. by rewrite parse_show_uint.
Qed.

Lemma contains_content_length h cl :
  content_length_checked h = Ok cl -> contains h (b!"content-length") = negb (bool_decide (cl = None)).
Proof.
  intros H. pose proof (content_length_loop_spec h None) as Hs. unfold content_length_checked in H.
  rewrite H in Hs. rewrite contains_values. destruct cl as [n|].
  - destruct Hs as [[|[_ Hne]] _]; [done|]. by destruct (values h _).
  - by destruct Hs as [_ ->].
Qed.

Lemma wire_content_length req :
  len (body req) <= u64_max ->
  content_length_checked (headers req) = Ok None
    \/ content_length_checked (headers req) = Ok (Some (len (body req))) ->
  exists cl, content_length_checked (wire_headers req) = Ok cl /\ default 0 cl = len (body req).
Proof.
  intros Hl Hcl. unfold wire_headers, content_length_checked in *. rewrite !content_length_loop_app.
  assert (forall b : bool, content_length_loop (if b then [] else [(b!"Host", authority (uri req))] : HeaderMap) None
          = Ok None) as -> by (intros []; reflexivity).
  cbn [rbind]. rewrite content_length_loop_app. pose proof (len_nonneg (body req)).
  destruct Hcl as [H1|H1]; rewrite H1; cbn [rbind]; rewrite (contains_content_length _ _ H1).
  - rewrite (bool_decide_true (None = None)) by done. cbn [negb]. rewrite orb_false_r. case_bool_decide as Hb.
    + eexists. split; [reflexivity|]. by rewrite Hb.
    + rewrite content_length_written by (done || lia). eexists. split; [reflexivity|done].
  - rewrite (bool_decide_false (Some _ = None)) by done. cbn [negb]. rewrite orb_true_r.
    eexists. split; [reflexivity|done].
Qed.

Lemma wire_is_chunked req : is_chunked (wire_headers req) = is_chunked (headers req).
Proof.
  unfold is_chunked. rewrite !get_values. unfold wire_headers. rewrite !values_app.
  assert (forall (b : bool) v, values (if b then [] else [(b!"Host", v)] : HeaderMap) (b!"transfer-encoding") = [])
    as -> by (intros [] v; reflexivity).
  assert (forall (b : bool) v, values (if b then [] else [(b!"Content-Length", v)] : HeaderMap) (b!"transfer-encoding") = [])
    as -> by (intros [] v; reflexivity).
  by rewrite app_nil_r.
Qed.

Definition interim (req : Request) : bytes :=
  if (0 <? len (body req)) && expects_continue (wire_headers req)
  then b!"HTTP/1.1 100 Continue" ++ CRLF ++ CRLF else [].

Lemma handle_one_sendable {S} (handle : S -> Request -> S * HttpResponse) cfg req served rest o s :
  max_body_bytes cfg <= u64_max -> sendable cfg req ->
  let keep := wants_keep_alive (wire_headers req) in
  let '(s', resp) := handle s (server_view req) in
  handle_one handle cfg true (method req, request_target (uri req), wire_headers req) served
    (mkConn (body req ++ rest) o) s
  = Some (Ok keep,
          mkConn rest (o ++ interim req
                       ++ write_response resp (method req) (keep && (served <? max_keep_alive_requests cfg))),
          s', [server_view req]).
Proof.
  intros Hm (_ & Hp & Hq & Hch & Hcl & Hb). destruct (handle s (server_view req)) as [s' resp] eqn:Eh.
  destruct (wire_content_length req) as (cl & Ecl & Hd); [lia|done|].
  unfold handle_one. rewrite Ecl, wire_is_chunked, Hch. cbn [andb orb]. cbv zeta. rewrite Hd.
  set (c1 := if _ && _ then _ else _).
  assert (c1 = mkConn (body req ++ rest) (o ++ interim req)) as ->.
  { unfold c1, interim, write. cbn [inp out]. destruct (_ && _); [done|]. by rewrite app_nil_r. }
  assert (read_body cfg true false cl (body req ++ rest) = Some (Ok (Some (body req), rest))) as Er.
  { unfold read_body. destruct cl as [n|]; cbn [default] in Hd.
    - change (n = len (body req)) in Hd. rewrite (proj2 (Z.ltb_ge _ _)) by lia.
      by rewrite read_exact_prefix by done.
    - destruct (body req); [done|]. unfold len in Hd. simpl in Hd. lia. }
  cbn [inp]. rewrite Er. unfold request_target. rewrite split_target_print by done.
  change (mkRequest _ _ _ (body req)) with (server_view req). rewrite Eh. cbn [out]. unfold write. cbn [inp out].
  by rewrite <- !app_assoc.
Qed.

(** Reference: the requests are handled in order, the connection is kept while the request and the cap allow. *)
Fixpoint serve_spec {S} (handle : S -> Request -> S * HttpResponse) (cfg : ServerConfig) (served : Z)
    (rs : list Request) (s : S) : bytes * S * list Request * list Request :=
  match rs with
  | [] => ([], s, [], [])
  | r :: rs =>
      let '(s, resp) := handle s (server_view r) in
      let keep := wants_keep_alive (wire_headers r) && (served + 1 <? max_keep_alive_requests cfg) in
      let o := interim r ++ write_response resp (method r) keep in
      if keep then
        let '(o', s, done, unserved) := serve_spec handle cfg (served + 1) rs s in
        (o ++ o', s, r :: done, unserved)
      else (o, s, [r], rs)
  end.

Definition ready (i : nat) : Tick := mkTick false HeadArrives true.

Lemma write_request_nonempty req : (0 < length (write_request req))%nat.
Proof. rewrite write_request_wire, !length_app. simpl. lia. Qed.

Lemma serve_loop_sendable {S} (handle : S -> Request -> S * HttpResponse) cfg rs : forall fuel i served o s,
  max_body_bytes cfg <= u64_max -> Forall (sendable cfg) rs ->
  (length (concat (map write_request rs)) < fuel)%nat ->
  serve_loop handle fuel cfg ready i served (mkConn (concat (map write_request rs)) o) s
  = let '(o', s', done, unserved) := serve_spec handle cfg served rs s in
    Some (Ok (), mkConn (concat (map write_request unserved)) (o ++ o'), s', map server_view done).
Proof.
  induction rs as [|r rs IH]; intros [|fuel] i served o s Hm Hs Hf; try (cbn [map concat length] in Hf; lia);
    cbn [serve_loop serve_spec map concat ready drained head_event body_in_time inp].
  - change (read_request_head []) with (Some (Err (T := Method * bytes * HeaderMap * bytes)
      (Protocol (b!"empty request")))). cbn. by rewrite app_nil_r.
  - inv Hs. cbn [map concat] in Hf. rewrite length_app in Hf. pose proof (write_request_nonempty r).
    rewrite read_request_written by (by destruct H1). cbn [out].
    pose proof (handle_one_sendable handle cfg r (served + 1) (concat (map write_request rs)) o s Hm H1) as Hh.
    cbv zeta in Hh. destruct (handle s (server_view r)) as [s1 resp]. rewrite Hh. cbv zeta.
    assert ((if wants_keep_alive (wire_headers r) then served + 1 <? max_keep_alive_requests cfg else false)
            = wants_keep_alive (wire_headers r) && (served + 1 <? max_keep_alive_requests cfg)) as -> by done.
    destruct (_ && _); cbn [negb]; [|done]. rewrite IH by (done || lia).
    destruct (serve_spec handle cfg (served + 1) rs s1) as [[[o' s'] dn] unserved]. by rewrite <- !app_assoc.
Qed.

(** ** Properties *)

(** C7 Whatever a peer sends and whenever timers fire, a connection is served safely: the loop always ends
    (never out of fuel), the handler sees at most [max_keep_alive_requests] requests (at least one is always
    allowed), is called exactly on the listed requests in order, and each of them ([admissible]) has a body within
    [max_body_bytes], at most 128 headers free of CR and LF, and Content-Length values that are absent or all the
    same number; if its first Transfer-Encoding header says chunked it has no Content-Length at all; and if no
    Transfer-Encoding header says chunked its body is as long as the Content-Length values say, empty without
    them.  (Only the first Transfer-Encoding header is looked at: a request that says chunked in a later one alone
    is not covered, and is framed by its Content-Length, [second_transfer_encoding_passes].) *)
Theorem server_admits_only_admissible {S} (handle : S -> Request -> S * HttpResponse) (cfg : ServerConfig)
    (env : nat -> Tick) (input : bytes) (s : S) :
  0 <= max_body_bytes cfg < u64_max ->
  exists r c s' reqs, serve_conn handle cfg env input s = Some (r, c, s', reqs)
    /\ Forall (admissible cfg) reqs
    /\ Z.of_nat (length reqs) <= Z.max 1 (max_keep_alive_requests cfg)
    /\ s' = foldl (fun s r => (handle s r).1) s reqs.
Proof.
  intros Hm. unfold serve_conn.
  destruct (serve_loop_any handle cfg env (Datatypes.S (length input)) 0 0 (mkConn input []) s)
    as (r & c & s' & reqs & -> & Ha & Hl & Hs); [done|cbn [inp]; lia|].
  do 4 eexists. split; [done|]. split_and!; [done|lia|done].
Qed.

Definition count_handler (n : nat) (r : Request) : nat * HttpResponse := (Datatypes.S n, text OK (body r)).

Lemma server_admits_only_admissible_witness :
  exists r c s' reqs,
    serve_conn count_handler default_config ready
      (b!"POST / HTTP/1.1" ++ CRLF ++ b!"content-length: 3" ++ CRLF ++ b!"Content-Length: 4" ++ CRLF ++ CRLF ++ b!"abcd") 0%nat
    = Some (r, c, s', reqs) /\ Forall (admissible default_config) reqs.
Proof.
  destruct (server_admits_only_admissible count_handler default_config ready
    (b!"POST / HTTP/1.1" ++ CRLF ++ b!"content-length: 3" ++ CRLF ++ b!"Content-Length: 4" ++ CRLF ++ CRLF ++ b!"abcd") 0%nat)
    as (r & c & s' & reqs & H & Ha & _).
  - vm_compute. split; congruence.
  - exists r, c, s', reqs. split; [exact H|exact Ha].
Defined.

(** C9 Keep-alive connections stay in step: when a client writes well-formed requests with [write_request] one
    after another, the server hands the handler exactly those requests, in order, with the same method, path,
    query and body and the written headers, answers each with its response (after an interim 100 Continue where
    one was asked for), and goes on until a request asks to close, the per-connection cap is reached or the
    requests end; what it has not served is left unread. *)
Theorem pipelined_requests_served {S} (handle : S -> Request -> S * HttpResponse) (cfg : ServerConfig)
    (rs : list Request) (s : S) :
  max_body_bytes cfg <= u64_max -> Forall (sendable cfg) rs ->
  serve_conn handle cfg ready (concat (map write_request rs)) s
  = let '(o, s', served, unserved) := serve_spec handle cfg 0 rs s in
    Some (Ok (), mkConn (concat (map write_request unserved)) o, s', map server_view served).
Proof.
  intros Hm Hs. unfold serve_conn. rewrite serve_loop_sendable by (done || lia).
  by destruct (serve_spec handle cfg 0 rs s) as [[[o s'] dn] un].
Qed.

Definition sample_request (m : Method) (p b : bytes) : Request :=
  mkRequest m (mkUri (b!"http") (b!"h") 80 p None) [(b!"Accept", b!"*/*")] b.

Lemma pipelined_requests_served_witness :
  let rs := [sample_request Post (b!"/a") (b!"hi"); sample_request Get (b!"/b") []] in
  exists o, serve_conn count_handler default_config ready (concat (map write_request rs)) 0%nat
            = Some (Ok (), mkConn [] o, 2%nat, map server_view rs).
Proof.
  intros rs. eexists. rewrite (pipelined_requests_served count_handler default_config rs 0%nat).
  - vm_compute. reflexivity.
  - vm_compute. congruence.
  - assert (forall x l, bool_decide (x ∈ l) = false -> x ∉ (l : bytes)) as Hn
      by (intros x l H; by apply bool_decide_eq_false in H).
    repeat constructor; try (by vm_compute); try (apply Hn; reflexivity); try (vm_compute; congruence).
    all: left; reflexivity.
Defined.

(** Connection limit and graceful shutdown: in every state the accept machinery can reach, at most
    [max_connections] (at least one) connections are served at once; [serve_inner] reports a completed drain
    only when no connection is being served any more; and while draining, as soon as the last connection
    finishes the drain can complete. *)
Theorem accept_limits_and_drains (cfg : ServerConfig) (st : Accept.State) :
  max_connections cfg <= u32_max -> rtc (Accept.step cfg) (Accept.init cfg) st ->
  0 <= Accept.live st <= Z.max 1 (max_connections cfg)
  /\ (Accept.mode st = Accept.Returned true -> Accept.live st = 0)
  /\ (Accept.mode st = Accept.Draining -> Accept.live st = 0 ->
      exists st', Accept.step cfg st st' /\ Accept.mode st' = Accept.Returned true).
Proof.
  intros Hc Hr. apply Accept.reachable_accounted in Hr as (Ha & Hl & Hs).
  assert (Accept.drain_permits cfg = Accept.max_conns cfg) as Hd.
  { unfold Accept.drain_permits, Accept.max_conns, wrap32, u32_max in *. apply Z.mod_small. lia. }
  unfold Accept.max_conns in *. destruct st as [a l m]. cbn [Accept.available Accept.live Accept.mode] in *.
  split_and!; [lia| | |].
  - destruct m as [[]| |[]]; cbn [Accept.held] in Hs; try lia.
  - intros ->. cbn [Accept.held] in Hs. lia.
  - intros -> ->. eexists. split; [apply Accept.drain_complete|done]. rewrite Hd. cbn [Accept.held] in Hs. lia.
Qed.

Lemma accept_limits_and_drains_witness :
  let cfg := mkConfig 0 1 0 0 0 0 in
  0 <= Accept.live (Accept.mkState 0 1 Accept.Draining) <= 1.
Proof.
  intros cfg.
  destruct (accept_limits_and_drains cfg (Accept.mkState 0 1 Accept.Draining)) as [H _].
  - vm_compute. congruence.
  - eapply rtc_l; [apply Accept.acquire; by vm_compute|].
    eapply rtc_l; [apply Accept.accept_ok|]. eapply rtc_l; [apply Accept.shutdown_acquiring|]. apply rtc_refl.
  - exact H.
Defined.

(** ** What the model shows beyond the contracts *)

(** Only the first Transfer-Encoding header counts: a message that carries [chunked] in a second one together
    with a Content-Length passes the guard and is framed by its Content-Length. *)
Example second_transfer_encoding_passes :
  let input := b!"POST / HTTP/1.1" ++ CRLF ++ b!"Transfer-Encoding: identity" ++ CRLF
               ++ b!"Transfer-Encoding: chunked" ++ CRLF ++ b!"Content-Length: 5" ++ CRLF ++ CRLF
               ++ b!"0" ++ CRLF ++ CRLF in
  (fun o => map body o.2) <$> serve_conn count_handler default_config ready input 0%nat
  = Some [b!"0" ++ CRLF ++ CRLF].
Proof. vm_compute. reflexivity. Qed.

(** A request line cut off by the peer's close is served as if it were complete. *)
Example truncated_request_served :
  (fun o => map (fun r => path (uri r)) o.2)
    <$> serve_conn count_handler default_config ready (b!"DELETE /a") 0%nat = Some [b!"/a"].
Proof. vm_compute. reflexivity. Qed.
