(* ===== verification/HttpClient.v ===== *)
(** * The HTTP/1.1 client ([http/message.rs], [http/pool.rs], [http/client.rs])

    Streaming response bodies, the pool of idle connections and the request/response exchange.  A connection is
    the bytes the server will send on it and the bytes written to it; how many bytes a socket read returns is
    chosen by an oracle. *)

From S2P Require Import Prelude Text Scan HttpCore Sse HttpServer.

Open Scope Z_scope.
Import HttpCore HttpServer.

Module HttpClient.

(** ** [http/message.rs]: building requests *)

Definition request_new (m : Method) (u : Uri) : Request := mkRequest m u [] [].

Definition builder (m : Method) (url : bytes) : Result Request HttpError :=
  let? u := parse_uri url in Ok (request_new m u).

Definition req_header (r : Request) (name value : bytes) : Request :=
  mkRequest (method r) (uri r) (set (headers r) name value) (body r).

Definition req_body (r : Request) (b : bytes) : Request := mkRequest (method r) (uri r) (headers r) b.

Definition range (r : Request) (start : Z) (stop : option Z) : Request :=
  let value := match stop with
               | Some e => b!"bytes=" ++ show_uint start ++ b!"-" ++ show_uint e
               | None => b!"bytes=" ++ show_uint start ++ b!"-"
               end in
  req_header r (b!"range") value.

(** ** [http/pool.rs] *)

Definition PoolKey : Type := bytes * Z * bool.

Definition MAX_IDLE_PER_HOST : nat := 32.

Definition Pool := gmap PoolKey (list Conn).

Definition pool_new : Pool := ∅.

Definition take_conn (p : Pool) (key : PoolKey) : option Conn * Pool :=
  match p !! key with
  | Some (c :: q) => (Some c, <[key := q]> p)
  | _ => (None, p)
  end.

Definition put (p : Pool) (key : PoolKey) (c : Conn) : Pool :=
  let q := default [] (p !! key) in
  <[key := if (length q <? MAX_IDLE_PER_HOST)%nat then q ++ [c] else q]> p.

(** ** [http/message.rs]: response bodies *)

Definition MAX_CHUNK_SIZE : Z := 64 * 1024 * 1024.

(** [Body]; a [Reclaim] is the pool key, the pool being the client's. *)
Record Body := mkBody {
  reader : option Conn;
  framing : Framing;
  reclaim : option PoolKey;
}.

Definition do_reclaim (b : Body) (p : Pool) : Body * Pool :=
  match reclaim b with
  | Some key =>
      match reader b with
      | Some c => (mkBody None (framing b) None, put p key c)
      | None => (mkBody None (framing b) None, p)
      end
  | None => (b, p)
  end.

(** [reader.read(&mut buf)] into [want] bytes: [k] is how many the socket has ready; at least one byte is
    returned unless the peer has closed. *)
Definition read (want : Z) (k : nat) (inp : bytes) : bytes * bytes :=
  let n := Nat.min (Z.to_nat want) (Nat.max 1 k) in (take n inp, drop n inp).

(** [Body::next_chunk]; after an error the caller drops the body. *)
Definition next_chunk (k : nat) (b : Body) (p : Pool) : option (Result (option bytes * Body * Pool) HttpError) :=
  match reader b with
  | None => Some (Ok (None, b, p))
  | Some c =>
      match framing b with
      | Done => let '(b, p) := do_reclaim b p in Some (Ok (None, b, p))
      | Length n =>
          if n =? 0 then
            let '(b, p) := do_reclaim (mkBody (reader b) Done (reclaim b)) p in Some (Ok (None, b, p))
          else
            let want := Z.min n 16384 in
            let '(buf, rest) := read want k (inp c) in
            if len buf =? 0 then Some (Ok (None, mkBody None Done (reclaim b), p))
            else Some (Ok (Some buf, mkBody (Some (mkConn rest (out c))) (Length (n - len buf)) (reclaim b), p))
      | Chunked =>
          let! (size_line, rest) := Some (read_line (inp c)) in
          let size_str := chunk_size_str size_line in
          let! size := Some (ok_or (parse_uint 16 u64_max size_str)
                                   (Protocol (b!"bad chunk size: " ++ size_str))) in
          if MAX_CHUNK_SIZE <? size then Some (Err (Protocol (b!"chunk size exceeds maximum")))
          else if size =? 0 then
            let! rest := read_trailers (S (length rest)) rest in
            let '(b, p) := do_reclaim (mkBody (Some (mkConn rest (out c))) Done (reclaim b)) p in
            Some (Ok (None, b, p))
          else
            let! (buf, rest) := Some (read_exact size rest) in
            let! (_, rest) := Some (read_exact 2 rest) in
            Some (Ok (Some buf, mkBody (Some (mkConn rest (out c))) Chunked (reclaim b), p))
      | Eof =>
          let '(buf, rest) := read 16384 k (inp c) in
          if len buf =? 0 then Some (Ok (None, mkBody None Done (reclaim b), p))
          else Some (Ok (Some buf, mkBody (Some (mkConn rest (out c))) Eof (reclaim b), p))
      end
  end.

(** Successive [Response::chunk] calls up to the end of the body. *)
Fixpoint chunk_loop (fuel : nat) (reads : nat -> nat) (i : nat) (b : Body) (p : Pool)
  : option (Result (list bytes * Body * Pool) HttpError) :=
  match fuel with
  | O => None
  | S f =>
      let! (oc, b, p) := next_chunk (reads i) b p in
      match oc with
      | None => Some (Ok ([], b, p))
      | Some chunk =>
          let! (cs, b, p) := chunk_loop f reads (S i) b p in
          Some (Ok (chunk :: cs, b, p))
      end
  end.

(** [Response::bytes] *)
Fixpoint bytes_loop (fuel : nat) (reads : nat -> nat) (i : nat) (b : Body) (p : Pool) (acc : bytes)
  : option (Result (bytes * Body * Pool) HttpError) :=
  match fuel with
  | O => None
  | S f =>
      let! (oc, b, p) := next_chunk (reads i) b p in
      match oc with
      | None => Some (Ok (acc, b, p))
      | Some chunk => bytes_loop f reads (S i) b p (acc ++ chunk)
      end
  end.

Definition pending (b : Body) : nat := match reader b with Some c => length (inp c) | None => 0 end.

Definition response_bytes (reads : nat -> nat) (b : Body) (p : Pool)
  : option (Result (bytes * Body * Pool) HttpError) :=
  bytes_loop (S (pending b)) reads 0 b p [].

Definition response_chunks (reads : nat -> nat) (b : Body) (p : Pool)
  : option (Result (list bytes * Body * Pool) HttpError) :=
  chunk_loop (S (pending b)) reads 0 b p.

(** ** [http/client.rs] *)

Record Response := mkResp { rstatus : StatusCode; resp_headers : HeaderMap; resp_body : Body }.

Definition response_keep_alive (h : HeaderMap) : bool :=
  match get h (b!"connection") with
  | Some v => negb (existsb (fun t => bool_decide (trim t = b!"close")) (split_on x2c (to_ascii_lowercase v)))
  | None => true
  end.

(** [Client::exchange]; on an error the connection is dropped. *)
Definition exchange (c : Conn) (req : Request) (key : PoolKey) : option (Result Response HttpError) :=
  let c := write c (write_request req) in
  let! (st, hs, rest) := read_response_head (inp c) in
  let c := mkConn rest (out c) in
  let fr := response_framing st hs in
  let reusable := response_keep_alive hs && match fr with Eof => false | _ => true end in
  let b := if reusable then mkBody (Some c) fr (Some key) else mkBody (Some c) fr None in
  Some (Ok (mkResp st hs b)).

Section Client.

(** [transport::connect] *)
Variable connect : Uri -> Result Conn HttpError.

Definition pool_key (req : Request) : PoolKey := (host (uri req), port (uri req), is_tls (uri req)).

(** [Client::send_inner] *)
Definition send_inner (p : Pool) (req : Request) : option (Result Response HttpError * Pool) :=
  let key := pool_key req in
  let '(oc, p) := take_conn p key in
  let fresh :=
    match connect (uri req) with
    | Err e => Some (Err e, p)
    | Ok c => r ← exchange c req key; Some (r, p)
    end in
  match oc with
  | Some c =>
      match exchange c req key with
      | None => None
      | Some (Ok resp) => Some (Ok resp, p)
      | Some (Err _) => fresh
      end
  | None => fresh
  end.

(** [Client::send]: [in_time] is whether the exchange beats the client's timeout, if it has one. *)
Definition send (timeout : option Z) (in_time : bool) (p : Pool) (req : Request)
  : option (Result Response HttpError * Pool) :=
  match timeout with
  | Some _ =>
      if in_time then send_inner p req
      else Some (Err Timeout, snd (take_conn p (pool_key req)))
  | None => send_inner p req
  end.

End Client.

End HttpClient.

Import HttpClient.

(** ** Chunk sizes *)

Definition hex_digit (d : Z) : byte := z2b (if d <? 10 then 48 + d else 55 + d).

Definition hex_ok (c : byte) : bool :=
  solid c && negb (bool_decide (c ∈ [x0a; x2b; x3b])) && bool_decide (to_digit 16 c <> None).

Lemma hex_digit_ok d : 0 <= d < 16 -> hex_ok (hex_digit d) = true /\ to_digit 16 (hex_digit d) = Some d.
Proof.
  intros Hd.
  assert (d ∈ [0;1;2;3;4;5;6;7;8;9;10;11;12;13;14;15]) as Hin
    by (rewrite !elem_of_cons; lia).
  repeat (apply elem_of_cons in Hin as [->|Hin]; [split; reflexivity|]). by apply elem_of_nil in Hin.
Qed.

Lemma parse_digits_app r max l1 l2 : forall acc,
  parse_digits r max acc (l1 ++ l2) = x ← parse_digits r max acc l1; parse_digits r max x l2.
Proof.
  induction l1 as [|c l1 IH]; intros acc; cbn [app parse_digits]; [done|].
  destruct (to_digit r c); cbn [mbind option_bind]; [|done]. cbv zeta. destruct (max <? _); [done|apply IH].
Qed.

Lemma hex_upper_spec max room : forall n buf,
  0 <= n < 16 ^ Z.of_nat room -> (0 < room)%nat -> n <= max ->
  exists ds, hex_upper room n buf = Some (ds ++ buf) /\ ds <> [] /\ Forall (fun c => hex_ok c = true) ds
             /\ parse_digits 16 max 0 ds = Some n.
Proof.
  induction room as [|room IH]; intros n buf Hn Hr Hm; [lia|].
  cbn [hex_upper]. cbv zeta. fold (hex_digit (n mod 16)). rewrite Nat2Z.inj_succ, Z.pow_succ_r in Hn by lia.
  pose proof (Z.mod_pos_bound n 16 ltac:(lia)) as Hmod. pose proof (Z.div_mod n 16 ltac:(lia)) as Hdm.
  destruct (hex_digit_ok (n mod 16) Hmod) as [Hok Hdig].
  destruct (Z.eqb_spec (n / 16) 0) as [E|E].
  - exists [hex_digit (n mod 16)]. split_and!; [done|done|by constructor|].
    cbn [parse_digits]. rewrite Hdig. cbn [mbind option_bind]. cbv zeta.
    rewrite (proj2 (Z.ltb_ge _ _)) by lia. f_equal. lia.
  - assert (0 <= n / 16 < 16 ^ Z.of_nat room) as Hq
      by (split; [apply Z.div_pos; lia|apply Z.div_lt_upper_bound; lia]).
    assert (0 < room)%nat by (destruct room; [simpl in Hq; lia|lia]).
    destruct (IH (n / 16) (hex_digit (n mod 16) :: buf)) as (ds & -> & Hne & Hds & Hp); [done|done|lia|].
    exists (ds ++ [hex_digit (n mod 16)]). split_and!.
    + by rewrite <- app_assoc.
    + by destruct ds.
    + apply Forall_app. split; [done|by constructor].
    + rewrite parse_digits_app, Hp. cbn [mbind option_bind parse_digits]. rewrite Hdig. cbn [mbind option_bind].
      cbv zeta. rewrite (proj2 (Z.ltb_ge _ _)) by lia. f_equal. lia.
Qed.

Lemma show_hex_spec max n :
  0 <= n <= max ->
  show_hex n <> [] /\ Forall (fun c => hex_ok c = true) (show_hex n) /\ parse_uint 16 max (show_hex n) = Some n.
Proof.
  intros Hn. unfold show_hex.
  destruct (hex_upper_spec max (S (Z.to_nat (Z.log2 n))) n []) as (ds & -> & Hne & Hd & Hp); [|lia|lia|].
  - split; [lia|]. pose proof (Z.log2_nonneg n). rewrite Nat2Z.inj_succ, Z2Nat.id by done.
    destruct (Z.eq_dec n 0) as [->|]; [simpl; lia|].
    eapply Z.lt_le_trans; [apply (Z.log2_spec n); lia|]. apply Z.pow_le_mono_l. lia.
  - cbn [default]. rewrite app_nil_r. change (Datatypes.id ds) with ds. split_and!; [done|done|].
    destruct ds as [|c ds]; [done|]. unfold parse_uint. inv Hd. rewrite bool_decide_false; [done|].
    intros ->. discriminate.
Qed.

Lemma hex_ok_facts c : hex_ok c = true -> solid c = true /\ c <> x0a /\ c <> x3b /\ b2z c < 128.
Proof. intros H. destruct c; try discriminate H; vm_compute; repeat split; congruence. Qed.

(** The size line of a chunk, read back. *)
Lemma read_size_line n rest :
  0 <= n <= u64_max ->
  exists l, read_line (show_hex n ++ CRLF ++ rest) = Ok (l, rest) /\ 0 < len l
            /\ parse_uint 16 u64_max (chunk_size_str l) = Some n.
Proof.
  intros Hn. destruct (show_hex_spec u64_max n Hn) as (Hne & Hd & Hp).
  assert (Forall (fun c => solid c = true /\ c <> x0a /\ c <> x3b /\ b2z c < 128) (show_hex n)) as Hf
    by (eapply Forall_impl; [exact Hd|exact hex_ok_facts]).
  exists (show_hex n ++ CRLF).
  assert (x0a ∉ show_hex n) as Hn0 by (intros Hin; rewrite Forall_forall in Hf; by destruct (Hf _ Hin) as (_ & ? & _)).
  assert (x3b ∉ show_hex n) as Hn1 by (intros Hin; rewrite Forall_forall in Hf; by destruct (Hf _ Hin) as (_ & _ & ? & _)).
  assert (Forall (fun c => solid c = true) (show_hex n)) as Hs by (eapply Forall_impl; [exact Hf|by intros ? []]).
  split_and!.
  - unfold read_line, CRLF. change (show_hex n ++ [x0d; x0a] ++ rest) with (show_hex n ++ [x0d] ++ x0a :: rest).
    rewrite app_assoc, split_once_app by set_solver.
    assert (Utf8.is_utf8 ((show_hex n ++ [x0d]) ++ [x0a]) = true) as ->.
    { apply is_utf8_app; [|done]. apply is_utf8_app; [|done]. apply is_utf8_ascii.
      eapply Forall_impl; [exact Hf|by intros ? (_ & _ & _ & ?)]. }
    by rewrite <- app_assoc.
  - rewrite len_app. pose proof (len_nonneg (show_hex n)). change (len CRLF) with 2. lia.
  - unfold chunk_size_str. assert (trim (show_hex n ++ CRLF) = show_hex n) as ->.
    { unfold trim. destruct (show_hex n) as [|c ds] eqn:E; [done|]. inv Hs. cbn [app].
      rewrite trim_start_solid by done. change (c :: ds ++ CRLF) with ((c :: ds) ++ CRLF).
      rewrite trim_end_crlf_tail. apply trim_solid. by constructor. }
    rewrite split_on_none by done. cbn [head default]. change (Datatypes.id (show_hex n)) with (show_hex n).
    rewrite (proj2 (trim_solid _ Hs)). done.
Qed.

(** ** Reading bodies *)

Lemma bytes_loop_chunks fuel reads : forall i b p acc,
  bytes_loop fuel reads i b p acc =
  match chunk_loop fuel reads i b p with
  | Some (Ok (cs, b', p')) => Some (Ok (acc ++ concat cs, b', p'))
  | Some (Err e) => Some (Err e)
  | None => None
  end.
Proof.
  induction fuel as [|fuel IH]; intros i b p acc; [done|]. cbn [bytes_loop chunk_loop].
  destruct (next_chunk (reads i) b p) as [[[[[c|] b'] p']|e]|]; cbn [fbind]; try done.
  - rewrite IH. destruct (chunk_loop fuel reads (S i) b' p') as [[[[cs b2] p2]|e]|]; cbn [fbind]; [|done..].
    cbn [concat]. by rewrite app_assoc.
  - by rewrite app_nil_r.
Qed.

Definition nonempty_chunks (cs : list bytes) : list bytes := List.filter (fun c => negb (bool_decide (c = []))) cs.

Lemma concat_nonempty cs : concat (nonempty_chunks cs) = concat cs.
Proof.
  induction cs as [|c cs IH]; [done|]. unfold nonempty_chunks in *. cbn [List.filter concat].
  case_bool_decide as Hc; cbn [negb concat]; rewrite IH; [by subst|done].
Qed.

Definition last_chunk : bytes := b!"0" ++ CRLF ++ CRLF.

Lemma read_line_crlf rest : read_line (CRLF ++ rest) = Ok (CRLF, rest).
Proof. reflexivity. Qed.

(** The chunked stream the server writes is read back chunk by chunk, and nothing after it is touched. *)
Lemma chunked_body_read reads rest o rk p cs : forall fuel i,
  Forall (fun c => len c <= MAX_CHUNK_SIZE) cs -> (length (nonempty_chunks cs) < fuel)%nat ->
  chunk_loop fuel reads i (mkBody (Some (mkConn (concat (map frame_chunk cs) ++ last_chunk ++ rest) o)) Chunked rk) p
  = let '(b', p') := do_reclaim (mkBody (Some (mkConn rest o)) Done rk) p in
    Some (Ok (nonempty_chunks cs, b', p')).
Proof.
  induction cs as [|c cs IH]; intros [|fuel] i Hc Hf; try lia.
  - cbn [map concat app chunk_loop]. unfold next_chunk. cbn [reader framing inp out reclaim].
    destruct (read_size_line 0 (CRLF ++ rest)) as (l & Hl & _ & Hs); [unfold u64_max; lia|].
    change (last_chunk ++ rest) with (show_hex 0 ++ CRLF ++ CRLF ++ rest). rewrite Hl. cbn [fbind]. cbv zeta.
    rewrite Hs. cbn [ok_or fbind]. change (MAX_CHUNK_SIZE <? 0) with false. change (0 =? 0) with true. cbv iota.
    cbn [read_trailers]. rewrite read_line_crlf. cbn [fbind].
    change ((len CRLF =? 0) || bool_decide (trim CRLF = [])) with true. cbv iota. cbn [fbind].
    destruct (do_reclaim _ p) as [b' p']. done.
  - inv Hc. cbn [map concat]. unfold frame_chunk at 1. unfold nonempty_chunks in *. cbn [List.filter] in *.
    case_bool_decide as Hne; cbn [negb app length] in *; [by apply IH|].
    cbn [chunk_loop]. unfold next_chunk. cbn [reader framing inp out reclaim].
    assert (0 < len c) by (destruct c; [done|unfold len; simpl; lia]).
    rewrite <- !app_assoc. unfold MAX_CHUNK_SIZE in H1.
    destruct (read_size_line (len c) (c ++ CRLF ++ concat (map frame_chunk cs) ++ last_chunk ++ rest))
      as (l & Hl & _ & Hs); [unfold u64_max; lia|].
    rewrite Hl. cbn [fbind]. cbv zeta. rewrite Hs. cbn [ok_or fbind].
    rewrite (proj2 (Z.ltb_ge _ _)) by (unfold MAX_CHUNK_SIZE; lia). rewrite (proj2 (Z.eqb_neq _ _)) by lia.
    rewrite read_exact_prefix by done. cbn [fbind]. rewrite read_exact_prefix by done. cbn [fbind].
    rewrite IH by (done || lia). by destruct (do_reclaim _ p) as [b' p'].
Qed.

Lemma read_spec want k inp :
  0 < want -> let '(b, rest) := read want k inp in
  inp = b ++ rest /\ len b <= want /\ (b = [] -> inp = []).
Proof.
  intros Hw. unfold read. cbv zeta. set (n := Nat.min _ _). assert (0 < n)%nat by (unfold n; lia).
  rewrite take_drop. split_and!; [done| |].
  - unfold len. rewrite length_take. unfold n. lia.
  - destruct inp; [done|]. by destruct n; [lia|].
Qed.

(** A body of declared length: exactly that many bytes are delivered and the rest stays on the connection, which
    is given back; if the peer closes early, what arrived is delivered and the connection is dropped. *)
Lemma length_body_read reads o rk p fuel : forall i n data,
  0 <= n -> (length data < fuel)%nat ->
  exists cs, chunk_loop fuel reads i (mkBody (Some (mkConn data o)) (Length n) rk) p =
    (let '(b', p') := if n <=? len data
                     then do_reclaim (mkBody (Some (mkConn (drop (Z.to_nat n) data) o)) Done rk) p
                     else (mkBody None Done rk, p) in
    Some (Ok (cs, b', p'))) /\ concat cs = take (Z.to_nat n) data.
Proof.
  induction fuel as [|fuel IH]; intros i n data Hn Hf; [lia|]. cbn [chunk_loop].
  unfold next_chunk. cbn [reader framing inp out reclaim].
  destruct (n =? 0) eqn:E0.
  { apply Z.eqb_eq in E0 as ->. exists []. pose proof (len_nonneg data). rewrite (proj2 (Z.leb_le _ _)) by lia.
    change (Z.to_nat 0) with 0%nat. rewrite drop_0, take_0. by destruct (do_reclaim _ p) as [b' p']. }
  apply Z.eqb_neq in E0. cbv zeta. pose proof (read_spec (Z.min n 16384) (reads i) data ltac:(lia)) as Hr.
  destruct (read (Z.min n 16384) (reads i) data) as [buf rest]. destruct Hr as (-> & Hl & Hem).
  destruct (len buf =? 0) eqn:Eb; cbn [fbind].
  - apply Z.eqb_eq in Eb. assert (buf = []) as Hb by (destruct buf; [done|unfold len in Eb; simpl in Eb; lia]).
    rewrite Hem by done. exists []. change (len []) with 0. rewrite (proj2 (Z.leb_gt _ _)) by lia.
    by rewrite take_nil.
  - apply Z.eqb_neq in Eb. rewrite length_app in Hf. unfold len in Eb.
    destruct (IH (S i) (n - len buf) rest) as (cs & Hc & Hcat); [lia|lia|].
    exists (buf :: cs). rewrite Hc. rewrite len_app.
    replace (n <=? len buf + len rest) with (n - len buf <=? len rest)
      by (apply Bool.eq_iff_eq_true; rewrite !Z.leb_le; lia).
    assert (Z.to_nat n = length buf + Z.to_nat (n - len buf))%nat as En by (unfold len in *; lia).
    rewrite En, drop_app_add, take_app_add. cbn [concat]. rewrite Hcat. split; [|done].
    destruct (n - len buf <=? len rest); [by destruct (do_reclaim _ p) as [b' p']|done].
Qed.

Lemma eof_body_read reads o rk p fuel : forall i data,
  (length data < fuel)%nat ->
  exists cs, chunk_loop fuel reads i (mkBody (Some (mkConn data o)) Eof rk) p
             = Some (Ok (cs, mkBody None Done rk, p)) /\ concat cs = data.
Proof.
  induction fuel as [|fuel IH]; intros i data Hf; [lia|]. cbn [chunk_loop].
  unfold next_chunk. cbn [reader framing inp out reclaim].
  pose proof (read_spec 16384 (reads i) data ltac:(lia)) as Hr.
  destruct (read 16384 (reads i) data) as [buf rest]. destruct Hr as (-> & Hl & Hem).
  destruct (len buf =? 0) eqn:Eb; cbn [fbind].
  - apply Z.eqb_eq in Eb. assert (buf = []) as Hb by (destruct buf; [done|unfold len in Eb; simpl in Eb; lia]).
    rewrite Hem by done. by exists [].
  - apply Z.eqb_neq in Eb. rewrite length_app in Hf. unfold len in Eb.
    destruct (IH (S i) rest) as (cs & -> & <-); [lia|]. by exists (buf :: cs).
Qed.

(** ** Responses over the wire *)

Definition no_content (s : StatusCode) : bool := (s =? 204) || (s =? 304).

Definition is_head (m : Method) : bool := match m with Head => true | _ => false end.

(** The headers [write_response] puts on the wire. *)
Definition framing_header (resp : HttpResponse) (m : Method) : HeaderMap :=
  if match stream resp with Some _ => negb (is_head m || no_content (status resp)) | None => false end then
    if contains (rheaders resp) (b!"transfer-encoding") then [] else [(b!"Transfer-Encoding", b!"chunked")]
  else if contains (rheaders resp) (b!"content-length") || no_content (status resp) then []
  else [(b!"Content-Length", show_uint (len (rbody resp)))].

Definition connection_header (resp : HttpResponse) (keep : bool) : HeaderMap :=
  if contains (rheaders resp) (b!"connection") then []
  else [(b!"Connection", if keep then b!"keep-alive" else b!"close")].

Definition response_headers (resp : HttpResponse) (m : Method) (keep : bool) : HeaderMap :=
  rheaders resp ++ framing_header resp m ++ connection_header resp keep.

Definition payload (resp : HttpResponse) (m : Method) : bytes :=
  if is_head m || no_content (status resp) then []
  else match stream resp with
       | Some cs => concat (map frame_chunk cs) ++ last_chunk
       | None => rbody resp
       end.

Lemma foldl_frame_chunk cs : forall acc,
  foldl (fun out chunk => out ++ frame_chunk chunk) acc cs = acc ++ concat (map frame_chunk cs).
Proof.
  induction cs as [|c cs IH]; intros acc; cbn [foldl map concat]; [by rewrite app_nil_r|].
  by rewrite IH, <- app_assoc.
Qed.

Lemma write_response_wire resp m keep :
  write_response resp m keep
  = status_line (status resp) ++ concat (map header_line (response_headers resp m keep)) ++ CRLF ++ payload resp m.
Proof.
  unfold write_response, response_headers, payload, framing_header, connection_header, no_content. cbv zeta.
  rewrite foldl_header_lines, !map_app, !concat_app.
  assert (match m with Head => true | _ => (status resp =? 204) || (status resp =? 304) end
          = is_head m || ((status resp =? 204) || (status resp =? 304))) as -> by (by destruct m).
  fold (status_line (status resp)). set (nc := (status resp =? 204) || (status resp =? 304)).
  assert (forall k v, concat (map header_line [(k, v)]) = k ++ b!": " ++ v ++ CRLF) as H1
    by (intros; cbn [map concat]; by rewrite app_nil_r).
  destruct (stream resp) as [cs|], (is_head m || nc), keep;
    destruct (contains (rheaders resp) (b!"transfer-encoding")), (contains (rheaders resp) (b!"content-length")), nc,
      (contains (rheaders resp) (b!"connection"));
    cbn [negb andb orb]; rewrite ?foldl_frame_chunk, ?H1; cbn [map concat];
    rewrite ?app_nil_r, <- ?app_assoc; reflexivity.
Qed.

(** What the client should get. *)
Definition delivered (resp : HttpResponse) : bytes :=
  if no_content (status resp) then []
  else match stream resp with Some cs => concat cs | None => rbody resp end.

(** Responses whose own headers leave the framing to the server. *)
Definition response_ok (resp : HttpResponse) (m : Method) (keep : bool) : Prop :=
  200 <= status resp <= u16_max /\ headers_ok (response_headers resp m keep) /\ is_head m = false
  /\ contains (rheaders resp) (b!"transfer-encoding") = false
  /\ contains (rheaders resp) (b!"content-length") = false
  /\ match stream resp with
     | Some cs => Forall (fun c => len c <= MAX_CHUNK_SIZE) cs
     | None => len (rbody resp) <= u64_max
     end.

Definition expected_framing (resp : HttpResponse) : Framing :=
  if no_content (status resp) then Done
  else match stream resp with Some _ => Chunked | None => Length (len (rbody resp)) end.

Lemma contains_false_values h name : contains h name = false -> values h name = [].
Proof. rewrite contains_values. by destruct (values h name). Qed.

Lemma response_framing_written resp m keep :
  response_ok resp m keep -> response_framing (status resp) (response_headers resp m keep) = expected_framing resp.
Proof.
  intros (Hs & _ & Hm & Hte & Hcl & Hb). unfold response_framing, expected_framing, no_content.
  rewrite (proj2 (Z.ltb_ge (status resp) 200)) by lia. rewrite andb_false_r, orb_false_r.
  destruct ((status resp =? 204) || (status resp =? 304)) eqn:Enc; [done|].
  assert (forall name, values (connection_header resp keep) name
                       = if eq_ignore_ascii_case (b!"Connection") name
                         then values (connection_header resp keep) name else []) as Hconn.
  { intros name. unfold connection_header. destruct (contains (rheaders resp) (b!"connection")); [by destruct (eq_ignore_ascii_case _ _)|].
    rewrite values_one. by destruct (eq_ignore_ascii_case _ _). }
  unfold is_chunked, content_length. rewrite !get_values. unfold response_headers. rewrite !values_app.
  rewrite (contains_false_values _ _ Hte), (contains_false_values _ _ Hcl).
  rewrite (Hconn (b!"transfer-encoding")), (Hconn (b!"content-length")).
  change (eq_ignore_ascii_case (b!"Connection") (b!"transfer-encoding")) with false.
  change (eq_ignore_ascii_case (b!"Connection") (b!"content-length")) with false. cbv iota. rewrite !app_nil_r.
  unfold framing_header, no_content. rewrite Hm, Enc, Hte, Hcl. cbn [orb negb app].
  destruct (stream resp) as [cs|]; [reflexivity|]. rewrite !values_one.
  change (eq_ignore_ascii_case (b!"Content-Length") (b!"transfer-encoding")) with false.
  change (eq_ignore_ascii_case (b!"Content-Length") (b!"content-length")) with true. cbn [head mbind option_bind].
  pose proof (len_nonneg (rbody resp)). destruct (show_uint_digits (len (rbody resp))) as (_ & Hd & _); [done|].
  rewrite trim_number by done. unfold parse_u64. by rewrite parse_show_uint by lia.
Qed.

Lemma length_nonempty_chunks cs : (length (nonempty_chunks cs) <= length (concat (map frame_chunk cs)))%nat.
Proof.
  induction cs as [|c cs IH]; [done|]. unfold nonempty_chunks in *. cbn [List.filter map concat].
  rewrite length_app. unfold frame_chunk at 1. case_bool_decide; cbn [negb length]; [lia|].
  rewrite !length_app. unfold CRLF. simpl. lia.
Qed.

(** Reading the whole body of a written response, chunk by chunk. *)
Lemma written_body_read resp m keep reads rest o rk p :
  response_ok resp m keep ->
  exists cs, response_chunks reads (mkBody (Some (mkConn (payload resp m ++ rest) o)) (expected_framing resp) rk) p
    = (let '(b', p') := do_reclaim (mkBody (Some (mkConn rest o)) Done rk) p in Some (Ok (cs, b', p')))
    /\ concat cs = delivered resp
    /\ (no_content (status resp) = false -> forall l, stream resp = Some l -> cs = nonempty_chunks l).
Proof.
  intros (Hs & _ & Hm & _ & _ & Hb). unfold response_chunks, pending, payload, expected_framing, delivered.
  rewrite Hm. cbn [orb reader inp]. destruct (no_content (status resp)).
  { exists []. split_and!; [|done|done]. cbn [app]. cbn [chunk_loop]. unfold next_chunk. cbn [reader framing].
    by destruct (do_reclaim _ p) as [b' p']. }
  destruct (stream resp) as [cs|].
  - exists (nonempty_chunks cs). rewrite <- app_assoc, chunked_body_read; [|done|].
    + split_and!; [done|apply concat_nonempty|]. by intros _ l [= <-].
    + rewrite !length_app. pose proof (length_nonempty_chunks cs). lia.
  - destruct (length_body_read reads o rk p (S (length (rbody resp ++ rest))) 0 (len (rbody resp)) (rbody resp ++ rest))
      as (cs & Hc & Hcat); [apply len_nonneg|lia|].
    exists cs. rewrite Hc, Hcat, len_app. pose proof (len_nonneg rest).
    rewrite (proj2 (Z.leb_le _ _)) by lia. unfold len. rewrite Nat2Z.id, drop_app_length, take_app_length.
    split_and!; done.
Qed.

(** The whole exchange with a server that answers [resp] and then sends [rest]. *)
Lemma exchange_written resp keep rest o req key :
  response_ok resp (method req) keep ->
  exchange (mkConn (write_response resp (method req) keep ++ rest) o) req key
  = Some (Ok (mkResp (status resp) (response_headers resp (method req) keep)
      (mkBody (Some (mkConn (payload resp (method req) ++ rest) (o ++ write_request req))) (expected_framing resp)
         (if response_keep_alive (response_headers resp (method req) keep) then Some key else None)))).
Proof.
  intros H. unfold exchange. cbv zeta. unfold write. cbn [inp out]. rewrite write_response_wire, <- !app_assoc.
  rewrite read_response_written by (destruct H as (? & ? & _); (done || unfold u16_max in *; lia)). cbn [fbind].
  rewrite response_framing_written by done.
  assert (match expected_framing resp with Eof => false | _ => true end = true) as ->.
  { unfold expected_framing. destruct (no_content _); [done|]. by destruct (stream resp). }
  rewrite andb_true_r. by destruct (response_keep_alive _).
Qed.

(** ** Bodies of any peer *)

Lemma do_reclaim_facts b p :
  (pending (do_reclaim b p).1 <= pending b)%nat
  /\ ((do_reclaim b p).2 = p \/ exists key c, reclaim b = Some key /\ (do_reclaim b p).2 = put p key c).
Proof.
  unfold do_reclaim, pending. destruct (reclaim b) as [key|] eqn:Er; [|split; [done|by left]].
  destruct (reader b) as [c|]; cbn [fst snd reader]; (split; [lia|]); [right; by eexists _, _|by left].
Qed.

(** A step either delivers a chunk, having read something, and leaves the pool alone, or ends the body, giving
    the connection back at most once. *)
Definition good_step (b : Body) (p : Pool) (r : Result (option bytes * Body * Pool) HttpError) : Prop :=
  match r with
  | Ok (Some _, b', p') => (pending b' < pending b)%nat /\ p' = p /\ reclaim b' = reclaim b
  | Ok (None, _, p') => p' = p \/ exists key c, reclaim b = Some key /\ p' = put p key c
  | Err _ => True
  end.

Lemma end_step b c fr rest p :
  exists r, (let '(b0, p0) := do_reclaim (mkBody (Some (mkConn rest (out c))) fr (reclaim b)) p in
             Some (Ok (E := HttpError) (@None bytes, b0, p0))) = Some r /\ good_step b p r.
Proof.
  pose proof (do_reclaim_facts (mkBody (Some (mkConn rest (out c))) fr (reclaim b)) p) as [_ H].
  destruct (do_reclaim _ p) as [b0 p0]. eexists. split; [done|]. exact H.
Qed.

Lemma read_step b c want k fr p :
  0 < want -> reader b = Some c ->
  exists r, (let '(buf, rest) := read want k (inp c) in
             if len buf =? 0 then Some (Ok (E := HttpError) (@None bytes, mkBody None Done (reclaim b), p))
             else Some (Ok (Some buf, mkBody (Some (mkConn rest (out c))) (fr buf) (reclaim b), p))) = Some r
            /\ good_step b p r.
Proof.
  intros Hw Hb. pose proof (read_spec want k (inp c) Hw) as Hr. destruct (read want k (inp c)) as [buf rest].
  destruct Hr as (Hi & _ & _). destruct (len buf =? 0) eqn:E0; eexists; (split; [done|]).
  - by left.
  - split_and!; [|done|done]. apply Z.eqb_neq in E0. unfold pending. rewrite Hb, Hi, length_app. unfold len in E0.
    cbn [reader inp]. lia.
Qed.

Lemma next_chunk_any k b p : exists r, next_chunk k b p = Some r /\ good_step b p r.
Proof.
  unfold next_chunk. destruct (reader b) as [c|] eqn:Eb.
  2: { eexists. split; [done|]. by left. }
  assert (mkConn (inp c) (out c) = c) as Ec by (by destruct c).
  destruct (framing b) as [n| | |] eqn:Ef.
  - destruct (n =? 0) eqn:E0.
    + specialize (end_step b c Done (inp c) p). by rewrite Ec, <- Eb.
    + cbv zeta. destruct (Z.ltb_spec 0 (Z.min n 16384)) as [Hp|Hp].
      * by apply (read_step b c (Z.min n 16384) k (fun buf => Length (n - len buf))).
      * unfold read. assert (Z.to_nat (Z.min n 16384) = 0%nat) as -> by lia.
        eexists. split; [done|]. by left.
  - destruct (read_line (inp c)) as [[l rest]|e] eqn:El; cbn [fbind]; [|by eexists]. cbv zeta.
    destruct (parse_uint 16 u64_max (chunk_size_str l)) as [size|] eqn:Es; cbn [ok_or fbind]; [|by eexists].
    apply parse_uint_range in Es; [|unfold u64_max; lia|lia].
    destruct (_ <? size); [by eexists|]. destruct (size =? 0) eqn:E0.
    + destruct (read_trailers_total (S (length rest)) rest) as (r & -> & _); [lia|].
      destruct r as [rest'|e]; cbn [fbind]; [|by eexists]. apply end_step.
    + apply Z.eqb_neq in E0. destruct (read_exact size rest) as [[buf r1]|e] eqn:E1; cbn [fbind]; [|by eexists].
      destruct (read_exact 2 r1) as [[cr r2]|e] eqn:E2; cbn [fbind]; [|by eexists].
      eexists. split; [done|]. split_and!; [|done|done].
      apply read_line_any in El. apply read_exact_any in E1 as [-> Hl]; [|lia]. apply read_exact_any in E2 as [-> _]; [|lia].
      unfold pending. rewrite Eb, El, !length_app. cbn [reader inp]. unfold len in Hl. lia.
  - by apply (read_step b c 16384 k (fun _ => Eof)).
  - assert (b = mkBody (Some (mkConn (inp c) (out c))) Done (reclaim b)) as Hb
      by (rewrite Ec, <- Eb, <- Ef; by destruct b).
    specialize (end_step b c Done (inp c) p). by rewrite <- Hb.
Qed.

Lemma response_chunks_any reads fuel : forall i b p,
  (pending b < fuel)%nat ->
  exists r, chunk_loop fuel reads i b p = Some r
    /\ forall cs b' p', r = Ok (cs, b', p') -> p' = p \/ exists key c, reclaim b = Some key /\ p' = put p key c.
Proof.
  induction fuel as [|fuel IH]; intros i b p Hf; [lia|]. cbn [chunk_loop].
  destruct (next_chunk_any (reads i) b p) as (r & -> & Hg). destruct r as [[[[c|] b1] p1]|e]; cbn [fbind].
  - destruct Hg as (Hlt & -> & Hr). destruct (IH (S i) b1 p) as (r & -> & Hrest); [lia|].
    destruct r as [[[cs b2] p2]|e]; cbn [fbind]; [|by eexists]. eexists. split; [done|].
    intros ? ? ? [= <- <- <-]. rewrite <- Hr. by eapply Hrest.
  - eexists. split; [done|]. intros ? ? ? [= <- <- <-]. exact Hg.
  - by eexists.
Qed.

(** ** Properties *)

(** C12 Responses survive the wire: when a server answers with [write_response] (a fixed body, a streamed one in
    chunks, or none for 204 and 304), the client's [exchange] returns the same status and the written headers,
    and reading the body delivers exactly the bytes the server sent, however the socket cuts them; exactly the
    response is consumed, and the connection, with whatever the server sends next still unread, goes back to the
    pool if and only if the response's Connection header allows reuse. *)
Theorem response_roundtrip (resp : HttpResponse) (keep : bool) (rest o : bytes) (req : Request) (key : PoolKey)
    (reads : nat -> nat) (p : Pool) :
  response_ok resp (method req) keep ->
  exists r b', exchange (mkConn (write_response resp (method req) keep ++ rest) o) req key = Some (Ok r)
    /\ rstatus r = status resp
    /\ resp_headers r = response_headers resp (method req) keep
    /\ response_bytes reads (resp_body r) p
       = Some (Ok (delivered resp, b',
           if response_keep_alive (resp_headers r) then put p key (mkConn rest (o ++ write_request req)) else p)).
Proof.
  intros H.
  destruct (written_body_read resp (method req) keep reads rest (o ++ write_request req)
    (if response_keep_alive (response_headers resp (method req) keep) then Some key else None) p H) as (cs & Hc & Hcat & _).
  unfold response_chunks in Hc. destruct (do_reclaim _ p) as [b' p'] eqn:Er in Hc.
  eexists. exists b'. split; [by apply exchange_written|]. cbn [rstatus resp_headers resp_body].
  split_and!; [done..|]. unfold response_bytes. rewrite bytes_loop_chunks, Hc, Hcat.
  unfold do_reclaim in Er. cbn [reclaim reader framing] in Er.
  destruct (response_keep_alive _); injection Er as <- <-; done.
Qed.

Lemma response_roundtrip_witness :
  let resp := mkResponse OK [(b!"X-A", b!"1")] [] (Some [b!"ab"; []; b!"c"]) in
  let req := sample_request Get (b!"/x") [] in
  exists r b', exchange (mkConn (write_response resp Get true ++ b!"next") []) req (b!"h", 80, false) = Some (Ok r)
    /\ response_bytes (fun _ => 1%nat) (resp_body r) ∅
       = Some (Ok (b!"abc", b', put ∅ (b!"h", 80, false) (mkConn (b!"next") (write_request req)))).
Proof.
  intros resp req.
  destruct (response_roundtrip resp true (b!"next") [] req (b!"h", 80, false) (fun _ => 1%nat) ∅) as (r & b' & H1 & H2 & H3 & H4).
  - assert (forall x l, bool_decide (x ∈ l) = false -> x ∉ (l : bytes)) as Hn
      by (intros x l H; by apply bool_decide_eq_false in H).
    repeat constructor; try (by vm_compute); try (apply Hn; reflexivity); vm_compute; congruence.
  - exists r, b'. split; [exact H1|]. rewrite H4, H3. reflexivity.
Defined.

(** Reading a response body always ends, whatever the server sends and however it is framed, and the pool
    gets the connection back at most once. A body of declared length delivers exactly that many bytes and
    returns the connection with the following bytes unread; if the server closes early the bytes that arrived
    are delivered and the connection is never pooled; a body that ends with the connection is never pooled. *)
Theorem response_body_framing (reads : nat -> nat) (b : Body) (p : Pool) :
  (exists r, response_bytes reads b p = Some r
     /\ forall bs b' p', r = Ok (bs, b', p') -> p' = p \/ exists key c, reclaim b = Some key /\ p' = put p key c)
  /\ forall data o n key,
     reader b = Some (mkConn data o) -> reclaim b = Some key -> 0 <= n ->
     (framing b = Length n ->
      exists b', response_bytes reads b p
        = Some (Ok (take (Z.to_nat n) data, b',
            if n <=? len data then put p key (mkConn (drop (Z.to_nat n) data) o) else p)))
     /\ (framing b = Eof -> exists b', response_bytes reads b p = Some (Ok (data, b', p))).
Proof.
  unfold response_bytes. rewrite bytes_loop_chunks. split.
  - destruct (response_chunks_any reads (S (pending b)) 0 b p) as (r & -> & Hr); [lia|].
    destruct r as [[[cs b'] p']|e]; eexists; (split; [done|]); [|done].
    intros ? ? ? [= <- <- <-]. by eapply Hr.
  - intros data o n key Hb Hk Hn. destruct b as [rd fr rk]. cbn [reader reclaim framing] in *. subst rd rk.
    split; intros ->; unfold pending; cbn [reader inp].
    + destruct (length_body_read reads o (Some key) p (S (length data)) 0 n data) as (cs & -> & Hcat); [done|lia|].
      unfold do_reclaim. cbn [reclaim reader framing]. by destruct (n <=? len data); rewrite Hcat; eexists.
    + destruct (eof_body_read reads o (Some key) p (S (length data)) 0 data) as (cs & -> & <-); [lia|]. by eexists.
Qed.

Lemma response_body_framing_witness :
  exists b', response_bytes (fun _ => 2%nat)
               (mkBody (Some (mkConn (b!"abcdef") [])) (Length 5) (Some (b!"h", 80, false))) ∅
             = Some (Ok (b!"abcde", b', put ∅ (b!"h", 80, false) (mkConn (b!"f") []))).
Proof.
  destruct (response_body_framing (fun _ => 2%nat)
    (mkBody (Some (mkConn (b!"abcdef") [])) (Length 5) (Some (b!"h", 80, false))) ∅) as [_ H].
  destruct (H (b!"abcdef") [] 5 (b!"h", 80, false)) as [Hl _]; [reflexivity|reflexivity|lia|].
  destruct (Hl eq_refl) as [b' Hb]. exists b'. rewrite Hb. reflexivity.
Defined.

(** Server-sent events end to end: the events a handler streams with [HttpResponse::sse] arrive in order and
    unchanged at a client that feeds the decoder the chunks it reads from the response, and the decoder has
    nothing left over. *)
Theorem sse_over_http (es : list Sse.Event) (keep : bool) (rest o : bytes) (req : Request) (key : PoolKey)
    (reads : nat -> nat) (p : Pool) :
  method req <> Head -> Forall framable es -> Forall (fun e => len (Sse.to_frame e) <= MAX_CHUNK_SIZE) es ->
  exists r cs b' p',
    exchange (mkConn (write_response (sse es) (method req) keep ++ rest) o) req key = Some (Ok r)
    /\ response_chunks reads (resp_body r) p = Some (Ok (cs, b', p'))
    /\ Sse.push_all Sse.dec_new cs = Some (Sse.dec_new, es).
Proof.
  intros Hm Hf Hl. assert (response_ok (sse es) (method req) keep) as Hok.
  { assert (forall x l, bool_decide (x ∈ l) = false -> x ∉ (l : bytes)) as Hn
      by (intros x l H; by apply bool_decide_eq_false in H).
    assert (is_head (method req) = false) as Hh by (by destruct (method req)).
    unfold response_ok. split_and!; try done; [|cbn [sse with_header stream stream_response]; by apply Forall_map].
    unfold response_headers, framing_header. cbn [sse with_header stream stream_response status]. rewrite Hh.
    destruct keep; repeat constructor; try (by vm_compute); try (apply Hn; reflexivity); vm_compute; congruence. }
  destruct (written_body_read (sse es) (method req) keep reads rest (o ++ write_request req)
    (if response_keep_alive (response_headers (sse es) (method req) keep) then Some key else None) p Hok) as (cs & Hc & Hcat & _).
  destruct (do_reclaim _ p) as [b' p'] in Hc. do 4 eexists. split; [by apply exchange_written|]. split; [exact Hc|].
  apply frames_decode; [done|]. exact Hcat.
Qed.

Lemma sse_over_http_witness :
  let es := [Sse.new (b!"hello"); Sse.keep_alive (b!"ping")] in
  exists r cs b' p',
    exchange (mkConn (write_response (sse es) Get false ++ []) []) (sample_request Get (b!"/e") []) (b!"h", 80, false)
      = Some (Ok r)
    /\ response_chunks (fun _ => 7%nat) (resp_body r) ∅ = Some (Ok (cs, b', p'))
    /\ Sse.push_all Sse.dec_new cs = Some (Sse.dec_new, es).
Proof.
  intros es. apply (sse_over_http es false [] [] (sample_request Get (b!"/e") [])).
  - discriminate.
  - repeat constructor; vm_compute; (done || set_solver || congruence).
  - repeat constructor; vm_compute; congruence.
Defined.

(** ** What the model shows beyond the contracts *)

(** A response to HEAD advertises the length of a body it does not have; the client frames it by that length
    and takes the beginning of whatever the server sends next for the body. *)
Example head_response_desync :
  let req := sample_request Head (b!"/x") [] in
  let first := write_response (with_body (new OK) (b!"hello")) Head true in
  let next := write_response (with_body (new OK) (b!"other")) Get true in
  match exchange (mkConn (first ++ next) []) req (b!"h", 80, false) with
  | Some (Ok r) => match response_bytes (fun _ => 5%nat) (resp_body r) ∅ with
                   | Some (Ok (bs, _, _)) => Some bs
                   | _ => None
                   end
  | _ => None
  end = Some (b!"HTTP/").
Proof. vm_compute. reflexivity. Qed.

(** A pooled connection whose server took the request and closed before answering: the request is written to a
    second connection too. *)
Example request_resent_after_processing :
  let req := sample_request Post (b!"/pay") (b!"1") in
  let fresh := mkConn (write_response (new OK) Post true) [] in
  let pool := put ∅ (pool_key req) (mkConn [] []) in
  exchange (mkConn [] []) req (pool_key req) = Some (Err (Protocol (b!"empty response")))
  /\ match send_inner (fun _ => Ok fresh) pool req with
     | Some (Ok r, _) => match reader (resp_body r) with
                         | Some c => bool_decide (out c = write_request req)
                         | None => false
                         end
     | _ => false
     end = true.
Proof. vm_compute. split; reflexivity. Qed.
