(* ===== verification/Turbo.v ===== *)
(** * The Turbo router ([turbo/mod.rs])

    Route patterns, request dispatch (authenticator, filters, routes, middlewares), path and query parameters,
    content negotiation.  Handlers, filters and middlewares are arbitrary functions over a shared state; the
    finished router is a handler of the HTTP server. *)

From S2P Require Import Prelude Text HttpCore HttpServer HttpClient Auth.

Open Scope Z_scope.
Import HttpCore HttpServer.

#[export] Instance method_eq_dec : EqDecision Method.
Proof. solve_decision. Defined.

Module Turbo.

Definition METHOD_NOT_ALLOWED : StatusCode := 405.
Definition NOT_FOUND : StatusCode := 404.
Definition UNAUTHORIZED : StatusCode := 401.

Inductive Seg := Static (s : bytes) | Param (name : bytes).

Notation Params := (gmap bytes bytes).

Record Ctx := mkCtx { request : Request; params : Params }.

Definition non_empty (s : bytes) : bool := negb (bool_decide (s = [])).

Definition parse_pattern (path : bytes) : list Seg :=
  map (fun s => match strip_prefix s [x3a] with Some name => Param name | None => Static s end)
      (List.filter non_empty (split_on x2f path)).

(** The loop of [match_path] over the zipped segments and parts. *)
Fixpoint match_segments (segs : list Seg) (parts : list bytes) (params : Params) : option Params :=
  match segs, parts with
  | seg :: segs, part :: parts =>
      match seg with
      | Static s => if bool_decide (s = part) then match_segments segs parts params else None
      | Param name => match_segments segs parts (<[name := part]> params)
      end
  | _, _ => Some params
  end.

Definition match_path (segs : list Seg) (path : bytes) : option Params :=
  let parts := List.filter non_empty (split_on x2f path) in
  if negb (length parts =? length segs)%nat then None else match_segments segs parts ∅.

(** The loop of [percent_decode], on the bytes from position [i]. *)
Fixpoint percent_loop (fuel : nat) (bs out : bytes) : option bytes :=
  match fuel with
  | O => None
  | S f =>
      match bs with
      | [] => Some out
      | b :: rest =>
          if bool_decide (b = x2b) then percent_loop f rest (out ++ [x20])
          else if bool_decide (b = x25) && (2 <? len bs) then
            let hex := take 2 rest in
            match (if Utf8.is_utf8 hex then parse_uint 16 255 hex else None) with
            | Some n => percent_loop f (drop 2 rest) (out ++ [z2b n])
            | None => percent_loop f rest (out ++ [b])
            end
          else percent_loop f rest (out ++ [b])
      end
  end.

Definition percent_decode (s : bytes) : bytes :=
  Utf8.from_utf8_lossy (default [] (percent_loop (S (length s)) s [])).

(** [Ctx::param], [::query_param] and the typed variants *)
Definition param (c : Ctx) (name : bytes) : option bytes := params c !! name.

Fixpoint find_pair (pairs : list bytes) (name : bytes) : option bytes :=
  match pairs with
  | [] => None
  | p :: pairs =>
      let '(k, v) := match split_once x3d p with Some kv => kv | None => (p, []) end in
      if bool_decide (k = name) then Some (percent_decode v) else find_pair pairs name
  end.

Definition query_param (c : Ctx) (name : bytes) : option bytes :=
  q ← query (uri (request c)); find_pair (split_on x26 q) name.

Definition query_int (c : Ctx) (name : bytes) : option Z :=
  v ← query_param c name; parse_i64 (trim v).

Definition query_float (c : Ctx) (name : bytes) : option F64.t :=
  v ← query_param c name; F64.parse (trim v).

Definition query_bool (c : Ctx) (name : bytes) : option bool :=
  v ← query_param c name;
  let v := to_ascii_lowercase (trim v) in
  if bool_decide (v ∈ [b!"true"; b!"1"; b!"yes"; b!"on"]) then Some true
  else if bool_decide (v ∈ [b!"false"; b!"0"; b!"no"; b!"off"]) then Some false
  else None.

Inductive ParamError := Missing (name : bytes) | Invalid (name reason : bytes).

(** [Ctx::param_as] and [::query_as], for a type's [FromStr] with the error's text. *)
Definition param_as {T} (from_str : bytes -> Result T bytes) (c : Ctx) (name : bytes) : Result T ParamError :=
  let? raw := ok_or (param c name) (Missing name) in
  map_err (Invalid name) (from_str raw).

Definition query_as {T} (from_str : bytes -> Result T bytes) (c : Ctx) (name : bytes) : Result T ParamError :=
  let? raw := ok_or (query_param c name) (Missing name) in
  map_err (Invalid name) (from_str (trim raw)).

(** [negotiate_content_type]: one part of the Accept header, then the loop. *)
Definition supported (ct : bytes) : option bytes :=
  if bool_decide (ct ∈ [b!"*/*"; b!"application/*"; b!"application/json"; b!"text/json"])
  then Some (b!"application/json")
  else if bool_decide (ct ∈ [b!"application/xml"; b!"text/xml"]) then Some (b!"application/xml")
  else if bool_decide (ct ∈ [b!"application/yaml"; b!"text/yaml"; b!"application/x-yaml"; b!"text/x-yaml";
                             b!"application/yml"; b!"text/yml"]) then Some (b!"application/yaml")
  else if bool_decide (ct ∈ [b!"application/toml"; b!"text/toml"; b!"application/x-toml"])
  then Some (b!"application/toml")
  else None.

Fixpoint negotiate_loop (parts : list bytes) : option bytes :=
  match parts with
  | [] => None
  | part :: parts =>
      match supported (trim (default [] (head (split_on x3b part)))) with
      | Some ct => Some ct
      | None => negotiate_loop parts
      end
  end.

Definition negotiate_content_type (accept : bytes) : option bytes :=
  if bool_decide (trim accept = []) then Some (b!"application/json")
  else negotiate_loop (split_on x2c accept).

Section Router.
Context {S : Type}.

(** Closures over the application's state. *)
Definition Handler := S -> Ctx -> S * HttpResponse.
Definition Filter := S -> Ctx -> S * option HttpResponse.
Definition Middleware := S -> Ctx -> Handler -> S * HttpResponse.

Record Route := mkRoute {
  methods : list Method;
  segments : list Seg;
  trailing_slash : bool;
  handler : Handler;
}.

(** [Router], which [into_handler] turns into [Shared] field by field. *)
Record Router := mkRouter {
  routes : list Route;
  filters : list Filter;
  auth : option Filter;
  middlewares : list Middleware;
  not_found : option Handler;
  method_not_allowed : option Handler;
  strict_slash : bool;
}.

Definition router_new : Router := mkRouter [] [] None [] None None false.

Definition has_trailing_slash (path : bytes) : bool := (1 <? len path) && ends_with path [x2f].

Definition make_route (path : bytes) (h : Handler) (ms : list Method) : Route :=
  mkRoute ms (parse_pattern path) (has_trailing_slash path) h.

(** [Router::register], behind [get], [post], ... and [add] *)
Definition add (r : Router) (path : bytes) (h : Handler) (ms : list Method) : Router :=
  mkRouter (routes r ++ [make_route path h ms]) (filters r) (auth r) (middlewares r) (not_found r)
    (method_not_allowed r) (strict_slash r).

Definition set_strict_slash (r : Router) (strict : bool) : Router :=
  mkRouter (routes r) (filters r) (auth r) (middlewares r) (not_found r) (method_not_allowed r) strict.

Definition add_filter (r : Router) (f : Filter) : Router :=
  mkRouter (routes r) (filters r ++ [f]) (auth r) (middlewares r) (not_found r) (method_not_allowed r)
    (strict_slash r).

Definition set_auth (r : Router) (f : Filter) : Router :=
  mkRouter (routes r) (filters r) (Some f) (middlewares r) (not_found r) (method_not_allowed r) (strict_slash r).

Definition layer (r : Router) (m : Middleware) : Router :=
  mkRouter (routes r) (filters r) (auth r) (middlewares r ++ [m]) (not_found r) (method_not_allowed r)
    (strict_slash r).

Definition on_not_found (r : Router) (h : Handler) : Router :=
  mkRouter (routes r) (filters r) (auth r) (middlewares r) (Some h) (method_not_allowed r) (strict_slash r).

Definition on_method_not_allowed (r : Router) (h : Handler) : Router :=
  mkRouter (routes r) (filters r) (auth r) (middlewares r) (not_found r) (Some h) (strict_slash r).

(** The filter [jwt_auth] installs; [now] is the time the token is checked at. *)
Definition jwt_filter (now : Z) (secret : bytes) : Filter :=
  fun s c =>
    let token := h ← get (headers (request c)) (b!"authorization");
                 match strip_prefix h (b!"Bearer ") with
                 | Some t => Some t
                 | None => strip_prefix h (b!"bearer ")
                 end in
    (s, match token with
        | Some t =>
            match Jwt.decode_hs256 now t secret with
            | Ok _ => None
            | _ => Some (text UNAUTHORIZED (b!"401 invalid token"))
            end
        | None => Some (text UNAUTHORIZED (b!"401 missing bearer token"))
        end).

(** [Group] and [Router::group] *)
Record Group := mkGroup { prefix : bytes; groutes : list Route; gfilters : list Filter }.

Fixpoint drop_slashes (s : bytes) : bytes :=
  match s with
  | c :: s' => if bool_decide (c = x2f) then drop_slashes s' else s
  | [] => []
  end.

Definition group_new (prefix : bytes) : Group := mkGroup (rev (drop_slashes (rev prefix))) [] [].

Definition group_add (g : Group) (path : bytes) (h : Handler) (ms : list Method) : Group :=
  mkGroup (prefix g) (groutes g ++ [make_route (prefix g ++ path) h ms]) (gfilters g).

Definition group_filter (g : Group) (f : Filter) : Group :=
  mkGroup (prefix g) (groutes g)
    (gfilters g ++ [fun s c => if starts_with (path (uri (request c))) (prefix g) then f s c else (s, None)]).

Definition group (r : Router) (g : Group) : Router :=
  mkRouter (routes r ++ groutes g) (filters r ++ gfilters g) (auth r) (middlewares r) (not_found r)
    (method_not_allowed r) (strict_slash r).

(** [core_dispatch]: the filters, the scan over the routes, the answer. *)
Fixpoint run_filters (fs : list Filter) (s : S) (c : Ctx) : S * option HttpResponse :=
  match fs with
  | [] => (s, None)
  | f :: fs =>
      match f s c with
      | (s, Some resp) => (s, Some resp)
      | (s, None) => run_filters fs s c
      end
  end.

Record Scan := mkScan {
  chosen : option (Handler * Params);
  path_exists : bool;
  allowed : list Method;
}.

Definition push_allowed (allowed : list Method) (m : Method) : list Method :=
  if bool_decide (m ∈ allowed) then allowed else allowed ++ [m].

Definition scan_route (strict req_trailing : bool) (m : Method) (path : bytes) (sc : Scan) (r : Route) : Scan :=
  if strict && negb (Bool.eqb (trailing_slash r) req_trailing) then sc
  else
    match match_path (segments r) path with
    | Some params =>
        mkScan
          (match chosen sc with
           | None => if bool_decide (m ∈ methods r) then Some (handler r, params) else None
           | Some c => Some c
           end)
          true
          (foldl push_allowed (allowed sc) (methods r))
    | None => sc
    end.

Definition core_dispatch (r : Router) (s : S) (c : Ctx) : S * HttpResponse :=
  let '(s, denied) := match auth r with Some a => a s c | None => (s, None) end in
  match denied with
  | Some resp => (s, resp)
  | None =>
      let '(s, stopped) := run_filters (filters r) s c in
      match stopped with
      | Some resp => (s, resp)
      | None =>
          let path := path (uri (request c)) in
          let req_trailing := has_trailing_slash path in
          let sc := foldl (scan_route (strict_slash r) req_trailing (method (request c)) path)
                          (mkScan None false []) (routes r) in
          match chosen sc with
          | Some (h, params) => h s (mkCtx (request c) params)
          | None =>
              if path_exists sc then
                let allow := join (b!", ") (map as_str (allowed sc)) in
                match method_not_allowed r with
                | Some h => let '(s, resp) := h s c in (s, with_header resp (b!"Allow") allow)
                | None => (s, with_header (text METHOD_NOT_ALLOWED (b!"405 Method Not Allowed")) (b!"Allow") allow)
                end
              else
                match not_found r with
                | Some h => h s c
                | None => (s, text NOT_FOUND (b!"404 Not Found"))
                end
          end
      end
  end.

(** [Next::run] from the middlewares still to run. *)
Fixpoint run_next (r : Router) (mws : list Middleware) (s : S) (c : Ctx) : S * HttpResponse :=
  match mws with
  | mw :: mws => mw s c (run_next r mws)
  | [] => core_dispatch r s c
  end.

(** [RouterService::handle] *)
Definition handle (r : Router) (s : S) (req : Request) : S * HttpResponse :=
  run_next r (middlewares r) s (mkCtx req ∅).

End Router.
Arguments Route : clear implicits.
Arguments Router : clear implicits.
Arguments Handler : clear implicits.
Arguments Filter : clear implicits.
Arguments Middleware : clear implicits.

End Turbo.

Import Turbo.

(** ** Path matching *)

(** Reference: a path's non-empty parts, and when a part fits a segment. *)
Definition parts (path : bytes) : list bytes := List.filter non_empty (split_on x2f path).

Inductive fits : Seg -> bytes -> Prop :=
| fits_static s : fits (Static s) s
| fits_param name p : fits (Param name) p.

(** The parameters a matching path binds, in order. *)
Fixpoint bindings (segs : list Seg) (ps : list bytes) : list (bytes * bytes) :=
  match segs, ps with
  | Param name :: segs, p :: ps => (name, p) :: bindings segs ps
  | Static _ :: segs, _ :: ps => bindings segs ps
  | _, _ => []
  end.

Definition bind_all (m : Params) (bs : list (bytes * bytes)) : Params :=
  foldl (fun m b => <[b.1 := b.2]> m) m bs.

Lemma match_segments_spec segs : forall ps m,
  length ps = length segs ->
  match match_segments segs ps m with
  | Some m' => Forall2 fits segs ps /\ m' = bind_all m (bindings segs ps)
  | None => ~ Forall2 fits segs ps
  end.
Proof.
  induction segs as [|seg segs IH]; intros [|p ps] m Hl; cbn [match_segments]; try (cbn [length] in Hl; lia).
  - split; [constructor|done].
  - injection Hl as Hl. destruct seg as [s|name].
    + case_bool_decide as Hs.
      * specialize (IH ps m Hl). destruct (match_segments segs ps m).
        -- destruct IH as [Hf ->]. split; [|done]. subst. constructor; [constructor|done].
        -- intros H. inv H. done.
      * intros H. inv H. by inv H3.
    + specialize (IH ps (<[name := p]> m) Hl). destruct (match_segments segs ps _).
      * destruct IH as [Hf ->]. split; [|done]. constructor; [constructor|done].
      * intros H. inv H. done.
Qed.

Lemma match_path_spec segs path :
  match match_path segs path with
  | Some m => Forall2 fits segs (parts path) /\ m = bind_all ∅ (bindings segs (parts path))
  | None => ~ Forall2 fits segs (parts path)
  end.
Proof.
  unfold match_path. fold (parts path). destruct (length (parts path) =? length segs)%nat eqn:E; cbn [negb].
  - apply Nat.eqb_eq in E. by apply match_segments_spec.
  - apply Nat.eqb_neq in E. intros H. apply E. symmetry. by eapply Forall2_length.
Qed.

Lemma bind_all_lookup bs : forall m name,
  bind_all m bs !! name =
  match last (List.filter (fun b => bool_decide (b.1 = name)) bs) with
  | Some b => Some b.2
  | None => m !! name
  end.
Proof.
  induction bs as [|[k v] bs IH]; intros m name; [done|]. unfold bind_all in *. cbn [foldl fst snd].
  rewrite IH. cbn [List.filter fst]. case_bool_decide as Hk.
  - subst. rewrite last_cons. destruct (last (List.filter _ bs)) as [b|]; [done|]. cbn [snd]. apply (lookup_insert_eq (M := gmap bytes)).
  - destruct (last (List.filter _ bs)) as [b|]; [done|]. by apply (lookup_insert_ne (M := gmap bytes)).
Qed.

(** The parts a segment list asks for, with values for its parameters. *)
Definition fill (f : bytes -> bytes) (seg : Seg) : bytes :=
  match seg with Static s => s | Param name => f name end.

Definition build_path (f : bytes -> bytes) (segs : list Seg) : bytes :=
  concat (map (fun seg => x2f :: fill f seg) segs).

Definition part_ok (p : bytes) : Prop := p <> [] /\ x2f ∉ p.

Lemma parts_build ps : Forall part_ok ps -> parts (concat (map (cons x2f) ps)) = ps.
Proof.
  intros H. assert (forall w, x2f ∉ w -> w <> [] \/ w = [] ->
    List.filter non_empty (split_on x2f (w ++ concat (map (cons x2f) ps)))
    = (if bool_decide (w = []) then [] else [w]) ++ ps) as Hw.
  { induction H as [|p ps [Hne Hs] _ IH]; intros w Hw Hd; cbn [map concat].
    - rewrite app_nil_r, split_on_none by done. cbn [List.filter]. unfold non_empty. by case_bool_decide.
    - change ((x2f :: p) ++ concat (map (cons x2f) ps)) with (x2f :: (p ++ concat (map (cons x2f) ps))).
      rewrite split_on_app by done. cbn [List.filter]. rewrite IH by (done || by left).
      rewrite (bool_decide_false (p = [])) by done. unfold non_empty at 1. by case_bool_decide. }
  unfold parts. apply (Hw []); [set_solver|by right].
Qed.

Lemma parse_pattern_static pat s : Static s ∈ parse_pattern pat -> part_ok s.
Proof.
  unfold parse_pattern. rewrite list_elem_of_fmap. intros (w & Ew & Hw).
  apply list_elem_of_In, filter_In in Hw as [Hw Hne].
  destruct (strip_prefix w [x3a]); [done|]. injection Ew as ->. split.
  - unfold non_empty in Hne. by case_bool_decide.
  - pose proof (split_on_avoids x2f pat) as Ha. rewrite Forall_forall in Ha. apply Ha. by apply list_elem_of_In.
Qed.

Lemma bindings_fill f segs :
  Forall2 fits segs (map (fill f) segs)
  /\ forall b, b ∈ bindings segs (map (fill f) segs) <-> exists name, Param name ∈ segs /\ b = (name, f name).
Proof.
  induction segs as [|[s|name] segs [IH1 IH2]]; cbn [map fill bindings].
  - split; [constructor|]. intros b. split; [by intros ?%not_elem_of_nil|]. by intros (? & ?%not_elem_of_nil & _).
  - split; [by repeat constructor|]. intros b. rewrite IH2. split; intros (n & Hn & ->); exists n; (split; [|done]).
    + apply elem_of_cons. by right.
    + by apply elem_of_cons in Hn as [|].
  - split; [by repeat constructor|]. intros b. rewrite elem_of_cons, IH2. split.
    + intros [->|(n & Hn & ->)]; [exists name|exists n]; (split; [|done]); apply elem_of_cons; [by left|by right].
    + intros (n & Hn & ->). apply elem_of_cons in Hn as [[= ->]|Hn]; [by left|right; by exists n].
Qed.

(** ** Dispatch, declaratively *)

Section Dispatch.
Context {S : Type}.
Implicit Types (r : Router S) (rt : Route S) (s : S) (c : Ctx).

Definition req_path (c : Ctx) : bytes := path (uri (request c)).

(** A route applies to a request's path (its method aside). *)
Definition applies r c rt : Prop :=
  (strict_slash r = true -> trailing_slash rt = has_trailing_slash (req_path c))
  /\ Forall2 fits (segments rt) (parts (req_path c)).

Definition applies_b (strict trailing : bool) (path : bytes) rt : bool :=
  negb (strict && negb (Bool.eqb (trailing_slash rt) trailing))
  && bool_decide (is_Some (match_path (segments rt) path)).

Lemma applies_b_spec r c rt :
  applies_b (strict_slash r) (has_trailing_slash (req_path c)) (req_path c) rt = true <-> applies r c rt.
Proof.
  unfold applies_b, applies. rewrite andb_true_iff, bool_decide_eq_true.
  assert (is_Some (match_path (segments rt) (req_path c)) <-> Forall2 fits (segments rt) (parts (req_path c))) as ->.
  { pose proof (match_path_spec (segments rt) (req_path c)) as H. destruct (match_path _ _).
    - split; [tauto|by eexists].
    - split; [by intros []|done]. }
  destruct (strict_slash r); cbn [andb].
  - rewrite negb_involutive, Bool.eqb_true_iff. tauto.
  - cbn [negb]. intuition congruence.
Qed.

(** The methods of all applicable routes, each once, in order of first appearance. *)
Fixpoint first_occurrences (ms : list Method) : list Method :=
  match ms with
  | [] => []
  | m :: ms => m :: List.filter (fun m' => negb (bool_decide (m' = m))) (first_occurrences ms)
  end.

Lemma foldl_push_allowed ms : forall acc,
  foldl push_allowed acc ms = acc ++ List.filter (fun m => negb (bool_decide (m ∈ acc))) (first_occurrences ms).
Proof.
  induction ms as [|m ms IH]; intros acc; cbn [foldl first_occurrences List.filter]; [by rewrite app_nil_r|].
  rewrite IH. unfold push_allowed. case_bool_decide as Hm; cbn [negb].
  - f_equal. clear IH. induction (first_occurrences ms) as [|x l IHl]; [done|]. cbn [List.filter].
    destruct (bool_decide (x = m)) eqn:Ex; cbn [negb List.filter]; [|by rewrite IHl].
    apply bool_decide_eq_true in Ex as ->. rewrite (bool_decide_true (m ∈ acc)) by done. exact IHl.
  - rewrite <- app_assoc. f_equal. cbn [app]. f_equal. clear IH.
    induction (first_occurrences ms) as [|x l IHl]; [done|]. cbn [List.filter].
    destruct (bool_decide (x = m)) eqn:Ex; cbn [negb List.filter].
    + apply bool_decide_eq_true in Ex as ->. rewrite (bool_decide_true (m ∈ acc ++ [m])) by set_solver. exact IHl.
    + apply bool_decide_eq_false in Ex.
      assert (bool_decide (x ∈ acc ++ [m]) = bool_decide (x ∈ acc)) as -> by (apply bool_decide_ext; set_solver).
      destruct (negb _); by rewrite IHl.
Qed.

(** One route either applies and updates the scan, or is skipped. *)
Lemma scan_route_cases strict trailing m path sc rt :
  (applies_b strict trailing path rt = false /\ scan_route strict trailing m path sc rt = sc)
  \/ exists ps, applies_b strict trailing path rt = true /\ match_path (segments rt) path = Some ps
     /\ scan_route strict trailing m path sc rt =
        mkScan (match chosen sc with
                | Some x => Some x
                | None => if bool_decide (m ∈ methods rt) then Some (handler rt, ps) else None
                end) true (foldl push_allowed (allowed sc) (methods rt)).
Proof.
  unfold scan_route, applies_b. destruct (strict && _); cbn [negb andb]; [by left|].
  destruct (match_path (segments rt) path) as [ps|].
  - right. exists ps. rewrite bool_decide_true by (by eexists). split_and!; [done..|]. by destruct (chosen sc).
  - left. by rewrite bool_decide_false by (by intros []).
Qed.

(** What the scan over the routes computes. *)
Lemma scan_spec strict trailing m path rts : forall sc,
  let app := List.filter (applies_b strict trailing path) rts in
  foldl (scan_route strict trailing m path) sc rts =
  mkScan
    (match chosen sc with
     | Some x => Some x
     | None => rt ← List.find (fun rt => bool_decide (m ∈ methods rt)) app;
               ps ← match_path (segments rt) path; Some (handler rt, ps)
     end)
    (path_exists sc || negb (bool_decide (app = [])))
    (foldl push_allowed (allowed sc) (concat (map methods app))).
Proof.
  induction rts as [|rt rts IH]; intros sc; cbn [foldl List.filter].
  - destruct sc as [ch pe al]. cbn. rewrite orb_false_r. by destruct ch.
  - cbv zeta in *. rewrite IH. destruct (scan_route_cases strict trailing m path sc rt) as [[-> ->]|(ps & -> & Em & ->)];
      [done|]. cbn [chosen path_exists allowed map concat List.find]. rewrite foldl_app. f_equal.
    + destruct (chosen sc) as [x|]; [done|].
      destruct (bool_decide (m ∈ methods rt)); [|done]. cbn [mbind option_bind]. by rewrite Em.
    + cbn. by rewrite orb_true_r.
Qed.

(** The answers [core_dispatch] may give. *)
Definition authorised r c s s' : Prop := match auth r with Some a => a s c = (s', None) | None => s' = s end.

Inductive dispatches r c : S -> S * HttpResponse -> Prop :=
| denied s s' a resp :                    (** the authenticator answers first *)
    auth r = Some a -> a s c = (s', Some resp) -> dispatches r c s (s', resp)
| filtered s s1 s2 resp fs f fs' s' :     (** then the filters, in registration order *)
    authorised r c s s1 -> filters r = fs ++ f :: fs' -> run_filters fs s1 c = (s', None) ->
    f s' c = (s2, Some resp) -> dispatches r c s (s2, resp)
| routed s s1 s2 pre rt post :            (** then the first applicable route with the method *)
    authorised r c s s1 -> run_filters (filters r) s1 c = (s2, None) ->
    routes r = pre ++ rt :: post ->
    applies r c rt -> method (request c) ∈ methods rt ->
    Forall (fun rt' => ~ (applies r c rt' /\ method (request c) ∈ methods rt')) pre ->
    dispatches r c s
      (handler rt s2 (mkCtx (request c) (bind_all ∅ (bindings (segments rt) (parts (req_path c))))))
| wrong_method s s1 s2 app out :          (** 405 with the methods the path has *)
    authorised r c s s1 -> run_filters (filters r) s1 c = (s2, None) ->
    Forall (applies r c) app -> sublist app (routes r) -> app <> [] ->
    (forall rt, rt ∈ routes r -> applies r c rt -> rt ∈ app /\ method (request c) ∉ methods rt) ->
    (let allow := join (b!", ") (map as_str (first_occurrences (concat (map methods app)))) in
     out = match method_not_allowed r with
           | Some h => ((h s2 c).1, with_header (h s2 c).2 (b!"Allow") allow)
           | None => (s2, with_header (text METHOD_NOT_ALLOWED (b!"405 Method Not Allowed")) (b!"Allow") allow)
           end) ->
    dispatches r c s out
| missing s s1 s2 :                       (** 404 *)
    authorised r c s s1 -> run_filters (filters r) s1 c = (s2, None) ->
    Forall (fun rt => ~ applies r c rt) (routes r) ->
    dispatches r c s (match not_found r with Some h => h s2 c | None => (s2, text NOT_FOUND (b!"404 Not Found")) end).

Lemma run_filters_some fs : forall s c s' resp,
  run_filters fs s c = (s', Some resp) ->
  exists fs1 f fs2 s1, fs = fs1 ++ f :: fs2 /\ run_filters fs1 s c = (s1, None) /\ f s1 c = (s', Some resp).
Proof.
  induction fs as [|f fs IH]; intros s c s' resp H; cbn [run_filters] in H; [done|].
  destruct (f s c) as [s1 [r1|]] eqn:Ef.
  - injection H as <- <-. by exists [], f, fs, s.
  - destruct (IH _ _ _ _ H) as (fs1 & g & fs2 & s2 & -> & Hr & Hg). exists (f :: fs1), g, fs2, s2.
    split_and!; [done| |done]. cbn [run_filters]. by rewrite Ef.
Qed.

Lemma find_first {A} (f : A -> bool) (l : list A) x :
  List.find f l = Some x -> exists l1 l2, l = l1 ++ x :: l2 /\ f x = true /\ Forall (fun y => f y = false) l1.
Proof.
  induction l as [|y l IH]; cbn [List.find]; [done|]. destruct (f y) eqn:Ey.
  - intros [= ->]. by exists [], l.
  - intros H. destruct (IH H) as (l1 & l2 & -> & Hx & Hl). exists (y :: l1), l2. split_and!; [done|done|by constructor].
Qed.

Lemma filter_find {A} (f g : A -> bool) (l : list A) :
  List.find g (List.filter f l) = List.find (fun x => f x && g x) l.
Proof.
  induction l as [|x l IH]; [done|]. cbn [List.filter List.find]. destruct (f x); cbn [List.find andb]; [|done].
  by destruct (g x).
Qed.

Lemma dispatch_routes r c s s1 s2 :
  authorised r c s s1 -> run_filters (filters r) s1 c = (s2, None) ->
  let sc := foldl (scan_route (strict_slash r) (has_trailing_slash (req_path c)) (method (request c)) (req_path c))
              (mkScan None false []) (routes r) in
  dispatches r c s
    (match chosen sc with
     | Some (h, params) => h s2 (mkCtx (request c) params)
     | None =>
         if path_exists sc then
           let allow := join (b!", ") (map as_str (allowed sc)) in
           match method_not_allowed r with
           | Some h => let '(s, resp) := h s2 c in (s, with_header resp (b!"Allow") allow)
           | None => (s2, with_header (text METHOD_NOT_ALLOWED (b!"405 Method Not Allowed")) (b!"Allow") allow)
           end
         else match not_found r with Some h => h s2 c | None => (s2, text NOT_FOUND (b!"404 Not Found")) end
     end).
Proof.
  intros Ha Hf. cbv zeta. rewrite scan_spec. cbn [chosen path_exists allowed orb].
  set (ab := applies_b (strict_slash r) (has_trailing_slash (req_path c)) (req_path c)).
  assert (forall rt, ab rt = true <-> applies r c rt) as Hab by (intros; apply applies_b_spec).
  rewrite filter_find.
  destruct (List.find _ (routes r)) as [rt|] eqn:Efind.
  - apply find_first in Efind as (pre & post & Er & Hrt & Hpre). apply andb_true_iff in Hrt as [Hrt Hm].
    apply Hab in Hrt. apply bool_decide_eq_true in Hm. cbn [mbind option_bind].
    pose proof (match_path_spec (segments rt) (req_path c)) as Hps.
    destruct (match_path (segments rt) (req_path c)) as [ps|]; [|by destruct Hrt]. destruct Hps as [_ ->].
    cbn [mbind option_bind]. eapply routed; try done.
    eapply Forall_impl; [exact Hpre|]. intros rt' H [H1 H2]. apply Hab in H1. cbn beta in H. rewrite H1 in H. cbn [andb] in H.
    by apply bool_decide_eq_false in H.
  - assert (forall rt, rt ∈ routes r -> applies r c rt -> method (request c) ∉ methods rt) as Hnone.
    { intros rt Hin Hap Hm. apply Hab in Hap. pose proof (List.find_none _ _ Efind rt) as H.
      rewrite <- list_elem_of_In in H. specialize (H Hin). cbn beta in H. rewrite Hap in H. cbn [andb] in H.
      by apply bool_decide_eq_false in H. }
    cbn [mbind option_bind]. case_bool_decide as Hempty; cbn [negb].
    + eapply missing; [done|done|]. rewrite Forall_forall. intros rt Hin Hap. apply Hab in Hap.
      assert (rt ∈ List.filter ab (routes r)) as H by (apply list_elem_of_In, filter_In; by rewrite <- list_elem_of_In).
      rewrite Hempty in H. by apply elem_of_nil in H.
    + eapply (wrong_method r c s s1 s2 (List.filter ab (routes r))); [done|done| |apply filter_sublist|done| |].
      * rewrite Forall_forall. intros rt Hin. apply list_elem_of_In, filter_In in Hin as [_ H]. by apply Hab.
      * intros rt Hin Hap. split; [|by apply Hnone]. apply list_elem_of_In, filter_In.
        rewrite <- list_elem_of_In. split; [done|by apply Hab].
      * rewrite foldl_push_allowed. cbn [app].
        assert (forall l : list Method, List.filter (fun m => negb (bool_decide (m ∈ []))) l = l) as ->.
        { intros l. induction l as [|x l IHl]; [done|]. cbn [List.filter].
          rewrite bool_decide_false by set_solver. cbn [negb]. by rewrite IHl. }
        destruct (method_not_allowed r); [|done]. by destruct (h s2 c).
Qed.

End Dispatch.

(** ** Percent encoding *)

(** Reference: form encoding of a query value. *)
Definition unreserved (b : byte) : bool :=
  ((48 <=? b2z b) && (b2z b <=? 57)) || ((65 <=? b2z b) && (b2z b <=? 90)) || ((97 <=? b2z b) && (b2z b <=? 122))
  || bool_decide (b ∈ [x2d; x2e; x5f; x7e]).

Definition percent_encode_byte (b : byte) : bytes :=
  if unreserved b then [b]
  else if bool_decide (b = x20) then [x2b]
  else [x25; hex_digit (b2z b / 16); hex_digit (b2z b mod 16)].

Definition percent_encode (s : bytes) : bytes := concat (map percent_encode_byte s).

Lemma percent_step f b rest out :
  percent_loop (S f) (percent_encode_byte b ++ rest) out = percent_loop f rest (out ++ [b]).
Proof.
  unfold percent_encode_byte. destruct (unreserved b) eqn:Eu.
  - cbn [app percent_loop]. rewrite (bool_decide_false (b = x2b)) by (intros ->; discriminate).
    by rewrite (bool_decide_false (b = x25)) by (intros ->; discriminate).
  - case_bool_decide as Hb; [by subst|]. pose proof (b2z_range b) as Hr.
    cbn [app percent_loop]. rewrite (bool_decide_false (x25 = x2b)), (bool_decide_true (x25 = x25)) by done.
    pose proof (Z.mod_pos_bound (b2z b) 16 ltac:(lia)). pose proof (Z.div_mod (b2z b) 16 ltac:(lia)).
    assert (0 <= b2z b / 16 < 16) by (split; [apply Z.div_pos; lia|apply Z.div_lt_upper_bound; lia]).
    destruct (hex_digit_ok (b2z b / 16)) as [O1 D1]; [lia|]. destruct (hex_digit_ok (b2z b mod 16)) as [O2 D2]; [lia|].
    rewrite (proj2 (Z.ltb_lt _ _)) by (unfold len; cbn [length]; lia). cbn [andb firstn skipn]. rewrite take_0, drop_0.
    assert (Utf8.is_utf8 [hex_digit (b2z b / 16); hex_digit (b2z b mod 16)] = true) as ->.
    { apply is_utf8_ascii. repeat constructor; by apply hex_ok_facts. }
    assert (parse_uint 16 255 [hex_digit (b2z b / 16); hex_digit (b2z b mod 16)] = Some (b2z b)) as ->.
    { unfold parse_uint. rewrite bool_decide_false by (intros E; rewrite E in O1; discriminate).
      cbn [parse_digits]. rewrite D1. cbn [mbind option_bind]. rewrite (proj2 (Z.ltb_ge _ _)) by lia.
      rewrite D2. cbn [mbind option_bind]. rewrite (proj2 (Z.ltb_ge _ _)) by lia. f_equal. lia. }
    by rewrite z2b_b2z.
Qed.

Lemma percent_loop_encode s : forall fuel out,
  (length s < fuel)%nat -> percent_loop fuel (percent_encode s) out = Some (out ++ s).
Proof.
  induction s as [|b s IH]; intros [|fuel] out Hf; try (cbn [length] in Hf; lia); unfold percent_encode; cbn [map concat].
  - cbn [percent_loop]. by rewrite app_nil_r.
  - rewrite percent_step. fold (percent_encode s). rewrite IH by (cbn [length] in Hf; lia). by rewrite <- app_assoc.
Qed.

Lemma percent_decode_encode s : Utf8.is_utf8 s = true -> percent_decode (percent_encode s) = s.
Proof.
  intros Hu. unfold percent_decode. rewrite percent_loop_encode.
  - cbn [default app]. change (Datatypes.id s) with s. by apply lossy_valid.
  - assert (length s <= length (percent_encode s))%nat; [|lia]. unfold percent_encode.
    clear Hu. induction s as [|b s IH]; [done|]. cbn [map concat length]. rewrite length_app.
    unfold percent_encode_byte at 1. destruct (unreserved b); [cbn [length]; lia|]. case_bool_decide; cbn [length]; lia.
Qed.

Lemma percent_encode_amp s : x26 ∉ percent_encode s.
Proof.
  unfold percent_encode. rewrite list_elem_of_In, in_concat. intros (l & Hl & Hin). apply in_map_iff in Hl as (b & <- & _).
  unfold percent_encode_byte in Hin. destruct (unreserved b) eqn:E.
  - destruct Hin as [->|[]]. discriminate.
  - case_bool_decide; [by destruct Hin as [|[]]|]. destruct Hin as [|[Hd|[Hd|[]]]]; [done| |];
      (assert (hex_ok x26 = true); [rewrite <- Hd; apply hex_digit_ok|done]); pose proof (b2z_range b).
    + split; [apply Z.div_pos; lia|apply Z.div_lt_upper_bound; lia].
    + apply Z.mod_pos_bound. lia.
Qed.

Lemma split_on_join c ws : ws <> [] -> Forall (fun w => c ∉ w) ws -> split_on c (join [c] ws) = ws.
Proof.
  induction ws as [|w ws IH]; intros Hne H; [done|]. inv H. destruct ws as [|w' ws]; [by apply split_on_none|].
  change (join [c] (w :: w' :: ws)) with (w ++ c :: join [c] (w' :: ws)). rewrite split_on_app by done.
  by rewrite IH.
Qed.

(** ** Properties *)

(** A path matches a pattern exactly when its non-empty parts correspond one to one to the pattern's segments
    (static segments literally, parameters to anything), and every parameter is bound to the part in its place,
    the last one if its name occurs twice. Conversely, a path built from a pattern with any non-empty, slash-free
    values for its parameters matches that pattern and gives exactly those values back. *)
Theorem route_matching (pattern request_path : bytes) (f : bytes -> bytes) :
  let segs := parse_pattern pattern in
  match match_path segs request_path with
  | Some m => Forall2 fits segs (parts request_path)
              /\ forall name, m !! name
                 = snd <$> last (List.filter (fun b => bool_decide (b.1 = name)) (bindings segs (parts request_path)))
  | None => ~ Forall2 fits segs (parts request_path)
  end
  /\ ((forall name, Param name ∈ segs -> f name <> [] /\ x2f ∉ f name) ->
      exists m, match_path segs (build_path f segs) = Some m
        /\ forall name v, m !! name = Some v <-> Param name ∈ segs /\ v = f name).
Proof.
  intros segs. split.
  - pose proof (match_path_spec segs request_path) as H. destruct (match_path segs request_path) as [m|]; [|done].
    destruct H as [Hf ->]. split; [done|]. intros name. rewrite bind_all_lookup.
    by destruct (last (List.filter _ _)).
  - intros Hv. assert (parts (build_path f segs) = map (fill f) segs) as Ep.
    { unfold build_path. rewrite <- (map_map (fill f) (cons x2f)). apply parts_build.
      rewrite Forall_forall. intros p Hp. apply list_elem_of_fmap in Hp as ([s|name] & -> & Hs).
      - by eapply parse_pattern_static.
      - by apply Hv. }
    pose proof (match_path_spec segs (build_path f segs)) as H. rewrite Ep in H.
    destruct (bindings_fill f segs) as [Hf Hb]. destruct (match_path segs _) as [m|]; [|done]. destruct H as [_ ->].
    eexists. split; [done|]. intros name v. rewrite bind_all_lookup.
    set (l := List.filter _ _). assert (forall b, b ∈ l <-> Param name ∈ segs /\ b = (name, f name)) as Hl.
    { intros b. unfold l. rewrite list_elem_of_In, filter_In, <- list_elem_of_In, Hb, bool_decide_eq_true.
      split; [intros [(n & Hn & ->) <-]; done|]. intros [Hn ->]. split; [by exists name|done]. }
    destruct (last l) as [b|] eqn:El.
    + apply last_Some in El as [l' El]. destruct (proj1 (Hl b)) as [Hn ->]; [rewrite El; set_solver|].
      cbn [snd]. split; [by intros [= <-]|]. by intros [_ ->].
    + apply last_None in El. rewrite El in Hl. rewrite lookup_empty. split; [done|]. intros [Hn ->].
      exfalso. by apply (not_elem_of_nil (name, f name)), Hl.
Qed.

Lemma route_matching_witness :
  exists m, match_path (parse_pattern (b!"/items/:id")) (b!"/items/42") = Some m /\ m !! b!"id" = Some (b!"42").
Proof.
  destruct (route_matching (b!"/items/:id") [] (fun _ => b!"42")) as [_ H].
  destruct H as (m & H1 & H2).
  - intros name _. split; [discriminate|vm_compute; set_solver].
  - exists m. split; [exact H1|]. apply H2. split; [vm_compute; set_solver|reflexivity].
Defined.

(** C17 Every request is dispatched as the routing rules say: the authenticator decides before anything else, then
    the filters in registration order, and if either answers no handler runs and that answer is returned
    unchanged; otherwise the first registered route whose pattern fits the path (respecting the trailing slash in
    strict mode) and that has the method handles the request, with exactly the parameters its pattern binds; if
    routes fit but none has the method the answer is 405 with an Allow header listing each method of the fitting
    routes once; if no route fits it is the not-found answer. *)
Theorem dispatch_follows_rules {S} (r : Router S) (s : S) (c : Ctx) : dispatches r c s (core_dispatch r s c).
Proof.
  unfold core_dispatch. destruct (auth r) as [a|] eqn:Ea.
  - destruct (a s c) as [s1 [resp|]] eqn:Es; [by eapply denied|].
    assert (authorised r c s s1) as Hau by (unfold authorised; by rewrite Ea).
    destruct (run_filters (filters r) s1 c) as [s2 [resp|]] eqn:Ef; [|by eapply dispatch_routes].
    apply run_filters_some in Ef as (fs & f & fs' & s' & Hfs & Hr & Hf). by eapply filtered.
  - assert (authorised r c s s) as Hau by (unfold authorised; by rewrite Ea).
    destruct (run_filters (filters r) s c) as [s2 [resp|]] eqn:Ef; [|by eapply dispatch_routes].
    apply run_filters_some in Ef as (fs & f & fs' & s' & Hfs & Hr & Hf). by eapply filtered.
Qed.

(** Query parameters survive form encoding: in a query string made of name=value pairs with the values
    percent-encoded (spaces as plus signs), [query_param] returns the decoded value of the first pair with that
    name, and nothing for other names. *)
Theorem query_roundtrip (pairs : list (bytes * bytes)) (c : Ctx) (name : bytes) :
  pairs <> [] ->
  Forall (fun kv => x26 ∉ kv.1 /\ x3d ∉ kv.1 /\ Utf8.is_utf8 kv.2 = true) pairs ->
  query (uri (request c)) = Some (join (b!"&") (map (fun kv => kv.1 ++ b!"=" ++ percent_encode kv.2) pairs)) ->
  query_param c name = snd <$> List.find (fun kv => bool_decide (kv.1 = name)) pairs.
Proof.
  intros Hne Hok Hq. unfold query_param. rewrite Hq. cbn [mbind option_bind].
  change (b!"&") with [x26]. rewrite split_on_join.
  - clear Hne Hq. induction Hok as [|[k v] pairs (Ha & He & Hu) _ IH]; [done|]. cbn [map find_pair List.find fst snd] in *.
    change (b!"=" ++ percent_encode v) with (x3d :: percent_encode v). rewrite split_once_app by done.
    case_bool_decide; [|done]. cbn [fmap option_fmap option_map snd]. by rewrite percent_decode_encode.
  - by destruct pairs.
  - apply Forall_map. eapply Forall_impl; [exact Hok|]. intros [k v] (Ha & _ & _). cbn [fst snd] in *.
    rewrite !not_elem_of_app. split_and!; [done|vm_compute; set_solver|apply percent_encode_amp].
Qed.

Lemma query_roundtrip_witness :
  query_param (mkCtx (mkRequest Get (mkUri [] [] 0 (b!"/") (Some (b!"a=1+%26&b=2"))) [] []) ∅) (b!"a") = Some (b!"1 &").
Proof.
  rewrite (query_roundtrip [(b!"a", b!"1 &"); (b!"b", b!"2")]).
  - reflexivity.
  - discriminate.
  - repeat constructor; vm_compute; (done || set_solver).
  - reflexivity.
Defined.

(** ** What the model shows beyond the contracts *)

(** A group's filters look at the raw path, its routes at the non-empty parts: a doubled slash reaches a route of
    the group without passing the group's filter. *)
Example group_filter_bypassed :
  let ok : Handler unit := fun s c => (s, text OK (b!"secret")) in
  let deny : Filter unit := fun s c => (s, Some (text UNAUTHORIZED [])) in
  let r := group router_new (group_filter (group_add (group_new (b!"/admin")) (b!"/keys") ok [Get]) deny) in
  let get p := status (snd (handle r tt (mkRequest Get (mkUri [] [] 0 p None) [] []))) in
  get (b!"/admin/keys") = UNAUTHORIZED /\ get (b!"//admin/keys") = OK.
Proof. vm_compute. split; reflexivity. Qed.

(** A sign is taken for a hexadecimal digit. *)
Example percent_sign_decoded : percent_decode (b!"%+5") = [x05].
Proof. vm_compute. reflexivity. Qed.
