(* ===== verification/Messaging.v ===== *)
(** * In-process messaging ([messaging/mod.rs])

    The local provider: destinations with competing listeners, bounded buffers, serial and concurrent consumers,
    acknowledgement, redelivery and dead-lettering.  Everything that runs concurrently (callers, consumer loops,
    handler jobs, detached resends) is a step of one relation. *)

From S2P Require Import Prelude Text Value HttpCore.

Open Scope Z_scope.

Module Messaging.

(** [HttpCore.split_once_str] is [str::split_once] for a string pattern. *)
Definition dest_name (addr : bytes) : bytes :=
  match HttpCore.split_once_str (b!"://") addr with Some (_, n) => n | None => addr end.

Record Message := mkMessage {
  headers : Value.Value;
  body : bytes;
  routing_key : option bytes;
  delivery_count : Z;             (** [u32] *)
}.

Definition new (b : bytes) : Message := mkMessage Value.Null b None 0.

Definition with_header (m : Message) (key : bytes) (value : Value.Value) : Message :=
  let h := match headers m with
           | Value.Object o => Value.Object (o ++ [(key, value)])
           | _ => Value.Object [(key, value)]
           end in
  mkMessage h (body m) (routing_key m) (delivery_count m).

Definition with_routing_key (m : Message) (key : bytes) : Message :=
  mkMessage (headers m) (body m) (Some key) (delivery_count m).

Inductive Ack := AckOk | Retry | Reject.

Record SendOptions := mkSend { key_override : option bytes; block_on_full : bool }.

Record ListenerOptions := mkListenerOptions {
  buffer_size : nat;
  concurrency : option nat;
  max_delivery_attempts : Z;      (** [u32] *)
  dead_letter : option bytes;
}.

Definition default_options : ListenerOptions := mkListenerOptions 256 None 3 None.

Inductive MessagingError := NoListeners (name : bytes) | BufferFull (name : bytes) | Closed (name : bytes).

(** The observer's hooks. *)
Inductive Event :=
| OnSend (addr : bytes) (m : Message)
| OnReceive (addr : bytes) (m : Message)
| OnAck (addr : bytes) (m : Message)
| OnNack (addr : bytes) (m : Message) (requeue : bool)
| OnDeadLetter (addr : bytes) (m : Message) (to_dlq : bool).

(** ** The provider *)

(** A listener's channel and consumer task: messages buffered, received but waiting for a permit, being handled;
    [alive] while the receiving end exists. *)
Record Listener := mkListener {
  dest : bytes;
  lopts : ListenerOptions;
  buffer : list Message;
  held : option Message;
  running : list Message;
  alive : bool;
}.

(** [DestState]; a [ListenerHandle]'s sender is the index of its listener. *)
Record DestState := mkDest { listeners : list nat; round_robin : Z }.

Section Pick.

(** [hash_key]: the standard library's hasher. *)
Variable hash_key : bytes -> nat.

(** [LocalProvider::pick] *)
Definition pick (is_closed : nat -> bool) (dests : gmap bytes DestState) (name : bytes) (key : option bytes)
  : option nat * gmap bytes DestState :=
  match dests !! name with
  | None => (None, dests)
  | Some d =>
      let ls := List.filter (fun l => negb (is_closed l)) (listeners d) in
      if bool_decide (ls = []) then (None, <[name := mkDest ls (round_robin d)]> dests)
      else
        match key with
        | Some k => (ls !! (hash_key k mod length ls)%nat, <[name := mkDest ls (round_robin d)]> dests)
        | None =>
            (ls !! Z.to_nat (round_robin d mod Z.of_nat (length ls)),
             <[name := mkDest ls (wrap64 (round_robin d + 1))]> dests)
        end
  end.

End Pick.

(** What [process] does with a message once its handler answered. *)
Inductive Outcome :=
| Settled                                             (** acknowledged, rejected or given up *)
| Resend (addr : bytes) (m : Message) (is_dlq : bool). (** [spawn_guaranteed_send] *)

Definition process (name : bytes) (opts : ListenerOptions) (m : Message) (ack : Ack) : list Event * Outcome :=
  let addr := b!"chan://" ++ name in
  match ack with
  | AckOk => ([OnAck addr m], Settled)
  | Reject => ([OnNack addr m false], Settled)
  | Retry =>
      let m := mkMessage (headers m) (body m) (routing_key m) (wrap32 (delivery_count m + 1)) in
      let will_requeue := delivery_count m <? max_delivery_attempts opts in
      let ev := OnNack addr m will_requeue in
      if will_requeue then ([ev], Resend addr m false)
      else match dead_letter opts with
           | Some dlq => ([ev], Resend dlq m true)
           | None => ([ev; OnDeadLetter addr m false], Settled)
           end
  end.

(** Who waits to put a message into a listener's buffer. *)
Inductive Origin := Caller (blocking : bool) | Task (addr : bytes) (is_dlq : bool).

Record Sender := mkSender { target : nat; smsg : Message; origin : Origin }.

(** The provider, the tasks it spawned, and what has happened: the observer's events, the messages [send] accepted
    (its future completed with [Ok]), the handler calls, the messages that left the system. *)
Record State := mkState {
  destinations : gmap bytes DestState;
  table : list Listener;
  senders : list Sender;
  outbox : list (bytes * Message * bool);
  events : list Event;
  accepted : list Message;
  calls : list Message;
  settled : list Message;
  failed : list MessagingError;
}.

Definition init : State := mkState ∅ [] [] [] [] [] [] [] [].

Definition is_closed (st : State) (l : nat) : bool :=
  match table st !! l with Some x => negb (alive x) | None => true end.

Definition set_listener (st : State) (i : nat) (l : Listener) : list Listener := <[i := l]> (table st).

Definition enqueue (l : Listener) (m : Message) : Listener :=
  mkListener (dest l) (lopts l) (buffer l ++ [m]) (held l) (running l) (alive l).

Definition has_room (l : Listener) : bool := (length (buffer l) <? buffer_size (lopts l))%nat.

Definition permits (n : nat) : nat := Nat.max 1 n.

Section Steps.

Variable hash_key : bytes -> nat.

Inductive step : State -> State -> Prop :=
(** [add_listener]; a zero-capacity channel panics *)
| add_listener st addr opts :
    (0 < buffer_size opts)%nat ->
    let name := dest_name addr in
    let d := default (mkDest [] 0) (destinations st !! name) in
    step st (mkState (<[name := mkDest (listeners d ++ [length (table st)]) (round_robin d)]> (destinations st))
                     (table st ++ [mkListener name opts [] None [] true])
                     (senders st) (outbox st) (events st) (accepted st) (calls st) (settled st) (failed st))
(** [send]: picking a listener *)
| send_pick st addr m opts l dests :
    let key := match key_override opts with Some k => Some k | None => routing_key m end in
    pick hash_key (is_closed st) (destinations st) (dest_name addr) key = (Some l, dests) ->
    step st (mkState dests (table st) (senders st ++ [mkSender l m (Caller (block_on_full opts))]) (outbox st)
                     (events st ++ [OnSend addr m]) (accepted st) (calls st) (settled st) (failed st))
| send_none st addr m opts dests :
    let key := match key_override opts with Some k => Some k | None => routing_key m end in
    pick hash_key (is_closed st) (destinations st) (dest_name addr) key = (None, dests) ->
    step st (mkState dests (table st) (senders st) (outbox st) (events st) (accepted st) (calls st) (settled st)
                     (failed st ++ [NoListeners (dest_name addr)]))
(** [tx.send] and [tx.try_send]: there is room *)
| sender_enqueues st ss s ss' l :
    senders st = ss ++ s :: ss' -> table st !! target s = Some l -> alive l = true -> has_room l = true ->
    step st (mkState (destinations st) (set_listener st (target s) (enqueue l (smsg s))) (ss ++ ss') (outbox st)
                     (events st ++ match origin s with Task addr true => [OnDeadLetter addr (smsg s) true] | _ => [] end)
                     (accepted st ++ match origin s with Caller _ => [smsg s] | Task _ _ => [] end)
                     (calls st) (settled st) (failed st))
(** [try_send] on a full buffer *)
| sender_full st ss s ss' l :
    senders st = ss ++ s :: ss' -> origin s = Caller false ->
    table st !! target s = Some l -> alive l = true -> has_room l = false ->
    step st (mkState (destinations st) (table st) (ss ++ ss') (outbox st) (events st) (accepted st) (calls st)
                     (settled st) (failed st ++ [BufferFull (dest l)]))
(** the consumer is gone; a resend is then reported as a drop *)
| sender_closed st ss s ss' l :
    senders st = ss ++ s :: ss' -> table st !! target s = Some l -> alive l = false ->
    step st (mkState (destinations st) (table st) (ss ++ ss') (outbox st)
                     (events st ++ match origin s with Task addr _ => [OnDeadLetter addr (smsg s) false] | _ => [] end)
                     (accepted st) (calls st)
                     (settled st ++ match origin s with Task _ _ => [smsg s] | Caller _ => [] end)
                     (failed st ++ match origin s with Caller _ => [Closed (dest l)] | Task _ _ => [] end))
(** [spawn_guaranteed_send]: its task runs [send] with default options and [block_on_full] *)
| resend_pick st os addr m is_dlq os' l dests :
    outbox st = os ++ (addr, m, is_dlq) :: os' ->
    pick hash_key (is_closed st) (destinations st) (dest_name addr) (routing_key m) = (Some l, dests) ->
    step st (mkState dests (table st) (senders st ++ [mkSender l m (Task addr is_dlq)]) (os ++ os')
                     (events st ++ [OnSend addr m]) (accepted st) (calls st) (settled st) (failed st))
| resend_none st os addr m is_dlq os' dests :
    outbox st = os ++ (addr, m, is_dlq) :: os' ->
    pick hash_key (is_closed st) (destinations st) (dest_name addr) (routing_key m) = (None, dests) ->
    step st (mkState dests (table st) (senders st) (os ++ os') (events st ++ [OnDeadLetter addr m false])
                     (accepted st) (calls st) (settled st ++ [m]) (failed st))
(** [consumer_loop], serial: the next message is taken when the last job is done *)
| recv_serial st i l m q :
    table st !! i = Some l -> alive l = true -> concurrency (lopts l) = None ->
    buffer l = m :: q -> running l = [] ->
    step st (mkState (destinations st)
                     (set_listener st i (mkListener (dest l) (lopts l) q (held l) [m] (alive l)))
                     (senders st) (outbox st) (events st ++ [OnReceive (b!"chan://" ++ dest l) m])
                     (accepted st) (calls st ++ [m]) (settled st) (failed st))
(** concurrent: a message is received, then a permit is awaited *)
| recv_concurrent st i l n m q :
    table st !! i = Some l -> alive l = true -> concurrency (lopts l) = Some n ->
    buffer l = m :: q -> held l = None ->
    step st (mkState (destinations st)
                     (set_listener st i (mkListener (dest l) (lopts l) q (Some m) (running l) (alive l)))
                     (senders st) (outbox st) (events st) (accepted st) (calls st) (settled st) (failed st))
| permit st i l n m :
    table st !! i = Some l -> alive l = true -> concurrency (lopts l) = Some n ->
    held l = Some m -> (length (running l) < permits n)%nat ->
    step st (mkState (destinations st)
                     (set_listener st i (mkListener (dest l) (lopts l) (buffer l) None (running l ++ [m]) (alive l)))
                     (senders st) (outbox st) (events st ++ [OnReceive (b!"chan://" ++ dest l) m])
                     (accepted st) (calls st ++ [m]) (settled st) (failed st))
(** [process]: a handler answers *)
| finish st i l ms m ms' ack evs o :
    table st !! i = Some l -> running l = ms ++ m :: ms' -> process (dest l) (lopts l) m ack = (evs, o) ->
    step st (mkState (destinations st)
                     (set_listener st i (mkListener (dest l) (lopts l) (buffer l) (held l) (ms ++ ms') (alive l)))
                     (senders st)
                     (outbox st ++ match o with Resend addr m' is_dlq => [(addr, m', is_dlq)] | Settled => [] end)
                     (events st ++ evs) (accepted st) (calls st)
                     (settled st ++ match o with Resend _ _ _ => [] | Settled => [m] end) (failed st))
(** a handler panics: a serial consumer dies with what it had buffered, a concurrent one loses the job *)
| panic_serial st i l m :
    table st !! i = Some l -> concurrency (lopts l) = None -> running l = [m] ->
    step st (mkState (destinations st) (set_listener st i (mkListener (dest l) (lopts l) [] None [] false))
                     (senders st) (outbox st) (events st) (accepted st) (calls st)
                     (settled st ++ [m] ++ buffer l ++ option_list (held l)) (failed st))
| panic_concurrent st i l n ms m ms' :
    table st !! i = Some l -> concurrency (lopts l) = Some n -> running l = ms ++ m :: ms' ->
    step st (mkState (destinations st)
                     (set_listener st i (mkListener (dest l) (lopts l) (buffer l) (held l) (ms ++ ms') (alive l)))
                     (senders st) (outbox st) (events st) (accepted st) (calls st) (settled st ++ [m]) (failed st))
(** [Component::stop] drops the senders; a consumer whose channel has no sender left drains and ends *)
| stop st :
    step st (mkState ∅ (table st) (senders st) (outbox st) (events st) (accepted st) (calls st) (settled st) (failed st))
| consumer_ends st i l :
    table st !! i = Some l -> buffer l = [] -> held l = None ->
    (concurrency (lopts l) = None -> running l = []) ->
    (forall name d, destinations st !! name = Some d -> i ∉ listeners d) ->
    Forall (fun s => target s <> i) (senders st) ->
    step st (mkState (destinations st)
                     (set_listener st i (mkListener (dest l) (lopts l) [] None (running l) false))
                     (senders st) (outbox st) (events st) (accepted st) (calls st) (settled st) (failed st)).

End Steps.

End Messaging.

Import Messaging.

(** ** Where messages are *)

(** Weighing messages: [wq] for the waiting ones, [wr] for those a handler is working on. *)
Definition tally (w : Message -> Z) (l : list Message) : Z := foldr (fun m acc => w m + acc) 0 l.

Definition listener_load (wq wr : Message -> Z) (l : Listener) : Z :=
  tally wq (buffer l) + tally wq (option_list (held l)) + tally wr (running l).

Definition table_load (wq wr : Message -> Z) (t : list Listener) : Z :=
  foldr (fun l acc => listener_load wq wr l + acc) 0 t.

(** The resends on their way into a buffer, and those not yet started. *)
Definition task_messages (ss : list Sender) : list Message :=
  concat (map (fun s => match origin s with Task _ _ => [smsg s] | Caller _ => [] end) ss).

Definition outbox_messages (os : list (bytes * Message * bool)) : list Message := map (fun o => o.1.2) os.

Definition load (wq wr : Message -> Z) (st : State) : Z :=
  table_load wq wr (table st) + tally wq (outbox_messages (outbox st)) + tally wq (task_messages (senders st)).

Lemma tally_app w l1 l2 : tally w (l1 ++ l2) = tally w l1 + tally w l2.
Proof. induction l1 as [|m l1 IH]; [done|]. cbn [app tally foldr] in *. unfold tally in *. lia. Qed.

Lemma tally_cons w m l : tally w (m :: l) = w m + tally w l.
Proof. done. Qed.

Lemma tally_nil w : tally w [] = 0.
Proof. done. Qed.

Lemma table_load_app wq wr t l : table_load wq wr (t ++ [l]) = table_load wq wr t + listener_load wq wr l.
Proof. induction t as [|x t IH]; [cbn; lia|]. cbn [app table_load foldr] in *. unfold table_load in *. lia. Qed.

Lemma table_load_insert wq wr (t : list Listener) i l l' :
  t !! i = Some l ->
  table_load wq wr (<[i := l']> t) = table_load wq wr t - listener_load wq wr l + listener_load wq wr l'.
Proof.
  revert i. induction t as [|x t IH]; intros [|i] H; [done..| |].
  - injection H as ->. change (<[0%nat := l']> (l :: t)) with (l' :: t). cbn [table_load foldr]. lia.
  - change (<[S i := l']> (x :: t)) with (x :: <[i := l']> t). specialize (IH i H). unfold table_load in *.
    cbn [foldr]. lia.
Qed.

Lemma task_messages_app a b : task_messages (a ++ b) = task_messages a ++ task_messages b.
Proof. unfold task_messages. by rewrite map_app, concat_app. Qed.

Lemma task_messages_cons s ss :
  task_messages (s :: ss) = match origin s with Task _ _ => [smsg s] | Caller _ => [] end ++ task_messages ss.
Proof. done. Qed.

Lemma outbox_messages_app a b : outbox_messages (a ++ b) = outbox_messages a ++ outbox_messages b.
Proof. apply map_app. Qed.

Definition retried (m : Message) : Message :=
  mkMessage (headers m) (body m) (routing_key m) (wrap32 (delivery_count m + 1)).

(** What a step does to the messages: nothing, accept one, start handling one, settle waiting or handled ones, or
    put one back with its counter raised. *)
Inductive effect (st st' : State) : Prop :=
| quiet :
    (forall wq wr, load wq wr st' = load wq wr st) -> accepted st' = accepted st -> calls st' = calls st ->
    settled st' = settled st -> effect st st'
| accepts s :
    s ∈ senders st -> (exists b, origin s = Caller b) ->
    (forall wq wr, load wq wr st' = load wq wr st + wq (smsg s)) -> accepted st' = accepted st ++ [smsg s] ->
    calls st' = calls st -> settled st' = settled st -> effect st st'
| handles i l m :
    table st !! i = Some l -> m ∈ buffer l ++ option_list (held l) ->
    (forall wq wr, load wq wr st' = load wq wr st - wq m + wr m) -> accepted st' = accepted st ->
    calls st' = calls st ++ [m] -> settled st' = settled st -> effect st st'
| settles wait run :
    (forall wq wr, load wq wr st' = load wq wr st - tally wq wait - tally wr run) -> accepted st' = accepted st ->
    calls st' = calls st -> settled st' = settled st ++ run ++ wait -> effect st st'
| retries i l m m' :
    table st !! i = Some l -> m ∈ running l -> m' = retried m ->
    delivery_count m' < max_delivery_attempts (lopts l) \/ dead_letter (lopts l) <> None ->
    (forall wq wr, load wq wr st' = load wq wr st - wr m + wq m') -> accepted st' = accepted st ->
    calls st' = calls st -> settled st' = settled st -> effect st st'.

Lemma process_outcome name opts m ack evs o :
  process name opts m ack = (evs, o) ->
  match o with
  | Settled => True
  | Resend _ m' _ => m' = retried m /\ (delivery_count m' < max_delivery_attempts opts \/ dead_letter opts <> None)
  end.
Proof.
  unfold process. destruct ack; [by intros [= <- <-]| |by intros [= <- <-]]. cbn [delivery_count].
  destruct (_ <? _) eqn:E.
  - intros [= <- <-]. split; [done|]. left. by apply Z.ltb_lt in E.
  - destruct (dead_letter opts); intros [= <- <-]; [|done]. split; [done|by right].
Qed.

Ltac load_eq :=
  intros; unfold load, set_listener, enqueue;
  cbn [destinations table senders outbox events accepted calls settled failed];
  try match goal with
      | H : table _ !! _ = Some ?l |- context [table_load ?wq ?wr (<[?i := ?l']> ?t)] =>
          rewrite (table_load_insert wq wr t i l l' H)
      end;
  rewrite ?table_load_app; unfold listener_load; cbn [buffer held running];
  repeat match goal with
         | H : senders _ = _ |- _ => rewrite H; clear H
         | H : outbox _ = _ |- _ => rewrite H; clear H
         | H : buffer _ = _ |- _ => rewrite H; clear H
         | H : running _ = _ |- _ => rewrite H; clear H
         | H : held _ = _ |- _ => rewrite H; clear H
         end;
  rewrite ?task_messages_app, ?task_messages_cons, ?outbox_messages_app;
  cbn [origin smsg];
  repeat match goal with H : origin _ = _ |- _ => rewrite H; clear H end;
  unfold outbox_messages, option_list; cbn [map fst snd option_rect];
  rewrite ?tally_app, ?tally_cons, ?tally_nil; try lia.

Section Invariants.
Variable hash_key : bytes -> nat.

Lemma step_effect st st' : step hash_key st st' -> effect st st'.
Proof.
  intros H. destruct H.
  - apply quiet; [load_eq|done..].
  - apply quiet; [load_eq|done..].
  - apply quiet; [load_eq|done..].
  - destruct (origin s) as [b|addr dlq] eqn:Eo.
    + apply (accepts _ _ s); [rewrite H; set_solver|by eexists|load_eq|done|done|done].
    + apply quiet; [load_eq|cbn [accepted]; by rewrite app_nil_r|done|done].
  - apply quiet; [load_eq|done..].
  - destruct (origin s) as [b|addr dlq] eqn:Eo.
    + apply quiet; [load_eq|done|done|cbn [settled]; by rewrite app_nil_r].
    + apply (settles _ _ [smsg s] []); [load_eq|done..].
  - apply quiet; [load_eq|done..].
  - apply (settles _ _ [m] []); [load_eq|done..].
  - apply (handles _ _ i l m); [done|rewrite H2; set_solver|load_eq|done..].
  - apply quiet; [load_eq|done..].
  - apply (handles _ _ i l m); [done|rewrite H2; set_solver|load_eq|done..].
  - pose proof (process_outcome _ _ _ _ _ _ H1) as Ho. destruct o as [|addr m' dlq].
    + apply (settles _ _ [] [m]); [load_eq|done..].
    + destruct Ho as [-> Hd]. apply (retries _ _ i l m (retried m)); [done|rewrite H0; set_solver|done|done|load_eq|done|done|].
      cbn [settled]. by rewrite app_nil_r.
  - apply (settles _ _ (buffer l ++ option_list (held l)) [m]); [load_eq|done..].
  - apply (settles _ _ [] [m]); [load_eq|done..].
  - apply quiet; [load_eq|done..].
  - apply quiet; [load_eq|done..].
Qed.

(** Conservation, for weights that do not look at the delivery counter. *)
Lemma conserved w st :
  (forall m, w (retried m) = w m) -> rtc (step hash_key) init st ->
  tally w (accepted st) = load w w st + tally w (settled st).
Proof.
  intros Hw H. assert (tally w (accepted init) = load w w init + tally w (settled init)) as Hi by done.
  revert Hi. induction H as [|s1 s2 s3 Hs _ IH]; [done|]. intros Hi. apply IH; clear IH.
  apply step_effect in Hs as [Hl Ha _ Hse|s _ _ Hl Ha _ Hse|i l m _ _ Hl Ha _ Hse|wait run Hl Ha _ Hse|i l m m' _ _ -> _ Hl Ha _ Hse];
    rewrite Ha, Hse, Hl, ?tally_app, ?tally_cons, ?tally_nil; rewrite ?Hw; lia.
Qed.

(** ** Bounded redelivery *)

Lemma tally_nonneg w l : (forall m, 0 <= w m) -> 0 <= tally w l.
Proof. intros H. induction l as [|m l IH]; [done|]. rewrite tally_cons. specialize (H m). lia. Qed.

Lemma tally_elem w l m : (forall m, 0 <= w m) -> m ∈ l -> w m <= tally w l.
Proof.
  intros H. induction l as [|x l IH]; intros Hm; [by apply elem_of_nil in Hm|]. rewrite tally_cons.
  pose proof (tally_nonneg w l H). specialize (H x).
  apply elem_of_cons in Hm as [->|Hm]; [lia|]. specialize (IH Hm). lia.
Qed.

Lemma load_nonneg wq wr st : (forall m, 0 <= wq m) -> (forall m, 0 <= wr m) -> 0 <= load wq wr st.
Proof.
  intros Hq Hr. unfold load. pose proof (tally_nonneg wq (outbox_messages (outbox st)) Hq).
  pose proof (tally_nonneg wq (task_messages (senders st)) Hq).
  assert (0 <= table_load wq wr (table st)); [|lia].
  unfold table_load. induction (table st) as [|l t IH]; [done|]. cbn [foldr]. unfold listener_load at 1.
  pose proof (tally_nonneg wq (buffer l) Hq). pose proof (tally_nonneg wq (option_list (held l)) Hq).
  pose proof (tally_nonneg wr (running l) Hr). lia.
Qed.

Lemma load_listener w st i l m :
  (forall m, 0 <= w m) -> table st !! i = Some l -> m ∈ (buffer l ++ option_list (held l)) ++ running l ->
  w m <= load w w st.
Proof.
  intros Hw Hi Hm. unfold load. pose proof (tally_nonneg w (outbox_messages (outbox st)) Hw).
  pose proof (tally_nonneg w (task_messages (senders st)) Hw).
  assert (w m <= table_load w w (table st)); [|lia]. revert i Hi.
  assert (forall l, 0 <= listener_load w w l) as Hl.
  { intros x. unfold listener_load. pose proof (tally_nonneg w (buffer x) Hw).
    pose proof (tally_nonneg w (option_list (held x)) Hw). pose proof (tally_nonneg w (running x) Hw). lia. }
  assert (forall t, 0 <= table_load w w t) as Ht.
  { intros t. induction t as [|x t IH]; [done|]. unfold table_load in *. cbn [foldr]. specialize (Hl x). lia. }
  induction (table st) as [|x t IH]; intros [|i] Hi; [done..| |].
  - injection Hi as ->. specialize (Ht t). unfold table_load in *. cbn [foldr].
    assert (w m <= listener_load w w l); [|lia]. unfold listener_load.
    rewrite <- !tally_app. by apply tally_elem.
  - specialize (IH i Hi). specialize (Hl x). unfold table_load in *. cbn [foldr]. lia.
Qed.

(** Listeners that allow at most [k] attempts and have no dead-letter destination, callers that send fresh
    messages. *)
Definition configured (k : Z) (st : State) : Prop :=
  Forall (fun l => max_delivery_attempts (lopts l) <= k /\ dead_letter (lopts l) = None) (table st)
  /\ Forall (fun s => match origin s with Caller _ => delivery_count (smsg s) = 0 | Task _ _ => True end) (senders st).

(** A counter out of range, the attempts a waiting message has left, those a handled one has left. *)
Definition stray (k : Z) (m : Message) : Z :=
  if (0 <=? delivery_count m) && (delivery_count m <? k) then 0 else 1.
Definition left_waiting (k : Z) (m : Message) : Z := Z.max 0 (k - delivery_count m).
Definition left_running (k : Z) (m : Message) : Z := Z.max 0 (k - delivery_count m - 1).

Lemma stray_spec k m : 0 <= stray k m /\ (stray k m = 0 <-> 0 <= delivery_count m < k).
Proof. unfold stray. destruct (_ && _) eqn:E; zbool; lia. Qed.

Definition within (k : Z) (st : State) : Prop :=
  load (stray k) (stray k) st = 0
  /\ Z.of_nat (length (calls st)) + load (left_waiting k) (left_running k) st <= k * Z.of_nat (length (accepted st)).

Lemma within_step k st st' :
  1 <= k <= u32_max -> configured k st -> effect st st' -> within k st -> within k st'.
Proof.
  intros Hk [Hls Hss] He [Hs Hb]. rewrite Forall_forall in Hss.
  assert (forall m, 0 <= stray k m) as Hsn by (intros; apply stray_spec).
  assert (forall m, 0 <= left_waiting k m) as Hq by (intros; unfold left_waiting; lia).
  assert (forall m, 0 <= left_running k m) as Hr by (intros; unfold left_running; lia).
  assert (forall i l m, table st !! i = Some l -> m ∈ (buffer l ++ option_list (held l)) ++ running l ->
            0 <= delivery_count m < k) as Hin.
  { intros i l m Hi Hm. apply stray_spec. pose proof (load_listener (stray k) st i l m Hsn Hi Hm). specialize (Hsn m). lia. }
  pose proof (load_nonneg (stray k) (stray k) st' Hsn Hsn) as Hnn.
  unfold within. destruct He as [Hl Ha Hc _|s Hin' [b Ho] Hl Ha Hc _|i l m Hi Hm Hl Ha Hc _|wait run Hl Ha Hc _|i l m m' Hi Hm Hm' Hd Hl Ha Hc _];
    rewrite Ha, Hc, ?length_app, !Hl; rewrite Hl in Hnn.
  - lia.
  - specialize (Hss s Hin'). rewrite Ho in Hss. cbn [length]. unfold left_waiting at 2. unfold stray at 3.
    rewrite Hss. rewrite (proj2 (Z.ltb_lt 0 k)) by lia. cbn [Z.leb andb]. cbn. lia.
  - assert (0 <= delivery_count m < k) by (apply (Hin i l); [done|apply elem_of_app; by left]).
    cbn [length]. unfold left_waiting at 2, left_running at 2. lia.
  - pose proof (tally_nonneg (stray k) wait Hsn). pose proof (tally_nonneg (stray k) run Hsn).
    pose proof (tally_nonneg (left_waiting k) wait Hq). pose proof (tally_nonneg (left_running k) run Hr). lia.
  - assert (0 <= delivery_count m < k) as Hrange by (apply (Hin i l); [done|apply elem_of_app; by right]).
    rewrite Forall_lookup in Hls. destruct (Hls i l Hi) as [Hmax Hdl]. destruct Hd as [Hd|Hd]; [|done].
    assert (delivery_count m' = delivery_count m + 1) as Hc'.
    { rewrite Hm'. unfold retried, wrap32, u32_max in *. cbn [delivery_count]. apply Z.mod_small. lia. }
    assert (stray k m' = 0) as -> by (apply stray_spec; lia).
    assert (stray k m = 0) as -> by (by apply stray_spec).
    unfold left_waiting at 2, left_running at 2. lia.
Qed.

Lemma reachable_within k st :
  1 <= k <= u32_max -> rtc (fun a b => configured k a /\ step hash_key a b) init st -> within k st.
Proof.
  intros Hk H. assert (within k init) as Hi by (split; [done|change (0 + 0 <= k * 0); lia]).
  revert Hi. induction H as [|s1 s2 s3 [Hc Hs] _ IH]; [done|]. intros Hi. apply IH.
  eapply within_step; [done|done|by apply step_effect in Hs|done].
Qed.

End Invariants.

(** ** Choosing a listener *)

(** [n] keyless picks in a row. *)
Fixpoint picks (hash_key : bytes -> nat) (n : nat) (dests : gmap bytes DestState) (name : bytes)
  : list (option nat) * gmap bytes DestState :=
  match n with
  | O => ([], dests)
  | S n =>
      let '(l, dests) := pick hash_key (fun _ => false) dests name None in
      let '(ls, dests) := picks hash_key n dests name in (l :: ls, dests)
  end.

Lemma filter_true {A} (l : list A) : List.filter (fun _ => negb false) l = l.
Proof. induction l as [|x l IH]; [done|]. change (x :: List.filter (fun _ : A => negb false) l = x :: l). by f_equal. Qed.

Lemma picks_spec hash_key ls name n : forall rr dests,
  ls <> [] -> 0 <= rr -> rr + Z.of_nat n <= u64_max -> dests !! name = Some (mkDest ls rr) ->
  (picks hash_key n dests name).1
  = map (fun j => ls !! Z.to_nat ((rr + Z.of_nat j) mod Z.of_nat (length ls))) (seq 0 n).
Proof.
  induction n as [|n IH]; intros rr dests Hls Hrr Hb Hd; [done|]. cbn [picks]. unfold pick. rewrite Hd.
  cbn [listeners round_robin]. rewrite filter_true, bool_decide_false by done.
  assert (wrap64 (rr + 1) = rr + 1) as -> by (unfold wrap64, u64_max in *; apply Z.mod_small; lia).
  specialize (IH (rr + 1) (<[name := mkDest ls (rr + 1)]> dests) Hls ltac:(lia) ltac:(lia)).
  rewrite lookup_insert_eq in IH. specialize (IH eq_refl).
  destruct (picks hash_key n _ name) as [l d]. cbn [fst] in *. rewrite IH. cbn [seq map].
  rewrite Z.add_0_r. f_equal. rewrite <- seq_shift, map_map. apply map_ext. intros j.
  do 3 f_equal. lia.
Qed.

(** A full turn of the round robin visits every index once. *)
Lemma rotation n r :
  (0 < n)%nat -> map (fun j => Z.to_nat ((r + Z.of_nat j) mod Z.of_nat n)) (seq 0 n) ≡ₚ seq 0 n.
Proof.
  intros Hn. apply submseteq_length_Permutation; [|by rewrite length_map, !length_seq]. apply NoDup_submseteq.
  - apply NoDup_fmap_2_strong; [|apply NoDup_seq]. intros a b Ha Hb Hab.
    apply elem_of_seq in Ha, Hb.
    pose proof (Z.mod_pos_bound (r + Z.of_nat a) (Z.of_nat n) ltac:(lia)).
    pose proof (Z.mod_pos_bound (r + Z.of_nat b) (Z.of_nat n) ltac:(lia)).
    assert ((r + Z.of_nat a) mod Z.of_nat n = (r + Z.of_nat b) mod Z.of_nat n) as E by lia.
    pose proof (Z.div_mod (r + Z.of_nat a) (Z.of_nat n) ltac:(lia)).
    pose proof (Z.div_mod (r + Z.of_nat b) (Z.of_nat n) ltac:(lia)).
    assert (Z.of_nat a - Z.of_nat b
            = Z.of_nat n * ((r + Z.of_nat a) / Z.of_nat n - (r + Z.of_nat b) / Z.of_nat n)) as E' by lia.
    assert ((r + Z.of_nat a) / Z.of_nat n - (r + Z.of_nat b) / Z.of_nat n = 0) by nia. lia.
  - intros x Hx. apply list_elem_of_fmap in Hx as (j & -> & Hj). apply elem_of_seq.
    pose proof (Z.mod_pos_bound (r + Z.of_nat j) (Z.of_nat n) ltac:(lia)). lia.
Qed.

Lemma map_lookup_seq {A} (l : list A) : map (fun i => l !! i) (seq 0 (length l)) = map Some l.
Proof.
  induction l as [|x l IH]; [done|]. cbn [length seq map]. f_equal.
  rewrite <- seq_shift, map_map. exact IH.
Qed.

(** ** Properties *)

Definition in_flight (st : State) : list Message :=
  concat (map (fun l => buffer l ++ option_list (held l) ++ running l) (table st))
  ++ outbox_messages (outbox st) ++ task_messages (senders st).

Definition count (p : Message -> bool) (l : list Message) : nat := length (List.filter p l).

Lemma count_tally p l : Z.of_nat (count p l) = tally (fun m => if p m then 1 else 0) l.
Proof.
  unfold count. induction l as [|m l IH]; [done|]. rewrite tally_cons. cbn [List.filter].
  destruct (p m); cbn [length]; lia.
Qed.

Lemma tally_in_flight w st : tally w (in_flight st) = load w w st.
Proof.
  unfold in_flight, load. rewrite !tally_app.
  assert (tally w (concat (map (fun l => buffer l ++ option_list (held l) ++ running l) (table st)))
          = table_load w w (table st)) as ->; [|lia].
  unfold table_load. induction (table st) as [|l t IH]; [done|]. cbn [map concat foldr].
  rewrite !tally_app, IH. unfold listener_load. lia.
Qed.

(** C19 No message is lost or duplicated: in every state the provider can reach, under any interleaving of callers,
    consumers, handler answers, resends, panics and shutdown, the messages whose [send] succeeded are exactly those
    still in flight (buffered, received, being handled, or on their way back) and those settled (acknowledged,
    rejected, given up with a report, or lost with a panicking handler), each counted once; counted for any
    predicate on messages that ignores the delivery counter. *)
Theorem messages_conserved (hash_key : bytes -> nat) (st : State) (p : Message -> bool) :
  (forall h b k d d', p (mkMessage h b k d) = p (mkMessage h b k d')) ->
  rtc (step hash_key) init st ->
  count p (accepted st) = (count p (in_flight st) + count p (settled st))%nat.
Proof.
  intros Hp Hr. apply Nat2Z.inj. rewrite Nat2Z.inj_add, !count_tally, tally_in_flight.
  apply (conserved hash_key); [|done]. intros [h b k d]. unfold retried. cbn [headers body routing_key delivery_count].
  by rewrite (Hp h b k _ d).
Qed.

(** A provider with one listener, and a message on its way. *)
Definition demo_options : ListenerOptions := mkListenerOptions 1 None 2 None.
Definition demo_message : Message := new (b!"m").

Definition demo_listening : State :=
  mkState (<[b!"q" := mkDest [0%nat] 0]> ∅) [mkListener (b!"q") demo_options [] None [] true] [] [] [] [] [] [] [].
Definition demo_sending : State :=
  mkState (<[b!"q" := mkDest [0%nat] 1]> ∅) [mkListener (b!"q") demo_options [] None [] true]
          [mkSender 0 demo_message (Caller false)] [] [OnSend (b!"q") demo_message] [] [] [] [].
Definition demo_buffered : State :=
  mkState (<[b!"q" := mkDest [0%nat] 1]> ∅) [mkListener (b!"q") demo_options [demo_message] None [] true]
          [] [] [OnSend (b!"q") demo_message] [demo_message] [] [] [].

Lemma demo_steps hash_key :
  step hash_key init demo_listening /\ step hash_key demo_listening demo_sending
  /\ step hash_key demo_sending demo_buffered.
Proof.
  split_and!.
  - exact (add_listener hash_key init (b!"chan://q") demo_options ltac:(vm_compute; lia)).
  - exact (send_pick hash_key demo_listening (b!"q") demo_message (mkSend None false) 0 _ eq_refl).
  - exact (sender_enqueues hash_key demo_sending [] (mkSender 0 demo_message (Caller false)) []
             (mkListener (b!"q") demo_options [] None [] true) eq_refl eq_refl eq_refl eq_refl).
Qed.

Lemma messages_conserved_witness :
  count (fun m => bool_decide (body m = b!"m")) (accepted demo_buffered)
  = (count (fun m => bool_decide (body m = b!"m")) (in_flight demo_buffered)
     + count (fun m => bool_decide (body m = b!"m")) (settled demo_buffered))%nat.
Proof.
  apply (messages_conserved (fun _ => 0%nat)).
  - intros. reflexivity.
  - destruct (demo_steps (fun _ => 0%nat)) as (H1 & H2 & H3).
    eapply rtc_l; [exact H1|]. eapply rtc_l; [exact H2|]. eapply rtc_l; [exact H3|]. apply rtc_refl.
Defined.

(** Redelivery is bounded: if every listener allows at most [k] delivery attempts and has no dead-letter
    destination, and callers send fresh messages, the handlers are called at most [k] times per accepted message,
    however often they answer [Retry] and whatever else happens. *)
Theorem redelivery_bounded (hash_key : bytes -> nat) (k : Z) (st : State) :
  1 <= k <= u32_max ->
  rtc (fun a b => configured k a /\ step hash_key a b) init st ->
  Z.of_nat (length (calls st)) <= k * Z.of_nat (length (accepted st)).
Proof.
  intros Hk Hr. destruct (reachable_within hash_key k st Hk Hr) as [_ Hw].
  pose proof (load_nonneg (left_waiting k) (left_running k) st) as Hn.
  unfold left_waiting, left_running in *. specialize (Hn ltac:(lia) ltac:(lia)). lia.
Qed.

Lemma redelivery_bounded_witness :
  Z.of_nat (length (calls demo_buffered)) <= 2 * Z.of_nat (length (accepted demo_buffered)).
Proof.
  apply (redelivery_bounded (fun _ => 0%nat)); [vm_compute; split; congruence|].
  destruct (demo_steps (fun _ => 0%nat)) as (H1 & H2 & H3).
  eapply rtc_l; [split; [|exact H1]; repeat constructor|].
  eapply rtc_l; [split; [|exact H2]; repeat constructor; vm_compute; congruence|].
  eapply rtc_l; [split; [|exact H3]; repeat constructor; vm_compute; congruence|]. apply rtc_refl.
Defined.

(** Competing consumers: messages with a routing key go to a listener that depends only on the key and the live
    listeners, and leave the round robin alone; as many keyless messages in a row as there are listeners go to
    each of them exactly once (until the 64-bit counter wraps). *)
Theorem pick_affinity_and_fairness (hash_key : bytes -> nat) (dests : gmap bytes DestState) (name : bytes)
    (ls : list nat) (rr : Z) :
  ls <> [] -> 0 <= rr -> rr + Z.of_nat (length ls) <= u64_max -> dests !! name = Some (mkDest ls rr) ->
  (forall k, exists l, pick hash_key (fun _ => false) dests name (Some k) = (Some l, dests)
                       /\ ls !! (hash_key k mod length ls)%nat = Some l)
  /\ (picks hash_key (length ls) dests name).1 ≡ₚ map Some ls.
Proof.
  intros Hls Hrr Hb Hd. split.
  - intros k. unfold pick. rewrite Hd. cbn [listeners round_robin]. rewrite filter_true, bool_decide_false by done.
    assert (hash_key k mod length ls < length ls)%nat as Hlt by (apply Nat.mod_upper_bound; by destruct ls).
    destruct (lookup_lt_is_Some_2 ls _ Hlt) as [l Hl]. exists l. rewrite Hl. split; [|done].
    by rewrite insert_id.
  - rewrite (picks_spec _ ls name (length ls) rr) by done.
    rewrite <- (map_map (fun j => Z.to_nat ((rr + Z.of_nat j) mod Z.of_nat (length ls))) (fun i => ls !! i)).
    rewrite <- map_lookup_seq. apply Permutation_map, rotation. destruct ls; [done|]. cbn [length]. lia.
Qed.

Lemma pick_affinity_and_fairness_witness :
  (picks (fun _ => 0%nat) 2 (<[b!"q" := mkDest [4%nat; 7%nat] 3]> ∅) (b!"q")).1 ≡ₚ [Some 4%nat; Some 7%nat].
Proof.
  apply (pick_affinity_and_fairness (fun _ => 0%nat) (<[b!"q" := mkDest [4%nat; 7%nat] 3]> ∅) (b!"q") [4%nat; 7%nat] 3).
  - discriminate.
  - lia.
  - vm_compute. congruence.
  - reflexivity.
Defined.

(** ** What the model shows beyond the contracts *)

(** A routing key given in the send options is not stored in the message, so its redelivery goes to another
    listener: here the key selects listener 1, the resend of the same message listener 0. *)
Example override_key_lost_on_redelivery :
  let dests := <[b!"q" := mkDest [0%nat; 1%nat] 0]> ∅ in
  let hash := fun _ : bytes => 1%nat in
  let m := new (b!"m") in
  (pick hash (fun _ => false) dests (b!"q") (Some (b!"k"))).1 = Some 1%nat
  /\ exists addr m', (process (b!"q") default_options m Retry).2 = Resend addr m' false
     /\ (pick hash (fun _ => false) dests (dest_name addr) (routing_key m')).1 = Some 0%nat.
Proof. cbv zeta. split; [reflexivity|]. do 2 eexists. split; reflexivity. Qed.

(** A dead-lettered message keeps its counter: the dead-letter listener gets a single attempt, whatever its own
    [max_delivery_attempts]. *)
Example dead_letter_single_attempt :
  let m := mkMessage Value.Null (b!"m") None 3 in
  process (b!"dlq") default_options m Retry
  = ([OnNack (b!"chan://dlq") (retried m) false; OnDeadLetter (b!"chan://dlq") (retried m) false], Settled).
Proof. reflexivity. Qed.
