(* ===== verification/Genai.v ===== *)
(** * Generative-AI data model, prompt templates ([genai/])

    The provider-neutral messages, requests, options and responses
    ([message.rs], [request.rs], [options.rs], [response.rs], [embedder.rs],
    [error.rs]), the [{{ path }}] template engine ([template.rs]) and the prompt
    store ([prompt.rs]).  Strings are their UTF-8 bytes: the engine compares
    [char]s with braces only, which are ASCII, so scanning bytes finds the same
    positions. *)

From S2P Require Import Prelude Text Value Json.

Open Scope Z_scope.

Module Genai.

(** ** [message.rs] *)

Inductive Role := System | User | Assistant | Tool.

#[export] Instance Role_eq_dec : EqDecision Role.
Proof. solve_decision. Defined.

Definition role_as_str (r : Role) : bytes :=
  match r with
  | System => b!"system"
  | User => b!"user"
  | Assistant => b!"assistant"
  | Tool => b!"tool"
  end.

Inductive MessagePart :=
| Text (t : bytes)
| Image (data mime_type : bytes)
| FileRef (uri mime_type : bytes)
| ToolCall (id name : bytes) (arguments : Value)
| ToolResult (call_id : bytes) (result : Value).

Record Message := mkMessage {
  role : Role;
  id : option bytes;
  parts : list MessagePart;
}.

Definition message_text (r : Role) (i t : bytes) : Message := mkMessage r (Some i) [Text t].

Definition message_binary (r : Role) (i data mime_type : bytes) : Message :=
  mkMessage r (Some i) [Image data mime_type].

Definition message_file_ref (r : Role) (i uri mime_type : bytes) : Message :=
  mkMessage r (Some i) [FileRef uri mime_type].

(** [Message::json], for a value whose [encode] is [v]. *)
Definition message_json (r : Role) (i : bytes) (v : Value) : Message := message_text r i (to_string v).

Definition message_user (t : bytes) : Message := mkMessage User None [Text t].
Definition message_system (t : bytes) : Message := mkMessage System None [Text t].

Definition add_text_part (m : Message) (t : bytes) : Message :=
  mkMessage (role m) (id m) (parts m ++ [Text t]).
Definition add_binary_part (m : Message) (data mime_type : bytes) : Message :=
  mkMessage (role m) (id m) (parts m ++ [Image data mime_type]).

Definition text_of (p : MessagePart) : option bytes := match p with Text t => Some t | _ => None end.

Definition text_content (m : Message) : bytes := join [] (omap text_of (parts m)).

(** ** [options.rs], [request.rs] *)

Record Options := mkOptions {
  max_tokens : option Z;          (** [u32] *)
  temperature : option F32.t;
  top_p : option F32.t;
  system_instructions : option bytes;
  custom : gmap bytes Value;
}.

Definition options_new : Options := mkOptions None None None None ∅.

Definition opt_max_tokens (n : Z) (o : Options) : Options :=
  mkOptions (Some n) (temperature o) (top_p o) (system_instructions o) (custom o).
Definition opt_temperature (t : F32.t) (o : Options) : Options :=
  mkOptions (max_tokens o) (Some t) (top_p o) (system_instructions o) (custom o).
Definition opt_top_p (p : F32.t) (o : Options) : Options :=
  mkOptions (max_tokens o) (temperature o) (Some p) (system_instructions o) (custom o).
Definition opt_system_instructions (s : bytes) (o : Options) : Options :=
  mkOptions (max_tokens o) (temperature o) (top_p o) (Some s) (custom o).
Definition opt_custom (k : bytes) (v : Value) (o : Options) : Options :=
  mkOptions (max_tokens o) (temperature o) (top_p o) (system_instructions o) (<[k := v]> (custom o)).

Record ToolDefinition := mkTool {
  tool_name : bytes;
  tool_description : bytes;
  tool_parameters : Value;
}.

Inductive ResponseFormat := FmtText | FmtJson | FmtJsonSchema (schema : Value).

Inductive ToolChoice := ChoiceAuto | ChoiceNone | ChoiceRequired | ChoiceNamed (name : bytes).

Record CompletionRequest := mkRequest {
  model : bytes;
  messages : list Message;
  tools : list ToolDefinition;
  tool_choice : option ToolChoice;
  response_format : option ResponseFormat;
  options : Options;
}.

Definition request_new (m : bytes) (ms : list Message) : CompletionRequest :=
  mkRequest m ms [] None None options_new.

(** The setters of [CompletionRequestBuilder] and the assignments the router makes. *)
Definition with_model (m : bytes) (r : CompletionRequest) : CompletionRequest :=
  mkRequest m (messages r) (tools r) (tool_choice r) (response_format r) (options r).
Definition with_message (m : Message) (r : CompletionRequest) : CompletionRequest :=
  mkRequest (model r) (messages r ++ [m]) (tools r) (tool_choice r) (response_format r) (options r).
Definition with_tool (t : ToolDefinition) (r : CompletionRequest) : CompletionRequest :=
  mkRequest (model r) (messages r) (tools r ++ [t]) (tool_choice r) (response_format r) (options r).
Definition with_tool_choice (c : ToolChoice) (r : CompletionRequest) : CompletionRequest :=
  mkRequest (model r) (messages r) (tools r) (Some c) (response_format r) (options r).
Definition with_response_format (f : ResponseFormat) (r : CompletionRequest) : CompletionRequest :=
  mkRequest (model r) (messages r) (tools r) (tool_choice r) (Some f) (options r).
Definition with_options (o : Options) (r : CompletionRequest) : CompletionRequest :=
  mkRequest (model r) (messages r) (tools r) (tool_choice r) (response_format r) o.

(** ** [response.rs], [embedder.rs] *)

Record Usage := mkUsage {
  prompt_tokens : option Z;       (** [u32] *)
  completion_tokens : option Z;
  total_tokens : option Z;
}.

Record CompletionResponse := mkResponse {
  resp_model : bytes;
  message : Message;
  finish_reason : option bytes;
  usage : option Usage;
}.

Definition response_text (r : CompletionResponse) : bytes := text_content (message r).

Record CompletionChunk := mkChunk {
  delta : bytes;
  chunk_finish_reason : option bytes;
  chunk_usage : option Usage;
}.

Inductive Capability :=
| CapText | CapChat | CapStreaming | CapVision | CapAudio | CapToolUse | CapJsonMode
| CapEmbeddings | CapReasoning.

#[export] Instance Capability_eq_dec : EqDecision Capability.
Proof. solve_decision. Defined.

(** [format!("{c:?}")] *)
Definition capability_debug (c : Capability) : bytes :=
  match c with
  | CapText => b!"Text"
  | CapChat => b!"Chat"
  | CapStreaming => b!"Streaming"
  | CapVision => b!"Vision"
  | CapAudio => b!"Audio"
  | CapToolUse => b!"ToolUse"
  | CapJsonMode => b!"JsonMode"
  | CapEmbeddings => b!"Embeddings"
  | CapReasoning => b!"Reasoning"
  end.

Record EmbedRequest := mkEmbedRequest { embed_model : bytes; input : list bytes }.

Record EmbedResponse := mkEmbedResponse {
  embed_resp_model : bytes;
  embeddings : list (list F32.t);
  embed_usage : option Usage;
}.

(** ** [error.rs] *)

Inductive GenAiError :=
| Template (m : bytes)
| TemplateNotFound (i : bytes)
| Unsupported (provider : bytes) (capability : Capability)
| Transport (m : bytes)
| Api (status : Z) (m : bytes)
| ResponseParse (m : bytes)
| Config (m : bytes).

(** The [#[error(...)]] texts. *)
Definition genai_error_display (e : GenAiError) : bytes :=
  match e with
  | Template m => b!"template error: " ++ m
  | TemplateNotFound i => b!"prompt template not found: " ++ i
  | Unsupported p c => b!"provider '" ++ p ++ b!"' does not support capability: " ++ capability_debug c
  | Transport m => b!"transport error: " ++ m
  | Api st m => b!"provider returned status " ++ show_uint st ++ b!": " ++ m
  | ResponseParse m => b!"failed to parse provider response: " ++ m
  | Config m => b!"configuration error: " ++ m
  end.

(** [CompletionResponse::decode], for the target type [Value]. *)
Definition response_decode (r : CompletionResponse) : Result Value GenAiError :=
  map_err (fun e => ResponseParse (codec_error_display e)) (from_str (response_text r)).

(** ** [template.rs] *)

(** The loop of [lookup] over the segments of the path. *)
Fixpoint lookup_segments (cur : Value) (segs : list bytes) : option Value :=
  match segs with
  | [] => Some cur
  | seg :: segs' =>
      if bool_decide (seg = []) then lookup_segments cur segs'
      else match Value.get cur seg with
           | Some v => lookup_segments v segs'
           | None => None
           end
  end.

Definition lookup (value : Value) (path : bytes) : option Value :=
  lookup_segments value (split_on x2e path).

Definition value_to_string (value : option Value) : bytes :=
  match value with
  | None | Some Value.Null => []
  | Some (Value.Str s) => s
  | Some (Value.Bool b) => if b then b!"true" else b!"false"
  | Some (Value.Int i) => write_i64 [] i
  | Some (Value.UInt u) => write_u64 [] u
  | Some (Value.Float f) => F64.display f
  | Some other => to_string other
  end.

(** [trim_start_matches('.')] *)
Fixpoint trim_dots (s : bytes) : bytes :=
  match s with
  | c :: s' => if bool_decide (c = x2e) then trim_dots s' else s
  | [] => []
  end.

Definition path_of (expr : bytes) : bytes := trim (trim_dots (trim expr)).

(** The inner loop: the text up to the next closing braces, and what follows them. *)
Fixpoint find_close (s : bytes) : option (bytes * bytes) :=
  match s with
  | a :: ((b :: r) as s') =>
      if bool_decide (a = x7d) && bool_decide (b = x7d) then Some ([], r)
      else match find_close s' with
           | Some (e, r') => Some (a :: e, r')
           | None => None
           end
  | _ => None
  end.

Definition unclosed : GenAiError := Template (b!"unclosed '{{' in template").

(** The main loop; [chars[i..]] is [s]. *)
Fixpoint render_loop (fuel : nat) (vars : Value) (s out : bytes) : option (Result bytes GenAiError) :=
  match fuel with
  | O => None
  | S fuel' =>
      match s with
      | [] => Some (Ok out)
      | c :: s' =>
          if bool_decide (c = x7b) && bool_decide (head s' = Some x7b) then
            match find_close (tail s') with
            | None => Some (Err unclosed)
            | Some (expr, r) =>
                render_loop fuel' vars r (out ++ value_to_string (lookup vars (path_of expr)))
            end
          else render_loop fuel' vars s' (out ++ [c])
      end
  end.

Definition render_value (template : bytes) (vars : Value) : option (Result bytes GenAiError) :=
  render_loop (S (length template)) vars template [].

(** ** [prompt.rs] *)

Record PromptTemplate := mkPrompt {
  prompt_id : bytes;
  prompt_name : bytes;
  template : bytes;
}.

(** [PromptTemplate::render], for variables whose [encode] is [vars]. *)
Definition prompt_render (t : PromptTemplate) (vars : Value) : option (Result bytes GenAiError) :=
  render_value (template t) vars.

Notation PromptStore := (gmap bytes PromptTemplate).

Definition store_add (s : PromptStore) (t : PromptTemplate) : PromptStore := <[prompt_id t := t]> s.

Definition store_get (s : PromptStore) (i : bytes) : option PromptTemplate := s !! i.

Definition from_prompt_id (r : Role) (s : PromptStore) (template_id : bytes) (vars : Value)
  : option (Result Message GenAiError) :=
  match store_get s template_id with
  | None => Some (Err (TemplateNotFound template_id))
  | Some t =>
      let! text := prompt_render t vars in
      Some (Ok (mkMessage r (Some template_id) [Text text]))
  end.

(** ** Templates as their author sees them *)

(** A template is literal text and placeholders. *)
Inductive Segment := Lit (s : bytes) | Var (expr : bytes).

Definition segment_source (g : Segment) : bytes :=
  match g with Lit s => s | Var e => b!"{{" ++ e ++ b!"}}" end.

Definition segment_value (vars : Value) (g : Segment) : bytes :=
  match g with Lit s => s | Var e => value_to_string (lookup vars (path_of e)) end.

(** Literal text has no brace that could open a placeholder, a placeholder's
    expression none that could close it. *)
Definition segment_ok (g : Segment) : bool :=
  match g with
  | Lit s => negb (bool_decide (x7b ∈ s))
  | Var e => negb (bool_decide (x7d ∈ e))
  end.

End Genai.

Import Genai.

(** ** Rendering *)

Lemma find_close_length s e r : find_close s = Some (e, r) -> (length r < length s)%nat.
Proof.
  revert e r. induction s as [|a s IH]; intros e r; [done|]. cbn [find_close].
  destruct s as [|b s]; [done|]. destruct (_ && _).
  - intros [= <- <-]. simpl. lia.
  - destruct (find_close (b :: s)) as [[e' r']|] eqn:E; [|done]. intros [= <- <-].
    specialize (IH e' r' eq_refl). simpl in *. lia.
Qed.

Lemma find_close_spec e r : x7d ∉ e -> find_close (e ++ b!"}}" ++ r) = Some (e, r).
Proof.
  induction e as [|a e IH]; intros He; [by destruct r|].
  apply not_elem_of_cons in He as [Ha He]. specialize (IH He). cbn [app find_close].
  destruct (e ++ b!"}}" ++ r) as [|b s] eqn:Es; [done|].
  rewrite bool_decide_false by congruence. cbn [andb]. by rewrite IH.
Qed.

Lemma find_close_none e : x7d ∉ e -> find_close e = None.
Proof.
  induction e as [|a e IH]; intros He; [done|]. apply not_elem_of_cons in He as [Ha He].
  specialize (IH He). cbn [find_close]. destruct e as [|b e]; [done|].
  rewrite bool_decide_false by congruence. cbn [andb]. by rewrite IH.
Qed.

Lemma render_loop_total fuel vars s out :
  (length s < fuel)%nat -> exists r, render_loop fuel vars s out = Some r.
Proof.
  revert s out. induction fuel as [|fuel IH]; intros s out Hf; [lia|]. cbn [render_loop].
  destruct s as [|c s]; [eauto|]. simpl in Hf. destruct (_ && _) eqn:Ec.
  - destruct (find_close (tail s)) as [[e r]|] eqn:E; [|eauto]. apply IH.
    apply find_close_length in E. destruct s; simpl in *; lia.
  - apply IH. lia.
Qed.

(** More fuel than needed changes nothing. *)
Lemma render_loop_fuel f1 f2 vars s out r :
  render_loop f1 vars s out = Some r -> (f1 <= f2)%nat -> render_loop f2 vars s out = Some r.
Proof.
  revert f2 s out. induction f1 as [|f1 IH]; intros f2 s out; [done|].
  destruct f2 as [|f2]; [lia|]. cbn [render_loop]. intros H Hle.
  destruct s as [|c s]; [done|]. destruct (_ && _); [|apply IH; [done|lia]].
  destruct (find_close (tail s)) as [[e r']|]; [|done]. apply IH; [done|lia].
Qed.

(** What the loop has emitted is a prefix of its result. *)
Lemma render_loop_out fuel vars s o1 o2 :
  render_loop fuel vars s (o1 ++ o2) =
  (fun r => match r with Ok t => Ok (o1 ++ t) | Err e => Err e end) <$> render_loop fuel vars s o2.
Proof.
  revert s o2. induction fuel as [|fuel IH]; intros s o2; [done|]. cbn [render_loop].
  destruct s as [|c s]; [done|]. destruct (_ && _).
  - destruct (find_close (tail s)) as [[e r']|]; [|done]. by rewrite <- app_assoc, IH.
  - by rewrite <- app_assoc, IH.
Qed.

(** [render_loop] as a relation without fuel. *)
Definition renders (vars : Value) (s : bytes) (r : Result bytes GenAiError) : Prop :=
  render_loop (S (length s)) vars s [] = Some r.

Definition prepend (o : bytes) (r : Result bytes GenAiError) : Result bytes GenAiError :=
  match r with Ok t => Ok (o ++ t) | Err e => Err e end.

Lemma renders_step fuel vars s o r :
  renders vars s r -> (length s < fuel)%nat -> render_loop fuel vars s o = Some (prepend o r).
Proof.
  intros H Hf. rewrite <- (app_nil_r o). rewrite render_loop_out.
  rewrite (render_loop_fuel _ fuel _ _ _ r H) by lia. simpl. unfold prepend. by rewrite app_nil_r.
Qed.

Lemma renders_var vars e s r :
  x7d ∉ e -> renders vars s r ->
  renders vars (b!"{{" ++ e ++ b!"}}" ++ s) (prepend (value_to_string (lookup vars (path_of e))) r).
Proof.
  intros He H. unfold renders.
  change (b!"{{" ++ e ++ b!"}}" ++ s) with (x7b :: x7b :: (e ++ b!"}}" ++ s)). cbn [render_loop].
  rewrite bool_decide_true by done. cbn [head]. rewrite bool_decide_true by done. cbn [andb tail].
  rewrite find_close_spec by done. apply renders_step; [done|].
  cbn [length]. rewrite !length_app. simpl. lia.
Qed.

Lemma renders_lit vars l s r : x7b ∉ l -> renders vars s r -> renders vars (l ++ s) (prepend l r).
Proof.
  intros Hl H. induction l as [|c l IH].
  { simpl. by replace (prepend [] r) with r by by destruct r. }
  apply not_elem_of_cons in Hl as [Hc Hl]. specialize (IH Hl).
  unfold renders. cbn [app length]. remember (S (length (l ++ s))) as n eqn:En. cbn [render_loop].
  rewrite bool_decide_false by congruence. cbn [andb].
  rewrite (renders_step n _ _ _ _ IH) by lia. by destruct r.
Qed.

Lemma renders_segments vars gs s r :
  forallb segment_ok gs = true -> renders vars s r ->
  renders vars (concat (map segment_source gs) ++ s) (prepend (concat (map (segment_value vars) gs)) r).
Proof.
  intros Hg H. induction gs as [|g gs IH].
  { simpl. by replace (prepend [] r) with r by by destruct r. }
  simpl in Hg. apply andb_true_iff in Hg as [Hg Hgs]. specialize (IH Hgs).
  cbn [map concat]. rewrite <- app_assoc.
  replace (prepend (segment_value vars g ++ concat (map (segment_value vars) gs)) r)
    with (prepend (segment_value vars g) (prepend (concat (map (segment_value vars) gs)) r))
    by (destruct r; simpl; by rewrite <- ?app_assoc).
  destruct g as [l|e]; simpl in Hg; apply negb_true_iff, bool_decide_eq_false in Hg.
  - by apply renders_lit.
  - cbn [segment_source]. rewrite <- !app_assoc. by apply renders_var.
Qed.

(** Template rendering: the engine terminates on every template; a template
    made of literal text and placeholders renders to the literals with every
    placeholder replaced by the printed value at its path (empty when undefined),
    whatever the values contain, so a substituted value is never expanded again;
    and a placeholder that is never closed is an error however much of the
    template precedes it. *)
Theorem template_render_spec (vars : Value) :
  (forall t, exists r, render_value t vars = Some r) /\
  (forall gs, forallb segment_ok gs = true ->
     render_value (concat (map segment_source gs)) vars =
     Some (Ok (concat (map (segment_value vars) gs)))) /\
  (forall gs e, forallb segment_ok gs = true -> x7d ∉ e ->
     render_value (concat (map segment_source gs) ++ b!"{{" ++ e) vars = Some (Err unclosed)).
Proof.
  split_and!.
  - intros t. apply render_loop_total. lia.
  - intros gs Hg. pose proof (renders_segments vars gs [] (Ok []) Hg eq_refl) as H.
    rewrite app_nil_r in H. simpl in H. by rewrite app_nil_r in H.
  - intros gs e Hg He. apply (renders_segments vars gs _ (Err unclosed) Hg).
    unfold renders. change (b!"{{" ++ e) with (x7b :: x7b :: e). cbn [render_loop head tail].
    rewrite !bool_decide_true by done. cbn [andb]. by rewrite find_close_none.
Qed.

Lemma template_render_spec_witness :
  render_value (b!"Hi {{ .user.name }}!") (Value.Object [(b!"user", Value.Object [(b!"name", Value.Str (b!"{{x}}"))])])
  = Some (Ok (b!"Hi {{x}}!")).
Proof.
  refine (proj1 (proj2 (template_render_spec
    (Value.Object [(b!"user", Value.Object [(b!"name", Value.Str (b!"{{x}}"))])])))
    [Lit (b!"Hi "); Var (b!" .user.name "); Lit (b!"!")] eq_refl).
Defined.

(** The engine on the templates of [prompt.rs]. *)
Example render_missing :
  render_value (b!"{{ .name }}/{{ missing }}") (Value.Object [(b!"name", Value.Str (b!"Ada"))]) = Some (Ok (b!"Ada/")).
Proof. reflexivity. Qed.

Example from_prompt_id_unknown :
  from_prompt_id User ∅ (b!"nope") Value.Null = Some (Err (TemplateNotFound (b!"nope"))).
Proof. reflexivity. Qed.
