(* ===== verification/Providers.v ===== *)
(** * Model providers ([genai/providers/], [clients/auth.rs])

    The three HTTP providers: the request bodies they build, the responses and
    stream lines they parse, the credentials they attach, and the line pump that
    turns the chunks of a response body into completion chunks.  The exchange
    with the server is an argument: what [Client::send] and [Response::text] or
    [Response::chunk] return ([HttpClient] models them). *)

From S2P Require Import Prelude Text Scan Value Json Auth Sse HttpCore HttpClient Genai.

Open Scope Z_scope.

(** ** [clients/auth.rs] *)

Module ClientAuth.
Import HttpCore HttpClient.

(** [AuthProvider::apply] *)
Definition AuthProvider := Request -> Request.

Definition bearer_auth (token : bytes) : AuthProvider := fun req =>
  mkRequest (method req) (uri req) (set (headers req) (b!"Authorization") (b!"Bearer " ++ token)) (body req).

Definition api_key_auth (header key : bytes) : AuthProvider := fun req =>
  mkRequest (method req) (uri req) (set (headers req) header key) (body req).

Definition basic_auth (user pass : bytes) : AuthProvider := fun req =>
  let creds := Base64.base64_encode (user ++ b!":" ++ pass) in
  mkRequest (method req) (uri req) (set (headers req) (b!"Authorization") (b!"Basic " ++ creds)) (body req).

End ClientAuth.

Module Providers.
Import Genai ClientAuth.

(** ** Shared helpers *)

Notation "'obj!' l" := (Value.Object l) (at level 10).
Notation str s := (Value.Str s).

(** [util::to_base64]: the loop of the other two encoders of the crate. *)
Definition to_base64 (data : bytes) : bytes := foldl Base64.base64_step [] (chunks 3 data).

(** [v as u32] on a [u64] *)
Definition as_u32 (v : Z) : Z := wrap32 v.

Definition get_str (v : Value) (key : bytes) : option bytes := v' ← Value.get v key; Value.as_str v'.
Definition get_array (v : Value) (key : bytes) : option (list Value) := v' ← Value.get v key; Value.as_array v'.
Definition get_u32 (v : Value) (key : bytes) : option Z :=
  v' ← Value.get v key; as_u32 <$> Value.as_u64 v'.

(** [num_f32] (both copies) *)
Definition num_f32 (v : Value) : option F32.t :=
  F32.of_f64 <$>
  match Value.as_f64 v with
  | Some f => Some f
  | None => match F64.of_Z <$> Value.as_i64 v with
            | Some f => Some f
            | None => F64.of_Z <$> Value.as_u64 v
            end
  end.

(** [json::from_str] with its error as a provider error. *)
Definition parse_json (text : bytes) : Result Value GenAiError :=
  map_err (fun e => ResponseParse (codec_error_display e)) (from_str text).

(** The embedding loop: the first item that is malformed decides the error. *)
Fixpoint embedding_rows (row : Value -> Result (list Value) GenAiError) (items : list Value)
  (acc : list (list F32.t)) : Result (list (list F32.t)) GenAiError :=
  match items with
  | [] => Ok acc
  | item :: items' =>
      let? vs := row item in
      let? vec := ok_or (mapM num_f32 vs) (ResponseParse (b!"non-numeric embedding value")) in
      embedding_rows row items' (acc ++ [vec])
  end.

(** ** [openai.rs] *)

Section OpenAi.

Definition openai_part (p : MessagePart) : option Value :=
  match p with
  | Text t => Some (obj! [(b!"type", str (b!"text")); (b!"text", str t)])
  | Image data mime_type =>
      let url := b!"data:" ++ mime_type ++ b!";base64," ++ to_base64 data in
      Some (obj! [(b!"type", str (b!"image_url")); (b!"image_url", obj! [(b!"url", str url)])])
  | FileRef uri _ =>
      Some (obj! [(b!"type", str (b!"image_url")); (b!"image_url", obj! [(b!"url", str uri)])])
  | _ => None
  end.

Definition openai_encode_message (msg : Message) : Value :=
  let all_text := forallb (fun p => match p with Text _ => true | _ => false end) (parts msg) in
  if all_text then
    obj! [(b!"role", str (role_as_str (role msg))); (b!"content", str (text_content msg))]
  else
    obj! [(b!"role", str (role_as_str (role msg))); (b!"content", Value.Array (omap openai_part (parts msg)))].

Definition openai_tool (t : ToolDefinition) : Value :=
  obj! [(b!"type", str (b!"function"));
        (b!"function", obj! [(b!"name", str (tool_name t));
                             (b!"description", str (tool_description t));
                             (b!"parameters", tool_parameters t)])].

Definition openai_tool_choice (c : ToolChoice) : Value :=
  match c with
  | ChoiceAuto => str (b!"auto")
  | ChoiceNone => str (b!"none")
  | ChoiceRequired => str (b!"required")
  | ChoiceNamed name =>
      obj! [(b!"type", str (b!"function")); (b!"function", obj! [(b!"name", str name)])]
  end.

(** The system message the bodies of OpenAI and Ollama open with. *)
Definition system_message (sys : bytes) : Value :=
  obj! [(b!"role", str (b!"system")); (b!"content", str sys)].

(** An optional field. *)
Definition field {A} (key : bytes) (f : A -> Value) (o : option A) : list (bytes * Value) :=
  match o with Some a => [(key, f a)] | None => [] end.

Definition float32 (f : F32.t) : Value := Value.Float (F32.to_f64 f).

Definition openai_build_body (request : CompletionRequest) (stream : bool) : Value :=
  let o := options request in
  let messages := option_list (system_message <$> system_instructions o)
                  ++ map openai_encode_message (messages request) in
  let fields := [(b!"model", str (model request)); (b!"messages", Value.Array messages);
                 (b!"stream", Value.Bool stream)]
    ++ field (b!"temperature") float32 (temperature o)
    ++ field (b!"max_tokens") Value.UInt (max_tokens o)
    ++ field (b!"top_p") float32 (top_p o)
    ++ (if bool_decide (tools request = []) then []
        else [(b!"tools", Value.Array (map openai_tool (tools request)))])
    ++ field (b!"tool_choice") openai_tool_choice (tool_choice request)
    ++ match response_format request with
       | Some FmtJson => [(b!"response_format", obj! [(b!"type", str (b!"json_object"))])]
       | Some (FmtJsonSchema schema) =>
           [(b!"response_format",
             obj! [(b!"type", str (b!"json_schema"));
                   (b!"json_schema", obj! [(b!"name", str (b!"response")); (b!"schema", schema)])])]
       | _ => []
       end in
  Value.Object fields.

Definition openai_tool_call (call : Value) : MessagePart :=
  let func := Value.get call (b!"function") in
  ToolCall (default [] (get_str call (b!"id")))
           (default [] (f ← func; get_str f (b!"name")))
           (default Value.Null
              (s ← (f ← func; get_str f (b!"arguments"));
               match from_str s with Ok v => Some v | Err _ => None end)).

Definition openai_usage (u : Value) : Usage :=
  mkUsage (get_u32 u (b!"prompt_tokens")) (get_u32 u (b!"completion_tokens")) (get_u32 u (b!"total_tokens")).

Definition openai_parse_response (value : Value) : Result CompletionResponse GenAiError :=
  let model := default [] (get_str value (b!"model")) in
  let? choice := ok_or (c ← Value.get value (b!"choices"); Value.get_index c 0)
                       (ResponseParse (b!"missing choices")) in
  let msg := Value.get choice (b!"message") in
  let text_parts := match m ← msg; get_str m (b!"content") with
                    | Some text => if bool_decide (text = []) then [] else [Text text]
                    | None => []
                    end in
  let call_parts := match m ← msg; get_array m (b!"tool_calls") with
                    | Some calls => map openai_tool_call calls
                    | None => []
                    end in
  Ok (mkResponse model (mkMessage Assistant None (text_parts ++ call_parts))
        (get_str choice (b!"finish_reason")) (openai_usage <$> Value.get value (b!"usage"))).

(** [sse::sse_data] *)
Definition sse_data (line : bytes) : option bytes := trim <$> strip_prefix line (b!"data:").

Definition openai_parse_sse_line (line : bytes) : option (Result CompletionChunk GenAiError) :=
  data ← sse_data line;
  if bool_decide (data = []) || bool_decide (data = b!"[DONE]") then None
  else
    match parse_json data with
    | Err e => Some (Err e)
    | Ok value =>
        let choice := c ← Value.get value (b!"choices"); Value.get_index c 0 in
        let delta := default [] (c ← choice; d ← Value.get c (b!"delta"); get_str d (b!"content")) in
        let finish := c ← choice; get_str c (b!"finish_reason") in
        Some (Ok (mkChunk delta finish None))
    end.

Definition openai_parse_embeddings (model : bytes) (value : Value) : Result EmbedResponse GenAiError :=
  let? data := ok_or (get_array value (b!"data")) (ResponseParse (b!"missing 'data' array")) in
  let? rows := embedding_rows
    (fun item => ok_or (get_array item (b!"embedding")) (ResponseParse (b!"missing 'embedding'"))) data [] in
  let usage := (fun u => mkUsage (get_u32 u (b!"prompt_tokens")) None (get_u32 u (b!"total_tokens")))
               <$> Value.get value (b!"usage") in
  Ok (mkEmbedResponse (default model (get_str value (b!"model"))) rows usage).

End OpenAi.

(** ** [claude.rs] *)

Section Claude.

Definition DEFAULT_MAX_TOKENS : Z := 1024.
Definition ANTHROPIC_VERSION : bytes := b!"2023-06-01".

Definition role_str (r : Role) : bytes :=
  match r with Assistant => b!"assistant" | _ => b!"user" end.

Definition claude_part (p : MessagePart) : Value :=
  match p with
  | Text t => obj! [(b!"type", str (b!"text")); (b!"text", str t)]
  | Image data mime_type =>
      obj! [(b!"type", str (b!"image"));
            (b!"source", obj! [(b!"type", str (b!"base64")); (b!"media_type", str mime_type);
                               (b!"data", str (to_base64 data))])]
  | FileRef uri _ => obj! [(b!"type", str (b!"text")); (b!"text", str uri)]
  | ToolCall id name arguments =>
      obj! [(b!"type", str (b!"tool_use")); (b!"id", str id); (b!"name", str name); (b!"input", arguments)]
  | ToolResult call_id result =>
      obj! [(b!"type", str (b!"tool_result")); (b!"tool_use_id", str call_id);
            (b!"content", str (to_string result))]
  end.

Definition claude_encode_message (msg : Message) : Value :=
  obj! [(b!"role", str (role_str (role msg))); (b!"content", Value.Array (map claude_part (parts msg)))].

Definition is_system (m : Message) : bool := bool_decide (role m = System).

(** [system]: the option, else the system messages joined by newlines. *)
Definition claude_system (request : CompletionRequest) : option bytes :=
  match system_instructions (options request) with
  | Some s => Some s
  | None =>
      let sys := join [x0a] (map text_content (List.filter is_system (messages request))) in
      if bool_decide (sys = []) then None else Some sys
  end.

Definition claude_tool (t : ToolDefinition) : Value :=
  obj! [(b!"name", str (tool_name t)); (b!"description", str (tool_description t));
        (b!"input_schema", tool_parameters t)].

Definition claude_tool_choice (c : ToolChoice) : Value :=
  match c with
  | ChoiceAuto => obj! [(b!"type", str (b!"auto"))]
  | ChoiceRequired => obj! [(b!"type", str (b!"any"))]
  | ChoiceNone => obj! [(b!"type", str (b!"none"))]
  | ChoiceNamed name => obj! [(b!"type", str (b!"tool")); (b!"name", str name)]
  end.

Definition claude_build_body (request : CompletionRequest) (stream : bool) : Value :=
  let o := options request in
  let messages := map claude_encode_message (List.filter (fun m => negb (is_system m)) (messages request)) in
  let fields := [(b!"model", str (model request));
                 (b!"max_tokens", Value.UInt (default DEFAULT_MAX_TOKENS (max_tokens o)));
                 (b!"messages", Value.Array messages); (b!"stream", Value.Bool stream)]
    ++ field (b!"system") Value.Str (claude_system request)
    ++ field (b!"temperature") float32 (temperature o)
    ++ field (b!"top_p") float32 (top_p o)
    ++ (if bool_decide (tools request = []) then []
        else [(b!"tools", Value.Array (map claude_tool (tools request)))])
    ++ field (b!"tool_choice") claude_tool_choice (tool_choice request) in
  Value.Object fields.

(** One content block of a response; blocks of other types are skipped. *)
Definition claude_block (block : Value) : option MessagePart :=
  match get_str block (b!"type") with
  | Some t =>
      if bool_decide (t = b!"text") then Text <$> get_str block (b!"text")
      else if bool_decide (t = b!"tool_use") then
        Some (ToolCall (default [] (get_str block (b!"id"))) (default [] (get_str block (b!"name")))
                (default Value.Null (Value.get block (b!"input"))))
      else None
  | None => None
  end.

(** [i + o] on [u32]; it wraps where overflow checks are off. *)
Definition claude_usage (u : Value) : Usage :=
  let input := get_u32 u (b!"input_tokens") in
  let output := get_u32 u (b!"output_tokens") in
  mkUsage input output
    (match input, output with Some i, Some o => Some (wrap32 (i + o)) | _, _ => None end).

Definition claude_parse_response (value : Value) : Result CompletionResponse GenAiError :=
  let model := default [] (get_str value (b!"model")) in
  let? blocks := ok_or (get_array value (b!"content")) (ResponseParse (b!"missing content")) in
  Ok (mkResponse model (mkMessage Assistant None (omap claude_block blocks))
        (get_str value (b!"stop_reason")) (claude_usage <$> Value.get value (b!"usage"))).

Definition claude_parse_sse_line (line : bytes) : option (Result CompletionChunk GenAiError) :=
  data ← sse_data line;
  if bool_decide (data = []) then None
  else
    match parse_json data with
    | Err e => Some (Err e)
    | Ok value =>
        match get_str value (b!"type") with
        | Some t =>
            if bool_decide (t = b!"content_block_delta") then
              Some (Ok (mkChunk (default [] (d ← Value.get value (b!"delta"); get_str d (b!"text"))) None None))
            else if bool_decide (t = b!"message_delta") then
              Some (Ok (mkChunk [] (d ← Value.get value (b!"delta"); get_str d (b!"stop_reason")) None))
            else None
        | None => None
        end
    end.

End Claude.

(** ** [ollama.rs] *)

Section Ollama.

Definition ollama_encode_message (msg : Message) : Value :=
  obj! [(b!"role", str (role_as_str (role msg))); (b!"content", str (text_content msg))].

Definition ollama_build_body (request : CompletionRequest) (stream : bool) : Value :=
  let o := options request in
  let messages := option_list (system_message <$> system_instructions o)
                  ++ map ollama_encode_message (messages request) in
  let opts := field (b!"temperature") float32 (temperature o)
    ++ field (b!"top_p") float32 (top_p o)
    ++ field (b!"num_predict") Value.UInt (max_tokens o) in
  let fields := [(b!"model", str (model request)); (b!"messages", Value.Array messages);
                 (b!"stream", Value.Bool stream)]
    ++ (if bool_decide (length opts = 0%nat) then [] else [(b!"options", Value.Object opts)])
    ++ match response_format request with
       | Some FmtJson => [(b!"format", str (b!"json"))]
       | _ => []
       end in
  Value.Object fields.

Definition done_flag (value : Value) : bool :=
  default false (d ← Value.get value (b!"done"); Value.as_bool d).

Definition ollama_parse_response (value : Value) : Result CompletionResponse GenAiError :=
  let model := default [] (get_str value (b!"model")) in
  let content := default [] (m ← Value.get value (b!"message"); get_str m (b!"content")) in
  let finish := match get_str value (b!"done_reason") with
                | Some r => Some r
                | None => if done_flag value then Some (b!"stop") else None
                end in
  Ok (mkResponse model (mkMessage Assistant None [Text content]) finish
        (Some (mkUsage (get_u32 value (b!"prompt_eval_count")) (get_u32 value (b!"eval_count")) None))).

Definition ollama_parse_ndjson_line (line : bytes) : Result CompletionChunk GenAiError :=
  let? value := parse_json line in
  let delta := default [] (m ← Value.get value (b!"message"); get_str m (b!"content")) in
  Ok (mkChunk delta (if done_flag value then Some (b!"stop") else None) None).

(** The closure [complete_stream] hands to [pump]. *)
Definition ollama_parse_line (line : bytes) : option (Result CompletionChunk GenAiError) :=
  if bool_decide (trim line = []) then None else Some (ollama_parse_ndjson_line line).

Definition ollama_parse_embeddings (model : bytes) (value : Value) : Result EmbedResponse GenAiError :=
  let? rows := ok_or (get_array value (b!"embeddings")) (ResponseParse (b!"missing 'embeddings' array")) in
  let? rows := embedding_rows
    (fun row => ok_or (Value.as_array row) (ResponseParse (b!"embedding is not an array"))) rows [] in
  Ok (mkEmbedResponse (default model (get_str value (b!"model"))) rows None).

End Ollama.

(** ** [sse.rs]: the line pump *)

Definition MAX_BUFFERED_BYTES : Z := 1048576.

(** [LineBuffer::push] *)
Definition lb_push (buf chunk : bytes) : bytes :=
  let buf := buf ++ Utf8.from_utf8_lossy chunk in
  if (MAX_BUFFERED_BYTES <? HttpCore.len buf) && negb (bool_decide (x0a ∈ buf)) then [] else buf.

(** [LineBuffer::drain_lines]: the complete lines, and the partial one that stays. *)
Fixpoint drain_loop (fuel : nat) (buf : bytes) (lines : list bytes) : option (list bytes * bytes) :=
  match fuel with
  | O => None
  | S fuel' =>
      match split_once x0a buf with
      | Some (p, r) => drain_loop fuel' r (lines ++ [trim_end (p ++ [x0a])])
      | None => Some (lines, buf)
      end
  end.

Definition drain_lines (buf : bytes) : option (list bytes * bytes) := drain_loop (S (length buf)) buf [].

(** [LineBuffer::take_remainder] *)
Definition take_remainder (buf : bytes) : bytes := trim_end buf.

Section Pump.
Context (http_error_display : HttpCore.HttpError -> bytes).
Context (parse : bytes -> option (Result CompletionChunk GenAiError)).
(** Whether the receiver still accepts the [n]-th item. *)
Context (accepts : nat -> bool).

Notation Item := (Result CompletionChunk GenAiError).

(** The items sent for some lines, and whether the receiver is still there. *)
Fixpoint send_lines (lines : list bytes) (sent : list Item) : list Item * bool :=
  match lines with
  | [] => (sent, true)
  | line :: lines' =>
      match parse line with
      | None => send_lines lines' sent
      | Some chunk =>
          if accepts (length sent) then send_lines lines' (sent ++ [chunk]) else (sent, false)
      end
  end.

(** A [send] whose result is ignored. *)
Definition send_last (item : Item) (sent : list Item) : list Item :=
  if accepts (length sent) then sent ++ [item] else sent.

(** [pump]: [chunks] are the outcomes of [resp.chunk()] up to the end of the body. *)
Fixpoint pump (chunks : list (Result bytes HttpCore.HttpError)) (buf : bytes) (sent : list Item)
  : option (list Item) :=
  match chunks with
  | [] =>
      let rem := take_remainder buf in
      if bool_decide (rem = []) then Some sent
      else match parse rem with
           | Some chunk => Some (send_last chunk sent)
           | None => Some sent
           end
  | Err e :: _ => Some (send_last (Err (Transport (http_error_display e))) sent)
  | Ok bs :: chunks' =>
      match drain_lines (lb_push buf bs) with
      | None => None
      | Some (lines, buf') =>
          let '(sent', alive) := send_lines lines sent in
          if alive then pump chunks' buf' sent' else Some sent'
      end
  end.

End Pump.

(** ** The provider calls *)

Section Call.
Context (http_error_display : HttpCore.HttpError -> bytes).
(** The status, and what [text()] gives, of the exchange for a request. *)
Context (send : HttpCore.Request -> Result (Z * Result bytes HttpCore.HttpError) HttpCore.HttpError).

(** [Provider::request], with the headers set before the body. *)
Definition provider_request (endpoint : bytes) (hs : list (bytes * bytes)) (auth : AuthProvider)
  (body : Value) : Result HttpCore.Request GenAiError :=
  let? r := map_err (fun e => Config (http_error_display e)) (HttpClient.builder HttpCore.Post endpoint) in
  let r := foldl (fun r h => HttpClient.req_header r h.1 h.2) r hs in
  Ok (auth (HttpClient.req_body r (to_string body))).

Definition no_auth : AuthProvider := fun r => r.
Definition json_header : list (bytes * bytes) := [(b!"content-type", b!"application/json")].

Definition openai_request (base_url api_key : bytes) (body : Value) : Result HttpCore.Request GenAiError :=
  provider_request (base_url ++ b!"/v1/chat/completions") json_header (bearer_auth api_key) body.

Definition claude_request (base_url : bytes) (auth : AuthProvider) (body : Value) : Result HttpCore.Request GenAiError :=
  provider_request (base_url ++ b!"/v1/messages")
    ((b!"anthropic-version", ANTHROPIC_VERSION) :: json_header) auth body.

Definition ollama_request (base_url : bytes) (body : Value) : Result HttpCore.Request GenAiError :=
  provider_request (base_url ++ b!"/api/chat") json_header no_auth body.

(** The tail of every call: transport errors, then the status, then the body. *)
Definition finish_call {T} (req : Result HttpCore.Request GenAiError) (parse : Value -> Result T GenAiError)
  : Result T GenAiError :=
  let? req := req in
  let? (status, text) := map_err (fun e => Transport (http_error_display e)) (send req) in
  let? text := map_err (fun e => Transport (http_error_display e)) text in
  if negb (HttpCore.is_success status) then Err (Api status text)
  else
    let? value := parse_json text in
    parse value.

Definition openai_complete (base_url api_key : bytes) (request : CompletionRequest) :=
  finish_call (openai_request base_url api_key (openai_build_body request false)) openai_parse_response.

Definition claude_complete (base_url : bytes) (auth : AuthProvider) (request : CompletionRequest) :=
  finish_call (claude_request base_url auth (claude_build_body request false)) claude_parse_response.

Definition ollama_complete (base_url : bytes) (request : CompletionRequest) :=
  finish_call (ollama_request base_url (ollama_build_body request false)) ollama_parse_response.

(** The body of both embedding calls. *)
Definition embed_body (request : EmbedRequest) : Value :=
  obj! [(b!"model", str (embed_model request)); (b!"input", Value.Array (map Value.Str (input request)))].

Definition openai_embed (base_url api_key : bytes) (request : EmbedRequest) :=
  finish_call (provider_request (base_url ++ b!"/v1/embeddings") json_header (bearer_auth api_key) (embed_body request))
    (openai_parse_embeddings (embed_model request)).

Definition ollama_embed (base_url : bytes) (request : EmbedRequest) :=
  finish_call (provider_request (base_url ++ b!"/api/embed") json_header no_auth (embed_body request))
    (ollama_parse_embeddings (embed_model request)).

(** [complete_stream]: [open req] is the status of the response, what [text()]
    gives and the chunks of its body; the result is what the receiver gets. *)
Context (open : HttpCore.Request ->
  Result (Z * Result bytes HttpCore.HttpError * list (Result bytes HttpCore.HttpError)) HttpCore.HttpError).

Definition stream_call (req : Result HttpCore.Request GenAiError)
  (parse : bytes -> option (Result CompletionChunk GenAiError)) (accepts : nat -> bool)
  : Result (option (list (Result CompletionChunk GenAiError))) GenAiError :=
  let? req := req in
  let? (st, chunks) := map_err (fun e => Transport (http_error_display e)) (open req) in
  let '(status, text) := st in
  if negb (HttpCore.is_success status) then
    Err (Api status (match text with Ok t => t | Err _ => [] end))
  else Ok (pump http_error_display parse accepts chunks [] []).

Definition openai_complete_stream (base_url api_key : bytes) (request : CompletionRequest) :=
  stream_call (openai_request base_url api_key (openai_build_body request true)) openai_parse_sse_line.

Definition claude_complete_stream (base_url : bytes) (auth : AuthProvider) (request : CompletionRequest) :=
  stream_call (claude_request base_url auth (claude_build_body request true)) claude_parse_sse_line.

Definition ollama_complete_stream (base_url : bytes) (request : CompletionRequest) :=
  stream_call (ollama_request base_url (ollama_build_body request true)) ollama_parse_line.

End Call.

(** [supports] of the three providers. *)
Definition openai_supports (c : Capability) : bool :=
  match c with CapStreaming | CapToolUse | CapVision | CapJsonMode => true | _ => false end.
Definition claude_supports (c : Capability) : bool :=
  match c with CapStreaming | CapToolUse | CapVision => true | _ => false end.
Definition ollama_supports (c : Capability) : bool :=
  match c with CapStreaming | CapJsonMode => true | _ => false end.

End Providers.

Import Genai Providers.

(** ** The line pump *)

(** Reference: the lines the parser sees for a body, the last one only when it
    is not blank. *)
Definition stream_lines (s : bytes) : list bytes :=
  let '(ls, rest) := lines s in
  map trim_end ls ++ (if bool_decide (trim_end rest = []) then [] else [trim_end rest]).

(** A receiver that takes [n] items and goes away. *)
Definition takes (n : nat) : nat -> bool := fun k => (k <? n)%nat.

Lemma drain_loop_spec fuel buf acc :
  (length buf < fuel)%nat ->
  drain_loop fuel buf acc = Some (acc ++ map trim_end (lines buf).1, (lines buf).2).
Proof.
  revert buf acc. induction fuel as [|fuel IH]; intros buf acc Hf; [lia|]. cbn [drain_loop].
  destruct (split_once x0a buf) as [[p r]|] eqn:E.
  - apply split_once_Some in E as [-> Hp]. rewrite lines_cons by done. cbn [fst snd map].
    rewrite length_app in Hf. simpl in Hf. rewrite IH by lia.
    rewrite Scan.trim_end_ws by done. by rewrite <- app_assoc.
  - assert (x0a ∉ buf) as Hn.
    { intros Hin. apply list_elem_of_split_l in Hin as (l1 & l2 & -> & Hl).
      by rewrite split_once_app in E. }
    rewrite lines_none by done. by rewrite app_nil_r.
Qed.

Section PumpSpec.
Context (disp : HttpCore.HttpError -> bytes) (parse : bytes -> option (Result CompletionChunk GenAiError)).

Lemma send_lines_spec n ls sent :
  (length sent <= n)%nat ->
  send_lines parse (takes n) ls sent =
  (take n (sent ++ omap parse ls), bool_decide (length (sent ++ omap parse ls) <= n)%nat).
Proof.
  revert sent. induction ls as [|l ls IH]; intros sent Hs; cbn [send_lines omap list_omap].
  { rewrite app_nil_r, take_ge, bool_decide_true by lia. done. }
  destruct (parse l) as [c|]; cbn [omap list_omap]; [|by apply IH]. unfold takes.
  destruct (Nat.ltb_spec (length sent) n) as [Hlt|Hge].
  - fold (takes n). rewrite IH by (rewrite length_app; simpl; lia). by rewrite <- app_assoc.
  - rewrite bool_decide_false by (rewrite length_app; simpl; lia).
    by rewrite take_app_le, take_ge by lia.
Qed.

(** The chunks of a body arrive as text and never fill the line buffer. *)
Lemma pump_spec n cs buf sent :
  x0a ∉ buf -> Forall (fun c => Utf8.is_utf8 c = true) cs ->
  HttpCore.len (buf ++ concat cs) <= MAX_BUFFERED_BYTES -> (length sent <= n)%nat ->
  pump disp parse (takes n) (map Ok cs) buf sent =
  Some (take n (sent ++ omap parse (stream_lines (buf ++ concat cs)))).
Proof.
  intros Hb Hcs. revert buf sent Hb. induction Hcs as [|c cs Hc _ IH]; intros buf sent Hb Hlen Hs;
    cbn [map pump concat].
  - rewrite app_nil_r. unfold stream_lines. rewrite lines_none by done. unfold take_remainder. cbn [map app].
    destruct (bool_decide (trim_end buf = [])); cbn [omap list_omap].
    { by rewrite app_nil_r, take_ge. }
    destruct (parse (trim_end buf)) as [it|]; [|by rewrite app_nil_r, take_ge].
    unfold send_last, takes. destruct (Nat.ltb_spec (length sent) n).
    + rewrite take_ge; [done|]. rewrite length_app. simpl. lia.
    + by rewrite take_app_le, take_ge by lia.
  - unfold lb_push. rewrite lossy_valid by done.
    assert (HttpCore.len (buf ++ c) <= MAX_BUFFERED_BYTES) as Hl.
    { unfold HttpCore.len in *. cbn [concat] in Hlen. rewrite !length_app in *. lia. }
    destruct (Z.ltb_spec MAX_BUFFERED_BYTES (HttpCore.len (buf ++ c))); [lia|]. cbn [andb].
    unfold drain_lines. rewrite drain_loop_spec by lia. cbn [app].
    rewrite send_lines_spec by done.
    set (ls := map trim_end (lines (buf ++ c)).1).
    assert (stream_lines (buf ++ c ++ concat cs) = ls ++ stream_lines ((lines (buf ++ c)).2 ++ concat cs)) as ->.
    { unfold stream_lines. rewrite app_assoc. rewrite (lines_app (buf ++ c) (concat cs)).
      destruct (lines ((lines (buf ++ c)).2 ++ concat cs)) as [l r]. cbn [fst snd].
      by rewrite map_app, <- app_assoc. }
    rewrite omap_app, app_assoc. case_bool_decide as Hle.
    + rewrite take_ge by done. apply IH; [apply lines_rest_spec|..|done].
      destruct (lines_rest_spec (buf ++ c)) as [_ Hr]. unfold HttpCore.len in *. cbn [concat] in Hlen.
      rewrite !length_app in Hlen. rewrite !length_app in Hr. rewrite length_app. lia.
    + by rewrite (take_app_le (sent ++ omap parse ls)) by lia.
Qed.

End PumpSpec.

(** Streaming: whatever chunks the network delivers, as long as each is whole
    text and the body fits the line buffer, the receiver gets the parsed lines of
    the body in order, cut where it stopped listening: a line split over chunks is
    never parsed in part, and an unterminated last line is not lost. *)
Theorem pump_chunking (disp : HttpCore.HttpError -> bytes)
  (parse : bytes -> option (Result CompletionChunk GenAiError)) (n : nat) (cs : list bytes) :
  Forall (fun c => Utf8.is_utf8 c = true) cs -> HttpCore.len (concat cs) <= MAX_BUFFERED_BYTES ->
  pump disp parse (takes n) (map Ok cs) [] [] = Some (take n (omap parse (stream_lines (concat cs)))).
Proof. intros Hcs Hlen. rewrite pump_spec; [done|set_solver|done|done|simpl; lia]. Qed.

Lemma pump_chunking_witness :
  pump (fun _ => []) ollama_parse_line (takes 1)
    (map Ok [b!"{'message"; [x0a]; b!"{}"]) [] [] =
  Some (take 1 (omap ollama_parse_line (stream_lines (concat [b!"{'message"; [x0a]; b!"{}"])))).
Proof.
  apply (pump_chunking (fun _ => []) ollama_parse_line 1 [b!"{'message"; [x0a]; b!"{}"]).
  - repeat constructor.
  - vm_compute. discriminate.
Defined.

(** *** A completion streamed by the OpenAI provider *)

Definition openai_chunk_value (d : bytes) : Value :=
  obj! [(b!"choices", Value.Array [obj! [(b!"delta", obj! [(b!"content", str d)])]])].

(** The events of a streamed completion with the given text deltas. *)
Definition openai_events (ds : list bytes) : bytes :=
  unlines (flat_map (fun d => [b!"data: " ++ to_string (openai_chunk_value d); []]) ds
           ++ [b!"data: [DONE]"; []]).

Lemma openai_chunk_text d :
  to_string (openai_chunk_value d) =
  b!"{" ++ quote (b!"choices") ++ b!":[{" ++ quote (b!"delta") ++ b!":{" ++ quote (b!"content") ++ b!":"
  ++ quote d ++ b!"}}]" ++ b!"}".
Proof. rewrite to_string_render. simpl. by rewrite <- !app_assoc. Qed.

(** A line that opens and closes with solid bytes is trimmed to itself. *)
Lemma trim_end_brace s : trim_end (s ++ b!"}") = s ++ b!"}".
Proof. by apply Scan.trim_end_solid. Qed.

Lemma openai_chunk_ends d : exists m, to_string (openai_chunk_value d) = (x7b :: m) ++ b!"}".
Proof.
  exists (quote (b!"choices") ++ b!":[{" ++ quote (b!"delta") ++ b!":{" ++ quote (b!"content") ++ b!":"
          ++ quote d ++ b!"}}]").
  rewrite openai_chunk_text. generalize (quote d). intros q. generalize (b!"}}]"). intros e.
  change (x7b :: ?m) with (b!"{" ++ m). by rewrite <- !app_assoc.
Qed.

Lemma openai_chunk_line d :
  x0a ∉ b!"data: " ++ to_string (openai_chunk_value d) /\
  trim_end (b!"data: " ++ to_string (openai_chunk_value d)) = b!"data: " ++ to_string (openai_chunk_value d) /\
  openai_parse_sse_line (b!"data: " ++ to_string (openai_chunk_value d)) = Some (Ok (mkChunk d None None)).
Proof.
  split_and!.
  - rewrite openai_chunk_text. pose proof (quote_no_newline d) as Hd. rewrite !not_elem_of_app.
    split_and!; try exact Hd; apply (bool_decide_unpack _); vm_compute; done.
  - destruct (openai_chunk_ends d) as [m ->]. rewrite app_assoc. apply trim_end_brace.
  - unfold openai_parse_sse_line, sse_data.
    change (b!"data: " ++ to_string (openai_chunk_value d))
      with (b!"data:" ++ x20 :: to_string (openai_chunk_value d)).
    rewrite strip_prefix_app. cbn [fmap option_fmap option_map mbind option_bind].
    assert (trim (x20 :: to_string (openai_chunk_value d)) = to_string (openai_chunk_value d)) as ->.
    { destruct (openai_chunk_ends d) as [m ->]. unfold trim.
      rewrite Scan.trim_start_ws by done. cbn [app]. rewrite Scan.trim_start_solid by done.
      apply (trim_end_brace (x7b :: m)). }
    rewrite !bool_decide_false.
    2,3: destruct (openai_chunk_ends d) as [m ->]; done.
    cbn [orb]. unfold parse_json. rewrite from_str_to_string; [reflexivity|reflexivity|].
    unfold MAX_DEPTH. simpl. lia.
Qed.

Lemma openai_events_lines ds :
  omap openai_parse_sse_line (stream_lines (openai_events ds)) = map (fun d => Ok (mkChunk d None None)) ds.
Proof.
  unfold openai_events, stream_lines. rewrite lines_unlines.
  - cbn [bool_decide]. change (trim_end []) with (@nil byte). rewrite bool_decide_true by done.
    rewrite app_nil_r, map_app, omap_app.
    replace (omap openai_parse_sse_line (map trim_end [b!"data: [DONE]"; []]))
      with (@nil (Result CompletionChunk GenAiError)) by (vm_compute; reflexivity).
    rewrite app_nil_r. induction ds as [|d ds IH]; [done|]. cbn [flat_map app map].
    destruct (openai_chunk_line d) as (_ & -> & Hp). cbn [omap list_omap]. rewrite Hp.
    change (openai_parse_sse_line (trim_end [])) with (@None (Result CompletionChunk GenAiError)).
    by rewrite IH.
  - apply Forall_app. split.
    + apply Forall_forall. intros l Hl. apply list_elem_of_In, in_flat_map in Hl as (d & _ & Hl).
      simpl in Hl. destruct Hl as [<-|[<-|[]]]; [apply openai_chunk_line|set_solver].
    + repeat constructor; apply (bool_decide_unpack _); vm_compute; done.
Qed.

(** End-to-end streaming: when the server streams a completion as one
    data event per text delta followed by the done marker, the receiver of
    [complete_stream] gets exactly the deltas, in order and verbatim, however the
    body is cut into chunks of whole text; quotes, newlines and control
    characters inside a delta survive the JSON and the line framing. *)
Theorem openai_stream_roundtrip (disp : HttpCore.HttpError -> bytes)
  (open : HttpCore.Request ->
     Result (Z * Result bytes HttpCore.HttpError * list (Result bytes HttpCore.HttpError)) HttpCore.HttpError)
  (base_url api_key : bytes) (request : CompletionRequest) (req : HttpCore.Request) (text : Result bytes HttpCore.HttpError)
  (ds cs : list bytes) :
  openai_request disp base_url api_key (openai_build_body request true) = Ok req ->
  open req = Ok (200, text, map Ok cs) -> concat cs = openai_events ds ->
  Forall (fun c => Utf8.is_utf8 c = true) cs -> HttpCore.len (openai_events ds) <= MAX_BUFFERED_BYTES ->
  openai_complete_stream disp open base_url api_key request (takes (length ds)) =
  Ok (Some (map (fun d => Ok (mkChunk d None None)) ds)).
Proof.
  intros Hreq Ho Hcs Hu Hlen. unfold openai_complete_stream, stream_call. rewrite Hreq. cbn [rbind].
  rewrite Ho. cbn [map_err rbind]. change (HttpCore.is_success 200) with true. cbn [negb].
  rewrite pump_spec; [|set_solver|done|by rewrite Hcs|simpl; lia].
  cbn [app]. rewrite Hcs, openai_events_lines, take_ge by (by rewrite length_map). done.
Qed.

Lemma openai_stream_roundtrip_witness :
  openai_complete_stream (fun _ => []) (fun _ => Ok (200, Ok [], map Ok (chunks 7 (openai_events [b!"Hel"; [x0a; x22]]))))
    (b!"http://localhost:1") (b!"sk") (request_new (b!"gpt-4o") [message_user (b!"hi")]) (takes 2) =
  Ok (Some [Ok (mkChunk (b!"Hel") None None); Ok (mkChunk [x0a; x22] None None)]).
Proof.
  eapply (openai_stream_roundtrip (fun _ => [])
    (fun _ => Ok (200, Ok [], map Ok (chunks 7 (openai_events [b!"Hel"; [x0a; x22]]))))
    (b!"http://localhost:1") (b!"sk") (request_new (b!"gpt-4o") [message_user (b!"hi")]) _ (Ok [])
    [b!"Hel"; [x0a; x22]] (chunks 7 (openai_events [b!"Hel"; [x0a; x22]]))).
  - vm_compute. reflexivity.
  - reflexivity.
  - apply concat_chunks. lia.
  - apply (bool_decide_unpack _). vm_compute. done.
  - vm_compute. discriminate.
Defined.

(** A character cut by a chunk boundary reaches the receiver as two replacement
    characters, since each chunk is decoded on its own. *)
Example stream_splits_characters :
  let wire := openai_events [[xc3; xa9]] in
  let k := S (length (fst (default ([], []) (split_once xc3 wire)))) in
  pump (fun _ => []) openai_parse_sse_line (takes 9) (map Ok [wire]) [] [] =
    Some [Ok (mkChunk [xc3; xa9] None None)] /\
  pump (fun _ => []) openai_parse_sse_line (takes 9) (map Ok [take k wire; drop k wire]) [] [] =
    Some [Ok (mkChunk [xef; xbf; xbd; xef; xbf; xbd] None None)].
Proof. by vm_compute. Qed.

(** ** What the requests carry *)

Lemma find_field {A} k key (f : A -> Value) o :
  Value.find (field key f o) k = if bool_decide (key = k) then f <$> o else None.
Proof. destruct o; unfold Value.find; simpl; by case_bool_decide. Qed.

(** The limit and the model a body asks for. *)
Lemma openai_body_fields r st :
  Value.get (openai_build_body r st) (b!"max_tokens") = Value.UInt <$> max_tokens (options r) /\
  Value.get (openai_build_body r st) (b!"model") = Some (str (model r)).
Proof.
  unfold openai_build_body, Value.get. cbn [Value.as_object mbind option_bind].
  rewrite !find_app, !find_field.
  split; destruct (bool_decide (tools r = [])), (response_format r) as [[]|], (max_tokens (options r)); reflexivity.
Qed.

Lemma claude_body_fields r st :
  Value.get (claude_build_body r st) (b!"max_tokens") = Some (Value.UInt (default DEFAULT_MAX_TOKENS (max_tokens (options r)))) /\
  Value.get (claude_build_body r st) (b!"model") = Some (str (model r)).
Proof.
  unfold claude_build_body, Value.get. cbn [Value.as_object mbind option_bind].
  rewrite !find_app, !find_field. split; destruct (bool_decide (tools r = [])); reflexivity.
Qed.

Lemma ollama_body_fields r st n :
  max_tokens (options r) = Some n ->
  (o ← Value.get (ollama_build_body r st) (b!"options"); Value.get o (b!"num_predict")) = Some (Value.UInt n) /\
  Value.get (ollama_build_body r st) (b!"model") = Some (str (model r)).
Proof.
  intros Hn. unfold ollama_build_body, Value.get. cbn [Value.as_object mbind option_bind].
  rewrite bool_decide_false.
  2: { rewrite Hn, !length_app. simpl. lia. }
  set (opts := field (b!"temperature") float32 _ ++ _).
  split; [|destruct (response_format r) as [[]|]; reflexivity].
  transitivity (Value.find opts (b!"num_predict")); [destruct (response_format r) as [[]|]; reflexivity|].
  unfold opts. rewrite !find_app, !find_field, Hn. reflexivity.
Qed.

(** The OpenAI body has no place for tool calls and tool results: the parts are
    left out of the message, although the provider claims [ToolUse]. *)
Example openai_drops_tool_results :
  openai_supports CapToolUse = true /\
  openai_encode_message (mkMessage Tool None [ToolResult (b!"call_1") (Value.Int 7)]) =
    obj! [(b!"role", str (b!"tool")); (b!"content", Value.Array [])] /\
  openai_encode_message (mkMessage Assistant None [ToolCall (b!"call_1") (b!"f") Value.Null]) =
    obj! [(b!"role", str (b!"assistant")); (b!"content", Value.Array [])].
Proof. by vm_compute. Qed.

(** System messages are lost on the way to Claude once the option is set. *)
Example claude_drops_system_messages :
  let r := with_options (opt_system_instructions (b!"A") options_new)
             (request_new (b!"m") [message_system (b!"B")]) in
  claude_system r = Some (b!"A") /\
  Value.get (claude_build_body r false) (b!"messages") = Some (Value.Array []).
Proof. by vm_compute. Qed.

(** ** Replies of the Messages API *)

Definition claude_reply (m : bytes) (ps : list MessagePart) (stop : bytes) (i o : Z) : Value :=
  obj! [(b!"model", str m); (b!"content", Value.Array (map claude_part ps)); (b!"stop_reason", str stop);
        (b!"usage", obj! [(b!"input_tokens", Value.UInt i); (b!"output_tokens", Value.UInt o)])].

(** The parts an assistant message of this API has. *)
Definition assistant_part (p : MessagePart) : bool :=
  match p with Text _ | ToolCall _ _ _ => true | _ => false end.

(** A part after its arguments travelled as JSON. *)
Definition norm_part (p : MessagePart) : MessagePart :=
  match p with ToolCall i n a => ToolCall i n (norm a) | _ => p end.

Lemma claude_block_part p :
  assistant_part p = true -> claude_block (norm (claude_part p)) = Some (norm_part p).
Proof. destruct p; intros H; try discriminate H; reflexivity. Qed.

Lemma claude_blocks ps :
  forallb assistant_part ps = true ->
  omap claude_block (map norm (map claude_part ps)) = map norm_part ps.
Proof.
  induction ps as [|p ps IH]; intros H; [done|]. simpl in H. apply andb_true_iff in H as [Hp H].
  cbn [map omap list_omap]. by rewrite claude_block_part, IH by done.
Qed.

Lemma get_u32_norm k u o :
  0 <= u <= u32_max -> Value.find o k = Some (norm (Value.UInt u)) -> get_u32 (Value.Object o) k = Some u.
Proof.
  intros Hu Hf. unfold get_u32, Value.get. cbn [Value.as_object mbind option_bind]. rewrite Hf.
  cbn [mbind option_bind norm]. unfold i64_max, u32_max in *. rewrite (proj2 (Z.leb_le u _)) by lia.
  cbn [Value.as_u64]. rewrite (proj2 (Z.leb_le 0 u)) by lia. cbn [fmap option_fmap option_map].
  unfold as_u32, wrap32. by rewrite Z.mod_small by lia.
Qed.

(** Claude round trip: when the Messages API answers 200 with the blocks that
    encode some assistant parts, [complete] returns exactly those parts in order
    (tool arguments as JSON carries them), the model, the stop reason and the token
    counts with their sum. *)
Theorem claude_complete_roundtrip (disp : HttpCore.HttpError -> bytes)
  (send : HttpCore.Request -> Result (Z * Result bytes HttpCore.HttpError) HttpCore.HttpError)
  (base_url : bytes) (auth : ClientAuth.AuthProvider) (request : CompletionRequest) (req : HttpCore.Request)
  (m : bytes) (ps : list MessagePart) (stop : bytes) (i o : Z) :
  claude_request disp base_url auth (claude_build_body request false) = Ok req ->
  send req = Ok (200, Ok (to_string (claude_reply m ps stop i o))) ->
  encodable (claude_reply m ps stop i o) = true -> (Value.depth (claude_reply m ps stop i o) <= MAX_DEPTH)%nat ->
  forallb assistant_part ps = true -> 0 <= i -> 0 <= o -> i + o <= u32_max ->
  claude_complete disp send base_url auth request =
  Ok (mkResponse m (mkMessage Assistant None (map norm_part ps)) (Some stop)
        (Some (mkUsage (Some i) (Some o) (Some (i + o))))).
Proof.
  intros Hreq Hs He Hd Hp Hi Ho Hio. unfold claude_complete, finish_call. rewrite Hreq. cbn [rbind].
  rewrite Hs. cbn [map_err rbind]. change (HttpCore.is_success 200) with true. cbn [negb].
  unfold parse_json. rewrite from_str_to_string by done. cbn [map_err rbind].
  transitivity (Ok (E := GenAiError) (mkResponse m (mkMessage Assistant None
    (omap claude_block (map norm (map claude_part ps)))) (Some stop)
    (Some (claude_usage (Value.Object [(b!"input_tokens", norm (Value.UInt i)); (b!"output_tokens", norm (Value.UInt o))]))))).
  { reflexivity. }
  rewrite claude_blocks by done. unfold claude_usage.
  rewrite (get_u32_norm (b!"input_tokens") i), (get_u32_norm (b!"output_tokens") o) by (lia || reflexivity).
  cbn [fst snd]. unfold wrap32. rewrite Z.mod_small by (unfold u32_max in Hio; lia). done.
Qed.

Lemma claude_complete_roundtrip_witness :
  claude_complete (fun _ => [])
    (fun _ => Ok (200, Ok (to_string (claude_reply (b!"m") [Text (b!"hi"); ToolCall (b!"t") (b!"f") (Value.UInt 3)] (b!"end_turn") 10 5))))
    (b!"http://localhost:1") (ClientAuth.api_key_auth (b!"x-api-key") (b!"k")) (request_new (b!"m") []) =
  Ok (mkResponse (b!"m") (mkMessage Assistant None [Text (b!"hi"); ToolCall (b!"t") (b!"f") (Value.Int 3)])
        (Some (b!"end_turn")) (Some (mkUsage (Some 10) (Some 5) (Some 15)))).
Proof.
  eapply (claude_complete_roundtrip (fun _ => [])
    (fun _ => Ok (200, Ok (to_string (claude_reply (b!"m") [Text (b!"hi"); ToolCall (b!"t") (b!"f") (Value.UInt 3)] (b!"end_turn") 10 5))))
    (b!"http://localhost:1") (ClientAuth.api_key_auth (b!"x-api-key") (b!"k")) (request_new (b!"m") []) _
    (b!"m") [Text (b!"hi"); ToolCall (b!"t") (b!"f") (Value.UInt 3)] (b!"end_turn") 10 5).
  - vm_compute. reflexivity.
  - reflexivity.
  - vm_compute. reflexivity.
  - vm_compute. lia.
  - reflexivity.
  - lia.
  - lia.
  - unfold u32_max. lia.
Defined.

(** The total of two counts that each fit [u32] may not: the sum wraps (or
    panics, with overflow checks on). *)
Example claude_usage_overflow :
  total_tokens (claude_usage (obj! [(b!"input_tokens", Value.Int 4294967295); (b!"output_tokens", Value.Int 1)]))
  = Some 0.
Proof. by vm_compute. Qed.
