(* ===== verification/Router.v ===== *)
(** * Model router ([genai/router/])

    Tasks, model metadata, the registry built from provider catalogs and the
    configuration overlay, the ranking strategies, and the execution of a route
    with fallback, per-model circuit breakers, retry and a deadline.

    A provider's calls are given by what the [k]-th call of the run returns and
    how long it takes; time (nanoseconds) passes during calls and backoff, and
    the instants read between two awaits are equal.  The run records what it
    does in a log. *)

From S2P Require Import Prelude Text Ordered Value Json HttpCore HttpClient Clients Genai Providers.

Open Scope Z_scope.

Module Router.
Import Genai.

(** ** [task.rs] *)

Inductive TaskKind := Chat | CodeGen | Summarize | Extract | Classify | Reason.

#[export] Instance TaskKind_eq_dec : EqDecision TaskKind.
Proof. solve_decision. Defined.

Inductive Priority := Speed | Cost | Quality.

Record Pin := mkPin { pin_provider : bytes; pin_model : bytes }.

Record Task := mkTask {
  kind : option TaskKind;
  tags : list bytes;
  est_input_tokens : Z;      (** [u32] *)
  est_output_tokens : Z;
  max_cost_usd : F64.t;
  priority : Priority;
  required : list Capability;
  pin : option Pin;
  deadline : option Z;
}.

Definition f64_zero : F64.t := F64.of_Z 0.

Definition task_new : Task := mkTask None [] 0 0 f64_zero Quality [] None None.

Definition require (c : Capability) (t : Task) : Task :=
  mkTask (kind t) (tags t) (est_input_tokens t) (est_output_tokens t) (max_cost_usd t) (priority t)
    (required t ++ [c]) (pin t) (deadline t).

(** ** [capability.rs] *)

Record ModelInfo := mkModel {
  name : bytes;
  provider : bytes;
  display_name : bytes;
  capabilities : list Capability;
  max_input_tokens : Z;
  max_output_tokens : Z;
  input_cost_per_mtok : F64.t;
  output_cost_per_mtok : F64.t;
  metadata : BTreeMap.Map bytes bytes;
}.

Definition model_new (p n : bytes) : ModelInfo := mkModel n p n [] 0 0 f64_zero f64_zero [].

Definition with_display_name (d : bytes) (m : ModelInfo) : ModelInfo :=
  mkModel (name m) (provider m) d (capabilities m) (max_input_tokens m) (max_output_tokens m)
    (input_cost_per_mtok m) (output_cost_per_mtok m) (metadata m).
Definition with_capabilities (cs : list Capability) (m : ModelInfo) : ModelInfo :=
  mkModel (name m) (provider m) (display_name m) cs (max_input_tokens m) (max_output_tokens m)
    (input_cost_per_mtok m) (output_cost_per_mtok m) (metadata m).
Definition with_limits (i o : Z) (m : ModelInfo) : ModelInfo :=
  mkModel (name m) (provider m) (display_name m) (capabilities m) i o
    (input_cost_per_mtok m) (output_cost_per_mtok m) (metadata m).
Definition with_cost (i o : F64.t) (m : ModelInfo) : ModelInfo :=
  mkModel (name m) (provider m) (display_name m) (capabilities m) (max_input_tokens m) (max_output_tokens m)
    i o (metadata m).
Definition with_meta (k v : bytes) (m : ModelInfo) : ModelInfo :=
  mkModel (name m) (provider m) (display_name m) (capabilities m) (max_input_tokens m) (max_output_tokens m)
    (input_cost_per_mtok m) (output_cost_per_mtok m) (BTreeMap.insert k v (metadata m)).

Definition has (m : ModelInfo) (c : Capability) : bool := bool_decide (c ∈ capabilities m).

(** [tokens as f64 / 1e6 * cost], input plus output. *)
Definition est_cost (m : ModelInfo) (in_tokens out_tokens : Z) : F64.t :=
  let mtok n := F64.div (F64.of_Z n) (F64.of_Z 1000000) in
  F64.add (F64.mul (mtok in_tokens) (input_cost_per_mtok m))
          (F64.mul (mtok out_tokens) (output_cost_per_mtok m)).

Definition parse_capability (s : bytes) : option Capability :=
  let w := to_ascii_lowercase (trim s) in
  let one_of l := bool_decide (w ∈ l) in
  if one_of [b!"text"] then Some CapText
  else if one_of [b!"chat"] then Some CapChat
  else if one_of [b!"streaming"; b!"stream"] then Some CapStreaming
  else if one_of [b!"vision"; b!"image"] then Some CapVision
  else if one_of [b!"audio"] then Some CapAudio
  else if one_of [b!"tool_calling"; b!"tool_use"; b!"tooluse"; b!"tools"] then Some CapToolUse
  else if one_of [b!"json_mode"; b!"jsonmode"; b!"json"] then Some CapJsonMode
  else if one_of [b!"embeddings"; b!"embedding"] then Some CapEmbeddings
  else if one_of [b!"reasoning"; b!"reason"] then Some CapReasoning
  else None.

(** ** [config.rs]: the overlay *)

Record RuleConfig := mkRuleConfig { rc_kind : bytes; rc_provider : bytes; rc_model : bytes }.
Record CostOverride := mkOverride {
  ov_provider : bytes; ov_model : bytes; ov_input : F64.t; ov_output : F64.t }.
Record ModelRef := mkRef { ref_provider : bytes; ref_model : bytes }.
Record DisabledCaps := mkDisabled { dc_provider : bytes; dc_model : bytes; dc_capabilities : list bytes }.
Record CustomModel := mkCustom {
  cm_provider : bytes; cm_name : bytes; cm_capabilities : list bytes;
  cm_max_input : Z; cm_max_output : Z; cm_input_cost : F64.t; cm_output_cost : F64.t }.

Definition to_model_info (cm : CustomModel) : ModelInfo :=
  with_cost (cm_input_cost cm) (cm_output_cost cm)
    (with_limits (cm_max_input cm) (cm_max_output cm)
       (with_capabilities (omap parse_capability (cm_capabilities cm))
          (model_new (cm_provider cm) (cm_name cm)))).

Record RoutingConfig := mkRouting {
  default_strategy : option bytes;
  cfg_fallback_depth : option Z;
  rules : list RuleConfig;
  cost_overrides : list CostOverride;
  disabled_models : list ModelRef;
  disabled_capabilities : list DisabledCaps;
  custom_models : list CustomModel;
}.

(** ** [error.rs], [route.rs] *)

Inductive RouterError :=
| NoRoute (reason : bytes)
| AllRoutesFailed (attempts : nat) (last : GenAiError)
| UnknownProvider (p : bytes)
| DeadlineExceeded
| GenAi (e : GenAiError)
| RConfig (m : bytes).

Record Candidate := mkCandidate {
  c_provider : bytes; c_model : bytes; c_score : F64.t; c_est_cost : F64.t }.

Record Route := mkRoute { primary : Candidate; fallbacks : list Candidate }.

Definition attempts (r : Route) : list Candidate := primary r :: fallbacks r.

Record Exclusion := mkExclusion { x_provider : bytes; x_model : bytes; reason : bytes }.

Record Ranking := mkRanking { candidates : list Candidate; excluded : list Exclusion }.

Record RouteDecision := mkDecision {
  d_strategy : bytes;
  chosen : Candidate;
  d_fallbacks : list Candidate;
  considered : list Candidate;
  d_excluded : list Exclusion;
  pinned : bool;
}.

(** ** [provider.rs], [provider_set.rs] *)

(** [GenAiProvider]: what the [k]-th call of the run returns, and its duration. *)
Record Provider := mkProvider {
  p_name : bytes;
  model_catalog : list ModelInfo;
  complete : nat -> CompletionRequest -> Result CompletionResponse GenAiError * Z;
  complete_stream : nat -> CompletionRequest -> Result (list (Result CompletionChunk GenAiError)) GenAiError * Z;
}.

Notation ProviderSet := (gmap bytes Provider).

Definition provider_set (ps : list Provider) : ProviderSet :=
  foldl (fun m p => <[p_name p := p]> m) ∅ ps.

Definition set_contains (s : ProviderSet) (n : bytes) : bool := bool_decide (is_Some (s !! n)).

(** [ProviderSet::all], stable-sorted by name. *)
Definition set_all (s : ProviderSet) : list Provider :=
  sort_by (fun a b => cmp (p_name a) (p_name b)) (map snd (map_to_list s)).

(** ** [registry.rs] *)

Notation Registry := (BTreeMap.Map bytes ModelInfo).

Definition key (p m : bytes) : bytes := p ++ b!"/" ++ m.

Definition reg_all (r : Registry) : list ModelInfo := BTreeMap.values r.
Definition reg_get (r : Registry) (p m : bytes) : option ModelInfo := BTreeMap.get (key p m) r.
Definition reg_filter (r : Registry) (pred : ModelInfo -> bool) : list ModelInfo :=
  List.filter pred (BTreeMap.values r).

(** Steps 1 to 5 of [build_registry]. *)
Definition add_base (r : Registry) (m : ModelInfo) : Registry := BTreeMap.insert (key (provider m) (name m)) m r.

Definition override_cost (r : Registry) (ov : CostOverride) : Registry :=
  BTreeMap.update (with_cost (ov_input ov) (ov_output ov)) (key (ov_provider ov) (ov_model ov)) r.

Definition strip_capabilities (dc : DisabledCaps) (m : ModelInfo) : ModelInfo :=
  let strip := omap parse_capability (dc_capabilities dc) in
  with_capabilities (List.filter (fun c => negb (bool_decide (c ∈ strip))) (capabilities m)) m.

Definition disable_capabilities (r : Registry) (dc : DisabledCaps) : Registry :=
  BTreeMap.update (strip_capabilities dc) (key (dc_provider dc) (dc_model dc)) r.

Definition disable_model (r : Registry) (d : ModelRef) : Registry :=
  BTreeMap.remove (key (ref_provider d) (ref_model d)) r.

Fixpoint add_customs (set : ProviderSet) (cms : list CustomModel) (r : Registry) : Result Registry RouterError :=
  match cms with
  | [] => Ok r
  | cm :: cms' =>
      if negb (set_contains set (cm_provider cm)) then
        Err (RConfig (b!"custom model '" ++ cm_name cm ++ b!"' names unregistered provider '"
                      ++ cm_provider cm ++ b!"'"))
      else add_customs set cms' (BTreeMap.insert (key (cm_provider cm) (cm_name cm)) (to_model_info cm) r)
  end.

Definition build_registry (set : ProviderSet) (cfg : RoutingConfig) : Result Registry RouterError :=
  let r := foldl add_base [] (flat_map model_catalog (set_all set)) in
  let r := foldl override_cost r (cost_overrides cfg) in
  let r := foldl disable_capabilities r (disabled_capabilities cfg) in
  let r := foldl disable_model r (disabled_models cfg) in
  add_customs set (custom_models cfg) r.

(** ** Strategies *)

(** [RoutingStrategy] *)
Record Strategy := mkStrategy { s_name : bytes; rank : Task -> Registry -> Ranking }.

Definition default_output_estimate (k : option TaskKind) : Z :=
  match k with
  | Some Classify => 64
  | Some Extract => 256
  | Some Chat | Some Summarize => 512
  | Some CodeGen => 1024
  | Some Reason => 2048
  | None => 512
  end.

Definition out_estimate (t : Task) : Z :=
  if 0 <? est_output_tokens t then est_output_tokens t else default_output_estimate (kind t).

Definition satisfies (m : ModelInfo) (req : list Capability) : bool := forallb (has m) req.

(** [make_candidate], and the estimate of a pin. *)
Definition candidate_cost (reg : Registry) (p m : bytes) (t : Task) : F64.t :=
  default f64_zero ((fun i => est_cost i (est_input_tokens t) (out_estimate t)) <$> reg_get reg p m).

Definition make_candidate (reg : Registry) (p m : bytes) (t : Task) (score : F64.t) : Candidate :=
  mkCandidate p m score (candidate_cost reg p m t).

Record Rule := mkRule { r_kind : TaskKind; r_provider : bytes; r_model : bytes }.

Definition rule_candidates (reg : Registry) (t : Task) (rules : list Rule) : list Candidate :=
  imap (fun i r => make_candidate reg (r_provider r) (r_model r) t (F64.opp (F64.of_Z (Z.of_nat i)))) rules.

Definition rule_based (rules : list Rule) (dflt : option (bytes * bytes)) : Strategy :=
  mkStrategy (b!"rule_based") (fun t reg =>
    let cs := match kind t with
              | Some k => rule_candidates reg t (List.filter (fun r => bool_decide (r_kind r = k)) rules)
              | None => []
              end in
    let tail := match dflt with
                | Some (p, m) =>
                    [make_candidate reg p m t
                       (F64.sub (F64.opp (F64.of_Z (Z.of_nat (length cs)))) (F64.of_Z 1))]
                | None => []
                end in
    mkRanking (cs ++ tail) []).

(** [strategy_capability.rs] *)
Definition reject_reason (m : ModelInfo) (t : Task) (out_est : Z) : option bytes :=
  let cost := est_cost m (est_input_tokens t) out_est in
  if negb (satisfies m (required t)) then
    Some (b!"missing capability: " ++
          join (b!", ") (map capability_debug (List.filter (fun c => negb (has m c)) (required t))))
  else if (0 <? est_input_tokens t) && (0 <? max_input_tokens m) && (max_input_tokens m <? est_input_tokens t) then
    Some (b!"input " ++ show_uint (est_input_tokens t) ++ b!" > max_input_tokens " ++ show_uint (max_input_tokens m))
  else if F64.ltb f64_zero (max_cost_usd t) && F64.ltb (max_cost_usd t) cost then
    Some (b!"est cost " ++ F64.display_prec 4 cost ++ b!" > budget " ++ F64.display_prec 4 (max_cost_usd t))
  else None.

Definition score (m : ModelInfo) (p : Priority) (cost : F64.t) : F64.t :=
  match p with
  | Cost => F64.opp cost
  | Speed => F64.opp (F64.of_Z (max_input_tokens m))
  | Quality => F64.of_Z (max_input_tokens m)
  end.

Definition capability_candidate (t : Task) (m : ModelInfo) : Candidate :=
  let cost := est_cost m (est_input_tokens t) (out_estimate t) in
  mkCandidate (provider m) (name m) (score m (priority t) cost) cost.

(** The loop over the models. *)
Fixpoint capability_loop (t : Task) (ms : list ModelInfo) (cs : list Candidate) (xs : list Exclusion)
  : list Candidate * list Exclusion :=
  match ms with
  | [] => (cs, xs)
  | m :: ms' =>
      match reject_reason m t (out_estimate t) with
      | Some why => capability_loop t ms' cs (xs ++ [mkExclusion (provider m) (name m) why])
      | None => capability_loop t ms' (cs ++ [capability_candidate t m]) xs
      end
  end.

(** Best first, ties by provider and model. *)
Definition candidate_cmp (a b : Candidate) : comparison :=
  then_with (then_with (default Eq (F64.partial_cmp (c_score b) (c_score a)))
                       (cmp (c_provider a) (c_provider b)))
            (cmp (c_model a) (c_model b)).

Definition capability_strategy : Strategy :=
  mkStrategy (b!"capability") (fun t reg =>
    let '(cs, xs) := capability_loop t (reg_all reg) [] [] in
    mkRanking (sort_by candidate_cmp cs) xs).

(** [strategy_composite.rs] *)
Fixpoint composite_rank (ss : list Strategy) (t : Task) (reg : Registry) : Ranking :=
  match ss with
  | [] => mkRanking [] []
  | s :: ss' =>
      let r := rank s t reg in
      if bool_decide (length (candidates r) = 0%nat) then composite_rank ss' t reg else r
  end.

Definition composite (ss : list Strategy) : Strategy := mkStrategy (b!"composite") (composite_rank ss).

(** ** [execute.rs] *)

Definition clamp_options (r : CompletionRequest) (info : ModelInfo) (t : Task) : CompletionRequest :=
  let r := match max_tokens (options r) with
           | Some mx =>
               if (0 <? max_output_tokens info) && (max_output_tokens info <? mx)
               then with_options (opt_max_tokens (max_output_tokens info) (options r)) r else r
           | None => r
           end in
  if bool_decide (CapJsonMode ∈ required t) then
    match response_format r with None => with_response_format FmtJson r | Some _ => r end
  else r.

Definition is_retryable (err : GenAiError) (finish : option bytes) : bool :=
  if match finish with
     | Some f => bool_decide (f = b!"content_filter") || bool_decide (f = b!"content-filter")
     | None => false
     end then false
  else match err with
       | Transport _ => true
       | Api status _ => (status =? 429) || ((500 <=? status) && (status <=? 599))
       | _ => false
       end.

(** ** [default_router.rs] *)

Record DefaultRouter := mkRouter {
  providers : ProviderSet;
  registry : Registry;
  strategy : Strategy;
  retry_policy : option Retry.RetryPolicy;
  breaker_cfg : option Breaker.CircuitBreakerConfig;
  fallback_depth : nat;
}.

(** [RouterBuilder::new(..).build()] *)
Definition router_new (ps : ProviderSet) (reg : Registry) : DefaultRouter :=
  mkRouter ps reg capability_strategy None None 2.

Definition reload (r : DefaultRouter) (reg : Registry) : DefaultRouter :=
  mkRouter (providers r) reg (strategy r) (retry_policy r) (breaker_cfg r) (fallback_depth r).

Definition resolve_inner (r : DefaultRouter) (t : Task) : Result (Route * RouteDecision) RouterError :=
  match pin t with
  | Some p =>
      let c := mkCandidate (pin_provider p) (pin_model p) f64_zero
                 (candidate_cost (registry r) (pin_provider p) (pin_model p) t) in
      Ok (mkRoute c [], mkDecision (b!"pin") c [] [c] [] true)
  | None =>
      let ranking := rank (strategy r) t (registry r) in
      match candidates ranking with
      | [] => Err (NoRoute (b!"no model satisfied the task (strategy: " ++ s_name (strategy r) ++ b!")"))
      | c :: rest =>
          let fb := take (fallback_depth r) rest in
          Ok (mkRoute c fb, mkDecision (s_name (strategy r)) c fb (c :: rest) (excluded ranking) false)
      end
  end.

(** *** Execution *)

(** What a run does, in order. *)
Inductive LogEvent (T : Type) :=
| Asked (k : bytes) (now : Z) (ok : bool)
| Called (c : Candidate) (req : CompletionRequest) (r : Result T GenAiError)
| TimedOut (c : Candidate) (req : CompletionRequest)
| Reported (k : bytes) (now : Z) (success : bool).
Arguments Asked {T}. Arguments Called {T}. Arguments TimedOut {T}. Arguments Reported {T}.

Record World (T : Type) := mkWorld {
  now : Z;
  calls : nat;
  breakers : gmap bytes Breaker.State;
  log : list (LogEvent T);
}.
Arguments mkWorld {T}. Arguments now {T}. Arguments calls {T}. Arguments breakers {T}. Arguments log {T}.

Section Execute.
Context {T : Type} (router : DefaultRouter).

Definition record (w : World T) (e : LogEvent T) : World T :=
  mkWorld (now w) (calls w) (breakers w) (log w ++ [e]).

Definition breaker_key (c : Candidate) : bytes := key (c_provider c) (c_model c).

(** [breaker_for]: the state of the candidate's breaker, created closed. *)
Definition breaker_for (c : Candidate) (w : World T) : Breaker.State :=
  default Breaker.new (breakers w !! breaker_key c).

Definition set_breaker (c : Candidate) (s : Breaker.State) (w : World T) : World T :=
  mkWorld (now w) (calls w) (<[breaker_key c := s]> (breakers w)) (log w).

(** [if let Some(b) = self.breaker_for(c) { b.can_execute() }] *)
Definition ask (c : Candidate) (w : World T) : bool * World T :=
  match breaker_cfg router with
  | None => (true, w)
  | Some cfg =>
      let '(ok, s) := Breaker.can_execute cfg (now w) (breaker_for c w) in
      (ok, record (set_breaker c s w) (Asked (breaker_key c) (now w) ok))
  end.

(** [if let Some(b) = self.breaker_for(c) { b.on_execution(success) }] *)
Definition report (c : Candidate) (success : bool) (w : World T) : World T :=
  match breaker_cfg router with
  | None => w
  | Some cfg =>
      let s := Breaker.on_execution cfg (now w) success (breaker_for c w) in
      record (set_breaker c s w) (Reported (breaker_key c) (now w) success)
  end.

Definition remaining (t : Task) (w : World T) : Result (option Z) RouterError :=
  match deadline t with
  | Some dl => if dl <=? now w then Err DeadlineExceeded else Ok (Some (dl - now w))
  | None => Ok None
  end.

(** The request for a candidate. *)
Definition prepare (t : Task) (request : CompletionRequest) (c : Candidate) : CompletionRequest :=
  let req := with_model (c_model c) request in
  match reg_get (registry router) (c_provider c) (c_model c) with
  | Some info => clamp_options req info t
  | None => req
  end.

(** How a call ends: its result, the calls it made, how long it took. *)
Context (call : Provider -> CompletionRequest -> nat -> option (Result T GenAiError * nat * Z)).
(** Whether a call that runs into the deadline is reported to the breaker. *)
Context (report_timeout : bool).

Fixpoint attempt_loop (t : Task) (request : CompletionRequest) (cs : list Candidate)
  (last_err : option GenAiError) (tried : nat) (w : World T) : option (Result T RouterError * World T) :=
  match cs with
  | [] =>
      Some (match last_err with
            | Some e => Err (AllRoutesFailed tried e)
            | None => Err (NoRoute (b!"no attemptable candidate (providers unregistered)"))
            end, w)
  | c :: cs' =>
      match remaining t w with
      | Err e => Some (Err e, w)
      | Ok rem =>
          match providers router !! c_provider c with
          | None => attempt_loop t request cs' last_err tried w
          | Some p =>
              let '(ok, w) := ask c w in
              if negb ok then attempt_loop t request cs' last_err tried w
              else
                let req := prepare t request c in
                let tried := S tried in
                match call p req (calls w) with
                | None => None
                | Some (result, n, dur) =>
                    if match rem with Some d => d <? dur | None => false end then
                      let w := mkWorld (now w + default 0 rem) (calls w + n) (breakers w) (log w ++ [TimedOut c req]) in
                      let w := if report_timeout then report c false w else w in
                      Some (Err DeadlineExceeded, w)
                    else
                      let w := mkWorld (now w + dur) (calls w + n) (breakers w) (log w ++ [Called c req result]) in
                      let w := report c (is_ok result) w in
                      match result with
                      | Ok resp => Some (Ok resp, w)
                      | Err e =>
                          if negb (is_retryable e None) then Some (Err (GenAi e), w)
                          else attempt_loop t request cs' (Some e) tried w
                      end
                end
          end
      end
  end.

End Execute.

(** [call_with_retry]: the calls and the backoff between them. *)
Definition call_with_retry (router : DefaultRouter) (p : Provider) (req : CompletionRequest) (k : nat)
  : option (Result CompletionResponse GenAiError * nat * Z) :=
  let took n := foldr Z.add 0 (map (fun i => snd (complete p (k + i)%nat req)) (seq 0 n)) in
  match retry_policy router with
  | Some policy =>
      match Retry.retry policy (fun e => is_retryable e None) (fun i => fst (complete p (k + i)%nat req)) with
      | None => None
      | Some (r, n, sleeps) => Some (r, n, took n + foldr Z.add 0 sleeps)
      end
  | None => let '(r, d) := complete p k req in Some (r, 1%nat, d)
  end.

Definition execute (router : DefaultRouter) (route : Route) (t : Task) (request : CompletionRequest)
  (w : World CompletionResponse) :=
  attempt_loop router (call_with_retry router) true t request (attempts route) None 0 w.

Definition stream_once (p : Provider) (req : CompletionRequest) (k : nat)
  : option (Result (list (Result CompletionChunk GenAiError)) GenAiError * nat * Z) :=
  let '(r, d) := complete_stream p k req in Some (r, 1%nat, d).

Definition execute_stream (router : DefaultRouter) (route : Route) (t : Task) (request : CompletionRequest)
  (w : World (list (Result CompletionChunk GenAiError))) :=
  attempt_loop router stream_once false t request (attempts route) None 0 w.

(** [ModelRouter::route] and [route_stream] *)
Definition route (router : DefaultRouter) (t : Task) (request : CompletionRequest)
  (w : World CompletionResponse) : option (Result CompletionResponse RouterError * World CompletionResponse) :=
  match resolve_inner router t with
  | Err e => Some (Err e, w)
  | Ok (rt, _) => execute router rt t request w
  end.

Definition route_stream (router : DefaultRouter) (t : Task) (request : CompletionRequest)
  (w : World (list (Result CompletionChunk GenAiError))) :=
  match resolve_inner router t with
  | Err e => Some (Err e, w)
  | Ok (rt, _) => execute_stream router rt t request w
  end.

(** ** [embedding_router.rs] *)

Record EmbeddingRouter := mkEmbedding {
  embedders : gmap bytes (EmbedRequest -> Result EmbedResponse GenAiError);
  e_registry : Registry;
  e_strategy : Strategy;
  e_fallback_depth : nat;
}.

Definition embedding_resolve (r : EmbeddingRouter) (t : Task) : Result Route RouterError :=
  let t := if bool_decide (CapEmbeddings ∈ required t) then t else require CapEmbeddings t in
  match candidates (rank (e_strategy r) t (e_registry r)) with
  | [] => Err (NoRoute (b!"no embedding model satisfied the task (strategy: " ++ s_name (e_strategy r) ++ b!")"))
  | c :: rest => Ok (mkRoute c (take (e_fallback_depth r) rest))
  end.

Fixpoint embed_loop (r : EmbeddingRouter) (request : EmbedRequest) (cs : list Candidate)
  (last_err : option GenAiError) (tried : nat) : Result EmbedResponse RouterError :=
  match cs with
  | [] => match last_err with
          | Some e => Err (AllRoutesFailed tried e)
          | None => Err (NoRoute (b!"no attemptable embedder"))
          end
  | c :: cs' =>
      match embedders r !! c_provider c with
      | None => embed_loop r request cs' last_err tried
      | Some embedder =>
          match embedder (mkEmbedRequest (c_model c) (input request)) with
          | Ok resp => Ok resp
          | Err e => if negb (is_retryable e None) then Err (GenAi e)
                     else embed_loop r request cs' (Some e) (S tried)
          end
      end
  end.

Definition embed (r : EmbeddingRouter) (t : Task) (request : EmbedRequest) : Result EmbedResponse RouterError :=
  let? rt := embedding_resolve r t in
  embed_loop r request (attempts rt) None 0.

End Router.

Import Genai Router.

(** ** The catalogs of the providers ([providers/]) *)

(** A decimal literal. *)
Definition lit (d : bytes) : F64.t := default SpecFloat.S754_nan (F64.parse d).

Definition catalog_entry (p n d : bytes) (caps : list Capability) (i o : Z) (ci co : bytes) : ModelInfo :=
  with_cost (lit ci) (lit co) (with_limits i o (with_capabilities caps (with_display_name d (model_new p n)))).

Definition openai_catalog : list ModelInfo :=
  [catalog_entry (b!"openai") (b!"gpt-4o") (b!"GPT-4o")
     [CapText; CapChat; CapStreaming; CapVision; CapToolUse; CapJsonMode] 128000 16384 (b!"2.5") (b!"10.0");
   catalog_entry (b!"openai") (b!"gpt-4o-mini") (b!"GPT-4o mini")
     [CapText; CapChat; CapStreaming; CapVision; CapToolUse; CapJsonMode] 128000 16384 (b!"0.15") (b!"0.60");
   catalog_entry (b!"openai") (b!"text-embedding-3-small") (b!"text-embedding-3-small")
     [CapEmbeddings] 8191 0 (b!"0.02") (b!"0.0")].

Definition claude_catalog : list ModelInfo :=
  [catalog_entry (b!"claude") (b!"claude-sonnet-5") (b!"Claude Sonnet 5")
     [CapText; CapChat; CapStreaming; CapVision; CapToolUse; CapReasoning] 200000 64000 (b!"3.0") (b!"15.0");
   catalog_entry (b!"claude") (b!"claude-3-5-haiku") (b!"Claude 3.5 Haiku")
     [CapText; CapChat; CapStreaming; CapToolUse] 200000 8192 (b!"0.8") (b!"4.0")].

Definition ollama_catalog : list ModelInfo :=
  [catalog_entry (b!"ollama") (b!"llama3") (b!"Llama 3 (local)")
     [CapText; CapChat; CapStreaming; CapJsonMode] 8192 4096 (b!"0.0") (b!"0.0");
   catalog_entry (b!"ollama") (b!"nomic-embed-text") (b!"nomic-embed-text (local)")
     [CapEmbeddings] 8192 0 (b!"0.0") (b!"0.0")].

(** ** Execution as a step relation *)

Section Runs.
Context {T : Type} (router : DefaultRouter).
Context (call : Provider -> CompletionRequest -> nat -> option (Result T GenAiError * nat * Z)).
Context (report_timeout : bool) (t : Task) (request : CompletionRequest).

Definition exhausted (last_err : option GenAiError) (tried : nat) : RouterError :=
  match last_err with
  | Some e => AllRoutesFailed tried e
  | None => NoRoute (b!"no attemptable candidate (providers unregistered)")
  end.

(** The world after a call that returned, or that ran into the deadline. *)
Definition after_call (c : Candidate) (r : Result T GenAiError) (n : nat) (dur : Z) (w : World T) : World T :=
  report router c (is_ok r)
    (mkWorld (now w + dur) (calls w + n) (breakers w) (log w ++ [Called c (prepare router t request c) r])).

Definition after_timeout (c : Candidate) (n : nat) (dl : Z) (w : World T) : World T :=
  let w := mkWorld dl (calls w + n) (breakers w) (log w ++ [TimedOut c (prepare router t request c)]) in
  if report_timeout then report router c false w else w.

Definition in_time (w : World T) : Prop := forall dl, deadline t = Some dl -> now w < dl.

Inductive runs : list Candidate -> option GenAiError -> nat -> World T -> Result T RouterError -> World T -> Prop :=
| runs_exhausted le n w : runs [] le n w (Err (exhausted le n)) w
| runs_late c cs le n w dl : deadline t = Some dl -> dl <= now w -> runs (c :: cs) le n w (Err DeadlineExceeded) w
| runs_unregistered c cs le n w r w' :
    in_time w -> providers router !! c_provider c = None ->
    runs cs le n w r w' -> runs (c :: cs) le n w r w'
| runs_rejected c cs le n w w1 r w' p :
    in_time w -> providers router !! c_provider c = Some p -> ask router c w = (false, w1) ->
    runs cs le n w1 r w' -> runs (c :: cs) le n w r w'
| runs_timeout c cs le n w w1 k dl p :
    in_time w -> providers router !! c_provider c = Some p -> ask router c w = (true, w1) ->
    deadline t = Some dl -> runs (c :: cs) le n w (Err DeadlineExceeded) (after_timeout c k dl w1)
| runs_ok c cs le n w w1 k dur p v :
    in_time w -> providers router !! c_provider c = Some p -> ask router c w = (true, w1) ->
    (forall dl, deadline t = Some dl -> now w1 + dur <= dl) ->
    runs (c :: cs) le n w (Ok v) (after_call c (Ok v) k dur w1)
| runs_permanent c cs le n w w1 k dur p e :
    in_time w -> providers router !! c_provider c = Some p -> ask router c w = (true, w1) ->
    (forall dl, deadline t = Some dl -> now w1 + dur <= dl) -> is_retryable e None = false ->
    runs (c :: cs) le n w (Err (GenAi e)) (after_call c (Err e) k dur w1)
| runs_transient c cs le n w w1 k dur p e r w' :
    in_time w -> providers router !! c_provider c = Some p -> ask router c w = (true, w1) ->
    (forall dl, deadline t = Some dl -> now w1 + dur <= dl) -> is_retryable e None = true ->
    runs cs (Some e) (S n) (after_call c (Err e) k dur w1) r w' -> runs (c :: cs) le n w r w'.

Lemma ask_now c (w : World T) ok (w1 : World T) : ask router c w = (ok, w1) -> now w1 = now w /\ calls w1 = calls w.
Proof.
  unfold ask. destruct (breaker_cfg router) as [cfg|]; [|by intros [= _ <-]].
  destruct (Breaker.can_execute cfg (now w) (breaker_for c w)) as [o s]. by intros [= _ <-].
Qed.

Lemma attempt_loop_runs cs : forall le n w r w',
  attempt_loop router call report_timeout t request cs le n w = Some (r, w') -> runs cs le n w r w'.
Proof.
  induction cs as [|c cs IH]; intros le n w r w'; cbn [attempt_loop].
  { intros [= <- <-]. destruct le; apply runs_exhausted. }
  unfold remaining. destruct (deadline t) as [dl|] eqn:Ed.
  1: destruct (Z.leb_spec dl (now w)) as [Hl|Hl]; [intros [= <- <-]; by eapply runs_late|].
  all: assert (in_time w) as Hin by (intros dl'; rewrite Ed; intros [=]; by subst).
  all: destruct (providers router !! c_provider c) as [p|] eqn:Ep; [|intros H; eapply runs_unregistered; eauto].
  all: destruct (ask router c w) as [ok w1] eqn:Ea; destruct (ask_now _ _ _ _ Ea) as [Hn Hk].
  all: destruct ok; cbn [negb]; [|intros H; eapply runs_rejected; eauto].
  all: destruct (call p (prepare router t request c) (calls w1)) as [[[res k] dur]|]; [|done].
  - destruct (Z.ltb_spec (dl - now w) dur) as [Hd|Hd].
    + intros [= <- <-]. cbn [default]. unfold Datatypes.id.
      replace (now w1 + (dl - now w)) with dl by lia.
      by apply (runs_timeout c cs le n w w1 k dl p).
    + assert (forall dl', deadline t = Some dl' -> now w1 + dur <= dl') as Ht.
      { intros dl'. rewrite Ed. intros [= <-]. lia. }
      destruct res as [v|e]; [intros [= <- <-]; by eapply runs_ok|].
      destruct (is_retryable e None) eqn:Er; cbn [negb].
      * intros H. eapply runs_transient; eauto.
      * intros [= <- <-]. by eapply runs_permanent.
  - assert (forall dl', deadline t = Some dl' -> now w1 + dur <= dl') as Ht by (intros dl'; by rewrite Ed).
    destruct res as [v|e]; [intros [= <- <-]; by eapply runs_ok|].
    destruct (is_retryable e None) eqn:Er; cbn [negb].
    * intros H. eapply runs_transient; eauto.
    * intros [= <- <-]. by eapply runs_permanent.
Qed.

(** *** What a run called, and how it ended *)

Definition called (evs : list (LogEvent T)) : list (Candidate * CompletionRequest * Result T GenAiError) :=
  omap (fun ev => match ev with Called c req r => Some (c, req, r) | _ => None end) evs.

Definition transient (x : Candidate * CompletionRequest * Result T GenAiError) : Prop :=
  exists e, x.2 = Err e /\ is_retryable e None = true.

(** The candidates called are some of those given, in their order, each on a
    registered provider with the request prepared for it. *)
Definition follows (cs : list Candidate) (evs : list (LogEvent T)) : Prop :=
  map (fun x => x.1.1) (called evs) `sublist_of` cs /\
  Forall (fun x => x.1.2 = prepare router t request x.1.1 /\ is_Some (providers router !! c_provider x.1.1))
    (called evs).

(** Every candidate was called, has no provider, or was refused by its breaker. *)
Definition covered (cs : list Candidate) (evs : list (LogEvent T)) : Prop :=
  Forall (fun c => providers router !! c_provider c = None \/
                   (exists at_, Asked (breaker_key c) at_ false ∈ evs) \/
                   c ∈ map (fun x => x.1.1) (called evs)) cs.

Definition error_of (x : Candidate * CompletionRequest * Result T GenAiError) : option GenAiError :=
  match x.2 with Err e => Some e | Ok _ => None end.

(** The error kept after the calls [pre], from the one kept before. *)
Definition last_error (le : option GenAiError) (pre : list (Candidate * CompletionRequest * Result T GenAiError)) :=
  foldl (fun _ x => error_of x) le pre.

(** How the result relates to the calls: [le] and [n] are the error and the
    count the loop started with. *)
Definition ended (cs : list Candidate) (le : option GenAiError) (n : nat) (r : Result T RouterError)
  (evs : list (LogEvent T)) (w' : World T) : Prop :=
  exists pre, Forall transient pre /\
  match r with
  | Ok v => exists c req, called evs = pre ++ [(c, req, Ok v)]
  | Err (GenAi e) => is_retryable e None = false /\ exists c req, called evs = pre ++ [(c, req, Err e)]
  | Err (AllRoutesFailed k e) =>
      called evs = pre /\ k = (n + length pre)%nat /\ last_error le pre = Some e /\ covered cs evs
  | Err (NoRoute _) => called evs = pre /\ last_error le pre = None /\ covered cs evs
  | Err DeadlineExceeded => called evs = pre /\ exists dl, deadline t = Some dl /\ dl <= now w'
  | _ => False
  end.

Lemma called_app e1 e2 : called (e1 ++ e2) = called e1 ++ called e2.
Proof. apply omap_app. Qed.

(** Events that are not calls leave the account of the calls alone. *)
Lemma covered_cons c cs evs0 evs :
  called evs0 = [] ->
  (providers router !! c_provider c = None \/ exists at_, Asked (breaker_key c) at_ false ∈ evs0) ->
  covered cs evs -> covered (c :: cs) (evs0 ++ evs).
Proof.
  intros H0 Hc Hcs. unfold covered. rewrite called_app, H0. cbn [app]. constructor.
  - destruct Hc as [?|[a Ha]]; [by left|right; left]. exists a. set_solver.
  - eapply Forall_impl; [exact Hcs|]. simpl. intros c' [?|[[a Ha]|?]]; [by left| |by right; right].
    right; left. exists a. set_solver.
Qed.

Lemma ended_skip c cs le n r evs0 evs w' :
  called evs0 = [] ->
  (providers router !! c_provider c = None \/ exists at_, Asked (breaker_key c) at_ false ∈ evs0) ->
  ended cs le n r evs w' -> ended (c :: cs) le n r (evs0 ++ evs) w'.
Proof.
  intros H0 Hc (pre & Hp & H). exists pre. split; [done|]. rewrite called_app, H0. cbn [app].
  destruct r as [v|[why|k e|p| |e|m]]; try done.
  - destruct H as (H1 & H2 & H3). split_and!; [done|done|by apply covered_cons].
  - destruct H as (H1 & H2 & H3 & H4). split_and!; [done|done|done|by apply covered_cons].
Qed.

Lemma ended_call c cs le n r evs0 evs w' req e :
  called evs0 = [(c, req, Err e)] -> is_retryable e None = true ->
  ended cs (Some e) (S n) r evs w' -> ended (c :: cs) le n r (evs0 ++ evs) w'.
Proof.
  intros H0 He (pre & Hp & H). exists ((c, req, Err e) :: pre). split.
  { constructor; [|done]. by exists e. }
  rewrite called_app, H0. cbn [app].
  assert (covered cs evs -> covered (c :: cs) (evs0 ++ evs)) as Hcov.
  { intros Hcs. unfold covered. rewrite called_app, H0. constructor.
    - right; right. cbn [map app fst]. left.
    - eapply Forall_impl; [exact Hcs|]. simpl. intros c' [?|[[a Ha]|?]]; [by left| |].
      + right; left. exists a. set_solver.
      + right; right. set_solver. }
  destruct r as [v|[why|k e'|p| |e'|m]]; try done.
  - destruct H as (c' & req' & ->). eauto.
  - destruct H as (-> & H2 & H3). split_and!; [done|done|by apply Hcov].
  - destruct H as (-> & -> & H3 & H4). split_and!; [done|simpl; lia|done|by apply Hcov].
  - destruct H as (-> & H2). done.
  - destruct H as (H1 & c' & req' & ->). eauto.
Qed.

(** The log entries of a question and of a report. *)
Lemma ask_log c (w : World T) ok w1 :
  ask router c w = (ok, w1) ->
  exists evs, log w1 = log w ++ evs /\ called evs = [] /\
    (ok = false -> exists at_, Asked (breaker_key c) at_ false ∈ evs).
Proof.
  unfold ask. destruct (breaker_cfg router) as [cfg|].
  - destruct (Breaker.can_execute cfg (now w) (breaker_for c w)) as [o s]. intros [= <- <-].
    exists [Asked (breaker_key c) (now w) o]. split_and!; [done|done|]. intros ->. exists (now w). left.
  - intros [= <- <-]. exists []. rewrite app_nil_r. done.
Qed.

Lemma report_log c ok (w : World T) :
  exists evs, log (report router c ok w) = log w ++ evs /\ called evs = [].
Proof.
  unfold report. destruct (breaker_cfg router) as [cfg|].
  - exists [Reported (breaker_key c) (now w) ok]. done.
  - exists []. by rewrite app_nil_r.
Qed.

Lemma after_call_log c r k dur (w : World T) :
  exists evs, log (after_call c r k dur w) = log w ++ evs /\
    called evs = [(c, prepare router t request c, r)].
Proof.
  unfold after_call. destruct (report_log c (is_ok r) (mkWorld (now w + dur) (calls w + k) (breakers w)
    (log w ++ [Called c (prepare router t request c) r]))) as (evs & -> & He).
  exists ([Called c (prepare router t request c) r] ++ evs). cbn [log]. rewrite <- app_assoc. split; [done|].
  rewrite called_app, He. done.
Qed.

Lemma after_timeout_log c k dl (w : World T) :
  exists evs, log (after_timeout c k dl w) = log w ++ evs /\ called evs = [].
Proof.
  unfold after_timeout. destruct report_timeout; [|by exists [TimedOut c (prepare router t request c)]].
  destruct (report_log c false (mkWorld dl (calls w + k) (breakers w)
    (log w ++ [TimedOut c (prepare router t request c)]))) as (evs & -> & He).
  exists ([TimedOut c (prepare router t request c)] ++ evs). cbn [log]. by rewrite <- app_assoc, called_app, He.
Qed.

Lemma after_timeout_now c k dl (w : World T) : now (after_timeout c k dl w) = dl.
Proof.
  unfold after_timeout, report. destruct report_timeout; [|done]. by destruct (breaker_cfg router).
Qed.

Lemma follows_skip c cs evs0 evs : called evs0 = [] -> follows cs evs -> follows (c :: cs) (evs0 ++ evs).
Proof.
  unfold follows. intros H0 [H1 H2]. rewrite called_app, H0. split; [by apply sublist_cons|done].
Qed.

Lemma follows_call c cs evs0 evs r p :
  called evs0 = [(c, prepare router t request c, r)] -> providers router !! c_provider c = Some p ->
  follows cs evs -> follows (c :: cs) (evs0 ++ evs).
Proof.
  unfold follows. intros H0 Hp [H1 H2]. rewrite called_app, H0. cbn [map app fst]. split; [by apply sublist_skip|].
  constructor; [|done]. cbn [fst snd]. eauto.
Qed.

Lemma follows_nil cs : follows cs [].
Proof. split; [apply sublist_nil_l|constructor]. Qed.

Lemma runs_ended cs le n w r w' :
  runs cs le n w r w' -> exists evs, log w' = log w ++ evs /\ follows cs evs /\ ended cs le n r evs w'.
Proof.
  induction 1 as [le n w|c cs le n w dl Hd Hl|c cs le n w r w' Hin Hp _ (evs & Hlog & Hf & He)
    |c cs le n w w1 r w' p Hin Hp Ha _ (evs & Hlog & Hf & He)|c cs le n w w1 k dl p Hin Hp Ha Hd
    |c cs le n w w1 k dur p v Hin Hp Ha Ht|c cs le n w w1 k dur p e Hin Hp Ha Ht Hr
    |c cs le n w w1 k dur p e r w' Hin Hp Ha Ht Hr _ (evs & Hlog & Hf & He)].
  - exists []. rewrite app_nil_r. split_and!; [done|apply follows_nil|].
    exists []. split; [done|]. destruct le as [e|]; simpl; split_and!; (done || lia || constructor).
  - exists []. rewrite app_nil_r. split_and!; [done|apply follows_nil|]. exists []. split; [done|]. split; eauto.
  - exists evs. split_and!; [done|by apply (follows_skip c cs []) in Hf|].
    apply (ended_skip c cs le n r [] evs); auto.
  - destruct (ask_log c w false w1 Ha) as (ev0 & Hl0 & Hc0 & Hk). exists (ev0 ++ evs).
    rewrite Hlog, Hl0, app_assoc. split_and!; [done|by apply follows_skip|]. apply ended_skip; auto.
  - destruct (ask_log c w true w1 Ha) as (ev0 & Hl0 & Hc0 & _).
    destruct (after_timeout_log c k dl w1) as (ev1 & Hl1 & Hc1). exists (ev0 ++ ev1).
    rewrite Hl1, Hl0, app_assoc. split_and!; [done| |].
    + apply follows_skip; [done|]. unfold follows. rewrite Hc1. split; [apply sublist_nil_l|constructor].
    + exists []. split; [done|]. rewrite called_app, Hc0, Hc1, after_timeout_now. split; [done|]. exists dl. split; [done|lia].
  - destruct (ask_log c w true w1 Ha) as (ev0 & Hl0 & Hc0 & _).
    destruct (after_call_log c (Ok v) k dur w1) as (ev1 & Hl1 & Hc1). exists (ev0 ++ ev1).
    assert (called (ev0 ++ ev1) = [(c, prepare router t request c, Ok v)]) as Hc by by rewrite called_app, Hc0, Hc1.
    rewrite Hl1, Hl0, app_assoc. split_and!; [done| |].
    + rewrite <- (app_nil_r (ev0 ++ ev1)). eapply follows_call; [exact Hc|exact Hp|apply follows_nil].
    + exists []. split; [done|]. rewrite Hc. eauto.
  - destruct (ask_log c w true w1 Ha) as (ev0 & Hl0 & Hc0 & _).
    destruct (after_call_log c (Err e) k dur w1) as (ev1 & Hl1 & Hc1). exists (ev0 ++ ev1).
    assert (called (ev0 ++ ev1) = [(c, prepare router t request c, Err e)]) as Hc by by rewrite called_app, Hc0, Hc1.
    rewrite Hl1, Hl0, app_assoc. split_and!; [done| |].
    + rewrite <- (app_nil_r (ev0 ++ ev1)). eapply follows_call; [exact Hc|exact Hp|apply follows_nil].
    + exists []. split; [done|]. rewrite Hc. eauto.
  - destruct (ask_log c w true w1 Ha) as (ev0 & Hl0 & Hc0 & _).
    destruct (after_call_log c (Err e) k dur w1) as (ev1 & Hl1 & Hc1). exists ((ev0 ++ ev1) ++ evs).
    assert (called (ev0 ++ ev1) = [(c, prepare router t request c, Err e)]) as Hc by by rewrite called_app, Hc0, Hc1.
    rewrite Hlog, Hl1, Hl0, !app_assoc. split_and!; [done| |].
    + by eapply follows_call.
    + by eapply ended_call.
Qed.

(** A run never ends after the deadline. *)
Lemma runs_deadline cs le n w r w' dl :
  runs cs le n w r w' -> deadline t = Some dl -> now w' <= Z.max (now w) dl.
Proof.
  assert (forall c ok (w : World T), now (report router c ok w) = now w) as Hr.
  { intros. unfold report. by destruct (breaker_cfg router). }
  intros H Hd. induction H as [ | | |? ? ? ? ? ? ? ? ? ? ? Ha|? ? ? ? ? ? ? dl' ? ? ? Ha
    |? ? ? ? ? ? ? ? ? ? ? ? Ha Ht|? ? ? ? ? ? ? ? ? ? ? ? Ha Ht|? ? ? ? ? ? ? ? ? ? ? ? ? ? Ha Ht _ ? IH]; try lia.
  - apply ask_now in Ha as [Hn _]. lia.
  - unfold after_timeout. destruct report_timeout; rewrite ?Hr; cbn [now]; simplify_eq; lia.
  - unfold after_call. rewrite Hr. cbn [now]. specialize (Ht dl Hd). lia.
  - unfold after_call. rewrite Hr. cbn [now]. specialize (Ht dl Hd). lia.
  - unfold after_call in IH. rewrite Hr in IH. cbn [now] in IH. specialize (Ht dl Hd). lia.
Qed.

(** *** The breakers along a run *)

(** The operations of the breaker with key [k] among the events, the answers it
    gave, and the admissions not reported yet. *)
Definition breaker_events (k : bytes) (evs : list (LogEvent T)) : list Breaker.Event :=
  omap (fun ev => match ev with
                  | Asked k' at_ _ => if bool_decide (k' = k) then Some (Breaker.CanExecute at_) else None
                  | Reported k' at_ ok => if bool_decide (k' = k) then Some (Breaker.OnExecution at_ ok) else None
                  | _ => None
                  end) evs.

Definition answers (k : bytes) (evs : list (LogEvent T)) : list (option bool) :=
  omap (fun ev => match ev with
                  | Asked k' _ ok => if bool_decide (k' = k) then Some (Some ok) else None
                  | Reported k' _ _ => if bool_decide (k' = k) then Some None else None
                  | _ => None
                  end) evs.

Definition unreported (k : bytes) (evs : list (LogEvent T)) : Z :=
  foldr Z.add 0 (map (fun ev => match ev with
                                | Asked k' _ true => if bool_decide (k' = k) then 1 else 0
                                | Reported k' _ _ => if bool_decide (k' = k) then -1 else 0
                                | _ => 0
                                end) evs).

Definition state_of (k : bytes) (w : World T) : Breaker.State := default Breaker.new (breakers w !! k).

(** The events explain how each breaker got from [w] to [w']. *)
Definition tracks (cfg : Breaker.CircuitBreakerConfig) (w : World T) (evs : list (LogEvent T)) (w' : World T) : Prop :=
  log w' = log w ++ evs /\
  forall k, Breaker.run cfg (state_of k w) (breaker_events k evs) = (state_of k w', answers k evs).

Lemma tracks_app cfg w e1 w1 e2 w2 : tracks cfg w e1 w1 -> tracks cfg w1 e2 w2 -> tracks cfg w (e1 ++ e2) w2.
Proof.
  intros [L1 H1] [L2 H2]. split; [by rewrite L2, L1, app_assoc|]. intros k.
  unfold breaker_events, answers. rewrite !omap_app. fold (breaker_events k e1) (breaker_events k e2).
  fold (answers k e1) (answers k e2). by rewrite run_app, H1, H2.
Qed.

Lemma unreported_app k e1 e2 : unreported k (e1 ++ e2) = unreported k e1 + unreported k e2.
Proof. unfold unreported. rewrite map_app. induction (map _ e1) as [|x l IH]; simpl; [done|]. lia. Qed.

Lemma state_of_set k c s (w : World T) :
  state_of k (set_breaker c s w) = if bool_decide (breaker_key c = k) then s else state_of k w.
Proof.
  unfold state_of, set_breaker. cbn [breakers]. case_bool_decide as E.
  - by rewrite E, lookup_insert_eq.
  - by rewrite lookup_insert_ne.
Qed.

Context (cfg : Breaker.CircuitBreakerConfig) (Hcfg : breaker_cfg router = Some cfg).

Lemma ask_tracks c (w : World T) ok w1 :
  ask router c w = (ok, w1) ->
  tracks cfg w [Asked (breaker_key c) (now w) ok] w1.
Proof.
  unfold ask. rewrite Hcfg. destruct (Breaker.can_execute cfg (now w) (breaker_for c w)) as [o s] eqn:E.
  intros [= <- <-]. split; [done|]. intros k. unfold breaker_events, answers. cbn [omap list_omap].
  unfold record. change (state_of k (mkWorld _ _ _ _)) with (state_of k (set_breaker c s w)).
  rewrite state_of_set. case_bool_decide as Ek; [|done]. subst k.
  unfold breaker_for in E. fold (state_of (breaker_key c) w) in E. simpl. by rewrite E.
Qed.

Lemma report_tracks c ok (w : World T) :
  tracks cfg w [Reported (breaker_key c) (now w) ok] (report router c ok w).
Proof.
  unfold report. rewrite Hcfg. split; [done|]. intros k. unfold breaker_events, answers. cbn [omap list_omap].
  unfold record. change (state_of k (mkWorld _ _ ?m _)) with (default Breaker.new (m !! k)).
  change (default Breaker.new (breakers (set_breaker c ?s w) !! k)) with (state_of k (set_breaker c s w)).
  rewrite state_of_set. case_bool_decide as Ek; [|done]. subst k. reflexivity.
Qed.

(** A world that differs in the clock and in log entries of calls only. *)
Lemma call_tracks tm n ev (w : World T) :
  (forall k, breaker_events k [ev] = [] /\ answers k [ev] = []) ->
  tracks cfg w [ev] (mkWorld tm n (breakers w) (log w ++ [ev])).
Proof. intros H. split; [done|]. intros k. destruct (H k) as [-> ->]. done. Qed.

Lemma after_call_tracks c r k dur (w : World T) :
  exists at_, tracks cfg w [Called c (prepare router t request c) r; Reported (breaker_key c) at_ (is_ok r)]
    (after_call c r k dur w).
Proof.
  unfold after_call. eexists. eapply (tracks_app _ _ [_]); [|apply report_tracks].
  by apply call_tracks.
Qed.

Lemma after_timeout_tracks c k dl (w : World T) :
  exists at_, tracks cfg w
    (TimedOut c (prepare router t request c) ::
     if report_timeout then [Reported (breaker_key c) at_ false] else [])
    (after_timeout c k dl w).
Proof.
  unfold after_timeout. destruct report_timeout.
  - eexists. eapply (tracks_app _ _ [_]); [|apply report_tracks]. by apply call_tracks.
  - exists 0. by apply call_tracks.
Qed.

Lemma unreported_block k c n1 n2 ok ev :
  unreported k [ev] = 0 ->
  unreported k [Asked (breaker_key c) n1 true; ev; Reported (breaker_key c) n2 ok] = 0.
Proof.
  intros H. unfold unreported in *. cbn [map foldr] in *. case_bool_decide; lia.
Qed.

Lemma runs_tracks cs le n w r w' :
  runs cs le n w r w' ->
  exists evs, tracks cfg w evs w' /\ (report_timeout = true -> forall k, unreported k evs = 0).
Proof.
  assert (forall w : World T, tracks cfg w [] w) as Hnil by (intros; split; [by rewrite app_nil_r|done]).
  induction 1 as [le n w|c cs le n w dl Hd Hl|c cs le n w r w' Hin Hp _ IH
    |c cs le n w w1 r w' p Hin Hp Ha _ (evs & Ht & Hb)|c cs le n w w1 k dl p Hin Hp Ha Hd
    |c cs le n w w1 k dur p v Hin Hp Ha Ht|c cs le n w w1 k dur p e Hin Hp Ha Ht Hr
    |c cs le n w w1 k dur p e r w' Hin Hp Ha Ht Hr _ (evs & Ht' & Hb)]; eauto.
  - exists ([Asked (breaker_key c) (now w) false] ++ evs). split.
    + eapply tracks_app; [by apply ask_tracks|done].
    + intros Hrt k. by rewrite unreported_app, Hb.
  - destruct (after_timeout_tracks c k dl w1) as [a Ha2]. eexists. split.
    + eapply tracks_app; [by apply ask_tracks|exact Ha2].
    + intros -> k'. by apply unreported_block.
  - destruct (after_call_tracks c (Ok v) k dur w1) as [a Ha2]. eexists. split.
    + eapply tracks_app; [by apply ask_tracks|exact Ha2].
    + intros _ k'. by apply unreported_block.
  - destruct (after_call_tracks c (Err e) k dur w1) as [a Ha2]. eexists. split.
    + eapply tracks_app; [by apply ask_tracks|exact Ha2].
    + intros _ k'. by apply unreported_block.
  - destruct (after_call_tracks c (Err e) k dur w1) as [a Ha2]. eexists. split.
    + eapply tracks_app; [by apply ask_tracks|]. eapply tracks_app; [exact Ha2|exact Ht'].
    + intros Hrt k'. rewrite app_assoc, unreported_app, Hb by done.
      replace (unreported k' _) with 0; [done|]. symmetry. by apply unreported_block.
Qed.

End Runs.

Lemma attempt_loop_total {T} router (call : Provider -> CompletionRequest -> nat -> option (Result T GenAiError * nat * Z))
  rt t request cs : forall le n w,
  (forall p req k, is_Some (call p req k)) ->
  is_Some (attempt_loop router call rt t request cs le n w).
Proof.
  intros le n w Hc. revert le n w. induction cs as [|c cs IH]; intros le n w; cbn [attempt_loop]; [eauto|].
  destruct (remaining t w) as [rem|e]; [|eauto].
  destruct (providers router !! c_provider c) as [p|]; [|auto].
  destruct (ask router c w) as [ok w1]. destruct ok; cbn [negb]; [|auto].
  destruct (Hc p (prepare router t request c) (calls w1)) as [[[res k] dur] ->].
  destruct (match rem with Some d => d <? dur | None => false end); [eauto|].
  destruct res as [v|e]; [eauto|]. destruct (negb (is_retryable e None)); eauto.
Qed.

Lemma call_with_retry_total router p req k :
  (forall pol, retry_policy router = Some pol -> 0 <= Retry.max_retries pol) ->
  is_Some (call_with_retry router p req k).
Proof.
  intros H. unfold call_with_retry. destruct (retry_policy router) as [pol|].
  - specialize (H pol eq_refl). unfold Retry.retry.
    destruct (retry_loop_spec pol (fun e => is_retryable e None) (fun i => fst (complete p (k + i)%nat req))
      (S (Z.to_nat (Retry.max_retries pol))) 0 []) as (j & _ & _ & ->); [done|simpl; lia|lia|lia|]. eauto.
  - destruct (complete p k req). eauto.
Qed.

(** C10 Fallback execution: [execute] always returns; it calls the candidates of the
    route in order, only on registered providers, each with the request prepared
    for its model; every call but the last failed transiently; the result is the
    first success, the first permanent error, or, when every candidate was called,
    has no provider or was refused by its breaker, [AllRoutesFailed] with the number
    of calls and the last error ([NoRoute] when there was no call); and it ends by
    the deadline of the task. *)
Theorem execute_fallback (router : DefaultRouter) (rt : Route) (t : Task) (request : CompletionRequest)
  (w : World CompletionResponse) :
  (forall pol, retry_policy router = Some pol -> 0 <= Retry.max_retries pol) ->
  exists r w' evs, execute router rt t request w = Some (r, w') /\ log w' = log w ++ evs /\
    follows router t request (attempts rt) evs /\ ended router t (attempts rt) None 0 r evs w' /\
    (forall dl, deadline t = Some dl -> now w' <= Z.max (now w) dl).
Proof.
  intros H. destruct (attempt_loop_total router (call_with_retry router) true t request (attempts rt) None 0 w
    (fun p req k => call_with_retry_total router p req k H)) as [[r w'] E].
  pose proof (attempt_loop_runs _ _ _ _ _ _ _ _ _ _ _ E) as Hr.
  destruct (runs_ended _ _ _ _ _ _ _ _ _ _ Hr) as (evs & Hl & Hf & He).
  exists r, w', evs. split_and!; [done|done|done|done|]. intros dl Hd. by eapply runs_deadline.
Qed.

(** C28 Breakers in a run: each per-model breaker goes through exactly the transitions
    of the circuit breaker component on the questions and reports the run makes,
    with the answers the run acts on, and every admitted call is reported to its
    breaker exactly once, also when it runs into the deadline. *)
Theorem execute_breakers (router : DefaultRouter) (cfg : Breaker.CircuitBreakerConfig) (rt : Route) (t : Task)
  (request : CompletionRequest) (w w' : World CompletionResponse) (r : Result CompletionResponse RouterError) :
  breaker_cfg router = Some cfg -> execute router rt t request w = Some (r, w') ->
  exists evs, tracks cfg w evs w' /\ forall k, unreported k evs = 0.
Proof.
  intros Hc E. apply attempt_loop_runs in E.
  destruct (runs_tracks _ _ _ _ _ Hc _ _ _ _ _ _ E) as (evs & Ht & Hb). eauto.
Qed.

(** *** A concrete router *)

Definition ok_response : CompletionResponse := mkResponse (b!"m") (mkMessage Assistant None [Text (b!"hi")]) None None.

(** A provider whose first call fails with the given status. *)
Definition flaky (n : bytes) (status dur : Z) : Provider :=
  mkProvider n [model_new n (b!"m")]
    (fun k _ => (if (k =? 0)%nat then Err (Api status (b!"x")) else Ok ok_response, dur))
    (fun k _ => (Ok [], dur)).

Definition sample_breaker : Breaker.CircuitBreakerConfig := Breaker.mkConfig 1 1 1 10.

Definition sample_router : DefaultRouter :=
  mkRouter (provider_set [flaky (b!"a") 503 50; flaky (b!"b") 503 50]) [] capability_strategy
    None (Some sample_breaker) 2.

Definition sample_route : Route :=
  mkRoute (mkCandidate (b!"a") (b!"m") f64_zero f64_zero) [mkCandidate (b!"b") (b!"m") f64_zero f64_zero].

Definition sample_task (dl : option Z) : Task := mkTask None [] 0 0 f64_zero Quality [] None dl.

Definition sample_request : CompletionRequest := request_new [] [message_user (b!"q")].

Lemma execute_fallback_witness :
  exists r w', execute sample_router sample_route (sample_task (Some 500)) sample_request
    (mkWorld 100 0 ∅ []) = Some (r, w') /\ r = Ok ok_response /\ now w' <= 500.
Proof.
  destruct (execute_fallback sample_router sample_route (sample_task (Some 500)) sample_request
    (mkWorld 100 0 ∅ [])) as (r & w' & evs & H & _ & _ & _ & Hd); [done|].
  exists r, w'. split_and!; [done| |]; [|by apply (Hd 500)].
  assert (option_map fst (execute sample_router sample_route (sample_task (Some 500)) sample_request
    (mkWorld 100 0 ∅ [])) = Some (Ok ok_response)) as E by (vm_compute; reflexivity).
  rewrite H in E. simpl in E. congruence.
Defined.

Lemma execute_breakers_witness :
  match execute sample_router sample_route (sample_task (Some 120)) sample_request
    (mkWorld 100 0 {[ b!"a/m" := Breaker.trip 0 Breaker.new ]} []) with
  | Some (r, w') => r = Err DeadlineExceeded /\ exists evs, forall k, unreported (T := CompletionResponse) k evs = 0
  | None => False
  end.
Proof.
  destruct (execute sample_router sample_route (sample_task (Some 120)) sample_request
    (mkWorld 100 0 {[ b!"a/m" := Breaker.trip 0 Breaker.new ]} [])) as [[r w']|] eqn:E.
  - split; [vm_compute in E; congruence|].
    destruct (execute_breakers sample_router sample_breaker sample_route (sample_task (Some 120)) sample_request
      (mkWorld 100 0 {[ b!"a/m" := Breaker.trip 0 Breaker.new ]} []) w' r eq_refl E) as (evs & _ & H).
    by exists evs.
  - vm_compute in E. discriminate E.
Defined.

(** *** The streaming path leaks its probe *)

(** With all half-open slots taken, a breaker nobody reports to rejects forever. *)
Lemma full_half_open_rejects cfg s times :
  Breaker.circuit s = Breaker.HalfOpen -> Breaker.max_half_open cfg <= Breaker.half_open_in_flight s ->
  Breaker.run cfg s (map Breaker.CanExecute times) = (s, map (fun _ => Some false) times).
Proof.
  intros Hc Hm. induction times as [|tm times IH]; [done|]. cbn [map Breaker.run Breaker.step].
  unfold Breaker.can_execute. rewrite Hc. destruct (Z.ltb_spec (Breaker.half_open_in_flight s) (Breaker.max_half_open cfg)); [lia|].
  by rewrite IH.
Qed.

(** A streaming call that probes a half-open breaker and runs into the deadline is
    never reported: the slot stays taken, and the breaker refuses every later
    call, whereas the same run of [execute] reports the failure. *)
Lemma stream_timeout_leaks_probe :
  let w0 := mkWorld 100 0 {[ b!"a/m" := Breaker.trip 0 Breaker.new ]} [] in
  exists w', execute_stream sample_router sample_route (sample_task (Some 120)) sample_request w0
             = Some (Err DeadlineExceeded, w') /\
    unreported (b!"a/m") (log w') = 1 /\
    forall times, snd (Breaker.run sample_breaker (state_of (b!"a/m") w') (map Breaker.CanExecute times))
                  = map (fun _ => Some false) times.
Proof.
  intros w0. eexists. split; [vm_compute; reflexivity|]. split; [vm_compute; reflexivity|].
  intros times. by rewrite full_half_open_rejects.
Qed.

(** ** Ranking by capability *)

(** The hard filter: every required capability, the input limit, the budget. *)
Definition admits (t : Task) (m : ModelInfo) : Prop :=
  (forall c, c ∈ required t -> c ∈ capabilities m) /\
  (0 < est_input_tokens t -> 0 < max_input_tokens m -> est_input_tokens t <= max_input_tokens m) /\
  (F64.ltb f64_zero (max_cost_usd t) = true ->
   F64.ltb (max_cost_usd t) (est_cost m (est_input_tokens t) (out_estimate t)) = false).

Lemma satisfies_spec m req : satisfies m req = true <-> forall c, c ∈ req -> c ∈ capabilities m.
Proof.
  unfold satisfies, has. rewrite forallb_forall. split; intros H c Hc.
  - specialize (H c). rewrite list_elem_of_In in Hc. by apply H, bool_decide_eq_true in Hc.
  - apply bool_decide_eq_true, H. by apply list_elem_of_In.
Qed.

Lemma reject_reason_spec t m : reject_reason m t (out_estimate t) = None <-> admits t m.
Proof.
  unfold reject_reason, admits. rewrite <- satisfies_spec.
  destruct (satisfies m (required t)); cbn [negb]; [|naive_solver].
  destruct (Z.ltb_spec 0 (est_input_tokens t)), (Z.ltb_spec 0 (max_input_tokens m)),
    (Z.ltb_spec (max_input_tokens m) (est_input_tokens t)); cbn [andb];
    try (split; [done|]; intros (_ & Hl & _); lia).
  all: destruct (F64.ltb f64_zero (max_cost_usd t)) eqn:Eb; cbn [andb];
    [destruct (F64.ltb (max_cost_usd t) (est_cost m (est_input_tokens t) (out_estimate t)))|];
    split; intros Hx; try (split_and!; (done || lia)); naive_solver.
Qed.

Definition accepted (t : Task) (m : ModelInfo) : bool := bool_decide (reject_reason m t (out_estimate t) = None).

Lemma capability_loop_spec t ms : forall cs xs,
  capability_loop t ms cs xs =
  (cs ++ map (capability_candidate t) (List.filter (accepted t) ms),
   xs ++ omap (fun m => mkExclusion (provider m) (name m) <$> reject_reason m t (out_estimate t)) ms).
Proof.
  induction ms as [|m ms IH]; intros cs xs; cbn [capability_loop List.filter map omap list_omap].
  { by rewrite !app_nil_r. }
  unfold accepted at 1. destruct (reject_reason m t (out_estimate t)) as [why|]; rewrite IH.
  - rewrite bool_decide_false by done. cbn [fmap option_fmap option_map]. by rewrite <- app_assoc.
  - rewrite bool_decide_true by done. cbn [map fmap option_fmap option_map]. by rewrite <- app_assoc.
Qed.

(** *** The comparator is a total order on scores that are numbers *)

Definition neg_key (k : Z * (Z * Z)) : Z * (Z * Z) := (- k.1, (- k.2.1, - k.2.2)).

Lemma neg_key_cmp k1 k2 : cmp (neg_key k1) (neg_key k2) = cmp k2 k1.
Proof.
  destruct k1 as [a [b c]], k2 as [a' [b' c']]. unfold neg_key. cbn [fst snd]. rewrite !cmp_pair.
  unfold cmp, Z_cmp. by rewrite !Z.compare_opp.
Qed.

Definition rank_key (c : Candidate) : Z * (Z * Z) * bytes * bytes :=
  (neg_key (float_key (c_score c)), c_provider c, c_model c).

Definition number (c : Candidate) : Prop := F64.is_nan (c_score c) = false.

Lemma candidate_cmp_key a b : number a -> number b -> candidate_cmp a b = cmp (rank_key a) (rank_key b).
Proof.
  intros Ha Hb. unfold candidate_cmp, F64.partial_cmp. rewrite float_cmp_key by done.
  cbn [default]. unfold rank_key. rewrite !cmp_pair, neg_key_cmp. done.
Qed.

Lemma candidates_sorted cs : Forall number cs -> StronglySorted (le_by candidate_cmp) (sort_by candidate_cmp cs).
Proof.
  apply sort_by_sorted.
  - intros x y Hx Hy. rewrite !candidate_cmp_key by done. apply cmp_opp.
  - intros x y z Hx Hy Hz. unfold le_by. rewrite !candidate_cmp_key by done. apply cmp_le_trans.
Qed.

(** A candidate that precedes another does not score less. *)
Lemma le_by_score a b : number a -> number b -> le_by candidate_cmp a b -> F64.ltb (c_score a) (c_score b) = false.
Proof.
  intros Ha Hb. unfold le_by, candidate_cmp, F64.ltb, SpecFloat.SFltb, F64.partial_cmp.
  rewrite (float_cmp_key (c_score b)), (float_cmp_key (c_score a)) by done. cbn [default].
  rewrite (cmp_opp (float_key (c_score a)) (float_key (c_score b))).
  by destruct (cmp (float_key (c_score a)) (float_key (c_score b))).
Qed.

(** C38 Routing by capability: on a registry whose scores are numbers, a task that is
    not pinned resolves to an error exactly when no model passes the hard filter
    (capabilities, input limit, budget); otherwise the attempts are the first
    [1 + fallback_depth] of all passing models, each once, best score first, so no
    model is attempted that the task rules out and none scores better than the
    primary; every other model is recorded as excluded. *)
Theorem capability_routing (r : DefaultRouter) (t : Task) :
  strategy r = capability_strategy -> pin t = None ->
  Forall (fun m => number (capability_candidate t m)) (reg_all (registry r)) ->
  match resolve_inner r t with
  | Err e => (exists why, e = NoRoute why) /\ forall m, m ∈ reg_all (registry r) -> ~ admits t m
  | Ok (rt, d) =>
      exists ms, ms ≡ₚ List.filter (accepted t) (reg_all (registry r)) /\
        (forall m, m ∈ ms <-> m ∈ reg_all (registry r) /\ admits t m) /\
        considered d = map (capability_candidate t) ms /\
        attempts rt = take (S (fallback_depth r)) (considered d) /\
        StronglySorted (fun a b => F64.ltb (c_score a) (c_score b) = false) (considered d) /\
        length (considered d) + length (d_excluded d) = length (reg_all (registry r))
  end%nat.
Proof.
  intros Hs Hp Hn. unfold resolve_inner. rewrite Hp, Hs. cbn [capability_strategy rank s_name].
  rewrite capability_loop_spec. cbn [app candidates excluded].
  set (all := reg_all (registry r)) in *. set (ok := List.filter (accepted t) all).
  assert (forall m, m ∈ ok <-> m ∈ all /\ admits t m) as Hok.
  { intros m. unfold ok. rewrite !list_elem_of_In, filter_In. unfold accepted.
    by rewrite bool_decide_eq_true, reject_reason_spec. }
  assert (Forall number (map (capability_candidate t) ok)) as Hnum.
  { apply Forall_map, Forall_forall. intros m Hm. rewrite Forall_forall in Hn. apply Hn, Hok, Hm. }
  pose proof (candidates_sorted _ Hnum) as Hsort. pose proof (sort_by_perm candidate_cmp (map (capability_candidate t) ok)) as Hperm.
  destruct (sort_by candidate_cmp (map (capability_candidate t) ok)) as [|c cs] eqn:E.
  - split; [eauto|]. intros m Hm Ha. apply Permutation_nil_l in Hperm.
    assert (m ∈ ok) as Hin by by apply Hok. destruct ok; [set_solver|done].
  - assert (c :: cs ≡ₚ map (capability_candidate t) ok) as Hp2 by done.
    destruct (Permutation_map_inv _ _ Hp2) as (ms & Hms & Hmp).
    exists ms. cbn [considered d_excluded]. split_and!.
    + done.
    + intros m. rewrite <- Hok. by rewrite Hmp.
    + done.
    + done.
    + assert (Forall number (c :: cs)) as Hnc by by rewrite Hp2.
      clear - Hsort Hnc. induction Hsort as [|x l Hl IH Hx]; [constructor|].
      apply Forall_cons in Hnc as [Hnx Hnl]. constructor; [by apply IH|].
      rewrite Forall_forall in Hx, Hnl |- *. intros y Hy. apply le_by_score; auto.
    + rewrite Hp2, length_map. unfold ok. clear.
      induction all as [|m all IH]; cbn [List.filter omap list_omap length]; [done|].
      unfold accepted at 1. destruct (reject_reason m t (out_estimate t)); cbn [fmap option_fmap option_map].
      * rewrite bool_decide_false by done. cbn [length]. lia.
      * rewrite bool_decide_true by done. cbn [length]. lia.
Qed.

Definition full_registry : Registry := foldl add_base [] (openai_catalog ++ claude_catalog ++ ollama_catalog).

Definition vision_task : Task := mkTask (Some Chat) [] 150000 0 f64_zero Cost [CapVision] None None.

Lemma capability_routing_witness :
  exists rt d, resolve_inner (router_new ∅ full_registry) vision_task = Ok (rt, d) /\
    c_model (primary rt) = b!"claude-sonnet-5" /\ fallbacks rt = [] /\
    (length (considered d) + length (d_excluded d) = 7)%nat.
Proof.
  assert (Forall (fun m => number (capability_candidate vision_task m)) full_registry.*2) as Hn.
  { repeat (constructor; [vm_compute; reflexivity|]). constructor. }
  pose proof (capability_routing (router_new ∅ full_registry) vision_task eq_refl eq_refl Hn) as H.
  destruct (resolve_inner (router_new ∅ full_registry) vision_task) as [[rt d]|e] eqn:E.
  - destruct H as (ms & _ & _ & _ & _ & _ & Hlen). exists rt, d. split; [done|].
    split_and!; [| |exact Hlen]; vm_compute in E; by inversion E.
  - vm_compute in E. discriminate E.
Defined.

(** ** The registry *)

(** What the overlay says of one model. *)
Definition same_key (k : bytes) (p m : bytes) : bool := bool_decide (key p m = k).

Definition base_model (k : bytes) (ms : list ModelInfo) : option ModelInfo :=
  foldl (fun acc m => if same_key k (provider m) (name m) then Some m else acc) None ms.

Definition overridden (k : bytes) (ovs : list CostOverride) (m : ModelInfo) : ModelInfo :=
  foldl (fun m ov => if same_key k (ov_provider ov) (ov_model ov) then with_cost (ov_input ov) (ov_output ov) m else m) m ovs.

Definition stripped (k : bytes) (dcs : list DisabledCaps) (m : ModelInfo) : ModelInfo :=
  foldl (fun m dc => if same_key k (dc_provider dc) (dc_model dc) then strip_capabilities dc m else m) m dcs.

Definition disabled (k : bytes) (ds : list ModelRef) : bool :=
  existsb (fun d => same_key k (ref_provider d) (ref_model d)) ds.

Definition custom_model (k : bytes) (cms : list CustomModel) : option ModelInfo :=
  foldl (fun acc cm => if same_key k (cm_provider cm) (cm_name cm) then Some (to_model_info cm) else acc) None cms.

Definition registry_spec (set : ProviderSet) (cfg : RoutingConfig) (k : bytes) : option ModelInfo :=
  match custom_model k (custom_models cfg) with
  | Some m => Some m
  | None =>
      if disabled k (disabled_models cfg) then None
      else (fun m => stripped k (disabled_capabilities cfg) (overridden k (cost_overrides cfg) m))
           <$> base_model k (flat_map model_catalog (set_all set))
  end.

Lemma cmp_same_key k p m {A} (x y : A) :
  match cmp k (key p m) with Eq => x | _ => y end = if same_key k p m then x else y.
Proof.
  unfold same_key. pose proof (cmp_eq k (key p m)) as H.
  case_bool_decide as E; destruct (cmp k (key p m)); naive_solver.
Qed.

(** One step of each kind, folded. *)
Lemma get_base ms : forall r k, BTreeMap.wf r ->
  BTreeMap.wf (foldl add_base r ms) /\
  BTreeMap.get k (foldl add_base r ms) =
  foldl (fun acc m => if same_key k (provider m) (name m) then Some m else acc) (BTreeMap.get k r) ms.
Proof.
  induction ms as [|m ms IH]; intros r k Hr; cbn [foldl]; [done|]. unfold add_base at 2 4.
  destruct (IH (BTreeMap.insert (key (provider m) (name m)) m r) k) as [H1 ->]; [by apply BTreeMap.insert_wf|].
  split; [done|]. by rewrite BTreeMap.get_insert, cmp_same_key.
Qed.

Lemma get_overrides ovs : forall r k, BTreeMap.wf r ->
  BTreeMap.wf (foldl override_cost r ovs) /\
  BTreeMap.get k (foldl override_cost r ovs) = overridden k ovs <$> BTreeMap.get k r.
Proof.
  induction ovs as [|ov ovs IH]; intros r k Hr; cbn [foldl overridden].
  { split; [done|]. by destruct (BTreeMap.get k r). }
  destruct (IH (override_cost r ov) k) as [H1 ->]; [by apply BTreeMap.update_wf|]. split; [done|].
  unfold override_cost. rewrite BTreeMap.get_update, cmp_same_key.
  destruct (same_key k (ov_provider ov) (ov_model ov)) eqn:E; destruct (BTreeMap.get k r); simpl; unfold overridden; simpl; by rewrite ?E.
Qed.

Lemma get_stripped dcs : forall r k, BTreeMap.wf r ->
  BTreeMap.wf (foldl disable_capabilities r dcs) /\
  BTreeMap.get k (foldl disable_capabilities r dcs) = stripped k dcs <$> BTreeMap.get k r.
Proof.
  induction dcs as [|dc dcs IH]; intros r k Hr; cbn [foldl stripped].
  { split; [done|]. by destruct (BTreeMap.get k r). }
  destruct (IH (disable_capabilities r dc) k) as [H1 ->]; [by apply BTreeMap.update_wf|]. split; [done|].
  unfold disable_capabilities. rewrite BTreeMap.get_update, cmp_same_key.
  destruct (same_key k (dc_provider dc) (dc_model dc)) eqn:E; destruct (BTreeMap.get k r); simpl; unfold stripped; simpl; by rewrite ?E.
Qed.

Lemma get_disabled ds : forall r k, BTreeMap.wf r ->
  BTreeMap.wf (foldl disable_model r ds) /\
  BTreeMap.get k (foldl disable_model r ds) = if disabled k ds then None else BTreeMap.get k r.
Proof.
  induction ds as [|d ds IH]; intros r k Hr; cbn [foldl disabled existsb]; [done|].
  destruct (IH (disable_model r d) k) as [H1 ->]; [by apply BTreeMap.remove_wf|]. split; [done|].
  unfold disable_model. rewrite BTreeMap.get_remove, cmp_same_key by done. fold (disabled k ds).
  by destruct (same_key k (ref_provider d) (ref_model d)), (disabled k ds).
Qed.

Lemma custom_fold k cms acc :
  foldl (fun acc cm => if same_key k (cm_provider cm) (cm_name cm) then Some (to_model_info cm) else acc) acc cms
  = match custom_model k cms with Some m => Some m | None => acc end.
Proof.
  unfold custom_model. induction cms as [|cm cms IH] using rev_ind; [done|].
  rewrite !foldl_app. simpl. rewrite IH. by destruct (same_key k (cm_provider cm) (cm_name cm)).
Qed.

Lemma add_customs_spec set cms : forall r,
  BTreeMap.wf r ->
  match add_customs set cms r with
  | Ok r' => Forall (fun cm => set_contains set (cm_provider cm) = true) cms /\ BTreeMap.wf r' /\
      forall k, BTreeMap.get k r' = foldl (fun acc cm => if same_key k (cm_provider cm) (cm_name cm)
                                           then Some (to_model_info cm) else acc) (BTreeMap.get k r) cms
  | Err e => (exists m, e = RConfig m) /\ Exists (fun cm => set_contains set (cm_provider cm) = false) cms
  end.
Proof.
  induction cms as [|cm cms IH]; intros r Hr; cbn [add_customs foldl]; [by split_and!|].
  destruct (set_contains set (cm_provider cm)) eqn:E; cbn [negb].
  - specialize (IH (BTreeMap.insert (key (cm_provider cm) (cm_name cm)) (to_model_info cm) r)
      (BTreeMap.insert_wf _ _ _ Hr)). destruct (add_customs _ _ _) as [r'|e].
    + destruct IH as (H1 & H2 & H3). split_and!; [by constructor|done|]. intros k. rewrite H3.
      by rewrite BTreeMap.get_insert, cmp_same_key.
    + destruct IH as [H1 H2]. split; [done|]. by right.
  - split; [eauto|]. by left.
Qed.

(** Registry: building it fails exactly when a custom model names a provider that
    is not registered; otherwise the map stays in key order and the entry of every
    model is what the overlay documents, later entries winning: the last custom
    definition, else nothing when the model is disabled, else the last catalog entry
    with the cost overrides applied and then the declined capabilities removed. *)
Theorem registry_overlay (set : ProviderSet) (cfg : RoutingConfig) :
  match build_registry set cfg with
  | Ok r => Forall (fun cm => is_Some (set !! cm_provider cm)) (custom_models cfg) /\ BTreeMap.wf r /\
      forall p m, reg_get r p m = registry_spec set cfg (key p m)
  | Err e => (exists m, e = RConfig m) /\ Exists (fun cm => set !! cm_provider cm = None) (custom_models cfg)
  end.
Proof.
  unfold build_registry.
  destruct (get_base (flat_map model_catalog (set_all set)) [] [] ltac:(constructor)) as [W1 _].
  destruct (get_overrides (cost_overrides cfg) _ [] W1) as [W2 _].
  destruct (get_stripped (disabled_capabilities cfg) _ [] W2) as [W3 _].
  destruct (get_disabled (disabled_models cfg) _ [] W3) as [W4 _].
  pose proof (add_customs_spec set (custom_models cfg) _ W4) as H.
  destruct (add_customs _ _ _) as [r|e].
  - destruct H as (H1 & H2 & H3). split_and!; [|done|].
    + eapply Forall_impl; [exact H1|]. intros cm Hc. by apply bool_decide_eq_true in Hc.
    + intros p m. unfold reg_get, registry_spec. rewrite H3, custom_fold.
      destruct (custom_model (key p m) (custom_models cfg)); [done|].
      rewrite (proj2 (get_disabled _ _ _ W3)), (proj2 (get_stripped _ _ _ W2)), (proj2 (get_overrides _ _ _ W1)).
      rewrite (proj2 (get_base _ [] (key p m) ltac:(constructor))). cbn [BTreeMap.get].
      fold (base_model (key p m) (flat_map model_catalog (set_all set))).
      by destruct (base_model _ _).
  - destruct H as [H1 H2]. split; [done|]. eapply Exists_impl; [exact H2|]. simpl.
    intros cm Hc. apply bool_decide_eq_false in Hc. by apply eq_None_not_Some.
Qed.

(** ** Prepared requests *)

Lemma prepare_spec router t request c info n :
  reg_get (registry router) (c_provider c) (c_model c) = Some info -> 0 < max_output_tokens info ->
  max_tokens (options request) = Some n ->
  max_tokens (options (prepare router t request c)) = Some (Z.min n (max_output_tokens info)) /\
  model (prepare router t request c) = c_model c /\
  messages (prepare router t request c) = messages request /\
  tools (prepare router t request c) = tools request /\
  (CapJsonMode ∈ required t -> response_format (prepare router t request c) <> None) /\
  (response_format request <> None -> response_format (prepare router t request c) = response_format request).
Proof.
  intros Hi Hm Hn. unfold prepare. rewrite Hi. unfold clamp_options. cbn [options with_model]. rewrite Hn.
  rewrite (proj2 (Z.ltb_lt 0 _)) by done. cbn [andb].
  destruct (Z.ltb_spec (max_output_tokens info) n);
    [rewrite Z.min_r by lia|rewrite Z.min_l by lia];
    case_bool_decide; cbn [response_format with_options with_model];
    destruct (response_format request) eqn:E; cbn; rewrite ?E; split_and!; done.
Qed.

(** Output limit: for a candidate the registry knows with an output limit, the
    request any of the providers sends asks for the candidate's model and for
    no more tokens than the limit (exactly the caller's count when it fits), and
    carries the caller's messages and tools and, when the task needs JSON, a
    response format. *)
Theorem prepared_body_within_limit (router : DefaultRouter) (t : Task) (request : CompletionRequest)
  (c : Candidate) (info : ModelInfo) (n : Z) (stream : bool) :
  reg_get (registry router) (c_provider c) (c_model c) = Some info -> 0 < max_output_tokens info ->
  max_tokens (options request) = Some n ->
  let req := prepare router t request c in
  let lim := Value.UInt (Z.min n (max_output_tokens info)) in
  Value.get (Providers.openai_build_body req stream) (b!"max_tokens") = Some lim /\
  Value.get (Providers.claude_build_body req stream) (b!"max_tokens") = Some lim /\
  (o ← Value.get (Providers.ollama_build_body req stream) (b!"options"); Value.get o (b!"num_predict")) = Some lim /\
  Value.get (Providers.openai_build_body req stream) (b!"model") = Some (Value.Str (c_model c)) /\
  Value.get (Providers.claude_build_body req stream) (b!"model") = Some (Value.Str (c_model c)) /\
  Value.get (Providers.ollama_build_body req stream) (b!"model") = Some (Value.Str (c_model c)) /\
  messages req = messages request /\ tools req = tools request /\
  (CapJsonMode ∈ required t -> response_format req <> None).
Proof.
  intros Hi Hm Hn req lim. destruct (prepare_spec router t request c info n Hi Hm Hn) as (H1 & H2 & H3 & H4 & H5 & _).
  destruct (openai_body_fields req stream) as [-> ->], (claude_body_fields req stream) as [-> ->],
    (ollama_body_fields req stream _ H1) as [-> ->].
  unfold req, lim. rewrite H1, H2. done.
Qed.

Lemma prepared_body_within_limit_witness :
  Value.get (Providers.openai_build_body
    (prepare (router_new ∅ full_registry) vision_task
       (with_options (opt_max_tokens 99999 options_new) sample_request)
       (mkCandidate (b!"openai") (b!"gpt-4o") f64_zero f64_zero)) false) (b!"max_tokens") = Some (Value.UInt 16384).
Proof.
  refine (proj1 (prepared_body_within_limit (router_new ∅ full_registry) vision_task
    (with_options (opt_max_tokens 99999 options_new) sample_request)
    (mkCandidate (b!"openai") (b!"gpt-4o") f64_zero f64_zero)
    (catalog_entry (b!"openai") (b!"gpt-4o") (b!"GPT-4o")
     [CapText; CapChat; CapStreaming; CapVision; CapToolUse; CapJsonMode] 128000 16384 (b!"2.5") (b!"10.0"))
    99999 false _ _ _)).
  - vm_compute. reflexivity.
  - reflexivity.
  - reflexivity.
Defined.

(** ** Which failures move on to the next model *)

(** Error classification: every way a provider call can fail is one of four, and
    the router moves on to the next model exactly for a failed exchange and for
    the statuses 429 and 5xx: a bad base URL, any other status and an unreadable
    body end the route. *)
Theorem call_failures_classified {T} (disp : HttpCore.HttpError -> bytes)
  (send : HttpCore.Request -> Result (Z * Result bytes HttpCore.HttpError) HttpCore.HttpError)
  (endpoint : bytes) (hs : list (bytes * bytes)) (auth : ClientAuth.AuthProvider) (body : Value)
  (parse : Value -> Result T GenAiError) (e : GenAiError) :
  (forall v e', parse v = Err e' -> exists m, e' = ResponseParse m) ->
  Providers.finish_call disp send (Providers.provider_request disp endpoint hs auth body) parse = Err e ->
  match HttpClient.builder HttpCore.Post endpoint with
  | Err he => e = Config (disp he) /\ is_retryable e None = false
  | Ok r0 =>
      let req := auth (HttpClient.req_body (foldl (fun r h => HttpClient.req_header r h.1 h.2) r0 hs) (to_string body)) in
      match send req with
      | Err he | Ok (_, Err he) => e = Transport (disp he) /\ is_retryable e None = true
      | Ok (status, Ok text) =>
          if HttpCore.is_success status then (exists m, e = ResponseParse m) /\ is_retryable e None = false
          else e = Api status text /\
               (is_retryable e None = true <-> status = 429 \/ 500 <= status <= 599)
      end
  end.
Proof.
  intros Hp. unfold Providers.finish_call, Providers.provider_request.
  destruct (HttpClient.builder HttpCore.Post endpoint) as [r0|he]; cbn [map_err rbind]; [|by intros [= <-]].
  destruct (send _) as [[status [text|he]]|he]; cbn [map_err rbind]; [|by intros [= <-]|by intros [= <-]].
  destruct (HttpCore.is_success status) eqn:Es; cbn [negb].
  - unfold Providers.parse_json. destruct (from_str text) as [v|ce]; cbn [map_err rbind].
    + intros H. apply Hp in H as [m ->]. eauto.
    + intros [= <-]. eauto.
  - intros [= <-]. split; [done|]. cbn [is_retryable]. rewrite orb_true_iff, andb_true_iff. lia.
Qed.

Lemma claude_parse_errors v e' : Providers.claude_parse_response v = Err e' -> exists m, e' = ResponseParse m.
Proof.
  unfold Providers.claude_parse_response. destruct (Providers.get_array v _); cbn [ok_or rbind]; [done|].
  intros [= <-]. eauto.
Qed.

Lemma call_failures_classified_witness :
  is_retryable (Api 503 (b!"busy")) None = true.
Proof.
  pose proof (call_failures_classified (fun _ => []) (fun _ => Ok (503, Ok (b!"busy"))) (b!"http://localhost:1/v1/messages")
    [] (fun r => r) Value.Null Providers.claude_parse_response (Api 503 (b!"busy")) claude_parse_errors eq_refl) as H.
  apply H. right. lia.
Defined.

(** [UnknownProvider] documents a route or pin that names a provider that is not
    registered; the router answers [NoRoute] instead. *)
Example unregistered_pin_is_no_route :
  option_map fst (route sample_router
    (mkTask None [] 0 0 f64_zero Quality [] (Some (mkPin (b!"nope") (b!"m"))) None) sample_request (mkWorld 0 0 ∅ [])) =
  Some (Err (NoRoute (b!"no attemptable candidate (providers unregistered)"))).
Proof. vm_compute. reflexivity. Qed.

(** A pin does not bypass the embedding router. *)
Example embedding_pin_ignored :
  let t := mkTask None [] 0 0 f64_zero Quality [] (Some (mkPin (b!"openai") (b!"text-embedding-3-small"))) None in
  option_map (fun rt => c_model (primary rt))
    (match embedding_resolve (mkEmbedding ∅ full_registry capability_strategy 2) t with Ok rt => Some rt | Err _ => None end)
  = Some (b!"nomic-embed-text").
Proof. vm_compute. reflexivity. Qed.
