(* ===== verification/Schema.v ===== *)
(** * JSON-Schema subset validator ([codec/schema.rs])

    [validate] walks the schema and collects every violation.  The recursion
    follows sub-schemas, so the depth of the schema bounds it. *)

From S2P Require Import Prelude Text Value.

Open Scope Z_scope.

Module Schema.

Record Violation := mkViolation { path : bytes; message : bytes }.

(** [Display for Violation] *)
Definition violation_display (v : Violation) : bytes :=
  (if bool_decide (path v = []) then b!"/" else path v) ++ b!": " ++ message v.

(** [Value: PartialEq] *)
Fixpoint value_eqb (a b : Value) : bool :=
  match a, b with
  | Value.Null, Value.Null => true
  | Value.Bool x, Value.Bool y => bool_decide (x = y)
  | Value.Int x, Value.Int y => x =? y
  | Value.UInt x, Value.UInt y => x =? y
  | Value.Float x, Value.Float y => F64.eqb x y
  | Value.Str x, Value.Str y => bool_decide (x = y)
  | Value.Bytes x, Value.Bytes y => bool_decide (x = y)
  | Value.Array x, Value.Array y =>
      (fix eq (x y : list Value) {struct x} : bool :=
         match x, y with
         | [], [] => true
         | u :: x', w :: y' => value_eqb u w && eq x' y'
         | _, _ => false
         end) x y
  | Value.Object x, Value.Object y =>
      (fix eq (x y : list (bytes * Value)) {struct x} : bool :=
         match x, y with
         | [], [] => true
         | (k, u) :: x', (k', w) :: y' => bool_decide (k = k') && value_eqb u w && eq x' y'
         | _, _ => false
         end) x y
  | _, _ => false
  end.

Definition field (schema : Value) (key : bytes) : option Value := Value.get schema key.

Definition num (v : Value) : option F64.t :=
  match v with
  | Value.Int i => Some (F64.of_Z i)
  | Value.UInt u => Some (F64.of_Z u)
  | Value.Float f => Some f
  | _ => None
  end.

Definition type_matches (ty : bytes) (data : Value) : bool :=
  if bool_decide (ty = b!"string") then match data with Value.Str _ => true | _ => false end
  else if bool_decide (ty = b!"integer") then match data with Value.Int _ | Value.UInt _ => true | _ => false end
  else if bool_decide (ty = b!"number") then
    match data with Value.Int _ | Value.UInt _ | Value.Float _ => true | _ => false end
  else if bool_decide (ty = b!"boolean") then match data with Value.Bool _ => true | _ => false end
  else if bool_decide (ty = b!"object") then match data with Value.Object _ => true | _ => false end
  else if bool_decide (ty = b!"array") then match data with Value.Array _ => true | _ => false end
  else if bool_decide (ty = b!"null") then match data with Value.Null => true | _ => false end
  else true.

Definition declared_type (schema : Value) : option bytes := t ← field schema (b!"type"); Value.as_str t.

(** A numeric keyword of the schema. *)
Definition limit (schema : Value) (key : bytes) : option F64.t := v ← field schema key; num v.

(** Lower and upper bound of a quantity. *)
Definition bounds (schema : Value) (lo hi : bytes) (n : F64.t) (below above : F64.t -> bytes) : list bytes :=
  (match limit schema lo with Some min => if F64.ltb n min then [below min] else [] | None => [] end) ++
  (match limit schema hi with Some max => if F64.ltb max n then [above max] else [] | None => [] end).

Definition check_const (schema data : Value) : list bytes :=
  match field schema (b!"const") with
  | Some c => if value_eqb data c then [] else [b!"value does not equal const"]
  | None => []
  end.

Definition check_enum (schema data : Value) : list bytes :=
  match field schema (b!"enum") with
  | Some (Value.Array choices) =>
      if existsb (fun c => value_eqb c data) choices then [] else [b!"value not in enum"]
  | _ => []
  end.

Definition check_number (schema data : Value) : list bytes :=
  match num data with
  | Some n => bounds schema (b!"minimum") (b!"maximum") n
                (fun m => b!"must be >= " ++ F64.display m) (fun m => b!"must be <= " ++ F64.display m)
  | None => []
  end.

Definition check_string (schema data : Value) : list bytes :=
  match data with
  | Value.Str s =>
      bounds schema (b!"minLength") (b!"maxLength") (F64.of_Z (Z.of_nat (Utf8.char_count s)))
        (fun m => b!"length must be >= " ++ F64.display m) (fun m => b!"length must be <= " ++ F64.display m)
  | _ => []
  end.

Definition check_length (schema data : Value) : list bytes :=
  match data with
  | Value.Array items =>
      bounds schema (b!"minItems") (b!"maxItems") (F64.of_Z (Z.of_nat (length items)))
        (fun m => b!"must have >= " ++ F64.display m ++ b!" items") (fun m => b!"must have <= " ++ F64.display m ++ b!" items")
  | _ => []
  end.

Definition check_required (schema data : Value) : list bytes :=
  match data with
  | Value.Object _ =>
      match field schema (b!"required") with
      | Some (Value.Array req) =>
          omap (fun key => match Value.as_str key with
                           | Some k => match Value.get data k with
                                       | None => Some (b!"missing required property '" ++ k ++ b!"'")
                                       | Some _ => None
                                       end
                           | None => None
                           end) req
      | _ => []
      end
  | _ => []
  end.

(** The keywords that look at the value alone, in the order of the code. *)
Definition check_here (schema data : Value) : list bytes :=
  check_const schema data ++ check_enum schema data ++ check_number schema data ++
  check_string schema data ++ check_length schema data ++ check_required schema data.

(** A loop that may run out of fuel. *)
Fixpoint each {A} (f : nat -> A -> list Violation -> option (list Violation)) (i : nat) (l : list A)
  (out : list Violation) : option (list Violation) :=
  match l with
  | [] => Some out
  | x :: l' => match f i x out with Some out' => each f (S i) l' out' | None => None end
  end.

Fixpoint check (fuel : nat) (schema data : Value) (p : bytes) (out : list Violation) : option (list Violation) :=
  match fuel with
  | O => None
  | S fuel' =>
      let descend (out : list Violation) :=
        let out := out ++ map (mkViolation p) (check_here schema data) in
        match data with
        | Value.Array items =>
            match field schema (b!"items") with
            | Some item_schema =>
                each (fun i elem => check fuel' item_schema elem (p ++ b!"/" ++ show_uint (Z.of_nat i))) 0 items out
            | None => Some out
            end
        | Value.Object _ =>
            match field schema (b!"properties") with
            | Some (Value.Object props) =>
                each (fun _ ks out =>
                  match Value.get data ks.1 with
                  | Some value => check fuel' ks.2 value (p ++ b!"/" ++ ks.1) out
                  | None => Some out
                  end) 0 props out
            | _ => Some out
            end
        | _ => Some out
        end in
      match declared_type schema with
      | Some ty => if negb (type_matches ty data)
                   then Some (out ++ [mkViolation p (b!"expected type '" ++ ty ++ b!"'")])
                   else descend out
      | None => descend out
      end
  end.

Definition validate (schema data : Value) : option (Result unit (list Violation)) :=
  match check (S (Value.depth schema)) schema data [] [] with
  | None => None
  | Some [] => Some (Ok tt)
  | Some out => Some (Err out)
  end.

(** ** What a schema means *)

(** [n] is within the bounds the schema gives under two keywords. *)
Definition within (schema : Value) (lo hi : bytes) (n : F64.t) : Prop :=
  (forall m, limit schema lo = Some m -> F64.ltb n m = false) /\
  (forall m, limit schema hi = Some m -> F64.ltb m n = false).

Inductive conforms : Value -> Value -> Prop :=
| conforms_intro schema data :
    (forall ty, declared_type schema = Some ty -> type_matches ty data = true) ->
    (forall c, field schema (b!"const") = Some c -> value_eqb data c = true) ->
    (forall cs, field schema (b!"enum") = Some (Value.Array cs) -> exists c, c ∈ cs /\ value_eqb c data = true) ->
    (forall n, num data = Some n -> within schema (b!"minimum") (b!"maximum") n) ->
    (forall s, data = Value.Str s ->
       within schema (b!"minLength") (b!"maxLength") (F64.of_Z (Z.of_nat (Utf8.char_count s)))) ->
    (forall items, data = Value.Array items ->
       within schema (b!"minItems") (b!"maxItems") (F64.of_Z (Z.of_nat (length items)))) ->
    (forall o req k, data = Value.Object o -> field schema (b!"required") = Some (Value.Array req) ->
       Value.Str k ∈ req -> Value.get data k <> None) ->
    (forall items s, data = Value.Array items -> field schema (b!"items") = Some s ->
       forall x, x ∈ items -> conforms s x) ->
    (forall o props k s v, data = Value.Object o -> field schema (b!"properties") = Some (Value.Object props) ->
       (k, s) ∈ props -> Value.get data k = Some v -> conforms s v) ->
    conforms schema data.

End Schema.

Import Schema.

(** ** The local keywords *)

Lemma bounds_within schema lo hi n f g : bounds schema lo hi n f g = [] <-> within schema lo hi n.
Proof.
  unfold bounds, within. rewrite app_nil. split; intros [H1 H2]; split; intros.
  - rewrite H in H1. by destruct (F64.ltb n m).
  - rewrite H in H2. by destruct (F64.ltb m n).
  - destruct (limit schema lo) as [m|]; [|done]. by rewrite (H1 m).
  - destruct (limit schema hi) as [m|]; [|done]. by rewrite (H2 m).
Qed.

(** The conditions of [conforms] that do not descend. *)
Definition conforms_here (schema data : Value) : Prop :=
  (forall c, field schema (b!"const") = Some c -> value_eqb data c = true) /\
  (forall cs, field schema (b!"enum") = Some (Value.Array cs) -> exists c, c ∈ cs /\ value_eqb c data = true) /\
  (forall n, num data = Some n -> within schema (b!"minimum") (b!"maximum") n) /\
  (forall s, data = Value.Str s ->
     within schema (b!"minLength") (b!"maxLength") (F64.of_Z (Z.of_nat (Utf8.char_count s)))) /\
  (forall items, data = Value.Array items ->
     within schema (b!"minItems") (b!"maxItems") (F64.of_Z (Z.of_nat (length items)))) /\
  (forall o req k, data = Value.Object o -> field schema (b!"required") = Some (Value.Array req) ->
     Value.Str k ∈ req -> Value.get data k <> None).

Lemma const_spec schema data :
  check_const schema data = [] <-> forall c, field schema (b!"const") = Some c -> value_eqb data c = true.
Proof.
  unfold check_const. destruct (field schema (b!"const")) as [c|]; [|done].
  destruct (value_eqb data c) eqn:E; split; [by intros _ c' [= <-]|done|done|].
  intros H. specialize (H c eq_refl). congruence.
Qed.

Lemma enum_spec schema data :
  check_enum schema data = [] <->
  forall cs, field schema (b!"enum") = Some (Value.Array cs) -> exists c, c ∈ cs /\ value_eqb c data = true.
Proof.
  unfold check_enum. destruct (field schema (b!"enum")) as [[| | | | | | |cs|]|]; try naive_solver.
  destruct (existsb (fun c => value_eqb c data) cs) eqn:E.
  - apply existsb_exists in E as (c & Hin & Hc). split; [|done]. intros _ ? [= <-]. exists c.
    by rewrite list_elem_of_In.
  - split; [done|]. intros H. destruct (H cs eq_refl) as (c & Hin & Hc).
    assert (existsb (fun c => value_eqb c data) cs = true); [|congruence].
    apply existsb_exists. exists c. by rewrite <- list_elem_of_In.
Qed.

Lemma required_spec schema data :
  check_required schema data = [] <->
  forall o req k, data = Value.Object o -> field schema (b!"required") = Some (Value.Array req) ->
    Value.Str k ∈ req -> Value.get data k <> None.
Proof.
  unfold check_required. destruct data as [| | | | | | | |o]; try naive_solver.
  destruct (field schema (b!"required")) as [[| | | | | | |req|]|]; try naive_solver.
  split.
  - intros H o' req' k _ [= <-] Hin Hg. assert (exists m, m ∈ omap (fun key => match Value.as_str key with
        | Some k => match Value.get (Value.Object o) k with
                    | None => Some (b!"missing required property '" ++ k ++ b!"'") | Some _ => None end
        | None => None end) req) as [m Hm].
    { eexists. apply list_elem_of_omap. exists (Value.Str k). split; [done|]. cbn [Value.as_str]. by rewrite Hg. }
    rewrite H in Hm. set_solver.
  - intros H. destruct (omap _ req) as [|m l] eqn:E; [done|].
    assert (m ∈ omap (fun key => match Value.as_str key with
        | Some k => match Value.get (Value.Object o) k with
                    | None => Some (b!"missing required property '" ++ k ++ b!"'") | Some _ => None end
        | None => None end) req) as Hm by (rewrite E; set_solver).
    apply list_elem_of_omap in Hm as (key & Hin & Hk). destruct key; try done. cbn [Value.as_str] in Hk.
    destruct (Value.get (Value.Object o) s) eqn:Eg; [done|]. by destruct (H o req s eq_refl eq_refl Hin).
Qed.

Lemma here_spec schema data : check_here schema data = [] <-> conforms_here schema data.
Proof.
  unfold check_here, conforms_here. rewrite !app_nil, const_spec, enum_spec, required_spec.
  assert (check_number schema data = [] <-> forall n, num data = Some n -> within schema (b!"minimum") (b!"maximum") n) as ->.
  { unfold check_number. destruct (num data) as [n|]; [|naive_solver]. rewrite bounds_within. naive_solver. }
  assert (check_string schema data = [] <-> forall s, data = Value.Str s ->
    within schema (b!"minLength") (b!"maxLength") (F64.of_Z (Z.of_nat (Utf8.char_count s)))) as ->.
  { unfold check_string. destruct data; try naive_solver. rewrite bounds_within. naive_solver. }
  assert (check_length schema data = [] <-> forall items, data = Value.Array items ->
    within schema (b!"minItems") (b!"maxItems") (F64.of_Z (Z.of_nat (length items)))) as ->.
  { unfold check_length. destruct data; try naive_solver. rewrite bounds_within. naive_solver. }
  done.
Qed.

(** ** The walk *)

Lemma each_spec {A} (P : A -> Prop) (f : nat -> A -> list Violation -> option (list Violation)) l :
  (forall i x out, x ∈ l -> exists vs, f i x out = Some (out ++ vs) /\ (vs = [] <-> P x)) ->
  forall i out, exists vs, each f i l out = Some (out ++ vs) /\ (vs = [] <-> forall x, x ∈ l -> P x).
Proof.
  intros Hf. induction l as [|x l IH]; intros i out; cbn [each].
  { exists []. rewrite app_nil_r. split; [done|]. split; [set_solver|done]. }
  destruct (Hf i x out) as (vs & -> & Hx); [set_solver|].
  destruct (IH ltac:(intros; apply Hf; set_solver) (S i) (out ++ vs)) as (vs' & -> & Hl).
  exists (vs ++ vs'). rewrite app_assoc. split; [done|]. rewrite app_nil, Hx, Hl. set_solver.
Qed.

Lemma field_depth schema key s : field schema key = Some s -> (Value.depth s < Value.depth schema)%nat.
Proof.
  unfold field, Value.get. destruct schema; try done. cbn [Value.as_object mbind option_bind].
  intros H%find_elem. by apply (depth_object_elem _ (key, s)).
Qed.

(** [conforms], unfolded. *)
Definition conforms_below (schema data : Value) : Prop :=
  (forall items s, data = Value.Array items -> field schema (b!"items") = Some s ->
     forall x, x ∈ items -> conforms s x) /\
  (forall o props k s v, data = Value.Object o -> field schema (b!"properties") = Some (Value.Object props) ->
     (k, s) ∈ props -> Value.get data k = Some v -> conforms s v).

Lemma conforms_unfold schema data :
  conforms schema data <->
  (forall ty, declared_type schema = Some ty -> type_matches ty data = true) /\
  conforms_here schema data /\ conforms_below schema data.
Proof.
  unfold conforms_here, conforms_below. split.
  - inversion 1; subst. split_and!; assumption.
  - intros (H1 & (H2 & H3 & H4 & H5 & H6 & H7) & H8 & H9). by constructor.
Qed.

Section Descend.
Context (fuel : nat) (schema : Value) (Hd : (Value.depth schema < S fuel)%nat).
Context (IH : forall s data p out, (Value.depth s < fuel)%nat ->
  exists vs, check fuel s data p out = Some (out ++ vs) /\ (vs = [] <-> conforms s data)).

(** The recursive part, on any value. *)
Definition below (data : Value) (p : bytes) (out : list Violation) : option (list Violation) :=
  match data with
  | Value.Array items =>
      match field schema (b!"items") with
      | Some item_schema =>
          each (fun i elem => check fuel item_schema elem (p ++ b!"/" ++ show_uint (Z.of_nat i))) 0 items out
      | None => Some out
      end
  | Value.Object _ =>
      match field schema (b!"properties") with
      | Some (Value.Object props) =>
          each (fun _ ks out =>
            match Value.get data ks.1 with
            | Some value => check fuel ks.2 value (p ++ b!"/" ++ ks.1) out
            | None => Some out
            end) 0 props out
      | _ => Some out
      end
  | _ => Some out
  end.

Lemma below_spec data p out :
  exists vs, below data p out = Some (out ++ vs) /\ (vs = [] <-> conforms_below schema data).
Proof.
  assert (forall Q : Prop, Q -> exists vs, Some out = Some (out ++ vs) /\ (vs = [] <-> Q)) as Hnil
    by (intros Q HQ; exists []; by rewrite app_nil_r).
  unfold conforms_below. destruct data as [| | | | | | |items|o]; cbn [below];
    try (apply Hnil; split; intros; congruence).
  - destruct (field schema (b!"items")) as [s|] eqn:Es.
    + destruct (each_spec (conforms s) (fun i elem => check fuel s elem (p ++ b!"/" ++ show_uint (Z.of_nat i))) items)
        with (i := 0%nat) (out := out) as (vs & H & Hv).
      { intros i x o _. apply IH. pose proof (field_depth _ _ _ Es). lia. }
      exists vs. split; [done|]. rewrite Hv. split; [|naive_solver]. intros Hx. split; [|done].
      intros items' s' [= <-] [= <-]. done.
    + apply Hnil. split; intros; congruence.
  - destruct (field schema (b!"properties")) as [v|] eqn:Es; [|apply Hnil; split; intros; congruence].
    destruct v as [| | | | | | | |props]; try (apply Hnil; split; intros; congruence).
    destruct (each_spec (fun ks => forall v, Value.get (Value.Object o) ks.1 = Some v -> conforms ks.2 v)
      (fun _ ks out => match Value.get (Value.Object o) ks.1 with
            | Some value => check fuel ks.2 value (p ++ b!"/" ++ ks.1) out
            | None => Some out end) props) with (i := 0%nat) (out := out) as (vs & H & Hv).
    { intros i ks o' Hin. destruct (Value.get (Value.Object o) ks.1) as [v|] eqn:Eg.
      - destruct (IH ks.2 v (p ++ b!"/" ++ ks.1) o') as (vs & H & Hv).
        { pose proof (field_depth _ _ _ Es). pose proof (depth_object_elem props ks Hin). lia. }
        exists vs. split; [done|]. rewrite Hv. naive_solver.
      - exists []. rewrite app_nil_r. naive_solver. }
    exists vs. split; [done|]. rewrite Hv. split.
    + intros Hx. split; [done|]. intros o' props' k s v _ [= <-] Hin Hg. by apply (Hx (k, s)).
    + intros [_ Hx] [k s] Hin v Hg. by apply (Hx o props k s v).
Qed.

End Descend.

Lemma check_unfold fuel schema data p out :
  check (S fuel) schema data p out =
  match declared_type schema with
  | Some ty => if negb (type_matches ty data)
               then Some (out ++ [mkViolation p (b!"expected type '" ++ ty ++ b!"'")])
               else below fuel schema data p (out ++ map (mkViolation p) (check_here schema data))
  | None => below fuel schema data p (out ++ map (mkViolation p) (check_here schema data))
  end.
Proof. reflexivity. Qed.

Lemma check_spec fuel : forall schema data p out,
  (Value.depth schema < fuel)%nat ->
  exists vs, check fuel schema data p out = Some (out ++ vs) /\ (vs = [] <-> conforms schema data).
Proof.
  induction fuel as [|fuel IH]; intros schema data p out Hd; [lia|]. rewrite check_unfold.
  destruct (below_spec fuel schema Hd IH data p (out ++ map (mkViolation p) (check_here schema data))) as (vs & Hb & Hv).
  assert ((map (mkViolation p) (check_here schema data) ++ vs = [] <->
           conforms_here schema data /\ conforms_below schema data)) as Hall.
  { rewrite app_nil, Hv, <- here_spec. split; intros [H1 H2]; (split; [|exact H2]).
    - by apply map_eq_nil in H1.
    - by rewrite H1. }
  destruct (declared_type schema) as [ty|] eqn:Et; [destruct (type_matches ty data) eqn:Em|]; cbn [negb].
  - exists (map (mkViolation p) (check_here schema data) ++ vs). rewrite Hb, app_assoc. split; [done|].
    rewrite Hall, conforms_unfold, Et. split; [intros H; split; [congruence|exact H]|intros [_ H]; exact H].
  - eexists. split; [done|]. rewrite conforms_unfold, Et. split; [done|]. intros (H & _).
    specialize (H ty eq_refl). congruence.
  - exists (map (mkViolation p) (check_here schema data) ++ vs). rewrite Hb, app_assoc. split; [done|].
    rewrite Hall, conforms_unfold, Et. split; [intros H; split; [congruence|exact H]|intros [_ H]; exact H].
Qed.

(** C21 Schema validation decides conformance: [validate] always terminates, accepts
    exactly the values that conform to the schema (type, const, enum, bounds, lengths,
    required properties, and recursively items and properties), and otherwise
    returns at least one violation. *)
Theorem validate_decides_conformance (schema data : Value) :
  (conforms schema data /\ validate schema data = Some (Ok tt)) \/
  (~ conforms schema data /\ exists v vs, validate schema data = Some (Err (v :: vs))).
Proof.
  unfold validate. destruct (check_spec (S (Value.depth schema)) schema data [] [] ltac:(lia)) as (vs & -> & Hv).
  cbn [app]. destruct vs as [|v vs].
  - left. naive_solver.
  - right. split; [|eauto]. intros Hc. by apply Hv in Hc.
Qed.

(** The path of a violation is the path in the data, not in the schema. *)
Example violation_path_is_data_path :
  validate (Value.Object [(b!"properties", Value.Object [(b!"age", Value.Object [(b!"type", Value.Str (b!"integer"))])])])
    (Value.Object [(b!"age", Value.Null)]) =
  Some (Err [mkViolation (b!"/age") (b!"expected type 'integer'")]).
Proof. vm_compute. reflexivity. Qed.

(** Bounds on integers are compared after rounding to binary64. *)
Example minimum_is_rounded :
  validate (Value.Object [(b!"minimum", Value.Int 9007199254740993)]) (Value.Int 9007199254740992) = Some (Ok tt).
Proof. vm_compute. reflexivity. Qed.
