(* ===== verification/Config.v ===== *)
(** * Layered configuration ([config.rs])

    Layers are [Value]s merged deeply, later layers over earlier ones; the
    sources are environment variables, flags, property files and files in the
    codec's formats; a configuration is extracted into any [Decode] type.  The
    environment, the file system, [Path::extension] and Unicode lower-casing
    are arguments. *)

From S2P Require Import Prelude Text Scan Ordered Value Json HttpCore Traits Derive Registry.

Open Scope Z_scope.

Module Config.

Notation Entries := (list (bytes * Value)).

Inductive ConfigError :=
| UnsupportedFormat (path : bytes)
| Io (m : bytes)
| MissingKey (key : bytes)
| Codec (e : CodecError).

(** Updates the first entry with the key, or appends one. *)
Fixpoint upsert_with (f : Value -> Value) (k : bytes) (v : Value) (b : Entries) : Entries :=
  match b with
  | [] => [(k, v)]
  | (bk, bv) :: b' => if bool_decide (bk = k) then (bk, f bv) :: b' else (bk, bv) :: upsert_with f k v b'
  end.

(** [merge] *)
Fixpoint merge (base over : Value) {struct over} : Value :=
  match base, over with
  | Value.Object b, Value.Object o =>
      Value.Object
        ((fix layer (o : Entries) (b : Entries) {struct o} : Entries :=
            match o with
            | [] => b
            | (k, ov) :: o' => layer o' (upsert_with (fun bv => merge bv ov) k ov b)
            end) o b)
  | _, _ => over
  end.

(** [insert_nested]; [segs] is not empty. *)
Fixpoint insert_nested (segs : list bytes) (value : Value) (entries : Entries) : Entries :=
  match segs with
  | [] => entries
  | [head] => upsert_with (fun _ => value) head value entries
  | head :: rest =>
      upsert_with
        (fun v => Value.Object (insert_nested rest value (match v with Value.Object c => c | _ => [] end)))
        head (Value.Object (insert_nested rest value [])) entries
  end.

(** The loop of [navigate] over the segments. *)
Fixpoint nav (cur : Value) (segs : list bytes) : option Value :=
  match segs with
  | [] => Some cur
  | seg :: segs' =>
      if bool_decide (seg = []) then nav cur segs'
      else match Value.get cur seg with Some v => nav v segs' | None => None end
  end.

Definition navigate (value : Value) (key : bytes) : option Value := nav value (split_on x2e key).

(** ** Sources *)

(** A path with an empty segment is ignored. *)
Definition insert_path (entries : Entries) (segs : list bytes) (val : bytes) : Entries :=
  if existsb (fun s => bool_decide (s = [])) segs then entries else insert_nested segs (Value.Str val) entries.

(** The loop of [merge_args]. *)
Fixpoint args_loop (args : list bytes) (entries : Entries) : Entries :=
  match args with
  | [] => entries
  | arg :: rest =>
      match strip_prefix arg (b!"--") with
      | None => args_loop rest entries
      | Some flag =>
          match split_once x3d flag with
          | Some (k, v) => args_loop rest (insert_path entries (split_on x2e k) v)
          | None =>
              match rest with
              | n :: rest' =>
                  if negb (starts_with n (b!"--")) then
                    args_loop rest' (insert_path entries (split_on x2e flag) n)
                  else args_loop rest (insert_path entries (split_on x2e flag) (b!"true"))
              | [] => insert_path entries (split_on x2e flag) (b!"true")
              end
          end
      end
  end.

(** One line of a property file. *)
Definition property_line (entries : Entries) (line : bytes) : Entries :=
  let line := trim line in
  if bool_decide (line = []) || starts_with line (b!"#") || starts_with line (b!"!") then entries
  else match split_once x3d line with
       | Some (key, val) => insert_path entries (map trim (split_on x2e (trim key))) (trim val)
       | None => entries
       end.

Definition parse_properties (input : bytes) : Value :=
  Value.Object (foldl property_line [] (str_lines input)).

(** [s.split("__")] *)
Fixpoint split_str (fuel : nat) (pat s : bytes) : list bytes :=
  match fuel with
  | O => [s]
  | S fuel' => match HttpCore.split_once_str pat s with
               | Some (a, r) => a :: split_str fuel' pat r
               | None => [s]
               end
  end.

Section Sources.
(** [str::to_lowercase], and [std::env::vars] in some order. *)
Context (to_lowercase : bytes -> bytes) (vars : list (bytes * bytes)).

Definition env_var (prefix : bytes) (entries : Entries) (kv : bytes * bytes) : Entries :=
  match strip_prefix kv.1 prefix with
  | Some rest =>
      if bool_decide (rest = []) then entries
      else insert_nested (map to_lowercase (split_str (length rest) (b!"__") rest)) (Value.Str kv.2) entries
  | None => entries
  end.

Definition env_to_value (prefix : bytes) : Value :=
  Value.Object (foldl (env_var prefix) [] (sort_by cmp vars)).

Inductive FileFormat := FJson | FYaml | FXml | FProperties.

(** [Path::extension] and [std::fs::read]. *)
Context (extension : bytes -> option bytes) (read_file : bytes -> Result bytes bytes).

Definition file_format (path : bytes) : Result FileFormat ConfigError :=
  match to_ascii_lowercase <$> extension path with
  | Some e =>
      if bool_decide (e = b!"json") then Ok FJson
      else if bool_decide (e ∈ [b!"yaml"; b!"yml"]) then Ok FYaml
      else if bool_decide (e = b!"xml") then Ok FXml
      else if bool_decide (e ∈ [b!"properties"; b!"props"; b!"env"]) then Ok FProperties
      else Err (UnsupportedFormat path)
  | None => Err (UnsupportedFormat path)
  end.

(** Reading a file fails with an error, or the XML parser panics. *)
Inductive Stop := Error (e : ConfigError) | Panic.

Definition of_failure (f : Registry.Failure) : Stop :=
  match f with Registry.Failed e => Error (Codec e) | Registry.Panicked => Panic end.

Definition load_file (path : bytes) : option (Result Value Stop) :=
  let! format := Some (map_err Error (file_format path)) in
  let! bs := Some (map_err (fun e => Error (Io e)) (read_file path)) in
  let text := map_err (fun e => Error (Io e)) (from_utf8 bs) in
  match format with
  | FJson => Some (map_err (fun e => Error (Codec e)) (from_slice bs))
  | FYaml => let! s := Some text in map_err of_failure <$> Registry.from_str Registry.Yaml s
  | FXml => let! s := Some text in map_err of_failure <$> Registry.from_str Registry.Xml s
  | FProperties => let! s := Some text in Some (Ok (parse_properties s))
  end.

(** ** [Config], [ConfigBuilder] *)

Definition builder : Value := Value.Object [].

Definition merge_env (value : Value) (prefix : bytes) : Value := merge value (env_to_value prefix).

Definition merge_file (value : Value) (path : bytes) : option (Result Value Stop) :=
  let! v := load_file path in Some (Ok (merge value v)).

Definition from_file (path : bytes) : option (Result Value Stop) := load_file path.

Definition merge_value (value layer : Value) : Value := merge value layer.

Definition merge_args (value : Value) (args : list bytes) : Value :=
  merge value (Value.Object (args_loop args [])).

(** [Config::get], before the typed decoding. *)
Definition get (value : Value) (key : bytes) : Result Value ConfigError :=
  ok_or (navigate value key) (MissingKey key).

Definition get_as {T} `{Traits.Decode T} (value : Value) (key : bytes) : Result T ConfigError :=
  let? v := get value key in map_err Codec (Traits.decode v).

Definition extract {T} `{Traits.Decode T} (value : Value) : Result T ConfigError := map_err Codec (Traits.decode value).

End Sources.

(** ** Specification *)

(** No object of the value has two entries with the same key. *)
Fixpoint unique (v : Value) : bool :=
  match v with
  | Value.Object o =>
      bool_decide (NoDup (map fst o)) && forallb (fun kv => unique (snd kv)) o
  | Value.Array a => forallb unique a
  | _ => true
  end.

Definition is_object (v : Value) : bool := match v with Value.Object _ => true | _ => false end.

(** Some proper prefix of the path leads to something that is no object. *)
Fixpoint blocked (v : Value) (segs : list bytes) : bool :=
  match segs with
  | [] => false
  | seg :: segs' =>
      if negb (is_object v) then true
      else match Value.get v seg with Some v' => blocked v' segs' | None => false end
  end.

(** What two layers give at a path. *)
Definition overlay (base over : option Value) : option Value :=
  match base, over with
  | Some b, Some o => Some (merge b o)
  | None, Some o => Some o
  | b, None => b
  end.

(** What a configuration is at a path, whatever the order of its entries: a table with these keys, a value that is
    no table, or nothing, because the key is missing or because a value on the way is no table; the number is how far
    down the path that is. *)
Inductive Reading :=
| Table (keys : gset bytes)
| Scalar (v : Value)
| Missing (n : nat)
| Blocked (n : nat).

Definition table (v : Value) : option (gmap bytes Value) :=
  match v with Value.Object o => Some (list_to_map o) | _ => None end.

Definition deeper (r : Reading) : Reading :=
  match r with Missing n => Missing (S n) | Blocked n => Blocked (S n) | r => r end.

Fixpoint reading (v : Value) (path : list bytes) : Reading :=
  match path, table v with
  | [], Some m => Table (dom m)
  | [], None => Scalar v
  | _ :: _, None => Blocked 0
  | s :: path, Some m => match m !! s with Some w => deeper (reading w path) | None => Missing 0 end
  end.

(** A later layer over an earlier one: its values win, its tables are added to tables and replace anything else, and
    what it does not mention stays, unless a table on the way to it replaced a value of the earlier layer. *)
Definition later_wins (earlier later : Reading) : Reading :=
  match later, earlier with
  | Scalar v, _ => Scalar v
  | Blocked n, _ => Blocked n
  | Table ks, Table ks' => Table (ks' ∪ ks)
  | Table ks, _ => Table ks
  | Missing n, Missing m => Missing (Nat.max m n)
  | Missing n, Blocked m => if (m <=? n)%nat then Missing n else Blocked m
  | Missing _, r => r
  end.

(** The segments of a key; empty ones are skipped. *)
Definition path_of (key : bytes) : list bytes := List.filter (fun s => negb (bool_decide (s = []))) (split_on x2e key).

End Config.

Import Config.

(** ** Entries with unique keys *)

Lemma upsert_keys f k v b :
  map fst (upsert_with f k v b) = if bool_decide (k ∈ map fst b) then map fst b else map fst b ++ [k].
Proof.
  induction b as [|[bk bv] b IH]; cbn [upsert_with map fst]; [done|].
  destruct (decide (bk = k)) as [->|Hne].
  - rewrite (bool_decide_true (k = k)), (bool_decide_true (k ∈ _)) by set_solver. done.
  - rewrite (bool_decide_false (bk = k)) by done. cbn [map fst]. rewrite IH.
    repeat case_bool_decide; try done; set_solver.
Qed.

Lemma upsert_nodup f k v b : NoDup (map fst b) -> NoDup (map fst (upsert_with f k v b)).
Proof.
  rewrite upsert_keys. case_bool_decide; [done|]. intros H0. apply NoDup_app. split_and!; [done|set_solver|apply NoDup_singleton].
Qed.

Lemma find_upsert f k v b k' :
  NoDup (map fst b) ->
  Value.find (upsert_with f k v b) k' =
  if bool_decide (k = k') then Some (match Value.find b k with Some bv => f bv | None => v end)
  else Value.find b k'.
Proof.
  induction b as [|[bk bv] b IH]; cbn [upsert_with map fst]; intros Hnd.
  { rewrite find_cons by set_solver. by case_bool_decide. }
  apply NoDup_cons in Hnd as [Hbk Hnd]. specialize (IH Hnd).
  destruct (decide (bk = k)) as [->|Hne].
  - rewrite (bool_decide_true (k = k)) by done. rewrite !find_cons by done.
    rewrite (bool_decide_true (k = k)) by done. by case_bool_decide.
  - rewrite (bool_decide_false (bk = k)) by done. rewrite !find_cons.
    2,3: done.
    2: { clear IH. rewrite upsert_keys. case_bool_decide; [done|]. by rewrite not_elem_of_app, list_elem_of_singleton. }
    rewrite IH, (bool_decide_false (bk = k)) by done. repeat case_bool_decide; congruence.
Qed.

(** ** Merging *)

(** The inner loop of [merge]. *)
Fixpoint layer (o b : Entries) : Entries :=
  match o with
  | [] => b
  | (k, ov) :: o' => layer o' (upsert_with (fun bv => merge bv ov) k ov b)
  end.

Lemma merge_objects b o : merge (Value.Object b) (Value.Object o) = Value.Object (layer o b).
Proof. reflexivity. Qed.

Lemma merge_other b o : is_object b && is_object o = false -> merge b o = o.
Proof. destruct b, o; done. Qed.

Lemma layer_nodup o : forall b, NoDup (map fst b) -> NoDup (map fst (layer o b)).
Proof. induction o as [|[k ov] o IH]; intros b Hb; cbn [layer]; [done|]. by apply IH, upsert_nodup. Qed.

Lemma find_layer o : forall b k, NoDup (map fst o) -> NoDup (map fst b) ->
  Value.find (layer o b) k = overlay (Value.find b k) (Value.find o k).
Proof.
  induction o as [|[k' ov] o IH]; intros b k Ho Hb; cbn [layer].
  { rewrite (find_none []) by set_solver. by destruct (Value.find b k). }
  cbn [map fst] in Ho. apply NoDup_cons in Ho as [Hk' Ho]. rewrite IH by (by try apply upsert_nodup).
  rewrite find_upsert, find_cons by done. case_bool_decide as E; [|done]. subst.
  rewrite (find_none o) by done. by destruct (Value.find b k).
Qed.

Lemma unique_object o :
  unique (Value.Object o) = true <-> NoDup (map fst o) /\ forall k v, (k, v) ∈ o -> unique v = true.
Proof.
  cbn [unique]. rewrite andb_true_iff, bool_decide_eq_true, forallb_forall. split; intros [H1 H2]; (split; [done|]).
  - intros k v Hin. apply (H2 (k, v)). by apply list_elem_of_In.
  - intros [k v] Hin. apply (H2 k). by apply list_elem_of_In.
Qed.

Lemma unique_get v k v' : unique v = true -> Value.get v k = Some v' -> unique v' = true.
Proof.
  destruct v; try done. intros [_ Hu]%unique_object. unfold Value.get. cbn [Value.as_object mbind option_bind].
  intros Hf%find_elem. eauto.
Qed.

Lemma get_merge b o k :
  unique b = true -> unique o = true -> is_object o = true ->
  Value.get (merge b o) k = overlay (Value.get b k) (Value.get o k).
Proof.
  intros Hb Ho Hobj. destruct (is_object b) eqn:Eb.
  - destruct b as [| | | | | | | |b], o as [| | | | | | | |o]; try discriminate. rewrite merge_objects.
    unfold Value.get. cbn [Value.as_object mbind option_bind].
    apply unique_object in Hb as [Hb _], Ho as [Ho _]. by apply find_layer.
  - rewrite merge_other by (by rewrite Eb). destruct b; try discriminate; simpl; by destruct (Value.get o k).
Qed.

Lemma nav_merge segs : forall b o,
  unique b = true -> unique o = true -> Forall (fun s => s <> []) segs ->
  nav (merge b o) segs = if blocked o segs then None else overlay (nav b segs) (nav o segs).
Proof.
  induction segs as [|seg segs IH]; intros b o Hb Ho Hs; cbn [nav blocked]; [done|].
  apply Forall_cons in Hs as [Hseg Hs]. rewrite bool_decide_false by done.
  destruct (is_object o) eqn:Eo; cbn [negb].
  - rewrite get_merge by done.
    destruct (Value.get o seg) as [ov|] eqn:Eov, (Value.get b seg) as [bv|] eqn:Ebv; cbn [overlay].
    + apply IH; [exact (unique_get _ _ _ Hb Ebv)|exact (unique_get _ _ _ Ho Eov)|done].
    + destruct (blocked ov segs) eqn:Ebl.
      * clear - Ebl Hs. revert ov Ebl. induction segs as [|s segs IH]; intros ov; [done|]. cbn [blocked nav].
        apply Forall_cons in Hs as [Hs0 Hs]. rewrite bool_decide_false by done.
        destruct (is_object ov) eqn:Eo; cbn [negb].
        -- destruct (Value.get ov s); [|done]. by apply IH.
        -- intros _. by destruct ov.
      * by destruct (nav ov segs).
    + by destruct (nav bv segs).
    + done.
  - rewrite merge_other by (by rewrite Eo, andb_false_r). by destruct o.
Qed.

(** The merge of layers without duplicate keys has none. *)
Lemma unique_upsert f k v b :
  unique (Value.Object b) = true -> unique v = true ->
  (forall bv, (k, bv) ∈ b -> unique bv = true -> unique (f bv) = true) ->
  unique (Value.Object (upsert_with f k v b)) = true.
Proof.
  rewrite !unique_object. intros [Hn Hb] Hv Hf. split; [by apply upsert_nodup|]. intros k' v'.
  clear Hn. induction b as [|[bk bv] b IH]; cbn [upsert_with].
  { intros [= -> ->]%list_elem_of_singleton. done. }
  case_bool_decide as E.
  - subst bk. intros [[= -> ->]|Hin]%elem_of_cons.
    + apply Hf; [set_solver|]. apply (Hb k). set_solver.
    + apply (Hb k'). set_solver.
  - intros [[= -> ->]|Hin]%elem_of_cons; [apply (Hb bk); set_solver|].
    apply IH; [|intros bv' Hbv; apply Hf; set_solver|done]. intros k0 v0 H0. apply (Hb k0). set_solver.
Qed.

Lemma unique_merge o : forall b, unique b = true -> unique o = true -> unique (merge b o) = true.
Proof.
  induction o as [|x|x|x|x|x|x|x IHx|o IH] using value_ind'; intros b Hb Ho;
    try (rewrite merge_other by (by rewrite andb_false_r); done).
  destruct (is_object b) eqn:Eb; [|by rewrite merge_other by (by rewrite Eb)].
  destruct b as [|x|x|x|x|x|x|x|b]; try discriminate. rewrite merge_objects.
  apply unique_object in Ho as [_ Ho]. revert b Hb Eb. induction o as [|[k ov] o IHo]; intros b Hb _; [done|].
  cbn [layer]. apply Forall_cons in IH as [IHov IH]. apply IHo; [done| | |done].
  - intros k' v' Hin. apply (Ho k'). set_solver.
  - apply unique_upsert; [done|apply (Ho k); set_solver|]. intros bv _ Hbv. apply IHov; [done|].
    apply (Ho k). set_solver.
Qed.

(** ** Assigning a path *)

Lemma insert_nested_cons s s' segs v entries :
  insert_nested (s :: s' :: segs) v entries =
  upsert_with (fun x => Value.Object (insert_nested (s' :: segs) v (match x with Value.Object c => c | _ => [] end)))
    s (Value.Object (insert_nested (s' :: segs) v [])) entries.
Proof. reflexivity. Qed.

Lemma insert_nested_unique segs : forall v entries,
  unique v = true -> unique (Value.Object entries) = true ->
  unique (Value.Object (insert_nested segs v entries)) = true.
Proof.
  induction segs as [|s segs IH]; intros v entries Hv He; [done|]. cbn [insert_nested].
  destruct segs as [|s' segs].
  - apply unique_upsert; [done|done|]. auto.
  - apply unique_upsert; [done|by apply IH|]. intros bv _ Hbv. apply IH; [done|]. by destruct bv.
Qed.

Lemma nav_insert_nested segs : forall v entries,
  segs <> [] -> Forall (fun s => s <> []) segs -> unique (Value.Object entries) = true ->
  nav (Value.Object (insert_nested segs v entries)) segs = Some v.
Proof.
  induction segs as [|s segs IH]; intros v entries Hne Hs He; [done|].
  apply Forall_cons in Hs as [Hs0 Hs]. apply unique_object in He as [Hn He]. cbn [nav].
  rewrite bool_decide_false by done. cbn [insert_nested]. destruct segs as [|s' segs].
  - unfold Value.get. cbn [Value.as_object mbind option_bind]. rewrite find_upsert, bool_decide_true by done.
    by destruct (Value.find entries s).
  - unfold Value.get. cbn [Value.as_object mbind option_bind]. rewrite find_upsert, bool_decide_true by done.
    destruct (Value.find entries s) as [bv|] eqn:E; apply IH; try done.
    apply find_elem, He in E. by destruct bv.
Qed.

(** Two paths of which neither continues the other. *)
Fixpoint diverge (p q : list bytes) : bool :=
  match p, q with
  | a :: p', c :: q' => if bool_decide (a = c) then diverge p' q' else true
  | _, _ => false
  end.

Lemma nav_insert_nested_other segs : forall q v entries,
  Forall (fun s => s <> []) q -> unique (Value.Object entries) = true -> diverge segs q = true ->
  nav (Value.Object (insert_nested segs v entries)) q = nav (Value.Object entries) q.
Proof.
  induction segs as [|s segs IH]; intros q v entries Hq He Hd; [done|].
  destruct q as [|c q]; [done|]. apply Forall_cons in Hq as [Hc Hq]. cbn [diverge] in Hd.
  pose proof He as [Hn Hu]%unique_object. cbn [nav]. rewrite bool_decide_false by done.
  unfold Value.get. cbn [Value.as_object mbind option_bind].
  case_bool_decide as E.
  - subst c. destruct segs as [|s' segs]; [done|]. rewrite insert_nested_cons.
    rewrite find_upsert, bool_decide_true by done.
    assert (nav (Value.Object (insert_nested (s' :: segs) v [])) q = None) as Hnil.
    { rewrite IH by done. destruct q as [|c q]; [done|]. apply Forall_cons in Hq as [Hc' _].
      cbn [nav]. by rewrite bool_decide_false. }
    destruct (Value.find entries s) as [bv|] eqn:Ef; [|by apply Hnil].
    destruct (is_object bv) eqn:Eb.
    + destruct bv; try discriminate. apply IH; [done| |done]. by apply find_elem, Hu in Ef.
    + replace (match bv with Value.Object c => c | _ => [] end) with (@nil (bytes * Value)) by by destruct bv.
      rewrite Hnil. destruct q as [|c q]; [done|]. apply Forall_cons in Hq as [Hc' _].
      cbn [nav]. rewrite bool_decide_false by done. by destruct bv.
  - destruct segs as [|s' segs]; cbn [insert_nested]; by rewrite find_upsert, bool_decide_false by done.
Qed.

Lemma diverge_sym p : forall q, diverge p q = diverge q p.
Proof.
  induction p as [|a p IH]; intros [|c q]; [done|done|done|]. cbn [diverge].
  destruct (decide (a = c)) as [->|Hne]; [by rewrite !bool_decide_true by done|].
  by rewrite !bool_decide_false by congruence.
Qed.

Lemma nav_not_blocked segs : forall o v,
  Forall (fun s => s <> []) segs -> nav o segs = Some v -> blocked o segs = false.
Proof.
  induction segs as [|s segs IH]; intros o v Hs; [done|]. apply Forall_cons in Hs as [Hs0 Hs].
  cbn [nav blocked]. rewrite bool_decide_false by done.
  destruct (Value.get o s) as [o'|] eqn:E; [|done]. intros H.
  destruct o; try done. cbn [is_object negb]. by eapply IH.
Qed.

Lemma blocked_insert_other segs : forall q v entries,
  unique (Value.Object entries) = true -> diverge segs q = true ->
  blocked (Value.Object entries) q = false -> blocked (Value.Object (insert_nested segs v entries)) q = false.
Proof.
  induction segs as [|s segs IH]; intros q v entries He Hd; [done|].
  destruct q as [|c q]; [done|]. cbn [diverge] in Hd.
  pose proof He as [Hn Hu]%unique_object. cbn [blocked is_object negb].
  unfold Value.get. cbn [Value.as_object mbind option_bind]. case_bool_decide as E.
  - subst c. destruct segs as [|s' segs]; [done|]. rewrite insert_nested_cons.
    rewrite find_upsert, bool_decide_true by done.
    assert (forall q, blocked (Value.Object []) q = false) as Hnil by by intros [].
    destruct (Value.find entries s) as [bv|] eqn:Ef; [|by intros _; apply IH].
    destruct bv; try (intros _; by apply IH). intros Hb. apply IH; [|done|done]. by apply find_elem, Hu in Ef.
  - destruct segs as [|s' segs]; cbn [insert_nested]; by rewrite find_upsert, bool_decide_false by done.
Qed.

(** ** Flags *)

Definition flag (f : bytes * bytes) : bytes := b!"--" ++ f.1 ++ b!"=" ++ f.2.

(** A flag names a path of non-empty segments. *)
Definition flag_ok (f : bytes * bytes) : Prop := x3d ∉ f.1 /\ Forall (fun s => s <> []) (split_on x2e f.1).

Definition assign (entries : Entries) (f : bytes * bytes) : Entries :=
  insert_nested (split_on x2e f.1) (Value.Str f.2) entries.

Lemma args_loop_flags fs : forall entries,
  Forall flag_ok fs -> args_loop (map flag fs) entries = foldl assign entries fs.
Proof.
  induction fs as [|[k v] fs IH]; intros entries Hf; [done|]. apply Forall_cons in Hf as [[Hk Hs] Hf].
  cbn [map args_loop foldl]. unfold flag at 1. cbn [fst snd] in *. rewrite strip_prefix_app.
  change (k ++ b!"=" ++ v) with (k ++ x3d :: v). rewrite split_once_app by done. rewrite IH by done.
  unfold insert_path, assign. cbn [fst snd].
  destruct (existsb (fun s => bool_decide (s = [])) (split_on x2e k)) eqn:E; [|done].
  apply existsb_exists in E as (s & Hin & Hb). apply bool_decide_eq_true in Hb.
  rewrite Forall_forall in Hs. apply list_elem_of_In, Hs in Hin. done.
Qed.

Definition pairwise (fs : list (bytes * bytes)) : Prop :=
  StronglySorted (fun f g => diverge (split_on x2e f.1) (split_on x2e g.1) = true) fs.

Lemma assign_unique fs : unique (Value.Object (foldl assign [] fs)) = true.
Proof.
  induction fs as [|f fs IH] using rev_ind; [done|]. rewrite foldl_app. by apply insert_nested_unique.
Qed.

Lemma assign_nav fs k v :
  Forall flag_ok fs -> pairwise fs -> (k, v) ∈ fs ->
  nav (Value.Object (foldl assign [] fs)) (split_on x2e k) = Some (Value.Str v).
Proof.
  induction fs as [|[k' v'] fs IH] using rev_ind; [set_solver|]. intros [Hf Hl]%Forall_app Hp.
  apply Forall_singleton in Hl as [_ Hl]. cbn [fst] in Hl.
  rewrite foldl_app. cbn [foldl]. unfold assign at 1. cbn [fst snd].
  rewrite elem_of_app, list_elem_of_singleton. intros [Hin|[= -> ->]].
  - rewrite nav_insert_nested_other.
    + apply IH; [done| |done]. by apply StronglySorted_app_1_l in Hp.
    + rewrite Forall_forall in Hf. by apply (Hf (k, v)).
    + apply assign_unique.
    + rewrite diverge_sym. apply (StronglySorted_app_1_elem_of _ _ _ (k, v) (k', v') Hp); set_solver.
  - apply nav_insert_nested; [apply split_on_nonempty|done|apply assign_unique].
Qed.

Lemma assign_other fs q :
  q <> [] -> Forall (fun s => s <> []) q ->
  (forall k v, (k, v) ∈ fs -> diverge (split_on x2e k) q = true) ->
  nav (Value.Object (foldl assign [] fs)) q = None /\ blocked (Value.Object (foldl assign [] fs)) q = false.
Proof.
  intros Hne Hq. induction fs as [|[k v] fs IH] using rev_ind; intros Hd.
  { destruct q as [|s q]; [done|]. apply Forall_cons in Hq as [Hs _]. cbn. by rewrite bool_decide_false. }
  rewrite foldl_app. cbn [foldl]. unfold assign at 1 3. cbn [fst snd].
  destruct IH as [H1 H2]; [intros k' v' Hin; apply (Hd k' v'); set_solver|].
  split.
  - rewrite nav_insert_nested_other; [done|done|apply assign_unique|]. apply (Hd k v). set_solver.
  - apply blocked_insert_other; [apply assign_unique| |done]. apply (Hd k v). set_solver.
Qed.

(** ** Layers as finite maps *)

Lemma table_get v s m : unique v = true -> table v = Some m -> m !! s = Value.get v s.
Proof.
  destruct v as [| | | | | | | |o]; try done. intros [Hn _]%unique_object [= <-]. unfold Value.get. cbn [Value.as_object mbind option_bind].
  induction o as [|[k v] o IH]; [done|]. cbn [map fst] in Hn. apply NoDup_cons in Hn as [Hk Hn]. rewrite find_cons by done.
  cbn [list_to_map foldr fst snd]. case_bool_decide as E; [subst; by simpl_map|]. rewrite lookup_insert_ne by done. by apply IH.
Qed.

Lemma table_dom o k : k ∈ dom (list_to_map o : gmap bytes Value) <-> k ∈ map fst o.
Proof. rewrite dom_list_to_map. set_solver. Qed.

Lemma layer_keys o : forall b k, k ∈ map fst (layer o b) <-> k ∈ map fst b \/ k ∈ map fst o.
Proof.
  induction o as [|[k' ov] o IH]; intros b k; cbn [layer map fst]; [set_solver|]. rewrite IH, upsert_keys. case_bool_decide; set_solver.
Qed.

Lemma later_wins_deeper r1 r2 : later_wins (deeper r1) (deeper r2) = deeper (later_wins r1 r2).
Proof. destruct r1 as [| |n|n], r2 as [| |m|m]; try done. cbn. by destruct (n <=? m)%nat. Qed.

(** Merging is [later_wins] at every path. *)
Lemma reading_merge path : forall b o, unique b = true -> unique o = true ->
  reading (merge b o) path = later_wins (reading b path) (reading o path).
Proof.
  induction path as [|s path IH]; intros b o Hb Ho; (destruct (is_object o) eqn:Eo;
    [|rewrite merge_other by (by rewrite Eo, andb_false_r); by destruct o]);
    (destruct (is_object b) eqn:Eb;
      [|rewrite merge_other by (by rewrite Eb); destruct o as [| | | | | | | |o]; try done; destruct b; try done; cbn [reading table];
        try (destruct (_ !! s) as [w|]; [by destruct (reading w path)|done])]);
    destruct b as [| | | | | | | |b], o as [| | | | | | | |o]; try done.
  - rewrite merge_objects. cbn [reading table later_wins]. f_equal. apply set_eq. intros k.
    by rewrite elem_of_union, !table_dom, layer_keys.
  - assert (unique (merge (Value.Object b) (Value.Object o)) = true) as Hm by by apply unique_merge.
    pose proof (get_merge _ _ s Hb Ho eq_refl) as Hg. rewrite merge_objects in *. cbn [reading table].
    rewrite (table_get _ s _ Hm eq_refl), Hg, (table_get _ s _ Hb eq_refl), (table_get _ s _ Ho eq_refl).
    destruct (Value.get (Value.Object b) s) as [bv|] eqn:Ebv, (Value.get (Value.Object o) s) as [ov|] eqn:Eov; cbn [overlay].
    + rewrite IH, later_wins_deeper; [done|exact (unique_get _ _ _ Hb Ebv)|exact (unique_get _ _ _ Ho Eov)].
    + by destruct (reading bv path).
    + by destruct (reading ov path).
    + done.
Qed.

Lemma reading_merge_all layers : forall base path,
  unique base = true -> Forall (fun l => unique l = true) layers ->
  unique (foldl merge_value base layers) = true /\
  reading (foldl merge_value base layers) path = foldl later_wins (reading base path) (map (fun l => reading l path) layers).
Proof.
  induction layers as [|l layers IH]; intros base path Hb Hl; [done|]. apply Forall_cons in Hl as [Hl0 Hl]. cbn [foldl map].
  change (merge_value base l) with (merge base l). rewrite <- reading_merge by done. apply IH; [by apply unique_merge|done].
Qed.

Lemma nav_skips_empty segs : forall v, nav v segs = nav v (List.filter (fun s => negb (bool_decide (s = []))) segs).
Proof.
  induction segs as [|s segs IH]; intros v; [done|]. cbn [List.filter nav]. case_bool_decide as E; cbn [negb]; [apply IH|].
  cbn [nav]. rewrite bool_decide_false by done. destruct (Value.get v s); [apply IH|done].
Qed.

(** Navigation finds what is at the path. *)
Lemma nav_reading path : forall v, unique v = true -> Forall (fun s => s <> []) path ->
  match reading v path with
  | Scalar w => nav v path = Some w
  | Table ks => exists o, nav v path = Some (Value.Object o) /\ ks = list_to_set (map fst o)
  | Missing _ | Blocked _ => nav v path = None
  end.
Proof.
  induction path as [|s path IH]; intros v Hv Hs.
  - destruct v as [| | | | | | | |o]; try done. cbn [reading table nav]. exists o. split; [done|]. apply set_eq. intros k.
    by rewrite table_dom, elem_of_list_to_set.
  - apply Forall_cons in Hs as [Hs0 Hs]. cbn [nav]. rewrite bool_decide_false by done.
    destruct (table v) as [m|] eqn:Et; cbn [reading]; rewrite Et; [|by destruct v].
    rewrite (table_get v s m Hv Et). destruct (Value.get v s) as [w|] eqn:Ew; [|done].
    specialize (IH w (unique_get _ _ _ Hv Ew) Hs). by destruct (reading w path).
Qed.

(** C32 Layering: of layers none of which repeats a key in an object (the model's base, files, environment and flags, in the
    order they are merged), the merged configuration repeats none either, and at every path it is what the layers say
    there taken in order, later ones winning ([later_wins]): a value of a later layer that is no table replaces what
    earlier layers have; a table is added to the earlier table key by key and replaces a value that is no table; where a
    later layer has nothing the earlier reading stays, and below a value that is no table nothing is left.  [navigate],
    by which keys are looked up, returns that reading: the value, the table, or nothing. *)
Theorem config_layering (base : Value) (layers : list Value) :
  Forall (fun l => unique l = true) (base :: layers) ->
  let merged := foldl merge_value base layers in
  unique merged = true /\
  (forall path, reading merged path = foldl later_wins (reading base path) (map (fun l => reading l path) layers)) /\
  (forall key, match reading merged (path_of key) with
               | Scalar v => navigate merged key = Some v
               | Table ks => exists o, navigate merged key = Some (Value.Object o) /\ ks = list_to_set (map fst o)
               | Missing _ | Blocked _ => navigate merged key = None
               end).
Proof.
  intros [Hb Hl]%Forall_cons merged. subst merged. split; [by apply (reading_merge_all layers base [])|]. split.
  - intros path. by apply reading_merge_all.
  - intros key. unfold navigate. rewrite nav_skips_empty. apply nav_reading; [by apply (reading_merge_all layers base [])|].
    apply Forall_forall. intros s Hs. apply list_elem_of_In, filter_In in Hs as [_ Hs].
    by apply negb_true_iff, bool_decide_eq_false in Hs.
Qed.

Lemma config_layering_witness :
  let file := Value.Object [(b!"db", Value.Object [(b!"host", Value.Str (b!"a")); (b!"port", Value.Int 1)])] in
  let env := Value.Object [(b!"db", Value.Object [(b!"host", Value.Str (b!"z"))])] in
  let args := Value.Object [(b!"db", Value.Object [(b!"host", Value.Str (b!"y"))])] in
  let merged := foldl merge_value file [env; args] in
  navigate merged (b!"db..port") = Some (Value.Int 1) /\ navigate merged (b!"db.host") = Some (Value.Str (b!"y")) /\
  reading merged [b!"db"] = Table {[b!"host"; b!"port"]} /\ reading merged [b!"db"; b!"host"; b!"x"] = Blocked 2.
Proof.
  intros file env args merged.
  destruct (config_layering file [env; args]) as (_ & H1 & H2); [repeat constructor|].
  assert (forall key r, foldl later_wins (reading file (path_of key)) (map (fun l => reading l (path_of key)) [env; args]) = Scalar r ->
    navigate merged key = Some r) as Hn.
  { intros key r Hr. specialize (H2 key). specialize (H1 (path_of key)). rewrite Hr in H1. unfold merged. by rewrite H1 in H2. }
  split; [by apply Hn; vm_compute|]. split; [by apply Hn; vm_compute|].
  split; (etransitivity; [apply H1|by vm_compute]).
Defined.

(** Flags: command-line flags whose paths do not conflict override exactly their
    own paths: each flag's key reads back as its value whatever the earlier layers
    hold there, and every key that diverges from all flags reads as before. *)
Theorem flags_override_exactly (base : Value) (fs : list (bytes * bytes)) :
  unique base = true -> Forall flag_ok fs -> pairwise fs ->
  (forall k v, (k, v) ∈ fs -> get (merge_args base (map flag fs)) k = Ok (Value.Str v)) /\
  (forall q, Forall (fun s => s <> []) (split_on x2e q) ->
     (forall k v, (k, v) ∈ fs -> diverge (split_on x2e k) (split_on x2e q) = true) ->
     get (merge_args base (map flag fs)) q = get base q).
Proof.
  intros Hb Hf Hp. unfold get, merge_args, navigate. rewrite args_loop_flags by done. split.
  - intros k v Hin. pose proof Hf as Hs. rewrite Forall_forall in Hs. destruct (Hs _ Hin) as [_ Hk]. cbn [fst] in Hk.
    rewrite nav_merge by (done || apply assign_unique). rewrite (assign_nav fs k v) by done.
    rewrite (nav_not_blocked _ _ _ Hk (assign_nav fs k v Hf Hp Hin)). cbn [overlay].
    destruct (nav base (split_on x2e k)) as [bv|]; [|done]. cbn [overlay]. by rewrite merge_other by (by rewrite andb_false_r).
  - intros q Hq Hd. rewrite nav_merge by (done || apply assign_unique).
    destruct (assign_other fs (split_on x2e q) (split_on_nonempty _ _) Hq Hd) as [-> ->].
    by destruct (nav base (split_on x2e q)).
Qed.

Lemma flags_override_exactly_witness :
  get (merge_args (Value.Object [(b!"db", Value.Str (b!"x")); (b!"n", Value.Int 3)])
         [b!"--db.host=h"; b!"--db.port=5432"]) (b!"db.port") = Ok (Value.Str (b!"5432")) /\
  get (merge_args (Value.Object [(b!"db", Value.Str (b!"x")); (b!"n", Value.Int 3)])
         [b!"--db.host=h"; b!"--db.port=5432"]) (b!"n") = Ok (Value.Int 3).
Proof.
  destruct (flags_override_exactly (Value.Object [(b!"db", Value.Str (b!"x")); (b!"n", Value.Int 3)])
    [(b!"db.host", b!"h"); (b!"db.port", b!"5432")]) as [H1 H2].
  - vm_compute. reflexivity.
  - repeat constructor; try done; apply (bool_decide_unpack _); vm_compute; done.
  - repeat constructor.
  - split; [apply (H1 (b!"db.port") (b!"5432")); set_solver|].
    apply (H2 (b!"n")); [repeat constructor; done|].
    intros k v [[= -> ->]|[[= -> ->]|[]%not_elem_of_nil]%elem_of_cons]%elem_of_cons; reflexivity.
Defined.

(** With a repeated key in an earlier layer the later layer updates the first entry
    while reading takes the last: the override is lost. *)
Example duplicate_key_defeats_override :
  let file := Value.Object [(b!"port", Value.Int 1); (b!"port", Value.Int 2)] in
  get (merge_args file [b!"--port=3"]) (b!"port") = Ok (Value.Int 2).
Proof. vm_compute. reflexivity. Qed.

(** The nested form does not always win over the scalar one: the variables are
    sorted before their names are lower-cased. *)
Example env_scalar_hides_nested :
  env_to_value to_ascii_lowercase [(b!"APP_DB__HOST", b!"h"); (b!"APP_db", b!"s")] (b!"APP_") =
  Value.Object [(b!"db", Value.Str (b!"s"))].
Proof. vm_compute. reflexivity. Qed.

(** Property files are read, although the message for other files says otherwise. *)
Example properties_are_supported :
  load_file (fun _ => Some (b!"properties")) (fun _ => Ok (b!"db.host = a")) (b!"x.properties") =
  Some (Ok (Value.Object [(b!"db", Value.Object [(b!"host", Value.Str (b!"a"))])])).
Proof. vm_compute. reflexivity. Qed.

(** ** Files written by the codecs *)

Import (hints) Traits.Traits Derive.Derive Registry.Registry.

(** The codec of a file format, if it has one. *)
Definition codec (f : FileFormat) : option Registry.Format :=
  match f with FJson => Some Registry.Json | FYaml => Some Registry.Yaml | FXml => Some Registry.Xml | FProperties => None end.

(** A file written by the codec of its extension configures the value that was encoded: for every type built from
    the implementations of [Encode] and [Decode], loading the file and extracting the configuration gives the value
    back, when the format represents its tree faithfully. *)
Theorem config_file_roundtrip {T} `{Traits.Encode T, Traits.Decode T, Traits.Valid T} (fmt : FileFormat) (f : Registry.Format)
  `{!Traits.Lossless (Registry.loose f) T} (extension : bytes -> option bytes) (read_file : bytes -> Result bytes bytes)
  (path : bytes) (x : T) :
  file_format extension path = Ok fmt -> codec fmt = Some f ->
  read_file path = Ok (Registry.write (Codec := Registry.codec_of f) (Traits.encode x)) ->
  Utf8.is_utf8 (Registry.write (Codec := Registry.codec_of f) (Traits.encode x)) = true ->
  Traits.valid x -> Registry.faithful f (Traits.encode x) = true ->
  exists v, from_file extension read_file path = Some (Ok v) /\ extract v = Ok x.
Proof.
  intros Hf Hc Hr Hu Hx Hok. destruct (Registry.faithful_read f _ Hok) as (w & Hw & Hi). exists w. split.
  - unfold from_file, load_file. rewrite Hf. cbn [map_err fbind]. rewrite Hr. cbn [map_err fbind].
    destruct fmt; cbn [codec] in Hc; simplify_eq; cbn [Registry.codec_of] in *;
      [|rewrite (from_utf8_ok _ Hu); cbn [map_err fbind]; by rewrite Hw..].
    unfold from_slice, from_str. rewrite (from_utf8_ok _ Hu). cbn [map_err rbind]. cbn [Registry.from_str] in Hw.
    destruct (from_str_fuel _) as [[v|]|]; simplify_eq/=. done.
  - unfold extract. by rewrite (Traits.decode_image (loose := Registry.loose f) x w Hx Hi).
Qed.

Lemma config_file_roundtrip_witness :
  exists v, from_file (fun _ => Some (b!"YML")) (fun _ => Ok Registry.sample_yaml) (b!"app.YML") = Some (Ok v) /\
    extract v = Ok Registry.sample.
Proof.
  apply (config_file_roundtrip FYaml Registry.Yaml); try (vm_compute; reflexivity). vm_compute. repeat constructor.
Defined.
