(* ===== verification/Health.v ===== *)
(** * Health registry and error aggregation ([lifecycle/health.rs], [errutils.rs])

    A check may have side effects: it is a function of a state [St] that returns
    its status and the new state. *)

From S2P Require Import Prelude Text.

Open Scope Z_scope.

Module Health.

Inductive HealthStatus := Up | Degraded | Down.

#[export] Instance HealthStatus_eq_dec : EqDecision HealthStatus.
Proof. solve_decision. Defined.

Definition as_str (s : HealthStatus) : bytes :=
  match s with Up => b!"up" | Degraded => b!"degraded" | Down => b!"down" end.

(** The escape of a byte in [escape_json_into], [None] when it is copied. *)
Definition escape_char (b : byte) : option bytes :=
  if bool_decide (b = x22) then Some [x5c; x22]
  else if bool_decide (b = x5c) then Some [x5c; x5c]
  else if bool_decide (b = x0a) then Some [x5c; x6e]
  else if bool_decide (b = x0d) then Some [x5c; x72]
  else if bool_decide (b = x09) then Some [x5c; x74]
  else if b2z b <? 0x20 then
    let hex d := if d <? 10 then z2b (48 + d) else z2b (87 + d) in
    Some [x5c; x75; x30; x30; hex (b2z b / 16); hex (b2z b mod 16)]
  else None.

Definition escape_json_into (out s : bytes) : bytes :=
  out ++ flat_map (fun b => default [b] (escape_char b)) s.

Section Registry.
Context {St : Type}.

Definition Check := St -> HealthStatus * St.

(** [HealthRegistry] *)
Definition Registry := list (bytes * Check).

Definition registry_new : Registry := [].

Definition register (r : Registry) (name : bytes) (check : Check) : Registry := r ++ [(name, check)].

(** Runs every check of the snapshot, in order. *)
Fixpoint report (r : Registry) (s : St) : list (bytes * HealthStatus) * St :=
  match r with
  | [] => ([], s)
  | (name, check) :: r' =>
      let '(st, s1) := check s in
      let '(l, s2) := report r' s1 in
      ((name, st) :: l, s2)
  end.

(** The loop of [overall]. *)
Fixpoint overall_loop (l : list (bytes * HealthStatus)) (worst : HealthStatus) : HealthStatus :=
  match l with
  | [] => worst
  | (_, Down) :: _ => Down
  | (_, Degraded) :: l' => overall_loop l' Degraded
  | (_, Up) :: l' => overall_loop l' worst
  end.

Definition overall (r : Registry) (s : St) : HealthStatus * St :=
  let '(l, s') := report r s in (overall_loop l Up, s').

Definition is_ready (r : Registry) (s : St) : bool * St :=
  let '(l, s') := report r s in (forallb (fun p => bool_decide (p.2 = Up)) l, s').

(** The aggregation inside [to_json]. *)
Definition aggregate (l : list (bytes * HealthStatus)) : HealthStatus :=
  foldl (fun acc p => match acc, p.2 with
                      | _, Down => Down
                      | Up, Degraded => Degraded
                      | a, _ => a
                      end) Up l.

Definition json_entry (p : bytes * HealthStatus) : bytes :=
  escape_json_into [x22] p.1 ++ [x22; x3a; x22] ++ as_str p.2 ++ [x22].

Definition to_json (r : Registry) (s : St) : bytes * St :=
  let '(l, s') := report r s in
  (b!"{" ++ [x22] ++ b!"overall" ++ [x22; x3a; x22] ++ as_str (aggregate l) ++ [x22; x2c; x22] ++ b!"checks"
   ++ [x22; x3a; x7b] ++ join [x2c] (map json_entry l) ++ b!"}}", s').

End Registry.

End Health.

(** ** [MultiError] *)

Module MultiError.
Section MultiError.
(** [BoxError], by its [Display]. *)
Context {E : Type} (display : E -> bytes) (string_error : bytes -> E).

Definition t := list E.

Definition new : t := [].
Definition push (m : t) (e : E) : t := m ++ [e].
Definition push_msg (m : t) (s : bytes) : t := m ++ [string_error s].
Definition extend (m : t) (es : list E) : t := m ++ es.
Definition is_empty (m : t) : bool := bool_decide (length m = 0%nat).
Definition into_result (m : t) : Result unit t := if is_empty m then Ok tt else Err m.

(** [Display for MultiError] *)
Definition multi_display (m : t) : bytes :=
  show_uint (Z.of_nat (length m)) ++ b!" error(s) occurred:" ++
  concat (imap (fun i e => [x0a] ++ b!"  [" ++ show_uint (Z.of_nat i + 1) ++ b!"] " ++ display e) m).

End MultiError.
End MultiError.

Import Health.

(** ** Aggregation *)

(** The worst status, as documented. *)
Definition worst (l : list HealthStatus) : HealthStatus :=
  if bool_decide (Down ∈ l) then Down else if bool_decide (Degraded ∈ l) then Degraded else Up.

Lemma overall_loop_spec l : forall w, w <> Down ->
  overall_loop l w = worst (w :: map snd l).
Proof.
  induction l as [|[n st] l IH]; intros w Hw.
  { destruct w; [done|done|congruence]. }
  cbn [overall_loop map snd]. destruct st.
  - rewrite IH by done. unfold worst. repeat case_bool_decide; set_solver.
  - rewrite IH by done. unfold worst. destruct w; repeat case_bool_decide; set_solver.
  - unfold worst. by rewrite bool_decide_true by set_solver.
Qed.

Lemma aggregate_worst l : aggregate l = worst (map snd l).
Proof.
  unfold aggregate. induction l as [|[n st] l IH] using rev_ind; [done|].
  rewrite foldl_app, map_app, IH. cbn [foldl map snd]. unfold worst.
  destruct st; repeat case_bool_decide; set_solver.
Qed.

(** The registry's three views run every check once, in order, and agree: the
    aggregate is the worst status reported ([Up] when there is no check), and
    readiness means every check is up. *)
Theorem health_views_agree {St : Type} (r : Registry (St := St)) (s : St) :
  let '(l, s') := report r s in
  map fst l = map fst r /\ overall r s = (worst (map snd l), s') /\
  (is_ready r s).2 = s' /\ ((is_ready r s).1 = true <-> (forall st, st ∈ map snd l -> st = Up)) /\
  (to_json r s).2 = s' /\ aggregate l = worst (map snd l) /\ (worst (map snd l) = Up <-> (is_ready r s).1 = true).
Proof.
  assert (map fst (report r s).1 = map fst r) as Hn.
  { revert s. induction r as [|[n c] r IH]; intros s; [done|]. cbn [report].
    destruct (c s) as [st s1]. specialize (IH s1). destruct (report r s1) as [l s2]. cbn [fst map] in *. by rewrite IH. }
  unfold overall, is_ready, to_json. destruct (report r s) as [l s']. cbn [fst snd] in *.
  assert (forallb (fun p : bytes * HealthStatus => bool_decide (p.2 = Up)) l = true <-> (forall st, st ∈ map snd l -> st = Up)) as Hr.
  { rewrite forallb_forall. split.
    - intros H st Hin. apply list_elem_of_In, in_map_iff in Hin as ([n x] & <- & Hin).
      apply H in Hin. by apply bool_decide_eq_true in Hin.
    - intros H [n x] Hin. apply bool_decide_eq_true, H. apply list_elem_of_In, in_map_iff. by exists (n, x). }
  assert (overall_loop l Up = worst (map snd l)) as ->.
  { rewrite overall_loop_spec by done. unfold worst. repeat case_bool_decide; set_solver. }
  split_and!; [done|done|done|done|done|apply aggregate_worst|].
  rewrite Hr. unfold worst. split.
  - intros H st Hin. repeat case_bool_decide; try done. destruct st; [done|by destruct H1|by destruct H0].
  - intros H. rewrite !bool_decide_false; [done| |]; intros Hin; by apply H in Hin.
Qed.
