(* ===== verification/Vectorstore.v ===== *)
(** * In-memory vector store ([vectorstore/mod.rs])

    Similarity metrics on binary32 vectors and the brute-force store.  The
    iteration order of the store's hash map is an argument of [search]: any
    enumeration of the stored documents. *)

From S2P Require Import Prelude Text Ordered Value.

Open Scope Z_scope.

Module VectorStore.

Notation Vector := (list F32.t).

Inductive Metric := Cosine | Dot | Euclidean.

Record Doc := mkDoc { id : bytes; vector : Vector; metadata : Value }.

Definition doc_new (i : bytes) (v : Vector) : Doc := mkDoc i v Value.Null.
Definition with_metadata (d : Doc) (m : Value) : Doc := mkDoc (id d) (vector d) m.

Record Query := mkQuery { q_vector : Vector; top_k : nat; metric : Metric }.

Definition query_new (v : Vector) (k : nat) : Query := mkQuery v k Cosine.

Record Hit := mkHit { hit_id : bytes; score : F32.t; doc : Doc }.

Inductive VectorStoreError := DimMismatch (expected got : nat) | Backend (m : bytes).

(** ** Metrics *)

(** [iter.sum::<f32>()] *)
Definition sum (l : list F32.t) : F32.t := foldl F32.add F32.zero l.

Definition dot (a b : Vector) : F32.t := sum (zip_with F32.mul a b).

Definition dot_self (a : Vector) : F32.t := sum (map (fun x => F32.mul x x) a).

Definition cosine (a b : Vector) : F32.t :=
  let d := dot a b in
  let na := F32.sqrt (dot_self a) in
  let nb := F32.sqrt (dot_self b) in
  if F32.eqb na F32.zero || F32.eqb nb F32.zero then F32.zero
  else F32.div d (F32.mul na nb).

Definition euclidean (a b : Vector) : F32.t :=
  F32.sqrt (sum (zip_with (fun x y => let d := F32.sub x y in F32.mul d d) a b)).

Definition score_for (m : Metric) (a b : Vector) : F32.t :=
  match m with
  | Cosine => cosine a b
  | Dot => dot a b
  | Euclidean => F32.opp (euclidean a b)
  end.

(** ** The store *)

Record Inner := mkInner { docs : gmap bytes Doc; dim : option nat }.

Definition store_new : Inner := mkInner ∅ None.

Definition store_len (s : Inner) : nat := size (docs s).

(** The first loop of [upsert]: the dimension is set by the first vector. *)
Fixpoint check_dims (ds : list Doc) (d : option nat) : option nat * Result unit VectorStoreError :=
  match ds with
  | [] => (d, Ok tt)
  | x :: ds' =>
      let expected := default (length (vector x)) d in
      if bool_decide (length (vector x) = expected) then check_dims ds' (Some expected)
      else (Some expected, Err (DimMismatch expected (length (vector x))))
  end.

Definition upsert (ds : list Doc) (s : Inner) : Inner * Result unit VectorStoreError :=
  match check_dims ds (dim s) with
  | (d, Err e) => (mkInner (docs s) d, Err e)
  | (d, Ok _) => (mkInner (foldl (fun m x => <[id x := x]> m) (docs s) ds) d, Ok tt)
  end.

Definition delete (ids : list bytes) (s : Inner) : Inner :=
  mkInner (foldl (fun m i => base.delete i m) (docs s) ids) (dim s).

(** The comparator: scores descending, NaN last, ties by id. *)
Definition hit_cmp (a b : Hit) : comparison :=
  let by_score :=
    match F32.partial_cmp (score b) (score a) with
    | Some ord => ord
    | None =>
        match F32.is_nan (score a), F32.is_nan (score b) with
        | true, false => Gt
        | false, true => Lt
        | _, _ => Eq
        end
    end in
  then_with by_score (cmp (hit_id a) (hit_id b)).

Definition hit_for (q : Query) (d : Doc) : Hit := mkHit (id d) (score_for (metric q) (q_vector q) (vector d)) d.

(** [search]; [vals] is [docs.values()] in the map's order. *)
Definition search (vals : list Doc) (q : Query) (s : Inner) : Result (list Hit) VectorStoreError :=
  match dim s with
  | Some d =>
      if bool_decide (length (q_vector q) = d) then Ok (take (top_k q) (sort_by hit_cmp (map (hit_for q) vals)))
      else Err (DimMismatch d (length (q_vector q)))
  | None => Ok (take (top_k q) (sort_by hit_cmp (map (hit_for q) vals)))
  end.

(** One call of a client. *)
Inductive Op := Upsert (ds : list Doc) | Delete (ids : list bytes).

Definition apply (s : Inner) (o : Op) : Inner :=
  match o with Upsert ds => fst (upsert ds s) | Delete ids => delete ids s end.

(** Every document is stored under its own id with the collection's dimension. *)
Definition inv (s : Inner) : Prop :=
  forall i d, docs s !! i = Some d -> id d = i /\ dim s = Some (length (vector d)).

End VectorStore.

Import VectorStore.

(** ** The ranking is a total order *)

(** NaN after everything, then score descending, then id. *)
Definition hit_key (h : Hit) : Z * (Z * (Z * Z)) * bytes :=
  (((if F32.is_nan (score h) then 1 else 0),
    let k := float_key (score h) in (- k.1, (- k.2.1, - k.2.2))), hit_id h).

Lemma hit_cmp_key a b : hit_cmp a b = cmp (hit_key a) (hit_key b).
Proof.
  unfold hit_cmp, hit_key. rewrite !cmp_pair. unfold F32.partial_cmp.
  destruct (F32.is_nan (score a)) eqn:Ea, (F32.is_nan (score b)) eqn:Eb.
  - destruct (score a), (score b); try discriminate. reflexivity.
  - destruct (score a), (score b); try discriminate; reflexivity.
  - destruct (score a), (score b); try discriminate; reflexivity.
  - rewrite float_cmp_key by done. unfold cmp, Z_cmp. cbn [fst snd]. by rewrite !Z.compare_opp.
Qed.

Lemma hit_cmp_opp a b : hit_cmp b a = CompOpp (hit_cmp a b).
Proof. rewrite !hit_cmp_key. apply cmp_opp. Qed.

Lemma hit_cmp_trans a b c : le_by hit_cmp a b -> le_by hit_cmp b c -> le_by hit_cmp a c.
Proof. unfold le_by. rewrite !hit_cmp_key. apply cmp_le_trans. Qed.

Lemma hits_sorted hs : StronglySorted (le_by hit_cmp) (sort_by hit_cmp hs).
Proof.
  apply (sort_by_sorted hit_cmp (fun _ => True)); [intros; apply hit_cmp_opp|intros x y z _ _ _; apply hit_cmp_trans|].
  by apply Forall_true.
Qed.

(** ** The store's invariant *)

Lemma check_dims_spec ds : forall d d',
  check_dims ds d = (d', Ok tt) ->
  (forall x, x ∈ ds -> d' = Some (length (vector x))) /\ (forall n, d = Some n -> d' = Some n).
Proof.
  induction ds as [|x ds IH]; intros d d'; cbn [check_dims]; [intros [= <-]; split; [set_solver|done]|].
  case_bool_decide as E; [|done]. intros H. apply IH in H as [H1 H2]. specialize (H2 _ eq_refl).
  split.
  - intros y [->|Hy]%elem_of_cons; [|by apply H1]. by rewrite H2, <- E.
  - intros n ->. by rewrite H2.
Qed.

Lemma check_dims_keep ds n : fst (check_dims ds (Some n)) = Some n.
Proof. induction ds as [|x ds IH]; cbn [check_dims default]; [done|]. unfold Datatypes.id. by case_bool_decide. Qed.

Lemma insert_docs_lookup ds : forall (m : gmap bytes Doc) i,
  foldl (fun m x => <[id x := x]> m) m ds !! i =
  match List.find (fun x => bool_decide (id x = i)) (rev ds) with Some x => Some x | None => m !! i end.
Proof.
  induction ds as [|x ds IH] using rev_ind; intros m i; [done|].
  rewrite foldl_app, rev_app_distr. cbn [foldl rev app List.find]. rewrite lookup_insert.
  case_decide as E; [by rewrite bool_decide_true|]. by rewrite bool_decide_false, IH.
Qed.

Lemma delete_docs_lookup ids : forall (m : gmap bytes Doc) i,
  foldl (fun m i => base.delete i m) m ids !! i = if bool_decide (i ∈ ids) then None else m !! i.
Proof.
  induction ids as [|j ids IH]; intros m i; cbn [foldl]; [by rewrite bool_decide_false by set_solver|].
  rewrite IH, lookup_delete. repeat case_bool_decide; repeat case_decide; set_solver.
Qed.

Lemma inv_apply s o : inv s -> inv (apply s o).
Proof.
  intros H. destruct o as [ds|ids]; cbn [apply]; unfold inv.
  - unfold upsert. destruct (check_dims ds (dim s)) as [d [[]|e]] eqn:E; cbn [fst docs dim].
    + apply check_dims_spec in E as [E1 E2]. intros i x. rewrite insert_docs_lookup.
      destruct (List.find _ (rev ds)) as [y|] eqn:Ef.
      * intros [= ->]. apply find_some in Ef as [Hin Hid]. apply bool_decide_eq_true in Hid.
        split; [done|]. apply E1. by apply list_elem_of_In, in_rev.
      * intros Hx. destruct (H i x Hx) as [H1 H2]. split; [done|]. by apply E2.
    + intros i x Hx. destruct (H i x Hx) as [H1 H2]. split; [done|].
      pose proof (check_dims_keep ds (length (vector x))) as Hk. rewrite <- H2, E in Hk. cbn [fst] in Hk. by rewrite Hk.
  - cbn [delete docs dim]. intros i x. rewrite delete_docs_lookup. case_bool_decide; [done|]. apply H.
Qed.

Lemma inv_run ops : forall s, inv s -> inv (foldl apply s ops).
Proof. induction ops as [|o ops IH]; intros s H; [done|]. cbn [foldl]. by apply IH, inv_apply. Qed.

Definition stored_as (s : Inner) (vals : list Doc) : Prop := vals ≡ₚ map snd (map_to_list (docs s)).

Lemma stored_ids_inj s vals d d' : inv s -> stored_as s vals -> d ∈ vals -> d' ∈ vals -> id d = id d' -> d = d'.
Proof.
  intros Hi Hs. unfold stored_as in Hs. rewrite Hs.
  intros Hd Hd'. apply list_elem_of_In, in_map_iff in Hd as ([i x] & <- & Hx).
  apply list_elem_of_In, in_map_iff in Hd' as ([i' x'] & <- & Hx').
  apply list_elem_of_In, elem_of_map_to_list in Hx, Hx'. cbn [snd].
  destruct (Hi _ _ Hx) as [E _], (Hi _ _ Hx') as [E' _]. intros Hid. rewrite E, E' in Hid. subst i'. congruence.
Qed.

(** Vector store: after any sequence of upserts and deletes, every document is
    stored under its id with the collection's dimension, so no score is computed on
    vectors of different lengths; a search with a query of that dimension returns the
    [top_k] best documents (all when there are fewer), best first with NaN scores
    last and ties by id: no document left out ranks before one returned; and the
    answer does not depend on the order in which the hash map enumerates. *)
Theorem search_returns_best (ops : list Op) (q : Query) (vals vals' : list Doc) :
  let s := foldl apply store_new ops in
  stored_as s vals -> stored_as s vals' -> (forall n, dim s = Some n -> length (q_vector q) = n) ->
  Forall (fun d => length (vector d) = length (q_vector q)) vals /\
  exists best rest, search vals q s = Ok best /\ search vals' q s = Ok best /\
    best ++ rest ≡ₚ map (hit_for q) vals /\ length best = Nat.min (top_k q) (length vals) /\
    StronglySorted (le_by hit_cmp) best /\
    (forall h h', h ∈ best -> h' ∈ rest -> le_by hit_cmp h h').
Proof.
  intros s Hv Hv' Hq.
  assert (inv s) as Hi.
  { apply inv_run. intros i d. cbn [store_new docs]. by rewrite lookup_empty. }
  split.
  { apply Forall_forall. intros d Hd. unfold stored_as in Hv. rewrite Hv in Hd.
    apply list_elem_of_In, in_map_iff in Hd as ([i x] & <- & Hx). apply list_elem_of_In, elem_of_map_to_list in Hx.
    destruct (Hi _ _ Hx) as [_ Hd]. by rewrite (Hq _ Hd). }
  set (ranked := sort_by hit_cmp (map (hit_for q) vals)).
  assert (sort_by hit_cmp (map (hit_for q) vals') = ranked) as Hr.
  { unfold ranked. symmetry. apply (sort_by_unique hit_cmp (fun _ => True)).
    - intros; apply hit_cmp_opp.
    - intros x y z _ _ _. apply hit_cmp_trans.
    - by apply Forall_true.
    - intros x y Hx Hy. rewrite hit_cmp_key, cmp_eq. intros Hid%(f_equal snd).
      unfold hit_key in Hid. cbn [snd] in Hid.
      apply list_elem_of_In, in_map_iff in Hx as (d & <- & Hd), Hy as (d' & <- & Hd').
      cbn [hit_id hit_for] in Hid. f_equal.
      apply list_elem_of_In in Hd, Hd'. by apply (stored_ids_inj s vals).
    - apply Permutation_map. unfold stored_as in *. by rewrite Hv, Hv'. }
  assert (forall v, sort_by hit_cmp (map (hit_for q) v) = ranked -> search v q s = Ok (take (top_k q) ranked)) as Hsearch.
  { intros v E. unfold search. destruct (dim s) as [n|]; [|by rewrite E].
    rewrite bool_decide_true by (by apply Hq). by rewrite E. }
  exists (take (top_k q) ranked), (drop (top_k q) ranked). rewrite take_drop.
  pose proof (hits_sorted (map (hit_for q) vals)) as Hs. fold ranked in Hs.
  split_and!.
  - by apply Hsearch.
  - by apply Hsearch.
  - apply sort_by_perm.
  - rewrite length_take. unfold ranked. by rewrite sort_by_perm, length_map.
  - rewrite <- (take_drop (top_k q) ranked) in Hs. by apply StronglySorted_app_1_l in Hs.
  - intros h h' Hh Hh'. rewrite <- (take_drop (top_k q) ranked) in Hs.
    by eapply StronglySorted_app_1_elem_of.
Qed.

Definition unit_x : Vector := map F32.of_f64 [F64.of_Z 1; F64.of_Z 0].
Definition unit_xy : Vector := map F32.of_f64 [F64.of_Z 1; F64.of_Z 1].

Lemma search_returns_best_witness :
  let s := foldl apply store_new [Upsert [doc_new (b!"b") unit_xy; doc_new (b!"a") unit_x]; Delete [b!"zz"]] in
  exists best, search [doc_new (b!"b") unit_xy; doc_new (b!"a") unit_x] (query_new unit_x 1) s = Ok best /\
    search [doc_new (b!"a") unit_x; doc_new (b!"b") unit_xy] (query_new unit_x 1) s = Ok best /\
    map hit_id best = [b!"a"].
Proof.
  intros s.
  destruct (search_returns_best [Upsert [doc_new (b!"b") unit_xy; doc_new (b!"a") unit_x]; Delete [b!"zz"]]
    (query_new unit_x 1) [doc_new (b!"b") unit_xy; doc_new (b!"a") unit_x]
    [doc_new (b!"a") unit_x; doc_new (b!"b") unit_xy]) as (_ & best & rest & H1 & H2 & _).
  - vm_compute. (reflexivity || apply Permutation_swap).
  - vm_compute. (reflexivity || apply Permutation_swap).
  - intros n. vm_compute. intros [= <-]. reflexivity.
  - exists best. split_and!; [exact H1|exact H2|]. vm_compute in H1. by inversion H1.
Defined.

(** The documented range of [cosine] is [-1, 1]; rounding leaves it. *)
Example cosine_exceeds_one :
  SpecFloat.SFltb (F32.of_f64 (F64.of_Z 1)) (cosine unit_xy unit_xy) = true.
Proof. vm_compute. reflexivity. Qed.

(** A rejected batch stores nothing but fixes the dimension of an empty store. *)
Example failed_upsert_fixes_dimension :
  let s := fst (upsert [doc_new (b!"a") unit_x; doc_new (b!"b") []] store_new) in
  snd (upsert [doc_new (b!"a") unit_x; doc_new (b!"b") []] store_new) = Err (DimMismatch 2 0) /\
  store_len s = 0%nat /\ snd (upsert [doc_new (b!"b") []] s) = Err (DimMismatch 2 0).
Proof. vm_compute. done. Qed.
