(* ===== verification/Metrics.v ===== *)
(** * Metrics with Prometheus text exposition ([metrics/mod.rs])

    Instruments are shared: the registry and its callers hold handles (an
    [Arc]) to the same cells, so the state is a heap of cells next to the
    families that name them.  Module [Observe] has the steps of the lock-free
    [Histogram::observe], whose three updates interleave with those of other
    threads. *)

From Stdlib Require Import SpecFloat.
From S2P Require Import Prelude Text Scan Ordered Value Json Traits.

Open Scope Z_scope.

Module Metrics.

(** ** Instruments *)

(** Wrap-around of [AtomicU64::fetch_add] and [AtomicI64::fetch_add]. *)
Definition wrap_i64 (z : Z) : Z := (z + 9223372036854775808) mod 18446744073709551616 - 9223372036854775808.

Record Counter := mkCounter { c_v : Z }.
Definition counter_inc_by (n : Z) (c : Counter) : Counter := mkCounter (wrap64 (c_v c + n)).
Definition counter_inc (c : Counter) : Counter := counter_inc_by 1 c.

Record Gauge := mkGauge { g_v : Z }.
Definition gauge_set (n : Z) (g : Gauge) : Gauge := mkGauge n.
Definition gauge_add (n : Z) (g : Gauge) : Gauge := mkGauge (wrap_i64 (g_v g + n)).
Definition gauge_inc (g : Gauge) : Gauge := gauge_add 1 g.
Definition gauge_dec (g : Gauge) : Gauge := gauge_add (-1) g.

(** The atomic cells of a histogram; [sum] stands for the bits of the [f64]. *)
Record Histogram := mkHistogram { bounds : list F64.t; counts : list Z; sum : F64.t; count : Z }.

Definition bound_cmp (a b : F64.t) : comparison := default Eq (F64.partial_cmp a b).

Definition histogram_new (bs : list F64.t) : Histogram :=
  let bs := sort_by bound_cmp (List.filter (fun b => negb (F64.is_nan b)) bs) in
  mkHistogram bs (replicate (S (length bs)) 0) (S754_zero false) 0.

(** [bounds.iter().position(|&b| v <= b).unwrap_or(bounds.len())] *)
Fixpoint bucket (bs : list F64.t) (v : F64.t) : nat :=
  match bs with
  | [] => 0
  | b :: bs => if F64.leb v b then 0 else S (bucket bs v)
  end.

Definition bump_bucket (v : F64.t) (h : Histogram) : Histogram :=
  mkHistogram (bounds h) (alter (fun n => wrap64 (n + 1)) (bucket (bounds h) v) (counts h)) (sum h) (count h).
Definition bump_count (h : Histogram) : Histogram := mkHistogram (bounds h) (counts h) (sum h) (wrap64 (count h + 1)).
Definition store_sum (s : F64.t) (h : Histogram) : Histogram := mkHistogram (bounds h) (counts h) s (count h).

(** [observe] by one thread alone: the first exchange succeeds. *)
Definition observe (v : F64.t) (h : Histogram) : Histogram :=
  let h := bump_count (bump_bucket v h) in
  store_sum (F64.add (sum h) v) h.

(** ** Registry *)

Inductive Kind := KCounter | KGauge | KHistogram.

#[export] Instance kind_eq_dec : EqDecision Kind.
Proof. solve_decision. Defined.

(** [Instrument]: its kind and the handle of its cell. *)
Record Instrument := mkInstrument { kind : Kind; handle : nat }.

Definition type_str (i : Instrument) : bytes :=
  match kind i with KCounter => b!"counter" | KGauge => b!"gauge" | KHistogram => b!"histogram" end.

Inductive Cell := CCounter (c : Counter) | CGauge (g : Gauge) | CHistogram (h : Histogram).

Definition Labels := list (bytes * bytes).

Record Family := mkFamily { help : bytes; series : @BTreeMap.Map Labels Instrument }.

Record Registry := mkRegistry { families : @BTreeMap.Map bytes Family; cells : list Cell }.

Definition registry_new : Registry := mkRegistry [] [].

Definition sorted_labels (labels : Labels) : Labels := sort_by cmp labels.

(** [counter], [gauge] and [histogram]: the instrument under the name and labels,
    created on first use; a name and labels in use for another kind give a
    detached cell. *)
Definition obtain (k : Kind) (fresh : Cell) (name hlp : bytes) (labels : Labels) (r : Registry) : nat * Registry :=
  let fam := default (mkFamily hlp []) (BTreeMap.get name (families r)) in
  let key := sorted_labels labels in
  let h := length (cells r) in
  match BTreeMap.get key (series fam) with
  | None =>
      let fam := mkFamily (help fam) (BTreeMap.insert key (mkInstrument k h) (series fam)) in
      (h, mkRegistry (BTreeMap.insert name fam (families r)) (cells r ++ [fresh]))
  | Some i =>
      if bool_decide (kind i = k) then (handle i, r)
      else (h, mkRegistry (families r) (cells r ++ [fresh]))
  end.

Definition counter (name hlp : bytes) (labels : Labels) (r : Registry) : nat * Registry :=
  obtain KCounter (CCounter (mkCounter 0)) name hlp labels r.
Definition gauge (name hlp : bytes) (labels : Labels) (r : Registry) : nat * Registry :=
  obtain KGauge (CGauge (mkGauge 0)) name hlp labels r.
Definition histogram (name hlp : bytes) (labels : Labels) (bs : list F64.t) (r : Registry) : nat * Registry :=
  obtain KHistogram (CHistogram (histogram_new bs)) name hlp labels r.

(** An operation through a handle. *)
Definition with_cell (f : Cell -> Cell) (h : nat) (r : Registry) : Registry :=
  mkRegistry (families r) (alter f h (cells r)).

Definition on_counter (f : Counter -> Counter) (c : Cell) : Cell := match c with CCounter x => CCounter (f x) | c => c end.
Definition on_gauge (f : Gauge -> Gauge) (c : Cell) : Cell := match c with CGauge x => CGauge (f x) | c => c end.
Definition on_histogram (f : Histogram -> Histogram) (c : Cell) : Cell :=
  match c with CHistogram x => CHistogram (f x) | c => c end.

(** [DEFAULT_BUCKETS] *)
Definition DEFAULT_BUCKETS : list F64.t :=
  [F64.of_decimal false 5 (-3); F64.of_decimal false 1 (-2); F64.of_decimal false 25 (-3); F64.of_decimal false 5 (-2);
   F64.of_decimal false 1 (-1); F64.of_decimal false 25 (-2); F64.of_decimal false 5 (-1); F64.of_Z 1;
   F64.of_decimal false 25 (-1); F64.of_Z 5; F64.of_Z 10].

(** ** Exposition *)

(** [s.replace(c, w)] for one ASCII character. *)
Definition replace (c : byte) (w s : bytes) : bytes := flat_map (fun b => if bool_decide (b = c) then w else [b]) s.

Definition escape_label (v : bytes) : bytes :=
  replace x0a [x5c; x6e] (replace x22 [x5c; x22] (replace x5c [x5c; x5c] v)).
Definition escape_help (v : bytes) : bytes := replace x0a [x5c; x6e] (replace x5c [x5c; x5c] v).

(** [v == v.trunc()] for a finite number. *)
Definition integral (f : F64.t) : bool :=
  match f with
  | S754_zero _ => true
  | S754_finite _ m e => (0 <=? e) || (Z.pos m mod 2 ^ (- e) =? 0)
  | _ => false
  end.

Definition fabs (f : F64.t) : F64.t := SFabs f.

Definition format_f64 (v : F64.t) : bytes :=
  match v with
  | S754_infinity neg => if neg then b!"-Inf" else b!"+Inf"
  | _ =>
      if integral v && F64.ltb (fabs v) (F64.of_Z (10 ^ 15)) then write_i64 [] (Traits.float_as_int i64_min i64_max v)
      else F64.display v
  end.

Definition label_part (kv : bytes * bytes) : bytes := fst kv ++ [x3d; x22] ++ escape_label (snd kv) ++ [x22].

Definition sample_line (name : bytes) (base extra : Labels) (value : F64.t) : bytes :=
  let parts := map label_part base ++ map label_part extra in
  match parts with
  | [] => name ++ [x20] ++ format_f64 value ++ [x0a]
  | _ => name ++ [x7b] ++ join [x2c] parts ++ [x7d; x20] ++ format_f64 value ++ [x0a]
  end.

(** The bucket lines of a histogram: [cumulative] is wrapping [u64] addition (release builds). *)
Fixpoint bucket_lines (name : bytes) (labels : Labels) (bs : list F64.t) (cs : list Z) (cumulative : Z) : bytes :=
  match bs, cs with
  | b :: bs, c :: cs =>
      let cumulative := wrap64 (cumulative + c) in
      sample_line (name ++ b!"_bucket") labels [(b!"le", format_f64 b)] (F64.of_Z cumulative)
      ++ bucket_lines name labels bs cs cumulative
  | [], c :: _ =>
      sample_line (name ++ b!"_bucket") labels [(b!"le", b!"+Inf")] (F64.of_Z (wrap64 (cumulative + c)))
  | _, [] => []
  end.

Definition cell_lines (name : bytes) (labels : Labels) (c : Cell) : bytes :=
  match c with
  | CCounter c => sample_line name labels [] (F64.of_Z (c_v c))
  | CGauge g => sample_line name labels [] (F64.of_Z (g_v g))
  | CHistogram h =>
      bucket_lines name labels (bounds h) (counts h) 0
      ++ sample_line (name ++ b!"_sum") labels [] (sum h)
      ++ sample_line (name ++ b!"_count") labels [] (F64.of_Z (count h))
  end.

Definition family_lines (r : Registry) (name : bytes) (fam : Family) : bytes :=
  let k := match series fam with (_, i) :: _ => type_str i | [] => b!"untyped" end in
  b!"# HELP " ++ name ++ [x20] ++ escape_help (help fam) ++ [x0a] ++
  b!"# TYPE " ++ name ++ [x20] ++ k ++ [x0a] ++
  flat_map (fun s => match cells r !! handle (snd s) with Some c => cell_lines name (fst s) c | None => [] end) (series fam).

Definition encode (r : Registry) : bytes := flat_map (fun nf => family_lines r (fst nf) (snd nf)) (families r).

(** ** Histograms *)

(** The number of elements that satisfy a test. *)
Definition tally {A} (p : A -> bool) (l : list A) : Z := Z.of_nat (length (List.filter p l)).

Lemma tallies_app {A} (p : A -> bool) l k : tally p (l ++ k) = tally p l + tally p k.
Proof. unfold tally. rewrite List.filter_app, length_app. lia. Qed.

Lemma tally_one {A} (p : A -> bool) x : tally p [x] = if p x then 1 else 0.
Proof. unfold tally. cbn [List.filter]. by destruct (p x). Qed.

Lemma tally_range {A} (p : A -> bool) l : 0 <= tally p l <= Z.of_nat (length l).
Proof. unfold tally. pose proof (List.filter_length_le p l). lia. Qed.

Lemma tally_ext {A} (p q : A -> bool) l : (forall x, x ∈ l -> p x = q x) -> tally p l = tally q l.
Proof.
  intros H. unfold tally. do 2 f_equal. induction l as [|x l IH]; [done|]. cbn [List.filter].
  rewrite (H x), IH by set_solver. done.
Qed.

(** Comparisons with the bounds follow their order. *)
Lemma leb_key v b : F64.is_nan v = false -> F64.is_nan b = false -> F64.leb v b = true <-> cmp (float_key v) (float_key b) <> Gt.
Proof.
  intros Hv Hb. unfold F64.leb, SFleb. rewrite float_cmp_key by done. by destruct (cmp _ _).
Qed.

Lemma leb_nan v b : F64.is_nan v = true -> F64.leb v b = false.
Proof. destruct v; try done. Qed.

Definition bounds_ok (bs : list F64.t) : Prop :=
  Forall (fun b => F64.is_nan b = false) bs /\ StronglySorted (fun a b => cmp (float_key a) (float_key b) <> Gt) bs.

Lemma histogram_bounds bs : bounds_ok (bounds (histogram_new bs)).
Proof.
  unfold histogram_new. cbn [bounds]. set (l := List.filter _ bs).
  assert (Forall (fun b => F64.is_nan b = false) l) as Hl.
  { apply Forall_forall. intros b Hb. apply list_elem_of_In, filter_In in Hb as [_ Hb]. by apply negb_true_iff. }
  assert (forall a b, F64.is_nan a = false -> F64.is_nan b = false -> bound_cmp a b = cmp (float_key a) (float_key b)) as Hc.
  { intros a b Ha Hb. unfold bound_cmp, F64.partial_cmp. by rewrite float_cmp_key. }
  split; [by rewrite sort_by_perm|].
  assert (StronglySorted (le_by bound_cmp) (sort_by bound_cmp l)) as Hs.
  { apply (sort_by_sorted bound_cmp (fun b => F64.is_nan b = false)); [..|done].
    - intros a b Ha Hb. rewrite !Hc by done. apply cmp_opp.
    - intros a b c Ha Hb Hd. unfold le_by. rewrite !Hc by done. apply cmp_le_trans. }
  assert (Forall (fun b => F64.is_nan b = false) (sort_by bound_cmp l)) as Hn by (by rewrite sort_by_perm).
  induction Hs as [|a k Hk IH Ha]; [constructor|]. inversion Hn as [|? ? Hna Hnk]; subst. constructor; [by apply IH|].
  rewrite Forall_forall in Ha, Hnk |- *. intros b Hb. rewrite <- Hc by auto. by apply Ha.
Qed.

(** An observation falls in the first bucket whose bound it does not exceed, so it
    is at most a bound exactly if its bucket is not after it. *)
Lemma bucket_le bs v i b : bounds_ok bs -> bs !! i = Some b -> (bucket bs v <=? i)%nat = F64.leb v b.
Proof.
  intros [Hn Hs] Hi. destruct (F64.is_nan v) eqn:Hv.
  { rewrite leb_nan by done. apply Nat.leb_gt. apply lookup_lt_Some in Hi. enough (bucket bs v = length bs) by lia.
    clear -Hv. induction bs as [|b' bs IH]; [done|]. cbn [bucket length]. by rewrite leb_nan, IH. }
  revert i Hi. induction Hs as [|a bs Hs IH Ha]; intros i Hi; [done|]. inversion Hn as [|? ? Hna Hnb]; subst. cbn [bucket].
  destruct i as [|i].
  - injection Hi as ->. by destruct (F64.leb v b).
  - cbn [lookup] in Hi. specialize (IH Hnb i Hi). destruct (F64.leb v a) eqn:E; [|exact IH]. cbn [Nat.leb]. symmetry.
    assert (b ∈ bs) as Hb by (by eapply list_elem_of_lookup_2). rewrite Forall_forall in Ha, Hnb.
    apply leb_key; [done|by apply Hnb|]. apply leb_key in E; [|done|done]. eapply cmp_le_trans; [exact E|by apply Ha].
Qed.

Lemma bucket_bound bs v : (bucket bs v <= length bs)%nat.
Proof. induction bs as [|b bs IH]; [done|]. cbn [bucket length]. destruct (F64.leb v b); lia. Qed.

(** The cells after the observations [vs], as long as no counter wraps. *)
Definition bucket_is (bs : list F64.t) (j : nat) (v : F64.t) : bool := (bucket bs v =? j)%nat.

Definition counts_for (bs : list F64.t) (vs : list F64.t) : list Z :=
  map (fun j => tally (bucket_is bs j) vs) (seq 0 (S (length bs))).

Lemma wrap64_small z : 0 <= z < 2 ^ 64 -> wrap64 z = z.
Proof. intros Hz. apply Z.mod_small. lia. Qed.

Lemma bump_counts bs vs v :
  Z.of_nat (length vs) + 1 < 2 ^ 64 ->
  alter (fun n => wrap64 (n + 1)) (bucket bs v) (counts_for bs vs) = counts_for bs (vs ++ [v]).
Proof.
  intros Hl. apply list_eq. intros j. unfold counts_for.
  destruct (decide (j < S (length bs))%nat) as [Hj|Hj].
  - destruct (decide (bucket bs v = j)) as [<-|Hne].
    + rewrite list_lookup_alter_eq, !list_lookup_fmap, !lookup_seq_lt by lia. cbn [fmap option_fmap option_map Nat.add]. f_equal.
      rewrite tallies_app, tally_one. replace (bucket_is bs (bucket bs v) v) with true by (symmetry; apply Nat.eqb_refl). apply wrap64_small.
      pose proof (tally_range (bucket_is bs (bucket bs v)) vs). lia.
    + rewrite list_lookup_alter_ne, !list_lookup_fmap, !lookup_seq_lt by done. cbn [fmap option_fmap option_map Nat.add]. f_equal.
      rewrite tallies_app, tally_one. replace (bucket_is bs j v) with false by (symmetry; by apply Nat.eqb_neq). lia.
  - rewrite !lookup_ge_None_2; [done|..]; rewrite ?length_alter, length_map, length_seq; lia.
Qed.

Lemma observe_all bs vs :
  Z.of_nat (length vs) < 2 ^ 64 ->
  let h := histogram_new bs in
  foldl (fun h v => observe v h) h vs =
  mkHistogram (bounds h) (counts_for (bounds h) vs) (foldl F64.add (S754_zero false) vs) (Z.of_nat (length vs)).
Proof.
  intros Hl h. induction vs as [|v vs IH] using rev_ind.
  - subst h. unfold histogram_new, counts_for. cbn [foldl bounds length]. f_equal. generalize (S (length (sort_by bound_cmp
      (List.filter (λ b : F64.t, negb (F64.is_nan b)) bs)))) as n. intros n. generalize 0%nat as k.
    induction n as [|n IH]; intros k; [done|]. cbn [replicate seq map]. by rewrite <- IH.
  - rewrite length_app in *. cbn [length] in *. rewrite !foldl_app, IH by lia. cbn [foldl]. unfold observe, bump_bucket, bump_count, store_sum.
    cbn [bounds counts sum count]. rewrite bump_counts by lia. f_equal. rewrite wrap64_small by lia. lia.
Qed.

(** What Prometheus expects of a histogram that observed [vs]: per bound the number
    of observations at most the bound, then their number, sum and count. *)
Definition histogram_reference (name : bytes) (labels : Labels) (bs vs : list F64.t) : bytes :=
  flat_map (fun b => sample_line (name ++ b!"_bucket") labels [(b!"le", format_f64 b)] (F64.of_Z (tally (fun v => F64.leb v b) vs))) bs
  ++ sample_line (name ++ b!"_bucket") labels [(b!"le", b!"+Inf")] (F64.of_Z (Z.of_nat (length vs)))
  ++ sample_line (name ++ b!"_sum") labels [] (foldl F64.add (S754_zero false) vs)
  ++ sample_line (name ++ b!"_count") labels [] (F64.of_Z (Z.of_nat (length vs))).

Lemma tally_below bs vs k :
  tally (fun v => bucket bs v <? k)%nat vs + tally (bucket_is bs k) vs = tally (fun v => bucket bs v <? S k)%nat vs.
Proof.
  induction vs as [|v vs IH]; [done|]. change (v :: vs) with ([v] ++ vs). rewrite !tallies_app, !tally_one. unfold bucket_is at 1.
  destruct (Nat.ltb_spec (bucket bs v) k), (Nat.eqb_spec (bucket bs v) k), (Nat.ltb_spec (bucket bs v) (S k)); lia.
Qed.

Lemma bucket_lines_spec name labels bs vs :
  bounds_ok bs -> Z.of_nat (length vs) < 2 ^ 64 -> forall rest k, drop k bs = rest -> (k + length rest = length bs)%nat ->
  bucket_lines name labels rest (map (fun j => tally (bucket_is bs j) vs) (seq k (S (length rest))))
    (tally (fun v => bucket bs v <? k)%nat vs) =
  flat_map (fun b => sample_line (name ++ b!"_bucket") labels [(b!"le", format_f64 b)] (F64.of_Z (tally (fun v => F64.leb v b) vs))) rest
  ++ sample_line (name ++ b!"_bucket") labels [(b!"le", b!"+Inf")] (F64.of_Z (Z.of_nat (length vs))).
Proof.
  intros Hok Hl rest. assert (forall k, wrap64 (tally (fun v => bucket bs v <? k)%nat vs + tally (bucket_is bs k) vs) =
    tally (fun v => bucket bs v <? S k)%nat vs) as Hstep.
  { intros k. rewrite tally_below. apply wrap64_small. pose proof (tally_range (fun v => bucket bs v <? S k)%nat vs). lia. }
  induction rest as [|b rest IH]; intros k Hk Hlen; cbn [length] in Hlen; cbn [length seq map bucket_lines].
  - rewrite Hstep. cbn [flat_map app]. do 2 f_equal. unfold tally. f_equal.
    assert (List.filter (fun v => bucket bs v <? S k)%nat vs = vs) as ->; [|done]. clear -Hlen. induction vs as [|v vs IH]; [done|].
    cbn [List.filter]. pose proof (bucket_bound bs v). rewrite (proj2 (Nat.ltb_lt _ _)) by lia. by rewrite IH.
  - rewrite Hstep. cbn [flat_map]. rewrite <- app_assoc. f_equal.
    + do 2 f_equal. apply tally_ext. intros v _. assert (bs !! k = Some b) as Hb.
      { rewrite <- (Nat.add_0_r k), <- lookup_drop, Hk. done. }
      rewrite <- (bucket_le bs v k b Hok Hb). apply eq_true_iff_eq. rewrite Nat.ltb_lt, Nat.leb_le. lia.
    + apply (IH (S k)); [|lia]. rewrite <- (Nat.add_1_r k), <- drop_drop. by rewrite Hk.
Qed.

(** Histograms are exposed as Prometheus defines them: after any observations (fewer than 2^64), with the bounds given
    in any order and NaN among them or not, every bucket line shows the number of observations at most its bound, the
    [+Inf] line and the count show their number, and the sum is the binary64 sum in order of observation. *)
Theorem histogram_exposed (name : bytes) (labels : Labels) (bs vs : list F64.t) :
  Z.of_nat (length vs) < 2 ^ 64 ->
  cell_lines name labels (CHistogram (foldl (fun h v => observe v h) (histogram_new bs) vs)) =
  histogram_reference name labels (bounds (histogram_new bs)) vs.
Proof.
  intros Hl. rewrite (observe_all bs vs Hl). cbn [cell_lines bounds counts sum count]. unfold histogram_reference, counts_for.
  assert (tally (fun v => bucket (bounds (histogram_new bs)) v <? 0)%nat vs = 0) as H0.
  { unfold tally. clear Hl. induction vs; [done|]. done. }
  rewrite <- H0. rewrite (bucket_lines_spec name labels _ vs (histogram_bounds bs) Hl _ 0) by done. by rewrite <- app_assoc.
Qed.

Lemma histogram_exposed_witness :
  cell_lines (b!"lat") [] (CHistogram (foldl (fun h v => observe v h) (histogram_new [F64.of_Z 2; S754_nan; F64.of_Z 1])
    [F64.of_Z 1; F64.of_Z 3; S754_nan])) =
  histogram_reference (b!"lat") [] [F64.of_Z 1; F64.of_Z 2] [F64.of_Z 1; F64.of_Z 3; S754_nan].
Proof.
  apply (histogram_exposed (b!"lat") [] [F64.of_Z 2; S754_nan; F64.of_Z 1] [F64.of_Z 1; F64.of_Z 3; S754_nan]). vm_compute. reflexivity.
Defined.

(** ** Sample lines read back *)

(** A reader of the exposition format: a quoted value up to its closing quote. *)
Fixpoint read_value (s : bytes) : option (bytes * bytes) :=
  match s with
  | [] => None
  | c :: s =>
      if bool_decide (c = x22) then Some ([], s)
      else if bool_decide (c = x5c) then
        match s with
        | e :: s =>
            match read_value s with
            | Some (v, r) => Some ((if bool_decide (e = x6e) then x0a else e) :: v, r)
            | None => None
            end
        | [] => None
        end
      else match read_value s with Some (v, r) => Some (c :: v, r) | None => None end
  end.

(** Labels [k="v"] separated by commas, up to the closing brace. *)
Fixpoint read_labels (fuel : nat) (s : bytes) : option (Labels * bytes) :=
  match fuel with
  | O => None
  | S fuel =>
      match split_once x3d s with
      | Some (k, q :: s) =>
          if bool_decide (q = x22) then
            match read_value s with
            | Some (v, c :: s) =>
                if bool_decide (c = x7d) then Some ([(k, v)], s)
                else if bool_decide (c = x2c) then
                  match read_labels fuel s with Some (ls, s) => Some ((k, v) :: ls, s) | None => None end
                else None
            | _ => None
            end
          else None
      | _ => None
      end
  end.

(** A whole line: name, labels and the text of the value. *)
Definition read_sample (s : bytes) : option (bytes * Labels * bytes) :=
  let value (s : bytes) := match split_once x0a s with Some (v, []) => Some v | _ => None end in
  match split_once x7b s with
  | Some (name, r) =>
      match read_labels (length r) r with
      | Some (ls, c :: r) => if bool_decide (c = x20) then v ← value r; Some (name, ls, v) else None
      | _ => None
      end
  | None => '(name, r) ← split_once x20 s; v ← value r; Some (name, [], v)
  end.

(** Characters of metric and label names. *)
Definition name_char (b : byte) : bool :=
  F64.is_digit b || ((65 <=? b2z b) && (b2z b <=? 90)) || ((97 <=? b2z b) && (b2z b <=? 122)) || bool_decide (b ∈ [x5f; x3a]).

Definition name_ok (k : bytes) : bool := forallb name_char k.

(** The three replacements escape each character on its own. *)
Definition escape_char (b : byte) : bytes :=
  if bool_decide (b = x5c) then [x5c; x5c] else if bool_decide (b = x22) then [x5c; x22]
  else if bool_decide (b = x0a) then [x5c; x6e] else [b].

Lemma escape_label_chars v : escape_label v = flat_map escape_char v.
Proof.
  unfold escape_label, replace. induction v as [|b v IH]; [done|]. cbn [flat_map]. rewrite !flat_map_app, IH. f_equal.
  unfold escape_char. case_bool_decide; [done|]. cbn [flat_map]. rewrite app_nil_r. case_bool_decide; [done|].
  cbn [flat_map]. rewrite app_nil_r. done.
Qed.

Lemma read_value_escape v r : read_value (escape_label v ++ x22 :: r) = Some (v, r).
Proof.
  rewrite escape_label_chars. induction v as [|b v IH]; [done|]. cbn [flat_map]. rewrite <- app_assoc. unfold escape_char at 1.
  repeat case_bool_decide; subst; cbn [app read_value];
    rewrite ?IH; repeat (rewrite bool_decide_false by done); repeat (rewrite bool_decide_true by done); try done.
Qed.

Lemma name_free k c : name_ok k = true -> name_char c = false -> c ∉ k.
Proof. intros H Hc Hin. unfold name_ok in H. rewrite forallb_forall in H. apply list_elem_of_In, H in Hin. congruence. Qed.

Lemma read_labels_spec ls r : forall fuel,
  ls <> [] -> (length ls <= fuel)%nat -> Forall (fun kv => name_ok (fst kv) = true) ls ->
  read_labels fuel (join [x2c] (map label_part ls) ++ x7d :: r) = Some (ls, r).
Proof.
  assert (forall k v rest, name_ok k = true ->
    split_once x3d (label_part (k, v) ++ rest) = Some (k, x22 :: escape_label v ++ x22 :: rest)) as Hpart.
  { intros k v rest Hk. unfold label_part. cbn [fst snd]. rewrite <- !app_assoc. cbn [app].
    rewrite split_once_app by (by apply name_free). done. }
  induction ls as [|[k v] ls IH]; intros fuel Hne Hf Hok; [done|]. inversion Hok as [|? ? Hk Hok']; subst. cbn [fst] in Hk.
  destruct fuel as [|fuel]; [cbn in Hf; lia|]. destruct ls as [|kv ls].
  - cbn [map join read_labels]. rewrite Hpart by done. rewrite bool_decide_true by done. rewrite read_value_escape.
    by rewrite bool_decide_true.
  - change (map label_part ((k, v) :: kv :: ls)) with (label_part (k, v) :: map label_part (kv :: ls)).
    assert (join [x2c] (label_part (k, v) :: map label_part (kv :: ls)) =
      label_part (k, v) ++ x2c :: join [x2c] (map label_part (kv :: ls))) as -> by done.
    rewrite <- app_assoc. cbn [read_labels]. rewrite Hpart by done. rewrite bool_decide_true by done. cbn [app].
    rewrite read_value_escape. rewrite bool_decide_false, bool_decide_true by done.
    rewrite IH; [done|done|cbn [length] in *; lia|done].
Qed.

(** The text of a value has no space, brace or line break. *)
Definition value_char (b : byte) : bool := negb (bool_decide (b ∈ [x0a; x20; x7b])).

Lemma digits_value neg c t :
  F64.is_digit c = true -> Forall (fun b => dec_char b = true) t ->
  Forall (fun b => value_char b = true) ((if neg : bool then [x2d] else []) ++ c :: t).
Proof.
  intros Hc Ht. apply Forall_app. split; [by destruct neg; repeat constructor|]. constructor; [by destruct c|].
  eapply Forall_impl; [exact Ht|]. intros b Hb. by destruct b.
Qed.

Lemma format_f64_chars v : Forall (fun b => value_char b = true) (format_f64 v).
Proof.
  unfold format_f64. destruct (F64.is_finite v) eqn:Hf.
  2: { destruct v as [|[]| |]; try done; repeat constructor. }
  assert (Forall (fun b => value_char b = true) (F64.display v)) as Hd.
  { destruct (display_shape v Hf) as (neg & c & t & -> & Hc & Ht). by apply digits_value. }
  assert (forall z, i64_min <= z <= i64_max -> Forall (fun b => value_char b = true) (write_i64 [] z)) as Hi.
  { intros z Hz. destruct (Json.write_i64_shape z Hz) as (neg & c & t & -> & Hc & Ht). apply digits_value; [done|].
    by apply digits_dec_char. }
  destruct v as [|[]| |neg m e]; try done; (destruct (_ && _); [|done]); apply Hi; cbn [Traits.float_as_int];
    unfold i64_min, i64_max; lia.
Qed.

Lemma value_free v c : value_char c = false -> c ∉ format_f64 v.
Proof. intros Hc Hin. pose proof (format_f64_chars v) as H. rewrite Forall_forall in H. apply H in Hin. congruence. Qed.

(** Every sample line is one well-formed line of the exposition format: whatever the label values contain (quotes,
    backslashes, line breaks, braces), a reader of the format gets back the metric name, exactly the labels in order
    and the text of the value. *)
Theorem sample_line_reads (name : bytes) (base extra : Labels) (v : F64.t) :
  name_ok name = true -> Forall (fun kv => name_ok (fst kv) = true) (base ++ extra) ->
  read_sample (sample_line name base extra v) = Some (name, base ++ extra, format_f64 v).
Proof.
  intros Hn Hl. unfold sample_line. rewrite <- map_app. unfold read_sample.
  assert (split_once x0a (format_f64 v ++ [x0a]) = Some (format_f64 v, [])) as Hv by (apply split_once_app; by apply value_free).
  destruct (base ++ extra) as [|kv ls] eqn:E; cbn [map].
  - rewrite (split_once_none x7b).
    + cbn [app]. rewrite split_once_app by (by apply name_free). cbn [mbind option_bind]. by rewrite Hv.
    + rewrite !not_elem_of_app. split_and!; [by apply name_free|set_solver|by apply value_free|set_solver].
  - change (label_part kv :: map label_part ls) with (map label_part (kv :: ls)). cbn [app]. rewrite split_once_app by (by apply name_free).
    rewrite read_labels_spec; [| |rewrite !length_app|done].
    + rewrite bool_decide_true by done. by rewrite Hv.
    + done.
    + cbn [length]. enough (length (kv :: ls) <= length (join [x2c] (map label_part (kv :: ls))))%nat by (cbn [length] in *; lia).
      clear. generalize (kv :: ls) as l. induction l as [|x l IH]; [done|]. cbn [map join].
      assert (1 <= length (label_part x))%nat by (unfold label_part; rewrite !length_app; cbn [length]; lia).
      destruct l; cbn [map length] in *; [lia|]. rewrite !length_app. cbn [map length] in *. lia.
Qed.

Lemma sample_line_reads_witness :
  read_sample (sample_line (b!"hits") [(b!"path", [x22; x5c; x6e; x7d; x0a])] [(b!"le", b!"0.5")] (F64.of_Z 7)) =
  Some (b!"hits", [(b!"path", [x22; x5c; x6e; x7d; x0a]); (b!"le", b!"0.5")], b!"7").
Proof.
  apply (sample_line_reads (b!"hits") [(b!"path", [x22; x5c; x6e; x7d; x0a])] [(b!"le", b!"0.5")] (F64.of_Z 7));
    [vm_compute; reflexivity|repeat constructor].
Defined.

(** ** The registry keeps one series per name and label set *)

Definition Key : Type := bytes * Labels.

Definition instrument_at (k : Key) (r : Registry) : option Instrument :=
  fam ← BTreeMap.get (fst k) (families r); BTreeMap.get (snd k) (series fam).

Definition cell_at (k : Key) (r : Registry) : option Cell := i ← instrument_at k r; cells r !! handle i.

Definition kind_of (c : Cell) : Kind :=
  match c with CCounter _ => KCounter | CGauge _ => KGauge | CHistogram _ => KHistogram end.

(** Families and series are in order, and distinct series have distinct cells of
    their kind. *)
Record inv (r : Registry) : Prop := {
  inv_families : BTreeMap.wf (families r);
  inv_series : forall name fam, BTreeMap.get name (families r) = Some fam -> BTreeMap.wf (series fam);
  inv_cell : forall k i, instrument_at k r = Some i -> exists c, cells r !! handle i = Some c /\ kind_of c = kind i;
  inv_distinct : forall k k' i i', instrument_at k r = Some i -> instrument_at k' r = Some i' -> handle i = handle i' -> k = k';
}.

Lemma registry_inv_new : inv registry_new.
Proof. split; [constructor|done..]. Qed.

Lemma cmp_neq {A} `{OrdLaws A} (x y : A) : x <> y -> match cmp x y with Eq => false | _ => true end = true.
Proof. intros Hne. destruct (cmp x y) eqn:E; try done. by apply cmp_eq in E. Qed.

Lemma get_insert_key {A V} `{OrdLaws A, EqDecision A} (m : list (A * V)) k k' v :
  BTreeMap.wf m -> BTreeMap.get k (BTreeMap.insert k' v m) = if decide (k = k') then Some v else BTreeMap.get k m.
Proof.
  intros Hw. rewrite BTreeMap.get_insert by done. case_decide as E; [subst; by rewrite cmp_refl|].
  pose proof (cmp_neq k k' E) as Hc. by destruct (cmp k k').
Qed.

(** What [counter], [gauge] and [histogram] do: they return the series' handle or a
    fresh cell, which becomes the series when there is none. *)
Lemma obtain_spec k fresh name hlp labels r h r' :
  inv r -> kind_of fresh = k -> obtain k fresh name hlp labels r = (h, r') ->
  let key := (name, sorted_labels labels) in
  inv r' /\
  match instrument_at key r with
  | None => h = length (cells r) /\ cells r' = cells r ++ [fresh] /\
      forall key', instrument_at key' r' = if decide (key' = key) then Some (mkInstrument k h) else instrument_at key' r
  | Some i =>
      (forall key', instrument_at key' r' = instrument_at key' r) /\
      if bool_decide (kind i = k) then h = handle i /\ cells r' = cells r
      else h = length (cells r) /\ cells r' = cells r ++ [fresh]
  end.
Proof.
  intros [Hw Hs Hc Hd] Hk Ho key. unfold obtain in Ho.
  assert (forall k i, instrument_at k r = Some i -> (handle i < length (cells r))%nat) as Hlt.
  { intros k' i Hi. destruct (Hc k' i Hi) as (c & Hl & _). by eapply lookup_lt_Some. }
  assert (forall cs, inv (mkRegistry (families r) (cells r ++ cs))) as Hgrow.
  { intros cs. split; [done|done| |done]. intros k' i Hi. destruct (Hc k' i Hi) as (c & Hl & Hki). exists c. split; [|done].
    cbn [cells]. by apply lookup_app_l_Some. }
  assert (instrument_at key r = BTreeMap.get (sorted_labels labels) (series (default (mkFamily hlp []) (BTreeMap.get name (families r))))) as Hkey.
  { unfold instrument_at, key. cbn [fst snd]. by destruct (BTreeMap.get name (families r)). }
  rewrite Hkey. set (fam := default (mkFamily hlp []) (BTreeMap.get name (families r))) in *.
  assert (BTreeMap.wf (series fam)) as Hwf.
  { subst fam. destruct (BTreeMap.get name (families r)) as [f|] eqn:E; [by eapply Hs|constructor]. }
  destruct (BTreeMap.get (sorted_labels labels) (series fam)) as [i|] eqn:Ei.
  { destruct (bool_decide (kind i = k)); injection Ho as <- <-; (split; [|done]); [by split|apply Hgrow]. }
  injection Ho as <- <-.
  set (fam' := mkFamily (help fam) (BTreeMap.insert (sorted_labels labels) (mkInstrument k (length (cells r))) (series fam))).
  assert (forall key', instrument_at key' (mkRegistry (BTreeMap.insert name fam' (families r)) (cells r ++ [fresh])) =
    if decide (key' = key) then Some (mkInstrument k (length (cells r))) else instrument_at key' r) as Hat.
  { intros [n' l']. unfold instrument_at. cbn [fst snd families]. rewrite get_insert_key by done.
    case_decide as E1; [subst n'|].
    - cbn [mbind option_bind series fam']. rewrite get_insert_key by done. case_decide as E2; [subst l'; by rewrite decide_True by done|].
      rewrite decide_False by (unfold key; congruence). subst fam. by destruct (BTreeMap.get name (families r)).
    - rewrite decide_False by (unfold key; congruence). done. }
  split; [|done]. split.
  - cbn [families]. by apply BTreeMap.insert_wf.
  - intros n f. cbn [families]. rewrite get_insert_key by done. case_decide; [|apply Hs]. intros [= <-]. cbn [series fam'].
    by apply BTreeMap.insert_wf.
  - intros k' i. rewrite Hat. case_decide.
    + intros [= <-]. exists fresh. cbn [handle kind cells]. split; [|done]. by apply list_lookup_middle.
    + intros Hi. destruct (Hc k' i Hi) as (c & Hl & Hki). exists c. split; [|done]. cbn [cells]. by apply lookup_app_l_Some.
  - intros k1 k2 i1 i2. rewrite !Hat. repeat case_decide; intros H1 H2 He; simplify_eq/=; try done.
    + apply Hlt in H2. lia.
    + apply Hlt in H1. lia.
    + by apply (Hd k1 k2 i1 i2).
Qed.

(** One call of a client: an instrument is obtained and used. *)
Inductive Event :=
| EInc (name hlp : bytes) (labels : Labels) (n : Z)
| EGaugeSet (name hlp : bytes) (labels : Labels) (n : Z)
| EGaugeAdd (name hlp : bytes) (labels : Labels) (n : Z)
| EObserve (name hlp : bytes) (labels : Labels) (bs : list F64.t) (v : F64.t).

Definition event_key (e : Event) : Key :=
  match e with
  | EInc name _ labels _ | EGaugeSet name _ labels _ | EGaugeAdd name _ labels _ | EObserve name _ labels _ _ =>
      (name, sorted_labels labels)
  end.

(** The cell a first use creates, and what the call does to a cell. *)
Definition event_fresh (e : Event) : Cell :=
  match e with
  | EInc _ _ _ _ => CCounter (mkCounter 0)
  | EGaugeSet _ _ _ _ | EGaugeAdd _ _ _ _ => CGauge (mkGauge 0)
  | EObserve _ _ _ bs _ => CHistogram (histogram_new bs)
  end.

Definition event_op (e : Event) : Cell -> Cell :=
  match e with
  | EInc _ _ _ n => on_counter (counter_inc_by n)
  | EGaugeSet _ _ _ n => on_gauge (gauge_set n)
  | EGaugeAdd _ _ _ n => on_gauge (gauge_add n)
  | EObserve _ _ _ _ v => on_histogram (observe v)
  end.

Definition run_event (r : Registry) (e : Event) : Registry :=
  let '(h, r) :=
    match e with
    | EInc name hlp labels _ => counter name hlp labels r
    | EGaugeSet name hlp labels _ | EGaugeAdd name hlp labels _ => gauge name hlp labels r
    | EObserve name hlp labels bs _ => histogram name hlp labels bs r
    end in
  with_cell (event_op e) h r.

(** The specification: a series per key, of the kind it was first used with. *)
Definition spec_step (k : Key) (o : option Cell) (e : Event) : option Cell :=
  if bool_decide (event_key e = k) then
    match o with
    | None => Some (event_op e (event_fresh e))
    | Some c => Some (if bool_decide (kind_of c = kind_of (event_fresh e)) then event_op e c else c)
    end
  else o.

Lemma event_op_kind e c : kind_of (event_op e c) = kind_of c.
Proof. by destruct e, c. Qed.

Lemma run_event_spec r e :
  inv r -> inv (run_event r e) /\ forall k, cell_at k (run_event r e) = spec_step k (cell_at k r) e.
Proof.
  intros Hinv.
  assert (exists name hlp labels, event_key e = (name, sorted_labels labels) /\
    run_event r e = let '(h, r') := obtain (kind_of (event_fresh e)) (event_fresh e) name hlp labels r in with_cell (event_op e) h r')
    as (name & hlp & labels & Ek & ->) by (destruct e; by eexists _, _, _).
  destruct (obtain _ _ _ _ _ _) as [h r'] eqn:Eo. destruct (obtain_spec _ _ _ _ _ _ _ _ Hinv eq_refl Eo) as [[Hw Hs Hc Hd] Hat].
  set (key := (name, sorted_labels labels)) in *. clearbody key.
  assert (forall k, instrument_at k (with_cell (event_op e) h r') = instrument_at k r') as Hi by done.
  split.
  - split; [done|done| |done]. intros k i Hk. rewrite Hi in Hk. destruct (Hc k i Hk) as (c & Hl & Hki). cbn [with_cell cells].
    destruct (decide (h = handle i)) as [->|Hne].
    + exists (event_op e c). rewrite list_lookup_alter_eq, Hl, event_op_kind. done.
    + exists c. by rewrite list_lookup_alter_ne.
  - intros k. unfold cell_at. rewrite Hi. unfold spec_step. rewrite Ek. cbn [with_cell cells].
    assert (forall i, instrument_at k r = Some i -> (handle i < length (cells r))%nat) as Hlt.
    { intros i Hk. destruct (inv_cell r Hinv k i Hk) as (c & Hl & _). by eapply lookup_lt_Some. }
    destruct (instrument_at key r) as [i|] eqn:Ei.
    + destruct Hat as [Hsame Hcells]. rewrite Hsame. destruct (decide (key = k)) as [Hkey|Hkey]; [rewrite bool_decide_true by done|rewrite bool_decide_false by done].
      * subst k. rewrite Ei. cbn [mbind option_bind]. destruct (inv_cell r Hinv key i Ei) as (c & Hl & Hki). rewrite Hl, Hki.
        case_bool_decide as Hkk; destruct Hcells as [-> Hcells]; rewrite Hcells.
        -- by rewrite list_lookup_alter_eq, Hl.
        -- rewrite list_lookup_alter_ne by (specialize (Hlt i Ei); lia). by apply lookup_app_l_Some.
      * destruct (instrument_at k r) as [j|] eqn:Ej; [|done]. cbn [mbind option_bind].
        assert (handle j <> h) as Hne.
        { case_bool_decide; destruct Hcells as [-> _]; [|specialize (Hlt j eq_refl); lia].
          intros He. by apply Hkey, (inv_distinct r Hinv key k i j). }
        rewrite list_lookup_alter_ne by done. case_bool_decide; destruct Hcells as [_ ->]; [done|].
        apply lookup_app_l. by apply Hlt.
    + destruct Hat as (-> & Hcells & Hsame). rewrite Hsame. destruct (decide (key = k)) as [Hkey|Hkey]; [rewrite bool_decide_true by done|rewrite bool_decide_false by done].
      * subst k. rewrite decide_True by done. cbn [mbind option_bind handle]. rewrite Ei. cbn [mbind option_bind].
        rewrite list_lookup_alter_eq, Hcells, list_lookup_middle by done. done.
      * rewrite decide_False by congruence. destruct (instrument_at k r) as [j|] eqn:Ej; [|done]. cbn [mbind option_bind].
        specialize (Hlt j eq_refl). rewrite list_lookup_alter_ne by lia. rewrite Hcells. by apply lookup_app_l.
Qed.

(** The registry refines a map from name and label set to instrument: after any sequence of calls, in any order of
    labels, the cell of a series is what the calls with its name and labels made of it, starting from a fresh one of
    the kind it was first used with; calls of another kind, and all other series, leave it alone. *)
Theorem registry_refines_series (es : list Event) (k : Key) :
  cell_at k (foldl run_event registry_new es) = foldl (spec_step k) None es.
Proof.
  assert (inv (foldl run_event registry_new es) /\
    forall k, cell_at k (foldl run_event registry_new es) = foldl (spec_step k) None es) as [_ H]; [|apply H].
  induction es as [|e es [IHi IH]] using rev_ind; [split; [apply registry_inv_new|done]|]. rewrite foldl_app. cbn [foldl].
  destruct (run_event_spec _ e IHi) as [H1 H2]. split; [done|]. intros k'. rewrite H2, IH, foldl_app. done.
Qed.

(** A name used with two kinds under different labels is one family of mixed kinds,
    of which the [TYPE] line names the first. *)
Example mixed_kinds_share_family :
  encode (foldl run_event registry_new [EInc (b!"x") [] [(b!"a", b!"1")] 1; EGaugeSet (b!"x") [] [(b!"a", b!"2")] 5]) =
  b!"# HELP x " ++ [x0a] ++ b!"# TYPE x counter" ++ [x0a] ++
  b!"x{a=" ++ [x22; x31; x22] ++ b!"} 1" ++ [x0a] ++ b!"x{a=" ++ [x22; x32; x22] ++ b!"} 5" ++ [x0a].
Proof. vm_compute. reflexivity. Qed.

(** An infinite bound gives a second [+Inf] bucket. *)
Example infinite_bound_repeated :
  bucket_lines (b!"x") [] (bounds (histogram_new [S754_infinity false])) (counts (histogram_new [S754_infinity false])) 0 =
  b!"x_bucket{le=" ++ [x22] ++ b!"+Inf" ++ [x22] ++ b!"} 0" ++ [x0a] ++
  b!"x_bucket{le=" ++ [x22] ++ b!"+Inf" ++ [x22] ++ b!"} 0" ++ [x0a].
Proof. vm_compute. reflexivity. Qed.

(** ** [Histogram::observe] by several threads *)

Module Observe.

(** Where a thread that observes a value stands: before one of the two
    [fetch_add], before the first load of the sum, or in the exchange loop with
    the value of [cur] it last saw. *)
Inductive Pc := AtBucket | AtCount | AtLoad | AtSwap (cur : F64.t) | Done.

(** One atomic access.  [compare_exchange_weak] may also fail when the cell holds
    [cur]; either way a failure hands back what the cell holds. *)
Inductive thread_step (v : F64.t) : Pc * Histogram -> Pc * Histogram -> Prop :=
| step_bucket h : thread_step v (AtBucket, h) (AtCount, bump_bucket v h)
| step_count h : thread_step v (AtCount, h) (AtLoad, bump_count h)
| step_load h : thread_step v (AtLoad, h) (AtSwap (sum h), h)
| step_swap h : thread_step v (AtSwap (sum h), h) (Done, store_sum (F64.add (sum h) v) h)
| step_retry cur h : thread_step v (AtSwap cur, h) (AtSwap (sum h), h).

Definition State : Type := list (F64.t * Pc) * Histogram.

Inductive step : State -> State -> Prop :=
| step_thread ts h i v pc pc' h' :
    ts !! i = Some (v, pc) -> thread_step v (pc, h) (pc', h') -> step (ts, h) (<[i := (v, pc')]> ts, h').

Definition start (bs vs : list F64.t) : State := (map (fun v => (v, AtBucket)) vs, histogram_new bs).

Definition bucketed (pc : Pc) : bool := match pc with AtBucket => false | _ => true end.
Definition counted (pc : Pc) : bool := match pc with AtBucket | AtCount => false | _ => true end.
Definition finished (pc : Pc) : bool := match pc with Done => true | _ => false end.

(** The values of the threads past a point. *)
Definition past (p : Pc -> bool) (ts : list (F64.t * Pc)) : list F64.t := map fst (List.filter (fun t => p (snd t)) ts).

Lemma past_app p ts ts' : past p (ts ++ ts') = past p ts ++ past p ts'.
Proof. unfold past. by rewrite List.filter_app, map_app. Qed.

Lemma past_one p v pc : past p [(v, pc)] = if p pc then [v] else [].
Proof. unfold past. cbn [List.filter snd]. by destruct (p pc). Qed.

Lemma past_length p ts : (length (past p ts) <= length ts)%nat.
Proof. unfold past. rewrite length_map. apply List.filter_length_le. Qed.

(** A thread that moves from [pc] to [pc'] passes the point or keeps its side. *)
Lemma past_move p ts i v pc pc' :
  ts !! i = Some (v, pc) -> (p pc = true -> p pc' = true) ->
  past p (<[i := (v, pc')]> ts) ≡ₚ (if negb (p pc) && p pc' then [v] else []) ++ past p ts.
Proof.
  intros Hi Hp. assert (i < length ts)%nat as Hlt by (by eapply lookup_lt_Some).
  rewrite <- (take_drop_middle ts i _ Hi) at 2. rewrite insert_take_drop by done. rewrite !past_app.
  change (past p ((v, pc') :: ?l)) with (past p ([(v, pc')] ++ l)). rewrite (past_app p [_]).
  change (past p ((v, pc) :: ?l)) with (past p ([(v, pc)] ++ l)). rewrite (past_app p [(v, pc)]).
  rewrite !past_one. destruct (p pc), (p pc'); cbn [negb andb app]; first [done | by rewrite Permutation_middle | naive_solver].
Qed.

Lemma counts_for_perm bs vs vs' : vs ≡ₚ vs' -> counts_for bs vs = counts_for bs vs'.
Proof.
  intros H. unfold counts_for. apply map_ext. intros j. unfold tally. f_equal. apply Permutation_length.
  induction H as [|x l l' _ IH|x y l|l l' l'' _ IH1 _ IH2]; cbn [List.filter]; [done|..].
  - by destruct (bucket_is bs j x); [constructor|].
  - by destruct (bucket_is bs j x), (bucket_is bs j y); [constructor|..].
  - by etrans.
Qed.

(** What the cells hold while threads are under way; [order] lists the values in
    the order their exchanges succeeded. *)
Record inv (bs vs : list F64.t) (s : State) : Prop := {
  inv_values : map fst (fst s) = vs;
  inv_bounds : bounds (snd s) = bounds (histogram_new bs);
  inv_counts : counts (snd s) = counts_for (bounds (histogram_new bs)) (past bucketed (fst s));
  inv_count : count (snd s) = Z.of_nat (length (past counted (fst s)));
  inv_sum : exists order, order ≡ₚ past finished (fst s) /\ sum (snd s) = foldl F64.add (S754_zero false) order;
}.

Lemma inv_start bs vs : inv bs vs (start bs vs).
Proof.
  assert (forall p, p AtBucket = false -> past p (fst (start bs vs)) = []) as Hp.
  { intros p E. unfold past, start. cbn [fst]. induction vs as [|v vs IH]; [done|]. cbn [map List.filter snd]. by rewrite E. }
  pose proof (observe_all bs [] eq_refl) as Hnew. cbn [foldl] in Hnew. cbv zeta in Hnew.
  split; cbn [snd start]; rewrite ?Hp by done.
  - unfold start. cbn [fst]. rewrite map_map. cbn [fst]. apply map_id.
  - done.
  - by rewrite Hnew.
  - done.
  - exists []. done.
Qed.

Lemma inv_step bs vs s s' :
  Z.of_nat (length vs) < 2 ^ 64 -> inv bs vs s -> step s s' -> inv bs vs s'.
Proof.
  intros Hl [Hv Hb Hc Hn (order & Ho & Hs)] Hstep. destruct Hstep as [ts h i v pc pc' h' Hi Ht]. cbn [fst snd] in *.
  assert (Z.of_nat (length ts) < 2 ^ 64) as Hlt by (rewrite <- Hv, length_map in Hl; done).
  assert (map fst (<[i := (v, pc')]> ts) = vs) as Hv'.
  { etrans; [apply (list_fmap_insert fst)|]. change (fst <$> ts) with (map fst ts). rewrite Hv. apply list_insert_id.
    rewrite <- Hv. etrans; [apply (list_lookup_fmap fst)|]. by rewrite Hi. }
  assert (forall p, (p pc = true -> p pc' = true) -> (Z.of_nat (length (past p ts)) + (if negb (p pc) && p pc' then 1 else 0) < 2 ^ 64)) as Hroom.
  { intros p Hp. pose proof (past_length p (<[i := (v, pc')]> ts)) as Hle. rewrite (past_move p ts i v pc pc' Hi Hp), length_app, length_insert in Hle.
    destruct (negb (p pc) && p pc'); cbn [length] in Hle; lia. }
  assert (forall p, (p pc = true -> p pc' = true) ->
    past p (<[i := (v, pc')]> ts) ≡ₚ (if negb (p pc) && p pc' then [v] else []) ++ past p ts) as Hmove by (intros p; by apply past_move).
  pose proof (Hmove bucketed) as Mb. pose proof (Hmove counted) as Mc. pose proof (Hmove finished) as Md.
  pose proof (Hroom bucketed) as Rb. pose proof (Hroom counted) as Rc. clear Hmove Hroom.
  inversion Ht; subst pc pc' h'; try subst h0; cbn [bucketed counted finished negb andb app] in *;
    specialize (Mb ltac:(done)); specialize (Mc ltac:(done)); specialize (Md ltac:(done));
    specialize (Rb ltac:(done)); specialize (Rc ltac:(done));
    split; cbn [fst snd bump_bucket bump_count store_sum bounds counts count sum];
    rewrite ?(counts_for_perm _ _ _ Mb), ?Mc; try done; try (exists order; by rewrite Md).
  - rewrite Hb, Hc, bump_counts by lia. apply counts_for_perm. by rewrite Permutation_app_comm.
  - rewrite Hn, wrap64_small by lia. cbn [length]. lia.
  - exists (order ++ [v]). rewrite foldl_app, <- Hs, Md, Ho, Permutation_app_comm. done.
Qed.

Lemma inv_reachable bs vs s : Z.of_nat (length vs) < 2 ^ 64 -> rtc step (start bs vs) s -> inv bs vs s.
Proof.
  intros Hl Hr. pose proof (inv_start bs vs) as Hi. revert Hi. induction Hr as [|s1 s2 s3 Hs _ IH]; [done|].
  intros Hi. apply IH. by eapply inv_step.
Qed.

Lemma past_all p ts : Forall (fun t => p (snd t) = true) ts -> past p ts = map fst ts.
Proof.
  intros H. unfold past. f_equal. induction H as [|t ts Ht _ IH]; [done|]. cbn [List.filter]. by rewrite Ht, IH.
Qed.

(** C23 Concurrent observations lose nothing: whatever the interleaving of the atomic accesses of the threads, and
    however often the exchange of the sum fails, once all have returned the histogram is the one that the same
    observations made one after the other, in some order, would have left. *)
Theorem observe_linearizable (bs vs : list F64.t) (ts : list (F64.t * Pc)) (h : Histogram) :
  Z.of_nat (length vs) < 2 ^ 64 ->
  rtc step (start bs vs) (ts, h) -> Forall (fun t => snd t = Done) ts ->
  exists order, order ≡ₚ vs /\ h = foldl (fun h v => observe v h) (histogram_new bs) order.
Proof.
  intros Hl Hr Hd. destruct (inv_reachable bs vs _ Hl Hr) as [Hv Hb Hc Hn (order & Ho & Hs)]. cbn [fst snd] in *.
  assert (forall p, p Done = true -> past p ts = vs) as Hp.
  { intros p Hp. rewrite <- Hv. apply past_all. eapply Forall_impl; [exact Hd|]. by intros [v pc] ->. }
  rewrite Hp in * by done. exists order. split; [done|].
  rewrite observe_all by (by rewrite Ho). cbv zeta. rewrite (counts_for_perm _ _ _ Ho), (Permutation_length Ho). destruct h. cbn in *. by subst.
Qed.

Lemma observe_linearizable_witness :
  exists order, order ≡ₚ [F64.of_Z 1; F64.of_Z 5] /\
    mkHistogram [F64.of_Z 2] [1; 1] (F64.of_Z 6) 2 = foldl (fun h v => observe v h) (histogram_new [F64.of_Z 2]) order.
Proof.
  apply (observe_linearizable [F64.of_Z 2] [F64.of_Z 1; F64.of_Z 5] [(F64.of_Z 1, Done); (F64.of_Z 5, Done)]);
    [by vm_compute| |by repeat constructor].
  unfold start. cbn [map].
  eapply rtc_l; [eapply (step_thread _ _ 0); [reflexivity|apply step_bucket]|].
  eapply rtc_l; [eapply (step_thread _ _ 0); [reflexivity|apply step_count]|].
  eapply rtc_l; [eapply (step_thread _ _ 0); [reflexivity|apply step_load]|].
  eapply rtc_l; [eapply (step_thread _ _ 1); [reflexivity|apply step_bucket]|].
  eapply rtc_l; [eapply (step_thread _ _ 1); [reflexivity|apply step_count]|].
  eapply rtc_l; [eapply (step_thread _ _ 1); [reflexivity|apply step_load]|].
  eapply rtc_l; [eapply (step_thread _ _ 1); [reflexivity|apply step_swap]|].
  eapply rtc_l; [eapply (step_thread _ _ 0); [reflexivity|apply step_retry]|].
  eapply rtc_l; [eapply (step_thread _ _ 0); [reflexivity|apply step_swap]|].
  eapply eq_rect; [apply rtc_refl|]. vm_compute. reflexivity.
Defined.

End Observe.

End Metrics.
