(* ===== verification/Cli.v ===== *)
(** * Command-line parsing ([cli/mod.rs])

    A [Command] describes flags, positionals and nested commands; [parse_slice]
    turns an argument list into [Matches].  A [char] is the UTF-8 bytes of one
    character; the environment and Unicode upper-casing are arguments. *)

From S2P Require Import Prelude Text.

Open Scope Z_scope.

Module Cli.

Inductive CliError :=
| UnknownFlag (flag : bytes)
| MissingValue (flag : bytes)
| MissingRequired (name : bytes)
| InvalidValue (name value : bytes)
| HelpRequested (text : bytes).

Record Arg := mkArg {
  name : bytes;
  short : option bytes;
  long : option bytes;
  help_text : option bytes;
  required : bool;
  default_value : option bytes;
  env : option bytes;
  boolean : bool;
}.

Module Arg.
Definition new (n : bytes) : Arg := mkArg n None None None false None None false.
Definition with_short (c : bytes) (a : Arg) : Arg :=
  mkArg (name a) (Some c) (long a) (help_text a) (required a) (default_value a) (env a) (boolean a).
Definition with_long (l : bytes) (a : Arg) : Arg :=
  mkArg (name a) (short a) (Some l) (help_text a) (required a) (default_value a) (env a) (boolean a).
Definition with_help (h : bytes) (a : Arg) : Arg :=
  mkArg (name a) (short a) (long a) (Some h) (required a) (default_value a) (env a) (boolean a).
Definition set_required (a : Arg) : Arg :=
  mkArg (name a) (short a) (long a) (help_text a) true (default_value a) (env a) (boolean a).
Definition with_default (v : bytes) (a : Arg) : Arg :=
  mkArg (name a) (short a) (long a) (help_text a) (required a) (Some v) (env a) (boolean a).
Definition with_env (v : bytes) (a : Arg) : Arg :=
  mkArg (name a) (short a) (long a) (help_text a) (required a) (default_value a) (Some v) (boolean a).
Definition set_boolean (a : Arg) : Arg :=
  mkArg (name a) (short a) (long a) (help_text a) (required a) (default_value a) (env a) true.
End Arg.

Inductive Command := mkCommand {
  cmd_name : bytes;
  about : option bytes;
  version : option bytes;
  flags : list Arg;
  positionals : list Arg;
  subcommands : list Command;
}.

Module Command.
Definition new (n : bytes) : Command := mkCommand n None None [] [] [].
Definition with_about (s : bytes) (c : Command) : Command :=
  mkCommand (cmd_name c) (Some s) (version c) (flags c) (positionals c) (subcommands c).
Definition with_version (s : bytes) (c : Command) : Command :=
  mkCommand (cmd_name c) (about c) (Some s) (flags c) (positionals c) (subcommands c).
Definition flag (a : Arg) (c : Command) : Command :=
  mkCommand (cmd_name c) (about c) (version c) (flags c ++ [a]) (positionals c) (subcommands c).
Definition positional (a : Arg) (c : Command) : Command :=
  mkCommand (cmd_name c) (about c) (version c) (flags c) (positionals c ++ [a]) (subcommands c).
Definition subcommand (s : Command) (c : Command) : Command :=
  mkCommand (cmd_name c) (about c) (version c) (flags c) (positionals c) (subcommands c ++ [s]).
End Command.

Inductive Matches := mkMatches {
  values : gmap bytes bytes;
  bools : gmap bytes bool;
  words : list bytes;
  sub : option (bytes * Matches);
}.

(** ** Lookups *)

Definition find_long (cmd : Command) (key : bytes) : option Arg :=
  List.find (fun a => bool_decide (long a = Some key)) (flags cmd).
Definition find_short (cmd : Command) (c : bytes) : option Arg :=
  List.find (fun a => bool_decide (short a = Some c)) (flags cmd).
Definition find_subcommand (cmd : Command) (n : bytes) : option Command :=
  List.find (fun s => bool_decide (cmd_name s = n)) (subcommands cmd).

(** ** Help *)

(** [{s:<width}] *)
Definition pad (width : nat) (s : bytes) : bytes := s ++ replicate (width - Utf8.char_count s) x20.

Section Environment.
(** [str::to_uppercase]; [std::env::var(..).ok()]. *)
Context (to_uppercase : bytes -> bytes) (env_var : bytes -> option bytes).

Definition help_column (a : Arg) : bytes :=
  match short a with Some c => b!"-" ++ c ++ b!", " | None => b!"    " end
  ++ match long a with Some l => b!"--" ++ l | None => name a end
  ++ if boolean a then [] else b!" <" ++ to_uppercase (name a) ++ b!">".

Definition help_description (a : Arg) : bytes :=
  default [] (help_text a)
  ++ match default_value a with Some d => b!" [default: " ++ d ++ b!"]" | None => [] end
  ++ match env a with Some e => b!" [env: " ++ e ++ b!"]" | None => [] end.

Definition help (cmd : Command) : bytes :=
  match version cmd with Some v => cmd_name cmd ++ b!" " ++ v ++ [x0a] | None => cmd_name cmd ++ [x0a] end
  ++ match about cmd with Some a => a ++ [x0a] | None => [] end
  ++ [x0a] ++ b!"Usage: " ++ cmd_name cmd ++ b!" [OPTIONS]"
  ++ flat_map (fun p => if required p then b!" <" ++ name p ++ b!">" else b!" [" ++ name p ++ b!"]") (positionals cmd)
  ++ (if bool_decide (length (subcommands cmd) = 0%nat) then [] else b!" <COMMAND>") ++ [x0a]
  ++ [x0a] ++ b!"Options:" ++ [x0a]
  ++ flat_map (fun a => b!"  " ++ pad 28 (help_column a) ++ help_description a ++ [x0a]) (flags cmd)
  ++ b!"  " ++ pad 28 (b!"-h, --help") ++ b!"Print help" ++ [x0a]
  ++ (if bool_decide (length (subcommands cmd) = 0%nat) then []
      else [x0a] ++ b!"Commands:" ++ [x0a]
        ++ flat_map (fun s => b!"  " ++ pad 14 (cmd_name s) ++ default [] (about s) ++ [x0a]) (subcommands cmd)).

(** ** Parsing *)

(** The locals of [parse_slice] while it walks the arguments. *)
Record Walk := mkWalk {
  w_values : gmap bytes bytes;
  w_bools : gmap bytes bool;
  w_words : list bytes;
  no_more_flags : bool;
}.

Definition walk_new : Walk := mkWalk ∅ ∅ [] false.

Definition set_value (n v : bytes) (w : Walk) : Walk :=
  mkWalk (<[n := v]> (w_values w)) (w_bools w) (w_words w) (no_more_flags w).
Definition set_bool (n : bytes) (w : Walk) : Walk :=
  mkWalk (w_values w) (<[n := true]> (w_bools w)) (w_words w) (no_more_flags w).
Definition push_word (t : bytes) (w : Walk) : Walk :=
  mkWalk (w_values w) (w_bools w) (w_words w ++ [t]) (no_more_flags w).
Definition stop_flags (w : Walk) : Walk := mkWalk (w_values w) (w_bools w) (w_words w) true.

(** The loop over the characters of [-abc]: the locals, and the option (its name
    and its character) that takes its value from the next argument. *)
Fixpoint cluster (cmd : Command) (cs : list bytes) (w : Walk) : Result (Walk * option (bytes * bytes)) CliError :=
  match cs with
  | [] => Ok (w, None)
  | c :: cs' =>
      let? a := ok_or (find_short cmd c) (UnknownFlag (b!"-" ++ c)) in
      if boolean a then cluster cmd cs' (set_bool (name a) w)
      else let rest := concat cs' in
           if bool_decide (rest = []) then Ok (w, Some (name a, c)) else Ok (set_value (name a) rest w, None)
  end.

(** Value options from the environment or their default. *)
Fixpoint resolve (args : list Arg) (vs : gmap bytes bytes) : Result (gmap bytes bytes) CliError :=
  match args with
  | [] => Ok vs
  | a :: args' =>
      if boolean a || bool_decide (is_Some (vs !! name a)) then resolve args' vs
      else match env a ≫= env_var with
           | Some v => resolve args' (<[name a := v]> vs)
           | None =>
               match default_value a with
               | Some d => resolve args' (<[name a := d]> vs)
               | None => if required a then Err (MissingRequired (name a)) else resolve args' vs
               end
           end
  end.

Fixpoint check_positionals (ps : list Arg) (ws : list bytes) : Result unit CliError :=
  match ps with
  | [] => Ok tt
  | p :: ps' =>
      if required p && bool_decide (ws = []) then Err (MissingRequired (name p)) else check_positionals ps' (tail ws)
  end.

(** What follows the loop. *)
Definition finish (cmd : Command) (w : Walk) (s : option (bytes * Matches)) : Result Matches CliError :=
  let? vs := resolve (flags cmd) (w_values w) in
  let? _ := match s with None => check_positionals (positionals cmd) (w_words w) | Some _ => Ok tt end in
  Ok (mkMatches vs (w_bools w) (w_words w) s).

(** The loop of [parse_slice] from one of its arguments on. *)
Fixpoint walk (cmd : Command) (argv : list bytes) (w : Walk) {struct argv} : Result Matches CliError :=
  match argv with
  | [] => finish cmd w None
  | tok :: rest =>
      if negb (no_more_flags w) && bool_decide (tok = b!"--") then walk cmd rest (stop_flags w)
      else if negb (no_more_flags w) && bool_decide (tok ∈ [b!"--help"; b!"-h"]) then Err (HelpRequested (help cmd))
      else if negb (no_more_flags w) && starts_with tok (b!"--") then
        let body := drop 2 tok in
        let '(key, inline) := match split_once x3d body with Some (k, v) => (k, Some v) | None => (body, None) end in
        let? a := ok_or (find_long cmd key) (UnknownFlag (b!"--" ++ key)) in
        if boolean a then walk cmd rest (set_bool (name a) w)
        else match inline with
             | Some v => walk cmd rest (set_value (name a) v w)
             | None => match rest with
                       | [] => Err (MissingValue (b!"--" ++ key))
                       | v :: rest' => walk cmd rest' (set_value (name a) v w)
                       end
             end
      else if negb (no_more_flags w) && starts_with tok (b!"-") && (1 <? length tok)%nat then
        let? (w, pending) := cluster cmd (map snd (Utf8.seqs (drop 1 tok))) w in
        match pending with
        | None => walk cmd rest w
        | Some (n, c) => match rest with
                         | [] => Err (MissingValue (b!"-" ++ c))
                         | v :: rest' => walk cmd rest' (set_value n v w)
                         end
        end
      else
        match (if negb (no_more_flags w) && bool_decide (w_words w = []) then find_subcommand cmd tok else None) with
        | Some s =>
            let? child := walk s rest walk_new in
            finish cmd w (Some (cmd_name s, child))
        | None => walk cmd rest (push_word tok w)
        end
  end.

Definition parse_slice (cmd : Command) (argv : list bytes) : Result Matches CliError := walk cmd argv walk_new.
Definition parse (cmd : Command) (args : list bytes) : Result Matches CliError := parse_slice cmd args.

(** [parse_env]: [args] are the process arguments. *)
Definition parse_env (cmd : Command) (args : list bytes) : Result Matches CliError := parse cmd (drop 1 args).

End Environment.

(** ** Results *)

Definition get (m : Matches) (n : bytes) : option bytes := values m !! n.
Definition get_bool (m : Matches) (n : bytes) : bool := default false (bools m !! n).

(** [from_str] is [T::from_str(..).ok()]. *)
Definition get_as {T} (from_str : bytes -> option T) (m : Matches) (n : bytes) : Result (option T) CliError :=
  match values m !! n with
  | None => Ok None
  | Some raw => match from_str raw with Some x => Ok (Some x) | None => Err (InvalidValue n raw) end
  end.

Definition subcommand (m : Matches) : option (bytes * Matches) := sub m.

#[export] Instance arg_eq_dec : EqDecision Arg.
Proof. solve_decision. Defined.

(** ** Spelling a command line *)

(** One use of an argument: a switch, an option with its value in the same
    argument or the next, a cluster of short switches that may end in an option
    whose value is attached or in the next argument, a plain word. *)
Inductive Use :=
| Switch (a : Arg)
| Option (a : Arg) (v : bytes) (inline : bool)
| Shorts (switches : list Arg) (option : option (Arg * bytes * bool))
| Word (t : bytes).

Definition long_of (a : Arg) : bytes := default [] (long a).
Definition short_of (a : Arg) : bytes := default [] (short a).

Definition cluster_token (sw : list Arg) (o : option (Arg * bytes * bool)) : bytes :=
  x2d :: flat_map short_of sw
  ++ match o with Some (a, v, att) => short_of a ++ if (att : bool) then v else [] | None => [] end.

Definition spell (u : Use) : list bytes :=
  match u with
  | Switch a => [b!"--" ++ long_of a]
  | Option a v true => [b!"--" ++ long_of a ++ x3d :: v]
  | Option a v false => [b!"--" ++ long_of a; v]
  | Shorts sw o => cluster_token sw o :: match o with Some (_, v, false) => [v] | _ => [] end
  | Word t => [t]
  end.

Definition use_values (u : Use) : list (bytes * bytes) :=
  match u with
  | Option a v _ | Shorts _ (Some (a, v, _)) => [(name a, v)]
  | _ => []
  end.
Definition use_switches (u : Use) : list bytes :=
  match u with Switch a => [name a] | Shorts sw _ => map name sw | _ => [] end.
Definition use_words (u : Use) : list bytes := match u with Word t => [t] | _ => [] end.

(** The spelling finds the argument and is not taken for something else. *)
Definition has_long (cmd : Command) (a : Arg) : bool :=
  match long a with Some l => bool_decide (find_long cmd l = Some a) && bool_decide (x3d ∉ l) | None => false end.
Definition has_short (cmd : Command) (a : Arg) : bool :=
  match short a with
  | Some c => bool_decide (find_short cmd c = Some a) && bool_decide (Utf8.seqs c = [(true, c)])
  | None => false
  end.
Definition ordinary (a : Arg) : bool := negb (bool_decide (long_of a ∈ [[]; b!"help"])).
Definition plain (t : bytes) : bool := negb (starts_with t (b!"-")) || bool_decide (t = b!"-").

Definition usable (cmd : Command) (u : Use) : bool :=
  match u with
  | Switch a => boolean a && has_long cmd a && ordinary a
  | Option a _ inline => negb (boolean a) && has_long cmd a && (inline || ordinary a)
  | Shorts sw o =>
      forallb (fun a => boolean a && has_short cmd a) sw
      && match o with
         | Some (a, v, att) => negb (boolean a) && has_short cmd a && negb (att && bool_decide (v = []))
         | None => true
         end
      && negb (starts_with (cluster_token sw o) (b!"--")) && negb (bool_decide (cluster_token sw o = b!"-h"))
      && (1 <? length (cluster_token sw o))%nat
  | Word t => plain t
  end.

(** What comes last: nothing, words after a bare [--], or a subcommand and its
    arguments. *)
Inductive Tail := End | Rest (ws : list bytes) | Sub (s : Command) (argv : list bytes).

Definition spell_tail (t : Tail) : list bytes :=
  match t with End => [] | Rest ws => b!"--" :: ws | Sub s argv => cmd_name s :: argv end.
Definition tail_words (t : Tail) : list bytes := match t with Rest ws => ws | _ => [] end.

Record line_ok (cmd : Command) (us : list Use) (t : Tail) : Prop := {
  uses_usable : forallb (usable cmd) us = true;
  first_word : forall w, head (flat_map use_words us) = Some w -> find_subcommand cmd w = None;
  tail_found :
    match t with
    | Sub s _ => find_subcommand cmd (cmd_name s) = Some s /\ plain (cmd_name s) = true /\ flat_map use_words us = []
    | _ => True
    end;
}.

Definition effect (w : Walk) (u : Use) : Walk :=
  mkWalk (foldl (fun m kv => <[fst kv := snd kv]> m) (w_values w) (use_values u))
    (foldl (fun m n => <[n := true]> m) (w_bools w) (use_switches u)) (w_words w ++ use_words u) (no_more_flags w).

Lemma seqs_char c s : Utf8.seqs c = [(true, c)] -> Utf8.seqs (c ++ s) = (true, c) :: Utf8.seqs s.
Proof.
  unfold Utf8.seqs. destruct c as [|b c]; [done|]. cbn [length app Utf8.sequences].
  destruct (Utf8.next_seq b c) as [n|n] eqn:E; [|done]. intros [= Ht _]. rewrite (next_seq_app b c n s E).
  assert (n = length (b :: c)) as ->.
  { pose proof (f_equal length Ht) as Hl. cbn [length] in *. destruct n as [|n]; [done|]. cbn [take] in Ht. injection Ht as Ht.
    pose proof (next_seq_valid b c (S n) E) as [[? _]|[Hle _]]; [|cbn [length] in *; rewrite <- Ht in Hle |- *; rewrite length_take in *; lia].
    simplify_eq. cbn [take] in Ht. by subst. }
  f_equal; [f_equal; exact (take_app_length (b :: c) s)|].
  replace (drop (length (b :: c)) (b :: c ++ s)) with s by (symmetry; exact (drop_app_length (b :: c) s)).
  apply sequences_enough; [rewrite length_app; lia|done].
Qed.

Lemma chars_cluster cmd sw t :
  forallb (fun a => boolean a && has_short cmd a) sw = true ->
  map snd (Utf8.seqs (flat_map short_of sw ++ t)) = map short_of sw ++ map snd (Utf8.seqs t).
Proof.
  induction sw as [|a sw IH]; [done|]. cbn [forallb flat_map map]. rewrite !andb_true_iff. intros [[_ Ha] Hsw].
  unfold has_short in Ha. unfold short_of at 1 3. destruct (short a) as [c|]; [|done]. rewrite andb_true_iff, !bool_decide_eq_true in Ha.
  cbn [default from_option id]. rewrite <- app_assoc, seqs_char by apply Ha. cbn [map snd app]. by rewrite IH.
Qed.

Lemma cluster_switches cmd sw cs w :
  forallb (fun a => boolean a && has_short cmd a) sw = true ->
  cluster cmd (map short_of sw ++ cs) w = cluster cmd cs (effect w (Shorts sw None)).
Proof.
  revert w. induction sw as [|a sw IH]; intros w; [by destruct w as [? ? ws ?]; unfold effect; cbn; rewrite app_nil_r|].
  cbn [forallb map app]. rewrite !andb_true_iff. intros [[Hb Ha] Hsw].
  unfold has_short in Ha. unfold short_of at 1. destruct (short a) as [c|] eqn:Ec; [|done]. rewrite andb_true_iff, !bool_decide_eq_true in Ha.
  cbn [default from_option id cluster]. destruct Ha as [-> _]. cbn [ok_or rbind]. rewrite Hb, IH by done. done.
Qed.

Lemma starts_with_dash t : plain t = true -> starts_with t (b!"--") = false /\ t <> b!"--" /\ t ∉ [b!"--help"; b!"-h"] /\
  (starts_with t (b!"-") && (1 <? length t)%nat) = false.
Proof.
  unfold plain. destruct (starts_with t (b!"-")) eqn:E; cbn [negb orb andb].
  - rewrite bool_decide_eq_true. intros ->. by repeat split; [..|apply (bool_decide_unpack _); vm_compute].
  - intros _. assert (forall u, starts_with u (b!"-") = true -> t <> u) as Hne by congruence.
    split; [|split; [by apply Hne|split; [|done]]].
    + apply not_true_iff_false. intros [r ->]%starts_with_spec. pose proof (starts_with_app (b!"-") (b!"-" ++ r)) as E'. exact (eq_true_false_abs _ E' E).
    + rewrite !not_elem_of_cons. repeat split; [by apply Hne|by apply Hne|apply not_elem_of_nil].
Qed.

Section Parsing.
Context (to_uppercase : bytes -> bytes) (env_var : bytes -> option bytes).
Notation walk := (walk to_uppercase env_var).

Lemma walk_long cmd a inline rest w :
  no_more_flags w = false -> has_long cmd a = true -> (is_Some inline \/ ordinary a = true) ->
  walk cmd ((b!"--" ++ long_of a ++ match inline with Some v => x3d :: v | None => [] end) :: rest) w =
  if boolean a then walk cmd rest (set_bool (name a) w)
  else match inline with
       | Some v => walk cmd rest (set_value (name a) v w)
       | None => match rest with
                 | [] => Err (MissingValue (b!"--" ++ long_of a))
                 | v :: rest' => walk cmd rest' (set_value (name a) v w)
                 end
       end.
Proof.
  intros Hw Ha Ho. unfold has_long in Ha. unfold ordinary in Ho. unfold long_of in *. destruct (long a) as [l|]; [|done].
  rewrite andb_true_iff, !bool_decide_eq_true in Ha. destruct Ha as [Hf Heq]. cbn [default from_option id] in *.
  set (tok := b!"--" ++ l ++ match inline with Some v => x3d :: v | None => [] end).
  assert (tok <> b!"--" /\ tok ∉ [b!"--help"; b!"-h"]) as [H1 H2].
  { subst tok. destruct inline as [v|].
    - clear Ho. split; [by destruct l|]. rewrite !elem_of_cons. intros [E|[E|E]]; [|done|by inversion E].
      assert (x3d ∈ b!"--help") as Hin by (rewrite <- E; cbn; rewrite !elem_of_cons, elem_of_app, elem_of_cons; auto). by vm_compute in Hin; set_solver.
    - destruct Ho as [[? ?]|Ho]; [done|]. rewrite negb_true_iff, bool_decide_eq_false, !not_elem_of_cons in Ho.
      rewrite app_nil_r. split; [intros E; injection E; naive_solver|]. rewrite !elem_of_cons. intros [E|[E|E]]; [|done|by inversion E].
      injection E. naive_solver. }
  cbn [Cli.walk]. rewrite Hw. cbn [negb andb]. rewrite !bool_decide_false by done.
  rewrite (starts_with_app (b!"--") _ : starts_with tok (b!"--") = true). replace (drop 2 tok) with (l ++ match inline with Some v => x3d :: v | None => [] end) by done.
  destruct inline as [v|]; [rewrite split_once_app by done|rewrite app_nil_r, split_once_none by done]; cbv iota beta; rewrite Hf; done.
Qed.

Lemma walk_plain cmd t rest w :
  plain t = true ->
  walk cmd (t :: rest) w =
  match (if negb (no_more_flags w) && bool_decide (w_words w = []) then find_subcommand cmd t else None) with
  | Some s => let? child := walk s rest walk_new in finish env_var cmd w (Some (cmd_name s, child))
  | None => walk cmd rest (push_word t w)
  end.
Proof.
  intros (H1 & H2 & H3 & H4)%starts_with_dash. cbn [Cli.walk]. rewrite !bool_decide_false, H1, !andb_false_r by done.
  by rewrite <- andb_assoc, H4, andb_false_r.
Qed.

Lemma walk_shorts cmd sw o rest w :
  no_more_flags w = false -> usable cmd (Shorts sw o) = true ->
  walk cmd (spell (Shorts sw o) ++ rest) w = walk cmd rest (effect w (Shorts sw o)).
Proof.
  cbn [usable spell]. rewrite !andb_true_iff, !negb_true_iff, bool_decide_eq_false. intros Hw [[[[Hsw Ho] Hdd] Hh] Hlen].
  set (tok := cluster_token sw o) in *. cbn [app Cli.walk].
  assert (tok <> b!"--" /\ tok ∉ [b!"--help"; b!"-h"]) as [H1 H2].
  { split; [by intros E; rewrite E in Hdd|]. rewrite !elem_of_cons. intros [E|[E|E]]; [by rewrite E in Hdd|done|by inversion E]. }
  rewrite Hw, Hdd, Hlen, !bool_decide_false by done. cbn [negb andb].
  rewrite (starts_with_app (b!"-") _ : starts_with tok (b!"-") = true). cbn [andb].
  replace (drop 1 tok) with (flat_map short_of sw ++ match o with Some (a, v, att) => short_of a ++ if (att : bool) then v else [] | None => [] end) by done.
  rewrite (chars_cluster cmd), (cluster_switches cmd) by done. destruct o as [[[a v] att]|]; [|done].
  rewrite !andb_true_iff in Ho. destruct Ho as [[Hb Hs] Hv]. apply negb_true_iff in Hb. unfold has_short in Hs. unfold short_of.
  destruct (short a) as [c|]; [|done]. rewrite andb_true_iff, !bool_decide_eq_true in Hs. destruct Hs as [Hf Hc]. cbn [default from_option id].
  rewrite seqs_char by done. cbn [map snd cluster]. rewrite Hf. cbn [ok_or rbind]. rewrite Hb, seqs_concat.
  destruct att; [|done]. rewrite negb_true_iff in Hv. cbn [andb] in Hv. rewrite Hv. done.
Qed.

Lemma walk_use cmd u rest w :
  no_more_flags w = false -> usable cmd u = true ->
  (forall t, u = Word t -> w_words w = [] -> find_subcommand cmd t = None) ->
  walk cmd (spell u ++ rest) w = walk cmd rest (effect w u).
Proof.
  intros Hw Hu Ht. destruct w as [vs bs ws nm]. cbn in Hw. subst nm. destruct u as [a|a v inline|sw o|t].
  - cbn [usable] in Hu. rewrite !andb_true_iff in Hu. destruct Hu as [[Hb Hl] Ho].
    pose proof (walk_long cmd a None rest (mkWalk vs bs ws false) eq_refl Hl (or_intror Ho)) as H.
    rewrite app_nil_r, Hb in H. cbn [spell app]. etrans; [exact H|]. unfold effect, set_bool. cbn. by rewrite app_nil_r.
  - cbn [usable] in Hu. rewrite !andb_true_iff, negb_true_iff in Hu. destruct Hu as [[Hb Hl] Ho].
    destruct inline; cbn [spell app].
    + pose proof (walk_long cmd a (Some v) rest (mkWalk vs bs ws false) eq_refl Hl (or_introl (mk_is_Some _ _ eq_refl))) as H.
      rewrite Hb in H. etrans; [exact H|]. unfold effect, set_value. cbn. by rewrite app_nil_r.
    + pose proof (walk_long cmd a None (v :: rest) (mkWalk vs bs ws false) eq_refl Hl (or_intror Ho)) as H.
      rewrite Hb, app_nil_r in H. etrans; [exact H|]. unfold effect, set_value. cbn. by rewrite app_nil_r.
  - by apply walk_shorts.
  - cbn [usable spell app] in *. rewrite walk_plain by done. cbn [no_more_flags w_words negb andb].
    case_bool_decide as E; [rewrite (Ht t eq_refl E)|]; done.
Qed.

Lemma walk_uses cmd us rest w :
  no_more_flags w = false -> forallb (usable cmd) us = true ->
  (w_words w = [] -> forall t, head (flat_map use_words us) = Some t -> find_subcommand cmd t = None) ->
  walk cmd (flat_map spell us ++ rest) w = walk cmd rest (foldl effect w us).
Proof.
  revert w. induction us as [|u us IH]; intros w Hw Hus Ht; [done|]. cbn [forallb flat_map foldl] in *. rewrite andb_true_iff in Hus.
  rewrite <- app_assoc, walk_use; [apply IH; [done|apply Hus|]|done|apply Hus|].
  - cbn [effect w_words]. intros [E1 E2]%app_eq_nil t. specialize (Ht E1 t). by rewrite E2 in Ht.
  - intros t -> E. by apply Ht.
Qed.

(** After a bare [--] everything is a word. *)
Lemma walk_rest cmd ws w :
  no_more_flags w = true ->
  walk cmd ws w = finish env_var cmd (mkWalk (w_values w) (w_bools w) (w_words w ++ ws) true) None.
Proof.
  revert w. induction ws as [|t ws IH]; intros [vs bs us nm] Hw; cbn in Hw; subst nm; cbn [Cli.walk]; [by rewrite app_nil_r|].
  cbn [no_more_flags negb andb]. rewrite IH by done. cbn [push_word w_values w_bools w_words]. by rewrite <- app_assoc.
Qed.

(** What resolves a value option without an argument. *)
Definition supply (a : Arg) : option bytes :=
  match env a ≫= env_var with Some v => Some v | None => default_value a end.

Definition fallback (args : list Arg) (n : bytes) : option bytes :=
  List.find (fun a => negb (boolean a) && bool_decide (name a = n)) args ≫= supply.

Definition unresolved (vs : bytes -> option bytes) (a : Arg) : bool :=
  required a && negb (boolean a) && bool_decide (supply a = None) && bool_decide (vs (name a) = None).

Lemma find_ext {A} (p q : A -> bool) l : (forall x, x ∈ l -> p x = q x) -> List.find p l = List.find q l.
Proof.
  intros H. induction l as [|x l IH]; [done|]. cbn [List.find]. rewrite H by set_solver. by rewrite IH by set_solver.
Qed.

Lemma resolve_spec args vs :
  NoDup (map name args) ->
  match List.find (unresolved (fun n => vs !! n)) args with
  | Some a => resolve env_var args vs = Err (MissingRequired (name a))
  | None => exists vs', resolve env_var args vs = Ok vs' /\
      forall n, vs' !! n = match vs !! n with Some v => Some v | None => fallback args n end
  end.
Proof.
  revert vs. induction args as [|a args IH]; intros vs Hnd.
  { exists vs. split; [done|]. intros n. by destruct (vs !! n). }
  cbn [map] in Hnd. apply NoDup_cons in Hnd as [Ha Hnd].
  assert (forall v, unresolved (fun n => vs !! n) a = false ->
    List.find (unresolved (fun n => vs !! n)) (a :: args) = List.find (unresolved (fun n => <[name a := v]> vs !! n)) args) as Hset.
  { intros v E. cbn [List.find]. rewrite E. apply find_ext. intros b Hb. unfold unresolved. rewrite lookup_insert_ne; [done|].
    intros Eab. apply Ha. rewrite Eab. by apply (list_elem_of_fmap_2 name). }
  cbn [resolve]. destruct (boolean a) eqn:Hb; cbn [orb].
  { cbn [List.find]. unfold unresolved at 1. rewrite Hb, andb_false_r. cbn [andb]. specialize (IH vs Hnd).
    destruct (List.find _ args); [done|]. destruct IH as (vs' & -> & H). exists vs'. split; [done|]. intros n. rewrite H.
    unfold fallback at 2. cbn [List.find]. by rewrite Hb. }
  case_bool_decide as Hs.
  { cbn [List.find]. unfold unresolved at 1. rewrite (bool_decide_false (vs !! name a = None)) by (by destruct Hs as [? ->]). rewrite andb_false_r.
    specialize (IH vs Hnd). destruct (List.find _ args); [done|]. destruct IH as (vs' & -> & H). exists vs'. split; [done|]. intros n. rewrite H.
    unfold fallback at 2. cbn [List.find]. rewrite Hb. cbn [negb andb]. destruct (decide (name a = n)) as [<-|Hne]; [by destruct Hs as [? ->]|].
    by rewrite bool_decide_false. }
  assert (vs !! name a = None) as Hn by (by apply eq_None_not_Some).
  assert (forall n, fallback (a :: args) n = if bool_decide (name a = n) then supply a else fallback args n) as Hf.
  { intros n. unfold fallback at 1. cbn [List.find]. rewrite Hb. cbn [negb andb]. by case_bool_decide. }
  assert (forall v, supply a = Some v ->
    match List.find (unresolved (fun n => vs !! n)) (a :: args) with
    | Some b => resolve env_var args (<[name a := v]> vs) = Err (MissingRequired (name b))
    | None => exists vs', resolve env_var args (<[name a := v]> vs) = Ok vs' /\
        forall n, vs' !! n = match vs !! n with Some v => Some v | None => fallback (a :: args) n end
    end) as Hsup.
  { intros v Ev. rewrite (Hset v) by (unfold unresolved; by rewrite Ev, (bool_decide_false (Some v = None)), andb_false_r).
    specialize (IH (<[name a := v]> vs) Hnd). destruct (List.find _ args); [done|]. destruct IH as (vs' & -> & H). exists vs'. split; [done|].
    intros n. rewrite H, Hf. case_bool_decide as E; [subst n; by rewrite lookup_insert_eq, Hn|by rewrite lookup_insert_ne]. }
  destruct (env a ≫= env_var) as [v|] eqn:Ee; [apply Hsup; unfold supply; by rewrite Ee|].
  destruct (default_value a) as [d|] eqn:Ed; [apply Hsup; unfold supply; by rewrite Ee|].
  assert (supply a = None) as Hns by (unfold supply; by rewrite Ee).
  cbn [List.find]. unfold unresolved at 1. rewrite Hb, !bool_decide_true, !andb_true_r by done.
  destruct (required a); [done|]. specialize (IH vs Hnd). destruct (List.find _ args); [done|].
  destruct IH as (vs' & -> & H). exists vs'. split; [done|]. intros n. rewrite H, Hf. case_bool_decide as E; [|done]. subst n. rewrite Hn, Hns.
  unfold fallback. destruct (List.find _ args) as [b|] eqn:Eb; [|done]. apply List.find_some in Eb as [Hin%list_elem_of_In Hc].
  rewrite andb_true_iff, bool_decide_eq_true in Hc. exfalso. apply Ha. destruct Hc as [_ <-]. by apply (list_elem_of_fmap_2 name).
Qed.

Lemma check_positionals_spec ps ws :
  check_positionals ps ws =
  match List.find required (drop (length ws) ps) with Some p => Err (MissingRequired (name p)) | None => Ok tt end.
Proof.
  revert ws. induction ps as [|p ps IH]; intros ws; [by rewrite drop_nil|]. cbn [check_positionals]. destruct ws as [|w ws].
  - cbn [length drop List.find tail]. rewrite bool_decide_true, andb_true_r, IH by done. by destruct (required p).
  - rewrite bool_decide_false, andb_false_r, IH by done. done.
Qed.

(** The value an argument gives an option last. *)
Definition given (us : list Use) (n : bytes) : option bytes :=
  snd <$> List.find (fun kv => bool_decide (fst kv = n)) (rev (flat_map use_values us)).

Definition switched (us : list Use) (n : bytes) : bool := bool_decide (n ∈ flat_map use_switches us).

(** The first required argument without a value; positionals count only without a
    subcommand. *)
Definition missing (cmd : Command) (us : list Use) (t : Tail) : option bytes :=
  match List.find (unresolved (given us)) (flags cmd) with
  | Some a => Some (name a)
  | None =>
      match t with
      | Sub _ _ => None
      | _ => name <$> List.find required (drop (length (flat_map use_words us ++ tail_words t)) (positionals cmd))
      end
  end.

Definition child (t : Tail) : Result (option (bytes * Matches)) CliError :=
  match t with
  | Sub s argv => let? m := parse to_uppercase env_var s argv in Ok (Some (cmd_name s, m))
  | _ => Ok None
  end.

Lemma find_first_app {A} (p : A -> bool) l k :
  List.find p (l ++ k) = match List.find p l with Some x => Some x | None => List.find p k end.
Proof. induction l as [|x l IH]; [done|]. cbn [app List.find]. by destruct (p x). Qed.

Lemma effects us w :
  (forall n, w_values (foldl effect w us) !! n = match given us n with Some v => Some v | None => w_values w !! n end) /\
  (forall n, w_bools (foldl effect w us) !! n = if switched us n then Some true else w_bools w !! n) /\
  w_words (foldl effect w us) = w_words w ++ flat_map use_words us /\
  no_more_flags (foldl effect w us) = no_more_flags w.
Proof.
  induction us as [|u us (H1 & H2 & H3 & H4)] using rev_ind.
  { repeat split; [by rewrite app_nil_r]. }
  unfold given, switched in *. rewrite foldl_app, !flat_map_app. cbn [foldl].
  repeat split; cbn [effect w_values w_bools w_words no_more_flags]; [..|by rewrite H3, app_assoc; cbn [flat_map]; rewrite app_nil_r|done].
  - intros n. rewrite rev_app_distr, find_first_app. cbn [flat_map]. rewrite app_nil_r.
    assert (forall (kvs : list (bytes * bytes)) (m : gmap bytes bytes), foldl (fun m kv => <[kv.1 := kv.2]> m) m kvs !! n =
      match snd <$> List.find (fun kv => bool_decide (kv.1 = n)) (rev kvs) with Some v => Some v | None => m !! n end) as Hk.
    { induction kvs as [|[k v] kvs IH] using rev_ind; intros m; [done|]. rewrite foldl_app, rev_app_distr. cbn [foldl rev app List.find fst snd].
      case_bool_decide as E; [subst; by rewrite lookup_insert_eq|]. by rewrite lookup_insert_ne, IH. }
    rewrite Hk, H1. by destruct (List.find _ (rev (use_values u))).
  - intros n. cbn [flat_map]. rewrite app_nil_r.
    assert (forall (ns : list bytes) (m : gmap bytes bool), foldl (fun m k => <[k := true]> m) m ns !! n = if bool_decide (n ∈ ns) then Some true else m !! n) as Hk.
    { induction ns as [|k ns IH]; intros m; [done|]. cbn [foldl]. rewrite IH. destruct (decide (n ∈ ns)) as [Hi|Hi].
      - rewrite !bool_decide_true; [done|set_solver|done].
      - rewrite (bool_decide_false (n ∈ ns)) by done. destruct (decide (n = k)) as [->|Hne].
        + rewrite bool_decide_true by set_solver. by rewrite lookup_insert_eq.
        + rewrite bool_decide_false by set_solver. by rewrite lookup_insert_ne. }
    rewrite Hk, H2. repeat case_bool_decide; set_solver.
Qed.

Lemma walk_line cmd us t :
  line_ok cmd us t ->
  let w := foldl effect walk_new us in
  parse to_uppercase env_var cmd (flat_map spell us ++ spell_tail t) =
  let? c := child t in
  finish env_var cmd (mkWalk (w_values w) (w_bools w) (w_words w ++ tail_words t) (match t with Rest _ => true | _ => false end)) c.
Proof.
  intros [Hu Hw Ht] w. unfold parse, parse_slice. rewrite walk_uses by done.
  destruct (effects us walk_new) as (_ & _ & Hws & Hnm). fold w in Hws, Hnm |- *. cbn [walk_new w_words no_more_flags app] in Hws, Hnm.
  destruct t as [|ws|s argv]; cbn [spell_tail tail_words child rbind]; rewrite ?app_nil_r.
  - destruct w. cbn in *. by subst.
  - cbn [Cli.walk]. rewrite Hnm, bool_decide_true by done. cbn [negb andb]. by rewrite walk_rest.
  - destruct Ht as (Hs & Hp & Hw0). rewrite walk_plain, Hnm, Hws, Hw0 by done. rewrite bool_decide_true, Hs by done. cbn [negb andb].
    unfold parse, parse_slice. destruct (walk s argv walk_new) as [m|e]; [|done]. cbn [rbind].
    destruct w as [vs bs ws nm]. cbn [w_values w_bools w_words no_more_flags] in *. subst ws nm. by rewrite Hw0.
Qed.

(** Arguments used as their builder documents: a switch is not required and has neither a default nor an environment
    variable, and neither has a positional (the parser ignores all of these: [required_switch_may_be_absent],
    [positional_default_ignored]). *)
Definition documented (cmd : Command) : bool :=
  let no_fallback (a : Arg) := bool_decide (env a = None) && bool_decide (default_value a = None) in
  forallb (fun a => negb (boolean a) || (negb (required a) && no_fallback a)) (flags cmd) &&
  forallb no_fallback (positionals cmd).

(** C35 A command line means what it spells, for a command with distinctly named flags whose switches are not required
    and whose switches and positionals have no default and no environment variable ([documented]): for any mix of long
    and short options, values in the same argument or the next, clusters of switches and plain words, ended by nothing,
    a bare [--] and words, or a subcommand with arguments of its own, parsing gives every value option its last
    argument, else its environment variable, else its default, sets exactly the switches named, keeps the words in order
    and parses the subcommand, whose error comes first; it fails only for a required option or positional that has no
    value, naming it. *)
Theorem command_line_roundtrip (cmd : Command) (us : list Use) (t : Tail) :
  NoDup (map name (flags cmd)) -> documented cmd = true -> line_ok cmd us t ->
  let r := parse to_uppercase env_var cmd (flat_map spell us ++ spell_tail t) in
  match child t, missing cmd us t with
  | Err e, _ => r = Err e
  | Ok _, Some n => r = Err (MissingRequired n)
  | Ok c, None => exists m, r = Ok m /\
      (forall n, get m n = match given us n with Some v => Some v | None => fallback (flags cmd) n end) /\
      (forall n, get_bool m n = switched us n) /\
      words m = flat_map use_words us ++ tail_words t /\ subcommand m = c
  end.
Proof.
  intros Hnd _ Hok r. subst r. rewrite walk_line by done. cbv zeta. destruct (effects us walk_new) as (Hv & Hb & Hw & _).
  cbn [walk_new w_values w_bools w_words app] in Hv, Hb, Hw. rewrite Hw.
  assert (forall n, w_values (foldl effect walk_new us) !! n = given us n) as Hg.
  { intros n. rewrite Hv, lookup_empty. by destruct (given us n). }
  assert (match t with Sub _ _ => exists e, child t = Err e \/ exists x, child t = Ok (Some x) | _ => child t = Ok None end) as Hc.
  { destruct t; cbn [child]; [done|done|]. destruct (parse to_uppercase env_var s argv); cbn [rbind]; [exists (UnknownFlag []); eauto|eauto]. }
  destruct (child t) as [c|e] eqn:Ec; cbn [rbind]; [|done]. unfold finish, missing. cbn [w_values w_bools w_words].
  pose proof (resolve_spec (flags cmd) (w_values (foldl effect walk_new us)) Hnd) as Hr.
  rewrite (find_ext _ (unresolved (given us))) in Hr by (intros a _; unfold unresolved; by rewrite Hg).
  destruct (List.find (unresolved (given us)) (flags cmd)) as [a|]; [by rewrite Hr|]. destruct Hr as (vs & -> & Hvs). cbn [rbind].
  assert (forall m, m = mkMatches vs (w_bools (foldl effect walk_new us)) (flat_map use_words us ++ tail_words t) c ->
    exists m', (Ok m : Result Matches CliError) = Ok m' /\
    (forall n, get m' n = match given us n with Some v => Some v | None => fallback (flags cmd) n end) /\
    (forall n, get_bool m' n = switched us n) /\
    words m' = flat_map use_words us ++ tail_words t /\ subcommand m' = c) as Hdone.
  { intros m ->. eexists. split; [done|]. repeat split; unfold get, get_bool; cbn [values bools].
    - intros n. by rewrite Hvs, Hg.
    - intros n. rewrite Hb, lookup_empty. by destruct (switched us n). }
  rewrite check_positionals_spec.
  destruct t as [|ws|s argv]; cbn [child] in Ec, Hc.
  1-2: injection Ec as <-; destruct (List.find required _) as [p|]; cbn [rbind fmap option_fmap option_map]; [done|by apply Hdone].
  destruct Hc as [e [Hc|[x Hc]]]; [done|]. injection Hc as ->. cbn [rbind]. by apply Hdone.
Qed.

End Parsing.

(** An option named twice, attached and inline, a switch in a cluster, a default, an
    environment variable, and a subcommand with arguments of its own. *)
Definition demo_port : Arg := Arg.with_short (b!"p") (Arg.with_long (b!"port") (Arg.new (b!"port"))).
Definition demo_loud : Arg := Arg.set_boolean (Arg.with_short (b!"l") (Arg.new (b!"loud"))).
Definition demo_host : Arg := Arg.with_default (b!"localhost") (Arg.with_long (b!"host") (Arg.new (b!"host"))).
Definition demo_user : Arg := Arg.set_required (Arg.with_env (b!"APP_USER") (Arg.new (b!"user"))).
Definition demo_sub : Command := Command.flag demo_port (Command.new (b!"run")).
Definition demo : Command :=
  Command.subcommand demo_sub (Command.flag demo_user (Command.flag demo_host (Command.flag demo_loud (Command.flag demo_port
    (Command.new (b!"tool")))))).

Lemma command_line_roundtrip_witness :
  exists m,
    parse (fun s => s) (fun v => if bool_decide (v = b!"APP_USER") then Some (b!"ann") else None) demo
      [b!"--port=80"; b!"-lp"; b!"81"; b!"run"; b!"-p9"] = Ok m /\
    (get m (b!"port") = Some (b!"81") /\ get m (b!"host") = Some (b!"localhost") /\ get m (b!"user") = Some (b!"ann")) /\
    get_bool m (b!"loud") = true.
Proof.
  destruct (command_line_roundtrip (fun s => s) (fun v => if bool_decide (v = b!"APP_USER") then Some (b!"ann") else None) demo
    [Option demo_port (b!"80") true; Shorts [demo_loud] (Some (demo_port, b!"81", false))] (Sub demo_sub [b!"-p9"])) as (m & Hm & Hv & Hb & _).
  - apply (bool_decide_unpack _). vm_compute. exact I.
  - reflexivity.
  - split; [vm_compute; reflexivity|done|]. split; [reflexivity|split; vm_compute; reflexivity].
  - exists m. split; [exact Hm|]. rewrite !Hv, Hb. repeat split; vm_compute; reflexivity.
Defined.

(** A positional's default is never used, and a switch marked required may be absent. *)
Example positional_default_ignored :
  parse (fun s => s) (fun _ => None)
    (Command.positional (Arg.with_default (b!"x") (Arg.set_required (Arg.new (b!"file")))) (Command.new (b!"t"))) [] =
  Err (MissingRequired (b!"file")).
Proof. vm_compute. reflexivity. Qed.

Example required_switch_may_be_absent :
  exists m, parse (fun s => s) (fun _ => None) (Command.flag (Arg.set_required demo_loud) (Command.new (b!"t"))) [] = Ok m.
Proof. eexists. vm_compute. reflexivity. Qed.

End Cli.
