(* ===== verification/Obs.v ===== *)
(** * Tracing spans and their export ([obs/mod.rs], [obs/otlp.rs])

    The state is the global filter level, the identifier counters, a stack of
    entered spans per thread and the installed exporter with what it was handed.
    Clock readings are arguments of the operations that take them. *)

From S2P Require Import Prelude Hash Text Scan Ordered Value Json HttpCore Sse HttpServer HttpClient.

Open Scope Z_scope.

Module Obs.

Inductive Level := Trace | Debug | Info | Warn | Error.

#[export] Instance level_eq_dec : EqDecision Level.
Proof. solve_decision. Defined.

(** [level as u8] *)
Definition level_rank (l : Level) : Z := match l with Trace => 0 | Debug => 1 | Info => 2 | Warn => 3 | Error => 4 end.
Definition level_str (l : Level) : bytes :=
  match l with Trace => b!"trace" | Debug => b!"debug" | Info => b!"info" | Warn => b!"warn" | Error => b!"error" end.
Definition from_u8 (v : Z) : Level :=
  if v =? 0 then Trace else if v =? 1 then Debug else if v =? 2 then Info else if v =? 3 then Warn else Error.

Definition Fields : Type := list (bytes * Value).

Record SpanEvent := mkEvent { ev_level : Level; message : bytes; ev_fields : Fields; unix_nanos : Z }.

Record FinishedSpan := mkFinished {
  name : bytes;
  trace_id : bytes;
  span_id : bytes;
  parent_id : option bytes;
  level : Level;
  start_unix_nanos : Z;
  duration_nanos : Z;
  fields : Fields;
  events : list SpanEvent;
}.

(** A span entered on a thread. *)
Record Live := mkLive {
  l_name : bytes;
  l_level : Level;
  l_trace_id : bytes;
  l_span_id : bytes;
  l_parent_id : option bytes;
  l_start : Z;
  l_start_unix_nanos : Z;
  l_fields : Fields;
  l_events : list SpanEvent;
}.

(** The builder [Span]. *)
Record Span := mkSpan { sp_name : bytes; sp_level : Level; sp_fields : Fields }.

Definition span_new (n : bytes) : Span := mkSpan n Info [].
Definition span_level (l : Level) (s : Span) : Span := mkSpan (sp_name s) l (sp_fields s).
Definition span_field (k : bytes) (v : Value) (s : Span) : Span := mkSpan (sp_name s) (sp_level s) (sp_fields s ++ [(k, v)]).

(** The statics [LEVEL], [SEED], the two [COUNTER]s and the exporter slot, the
    thread-local [STACK]s (innermost span first), and what each exporter, known by
    a number, was handed. *)
Record World := mkWorld {
  threshold : Z;
  seed : option Z;
  trace_counter : Z;
  span_counter : Z;
  stacks : gmap nat (list Live);
  exporter : option nat;
  out : list (nat * FinishedSpan);
}.

Definition world_new : World := mkWorld (level_rank Info) None 0 0 ∅ None [].

(** [SystemTime] and [Instant] in nanoseconds. *)
Record Clock := mkClock { wall : Z; instant : Z }.

(** ** Level, identifiers, exporter *)

Definition set_level (l : Level) (w : World) : World :=
  mkWorld (level_rank l) (seed w) (trace_counter w) (span_counter w) (stacks w) (exporter w) (out w).
Definition get_level (w : World) : Level := from_u8 (threshold w).
Definition enabled (l : Level) (w : World) : bool := threshold w <=? level_rank l.

Definition hex_char (d : Z) : byte := b!"0123456789abcdef" !!! Z.to_nat d.
Definition hex (bs : bytes) : bytes :=
  foldl (fun s b => s ++ [hex_char (Z.shiftr (b2z b) 4)] ++ [hex_char (Z.land (b2z b) 15)]) [] bs.

Definition new_span_id (w : World) : bytes * World :=
  let n := wrap64 (span_counter w + 1) in
  (hex (to_be_bytes 8 n), mkWorld (threshold w) (seed w) (trace_counter w) n (stacks w) (exporter w) (out w)).

(** The seed is the first clock reading, truncated to 64 bits. *)
Definition new_trace_id (c : Clock) (w : World) : bytes * World :=
  let n := wrap64 (trace_counter w + 1) in
  let s := default (wrap64 (wall c)) (seed w) in
  (hex (to_be_bytes 8 s ++ to_be_bytes 8 n),
   mkWorld (threshold w) (Some s) n (span_counter w) (stacks w) (exporter w) (out w)).

Definition set_exporter (e : nat) (w : World) : World :=
  mkWorld (threshold w) (seed w) (trace_counter w) (span_counter w) (stacks w) (Some e) (out w).

Definition export (s : FinishedSpan) (w : World) : World :=
  match exporter w with
  | Some e => mkWorld (threshold w) (seed w) (trace_counter w) (span_counter w) (stacks w) (exporter w) (out w ++ [(e, s)])
  | None => w
  end.

(** ** Spans *)

Definition stack (w : World) (t : nat) : list Live := default [] (stacks w !! t).
Definition set_stack (t : nat) (st : list Live) (w : World) : World :=
  mkWorld (threshold w) (seed w) (trace_counter w) (span_counter w) (<[t := st]> (stacks w)) (exporter w) (out w).

(** [Span::enter] on thread [t]; the result is whether the guard is active. *)
Definition enter (t : nat) (c : Clock) (s : Span) (w : World) : bool * World :=
  if negb (enabled (sp_level s) w) then (false, w)
  else
    let '(trace, parent, w) :=
      match stack w t with
      | top :: _ => (l_trace_id top, Some (l_span_id top), w)
      | [] => let '(trace, w) := new_trace_id c w in (trace, None, w)
      end in
    let '(id, w) := new_span_id w in
    let live := mkLive (sp_name s) (sp_level s) trace id parent (instant c) (wall c) (sp_fields s) [] in
    (true, set_stack t (live :: stack w t) w).

(** [stack.last_mut()] *)
Definition on_top (t : nat) (f : Live -> Live) (w : World) : World :=
  match stack w t with top :: st => set_stack t (f top :: st) w | [] => w end.

Definition push_field (k : bytes) (v : Value) (l : Live) : Live :=
  mkLive (l_name l) (l_level l) (l_trace_id l) (l_span_id l) (l_parent_id l) (l_start l) (l_start_unix_nanos l)
    (l_fields l ++ [(k, v)]) (l_events l).
Definition push_event (e : SpanEvent) (l : Live) : Live :=
  mkLive (l_name l) (l_level l) (l_trace_id l) (l_span_id l) (l_parent_id l) (l_start l) (l_start_unix_nanos l)
    (l_fields l) (l_events l ++ [e]).

(** [SpanGuard::record] and [SpanGuard::event]. *)
Definition guard_record (t : nat) (active : bool) (k : bytes) (v : Value) (w : World) : World :=
  if negb active then w else on_top t (push_field k v) w.

Definition guard_event (t : nat) (active : bool) (c : Clock) (l : Level) (m : bytes) (fs : Fields) (w : World) : World :=
  if negb active || negb (enabled l w) then w else on_top t (push_event (mkEvent l m fs (wall c))) w.

Definition finish (c : Clock) (l : Live) : FinishedSpan :=
  mkFinished (l_name l) (l_trace_id l) (l_span_id l) (l_parent_id l) (l_level l) (l_start_unix_nanos l)
    (Z.max 0 (instant c - l_start l)) (l_fields l) (l_events l).

(** [SpanGuard::drop] *)
Definition guard_drop (t : nat) (active : bool) (c : Clock) (w : World) : World :=
  if negb active then w
  else match stack w t with
       | live :: st => export (finish c live) (set_stack t st w)
       | [] => w
       end.

(** The free-standing [event]. *)
Definition event (t : nat) (c : Clock) (l : Level) (m : bytes) (fs : Fields) (w : World) : World :=
  if negb (enabled l w) then w
  else
    let ev := mkEvent l m fs (wall c) in
    match stack w t with
    | _ :: _ => on_top t (push_event ev) w
    | [] =>
        let '(trace, w) := new_trace_id c w in
        let '(id, w) := new_span_id w in
        export (mkFinished (b!"event") trace id None l (unix_nanos ev) 0 [] [ev]) w
    end.

(** ** [JsonExporter] *)

Definition u128_value (v : Z) : Value := if v <=? u64_max then Value.UInt v else Value.Str (show_uint v).
Definition fields_value (fs : Fields) : Value := Value.Object fs.

Definition event_to_value (e : SpanEvent) : Value :=
  Value.Object [(b!"level", Value.Str (level_str (ev_level e))); (b!"message", Value.Str (message e));
    (b!"fields", fields_value (ev_fields e)); (b!"unix_nanos", u128_value (unix_nanos e))].

Definition span_to_value (s : FinishedSpan) : Value :=
  Value.Object [(b!"name", Value.Str (name s)); (b!"trace_id", Value.Str (trace_id s)); (b!"span_id", Value.Str (span_id s));
    (b!"parent_id", match parent_id s with Some p => Value.Str p | None => Value.Null end);
    (b!"level", Value.Str (level_str (level s)));
    (b!"start_unix_nanos", u128_value (start_unix_nanos s)); (b!"duration_nanos", u128_value (duration_nanos s));
    (b!"fields", fields_value (fields s)); (b!"events", Value.Array (map event_to_value (events s)))].

(** [JsonExporter::export] to a writer that has received [written]. *)
Definition json_export (written : bytes) (s : FinishedSpan) : bytes := written ++ Json.to_string (span_to_value s) ++ [x0a].

(** ** [OtlpHttpExporter] *)

Module Otlp.
Import HttpCore.

Definition BATCH_LIMIT : nat := 512.
Definition u128_max : Z := 2 ^ 128 - 1.

Definition any_value (v : Value) : Value :=
  let '(key, inner) :=
    match v with
    | Value.Str s => (b!"stringValue", Value.Str s)
    | Value.Bool b => (b!"boolValue", Value.Bool b)
    | Value.Int i => (b!"intValue", Value.Str (write_i64 [] i))
    | Value.UInt u => (b!"intValue", Value.Str (show_uint u))
    | Value.Float f => (b!"doubleValue", Value.Float f)
    | other => (b!"stringValue", Value.Str (Json.to_string other))
    end in
  Value.Object [(key, inner)].

Definition attribute (key : bytes) (v : Value) : Value := Value.Object [(b!"key", Value.Str key); (b!"value", any_value v)].
Definition attributes (fs : Fields) : Value := Value.Array (map (fun kv => attribute (fst kv) (snd kv)) fs).

Definition otlp_event (e : SpanEvent) : Value :=
  Value.Object [(b!"timeUnixNano", Value.Str (show_uint (unix_nanos e))); (b!"name", Value.Str (message e));
    (b!"attributes", attributes (ev_fields e))].

Definition otlp_span (s : FinishedSpan) : Value :=
  let stop := Z.min u128_max (start_unix_nanos s + duration_nanos s) in
  Value.Object
    ([(b!"traceId", Value.Str (trace_id s)); (b!"spanId", Value.Str (span_id s)); (b!"name", Value.Str (name s));
      (b!"kind", Value.Int 1); (b!"startTimeUnixNano", Value.Str (show_uint (start_unix_nanos s)));
      (b!"endTimeUnixNano", Value.Str (show_uint stop)); (b!"attributes", attributes (fields s))]
     ++ match parent_id s with Some p => [(b!"parentSpanId", Value.Str p)] | None => [] end
     ++ if bool_decide (length (events s) = 0%nat) then [] else [(b!"events", Value.Array (map otlp_event (events s)))]).

Definition otlp_document (service : bytes) (ss : list FinishedSpan) : Value :=
  let resource := Value.Object [(b!"attributes", Value.Array [attribute (b!"service.name") (Value.Str service)])] in
  let scope_spans := Value.Object [(b!"scope", Value.Object [(b!"name", Value.Str (b!"ferroly"))]); (b!"spans", Value.Array (map otlp_span ss))] in
  let resource_spans := Value.Object [(b!"resource", resource); (b!"scopeSpans", Value.Array [scope_spans])] in
  Value.Object [(b!"resourceSpans", Value.Array [resource_spans])].

(** [post]: the request handed to the client, if any; the buffer is empty afterwards. *)
Definition post (endpoint service : bytes) (buf : list FinishedSpan) : list Request :=
  if bool_decide (length buf = 0%nat) then []
  else
    let payload := Json.to_string (otlp_document service buf) in
    match HttpClient.builder Post endpoint with
    | Ok r => [HttpClient.req_body (HttpClient.req_header r (b!"content-type") (b!"application/json")) payload]
    | Err _ => []
    end.

(** What the background task is woken by: a message, the ticker, or the channel
    closing. *)
Inductive Wake := MSpan (s : FinishedSpan) | MFlush | Tick | Closed.

(** The task: its buffer, the requests sent, and whether it is still running. *)
Record Task := mkTask { buf : list FinishedSpan; sent : list Request; running : bool }.

Definition task_new : Task := mkTask [] [] true.

Definition flush_now (endpoint service : bytes) (r : bool) (k : Task) : Task :=
  mkTask [] (sent k ++ post endpoint service (buf k)) r.

Definition wake (endpoint service : bytes) (k : Task) (m : Wake) : Task :=
  if negb (running k) then k
  else match m with
       | MSpan s =>
           let k := mkTask (buf k ++ [s]) (sent k) true in
           if (BATCH_LIMIT <=? length (buf k))%nat then flush_now endpoint service true k else k
       | MFlush | Tick => flush_now endpoint service true k
       | Closed => flush_now endpoint service false k
       end.

End Otlp.

(** ** Identity of spans *)

(** A span's identifier, its trace and its parent. *)
Record Key := mkKey { k_id : bytes; k_trace : bytes; k_parent : option bytes }.

Definition live_key (l : Live) : Key := mkKey (l_span_id l) (l_trace_id l) (l_parent_id l).
Definition span_key (s : FinishedSpan) : Key := mkKey (span_id s) (trace_id s) (parent_id s).
Definition keys (w : World) (t : nat) : list Key := map live_key (stack w t).
Definition exported (w : World) : list Key := map (fun o => span_key (snd o)) (out w).
Definition known (w : World) (k : Key) : Prop := (exists t, k ∈ keys w t) \/ k ∈ exported w.

Definition span_number (n : Z) : bytes := hex (to_be_bytes 8 n).
Definition trace_number (s n : Z) : bytes := hex (to_be_bytes 8 s ++ to_be_bytes 8 n).

(** Each span of a stack is the child of the one below it, in its trace. *)
Fixpoint linked (ks : list Key) : Prop :=
  match ks with
  | [] => True
  | k :: ks' =>
      match ks' with
      | [] => k_parent k = None
      | p :: _ => k_parent k = Some (k_id p) /\ k_trace k = k_trace p
      end /\ linked ks'
  end.

Record inv (w : World) : Prop := {
  inv_counters : 0 <= span_counter w < 2 ^ 64 /\ 0 <= trace_counter w < 2 ^ 64;
  inv_seed : match seed w with Some s => 0 <= s < 2 ^ 64 | None => trace_counter w = 0 end;
  inv_linked : forall t, linked (keys w t);
  inv_ids : forall k, known w k -> exists n, 1 <= n <= span_counter w /\ k_id k = span_number n;
  inv_roots : forall k, known w k -> k_parent k = None ->
    exists s n, seed w = Some s /\ 1 <= n <= trace_counter w /\ k_trace k = trace_number s n;
  inv_distinct_roots : forall k k', known w k -> known w k' -> k_parent k = None -> k_parent k' = None ->
    k_trace k = k_trace k' -> k_id k = k_id k';
  inv_live_once : forall t t' i j k k', keys w t !! i = Some k -> keys w t' !! j = Some k' -> k_id k = k_id k' ->
    t = t' /\ i = j;
  inv_exported_once : NoDup (map k_id (exported w));
  inv_live_or_exported : forall t k, k ∈ keys w t -> k_id k ∉ map k_id (exported w);
  inv_parents : forall k p, k ∈ exported w -> k_parent k = Some p -> exists q, known w q /\ k_id q = p /\ k_trace q = k_trace k;
  inv_exporter : exported w <> [] -> exporter w <> None;
}.

Lemma hex_inj a b : hex a = hex b -> a = b.
Proof.
  intros H. rewrite <- (from_to_hex a), <- (from_to_hex b). f_equal. exact H.
Qed.

Lemma span_number_inj m n : 0 <= m < 2 ^ 64 -> 0 <= n < 2 ^ 64 -> span_number m = span_number n -> m = n.
Proof.
  intros Hm Hn H%hex_inj%(f_equal from_be_bytes). by rewrite !from_to_be_bytes, !Z.mod_small in H.
Qed.

Lemma trace_number_inj s m n : 0 <= m < 2 ^ 64 -> 0 <= n < 2 ^ 64 -> trace_number s m = trace_number s n -> m = n.
Proof.
  intros Hm Hn H%hex_inj%app_inv_head%(f_equal from_be_bytes). by rewrite !from_to_be_bytes, !Z.mod_small in H.
Qed.

Lemma inv_world_new : inv world_new.
Proof.
  assert (forall t, keys world_new t = []) as Hk by (intros t; unfold keys, stack; cbn [world_new stacks]; by rewrite lookup_empty).
  assert (forall k, ~ known world_new k) as Hn.
  { intros k [[t Ht]|Ht]; [rewrite Hk in Ht|]; by inversion Ht. }
  split; try (intros; exfalso; eapply Hn; eassumption).
  - done.
  - done.
  - intros t. by rewrite Hk.
  - intros t t' i j k k'. by rewrite Hk.
  - constructor.
  - intros t k Hin. rewrite Hk in Hin. by inversion Hin.
  - intros k p Hin. by inversion Hin.
  - done.
Qed.

(** Operations that leave the identity of all spans alone. *)
Lemma inv_same w w' :
  inv w -> span_counter w' = span_counter w -> trace_counter w' = trace_counter w -> seed w' = seed w ->
  (forall t, keys w' t = keys w t) -> exported w' = exported w -> (exporter w <> None -> exporter w' <> None) -> inv w'.
Proof.
  intros [] Hs Ht Hd Hk He Hx.
  assert (forall k, known w' k <-> known w k) as Hn by (intros k; unfold known; rewrite He; by setoid_rewrite Hk).
  split; rewrite ?Hs, ?Ht, ?Hd, ?He; try done; repeat setoid_rewrite Hk; repeat setoid_rewrite Hn; eauto.
Qed.

(** A new span: its number is the next one, and so is its trace's if it is a root. *)
Record fresh (w w' : World) (k : Key) : Prop := {
  fresh_span : span_counter w' = span_counter w + 1;
  fresh_id : k_id k = span_number (span_counter w');
  fresh_trace :
    match k_parent k with
    | Some _ => trace_counter w' = trace_counter w /\ seed w' = seed w
    | None => exists s, seed w' = Some s /\ 0 <= s < 2 ^ 64 /\ (forall s', seed w = Some s' -> s' = s) /\
        trace_counter w' = trace_counter w + 1 /\ k_trace k = trace_number s (trace_counter w')
    end;
  fresh_known : forall k', known w' k' <-> k' = k \/ known w k';
}.

Lemma fresh_unused w w' k k' :
  inv w -> fresh w w' k -> span_counter w' < 2 ^ 64 -> known w k' -> k_id k' <> k_id k.
Proof.
  intros Hi [Hs Hid _ _] Hb Hk E. destruct (inv_ids w Hi k' Hk) as (n & Hn & Hkn). rewrite Hkn, Hid in E.
  pose proof (inv_counters w Hi). apply span_number_inj in E; lia.
Qed.

(** The part of the invariant that speaks of the identifiers in use. *)
Lemma fresh_inv w w' k :
  inv w -> fresh w w' k -> span_counter w' < 2 ^ 64 -> trace_counter w' < 2 ^ 64 ->
  (0 <= span_counter w' < 2 ^ 64 /\ 0 <= trace_counter w' < 2 ^ 64) /\
  match seed w' with Some s => 0 <= s < 2 ^ 64 | None => trace_counter w' = 0 end /\
  (forall k, known w' k -> exists n, 1 <= n <= span_counter w' /\ k_id k = span_number n) /\
  (forall k, known w' k -> k_parent k = None ->
    exists s n, seed w' = Some s /\ 1 <= n <= trace_counter w' /\ k_trace k = trace_number s n) /\
  (forall k k', known w' k -> known w' k' -> k_parent k = None -> k_parent k' = None -> k_trace k = k_trace k' -> k_id k = k_id k').
Proof.
  intros Hi Hf Hbs Hbt. destruct Hf as [Hs Hid Ht Hk]. destruct (inv_counters w Hi) as [Hc1 Hc2].
  assert (trace_counter w <= trace_counter w') as Hle by (destruct (k_parent k); [lia|destruct Ht as (? & _ & _ & _ & -> & _); lia]).
  assert (forall k0, known w k0 -> k_parent k0 = None ->
    exists s n, seed w = Some s /\ seed w' = Some s /\ 1 <= n <= trace_counter w /\ k_trace k0 = trace_number s n) as Hold.
  { intros k0 Hk0 Hp0. destruct (inv_roots w Hi k0 Hk0 Hp0) as (s & n & Hsd & Hn & Htr). exists s, n. split; [done|]. split; [|done].
    destruct (k_parent k); [destruct Ht as [_ ->]; done|]. destruct Ht as (s' & -> & _ & Hss & _). by rewrite (Hss s Hsd). }
  split; [lia|]. split; [|split; [|split]].
  - destruct (k_parent k); [destruct Ht as [-> ->]; apply (inv_seed w Hi)|]. by destruct Ht as (s & -> & Hr & _).
  - intros k0 [->|H0]%Hk; [exists (span_counter w'); split; [lia|done]|].
    destruct (inv_ids w Hi k0 H0) as (n & Hn & ?). exists n. split; [lia|done].
  - intros k0 [->|H0]%Hk Hp.
    + rewrite Hp in Ht. destruct Ht as (s & ? & _ & _ & ? & ?). exists s, (trace_counter w'). split; [done|]. split; [lia|done].
    + destruct (Hold k0 H0 Hp) as (s & n & _ & ? & ? & ?). exists s, n. split; [done|]. split; [lia|done].
  - assert (forall k0, known w k0 -> k_parent k0 = None -> k_parent k = None -> k_trace k0 <> k_trace k) as Hne.
    { intros k0 H0 Hp0 Hp E. destruct (Hold k0 H0 Hp0) as (s & n & _ & Hs' & Hn & Htr). rewrite Hp in Ht.
      destruct Ht as (s2 & Hs2 & _ & _ & Hc & Htr2). rewrite Hs' in Hs2. injection Hs2 as <-. rewrite Htr, Htr2 in E.
      apply trace_number_inj in E; lia. }
    intros k1 k2 [->|H1]%Hk [->|H2]%Hk P1 P2 E; [done| | |by apply (inv_distinct_roots w Hi)].
    + by destruct (Hne k2).
    + by destruct (Hne k1).
Qed.

Lemma inv_push w w' t k :
  inv w -> fresh w w' k -> span_counter w' < 2 ^ 64 -> trace_counter w' < 2 ^ 64 ->
  (forall t', keys w' t' = if decide (t' = t) then k :: keys w t else keys w t') -> linked (k :: keys w t) ->
  exported w' = exported w -> exporter w' = exporter w -> inv w'.
Proof.
  intros Hi Hf Hbs Hbt Hk Hl He Hx. destruct (fresh_inv w w' k Hi Hf Hbs Hbt) as (A & B & C & D & F).
  assert (forall t i k0, keys w t !! i = Some k0 -> k_id k0 <> k_id k) as Hun.
  { intros t0 i k0 H0. eapply fresh_unused; [done..|]. left. exists t0. by eapply list_elem_of_lookup_2. }
  split; rewrite ?He, ?Hx; try done; try apply Hi.
  - intros t'. rewrite Hk. destruct (decide (t' = t)); [done|apply Hi].
  - intros t1 t2 i j k1 k2. rewrite !Hk. intros H1 H2 E.
    destruct (decide (t1 = t)) as [->|N1], (decide (t2 = t)) as [->|N2].
    + destruct i as [|i], j as [|j]; cbn [lookup list_lookup] in H1, H2; [done| | |].
      * injection H1 as ->. by destruct (Hun t j k2 H2).
      * injection H2 as ->. by destruct (Hun t i k1 H1).
      * destruct (inv_live_once w Hi t t i j k1 k2 H1 H2 E) as [_ ->]. done.
    + destruct i as [|i]; cbn [lookup list_lookup] in H1; [injection H1 as ->; by destruct (Hun t2 j k2 H2)|].
      by destruct (inv_live_once w Hi t t2 i j k1 k2 H1 H2 E) as [-> _].
    + destruct j as [|j]; cbn [lookup list_lookup] in H2; [injection H2 as ->; by destruct (Hun t1 i k1 H1)|].
      by destruct (inv_live_once w Hi t1 t i j k1 k2 H1 H2 E) as [-> _].
    + by apply (inv_live_once w Hi t1 t2 i j k1 k2).
  - intros t' k0. rewrite Hk. destruct (decide (t' = t)); [rewrite elem_of_cons; intros [->|H0]|]; [|by eapply inv_live_or_exported..].
    intros (k1 & E & H1)%list_elem_of_fmap. symmetry in E. revert E. eapply fresh_unused; [done..|]. by right.
  - intros k0 p H0 Hp. destruct (inv_parents w Hi k0 p H0 Hp) as (q & Hq & ?). exists q. split; [|done]. apply (fresh_known _ _ _ Hf). by right.
Qed.

Lemma inv_lone w w' k :
  inv w -> fresh w w' k -> span_counter w' < 2 ^ 64 -> trace_counter w' < 2 ^ 64 -> k_parent k = None ->
  (forall t, keys w' t = keys w t) -> exported w' = exported w ++ [k] -> exporter w' <> None -> inv w'.
Proof.
  intros Hi Hf Hbs Hbt Hp Hk He Hx. destruct (fresh_inv w w' k Hi Hf Hbs Hbt) as (A & B & C & D & F).
  split; rewrite ?He; try done.
  - intros t. rewrite Hk. apply Hi.
  - intros t t' i j k1 k2. rewrite !Hk. apply (inv_live_once w Hi).
  - rewrite map_app. apply NoDup_app. split; [apply Hi|]. split; [|apply NoDup_singleton].
    intros i (k1 & -> & H1)%list_elem_of_fmap. cbn [map]. rewrite list_elem_of_singleton. eapply fresh_unused; [done..|]. by right.
  - intros t k1. rewrite Hk, map_app, not_elem_of_app. cbn [map]. rewrite list_elem_of_singleton. intros H1.
    split; [by eapply inv_live_or_exported|]. eapply fresh_unused; [done..|]. left. by exists t.
  - intros k1 p. rewrite elem_of_app, list_elem_of_singleton. intros [H1| ->] Hp1; [|congruence].
    destruct (inv_parents w Hi k1 p H1 Hp1) as (q & Hq & ?). exists q. split; [|done]. apply (fresh_known _ _ _ Hf). by right.
Qed.

(** A span finishes: it leaves its stack and reaches the exporter, if there is one. *)
Lemma inv_pop w w' t k ks :
  inv w -> keys w t = k :: ks -> span_counter w' = span_counter w -> trace_counter w' = trace_counter w -> seed w' = seed w ->
  (forall t', keys w' t' = if decide (t' = t) then ks else keys w t') -> exporter w' = exporter w ->
  exported w' = exported w ++ (if exporter w then [k] else []) -> inv w'.
Proof.
  intros Hi Hst Hs Ht Hd Hk Hx He.
  assert (forall k', known w' k' -> known w k') as Hsub.
  { intros k' [[t' H']|H'].
    - rewrite Hk in H'. left. destruct (decide (t' = t)) as [->|]; [exists t; rewrite Hst; by right|by exists t'].
    - rewrite He, elem_of_app in H'. destruct H' as [H'|H']; [by right|]. left. exists t. rewrite Hst.
      destruct (exporter w); [apply list_elem_of_singleton in H' as ->; by left|by inversion H']. }
  assert (forall t' i k', keys w' t' !! i = Some k' -> exists j, keys w t' !! j = Some k' /\ (t' = t -> j = S i) /\ (t' <> t -> j = i)) as Hidx.
  { intros t' i k'. rewrite Hk. destruct (decide (t' = t)) as [->|]; intros H; [exists (S i)|by exists i]. rewrite Hst. split; [done|]. by split. }
  assert (k ∈ keys w t) as Hkin by (rewrite Hst; by left).
  split; rewrite ?Hs, ?Ht, ?Hd, ?Hx; try apply Hi; eauto using inv_ids, inv_roots, inv_distinct_roots.
  - intros t'. rewrite Hk. destruct (decide (t' = t)); [|apply Hi]. pose proof (inv_linked w Hi t) as H. rewrite Hst in H. apply H.
  - intros t1 t2 i j k1 k2 H1 H2 E. destruct (Hidx _ _ _ H1) as (i' & H1' & A1 & B1), (Hidx _ _ _ H2) as (j' & H2' & A2 & B2).
    destruct (inv_live_once w Hi _ _ _ _ _ _ H1' H2' E) as [-> ->]. split; [done|].
    destruct (decide (t2 = t)) as [E2|E2]; [specialize (A1 E2); specialize (A2 E2)|specialize (B1 E2); specialize (B2 E2)]; congruence.
  - rewrite He, map_app. apply NoDup_app. split; [apply Hi|]. split; [|destruct (exporter w); [apply NoDup_singleton|constructor]].
    intros i Hi1. destruct (exporter w); cbn [map]; [|apply not_elem_of_nil]. rewrite list_elem_of_singleton. intros ->.
    by eapply inv_live_or_exported.
  - intros t' k' Hk'. rewrite He, map_app, not_elem_of_app. apply list_elem_of_lookup_1 in Hk' as [i Hi']. destruct (Hidx _ _ _ Hi') as (j & Hj & A1 & B1).
    split; [eapply inv_live_or_exported; [done|]; by eapply list_elem_of_lookup_2|].
    destruct (exporter w); cbn [map]; [|apply not_elem_of_nil]. rewrite list_elem_of_singleton. intros E.
    assert (keys w t !! 0%nat = Some k) as H0 by (by rewrite Hst). destruct (inv_live_once w Hi _ _ _ _ _ _ Hj H0 E) as [-> ->].
    by specialize (A1 eq_refl).
  - intros k1 p H1 Hp. rewrite He, elem_of_app in H1.
    assert (forall q, known w q -> exporter w <> None -> known w' q) as Hkeep.
    { intros q [[t' Hq]|Hq] Hne; [|right; rewrite He, elem_of_app; by left]. destruct (decide (t' = t)) as [->|Hn].
      - rewrite Hst, elem_of_cons in Hq. destruct Hq as [->|Hq]; [|left; exists t; rewrite Hk; by rewrite decide_True].
        right. rewrite He, elem_of_app. right. destruct (exporter w); [by left|done].
      - left. exists t'. rewrite Hk. by rewrite decide_False. }
    destruct H1 as [H1|H1].
    + destruct (inv_parents w Hi k1 p H1 Hp) as (q & Hq & ?). exists q. split; [|done]. apply Hkeep; [done|]. apply (inv_exporter w Hi). by intros E; rewrite E in H1; inversion H1.
    + destruct (exporter w) eqn:Ee; [|by inversion H1]. apply list_elem_of_singleton in H1 as ->.
      pose proof (inv_linked w Hi t) as Hl. rewrite Hst in Hl. destruct ks as [|q ks]; cbn [linked] in Hl; [destruct Hl as [Hl _]; congruence|].
      destruct Hl as [[Hl1 Hl2] _]. exists q. split; [|split; [congruence|done]]. left. exists t. rewrite Hk, decide_True by done. by left.
  - intros Hne. rewrite He in Hne. destruct (exporter w) eqn:Ee; [done|]. rewrite app_nil_r in Hne. by apply (inv_exporter w Hi) in Hne.
Qed.

(** ** Any threads, any order of operations *)

Inductive Op :=
| OpEnter (s : Span)
| OpRecord (active : bool) (k : bytes) (v : Value)
| OpGuardEvent (active : bool) (l : Level) (m : bytes) (fs : Fields)
| OpDrop (active : bool)
| OpEvent (l : Level) (m : bytes) (fs : Fields)
| OpLevel (l : Level)
| OpExporter (e : nat).

(** One operation by a thread at a time. *)
Definition run_op (w : World) (x : nat * Clock * Op) : World :=
  let '(t, c, op) := x in
  match op with
  | OpEnter s => snd (enter t c s w)
  | OpRecord a k v => guard_record t a k v w
  | OpGuardEvent a l m fs => guard_event t a c l m fs w
  | OpDrop a => guard_drop t a c w
  | OpEvent l m fs => event t c l m fs w
  | OpLevel l => set_level l w
  | OpExporter e => set_exporter e w
  end.

Lemma stack_set t st w t' : stack (set_stack t st w) t' = if decide (t' = t) then st else stack w t'.
Proof.
  unfold stack, set_stack. cbn [stacks]. destruct (decide (t' = t)) as [->|]; [by rewrite lookup_insert_eq|by rewrite lookup_insert_ne].
Qed.

Lemma keys_set t st w t' : keys (set_stack t st w) t' = if decide (t' = t) then map live_key st else keys w t'.
Proof. unfold keys. rewrite stack_set. by destruct (decide (t' = t)). Qed.

Definition steady (w w' : World) : Prop :=
  span_counter w <= span_counter w' <= span_counter w + 1 /\ trace_counter w <= trace_counter w' <= trace_counter w + 1.

Lemma on_top_inv t f w : inv w -> (forall l, live_key (f l) = live_key l) -> inv (on_top t f w) /\ steady w (on_top t f w).
Proof.
  intros Hi Hf. unfold on_top. destruct (stack w t) as [|top st] eqn:E; [split; [done|unfold steady; lia]|].
  split; [|unfold steady; cbn; lia]. apply (inv_same w); try done. intros t'. rewrite keys_set. destruct (decide (t' = t)) as [->|]; [|done].
  unfold keys. rewrite E. cbn [map]. by rewrite Hf.
Qed.

Lemma known_push w w' t k :
  (forall t', keys w' t' = if decide (t' = t) then k :: keys w t else keys w t') -> exported w' = exported w ->
  forall k', known w' k' <-> k' = k \/ known w k'.
Proof.
  intros Hk He k'. unfold known. rewrite He. split.
  - intros [[t' H]|H]; [|auto]. rewrite Hk in H. destruct (decide (t' = t)) as [->|]; [|eauto]. apply elem_of_cons in H as [->|H]; eauto.
  - intros [->|[[t' H]|H]]; [|left; exists t'|auto].
    + left. exists t. rewrite Hk, decide_True by done. by left.
    + rewrite Hk. destruct (decide (t' = t)) as [->|]; [by right|done].
Qed.

Lemma seed_range c w : inv w -> 0 <= default (wrap64 (wall c)) (seed w) < 2 ^ 64.
Proof.
  intros Hi. pose proof (inv_seed w Hi) as H. destruct (seed w); [done|]. cbn [default]. unfold wrap64.
  pose proof (Z.mod_pos_bound (wall c) 18446744073709551616). lia.
Qed.

Lemma enter_inv t c s w :
  inv w -> span_counter w + 1 < 2 ^ 64 -> trace_counter w + 1 < 2 ^ 64 ->
  inv (snd (enter t c s w)) /\ steady w (snd (enter t c s w)).
Proof.
  intros Hi Hs Ht. pose proof (inv_counters w Hi) as [? ?]. unfold enter.
  assert (wrap64 (span_counter w + 1) = span_counter w + 1 /\ wrap64 (trace_counter w + 1) = trace_counter w + 1) as [Ws Wt].
  { unfold wrap64. by rewrite !Z.mod_small by lia. }
  destruct (enabled (sp_level s) w); cbn [negb]; [|split; [done|unfold steady; cbn; lia]].
  destruct (stack w t) as [|top st] eqn:E.
  - unfold new_trace_id, new_span_id. cbn [span_counter trace_counter snd seed]. rewrite Ws, Wt.
    set (live := mkLive _ _ _ _ _ _ _ _ _). set (w1 := mkWorld _ _ _ _ _ _ _).
    assert (forall t', keys (set_stack t (live :: stack w1 t) w1) t' = if decide (t' = t) then live_key live :: keys w t else keys w t') as Hk.
    { intros t'. by rewrite keys_set. }
    assert (exported (set_stack t (live :: stack w1 t) w1) = exported w) as He by done.
    split; [|unfold steady, w1; cbn; lia]. eapply (inv_push w _ t (live_key live)); [done| |unfold w1; cbn; lia..|done| |done|done].
    + split; [done|done| |by apply (known_push w _ t)]. cbn [live_key k_parent live l_parent_id].
      exists (default (wrap64 (wall c)) (seed w)). split; [done|]. split; [by apply seed_range|]. split; [by intros s' ->|done].
    + unfold keys. by rewrite E.
  - unfold new_span_id. cbn [span_counter trace_counter snd seed]. rewrite Ws.
    set (live := mkLive _ _ _ _ _ _ _ _ _). set (w1 := mkWorld _ _ _ _ _ _ _).
    assert (forall t', keys (set_stack t (live :: stack w1 t) w1) t' = if decide (t' = t) then live_key live :: keys w t else keys w t') as Hk.
    { intros t'. by rewrite keys_set. }
    assert (exported (set_stack t (live :: stack w1 t) w1) = exported w) as He by done.
    split; [|unfold steady, w1; cbn; lia]. eapply (inv_push w _ t (live_key live)); [done| |unfold w1; cbn; lia..|done| |done|done].
    + split; [done|done| |by apply (known_push w _ t)]. by cbn.
    + pose proof (inv_linked w Hi t) as Hl. revert Hl. unfold keys. rewrite E. cbn [map]. intros Hl. split; [by cbn|exact Hl].
Qed.

Lemma export_same s w :
  span_counter (export s w) = span_counter w /\ trace_counter (export s w) = trace_counter w /\ seed (export s w) = seed w /\
  (forall t, stack (export s w) t = stack w t) /\ exporter (export s w) = exporter w /\
  out (export s w) = out w ++ match exporter w with Some e => [(e, s)] | None => [] end.
Proof. unfold export. destruct (exporter w) eqn:E; [done|]. rewrite app_nil_r. by repeat split. Qed.

Lemma drop_inv t a c w : inv w -> inv (guard_drop t a c w) /\ steady w (guard_drop t a c w).
Proof.
  intros Hi. unfold guard_drop. destruct a; cbn [negb]; [|split; [done|unfold steady; lia]].
  destruct (stack w t) as [|live st] eqn:E; [split; [done|unfold steady; lia]|].
  destruct (export_same (finish c live) (set_stack t st w)) as (E1 & E2 & E3 & E4 & E5 & E6).
  split; [|unfold steady; rewrite E1, E2; cbn; lia]. eapply (inv_pop w _ t (live_key live) (map live_key st)); [done| |done..| |done|].
  - unfold keys. by rewrite E.
  - intros t'. unfold keys at 1. rewrite E4. fold (keys (set_stack t st w) t'). apply keys_set.
  - unfold exported. rewrite E6, map_app. cbn [set_stack out exporter]. by destruct (exporter w).
Qed.

Lemma event_inv t c l m fs w :
  inv w -> span_counter w + 1 < 2 ^ 64 -> trace_counter w + 1 < 2 ^ 64 ->
  inv (event t c l m fs w) /\ steady w (event t c l m fs w).
Proof.
  intros Hi Hs Ht. pose proof (inv_counters w Hi) as [? ?]. unfold event.
  assert (wrap64 (span_counter w + 1) = span_counter w + 1 /\ wrap64 (trace_counter w + 1) = trace_counter w + 1) as [Ws Wt].
  { unfold wrap64. by rewrite !Z.mod_small by lia. }
  destruct (enabled l w); cbn [negb]; [|split; [done|unfold steady; lia]].
  destruct (stack w t) as [|top st] eqn:E; [|by apply on_top_inv].
  unfold new_trace_id, new_span_id. cbn [span_counter trace_counter seed unix_nanos]. rewrite Ws, Wt.
  set (w1 := mkWorld _ _ _ _ _ _ _). set (s := mkFinished _ _ _ _ _ _ _ _ _).
  destruct (export_same s w1) as (E1 & E2 & E3 & E4 & E5 & E6).
  split; [|unfold steady; rewrite E1, E2; unfold w1; cbn; lia].
  assert (forall t', keys (export s w1) t' = keys w t') as Hk by (intros t'; unfold keys; by rewrite E4).
  assert (exported (export s w1) = exported w ++ if exporter w then [span_key s] else []) as He.
  { unfold exported. rewrite E6, map_app. unfold w1. cbn [out exporter]. by destruct (exporter w). }
  destruct (exporter w) as [e|] eqn:Ee.
  - eapply (inv_lone w _ (span_key s)); [done| |rewrite ?E1, ?E2; unfold w1; cbn; lia..|done|done|done|by rewrite E5; unfold w1; cbn; rewrite ?Ee].
    split; [by rewrite E1|by rewrite E1| |].
    + cbn [span_key k_parent s parent_id]. exists (default (wrap64 (wall c)) (seed w)). rewrite E2, E3. split; [done|].
      split; [by apply seed_range|]. split; [by intros s' ->|done].
    + intros k'. unfold known. rewrite He, elem_of_app, list_elem_of_singleton. setoid_rewrite Hk. naive_solver.
  - rewrite app_nil_r in He.
    assert (forall k', known (export s w1) k' <-> known w k') as Hn by (intros k'; unfold known; rewrite He; by setoid_rewrite Hk).
    assert (exported w = []) as Hex.
    { destruct (exported w) eqn:Ex; [done|]. exfalso. apply (inv_exporter w Hi); [by rewrite Ex|done]. }
    pose proof (seed_range c w Hi) as Hsr.
    destruct Hi. split; rewrite ?E1, ?E2, ?E3, ?He, ?Hex; unfold w1; cbn [span_counter trace_counter seed]; try done; repeat setoid_rewrite Hk; repeat setoid_rewrite Hn; eauto.
    + lia.
    + intros k Hkk. destruct (inv_ids0 k Hkk) as (n & ? & ?). exists n. split; [lia|done].
    + intros k Hkk Hp. destruct (inv_roots0 k Hkk Hp) as (s0 & n & Hs0 & ? & ?). exists s0, n. rewrite Hs0. split; [done|]. split; [lia|done].
    + constructor.
    + by intros t' k _ ?%elem_of_nil.
    + by intros k p ?%elem_of_nil.
Qed.

Lemma run_op_inv w x :
  inv w -> span_counter w + 1 < 2 ^ 64 -> trace_counter w + 1 < 2 ^ 64 -> inv (run_op w x) /\ steady w (run_op w x).
Proof.
  intros Hi Hs Ht. destruct x as [[t c] op]. destruct op; cbn [run_op].
  - by apply enter_inv.
  - unfold guard_record. destruct active; cbn [negb]; [by apply on_top_inv|]. split; [done|unfold steady; lia].
  - unfold guard_event. destruct (negb active || _); [|by apply on_top_inv]. split; [done|unfold steady; lia].
  - by apply drop_inv.
  - by apply event_inv.
  - split; [by apply (inv_same w)|unfold steady; cbn; lia].
  - split; [by apply (inv_same w)|unfold steady; cbn; lia].
Qed.

Lemma run_ops_inv ops :
  Z.of_nat (length ops) < 2 ^ 64 -> inv (foldl run_op world_new ops) /\
  span_counter (foldl run_op world_new ops) <= Z.of_nat (length ops) /\ trace_counter (foldl run_op world_new ops) <= Z.of_nat (length ops).
Proof.
  induction ops as [|x ops IH] using rev_ind; intros Hl; [split; [apply inv_world_new|cbn; lia]|].
  rewrite length_app in *. cbn [length] in *. destruct IH as (Hi & Hs & Ht); [lia|]. rewrite foldl_app. cbn [foldl].
  destruct (run_op_inv _ x Hi) as [? [? ?]]; [lia..|]. split; [done|lia].
Qed.

(** C40 Exported spans form traces: after any operations of any threads, guards dropped out of order included, no two
    exported spans have the same id; the parent an exported span names is an exported span or one still entered, of the
    same trace; and roots of different spans have different traces. *)
Theorem spans_form_traces (ops : list (nat * Clock * Op)) :
  Z.of_nat (length ops) < 2 ^ 64 ->
  let w := foldl run_op world_new ops in
  let ss := map snd (out w) in
  NoDup (map span_id ss) /\
  (forall s p, s ∈ ss -> parent_id s = Some p ->
    (exists q, q ∈ ss /\ span_id q = p /\ trace_id q = trace_id s) \/
    (exists t q, q ∈ stack w t /\ l_span_id q = p /\ l_trace_id q = trace_id s)) /\
  (forall s s', s ∈ ss -> s' ∈ ss -> parent_id s = None -> parent_id s' = None -> trace_id s = trace_id s' -> span_id s = span_id s').
Proof.
  intros Hl w ss. destruct (run_ops_inv ops Hl) as [Hi _]. fold w in Hi.
  assert (exported w = map span_key ss) as He by (unfold exported, ss; by rewrite map_map).
  assert (forall s, s ∈ ss -> span_key s ∈ exported w) as Hin by (intros s Hs; rewrite He; by apply (list_elem_of_fmap_2 span_key)).
  split; [|split].
  - pose proof (inv_exported_once w Hi) as H. by rewrite He, map_map in H.
  - intros s p Hs Hp. destruct (inv_parents w Hi (span_key s) p (Hin s Hs) Hp) as (k & [[t Hk]|Hk] & Hid & Htr).
    + right. apply list_elem_of_fmap in Hk as (q & -> & Hq). by exists t, q.
    + left. rewrite He in Hk. apply list_elem_of_fmap in Hk as (q & -> & Hq). by exists q.
  - intros s s' Hs Hs' Hp Hp' E. by apply (inv_distinct_roots w Hi (span_key s) (span_key s')); [right; apply Hin..|done|done|].
Qed.

Lemma spans_form_traces_witness :
  let c := mkClock 7 9 in
  let w := foldl run_op world_new [(0%nat, c, OpExporter 1); (0%nat, c, OpEnter (span_new (b!"a"))); (1%nat, c, OpEnter (span_new (b!"x")));
    (0%nat, c, OpEnter (span_new (b!"b"))); (0%nat, c, OpDrop true); (1%nat, c, OpDrop true); (0%nat, c, OpDrop true)] in
  map (fun o => name (snd o)) (out w) = [b!"b"; b!"x"; b!"a"] /\ NoDup (map span_id (map snd (out w))).
Proof.
  intros c w. split; [vm_compute; reflexivity|].
  apply (spans_form_traces [(0%nat, c, OpExporter 1); (0%nat, c, OpEnter (span_new (b!"a"))); (1%nat, c, OpEnter (span_new (b!"x")));
    (0%nat, c, OpEnter (span_new (b!"b"))); (0%nat, c, OpDrop true); (1%nat, c, OpDrop true); (0%nat, c, OpDrop true)]).
  vm_compute. reflexivity.
Defined.

(** A guard writes to the innermost span of its thread, which need not be its own. *)
Example record_goes_to_innermost :
  let c := mkClock 1 1 in
  let w := foldl run_op world_new [(0%nat, c, OpExporter 1); (0%nat, c, OpEnter (span_new (b!"outer"))); (0%nat, c, OpEnter (span_new (b!"inner")));
    (0%nat, c, OpRecord true (b!"k") Value.Null); (0%nat, c, OpDrop true); (0%nat, c, OpDrop true)] in
  map (fun o => (name (snd o), fields (snd o))) (out w) = [(b!"inner", [(b!"k", Value.Null)]); (b!"outer", [])].
Proof. vm_compute. reflexivity. Qed.

(** ** Written lines read back *)

(** The JSON exporter's output reads back: cutting what it wrote at line breaks and parsing each line gives the
    exported spans in order, with nothing left over, whatever line breaks and quotes names, messages and fields hold. *)
Theorem json_export_roundtrip (ss : list FinishedSpan) :
  Forall (fun s => encodable (span_to_value s) = true /\ (Value.depth (span_to_value s) <= MAX_DEPTH)%nat) ss ->
  let '(ls, rest) := Sse.lines (foldl json_export [] ss) in
  rest = [] /\ map from_str ls = map (fun s => Ok (norm (span_to_value s))) ss.
Proof.
  intros H. assert (foldl json_export [] ss = Sse.unlines (map (fun s => Json.to_string (span_to_value s)) ss)) as ->.
  { induction ss as [|s ss IH] using rev_ind; [done|]. apply Forall_app in H as [H _]. rewrite foldl_app, map_app, Sse.unlines_app. cbn [foldl].
    rewrite IH by done. unfold json_export, Sse.unlines at 3. cbn [map concat]. by rewrite app_nil_r. }
  rewrite Sse.lines_unlines.
  - split; [done|]. rewrite map_map. apply map_ext_in. intros s Hs%list_elem_of_In. rewrite Forall_forall in H.
    destruct (H s Hs) as [He Hd]. by apply from_str_to_string.
  - apply Forall_map. eapply Forall_impl; [exact H|]. intros s [He _]. rewrite to_string_render. by apply render_no_newline.
Qed.

Definition demo_span : FinishedSpan :=
  mkFinished [x61; x0a] (trace_number 5 1) (span_number 1) None Info (2 ^ 70) 3 [(b!"n", Value.Int 5)] [mkEvent Warn [x22; x0a] [] 7].

Lemma json_export_roundtrip_witness :
  let '(ls, rest) := Sse.lines (foldl json_export [] [demo_span; demo_span]) in
  rest = [] /\ map from_str ls = [Ok (norm (span_to_value demo_span)); Ok (norm (span_to_value demo_span))].
Proof.
  apply (json_export_roundtrip [demo_span; demo_span]).
  repeat constructor; try (vm_compute; reflexivity); apply Nat.leb_le; vm_compute; reflexivity.
Defined.

(** ** Batches *)

Module OtlpSpec.
Import Otlp HttpCore.

(** The spans handed over before the channel closed. *)
Fixpoint handed (ms : list Wake) : list FinishedSpan :=
  match ms with
  | [] | Closed :: _ => []
  | MSpan s :: ms' => s :: handed ms'
  | _ :: ms' => handed ms'
  end.

Definition batch (ss : list FinishedSpan) : list (list FinishedSpan) := if bool_decide (length ss = 0%nat) then [] else [ss].

Lemma post_batch e v ss : post e v ss = flat_map (post e v) (batch ss) /\ concat (batch ss) = ss.
Proof.
  unfold batch. case_bool_decide as E; cbn [flat_map concat]; rewrite ?app_nil_r; [|done].
  destruct ss; [|done]. done.
Qed.

Lemma wakes_stopped e v k ms : running k = false -> foldl (wake e v) k ms = k.
Proof. intros H. induction ms as [|m ms IH]; [done|]. cbn [foldl]. unfold wake at 2. by rewrite H. Qed.

Lemma wakes_batches e v ms : forall k, running k = true -> (length (buf k) < BATCH_LIMIT)%nat ->
  let k' := foldl (wake e v) k ms in
  exists bs, sent k' = sent k ++ flat_map (post e v) bs /\ buf k ++ handed ms = concat bs ++ buf k' /\
    Forall (fun b => (1 <= length b <= BATCH_LIMIT)%nat) bs /\ (length (buf k') < BATCH_LIMIT)%nat /\ (running k' = false -> buf k' = []).
Proof.
  assert (forall ss, (length ss <= BATCH_LIMIT)%nat -> Forall (fun b : list FinishedSpan => (1 <= length b <= BATCH_LIMIT)%nat) (batch ss)) as Hb.
  { intros ss Hs. unfold batch. case_bool_decide; [constructor|]. apply Forall_singleton. lia. }
  assert (0 < BATCH_LIMIT)%nat as Hpos by (unfold BATCH_LIMIT; lia).
  induction ms as [|m ms IH]; intros k Hr Hl k'.
  { exists []. subst k'. cbn [foldl handed flat_map concat app]. rewrite !app_nil_r. repeat split; [constructor|done|congruence]. }
  subst k'. cbn [foldl].
  assert (forall l, (length l <= BATCH_LIMIT)%nat -> buf k ++ handed (m :: ms) = l ++ handed ms ->
    let k' := foldl (wake e v) (flush_now e v true (mkTask l (sent k) true)) ms in
    exists bs, sent k' = sent k ++ flat_map (post e v) bs /\ buf k ++ handed (m :: ms) = concat bs ++ buf k' /\
      Forall (fun b => (1 <= length b <= BATCH_LIMIT)%nat) bs /\ (length (buf k') < BATCH_LIMIT)%nat /\ (running k' = false -> buf k' = [])) as Hflush.
  { intros l Hll He k'. subst k'. destruct (IH (flush_now e v true (mkTask l (sent k) true)) eq_refl Hpos) as (bs & E1 & E2 & E3 & E4 & E5).
    exists (batch l ++ bs). destruct (post_batch e v l) as [P1 P2]. cbn [flush_now buf sent] in E1, E2.
    rewrite He, flat_map_app, concat_app, P2, <- P1. rewrite app_assoc. split; [exact E1|]. rewrite <- app_assoc, <- E2. split; [done|].
    split; [|done]. apply Forall_app. split; [by apply Hb|done]. }
  assert (wake e v k m = match m with
    | MSpan s => if (BATCH_LIMIT <=? length (buf k ++ [s]))%nat then flush_now e v true (mkTask (buf k ++ [s]) (sent k) true)
                 else mkTask (buf k ++ [s]) (sent k) true
    | MFlush | Tick => flush_now e v true (mkTask (buf k) (sent k) true)
    | Closed => flush_now e v false k
    end) as -> by (unfold wake; rewrite Hr; by destruct m).
  destruct m as [s| | |]; [|apply (Hflush (buf k)); [lia|done]..|].
  - destruct (Nat.leb_spec BATCH_LIMIT (length (buf k ++ [s]))) as [Hge|Hlt].
    + apply (Hflush (buf k ++ [s])); [rewrite length_app; cbn [length]; lia|]. cbn [handed]. by rewrite <- app_assoc.
    + destruct (IH (mkTask (buf k ++ [s]) (sent k) true) eq_refl Hlt) as (bs & E1 & E2 & E3). exists bs. split; [done|]. split; [|done].
      rewrite <- E2. cbn [handed buf]. by rewrite <- app_assoc.
  - rewrite wakes_stopped by done. exists (batch (buf k)). destruct (post_batch e v (buf k)) as [P1 P2]. cbn [flush_now sent buf handed running].
    rewrite P2, <- P1, !app_nil_r. repeat split; [apply Hb; lia|cbn; lia].
Qed.

(** Every span handed to the collector's exporter is sent once, in order: whatever the interleaving of spans, flushes,
    ticks and the end of the channel, the requests are those of consecutive batches of one to [BATCH_LIMIT] spans that,
    with the fewer than [BATCH_LIMIT] spans still buffered, are the spans handed over; nothing is left when the task ends. *)
Theorem otlp_batches (endpoint service : bytes) (ms : list Wake) :
  let k := foldl (wake endpoint service) task_new ms in
  exists bs, sent k = flat_map (post endpoint service) bs /\ handed ms = concat bs ++ buf k /\
    Forall (fun b => (1 <= length b <= BATCH_LIMIT)%nat) bs /\ (length (buf k) < BATCH_LIMIT)%nat /\ (running k = false -> buf k = []).
Proof.
  destruct (wakes_batches endpoint service ms task_new eq_refl) as (bs & H); [unfold BATCH_LIMIT; cbn; lia|]. by exists bs.
Qed.

End OtlpSpec.

End Obs.
