(* ===== verification/Log.v ===== *)
(** * The structured logger ([log.rs])

    Filtering, the plain and JSON forms of a record, RFC 3339 timestamps, and the
    background writer behind a bounded channel as a transition system.  The clock
    and what the context providers return are arguments; a synchronous sink is
    the bytes written to it. *)

From S2P Require Import Prelude Text Scan Ordered Value Json.

Open Scope Z_scope.

Module Log.

Inductive Level := Trace | Debug | Info | Warn | Error.

Definition level_rank (l : Level) : Z := match l with Trace => 0 | Debug => 1 | Info => 2 | Warn => 3 | Error => 4 end.
Definition as_str (l : Level) : bytes :=
  match l with Trace => b!"trace" | Debug => b!"debug" | Info => b!"info" | Warn => b!"warn" | Error => b!"error" end.
(** [as_str().to_uppercase()]: the names are ASCII. *)
Definition upper_str (l : Level) : bytes :=
  match l with Trace => b!"TRACE" | Debug => b!"DEBUG" | Info => b!"INFO" | Warn => b!"WARN" | Error => b!"ERROR" end.

Definition Fields : Type := list (bytes * Value).

(** ** Timestamps *)

(** Days since 1970-01-01 to year, month and day; [Z.quot] is [i64] division. *)
Definition civil_from_days (z : Z) : Z * Z * Z :=
  let z := z + 719468 in
  let era := Z.quot (if 0 <=? z then z else z - 146096) 146097 in
  let doe := z - era * 146097 in
  let yoe := (doe - doe / 1460 + doe / 36524 - doe / 146096) / 365 in
  let y := yoe + era * 400 in
  let doy := doe - (365 * yoe + yoe / 4 - yoe / 100) in
  let mp := (5 * doy + 2) / 153 in
  let day := doy - (153 * mp + 2) / 5 + 1 in
  let month := if mp <? 10 then mp + 3 else mp - 9 in
  (if month <=? 2 then y + 1 else y, month, day).

(** [{n:0w}] *)
Definition zero_pad (w : nat) (n : Z) : bytes := let s := show_uint n in replicate (w - length s) x30 ++ s.

(** [rfc3339]; [t] is the time since the epoch in nanoseconds, before which the
    epoch itself is printed. *)
Definition rfc3339 (t : Z) : bytes :=
  let t := Z.max 0 t in
  let secs := t / 1000000000 in
  let millis := t mod 1000000000 / 1000000 in
  let days := secs / 86400 in
  let rem := secs mod 86400 in
  let '(hour, min, sec) := (rem / 3600, rem mod 3600 / 60, rem mod 60) in
  let '(year, month, day) := civil_from_days days in
  zero_pad 4 year ++ b!"-" ++ zero_pad 2 month ++ b!"-" ++ zero_pad 2 day ++ b!"T" ++ zero_pad 2 hour ++ b!":" ++ zero_pad 2 min
  ++ b!":" ++ zero_pad 2 sec ++ b!"." ++ zero_pad 3 millis ++ b!"Z".

(** ** Records *)

Inductive Format := Plain | JsonLines.

(** A logger; [sink] is the number of the sink it shares with its clones. *)
Record Logger := mkLogger { format : Format; min : Level; fields : Fields; sink : nat }.

(** Sink 0 is stderr. *)
Definition default_logger : Logger := mkLogger Plain Trace [] 0.
Definition json : Logger := mkLogger JsonLines Trace [] 0.
Definition set_format (f : Format) (l : Logger) : Logger := mkLogger f (min l) (fields l) (sink l).
Definition set_level (m : Level) (l : Logger) : Logger := mkLogger (format l) m (fields l) (sink l).
Definition with_field (k : bytes) (v : Value) (l : Logger) : Logger := mkLogger (format l) (min l) (fields l ++ [(k, v)]) (sink l).

(** Replaces line breaks. *)
Definition sanitize (msg : bytes) : bytes := map (fun b => if bool_decide (b = x0a) || bool_decide (b = x0d) then x20 else b) msg.

Definition value_plain (v : Value) : bytes := match v with Value.Str s => s | _ => Json.to_string v end.

Definition plain_fields (fs : Fields) : bytes := flat_map (fun kv => [x20] ++ fst kv ++ [x3d] ++ value_plain (snd kv)) fs.

Definition format_plain (l : Logger) (ts : bytes) (lv : Level) (msg : bytes) (provided fs : Fields) : bytes :=
  ts ++ [x20] ++ (let s := upper_str lv in s ++ replicate (5 - length s) x20) ++ [x20] ++ sanitize msg
  ++ plain_fields (provided ++ fields l) ++ plain_fields fs.

Definition record_value (l : Logger) (ts : bytes) (lv : Level) (msg : bytes) (provided fs : Fields) : Value :=
  Value.Object ([(b!"ts", Value.Str ts); (b!"level", Value.Str (as_str lv)); (b!"msg", Value.Str msg)] ++ provided ++ fields l ++ fs).

Definition format_json (l : Logger) (ts : bytes) (lv : Level) (msg : bytes) (provided fs : Fields) : bytes :=
  Json.to_string (record_value l ts lv msg provided fs).

(** [context_fields]: [ctx] is what each registered provider returns now. *)
Definition context_fields (ctx : list Fields) : Fields := concat ctx.

(** ** The background writer of [async_to] *)

Module Appender.

Inductive Cmd := Write (bs : bytes) | Flush (ack : nat).

(** The thread is in [recv], handles a command, or has ended, which disconnects the
    channel. *)
Inductive Thread := Waiting | Handling (c : Cmd) | Ended.

Record Appender := mkAppender {
  capacity : nat;
  queue : list Cmd;
  thread : Thread;
  written : bytes;
  dropped : Z;
  acked : list nat;
}.

Definition new (cap : nat) : Appender := mkAppender cap [] Waiting [] 0 [].

(** Whether a bounded channel takes a command now; without capacity it takes one
    only if the thread is waiting for it. *)
Definition room (a : Appender) : bool :=
  match thread a with
  | Ended => false
  | Waiting => (length (queue a) <? Nat.max 1 (capacity a))%nat
  | Handling _ => (length (queue a) <? capacity a)%nat
  end.

Definition push (c : Cmd) (a : Appender) : Appender :=
  mkAppender (capacity a) (queue a ++ [c]) (thread a) (written a) (dropped a) (acked a).

(** [try_send(Cmd::Write(..))] of [log]. *)
Definition log_line (line : bytes) (a : Appender) : Appender :=
  if room a then push (Write line) a
  else mkAppender (capacity a) (queue a) (thread a) (written a) (wrap64 (dropped a + 1)) (acked a).

(** The blocking [tx.send(Cmd::Flush(..))] of [flush] completes when there is room. *)
Definition flush_send (id : nat) (a : Appender) : option Appender := if room a then Some (push (Flush id) a) else None.

(** [rx.recv()] *)
Definition recv (a : Appender) : option Appender :=
  match thread a, queue a with
  | Waiting, c :: q => Some (mkAppender (capacity a) q (Handling c) (written a) (dropped a) (acked a))
  | _, _ => None
  end.

(** The body of the thread's loop; [ok] is whether [write_all] succeeds, after [n]
    bytes if it does not. *)
Definition handle (ok : bool) (n : nat) (a : Appender) : option Appender :=
  match thread a with
  | Handling (Write bs) =>
      Some (if ok then mkAppender (capacity a) (queue a) Waiting (written a ++ bs) (dropped a) (acked a)
            else mkAppender (capacity a) [] Ended (written a ++ take n bs) (dropped a) (acked a))
  | Handling (Flush id) => Some (mkAppender (capacity a) (queue a) Waiting (written a) (dropped a) (acked a ++ [id]))
  | _ => None
  end.

Inductive Event := ELog (line : bytes) | EFlush (id : nat) | ERecv | EHandle (ok : bool) (n : nat).

Definition step (a : Appender) (e : Event) : option Appender :=
  match e with
  | ELog line => Some (log_line line a)
  | EFlush id => flush_send id a
  | ERecv => recv a
  | EHandle ok n => handle ok n a
  end.

Fixpoint run (a : Appender) (es : list Event) : option Appender :=
  match es with [] => Some a | e :: es' => a' ← step a e; run a' es' end.

End Appender.

(** ** The process *)

Inductive Sink := Sync (w : bytes) | Async (a : Appender.Appender).

(** [MAX_LEVEL], [GLOBAL] and the sinks in use. *)
Record World := mkWorld { max_level : Z; global : option Logger; sinks : list Sink }.

Definition world_new : World := mkWorld (level_rank Info) None [Sync []].

Definition set_max_level (l : Level) (w : World) : World := mkWorld (level_rank l) (global w) (sinks w).
Definition enabled (l : Level) (w : World) : bool := max_level w <=? level_rank l.
Definition set_global (l : Logger) (w : World) : World := mkWorld (max_level w) (Some l) (sinks w).
Definition get_global (w : World) : Logger := default default_logger (global w).

Definition add_sink (s : Sink) (l : Logger) (w : World) : Logger * World :=
  (mkLogger (format l) (min l) (fields l) (length (sinks w)), mkWorld (max_level w) (global w) (sinks w ++ [s])).
Definition to_writer (l : Logger) (w : World) : Logger * World := add_sink (Sync []) l w.
Definition async_to (cap : nat) (l : Logger) (w : World) : Logger * World := add_sink (Async (Appender.new cap)) l w.

Definition write_line (line : bytes) (s : Sink) : Sink :=
  match s with Sync w => Sync (w ++ line ++ [x0a]) | Async a => Async (Appender.log_line (line ++ [x0a]) a) end.

(** [Logger::log] at time [now]. *)
Definition log (now : Z) (ctx : list Fields) (l : Logger) (lv : Level) (msg : bytes) (fs : Fields) (w : World) : World :=
  if (level_rank lv <? level_rank (min l)) || negb (enabled lv w) then w
  else
    let ts := rfc3339 now in
    let provided := context_fields ctx in
    let line := match format l with
                | Plain => format_plain l ts lv msg provided fs
                | JsonLines => format_json l ts lv msg provided fs
                end in
    mkWorld (max_level w) (global w) (alter (write_line line) (sink l) (sinks w)).

(** [Logger::dropped] *)
Definition dropped (l : Logger) (w : World) : Z :=
  match sinks w !! sink l with Some (Async a) => Appender.dropped a | _ => 0 end.

(** The free functions [trace] to [error]. *)
Definition log_global (now : Z) (ctx : list Fields) (lv : Level) (msg : bytes) (fs : Fields) (w : World) : World :=
  log now ctx (get_global w) lv msg fs w.

(** ** The calendar *)

Definition leap (y : Z) : bool := (y mod 4 =? 0) && negb (y mod 100 =? 0) || (y mod 400 =? 0).

Definition days_in_month (y m : Z) : Z :=
  if m =? 2 then (if leap y then 29 else 28) else if existsb (Z.eqb m) [4; 6; 9; 11] then 30 else 31.

(** The day after a date of the Gregorian calendar. *)
Definition next_day (ymd : Z * Z * Z) : Z * Z * Z :=
  let '(y, m, d) := ymd in
  if d <? days_in_month y m then (y, m, d + 1) else if m <? 12 then (y, m + 1, 1) else (y + 1, 1, 1).

(** Eras of 400 years. *)
Definition shift (e : Z) (ymd : Z * Z * Z) : Z * Z * Z := let '(y, m, d) := ymd in (y + 400 * e, m, d).

(** The year of a day of an era, counted from March, and the month and day of a day
    of such a year. *)
Definition yoe_of (doe : Z) : Z := (doe - doe / 1460 + doe / 36524 - doe / 146096) / 365.
Definition year_start (yoe : Z) : Z := 365 * yoe + yoe / 4 - yoe / 100.
Definition month_day (doy : Z) : Z * Z :=
  let mp := (5 * doy + 2) / 153 in
  (if mp <? 10 then mp + 3 else mp - 9, doy - (153 * mp + 2) / 5 + 1).

Definition civil_of_doe (doe : Z) : Z * Z * Z :=
  let yoe := yoe_of doe in
  let '(m, d) := month_day (doe - year_start yoe) in
  (if m <=? 2 then yoe + 1 else yoe, m, d).

Lemma civil_split z :
  civil_from_days z = shift ((z + 719468) / 146097) (civil_of_doe ((z + 719468) mod 146097)).
Proof.
  unfold civil_from_days. assert (forall x, Z.quot (if 0 <=? x then x else x - 146096) 146097 = x / 146097) as ->.
  { intros x. destruct (Z.leb_spec 0 x); Z.to_euclidean_division_equations; lia. }
  rewrite (Z.mod_eq (z + 719468) 146097) by lia. rewrite (Z.mul_comm 146097). set (e := (z + 719468) / 146097). set (doe := z + 719468 - e * 146097).
  unfold shift, civil_of_doe, month_day, yoe_of, year_start. set (month := if _ <? 10 then _ else _).
  destruct (month <=? 2); f_equal; f_equal; lia.
Qed.

(** A test of all numbers from [lo] on, [2 ^ k] of them. *)
Fixpoint all_from (k : nat) (p : Z -> bool) (lo : Z) : bool :=
  match k with O => p lo | S k' => all_from k' p lo && all_from k' p (lo + 2 ^ Z.of_nat k') end.

Lemma all_from_spec k p lo : all_from k p lo = true -> forall x, lo <= x < lo + 2 ^ Z.of_nat k -> p x = true.
Proof.
  revert lo. induction k as [|k IH]; intros lo H x Hx; [by replace x with lo by (cbn in Hx; lia)|].
  cbn [all_from] in H. apply andb_true_iff in H as [H1 H2]. rewrite Nat2Z.inj_succ, Z.pow_succ_r in Hx by lia.
  destruct (Z.lt_ge_cases x (lo + 2 ^ Z.of_nat k)); [apply (IH lo)|apply (IH (lo + 2 ^ Z.of_nat k))]; auto; lia.
Qed.

(** The days of a year are numbered from 0 to 364, or 365 before a leap day's March. *)
Lemma yoe_spec doe :
  0 <= doe < 146096 ->
  0 <= yoe_of doe <= 399 /\ 0 <= doe - year_start (yoe_of doe) <= 365 /\
  (doe - year_start (yoe_of doe) = 365 -> leap (yoe_of doe + 1) = true).
Proof.
  intros H. unfold yoe_of, year_start. replace (doe / 146096) with 0 by (symmetry; apply Z.div_small; lia).
  assert (0 <= doe / 36524 <= 3) as Hc by (Z.to_euclidean_division_equations; lia).
  assert (doe / 36524 = 0 \/ doe / 36524 = 1 \/ doe / 36524 = 2 \/ doe / 36524 = 3) as [E|[E|[E|E]]] by lia; rewrite E;
    (split; [Z.to_euclidean_division_equations; lia|]); (split; [Z.to_euclidean_division_equations; lia|]);
    unfold leap; rewrite orb_true_iff, andb_true_iff, negb_true_iff, !Z.eqb_eq, Z.eqb_neq; Z.to_euclidean_division_equations; lia.
Qed.

Lemma leap_year_length y : 0 <= y < 399 -> year_start (y + 1) = year_start y + (if leap (y + 1) then 366 else 365).
Proof.
  intros Hy. unfold leap, year_start. destruct (Z.eqb_spec ((y + 1) mod 4) 0), (Z.eqb_spec ((y + 1) mod 100) 0), (Z.eqb_spec ((y + 1) mod 400) 0);
    cbn [andb orb negb]; Z.to_euclidean_division_equations; lia.
Qed.

Lemma month_day_next doy :
  0 <= doy <= 364 ->
  month_day (doy + 1) = let '(m, d) := month_day doy in
    if d <? (if m =? 2 then 29 else if existsb (Z.eqb m) [4; 6; 9; 11] then 30 else 31) then (m, d + 1)
    else if m <? 12 then (m + 1, 1) else (1, 1).
Proof.
  intros Hd. pose (p := fun x => (364 <? x) || bool_decide (month_day (x + 1) = let '(m, d) := month_day x in
    if d <? (if m =? 2 then 29 else if existsb (Z.eqb m) [4; 6; 9; 11] then 30 else 31) then (m, d + 1)
    else if m <? 12 then (m + 1, 1) else (1, 1))).
  assert (p doy = true) as H by (apply (all_from_spec 9 p 0); [vm_compute; reflexivity|cbn; lia]).
  unfold p in H. rewrite orb_true_iff, Z.ltb_lt, bool_decide_eq_true in H. destruct H; [lia|done].
Qed.

(** February 28 is day 364; the months of the other days are the same in every year. *)
Lemma month_day_feb doy :
  0 <= doy <= 365 ->
  let '(m, d) := month_day doy in
  1 <= m <= 12 /\ (m = 2 -> doy = 336 + d) /\ (364 <= doy -> m = 2).
Proof.
  intros Hd. pose (p := fun x => (365 <? x) || (let '(m, d) := month_day x in
    (1 <=? m) && (m <=? 12) && (negb (m =? 2) || (x =? 336 + d)) && ((x <? 364) || (m =? 2)))).
  assert (p doy = true) as H by (apply (all_from_spec 9 p 0); [vm_compute; reflexivity|cbn; lia]).
  unfold p in H. destruct (month_day doy) as [m d]. rewrite !orb_true_iff, !andb_true_iff, !orb_true_iff, negb_true_iff in H. zbool. lia.
Qed.

Lemma civil_era doe :
  0 <= doe < 146097 ->
  next_day (civil_of_doe doe) = (if doe =? 146096 then shift 1 (civil_of_doe 0) else civil_of_doe (doe + 1)).
Proof.
  intros Hd. destruct (Z.eqb_spec doe 146096) as [->|H1]; [reflexivity|]. destruct (Z.eq_dec doe 146095) as [->|H2]; [reflexivity|].
  destruct (yoe_spec doe) as (Hy & Hr & Hl); [lia|]. destruct (yoe_spec (doe + 1)) as (Hy' & Hr' & Hl'); [lia|].
  unfold civil_of_doe. set (y := yoe_of doe) in *. set (y' := yoe_of (doe + 1)) in *. set (k := doe - year_start y) in *.
  set (k' := doe + 1 - year_start y') in *.
  assert ((y' = y /\ k' = k + 1) \/ (y' = y + 1 /\ k' = 0 /\ k = (if leap (y + 1) then 365 else 364))) as Hnext.
  { assert (y <= y' <= y + 1) as Hyy by (unfold k, k', year_start in *; Z.to_euclidean_division_equations; lia).
    destruct (Z.eq_dec y' y) as [E|E]; [left; subst k' k; rewrite E; lia|right]. assert (y' = y + 1) as E' by lia.
    assert (y < 399) as Hlt by lia. pose proof (leap_year_length y ltac:(lia)) as Hlen. subst k' k. rewrite E' in *.
    destruct (leap (y + 1)); [|destruct (Z.eq_dec (doe - year_start y) 365) as [E2|E2]; [specialize (Hl E2); done|]]; lia. }
  pose proof (month_day_feb k Hr) as Hf. destruct Hnext as [[-> ->]|(-> & -> & Hk)].
  - rewrite month_day_next by lia. destruct (month_day k) as [m d]. cbn [next_day]. unfold days_in_month. destruct Hf as (Hm & Hf & _).
    destruct (Z.eqb_spec m 2) as [->|Hm2].
    + change (2 <=? 2) with true. cbv iota. destruct (leap (y + 1)) eqn:El.
      * replace (d <? 29) with true by (symmetry; apply Z.ltb_lt; specialize (Hf eq_refl); lia). done.
      * assert (d < 28) as Hd28 by (destruct (Z.eq_dec k 364) as [E|E]; [specialize (Hl' ltac:(lia)); congruence|specialize (Hf eq_refl); lia]).
        replace (d <? 28) with true by (symmetry; apply Z.ltb_lt; lia). replace (d <? 29) with true by (symmetry; apply Z.ltb_lt; lia). done.
    + destruct (d <? _); [done|]. destruct (Z.ltb_spec m 12) as [Hlt|Hge].
      * destruct (Z.leb_spec m 2) as [Hle|Hgt], (Z.leb_spec (m + 1) 2) as [Hle'|Hgt']; try lia; done.
      * assert (m = 12) as -> by lia. done.
  - assert (month_day k = (2, k - 336)) as ->.
    { destruct (month_day k) as [m d]. destruct Hf as (_ & Hf1 & Hf2). rewrite Hf2 in * by (destruct (leap (y + 1)); lia). f_equal. specialize (Hf1 eq_refl). lia. }
    subst k. rewrite Hk. cbn [next_day]. unfold days_in_month. change (2 =? 2) with true. cbv iota. change (2 <=? 2) with true. cbv iota.
    destruct (leap (y + 1)); reflexivity.
Qed.

Lemma next_day_shift e x : next_day (shift e x) = shift e (next_day x).
Proof.
  destruct x as [[y m] d]. cbn [shift next_day]. assert (days_in_month (y + 400 * e) m = days_in_month y m) as ->.
  { unfold days_in_month. assert (leap (y + 400 * e) = leap y) as ->; [|done]. unfold leap.
    replace (y + 400 * e) with (y + (100 * e) * 4) at 1 by lia. rewrite Z.mod_add by lia.
    replace (y + 400 * e) with (y + (4 * e) * 100) at 1 by lia. rewrite Z.mod_add by lia.
    replace (y + 400 * e) with (y + e * 400) at 1 by lia. by rewrite Z.mod_add by lia. }
  destruct (d <? days_in_month y m); [done|]. destruct (m <? 12); [done|]. cbn [shift]. do 2 f_equal. lia.
Qed.

(** [civil_from_days] is the Gregorian calendar: day 0 is 1970-01-01, and for every day, before or after, the next day
    number is the next date, leap years included. *)
Theorem civil_from_days_calendar (z : Z) :
  civil_from_days 0 = (1970, 1, 1) /\ civil_from_days (z + 1) = next_day (civil_from_days z).
Proof.
  split; [reflexivity|]. rewrite !civil_split. replace (z + 1 + 719468) with (z + 719468 + 1) by lia. set (n := z + 719468).
  pose proof (Z.mod_pos_bound n 146097 ltac:(lia)) as Hb. rewrite next_day_shift, civil_era by done.
  pose proof (Z.div_mod n 146097 ltac:(lia)) as Hdm. destruct (Z.eqb_spec (n mod 146097) 146096) as [E|E].
  - assert ((n + 1) / 146097 = n / 146097 + 1 /\ (n + 1) mod 146097 = 0) as [-> ->] by (Z.to_euclidean_division_equations; lia).
    destruct (civil_of_doe 0) as [[y m] d]. cbn [shift]. do 2 f_equal. lia.
  - by assert ((n + 1) / 146097 = n / 146097 /\ (n + 1) mod 146097 = n mod 146097 + 1) as [-> ->] by (Z.to_euclidean_division_equations; lia).
Qed.

(** ** Timestamps read back *)

(** A number of exactly [w] digits, and a literal. *)
Definition read_number (w : nat) (s : bytes) : option (Z * bytes) :=
  if bool_decide (length (take w s) = w) && forallb F64.is_digit (take w s) then Some (F64.digits_val (take w s), drop w s) else None.
Definition read_mark (c : byte) (s : bytes) : option bytes :=
  match s with b :: s' => if bool_decide (b = c) then Some s' else None | [] => None end.

(** The fields of a timestamp [YYYY-MM-DDThh:mm:ss.mmmZ]: the date and the
    milliseconds of the day. *)
Definition read_rfc3339 (s : bytes) : option (Z * Z * Z * Z) :=
  '(y, s) ← read_number 4 s; s ← read_mark x2d s; '(mo, s) ← read_number 2 s; s ← read_mark x2d s; '(d, s) ← read_number 2 s;
  s ← read_mark x54 s; '(h, s) ← read_number 2 s; s ← read_mark x3a s; '(mi, s) ← read_number 2 s; s ← read_mark x3a s;
  '(sec, s) ← read_number 2 s; s ← read_mark x2e s; '(ms, s) ← read_number 3 s; s ← read_mark x5a s;
  if bool_decide (s = []) then Some (y, mo, d, ((h * 60 + mi) * 60 + sec) * 1000 + ms) else None.

Lemma itoa_width w : forall room n buf r,
  0 <= n < 10 ^ Z.of_nat (S w) -> itoa room n buf = Some r -> (length r <= S w + length buf)%nat.
Proof.
  induction w as [|w IH]; intros room n buf r Hn H; (destruct room as [|room]; [done|]); cbn [itoa] in H.
  - replace (n / 10) with 0 in H by (symmetry; apply Z.div_small; cbn in Hn; lia). cbn in H. simplify_eq. cbn. lia.
  - destruct (Z.eqb_spec (n / 10) 0); [simplify_eq; cbn [length]; lia|]. apply IH in H; [cbn [length] in H; lia|].
    rewrite (Nat2Z.inj_succ (S w)), Z.pow_succ_r in Hn by lia. split; [apply Z.div_pos; lia|apply Z.div_lt_upper_bound; lia].
Qed.

Lemma zero_pad_reads w n r : 0 <= n < 10 ^ Z.of_nat (S w) -> read_number (S w) (zero_pad (S w) n ++ r) = Some (n, r).
Proof.
  intros Hn. destruct (show_uint_digits n ltac:(lia)) as (_ & Hd & Hv).
  assert (length (show_uint n) <= S w)%nat as Hl.
  { unfold show_uint. destruct (itoa _ n []) as [ds|] eqn:E; [|cbn; lia]. apply (itoa_width w) in E; [cbn [default from_option id]; cbn [length] in E; lia|done]. }
  unfold zero_pad. set (k := (S w - length (show_uint n))%nat). set (t := replicate k x30 ++ show_uint n).
  assert (length t = S w) as Ht by (unfold t; rewrite length_app, length_replicate; lia).
  unfold read_number. rewrite take_app_length', drop_app_length' by done. rewrite Ht, bool_decide_true by done.
  assert (forallb F64.is_digit t = true) as ->.
  { apply forallb_forall. intros b Hb%list_elem_of_In. unfold t in Hb. apply elem_of_app in Hb as [Hb|Hb]; [by apply elem_of_replicate in Hb as [-> _]|].
    rewrite Forall_forall in Hd. by apply Hd. }
  cbn [andb]. do 2 f_equal. change (dec_val 0 t = n). unfold t. rewrite dec_val_app. replace (dec_val 0 (replicate k x30)) with 0; [done|].
  clear. induction k as [|k IH]; [done|]. exact IH.
Qed.

Lemma read_mark_app (c : byte) r : read_mark c (c :: r) = Some r.
Proof. cbn [read_mark]. by rewrite bool_decide_true. Qed.

Lemma civil_range z : 0 <= z -> let '(y, m, d) := civil_from_days z in 0 <= y /\ 1 <= m <= 12 /\ 1 <= d <= 31.
Proof.
  intros Hz. rewrite civil_split. pose proof (Z.mod_pos_bound (z + 719468) 146097 ltac:(lia)) as Hb.
  assert (0 <= (z + 719468) / 146097) as He by (apply Z.div_pos; lia). set (doe := (z + 719468) mod 146097) in *.
  assert (let '(y, m, d) := civil_of_doe doe in 0 <= y /\ 1 <= m <= 12 /\ 1 <= d <= 31) as H.
  { destruct (Z.eq_dec doe 146096) as [->|Hne]; [vm_compute; repeat split; discriminate|].
    destruct (yoe_spec doe ltac:(lia)) as (Hy & Hr & _). unfold civil_of_doe. set (k := doe - year_start (yoe_of doe)) in *.
    pose (p := fun x => (365 <? x) || (let '(m, d) := month_day x in (1 <=? m) && (m <=? 12) && (1 <=? d) && (d <=? 31))).
    assert (p k = true) as Hp by (apply (all_from_spec 9 p 0); [vm_compute; reflexivity|cbn; lia]).
    unfold p in Hp. destruct (month_day k) as [m d]. rewrite orb_true_iff, !andb_true_iff in Hp. zbool. destruct (m <=? 2); lia. }
  destruct (civil_of_doe doe) as [[y m] d]. cbn [shift]. lia.
Qed.

(** A timestamp reads back: up to the year 9999, the fields of a printed time are the calendar date of its day and the
    milliseconds since midnight, which together are the time to the millisecond. *)
Theorem timestamp_reads (t : Z) :
  0 <= t -> (let '(y, _, _) := civil_from_days (t / 1000000000 / 86400) in y < 10000) ->
  exists days ms, 0 <= ms < 86400000 /\ days * 86400000 + ms = t / 1000000 /\
    read_rfc3339 (rfc3339 t) = Some (civil_from_days days, ms).
Proof.
  intros Ht Hy. unfold rfc3339. rewrite Z.max_r by done. set (secs := t / 1000000000) in *. set (rem := secs mod 86400).
  set (ms := t mod 1000000000 / 1000000).
  exists (secs / 86400), (((rem / 3600 * 60 + rem mod 3600 / 60) * 60 + rem mod 60) * 1000 + ms).
  assert (0 <= rem / 3600 < 24 /\ 0 <= rem mod 3600 / 60 < 60 /\ 0 <= rem mod 60 < 60 /\ 0 <= ms < 1000) as (H1 & H2 & H3 & H4).
  { unfold rem, ms. repeat split; Z.to_euclidean_division_equations; lia. }
  split; [lia|]. split; [unfold ms, rem, secs; Z.to_euclidean_division_equations; lia|].
  pose proof (civil_range (secs / 86400)) as Hr. destruct (civil_from_days (secs / 86400)) as [[y m] d].
  destruct Hr as (Hy0 & Hm & Hd); [unfold secs; Z.to_euclidean_division_equations; lia|].
  unfold read_rfc3339.
  change (b!"-") with [x2d]. change (b!"T") with [x54]. change (b!":") with [x3a]. change (b!".") with [x2e]. change (b!"Z") with [x5a]. cbn [app].
  repeat (rewrite zero_pad_reads by (cbn; lia); cbn [mbind option_bind]; rewrite read_mark_app; cbn [mbind option_bind]). done.
Qed.

Lemma timestamp_reads_witness :
  exists days ms, 0 <= ms < 86400000 /\ days * 86400000 + ms = 1709209845123 /\
    read_rfc3339 (rfc3339 1709209845123456789) = Some (civil_from_days days, ms).
Proof. apply (timestamp_reads 1709209845123456789); [lia|vm_compute; reflexivity]. Defined.

(** ** The background writer *)

Module AppenderSpec.
Import Appender.

Definition cmd_bytes (c : Cmd) : bytes := match c with Write bs => bs | Flush _ => [] end.

(** The commands the thread has not finished, oldest first. *)
Definition pipeline (a : Appender) : list Cmd := match thread a with Handling c => [c] | _ => [] end ++ queue a.
Definition pending (a : Appender) : bytes := flat_map cmd_bytes (pipeline a).

Definition attempted (es : list Event) : list bytes := omap (fun e => match e with ELog l => Some l | _ => None end) es.
Definition flushes (es : list Event) : list nat := omap (fun e => match e with EFlush i => Some i | _ => None end) es.
Definition writes_succeed (es : list Event) : Prop := Forall (fun e => match e with EHandle ok _ => ok = true | _ => True end) es.

Lemma length_omap_le {A B} (f : A -> option B) (l : list A) : (length (omap f l) <= length l)%nat.
Proof. induction l as [|x l IH]; [done|]. cbn. destruct (f x); cbn; lia. Qed.

Lemma run_events_app a es es' : run a (es ++ es') = run a es ≫= fun a' => run a' es'.
Proof.
  revert a. induction es as [|e es IH]; intros a; [done|]. cbn [app run]. destruct (step a e) as [a'|]; [apply IH|done].
Qed.

(** What one step does to the unfinished commands. *)
Lemma step_pipeline a e a' :
  step a e = Some a' -> match e with EHandle ok _ => ok = true | _ => True end ->
  (exists c, pipeline a' = pipeline a ++ [c] /\ written a' = written a /\ acked a' = acked a /\ dropped a' = dropped a /\
    match e with ELog l => c = Write l | EFlush i => c = Flush i | _ => False end) \/
  (pipeline a' = pipeline a /\ written a' = written a /\ acked a' = acked a /\
    match e with ELog l => dropped a' = wrap64 (dropped a + 1) | ERecv => dropped a' = dropped a | _ => False end) \/
  (exists c, pipeline a = c :: pipeline a' /\ written a' = written a ++ cmd_bytes c /\ dropped a' = dropped a /\
    acked a' = acked a ++ match c with Flush i => [i] | _ => [] end /\ match e with EHandle _ _ => True | _ => False end).
Proof.
  destruct e as [l|i| |ok n]; cbn [step]; intros H He.
  - unfold log_line in H. destruct (room a); injection H as <-; [left|right; left; done].
    exists (Write l). unfold pipeline. cbn [push thread queue]. by rewrite app_assoc.
  - unfold flush_send in H. destruct (room a); [|done]. injection H as <-. left.
    exists (Flush i). unfold pipeline. cbn [push thread queue]. by rewrite app_assoc.
  - unfold recv in H. right. left. unfold pipeline. destruct (thread a), (queue a); try done. by injection H as <-.
  - unfold handle in H. right. right. unfold pipeline. destruct (thread a) as [|[bs|i]|]; try done; injection H as <-.
    + subst ok. exists (Write bs). cbn. by rewrite app_nil_r.
    + exists (Flush i). cbn. by rewrite app_nil_r.
Qed.

Lemma appender_kept cap es a :
  writes_succeed es -> Z.of_nat (length es) < 2 ^ 64 -> run (new cap) es = Some a ->
  exists kept, kept `sublist_of` attempted es /\ concat kept = written a ++ pending a /\
    dropped a = Z.of_nat (length (attempted es)) - Z.of_nat (length kept).
Proof.
  revert a. induction es as [|e es IH] using rev_ind; intros a Hw Hl Hr.
  { injection Hr as <-. by exists []. }
  apply Forall_app in Hw as [Hw He]. rewrite Forall_singleton in He. rewrite length_app in Hl. cbn [length] in Hl.
  rewrite run_events_app in Hr. destruct (run (new cap) es) as [a0|]; [|done]. cbn [mbind option_bind run] in Hr.
  destruct (step a0 e) as [a1|] eqn:Es; [|done]. cbn [mbind option_bind] in Hr. injection Hr as <-.
  destruct (IH a0 Hw ltac:(lia) eq_refl) as (kept & Hsub & Hc & Hd). unfold attempted in *. rewrite omap_app, length_app.
  assert (0 <= dropped a0 + 1 < 2 ^ 64) as Hdr.
  { rewrite Hd. pose proof (sublist_length _ _ Hsub). pose proof (length_omap_le (fun e => match e with ELog l => Some l | _ => None end) es). lia. }
  unfold pending in *. destruct (step_pipeline a0 e a1 Es He) as [(c & Hp & Hwr & _ & Hdd & Hev)|[(Hp & Hwr & _ & Hev)|(c & Hp & Hwr & Hdd & _ & Hev)]].
  - rewrite Hp, Hwr, Hdd, flat_map_app. destruct e as [l|i| |ok n]; try done; subst c; cbn [omap list_omap flat_map cmd_bytes length app].
    + exists (kept ++ [l]). rewrite concat_app, length_app, Hc. cbn [concat length]. split; [by apply sublist_app|]. rewrite !app_nil_r, app_assoc. split; [done|lia].
    + exists kept. rewrite !app_nil_r. split; [done|]. split; [done|]. lia.
  - rewrite Hp, Hwr. exists kept. destruct e as [l|i| |ok n]; try done; cbn [omap list_omap length].
    + split; [by apply sublist_inserts_r|]. split; [done|]. rewrite Hev. unfold wrap64. rewrite Z.mod_small by lia. lia.
    + rewrite app_nil_r. split; [done|]. split; [done|]. lia.
  - rewrite Hwr, Hdd. rewrite Hp in Hc. cbn [flat_map] in Hc. exists kept. destruct e as [l|i| |ok n]; try done; cbn [omap list_omap length].
    rewrite app_nil_r, <- app_assoc. split; [done|]. split; [done|lia].
Qed.

(** The thread can finish everything by itself. *)
Lemma appender_drains cs : forall a, pipeline a = cs -> thread a <> Ended ->
  exists es a', attempted es = [] /\ flushes es = [] /\ writes_succeed es /\ run a es = Some a' /\ pipeline a' = [] /\ written a' = written a ++ flat_map cmd_bytes cs.
Proof.
  induction cs as [|c cs IH]; intros a Hp Ht.
  { exists [], a. rewrite app_nil_r. repeat split; [constructor|done]. }
  assert (exists es a1, attempted es = [] /\ flushes es = [] /\ writes_succeed es /\ run a es = Some a1 /\ pipeline a1 = cs /\ thread a1 <> Ended /\
    written a1 = written a ++ cmd_bytes c) as (es & a1 & E1 & E2 & E3 & E4 & E5 & E6 & E7).
  { unfold pipeline in Hp. destruct a as [cap q th wr dr ak]. cbn in *. destruct th as [|c'|]; [|injection Hp as -> Hq|done].
    - destruct q as [|c' q]; [done|]. injection Hp as -> Hq. exists [ERecv; EHandle true 0]. destruct c as [bs|i]; eexists;
        (split; [done|split; [done|split; [by repeat constructor|split; [reflexivity|]]]]); cbn; rewrite ?app_nil_r; by repeat split.
    - exists [EHandle true 0]. destruct c as [bs|i]; eexists;
        (split; [done|split; [done|split; [by repeat constructor|split; [reflexivity|]]]]); cbn; rewrite ?app_nil_r; by repeat split. }
  destruct (IH a1 E5 E6) as (es' & a' & F1 & F2 & F3 & F4 & F5 & F6). exists (es ++ es'), a'. unfold attempted, flushes in *.
  rewrite !omap_app, E1, E2, F1, F2, run_events_app, E4. cbn [mbind option_bind]. rewrite F6, E7, <- app_assoc.
  split; [done|]. split; [done|]. split; [by apply Forall_app|done].
Qed.

(** The background writer loses nothing silently: for every interleaving of log calls, flushes and the writer thread, as
    long as writes succeed, what is written and queued is, in order, the records logged less exactly as many as are counted
    as dropped; and the thread alone can write all that is queued. *)
Theorem appender_accounts (cap : nat) (es : list Event) (a : Appender) :
  writes_succeed es -> Z.of_nat (length es) < 2 ^ 64 -> run (new cap) es = Some a ->
  (exists kept, kept `sublist_of` attempted es /\ concat kept = written a ++ pending a /\
    dropped a = Z.of_nat (length (attempted es)) - Z.of_nat (length kept)) /\
  exists es' a', attempted es' = [] /\ run a es' = Some a' /\ pending a' = [] /\ written a' = written a ++ pending a.
Proof.
  intros Hw Hl Hr. split; [by apply (appender_kept cap es)|].
  assert (thread a <> Ended) as Ht.
  { clear Hl. revert Hw Hr. assert (forall es a0, thread a0 <> Ended -> writes_succeed es -> run a0 es = Some a -> thread a <> Ended) as H; [|by apply H].
    clear. induction es as [|e es IH]; intros a0 H0 Hw Hr; [by injection Hr as <-|]. inversion Hw as [|? ? He Hw']; subst. cbn [run] in Hr.
    destruct (step a0 e) as [a1|] eqn:E; [|done]. apply (IH a1); [|done|done]. destruct e as [l|i| |ok n]; cbn [step] in E.
    - unfold log_line in E. destruct (room a0); by injection E as <-.
    - unfold flush_send in E. destruct (room a0); [|done]. by injection E as <-.
    - unfold recv in E. destruct (thread a0), (queue a0); try done; by injection E as <-.
    - unfold handle in E. destruct (thread a0) as [|[bs|i]|]; try done; injection E as <-; [by subst ok|done]. }
  destruct (appender_drains (pipeline a) a eq_refl Ht) as (es' & a' & H1 & _ & _ & H2 & H3 & H4). exists es', a'.
  repeat split; [done|done|unfold pending; by rewrite H3|done].
Qed.

Lemma appender_accounts_witness :
  exists kept, kept `sublist_of` [b!"a"; b!"b"; b!"c"] /\ concat kept = b!"a" ++ b!"c" /\ 1 = Z.of_nat 3 - Z.of_nat (length kept).
Proof.
  apply (appender_accounts 1 [ELog (b!"a"); ELog (b!"b"); ERecv; ELog (b!"c"); EHandle true 0]
    (mkAppender 1 [Write (b!"c")] Waiting (b!"a") 1 [])); [by repeat constructor|vm_compute; reflexivity|reflexivity].
Defined.

Lemma flush_ids cap es a i :
  writes_succeed es -> run (new cap) es = Some a -> i ∉ flushes es -> i ∉ acked a /\ Flush i ∉ pipeline a.
Proof.
  revert a. induction es as [|e es IH] using rev_ind; intros a Hw Hr Hi.
  { injection Hr as <-. split; apply not_elem_of_nil. }
  apply Forall_app in Hw as [Hw He]. rewrite Forall_singleton in He. rewrite run_events_app in Hr. destruct (run (new cap) es) as [a0|]; [|done].
  cbn [mbind option_bind run] in Hr. destruct (step a0 e) as [a1|] eqn:Es; [|done]. cbn [mbind option_bind] in Hr. injection Hr as <-.
  unfold flushes in *. rewrite omap_app, not_elem_of_app in Hi. destruct Hi as [Hi Hie]. destruct (IH a0 Hw eq_refl Hi) as [H1 H2].
  destruct (step_pipeline a0 e a1 Es He) as [(c & -> & _ & -> & _ & Hev)|[(-> & _ & -> & _)|(c & Hp & _ & _ & -> & _)]].
  - split; [done|]. rewrite not_elem_of_app, list_elem_of_singleton. split; [done|]. destruct e; try done; subst c; [done|].
    cbn in Hie. intros [= ->]. apply Hie. by left.
  - done.
  - rewrite Hp, not_elem_of_cons in H2. destruct H2 as [Hc H2]. split; [|done]. rewrite not_elem_of_app. split; [done|].
    destruct c; [apply not_elem_of_nil|]. rewrite list_elem_of_singleton. congruence.
Qed.

(** [flush] waits for what came before it: once the flush marker is acknowledged, all that had been written or queued when
    it was sent has been written. *)
Theorem flush_completes (cap : nat) (es1 es2 : list Event) (i : nat) (a1 a : Appender) :
  writes_succeed (es1 ++ EFlush i :: es2) -> i ∉ flushes es1 ->
  run (new cap) es1 = Some a1 -> run a1 (EFlush i :: es2) = Some a -> i ∈ acked a ->
  (written a1 ++ pending a1) `prefix_of` written a.
Proof.
  intros Hw Hi H1 H2 Hack. apply Forall_app in Hw as [Hw1 Hw2]. inversion Hw2 as [|? ? _ Hw2']; subst.
  destruct (flush_ids cap es1 a1 i Hw1 H1 Hi) as [Hna Hnp]. cbn [run] in H2. destruct (step a1 (EFlush i)) as [b|] eqn:Eb; [|done]. cbn [mbind option_bind] in H2.
  set (target := written a1 ++ pending a1).
  assert (target `prefix_of` written b \/ (i ∉ acked b /\ exists pre post, pipeline b = pre ++ Flush i :: post /\ Flush i ∉ pre /\ written b ++ flat_map cmd_bytes pre = target)) as Hb.
  { destruct (step_pipeline a1 (EFlush i) b Eb I) as [(c & Hp & Hwr & Hak & _ & Hc)|[(_ & _ & _ & [])|(c & _ & _ & _ & _ & [])]]. subst c.
    right. rewrite Hak. split; [done|]. exists (pipeline a1), []. rewrite Hwr. done. }
  clear Eb Hw2. clearbody target. revert b Hb H2. induction es2 as [|e es IH]; intros b Hb H2.
  { injection H2 as <-. by destruct Hb as [Hb|[Hb _]]. }
  inversion Hw2' as [|? ? He Hes]; subst. cbn [run] in H2. destruct (step b e) as [b'|] eqn:Eb; [|done]. cbn [mbind option_bind] in H2.
  apply (IH Hes b'); [|done].
  destruct (step_pipeline b e b' Eb He) as [(c & Hp & Hwr & Hak & _)|[(Hp & Hwr & Hak & _)|(c & Hp & Hwr & _ & Hak & _)]]; rewrite Hwr, Hak.
  - destruct Hb as [Hb|(Hn & pre & post & Hpp & Hpre & Ht)]; [by left|]. right. split; [done|]. exists pre, (post ++ [c]). by rewrite Hp, Hpp, <- app_assoc.
  - destruct Hb as [Hb|Hb]; [by left|]. right. by rewrite Hp.
  - destruct Hb as [Hb|(Hn & pre & post & Hpp & Hpre & Ht)]; [left; by apply prefix_app_r|]. rewrite Hp in Hpp. destruct pre as [|c' pre].
    + injection Hpp as -> Hpp. left. cbn [flat_map cmd_bytes] in *. rewrite app_nil_r in *. rewrite Ht. reflexivity.
    + injection Hpp as -> Hpp. rewrite not_elem_of_cons in Hpre. right. split.
      * rewrite not_elem_of_app. split; [done|]. destruct c'; [apply not_elem_of_nil|]. rewrite list_elem_of_singleton. destruct Hpre as [Hp1 _]. congruence.
      * exists pre, post. rewrite Hpp. split; [done|]. split; [apply Hpre|]. cbn [flat_map] in Ht. by rewrite <- app_assoc.
Qed.

Lemma flush_completes_witness : (b!"a" ++ b!"b") `prefix_of` (b!"a" ++ b!"b" ++ b!"c").
Proof.
  apply (flush_completes 8 [ELog (b!"a"); ERecv; ELog (b!"b")] [ELog (b!"c"); EHandle true 0; ERecv; EHandle true 0; ERecv; EHandle true 0; ERecv; EHandle true 0] 7
    (mkAppender 8 [Write (b!"b")] (Handling (Write (b!"a"))) [] 0 []) (mkAppender 8 [] Waiting (b!"abc") 0 [7%nat]));
    [by repeat constructor|apply (bool_decide_unpack _); vm_compute; exact I|reflexivity|reflexivity|apply (bool_decide_unpack _); vm_compute; exact I].
Defined.

End AppenderSpec.

(** A JSON record is one line and reads back. *)
Lemma json_record_reads l ts lv msg provided fs :
  let v := record_value l ts lv msg provided fs in
  encodable v = true -> (Value.depth v <= MAX_DEPTH)%nat ->
  x0a ∉ format_json l ts lv msg provided fs /\ from_str (format_json l ts lv msg provided fs) = Ok (norm v).
Proof.
  intros v He Hd. unfold format_json. fold v. split; [rewrite to_string_render; by apply render_no_newline|by apply from_str_to_string].
Qed.

(** What a JSON logger on a synchronous sink does with a record: one line, or nothing below the levels. *)
Definition admits (l : Logger) (lv : Level) (w : World) : bool := (level_rank (min l) <=? level_rank lv) && enabled lv w.

Lemma log_json_sync now ctx l lv msg fs w s :
  format l = JsonLines -> sinks w !! sink l = Some (Sync s) ->
  log now ctx l lv msg fs w = mkWorld (max_level w) (global w)
    (<[sink l := Sync (s ++ if admits l lv w then format_json l (rfc3339 now) lv msg (context_fields ctx) fs ++ [x0a] else [])]> (sinks w)).
Proof.
  intros Hf Hs. unfold log, admits. rewrite Hf.
  replace (level_rank lv <? level_rank (min l)) with (negb (level_rank (min l) <=? level_rank lv))
    by (rewrite Z.leb_antisym; apply negb_involutive).
  destruct (_ <=? _), (enabled lv w); cbn [negb orb andb]; [|rewrite app_nil_r, list_insert_id by done; by destruct w..].
  f_equal. apply list_eq. intros i. destruct (decide (i = sink l)) as [->|Hi].
  - rewrite list_lookup_alter, Hs, list_lookup_insert_eq by (by eapply lookup_lt_Some). by rewrite decide_True.
  - by rewrite list_lookup_alter_ne, list_lookup_insert_ne by done.
Qed.

(** A line break in a string field is written as it is, although one in the message is not. *)
Example plain_field_breaks_line :
  x0a ∈ format_plain default_logger (rfc3339 0) Info (b!"m") [] [(b!"k", Value.Str [x61; x0a; x62])] /\
  x0a ∉ format_plain default_logger (rfc3339 0) Info [x61; x0a; x62] [] [].
Proof. split; apply (bool_decide_unpack _); vm_compute; exact I. Qed.

End Log.
