(* ===== verification/Delivery.v ===== *)
(** * Typed messages, fallible handlers and the log observer ([messaging/mod.rs])

    What surrounds the provider of [Messaging]: bodies and headers built from typed values, handlers that return a
    [Result], the life of one message between a handler and its redeliveries, and the observer that turns the
    provider's events into log records. *)

From S2P Require Import Prelude Text Value Json Traits Derive Convert Streaming Registry Messaging Log.
Import Traits Convert Messaging.
Import (hints) Derive Streaming Registry.

Open Scope Z_scope.

Module Delivery.

(** ** Typed bodies and headers *)

(** [Message::text] *)
Definition text (s : bytes) : Message := Messaging.new s.

(** [Message::json] *)
Definition json {T} `{Encode T} (value : T) : Message := Messaging.new (Streaming.encode_json value).

(** [Message::body_str] *)
Definition body_str (m : Message) : bytes := Utf8.from_utf8_lossy (body m).

(** [Message::decode] *)
Definition decode {T} `{Decode T} (m : Message) : option (Result T CodecError) := Streaming.decode_json_slice (body m).

(** [with_header] with a value that converts. *)
Definition with_header {T} `{IntoValue T} (m : Message) (key : bytes) (value : T) : Message :=
  Messaging.with_header m key (into value).

(** ** Handlers *)

(** A handler's future is what it returns. *)
Definition Handler : Type := Message -> Ack.
Definition handler (f : Message -> Ack) : Handler := fun msg => f msg.

Definition fallible {E} (f : Message -> Result () E) : Handler := fun msg =>
  match f msg with
  | Ok _ => AckOk
  | Err _ => Retry
  end.

(** The jobs of one message on a destination whose only listener is [h]: [process] calls the handler, and a message it
    puts back is sent to the destination again ([spawn_guaranteed_send], through [send]) and arrives at that listener.
    The last component is [None] while it is still being retried. *)
Fixpoint attempts (n : nat) (name : bytes) (opts : ListenerOptions) (h : Handler) (m : Message) : list Event * option Outcome :=
  match n with
  | O => ([], None)
  | S n' =>
      let '(evs, o) := process name opts m (h m) in
      let received := OnReceive (b!"chan://" ++ name) m in
      match o with
      | Resend addr m' false =>
          let '(evs', o') := attempts n' name opts h m' in (received :: evs ++ OnSend addr m' :: evs', o')
      | _ => (received :: evs, Some o)
      end
  end.

(** ** The log observer *)

Record LogObserver := mkObserver { logger : Log.Logger }.

Definition message_fields (m : Message) : Log.Fields := [(b!"delivery", into (mkUnsigned (t := U64) (delivery_count m)))].

(** The level, the name and the fields with which each hook calls the logger. *)
Definition hook (e : Event) : Log.Level * bytes * Log.Fields :=
  let addr_field (addr : bytes) := (b!"addr", into addr) in
  match e with
  | OnSend addr m =>
      (Log.Debug, b!"message.send", [addr_field addr; (b!"bytes", into (mkUnsigned (t := U64) (wrap64 (Z.of_nat (length (body m))))))])
  | OnReceive addr m => (Log.Debug, b!"message.receive", addr_field addr :: message_fields m)
  | OnAck addr _ => (Log.Debug, b!"message.ack", [addr_field addr])
  | OnNack addr m requeue => (Log.Warn, b!"message.nack", [addr_field addr; (b!"requeue", into requeue)] ++ message_fields m)
  | OnDeadLetter addr m to_dlq =>
      (Log.Warn, b!"message.dead_letter",
       [addr_field addr; (b!"dead_lettered", into to_dlq); (b!"dropped", into (negb to_dlq))] ++ message_fields m)
  end.

(** One hook call at time [now], with what the context providers return. *)
Definition observe (o : LogObserver) (call : Z * list Log.Fields * Event) (w : Log.World) : Log.World :=
  let '(now, ctx, e) := call in
  let '(lv, msg, fs) := hook e in
  Log.log now ctx (logger o) lv msg fs w.

(** The provider calls the hooks in the order of its events. *)
Definition observe_all (o : LogObserver) (calls : list (Z * list Log.Fields * Event)) (w : Log.World) : Log.World :=
  fold_left (fun w c => observe o c w) calls w.

(** [Inner]'s observer slot: [set_observer], and the hooks with whatever observer is installed. *)
Definition set_observer (o : LogObserver) (slot : option LogObserver) : option LogObserver := Some o.
Definition notify (slot : option LogObserver) (call : Z * list Log.Fields * Event) (w : Log.World) : Log.World :=
  match slot with Some o => observe o call w | None => w end.

(** ** Typed bodies and headers read back *)

(** A typed message is received as it was sent: the body of [Message::json] decodes as the value, for every type
    whose tree JSON represents; a header set on a message is the last word for its key, decodes as the value it was
    converted from and leaves the other headers, the body and the counter alone. *)
Theorem typed_message_roundtrip {T} `{Encode T, Decode T, Valid T, !Streams T, !Streaming.JsonComplete T, !Lossless false T}
  {U} `{Converts U, !Decode U, !Lossless false U} (x : T) (h : U) (key k : bytes) :
  valid x -> Registry.faithful Registry.Json (encode x) = true -> Utf8.is_utf8 (Streaming.encode_json x) = true ->
  valid h -> plain (into h) = true ->
  let m := with_header (json x) key h in
  decode m = Some (Ok x) /\ delivery_count m = 0 /\ body_str m = Streaming.encode_json x /\
  (v ← Value.get (headers m) key; Some (Traits.decode v)) = Some (Ok h) /\
  (k <> key -> forall m0, Value.get (headers (with_header m0 key h)) k = Value.get (headers m0) k).
Proof.
  intros Hx Hf Hu Hh Hp m. subst m. split_and!.
  - assert (Registry.from_content_type (b!"application/json") = Some Registry.Json) as Hct by (vm_compute; reflexivity).
    assert (Lossless (Registry.loose Registry.Json) T) by done.
    pose proof (Registry.decode_encode Registry.Json (b!"application/json") x _ Hct Hx Hf eq_refl Hu) as Hd.
    unfold Registry.decode, Registry.resolve in Hd. rewrite Hct in Hd. cbn [ok_or map_err fbind] in Hd.
    change (map_err Registry.Failed <$> decode (with_header (json x) key h) = Some (Ok x)) in Hd.
    destruct (decode _) as [[y|]|]; [|done..]. by injection Hd as ->.
  - done.
  - by apply Text.lossy_valid.
  - cbn [headers with_header Messaging.with_header json Messaging.new Value.get Value.as_object mbind option_bind].
    unfold Value.find. cbn [rev app List.find fst snd]. rewrite bool_decide_true by done.
    cbn [fmap option_fmap option_map mbind option_bind snd]. by rewrite decode_into.
  - intros Hk m0. unfold with_header, Messaging.with_header. cbn [headers].
    destruct (headers m0) as [| | | | | | | |o]; cbn [Value.get Value.as_object mbind option_bind];
      rewrite ?find_app; unfold Value.find at 1; cbn [rev app List.find fst snd];
      by rewrite bool_decide_false by congruence.
Qed.

(** A configuration record sent with a retry budget in its header. *)
Lemma typed_message_roundtrip_witness :
  let m := with_header (json Registry.sample) (b!"budget") (mkUnsigned (t := U8) 7) in
  decode m = Some (Ok Registry.sample) /\
  (v ← Value.get (headers m) (b!"budget"); Some (Traits.decode v)) = Some (Ok (mkUnsigned (t := U8) 7)).
Proof.
  destruct (typed_message_roundtrip Registry.sample (mkUnsigned (t := U8) 7) (b!"budget") (b!"other")) as (H1 & _ & _ & H2 & _);
    [vm_compute; repeat constructor|vm_compute; reflexivity..|by split].
Defined.

(** ** The life of a message *)

(** [m] after [k] redeliveries. *)
Definition redelivered (k : nat) (m : Message) : Message :=
  mkMessage (headers m) (body m) (routing_key m) (delivery_count m + Z.of_nat k).

Lemma redelivered_0 m : redelivered 0 m = m.
Proof. destruct m. unfold redelivered. cbn. by rewrite Z.add_0_r. Qed.

Lemma retried_once m : 0 <= delivery_count m < u32_max -> retried m = redelivered 1 m.
Proof. unfold u32_max. intros H. unfold retried, redelivered, wrap32. rewrite Z.mod_small by lia. do 2 f_equal. Qed.

Lemma redelivered_S k m : redelivered k (redelivered 1 m) = redelivered (S k) m.
Proof. unfold redelivered. cbn [headers body routing_key delivery_count]. f_equal. lia. Qed.

Lemma redelivered_next k m : redelivered 1 (redelivered k m) = redelivered (S k) m.
Proof. unfold redelivered. cbn [headers body routing_key delivery_count]. f_equal. lia. Qed.

Section Life.
Context {E : Type} (f : Message -> Result () E) (name : bytes) (opts : ListenerOptions).
Let addr := b!"chan://" ++ name.

(** What is observed of an attempt that fails and is repeated: the delivery, the nack and the message being sent again. *)
Definition failed_attempt (m : Message) : list Event := [OnReceive addr m; OnNack addr (redelivered 1 m) true; OnSend addr (redelivered 1 m)].

(** A failing attempt with budget left is one of [attempts]. *)
Lemma attempt_fails n m e :
  f m = Err e -> 0 <= delivery_count m < u32_max -> delivery_count m + 1 < max_delivery_attempts opts ->
  attempts (S n) name opts (fallible f) m =
  (failed_attempt m ++ (attempts n name opts (fallible f) (redelivered 1 m)).1, (attempts n name opts (fallible f) (redelivered 1 m)).2).
Proof.
  intros Hf Hc Hm. cbn [attempts]. unfold fallible at 1. rewrite Hf. cbn [process]. pose proof (retried_once m Hc) as Hr. unfold retried in Hr.
  rewrite Hr. cbn [delivery_count redelivered]. replace (_ <? _) with true by (symmetry; apply Z.ltb_lt; lia).
  by destruct (attempts n name opts (fallible f) (redelivered 1 m)) as [evs o].
Qed.

Lemma attempts_fail k : forall n m,
  (forall i, (i < k)%nat -> exists e, f (redelivered i m) = Err e) -> 0 <= delivery_count m ->
  delivery_count m + Z.of_nat k < max_delivery_attempts opts <= u32_max ->
  attempts (k + n) name opts (fallible f) m =
  (flat_map (fun i => failed_attempt (redelivered i m)) (seq 0 k) ++ (attempts n name opts (fallible f) (redelivered k m)).1,
   (attempts n name opts (fallible f) (redelivered k m)).2).
Proof.
  induction k as [|k IH]; intros n m Hf Hc Hm.
  { rewrite redelivered_0. cbn [Nat.add seq flat_map app]. by destruct (attempts _ _ _ _ _). }
  destruct (Hf O ltac:(lia)) as [e He]. rewrite redelivered_0 in He. cbn [Nat.add]. rewrite (attempt_fails _ m e) by (done || lia).
  rewrite (IH n (redelivered 1 m)).
  - cbn [fst snd seq flat_map]. rewrite redelivered_S, redelivered_0, <- app_assoc. do 3 f_equal.
    rewrite <- seq_shift, !flat_map_concat_map, map_map. f_equal. apply map_ext. intros i. by rewrite redelivered_S.
  - intros i Hi. rewrite redelivered_S. by apply Hf; lia.
  - cbn [redelivered delivery_count]. lia.
  - cbn [redelivered delivery_count]. lia.
Qed.

Lemma attempt_succeeds n m :
  f m = Ok tt -> attempts (S n) name opts (fallible f) m = ([OnReceive addr m; OnAck addr m], Some Settled).
Proof. intros Hf. cbn [attempts]. unfold fallible at 1. by rewrite Hf. Qed.

Lemma attempt_last n m e :
  f m = Err e -> 0 <= delivery_count m < u32_max -> max_delivery_attempts opts <= delivery_count m + 1 ->
  attempts (S n) name opts (fallible f) m =
  ([OnReceive addr m; OnNack addr (redelivered 1 m) false]
     ++ match dead_letter opts with None => [OnDeadLetter addr (redelivered 1 m) false] | Some _ => [] end,
   Some (match dead_letter opts with Some dlq => Resend dlq (redelivered 1 m) true | None => Settled end)).
Proof.
  intros Hf Hc Hm. cbn [attempts]. unfold fallible at 1. rewrite Hf. cbn [process].
  pose proof (retried_once m Hc) as Hr. unfold retried in Hr. rewrite Hr.
  replace (delivery_count (redelivered 1 m) <? max_delivery_attempts opts) with false
    by (symmetry; apply Z.ltb_ge; cbn [redelivered delivery_count]; lia).
  by destruct (dead_letter opts).
Qed.

(** C26 What a fallible handler does to a message, from its first delivery to the end: with a budget of [max] attempts,
    on a destination whose only listener the handler is,
    every failing attempt before the last is negatively acknowledged and sent again with the counter raised; the first
    success acknowledges it; when all [max] fail the handler has been called exactly [max] times, the last nack says
    that nothing is requeued, and the message goes to the dead-letter destination or is reported as dropped. *)
Theorem fallible_life (max : nat) (m : Message) :
  delivery_count m = 0 -> max_delivery_attempts opts = Z.of_nat max -> (0 < max)%nat -> Z.of_nat max <= u32_max ->
  (forall k, (k < max)%nat -> (forall i, (i < k)%nat -> exists e, f (redelivered i m) = Err e) ->
     f (redelivered k m) = Ok tt ->
     attempts max name opts (fallible f) m =
       (flat_map (fun i => failed_attempt (redelivered i m)) (seq 0 k)
          ++ [OnReceive addr (redelivered k m); OnAck addr (redelivered k m)], Some Settled)) /\
  ((forall i, (i < max)%nat -> exists e, f (redelivered i m) = Err e) ->
     attempts max name opts (fallible f) m =
       (flat_map (fun i => failed_attempt (redelivered i m)) (seq 0 (max - 1))
          ++ [OnReceive addr (redelivered (max - 1) m); OnNack addr (redelivered max m) false]
          ++ match dead_letter opts with None => [OnDeadLetter addr (redelivered max m) false] | Some _ => [] end,
        Some (match dead_letter opts with Some dlq => Resend dlq (redelivered max m) true | None => Settled end))).
Proof.
  intros Hc Hopt Hmax Hu. split.
  - intros k Hk Hf Hok. replace max with (k + S (max - S k))%nat by lia. rewrite attempts_fail by (done || lia).
    by rewrite attempt_succeeds.
  - intros Hf. destruct (Hf (max - 1)%nat ltac:(lia)) as [e He].
    replace (attempts max) with (attempts ((max - 1) + 1)) by (f_equal; lia). rewrite attempts_fail by (done || lia || (intros; apply Hf; lia)).
    rewrite (attempt_last 0 _ e), redelivered_next by (done || (cbn [redelivered delivery_count]; lia)).
    by replace (S (max - 1)) with max by lia.
Qed.

End Life.

(** Two failures, then success; and three failures without a dead-letter destination. *)
Definition flaky (m : Message) : Result () bytes := if delivery_count m <? 2 then Err (b!"busy") else Ok tt.
Definition broken (m : Message) : Result () bytes := Err (b!"no").

Lemma fallible_life_witness :
  (attempts 3 (b!"q") default_options (fallible flaky) (text (b!"x"))).2 = Some Settled /\
  length (attempts 3 (b!"q") default_options (fallible flaky) (text (b!"x"))).1 = 8%nat /\
  last (attempts 3 (b!"q") default_options (fallible broken) (text (b!"x"))).1
    = Some (OnDeadLetter (b!"chan://q") (redelivered 3 (text (b!"x"))) false).
Proof.
  split_and!.
  - rewrite (proj1 (fallible_life flaky (b!"q") default_options 3 (text (b!"x")) eq_refl eq_refl ltac:(lia) ltac:(done)) 2%nat);
      [done|lia| |reflexivity]. intros [|[|i]] Hi; [by eexists..|lia].
  - rewrite (proj1 (fallible_life flaky (b!"q") default_options 3 (text (b!"x")) eq_refl eq_refl ltac:(lia) ltac:(done)) 2%nat);
      [done|lia| |reflexivity]. intros [|[|i]] Hi; [by eexists..|lia].
  - rewrite (proj2 (fallible_life broken (b!"q") default_options 3 (text (b!"x")) eq_refl eq_refl ltac:(lia) ltac:(done)));
      [done|]. intros i _. by eexists.
Defined.

(** ** What the observer writes *)

Section Observer.
Variable o : LogObserver.

(** The record of a hook call and its line. *)
Definition hook_value (c : Z * list Log.Fields * Event) : Value.Value :=
  let '(now, ctx, e) := c in
  let '(lv, msg, fs) := hook e in
  Log.record_value (logger o) (Log.rfc3339 now) lv msg (Log.context_fields ctx) fs.

Definition hook_line (c : Z * list Log.Fields * Event) : bytes := Json.to_string (hook_value c).

Definition admitted (w : Log.World) (c : Z * list Log.Fields * Event) : bool := Log.admits (logger o) (hook c.2).1.1 w.

Lemma observe_line c w s :
  Log.format (logger o) = Log.JsonLines -> Log.sinks w !! Log.sink (logger o) = Some (Log.Sync s) ->
  observe o c w = Log.mkWorld (Log.max_level w) (Log.global w)
    (<[Log.sink (logger o) := Log.Sync (s ++ if admitted w c then hook_line c ++ [x0a] else [])]> (Log.sinks w)).
Proof.
  destruct c as [[now ctx] e]. unfold observe, admitted, hook_line, hook_value. cbn [snd].
  destruct (hook e) as [[lv msg] fs]. apply Log.log_json_sync.
Qed.

Lemma observe_all_lines cs : forall w s,
  Log.format (logger o) = Log.JsonLines -> Log.sinks w !! Log.sink (logger o) = Some (Log.Sync s) ->
  Log.sinks (observe_all o cs w) !! Log.sink (logger o) =
    Some (Log.Sync (s ++ flat_map (fun c => hook_line c ++ [x0a]) (List.filter (admitted w) cs))).
Proof.
  induction cs as [|c cs IH]; intros w s Hf Hs; [by rewrite app_nil_r|].
  cbn [observe_all fold_left List.filter flat_map]. fold (observe_all o cs (observe o c w)). rewrite (observe_line c w s) by done.
  set (w' := Log.mkWorld _ _ _). rewrite (IH w' (s ++ if admitted w c then hook_line c ++ [x0a] else [])) by
    (done || (apply list_lookup_insert_eq; by eapply lookup_lt_Some)).
  do 2 f_equal. rewrite <- app_assoc. f_equal. change (admitted w') with (admitted w). by destruct (admitted w c).
Qed.

End Observer.

(** Fields that JSON can write within the nesting limit of a record. *)
Definition sound_fields (fs : Log.Fields) : bool :=
  forallb (fun kv => Json.encodable (snd kv) && (Value.depth (snd kv) <? Json.MAX_DEPTH)%nat) fs.

Definition event_message (e : Event) : Message :=
  match e with OnSend _ m | OnReceive _ m | OnAck _ m | OnNack _ m _ | OnDeadLetter _ m _ => m end.
Definition event_addr (e : Event) : bytes :=
  match e with OnSend a _ | OnReceive a _ | OnAck a _ | OnNack a _ _ | OnDeadLetter a _ _ => a end.
(** A delivery that failed. *)
Definition is_failure (e : Event) : bool := match e with OnNack _ _ _ | OnDeadLetter _ _ _ => true | _ => false end.

Lemma sound_app a b : sound_fields (a ++ b) = sound_fields a && sound_fields b.
Proof. apply forallb_app. Qed.

Lemma sound_object fs :
  sound_fields fs = true -> Json.encodable (Value.Object fs) = true /\ (Value.depth (Value.Object fs) <= Json.MAX_DEPTH)%nat.
Proof.
  unfold sound_fields. cbn [Json.encodable Value.depth]. intros H. split.
  - rewrite forallb_forall in H |- *. intros kv Hkv. by apply H, andb_true_iff in Hkv as [Hkv _].
  - apply le_n_S. induction fs as [|kv fs IH]; [cbn [foldr]; unfold Json.MAX_DEPTH; lia|].
    cbn [forallb foldr] in *. apply andb_true_iff in H as [[_ Hd]%andb_true_iff H]. apply Nat.ltb_lt in Hd. specialize (IH H).
    apply Nat.max_lub; [|done]. unfold Json.MAX_DEPTH in Hd. lia.
Qed.

Lemma into_u64_encodable z : Json.encodable (Value.UInt (as_u64 z)) = true.
Proof.
  unfold as_u64, wrap64. cbn [Json.encodable]. unfold u64_max. pose proof (Z.mod_pos_bound z 18446744073709551616 ltac:(lia)). lia.
Qed.

Lemma hook_sound e : sound_fields (hook e).2 = true.
Proof.
  destruct e; unfold sound_fields, hook, message_fields, into, unsigned_into, string_into, bool_into;
    cbn [snd app forallb unsigned]; by rewrite ?into_u64_encodable.
Qed.

Lemma hook_value_ok o c :
  sound_fields (Log.fields (logger o)) = true -> sound_fields (Log.context_fields c.1.2) = true ->
  Json.encodable (hook_value o c) = true /\ (Value.depth (hook_value o c) <= Json.MAX_DEPTH)%nat.
Proof.
  destruct c as [[now ctx] e]. intros Hl Hc. unfold hook_value, Log.record_value. cbn [fst snd] in Hc. pose proof (hook_sound e) as He.
  destruct (hook e) as [[lv msg] fs]. apply sound_object. rewrite !sound_app, Hl, Hc. cbn [snd] in He. by rewrite He.
Qed.

Lemma hook_value_addr o c : Value.get (hook_value o c) (b!"addr") = Some (Value.Str (event_addr c.2)).
Proof.
  destruct c as [[now ctx] e]. unfold hook_value, Log.record_value. cbn [snd].
  assert (Value.find (hook e).2 (b!"addr") = Some (Value.Str (event_addr e))) as He by (by destruct e).
  destruct (hook e) as [[lv msg] fs]. cbn [snd] in He. cbn [Value.get Value.as_object mbind option_bind]. by rewrite !find_app, He.
Qed.

(** The log observer reports every event once and in order: on a JSON logger with a synchronous writer, the hooks
    append one line per event that passes the levels, each without a line break inside and read back as the record
    with the event's name, its address and its fields; at the warning level or below, no failed delivery goes
    unreported. *)
Theorem observer_reports (o : LogObserver) (cs : list (Z * list Log.Fields * Event)) (w : Log.World) (s : bytes) :
  Log.format (logger o) = Log.JsonLines -> Log.sinks w !! Log.sink (logger o) = Some (Log.Sync s) ->
  sound_fields (Log.fields (logger o)) = true -> Forall (fun c => sound_fields (Log.context_fields c.1.2) = true) cs ->
  (exists lines,
     Log.sinks (observe_all o cs w) !! Log.sink (logger o) = Some (Log.Sync (s ++ flat_map (fun l => l ++ [x0a]) lines)) /\
     Forall2 (fun c l => x0a ∉ l /\ Json.from_str l = Ok (Json.norm (hook_value o c)) /\
                Value.get (hook_value o c) (b!"addr") = Some (Value.Str (event_addr c.2)))
       (List.filter (admitted o w) cs) lines) /\
  (Log.level_rank (Log.min (logger o)) <= 3 -> Log.max_level w <= 3 ->
   Forall (fun c => is_failure c.2 = true -> admitted o w c = true) cs).
Proof.
  intros Hf Hs Hl Hc. split.
  - exists (map (hook_line o) (List.filter (admitted o w) cs)). rewrite (observe_all_lines o cs w s) by done. split.
    + do 3 f_equal. rewrite flat_map_concat_map, (flat_map_concat_map (fun l => l ++ [x0a])), map_map. done.
    + apply Forall2_fmap_r, Forall_Forall2_diag, List.Forall_forall. intros c [Hin _]%filter_In.
      rewrite List.Forall_forall in Hc. destruct (hook_value_ok o c Hl (Hc c Hin)) as [He Hd].
      unfold hook_line. split_and!; [rewrite Json.to_string_render; by apply Json.render_no_newline|by apply Json.from_str_to_string|apply hook_value_addr].
  - intros Hm Hx. apply Forall_forall. intros [[now ctx] e] _. unfold admitted, Log.admits, Log.enabled. cbn [snd].
    by destruct e; cbn [is_failure hook fst snd]; try done; intros _; change (Log.level_rank Log.Warn) with 3; apply andb_true_iff; split; apply Z.leb_le.
Qed.

Definition sample_observer : LogObserver :=
  mkObserver (Log.mkLogger Log.JsonLines Log.Debug [(b!"service", Value.Str (b!"bus"))] 0).

Definition sample_calls : list (Z * list Log.Fields * Event) :=
  map (fun e => (1709209845123456789, [], e)) (attempts 3 (b!"q") default_options (fallible flaky) (text (b!"x"))).1.

(** At the default level of the process the two nacks are written, the other events are not. *)
Lemma observer_reports_witness :
  exists lines, Log.sinks (observe_all sample_observer sample_calls Log.world_new) !! 0%nat
    = Some (Log.Sync ([] ++ flat_map (fun l => l ++ [x0a]) lines)) /\ length lines = 2%nat.
Proof.
  destruct (observer_reports sample_observer sample_calls Log.world_new []) as [(lines & Hs & Hl) _];
    [reflexivity..| |exists lines; split; [exact Hs|]].
  - apply Forall_fmap, Forall_true. reflexivity.
  - apply Forall2_length in Hl. rewrite <- Hl. vm_compute. reflexivity.
Defined.

End Delivery.
