(* ===== verification/Overlay.v ===== *)
(** * Setting up the router ([genai/router/]: [config.rs], [observe.rs], the builders of [default_router.rs], [task.rs], [strategy.rs])

    The builders of routers, tasks and rules; reading a [RoutingConfig] from the [genai.routing] section of a YAML document through the derived [Decode] of its
    entries, and the debug record of a routing decision. *)

From S2P Require Import Prelude Text Ordered Value Json Yaml Traits Derive Convert Registry Clients Router Log.
Import Traits Derive Router.
Import (hints) Convert Registry.

Open Scope Z_scope.

Module Overlay.

(** ** Builders *)

Record RouterBuilder := mkBuilder {
  b_providers : gmap bytes Provider;
  b_registry : BTreeMap.Map bytes ModelInfo;
  b_strategy : option Strategy;
  b_retry : option Retry.RetryPolicy;
  b_breaker_cfg : option Breaker.CircuitBreakerConfig;
  b_fallback_depth : nat;
}.

Definition builder_new (ps : gmap bytes Provider) (reg : BTreeMap.Map bytes ModelInfo) : RouterBuilder :=
  mkBuilder ps reg None None None 2.
Definition with_strategy (s : Strategy) (b : RouterBuilder) : RouterBuilder :=
  mkBuilder (b_providers b) (b_registry b) (Some s) (b_retry b) (b_breaker_cfg b) (b_fallback_depth b).
Definition with_retry_policy (p : Retry.RetryPolicy) (b : RouterBuilder) : RouterBuilder :=
  mkBuilder (b_providers b) (b_registry b) (b_strategy b) (Some p) (b_breaker_cfg b) (b_fallback_depth b).
Definition with_circuit_breaker (c : Breaker.CircuitBreakerConfig) (b : RouterBuilder) : RouterBuilder :=
  mkBuilder (b_providers b) (b_registry b) (b_strategy b) (b_retry b) (Some c) (b_fallback_depth b).
Definition with_fallback_depth (n : nat) (b : RouterBuilder) : RouterBuilder :=
  mkBuilder (b_providers b) (b_registry b) (b_strategy b) (b_retry b) (b_breaker_cfg b) n.
Definition build (b : RouterBuilder) : DefaultRouter :=
  mkRouter (b_providers b) (b_registry b) (default capability_strategy (b_strategy b)) (b_retry b) (b_breaker_cfg b)
    (b_fallback_depth b).

(** [Task]'s setters. *)
Definition with_kind (k : TaskKind) (t : Task) : Task :=
  mkTask (Some k) (tags t) (est_input_tokens t) (est_output_tokens t) (max_cost_usd t) (priority t) (required t) (pin t) (deadline t).
Definition with_priority (p : Priority) (t : Task) : Task :=
  mkTask (kind t) (tags t) (est_input_tokens t) (est_output_tokens t) (max_cost_usd t) p (required t) (pin t) (deadline t).
Definition with_tokens (i o : Z) (t : Task) : Task :=
  mkTask (kind t) (tags t) i o (max_cost_usd t) (priority t) (required t) (pin t) (deadline t).
Definition with_max_cost_usd (usd : F64.t) (t : Task) : Task :=
  mkTask (kind t) (tags t) (est_input_tokens t) (est_output_tokens t) usd (priority t) (required t) (pin t) (deadline t).
Definition with_pin (p m : bytes) (t : Task) : Task :=
  mkTask (kind t) (tags t) (est_input_tokens t) (est_output_tokens t) (max_cost_usd t) (priority t) (required t)
    (Some (mkPin p m)) (deadline t).
Definition with_deadline (at_ : Z) (t : Task) : Task :=
  mkTask (kind t) (tags t) (est_input_tokens t) (est_output_tokens t) (max_cost_usd t) (priority t) (required t) (pin t) (Some at_).

(** [RuleBasedStrategy]: its rules in the order they were added, and the default. *)
Record RuleBasedStrategy := mkRules { s_rules : list Rule; s_default : option (bytes * bytes) }.
Definition rules_new : RuleBasedStrategy := mkRules [] None.
Definition add_rule (k : TaskKind) (p m : bytes) (s : RuleBasedStrategy) : RuleBasedStrategy :=
  mkRules (s_rules s ++ [mkRule k p m]) (s_default s).
Definition default_model (p m : bytes) (s : RuleBasedStrategy) : RuleBasedStrategy := mkRules (s_rules s) (Some (p, m)).
Definition as_strategy (s : RuleBasedStrategy) : Strategy := rule_based (s_rules s) (s_default s).

(** ** Structs with a derived [Decode] *)

(** The fields of a struct, and the struct built from them. *)
Class Derived (R : Type) := {
  plan : list Field;
  of_struct : Struct plan -> R;
}.

#[export] Instance derived_decode {R} `{Derived R} : Decode R := {
  decode := fun value => let? s := decode_struct plan value in Ok (of_struct s);
  decode_from := fun D _ d => let! (s, d) := struct_decode_from plan d in Some (Ok (of_struct s, d));
}.

Definition str_field (k : bytes) : Field := Plain k bytes _ _ _.
Definition f64_field (k : bytes) : Field := Plain k (Float F64T) _ _ _.
Definition u32_field (k : bytes) : Field := Plain k (Unsigned U32) _ _ _.
Definition strs_field (k : bytes) : Field := Plain k (list bytes) _ _ _.

#[export] Instance rule_derived : Derived RuleConfig := {
  plan := [str_field (b!"kind"); str_field (b!"provider"); str_field (b!"model")];
  of_struct := fun '(k, (p, (m, _))) => mkRuleConfig k p m;
}.
#[export] Instance override_derived : Derived CostOverride := {
  plan := [str_field (b!"provider"); str_field (b!"model");
           f64_field (b!"input_cost_per_mtok"); f64_field (b!"output_cost_per_mtok")];
  of_struct := fun '(p, (m, (i, (o, _)))) => mkOverride p m (float i) (float o);
}.
#[export] Instance ref_derived : Derived ModelRef := {
  plan := [str_field (b!"provider"); str_field (b!"model")];
  of_struct := fun '(p, (m, _)) => mkRef p m;
}.
#[export] Instance disabled_derived : Derived DisabledCaps := {
  plan := [str_field (b!"provider"); str_field (b!"model"); strs_field (b!"capabilities")];
  of_struct := fun '(p, (m, (cs, _))) => mkDisabled p m cs;
}.
#[export] Instance custom_derived : Derived CustomModel := {
  plan := [str_field (b!"provider"); str_field (b!"name"); strs_field (b!"capabilities");
           u32_field (b!"max_input_tokens"); u32_field (b!"max_output_tokens");
           f64_field (b!"input_cost_per_mtok"); f64_field (b!"output_cost_per_mtok")];
  of_struct := fun '(p, (n, (cs, (mi, (mo, (ic, (oc, _))))))) =>
    mkCustom p n cs (unsigned mi) (unsigned mo) (float ic) (float oc);
}.

(** ** [RoutingConfig] *)

Definition config_default : RoutingConfig := mkRouting None None [] [] [] [] [].

(** [decode_array] *)
Definition decode_array {T} `{Decode T} (v : Value) (key : bytes) : Result (list T) RouterError :=
  match Value.get v key with
  | Some arr => map_err (fun e => RConfig (key ++ b!": " ++ codec_error_display e)) (decode arr)
  | None => Ok []
  end.

(** [RoutingConfig::from_value] *)
Definition from_value (v : Value) : Result RoutingConfig RouterError :=
  let strategy := s ← Value.get v (b!"default_strategy"); Value.as_str s in
  let depth := (fun n => Z.max n 0) <$> (n ← Value.get v (b!"fallback_depth"); Value.as_i64 n) in
  let? rules := decode_array v (b!"rules") in
  let? overrides := decode_array v (b!"cost_overrides") in
  let? disabled := decode_array v (b!"disabled_models") in
  let? stripped := decode_array v (b!"disabled_capabilities") in
  let? customs := decode_array v (b!"custom_models") in
  Ok (mkRouting strategy depth rules overrides disabled stripped customs).

(** [RoutingConfig::from_yaml] *)
Definition from_yaml (input : bytes) : option (Result RoutingConfig RouterError) :=
  let! root := map_err (fun e => RConfig (codec_error_display e)) <$> Yaml.from_str input in
  Some (match (g ← Value.get root (b!"genai"); Value.get g (b!"routing")) with
        | Some routing => from_value routing
        | None => Ok config_default
        end).

(** ** [observe.rs] *)

Definition decision_fields (d : RouteDecision) : Log.Fields :=
  let count {A} (l : list A) := Convert.into (mkSigned (t := I64) (Z.of_nat (length l))) in
  [(b!"strategy", Convert.into (d_strategy d));
   (b!"provider", Convert.into (c_provider (chosen d)));
   (b!"model", Convert.into (c_model (chosen d)));
   (b!"est_cost_usd", Convert.into (mkFloat (t := F64T) (c_est_cost (chosen d))));
   (b!"fallbacks", count (d_fallbacks d));
   (b!"considered", count (considered d));
   (b!"excluded", count (d_excluded d));
   (b!"pinned", Convert.into (pinned d))].

(** [log_decision], through the process logger at time [now]. *)
Definition log_decision (now : Z) (ctx : list Log.Fields) (d : RouteDecision) (w : Log.World) : Log.World :=
  Log.log_global now ctx Log.Debug (b!"genai model-router decision") (decision_fields d) w.

(** ** What an entry is written as *)

(** The struct of a value, whose tree a configuration file holds. *)
Class Laid (R : Type) `{Derived R} := {
  to_struct : R -> Struct plan;
  of_to : forall x, of_struct (to_struct x) = x;
  plan_lossless : FieldsLossless false plan;
}.

#[export] Instance laid_valid {R} `{Laid R} : Valid R := fun x => valid (to_struct x).

Ltac laid := split; [by apply (bool_decide_eq_true_1 (NoDup (map Derive.key _)))|by_fields].

#[export] Program Instance rule_laid : Laid RuleConfig := {
  to_struct := fun r => (rc_kind r, (rc_provider r, (rc_model r, tt)));
}.
Next Obligation. by intros []. Qed.
Next Obligation. laid. Qed.
#[export] Program Instance override_laid : Laid CostOverride := {
  to_struct := fun o => (ov_provider o, (ov_model o, (mkFloat (ov_input o), (mkFloat (ov_output o), tt))));
}.
Next Obligation. by intros []. Qed.
Next Obligation. laid. Qed.
#[export] Program Instance ref_laid : Laid ModelRef := {
  to_struct := fun r => (ref_provider r, (ref_model r, tt));
}.
Next Obligation. by intros []. Qed.
Next Obligation. laid. Qed.
#[export] Program Instance disabled_laid : Laid DisabledCaps := {
  to_struct := fun d => (dc_provider d, (dc_model d, (dc_capabilities d, tt)));
}.
Next Obligation. by intros []. Qed.
Next Obligation. laid. Qed.
#[export] Program Instance custom_laid : Laid CustomModel := {
  to_struct := fun c => (cm_provider c, (cm_name c, (cm_capabilities c, (mkUnsigned (cm_max_input c), (mkUnsigned (cm_max_output c),
    (mkFloat (cm_input_cost c), (mkFloat (cm_output_cost c), tt)))))));
}.
Next Obligation. by intros []. Qed.
Next Obligation. laid. Qed.

Definition entries {R} `{Laid R} (l : list R) : Value := Value.Array (map (fun x => encode (to_struct x)) l).

Lemma decode_entries {R} `{Laid R} (l : list R) w : Forall valid l -> image false (entries l) w -> decode w = Ok l.
Proof.
  intros Hv Hi. unfold entries in Hi. inversion Hi as [| | | | | | | | | | | | |a b Hab| | |]; subst; [|done..].
  cbn [decode vec_decode decode_vec]. apply traverse_Ok. clear Hi. revert Hab. generalize b as w. induction Hv as [|x l Hx _ IH]; intros w Hab.
  - inversion Hab. constructor.
  - cbn [map] in Hab. inversion Hab as [|? y ? ys Hxy Hl]; subst. constructor; [|by apply IH].
    cbn [decode derived_decode]. pose proof plan_lossless as Hp.
    pose proof (decode_image (T := Struct plan) (to_struct x) y Hx Hxy) as Hd. cbn [decode struct_decode] in Hd.
    rewrite Hd. cbn [rbind]. by rewrite of_to.
Qed.

(** The [routing] section and the document around it. *)
Definition routing_tree (cfg : RoutingConfig) : list (bytes * Value) :=
  match default_strategy cfg with Some s => [(b!"default_strategy", Value.Str s)] | None => [] end
  ++ match cfg_fallback_depth cfg with Some n => [(b!"fallback_depth", Value.UInt n)] | None => [] end
  ++ [(b!"rules", entries (rules cfg)); (b!"cost_overrides", entries (cost_overrides cfg));
      (b!"disabled_models", entries (disabled_models cfg)); (b!"disabled_capabilities", entries (disabled_capabilities cfg));
      (b!"custom_models", entries (custom_models cfg))].

Definition document (cfg : RoutingConfig) : Value :=
  Value.Object [(b!"genai", Value.Object [(b!"routing", Value.Object (routing_tree cfg))])].

Definition valid_config (cfg : RoutingConfig) : Prop :=
  (forall n, cfg_fallback_depth cfg = Some n -> 0 <= n <= i64_max) /\
  Forall valid (rules cfg) /\ Forall valid (cost_overrides cfg) /\ Forall valid (disabled_models cfg) /\
  Forall valid (disabled_capabilities cfg) /\ Forall valid (custom_models cfg).

Lemma find_block_norm o k : Value.find (map (fun kv => (fst kv, Yaml.block_norm (snd kv))) o) k = Yaml.block_norm <$> Value.find o k.
Proof.
  unfold Value.find. rewrite <- map_rev. induction (rev o) as [|[k' v] l IH]; [done|]. cbn [map List.find fst snd].
  by case_bool_decide.
Qed.

Lemma entries_norm {R} `{Laid R} (l : list R) :
  Registry.yaml_faithful (entries l) = true -> Forall valid l -> decode (Yaml.block_norm (entries l)) = Ok l.
Proof. intros Hf Hv. by apply decode_entries, Registry.yaml_image. Qed.

Lemma faithful_entries (o : list (bytes * Value)) k v : forallb (fun kv => Registry.yaml_faithful (snd kv)) o = true -> (k, v) ∈ o -> Registry.yaml_faithful v = true.
Proof. intros Hf Hin. by apply (Registry.forallb_elem (fun kv => Registry.yaml_faithful (snd kv)) o (k, v)). Qed.

(** The lookups of [from_value] in the section. *)
Lemma routing_lookups cfg :
  let o := routing_tree cfg in
  Value.find o (b!"default_strategy") = Value.Str <$> default_strategy cfg /\
  Value.find o (b!"fallback_depth") = Value.UInt <$> cfg_fallback_depth cfg /\
  Value.find o (b!"rules") = Some (entries (rules cfg)) /\
  Value.find o (b!"cost_overrides") = Some (entries (cost_overrides cfg)) /\
  Value.find o (b!"disabled_models") = Some (entries (disabled_models cfg)) /\
  Value.find o (b!"disabled_capabilities") = Some (entries (disabled_capabilities cfg)) /\
  Value.find o (b!"custom_models") = Some (entries (custom_models cfg)).
Proof.
  unfold routing_tree. rewrite !find_app. by destruct (default_strategy cfg), (cfg_fallback_depth cfg).
Qed.

Lemma decode_array_norm {R} `{Laid R} o k (l : list R) :
  Value.find o k = Some (entries l) -> forallb (fun kv => Registry.yaml_faithful (snd kv)) o = true ->
  (k, entries l) ∈ o -> Forall valid l ->
  decode_array (Value.Object (map (fun kv => (fst kv, Yaml.block_norm (snd kv))) o)) k = Ok l.
Proof.
  intros Hf Ho Hin Hv. unfold decode_array. cbn [Value.get Value.as_object mbind option_bind].
  rewrite find_block_norm, Hf. cbn [fmap option_fmap option_map].
  by rewrite entries_norm by (done || by eapply faithful_entries).
Qed.

(** The overlay round trip: every routing configuration whose document YAML represents (UTF-8 strings, 32-bit
    limits, a depth within [i64], distinct keys are given) is read from the document, written by the YAML encoder, as
    itself, whichever of the optional entries it has; so the registry built from the file is the one built from the
    configuration. *)
Theorem overlay_roundtrip (cfg : RoutingConfig) :
  valid_config cfg -> Registry.faithful Registry.Yaml (document cfg) = true ->
  from_yaml (Yaml.encode (document cfg)) = Some (Ok cfg).
Proof.
  intros (Hd & H1 & H2 & H3 & H4 & H5) Hf. cbn [Registry.faithful] in Hf.
  apply andb_true_iff in Hf as [[[Hok Hdp%Nat.leb_le]%andb_true_iff Hy]%andb_true_iff _].
  unfold from_yaml. rewrite Yaml.from_str_encode_yaml by done. cbn [fmap option_fmap option_map map_err fbind].
  set (section := Value.Object (map (fun kv => (fst kv, Yaml.block_norm (snd kv))) (routing_tree cfg))).
  assert ((g ← Value.get (Yaml.yaml_norm (document cfg)) (b!"genai"); Value.get g (b!"routing")) = Some section) as -> by reflexivity.
  assert (forallb (fun kv => Registry.yaml_faithful (snd kv)) (routing_tree cfg) = true) as Ho.
  { unfold document in Hy. cbn [Registry.yaml_faithful forallb snd] in Hy. rewrite !andb_true_iff in Hy. apply Hy. }
  destruct (routing_lookups cfg) as (E1 & E2 & E3 & E4 & E5 & E6 & E7).
  assert (forall k v, Value.find (routing_tree cfg) k = Some v -> (k, v) ∈ routing_tree cfg) as Hin by (intros; by apply find_elem).
  subst section. unfold from_value.
  rewrite (decode_array_norm _ _ _ E3 Ho (Hin _ _ E3) H1), (decode_array_norm _ _ _ E4 Ho (Hin _ _ E4) H2),
    (decode_array_norm _ _ _ E5 Ho (Hin _ _ E5) H3), (decode_array_norm _ _ _ E6 Ho (Hin _ _ E6) H4),
    (decode_array_norm _ _ _ E7 Ho (Hin _ _ E7) H5).
  cbn [rbind Value.get Value.as_object mbind option_bind]. rewrite !find_block_norm, E1, E2. do 2 f_equal.
  destruct cfg as [ds fd rs ovs dms dcs cms]. cbn [default_strategy cfg_fallback_depth] in *.
  f_equal; [by destruct ds|]. destruct fd as [n|]; [|done]. specialize (Hd n eq_refl).
  cbn [fmap option_fmap option_map Yaml.block_norm Yaml.scalar_norm mbind option_bind].
  replace (n <=? i64_max) with true by (symmetry; apply Z.leb_le; lia). cbn. f_equal. lia.
Qed.

Definition sample_config : RoutingConfig :=
  mkRouting (Some (b!"capability")) (Some 3)
    [mkRuleConfig (b!"codegen") (b!"openai") (b!"gpt-4o")]
    [mkOverride (b!"openai") (b!"gpt-4o") (F64.of_Z 2) (F64.of_Z 10)] []
    [mkDisabled (b!"openai") (b!"gpt-4o") [b!"vision"; b!"audio"]]
    [mkCustom (b!"ollama") (b!"tuned") [b!"chat"] 8192 1024 f64_zero f64_zero].

Lemma overlay_roundtrip_witness : from_yaml (Yaml.encode (document sample_config)) = Some (Ok sample_config).
Proof.
  apply overlay_roundtrip; [|vm_compute; reflexivity].
  split; [by intros n [= <-]|]. repeat split; repeat constructor.
Defined.

(** A document without the section is the empty configuration; the error of a malformed entry names its array. *)
Example absent_section : from_yaml (b!"server:" ++ [x0a] ++ b!"  port: 1") = Some (Ok config_default).
Proof. vm_compute. reflexivity. Qed.

Example malformed_entry :
  from_value (Value.Object [(b!"disabled_models", Value.Array [Value.Object [(b!"provider", Value.Str (b!"p"))]])])
  = Err (RConfig (b!"disabled_models: missing field: model")).
Proof. vm_compute. reflexivity. Qed.

(** [default_strategy], [fallback_depth] and [rules] are read but decide nothing: the registry, which is all that is built
    from a configuration, does not depend on them. *)
Example unused_settings set s d rs cfg :
  build_registry set (mkRouting s d rs (cost_overrides cfg) (disabled_models cfg) (disabled_capabilities cfg) (custom_models cfg))
  = build_registry set cfg.
Proof. reflexivity. Qed.

(** ** A pinned or ruled task *)

Lemma map_imap {A B C} (g : B -> C) (h : A -> C) (l : list A) : forall f : nat -> A -> B,
  (forall i x, g (f i x) = h x) -> map g (imap f l) = map h l.
Proof. induction l as [|x l IH]; intros f H; [done|]. rewrite imap_cons. cbn [map]. rewrite H. f_equal. apply IH. intros i y. apply H. Qed.

(** A pin decides whatever the other settings of the task and the router are: the route is the pinned model alone, in
    the registry or not.  Without a pin, rules decide by order: with a rule for the task's kind, the first such rule is
    the primary and the other rules of the kind, then the default, are the fallbacks as far as the depth reaches. *)
Theorem builders_decide (b : RouterBuilder) (t : Task) (k : TaskKind) (p m dp dm : bytes) (pre post : RuleBasedStrategy) :
  (exists d c, resolve_inner (build b) (with_pin p m t) = Ok (mkRoute c [], d) /\ pinned d = true /\
     c_provider c = p /\ c_model c = m) /\
  (pin t = None -> Forall (fun r => r_kind r <> k) (s_rules pre) ->
   let s := default_model dp dm (mkRules (s_rules (add_rule k p m pre) ++ s_rules post) None) in
   exists d c rest, resolve_inner (build (with_strategy (as_strategy s) b)) (with_kind k t) = Ok (mkRoute c rest, d) /\
     pinned d = false /\ c_provider c = p /\ c_model c = m /\
     map (fun c => (c_provider c, c_model c)) rest =
       take (b_fallback_depth b)
         (map (fun r => (r_provider r, r_model r)) (List.filter (fun r => bool_decide (r_kind r = k)) (s_rules post)) ++ [(dp, dm)])).
Proof.
  split; [by do 2 eexists|]. intros Hp Hpre s. unfold resolve_inner. cbn [with_kind pin]. rewrite Hp.
  cbn [build with_strategy strategy b_strategy default from_option id as_strategy rule_based rank with_kind kind candidates
       s default_model s_rules s_default add_rule registry b_registry].
  assert (List.filter (fun r => bool_decide (r_kind r = k)) (s_rules pre) = []) as Hn.
  { induction Hpre as [|r l Hr _ IH]; [done|]. cbn [List.filter]. by rewrite bool_decide_false. }
  rewrite !List.filter_app, Hn. cbn [app List.filter r_kind]. rewrite bool_decide_true by done. cbn [app].
  unfold rule_candidates. rewrite imap_cons. cbn [app].
  do 3 eexists. split; [reflexivity|]. split; [done|]. split; [done|]. split; [done|].
  cbn [fallback_depth b_fallback_depth]. rewrite <- firstn_map, map_app. f_equal. cbn [map c_provider c_model make_candidate]. f_equal.
  by apply map_imap.
Qed.

Lemma builders_decide_witness :
  exists d c rest, resolve_inner (build (with_strategy (as_strategy (default_model (b!"d") (b!"m0")
      (mkRules (s_rules (add_rule CodeGen (b!"p") (b!"m") rules_new) ++ s_rules (add_rule CodeGen (b!"q") (b!"m2") rules_new)) None)))
      (builder_new ∅ []))) (with_kind CodeGen task_new) = Ok (mkRoute c rest, d) /\
    pinned d = false /\ c_provider c = b!"p" /\ c_model c = b!"m" /\
    map (fun c => (c_provider c, c_model c)) rest = [(b!"q", b!"m2"); (b!"d", b!"m0")].
Proof.
  destruct (builders_decide (builder_new ∅ []) task_new CodeGen (b!"p") (b!"m") (b!"d") (b!"m0") rules_new
    (add_rule CodeGen (b!"q") (b!"m2") rules_new)) as [_ H]. by apply H.
Defined.

(** ** The decision log *)

(** What a routing decision leaves in the log: nothing above the debug level; on a JSON logger with a synchronous
    writer one line, which reads back as the record of the decision, with its provider, its model and whether it was
    pinned. *)
Theorem decision_logged (now : Z) (ctx : list Log.Fields) (d : RouteDecision) (w : Log.World) (s : bytes) :
  let l := Log.get_global w in
  let line := Log.format_json l (Log.rfc3339 now) Log.Debug (b!"genai model-router decision") (Log.context_fields ctx) (decision_fields d) in
  let v := Log.record_value l (Log.rfc3339 now) Log.Debug (b!"genai model-router decision") (Log.context_fields ctx) (decision_fields d) in
  Log.format l = Log.JsonLines -> Log.sinks w !! Log.sink l = Some (Log.Sync s) ->
  Json.encodable v = true -> (Value.depth v <= Json.MAX_DEPTH)%nat ->
  Log.sinks (log_decision now ctx d w) !! Log.sink l =
    Some (Log.Sync (s ++ if Log.admits l Log.Debug w then line ++ [x0a] else [])) /\
  x0a ∉ line /\ Json.from_str line = Ok (Json.norm v) /\
  Value.get v (b!"provider") = Some (Value.Str (c_provider (chosen d))) /\
  Value.get v (b!"model") = Some (Value.Str (c_model (chosen d))) /\
  Value.get v (b!"pinned") = Some (Value.Bool (pinned d)).
Proof.
  intros l line v Hf Hs He Hd. split.
  - unfold log_decision, Log.log_global. rewrite (Log.log_json_sync now ctx _ _ _ _ w s Hf Hs). cbn [Log.sinks].
    apply list_lookup_insert_eq. by eapply lookup_lt_Some.
  - destruct (Log.json_record_reads l (Log.rfc3339 now) Log.Debug (b!"genai model-router decision") (Log.context_fields ctx) (decision_fields d) He Hd) as [H1 H2].
    split; [exact H1|]. split; [exact H2|]. unfold v, Log.record_value. cbn [Value.get Value.as_object mbind option_bind].
    rewrite !find_app. done.
Qed.

Definition json_world : Log.World :=
  Log.set_max_level Log.Debug (Log.set_global (Log.mkLogger Log.JsonLines Log.Trace [] 0) Log.world_new).

Definition sample_decision : RouteDecision :=
  mkDecision (b!"pin") (mkCandidate (b!"openai") (b!"gpt-4o") f64_zero f64_zero) [] [] [] true.

Lemma decision_logged_witness :
  exists line, Log.sinks (log_decision 0 [] sample_decision json_world) !! 0%nat = Some (Log.Sync (line ++ [x0a])) /\ x0a ∉ line.
Proof.
  destruct (decision_logged 0 [] sample_decision json_world []) as (H1 & H2 & _);
    [reflexivity..|vm_compute; lia|]. eexists. split; [exact H1|exact H2].
Defined.

End Overlay.
