(* ===== verification/Rest.v ===== *)
(** * The REST client and server ([rest/])

    The client puts path and query parameters, headers, an encoded body and
    authentication into a request of [http], retries transport failures and
    decodes the answer; the server is a [turbo] router run as a component.  How
    the n-th exchange of a call ends is an argument ([HttpClient] has the
    exchange itself), and so are the outcome of binding a socket and the text of
    an I/O error. *)

From S2P Require Import Prelude Text Scan Ordered Value Json Xml Yaml Toml Traits Derive Streaming Registry Types.
From S2P Require Import Clients Lifecycle Sse HttpCore HttpServer HttpClient Turbo Health Providers.

Open Scope Z_scope.

Module Rest.
Import HttpCore HttpServer Turbo.
#[local] Existing Instance Health.HealthStatus_eq_dec.

(** ** Client *)

Inductive ClientError :=
| InvalidRequest (m : bytes)
| Transport (e : HttpError)
| Codec (e : Registry.Failure).

Record ClientOptions := mkOptions {
  request_timeout : option Z;
  opt_auth : option ClientAuth.AuthProvider;
  opt_retry : option Retry.RetryPolicy;
  opt_content_type : option bytes;
}.

Definition options_default : ClientOptions := mkOptions None None None None.
Definition with_timeout (d : Z) (o : ClientOptions) : ClientOptions := mkOptions (Some d) (opt_auth o) (opt_retry o) (opt_content_type o).
Definition with_auth (a : ClientAuth.AuthProvider) (o : ClientOptions) : ClientOptions :=
  mkOptions (request_timeout o) (Some a) (opt_retry o) (opt_content_type o).
Definition with_retry (p : Retry.RetryPolicy) (o : ClientOptions) : ClientOptions :=
  mkOptions (request_timeout o) (opt_auth o) (Some p) (opt_content_type o).
Definition with_content_type (ct : bytes) (o : ClientOptions) : ClientOptions :=
  mkOptions (request_timeout o) (opt_auth o) (opt_retry o) (Some ct).

(** [ClientInner]; the timeout is the inner HTTP client's. *)
Record Client := mkClient {
  timeout : option Z;
  client_auth : option ClientAuth.AuthProvider;
  retry_policy : option Retry.RetryPolicy;
  default_content_type : bytes;
}.

Definition with_options (o : ClientOptions) : Client :=
  mkClient (request_timeout o) (opt_auth o) (opt_retry o) (default (b!"application/json") (opt_content_type o)).

Record RequestBuilder := mkBuilder {
  inner : Client;
  b_method : Method;
  b_url : bytes;
  path_params : list (bytes * bytes);
  b_query : list (bytes * bytes);
  b_headers : list (bytes * bytes);
  b_content_type : bytes;
  b_body : option bytes;
  deferred_err : option ClientError;
}.

(** [Client::request] *)
Definition request (c : Client) (u : bytes) (m : Method) : RequestBuilder := mkBuilder c m u [] [] [] (default_content_type c) None None.

Definition add_query (k v : bytes) (b : RequestBuilder) : RequestBuilder :=
  mkBuilder (inner b) (b_method b) (b_url b) (path_params b) (b_query b ++ [(k, v)]) (b_headers b) (b_content_type b) (b_body b) (deferred_err b).
Definition path_param (k v : bytes) (b : RequestBuilder) : RequestBuilder :=
  mkBuilder (inner b) (b_method b) (b_url b) (path_params b ++ [(k, v)]) (b_query b) (b_headers b) (b_content_type b) (b_body b) (deferred_err b).
Definition add_header (k v : bytes) (b : RequestBuilder) : RequestBuilder :=
  mkBuilder (inner b) (b_method b) (b_url b) (path_params b) (b_query b) (b_headers b ++ [(k, v)]) (b_content_type b) (b_body b) (deferred_err b).
Definition content_type (ct : bytes) (b : RequestBuilder) : RequestBuilder :=
  mkBuilder (inner b) (b_method b) (b_url b) (path_params b) (b_query b) (b_headers b) ct (b_body b) (deferred_err b).
Definition body_bytes (bs : bytes) (b : RequestBuilder) : RequestBuilder :=
  mkBuilder (inner b) (b_method b) (b_url b) (path_params b) (b_query b) (b_headers b) (b_content_type b) (Some bs) (deferred_err b).

(** [RequestBuilder::body] *)
Definition body {T} `{Traits.Encode T} (value : T) (b : RequestBuilder) : RequestBuilder :=
  match Registry.encode (b_content_type b) value with
  | Ok bs => body_bytes bs b
  | Err e => mkBuilder (inner b) (b_method b) (b_url b) (path_params b) (b_query b) (b_headers b) (b_content_type b) (b_body b)
               (Some (Codec (Registry.Failed e)))
  end.

(** [{b:02X}] *)
Definition url_encode_byte (b : byte) : bytes :=
  if unreserved b then [b] else [x25; HttpClient.hex_digit (b2z b / 16); HttpClient.hex_digit (b2z b mod 16)].
Definition url_encode (s : bytes) : bytes := flat_map url_encode_byte s.

Definition append_query (u : bytes) (q : list (bytes * bytes)) : bytes :=
  if bool_decide (length q = 0%nat) then u
  else u ++ [if bool_decide (x3f ∈ u) then x26 else x3f] ++ join [x26] (map (fun kv => url_encode (fst kv) ++ [x3d] ++ url_encode (snd kv)) q).

(** [s.replace(pat, v)] for a pattern that is not empty. *)
Fixpoint replace_loop (fuel : nat) (pat v s : bytes) : bytes :=
  match fuel with
  | O => s
  | S fuel' => match split_once_str pat s with Some (a, r) => a ++ v ++ replace_loop fuel' pat v r | None => s end
  end.
Definition replace (pat v s : bytes) : bytes := replace_loop (length s) pat v s.

Definition placeholder (k : bytes) : bytes := b!"${" ++ k ++ b!"}".

Definition substitute_path (u : bytes) (params : list (bytes * bytes)) : Result bytes ClientError :=
  let out := foldl (fun s kv => replace (placeholder (fst kv)) (snd kv) s) u params in
  if contains_str out (b!"${") then Err (InvalidRequest (b!"unsubstituted path placeholder in: " ++ out)) else Ok out.

Definition is_retryable (e : ClientError) : bool := match e with Transport _ => true | _ => false end.
Definition is_idempotent (m : Method) : bool :=
  match m with Get | Head | Put | Delete | Options | Trace => true | _ => false end.

(** [Response] of the client. *)
Record Response := mkResp { r_status : StatusCode; r_content_type : option bytes; r_body : bytes }.

Definition is_success (r : Response) : bool := (200 <=? r_status r) && (r_status r <? 300).
Definition response_text (r : Response) : bytes := Utf8.from_utf8_lossy (r_body r).
Definition response_decode {T} `{Traits.Decode T} (r : Response) : option (Result T Registry.Failure) :=
  Registry.decode (default (b!"application/json") (r_content_type r)) (r_body r).

Section Send.
Context (io_text : IoKind -> bytes).

(** [HttpError]'s [Display] *)
Definition http_error_display (e : HttpError) : bytes :=
  match e with
  | InvalidUrl m => b!"invalid url: " ++ m
  | Io k => b!"io error: " ++ io_text k
  | Tls m => b!"tls error: " ++ m
  | Protocol m => b!"malformed http: " ++ m
  | HttpCore.Timeout => b!"timed out"
  end.

(** The request of [execute_once]. *)
Definition make_request (b : RequestBuilder) (u : bytes) : Result Request ClientError :=
  let? req := map_err (fun e => InvalidRequest (http_error_display e)) (HttpClient.builder (b_method b) (append_query u (b_query b))) in
  let req := mkRequest (method req) (uri req) (foldl (fun h kv => set h (fst kv) (snd kv)) (headers req) (b_headers b)) (HttpCore.body req) in
  let req := match b_body b with
             | Some bs => mkRequest (method req) (uri req) (set (headers req) (b!"content-type") (b_content_type b)) bs
             | None => req
             end in
  Ok (match client_auth (inner b) with Some a => a req | None => req end).

(** An exchange of the HTTP client whose body has been read: status, headers, body. *)
Definition Exchange := Request -> Result (StatusCode * HeaderMap * bytes) HttpError.

(** [execute_once], with what it put on the wire. *)
Definition execute_once (ex : Exchange) (b : RequestBuilder) (u : bytes) : Result Response ClientError * list Request :=
  match make_request b u with
  | Err e => (Err e, [])
  | Ok req =>
      (match ex req with
       | Ok (st, hs, bs) => Ok (mkResp st (HttpCore.get hs (b!"content-type")) bs)
       | Err e => Err (Transport e)
       end, [req])
  end.

(** [RequestBuilder::send]; [exs n] is the exchange of attempt [n].  The result comes
    with the requests put on the wire. *)
Definition send (exs : nat -> Exchange) (b : RequestBuilder) : option (Result Response ClientError * list Request) :=
  match deferred_err b with
  | Some e => Some (Err e, [])
  | None =>
      match substitute_path (b_url b) (path_params b) with
      | Err e => Some (Err e, [])
      | Ok u =>
          match retry_policy (inner b) with
          | Some p =>
              if is_idempotent (b_method b) then
                '(r, calls, _) ← Retry.retry p is_retryable (fun n => fst (execute_once (exs n) b u));
                Some (r, flat_map (fun n => snd (execute_once (exs n) b u)) (seq 0 calls))
              else Some (execute_once (exs 0%nat) b u)
          | None => Some (execute_once (exs 0%nat) b u)
          end
      end
  end.

End Send.

(** ** Server *)

Record ServerOptions := mkServerOptions { o_id : bytes; path_prefix : bytes; listen_host : bytes; listen_port : Z }.

Definition server_options_default : ServerOptions := mkServerOptions (b!"ferroly-rest") [] (b!"0.0.0.0") 8080.

Section Server.
Context {St : Type}.

Record ServerBuilder := mkServerBuilder { options : ServerOptions; router : Router St }.

Definition builder (o : ServerOptions) : ServerBuilder := mkServerBuilder o router_new.

Definition prefixed (b : ServerBuilder) (p : bytes) : bytes :=
  let prefix := rev (drop_slashes (rev (path_prefix (options b)))) in
  if bool_decide (prefix = []) then p else prefix ++ p.

(** [add_route], and [get], [post], [put], [delete] with their one method. *)
Definition add_route (p : bytes) (h : Handler St) (ms : list Method) (b : ServerBuilder) : ServerBuilder :=
  mkServerBuilder (options b) (Turbo.add (router b) (prefixed b p) h ms).

Definition map_router (f : Router St -> Router St) (b : ServerBuilder) : ServerBuilder := mkServerBuilder (options b) (f (router b)).

Definition SERVICE_UNAVAILABLE : StatusCode := 503.

(** The [/health] handler runs the checks for the status and again for the report. *)
Definition health_handler (live : @Health.Registry St) : Handler St := fun s _ =>
  let '(worst, s) := Health.overall live s in
  let code := match worst with Health.Down => SERVICE_UNAVAILABLE | _ => OK end in
  let '(json, s) := Health.to_json live s in
  (s, with_body (with_header (new code) (b!"content-type") (b!"application/json")) json).

Definition ready_handler (readiness : @Health.Registry St) : Handler St := fun s _ =>
  let '(ok, s) := Health.is_ready readiness s in
  (s, if ok then text OK (b!"ready") else text SERVICE_UNAVAILABLE (b!"not ready")).

Definition health_endpoints_split (live readiness : @Health.Registry St) (b : ServerBuilder) : ServerBuilder :=
  map_router (fun r => Turbo.add (Turbo.add r (b!"/health") (health_handler live) [Get]) (b!"/ready") (ready_handler readiness) [Get]) b.

Definition health_endpoints (reg : @Health.Registry St) (b : ServerBuilder) : ServerBuilder := health_endpoints_split reg reg b.

(** The server: [running] is whether the serving task has been spawned and not
    stopped. *)
Record Server := mkServer {
  id : bytes;
  s_host : bytes;
  s_port : Z;
  s_handler : option (Router St);
  local_addr : option (bytes * Z);
  running : option (Router St);
  state : Lifecycle.ComponentState;
}.

Definition build (b : ServerBuilder) : Server :=
  mkServer (o_id (options b)) (listen_host (options b)) (listen_port (options b)) (Some (router b)) None None Lifecycle.Unknown.

(** [Component::start]; [bind] is how binding ends: the local address or the text of
    an error. *)
Definition start (bind : bytes -> Z -> Result (bytes * Z) bytes) (s : Server) : Result unit Lifecycle.LifecycleError * Server :=
  match s_handler s with
  | None => (Err (Lifecycle.ComponentAlreadyStarted (id s)), s)
  | Some r =>
      let s := mkServer (id s) (s_host s) (s_port s) None (local_addr s) (running s) (state s) in
      match bind (s_host s) (s_port s) with
      | Err e => (Err (Lifecycle.ComponentFailure (id s) e), s)
      | Ok a => (Ok tt, mkServer (id s) (s_host s) (s_port s) None (Some a) (Some r) Lifecycle.Running)
      end
  end.

(** [Component::stop] *)
Definition stop (s : Server) : Result unit Lifecycle.LifecycleError * Server :=
  (Ok tt, mkServer (id s) (s_host s) (s_port s) (s_handler s) (local_addr s) None Lifecycle.Stopped).

End Server.
Arguments ServerBuilder : clear implicits.
Arguments Server : clear implicits.

(** ** Retries *)

(** What the caller gets from the exchange of a request. *)
Definition answer (r : Result (StatusCode * HeaderMap * bytes) HttpError) : Result Response ClientError :=
  match r with
  | Ok (st, hs, bs) => Ok (mkResp st (HttpCore.get hs (b!"content-type")) bs)
  | Err e => Err (Transport e)
  end.

(** The number of retries a request may have. *)
Definition retry_limit (b : RequestBuilder) : Z :=
  match retry_policy (inner b) with Some p => if is_idempotent (b_method b) then Retry.max_retries p else 0 | None => 0 end.

Definition prepared (io_text : IoKind -> bytes) (b : RequestBuilder) : Result Request ClientError :=
  match deferred_err b with
  | Some e => Err e
  | None => let? u := substitute_path (b_url b) (path_params b) in make_request io_text b u
  end.

(** C33 What [send] puts on the wire: a request that cannot be prepared is not sent and its error is returned; otherwise,
    when no exchange of it is answered with a 5xx status (or there are no retries to make), the same request is sent again
    only after a transport failure, at most [max_retries] more times for an idempotent method and never for another, and
    the answer is that of the last exchange, the first that did not fail unless the retries are used up.  (The builder
    documents the policy for 5xx answers too; the code takes one for an answer, [server_error_not_retried].) *)
Theorem send_attempts (io_text : IoKind -> bytes) (exs : nat -> Exchange) (b : RequestBuilder) :
  0 <= retry_limit b ->
  (0 < retry_limit b -> forall i req st hs bs, exs i req = Ok (st, hs, bs) -> ~ (500 <= st < 600)) ->
  match prepared io_text b with
  | Err e => send io_text exs b = Some (Err e, [])
  | Ok req =>
      exists k, Z.of_nat k <= retry_limit b /\ send io_text exs b = Some (answer (exs k req), replicate (S k) req) /\
        (forall i, (i < k)%nat -> exists e, exs i req = Err e) /\
        (Z.of_nat k < retry_limit b -> is_ok (exs k req) = true)
  end.
Proof.
  intros Hl _. unfold prepared, send. destruct (deferred_err b); [done|]. destruct (substitute_path _ _) as [u|e]; [|done]. cbn [rbind].
  unfold retry_limit in *. destruct (make_request io_text b u) as [req|e] eqn:Em.
  - assert (forall ex, execute_once io_text ex b u = (answer (ex req), [req])) as Hex by (intros ex; unfold execute_once; by rewrite Em).
    assert (exists k, Z.of_nat k <= 0 /\ Some (execute_once io_text (exs 0%nat) b u) = Some (answer (exs k req), replicate (S k) req) /\
      (forall i, (i < k)%nat -> exists e, exs i req = Err e) /\ (Z.of_nat k < 0 -> is_ok (exs k req) = true)) as Hone.
    { exists 0%nat. rewrite Hex. split; [done|]. split; [done|]. split; [lia|lia]. }
    destruct (retry_policy (inner b)) as [p|]; [|exact Hone]. destruct (is_idempotent (b_method b)); [|exact Hone].
    destruct (retry_loop_spec p is_retryable (fun n => fst (execute_once io_text (exs n) b u)) (S (Z.to_nat (Retry.max_retries p))) 0 [])
      as (k & _ & (Hk1 & Hk2 & Hk3) & Hr); [done|simpl; lia|lia|lia|]. unfold Retry.retry. rewrite Hr. cbn [mbind option_bind].
    assert (forall i, Retry.final is_retryable (fst (execute_once io_text (exs i) b u)) = is_ok (exs i req)) as Hfin.
    { intros i. rewrite Hex. cbn [fst]. by destruct (exs i req) as [[[st hs] bs]|e]. }
    exists k. rewrite Hex. cbn [fst]. split; [done|]. split; [|split].
    + do 2 f_equal. generalize 0%nat. generalize (S k). intros n. induction n as [|n IH]; intros j; [done|]. cbn [seq flat_map replicate].
      by rewrite IH, Hex.
    + intros i Hi. specialize (Hk1 i Hi). rewrite Hfin in Hk1. destruct (exs i req); [done|eauto].
    + intros Hlt. destruct Hk3 as [Hk3|Hk3]; [by rewrite Hfin in Hk3|lia].
  - assert (forall ex, execute_once io_text ex b u = (Err e, [])) as Hex by (intros ex; unfold execute_once; by rewrite Em).
    destruct (retry_policy (inner b)) as [p|]; [|by rewrite Hex]. destruct (is_idempotent (b_method b)); [|by rewrite Hex].
    assert (is_retryable e = false) as He.
    { unfold make_request in Em. destruct (HttpClient.builder _ _); cbn [map_err rbind] in Em; [done|]. by injection Em as <-. }
    destruct (retry_loop_spec p is_retryable (fun n => fst (execute_once io_text (exs n) b u)) (S (Z.to_nat (Retry.max_retries p))) 0 [])
      as (k & _ & (Hk1 & _ & _) & Hr); [done|simpl; lia|lia|lia|]. unfold Retry.retry. rewrite Hr. cbn [mbind option_bind].
    destruct k as [|k]; [cbn [seq flat_map]; by rewrite !Hex|]. specialize (Hk1 0%nat ltac:(lia)). rewrite Hex in Hk1. cbn in Hk1. by rewrite He in Hk1.
Qed.

(** ** A call seen by the server *)

Lemma url_step f b rest out : percent_loop (S f) (url_encode_byte b ++ rest) out = percent_loop f rest (out ++ [b]).
Proof.
  destruct (decide (b = x20)) as [->|Hb].
  - change (url_encode_byte x20) with [x25; x32; x30]. cbn [app percent_loop].
    rewrite (bool_decide_false (x25 = x2b)), (bool_decide_true (x25 = x25)) by done.
    rewrite (proj2 (Z.ltb_lt _ _)) by (unfold len; cbn [length]; lia). cbn [andb firstn skipn]. rewrite take_0, drop_0. done.
  - rewrite <- percent_step. unfold url_encode_byte, percent_encode_byte. by rewrite (bool_decide_false (b = x20)).
Qed.

Lemma percent_decode_url s : Utf8.is_utf8 s = true -> percent_decode (url_encode s) = s.
Proof.
  intros Hu. unfold percent_decode.
  assert (forall s fuel out, (length s < fuel)%nat -> percent_loop fuel (url_encode s) out = Some (out ++ s)) as Hl.
  { clear. induction s as [|b s IH]; intros [|fuel] out Hf; try (cbn [length] in Hf; lia); unfold url_encode; cbn [flat_map].
    - cbn [percent_loop]. by rewrite app_nil_r.
    - rewrite url_step. fold (url_encode s). rewrite IH by (cbn [length] in Hf; lia). by rewrite <- app_assoc. }
  rewrite Hl.
  - cbn [default app]. change (Datatypes.id s) with s. by apply lossy_valid.
  - assert (length s <= length (url_encode s))%nat; [|lia]. clear. induction s as [|b s IH]; [done|]. unfold url_encode in *. cbn [flat_map length].
    rewrite length_app. unfold url_encode_byte at 1. destruct (unreserved b); cbn [length]; lia.
Qed.

Lemma url_encode_chars s c : c ∈ url_encode s -> unreserved c = true \/ c = x25.
Proof.
  unfold url_encode. rewrite list_elem_of_In, in_flat_map. intros (b & _ & Hin). unfold url_encode_byte in Hin.
  pose proof (b2z_range b). assert (0 <= b2z b / 16 < 16 /\ 0 <= b2z b mod 16 < 16) as [H1 H2].
  { split; [split; [apply Z.div_pos; lia|apply Z.div_lt_upper_bound; lia]|apply Z.mod_pos_bound; lia]. }
  assert (forall d, 0 <= d < 16 -> unreserved (HttpClient.hex_digit d) = true) as Hd.
  { intros d Hd. assert (d = 0 \/ d = 1 \/ d = 2 \/ d = 3 \/ d = 4 \/ d = 5 \/ d = 6 \/ d = 7 \/ d = 8 \/ d = 9 \/ d = 10 \/ d = 11 \/ d = 12 \/ d = 13 \/ d = 14 \/ d = 15) as Hc by lia.
    destruct_or! Hc; subst d; reflexivity. }
  destruct (unreserved b) eqn:E; [destruct Hin as [->|[]]; by left|]. destruct Hin as [<-|[<-|[<-|[]]]]; [by right|left; by apply Hd..].
Qed.

Lemma url_encode_plain k : forallb unreserved k = true -> url_encode k = k.
Proof.
  induction k as [|b k IH]; [done|]. cbn [forallb]. rewrite andb_true_iff. intros [Hb Hk]. unfold url_encode. cbn [flat_map].
  fold (url_encode k). rewrite IH by done. unfold url_encode_byte. by rewrite Hb.
Qed.

Definition query_text (q : list (bytes * bytes)) : bytes := join [x26] (map (fun kv => url_encode (fst kv) ++ [x3d] ++ url_encode (snd kv)) q).

Lemma query_read q name :
  q <> [] -> Forall (fun kv => forallb unreserved kv.1 = true /\ Utf8.is_utf8 kv.2 = true) q ->
  find_pair (split_on x26 (query_text q)) name = snd <$> List.find (fun kv => bool_decide (kv.1 = name)) q.
Proof.
  intros Hne Hq. unfold query_text. rewrite split_on_join.
  - clear Hne. induction Hq as [|[k v] q [Hk Hv] _ IH]; [done|]. cbn [map find_pair List.find fst snd] in *. rewrite url_encode_plain by done.
    change ([x3d] ++ url_encode v) with (x3d :: url_encode v). rewrite split_once_app.
    + case_bool_decide; [|done]. cbn [fmap option_fmap option_map snd]. by rewrite percent_decode_url.
    + intros Hin. rewrite forallb_forall in Hk. apply list_elem_of_In, Hk in Hin. done.
  - by destruct q.
  - apply Forall_map, Forall_true. intros [k v]. cbn [fst snd]. rewrite !not_elem_of_app.
    assert (forall s, x26 ∉ url_encode s) as Hs by (intros s Hin; by apply url_encode_chars in Hin as [?|?]).
    split; [apply Hs|]. split; [apply (bool_decide_unpack _); by vm_compute|apply Hs].
Qed.

(** The URL with the query parameters is that of the same resource with a query. *)
Lemma append_query_url u q :
  uri_wf u -> query u = None -> q <> [] ->
  append_query (url u) q = url (mkUri (scheme u) (host u) (port u) (path u) (Some (query_text q))).
Proof.
  intros (Hs & Hh & Hp & _ & Hq & _ & H2) Hn Hne. unfold append_query. rewrite bool_decide_false by (by destruct q).
  assert (x3f ∉ url u) as Hx.
  { unfold url, request_target. rewrite Hn, !not_elem_of_app. destruct (default_port (scheme u)) as [dp|] eqn:Ed; [|done].
    split; [|split; [apply (bool_decide_unpack _); by vm_compute|split; [|done]]].
    - clear -Ed. unfold default_port in Ed.
      repeat match type of Ed with context [bool_decide (?a = ?b)] => let E := fresh in destruct (bool_decide (a = b)) eqn:E; [apply bool_decide_eq_true in E as ->; apply (bool_decide_unpack _); by vm_compute|] end.
      cbn in Ed. done.
    - unfold authority. cbv zeta. destruct (port u =? _); [done|]. rewrite !not_elem_of_app. split; [done|].
      split; [apply (bool_decide_unpack _); by vm_compute|]. intros Hin. destruct (show_uint_digits (port u)) as (_ & Hd & _); [lia|].
      rewrite Forall_forall in Hd. by apply Hd in Hin. }
  rewrite bool_decide_false by done. unfold url, request_target. rewrite Hn. cbn [query path scheme]. rewrite <- !app_assoc. done.
Qed.

Lemma builder_queries q : forall b,
  foldl (fun b kv => add_query (fst kv) (snd kv) b) b q =
  mkBuilder (inner b) (b_method b) (b_url b) (path_params b) (b_query b ++ q) (b_headers b) (b_content_type b) (b_body b) (deferred_err b).
Proof.
  induction q as [|[k v] q IH]; intros b; [cbn; rewrite app_nil_r; by destruct b|]. cbn [foldl]. rewrite IH. cbn. by rewrite <- app_assoc.
Qed.

(** The request of a call: the resource with the query, the content type and the body. *)
Definition call_request (m : Method) (u : Uri) (q : list (bytes * bytes)) (ct bs : bytes) : Request :=
  mkRequest m (mkUri (scheme u) (host u) (port u) (path u) (Some (query_text q))) [(b!"content-type", ct)] bs.

#[local] Existing Instances Types.ty_encode Types.ty_decode Types.ty_valid.

(** C14 A call reaches the handler as it was made.  A client without authentication calls a well-formed resource (no colon
    in the host, no query of its own, no [${] in its URL) with a non-empty list of query parameters whose keys are made
    of unreserved characters and whose values are any UTF-8 text, a content type that resolves to a format, and a body of
    any type and value that [content_type_roundtrip] covers ([wf], [valid], [faithful]).  Then the request it prepares is
    the one of the call; and when that is within the server's limits ([sendable]: request line, headers and body not too
    long, no white space in the target), written to a connection it is served by the HTTP server: the handler is called
    once, on a request with the method and the path of the call, on which the router's [query_param] gives the value of
    every parameter (the first of its name) and nothing for other names, whose content type is the one chosen and whose
    body decodes to the value.  (A key that needs encoding is not found, [encoded_key_not_found].) *)
Theorem call_reaches_handler `{O : Traits.HashOrder} (t : Types.Ty) (f : Registry.Format) {S} (handle : S -> Request -> S * HttpResponse)
  (cfg : ServerConfig) (s : S) (io_text : IoKind -> bytes) (c : Client) (m : Method) (u : Uri) (q : list (bytes * bytes))
  (ct : bytes) (x : Types.carrier (Types.sem t)) (bs : bytes) :
  client_auth c = None -> uri_wf u -> x3a ∉ host u -> query u = None -> contains_str (url u) (b!"${") = false ->
  q <> [] -> Forall (fun kv => forallb unreserved kv.1 = true /\ Utf8.is_utf8 kv.2 = true) q ->
  Types.wf (Registry.loose f) t = true -> Registry.from_content_type ct = Some f -> clean ct ->
  Traits.valid x -> Registry.faithful f (Traits.encode x) = true -> Registry.encode ct x = Ok bs ->
  max_body_bytes cfg <= u64_max -> sendable cfg (call_request m u q ct bs) ->
  let b := body x (content_type ct (foldl (fun b kv => add_query (fst kv) (snd kv) b) (request c (url u) m) q)) in
  prepared io_text b = Ok (call_request m u q ct bs) /\
  exists conn r, serve_conn handle cfg ready (write_request (call_request m u q ct bs)) s = Some (Ok tt, conn, fst (handle s r), [r]) /\
    method r = m /\ path (uri r) = path u /\
    (forall k, query_param (mkCtx r ∅) k = snd <$> List.find (fun kv => bool_decide (kv.1 = k)) q) /\
    HttpCore.get (headers r) (b!"content-type") = Some ct /\ Registry.decode ct (HttpCore.body r) = Some (Ok x).
Proof.
  intros Hca Hu Hc Hn Hcs Hne Hq Ht Hf Hct Hx Hok Hb Hm Hs b.
  assert (b = mkBuilder c m (url u) [] q [] ct (Some bs) None) as ->.
  { subst b. rewrite builder_queries. unfold body. cbn [content_type b_content_type]. by rewrite Hb. }
  destruct (Types.typed_roundtrip t f ct x Ht Hf Hx Hok) as (bs' & Hb' & _ & Hd). rewrite Hb in Hb'. injection Hb' as <-.
  split.
  - unfold prepared, substitute_path, make_request. cbn [deferred_err b_url path_params foldl b_method b_query b_headers b_body inner b_content_type].
    rewrite Hcs. cbn [rbind].
    unfold HttpClient.builder. rewrite append_query_url by done.
    rewrite parse_url by (done || exact Hu). cbn [rbind map_err HttpClient.request_new method uri headers HttpCore.body foldl].
    rewrite Hca. unfold HttpCore.set. by rewrite (strip_crlf_id ct) by done.
  - set (req := call_request m u q ct bs) in *. unfold serve_conn.
    pose proof (serve_loop_sendable handle cfg [req] (Datatypes.S (length (write_request req))) 0 0 [] s Hm ltac:(by constructor)) as Hserve.
    cbn [map concat] in Hserve. rewrite app_nil_r in Hserve. specialize (Hserve ltac:(lia)).
    assert (exists conn, serve_loop handle (Datatypes.S (length (write_request req))) cfg ready 0 0 (mkConn (write_request req) []) s =
      Some (Ok (), conn, fst (handle s (server_view req)), [server_view req])) as (conn & Hl).
    { rewrite Hserve. cbn [serve_spec]. destruct (handle s (server_view req)) as [s1 resp]. destruct (_ && _); eauto. }
    exists conn, (server_view req). split; [exact Hl|]. split; [done|]. split; [done|]. split; [|split; [|exact Hd]].
    + intros k. by apply query_read.
    + cbn [server_view headers]. unfold wire_headers. reflexivity.
Qed.

(** ** Path templates *)

Inductive Piece := Lit (s : bytes) | Hole (k : bytes).

#[local] Instance piece_eq_dec : EqDecision Piece.
Proof. solve_decision. Defined.

Definition piece_text (p : Piece) : bytes := match p with Lit s => s | Hole k => placeholder k end.
Definition template (ps : list Piece) : bytes := flat_map piece_text ps.

(** No dollar sign outside the placeholders, whose names have no brace. *)
Definition piece_ok (p : Piece) : Prop := match p with Lit s => x24 ∉ s | Hole k => x24 ∉ k /\ x7d ∉ k end.

Definition fill_piece (k v : bytes) (p : Piece) : Piece := if bool_decide (p = Hole k) then Lit v else p.

Lemma strip_prefix_head c pat d s : c <> d -> strip_prefix (d :: s) (c :: pat) = None.
Proof. intros H. unfold strip_prefix. cbn [starts_with]. by rewrite bool_decide_false. Qed.

(** Searching skips text without the first byte of the pattern. *)
Lemma split_once_str_skip c pat w t :
  c ∉ w -> split_once_str (c :: pat) (w ++ t) =
  match split_once_str (c :: pat) t with Some (a, r) => Some (w ++ a, r) | None => None end.
Proof.
  induction w as [|d w IH]; intros Hw; [cbn [app]; by destruct (split_once_str _ t) as [[a r]|]|].
  rewrite not_elem_of_cons in Hw. cbn [app split_once_str]. rewrite strip_prefix_head by naive_solver. rewrite IH by naive_solver.
  by destruct (split_once_str _ t) as [[a r]|].
Qed.

Lemma placeholder_prefix k k' t :
  x7d ∉ k -> x7d ∉ k' -> k <> k' -> strip_prefix (placeholder k' ++ t) (placeholder k) = None.
Proof.
  intros Hk Hk' Hne. destruct (strip_prefix _ _) as [r|] eqn:E; [|done]. apply strip_prefix_Some in E. exfalso. apply Hne.
  unfold placeholder in E. rewrite <- !app_assoc in E. apply app_inv_head in E. change (b!"}") with [x7d] in E. cbn [app] in E.
  clear Hne. revert k' Hk' E. induction k as [|c k IH]; intros [|c' k'] Hk' E; cbn [app] in E; [done|..].
  - injection E as -> _. by destruct Hk'; left.
  - injection E as <- _. by destruct Hk; left.
  - injection E as -> E. rewrite not_elem_of_cons in Hk, Hk'. f_equal. apply IH; [apply Hk|apply Hk'|done].
Qed.

Lemma placeholder_shape k : placeholder k = x24 :: x7b :: k ++ [x7d].
Proof. reflexivity. Qed.

Lemma split_template k ps :
  x24 ∉ k -> x7d ∉ k -> Forall piece_ok ps ->
  match split_once_str (placeholder k) (template ps) with
  | None => Hole k ∉ ps
  | Some (a, r) => exists pre post, ps = pre ++ Hole k :: post /\ Hole k ∉ pre /\ a = template pre /\ r = template post
  end.
Proof.
  intros Hd Hk Hps. assert (forall w t, x24 ∉ w -> split_once_str (placeholder k) (w ++ t) =
    match split_once_str (placeholder k) t with Some (a, r) => Some (w ++ a, r) | None => None end) as Hskip by (intros; by apply split_once_str_skip).
  induction Hps as [|p ps Hp Hps IH]; [apply not_elem_of_nil|]. cbn [template flat_map]. fold (template ps).
  destruct p as [s|k']; cbn [piece_ok piece_text] in *.
  - rewrite Hskip by done. destruct (split_once_str _ (template ps)) as [[a r]|].
    + destruct IH as (pre & post & -> & Hn & -> & ->). exists (Lit s :: pre), post. rewrite not_elem_of_cons. done.
    + rewrite not_elem_of_cons. done.
  - destruct (decide (k = k')) as [<-|Hne].
    + assert (split_once_str (placeholder k) (placeholder k ++ template ps) = Some ([], template ps)) as ->.
      { pose proof (strip_prefix_app (placeholder k) (template ps)) as E. destruct (placeholder k ++ template ps) eqn:E2; cbn [split_once_str]; by rewrite E. }
      exists [], ps. split; [done|]. split; [apply not_elem_of_nil|done].
    + pose proof (placeholder_prefix k k' (template ps) Hk (proj2 Hp) Hne) as E.
      assert (split_once_str (placeholder k) (placeholder k' ++ template ps) =
        match split_once_str (placeholder k) (template ps) with Some (a, r) => Some (placeholder k' ++ a, r) | None => None end) as ->.
      { rewrite (placeholder_shape k') in E |- *. cbn [app] in E |- *. cbn [split_once_str]. rewrite E. change (x7b :: (k' ++ [x7d]) ++ template ps) with ((x7b :: k' ++ [x7d]) ++ template ps).
        rewrite Hskip; [by destruct (split_once_str _ (template ps)) as [[a r]|]|].
        rewrite not_elem_of_app, list_elem_of_singleton. split; [apply Hp|done]. }
      destruct (split_once_str _ (template ps)) as [[a r]|].
      * destruct IH as (pre & post & -> & Hn & -> & ->). exists (Hole k' :: pre), post. rewrite not_elem_of_cons. split; [done|]. split; [naive_solver|done].
      * rewrite not_elem_of_cons. naive_solver.
Qed.

Lemma fill_absent k v ps : Hole k ∉ ps -> map (fill_piece k v) ps = ps.
Proof.
  induction ps as [|p ps IH]; intros H; [done|]. rewrite not_elem_of_cons in H. cbn [map]. rewrite IH by naive_solver. unfold fill_piece.
  by rewrite bool_decide_false by naive_solver.
Qed.

Lemma replace_template k v ps :
  x24 ∉ k -> x7d ∉ k -> Forall piece_ok ps -> replace (placeholder k) v (template ps) = template (map (fill_piece k v) ps).
Proof.
  intros Hd Hk Hps. unfold replace. assert (length ps <= length ps + length (template ps))%nat as Hf by lia. revert Hf.
  assert (forall fuel ps, Forall piece_ok ps -> (length (filter (fun p => p = Hole k) ps) <= fuel)%nat ->
    replace_loop fuel (placeholder k) v (template ps) = template (map (fill_piece k v) ps)) as H.
  { clear ps Hps. induction fuel as [|fuel IH]; intros ps Hps Hle.
    - cbn [replace_loop]. rewrite fill_absent; [done|]. intros Hin. assert (Hole k ∈ filter (fun p => p = Hole k) ps) as Hin2 by (by apply list_elem_of_filter).
      destruct (filter _ ps); [by inversion Hin2|cbn in Hle; lia].
    - cbn [replace_loop]. pose proof (split_template k ps Hd Hk Hps) as Hsp. destruct (split_once_str _ _) as [[a r]|].
      + destruct Hsp as (pre & post & -> & Hn & -> & ->). apply Forall_app in Hps as [Hpre Hpost]. inversion Hpost as [|? ? _ Hpost']; subst.
        rewrite filter_app, filter_cons_True, length_app in Hle by done. cbn [length] in Hle. rewrite IH by (done || lia).
        rewrite map_app, (fill_absent k v pre) by done. cbn [map].
        replace (fill_piece k v (Hole k)) with (Lit v) by (unfold fill_piece; by rewrite bool_decide_true).
        unfold template. rewrite !flat_map_app. cbn [flat_map piece_text]. done.
      + by rewrite fill_absent. }
  intros _. apply H; [done|]. clear H. induction Hps as [|p ps Hp _ IH]; [done|]. cbn [template flat_map]. fold (template ps). rewrite length_app.
  destruct (decide (p = Hole k)) as [->|Hne]; [rewrite filter_cons_True by done|rewrite filter_cons_False by done; lia].
  cbn [length piece_text]. rewrite placeholder_shape. cbn [length]. lia.
Qed.

Definition value_of (params : list (bytes * bytes)) (p : Piece) : Piece :=
  match p with
  | Hole k => match List.find (fun kv => bool_decide (fst kv = k)) params with Some kv => Lit (snd kv) | None => p end
  | Lit _ => p
  end.

Definition is_hole (p : Piece) : bool := match p with Hole _ => true | Lit _ => false end.

Lemma contains_skip w t : x24 ∉ w -> contains_str (w ++ t) (b!"${") = contains_str t (b!"${").
Proof.
  induction w as [|c w IH]; intros Hw; [done|]. rewrite not_elem_of_cons in Hw. cbn [app contains_str]. rewrite IH by apply Hw.
  replace (starts_with (c :: w ++ t) (b!"${")) with false; [done|]. symmetry. cbn. rewrite bool_decide_false; [done|]. destruct Hw as [Hw _]. congruence.
Qed.

Lemma template_holes ps : Forall piece_ok ps -> contains_str (template ps) (b!"${") = existsb is_hole ps.
Proof.
  induction 1 as [|p ps Hp _ IH]; [done|]. cbn [template flat_map existsb]. fold (template ps). destruct p as [s|k]; cbn [piece_text is_hole orb].
  - by rewrite contains_skip.
  - rewrite placeholder_shape. cbn [app contains_str]. by rewrite (starts_with_app (b!"${") ((k ++ [x7d]) ++ template ps) : starts_with (x24 :: x7b :: (k ++ [x7d]) ++ template ps) (b!"${") = true).
Qed.

Lemma substitute_template params : forall ps,
  Forall (fun kv => x24 ∉ kv.1 /\ x7d ∉ kv.1 /\ x24 ∉ kv.2) params -> Forall piece_ok ps ->
  foldl (fun s kv => replace (placeholder (fst kv)) (snd kv) s) (template ps) params = template (map (value_of params) ps) /\
  Forall piece_ok (map (value_of params) ps).
Proof.
  induction params as [|[k v] params IH]; intros ps Hpar Hps.
  { cbn [foldl]. replace (map (value_of []) ps) with ps; [done|]. symmetry. rewrite <- (map_id ps) at 2. apply map_ext. by intros []. }
  inversion Hpar as [|? ? (Hk & Hb & Hv) Hpar']; subst. cbn [foldl fst snd] in *. rewrite replace_template by done.
  assert (map (value_of ((k, v) :: params)) ps = map (value_of params) (map (fill_piece k v) ps)) as ->.
  { rewrite map_map. apply map_ext. intros [s|k']; cbn [value_of fill_piece List.find fst snd].
    - unfold fill_piece. by rewrite bool_decide_false.
    - unfold fill_piece. destruct (decide (k = k')) as [->|Hne]; [by rewrite !bool_decide_true|].
      rewrite !bool_decide_false by congruence. done. }
  apply IH; [done|]. apply Forall_map. eapply Forall_impl; [exact Hps|]. intros p Hp. unfold fill_piece. by case_bool_decide.
Qed.

(** Path parameters fill a template: every placeholder gets the first value given for its name, and the text between
    stays; a template with a placeholder left is refused with an error that shows it. *)
Theorem path_template_filled (params : list (bytes * bytes)) (ps : list Piece) :
  Forall (fun kv => x24 ∉ kv.1 /\ x7d ∉ kv.1 /\ x24 ∉ kv.2) params -> Forall piece_ok ps ->
  let filled := map (value_of params) ps in
  substitute_path (template ps) params =
  if existsb is_hole filled then Err (InvalidRequest (b!"unsubstituted path placeholder in: " ++ template filled)) else Ok (template filled).
Proof.
  intros Hpar Hps filled. destruct (substitute_template params ps Hpar Hps) as [E Hok]. unfold substitute_path. rewrite E, template_holes by done. done.
Qed.

Lemma path_template_filled_witness :
  substitute_path (b!"/u/${id}/p/${no}") [(b!"id", b!"7"); (b!"no", b!"x y")] = Ok (b!"/u/7/p/x y").
Proof.
  apply (path_template_filled [(b!"id", b!"7"); (b!"no", b!"x y")] [Lit (b!"/u/"); Hole (b!"id"); Lit (b!"/p/"); Hole (b!"no")]);
    repeat constructor; apply (bool_decide_unpack _); vm_compute; exact I.
Defined.

(** A value may bring in a placeholder that a later parameter fills. *)
Example value_is_substituted_again :
  substitute_path (b!"/${a}") [(b!"a", b!"${b}"); (b!"b", b!"secret")] = Ok (b!"/secret").
Proof. reflexivity. Qed.

(** ** Witnesses of the client's properties *)

Definition demo_uri : Uri := mkUri (b!"http") (b!"api") 80 (b!"/v") None.
Definition demo_client : Client := mkClient None None (Some (Retry.fixed 2 7)) (b!"application/json").

Lemma send_attempts_witness :
  exists k, Z.of_nat k <= 2 /\
    send (fun _ => []) (fun n _ => if (n <? 1)%nat then Err HttpCore.Timeout else Ok (200, [], b!"{}")) (request demo_client (b!"http://api/v") Get)
    = Some (answer (if (k <? 1)%nat then Err HttpCore.Timeout else Ok (200, [], b!"{}")), replicate (S k) (mkRequest Get demo_uri [] [])).
Proof.
  destruct (send_attempts (fun _ => []) (fun n _ => if (n <? 1)%nat then Err HttpCore.Timeout else Ok (200, [], b!"{}"))
    (request demo_client (b!"http://api/v") Get)) as (k & Hk & Hs & _); [vm_compute; discriminate| |].
  { intros _ i req st hs bs. destruct (i <? 1)%nat; [done|]. intros [= <- _ _]. lia. }
  exists k. split; [exact Hk|exact Hs].
Defined.

Module Demo.
Import Types.

#[local] Existing Instance tree_order.

(** A struct with an optional and a repeated field. *)
Definition order : Ty := TStruct [((b!"item", None), TStr); ((b!"count", None), TUnsigned Traits.U16); ((b!"tags", None), TVec TStr); ((b!"note", Some true), TStr)].
Definition the_order : carrier (sem order) := (b!"tea", (Traits.mkUnsigned 2, ([b!"green"; b!"loose"], (None, tt)))).
Definition the_json : bytes := default [] (match Registry.encode (b!"application/json") the_order with Ok b => Some b | Err _ => None end).
Definition the_query : list (bytes * bytes) := [(b!"q", b!"a b&c"); (b!"lang", [xc3; xa9])].

Lemma the_call_sendable : sendable default_config (call_request Post demo_uri the_query (b!"application/json") the_json).
Proof.
  assert (forall x l, bool_decide (x ∈ l) = false -> x ∉ (l : bytes)) as Hn by (intros x l H; by apply bool_decide_eq_false in H).
  repeat constructor; try (by vm_compute); try (apply Hn; by vm_compute); try (vm_compute; congruence).
Qed.

Lemma call_reaches_handler_witness :
  exists conn r,
    serve_conn (fun (n : nat) r => (S n, text OK (HttpCore.body r))) default_config ready
      (write_request (call_request Post demo_uri the_query (b!"application/json") the_json)) 0%nat = Some (Ok tt, conn, 1%nat, [r]) /\
    query_param (mkCtx r ∅) (b!"q") = Some (b!"a b&c") /\ query_param (mkCtx r ∅) (b!"x") = None /\
    Registry.decode (b!"application/json") (HttpCore.body r) = Some (Ok the_order).
Proof.
  destruct (call_reaches_handler order Registry.Json (fun (n : nat) r => (S n, text OK (HttpCore.body r))) default_config 0%nat (fun _ => []) demo_client
    Post demo_uri the_query (b!"application/json") the_order the_json) as (_ & conn & r & H1 & _ & _ & H2 & _ & H3).
  all: try reflexivity.
  - repeat split; try discriminate; try (apply (bool_decide_unpack _); vm_compute; exact I). by eexists.
  - apply (bool_decide_unpack _). vm_compute. exact I.
  - discriminate.
  - repeat constructor.
  - split; apply (bool_decide_unpack _); vm_compute; exact I.
  - refine (conj eq_refl (conj eq_refl (conj _ (conj I I)))). repeat constructor.
  - vm_compute. discriminate.
  - exact the_call_sendable.
  - exists conn, r. split; [exact H1|]. split; [by rewrite H2|]. split; [by rewrite H2|exact H3].
Defined.

End Demo.

(** A query key that needs encoding is not found by the router, which compares keys as they are written. *)
Example encoded_key_not_found :
  query_param (mkCtx (mkRequest Get (mkUri [] [] 0 (b!"/") (Some (query_text [(b!"a b", b!"1")]))) [] []) ∅) (b!"a b") = None.
Proof. reflexivity. Qed.

(** The retry policy is not applied to a 5xx answer. *)
Example server_error_not_retried :
  send (fun _ => []) (fun _ _ => Ok (503, [], [])) (request demo_client (b!"http://api/v") Get) =
  Some (Ok (mkResp 503 None []), [mkRequest Get demo_uri [] []]).
Proof. reflexivity. Qed.

(** ** The server as a component *)

(** A failed start uses the handler up: the next start is refused although the server never ran. *)
Example failed_start_is_final (b : ServerBuilder nat) :
  let '(r1, s1) := start (fun _ _ => Err (b!"address in use")) (build b) in
  let '(r2, s2) := start (fun h p => Ok (h, p)) s1 in
  r1 = Err (Lifecycle.ComponentFailure (o_id (options b)) (b!"address in use")) /\
  r2 = Err (Lifecycle.ComponentAlreadyStarted (o_id (options b))) /\ running s2 = None.
Proof. done. Qed.

(** ** Health endpoints *)

(** The probes answer what the checks say: [GET /health] is 503 exactly when a check reports down, with the JSON report
    as its body, and [GET /ready] is 200 exactly when every check reports up, through the router the probes were added to. *)
Theorem health_endpoints_answer {St} (live readiness : @Health.Registry St) (o : ServerOptions) (s : St) (req : Request) :
  let r := router (health_endpoints_split live readiness (builder o)) in
  method req = Get ->
  (path (uri req) = b!"/health" ->
    let resp := snd (handle r s req) in
    (status resp = 503 <-> Health.Down ∈ map snd (fst (Health.report live s))) /\ (status resp = 503 \/ status resp = 200) /\
    rbody resp = fst (Health.to_json live (snd (Health.report live s)))) /\
  (path (uri req) = b!"/ready" ->
    let resp := snd (handle r s req) in
    (status resp = 200 <-> forall st, st ∈ map snd (fst (Health.report readiness s)) -> st = Health.Up) /\ (status resp = 503 \/ status resp = 200)).
Proof.
  intros r Hm. split; intros Hp.
  - assert (handle r s req = health_handler live s (mkCtx req ∅)) as ->.
    { unfold handle, core_dispatch. cbn [middlewares run_next]. unfold core_dispatch. cbn [r]. cbn. rewrite Hm, Hp. reflexivity. }
    unfold health_handler, Health.overall. destruct (Health.report live s) as [l s1]. cbn [fst snd].
    destruct (Health.to_json live s1) as [js s2]. cbn [fst snd with_body with_header new status rbody].
    rewrite overall_loop_spec by done. unfold worst. case_bool_decide as Hd.
    + split; [|split; [by left|done]]. split; [|done]. intros _. apply elem_of_cons in Hd as [Hd|Hd]; done.
    + assert (Health.Down ∉ map snd l) as Hd' by (intros Hin; apply Hd; by right). case_bool_decide; (split; [|split; [by right|done]]); (split; [done|intros Hin; by destruct Hd']).
  - assert (handle r s req = ready_handler readiness s (mkCtx req ∅)) as ->.
    { unfold handle. cbn [middlewares run_next]. unfold core_dispatch. cbn. rewrite Hm, Hp. reflexivity. }
    unfold ready_handler, Health.is_ready. destruct (Health.report readiness s) as [l s1]. cbn [fst snd].
    assert (forallb (fun p => bool_decide (p.2 = Health.Up)) l = true <-> forall st, st ∈ map snd l -> st = Health.Up) as Hall.
    { rewrite forallb_forall. split.
      - intros H st ([n st'] & -> & Hin)%list_elem_of_fmap. apply list_elem_of_In, H in Hin. by apply bool_decide_eq_true in Hin.
      - intros H [n st] Hin%list_elem_of_In. apply bool_decide_eq_true. apply H. by apply (list_elem_of_fmap_2 snd _ (n, st)). }
    destruct (forallb _ l) eqn:E; cbn [status text with_body with_header new].
    + split; [|by right]. split; [by intros _; apply Hall|done].
    + split; [|by left]. split; [done|]. intros H. apply Hall in H. congruence.
Qed.

Lemma health_endpoints_answer_witness :
  let reg : @Health.Registry unit := Health.register Health.registry_new (b!"db") (fun s => (Health.Down, s)) in
  status (snd (handle (router (health_endpoints_split reg reg (builder server_options_default))) tt
    (mkRequest Get (mkUri [] [] 0 (b!"/health") None) [] []))) = 503.
Proof.
  intros reg. destruct (health_endpoints_answer reg reg server_options_default tt (mkRequest Get (mkUri [] [] 0 (b!"/health") None) [] []) eq_refl)
    as [H _]. apply H; [reflexivity|]. vm_compute. by left.
Defined.

End Rest.
