(* ===== verification/Upgrade.v ===== *)
(** * WebSocket client and server ([ws/client.rs], [ws/server.rs])

    The opening handshake on both sides, the server's connection task as a transition system of its three concurrent
    parts (read loop, message handler, write loop), the bounded accept loop and the lifecycle component.  The peer is
    a function from the bytes written to it to the bytes it sends; random bytes, binding and connecting are
    arguments. *)

From S2P Require Import Prelude Text Scan Hash Auth HttpCore HttpClient Ws Lifecycle Rest.

Open Scope Z_scope.
Import HttpCore.

Module Upgrade.

Inductive WsError := Connect (m : bytes) | Send (m : bytes) | Transport (m : bytes).

Record WsOptions := mkOptions { max_message_size : option nat; max_frame_size : option nat }.

Definition options_default : WsOptions := mkOptions None None.

(** ** The handshake *)

Section Handshake.
Context (io_text : IoKind -> bytes).

Definition connect_err {T} (r : Result T HttpError) : Result T WsError :=
  map_err (fun e => Connect (Rest.http_error_display io_text e)) r.

(** The request [WsClient::dial] writes. *)
Definition dial_request (u : Uri) (key : bytes) : bytes :=
  b!"GET " ++ request_target u ++ b!" HTTP/1.1" ++ CRLF ++ b!"Host: " ++ authority u ++ CRLF ++ b!"Upgrade: websocket" ++ CRLF
  ++ b!"Connection: Upgrade" ++ CRLF ++ b!"Sec-WebSocket-Key: " ++ key ++ CRLF ++ b!"Sec-WebSocket-Version: 13" ++ CRLF ++ CRLF.

(** [WsClient::dial]: the bytes that follow the handshake are those of the frame stream; [connect] opens a connection to
    a peer, [key_bytes] are the sixteen random bytes. *)
Definition dial (connect : Uri -> Result (bytes -> bytes) HttpError) (key_bytes url : bytes) : option (Result bytes WsError) :=
  let! u := Some (connect_err (parse_uri url)) in
  let! peer := Some (connect_err (connect u)) in
  let key := Base64.base64_encode key_bytes in
  let! (status, headers, rest) := connect_err <$> read_response_head (peer (dial_request u key)) in
  if negb (status =? 101) then Some (Err (Connect (b!"expected 101, got " ++ show_uint status)))
  else if negb (bool_decide (get headers (b!"sec-websocket-accept") = Some (Ws.accept_key key)))
  then Some (Err (Connect (b!"invalid Sec-WebSocket-Accept")))
  else Some (Ok rest).

(** The answer of [serve_conn] to an upgrade request. *)
Definition upgrade_response (key : bytes) : bytes :=
  b!"HTTP/1.1 101 Switching Protocols" ++ CRLF ++ b!"Upgrade: websocket" ++ CRLF ++ b!"Connection: Upgrade" ++ CRLF
  ++ b!"Sec-WebSocket-Accept: " ++ Ws.accept_key key ++ CRLF ++ CRLF.

(** The handshake of [serve_conn]: the answer written and the bytes after the head; [in_time] is whether the head arrives
    within the deadline. *)
Definition serve_handshake (in_time : bool) (inp : bytes) : option (Result (bytes * bytes) WsError) :=
  if negb in_time then Some (Err (Connect (b!"handshake read timed out")))
  else
    let! (m, target, headers, rest) := connect_err <$> read_request_head inp in
    let! key := Some (ok_or (get headers (b!"sec-websocket-key")) (Connect (b!"missing Sec-WebSocket-Key"))) in
    Some (Ok (upgrade_response key, rest)).

End Handshake.

(** ** A connection after the handshake *)

Section Session.
Context {S : Type} (on_message : S -> Ws.Message -> S * option Ws.Message).

(** The handler loop of [serve_conn]: receiving, about to send [Close], waiting for the writer. *)
Inductive Main := Receiving | Closing | Waiting.

(** The state of a connection: what the read loop has still to send on its channels, the incoming and the outgoing
    channel, what the writer has taken from the outgoing channel, whether it is still running, and the handler with the
    application's state.  [handled] and [replies] record the messages handled and the replies made. *)
Record Session := mkSession {
  unread : list Ws.Event;
  incoming : list Ws.Message;
  outgoing : list Ws.Outgoing;
  written : list Ws.Outgoing;
  writing : bool;
  main : Main;
  app_state : S;
  handled : list Ws.Message;
  replies : list Ws.Message;
}.

Definition session_start (es : list Ws.Event) (s : S) : Session := mkSession es [] [] [] true Receiving s [] [].

(** [out_tx.send]: nothing is queued once the writer has gone. *)
Definition enqueue (writing : bool) (q : list Ws.Outgoing) (o : Ws.Outgoing) : list Ws.Outgoing :=
  if writing then q ++ [o] else q.

Inductive step : Session -> Session -> Prop :=
| read_deliver m es inc out wr w mn s h r :
    step (mkSession (Ws.Deliver m :: es) inc out wr w mn s h r) (mkSession es (inc ++ [m]) out wr w mn s h r)
| read_reply o es inc out wr w mn s h r :
    step (mkSession (Ws.Reply o :: es) inc out wr w mn s h r) (mkSession es inc (enqueue w out o) wr w mn s h r)
| handle_silent es m inc out wr w s s' h r :
    on_message s m = (s', None) ->
    step (mkSession es (m :: inc) out wr w Receiving s h r) (mkSession es inc out wr w Receiving s' (h ++ [m]) r)
| handle_reply es m inc out wr s s' h r reply :
    on_message s m = (s', Some reply) ->
    step (mkSession es (m :: inc) out wr true Receiving s h r)
         (mkSession es inc (out ++ [Ws.OMsg reply]) wr true Receiving s' (h ++ [m]) (r ++ [reply]))
| handle_unsent es m inc out wr s s' h r reply :      (** the send fails: the loop breaks *)
    on_message s m = (s', Some reply) ->
    step (mkSession es (m :: inc) out wr false Receiving s h r)
         (mkSession es inc out wr false Closing s' (h ++ [m]) (r ++ [reply]))
| channel_closed out wr w s h r :                     (** the read loop has ended *)
    step (mkSession [] [] out wr w Receiving s h r) (mkSession [] [] out wr w Closing s h r)
| close es inc out wr w s h r :                       (** sends [Close] and aborts the read task *)
    step (mkSession es inc out wr w Closing s h r) (mkSession [] inc (enqueue w out Ws.OClose) wr w Waiting s h r)
| write es inc o out wr mn s h r :
    o <> Ws.OClose ->
    step (mkSession es inc (o :: out) wr true mn s h r) (mkSession es inc out (wr ++ [o]) true mn s h r)
| write_close es inc out wr mn s h r :
    step (mkSession es inc (Ws.OClose :: out) wr true mn s h r) (mkSession es inc [] (wr ++ [Ws.OClose]) false mn s h r).

(** The connection breaks under the writer: it stops, and what is queued is lost.  No part of the program chooses this. *)
Inductive write_fault : Session -> Session -> Prop :=
| write_failed es inc out wr mn s h r :
    write_fault (mkSession es inc out wr true mn s h r) (mkSession es inc [] wr false mn s h r).

Definition faulty_step (c c' : Session) : Prop := step c c' \/ write_fault c c'.

(** [serve_conn] returns when the handler loop has ended and the writer is done. *)
Definition ended (c : Session) : Prop := main c = Waiting /\ writing c = false.

End Session.
Arguments Session : clear implicits.

(** ** The accept loop and the lifecycle component *)

Definition MAX_CONNECTIONS : Z := 1024.
Definition HANDSHAKE_TIMEOUT : Z := 30 * 1000.
Definition DEFAULT_MAX_FRAME_SIZE : nat := 16 * 1024 * 1024.
Definition DEFAULT_MAX_MESSAGE_SIZE : nat := 64 * 1024 * 1024.

Definition default_capped_options : WsOptions := mkOptions (Some DEFAULT_MAX_MESSAGE_SIZE) (Some DEFAULT_MAX_FRAME_SIZE).

Module Accept.
(** Waiting for a permit, for a connection, backing off after a failed accept, returned. *)
Inductive Phase := Acquiring | Accepting | BackingOff | Returned.

Record State := mkState { available : Z; live : Z; phase : Phase }.

Definition init : State := mkState MAX_CONNECTIONS 0 Acquiring.

Inductive step : State -> State -> Prop :=
| acquire a l : 0 < a -> step (mkState a l Acquiring) (mkState (a - 1) l Accepting)
| accept_ok a l : step (mkState a l Accepting) (mkState a (l + 1) Acquiring)
| accept_failed a l : step (mkState a l Accepting) (mkState (a + 1) l BackingOff)
| back_off_over a l : step (mkState a l BackingOff) (mkState a l Acquiring)
| shutdown a l : step (mkState a l Accepting) (mkState (a + 1) l Returned)
| conn_finished a l p : 0 < l -> step (mkState a l p) (mkState (a + 1) (l - 1) p).

Definition held (p : Phase) : Z := match p with Accepting => 1 | _ => 0 end.
End Accept.

(** [WsServer]; [running] is whether the accept loop has been spawned and not stopped. *)
Record WsServer := mkServer {
  id : bytes;
  addr : bytes;
  options : WsOptions;
  running : bool;
  local_addr : option (bytes * Z);
}.

Definition server_new (id addr : bytes) : WsServer := mkServer id addr default_capped_options false None.
Definition with_options (o : WsOptions) (s : WsServer) : WsServer := mkServer (id s) (addr s) o (running s) (local_addr s).

(** [Component::start]; [bind] is how binding ends: the local address, if it can be read, or the text of an error. *)
Definition start (bind : bytes -> Result (option (bytes * Z)) bytes) (s : WsServer) : Result unit Lifecycle.LifecycleError * WsServer :=
  match bind (addr s) with
  | Err e => (Err (Lifecycle.ComponentFailure (id s) e), s)
  | Ok a => (Ok tt, mkServer (id s) (addr s) (options s) true (match a with Some a => Some a | None => local_addr s end))
  end.

(** [Component::stop] *)
Definition stop (s : WsServer) : Result unit Lifecycle.LifecycleError * WsServer :=
  (Ok tt, mkServer (id s) (addr s) (options s) false (local_addr s)).

End Upgrade.

Import Upgrade.

(** ** The two sides of the handshake agree *)

(** The client's request as a request of the HTTP model. *)
Definition dial_headers (key : bytes) : HeaderMap :=
  [(b!"Upgrade", b!"websocket"); (b!"Connection", b!"Upgrade"); (b!"Sec-WebSocket-Key", key); (b!"Sec-WebSocket-Version", b!"13")].

Lemma dial_request_written u key : dial_request u key = write_request (mkRequest Get u (dial_headers key) []).
Proof.
  rewrite write_request_wire. unfold wire_headers. cbn [method uri headers body].
  change (contains (dial_headers key) (b!"host")) with false. rewrite bool_decide_true by done. cbn [orb].
  unfold dial_request, dial_headers. cbn [app map concat header_line fst snd as_str]. rewrite !app_nil_r.
  change (header_line (b!"Host", authority u)) with (b!"Host: " ++ authority u ++ CRLF).
  change (header_line (b!"Sec-WebSocket-Key", key)) with (b!"Sec-WebSocket-Key: " ++ key ++ CRLF).
  rewrite <- !app_assoc. done.
Qed.

(** A character of base64 text. *)
Definition b64_char (b : byte) : bool := bool_decide (b ∈ x3d :: Base64.CHARS).

Lemma b64_char_facts c : b64_char c = true -> solid c = true /\ c <> x0d /\ c <> x0a /\ b2z c < 128.
Proof.
  intros Hc. apply bool_decide_eq_true in Hc.
  assert (forallb (fun c => solid c && negb (bool_decide (c ∈ [x0d; x0a])) && (b2z c <? 128)) (x3d :: Base64.CHARS) = true) as Hall
    by (vm_compute; reflexivity).
  rewrite forallb_forall in Hall. specialize (Hall c). rewrite <- list_elem_of_In in Hall. specialize (Hall Hc).
  zbool. apply negb_true_iff, bool_decide_eq_false in H1. set_solver.
Qed.

Lemma b64_text s : Forall (fun c => b64_char c = true) s -> clean s /\ trim s = s /\ Utf8.is_utf8 s = true.
Proof.
  intros Hs. assert (forall c, c ∈ s -> solid c = true /\ c <> x0d /\ c <> x0a /\ b2z c < 128) as Hf.
  { intros c Hc. apply b64_char_facts. by apply (proj1 (Forall_forall _ _) Hs). }
  split_and!.
  - split; intros Hc; by destruct (Hf _ Hc) as (_ & ? & ? & _).
  - apply trim_solid. apply Forall_forall. intros c Hc. by apply Hf.
  - apply is_utf8_ascii. apply Forall_forall. intros c Hc. by apply Hf.
Qed.

Lemma b64_digit n : b64_char (Base64.digit Base64.CHARS n) = true.
Proof.
  unfold Base64.digit. change 63 with (Z.ones 6). rewrite Z.land_ones by lia. change (2 ^ 6) with 64.
  pose proof (Z.mod_pos_bound n 64 ltac:(lia)) as H. set (i := n mod 64) in *. clearbody i.
  assert (forallb (fun k => b64_char (Base64.CHARS !!! k)) (seq 0 64) = true) as Hall by (vm_compute; reflexivity).
  rewrite forallb_forall in Hall. apply Hall. apply in_seq. lia.
Qed.

Lemma base64_chars input : Forall (fun c => b64_char c = true) (Base64.base64_encode input).
Proof.
  assert (forall cs out, Forall (fun c => b64_char c = true) out -> Forall (fun c => b64_char c = true) (foldl Base64.base64_step out cs)) as H;
    [|apply H; constructor].
  induction cs as [|c cs IH]; intros out Hout; [done|]. cbn [foldl]. apply IH.
  unfold Base64.base64_step. rewrite !Forall_app, !Forall_singleton. split_and!; try done; try apply b64_digit;
    case_match; try apply b64_digit; done.
Qed.

Lemma base64_length input : length (Base64.base64_encode input) = (4 * ((length input + 2) / 3))%nat.
Proof.
  pose proof (base64_encode_chunks (chunks 3 input) [] (chunks_sizes 3 input ltac:(lia))) as [HL _].
  unfold Base64.base64_encode. by rewrite HL, length_chunks3.
Qed.

(** Header values the handshake can carry: the peer's address and the target fit in a request head. *)
Definition dialable (u : Uri) : Prop :=
  token_ok (request_target u) /\ len (request_target u) <= 4096 /\
  clean (authority u) /\ trim (authority u) = authority u /\ Utf8.is_utf8 (authority u) = true /\ len (authority u) <= 4096.

Lemma dial_request_ok u key :
  dialable u -> Forall (fun c => b64_char c = true) key -> len key <= 64 ->
  request_ok (mkRequest Get u (dial_headers key) []).
Proof.
  intros (Ht & Hl & Ha & Hta & Hua & Hla) Hk Hlk. destruct (b64_text key Hk) as (Hkc & Hkt & Hku).
  unfold request_ok. cbn [method uri headers body].
  assert (wire_headers (mkRequest Get u (dial_headers key) []) = (b!"Host", authority u) :: dial_headers key) as ->.
  { unfold wire_headers. cbn [headers body uri]. change (contains (dial_headers key) (b!"host")) with false.
    rewrite bool_decide_true by done. cbn [orb]. by rewrite app_nil_r. }
  assert (forall k v, clean k -> x3a ∉ k -> trim k = k -> Utf8.is_utf8 k = true -> len k <= 64 ->
    clean v -> trim v = v -> Utf8.is_utf8 v = true -> len v <= 4096 -> header_ok (k, v)) as Hok.
  { intros k v H1 H2 H3 H4 H5 H6 H7 H8 H9. unfold header_ok. cbn [fst snd]. split_and!; try done; try apply H1; try apply H6.
    unfold header_line. cbn [fst snd]. rewrite !len_app. change (len (b!": ")) with 2. change (len CRLF) with 2.
    unfold MAX_LINE_BYTES. lia. }
  split; [vm_compute; split_and!; [set_solver|set_solver|done]|]. split; [done|]. split; [done|]. split.
  { change (len (as_str Get)) with 3. unfold MAX_LINE_BYTES. lia. }
  split; [|split; [done|]].
  - unfold dial_headers. repeat (apply List.Forall_cons || apply List.Forall_nil); apply Hok; try done; try lia;
      try (vm_compute; (done || (split; set_solver) || set_solver)).
  - unfold dial_headers. cbn [map concat]. unfold header_line. cbn [fst snd]. rewrite !len_app. unfold MAX_HEADER_TOTAL_BYTES.
    change (len ?x) with (Z.of_nat (length x)) in *. cbn. lia.
Qed.

Lemma sha1_length data : length (Sha1.sha1 data) = 20%nat.
Proof.
  assert (Sha1.sha1 data = sha1_spec data) as ->.
  { apply absorbed_finalize. change data with ([] ++ data) at 2. eauto with ferroly. }
  apply (length_md_hash _ _ _ 5); [apply length_sha1_compress|done].
Qed.

Lemma upgrade_response_read key rest :
  read_response_head (upgrade_response key ++ rest) =
  Some (Ok (101, [(b!"Upgrade", b!"websocket"); (b!"Connection", b!"Upgrade"); (b!"Sec-WebSocket-Accept", Ws.accept_key key)], rest)).
Proof.
  set (acc := Ws.accept_key key). assert (len acc = 28) as Hl.
  { unfold len, acc, Ws.accept_key. rewrite base64_length, sha1_length. done. }
  destruct (b64_text acc (base64_chars _)) as (Hc & Ht & Hu).
  set (hs := [(b!"Upgrade", b!"websocket"); (b!"Connection", b!"Upgrade"); (b!"Sec-WebSocket-Accept", acc)]).
  assert (upgrade_response key ++ rest =
    (b!"HTTP/1.1" ++ b!" " ++ b!"101" ++ b!" " ++ b!"Switching Protocols" ++ CRLF) ++ concat (map header_line hs) ++ CRLF ++ rest) as ->.
  { unfold upgrade_response, hs. fold acc. clearbody acc. cbn [map concat]. unfold header_line. cbn [fst snd]. rewrite !app_nil_r.
    rewrite <- !app_assoc. done. }
  clearbody acc.
  unfold read_response_head. rewrite start_line_read; [|vm_compute; split_and!; (done || set_solver)|vm_compute; split_and!; (done || set_solver)
    |vm_compute; set_solver|done|vm_compute; discriminate].
  assert (headers_ok hs) as Hh.
  { split; [|split; [done|]].
    - unfold hs. repeat (apply List.Forall_cons || apply List.Forall_nil); unfold header_ok; cbn [fst snd];
        split_and!; try done; try apply Hc; try (vm_compute; (done || (split; set_solver) || set_solver)).
      unfold header_line. cbn [fst snd]. rewrite !len_app, Hl. vm_compute. discriminate.
    - unfold hs. cbn [map concat]. unfold header_line. cbn [fst snd]. rewrite !len_app, Hl. vm_compute. discriminate. }
  cbn [fbind]. rewrite (read_headers_written hs rest Hh). reflexivity.
Qed.

(** The peer of a dialling client: the server's answer to what it is sent, then its frames. *)
Definition server_peer (io_text : IoKind -> bytes) (frames request : bytes) : bytes :=
  match serve_handshake io_text true request with Some (Ok (resp, _)) => resp ++ frames | _ => [] end.

Lemma serve_handshake_dial io_text u key frames :
  dialable u -> Forall (fun c => b64_char c = true) key -> len key <= 64 ->
  serve_handshake io_text true (dial_request u key ++ frames) = Some (Ok (upgrade_response key, frames)).
Proof.
  intros Hu Hk Hl. unfold serve_handshake. cbn [negb]. rewrite dial_request_written, read_request_written by (by apply dial_request_ok).
  cbn [fmap option_fmap option_map connect_err map_err fbind body app]. unfold wire_headers. cbn [headers body uri].
  change (contains (dial_headers key) (b!"host")) with false. rewrite bool_decide_true by done. cbn [orb]. rewrite app_nil_r.
  unfold get, dial_headers. cbn [app List.find fst]. done.
Qed.

(** The opening handshake: a client dialling any URL the server can be reached by, with any random key, is accepted by
    this server, accepts its answer, and both sides go on with exactly the bytes the other sends after the handshake,
    however many of them have already arrived with it. *)
Theorem upgrade_agrees (io_text : IoKind -> bytes) (u : Uri) (key_bytes client_frames server_frames : bytes) :
  uri_wf u -> x3a ∉ host u -> dialable u -> length key_bytes = 16%nat ->
  dial io_text (fun _ => Ok (server_peer io_text server_frames)) key_bytes (url u) = Some (Ok server_frames) /\
  exists resp, serve_handshake io_text true (dial_request u (Base64.base64_encode key_bytes) ++ client_frames) = Some (Ok (resp, client_frames)).
Proof.
  intros Hw Hh Hd Hl. set (key := Base64.base64_encode key_bytes).
  assert (len key <= 64) as Hk by (unfold len, key; rewrite base64_length, Hl; vm_compute; discriminate).
  pose proof (base64_chars key_bytes) as Hc. fold key in Hc. split.
  - unfold dial. rewrite parse_url by done. cbn [connect_err map_err fbind]. unfold server_peer.
    rewrite <- (app_nil_r (dial_request u _)), serve_handshake_dial by done. rewrite upgrade_response_read.
    cbn [fmap option_fmap option_map connect_err map_err fbind]. fold key. change (negb (101 =? 101)) with false. cbv iota.
    set (acc := Ws.accept_key key). clearbody acc. unfold get. cbn [List.find fst].
    change (eq_ignore_ascii_case (b!"Upgrade") (b!"sec-websocket-accept")) with false.
    change (eq_ignore_ascii_case (b!"Connection") (b!"sec-websocket-accept")) with false.
    change (eq_ignore_ascii_case (b!"Sec-WebSocket-Accept") (b!"sec-websocket-accept")) with true. cbn [fmap option_fmap option_map snd].
    by rewrite bool_decide_true.
  - eexists. by apply serve_handshake_dial.
Qed.

Definition demo_uri : Uri := mkUri (b!"ws") (b!"example.org") 80 (b!"/chat") None.

Lemma upgrade_agrees_witness :
  dial (fun _ => []) (fun _ => Ok (server_peer (fun _ => []) (b!"frames"))) (replicate 16 x07) (b!"ws://example.org/chat") = Some (Ok (b!"frames")).
Proof.
  refine (proj1 (upgrade_agrees (fun _ => []) demo_uri (replicate 16 x07) [] (b!"frames") _ _ _ eq_refl)).
  - vm_compute. split_and!; try (done || set_solver || lia). 
  - vm_compute. set_solver.
  - vm_compute. split_and!; (done || set_solver || lia).
Defined.

(** The client's key is not checked for its format, nor the other headers of the upgrade request: a plain GET with any
    value in the key header is upgraded. *)
Example plain_request_upgraded (io_text : IoKind -> bytes) :
  let request := b!"POST /x HTTP/1.1" ++ CRLF ++ b!"Sec-WebSocket-Key: k" ++ CRLF ++ CRLF in
  serve_handshake io_text true request = Some (Ok (upgrade_response (b!"k"), [])).
Proof. reflexivity. Qed.

(** ** A connection's messages *)

Section SessionProofs.
Context {S : Type} (on_message : S -> Ws.Message -> S * option Ws.Message).

(** The handler on a sequence of messages: the state and the replies. *)
Fixpoint handle_all (s : S) (ms : list Ws.Message) : S * list Ws.Message :=
  match ms with
  | [] => (s, [])
  | m :: ms => let '(s, r) := on_message s m in let '(s, rs) := handle_all s ms in (s, option_list r ++ rs)
  end.

Lemma handle_all_app ms ms' s :
  handle_all s (ms ++ ms') = let '(s, rs) := handle_all s ms in let '(s, rs') := handle_all s ms' in (s, rs ++ rs').
Proof.
  revert s. induction ms as [|m ms IH]; intros s; cbn [app handle_all].
  - by destruct (handle_all s ms').
  - destruct (on_message s m) as [s1 r]. rewrite IH. destruct (handle_all s1 ms) as [s2 rs]. destruct (handle_all s2 ms') as [s3 rs'].
    by rewrite app_assoc.
Qed.

(** The messages among outgoing items. *)
Definition sent_messages (os : list Ws.Outgoing) : list Ws.Message := omap (fun o => match o with Ws.OMsg m => Some m | _ => None end) os.

Lemma sent_app os os' : sent_messages (os ++ os') = sent_messages os ++ sent_messages os'.
Proof. apply omap_app. Qed.

Lemma deliveries_cons e es : Ws.deliveries (e :: es) = match e with Ws.Deliver m => m :: Ws.deliveries es | _ => Ws.deliveries es end.
Proof. by destruct e. Qed.

(** The read loop sends no messages of its own on the outgoing channel. *)
Definition control (e : Ws.Event) : Prop := match e with Ws.Reply (Ws.OMsg _) => False | _ => True end.

Lemma read_loop_control max send_ok fuel : forall r frag sent es,
  Ws.read_loop max send_ok fuel r frag sent = Some es -> Forall control es.
Proof.
  induction fuel as [|fuel IH]; intros r frag sent es Hr; [done|]. cbn [Ws.read_loop] in Hr.
  destruct (Ws.read_frame r) as [[[f r']|e]|]; cbn [mbind option_bind] in Hr; [|by injection Hr as <-|done].
  destruct (Ws.on_frame max send_ok frag sent f) as [[frag' es1] go] eqn:Eo.
  assert (Forall control es1) as H1.
  { unfold Ws.on_frame in Eo. repeat case_match; simplify_eq; repeat constructor. }
  destruct go; [|by injection Hr as <-]. destruct (Ws.read_loop _ _ _ _ _ _) as [rest|] eqn:Er; [|done]. injection Hr as <-.
  apply Forall_app. split; [done|]. by eapply IH.
Qed.

(** What holds of every reachable state: the handled messages are those delivered first, the application state and the
    replies are those of the handler on them, and the messages on the wire are the replies made first. *)
Record session_inv (es : list Ws.Event) (s0 : S) (c : Session S) : Prop := {
  inv_control : Forall control (unread c);
  inv_read : exists lost, handled c ++ incoming c ++ Ws.deliveries (unread c) ++ lost = Ws.deliveries es /\ (main c <> Waiting -> lost = []);
  inv_handled : handle_all s0 (handled c) = (app_state c, replies c);
  inv_wire : exists lost, sent_messages (written c ++ outgoing c) ++ lost = replies c /\ (writing c = true -> lost = []);
}.

Lemma enqueue_sent w q wr o : control (Ws.Reply o) -> sent_messages (wr ++ enqueue w q o) = sent_messages (wr ++ q).
Proof. intros Ho. unfold enqueue. destruct w; [|done]. rewrite app_assoc, sent_app. destruct o; [done|by rewrite app_nil_r..]. Qed.

Lemma handled_one s0 h s r m s' o : handle_all s0 h = (s, r) -> on_message s m = (s', o) -> handle_all s0 (h ++ [m]) = (s', r ++ option_list o).
Proof. intros Hh Hm. rewrite handle_all_app, Hh. cbn [handle_all]. rewrite Hm. by rewrite app_nil_r. Qed.

Lemma sent_dropped wr q lost : exists lost', sent_messages wr ++ lost' = sent_messages (wr ++ q) ++ lost.
Proof. rewrite sent_app, <- app_assoc. eauto. Qed.

Ltac session_fields := cbn [handled incoming unread main app_state replies written outgoing writing] in *.

Lemma session_inv_step es s0 c c' : session_inv es s0 c -> faulty_step on_message c c' -> session_inv es s0 c'.
Proof.
  intros [Hc [lost [Hr Hl]] Hh [lw [Hw Hlw]]] Hst.
  destruct Hst as [Hst|Hst]; destruct Hst; session_fields; rewrite ?deliveries_cons in Hr; try (apply Forall_cons in Hc as [Hc1 Hc2]); (split; session_fields; [done|..]).
  all: try exact Hh; try (by exists lost); try (by exists lw).
  - exists lost. split; [|done]. by rewrite <- Hr, <- !app_assoc.
  - exists lw. by rewrite enqueue_sent.
  - exists lost. split; [|done]. by rewrite <- Hr, <- !app_assoc.
  - rewrite <- (app_nil_r r). by apply (handled_one s0 h s r m s' None).
  - exists lost. split; [|done]. by rewrite <- Hr, <- !app_assoc.
  - by apply (handled_one s0 h s r m s' (Some reply)).
  - exists []. split; [|done]. rewrite Hlw, app_nil_r in Hw by done. by rewrite app_assoc, sent_app, Hw, app_nil_r.
  - exists lost. split; [|intros _; by apply Hl]. by rewrite <- Hr, <- !app_assoc.
  - by apply (handled_one s0 h s r m s' (Some reply)).
  - exists (lw ++ [reply]). split; [|done]. by rewrite app_assoc, Hw.
  - exists lost. split; [done|intros _; by apply Hl].
  - exists (Ws.deliveries es0 ++ lost). done.
  - exists lw. by rewrite enqueue_sent.
  - exists lw. by rewrite <- app_assoc.
  - destruct (sent_dropped (wr ++ [Ws.OClose]) out lw) as [lost' E]. exists lost'. split; [|done]. rewrite app_nil_r, E, <- app_assoc. exact Hw.
  - destruct (sent_dropped wr out lw) as [lost' E]. exists lost'. split; [|done]. by rewrite app_nil_r, E.
Qed.

Lemma session_inv_start es s0 : Forall control es -> session_inv es s0 (session_start es s0).
Proof. intros Hc. split; cbn; [done| |done|by exists []]. exists []. by rewrite app_nil_r. Qed.

(** Rule induction on runs, beside the invariant every run has. *)
Lemma run_inv (P : Session S -> Prop) es s0 c :
  Forall control es -> P (session_start es s0) ->
  (forall c c', session_inv es s0 c -> P c -> faulty_step on_message c c' -> P c') ->
  rtc (faulty_step on_message) (session_start es s0) c -> session_inv es s0 c /\ P c.
Proof.
  intros Hc H0 HP Hr. pose proof (session_inv_start es s0 Hc) as Hi. revert Hi H0.
  induction Hr as [|c1 c2 c3 Hs _ IH]; [done|]. intros Hi H0. apply IH; [by eapply session_inv_step|by eapply HP].
Qed.

(** *** No reply is abandoned unnoticed *)

(** The handler stops receiving with everything handled, or because a reply could not be sent. *)
Definition abandon_inv (es : list Ws.Event) (c : Session S) : Prop :=
  main c <> Receiving ->
  (unread c = [] /\ incoming c = [] /\ handled c = Ws.deliveries es) \/
  (length (sent_messages (written c ++ outgoing c)) < length (replies c))%nat.

Lemma replies_on_wire es s0 c : session_inv es s0 c -> (length (sent_messages (written c ++ outgoing c)) <= length (replies c))%nat.
Proof. intros [_ _ _ [lw [<- _]]]. rewrite length_app. lia. Qed.

Lemma abandon_inv_step es s0 c c' : session_inv es s0 c -> abandon_inv es c -> faulty_step on_message c c' -> abandon_inv es c'.
Proof.
  intros Hi Ha Hst. pose proof (replies_on_wire es s0 c Hi) as Hlen. destruct Hi as [Hc [lost [Hr Hl]] _ _]. unfold abandon_inv in *.
  destruct Hst as [Hst|Hst]; destruct Hst; session_fields; try (intros Hm; by destruct (Hm eq_refl)); try intros Hm.
  - by destruct (Ha Hm) as [(? & _)|?]; [|right].
  - apply Forall_cons in Hc as [Hc _]. rewrite enqueue_sent by done. by destruct (Ha Hm) as [(? & _)|?]; [|right].
  - right. rewrite length_app. cbn. lia.
  - left. rewrite (Hl ltac:(done)) in Hr. cbn in Hr. by rewrite app_nil_r in Hr.
  - rewrite enqueue_sent by done. destruct (Ha ltac:(done)) as [(_ & ? & ?)|?]; [by left|by right].
  - rewrite <- app_assoc. by apply Ha.
  - rewrite app_nil_r. destruct (Ha Hm) as [?|Hlt]; [by left|right].
    rewrite sent_app, length_app in *. cbn in *. lia.
  - rewrite app_nil_r. destruct (Ha Hm) as [?|Hlt]; [by left|right]. rewrite sent_app, length_app in Hlt. lia.
Qed.

(** *** The close frame *)

(** While the handler waits for a running writer, a close frame is on its way. *)
Definition wait_inv (c : Session S) : Prop := main c = Waiting -> writing c = true -> Ws.OClose ∈ outgoing c.

Lemma wait_inv_step c c' : wait_inv c -> faulty_step on_message c c' -> wait_inv c'.
Proof.
  unfold wait_inv. intros Hw [Hst|Hst]; destruct Hst; session_fields; intros Hm Hwr; simplify_eq; try specialize (Hw eq_refl eq_refl);
    cbn [enqueue]; set_solver.
Qed.

(** A writer that no fault has stopped has written the close frame last. *)
Definition stop_inv (c : Session S) : Prop := writing c = false -> last (written c) = Some Ws.OClose.

Lemma stop_inv_step c c' : stop_inv c -> step on_message c c' -> stop_inv c'.
Proof. unfold stop_inv. intros Hw Hst. destruct Hst; session_fields; try done; intros _. apply last_snoc. Qed.

Lemma stop_inv_run es s0 c : rtc (step on_message) (session_start es s0) c -> stop_inv c.
Proof.
  assert (stop_inv (session_start es s0)) as H0 by done. revert H0. generalize (session_start es s0). intros c0 H0 Hr.
  revert H0. induction Hr as [|c1 c2 c3 Hs _ IH]; [done|]. intros H0. apply IH. by eapply stop_inv_step.
Qed.

(** *** A peer that does not close first *)

Definition healthy (c : Session S) : Prop := writing c = true \/ Ws.OClose ∈ written c.

Record close_inv (es : list Ws.Event) (c : Session S) : Prop := {
  close_unread : Ws.Reply Ws.OClose ∉ unread c;
  close_stopped : writing c = false -> outgoing c = [];
  close_outgoing : Ws.OClose ∈ outgoing c -> main c = Waiting /\ exists l, outgoing c = l ++ [Ws.OClose] /\ Ws.OClose ∉ l;
  close_written : Ws.OClose ∈ written c ->
    writing c = false /\ main c = Waiting /\ last (written c) = Some Ws.OClose /\ sent_messages (written c) = replies c;
  close_handled : healthy c -> main c <> Receiving -> unread c = [] /\ incoming c = [] /\ handled c = Ws.deliveries es;
}.

Lemma enqueue_elem w q o x : x ∈ enqueue w q o -> x <> o -> x ∈ q.
Proof. unfold enqueue. destruct w; set_solver. Qed.

Lemma close_inv_step es s0 c c' : session_inv es s0 c -> close_inv es c -> faulty_step on_message c c' -> close_inv es c'.
Proof.
  intros Hi Hc Hst. destruct Hi as [_ [lost [Hr Hl]] _ [lw [Hw Hlw]]]. destruct Hc as [Hu Hs Ho Hwr Hh]. unfold healthy in *.
  destruct Hst as [Hst|Hst]; destruct Hst; session_fields; rewrite ?not_elem_of_cons in Hu.
  - split; session_fields; [by destruct Hu|done|done|done|]. intros H1 H2. by destruct (Hh H1 H2).
  - assert (o <> Ws.OClose) as Hne by (intros ->; by destruct Hu).
    assert (w = true \/ Ws.OClose ∈ wr -> mn = Receiving) as Hmn.
    { intros Hw'. destruct mn; [done|..]; by destruct (Hh Hw' ltac:(done)). }
    split; session_fields; [by destruct Hu|intros ->; cbn; by apply Hs|..].
    + intros Hin%enqueue_elem; [|congruence]. destruct (Ho Hin) as [-> _]. destruct w; [by specialize (Hmn (or_introl eq_refl))|].
      rewrite Hs in Hin by done. by apply elem_of_nil in Hin.
    + intros Hin. destruct (Hwr Hin) as (_ & -> & _). by specialize (Hmn (or_intror Hin)).
    + intros H1 H2. by rewrite (Hmn H1) in H2.
  - split; session_fields; [done|done|by intros (? & _)%Ho|by intros (_ & ? & _)%Hwr|done].
  - split; session_fields; [done|done| |by intros (_ & ? & _)%Hwr|done]. intros [Hin|Hin]%elem_of_app; [by destruct (Ho Hin)|set_solver].
  - split; session_fields; [done|done|by intros (? & _)%Ho|by intros (_ & ? & _)%Hwr|]. by intros [|(_ & ? & _)%Hwr].
  - split; session_fields; [done|done|by intros (? & _)%Ho|by intros (_ & ? & _)%Hwr|]. intros _ _. split_and!; [done|done|].
    rewrite (Hl ltac:(done)) in Hr. cbn in Hr. by rewrite app_nil_r in Hr.
  - split; session_fields; [set_solver|intros ->; cbn; by apply Hs| |by intros (_ & ? & _)%Hwr|].
    + intros Hin. split; [done|]. destruct w; cbn in *; [|rewrite Hs in Hin by done; by apply elem_of_nil in Hin].
      exists out. split; [done|]. intros (? & _)%Ho. done.
    + intros H1 _. destruct (Hh H1 ltac:(done)) as (_ & ? & ?). done.
  - split; session_fields; [done|done| | |].
    + intros Hin. destruct (Ho ltac:(set_solver)) as (-> & l & El & Hnl). split; [done|]. destruct l as [|o' l]; [injection El as -> ->; set_solver|].
      injection El as -> ->. exists l. split; [done|set_solver].
    + intros [Hin|Hin]%elem_of_app; [by destruct (Hwr Hin)|set_solver].
    + intros _ H2. by apply Hh; [left|].
  - destruct (Ho ltac:(set_solver)) as (-> & l & El & Hnl).
    assert (out = []) as ->. { destruct l as [|o' l]; [by injection El|]. injection El as <- _. set_solver. }
    split; session_fields; [done|done|set_solver| |].
    + intros _. split_and!; [done|done|apply last_snoc|]. rewrite <- Hw, Hlw, app_nil_r by done. done.
    + intros _ H2. by apply Hh; [left|].
  - split; session_fields; [done|done|set_solver|by intros (? & _)%Hwr|]. by intros [|(? & _)%Hwr].
Qed.

(** *** Every run ends *)

Definition main_weight (m : Main) : nat := match m with Receiving => 4 | Closing => 3 | Waiting => 0 end.

(** Decreases with every step. *)
Definition weight (c : Session S) : nat :=
  3 * length (unread c) + 2 * length (incoming c) + length (outgoing c) + main_weight (main c) + (if writing c then 1 else 0).

Lemma enqueue_length w q o : (length (enqueue w q o) <= 1 + length q)%nat.
Proof. unfold enqueue. destruct w; rewrite ?length_app; cbn; lia. Qed.

Lemma weight_decreases c c' : faulty_step on_message c c' -> (weight c' < weight c)%nat.
Proof.
  intros [Hst|Hst]; destruct Hst; unfold weight; session_fields; cbn [length main_weight]; rewrite ?length_app; cbn [length];
    try pose proof (enqueue_length w out o); try pose proof (enqueue_length w out Ws.OClose); repeat case_match; lia.
Qed.

Lemma run_length es s0 n c : nsteps (faulty_step on_message) n (session_start es s0) c -> (n <= 3 * length es + 5)%nat.
Proof.
  intros Hn. assert (n + weight c <= weight (session_start es s0))%nat; [|cbn in *; lia].
  induction Hn as [|n c1 c2 c3 Hs _ IH]; [lia|]. apply weight_decreases in Hs. lia.
Qed.

(** A connection with nothing left to do by itself has ended: the close frame the handler queued is what stops the writer. *)
Lemma stuck_ended c : wait_inv c -> (forall c', ~ step on_message c c') -> ended c.
Proof.
  intros Hw Hst. destruct c as [u i o wr w mn s h r]. destruct mn.
  - exfalso. destruct u as [|[m|o'] u]; [|eapply Hst, read_deliver|eapply Hst, read_reply].
    destruct i as [|m i]; [eapply Hst, channel_closed|]. destruct (on_message s m) as [s' [reply|]] eqn:E; [|eapply Hst; by eapply handle_silent].
    destruct w; eapply Hst; [by eapply handle_reply|by eapply handle_unsent].
  - exfalso. eapply Hst, close.
  - destruct w; [exfalso|done]. specialize (Hw eq_refl eq_refl). cbn [outgoing] in Hw. destruct o as [|o out]; [by apply elem_of_nil in Hw|].
    destruct o; eapply Hst; first [apply write_close|by apply write].
Qed.
End SessionProofs.

(** C22 A connection of the server, in every interleaving of its read loop, handler and write loop, the connection breaking
    under the writer at any point or never, and the peer closing first or not: the messages handled are the delivered
    ones in order, each once; the application's state is the handler's on them; what has been written of replies is a
    prefix of those it returned, in order.  A run has at most three steps for each event of the read loop and five more,
    and can only stop with the handler loop finished and the writer stopped; then every delivered message has been
    handled, unless a reply of the handler was not written.  If the connection never broke, the close frame was written,
    last; if moreover the peer did not close first, every delivered message was handled and every reply written before
    it.  (When the peer closes first the writer answers with the close at once, and replies made later are dropped.) *)
Theorem ws_session {S} (on_message : S -> Ws.Message -> S * option Ws.Message) (max : option nat) (send_ok : nat -> bool) (fuel : nat)
  (r : Ws.Reader) (es : list Ws.Event) (s0 : S) (n : nat) (c : Session S) :
  Ws.read_loop max send_ok fuel r None 0 = Some es ->
  nsteps (faulty_step on_message) n (session_start es s0) c ->
  handled c `prefix_of` Ws.deliveries es /\ handle_all on_message s0 (handled c) = (app_state c, replies c) /\
  sent_messages (written c) `prefix_of` replies c /\
  (n <= 3 * length es + 5)%nat /\
  ((forall c', ~ step on_message c c') ->
     ended c /\
     (sent_messages (written c) = replies c -> handled c = Ws.deliveries es) /\
     (rtc (step on_message) (session_start es s0) c ->
        last (written c) = Some Ws.OClose /\
        (Ws.Reply Ws.OClose ∉ es -> handled c = Ws.deliveries es /\ sent_messages (written c) = replies c))).
Proof.
  intros Hes%read_loop_control Hn.
  assert (rtc (faulty_step on_message) (session_start es s0) c) as Hr by (apply rtc_nsteps; eauto).
  destruct (run_inv on_message wait_inv es s0 c Hes) as [Hi Hw]; [intros [=]|intros ???; apply wait_inv_step|done|].
  destruct (run_inv on_message (abandon_inv es) es s0 c Hes) as [_ Ha]; [intros Hm; by destruct (Hm eq_refl)|intros ??; by apply abandon_inv_step|done|].
  pose proof Hi as [_ [lost [Hd _]] Hh [lw [Hwi _]]]. split_and!.
  - exists (incoming c ++ Ws.deliveries (unread c) ++ lost). done.
  - done.
  - rewrite <- Hwi, sent_app, <- app_assoc. by eexists.
  - by eapply run_length.
  - intros Hst. pose proof (stuck_ended on_message c Hw Hst) as He. split; [done|]. destruct He as [Hm Hwr]. split.
    + intros Heq. destruct (Ha ltac:(by rewrite Hm)) as [(_ & _ & ?)|Hlt]; [done|].
      rewrite sent_app, length_app, Heq in Hlt. lia.
    + intros Hrun. assert (last (written c) = Some Ws.OClose) as Hla.
      { by apply (stop_inv_run on_message es s0 c). }
      split; [done|]. intros Hnc. apply last_Some in Hla as [l Hl].
      destruct (run_inv on_message (close_inv es) es s0 c Hes) as [_ [_ _ _ H4 H5]]; [|intros ??; apply close_inv_step|done|].
      { split; cbn; [done|done|set_solver|set_solver|done]. }
      assert (Ws.OClose ∈ written c) as Hcl by (rewrite Hl; set_solver).
      destruct (H4 Hcl) as (_ & _ & _ & Hse). destruct (H5 (or_intror Hcl)) as (_ & _ & ?); [by rewrite Hm|]. done.
Qed.

Definition echo (s : nat) (m : Ws.Message) : nat * option Ws.Message := (Datatypes.S s, Some m).

(** A text frame "hi", then the end of the stream. *)
Definition demo_reader : Ws.Reader := Ws.new [[x81; x02; x68; x69]] [] None.

Lemma ws_session_witness :
  exists c : Session nat, ended c /\ handled c = [Ws.MText (b!"hi")] /\ written c = [Ws.OMsg (Ws.MText (b!"hi")); Ws.OClose].
Proof.
  set (hi := Ws.MText (b!"hi")). set (c := mkSession [] [] [] [Ws.OMsg hi; Ws.OClose] false Waiting 1%nat [hi] [hi]).
  assert (nsteps (step echo) 6 (session_start [Ws.Deliver hi] 0%nat) c) as Hn.
  { eapply nsteps_l; [apply read_deliver|]. eapply nsteps_l; [by eapply handle_reply|]. eapply nsteps_l; [apply channel_closed|].
    eapply nsteps_l; [apply close|]. cbn. eapply nsteps_l; [by apply write|]. eapply nsteps_l; [apply write_close|]. constructor. }
  assert (nsteps (faulty_step echo) 6 (session_start [Ws.Deliver hi] 0%nat) c) as Hf.
  { clear -Hn. induction Hn; [constructor|eapply nsteps_l; [by left|done]]. }
  destruct (ws_session echo None (fun _ => true) 10 demo_reader [Ws.Deliver hi] 0%nat 6 c eq_refl Hf) as (_ & _ & _ & _ & H).
  destruct H as (He & _ & H); [intros c' Hst; inversion Hst|]. destruct H as (_ & H); [apply rtc_nsteps; by exists 6%nat|].
  destruct H as (Hh & _); [set_solver|]. exists c. split; [exact He|]. split; [exact Hh|done].
Defined.

(** A peer that closes right after a message may get the close before the reply, which is then never written. *)
Example reply_lost_on_peer_close :
  let hi := Ws.MText (b!"hi") in
  exists c : Session nat, rtc (step echo) (session_start [Ws.Deliver hi; Ws.Reply Ws.OClose] 0%nat) c /\ ended c /\
    written c = [Ws.OClose] /\ replies c = [hi].
Proof.
  intros hi. eexists. split; [|split; [|split]].
  - eapply rtc_l; [apply read_deliver|]. eapply rtc_l; [apply read_reply|]. cbn. eapply rtc_l; [by eapply handle_reply|].
    eapply rtc_l; [apply write_close|]. eapply rtc_l; [apply channel_closed|]. eapply rtc_l; [apply close|]. apply rtc_refl.
  - done.
  - done.
  - done.
Qed.

(** ** The accept loop *)

Lemma accept_accounted st :
  rtc Accept.step Accept.init st ->
  Accept.available st + Accept.live st + Accept.held (Accept.phase st) = MAX_CONNECTIONS /\ 0 <= Accept.available st /\ 0 <= Accept.live st.
Proof.
  intros Hr. assert (Accept.available Accept.init + Accept.live Accept.init + Accept.held (Accept.phase Accept.init) = MAX_CONNECTIONS /\
    0 <= Accept.available Accept.init /\ 0 <= Accept.live Accept.init) as Hi by done.
  revert Hi. induction Hr as [|s1 s2 s3 Hs _ IH]; [done|]. intros Hi. apply IH.
  destruct Hs; cbn [Accept.available Accept.live Accept.phase Accept.held] in *; lia.
Qed.

(** The accept loop never serves more than [MAX_CONNECTIONS] connections, waits for a permit only when that many are
    served, and when it has returned every permit not held by a connection is back. *)
Theorem accept_bounded (st : Accept.State) :
  rtc Accept.step Accept.init st ->
  0 <= Accept.live st <= MAX_CONNECTIONS /\
  (Accept.phase st = Accept.Acquiring -> (forall st', ~ Accept.step st st' \/ Accept.live st' < Accept.live st) -> Accept.live st = MAX_CONNECTIONS) /\
  (Accept.phase st = Accept.Returned -> Accept.available st = MAX_CONNECTIONS - Accept.live st).
Proof.
  intros Hr. destruct (accept_accounted st Hr) as (Ha & H1 & H2). destruct st as [a l p]. cbn [Accept.available Accept.live Accept.phase] in *.
  assert (0 <= Accept.held p) by (by destruct p). split_and!; [lia|lia| |].
  - intros -> Hst. cbn in Ha. destruct (decide (0 < a)) as [Hlt|]; [|lia]. exfalso.
    destruct (Hst (Accept.mkState (a - 1) l Accept.Accepting)) as [Hno|Hlt']; [apply Hno; by constructor|cbn in Hlt'; lia].
  - intros ->. cbn in Ha. lia.
Qed.

Lemma accept_bounded_witness : 0 <= Accept.live (Accept.mkState 1023 1 Accept.Acquiring) <= MAX_CONNECTIONS.
Proof.
  apply (accept_bounded (Accept.mkState 1023 1 Accept.Acquiring)).
  eapply rtc_l; [by apply Accept.acquire|]. eapply rtc_l; [apply Accept.accept_ok|]. apply rtc_refl.
Defined.

(** At capacity the loop waits for a permit without watching the shutdown signal: until a connection ends it cannot
    return, and [stop], which waits for it, does not either. *)
Example shutdown_waits_for_permit st :
  Accept.step (Accept.mkState 0 MAX_CONNECTIONS Accept.Acquiring) st -> Accept.live st = MAX_CONNECTIONS - 1.
Proof. intros Hst. inversion Hst; subst; [lia|done]. Qed.
