(* ===== verification/Transfer.v ===== *)
(** * TLS material, connecting and resumable downloads ([http/transport.rs], [http/download.rs])

    PEM and base64 decoding, the construction of a TLS configuration and of a connection over what rustls and the
    sockets do (arguments), and the resumable download over a file and the answers of the HTTP client. *)

From S2P Require Import Prelude Text Scan Auth HttpCore HttpServer HttpClient Upgrade.

Open Scope Z_scope.
Import HttpCore HttpServer HttpClient.

(** ** Standard base64 *)

Module Pem.
Import Base64.

Definition is_ascii_whitespace (b : byte) : bool := bool_decide (b ∈ [x20; x09; x0a; x0c; x0d]).

(** The inner function [val] of [base64_std_decode]. *)
Definition val (c : byte) : option Z :=
  let z := b2z c in
  if (65 <=? z) && (z <=? 90) then Some (z - 65)
  else if (97 <=? z) && (z <=? 122) then Some (z - 97 + 26)
  else if (48 <=? z) && (z <=? 57) then Some (z - 48 + 52)
  else if z =? 43 then Some 62
  else if z =? 47 then Some 63
  else None.

Fixpoint word_of (n : Z) (chunk : bytes) : option Z :=
  match chunk with
  | [] => Some n
  | c :: chunk' => v ← val c; word_of (Z.lor (wrap32 (Z.shiftl n 6)) v) chunk'
  end.

Definition decode_chunk (chunk : bytes) : option bytes :=
  n ← word_of 0 chunk;
  let n := wrap32 (Z.shiftl n (6 * (4 - Z.of_nat (length chunk)))) in
  match length chunk with
  | 4%nat => Some [z2b (Z.shiftr n 16); z2b (Z.shiftr n 8); z2b n]
  | 3%nat => Some [z2b (Z.shiftr n 16); z2b (Z.shiftr n 8)]
  | 2%nat => Some [z2b (Z.shiftr n 16)]
  | _ => None
  end.

Fixpoint decode_chunks (out : bytes) (cs : list bytes) : option bytes :=
  match cs with
  | [] => Some out
  | c :: cs' => d ← decode_chunk c; decode_chunks (out ++ d) cs'
  end.

Definition base64_std_decode (input : bytes) : option bytes :=
  decode_chunks [] (chunks 4 (List.filter (fun b => negb (is_ascii_whitespace b) && negb (bool_decide (b = x3d))) input)).

(** ** PEM blocks *)

Fixpoint drop_dashes (s : bytes) : bytes :=
  match s with
  | c :: s' => if bool_decide (c = x2d) then drop_dashes s' else s
  | [] => []
  end.
(** [rest.trim_end_matches('-').trim()] *)
Definition block_label (rest : bytes) : bytes := trim (rev (drop_dashes (rev rest))).

Definition push_block (out : list (bytes * bytes)) (label body : bytes) : list (bytes * bytes) :=
  match base64_std_decode body with Some der => out ++ [(label, der)] | None => out end.

(** The two nested loops of [pem_blocks], inside a block when [st] is its label and the body so far. *)
Fixpoint pem_loop (lines : list bytes) (st : option (bytes * bytes)) (out : list (bytes * bytes)) : list (bytes * bytes) :=
  match lines with
  | [] => match st with Some (label, body) => push_block out label body | None => out end
  | l :: lines =>
      let l := trim l in
      match st with
      | None =>
          match strip_prefix l (b!"-----BEGIN ") with
          | Some rest => pem_loop lines (Some (block_label rest, [])) out
          | None => pem_loop lines None out
          end
      | Some (label, body) =>
          if starts_with l (b!"-----END ") then pem_loop lines None (push_block out label body)
          else pem_loop lines (Some (label, body ++ l)) out
      end
  end.

Definition pem_blocks (pem : bytes) : list (bytes * bytes) := pem_loop (str_lines (Utf8.from_utf8_lossy pem)) None [].

(** [TlsConfig]: rustls's key parser and configuration builder are arguments, their errors as text. *)
Section TlsConfig.
Context {Key Config : Type} (parse_key : bytes -> Result Key bytes) (build : list bytes -> Key -> Result Config bytes).

Definition from_der (cert_chain : list bytes) (key : bytes) : Result Config HttpError :=
  if bool_decide (cert_chain = []) then Err (Tls (b!"empty certificate chain"))
  else
    let? key := map_err Tls (parse_key key) in
    map_err Tls (build cert_chain key).

Definition is_key_label (label : bytes) : bool := bool_decide (label ∈ [b!"PRIVATE KEY"; b!"RSA PRIVATE KEY"; b!"EC PRIVATE KEY"]).

Definition from_pem (cert_pem key_pem : bytes) : Result Config HttpError :=
  let certs := map snd (List.filter (fun b => bool_decide (fst b = b!"CERTIFICATE")) (pem_blocks cert_pem)) in
  let? key := ok_or (snd <$> List.find (fun b => is_key_label (fst b)) (pem_blocks key_pem)) (Tls (b!"no private-key PEM block found")) in
  from_der certs key.
End TlsConfig.
End Pem.

(** ** Connecting *)

Module Transport.
Section Transport.
Context {Tcp Conn Name : Type} (tcp_connect : bytes -> Z -> Result Tcp IoKind) (server_name : bytes -> Result Name bytes)
  (client_tls : Name -> Tcp -> Result Conn bytes) (server_tls : Tcp -> Result Conn bytes) (plain : Tcp -> Conn).

(** [connect] *)
Definition connect (u : Uri) : Result Conn HttpError :=
  let? tcp := map_err Io (tcp_connect (host u) (port u)) in
  if is_tls u then
    let? name := map_err Tls (server_name (host u)) in
    map_err Tls (client_tls name tcp)
  else Ok (plain tcp).

(** [accept_tls] *)
Definition accept_tls (tcp : Tcp) : Result Conn HttpError := map_err Tls (server_tls tcp).
End Transport.
End Transport.

(** ** Downloads *)

Module Download.

(** What becomes of reading and writing one chunk of a response body: it is written, writing it fails after some bytes,
    or reading fails. *)
Inductive ChunkEvent := Written (c : bytes) | WriteFailed (c : bytes) (n : nat) (e : IoKind) | ReadFailed (e : HttpError).

(** The answer to a request: a status and what becomes of the body, or an error. *)
Definition Answer : Type := Result (StatusCode * list ChunkEvent) HttpError.

(** The loop over the chunks: the file, the total and the result. *)
Fixpoint copy_loop (es : list ChunkEvent) (file : bytes) (total : Z) : Result Z HttpError * bytes :=
  match es with
  | [] => (Ok total, file)
  | Written c :: es => copy_loop es (file ++ c) (wrap64 (total + len c))
  | WriteFailed c n e :: _ => (Err (Io e), file ++ take n c)
  | ReadFailed e :: _ => (Err e, file)
  end.

Definition PARTIAL_CONTENT : StatusCode := 206.
Definition RANGE_NOT_SATISFIABLE : StatusCode := 416.

(** The request for [url], from byte [existing] on. *)
Definition download_request (url : bytes) (existing : Z) : Result Request HttpError :=
  let? r := builder Get url in
  Ok (if 0 <? existing then range r existing None else r).

Section Download.
(** How opening a missing file for appending fails; opening it otherwise does not. *)
Context (not_found : IoKind).

(** [download_to_file] on the file at the path, if there is one. *)
Definition download_to_file (send : Request -> Answer) (url : bytes) (file : option bytes) : Result Z HttpError * option bytes :=
  let existing := match file with Some f => len f | None => 0 end in
  match download_request url existing with
  | Err e => (Err e, file)
  | Ok req =>
      match send req with
      | Err e => (Err e, file)
      | Ok (status, es) =>
          if status =? PARTIAL_CONTENT then
            match file with
            | Some f => let '(r, f) := copy_loop es f existing in (r, Some f)
            | None => (Err (Io not_found), None)
            end
          else if status =? RANGE_NOT_SATISFIABLE then (Ok existing, file)
          else if (200 <=? status) && (status <? 300) then let '(r, f) := copy_loop es [] 0 in (r, Some f)
          else (Err (Protocol (b!"unexpected status " ++ show_uint status ++ b!" downloading " ++ url)), file)
      end
  end.
End Download.
End Download.

Import Pem Transport Download.

(** ** Base64 and PEM round trips *)

Lemma val_to_url c : c ∈ Base64.CHARS -> val c = Base64.val (to_url c).
Proof.
  intros Hc. assert (forallb (fun c => bool_decide (val c = Base64.val (to_url c))) Base64.CHARS = true) as Hall by (vm_compute; reflexivity).
  rewrite forallb_forall in Hall. specialize (Hall c). rewrite <- list_elem_of_In, bool_decide_eq_true in Hall. by apply Hall.
Qed.

Lemma word_of_to_url c : forall n, Forall (fun b => b ∈ Base64.CHARS) c -> word_of n c = Base64.word_of n (map to_url c).
Proof.
  induction c as [|b c IH]; intros n Hc; [done|]. apply Forall_cons in Hc as [Hb Hc]. cbn [word_of map Base64.word_of].
  rewrite <- val_to_url by done. destruct (val b); [|done]. by apply IH.
Qed.

Lemma decode_to_url cs : forall out, Forall (Forall (fun b => b ∈ Base64.CHARS)) cs ->
  decode_chunks out cs = Base64.decode_chunks out (map (map to_url) cs).
Proof.
  induction cs as [|c cs IH]; intros out Hc; [done|]. apply Forall_cons in Hc as [Hc Hcs].
  cbn [decode_chunks map Base64.decode_chunks]. unfold decode_chunk, Base64.decode_chunk. rewrite word_of_to_url, length_map by done.
  destruct (Base64.word_of 0 (map to_url c)); [|done]. cbn [mbind option_bind]. repeat case_match; try done; cbn; by apply IH.
Qed.

Lemma chunks_aux_map {A B} (f : A -> B) n fuel : forall l, chunks_aux fuel n (map f l) = map (map f) (chunks_aux fuel n l).
Proof.
  induction fuel as [|fuel IH]; intros l; [done|]. destruct l as [|x l]; [done|]. cbn [map chunks_aux]. f_equal.
  - by rewrite <- firstn_map.
  - rewrite <- IH. f_equal. change (f x :: map f l) with (map f (x :: l)). by rewrite skipn_map.
Qed.

Lemma chunks_map {A B} (f : A -> B) n l : chunks n (map f l) = map (map f) (chunks n l).
Proof. unfold chunks. rewrite length_map. apply chunks_aux_map. Qed.

Lemma chunks_forall {A} (P : A -> Prop) n l : (0 < n)%nat -> Forall P l -> Forall (Forall P) (chunks n l).
Proof.
  intros Hn Hl. rewrite <- (concat_chunks n l Hn) in Hl. revert Hl. generalize (chunks n l) as cs. induction cs as [|c cs IH]; [constructor|].
  cbn [concat]. rewrite Forall_app. intros [? ?]. constructor; auto.
Qed.

Lemma std_digits s : Forall (fun c => b64_char c = true) s ->
  let kept := List.filter (fun b => negb (is_ascii_whitespace b) && negb (bool_decide (b = x3d))) s in
  Forall (fun b => b ∈ Base64.CHARS) kept /\ map to_url kept = List.filter (fun b => negb (bool_decide (b = x3d))) (map to_url s).
Proof.
  assert (forallb (fun c => negb (is_ascii_whitespace c) && negb (bool_decide (c = x3d)) && negb (bool_decide (to_url c = x3d))) Base64.CHARS = true)
    as Hall by (vm_compute; reflexivity). rewrite forallb_forall in Hall.
  induction s as [|c s IH]; intros Hs; [done|]. apply Forall_cons in Hs as [Hc Hs]. destruct (IH Hs) as [IH1 IH2].
  apply bool_decide_eq_true, elem_of_cons in Hc as [->|Hc]; [done|]. cbn [List.filter map].
  specialize (Hall c). rewrite <- list_elem_of_In in Hall. specialize (Hall Hc). apply andb_true_iff in Hall as [H1 H2]. rewrite H1, H2.
  cbn [map]. split; [by constructor|by f_equal].
Qed.

Lemma std_decode_encode der : base64_std_decode (Base64.base64_encode der) = Some der.
Proof.
  destruct (std_digits _ (base64_chars der)) as [Hc Hm]. unfold base64_std_decode. set (kept := List.filter _ _) in *.
  rewrite decode_to_url by (apply chunks_forall; [lia|done]). rewrite <- chunks_map, Hm.
  pose proof (base64_encode_chunks (chunks 3 der) [] (chunks_sizes 3 der ltac:(lia))) as [_ HF]. unfold Base64.base64_encode. rewrite HF.
  apply (decode_chunks_encoded der []).
Qed.

(** A PEM file: blocks with their base64 text cut into lines, and other lines between them. *)
Inductive PemItem := Block (label der : bytes) | Comment (line : bytes).

Definition item_lines (width : nat) (i : PemItem) : list bytes :=
  match i with
  | Block label der =>
      (b!"-----BEGIN " ++ label ++ b!"-----") :: chunks width (Base64.base64_encode der) ++ [b!"-----END " ++ label ++ b!"-----"]
  | Comment line => [line]
  end.

Definition item_block (i : PemItem) : list (bytes * bytes) := match i with Block label der => [(label, der)] | Comment _ => [] end.

(** A label without surrounding space or trailing dash; a comment that begins no block; both single lines. *)
Definition item_ok (i : PemItem) : Prop :=
  match i with
  | Block label _ => trim label = label /\ last label <> Some x2d /\ x0a ∉ label /\ x0d ∉ label
  | Comment line => strip_prefix (trim line) (b!"-----BEGIN ") = None /\ x0a ∉ line /\ x0d ∉ line
  end.

Lemma dashes_trimmed (p w : bytes) : head p = Some x2d -> trim (p ++ w ++ b!"-----") = p ++ w ++ b!"-----".
Proof.
  intros Hp. destruct p as [|c p]; [done|]. injection Hp as ->. unfold trim. cbn [app]. rewrite trim_start_solid by done.
  change (b!"-----") with (b!"----" ++ [x2d]). rewrite !app_assoc, (app_comm_cons _ _ x2d). by apply trim_end_solid.
Qed.

Lemma block_label_spec label : trim label = label -> last label <> Some x2d -> block_label (label ++ b!"-----") = label.
Proof.
  intros Ht Hl. unfold block_label. rewrite rev_app_distr. change (rev (b!"-----")) with (b!"-----"). cbn [app].
  destruct (rev label) as [|c l] eqn:E.
  - apply (f_equal (@rev byte)) in E. rewrite rev_involutive in E. by subst.
  - assert (label = rev l ++ [c]) as El by (rewrite <- (rev_involutive label), E; done).
    assert (c <> x2d) as Hc by (intros ->; apply Hl; rewrite El; apply last_snoc).
    change (drop_dashes (b!"-----" ++ c :: l)) with (drop_dashes (c :: l)). cbn [drop_dashes]. rewrite bool_decide_false by done.
    rewrite <- E, rev_involutive. done.
Qed.

Lemma pem_body label ls : forall rest body out,
  Forall (Forall (fun c => b64_char c = true)) ls ->
  pem_loop (ls ++ rest) (Some (label, body)) out = pem_loop rest (Some (label, body ++ concat ls)) out.
Proof.
  induction ls as [|l ls IH]; intros rest body out Hl; cbn [app concat]; [by rewrite app_nil_r|]. apply Forall_cons in Hl as [Hl Hls].
  cbn [pem_loop]. destruct (b64_text l Hl) as (_ & -> & _).
  assert (starts_with l (b!"-----END ") = false) as ->.
  { destruct l as [|c l]; [done|]. apply Forall_cons in Hl as [Hc _]. change (b!"-----END ") with (x2d :: b!"----END "). cbn [starts_with].
    destruct (decide (c = x2d)) as [->|Hne]; [done|]. by rewrite bool_decide_false. }
  by rewrite IH, app_assoc.
Qed.

Lemma pem_item width i rest out : (0 < width)%nat -> item_ok i ->
  pem_loop (item_lines width i ++ rest) None out = pem_loop rest None (out ++ item_block i).
Proof.
  intros Hw Hi. destruct i as [label der|line]; cbn [item_lines item_block].
  - destruct Hi as (Ht & Hl & _ & _). cbn [app pem_loop]. rewrite dashes_trimmed by done. rewrite strip_prefix_app, block_label_spec by done.
    rewrite <- app_assoc, pem_body by (apply chunks_forall; [done|apply base64_chars]). cbn [app pem_loop]. rewrite dashes_trimmed by done.
    rewrite starts_with_app, concat_chunks by done. unfold push_block. by rewrite std_decode_encode.
  - destruct Hi as (Hi & _ & _). cbn [app pem_loop]. by rewrite Hi, app_nil_r.
Qed.

Lemma pem_items width items : forall out, (0 < width)%nat -> Forall item_ok items ->
  pem_loop (concat (map (item_lines width) items)) None out = out ++ concat (map item_block items).
Proof.
  induction items as [|i items IH]; intros out Hw Hi; cbn [map concat]; [by rewrite app_nil_r|]. apply Forall_cons in Hi as [Hi His].
  rewrite pem_item, IH by done. by rewrite app_assoc.
Qed.

(** Lines ended by LF or CRLF. *)
Lemma str_lines_written (eol : bytes) ls :
  eol = [x0a] \/ eol = CRLF -> Forall (fun l => x0a ∉ l /\ x0d ∉ l) ls -> str_lines (concat (map (fun l => l ++ eol) ls)) = ls.
Proof.
  intros He Hl. unfold str_lines.
  assert (exists cr, (cr = [] \/ cr = [x0d]) /\ split_on x0a (concat (map (fun l => l ++ eol) ls)) = map (fun l => l ++ cr) ls ++ [[]]) as (cr & Hcr & ->).
  { exists (match eol with [_] => [] | _ => [x0d] end). split; [destruct He as [-> | ->]; auto|].
    induction Hl as [|l ls [H1 H2] _ IH]; [done|]. cbn [map concat app].
    destruct He as [-> | ->]; unfold CRLF in *; cbn [app] in *; rewrite <- app_assoc; cbn [app].
    - rewrite split_on_app by done. by rewrite IH, app_nil_r.
    - change (l ++ x0d :: x0a :: ?t) with (l ++ [x0d] ++ x0a :: t). rewrite app_assoc, split_on_app by set_solver. by rewrite IH. }
  rewrite List.last_last, bool_decide_true by done. rewrite removelast_last. rewrite map_map. rewrite <- (map_id ls) at 2. apply map_ext_in.
  intros l Hin%list_elem_of_In. destruct (proj1 (Forall_forall _ _) Hl l Hin) as [_ Hd].
  destruct Hcr as [-> | ->].
  - rewrite app_nil_r. destruct (rev l) as [|c r] eqn:E; [done|]. assert (c ∈ l) as Hc by (rewrite list_elem_of_In, in_rev, E; left; done).
    by rewrite bool_decide_false by (intros ->; auto).
  - rewrite rev_app_distr. cbn [rev app]. rewrite bool_decide_true by done. apply rev_involutive.
Qed.

(** PEM: from a file of PEM blocks with any labels and contents, their base64 text wrapped at any width, with other lines
    between the blocks and lines ended by LF or CRLF, [pem_blocks] reads exactly the labels and contents, in order. *)
Theorem pem_roundtrip (width : nat) (eol : bytes) (items : list PemItem) :
  (0 < width)%nat -> eol = [x0a] \/ eol = CRLF -> Forall item_ok items ->
  let text := concat (map (fun l => l ++ eol) (concat (map (item_lines width) items))) in
  Utf8.is_utf8 text = true -> pem_blocks text = concat (map item_block items).
Proof.
  intros Hw He Hi text Hu. unfold pem_blocks. rewrite lossy_valid by done. unfold text. rewrite str_lines_written, pem_items; [done..|].
  apply Forall_concat, Forall_map. eapply Forall_impl; [exact Hi|]. intros [label der|line] Hok; cbn [item_lines].
  - destruct Hok as (_ & _ & Ha & Hd). assert (forall p q, x0a ∉ p -> x0d ∉ p -> x0a ∉ q -> x0d ∉ q -> x0a ∉ p ++ label ++ q /\ x0d ∉ p ++ label ++ q) as Hp
      by (intros; set_solver).
    constructor; [apply Hp; by vm_compute; set_solver|]. apply Forall_app. split.
    + eapply Forall_impl; [apply (chunks_forall (fun c => b64_char c = true)); [done|apply base64_chars]|].
      intros l Hl. by destruct (b64_text l Hl) as ((? & ?) & _).
    + constructor; [|done]. apply Hp; by vm_compute; set_solver.
  - destruct Hok as (_ & ? & ?). by repeat constructor.
Qed.

Lemma pem_roundtrip_witness :
  pem_blocks (concat (map (fun l => l ++ CRLF) (concat (map (item_lines 4) [Comment (b!"subject"); Block (b!"CERTIFICATE") (b!"abcd")])))) =
  [(b!"CERTIFICATE", b!"abcd")].
Proof.
  apply (pem_roundtrip 4 CRLF [Comment (b!"subject"); Block (b!"CERTIFICATE") (b!"abcd")]).
  - lia.
  - by right.
  - repeat constructor; vm_compute; (done || set_solver).
  - vm_compute. reflexivity.
Defined.

(** ** Resuming *)

(** The body arrives as the bytes of [d], to the end or until a failure. *)
Inductive arrives (d : bytes) : list ChunkEvent -> Prop :=
| arrives_all cs : concat cs = d -> arrives d (map Written cs)
| arrives_cut cs e es : concat cs `prefix_of` d -> arrives d (map Written cs ++ ReadFailed e :: es)
| arrives_unwritten cs c n e es : (concat cs ++ c) `prefix_of` d -> arrives d (map Written cs ++ WriteFailed c n e :: es).

Definition range_header (n : Z) : bytes := b!"bytes=" ++ show_uint n ++ b!"-".

(** What a server may answer for a resource that does not change: all of it, the rest from the byte asked for, that there
    is no such byte, another status, or nothing. *)
Inductive serves (content : bytes) (req : Request) : Answer -> Prop :=
| serves_all st es : 200 <= st < 300 -> st <> PARTIAL_CONTENT -> arrives content es -> serves content req (Ok (st, es))
| serves_rest n es :
    get (headers req) (b!"range") = Some (range_header n) -> 0 <= n < len content -> arrives (drop (Z.to_nat n) content) es ->
    serves content req (Ok (PARTIAL_CONTENT, es))
| serves_unsatisfiable n es :
    get (headers req) (b!"range") = Some (range_header n) -> len content <= n <= u64_max -> serves content req (Ok (RANGE_NOT_SATISFIABLE, es))
| serves_status st es : ~ 200 <= st < 300 -> st <> RANGE_NOT_SATISFIABLE -> serves content req (Ok (st, es))
| serves_error e : serves content req (Err e).

(** Repeated attempts. *)
Fixpoint attempts (not_found : IoKind) (url : bytes) (sends : list (Request -> Answer)) (file : option bytes) : list (Result Z HttpError) * option bytes :=
  match sends with
  | [] => ([], file)
  | send :: sends =>
      let '(r, file) := download_to_file not_found send url file in
      let '(rs, file) := attempts not_found url sends file in
      (r :: rs, file)
  end.

(** The file holds a beginning of the resource. *)
Definition partial (content : bytes) (file : option bytes) : Prop := match file with Some f => f `prefix_of` content | None => True end.

Lemma show_range_inj n m : 0 <= n <= u64_max -> 0 <= m <= u64_max -> range_header n = range_header m -> n = m.
Proof.
  unfold range_header. intros Hn Hm E. apply app_inv_head, app_inv_tail in E.
  pose proof (parse_show_uint u64_max n Hn) as P1. rewrite E, parse_show_uint in P1 by done. by injection P1.
Qed.

Lemma range_request u n : 0 <= n -> get (headers (range (request_new Get u) n None)) (b!"range") = Some (range_header n).
Proof.
  intros Hn. unfold range, req_header. cbn [headers request_new].
  assert (strip_crlf (range_header n) = range_header n) as E.
  { apply strip_crlf_id. destruct (show_uint_token n Hn) as [_ [Hr Hl]]. unfold range_header, clean.
    assert (x0d ∉ b!"bytes=" /\ x0a ∉ b!"bytes=" /\ x0d ∉ b!"-" /\ x0a ∉ b!"-") by (vm_compute; set_solver). set_solver. }
  transitivity (Some (strip_crlf (range_header n))); [reflexivity|by rewrite E].
Qed.

Lemma copy_arrives d es f total : arrives d es -> 0 <= total -> total + len d <= u64_max ->
  let '(r, f') := copy_loop es f total in
  (exists p, p `prefix_of` d /\ f' = f ++ p) /\ (forall n, r = Ok n -> f' = f ++ d /\ n = total + len d).
Proof.
  intros Ha H0 Hl. assert (forall cs f total, 0 <= total -> total + len (concat cs) <= u64_max -> forall tl,
    copy_loop (map Written cs ++ tl) f total = copy_loop tl (f ++ concat cs) (total + len (concat cs))) as Hc.
  { clear. induction cs as [|c cs IH]; intros f total H0 Hl tl; cbn [map app concat copy_loop].
    - rewrite app_nil_r. f_equal. unfold len. cbn. lia.
    - cbn [concat] in Hl. rewrite len_app in *. pose proof (len_nonneg c). pose proof (len_nonneg (concat cs)).
      assert (wrap64 (total + len c) = total + len c) as ->.
      { unfold wrap64. apply Z.mod_small. unfold u64_max in Hl. lia. }
      rewrite IH by lia. f_equal; [by rewrite app_assoc|lia]. }
  destruct Ha as [cs <-|cs e tl [k ->]|cs c n e tl [k ->]].
  - rewrite <- (app_nil_r (map Written cs)), Hc by done. cbn [copy_loop]. split; [by exists (concat cs)|]. intros n [= <-]. done.
  - rewrite len_app in Hl. pose proof (len_nonneg k). rewrite Hc by lia. cbn [copy_loop]. split; [|done]. exists (concat cs). split; [by exists k|done].
  - rewrite !len_app in Hl. pose proof (len_nonneg k). pose proof (len_nonneg c). rewrite Hc by lia. cbn [copy_loop]. split; [|done].
    exists (concat cs ++ take n c). split; [|by rewrite app_assoc]. exists (drop n c ++ k).
    by rewrite <- !app_assoc, (app_assoc (take n c)), take_drop.
Qed.

Lemma len_prefix (a b : bytes) : a `prefix_of` b -> len a <= len b.
Proof. intros [k ->]. rewrite len_app. pose proof (len_nonneg k). lia. Qed.

Lemma download_step not_found send url content file :
  (forall req, serves content req (send req)) -> len content <= u64_max -> partial content file ->
  let '(r, file') := download_to_file not_found send url file in
  partial content file' /\ (forall n, r = Ok n -> file' = Some content /\ n = len content).
Proof.
  intros Hs Hl Hf. unfold download_to_file. set (existing := match file with Some f => len f | None => 0 end).
  assert (0 <= existing <= len content) as He.
  { subst existing. destruct file as [f|]; [|pose proof (len_nonneg content); lia]. split; [apply len_nonneg|by apply len_prefix]. }
  unfold download_request, builder. destruct (parse_uri url) as [u|e]; cbn [rbind]; [|done].
  set (req := if 0 <? existing then _ else _). specialize (Hs req).
  assert (forall n, get (headers req) (b!"range") = Some (range_header n) -> 0 <= n <= u64_max -> 0 < existing /\ n = existing) as Hreq.
  { intros n Hg Hn. subst req. destruct (Z.ltb_spec 0 existing); [|done]. split; [done|]. rewrite range_request in Hg by lia.
    symmetry. apply show_range_inj; [lia|done|]. congruence. }
  destruct Hs as [st es Hst Hne Hb|n es Hg Hn Hb|n es Hg Hn|st es Hst Hne|e]; [| | | |done].
  - rewrite (proj2 (Z.eqb_neq _ _)) by done. unfold RANGE_NOT_SATISFIABLE. rewrite (proj2 (Z.eqb_neq _ _)) by lia.
    rewrite (proj2 (Z.leb_le _ _)), (proj2 (Z.ltb_lt _ _)) by lia. cbn [andb].
    pose proof (copy_arrives content es [] 0 Hb ltac:(lia) ltac:(lia)) as Hc. destruct (copy_loop es [] 0) as [r f'].
    destruct Hc as [(p & Hp & ->) Hr]. split; [done|]. intros n Hok. destruct (Hr n Hok) as [-> ->]. done.
  - rewrite Z.eqb_refl. destruct (Hreq n Hg ltac:(lia)) as [Hpos ->]. subst existing. destruct file as [f|]; [|lia]. destruct Hf as [k ->].
    assert (drop (Z.to_nat (len f)) (f ++ k) = k) as E by (unfold len; rewrite Nat2Z.id; apply drop_app_length). rewrite E in Hb.
    rewrite len_app in Hl. pose proof (copy_arrives k es f (len f) Hb ltac:(lia) Hl) as Hc. destruct (copy_loop es f (len f)) as [r f'].
    destruct Hc as [(p & Hp & ->) Hr]. split; [by apply prefix_app|]. intros n Hok. destruct (Hr n Hok) as [-> ->]. by rewrite len_app.
  - change (RANGE_NOT_SATISFIABLE =? PARTIAL_CONTENT) with false. rewrite Z.eqb_refl. split; [done|]. intros m [= <-].
    destruct (Hreq n Hg ltac:(lia)) as [Hpos ->]. subst existing. destruct file as [f|]; [|lia]. destruct Hf as [k ->].
    rewrite len_app in *. destruct k as [|c k]; [by rewrite app_nil_r; split; [|unfold len; cbn; lia]|].
    unfold len in *. cbn [length] in *. lia.
  - assert (st <> PARTIAL_CONTENT) as H2 by (intros ->; unfold PARTIAL_CONTENT in Hst; lia).
    rewrite (proj2 (Z.eqb_neq _ _)), (proj2 (Z.eqb_neq _ _)) by done. destruct (Z.leb_spec 200 st), (Z.ltb_spec st 300); cbn [andb]; try done; lia.
Qed.

Lemma download_attempts not_found url content sends : forall file,
  Forall (fun send => forall req, serves content req (send req)) sends -> len content <= u64_max -> partial content file ->
  let '(rs, file') := attempts not_found url sends file in
  partial content file' /\ forall n, last rs = Some (Ok n) -> file' = Some content /\ n = len content.
Proof.
  induction sends as [|send sends IH]; intros file Hs Hl Hf; [done|]. apply Forall_cons in Hs as [Hs1 Hs]. cbn [attempts].
  pose proof (download_step not_found send url content file Hs1 Hl Hf) as H1. destruct (download_to_file _ _ _ _) as [r file1].
  destruct H1 as [Hp1 Hr1]. specialize (IH file1 Hs Hl Hp1). destruct (attempts _ _ _ _) as [rs file2] eqn:E. destruct IH as [Hp2 Hr2].
  split; [done|]. intros n Hn. destruct rs as [|r' rs]; [|by apply Hr2].
  destruct sends as [|send' sends]; cbn [attempts] in E; [injection E as <-|by repeat case_match; simplify_eq].
  injection Hn as ->. by apply Hr1.
Qed.

(** Resumable downloads: whatever attempts are made, each cut off anywhere while reading or writing, answered with the
    whole resource, the rest of it or an error, the file never holds anything but a beginning of the resource; and when an
    attempt succeeds the file is exactly the resource and the returned total its length, nothing being fetched twice into
    it or left out. *)
Theorem download_resumes (not_found : IoKind) (url content : bytes) (sends : list (Request -> Answer)) (file : option bytes) :
  Forall (fun send => forall req, serves content req (send req)) sends -> len content <= u64_max -> partial content file ->
  let '(rs, file') := attempts not_found url sends file in
  partial content file' /\ forall n, last rs = Some (Ok n) -> file' = Some content /\ n = len content.
Proof. apply download_attempts. Qed.

(** A server that honours ranges, cut off after [k] bytes in the first attempt. *)
Definition demo_send (content : bytes) (cut : option nat) (req : Request) : Answer :=
  let body := match get (headers req) (b!"range") with
              | Some v => if bool_decide (v = range_header 3) then (PARTIAL_CONTENT, drop 3 content) else (404, [])
              | None => (200, content)
              end in
  if fst body =? 404 then Ok (404, [])
  else match cut with
       | Some k => Ok (fst body, [Written (take k (snd body)); ReadFailed HttpCore.Timeout])
       | None => Ok (fst body, [Written (snd body)])
       end.

Lemma demo_serves cut req : serves (b!"abcdef") req (demo_send (b!"abcdef") cut req).
Proof.
  unfold demo_send. assert (forall d, arrives d [Written d]) as H1 by (intros d; apply (arrives_all d [d]); by rewrite concat_singleton || cbn; rewrite ?app_nil_r).
  assert (forall d k e, arrives d [Written (take k d); ReadFailed e]) as H2.
  { intros d k e. apply (arrives_cut d [take k d]). cbn. rewrite app_nil_r. exists (drop k d). by rewrite take_drop. }
  destruct (get (headers req) (b!"range")) as [v|] eqn:E; [case_bool_decide as Hv; [subst v|]|]; cbn [fst snd].
  - change (PARTIAL_CONTENT =? 404) with false. cbv iota. destruct cut; eapply (serves_rest _ _ 3); try exact E; try (split; by vm_compute); auto.
  - cbn. apply serves_status; [lia|done].
  - change (200 =? 404) with false. cbv iota. destruct cut; apply serves_all; auto; lia.
Qed.

Lemma download_resumes_witness :
  attempts InvalidData (b!"http://h/f") [demo_send (b!"abcdef") (Some 3%nat); demo_send (b!"abcdef") None] None
    = ([Err HttpCore.Timeout; Ok 6], Some (b!"abcdef")) /\ len (b!"abcdef") = 6.
Proof.
  pose proof (download_resumes InvalidData (b!"http://h/f") (b!"abcdef") [demo_send (b!"abcdef") (Some 3%nat); demo_send (b!"abcdef") None] None) as H.
  destruct (attempts _ _ _ _) as [rs file'] eqn:E.
  assert (rs = [Err HttpCore.Timeout; Ok 6]) as -> by (vm_compute in E; by injection E as <- <-).
  destruct H as [_ H]; [repeat constructor; intros req; apply demo_serves|by vm_compute|done|]. destruct (H 6 eq_refl) as [-> ?]. done.
Defined.

(** The validity of the partial file is not checked: when the resource has changed, the file mixes the two. *)
Example changed_resource_mixed :
  let old := b!"aaaaaa" in let new := b!"bbbbbb" in
  snd (attempts InvalidData (b!"http://h/f") [demo_send old (Some 3%nat); demo_send new None] None) = Some (b!"aaabbb").
Proof. vm_compute. reflexivity. Qed.
