(* ===== verification/Fs.v ===== *)
(** * Files: content types, memory maps and the virtual file system ([fsutils.rs], [vfs/mod.rs])

    Content types by magic bytes and by extension, the memory map over the calls of the kernel, and [LocalFs] over the file
    system of the operating system, which is the class [Os]: what its calls answer and how they change the world.  The walk
    of a directory tree is a loop over a stack; its theorem compares it with a recursive order of the tree. *)

From S2P Require Import Prelude Text Scan HttpCore Registry Attrs ErrorDerive.
Import HttpCore.

Open Scope Z_scope.

(** What the operating system answers on failure. *)
Inductive ErrorKind := NotFoundKind | PermissionDenied | OtherKind (name : bytes).
Record IoError := mkIo { kind : ErrorKind; io_text : bytes }.

Module FsUtils.

Inductive FsError := IoErr (e : IoError) | Undetermined (path : bytes).

(** [#[derive(FerrolyError)]] *)
Definition fs_error_display (e : FsError) : bytes :=
  match e with
  | IoErr e => b!"io error: " ++ io_text e
  | Undetermined p => b!"could not determine content type for: " ++ p
  end.

Definition RIFF_WEBP (s : bytes) : bool :=
  (12 <=? len s) && bool_decide (take 4 s = b!"RIFF") && bool_decide (take 4 (drop 8 s) = b!"WEBP").

(** The signatures in the order they are tried, before and after the one with two parts. *)
Definition signatures : list (bytes * bytes) := [
  ([x89] ++ b!"PNG" ++ [x0d; x0a; x1a; x0a], b!"image/png");
  ([xff; xd8; xff], b!"image/jpeg");
  (b!"GIF87a", b!"image/gif"); (b!"GIF89a", b!"image/gif");
  (b!"BM", b!"image/bmp")
].
Definition signatures2 : list (bytes * bytes) := [
  (b!"%PDF", b!"application/pdf");
  (b!"PK" ++ [x03; x04], b!"application/zip"); (b!"PK" ++ [x05; x06], b!"application/zip"); (b!"PK" ++ [x07; x08], b!"application/zip");
  ([x1f; x8b], b!"application/gzip");
  ([x00] ++ b!"asm", b!"application/wasm");
  (b!"OggS", b!"audio/ogg");
  (b!"ID3", b!"audio/mpeg"); ([xff; xfb], b!"audio/mpeg");
  ([x00; x00; x01; x00], b!"image/x-icon");
  (b!"<?xml", b!"text/xml")
].

Fixpoint first_signature (sigs : list (bytes * bytes)) (s : bytes) : option bytes :=
  match sigs with
  | [] => None
  | (sig, mime) :: sigs => if starts_with s sig then Some mime else first_signature sigs s
  end.

(** [sniff] *)
Definition sniff (s : bytes) : option bytes :=
  match first_signature signatures s with
  | Some m => Some m
  | None => if RIFF_WEBP s then Some (b!"image/webp") else first_signature signatures2 s
  end.

(** [detect_content_type]: opening the file answers what one [read] of a buffer of 32 bytes returns. *)
Definition detect_content_type (path : bytes) (open_read : Result (Result bytes IoError) IoError) : Result bytes FsError :=
  let? read := map_err IoErr open_read in
  let? header := map_err IoErr read in
  ok_or (sniff header) (Undetermined path).

Definition mime_table : list (list bytes * bytes) := [
  ([b!"txt"; b!"text"; b!"log"], b!"text/plain"); ([b!"html"; b!"htm"], b!"text/html"); ([b!"css"], b!"text/css");
  ([b!"js"; b!"mjs"], b!"application/javascript"); ([b!"json"], b!"application/json"); ([b!"xml"], b!"text/xml");
  ([b!"yaml"; b!"yml"], b!"application/yaml"); ([b!"toml"], b!"application/toml"); ([b!"csv"], b!"text/csv");
  ([b!"md"; b!"markdown"], b!"text/markdown"); ([b!"pdf"], b!"application/pdf"); ([b!"png"], b!"image/png");
  ([b!"jpg"; b!"jpeg"], b!"image/jpeg"); ([b!"gif"], b!"image/gif"); ([b!"webp"], b!"image/webp"); ([b!"svg"], b!"image/svg+xml");
  ([b!"ico"], b!"image/x-icon"); ([b!"bmp"], b!"image/bmp"); ([b!"mp3"], b!"audio/mpeg"); ([b!"wav"], b!"audio/wav");
  ([b!"ogg"], b!"audio/ogg"); ([b!"mp4"], b!"video/mp4"); ([b!"webm"], b!"video/webm"); ([b!"zip"], b!"application/zip");
  ([b!"gz"; b!"gzip"], b!"application/gzip"); ([b!"tar"], b!"application/x-tar"); ([b!"wasm"], b!"application/wasm");
  ([b!"woff"], b!"font/woff"); ([b!"woff2"], b!"font/woff2"); ([b!"ttf"], b!"font/ttf"); ([b!"otf"], b!"font/otf")
].

Definition mime_for_ext (ext : bytes) : option bytes :=
  snd <$> List.find (fun e => bool_decide (ext ∈ fst e)) mime_table.

Definition lookup_content_type (filename : bytes) : option bytes :=
  let last := match rsplit_once x2e filename with Some (_, e) => e | None => filename end in
  if bool_decide (last = filename) then None else mime_for_ext (to_ascii_lowercase last).
End FsUtils.

(** ** Memory maps *)

Module Mmap.
Import FsUtils.

(** The pages mapped in the process, by address. *)
Definition Space : Type := gmap Z bytes.

Record Mmap := mkMmap { ptr : Z; mlen : Z }.

Section Unix.
(** [mmap(2)]: the address the kernel chooses for so many bytes, or a failure with its error. *)
Context (mmap : Z -> Space -> Result Z IoError).

(** [Mmap::open] of a file that opens, with its size and content, or does not. *)
Definition open (file : Result bytes IoError) (st : Space) : Result Mmap FsError * Space :=
  match file with
  | Err e => (Err (IoErr e), st)
  | Ok content =>
      let n := len content in
      if n =? 0 then (Ok (mkMmap 1 0), st)
      else match mmap n st with
           | Err e => (Err (IoErr e), st)
           | Ok p => (Ok (mkMmap p n), <[p := content]> st)
           end
  end.

(** [Deref::deref], the slice of [mlen] bytes at [ptr]: nothing where that memory is not mapped. *)
Definition deref (m : Mmap) (st : Space) : option bytes :=
  if mlen m =? 0 then Some [] else
  mem ← st !! ptr m; if mlen m <=? len mem then Some (take (Z.to_nat (mlen m)) mem) else None.

Definition is_empty (m : Mmap) : bool := mlen m =? 0.

(** [Drop::drop] *)
Definition drop (m : Mmap) (st : Space) : Space := if mlen m =? 0 then st else delete (ptr m) st.
End Unix.

(** The portable fallback reads the file. *)
Definition fallback_open (file : Result bytes IoError) : Result bytes FsError := map_err IoErr file.
End Mmap.

(** ** The virtual file system *)

Module Vfs.
Import Attrs ErrorDerive.

Inductive VfsError :=
| NotFound (path : bytes)
| Permission (path : bytes)
| NotDir (path : bytes)
| IsDir (path : bytes)
| Unsupported (what : bytes)
| Io (path : bytes) (source : IoError).

(** The attributes of the enum, for the derive. *)
Definition vfs_variants : list Variant := [
  mkVariant (b!"NotFound") [format_attr (b!"not found: {0}")] (Unnamed [([], b!"String")]);
  mkVariant (b!"Permission") [format_attr (b!"permission denied: {0}")] (Unnamed [([], b!"String")]);
  mkVariant (b!"NotDir") [format_attr (b!"not a directory: {0}")] (Unnamed [([], b!"String")]);
  mkVariant (b!"IsDir") [format_attr (b!"is a directory: {0}")] (Unnamed [([], b!"String")]);
  mkVariant (b!"Unsupported") [format_attr (b!"unsupported operation: {0}")] (Unnamed [([], b!"String")]);
  mkVariant (b!"Io") [format_attr (b!"io error at {path}: {source}")] (Named [(b!"path", []); (b!"source", [word_attr (b!"source")])])
].

(** A value of the enum as its variant and the displays of its fields. *)
Definition parts (e : VfsError) : bytes * list bytes :=
  match e with
  | NotFound p => (b!"NotFound", [p])
  | Permission p => (b!"Permission", [p])
  | NotDir p => (b!"NotDir", [p])
  | IsDir p => (b!"IsDir", [p])
  | Unsupported w => (b!"Unsupported", [w])
  | Io p e => (b!"Io", [p; io_text e])
  end.

Definition from_io (path : bytes) (e : IoError) : VfsError :=
  match kind e with
  | NotFoundKind => NotFound path
  | PermissionDenied => Permission path
  | OtherKind _ => Io path e
  end.

Record Metadata := mkMeta { is_dir : bool; m_len : Z }.
Record Entry := mkEntry { e_path : bytes; e_name : bytes; e_is_dir : bool; e_len : Z }.
Inductive WalkAction := Continue | SkipDir | Stop.

(** An entry of a directory as the operating system gives it: path and name are any bytes, and its metadata, which do not
    follow a symbolic link. *)
Record DirEntry := mkDirEntry { de_path : bytes; de_name : bytes; de_meta : Result Metadata IoError }.

(** An open file: what its metadata answer, whether a seek succeeds, and what the [k]th read returns at an offset for a
    buffer of so many bytes. *)
Record File := mkFile {
  file_meta : Result Metadata IoError;
  file_seek : Z -> Result unit IoError;
  file_read : nat -> Z -> Z -> Result bytes IoError;
  file_rest : Result bytes IoError;
}.

(** The calls of the operating system behind [tokio::fs], over its world. *)
Class Os (W : Type) := {
  os_read : bytes -> W -> Result bytes IoError;
  os_open : bytes -> W -> Result File IoError;
  os_metadata : bytes -> W -> Result Metadata IoError;
  os_read_dir : bytes -> W -> Result (list (Result DirEntry IoError)) IoError;
  os_write : bytes -> bytes -> W -> Result unit IoError * W;
  os_remove_dir_all : bytes -> W -> Result unit IoError * W;
  os_remove_file : bytes -> W -> Result unit IoError * W;
  os_create_dir_all : bytes -> W -> Result unit IoError * W;
  os_copy : bytes -> bytes -> W -> Result Z IoError * W;
  os_rename : bytes -> bytes -> W -> Result unit IoError * W;
}.

Definition path_of (addr : bytes) : bytes := match split_once_str (b!"://") addr with Some (_, p) => p | None => addr end.

(** [Vfile]: the reader is what reading it to the end answers. *)
Record Vfile := mkVfile { inner : Result bytes IoError; meta : Metadata }.
Definition metadata_of (f : Vfile) : Metadata := meta f.
Definition read_all_bytes (f : Vfile) : Result bytes IoError := inner f.
Definition read_all_string (f : Vfile) : Result bytes IoError :=
  let? s := read_all_bytes f in map_err (mkIo (OtherKind (b!"InvalidData"))) (from_utf8 s).

(** [entry_from] *)
Definition entry_from (de : DirEntry) : Result Entry VfsError :=
  let path := Utf8.from_utf8_lossy (de_path de) in
  let? m := map_err (from_io path) (de_meta de) in
  Ok (mkEntry path (Utf8.from_utf8_lossy (de_name de)) (is_dir m) (m_len m)).

(** An operation fails with an error, or panics. *)
Inductive Failure := Failed (e : VfsError) | Panicked.

Definition schemes : list bytes := [b!"file"].

Section LocalFs.
Context {W : Type} `{Os W}.

Definition read (path : bytes) (w : W) : Result bytes VfsError :=
  let p := path_of path in map_err (from_io p) (os_read p w).

(** The loop of [read_range] after [k] reads with [buf] filled so far: a read of nothing is the end of the file. *)
Fixpoint read_loop (fuel : nat) (p : bytes) (f : File) (offset n : Z) (k : nat) (buf : bytes) : option (Result bytes VfsError) :=
  match fuel with
  | O => None
  | S fuel =>
      if len buf <? n then
        match file_read f k (offset + len buf) (n - len buf) with
        | Err e => Some (Err (from_io p e))
        | Ok [] => Some (Ok buf)
        | Ok d => read_loop fuel p f offset n (S k) (buf ++ d)
        end
      else Some (Ok buf)
  end.

(** [read_range]: every turn of the loop reads a byte, or ends it.  A buffer larger than [isize::MAX] panics. *)
Definition read_range (path : bytes) (offset n : Z) (w : W) : option (Result bytes Failure) :=
  let p := path_of path in
  let! f := Some (map_err (fun e => Failed (from_io p e)) (os_open p w)) in
  let! _ := Some (map_err (fun e => Failed (from_io p e)) (file_seek f offset)) in
  if i64_max <? n then Some (Err Panicked)
  else map_err Failed <$> read_loop (S (Z.to_nat n)) p f offset n 0 [].

Definition write (path data : bytes) (w : W) : Result unit VfsError * W :=
  let p := path_of path in let '(r, w) := os_write p data w in (map_err (from_io p) r, w).

Definition open (path : bytes) (w : W) : Result Vfile VfsError :=
  let p := path_of path in
  let? f := map_err (from_io p) (os_open p w) in
  let? m := map_err (from_io p) (file_meta f) in
  Ok (mkVfile (file_rest f) m).

Definition delete (path : bytes) (w : W) : Result unit VfsError * W :=
  let p := path_of path in
  match os_metadata p w with
  | Err e => (Err (from_io p e), w)
  | Ok m => let '(r, w) := if is_dir m then os_remove_dir_all p w else os_remove_file p w in (map_err (from_io p) r, w)
  end.

Definition exists_ (path : bytes) (w : W) : bool := is_ok (os_metadata (path_of path) w).

Definition metadata (path : bytes) (w : W) : Result Metadata VfsError :=
  let p := path_of path in map_err (from_io p) (os_metadata p w).

Fixpoint list_loop (p : bytes) (es : list (Result DirEntry IoError)) (out : list Entry) : Result (list Entry) VfsError :=
  match es with
  | [] => Ok out
  | e :: es =>
      let? de := map_err (from_io p) e in
      let? entry := entry_from de in
      list_loop p es (out ++ [entry])
  end.

(** [list] *)
Definition list_dir (path : bytes) (w : W) : Result (list Entry) VfsError :=
  let p := path_of path in
  let? es := map_err (from_io p) (os_read_dir p w) in
  list_loop p es [].

Definition mkdir_all (path : bytes) (w : W) : Result unit VfsError * W :=
  let p := path_of path in let '(r, w) := os_create_dir_all p w in (map_err (from_io p) r, w).

Definition copy (src dst : bytes) (w : W) : Result unit VfsError * W :=
  let s := path_of src in let d := path_of dst in
  let '(r, w) := os_copy s d w in (let? _ := map_err (from_io s) r in Ok tt, w).

Definition rename (src dst : bytes) (w : W) : Result unit VfsError * W :=
  let s := path_of src in let d := path_of dst in
  let '(r, w) := os_rename s d w in (map_err (from_io s) r, w).

(** [walk], on a tree that stays as it is; the callback carries a state. *)
Section Walk.
Context {T : Type} (f : T -> Entry -> WalkAction * T) (w : W).

(** The loop over one directory: the stack of directories still to visit, or nothing when the callback stopped the walk. *)
Fixpoint walk_dir (dir : bytes) (es : list (Result DirEntry IoError)) (stack : list bytes) (t : T) : Result (option (list bytes)) VfsError * T :=
  match es with
  | [] => (Ok (Some stack), t)
  | Err e :: _ => (Err (from_io dir e), t)
  | Ok de :: es =>
      match entry_from de with
      | Err e => (Err e, t)
      | Ok entry =>
          match f t entry with
          | (Stop, t) => (Ok None, t)
          | (SkipDir, t) => walk_dir dir es stack t
          | (Continue, t) => walk_dir dir es (if e_is_dir entry then e_path entry :: stack else stack) t
          end
      end
  end.

(** The loop over the stack, its top first. *)
Fixpoint walk_loop (fuel : nat) (stack : list bytes) (t : T) : option (Result unit VfsError * T) :=
  match fuel with
  | O => None
  | S fuel =>
      match stack with
      | [] => Some (Ok tt, t)
      | dir :: stack =>
          match os_read_dir dir w with
          | Err e => Some (Err (from_io dir e), t)
          | Ok es =>
              match walk_dir dir es stack t with
              | (Err e, t) => Some (Err e, t)
              | (Ok None, t) => Some (Ok tt, t)
              | (Ok (Some stack), t) => walk_loop fuel stack t
              end
          end
      end
  end.

Definition walk (fuel : nat) (path : bytes) (t : T) : option (Result unit VfsError * T) := walk_loop fuel [path_of path] t.
End Walk.
End LocalFs.
End Vfs.

(** ** Content types *)

Section ContentTypes.
Import FsUtils Registry.

Lemma starts_with_take n l p : (length p <= n)%nat -> starts_with (take n l) p = starts_with l p.
Proof.
  revert n p. induction l as [|c l IH]; intros n p Hp; [by rewrite take_nil|]. destruct p as [|x p]; [by destruct n|].
  destruct n as [|n]; [cbn in Hp; lia|]. cbn [take starts_with]. by rewrite IH by (cbn in Hp; lia).
Qed.

Lemma first_signature_take n sigs l : Forall (fun s => (length (fst s) <= n)%nat) sigs -> first_signature sigs (take n l) = first_signature sigs l.
Proof. induction 1 as [|[sig m] sigs Hs _ IH]; [done|]. cbn [first_signature fst] in *. by rewrite starts_with_take, IH. Qed.

Lemma sniff_take n l : (12 <= n)%nat -> sniff (take n l) = sniff l.
Proof.
  intros Hn. unfold sniff. rewrite !first_signature_take by (repeat constructor; cbn; lia).
  assert (RIFF_WEBP (take n l) = RIFF_WEBP l) as ->; [|done]. unfold RIFF_WEBP, len. rewrite length_take, skipn_firstn_comm, !firstn_firstn.
  rewrite (Nat.min_l 4 n), (Nat.min_l 4 (n - 8)) by lia. destruct (Z.leb_spec 12 (Z.of_nat (n `min` length l))), (Z.leb_spec 12 (Z.of_nat (length l))); try done; lia.
Qed.

(** The header read from a file decides its type as the whole content does, as long as the read is not cut below the twelve
    bytes of the longest signature. *)
Lemma detect_by_header path content n : (12 <= n)%nat ->
  detect_content_type path (Ok (Ok (take n content))) = ok_or (sniff content) (Undetermined path).
Proof. intros Hn. unfold detect_content_type. cbn. by rewrite sniff_take. Qed.

(** The codec an extension stands for. *)
Definition codec_of_ext (e : bytes) : option Format :=
  if bool_decide (e = b!"json") then Some Json
  else if bool_decide (e ∈ [b!"xml"; b!"svg"]) then Some Xml
  else if bool_decide (e ∈ [b!"yaml"; b!"yml"]) then Some Yaml
  else if bool_decide (e = b!"toml") then Some Toml
  else None.

Lemma mime_table_codecs :
  forallb (fun e => forallb (fun x => bool_decide (from_content_type (snd e) = codec_of_ext x)) (fst e)) mime_table = true.
Proof. vm_compute. reflexivity. Qed.

(** File names and codecs fit together: whatever content type a file name's extension is looked up to, in any case, the
    codec registry resolves it to the format of that extension, and to none for extensions that are no data format. *)
Theorem extension_selects_codec (stem ext ct : bytes) :
  x2e ∉ ext -> lookup_content_type (stem ++ x2e :: ext) = Some ct -> from_content_type ct = codec_of_ext (to_ascii_lowercase ext).
Proof.
  intros He. unfold lookup_content_type. rewrite rsplit_once_app by done. cbv zeta. case_bool_decide; [done|]. unfold mime_for_ext.
  destruct (List.find _ mime_table) as [[exts m]|] eqn:E; [|done]. intros [= <-]. apply find_some in E as [Hin Hx%bool_decide_eq_true].
  pose proof mime_table_codecs as Ht. rewrite forallb_forall in Ht. specialize (Ht _ Hin). rewrite forallb_forall in Ht.
  apply list_elem_of_In in Hx. by specialize (Ht _ Hx); apply bool_decide_eq_true in Ht.
Qed.

Lemma extension_selects_codec_witness :
  lookup_content_type (b!"etc/app.v2.YML") = Some (b!"application/yaml") /\ from_content_type (b!"application/yaml") = Some Yaml.
Proof.
  split; [by vm_compute|]. change (Some Yaml) with (codec_of_ext (to_ascii_lowercase (b!"YML"))).
  apply (extension_selects_codec (b!"etc/app.v2") (b!"YML")); [by apply (bool_decide_eq_true (x2e ∉ b!"YML"))|by vm_compute].
Defined.
End ContentTypes.

(** ** Memory maps *)

(** A memory map shows the file: it dereferences to the whole content, as the portable fallback does, disturbs no other
    mapping, and dropping it gives back exactly what it mapped. *)
Theorem mmap_shows_file (mmap : Z -> Mmap.Space -> Result Z IoError) (file : Result bytes IoError) (st st' : Mmap.Space) (m : Mmap.Mmap) :
  (forall n p, mmap n st = Ok p -> st !! p = None) -> Mmap.open mmap file st = (Ok m, st') ->
  Mmap.deref m st' = (match Mmap.fallback_open file with Ok content => Some content | Err _ => None end) /\
  Mmap.drop m st' = st /\
  (forall m', is_Some (Mmap.deref m' st) -> Mmap.deref m' st' = Mmap.deref m' st).
Proof.
  intros Hf. destruct file as [content|e]; cbn [Mmap.open Mmap.fallback_open map_err]; [|done].
  destruct (Z.eqb_spec (len content) 0) as [E|E].
  - intros [= <- <-]. assert (content = []) as -> by (destruct content; [done|unfold len in E; cbn in E; lia]). done.
  - destruct (mmap (len content) st) as [p|e] eqn:Em; [|done]. specialize (Hf _ _ Em). intros [= <- <-]. unfold Mmap.deref, Mmap.drop, Mmap.Space in *. cbn [Mmap.mlen Mmap.ptr].
    rewrite (proj2 (Z.eqb_neq _ _)) by done. rewrite lookup_insert_eq. cbn. rewrite Z.leb_refl. unfold len at 1. rewrite Nat2Z.id, firstn_all.
    split; [done|]. split; [by rewrite delete_insert_id|]. intros m'. destruct (Mmap.mlen m' =? 0); [done|].
    destruct (decide (Mmap.ptr m' = p)) as [->|Hp]; [rewrite Hf; by intros [? ?]|by rewrite lookup_insert_ne].
Qed.

Lemma mmap_shows_file_witness :
  let mmap := fun (_ : Z) (_ : Mmap.Space) => Ok 4096 : Result Z IoError in
  Mmap.deref (Mmap.mkMmap 4096 3) (<[4096 := b!"abc"]> ∅) = Some (b!"abc") /\ Mmap.open mmap (Ok (b!"abc")) ∅ = (Ok (Mmap.mkMmap 4096 3), <[4096 := b!"abc"]> ∅).
Proof.
  intros mmap. split; [|done].
  by destruct (mmap_shows_file mmap (Ok (b!"abc")) ∅ (<[4096 := b!"abc"]> ∅) (Mmap.mkMmap 4096 3) (fun _ p _ => lookup_empty p) eq_refl) as (H & _).
Defined.

(** ** Reading a range *)

Section Ranges.
Import Vfs.
Context {W : Type} `{Os W}.

(** A file that holds [content]: a read returns what is there, at least a byte before the end, at most the buffer. *)
Definition reads_from (f : File) (content : bytes) : Prop :=
  forall k offset n, 0 <= offset -> 0 < n ->
  exists d, file_read f k offset n = Ok d /\ d `prefix_of` drop (Z.to_nat offset) content /\ len d <= n /\ (d = [] -> len content <= offset).

Lemma read_loop_exact p f content offset n : reads_from f content -> 0 <= offset -> 0 <= n ->
  forall fuel k buf, buf `prefix_of` take (Z.to_nat n) (drop (Z.to_nat offset) content) -> (Z.to_nat n < fuel + length buf)%nat ->
  read_loop fuel p f offset n k buf = Some (Ok (take (Z.to_nat n) (drop (Z.to_nat offset) content))).
Proof.
  intros Hr Ho Hn. induction fuel as [|fuel IH]; intros k buf [rest Hb] Hf.
  - exfalso. apply (f_equal length) in Hb. rewrite length_take, length_app in Hb. lia.
  - cbn [read_loop]. assert (len buf <= n) as Hle by (unfold len; apply (f_equal length) in Hb; rewrite length_take, length_app in Hb; lia).
    destruct (Z.ltb_spec (len buf) n) as [Hlt|Hge].
    + destruct (Hr k (offset + len buf) (n - len buf)) as (d & -> & [tl Hd] & Hl & He); [unfold len; lia|lia|].
      assert (drop (Z.to_nat (offset + len buf)) content = drop (length buf) (drop (Z.to_nat offset) content)) as Hdrop.
      { rewrite drop_drop. f_equal. unfold len. lia. }
      rewrite Hdrop in Hd. destruct d as [|c d].
      * do 2 f_equal. specialize (He eq_refl). rewrite Hb. assert (rest = []) as ->; [|by rewrite app_nil_r].
        apply (f_equal length) in Hb. rewrite length_take, length_app, length_drop in Hb. destruct rest; [done|]. unfold len in *. cbn [length] in Hb. lia.
      * apply IH; [|rewrite length_app; cbn [length]; lia]. set (s := drop (Z.to_nat offset) content) in *.
        assert (s = buf ++ (c :: d) ++ tl) as Hs.
        { rewrite <- Hd, <- (take_drop (length buf) s) at 1. f_equal.
          apply (f_equal (take (length buf))) in Hb. rewrite take_app_length, take_take, Nat.min_l in Hb by (unfold len in Hlt; lia). done. }
        rewrite Hs, app_assoc, take_app_ge by (rewrite length_app; unfold len in *; lia). by eexists.
    + do 2 f_equal. rewrite Hb. assert (rest = []) as ->; [|by rewrite app_nil_r].
      apply (f_equal length) in Hb. rewrite length_take, length_app in Hb. destruct rest; [done|]. unfold len in Hge. cbn [length] in Hb. lia.
Qed.

(** [read_range] returns exactly the bytes of the range, cut at the end of the file, however the operating system cuts
    its reads; it never runs on. *)
Theorem read_range_exact (path : bytes) (w : W) (f : File) (content : bytes) (offset n : Z) :
  os_open (path_of path) w = Ok f -> file_seek f offset = Ok tt -> reads_from f content -> 0 <= offset -> 0 <= n <= i64_max ->
  read_range path offset n w = Some (Ok (take (Z.to_nat n) (drop (Z.to_nat offset) content))).
Proof.
  intros Ho Hs Hr Hoff Hn. unfold read_range. rewrite Ho. cbn [map_err fbind]. rewrite Hs. cbn [map_err fbind].
  rewrite (proj2 (Z.ltb_ge _ _)) by lia. rewrite (read_loop_exact _ _ content); [done|done|lia|lia|by eexists|cbn; lia].
Qed.
End Ranges.

(** ** Walking a tree *)

Section Walking.
Import Vfs.

(** A directory tree whose entries carry a mark: none, or what the callback answered there. *)
Inductive Tree (A : Type) := Leaf (e : Entry) (a : A) | Branch (e : Entry) (a : A) (children : list (Tree A)).
#[global] Arguments Leaf {A}.
#[global] Arguments Branch {A}.

Definition entry_of {A} (t : Tree A) : Entry := match t with Leaf e _ | Branch e _ _ => e end.
Definition event {A} (t : Tree A) : Entry * A := match t with Leaf e a | Branch e a _ => (e, a) end.
Definition children {A} (t : Tree A) : list (Tree A) := match t with Leaf _ _ => [] | Branch _ _ ts => ts end.

(** The tree with all its marks replaced by one. *)
Fixpoint remark {A B} (b : B) (t : Tree A) : Tree B :=
  match t with Leaf e _ => Leaf e b | Branch e _ ts => Branch e b (map (remark b) ts) end.

(** Induction over trees with a property of their lists of children. *)
Section TreeInd.
Context {A : Type} (P : Tree A -> Prop) (HL : forall e a, P (Leaf e a)) (HB : forall e a ts, Forall P ts -> P (Branch e a ts)).
Fixpoint tree_ind2 (t : Tree A) : P t :=
  match t with
  | Leaf e a => HL e a
  | Branch e a ts => HB e a ts ((fix all ts : Forall P ts := match ts with [] => Forall_nil_2 P | t :: ts => Forall_cons_2 P t ts (tree_ind2 t) (all ts) end) ts)
  end.
End TreeInd.

Context {W : Type} `{Os W} (w : W).

(** What the operating system gives for an entry. *)
Definition dirent (e : Entry) : DirEntry := mkDirEntry (e_path e) (e_name e) (Ok (mkMeta (e_is_dir e) (e_len e))).
Definition listing (ts : list (Tree ())) : list (Result DirEntry IoError) := map (fun t => Ok (dirent (entry_of t))) ts.

Definition named (e : Entry) : Prop := Utf8.is_utf8 (e_path e) = true /\ Utf8.is_utf8 (e_name e) = true.

(** The tree is in the file system. *)
Fixpoint shown (t : Tree ()) : Prop :=
  match t with
  | Leaf e _ => named e /\ e_is_dir e = false
  | Branch e _ ts => named e /\ e_is_dir e = true /\ os_read_dir (e_path e) w = Ok (listing ts) /\ fold_right (fun t P => shown t /\ P) True ts
  end.
Definition shown_in (dir : bytes) (ts : list (Tree ())) : Prop := os_read_dir dir w = Ok (listing ts) /\ fold_right (fun t P => shown t /\ P) True ts.

Fixpoint branches {A} (t : Tree A) : nat := match t with Leaf _ _ => 0 | Branch _ _ ts => S (sum_list_with branches ts) end.

(** The order of a walk: the entries of a directory, then what is below its directories, from the last to the first;
    the walk goes below those where the answer was to continue. *)
Fixpoint below (t : Tree WalkAction) : list (Entry * WalkAction) :=
  match t with
  | Branch _ Continue ts => map event ts ++ concat (rev (map below ts))
  | _ => []
  end.
Definition order (ts : list (Tree WalkAction)) : list (Entry * WalkAction) := map event ts ++ concat (rev (map below ts)).

(** The entries that no skipped directory is above, in the order of the tree. *)
Fixpoint reach (t : Tree WalkAction) : list (Entry * WalkAction) :=
  event t :: match t with Branch _ Continue ts => flat_map reach ts | _ => [] end.

(** Up to the entry at which the callback stops. *)
Definition stops (e : Entry * WalkAction) : bool := match snd e with Stop => true | _ => false end.
Fixpoint upto_stop (es : list (Entry * WalkAction)) : list (Entry * WalkAction) :=
  match es with [] => [] | e :: es => e :: if stops e then [] else upto_stop es end.

Context {T : Type} (f : T -> Entry -> WalkAction * T).

(** The callback on these entries one after another gives these answers, and this state. *)
Fixpoint replay (t : T) (es : list (Entry * WalkAction)) (t' : T) : Prop :=
  match es with
  | [] => t = t'
  | (e, a) :: es => fst (f t e) = a /\ replay (snd (f t e)) es t'
  end.

Lemma replay_app l l' : forall t u t', replay t l u -> replay u l' t' -> replay t (l ++ l') t'.
Proof.
  induction l as [|[e a] l IH]; intros t u t'; cbn [replay app]; [by intros ->|]. intros [H1 H2] H3. split; [done|]. by eapply IH.
Qed.

Lemma upto_stop_app l l' : upto_stop (l ++ l') = if existsb stops l then upto_stop l else l ++ upto_stop l'.
Proof. induction l as [|e l IH]; [done|]. cbn [app upto_stop existsb]. destruct (stops e); cbn [orb]; [done|]. rewrite IH. by destruct (existsb _ _). Qed.

Lemma upto_stop_none l : existsb stops l = false -> upto_stop l = l.
Proof. induction l as [|e l IH]; [done|]. cbn [existsb upto_stop]. intros [-> Hl]%orb_false_iff. by rewrite IH. Qed.

(** The directories of one level that the callback lets the walk into. *)
Definition pushed (l : list (Tree () * WalkAction)) : list (Tree ()) :=
  map fst (List.filter (fun p => match p with (Branch _ _ _, Continue) => true | _ => false end) l).

Lemma pushed_cons t a l :
  pushed ((t, a) :: l) = match t, a with Branch _ _ _, Continue => t :: pushed l | _, _ => pushed l end.
Proof. by destruct t, a. Qed.

Definition level (l : list (Tree () * WalkAction)) : list (Entry * WalkAction) := map (fun p => (entry_of (fst p), snd p)) l.

Lemma entry_shown t : shown t -> entry_from (dirent (entry_of t)) = Ok (entry_of t) /\
  e_is_dir (entry_of t) = match t with Branch _ _ _ => true | Leaf _ _ => false end.
Proof.
  assert (forall e, named e -> entry_from (dirent e) = Ok e) as Hn.
  { intros [p n d l] [Hp Hn]. unfold entry_from, dirent. cbn [e_path e_name e_is_dir e_len de_path de_name de_meta] in *. rewrite !lossy_valid by done. done. }
  destruct t as [e []|e [] ts]; cbn [shown entry_of]; [intros [Hd Hf]|intros (Hd & Hf & _)]; (split; [by apply Hn|done]).
Qed.

(** One directory: the callback sees its entries in order, and the directories it enters are pushed. *)
Lemma walk_dir_level dir ts : forall stack t, fold_right (fun t P => shown t /\ P) True ts ->
  exists l t', map fst l = ts /\ replay t (upto_stop (level l)) t' /\
  walk_dir f dir (listing ts) stack t =
  (Ok (if existsb stops (level l) then None else Some (rev (map (fun t => e_path (entry_of t)) (pushed l)) ++ stack)), t').
Proof.
  induction ts as [|x ts IH]; intros stack t; [by exists [], t|]. cbn [fold_right]. intros [Hx Hts]. destruct (entry_shown x Hx) as (He & Hd).
  cbn [listing map walk_dir]. rewrite He. fold (listing ts). destruct (f t (entry_of x)) as [a t1] eqn:Ef.
  assert (forall l t' , replay t1 (upto_stop (level l)) t' -> a <> Stop -> replay t (upto_stop (level ((x, a) :: l))) t') as Hr.
  { intros l t' Hl Ha. cbn [level map upto_stop replay fst snd]. rewrite Ef. cbn [fst snd]. split; [done|]. by destruct a. }
  destruct a; cbn [stops].
  - edestruct (IH (if e_is_dir (entry_of x) then e_path (entry_of x) :: stack else stack) t1 Hts) as (l & t' & Hl & Hrep & ->).
    exists ((x, Continue) :: l), t'. split; [by cbn; rewrite Hl|]. split; [by apply Hr|].
    cbn [level map existsb stops snd orb]. fold (level l). destruct (existsb stops (level l)); [done|]. rewrite Hd.
    destruct x as [e u|e u cs]; unfold pushed; cbn [List.filter]; [done|]. cbn [map fst rev entry_of]. by rewrite <- app_assoc.
  - edestruct (IH stack t1 Hts) as (l & t' & Hl & Hrep & ->). exists ((x, SkipDir) :: l), t'. split; [by cbn; rewrite Hl|].
    split; [by apply Hr|]. cbn [level map existsb stops snd orb]. fold (level l). destruct (existsb stops (level l)); [done|].
    unfold pushed. cbn [List.filter]. by destruct x.
  - exists ((x, Stop) :: map (fun t => (t, Continue)) ts), t1. split; [cbn; by rewrite map_map, map_id|].
    split; [|done]. cbn [level map upto_stop stops replay fst snd]. by rewrite Ef.
Qed.

Lemma remark_twice {A} (a : A) (t : Tree ()) : remark tt (remark a t) = t.
Proof.
  induction t as [e []|e [] ts IH] using tree_ind2; [done|]. cbn [remark]. f_equal. rewrite map_map.
  induction IH as [|t ts Ht _ IHl]; [done|]. cbn [map]. by rewrite Ht, IHl.
Qed.

(** A level is marked with the answers, and its pushed directories with those below them. *)
Lemma mark_level l : forall css,
  map (map (remark tt)) css = map children (rev (pushed l)) ->
  exists ms, map (remark tt) ms = map fst l /\ map event ms = level l /\
    concat (rev (map below ms)) = concat (map order css).
Proof.
  induction l as [|[t a] l IH]; intros css Hcss; [exists []; by destruct css|].
  unfold pushed in Hcss. cbn [List.filter] in Hcss. fold (pushed l) in Hcss.
  destruct (match t, a with Branch _ _ _, Continue => true | _, _ => false end) eqn:E.
  - destruct t as [|e [] ts]; [by destruct a|]. destruct a; try done. cbn [map fst rev] in Hcss. rewrite map_app in Hcss. cbn [map children] in Hcss.
    apply map_eq_app in Hcss as (css' & cs & -> & H1 & H2). destruct cs as [|c [|]]; try done. injection H2 as H2.
    destruct (IH css' H1) as (ms & E1 & E2 & E3). exists (Branch e Continue c :: ms). split; [cbn [map remark fst]; by rewrite E1, H2|].
    split; [cbn [map level event fst snd entry_of]; by rewrite E2|]. cbn [map rev below]. fold (order c).
    by rewrite concat_app, map_app, concat_app, E3.
  - assert (map (map (remark tt)) css = map children (rev (pushed l))) as Hcss' by (destruct t, a; done).
    destruct (IH css Hcss') as (ms & E1 & E2 & E3).
    exists (match t with Leaf e _ => Leaf e a | Branch e _ ts => Branch e a (map (remark Continue) ts) end :: ms).
    split.
    { cbn [map fst]. rewrite E1. f_equal. destruct t as [e []|e [] ts]; [done|]. cbn [remark]. f_equal. rewrite map_map.
      rewrite <- (map_id ts) at 2. apply map_ext. apply remark_twice. }
    split; [cbn [map level fst snd]; rewrite E2; f_equal; by destruct t|].
    cbn [map rev]. rewrite concat_app, E3. destruct t as [e u|e u ts], a; try done; cbn; by rewrite app_nil_r.
Qed.

Lemma pushed_weight l : (sum_list_with (fun us => S (sum_list_with branches us)) (map children (rev (pushed l))) <= sum_list_with branches (map fst l))%nat.
Proof.
  induction l as [|[t a] l IH]; [done|]. rewrite pushed_cons. cbn [map fst sum_list_with].
  destruct t as [e u|e u ts]; [cbn [branches]; lia|]. destruct a; [|cbn [branches]; lia..].
  cbn [map rev]. rewrite map_app, sum_list_with_app. cbn [map sum_list_with children branches]. lia.
Qed.

Lemma pushed_shown l : fold_right (fun t P => shown t /\ P) True (map fst l) ->
  Forall2 shown_in (rev (map (fun t => e_path (entry_of t)) (pushed l))) (map children (rev (pushed l))).
Proof.
  induction l as [|[t a] l IH]; [constructor|]. cbn [map fst fold_right]. intros [Ht Hl]. specialize (IH Hl). rewrite pushed_cons.
  destruct t as [e u|e u ts]; [done|]. destruct a; [|done..]. cbn [map rev]. rewrite !map_app. apply Forall2_app; [done|].
  constructor; [|constructor]. destruct Ht as (_ & _ & Hd & Hts). by split.
Qed.

Lemma remark_all (tss : list (list (Tree ()))) : map (map (remark tt)) (map (map (remark Continue)) tss) = tss.
Proof.
  rewrite map_map. rewrite <- (map_id tss) at 2. apply map_ext. intros ts. rewrite map_map. rewrite <- (map_id ts) at 2.
  apply map_ext. apply remark_twice.
Qed.

Lemma walk_loop_order fuel : forall stack tss t, Forall2 shown_in stack tss ->
  (sum_list_with (fun us => S (sum_list_with branches us)) tss < fuel)%nat ->
  exists mss t', map (map (remark tt)) mss = tss /\ replay t (upto_stop (concat (map order mss))) t' /\
    walk_loop f w fuel stack t = Some (Ok tt, t').
Proof.
  induction fuel as [|fuel IH]; intros stack tss t Hs Hf; [lia|]. destruct Hs as [|dir ts stack tss [Hd Hts] Hs]; [by exists [], t|].
  cbn [walk_loop]. rewrite Hd. destruct (walk_dir_level dir ts stack t Hts) as (l & t1 & <- & Hrep & ->).
  assert (forall mss ms, map event ms = level l -> upto_stop (concat (map order (ms :: mss))) =
    if existsb stops (level l) then upto_stop (level l)
    else level l ++ upto_stop (concat (rev (map below ms)) ++ concat (map order mss))) as Hup.
  { intros mss ms E. cbn [map concat]. unfold order at 1. rewrite <- app_assoc, upto_stop_app. by rewrite E. }
  destruct (existsb stops (level l)) eqn:Ex.
  - destruct (mark_level l (map (map (remark Continue)) (map children (rev (pushed l)))) (remark_all _)) as (ms & E1 & E2 & _).
    exists (ms :: map (map (remark Continue)) tss), t1. split; [cbn [map]; by rewrite E1, remark_all|].
    split; [by rewrite Hup|done].
  - destruct (IH (rev (map (fun t => e_path (entry_of t)) (pushed l)) ++ stack) (map children (rev (pushed l)) ++ tss) t1)
      as (mss & t' & Em & Hr & ->).
    + apply Forall2_app; [by apply pushed_shown|done].
    + rewrite sum_list_with_app. pose proof (pushed_weight l). cbn [sum_list_with] in Hf. lia.
    + apply map_eq_app in Em as (css & mss' & -> & E1 & E2). destruct (mark_level l css E1) as (ms & F1 & F2 & F3).
      exists (ms :: mss'), t'. split; [cbn [map]; by rewrite F1, E2|]. split; [|done]. rewrite Hup by done.
      rewrite upto_stop_none in Hrep by done. eapply replay_app; [exact Hrep|]. rewrite F3, <- concat_app, <- map_app. exact Hr.
Qed.

(** The order lists what is reached, each entry once. *)
Lemma order_reach ts : order ts ≡ₚ flat_map reach ts.
Proof.
  assert (forall ts, Forall (fun t => event t :: below t ≡ₚ reach t) ts -> order ts ≡ₚ flat_map reach ts) as Hts.
  { intros us Hall. unfold order. rewrite <- (Permutation_rev (map below us)). induction Hall as [|x us Hx _ IH]; [done|].
    cbn [map concat flat_map app]. rewrite <- Hx, <- IH. cbn [app]. constructor. by rewrite Permutation_app_swap_app. }
  apply Hts, Forall_forall. intros x _. induction x as [e a|e a us IH] using tree_ind2; [done|]. cbn [below reach event].
  destruct a; [constructor; by apply Hts|done..].
Qed.
End Walking.

(** C36 A walk of a tree whose names and paths are UTF-8 and which stays as it is ([shown_in]; another name ends the walk
    with an error, [walk_fails_on_latin1]) succeeds, for any callback, which may keep a state of its own: there are answers,
    one for each entry, such that the callback is called on every entry that is below no directory it answered [SkipDir] for,
    each exactly once, the entries of a directory before what is below them, up to the first entry it answers [Stop] for;
    these are its answers when it is run on those entries in that order, and the state it ends in is the one that leaves.
    As many turns as there are directories are enough. *)
Theorem walk_visits {W} `{Vfs.Os W} (w : W) {T} (f : T -> Vfs.Entry -> Vfs.WalkAction * T) (path : bytes) (ts : list (Tree ())) (t : T) (fuel : nat) :
  shown_in w (Vfs.path_of path) ts -> (S (sum_list_with branches ts) < fuel)%nat ->
  exists (ms : list (Tree Vfs.WalkAction)) t', map (remark tt) ms = ts /\ order ms ≡ₚ flat_map reach ms /\
    replay f t (upto_stop (order ms)) t' /\ Vfs.walk f w fuel path t = Some (Ok tt, t').
Proof.
  intros Hs Hf. destruct (walk_loop_order w f fuel [Vfs.path_of path] [ts] t) as (mss & t' & Em & Hr & Hw).
  - constructor; [exact Hs|by apply Forall2_nil].
  - cbn. lia.
  - destruct mss as [|ms [|]]; try done. injection Em as Em. exists ms, t'. split; [done|]. split; [apply order_reach|].
    cbn [map concat] in Hr. rewrite app_nil_r in Hr. by split.
Qed.

(** ** Errors *)

Section Errors.
Import Vfs.
Context {W : Type} `{Os W}.

(** An error that reports one of the operating system, for some path. *)
Definition reported (e : VfsError) : Prop := exists p io, e = from_io p io.

Lemma map_err_reported {A} p (r : Result A IoError) e : map_err (from_io p) r = Err e -> reported e.
Proof. destruct r; [done|]. intros [= <-]. by eexists _, _. Qed.

Lemma entry_from_reported de e : entry_from de = Err e -> reported e.
Proof. unfold entry_from. destruct (de_meta de); [done|]. intros [= <-]. by eexists _, _. Qed.

Lemma list_loop_reported p es : forall out e, list_loop p es out = Err e -> reported e.
Proof.
  induction es as [|[de|io] es IH]; intros out e; cbn [list_loop map_err rbind]; [done| |by intros [= <-]; eexists _, _].
  destruct (entry_from de) eqn:E; cbn [rbind]; [apply IH|]. intros [= ->]. by eapply entry_from_reported.
Qed.

Lemma read_loop_reported p f offset n fuel : forall k buf e, read_loop fuel p f offset n k buf = Some (Err e) -> reported e.
Proof.
  induction fuel as [|fuel IH]; intros k buf e; cbn [read_loop]; [done|]. destruct (_ <? _); [|done].
  destruct (file_read f _ _ _) as [[|c d]|io]; [done|apply IH|]. intros [= <-]. by eexists _, _.
Qed.

Lemma walk_dir_reported {T} (f : T -> Entry -> WalkAction * T) dir es : forall stack t e t', walk_dir f dir es stack t = (Err e, t') -> reported e.
Proof.
  induction es as [|[de|io] es IH]; intros stack t e t'; cbn [walk_dir]; [done| |by intros [= <- _]; eexists _, _].
  destruct (entry_from de) eqn:E; [destruct (f t _) as [[] t1]; [apply IH|apply IH|done]|]. intros [= -> _]. by eapply entry_from_reported.
Qed.

Lemma walk_loop_reported {T} (f : T -> Entry -> WalkAction * T) w fuel : forall stack t e t', walk_loop f w fuel stack t = Some (Err e, t') -> reported e.
Proof.
  induction fuel as [|fuel IH]; intros [|dir stack] t e t'; cbn [walk_loop]; try done.
  destruct (os_read_dir dir w) as [es|io]; [|intros [= <- _]; by eexists _, _].
  destruct (walk_dir _ _ _ _ _) as [[[st|]|e1] t1] eqn:E; [apply IH|done|]. intros [= -> ->]. by eapply walk_dir_reported.
Qed.

(** Every failure of [LocalFs] reports an error of the operating system by its kind: a missing path, a denied permission or
    another I/O error.  [NotDir], [IsDir] and [Unsupported] are never raised. *)
Theorem vfs_errors_reported (path dst data : bytes) (offset n : Z) (w : W) (e : VfsError) :
  read path w = Err e \/ read_range path offset n w = Some (Err (Failed e)) \/ fst (write path data w) = Err e \/ fst (delete path w) = Err e \/
  open path w = Err e \/ metadata path w = Err e \/ list_dir path w = Err e \/
  fst (mkdir_all path w) = Err e \/ fst (copy path dst w) = Err e \/ fst (rename path dst w) = Err e \/
  (exists fuel T (f : T -> Entry -> WalkAction * T) t t', walk f w fuel path t = Some (Err e, t')) ->
  reported e /\ match e with NotDir _ | IsDir _ | Unsupported _ => False | _ => True end.
Proof.
  intros Hx. enough (reported e) as He; [split; [done|]; destruct He as (p & io & ->); unfold from_io; by destruct (kind io)|].
  destruct Hx as [Hx|[Hx|[Hx|[Hx|[Hx|[Hx|[Hx|[Hx|[Hx|[Hx|(fuel & T & f & t & t' & Hx)]]]]]]]]]].
  - by eapply map_err_reported.
  - unfold read_range in Hx. destruct (os_open _ w) as [f|io]; cbn [map_err fbind] in Hx; [|injection Hx as <-; by eexists _, _].
    destruct (file_seek f offset) as [[]|io]; cbn [map_err fbind] in Hx; [|injection Hx as <-; by eexists _, _].
    destruct (_ <? _); [done|]. destruct (read_loop _ _ _ _ _ _ _) as [[|e']|] eqn:E; cbn in Hx; try done. injection Hx as ->. by eapply read_loop_reported.
  - unfold write in Hx. destruct (os_write _ _ _). by eapply map_err_reported.
  - unfold delete in Hx. destruct (os_metadata _ w) as [m|io]; [|cbn in Hx; injection Hx as <-; by eexists _, _].
    destruct (is_dir m); [destruct (os_remove_dir_all _ w)|destruct (os_remove_file _ w)]; by eapply map_err_reported.
  - unfold open in Hx. destruct (os_open _ w) as [f|io]; cbn [map_err rbind] in Hx; [|injection Hx as <-; by eexists _, _].
    destruct (file_meta f) as [m|io]; cbn [map_err rbind] in Hx; [done|injection Hx as <-; by eexists _, _].
  - by eapply map_err_reported.
  - unfold list_dir in Hx. destruct (os_read_dir _ w) as [es|io]; cbn [map_err rbind] in Hx; [by eapply list_loop_reported|injection Hx as <-; by eexists _, _].
  - unfold mkdir_all in Hx. destruct (os_create_dir_all _ _). by eapply map_err_reported.
  - unfold copy in Hx. destruct (os_copy _ _ _) as [[|io] ?]; cbn in Hx; [done|injection Hx as <-; by eexists _, _].
  - unfold rename in Hx. destruct (os_rename _ _ _). by eapply map_err_reported.
  - by eapply walk_loop_reported.
Qed.
End Errors.

(** ** A file system in memory *)

Module MemFs.
Import Vfs.

(** Files with their content and directories with their entries, by path; no path is reached in two spellings. *)
Definition World : Type := gmap bytes (bytes + list DirEntry).

Definition missing : IoError := mkIo NotFoundKind (b!"No such file or directory").
Definition a_directory : IoError := mkIo (OtherKind (b!"IsADirectory")) (b!"Is a directory").

Definition stat (n : bytes + list DirEntry) : Metadata :=
  match n with inl c => mkMeta false (len c) | inr _ => mkMeta true 4096 end.

(** A file that is read in pieces of at most four bytes. *)
Definition file (c : bytes) : File :=
  mkFile (Ok (mkMeta false (len c))) (fun _ => Ok tt)
    (fun _ offset n => Ok (take (Z.to_nat (Z.min n 4)) (drop (Z.to_nat offset) c))) (Ok c).

#[export] Instance mem_os : Os World := {
  os_read := fun p w => match (w : gmap _ _) !! p with Some (inl c) => Ok c | Some (inr _) => Err a_directory | None => Err missing end;
  os_open := fun p w => match (w : gmap _ _) !! p with Some (inl c) => Ok (file c) | Some (inr _) => Err a_directory | None => Err missing end;
  os_metadata := fun p w => match (w : gmap _ _) !! p with Some n => Ok (stat n) | None => Err missing end;
  os_read_dir := fun p w => match (w : gmap _ _) !! p with Some (inr es) => Ok (map Ok es) | Some (inl _) => Err (mkIo (OtherKind (b!"NotADirectory")) (b!"Not a directory")) | None => Err missing end;
  os_write := fun p d w => (Ok tt, <[p := inl d]> (w : gmap _ _));
  os_remove_dir_all := fun p w => (Ok tt, base.delete p (w : gmap _ _));
  os_remove_file := fun p w => (Ok tt, base.delete p (w : gmap _ _));
  os_create_dir_all := fun p w => (Ok tt, <[p := inr []]> (w : gmap _ _));
  os_copy := fun s d w => match (w : gmap _ _) !! s with Some (inl c) => (Ok (len c), <[d := inl c]> (w : gmap _ _)) | _ => (Err missing, w) end;
  os_rename := fun s d w => match (w : gmap _ _) !! s with Some n => (Ok tt, <[d := n]> (base.delete s (w : gmap _ _))) | None => (Err missing, w) end;
}.

Definition plain_entry (dir name : bytes) (d : bool) (n : Z) : Entry := mkEntry (dir ++ b!"/" ++ name) name d n.

Definition demo_tree : list (Tree ()) := [
  Leaf (plain_entry (b!"/t") (b!"a.txt") false 11) tt;
  Branch (plain_entry (b!"/t") (b!"sub") true 4096) tt
    [Leaf (plain_entry (b!"/t/sub") (b!"b.txt") false 1) tt; Leaf (plain_entry (b!"/t/sub") (b!"d.txt") false 1) tt];
  Branch (plain_entry (b!"/t") (b!"skip") true 4096) tt [Leaf (plain_entry (b!"/t/skip") (b!"c.txt") false 1) tt]
].
Definition demo : World :=
  list_to_map [(b!"/t", inr (map (fun t => dirent (entry_of t)) demo_tree));
               (b!"/t/a.txt", inl (b!"hello world"));
               (b!"/t/sub", inr (map dirent [plain_entry (b!"/t/sub") (b!"b.txt") false 1; plain_entry (b!"/t/sub") (b!"d.txt") false 1]));
               (b!"/t/skip", inr [dirent (plain_entry (b!"/t/skip") (b!"c.txt") false 1)])].

(** Records the names it sees, skips one directory and stops at the fourth entry. *)
Definition first_four (seen : list bytes) (e : Entry) : WalkAction * list bytes :=
  (if bool_decide (e_name e = b!"skip") then SkipDir else if (3 <=? length seen)%nat then Stop else Continue, seen ++ [e_name e]).
End MemFs.
Import MemFs.

Lemma read_range_exact_witness :
  Vfs.read_range (b!"file:///t/a.txt") 6 9 demo = Some (Ok (b!"world")).
Proof.
  etransitivity; [apply (read_range_exact (b!"file:///t/a.txt") demo (file (b!"hello world")) (b!"hello world") 6 9)|by vm_compute].
  - by vm_compute.
  - done.
  - intros k offset n Ho Hn. eexists. split; [done|]. split; [eexists; by rewrite take_drop|].
    unfold len. rewrite length_take, length_drop. split; [lia|]. intros E%(f_equal length). rewrite length_take, length_drop in E. cbn [length] in E. lia.
  - lia.
  - unfold i64_max. lia.
Defined.

Lemma walk_visits_witness :
  exists ms, map (remark tt) ms = demo_tree /\
    replay first_four [] (upto_stop (order ms)) [b!"a.txt"; b!"sub"; b!"skip"; b!"b.txt"] /\
    Vfs.walk first_four demo 4 (b!"/t") [] = Some (Ok tt, [b!"a.txt"; b!"sub"; b!"skip"; b!"b.txt"]).
Proof.
  assert (Vfs.walk first_four demo 4 (b!"/t") [] = Some (Ok tt, [b!"a.txt"; b!"sub"; b!"skip"; b!"b.txt"])) as Hrun by by vm_compute.
  destruct (walk_visits demo first_four (b!"/t") demo_tree [] 4) as (ms & t' & Hm & _ & Hr & Hw).
  - split; [by vm_compute|]. repeat split; by vm_compute.
  - by vm_compute; lia.
  - exists ms. split; [exact Hm|]. rewrite Hrun in Hw. injection Hw as <-. by split.
Defined.

Lemma vfs_errors_reported_witness :
  Vfs.read (b!"file:///t/none") demo = Err (Vfs.NotFound (b!"/t/none")) /\ reported (Vfs.NotFound (b!"/t/none")).
Proof.
  split; [by vm_compute|]. apply (vfs_errors_reported (b!"file:///t/none") [] [] 0 0 demo). left. by vm_compute.
Defined.

(** The display that the derive generates. *)
Lemma vfs_error_text (e : Vfs.VfsError) :
  (let? code := ErrorDerive.expand_enum Vfs.vfs_variants in ok_or (ErrorDerive.fmt plain_show code (fst (Vfs.parts e)) (snd (Vfs.parts e))) []) = Ok
  match e with
  | Vfs.NotFound p => b!"not found: " ++ p
  | Vfs.Permission p => b!"permission denied: " ++ p
  | Vfs.NotDir p => b!"not a directory: " ++ p
  | Vfs.IsDir p => b!"is a directory: " ++ p
  | Vfs.Unsupported w => b!"unsupported operation: " ++ w
  | Vfs.Io p io => b!"io error at " ++ p ++ b!": " ++ io_text io
  end.
Proof. destruct e as [p|p|p|p|p|p [k t]]; vm_compute; repeat f_equal; apply app_nil_r. Qed.

(** The size of a directory is what the operating system says. *)
Example directory_size_reported : Vfs.metadata (b!"/t/sub") demo = Ok (Vfs.mkMeta true 4096).
Proof. by vm_compute. Qed.

(** An address of another scheme is taken for a local path, and a path that holds the separator is cut. *)
Example foreign_scheme_taken : Vfs.path_of (b!"s3://bucket/key") = b!"bucket/key" /\ Vfs.path_of (b!"/srv/http://x/y") = b!"x/y".
Proof. by vm_compute. Qed.

(** A range longer than [isize::MAX] panics, also where the file is short. *)
Example long_range_panics : Vfs.read_range (b!"/t/a.txt") 6 u64_max demo = Some (Err Vfs.Panicked).
Proof. by vm_compute. Qed.

(** A directory whose name is not UTF-8 ends the walk with an error. *)
Definition latin1_dir : Vfs.DirEntry := Vfs.mkDirEntry ([x2f; x74; x2f; xe9]) [xe9] (Ok (Vfs.mkMeta true 4096)).
Example walk_fails_on_latin1 :
  let w : World := list_to_map [(b!"/t", inr [latin1_dir]); (Vfs.de_path latin1_dir, inr [])] in
  Vfs.walk (fun n _ => (Vfs.Continue, S n)) w 4 (b!"/t") 0%nat
    = Some (Err (Vfs.NotFound ([x2f; x74; x2f; xef; xbf; xbd])), 1%nat).
Proof. by vm_compute. Qed.
