(* ===== verification/Root.v ===== *)
(** * The crate root ([lib.rs])

    The aggregated error with the attributes the derive reads: every variant wraps the error type of one module.  The rest
    of the root is module declarations and re-exports, as is [rt/mod.rs]. *)

From S2P Require Import Prelude Text Attrs ErrorDerive.
Import Attrs ErrorDerive.

Module Root.

(** The features that bring a variant in, the variants and the types they wrap, in order. *)
Definition wrapped : list (bytes * bytes * bytes) := [
  (b!"codec", b!"Codec", b!"codec::CodecError");
  (b!"config", b!"Config", b!"config::ConfigError");
  (b!"fsutils", b!"Fs", b!"fsutils::FsError");
  (b!"lifecycle", b!"Lifecycle", b!"lifecycle::LifecycleError");
  (b!"genai", b!"GenAi", b!"genai::GenAiError");
  (b!"rest", b!"Rest", b!"rest::ClientError");
  (b!"ws", b!"Ws", b!"ws::WsError");
  (b!"http", b!"Http", b!"http::HttpError");
  (b!"clients", b!"Breaker", b!"clients::CircuitOpenError");
  (b!"auth", b!"Auth", b!"auth::JwtError");
  (b!"turbo", b!"Param", b!"turbo::ParamError");
  (b!"messaging", b!"Messaging", b!"messaging::MessagingError");
  (b!"vectorstore", b!"VectorStore", b!"vectorstore::VectorStoreError")
].

Definition variant (m : bytes * bytes * bytes) : Variant :=
  let '(_, id, ty) := m in mkVariant id [transparent_attr] (Unnamed [([word_attr (b!"from")], ty)]).

(** [Error] in a build with the given features: [cfg] removes the other variants before the derive sees the type. *)
Definition crate_error (enabled : bytes -> bool) : list Variant := map variant (List.filter (fun m => enabled (fst (fst m))) wrapped).
End Root.
Import Root.

Lemma emit_wrapped ms : forall code, exists code', emit_all code (map variant ms) = Ok code'.
Proof.
  induction ms as [|[[ft id] ty] ms IH]; intros code; [by eexists|]. cbn [map emit_all]. unfold emit at 1. cbn. apply IH.
Qed.

(** The aggregated error, under any selection of features, is a lossless wrapper: its derive is accepted, every enabled
    module's error converts into exactly one variant, which displays it as it displays itself and gives it as its source. *)
Theorem crate_error_wraps {V} (show : bytes -> V -> bytes) (enabled : bytes -> bool) :
  exists code, expand_enum (crate_error enabled) = Ok code /\
  forall ft id ty (x : V), (ft, id, ty) ∈ wrapped -> enabled ft = true ->
    filter (fun p => snd p = id) (from_impls code) = [(ty, id)] /\
    fmt show code id [x] = Some (show [] x) /\ source code id [x] = Some x.
Proof.
  destruct (emit_wrapped (List.filter (fun m => enabled (fst (fst m))) wrapped) (mkCode [] [] [])) as [code Hc].
  exists code. split; [exact Hc|]. intros ft id ty x Hin Hft.
  assert (NoDup (map v_ident (crate_error enabled))) as Hnd.
  { unfold crate_error. apply (sublist_NoDup _ (map v_ident (map variant wrapped))); [by apply (bool_decide_eq_true (NoDup _)); vm_compute|].
    do 2 apply fmap_sublist. apply filter_sublist. }
  assert (variant (ft, id, ty) ∈ crate_error enabled) as Hv.
  { unfold crate_error. apply list_elem_of_fmap_2, list_elem_of_In, filter_In. split; [by apply list_elem_of_In|done]. }
  destruct (error_code show _ code (variant (ft, id, ty)) [x] Hnd Hc Hv) as (H1 & H2 & H3); [done|].
  split; [exact H3|]. split; [exact H1|exact H2].
Qed.

(** The error types of [vfs], [cli] and the router of [genai] have no variant. *)
Example unwrapped_modules : Forall (fun ft => ft ∉ map (fun m => fst (fst m)) wrapped) [b!"vfs"; b!"cli"].
Proof. apply (bool_decide_eq_true (Forall (fun ft => ft ∉ map (fun m => fst (fst m)) wrapped) _)). by vm_compute. Qed.
