(* ===== verification/Middleware.v ===== *)
(** * The router's own filters and layers, typed bodies ([turbo/mod.rs])

    The token-bucket rate limiter, the metrics, access-log and trace layers with the process state they share, and
    reading and answering with codec values.  Time is read from the state; [HashMap] iteration order does not matter
    to any of it. *)

From S2P Require Import Prelude Text Rounding Value HttpCore HttpServer HttpClient Turbo Traits Derive Streaming Registry Metrics Log.

Open Scope Z_scope.
Import HttpCore HttpServer Turbo Rounding.

(** ** Registration and the request context *)

Module Context.

(** [Ctx::method], [::path], [::header], [::body] and [::into_request] *)
Definition ctx_method (c : Ctx) : Method := method (request c).
Definition ctx_path (c : Ctx) : bytes := path (uri (request c)).
Definition header (c : Ctx) (name : bytes) : option bytes := get (headers (request c)) name.
Definition ctx_body (c : Ctx) : bytes := body (request c).
Definition into_request (c : Ctx) : Request := request c.

Section Methods.
Context {S : Type}.
(** [Router::get], [::post], ... *)
Definition router_get (r : Router S) (p : bytes) (h : Handler S) : Router S := add r p h [Get].
Definition router_post (r : Router S) (p : bytes) (h : Handler S) : Router S := add r p h [Post].
Definition router_put (r : Router S) (p : bytes) (h : Handler S) : Router S := add r p h [Put].
Definition router_delete (r : Router S) (p : bytes) (h : Handler S) : Router S := add r p h [Delete].
Definition router_patch (r : Router S) (p : bytes) (h : Handler S) : Router S := add r p h [Patch].
Definition router_head (r : Router S) (p : bytes) (h : Handler S) : Router S := add r p h [Head].
Definition router_options (r : Router S) (p : bytes) (h : Handler S) : Router S := add r p h [Options].

(** The same on [Group]. *)
Definition group_get (g : @Group S) (p : bytes) (h : Handler S) : Group := group_add g p h [Get].
Definition group_post (g : @Group S) (p : bytes) (h : Handler S) : Group := group_add g p h [Post].
Definition group_put (g : @Group S) (p : bytes) (h : Handler S) : Group := group_add g p h [Put].
Definition group_delete (g : @Group S) (p : bytes) (h : Handler S) : Group := group_add g p h [Delete].
Definition group_patch (g : @Group S) (p : bytes) (h : Handler S) : Group := group_add g p h [Patch].
End Methods.

End Context.

(** ** The rate limiter *)

Module RateLimit.

(** [f64::min] *)
Definition fmin (a b : F64.t) : F64.t :=
  if F64.is_nan a then b else if F64.is_nan b then a else if F64.ltb b a then b else a.

Definition SWEEP_INTERVAL : Z := 60 * 10 ^ 9.

(** [Instant::duration_since], in nanoseconds. *)
Definition duration_since (now earlier : Z) : Z := Z.max 0 (now - earlier).

(** The limiter's state: tokens and time of last use by key, and the time of the last sweep. *)
Record State := mkState { buckets : gmap bytes (F64.t * Z); last_sweep : Z }.

Definition state_new (now : Z) : State := mkState ∅ now.

Definition TOO_MANY_REQUESTS : StatusCode := 429.

Definition one : F64.t := F64.of_Z 1.

Section Limiter.
Context (per_second burst : F64.t).

(** The tokens of a bucket at [now]. *)
Definition refilled (b : F64.t * Z) (now : Z) : F64.t :=
  fmin (F64.add (fst b) (F64.mul (as_secs_f64 (duration_since now (snd b))) per_second)) burst.

Definition sweep (now : Z) (st : State) : State :=
  if SWEEP_INTERVAL <=? duration_since now (last_sweep st) then
    mkState (filter (fun kb => F64.ltb (refilled (snd kb) now) burst = true) (buckets st)) now
  else st.

(** A request on a bucket: whether it is admitted, and the bucket after it. *)
Definition draw (b : F64.t * Z) (now : Z) : bool * (F64.t * Z) :=
  let tokens := refilled b now in
  if F64.leb one tokens then (true, (F64.sub tokens one, now)) else (false, (tokens, now)).

Definition grant (key : bytes) (now : Z) (st : State) : bool * State :=
  let st := sweep now st in
  let entry := default (burst, now) (buckets st !! key) in
  let '(ok, entry) := draw entry now in
  (ok, mkState (<[key := entry]> (buckets st)) (last_sweep st)).

(** [Router::rate_limit]: [cell] is where the filter's shared state lives, [clock] the monotonic clock. *)
Definition rate_limit {S} (cell : S -> State) (store : State -> S -> S) (clock : S -> Z) (key_of : Ctx -> bytes)
    (r : Router S) : Router S :=
  add_filter r (fun s c =>
    let '(ok, st) := grant (key_of c) (clock s) (cell s) in
    (store st s, if ok then None else Some (text TOO_MANY_REQUESTS (b!"429 Too Many Requests")))).

(** ** One bucket per key, whatever is swept *)

(** The decisions on a sequence of requests. *)
Fixpoint decisions (st : State) (reqs : list (bytes * Z)) : list bool :=
  match reqs with
  | [] => []
  | (key, now) :: reqs => let '(ok, st) := grant key now st in ok :: decisions st reqs
  end.

(** Specification: a key's own bucket, full at the first request and never forgotten. *)
Fixpoint alone (b : option (F64.t * Z)) (times : list Z) : list bool :=
  match times with
  | [] => []
  | now :: times => let '(ok, b) := draw (default (burst, now) b) now in ok :: alone (Some b) times
  end.

Definition of_key {A} (key : bytes) (reqs : list (bytes * A)) : list A :=
  omap (fun r => if bool_decide (fst r = key) then Some (snd r) else None) reqs.

(** What the parameters must be: finite and not negative. *)
Definition amount (f : F64.t) : Prop := nonneg f /\ F64.is_finite f = true.

Context (Hrate : amount per_second) (Hburst : amount burst).

Lemma fmin_spec a b : nonneg a -> nonneg b -> fmin a b = if F64.leb b a then b else a.
Proof.
  intros Ha Hb. unfold fmin. assert (F64.is_nan a = false) as -> by (by destruct a). assert (F64.is_nan b = false) as -> by (by destruct b).
  rewrite ltb_leb by done. destruct (F64.leb a b) eqn:E1, (F64.leb b a) eqn:E2; try done; cbn [negb].
  - by apply leb_antisym.
  - by rewrite (leb_total a b) in E2.
Qed.

Lemma fmin_le a b : nonneg a -> nonneg b -> nonneg (fmin a b) /\ F64.leb (fmin a b) b = true.
Proof.
  intros Ha Hb. rewrite fmin_spec by done. destruct (F64.leb b a) eqn:E; (split; [done|]); [by apply leb_refl|by apply leb_total].
Qed.

(** A bucket used at [last] with an amount of tokens. *)
Definition bucket_ok (now : Z) (b : F64.t * Z) : Prop := amount (fst b) /\ 0 <= snd b <= now.

Lemma gain_mono last now now' :
  0 <= last -> now <= now' < max_nanos ->
  let gain t := F64.mul (as_secs_f64 (duration_since t last)) per_second in
  nonneg (gain now) /\ nonneg (gain now') /\ F64.leb (gain now) (gain now') = true.
Proof.
  intros Hl Hn gain. unfold gain, duration_since. destruct Hrate as [Nr Fr].
  destruct (as_secs_nonneg (Z.max 0 (now - last))) as [N1 F1]; [unfold max_nanos in *; lia|].
  destruct (as_secs_nonneg (Z.max 0 (now' - last))) as [N2 F2]; [unfold max_nanos in *; lia|].
  split_and!; [by apply mul_nonneg..|]. apply mul_mono; try done. apply as_secs_mono; unfold max_nanos in *; lia.
Qed.

Lemma refilled_amount b now : bucket_ok now b -> now < max_nanos -> amount (refilled b now) /\ F64.leb (refilled b now) burst = true.
Proof.
  intros [[Nb Fb] Hl] Hn. destruct Hburst as [Nu Fu]. destruct (gain_mono (snd b) now now) as (Ng & _ & _); [lia|lia|].
  pose proof (fmin_le _ burst (add_nonneg _ _ Nb Ng) Nu) as [N L]. split; [|done]. split; [done|]. by apply (leb_finite _ burst).
Qed.

(** A bucket that is full stays full until it is used. *)
Lemma full_later b now now' :
  bucket_ok now b -> now <= now' < max_nanos -> F64.ltb (refilled b now) burst = false -> refilled b now' = burst.
Proof.
  intros [[Nb Fb] Hl] Hn H. destruct Hburst as [Nu Fu].
  destruct (gain_mono (snd b) now now') as (N1 & N2 & Hle); [lia|lia|]. unfold refilled in *.
  set (x := F64.add (fst b) _) in *. assert (nonneg x) as Nx by (by apply add_nonneg).
  rewrite ltb_leb, negb_false_iff in H by (done || by destruct (fmin_le x burst Nx Nu)).
  assert (F64.leb burst x = true) as Hx.
  { rewrite fmin_spec in H by done. destruct (F64.leb burst x) eqn:E; [done|congruence]. }
  rewrite fmin_spec by (done || by apply add_nonneg).
  rewrite (leb_trans burst x); [done|done|done|by apply add_nonneg|done|by apply add_mono].
Qed.

Lemma refilled_now t now : amount t -> F64.leb t burst = true -> refilled (t, now) now = t.
Proof.
  intros [Nt Ft] Hle. destruct Hburst as [Nu Fu], Hrate as [Nr Fr]. unfold refilled, duration_since. cbn [fst snd]. rewrite Z.sub_diag.
  change (as_secs_f64 (Z.max 0 0)) with (SpecFloat.S754_zero false).
  assert (F64.mul (SpecFloat.S754_zero false) per_second = SpecFloat.S754_zero false) as ->.
  { destruct per_second as [[]|[]| |[]]; try done. by destruct Nr. }
  assert (F64.add t (SpecFloat.S754_zero false) = t) as -> by (by destruct t as [[]|[]| |]).
  rewrite fmin_spec by done. destruct (F64.leb burst t) eqn:E; [by apply leb_antisym|done].
Qed.

Lemma refilled_fresh now : refilled (burst, now) now = burst.
Proof. destruct Hburst. apply refilled_now; [done|by apply leb_refl]. Qed.

Lemma one_units : amount one /\ units one = 2 ^ 1074.
Proof. destruct (of_Z_exact 1) as (N & F & U); [lia|]. split; [done|]. unfold one. rewrite U. lia. Qed.

Lemma draw_ok b now : bucket_ok now b -> 0 <= now < max_nanos -> bucket_ok now (snd (draw b now)).
Proof.
  intros Hb Hn. destruct (refilled_amount b now Hb) as [[Nt Ft] _]; [lia|]. destruct one_units as [[N1 F1] U1].
  unfold draw. destruct (F64.leb one (refilled b now)) eqn:E; cbn [snd fst]; (split; [|cbn [snd]; lia]); [|done].
  rewrite leb_units in E by done. zbool. pose proof (units_pos one N1). rewrite sub_units by done. cbn [fst].
  assert (nonneg (rounded (units (refilled b now) - units one) 1)) as N by (by apply rounded_nonneg). split; [done|].
  eapply (leb_finite _ (refilled b now)); [done..|]. rewrite <- (rounded_units (refilled b now)) at 2 by done. apply rounded_mono; lia.
Qed.

(** The limiter's buckets against the never-swept ones: the same, or swept when full. *)
Definition sim (now : Z) (st : State) (spec : bytes -> option (F64.t * Z)) : Prop :=
  forall key, (forall b, spec key = Some b -> bucket_ok now b) /\
    (buckets st !! key = spec key \/
     buckets st !! key = None /\ exists b, spec key = Some b /\ F64.ltb (refilled b now) burst = false).

Lemma sim_sweep now st spec : sim now st spec -> sim now (sweep now st) spec.
Proof.
  intros Hs. unfold sweep. destruct (SWEEP_INTERVAL <=? _); [|done]. intros key. destruct (Hs key) as [Hok Hcase]. split; [done|].
  cbn [buckets]. rewrite map_lookup_filter. destruct Hcase as [->|[-> ?]]; [|by right].
  destruct (spec key) as [b|] eqn:E; [|by left]. cbn [mbind option_bind snd]. destruct (F64.ltb (refilled b now) burst) eqn:Ef.
  - left. by rewrite option_guard_True.
  - right. rewrite option_guard_False by done. eauto.
Qed.

Lemma sim_later now now' st spec : sim now st spec -> now <= now' < max_nanos -> sim now' st spec.
Proof.
  intros Hs Hn key. destruct (Hs key) as [Hok Hcase]. split.
  - intros b Hb. destruct (Hok b Hb). split; [done|lia].
  - destruct Hcase as [|(Hn' & b & Hb & Hf)]; [by left|]. right. split; [done|]. exists b. split; [done|].
    rewrite (full_later b now now') by auto. destruct Hburst. rewrite ltb_leb, leb_refl by done. done.
Qed.

(** One request does to the limiter what it does to the key's own bucket. *)
Lemma sim_admit now st spec key ok st' :
  sim now st spec -> 0 <= now < max_nanos -> grant key now st = (ok, st') ->
  let r := draw (default (burst, now) (spec key)) now in
  ok = fst r /\ sim now st' (fun k => if bool_decide (k = key) then Some (snd r) else spec k).
Proof.
  intros Hs Hn Ha. apply sim_sweep in Hs. unfold grant in Ha. set (st1 := sweep now st) in *.
  destruct (Hs key) as [Hok Hcase]. destruct Hburst as [Nu Fu].
  assert (draw (default (burst, now) (buckets st1 !! key)) now = draw (default (burst, now) (spec key)) now) as E.
  { destruct Hcase as [->|(-> & b & Hb & Hf)]; [done|]. rewrite Hb. cbn [default]. change (Datatypes.id b) with b.
    unfold draw. by rewrite (full_later b now now), refilled_fresh by (auto || lia). }
  rewrite E in Ha. assert (bucket_ok now (snd (draw (default (burst, now) (spec key)) now))) as Hd.
  { apply draw_ok; [|done]. destruct (spec key) as [b|] eqn:Eb; [by apply Hok|]. split; [done|cbn; lia]. }
  destruct (draw _ now) as [ok' b'] eqn:Ed. injection Ha as <- <-. split; [done|].
  intros k. cbn [buckets snd] in *. case_bool_decide as Hk.
  - subst k. rewrite lookup_insert_eq. split; [by intros ? [= <-]|by left].
  - rewrite lookup_insert_ne by done. destruct (Hs k). done.
Qed.

Lemma decisions_alone reqs : forall now st spec key,
  sim now st spec -> 0 <= now ->
  StronglySorted Z.le (now :: map snd reqs) -> Forall (fun r => snd r < max_nanos) reqs ->
  of_key key (zip (map fst reqs) (decisions st reqs)) = alone (spec key) (of_key key reqs).
Proof.
  induction reqs as [|[k t] reqs IH]; intros now st spec key Hs H0 Hso Hb; [done|]. apply Forall_cons in Hb as [Ht Hb].
  inversion Hso as [|? ? Hso' Hle]; subst. inversion Hle as [|? ? Hnt _]; subst. cbn [map fst snd] in *.
  apply (sim_later now t) in Hs; [|lia]. cbn [decisions]. destruct (grant k t st) as [ok st'] eqn:Ea.
  destruct (sim_admit t st spec k ok st' Hs ltac:(lia) Ea) as [-> Hs'].
  specialize (IH t st' _ key Hs' ltac:(lia) Hso' Hb). unfold of_key in *. cbn [zip zip_with map omap list_omap fst snd].
  rewrite IH. cbn beta. destruct (decide (k = key)) as [->|Hne].
  - rewrite !bool_decide_true by done. cbn [alone]. by destruct (draw _ t).
  - by rewrite !bool_decide_false by done.
Qed.

(** ** A burst at one instant *)

(** Taking a token is exact below 2^53. *)
Lemma sub_one t : amount t -> F64.leb one t = true -> units t < 2 ^ 53 * 2 ^ 1074 ->
  amount (F64.sub t one) /\ units (F64.sub t one) = units t - 2 ^ 1074.
Proof.
  intros [Nt Ft] H1 Hlt. destruct one_units as [[N1 F1] U1]. rewrite leb_units, U1 in H1 by done. zbool.
  rewrite sub_units by (done || rewrite U1; done). rewrite U1.
  destruct (finite_cases t Nt Ft) as [[-> E0]|(m & e & -> & Eu & Pu & G & Hm & He)]; [rewrite E0 in H1; lia|].
  rewrite Eu in *. destruct G as [Gr Gp Gf].
  assert (e <= 0) as He0.
  { destruct (decide (e <= 0)) as [|Hgt]; [done|]. destruct Gf as [->|Gf]; [lia|]. exfalso.
    pose proof (pow2_pos 1074 ltac:(lia)). assert (2 ^ (1 + 1074) <= 2 ^ (e + 1074)) by (apply Z.pow_le_mono_r; lia).
    rewrite (Z.pow_add_r 2 1) in * by lia. generalize dependent (2 ^ 1074). intros. nia. }
  replace (2 ^ 1074) with (2 ^ (- e) * 2 ^ (e + 1074)) in * by (rewrite <- Z.pow_add_r by lia; f_equal; lia).
  rewrite <- Z.mul_sub_distr_r in *. pose proof (pow2_pos (e + 1074) ltac:(lia)) as P1. pose proof (pow2_pos (- e) ltac:(lia)) as P2.
  destruct (rounded_exact (Zpos m - 2 ^ (- e)) (e + 1074)) as [F U].
  - split; [|lia]. apply Z.le_0_sub. by apply (Z.mul_le_mono_pos_r _ _ (2 ^ (e + 1074))).
  - lia.
  - apply (Z.le_lt_trans _ (Zpos m * 2 ^ (e + 1074))); [apply Z.mul_le_mono_nonneg_r; lia|].
    apply (Z.lt_le_trans _ (2 ^ 53 * 2 ^ (e + 1074))); [by apply Z.mul_lt_mono_pos_r|].
    rewrite <- Z.pow_add_r by lia. apply Z.pow_le_mono_r; lia.
  - split; [|done]. split; [by apply rounded_nonneg|done].
Qed.

Lemma alone_instant n now t :
  amount t -> F64.leb t burst = true -> units burst < 2 ^ 53 * 2 ^ 1074 ->
  alone (Some (t, now)) (replicate n now) =
  let k := Nat.min n (Z.to_nat (units t / 2 ^ 1074)) in replicate k true ++ replicate (n - k) false.
Proof.
  destruct Hburst as [Nu Fu]. destruct one_units as [[N1 F1] U1]. pose proof (pow2_pos 1074 ltac:(lia)) as HK.
  revert t. induction n as [|n IH]; intros t Ht Hle Hb; [done|]. pose proof Ht as [Nt Ft].
  cbn [replicate alone default]. change (Datatypes.id (t, now)) with (t, now). unfold draw. rewrite refilled_now by done.
  pose proof (units_pos t Nt) as Hu. destruct (F64.leb one t) eqn:E1.
  - assert (units t <= units burst) as Hub by (rewrite leb_units in Hle by done; by zbool).
    destruct (sub_one t Ht E1 ltac:(lia)) as [[Ns Fs] Us]. rewrite leb_units, U1 in E1 by done. zbool.
    rewrite IH; [|done| |done].
    + rewrite Us. replace (units t - 2 ^ 1074) with (units t + (-1) * 2 ^ 1074) by lia. rewrite Z.div_add by lia.
      assert (1 <= units t / 2 ^ 1074) by (apply Z.div_le_lower_bound; lia).
      set (k := Z.to_nat (units t / 2 ^ 1074)) in *. replace (Z.to_nat (units t / 2 ^ 1074 + -1)) with (k - 1)%nat by lia.
      replace (Nat.min (S n) k) with (S (Nat.min n (k - 1))) by lia. done.
    + rewrite leb_units, Us by done. apply Z.leb_le. lia.
  - rewrite leb_units, U1 in E1 by done. zbool. rewrite IH by done. rewrite Z.div_small by lia. cbn. by rewrite !Nat.min_0_r, Nat.sub_0_r.
Qed.

End Limiter.

(** ** Through the router *)

Section Serve.
Context {S : Type} (cell : S -> State) (store : State -> S -> S) (clock : S -> Z) (tick : Z -> S -> S).
Context (per_second burst : F64.t) (key_of : Ctx -> bytes) (application : Router S).

(** The filter's state is its own; the clock is what [tick] sets it to; the application has no authenticator, filter or
    middleware and leaves the limiter's state alone. *)
Record limits_app : Prop := {
  cell_store : forall st s, cell (store st s) = st;
  cell_tick : forall t s, cell (tick t s) = cell s;
  clock_tick : forall t s, clock (tick t s) = t;
  app_plain : auth application = None /\ filters application = [] /\ middlewares application = [];
  app_cell : forall s c, cell (fst (core_dispatch application s c)) = cell s;
}.

(** Requests arriving one after the other, each at a time. *)
Fixpoint serve (r : Router S) (s : S) (reqs : list (Z * Request)) : list HttpResponse :=
  match reqs with
  | [] => []
  | (t, req) :: reqs => let '(s, resp) := handle r (tick t s) req in resp :: serve r s reqs
  end.

Definition keyed (r : Z * Request) : bytes * Z := (key_of (mkCtx (snd r) ∅), fst r).

(** An admitted request is answered by the application, the others by the limiter. *)
Definition answered (ok : bool) (resp : HttpResponse) : Prop :=
  if ok then exists s req, resp = snd (core_dispatch application s (mkCtx req ∅))
  else resp = text TOO_MANY_REQUESTS (b!"429 Too Many Requests").

Lemma limited_dispatch s c :
  limits_app ->
  core_dispatch (rate_limit per_second burst cell store clock key_of application) s c =
  let '(ok, st) := grant per_second burst (key_of c) (clock s) (cell s) in
  if ok then core_dispatch application (store st s) c else (store st s, text TOO_MANY_REQUESTS (b!"429 Too Many Requests")).
Proof.
  intros [_ _ _ (Hau & Hfi & Hmi) _]. unfold core_dispatch. cbn [rate_limit add_filter auth filters]. rewrite Hau, Hfi.
  cbn [List.app run_filters]. by destruct (grant _ _ _ _ _) as [[] st].
Qed.

Lemma serve_decisions reqs : limits_app -> forall s,
  Forall2 answered (decisions per_second burst (cell s) (map keyed reqs))
    (serve (rate_limit per_second burst cell store clock key_of application) s reqs).
Proof.
  intros Hl. pose proof Hl as [Hst Hti Hcl (_ & _ & Hmi) Hap]. induction reqs as [|[t req] reqs IH]; intros s; [constructor|].
  cbn [map keyed snd fst decisions serve]. unfold handle. cbn [rate_limit add_filter middlewares]. rewrite Hmi. cbn [run_next].
  fold (rate_limit per_second burst cell store clock key_of application). rewrite limited_dispatch, Hcl, Hti by done.
  set (c := mkCtx req ∅). destruct (grant per_second burst (key_of c) t (cell s)) as [[] st].
  - pose proof (Hap (store st (tick t s)) c) as Hc. destruct (core_dispatch application _ c) as [s' resp] eqn:Ed. cbn [fst] in Hc.
    rewrite Hst in Hc. constructor; [|rewrite <- Hc; apply IH]. exists (store st (tick t s)), req. unfold c in Ed. by rewrite Ed.
  - constructor; [done|]. rewrite <- (Hst st (tick t s)) at 1. apply IH.
Qed.
End Serve.

Lemma of_key_zip {A B} (R : A -> B -> Prop) key (ks : list bytes) l l' :
  Forall2 R l l' -> Forall2 R (of_key key (zip ks l)) (of_key key (zip ks l')).
Proof.
  intros H. revert ks. induction H as [|x y l l' Hxy _ IH]; intros [|k ks]; try constructor.
  unfold of_key in *. cbn [zip zip_with omap list_omap fst snd]. case_bool_decide; [constructor; [done|]|]; apply IH.
Qed.

(** C15 The rate limiter gives every key a token bucket of its own: when requests arrive in the order of the clock, each
    key's requests are answered by the application or refused with 429 exactly as a single bucket that starts full
    and is never discarded decides on that key's arrival times alone.  In particular keys do not influence each
    other, and the periodic sweep of idle buckets is unobservable: floating-point refilling is monotone, so a bucket
    found full stays full until its next use. *)
Theorem rate_limit_per_key {S} (cell : S -> State) (store : State -> S -> S) (clock : S -> Z) (tick : Z -> S -> S)
  (per_second burst : F64.t) (key_of : Ctx -> bytes) (application : Router S) (s : S) (t0 : Z) (reqs : list (Z * Request)) (key : bytes) :
  amount per_second -> amount burst -> limits_app cell store clock tick application ->
  cell s = state_new t0 -> 0 <= t0 -> StronglySorted Z.le (t0 :: map fst reqs) -> Forall (fun r => fst r < max_nanos) reqs ->
  Forall2 (answered application)
    (alone per_second burst None (of_key key (map (keyed key_of) reqs)))
    (of_key key (zip (map (fun r => fst (keyed key_of r)) reqs)
       (serve tick (rate_limit per_second burst cell store clock key_of application) s reqs))).
Proof.
  intros Hr Hb Hl Hs H0 Hso Hm. pose proof (serve_decisions cell store clock tick per_second burst key_of application reqs Hl s) as H.
  apply (of_key_zip _ key (map (fun r => fst (keyed key_of r)) reqs)) in H. rewrite Hs in H.
  rewrite <- (map_map (keyed key_of) fst) in *.
  rewrite (decisions_alone per_second burst Hr Hb (map (keyed key_of) reqs) t0 (state_new t0) (fun _ => None) key) in H; try done.
  - intros k. split; [done|]. left. apply lookup_empty.
  - by rewrite map_map.
  - by apply Forall_map.
Qed.

Definition demo_app : Router (Z * State) := add router_new (b!"/") (fun s _ => (s, text OK (b!"ok"))) [Get].
Definition demo_request : Request := mkRequest Get (mkUri [] [] 0 (b!"/") None) [] [].

Lemma demo_limits : limits_app snd (fun st s => (fst s, st)) fst (fun t s => (t, snd s)) demo_app.
Proof. split; try done. intros s c. unfold core_dispatch, demo_app. cbn. repeat case_match; simplify_eq/=; done. Qed.

Lemma amount_of_Z n : 0 <= n < 2 ^ 53 -> amount (F64.of_Z n).
Proof. intros Hn. destruct (of_Z_exact n Hn) as (N & F & _). done. Qed.

Lemma rate_limit_per_key_witness :
  Forall2 (answered demo_app) [true; true; false; true]
    (serve (fun t s => (t, snd s)) (rate_limit one (F64.of_Z 2) snd (fun st s => (fst s, st)) fst (fun _ => b!"k") demo_app)
       (0, state_new 0) (map (fun t => (t, demo_request)) [5; 5; 5; 1000000005])).
Proof.
  refine (rate_limit_per_key snd (fun st s => (fst s, st)) fst (fun t s => (t, snd s)) one (F64.of_Z 2) (fun _ => b!"k") demo_app
    (0, state_new 0) 0 (map (fun t => (t, demo_request)) [5; 5; 5; 1000000005]) (b!"k") _ _ demo_limits eq_refl _ _ _).
  - apply (amount_of_Z 1). lia.
  - apply amount_of_Z. lia.
  - lia.
  - cbn [map fst]. repeat (lia || apply SSorted_nil || apply SSorted_cons || apply List.Forall_nil || apply List.Forall_cons).
  - repeat constructor; unfold max_nanos; cbn [fst]; lia.
Defined.

(** A full bucket lets through exactly the whole part of [burst] of any number of requests arriving at one instant,
    the first ones, and refuses the rest (for bursts below 2^53, where taking a token is exact). *)
Theorem burst_exact (per_second burst : F64.t) (n : nat) (now : Z) :
  amount per_second -> amount burst -> F64.ltb burst (F64.of_Z (2 ^ 53 - 1)) = true ->
  let k := Nat.min n (Z.to_nat (units burst / 2 ^ 1074)) in
  alone per_second burst None (replicate n now) = replicate k true ++ replicate (n - k) false.
Proof.
  intros Hr Hb Hlt k. destruct Hb as [Nb Fb]. destruct (of_Z_exact (2 ^ 53 - 1)) as (N & F & U); [lia|].
  rewrite (ltb_leb _ _ Nb N), (leb_units _ _ N Nb F Fb), U in Hlt. apply negb_true_iff in Hlt. zbool.
  transitivity (alone per_second burst (Some (burst, now)) (replicate n now)); [by destruct n|].
  assert (units burst < 2 ^ 53 * 2 ^ 1074) as Hu by (pose proof (pow2_pos 1074 ltac:(lia)); lia).
  exact (alone_instant per_second burst Hr (conj Nb Fb) n now burst (conj Nb Fb) (leb_refl _ Nb) Hu).
Qed.

Lemma burst_exact_witness :
  alone one (F64.of_decimal false 25 (-1)) None (replicate 4 7) = [true; true; false; false].
Proof.
  rewrite burst_exact.
  - reflexivity.
  - apply (amount_of_Z 1). lia.
  - split; [|reflexivity]. vm_compute. repeat split; try discriminate. right. discriminate.
  - reflexivity.
Defined.
End RateLimit.

(** ** The observability layers *)

Module Layers.

(** What the layers share with the rest of the process: the global metrics registry, the loggers' sinks, whether the
    trace provider is registered, the task-local [LOG_FIELDS], the trace id counter, the monotonic and the wall clock in
    nanoseconds, and what the context providers registered before and after the trace provider return. *)
Record Process := mkProcess {
  registry : Metrics.Registry;
  log_world : Log.World;
  trace_provider : bool;
  log_fields : option Log.Fields;
  trace_counter : Z;
  instant : Z;
  wall : Z;
  earlier_fields : list Log.Fields;
  later_fields : list Log.Fields;
}.

Definition with_registry (r : Metrics.Registry) (p : Process) : Process :=
  mkProcess r (log_world p) (trace_provider p) (log_fields p) (trace_counter p) (instant p) (wall p) (earlier_fields p) (later_fields p).
Definition with_log_world (w : Log.World) (p : Process) : Process :=
  mkProcess (registry p) w (trace_provider p) (log_fields p) (trace_counter p) (instant p) (wall p) (earlier_fields p) (later_fields p).
Definition with_log_fields (f : option Log.Fields) (p : Process) : Process :=
  mkProcess (registry p) (log_world p) (trace_provider p) f (trace_counter p) (instant p) (wall p) (earlier_fields p) (later_fields p).
Definition with_trace_counter (n : Z) (p : Process) : Process :=
  mkProcess (registry p) (log_world p) (trace_provider p) (log_fields p) n (instant p) (wall p) (earlier_fields p) (later_fields p).

(** A state that contains the process. *)
Class HasProcess (S : Type) := {
  proc : S -> Process;
  set_proc : Process -> S -> S;
  proc_set : forall p s, proc (set_proc p s) = p;
  set_set : forall p q s, set_proc p (set_proc q s) = set_proc p s;
}.

(** [TRACE_PROVIDER_INIT.call_once] *)
Definition init_trace_provider (p : Process) : Process :=
  mkProcess (registry p) (log_world p) true (log_fields p) (trace_counter p) (instant p) (wall p) (earlier_fields p) (later_fields p).

(** What the context providers return: the trace provider reads the task-local. *)
Definition providers (p : Process) : list Log.Fields :=
  earlier_fields p ++ (if trace_provider p then [default [] (log_fields p)] else []) ++ later_fields p.

(** [{n:x}] *)
Definition show_hex_lower (n : Z) : bytes := to_ascii_lowercase (show_hex n).

(** [gen_trace_id]; the time before the epoch counts as 0. *)
Definition gen_trace_id (p : Process) : bytes * Process :=
  let n := trace_counter p in
  (show_hex_lower (Z.max 0 (wall p)) ++ [x2d] ++ show_hex_lower n, with_trace_counter (wrap64 (n + 1)) p).

Section Layers.
Context {S : Type} `{HasProcess S}.

Definition update (f : Process -> Process) (s : S) : S := set_proc (f (proc s)) s.

(** The record [access_log] emits. *)
Definition access_fields (m : Method) (p : bytes) (status ms : Z) : Log.Fields :=
  [(b!"method", Value.Str (as_str m)); (b!"path", Value.Str p); (b!"status", Value.UInt status); (b!"ms", Value.UInt ms)].

(** [Router::access_log] *)
Definition access_log_layer (logger : Log.Logger) : Middleware S := fun s c next =>
  let m := Context.ctx_method c in
  let p := Context.ctx_path c in
  let start := instant (proc s) in
  let '(s, resp) := next s c in
  let ms := wrap64 (Z.max 0 (instant (proc s) - start) / 10 ^ 6) in
  let pr := proc s in
  (set_proc (with_log_world (Log.log (wall pr) (providers pr) logger Log.Info (b!"request")
               (access_fields m p (status resp) ms) (log_world pr)) pr) s, resp).

Definition access_log (r : Router S) (logger : Log.Logger) : Router S := layer r (access_log_layer logger).

(** [Router::metrics] *)
Definition metrics_layer : Middleware S := fun s c next =>
  let m := as_str (Context.ctx_method c) in
  let '(in_flight, reg) := Metrics.gauge (b!"http_requests_in_flight") (b!"In-flight HTTP requests") [] (registry (proc s)) in
  let s := update (with_registry (Metrics.with_cell (Metrics.on_gauge Metrics.gauge_inc) in_flight reg)) s in
  let start := instant (proc s) in
  let '(s, resp) := next s c in
  let elapsed := as_secs_f64 (Z.max 0 (instant (proc s) - start)) in
  let reg := Metrics.with_cell (Metrics.on_gauge Metrics.gauge_dec) in_flight (registry (proc s)) in
  let code := show_uint (status resp) in
  let '(total, reg) := Metrics.counter (b!"http_requests_total") (b!"Total HTTP requests") [(b!"method", m); (b!"status", code)] reg in
  let reg := Metrics.with_cell (Metrics.on_counter Metrics.counter_inc) total reg in
  let '(duration, reg) := Metrics.histogram (b!"http_request_duration_seconds") (b!"HTTP request latency in seconds")
                            [(b!"method", m)] Metrics.DEFAULT_BUCKETS reg in
  let reg := Metrics.with_cell (Metrics.on_histogram (Metrics.observe elapsed)) duration reg in
  (update (with_registry reg) s, resp).

Definition metrics (r : Router S) : Router S := layer r metrics_layer.

(** [Router::metrics_route] *)
Definition metrics_handler : Handler S := fun s _ =>
  (s, with_header (text OK (Metrics.encode (registry (proc s)))) (b!"content-type")
        (b!"text/plain; version=0.0.4; charset=utf-8")).

Definition metrics_route (r : Router S) (p : bytes) : Router S := Context.router_get r p metrics_handler.

(** [Router::trace_context]: the layer; registering it also registers the provider. *)
Definition trace_layer : Middleware S := fun s c next =>
  let '(trace_id, s) :=
    match Context.header c (b!"x-request-id") with
    | Some id => (id, s)
    | None => let '(id, p) := gen_trace_id (proc s) in (id, set_proc p s)
    end in
  let outer := log_fields (proc s) in
  let '(s, resp) := next (update (with_log_fields (Some [(b!"trace_id", Value.Str trace_id)])) s) c in
  (update (with_log_fields outer) s, resp).

Definition trace_context (r : Router S) (s : S) : Router S * S := (layer r trace_layer, update init_trace_provider s).
End Layers.


(** ** The metrics layer counts requests *)

Import Metrics.

(** A handle obtained for a gauge: the series' cell, or a detached one when the series is of another kind. *)
Definition gauge_handle (k : Key) (h : nat) (r : Registry) : Prop :=
  (h < length (cells r))%nat /\ exists i, instrument_at k r = Some i /\
  if bool_decide (kind i = KGauge) then h = handle i else forall k' i', instrument_at k' r = Some i' -> handle i' <> h.

Lemma event_obtains e : exists name hlp labels, event_key e = (name, sorted_labels labels) /\ forall r,
  run_event r e = let '(h, r') := obtain (kind_of (event_fresh e)) (event_fresh e) name hlp labels r in with_cell (event_op e) h r'.
Proof. destruct e; by eexists _, _, _. Qed.

Lemma handle_kept k h r e : inv r -> gauge_handle k h r -> gauge_handle k h (run_event r e).
Proof.
  intros Hi (Hl & i & Hk & Hh). destruct (event_obtains e) as (name & hlp & labels & _ & ->).
  destruct (obtain _ _ _ _ _ _) as [h' r'] eqn:Eo. destruct (obtain_spec _ _ _ _ _ _ _ _ Hi eq_refl Eo) as [_ Hat].
  set (key := (name, sorted_labels labels)) in *. clearbody key. unfold gauge_handle, with_cell at 1. cbn [cells families]. rewrite length_alter.
  assert (length (cells r) <= length (cells r'))%nat as Hlen.
  { destruct (instrument_at key r).
    - destruct Hat as [_ Hat]. case_bool_decide; destruct Hat as [_ ->]; rewrite ?length_app; lia.
    - destruct Hat as (_ & -> & _). rewrite length_app. lia. }
  split; [lia|]. exists i. change (instrument_at ?k' (with_cell _ _ _)) with (instrument_at k' r').
  destruct (instrument_at key r) as [j|] eqn:Ej.
  - destruct Hat as [Hsame _]. rewrite Hsame. split; [done|]. case_bool_decide; [done|]. intros k' i'.
    change (instrument_at k' (with_cell _ _ _)) with (instrument_at k' r'). rewrite Hsame. apply Hh.
  - destruct Hat as (-> & _ & Hsame). rewrite Hsame, decide_False by (intros ->; congruence). split; [done|].
    case_bool_decide; [done|]. intros k' i'. change (instrument_at k' (with_cell _ _ _)) with (instrument_at k' r'). rewrite Hsame.
    case_decide; [intros [= <-]; cbn [handle]; lia|apply Hh].
Qed.

Lemma handles_kept k h es : forall r, inv r -> gauge_handle k h r ->
  inv (foldl run_event r es) /\ gauge_handle k h (foldl run_event r es) /\
  forall k', cell_at k' (foldl run_event r es) = foldl (spec_step k') (cell_at k' r) es.
Proof.
  induction es as [|e es IH]; intros r Hi Hh; [done|]. cbn [foldl]. destruct (run_event_spec r e Hi) as [Hi' Hc].
  destruct (IH _ Hi' (handle_kept k h r e Hi Hh)) as (H1 & H2 & H3). split_and!; [done|done|]. intros k'. by rewrite H3, Hc.
Qed.

Lemma gauge_obtained name hlp labels r h r' :
  inv r -> gauge name hlp labels r = (h, r') -> gauge_handle (name, sorted_labels labels) h r'.
Proof.
  intros Hi Hg. destruct (obtain_spec KGauge (CGauge (mkGauge 0)) _ _ _ _ _ _ Hi eq_refl Hg) as [Hi' Hat]. cbn zeta in Hat.
  set (key := (name, sorted_labels labels)) in *. unfold gauge_handle. destruct (instrument_at key r) as [i|] eqn:Ei.
  - destruct Hat as [Hsame Hat]. destruct (inv_cell r Hi key i Ei) as (c & Hl & _). apply lookup_lt_Some in Hl.
    case_bool_decide as Hk; destruct Hat as [-> Hc]; rewrite Hc, ?length_app.
    + split; [lia|]. exists i. by rewrite Hsame, bool_decide_true.
    + split; [cbn; lia|]. exists i. rewrite Hsame, bool_decide_false by done. split; [done|]. intros k' i' Hk'. rewrite Hsame in Hk'.
      destruct (inv_cell r Hi k' i' Hk') as (c' & Hl' & _). apply lookup_lt_Some in Hl'. lia.
  - destruct Hat as (-> & Hc & Hsame). rewrite Hc, length_app. split; [cbn; lia|]. eexists. rewrite Hsame, decide_True by done.
    split; [done|]. by rewrite bool_decide_true.
Qed.

(** An operation through such a handle is the event on its series. *)
Lemma gauge_op_spec name hlp labels n h r :
  inv r -> gauge_handle (name, sorted_labels labels) h r ->
  let r' := with_cell (on_gauge (gauge_add n)) h r in
  inv r' /\ forall k, cell_at k r' = spec_step k (cell_at k r) (EGaugeAdd name hlp labels n).
Proof.
  intros Hi (Hl & i & Hk & Hh) r'. set (key := (name, sorted_labels labels)) in *.
  assert (forall k, instrument_at k r' = instrument_at k r) as Hw by done. destruct Hi as [Hf Hs Hc Hd]. split.
  - split; [done|done| |done]. intros k j Hj. rewrite Hw in Hj. destruct (Hc k j Hj) as (c & Hlc & Hkc). unfold r'. cbn [with_cell cells].
    destruct (decide (h = handle j)) as [->|Hne].
    + rewrite list_lookup_alter_eq, Hlc. eexists. split; [done|]. by destruct c.
    + rewrite list_lookup_alter_ne by done. eauto.
  - intros k. unfold cell_at. rewrite Hw. unfold spec_step. cbn [event_key event_fresh kind_of]. fold key. unfold r'. cbn [with_cell cells].
    destruct (decide (key = k)) as [<-|Hne]; [rewrite bool_decide_true by done|rewrite bool_decide_false by done].
    + rewrite Hk. cbn [mbind option_bind]. destruct (Hc key i Hk) as (c & Hlc & Hkc). rewrite Hlc, Hkc. case_bool_decide as Eg.
      * subst h. by rewrite list_lookup_alter_eq, Hlc.
      * rewrite list_lookup_alter_ne by (intros E; by apply (Hh key i Hk)). done.
    + destruct (instrument_at k r) as [j|] eqn:Ej; [|done]. cbn [mbind option_bind]. apply list_lookup_alter_ne.
      case_bool_decide; [|by intros ->; eapply Hh]. subst h. intros E. by apply Hne, (Hd key k i j).
Qed.

(** The events of one request: the layer's own around those of everything that runs while it is handled. *)
Definition request_events (m code : bytes) (elapsed : F64.t) (inner : list Event) : list Event :=
  EGaugeAdd (b!"http_requests_in_flight") (b!"In-flight HTTP requests") [] 1 :: inner ++
  [EGaugeAdd (b!"http_requests_in_flight") (b!"In-flight HTTP requests") [] (-1);
   EInc (b!"http_requests_total") (b!"Total HTTP requests") [(b!"method", m); (b!"status", code)] 1;
   EObserve (b!"http_request_duration_seconds") (b!"HTTP request latency in seconds") [(b!"method", m)] DEFAULT_BUCKETS elapsed].


Section Counted.
Context {S : Type} `{HasProcess S}.

(** Code that touches the registry only by using instruments, those of [names] excepted. *)
Definition uses_registry (names : list bytes) (before after : S) : Prop :=
  exists es, registry (proc after) = foldl run_event (registry (proc before)) es /\ Forall (fun e => fst (event_key e) ∉ names) es.

Lemma run_event_cells r e : inv r -> inv (run_event r e) /\ forall k o, cell_at k r = o -> cell_at k (run_event r e) = spec_step k o e.
Proof. intros Hi. destruct (run_event_spec r e Hi) as [H1 H2]. split; [done|]. by intros k o <-. Qed.

Lemma metrics_layer_events names s c next :
  inv (registry (proc s)) -> (forall s, uses_registry names s (fst (next s c))) ->
  let '(s', resp) := metrics_layer s c next in
  (exists s1, resp = snd (next s1 c)) /\ inv (registry (proc s')) /\
  exists elapsed inner, Forall (fun e => fst (event_key e) ∉ names) inner /\
    forall k, cell_at k (registry (proc s')) =
      foldl (spec_step k) (cell_at k (registry (proc s)))
        (request_events (as_str (Context.ctx_method c)) (show_uint (status resp)) elapsed inner).
Proof.
  intros Hi Hn. unfold metrics_layer. destruct (gauge _ _ _ _) as [h r0] eqn:Eg.
  pose proof (gauge_obtained _ _ _ _ _ _ Hi Eg) as Hh0.
  pose proof (obtain_spec KGauge (CGauge (mkGauge 0)) _ _ _ _ _ _ Hi eq_refl Eg) as [Hi0 _].
  set (r1 := with_cell (on_gauge gauge_inc) h r0). set (s1 := update (with_registry r1) s).
  set (e1 := EGaugeAdd (b!"http_requests_in_flight") (b!"In-flight HTTP requests") [] 1).
  assert (r1 = run_event (registry (proc s)) e1) as Er1 by (unfold run_event, e1, r1; by rewrite Eg).
  destruct (run_event_cells _ e1 Hi) as [Hi1 Hc1]. rewrite <- Er1 in Hi1, Hc1.
  assert (gauge_handle (b!"http_requests_in_flight", sorted_labels []) h r1) as Hh1.
  { destruct Hh0 as (Hl & Hrest). split; [unfold r1; cbn [with_cell cells]; by rewrite length_alter|done]. }
  assert (registry (proc s1) = r1) as Ep1 by (unfold s1, update; by rewrite proc_set).
  destruct (Hn s1) as (inner & Hin & Hnames). destruct (next s1 c) as [s2 resp] eqn:En. cbn [fst] in Hin. rewrite Ep1 in Hin.
  destruct (handles_kept _ h inner r1 Hi1 Hh1) as (Hi2 & Hh2 & Hc2). rewrite <- Hin in *.
  set (elapsed := as_secs_f64 _). set (code := show_uint (status resp)). set (m := as_str (Context.ctx_method c)).
  destruct (gauge_op_spec _ (b!"In-flight HTTP requests") _ (-1) h _ Hi2 Hh2) as [Hi3 Hc3].
  set (r3 := with_cell (on_gauge (gauge_add (-1))) h (registry (proc s2))) in *.
  change (with_cell (on_gauge gauge_dec) h (registry (proc s2))) with r3.
  set (e4 := EInc (b!"http_requests_total") (b!"Total HTTP requests") [(b!"method", m); (b!"status", code)] 1).
  set (e5 := EObserve (b!"http_request_duration_seconds") (b!"HTTP request latency in seconds") [(b!"method", m)] DEFAULT_BUCKETS elapsed).
  destruct (run_event_cells r3 e4 Hi3) as [Hi4 Hc4]. destruct (run_event_cells (run_event r3 e4) e5 Hi4) as [Hi5 Hc5].
  destruct (counter _ _ _ r3) as [h4 r4] eqn:E4.
  assert (with_cell (on_counter counter_inc) h4 r4 = run_event r3 e4) as -> by (unfold run_event, e4; by rewrite E4).
  destruct (histogram _ _ _ _ (run_event r3 e4)) as [h5 r5] eqn:E5.
  assert (with_cell (on_histogram (observe elapsed)) h5 r5 = run_event (run_event r3 e4) e5) as -> by (unfold run_event at 1, e5; by rewrite E5).
  unfold update. rewrite proc_set. split; [exists s1; by rewrite En|]. cbn [with_registry registry]. split; [done|].
  exists elapsed, inner. split; [done|]. intros k. unfold request_events. cbn [foldl]. rewrite foldl_app. cbn [foldl].
  fold e1 e4 e5. apply Hc5, Hc4. rewrite Hc3, Hc2. by rewrite (Hc1 k _ eq_refl).
Qed.


(** The requests served one after the other, with their answers. *)
Fixpoint serve_all (r : Router S) (s : S) (reqs : list Request) : S * list (Request * HttpResponse) :=
  match reqs with
  | [] => (s, [])
  | req :: reqs =>
      let '(s, resp) := Turbo.handle r s req in
      let '(s, rest) := serve_all r s reqs in
      (s, (req, resp) :: rest)
  end.

Definition metric_names : list bytes := [b!"http_requests_in_flight"; b!"http_requests_total"; b!"http_request_duration_seconds"].

Definition counter_cell (n : Z) : option Cell := if n =? 0 then None else Some (CCounter (mkCounter (wrap64 n))).

Definition total_key (m code : bytes) : Key := (b!"http_requests_total", [(b!"method", m); (b!"status", code)]).
Definition in_flight_key : Key := (b!"http_requests_in_flight", []).
Definition duration_key (m : bytes) : Key := (b!"http_request_duration_seconds", [(b!"method", m)]).

Lemma spec_other k o es : Forall (fun e => event_key e <> k) es -> foldl (spec_step k) o es = o.
Proof.
  intros Hf. revert o. induction Hf as [|e es He _ IH]; intros o; [done|]. cbn [foldl]. rewrite IH. unfold spec_step.
  by rewrite bool_decide_false.
Qed.

Lemma inner_other (k : Key) es :
  Forall (fun e => fst (event_key e) ∉ metric_names) es -> fst k ∈ metric_names -> Forall (fun e => event_key e <> k) es.
Proof. intros Hf Hk. eapply Forall_impl; [exact Hf|]. intros e He E. apply He. by rewrite E. Qed.

Lemma counter_step m code m' code' el inner n :
  Forall (fun e => fst (event_key e) ∉ metric_names) inner -> 0 <= n ->
  foldl (spec_step (total_key m code)) (counter_cell n) (request_events m' code' el inner) =
  counter_cell (n + if bool_decide (m' = m) && bool_decide (code' = code) then 1 else 0).
Proof.
  intros Hf Hn. unfold request_events. cbn [foldl]. rewrite foldl_app, (spec_other _ _ inner) by (by apply inner_other; [|set_solver]).
  cbn [foldl]. unfold spec_step at 1 3 4. cbn [event_key]. rewrite !(bool_decide_false (_ = total_key m code)) by (intros E; by apply (f_equal fst) in E).
  unfold spec_step. cbn [event_key]. change (sorted_labels [(b!"method", m'); (b!"status", code')]) with [(b!"method", m'); (b!"status", code')].
  destruct (decide (m' = m /\ code' = code)) as [[-> ->]|Hne].
  - rewrite !bool_decide_true by done. cbn [andb]. unfold counter_cell. rewrite (proj2 (Z.eqb_neq (n + 1) 0)) by lia.
    destruct (Z.eqb_spec n 0) as [->|]; [done|]. cbn [event_fresh kind_of]. rewrite bool_decide_true by done.
    cbn [event_op on_counter]. do 3 f_equal. unfold counter_inc_by. cbn [c_v]. unfold wrap64. by rewrite Zplus_mod_idemp_l.
  - rewrite (bool_decide_false (_ = total_key m code)) by (intros [= -> ->]; by apply Hne). rewrite <- bool_decide_and, bool_decide_false by done.
    by rewrite Z.add_0_r.
Qed.

Lemma gauge_step m' code' el inner o :
  Forall (fun e => fst (event_key e) ∉ metric_names) inner -> o = None \/ o = Some (CGauge (mkGauge 0)) ->
  foldl (spec_step in_flight_key) o (request_events m' code' el inner) = Some (CGauge (mkGauge 0)).
Proof.
  intros Hf Ho. unfold request_events. cbn [foldl]. rewrite foldl_app, (spec_other _ _ inner) by (by apply inner_other; [|set_solver]).
  cbn [foldl]. unfold spec_step at 1 2. cbn [event_key]. rewrite !(bool_decide_false (_ = in_flight_key)) by (intros E; by apply (f_equal fst) in E).
  by destruct Ho as [-> | ->].
Qed.

(** A histogram that has observed [n] values, absent before the first. *)
Definition duration_cell (n : Z) (o : option Cell) : Prop :=
  if n =? 0 then o = None else exists h, o = Some (CHistogram h) /\ bounds h = bounds (histogram_new DEFAULT_BUCKETS) /\ count h = wrap64 n.

Lemma duration_step m m' code' el inner n o :
  Forall (fun e => fst (event_key e) ∉ metric_names) inner -> 0 <= n -> duration_cell n o ->
  duration_cell (n + if bool_decide (m' = m) then 1 else 0) (foldl (spec_step (duration_key m)) o (request_events m' code' el inner)).
Proof.
  intros Hf Hn Ho. unfold request_events. cbn [foldl]. rewrite foldl_app, (spec_other _ _ inner) by (by apply inner_other; [|set_solver]).
  cbn [foldl]. unfold spec_step at 2 3 4. cbn [event_key]. rewrite !(bool_decide_false (_ = duration_key m)) by (intros E; by apply (f_equal fst) in E).
  unfold spec_step. cbn [event_key]. change (sorted_labels [(b!"method", m')]) with [(b!"method", m')].
  destruct (decide (m' = m)) as [->|Hne].
  - rewrite !bool_decide_true by done. unfold duration_cell in *. rewrite (proj2 (Z.eqb_neq (n + 1) 0)) by lia.
    destruct (Z.eqb_spec n 0) as [->|].
    + subst o. eexists. split; [done|]. done.
    + destruct Ho as (h & -> & Hb & Hc). cbn [event_fresh kind_of]. rewrite bool_decide_true by done. eexists. split; [done|].
      split; [done|]. cbn [observe store_sum bump_count bump_bucket count]. rewrite Hc. unfold wrap64. by rewrite Zplus_mod_idemp_l.
  - rewrite (bool_decide_false (_ = duration_key m)) by (intros [= ->]; by apply Hne). rewrite bool_decide_false by done. by rewrite Z.add_0_r.
Qed.

Definition matching (m code : bytes) (x : Request * HttpResponse) : bool :=
  bool_decide (as_str (method (fst x)) = m) && bool_decide (show_uint (status (snd x)) = code).
Definition with_method (m : bytes) (x : Request * HttpResponse) : bool := bool_decide (as_str (method (fst x)) = m).

(** The three series, when so many requests have been counted. *)
Record counted (r : Registry) (total : bytes -> bytes -> Z) (timed : bytes -> Z) (used : bool) : Prop := {
  counted_inv : inv r;
  counted_total : forall m code, 0 <= total m code /\ cell_at (total_key m code) r = counter_cell (total m code);
  counted_gauge : cell_at in_flight_key r = if used then Some (CGauge (mkGauge 0)) else None;
  counted_timed : forall m, 0 <= timed m /\ duration_cell (timed m) (cell_at (duration_key m) r);
}.

Lemma serve_counted (application : Router S) (reqs : list Request) :
  middlewares application = [] -> (forall s c, uses_registry metric_names s (fst (core_dispatch application s c))) ->
  forall s total timed used, counted (registry (proc s)) total timed used ->
  let '(s', log) := serve_all (metrics application) s reqs in
  counted (registry (proc s')) (fun m code => total m code + tally (matching m code) log)
    (fun m => timed m + tally (with_method m) log) (used || negb (bool_decide (reqs = []))).
Proof.
  intros Hmw Huse. induction reqs as [|req reqs IH]; intros s total timed used [Hi Ht Hg Hd]; cbn [serve_all].
  { split; [done|..].
    - intros m code. destruct (Ht m code). cbn. by rewrite Z.add_0_r.
    - by rewrite bool_decide_true, orb_false_r.
    - intros m. destruct (Hd m). cbn. by rewrite Z.add_0_r. }
  unfold Turbo.handle. cbn [metrics layer middlewares]. rewrite Hmw. cbn [List.app run_next].
  set (next := core_dispatch (metrics application)). set (c := mkCtx req ∅).
  assert (forall s, uses_registry metric_names s (fst (next s c))) as Hn by (intros s0; apply Huse).
  pose proof (metrics_layer_events metric_names s c next Hi Hn) as HL.
  destruct (metrics_layer s c next) as [s1 resp]. destruct HL as (_ & Hi1 & el & inner & Hin & Hcell).
  specialize (IH s1 (fun m code => total m code + if matching m code (req, resp) then 1 else 0)
    (fun m => timed m + if with_method m (req, resp) then 1 else 0) true).
  destruct (serve_all (metrics application) s1 reqs) as [s2 log]. destruct IH as [Hi2 Ht2 Hg2 Hd2].
  - split; [done|..].
    + intros m code. destruct (Ht m code) as [H0 Hc]. split; [destruct (matching _ _ _); lia|]. rewrite Hcell, Hc. by apply counter_step.
    + rewrite Hcell. apply gauge_step; [done|]. rewrite Hg. destruct used; [by right|by left].
    + intros m. destruct (Hd m) as [H0 Hc]. split; [destruct (with_method _ _); lia|]. rewrite Hcell. by apply duration_step.
  - assert (forall (p : Request * HttpResponse -> bool) z, z + (if p (req, resp) then 1 else 0) + tally p log = z + tally p ((req, resp) :: log)) as Ea.
    { intros p z. unfold tally. cbn [List.filter]. destruct (p _); cbn [length]; lia. }
    split; [done|..].
    + intros m code. destruct (Ht2 m code). by rewrite <- Ea.
    + rewrite Hg2. cbn [orb]. by rewrite bool_decide_false, orb_true_r.
    + intros m. destruct (Hd2 m). by rewrite <- Ea.
Qed.

End Counted.

(** The metrics layer counts every request once: after any requests served through a router with the layer, whose
    application code uses the registry for other instruments as it likes, the counter of a method and status holds
    the number of requests answered so, the histogram of a method has observed once per request with that method, and
    no request is left in flight. *)
Theorem requests_counted {S} `{HasProcess S} (application : Router S) (s : S) (reqs : list Request) :
  middlewares application = [] -> (forall s c, uses_registry metric_names s (fst (core_dispatch application s c))) ->
  registry (proc s) = registry_new ->
  let '(s', log) := serve_all (metrics application) s reqs in
  map fst log = reqs /\
  forall m code,
    cell_at (total_key m code) (registry (proc s')) = counter_cell (tally (matching m code) log) /\
    duration_cell (tally (with_method m) log) (cell_at (duration_key m) (registry (proc s'))) /\
    cell_at in_flight_key (registry (proc s')) = (if bool_decide (reqs = []) then None else Some (CGauge (mkGauge 0))).
Proof.
  intros Hmw Huse Hr. pose proof (serve_counted application reqs Hmw Huse s (fun _ _ => 0) (fun _ => 0) false) as Hc.
  assert (forall (r : Router S) (s : S), map fst (snd (serve_all r s reqs)) = reqs) as Hlog.
  { intros r. clear. induction reqs as [|req reqs IH]; intros s; [done|]. cbn [serve_all]. destruct (Turbo.handle r s req) as [s1 resp].
    specialize (IH s1). destruct (serve_all r s1 reqs). cbn [snd map fst] in *. by rewrite IH. }
  specialize (Hlog (metrics application) s). destruct (serve_all _ s reqs) as [s' log]. destruct Hc as [_ Ht Hg Hd].
  - rewrite Hr. split; [apply registry_inv_new|done..].
  - split; [done|]. intros m code. destruct (Ht m code) as [_ Hc]. destruct (Hd m) as [_ Hm]. split_and!; [done|done|].
    rewrite Hg. by case_bool_decide.
Qed.


#[export] Program Instance process_itself : HasProcess Process := { proc := fun p => p; set_proc := fun p _ => p }.
Solve Obligations with done.

Definition demo_process : Process := mkProcess registry_new Log.world_new false None 0 0 0 [] [].
Definition demo_router : Router Process := add router_new (b!"/") (fun s _ => (s, text OK (b!"ok"))) [Get].
Definition demo_get (p : bytes) : Request := mkRequest Get (mkUri [] [] 0 p None) [] [].

Lemma demo_quiet s c : uses_registry metric_names s (fst (core_dispatch demo_router s c)).
Proof. exists []. split; [|done]. cbn. repeat case_match; simplify_eq/=; done. Qed.

Lemma requests_counted_witness :
  let r := registry (proc (fst (serve_all (metrics demo_router) demo_process [demo_get (b!"/"); demo_get (b!"/x"); demo_get (b!"/")]))) in
  cell_at (total_key (b!"GET") (b!"200")) r = Some (CCounter (mkCounter 2)) /\
  cell_at (total_key (b!"GET") (b!"404")) r = Some (CCounter (mkCounter 1)).
Proof.
  pose proof (requests_counted demo_router demo_process [demo_get (b!"/"); demo_get (b!"/x"); demo_get (b!"/")] eq_refl demo_quiet eq_refl) as H.
  destruct (serve_all _ _ _) as [s' log] eqn:E. destruct H as [_ H]. cbn [fst]. cbn zeta.
  assert (log = snd (serve_all (metrics demo_router) demo_process [demo_get (b!"/"); demo_get (b!"/x"); demo_get (b!"/")])) as El by (by rewrite E).
  destruct (H (b!"GET") (b!"200")) as [H1 _]. destruct (H (b!"GET") (b!"404")) as [H2 _]. rewrite El in H1, H2. split; [exact H1|exact H2].
Defined.


(** ** Trace ids *)

Lemma lower_hex_digit c : hex_ok c = true -> to_digit 16 (ascii_lower c) = to_digit 16 c /\ ascii_lower c <> x2d /\ ascii_lower c <> x2b.
Proof. destruct c; try discriminate; intros _; vm_compute; (split_and!; [reflexivity|discriminate|discriminate]). Qed.

Lemma show_hex_lower_spec max n :
  0 <= n <= max -> x2d ∉ show_hex_lower n /\ parse_uint 16 max (show_hex_lower n) = Some n.
Proof.
  intros Hn. destruct (show_hex_spec max n Hn) as (Hne & Hd & Hp). unfold show_hex_lower. split.
  - unfold to_ascii_lowercase. intros (c & E & Hc)%list_elem_of_fmap. rewrite Forall_forall in Hd.
    destruct (lower_hex_digit c (Hd c Hc)) as (_ & Hx & _). done.
  - assert (forall acc, parse_digits 16 max acc (to_ascii_lowercase (show_hex n)) = parse_digits 16 max acc (show_hex n)) as He.
    { clear Hne Hp. unfold to_ascii_lowercase. induction Hd as [|c ds Hc _ IH]; intros acc; [done|]. cbn [map parse_digits].
      destruct (lower_hex_digit c Hc) as (-> & _ & _). destruct (to_digit 16 c); [|done]. cbn [mbind option_bind].
      destruct (_ <? _); [done|]. apply IH. }
    rewrite <- Hp. destruct (show_hex n) as [|c ds]; [done|]. inv Hd. cbn [to_ascii_lowercase map parse_uint] in *.
    destruct (lower_hex_digit c H1) as (_ & _ & Hx). rewrite (bool_decide_false (ascii_lower c = x2b)) by done.
    rewrite (bool_decide_false (c = x2b)) by (intros ->; discriminate). apply He.
Qed.

(** Ids generated one after the other, at the given wall-clock times. *)
Definition at_wall (w : Z) (p : Process) : Process :=
  mkProcess (registry p) (log_world p) (trace_provider p) (log_fields p) (trace_counter p) (instant p) w (earlier_fields p) (later_fields p).

Fixpoint gen_trace_ids (walls : list Z) (p : Process) : list bytes :=
  match walls with
  | [] => []
  | w :: walls => let '(id, p) := gen_trace_id (at_wall w p) in id :: gen_trace_ids walls p
  end.

Lemma gen_trace_ids_lookup walls : forall p i id,
  0 <= trace_counter p < 2 ^ 64 -> gen_trace_ids walls p !! i = Some id ->
  (i < length walls)%nat /\
  exists w, 0 <= w /\ id = show_hex_lower w ++ x2d :: show_hex_lower (wrap64 (trace_counter p + Z.of_nat i)).
Proof.
  induction walls as [|w walls IH]; intros p i id Hp Hi; [done|]. cbn [gen_trace_ids] in Hi.
  unfold gen_trace_id in Hi. cbn [at_wall trace_counter wall] in Hi. set (p' := with_trace_counter _ _) in Hi.
  destruct i as [|i]; cbn [lookup list_lookup] in Hi.
  - injection Hi as <-. split; [cbn; lia|]. exists (Z.max 0 w). split; [lia|]. do 3 f_equal. unfold wrap64. rewrite Z.add_0_r.
    symmetry. apply Z.mod_small. lia.
  - destruct (IH p' i id) as (Hlt & w' & Hw' & ->); [|done|].
    + cbn [p' with_trace_counter trace_counter]. unfold wrap64. apply Z.mod_pos_bound. lia.
    + split; [cbn [length]; lia|]. exists w'. split; [done|]. do 3 f_equal. cbn [p' with_trace_counter trace_counter]. unfold wrap64.
      rewrite Zplus_mod_idemp_l. f_equal. lia.
Qed.

(** Generated trace ids are distinct within a process, whatever the wall clock does, for the first 2^64 of them. *)
Theorem trace_ids_distinct (walls : list Z) (p : Process) :
  0 <= trace_counter p < 2 ^ 64 -> Z.of_nat (length walls) <= 2 ^ 64 -> NoDup (gen_trace_ids walls p).
Proof.
  intros Hp Hl. apply NoDup_alt. intros i j id Hi Hj.
  destruct (gen_trace_ids_lookup _ _ _ _ Hp Hi) as (Hli & w & Hw & ->). destruct (gen_trace_ids_lookup _ _ _ _ Hp Hj) as (Hlj & w' & Hw' & E).
  assert (forall n, 0 <= wrap64 n <= 2 ^ 64) as Hwr by (intros n; unfold wrap64; pose proof (Z.mod_pos_bound n 18446744073709551616); lia).
  destruct (show_hex_lower_spec w w) as [Hd _]; [lia|]. destruct (show_hex_lower_spec w' w') as [Hd' _]; [lia|].
  apply (f_equal (split_once x2d)) in E. rewrite !split_once_app in E by done. injection E as _ E.
  destruct (show_hex_lower_spec _ _ (Hwr (trace_counter p + Z.of_nat i))) as [_ P1].
  destruct (show_hex_lower_spec _ _ (Hwr (trace_counter p + Z.of_nat j))) as [_ P2]. rewrite E in P1. rewrite P1 in P2. injection P2 as P2.
  unfold wrap64 in P2. change (2 ^ 64) with 18446744073709551616 in *.
  assert (forall x, 0 <= x < 2 * 18446744073709551616 -> x mod 18446744073709551616 = if x <? 18446744073709551616 then x else x - 18446744073709551616) as Hm.
  { intros x Hx. destruct (Z.ltb_spec x 18446744073709551616); [apply Z.mod_small; lia|].
    symmetry. apply (Z.mod_unique_pos x 18446744073709551616 1); lia. }
  rewrite !Hm in P2 by lia. repeat case_match; zbool; lia.
Qed.

Lemma trace_ids_distinct_witness : NoDup (gen_trace_ids [7; 7; -3] demo_process).
Proof. apply trace_ids_distinct; cbn; lia. Defined.

(** ** Log records carry the request's trace id *)

Section Trace.
Context {S : Type} `{HasProcess S}.

(** The id a request gets. *)
Definition trace_id_of (s : S) (c : Ctx) : bytes :=
  match Context.header c (b!"x-request-id") with Some id => id | None => fst (gen_trace_id (proc s)) end.

(** Code that leaves the task-local and the list of providers as it found them. *)
Definition keeps_context (before after : S) : Prop :=
  log_fields (proc after) = log_fields (proc before) /\ trace_provider (proc after) = trace_provider (proc before).

Definition traced (id : bytes) : Log.Fields := [(b!"trace_id", Value.Str id)].

(** With the trace layer outside the access log, the application runs with the request's trace id as its logging
    context, whatever it logs; the access-log record written after it carries the same id between the fields of the
    other providers; and afterwards the task's context is what it was, on every path. *)
Theorem trace_context_scopes (application : Router S) (logger : Log.Logger) (s : S) (req : Request) :
  middlewares application = [] -> (forall s c, keeps_context s (fst (core_dispatch application s c))) ->
  trace_provider (proc s) = true ->
  let r := access_log (layer application trace_layer) logger in
  let c := mkCtx req ∅ in
  let '(s', resp) := Turbo.handle r s req in
  exists s1 s2, core_dispatch application s1 c = (s2, resp) /\
    log_fields (proc s1) = Some (traced (trace_id_of s c)) /\
    (forall p, log_fields p = log_fields (proc s1) -> trace_provider p = trace_provider (proc s1) ->
       providers p = earlier_fields p ++ [traced (trace_id_of s c)] ++ later_fields p) /\
    log_fields (proc s') = log_fields (proc s) /\
    exists ms, log_world (proc s') =
      Log.log (wall (proc s2)) (earlier_fields (proc s2) ++ [traced (trace_id_of s c)] ++ later_fields (proc s2)) logger Log.Info
        (b!"request") (access_fields (method req) (path (uri req)) (status resp) ms) (log_world (proc s2)).
Proof.
  intros Hmw Hk Hp r c. unfold Turbo.handle. cbn [r access_log layer middlewares]. rewrite Hmw. cbn [List.app run_next].
  unfold trace_layer at 1. fold c. set (inner := fun s c => access_log_layer logger s c (core_dispatch r)).
  assert (exists s0, (let '(trace_id, s) := match Context.header c (b!"x-request-id") with
      | Some id => (id, s) | None => let '(id, p) := gen_trace_id (proc s) in (id, set_proc p s) end in (trace_id, s)) = (trace_id_of s c, s0) /\
    log_fields (proc s0) = log_fields (proc s) /\ trace_provider (proc s0) = true) as (s0 & E & Hf0 & Hp0).
  { unfold trace_id_of. destruct (Context.header c _) as [id|]; [by exists s|]. eexists. split; [done|]. by rewrite proc_set. }
  destruct (match Context.header c (b!"x-request-id") with Some id => _ | None => _ end) as [id s0'] eqn:E'. injection E as -> ->.
  unfold inner, access_log_layer. set (s1 := update _ s0). change (core_dispatch r) with (core_dispatch application).
  assert (log_fields (proc s1) = Some (traced (trace_id_of s c)) /\ trace_provider (proc s1) = true) as [Hf1 Hp1]
    by (unfold s1, update; by rewrite proc_set).
  destruct (Hk s1 c) as [Hf2 Hp2]. destruct (core_dispatch application s1 c) as [s2 resp] eqn:Ed. cbn [fst] in Hf2, Hp2.
  unfold update. rewrite !proc_set. cbn [with_log_fields with_log_world log_fields log_world].
  exists s1, s2. split_and!; [done|done| |by rewrite Hf0|].
  - intros p Hpf Hpp. unfold providers. by rewrite Hpf, Hpp, Hf1, Hp1.
  - eexists. unfold providers. rewrite Hf2, Hp2, Hf1, Hp1. done.
Qed.
End Trace.

Lemma demo_keeps s c : keeps_context s (fst (core_dispatch demo_router s c)).
Proof. split; cbn; repeat case_match; simplify_eq/=; done. Qed.

Definition demo_traced : Process := mkProcess registry_new Log.world_new true None 0 0 0 [] [].

Lemma trace_context_scopes_witness :
  exists s1 s2 ms,
    log_fields s1 = Some (traced (b!"0-0")) /\
    log_world (fst (Turbo.handle (access_log (layer demo_router trace_layer) Log.json) demo_traced (demo_get (b!"/")))) =
    Log.log (wall s2) (earlier_fields s2 ++ [traced (b!"0-0")] ++ later_fields s2) Log.json Log.Info (b!"request")
      (access_fields Get (b!"/") 200 ms) (log_world s2).
Proof.
  pose proof (trace_context_scopes demo_router Log.json demo_traced (demo_get (b!"/")) eq_refl demo_keeps eq_refl) as H. cbn zeta in H.
  destruct (Turbo.handle _ _ _) as [s' resp]. destruct H as (s1 & s2 & Hd & Hf & _ & _ & ms & Hw). exists s1, s2, ms.
  assert (status resp = 200) as Hr by (vm_compute in Hd; by injection Hd as <- <-). rewrite Hr in Hw. split; [exact Hf|exact Hw].
Defined.

(** Registered the other way round, the access-log record is written outside the scope and has no trace id. *)
Example access_log_outside_trace :
  let lines r := match Log.sinks (log_world (fst (Turbo.handle r demo_traced (demo_get (b!"/"))))) with
                 | [Log.Sync w] => w | _ => [] end in
  contains_str (lines (access_log (layer demo_router trace_layer) Log.json)) (b!"trace_id") = true /\
  contains_str (lines (layer (access_log demo_router Log.json) trace_layer)) (b!"trace_id") = false.
Proof. vm_compute. split; reflexivity. Qed.

End Layers.

(** ** Typed bodies *)

Module Typed.
Import Traits Derive Streaming Registry.

Definition INTERNAL_SERVER_ERROR : StatusCode := 500.
Definition NOT_ACCEPTABLE : StatusCode := 406.

Section Bodies.
Context {T : Type}.

(** [Ctx::read] *)
Definition read `{Traits.Decode T} (c : Ctx) : option (Result T Failure) :=
  decode (default (b!"application/json") (Context.header c (b!"content-type"))) (Context.ctx_body c).

(** [Ctx::respond] *)
Definition respond `{Traits.Encode T} (c : Ctx) (st : StatusCode) (value : T) : HttpResponse :=
  match negotiate_content_type (default [] (Context.header c (b!"accept"))) with
  | Some ct =>
      match encode ct value with
      | Ok bs => with_body (with_header (new st) (b!"content-type") ct) bs
      | _ => text INTERNAL_SERVER_ERROR (b!"500 response encode error")
      end
  | None => text NOT_ACCEPTABLE (b!"406 Not Acceptable")
  end.
End Bodies.

(** The type each format is sent as. *)
Definition canonical_type (f : Format) : bytes :=
  match f with Json => b!"application/json" | Xml => b!"application/xml" | Yaml => b!"application/yaml" | Toml => b!"application/toml" end.

(** The format an element of an Accept header asks for: the wildcards ask for JSON, types match as written. *)
Definition accepted_format (part : bytes) : option Format :=
  let ct := trim (default [] (head (split_on x3b part))) in
  if bool_decide (ct ∈ [b!"*/*"; b!"application/*"]) then Some Json
  else if bool_decide (ct ∈ [b!"application/json"; b!"text/json"; b!"application/xml"; b!"text/xml"; b!"application/yaml"; b!"text/yaml";
                             b!"application/x-yaml"; b!"text/x-yaml"; b!"application/yml"; b!"text/yml"; b!"application/toml"; b!"text/toml";
                             b!"application/x-toml"]) then from_content_type ct
  else None.

Lemma canonical_known f : from_content_type (canonical_type f) = Some f.
Proof. by destruct f. Qed.

Definition known_types : list bytes :=
  [b!"*/*"; b!"application/*"; b!"application/json"; b!"text/json"; b!"application/xml"; b!"text/xml"; b!"application/yaml";
   b!"text/yaml"; b!"application/x-yaml"; b!"text/x-yaml"; b!"application/yml"; b!"text/yml"; b!"application/toml"; b!"text/toml";
   b!"application/x-toml"].

Lemma supported_format part :
  supported (trim (default [] (head (split_on x3b part)))) = canonical_type <$> accepted_format part.
Proof.
  unfold accepted_format. set (ct := trim _). clearbody ct. destruct (decide (ct ∈ known_types)) as [Hin|Hout].
  - repeat (apply elem_of_cons in Hin as [->|Hin]; [reflexivity|]). by apply elem_of_nil in Hin.
  - assert (forall l, forallb (fun t => bool_decide (t ∈ known_types)) l = true -> ct ∉ l) as Hno.
    { intros l Hl Hx. apply Hout. apply (forallb_elem _ l ct) in Hl; [|done]. by apply bool_decide_eq_true in Hl. }
    unfold supported. by rewrite !(bool_decide_false (ct ∈ _)) by (apply Hno; vm_compute; reflexivity).
Qed.

(** The first acceptable format; JSON when the header is absent or blank. *)
Definition negotiated (accept : bytes) : option Format :=
  if bool_decide (trim accept = []) then Some Json else head (omap accepted_format (split_on x2c accept)).

Lemma negotiate_format accept : negotiate_content_type accept = canonical_type <$> negotiated accept.
Proof.
  unfold negotiate_content_type, negotiated. case_bool_decide; [done|]. induction (split_on x2c accept) as [|part parts IH]; [done|].
  cbn [negotiate_loop omap list_omap]. rewrite supported_format. by destruct (accepted_format part).
Qed.

(** [respond] always answers with the value in the first format of the request's [Accept] header, JSON when there is
    none, or with 406 when no element is acceptable; never with 500.  Whoever sends the body back under its content
    type, as a request, has it read as the same value, when the format represents the value faithfully. *)
Theorem respond_negotiates {T} `{Traits.Encode T, Traits.Decode T, Traits.Valid T, !Traits.Streams T, !Streaming.JsonComplete T}
  (c : Ctx) (st : StatusCode) (x : T) :
  match negotiated (default [] (Context.header c (b!"accept"))) with
  | None => respond c st x = text NOT_ACCEPTABLE (b!"406 Not Acceptable")
  | Some f =>
      exists bs, encode (canonical_type f) x = Ok bs /\
        respond c st x = with_body (with_header (new st) (b!"content-type") (canonical_type f)) bs /\
        forall c', Traits.Lossless (loose f) T -> Traits.valid x -> faithful f (Traits.encode x) = true -> Utf8.is_utf8 bs = true ->
          Context.header c' (b!"content-type") = Some (canonical_type f) -> Context.ctx_body c' = bs -> read c' = Some (Ok x)
  end.
Proof.
  unfold respond. rewrite negotiate_format. destruct (negotiated _) as [f|]; [|done]. cbn [fmap option_fmap option_map].
  pose proof (canonical_known f) as Hf. pose proof (encode_writes f (canonical_type f) x Hf) as He. rewrite He. eexists. split_and!; [done|done|].
  intros c' Hl Hv Hfa Hu Hh Hb. unfold read. rewrite Hh, Hb. cbn [default]. by eapply (decode_encode f).
Qed.

Definition asking (accept : bytes) : Ctx :=
  mkCtx (mkRequest Get (mkUri [] [] 0 (b!"/") None) [(b!"accept", accept)] []) ∅.
Definition sending (ct bs : bytes) : Ctx :=
  mkCtx (mkRequest Post (mkUri [] [] 0 (b!"/") None) [(b!"content-type", ct)] bs) ∅.

Lemma respond_negotiates_witness :
  exists bs, respond (asking (b!"image/png, text/yaml;q=0.5")) OK sample =
    with_body (with_header (new OK) (b!"content-type") (b!"application/yaml")) bs /\
  read (sending (b!"application/yaml") bs) = Some (Ok sample).
Proof.
  pose proof (respond_negotiates (asking (b!"image/png, text/yaml;q=0.5")) OK sample) as H.
  change (negotiated _) with (Some Yaml) in H. destruct H as (bs & He & Hr & Hrd). exists bs. split; [exact Hr|].
  assert (bs = sample_yaml) as -> by (vm_compute in He; by injection He as <-).
  apply Hrd; [apply _|vm_compute; repeat constructor|vm_compute; reflexivity|vm_compute; reflexivity|reflexivity|reflexivity].
Defined.

(** A media type written in upper case, which a content type may be, is not accepted. *)
Example accept_is_case_sensitive :
  negotiated (b!"Application/JSON") = None /\ from_content_type (b!"Application/JSON") = Some Json.
Proof. vm_compute. split; reflexivity. Qed.

(** Quality values are ignored: a type refused with [q=0] is chosen. *)
Example accept_quality_ignored : negotiated (b!"application/xml;q=0, application/json") = Some Xml.
Proof. vm_compute. reflexivity. Qed.
End Typed.
